(* ===== verification/_CoqProject ===== *)
-Q . S2P
Prelude.v
Errors.v
Trigger.v
Fifo.v
Proxy.v
Core.v
Utils.v
Socket.v
Interfaces.v
RegisteredMemory.v
Endpoint.v
Semaphore.v
IbQp.v
IbVerbs.v
Connection.v
ConnOps.v
Connect.v
PortChannel.v
Communicator.v
Bootstrap.v
RingSockets.v
ExecutionPlan.v
Executor.v
ExecutorExchange.v
Algorithm.v
Nccl.v
DeviceSync.v
DeviceCopy.v
Packets.v
GpuDataTypes.v
ExecutionKernel.v
KernelLaunch.v
MemoryChannel.v
Collectives.v
AllreduceAllpair.v
GridKernel.v
AllgatherFullmesh.v
RsagZeroCopy.v
GpuIpcMem.v
SwitchChannel.v
UnixSocket.v
