(* ===== verification/Prelude.v ===== *)
(** * MSCCL++: a verification development

    MSCCL++ (paths below are relative to the repository root) lets GPU threads
    drive communication.  A GPU thread either works on peer memory itself (memory
    channels), pushes a 128-bit trigger into a FIFO from which a proxy thread on the
    host takes it and performs it on a connection (port channels), or uses a multicast
    object of the switch (switch channels).  Connections, registered memories and
    semaphores are set up over a bootstrap network, by a communicator.  On top of this an
    executor runs plans: programs for the thread blocks of every rank, read from a
    file; and built-in collectives, behind an interface of NCCL's shape, are kernels
    written for memory channels.

    ** Files, bottom up

    Ground:
    - [Prelude]: machine integers ([u32], [u64], [s32] over [Z]), bit fields, rings,
      tactics and the hint database shared by all files.
    - [Errors]: error codes and exceptions (src/core/errors.cc); [result] is the
      error monad of the host code: [Ok] or [Throw].
    - [Core]: transports, transport flags, devices and raw serialization
      (include/mscclpp/core.hpp, src/core/core.cc, include/serialization.hpp).
    - [Utils]: bus identifiers, lists of an environment variable, the pool of tokens
      (src/core/utils_internal.cc).

    Triggers and the proxy:
    - [Trigger]: [ProxyTrigger], packing and bit fields (include/mscclpp/fifo_device.hpp).
    - [Fifo]: the FIFO between GPU threads and the proxy thread
      (fifo_device.hpp, src/core/fifo.cc).  [dev_step] and [cons_step] are the
      operations cut at their shared accesses, [run] interleaves them.
    - [Proxy]: the proxy thread's loop, start and stop (src/core/proxy.cc).
    - [ConnOps]: the interface of a connection, as the classes [ConnOps] (operations),
      [ConnView] (issued and completed operations) and [ConnLaws] (what a flush
      promises), with the instance for [Connection].
    - [PortChannel]: the proxy service, proved against that interface
      (port_channel.cc, port_channel_device.hpp).

    Set-up between processes:
    - [Socket], [Interfaces]: sockets with handshake and time limits, and the choice of a
      network interface (bootstrap/socket.cc).
    - [Bootstrap], [RingSockets]: framing, ring collectives and the root; the ring
      collectives over sockets that block, byte by byte (bootstrap/bootstrap.cc).
    - [RegisteredMemory], [Endpoint]: registration, serialization and import of
      memory; endpoints (registered_memory.cc, endpoint.cc).
    - [GpuIpcMem]: exporting, importing, mapping and multicasting memory of the GPU, with
      what the process holds as the state (gpu_ipc_mem.cc).
    - [UnixSocket]: the server that hands out file descriptors and its clients, interleaved
      (unix_socket.cc).
    - [SwitchChannel]: the multicast object of a group of ranks and the allocator of its
      ranges (switch_channel.cc).
    - [Semaphore]: device semaphores between peers, host semaphores, stubs
      (semaphore.cc, semaphore_device.hpp).
    - [IbVerbs], [IbQp]: devices, ports, memory regions and queue pairs of InfiniBand with what
      the process holds of them; staging, posting and completing requests (ib.cc).
    - [Connection]: the CUDA IPC, InfiniBand and Ethernet connections
      (connection.cc) over byte-addressed memory, streams and sockets.
    - [Connect]: making a connection: the checks of the endpoints, the kind, and what its
      constructor can throw (context.cc, connection.cc).
    - [Communicator]: ordered receive futures and local memories (communicator.cc).

    Device code:
    - [DeviceSync]: [DeviceSyncer] and [DeviceSemaphore] (concurrency_device.hpp).
    - [DeviceCopy], [Packets]: collective copies and LL packets (copy_device.hpp,
      packet_device.hpp).
    - [MemoryChannel]: memory channels, put with signal and wait (memory_channel.cc,
      memory_channel_device.hpp).
    - [GpuDataTypes]: element types, their conversions and packed arithmetic
      (gpu_data_types.hpp).

    Plans and collectives:
    - [ExecutionPlan]: loading plans, channels, offsets (executor/execution_plan.cc).
    - [Executor], [ExecutorExchange]: caches of contexts and device plans; what the
      ranks exchange when they set a plan up (executor/executor.cc).
    - [ExecutionKernel], [KernelLaunch]: the interpreter of plans that each thread block
      runs, and its launch (include/execution_kernel.hpp, executor/execution_kernel.cu).
    - [Algorithm]: the registry and the choice of algorithms (src/core/algorithm.cc,
      src/ext/nccl/algorithm_selector.cc, src/ext/collectives/algorithm_collection_builder.cc).
    - [Nccl]: the front end (src/ext/nccl/nccl.cc).
    - [Collectives], [AllreduceAllpair]: what the built-in collectives share, and the
      packet allreduce among all pairs, all ranks interleaved, call after call
      (src/ext/collectives).
    - [GridKernel]: a machine for kernels of all ranks: every thread runs code cut at its
      loads, stores, signals, waits and barriers, call after call; what handshakes and
      barriers guarantee, and when everything completes.
    - [AllgatherFullmesh], [RsagZeroCopy]: the full-mesh allgather and the zero-copy allreduce
      on that machine (allgather/allgather_fullmesh.cu, allreduce/allreduce_rsag_zero_copy.cu).


    ** How code is modelled

    Sequential host code is a function on an explicit state, in the monad [result]
    ([option (result _)] where the code may block or read past a buffer, [eff] in
    [ExecutionPlan], which adds undefined behaviour; [GpuIpcMem] threads the world the
    process holds and keeps it when an exception unwinds).  Code that runs
    concurrently is a step function per thread, cut at its accesses to shared
    memory; a schedule is a list of decisions and every theorem quantifies over all
    schedules.  Memory is sequentially consistent at the granularity of these
    steps; the acquire and release annotations of the code are what justifies this,
    and where the code relies on less (words of LL packets, the two stores of a
    trigger) the steps are the weaker ones.  Machine integers are [Z] with their
    wrap-around written out; bytes are [Z] in [0..255].

    Code outside the repository is a parameter or an input: the verbs library by
    its return codes and completions, the CUDA driver by the handles it makes, the
    JSON library by the members it finds.  Exceptions end an operation; the
    state they leave behind is described where the code goes on with it.

    ** What the theorems show

    - The path of a trigger: [trigger_roundtrip]; [fifo_in_order],
      [fifo_no_overwrite], [fifo_drains] (every interleaving of pushes is a FIFO queue
      that loses, repeats and overwrites nothing and cannot
      get stuck); [proxy_handles_in_order], [proxy_leaves_loop];
      [handle_trigger_branches], [flush_done_sound] (a GPU thread that passes its
      flush has its data delivered), [stop_releases_waiters], [flow_control_bound].
    - Connections: [cuda_ipc_delivers], [ib_tokens_delivered], [ib_flush_drains],
      [ethernet_delivers], [qp_conserves_requests].
    - Set-up: [handshake_agrees], [transfers_exact], [interface_choice],
      [connect_agrees], [endpoint_roundtrip], [registered_memory_roundtrip],
      [import_decides_data], [stub_exchange], [futures_in_order].
    - Memory between processes: [create_accounts], [import_accounts],
      [import_maps_allocation], [multicast_mapping] (nothing is leaked, and a mapping
      reaches the memory that was exported); [requests_served] (every request for
      a descriptor is answered with the right file, under every interleaving);
      [nvls_first_fit], [nvls_ranges_disjoint], [nvls_all_released],
      [nvls_group_agrees] (the allocator of multicast ranges and a group's connection).
    - InfiniBand set-up: [region_covers_buffer], [queue_pair_held], [device_opened] (what is held
      on every path, and what is leaked), [port_choice], [connection_addresses_peer],
      [receives_posted], [device_names_agree], [hca_devices_read].
    - Bootstrap: [allgather_gathers], [broadcast_delivers], [barrier_separates] for
      every interleaving of the ranks and every way of splitting messages; the all-gather
      ends if a slice fits in the buffers of a connection, and never if it does not
      ([allgather_deadlocks]); [root_hands_out_next].
    - Synchronization: [semaphore_counts], [host_wait_terminates], [device_barrier],
      [device_semaphore_safe].
    - Device data paths: [copy_exact], [packets_transfer], [put_signal_wait],
      [packed_conversions], [fp8_nearest].
    - Plans: [slices_partition], [channels_pair_up], [light_load_equivalent],
      [cache_transparent], [semaphores_pair_up], [remote_buffers_exchanged],
      [reduce_exact], [pipeline_copies_exactly], [execution_runs_plan].
    - Collectives: [selection_total], [single_node_served], [split_consistent],
      [allpair_allreduce], [allpair_completes], [allpair_ranks_agree].
    - Collectives on [GridKernel], under every interleaving of all threads of all ranks and for
      sequences of calls: [fullmesh_allgather], [zero_copy_allreduce] (the outputs are right,
      in place and out of place), [fullmesh_completes], [zero_copy_completes] (nothing gets
      stuck); [fullmesh_rounds_race], [zero_copy_hangs], [zero_copy_stale_context] are what the
      code does outside the conditions of the former.
    - Behaviour that falls short of what the code sets out to do is stated as
      theorems too, among them [ethernet_loses_data], [sync_defeats_flow_control],
      [local_recv_first_duplicates], [device_semaphore_deadlocks], [copy_overruns],
      [slices_lost], [zero_chunks_undefined], [cuda_ipc_signal_address],
      [shared_connection_swaps], [unknown_request_ends_server],
      [hip_cache_closes_others], [modes_may_differ], [concurrent_polls_share_signal],
      [same_name_shares_plan], [other_operations_refused], [nvls_failed_bind_leaks], [flags_differ_hangs],
      [get_swaps_offsets], [reduce_rest_lost], [plans_never_flush], [cann_half_broken].

    ** Bounds and fuel

    Theorems about counters state the bound under which they do not wrap (2^64
    triggers per FIFO, 2^32 thread blocks, token increments below 2^32).
    [strided] has one unit of fuel per element, [wait] of [Communicator] one per
    future, the receive loops of [Connection] one per byte, [with_fuel] of [Socket] one
    per answer of the system, [loop32] one per iteration of its loop, [kernel_loop]
    one per operation of the plan: each is shown to be enough by the theorem that the
    loop produces its result.  The limit of 1000 rounds in [stopProxy_tail] is the
    code's own.  Where a theorem says that everything completes, it gives a bound on
    the length of every schedule and shows that a schedule that cannot go on is complete.

    ** Not modelled

    The kernels of the other collective algorithms (fallback, NVLS, packets, pipeline); the device operations of switch
    channels (inline assembly); hardware conversions of float8 (intrinsics); wrappers of
    the CUDA runtime and of GDRCopy (gpu_utils.cc, gdr.cc), the loading of third-party libraries (ibverbs_wrapper.cc,
    mlx5dv_wrapper.cc), which have no state of their own beyond what the callers'
    parameters describe; making and closing of sockets of the descriptor server;
    environment, logging and profiling; bindings, tools, examples and tests. *)

From Stdlib Require Export ZArith Lia.
From stdpp Require Export base tactics option list numbers strings gmap sets relations.

(** ** Scope, tactics and hint databases *)

Declare Scope msc_scope.
Delimit Scope msc_scope with msc.

Create HintDb msc discriminated.
Create Rewrite HintDb mscbits.

(** Boolean comparisons of the code as propositions, everywhere in the goal. *)
Ltac bool_to_prop :=
  repeat match goal with
  | H : (_ && _)%bool = true |- _ => apply andb_prop in H as [? ?]
  | H : (_ || _)%bool = false |- _ => apply orb_false_elim in H as [? ?]
  | H : negb _ = true |- _ => apply negb_true_iff in H
  | H : negb _ = false |- _ => apply negb_false_iff in H
  | H : (_ =? _)%Z = true |- _ => apply Z.eqb_eq in H
  | H : (_ =? _)%Z = false |- _ => apply Z.eqb_neq in H
  | H : (_ <? _)%Z = true |- _ => apply Z.ltb_lt in H
  | H : (_ <? _)%Z = false |- _ => apply Z.ltb_ge in H
  | H : (_ <=? _)%Z = true |- _ => apply Z.leb_le in H
  | H : (_ <=? _)%Z = false |- _ => apply Z.leb_gt in H
  end.

(** Split the [if]s and [match]es of an executable definition. *)
Ltac split_cases :=
  repeat (case_match; simplify_eq/=; try done).

(** ** Machine integers

    A [w]-bit unsigned integer is a [Z] in [0, 2^w); every operation of the
    code that can wrap is written with [wrap]. *)

Definition wrap (w z : Z) : Z := (z mod 2 ^ w)%Z.
Definition u8 : Z -> Z := wrap 8.
Definition u16 : Z -> Z := wrap 16.
Definition u32 : Z -> Z := wrap 32.
Definition u64 : Z -> Z := wrap 64.

(** Conversion to a signed 32-bit [int] (two's complement). *)
Definition s32 (z : Z) : Z :=
  let r := u32 z in if (r <? 2 ^ 31)%Z then r else (r - 2 ^ 32)%Z.

Definition is_u (w z : Z) : Prop := (0 <= z < 2 ^ w)%Z.

Definition UINT64_MAX : Z := (2 ^ 64 - 1)%Z.

Section machine.
Local Open Scope Z_scope.

Lemma wrap_small w z : is_u w z -> wrap w z = z.
Proof. intros H. by apply Z.mod_small. Qed.

Lemma wrap_is_u w z : 0 <= w -> is_u w (wrap w z).
Proof. intros Hw. apply Z.mod_pos_bound, Z.pow_pos_nonneg; lia. Qed.

Lemma u64_small z : 0 <= z < 2 ^ 64 -> u64 z = z.
Proof. apply wrap_small. Qed.

Lemma u32_small z : 0 <= z < 2 ^ 32 -> u32 z = z.
Proof. apply wrap_small. Qed.

Lemma u64_is_u z : is_u 64 (u64 z).
Proof. by apply wrap_is_u. Qed.

Lemma u32_is_u z : is_u 32 (u32 z).
Proof. by apply wrap_is_u. Qed.

Lemma s32_small z : - 2 ^ 31 <= z < 2 ^ 31 -> s32 z = z.
Proof.
  intros H. unfold s32, u32, wrap.
  destruct (decide (0 <= z)).
  - rewrite Z.mod_small by lia. destruct (Z.ltb_spec z (2 ^ 31)); lia.
  - replace (z mod 2 ^ 32) with (z + 2 ^ 32)
      by (apply Z.mod_unique with (-1); lia).
    destruct (Z.ltb_spec (z + 2 ^ 32) (2 ^ 31)); lia.
Qed.

Lemma testbit_above w z i : is_u w z -> 0 <= w <= i -> Z.testbit z i = false.
Proof.
  intros [H0 H1] Hw. apply Z.testbit_false; [lia|]. rewrite Z.div_small; [done|].
  split; [lia|]. eapply Z.lt_le_trans; [done|]. apply Z.pow_le_mono_r; lia.
Qed.

(** Two positions of a ring of [n] slots that are less than [n] apart and
    share a slot are the same position. *)
Lemma ring_inj n p q : 0 < n -> p mod n = q mod n -> Z.abs (p - q) < n -> p = q.
Proof.
  intros Hn Heq Hlt.
  pose proof (Z.div_mod p n ltac:(lia)). pose proof (Z.div_mod q n ltac:(lia)).
  assert (p / n = q / n) by nia. nia.
Qed.

(** ** Bit fields *)

(** [field x lo w]: the [w] bits of [x] from bit [lo] on, as the compiler
    reads an unsigned bit field. *)
Definition field (x lo w : Z) : Z := Z.land (Z.shiftr x lo) (Z.ones w).

Lemma field_spec x lo w : 0 <= lo -> 0 <= w -> field x lo w = (x / 2 ^ lo) mod 2 ^ w.
Proof. intros. unfold field. rewrite Z.land_ones, Z.shiftr_div_pow2; lia. Qed.

(** Reading a field of [hi * 2^k + lo] when [lo] fills exactly [k] bits. *)
Lemma field_low hi lo k w :
  0 <= w <= k -> 0 <= lo < 2 ^ k -> field (hi * 2 ^ k + lo) 0 w = lo mod 2 ^ w.
Proof.
  intros Hw Hlo. rewrite field_spec by lia. rewrite Z.pow_0_r, Z.div_1_r.
  replace (2 ^ k) with (2 ^ (k - w) * 2 ^ w) by (rewrite <- Z.pow_add_r by lia; f_equal; lia).
  rewrite Z.mul_assoc, Z.add_comm, Z.mod_add; [done|]. apply Z.pow_nonzero; lia.
Qed.

Lemma field_high hi lo k s w :
  0 <= k <= s -> 0 <= w -> 0 <= lo < 2 ^ k ->
  field (hi * 2 ^ k + lo) s w = field hi (s - k) w.
Proof.
  intros Hk Hw Hlo. rewrite !field_spec by lia. f_equal.
  replace (2 ^ s) with (2 ^ k * 2 ^ (s - k)) by (rewrite <- Z.pow_add_r by lia; f_equal; lia).
  rewrite <- Z.div_div by (try apply Z.pow_nonzero; try apply Z.pow_pos_nonneg; lia).
  f_equal. rewrite Z.add_comm, Z.div_add by (apply Z.pow_nonzero; lia).
  rewrite Z.div_small by lia. lia.
Qed.

Lemma land_mask x w : 0 <= w -> Z.land x (Z.shiftl 1 w - 1) = x mod 2 ^ w.
Proof.
  intros Hw. rewrite Z.shiftl_1_l. replace (2 ^ w - 1) with (Z.ones w)
    by (rewrite Z.ones_equiv; lia). by apply Z.land_ones.
Qed.
End machine.

(** Replacing one entry of a list of numbers. *)
Lemma sum_list_insert (l : list nat) i x y :
  l !! i = Some x -> (sum_list (<[i := y]> l) + x = sum_list l + y)%nat.
Proof.
  revert i. induction l as [|z l IH]; intros [|i] H; simpl in *; simplify_eq; [lia|].
  specialize (IH i H). lia.
Qed.

(** Drop the wraps of a goal, innermost first, where [lia] sees no overflow. *)
Ltac u64_norm :=
  repeat match goal with
  | |- context [u64 ?x] =>
      lazymatch x with context [u64 _] => fail | _ => rewrite (u64_small x) by lia end
  end.

#[export] Hint Resolve u64_is_u u32_is_u wrap_is_u : msc.

(** ** Lists as bags *)

(** [l] without one occurrence of [x]. *)
Fixpoint remove_one {A} `{EqDecision A} (x : A) (l : list A) : list A :=
  match l with [] => [] | y :: l' => if decide (x = y) then l' else y :: remove_one x l' end.

Lemma remove_one_cons {A} `{EqDecision A} (x : A) l : remove_one x (x :: l) = l.
Proof. simpl. by rewrite decide_True. Qed.

Lemma remove_one_other {A} `{EqDecision A} (x y : A) l : x <> y -> remove_one x (y :: l) = y :: remove_one x l.
Proof. intros H. simpl. by rewrite decide_False. Qed.
