(* ===== verification/Errors.v ===== *)
(** * Errors: error codes, exception classes and the error monad

    Models src/core/errors.cc and include/mscclpp/errors.hpp.  A C++ exception is
    a value of [exn]; code that can throw returns a [result].  The text of
    system, CUDA and IB failures comes from libraries outside the repository and
    is a parameter of the section that needs it. *)

From S2P Require Import Prelude.
Local Open Scope Z_scope.

Inductive ErrorCode :=
  | SystemError | InternalError | RemoteError | InvalidUsage | Timeout | Aborted | ExecutorError.

#[export] Instance ErrorCode_eq_dec : EqDecision ErrorCode.
Proof. solve_decision. Defined.

(** [static_cast<int>] of the enumeration, in declaration order. *)
Definition ErrorCode_to_int (c : ErrorCode) : Z :=
  match c with
  | SystemError => 0 | InternalError => 1 | RemoteError => 2 | InvalidUsage => 3
  | Timeout => 4 | Aborted => 5 | ExecutorError => 6
  end.

(** [static_cast<ErrorCode>]; [None] for an integer that names no enumerator. *)
Definition ErrorCode_of_int (z : Z) : option ErrorCode :=
  match z with
  | 0 => Some SystemError | 1 => Some InternalError | 2 => Some RemoteError
  | 3 => Some InvalidUsage | 4 => Some Timeout | 5 => Some Aborted | 6 => Some ExecutorError
  | _ => None
  end.

Definition errorToString (error : ErrorCode) : string :=
  match error with
  | SystemError => "SystemError"
  | InternalError => "InternalError"
  | InvalidUsage => "InvalidUsage"
  | Timeout => "Timeout"
  | Aborted => "Aborted"
  | ExecutorError => "ExecutorError"
  | _ => "UnknownError"
  end.

(** The members of [BaseError]. *)
Record BaseError := mkBaseError { message_ : string; errorCode_ : Z }.

Definition BaseError_getErrorCode (e : BaseError) : Z := errorCode_ e.
Definition BaseError_what (e : BaseError) : string := message_ e.

(** [class Error]. *)
Definition Error_make (message : string) (errorCode : ErrorCode) : BaseError :=
  mkBaseError (message +:+ " (mscclpp failure: " +:+ errorToString errorCode +:+ ")")
    (ErrorCode_to_int errorCode).

Definition Error_getErrorCode (e : BaseError) : option ErrorCode := ErrorCode_of_int (errorCode_ e).

Section system_errors.
Context (strerror : Z -> string) (cudaGetErrorString : Z -> string)
        (cuGetErrorString : Z -> option string).

Definition SysError_make (message : string) (errorCode : Z) : BaseError :=
  mkBaseError (message +:+ " (System failure: " +:+ strerror errorCode +:+ ")") errorCode.

Definition CudaError_make (message : string) (errorCode : Z) : BaseError :=
  mkBaseError (message +:+ " (Cuda failure: " +:+ cudaGetErrorString errorCode +:+ ")") errorCode.

Definition CuError_make (message : string) (errorCode : Z) : BaseError :=
  let errStr := match cuGetErrorString errorCode with
                | Some s => s
                | None => "failed to get error string"
                end in
  mkBaseError (message +:+ " (Cu failure: " +:+ errStr +:+ ")") errorCode.

Definition IbError_make (message : string) (errorCode : Z) : BaseError :=
  mkBaseError (message +:+ " (Ib failure: " +:+ strerror errorCode +:+ ")") errorCode.
End system_errors.

(** ** The error monad

    Client components keep only what a handler can tell apart: the class of the
    exception with its code. *)

Inductive exn :=
  | EError (code : ErrorCode)      (* [Error], thrown by THROW(..., Error, code, ...) *)
  | ESysError | ECudaError | ECuError | EIbError
  | EStd.                          (* a standard-library exception *)

#[export] Instance exn_eq_dec : EqDecision exn.
Proof. solve_decision. Defined.

Inductive result (A : Type) := Ok (a : A) | Throw (e : exn).
Arguments Ok {A} a.
Arguments Throw {A} e.

#[export] Instance result_ret : MRet result := fun A a => Ok a.
#[export] Instance result_bind : MBind result := fun A B k m =>
  match m with Ok a => k a | Throw e => Throw e end.
#[export] Instance result_fmap : FMap result := fun A B f m =>
  match m with Ok a => Ok (f a) | Throw e => Throw e end.

#[export] Instance result_eq_dec {A} `{EqDecision A} : EqDecision (result A).
Proof. solve_decision. Defined.

Definition is_ok {A} (m : result A) : bool := match m with Ok _ => true | Throw _ => false end.

(** [if (cond) THROW(..., code, ...)]: go on only when [cond] is false. *)
Definition throw_if (cond : bool) (e : exn) : result () := if cond then Throw e else Ok ().

Lemma throw_if_ok (b : bool) e : throw_if b e = Ok () <-> b = false.
Proof. by destruct b. Qed.

Lemma bind_ok_inv {A B} (m : result A) (k : A -> result B) b :
  (m ≫= k) = Ok b -> exists a, m = Ok a /\ k a = Ok b.
Proof. destruct m as [a|e]; simpl; [|done]. intros H. by exists a. Qed.

Lemma throw_if_bind {B} (b : bool) e (k : () -> result B) r :
  (throw_if b e ≫= k) = Ok r -> b = false /\ k () = Ok r.
Proof. destruct b; simpl; naive_solver. Qed.

(** Take a successful run of the error monad apart, statement by statement. *)
Ltac inv_ok :=
  repeat match goal with
  | H : (throw_if ?c ?e ≫= _) = Ok _ |- _ =>
      apply throw_if_bind in H; destruct H as [? H]
  | H : (_ ≫= _) = Ok _ |- _ =>
      apply bind_ok_inv in H; let a := fresh "v" in destruct H as (a & ? & H)
  | H : Ok _ = Ok _ |- _ => injection H as H; subst
  | H : Throw _ = Ok _ |- _ => discriminate H
  | H : Ok _ = Throw _ |- _ => discriminate H
  | H : mret _ = Ok _ |- _ => injection H as H; subst
  end.

(** ** Results *)

Lemma ErrorCode_int_roundtrip c : ErrorCode_of_int (ErrorCode_to_int c) = Some c.
Proof. by destruct c. Qed.

(** an [Error] keeps its code, and its message names the code exactly for
    the codes [errorToString] lists: [RemoteError], alone, is reported as
    "UnknownError"; two different listed codes never share a name. *)
Theorem error_names_code msg c1 c2 :
  Error_getErrorCode (Error_make msg c1) = Some c1 /\
  (errorToString c1 = "UnknownError" <-> c1 = RemoteError) /\
  (errorToString c1 = errorToString c2 <-> c1 = c2).
Proof.
  split; [apply ErrorCode_int_roundtrip|]. split; destruct c1; try destruct c2; done.
Qed.
