(* ===== verification/Trigger.v ===== *)
(** * ProxyTrigger: the 128-bit work element of the proxy FIFO

    Models [union ProxyTrigger] of include/mscclpp/fifo_device.hpp: the two
    64-bit words, the bit-field view of them, the packing constructor with its
    debug assertions, and the flip of the reserved bit that [push] applies and
    the proxy thread reverts. *)

From S2P Require Import Prelude.
Local Open Scope Z_scope.

Definition TriggerData : Z := 1.
Definition TriggerFlag : Z := 2.
Definition TriggerSync : Z := 4.

Definition TriggerBitsSize : Z := 32.
Definition TriggerBitsOffset : Z := 32.
Definition TriggerBitsMemoryId : Z := 9.
Definition TriggerBitsType : Z := 3.
Definition TriggerBitsSemaphoreId : Z := 10.
Definition TriggerBitsFifoReserved : Z := 1.

(** The word view [struct { uint64_t fst; uint64_t snd; }]. *)
Record ProxyTrigger := mkTrigger { tr_fst : Z; tr_snd : Z }.

#[export] Instance ProxyTrigger_eq_dec : EqDecision ProxyTrigger.
Proof. solve_decision. Defined.

(** The bit-field view [fields]. *)
Record TriggerFields := mkFields {
  f_size : Z; f_srcOffset : Z;
  f_dstOffset : Z; f_srcMemoryId : Z; f_dstMemoryId : Z; f_type : Z; f_semaphoreId : Z;
  f_reserved : Z
}.

Definition fields (t : ProxyTrigger) : TriggerFields := {|
  f_size := field (tr_fst t) 0 TriggerBitsSize;
  f_srcOffset := field (tr_fst t) TriggerBitsSize TriggerBitsOffset;
  f_dstOffset := field (tr_snd t) 0 TriggerBitsOffset;
  f_srcMemoryId := field (tr_snd t) TriggerBitsOffset TriggerBitsMemoryId;
  f_dstMemoryId := field (tr_snd t) (TriggerBitsOffset + TriggerBitsMemoryId) TriggerBitsMemoryId;
  f_type := field (tr_snd t) (TriggerBitsOffset + 2 * TriggerBitsMemoryId) TriggerBitsType;
  f_semaphoreId :=
    field (tr_snd t) (TriggerBitsOffset + 2 * TriggerBitsMemoryId + TriggerBitsType)
      TriggerBitsSemaphoreId;
  f_reserved :=
    field (tr_snd t)
      (TriggerBitsOffset + 2 * TriggerBitsMemoryId + TriggerBitsType + TriggerBitsSemaphoreId
       + (64 - TriggerBitsOffset - TriggerBitsMemoryId - TriggerBitsMemoryId - TriggerBitsType
          - TriggerBitsSemaphoreId - TriggerBitsFifoReserved))
      TriggerBitsFifoReserved
|}.

Definition trigger_mask (bits : Z) : Z := Z.shiftl 1 bits - 1.

(** The packing constructor (the body below the assertions). *)
Definition ProxyTrigger_make (ty dstId dstOff srcId srcOff bytes semId : Z) : ProxyTrigger := {|
  tr_fst := u64 (u64 (Z.shiftl (Z.land srcOff (trigger_mask TriggerBitsOffset)) TriggerBitsSize)
              + Z.land bytes (trigger_mask TriggerBitsSize));
  tr_snd :=
    u64 (u64 (Z.shiftl
      (u64 (u64 (Z.shiftl
        (u64 (u64 (Z.shiftl
          (u64 (u64 (Z.shiftl (Z.land semId (trigger_mask TriggerBitsSemaphoreId)) TriggerBitsType)
                + Z.land ty (trigger_mask TriggerBitsType)))
          TriggerBitsMemoryId)
         + Z.land dstId (trigger_mask TriggerBitsMemoryId)))
        TriggerBitsMemoryId)
       + Z.land srcId (trigger_mask TriggerBitsMemoryId)))
      TriggerBitsOffset)
     + Z.land dstOff (trigger_mask TriggerBitsOffset))
|}.

(** The conditions the constructor asserts in a DEBUG_BUILD. *)
Definition ProxyTrigger_asserts (ty dstId dstOff srcId srcOff bytes semId : Z) : bool :=
  (ty <? Z.shiftl 1 TriggerBitsType) &&
  (dstId <? Z.shiftl 1 TriggerBitsMemoryId) &&
  (dstOff <? Z.shiftl 1 TriggerBitsOffset) &&
  (srcId <? Z.shiftl 1 TriggerBitsMemoryId) &&
  (srcOff <? Z.shiftl 1 TriggerBitsOffset) &&
  negb (bytes =? 0) &&
  (bytes <? Z.shiftl 1 TriggerBitsSize) &&
  (semId <? Z.shiftl 1 TriggerBitsSemaphoreId).

(** [flipMask] of [push], reverted by the proxy thread. *)
Definition flipMask : Z := Z.shiftl 1 63.

Definition flip_msb (t : ProxyTrigger) : ProxyTrigger :=
  {| tr_fst := tr_fst t; tr_snd := Z.lxor (tr_snd t) flipMask |}.

(** The proxy thread's readiness test [!(trigger.fst == 0 || trigger.snd == 0)]. *)
Definition ready (t : ProxyTrigger) : bool := negb ((tr_fst t =? 0) || (tr_snd t =? 0)).

(** Both words are 64-bit. *)
Definition trigger_wf (t : ProxyTrigger) : Prop := is_u 64 (tr_fst t) /\ is_u 64 (tr_snd t).

(** ** Arithmetic form of the packed words *)

Lemma make_fst ty d doff s soff b sem :
  tr_fst (ProxyTrigger_make ty d doff s soff b sem) = (soff mod 2 ^ 32) * 2 ^ 32 + b mod 2 ^ 32.
Proof.
  simpl. unfold trigger_mask, TriggerBitsOffset, TriggerBitsSize. rewrite !land_mask by lia.
  rewrite Z.shiftl_mul_pow2 by lia.
  pose proof (Z.mod_pos_bound soff (2 ^ 32) ltac:(lia)).
  pose proof (Z.mod_pos_bound b (2 ^ 32) ltac:(lia)).
  u64_norm. lia.
Qed.

Lemma make_snd ty d doff s soff b sem :
  tr_snd (ProxyTrigger_make ty d doff s soff b sem) =
  ((((sem mod 2 ^ 10) * 2 ^ 3 + ty mod 2 ^ 3) * 2 ^ 9 + d mod 2 ^ 9) * 2 ^ 9 + s mod 2 ^ 9)
    * 2 ^ 32 + doff mod 2 ^ 32.
Proof.
  simpl. unfold trigger_mask, TriggerBitsOffset, TriggerBitsMemoryId, TriggerBitsType,
    TriggerBitsSemaphoreId. rewrite !land_mask by lia.
  rewrite !Z.shiftl_mul_pow2 by lia.
  pose proof (Z.mod_pos_bound sem (2 ^ 10) ltac:(lia)).
  pose proof (Z.mod_pos_bound ty (2 ^ 3) ltac:(lia)).
  pose proof (Z.mod_pos_bound d (2 ^ 9) ltac:(lia)).
  pose proof (Z.mod_pos_bound s (2 ^ 9) ltac:(lia)).
  pose proof (Z.mod_pos_bound doff (2 ^ 32) ltac:(lia)).
  u64_norm. lia.
Qed.

Lemma make_wf ty d doff s soff b sem : trigger_wf (ProxyTrigger_make ty d doff s soff b sem).
Proof. split; apply u64_is_u. Qed.

Lemma make_snd_lt ty d doff s soff b sem :
  0 <= tr_snd (ProxyTrigger_make ty d doff s soff b sem) < 2 ^ 63.
Proof.
  rewrite make_snd.
  pose proof (Z.mod_pos_bound sem (2 ^ 10) ltac:(lia)).
  pose proof (Z.mod_pos_bound ty (2 ^ 3) ltac:(lia)).
  pose proof (Z.mod_pos_bound d (2 ^ 9) ltac:(lia)).
  pose proof (Z.mod_pos_bound s (2 ^ 9) ltac:(lia)).
  pose proof (Z.mod_pos_bound doff (2 ^ 32) ltac:(lia)). lia.
Qed.

Lemma field_of_low x w : 0 <= w -> field x 0 w = x mod 2 ^ w.
Proof. intros. rewrite field_spec by lia. by rewrite Z.pow_0_r, Z.div_1_r. Qed.

(** Reading a field of a packed word, one packing level at a time. *)
Ltac peel :=
  rewrite field_high by (try apply Z.mod_pos_bound; lia);
  match goal with |- context [field _ ?e _] =>
    let v := eval vm_compute in e in change e with v end.

(** Whatever the arguments (assertions compiled out or not), the bit fields
    read back the arguments truncated to their widths, and the reserved bit is
    clear. *)
Lemma fields_make ty d doff s soff b sem :
  fields (ProxyTrigger_make ty d doff s soff b sem) =
  {| f_size := b mod 2 ^ 32; f_srcOffset := soff mod 2 ^ 32; f_dstOffset := doff mod 2 ^ 32;
     f_srcMemoryId := s mod 2 ^ 9; f_dstMemoryId := d mod 2 ^ 9; f_type := ty mod 2 ^ 3;
     f_semaphoreId := sem mod 2 ^ 10; f_reserved := 0 |}.
Proof.
  pose proof (make_snd_lt ty d doff s soff b sem) as Hlt.
  unfold fields. rewrite make_fst. rewrite make_snd in *.
  unfold TriggerBitsOffset, TriggerBitsMemoryId, TriggerBitsType, TriggerBitsSemaphoreId,
    TriggerBitsSize, TriggerBitsFifoReserved.
  f_equal.
  - rewrite field_low by (try apply Z.mod_pos_bound; lia). by rewrite Z.mod_mod by lia.
  - peel. rewrite field_of_low by lia. by rewrite Z.mod_mod by lia.
  - rewrite field_low by (try apply Z.mod_pos_bound; lia). by rewrite Z.mod_mod by lia.
  - peel. rewrite field_low by (try apply Z.mod_pos_bound; lia). by rewrite Z.mod_mod by lia.
  - peel. peel. rewrite field_low by (try apply Z.mod_pos_bound; lia).
    by rewrite Z.mod_mod by lia.
  - peel. peel. peel. rewrite field_low by (try apply Z.mod_pos_bound; lia).
    by rewrite Z.mod_mod by lia.
  - peel. peel. peel. peel. rewrite field_of_low by lia. by rewrite Z.mod_mod by lia.
  - rewrite field_spec by lia. rewrite Z.div_small by lia. done.
Qed.

(** ** The flip of the reserved bit *)

Lemma flip_msb_involutive t : flip_msb (flip_msb t) = t.
Proof.
  destruct t as [a b]. unfold flip_msb. simpl. f_equal.
  by rewrite Z.lxor_assoc, Z.lxor_nilpotent, Z.lxor_0_r.
Qed.

Lemma lxor_flip_low x : 0 <= x < 2 ^ 63 -> Z.lxor x flipMask = x + 2 ^ 63.
Proof.
  intros Hx. symmetry. unfold flipMask. rewrite Z.shiftl_1_l.
  apply Z.add_nocarry_lxor. apply Z.bits_inj'. intros i Hi.
  rewrite Z.land_spec, Z.bits_0, Z.pow2_bits_eqb by lia.
  destruct (Z.eqb_spec 63 i) as [<-|]; [|by rewrite andb_false_r].
  rewrite (proj2 (Z.testbit_false x 63 ltac:(lia))); [done|]. by rewrite Z.div_small by lia.
Qed.

Lemma lxor_flip_zero x : Z.lxor x flipMask = 0 <-> x = flipMask.
Proof. apply Z.lxor_eq_0_iff. Qed.

(** A word pair that the proxy will not mistake for an empty slot once pushed. *)
Definition pushable (t : ProxyTrigger) : Prop := tr_fst t <> 0 /\ tr_snd t <> flipMask.

Lemma pushable_ready t : pushable t -> ready (flip_msb t) = true.
Proof.
  intros [Hf Hs]. unfold ready, flip_msb. simpl.
  destruct (Z.eqb_spec (tr_fst t) 0); [done|].
  destruct (Z.eqb_spec (Z.lxor (tr_snd t) flipMask) 0) as [E|]; [|done].
  apply lxor_flip_zero in E. done.
Qed.

Lemma pushable_fst t : pushable t -> tr_fst (flip_msb t) <> 0.
Proof. by intros [? _]. Qed.

Lemma make_pushable ty d doff s soff b sem :
  b mod 2 ^ 32 <> 0 -> pushable (ProxyTrigger_make ty d doff s soff b sem).
Proof.
  intros Hb. split.
  - rewrite make_fst. pose proof (Z.mod_pos_bound soff (2 ^ 32) ltac:(lia)).
    pose proof (Z.mod_pos_bound b (2 ^ 32) ltac:(lia)). lia.
  - pose proof (make_snd_lt ty d doff s soff b sem).
    unfold flipMask. rewrite Z.shiftl_1_l. lia.
Qed.

#[export] Hint Resolve make_wf make_pushable pushable_ready pushable_fst : msc.
#[export] Hint Rewrite flip_msb_involutive : mscbits.

Lemma flip_msb_wf t : trigger_wf t -> 0 <= tr_snd t < 2 ^ 63 -> trigger_wf (flip_msb t).
Proof.
  intros [Hf _] Hs. split; [done|]. unfold flip_msb, is_u. cbn [tr_snd].
  rewrite lxor_flip_low by done. lia.
Qed.

(** ** Results *)

(** a trigger built from arguments that pass the constructor's assertions is
    decoded by the proxy to exactly those arguments, with the reserved bit
    clear. *)
Theorem trigger_roundtrip ty d doff s soff b sem :
  0 <= ty -> 0 <= d -> 0 <= doff -> 0 <= s -> 0 <= soff -> 0 <= b -> 0 <= sem ->
  ProxyTrigger_asserts ty d doff s soff b sem = true ->
  fields (ProxyTrigger_make ty d doff s soff b sem) =
  {| f_size := b; f_srcOffset := soff; f_dstOffset := doff; f_srcMemoryId := s;
     f_dstMemoryId := d; f_type := ty; f_semaphoreId := sem; f_reserved := 0 |}.
Proof.
  intros. unfold ProxyTrigger_asserts, TriggerBitsType, TriggerBitsMemoryId, TriggerBitsOffset,
    TriggerBitsSize, TriggerBitsSemaphoreId in *. rewrite !Z.shiftl_1_l in *. bool_to_prop.
  rewrite fields_make. by rewrite !Z.mod_small by lia.
Qed.

Lemma trigger_roundtrip_witness :
  fields (ProxyTrigger_make 7 511 4294967295 3 5 6 1023) =
  {| f_size := 6; f_srcOffset := 5; f_dstOffset := 4294967295; f_srcMemoryId := 3;
     f_dstMemoryId := 511; f_type := 7; f_semaphoreId := 1023; f_reserved := 0 |}.
Proof. apply trigger_roundtrip; [lia..|reflexivity]. Defined.

(** whatever its other arguments, a trigger whose byte count is not a
    multiple of 2^32 survives the FIFO: after [push] flips the reserved bit both
    words are non-zero, so the proxy sees it as ready, and reverting the bit
    gives the original words back. *)
Theorem trigger_survives_fifo ty d doff s soff b sem :
  b mod 2 ^ 32 <> 0 ->
  let t := ProxyTrigger_make ty d doff s soff b sem in
  trigger_wf (flip_msb t) /\ ready (flip_msb t) = true /\ flip_msb (flip_msb t) = t.
Proof.
  intros Hb t. split_and!; [|by apply pushable_ready, make_pushable|apply flip_msb_involutive].
  apply flip_msb_wf; [apply make_wf|apply make_snd_lt].
Qed.

Lemma trigger_survives_fifo_witness :
  ready (flip_msb (ProxyTrigger_make TriggerFlag 0 0 0 0 1 0)) = true.
Proof. apply (trigger_survives_fifo TriggerFlag 0 0 0 0 1 0). done. Defined.
