(* ===== verification/Fifo.v ===== *)
(** * The concurrent proxy FIFO

    Host side: [Fifo] of src/core/fifo.cc ([poll], [pop], [tail], [size]).
    Device side: [FifoDeviceHandle] of include/mscclpp/fifo_device.hpp ([push],
    [poll], [sync]).  Device threads push concurrently; the proxy thread is the
    only consumer.  Each operation is cut at its shared-memory accesses into
    atomic steps, and the steps of all threads interleave (sequentially
    consistent memory; the acquire/release annotations of the code are what
    makes that reading legitimate for the published slots).

    The file first gives the operations, then the interleaving semantics, then
    the invariant and the results: triggers are handled exactly once in the
    order of the head counter, a slot is never overwritten before it is popped,
    and the oldest outstanding push can always be completed. *)

From S2P Require Import Prelude Trigger.
Local Open Scope Z_scope.

#[export] Instance ProxyTrigger_inhabited : Inhabited ProxyTrigger :=
  populate (mkTrigger 0 0).

(** ** State: the memory behind [Fifo::Impl] and [FifoDeviceHandle] *)

Record Fifo := mkFifo {
  triggers : list ProxyTrigger;
  head : Z;
  tail : Z;
  tailCache : Z;
  fifo_size : Z
}.

(** [Fifo::Impl(size)]: every array and counter is calloc'ed. *)
Definition Fifo_init (size : Z) : Fifo :=
  mkFifo (replicate (Z.to_nat size) (mkTrigger 0 0)) 0 0 0 size.

Definition slot_index (f : Fifo) (pos : Z) : nat := Z.to_nat (pos mod fifo_size f).
Definition slot (f : Fifo) (pos : Z) : ProxyTrigger := triggers f !!! slot_index f pos.

Definition set_slot (f : Fifo) (pos : Z) (t : ProxyTrigger) : Fifo :=
  mkFifo (<[slot_index f pos := t]> (triggers f)) (head f) (tail f) (tailCache f) (fifo_size f).
Definition set_head (f : Fifo) (h : Z) : Fifo :=
  mkFifo (triggers f) h (tail f) (tailCache f) (fifo_size f).
Definition set_tail (f : Fifo) (t : Z) : Fifo :=
  mkFifo (triggers f) (head f) t (tailCache f) (fifo_size f).
Definition set_tailCache (f : Fifo) (c : Z) : Fifo :=
  mkFifo (triggers f) (head f) (tail f) c (fifo_size f).

(** ** Host operations, as one call *)

Definition Fifo_poll (f : Fifo) : ProxyTrigger := slot f (tail f).

Definition clear_fst (f : Fifo) (pos : Z) : Fifo :=
  set_slot f pos (mkTrigger 0 (tr_snd (slot f pos))).

Definition Fifo_pop (f : Fifo) : Fifo :=
  let curTail := tail f in
  set_tail (clear_fst f curTail) (u64 (curTail + 1)).

Definition Fifo_tail (f : Fifo) : Z := tail f.
Definition Fifo_size (f : Fifo) : Z := fifo_size f.

(** ** Device operations, one constructor per point between two shared accesses *)

Inductive pc :=
  (** [push]: head fetched and the reserved bit flipped; [tailCache] not read yet *)
  | PClaimed (prevHead : Z) (t : ProxyTrigger)
  (** [push] inside [sync(fifoHead)], spinning on [tail] *)
  | PSync (fifoHead prevHead : Z) (t : ProxyTrigger)
  (** [push] inside [sync], about to write the loaded [tail] to [tailCache] *)
  | PSyncStore (val prevHead : Z) (t : ProxyTrigger)
  (** [push] about to store the trigger into its slot *)
  | PStore (prevHead : Z) (t : ProxyTrigger)
  (** [push] after the store of [snd], before the store of [fst] (non-CUDA) *)
  | PStoreFst (prevHead : Z) (t : ProxyTrigger)
  (** [push] returned *)
  | PRet (prevHead : Z)
  (** device [sync(fifoHead)] called by the user, spinning *)
  | USync (fifoHead : Z)
  (** device [sync]/[poll] about to write [tailCache] *)
  | UStore (val : Z)
  (** device [poll] about to load [tail] *)
  | UPoll (fifoHead : Z)
  (** device [sync] or [poll] returned *)
  | URet (res : bool).

(** First step of [push]: [atomicFetchAdd] on [head], then the local flip. *)
Definition push_begin (f : Fifo) (t : ProxyTrigger) : Fifo * pc :=
  (set_head f (u64 (head f + 1)), PClaimed (head f) (flip_msb t)).

(** One further step of a device thread; [cuda] selects the 16-byte vector
    store over the two ordered stores. *)
Definition dev_step (cuda : bool) (f : Fifo) (p : pc) : Fifo * pc :=
  match p with
  | PClaimed prevHead t =>
      if u64 (fifo_size f + tailCache f) <=? prevHead
      then (f, PSync (u64 (prevHead - fifo_size f)) prevHead t)
      else (f, PStore prevHead t)
  | PSync fifoHead prevHead t =>
      let val := tail f in
      if val <=? fifoHead then (f, PSync fifoHead prevHead t)
      else (f, PSyncStore val prevHead t)
  | PSyncStore val prevHead t => (set_tailCache f val, PStore prevHead t)
  | PStore prevHead t =>
      if cuda then (set_slot f prevHead t, PRet prevHead)
      else (set_slot f prevHead (mkTrigger (tr_fst (slot f prevHead)) (tr_snd t)),
            PStoreFst prevHead t)
  | PStoreFst prevHead t =>
      (set_slot f prevHead (mkTrigger (tr_fst t) (tr_snd (slot f prevHead))), PRet prevHead)
  | USync fifoHead =>
      let val := tail f in
      if val <=? fifoHead then (f, USync fifoHead) else (f, UStore val)
  | UPoll fifoHead =>
      let val := tail f in
      if fifoHead <? val then (f, UStore val) else (f, URet false)
  | UStore val => (set_tailCache f val, URet true)
  | PRet h => (f, PRet h)
  | URet b => (f, URet b)
  end.

Definition finished (o : option pc) : bool :=
  match o with None | Some (PRet _) | Some (URet _) => true | _ => false end.

(** ** The consumer: the body of the proxy loop, cut at its shared accesses *)

Inductive cpc :=
  | CPoll                              (* about to load [fst] of the tail slot *)
  | CPollSnd (v : Z)                   (* [fst] loaded, about to load [snd] *)
  | CTest (t : ProxyTrigger)           (* [poll] returned [t] *)
  | CHandled (t : ProxyTrigger)        (* the handler ran on [t]; about to [pop] *)
  | CPop (curTail : Z).                (* [fst] cleared, about to store [tail] *)

(** One step; the second component is the trigger passed to the handler. *)
Definition cons_step (f : Fifo) (c : cpc) : Fifo * cpc * list ProxyTrigger :=
  match c with
  | CPoll => (f, CPollSnd (tr_fst (slot f (tail f))), [])
  | CPollSnd v => (f, CTest (mkTrigger v (tr_snd (slot f (tail f)))), [])
  | CTest t =>
      if ready t then (f, CHandled (flip_msb t), [flip_msb t]) else (f, CPoll, [])
  | CHandled t => (clear_fst f (tail f), CPop (tail f), [])
  | CPop curTail => (set_tail f (u64 (curTail + 1)), CPoll, [])
  end.

(** ** Interleaving *)

Record sys := mkSys { mem : Fifo; prods : gmap nat pc; cons_pc : cpc }.

Definition sys_init (size : Z) : sys := mkSys (Fifo_init size) ∅ CPoll.

(** A scheduling decision. *)
Inductive action :=
  | APush (tid : nat) (t : ProxyTrigger)
  | ASync (tid : nat) (fifoHead : Z)
  | APollDev (tid : nat) (fifoHead : Z)
  | ADev (tid : nat)
  | ACons.

(** The effect of a decision: new state, triggers claimed, triggers handled.
    [None]: the decision is not enabled. *)
Definition act (cuda : bool) (s : sys) (a : action)
    : option (sys * list ProxyTrigger * list ProxyTrigger) :=
  match a with
  | APush tid t =>
      if finished (prods s !! tid) then
        let '(f, p) := push_begin (mem s) t in
        Some (mkSys f (<[tid := p]> (prods s)) (cons_pc s), [t], [])
      else None
  | ASync tid h =>
      if finished (prods s !! tid)
      then Some (mkSys (mem s) (<[tid := USync h]> (prods s)) (cons_pc s), [], []) else None
  | APollDev tid h =>
      if finished (prods s !! tid)
      then Some (mkSys (mem s) (<[tid := UPoll h]> (prods s)) (cons_pc s), [], []) else None
  | ADev tid =>
      match prods s !! tid with
      | Some p =>
          let '(f, p') := dev_step cuda (mem s) p in
          Some (mkSys f (<[tid := p']> (prods s)) (cons_pc s), [], [])
      | None => None
      end
  | ACons =>
      let '(f, c, hd) := cons_step (mem s) (cons_pc s) in
      Some (mkSys f (prods s) c, [], hd)
  end.

Fixpoint run (cuda : bool) (s : sys) (as_ : list action)
    : option (sys * list ProxyTrigger * list ProxyTrigger) :=
  match as_ with
  | [] => Some (s, [], [])
  | a :: rest =>
      '(s1, c1, h1) ← act cuda s a;
      '(s2, c2, h2) ← run cuda s1 rest;
      Some (s2, c1 ++ c2, h1 ++ h2)
  end.

(** [reach cuda size s cl hd]: [s] is reachable from the initial state of a FIFO
    of [size] entries by a schedule that claimed [cl] and handled [hd], in
    order, with every pushed trigger [pushable]. *)
Inductive reach (cuda : bool) (size : Z) : sys -> list ProxyTrigger -> list ProxyTrigger -> Prop :=
  | reach_init : reach cuda size (sys_init size) [] []
  | reach_step s cl hd a s' c h :
      reach cuda size s cl hd -> act cuda s a = Some (s', c, h) ->
      Forall pushable c -> reach cuda size s' (cl ++ c) (hd ++ h).

(** Two interleaved pushes into a one-slot FIFO: the second waits for the pop. *)
Definition demo_t1 : ProxyTrigger := ProxyTrigger_make TriggerData 1 2 3 4 5 6.
Definition demo_t2 : ProxyTrigger := ProxyTrigger_make TriggerFlag 0 0 0 0 1 7.
Definition demo_schedule : list action :=
  [APush 0 demo_t1; APush 1 demo_t2; ADev 1; ADev 1; ADev 0; ADev 0; ADev 0;
   ACons; ACons; ACons; ADev 1; ACons; ACons; ADev 1; ADev 1; ADev 1; ADev 1;
   ACons; ACons; ACons; ACons; ACons].

(** ** Slots *)

Lemma slot_set_slot_eq f q t :
  0 < fifo_size f -> length (triggers f) = Z.to_nat (fifo_size f) -> slot (set_slot f q t) q = t.
Proof.
  intros Hn Hlen. unfold slot, set_slot, slot_index. simpl.
  apply list_lookup_total_insert_eq. rewrite Hlen.
  pose proof (Z.mod_pos_bound q (fifo_size f)). lia.
Qed.

Lemma slot_set_slot_ne f q q' t :
  0 < fifo_size f -> q <> q' -> Z.abs (q - q') < fifo_size f ->
  slot (set_slot f q t) q' = slot f q'.
Proof.
  intros Hn Hne Hd. unfold slot, set_slot, slot_index. simpl.
  apply list_lookup_total_insert_ne. intros E.
  pose proof (Z.mod_pos_bound q (fifo_size f)). pose proof (Z.mod_pos_bound q' (fifo_size f)).
  apply Hne, (ring_inj (fifo_size f)); [done| |done]. lia.
Qed.

(** A position one lap further is the same slot. *)
Lemma slot_lap f q : fifo_size f <> 0 -> slot f (q + fifo_size f) = slot f q.
Proof.
  intros Hn. unfold slot, slot_index. do 2 f_equal.
  rewrite <- (Z.mul_1_l (fifo_size f)) at 1. by rewrite Z.mod_add.
Qed.

(** ** The invariant *)

Definition pos (p : pc) : option Z :=
  match p with
  | PClaimed q _ | PSync _ q _ | PSyncStore _ q _ | PStore q _ | PStoreFst q _ => Some q
  | _ => None
  end.

Definition owned (ps : gmap nat pc) (q : Z) : Prop :=
  exists tid p, ps !! tid = Some p /\ pos p = Some q.

(** The trigger a pusher at position [q] carries is the claimed one, flipped. *)
Definition carries (cl : list ProxyTrigger) (q : Z) (t : ProxyTrigger) : Prop :=
  exists t0, cl !! Z.to_nat q = Some t0 /\ t = flip_msb t0.

Definition thr_ok (f : Fifo) (cl : list ProxyTrigger) (p : pc) : Prop :=
  match p with
  | PClaimed q t => tail f <= q < head f /\ carries cl q t
  | PSync h q t =>
      (tail f <= q < head f /\ carries cl q t) /\ fifo_size f <= q /\ h = q - fifo_size f
  | PSyncStore v q t =>
      (tail f <= q < head f /\ carries cl q t) /\ 0 <= v <= tail f /\ q < v + fifo_size f
  | PStore q t => (tail f <= q < head f /\ carries cl q t) /\ q < tail f + fifo_size f
  | PStoreFst q t =>
      (tail f <= q < head f /\ carries cl q t) /\ q < tail f + fifo_size f /\
      tr_snd (slot f q) = tr_snd t
  | UStore v => 0 <= v <= tail f
  | _ => True
  end.

Definition clearing (c : cpc) : bool := match c with CPop _ => true | _ => false end.

(** The tail slot holds a published trigger [t0]. *)
Definition tail_ready (f : Fifo) (ps : gmap nat pc) (cl : list ProxyTrigger) (t0 : ProxyTrigger) :=
  cl !! Z.to_nat (tail f) = Some t0 /\ ~ owned ps (tail f).

Definition cons_ok (f : Fifo) (ps : gmap nat pc) (cl hd : list ProxyTrigger) (c : cpc) : Prop :=
  let k := Z.to_nat (tail f) in
  match c with
  | CPoll => hd = take k cl
  | CPollSnd v =>
      hd = take k cl /\ (v <> 0 -> exists t0, tail_ready f ps cl t0 /\ v = tr_fst (flip_msb t0))
  | CTest t =>
      hd = take k cl /\ (tr_fst t <> 0 -> exists t0, tail_ready f ps cl t0 /\ t = flip_msb t0)
  | CHandled t => hd = take (S k) cl /\ tail_ready f ps cl t
  | CPop cur => cur = tail f /\ hd = take (S k) cl /\ exists t0, tail_ready f ps cl t0
  end.

Record inv (n : Z) (s : sys) (cl hd : list ProxyTrigger) : Prop := {
  inv_size : fifo_size (mem s) = n;
  inv_pos : 0 < n;
  inv_len : length (triggers (mem s)) = Z.to_nat n;
  inv_head : head (mem s) = Z.of_nat (length cl);
  inv_tail : 0 <= tail (mem s) <= head (mem s);
  inv_cache : 0 <= tailCache (mem s) <= tail (mem s);
  inv_pushable : Forall pushable cl;
  inv_thr : forall tid p, prods s !! tid = Some p -> thr_ok (mem s) cl p;
  inv_uniq : forall t1 t2 p1 p2 q,
    prods s !! t1 = Some p1 -> prods s !! t2 = Some p2 ->
    pos p1 = Some q -> pos p2 = Some q -> t1 = t2;
  inv_wait : forall q, tail (mem s) + n <= q < head (mem s) -> owned (prods s) q;
  inv_slot : forall q t,
    tail (mem s) <= q < tail (mem s) + n -> cl !! Z.to_nat q = Some t ->
    ~ owned (prods s) q -> ~ (clearing (cons_pc s) = true /\ q = tail (mem s)) ->
    slot (mem s) q = flip_msb t;
  inv_free : forall q,
    tail (mem s) <= q < tail (mem s) + n ->
    head (mem s) <= q \/ owned (prods s) q \/ (clearing (cons_pc s) = true /\ q = tail (mem s)) ->
    tr_fst (slot (mem s) q) = 0;
  inv_cons : cons_ok (mem s) (prods s) cl hd (cons_pc s)
}.

(** Everything about a FIFO but the cached tail. *)
Definition same_but_cache (f f' : Fifo) : Prop :=
  triggers f' = triggers f /\ head f' = head f /\ tail f' = tail f /\ fifo_size f' = fifo_size f.

Lemma same_slot f f' q : same_but_cache f f' -> slot f' q = slot f q.
Proof. intros (E1 & _ & _ & E2). unfold slot, slot_index. by rewrite E1, E2. Qed.

Lemma thr_ok_pos f cl p q : thr_ok f cl p -> pos p = Some q -> tail f <= q < head f.
Proof. destruct p; simpl; intros; simplify_eq; naive_solver. Qed.

Lemma thr_ok_carries f cl p q : thr_ok f cl p -> pos p = Some q ->
  exists t, carries cl q t.
Proof. destruct p; simpl; intros; simplify_eq; naive_solver. Qed.

(** Changing one thread's program counter within the same position changes no
    ownership. *)
Lemma owned_same ps tid p p' q :
  ps !! tid = Some p -> pos p' = pos p -> owned (<[tid := p']> ps) q <-> owned ps q.
Proof.
  intros Hp Hpos. split; intros (t1 & p1 & H1 & H2).
  - apply lookup_insert_Some in H1 as [[<- <-]|[? ?]]; [|by eexists _, _].
    exists tid, p. split; congruence.
  - destruct (decide (t1 = tid)) as [->|Hne].
    + exists tid, p'. rewrite lookup_insert_eq. split; congruence.
    + exists t1, p1. by rewrite lookup_insert_ne.
Qed.

(** Giving up position [q0]: ownership of the others is unchanged. *)
Lemma owned_release n s cl hd tid p p' q0 q :
  inv n s cl hd -> prods s !! tid = Some p -> pos p = Some q0 -> pos p' = None ->
  owned (<[tid := p']> (prods s)) q <-> owned (prods s) q /\ q <> q0.
Proof.
  intros I Hp Hq0 Hp'. split.
  - intros (t1 & p1 & H1 & H2).
    apply lookup_insert_Some in H1 as [[<- <-]|[Hne H1]]; [congruence|].
    split; [by exists t1, p1|]. intros ->. apply Hne. by eapply (inv_uniq _ _ _ _ I).
  - intros [(t1 & p1 & H1 & H2) Hne]. exists t1, p1.
    rewrite lookup_insert_ne; [done|]. intros ->. congruence.
Qed.

Lemma cons_ok_ext f f' ps ps' cl hd c :
  tail f' = tail f -> (owned ps' (tail f) -> owned ps (tail f)) ->
  cons_ok f ps cl hd c -> cons_ok f' ps' cl hd c.
Proof.
  intros Ht Ho. unfold cons_ok, tail_ready. rewrite Ht. destruct c; naive_solver.
Qed.

(** *** Preservation, one lemma per kind of step *)

(** A thread moves within its position (or an idle-class thread moves), and at
    most the cached tail changes. *)
Lemma inv_local n s cl hd tid p p' f' :
  inv n s cl hd -> prods s !! tid = Some p -> pos p' = pos p ->
  same_but_cache (mem s) f' -> 0 <= tailCache f' <= tail f' -> thr_ok f' cl p' ->
  inv n (mkSys f' (<[tid := p']> (prods s)) (cons_pc s)) cl hd.
Proof.
  intros I Hp Hpos Hsame Hcache Hok.
  pose proof Hsame as (E1 & E2 & E3 & E4). destruct I.
  assert (Hown : forall q, owned (<[tid := p']> (prods s)) q <-> owned (prods s) q)
    by (intros; by eapply owned_same).
  split; simpl; rewrite ?E1, ?E2, ?E3, ?E4; try done.
  - lia.
  - intros t1 p1 H1. apply lookup_insert_Some in H1 as [[<- <-]|[? H1]]; [done|].
    specialize (inv_thr0 _ _ H1). unfold thr_ok in *.
    destruct p1; rewrite ?E2, ?E3, ?E4, ?(same_slot _ _ _ Hsame); done.
  - intros t1 t2 p1 p2 q H1 H2 Q1 Q2.
    apply lookup_insert_Some in H1 as [[<- <-]|[? H1]];
    apply lookup_insert_Some in H2 as [[<- <-]|[? H2]]; [done|..];
      rewrite ?Hpos in *; eauto.
  - intros q Hq. rewrite Hown. auto.
  - intros q t. rewrite Hown, (same_slot _ _ _ Hsame). auto.
  - intros q. rewrite Hown, (same_slot _ _ _ Hsame). auto.
  - eapply cons_ok_ext; [done| |done]. by rewrite Hown.
Qed.

(** An idle thread starts an operation that owns no position. *)
Lemma inv_start n s cl hd tid p' :
  inv n s cl hd -> finished (prods s !! tid) = true -> pos p' = None ->
  thr_ok (mem s) cl p' ->
  inv n (mkSys (mem s) (<[tid := p']> (prods s)) (cons_pc s)) cl hd.
Proof.
  intros I Hfin Hpos Hok.
  assert (Hown : forall q, owned (<[tid := p']> (prods s)) q <-> owned (prods s) q).
  { intros q. split; intros (t1 & p1 & H1 & H2).
    - apply lookup_insert_Some in H1 as [[<- <-]|[? H1]]; [congruence|by exists t1, p1].
    - exists t1, p1. rewrite lookup_insert_ne; [done|]. intros ->.
      rewrite H1 in Hfin. by destruct p1. }
  destruct I. split; simpl; try done.
  - intros t1 p1 H1. apply lookup_insert_Some in H1 as [[<- <-]|[? H1]]; eauto.
  - intros t1 t2 p1 p2 q H1 H2 Q1 Q2.
    apply lookup_insert_Some in H1 as [[<- <-]|[? H1]];
    apply lookup_insert_Some in H2 as [[<- <-]|[? H2]]; [done|congruence|congruence|eauto].
  - intros q Hq. rewrite Hown. auto.
  - intros q t. rewrite Hown. auto.
  - intros q. rewrite Hown. auto.
  - eapply cons_ok_ext; [done| |done]. by rewrite Hown.
Qed.

(** Claiming position [h] adds exactly [h] to the owned positions. *)
Lemma owned_claim ps tid h t q :
  finished (ps !! tid) = true ->
  owned (<[tid := PClaimed h t]> ps) q <-> owned ps q \/ q = h.
Proof.
  intros Hfin. split.
  - intros (t1 & p1 & H1 & H2).
    apply lookup_insert_Some in H1 as [[<- <-]|[? H1]]; [right; simpl in H2; congruence|].
    left; by exists t1, p1.
  - intros [(t1 & p1 & H1 & H2)| ->].
    + exists t1, p1. rewrite lookup_insert_ne; [done|]. intros ->.
      rewrite H1 in Hfin. by destruct p1.
    + exists tid, (PClaimed h t). by rewrite lookup_insert_eq.
Qed.

Lemma lookup_snoc_old {A} (l : list A) x q :
  0 <= q < Z.of_nat (length l) -> (l ++ [x]) !! Z.to_nat q = l !! Z.to_nat q.
Proof. intros Hq. apply lookup_app_l. lia. Qed.

Lemma thr_ok_claim f cl t p h :
  0 <= tail f -> head f = Z.of_nat (length cl) -> head f <= h ->
  thr_ok f cl p -> thr_ok (set_head f h) (cl ++ [t]) p.
Proof.
  intros Ht Hh Hle Hok.
  destruct p; simpl in *; unfold carries in *; rewrite ?lookup_snoc_old by lia;
    naive_solver lia.
Qed.

Lemma cons_ok_claim f ps ps' cl hd c t h :
  0 <= tail f <= Z.of_nat (length cl) ->
  (owned ps' (tail f) -> tail f < Z.of_nat (length cl) -> owned ps (tail f)) ->
  cons_ok f ps cl hd c -> cons_ok (set_head f h) ps' (cl ++ [t]) hd c.
Proof.
  intros Ht Ho Hc.
  assert (Htake0 : take (Z.to_nat (tail f)) (cl ++ [t]) = take (Z.to_nat (tail f)) cl)
    by (apply take_app_le; lia).
  assert (Hready : forall t0, tail_ready f ps cl t0 ->
            tail_ready (set_head f h) ps' (cl ++ [t]) t0 /\
            take (S (Z.to_nat (tail f))) (cl ++ [t]) = take (S (Z.to_nat (tail f))) cl).
  { intros t0 [Hl Hno]. pose proof (lookup_lt_Some _ _ _ Hl). split; [|apply take_app_le; lia].
    split; simpl; [by rewrite lookup_snoc_old by lia|].
    intros Ho'. apply Hno, Ho; [done|lia]. }
  unfold cons_ok in *. destruct c; cbn -[take] in *; rewrite ?Htake0.
  - done.
  - destruct Hc as [-> Hc]. split; [done|]. intros (t1 & Hr & ->)%Hc. exists t1.
    by split; [apply Hready|].
  - destruct Hc as [-> Hc]. split; [done|]. intros (t1 & Hr & ->)%Hc. exists t1.
    by split; [apply Hready|].
  - destruct Hc as [-> Hr]. by destruct (Hready _ Hr) as [? ->].
  - destruct Hc as (-> & -> & t0 & Hr). destruct (Hready _ Hr) as [? ->]. eauto.
Qed.

(** [push] claims the next position. *)
Lemma inv_push n s cl hd tid t :
  inv n s cl hd -> finished (prods s !! tid) = true -> pushable t ->
  Z.of_nat (length cl) + 1 < 2 ^ 64 ->
  inv n (mkSys (set_head (mem s) (u64 (head (mem s) + 1)))
           (<[tid := PClaimed (head (mem s)) (flip_msb t)]> (prods s)) (cons_pc s))
    (cl ++ [t]) hd.
Proof.
  intros I Hfin Hpush Hbound. destruct I. rewrite u64_small by lia.
  assert (Hown := fun q => owned_claim (prods s) tid (head (mem s)) (flip_msb t) q Hfin).
  split; simpl; try done.
  - rewrite length_app. simpl. lia.
  - lia.
  - apply Forall_app. split; [done|]. by constructor.
  - intros t1 p1 H1. apply lookup_insert_Some in H1 as [[<- <-]|[? H1]].
    + simpl. split; [lia|]. exists t. split; [|done].
      rewrite inv_head0, Nat2Z.id. by apply list_lookup_middle.
    + apply thr_ok_claim; eauto; lia.
  - intros t1 t2 p1 p2 q H1 H2 Q1 Q2.
    apply lookup_insert_Some in H1 as [[<- <-]|[? H1]];
    apply lookup_insert_Some in H2 as [[<- <-]|[? H2]]; [done|..|eauto];
      simpl in *; simplify_eq.
    + pose proof (thr_ok_pos _ _ _ _ (inv_thr0 _ _ H2) Q2). lia.
    + pose proof (thr_ok_pos _ _ _ _ (inv_thr0 _ _ H1) Q1). lia.
  - intros q Hq. rewrite Hown. destruct (decide (q = head (mem s))); [by right|left].
    apply inv_wait0. lia.
  - intros q t' Hq Hl Hno Hcl. rewrite Hown in Hno.
    apply inv_slot0; try done; [|naive_solver].
    rewrite lookup_snoc_old in Hl; [done|]. apply lookup_lt_Some in Hl.
    rewrite length_app in Hl. simpl in Hl.
    destruct (decide (q = head (mem s))); [naive_solver|lia].
  - intros q Hq Hor. rewrite Hown in Hor. apply inv_free0; [done|].
    destruct Hor as [?|[[?|?]|?]]; [left; lia|by right; left|left; lia|by do 2 right].
  - eapply cons_ok_claim; [lia| |done]. rewrite Hown. naive_solver lia.
Qed.

(** Overwriting the slot of an owned in-window position leaves the rest alone. *)
Lemma slot_other n s cl hd q q' t :
  inv n s cl hd -> q <> q' -> tail (mem s) <= q < tail (mem s) + n ->
  tail (mem s) <= q' < tail (mem s) + n -> slot (set_slot (mem s) q t) q' = slot (mem s) q'.
Proof. intros [] ???. apply slot_set_slot_ne; lia. Qed.

Lemma slot_this n s cl hd q t : inv n s cl hd -> slot (set_slot (mem s) q t) q = t.
Proof. intros []. apply slot_set_slot_eq; congruence || lia. Qed.

(** The consumer clears the tail slot only when nobody owns it. *)
Lemma clearing_unowned n s cl hd :
  inv n s cl hd -> clearing (cons_pc s) = true -> ~ owned (prods s) (tail (mem s)).
Proof.
  intros [] Hc. unfold cons_ok in *. destruct (cons_pc s); try done.
  by destruct inv_cons0 as (_ & _ & ? & _ & ?).
Qed.

(** A thread other than the owner of [q] is unaffected by a write to [q]'s slot. *)
Lemma thr_ok_other n s cl hd q t t1 p1 :
  inv n s cl hd -> tail (mem s) <= q < tail (mem s) + n ->
  prods s !! t1 = Some p1 -> pos p1 <> Some q -> thr_ok (set_slot (mem s) q t) cl p1.
Proof.
  intros I Hq H1 Hne. pose proof (inv_thr _ _ _ _ I _ _ H1) as Hok.
  pose proof (inv_size _ _ _ _ I). destruct p1 as [| | | |q1 t1'| | | | |]; simpl in *; try done.
  rewrite (slot_other n _ cl hd); [done..| congruence |done|lia].
Qed.

(** The owner of an in-window position publishes its trigger. *)
Lemma inv_publish n s cl hd tid p q t :
  inv n s cl hd -> prods s !! tid = Some p -> pos p = Some q ->
  tail (mem s) <= q < tail (mem s) + n -> carries cl q t ->
  inv n (mkSys (set_slot (mem s) q t) (<[tid := PRet q]> (prods s)) (cons_pc s)) cl hd.
Proof.
  intros I Hp Hpos Hq (t0 & Hl & ->). pose proof I as I'.
  assert (Hown := fun q' => owned_release n s cl hd tid p (PRet q) q q' I Hp Hpos eq_refl).
  destruct I. split; simpl; try done.
  - by rewrite length_insert.
  - intros t1 p1 H1. apply lookup_insert_Some in H1 as [[<- <-]|[Hne H1]]; [done|].
    eapply thr_ok_other; eauto.
  - intros t1 t2 p1 p2 q' H1 H2 Q1 Q2.
    apply lookup_insert_Some in H1 as [[<- <-]|[? H1]];
    apply lookup_insert_Some in H2 as [[<- <-]|[? H2]]; try done; eauto.
  - intros q' Hq'. rewrite Hown. split; [by apply inv_wait0|lia].
  - intros q' t' Hq' Hl' Hno Hcl. destruct (decide (q' = q)) as [->|Hne].
    + rewrite (slot_this n _ cl hd) by done. congruence.
    + rewrite (slot_other n _ cl hd) by done. apply inv_slot0; try done.
      rewrite Hown in Hno. naive_solver.
  - intros q' Hq' Hor. destruct (decide (q' = q)) as [->|Hne].
    + exfalso. rewrite Hown in Hor. apply lookup_lt_Some in Hl.
      destruct Hor as [?|[[]|[Hc ->]]]; [lia|done|].
      by apply (clearing_unowned _ _ _ _ I' Hc); exists tid, p.
    + rewrite (slot_other n _ cl hd) by done. apply inv_free0; [done|].
      rewrite Hown in Hor. naive_solver.
  - eapply cons_ok_ext; [done| |done]. rewrite Hown. naive_solver.
Qed.

(** First of the two ordered stores: only [snd] of the owned slot changes. *)
Lemma inv_store_snd n s cl hd tid q t :
  inv n s cl hd -> prods s !! tid = Some (PStore q t) ->
  inv n (mkSys (set_slot (mem s) q (mkTrigger (tr_fst (slot (mem s) q)) (tr_snd t)))
           (<[tid := PStoreFst q t]> (prods s)) (cons_pc s)) cl hd.
Proof.
  intros I Hp. pose proof I as I'.
  assert (Hown : forall q', owned (<[tid := PStoreFst q t]> (prods s)) q' <-> owned (prods s) q')
    by (intros; by eapply owned_same).
  pose proof (inv_thr _ _ _ _ I _ _ Hp) as [Hin Hwin]. simpl in Hin.
  rewrite (inv_size _ _ _ _ I) in Hwin. destruct I. split; simpl; try done.
  - by rewrite length_insert.
  - intros t1 p1 H1. apply lookup_insert_Some in H1 as [[<- <-]|[Hne H1]].
    + simpl. split; [done|]. split; [lia|]. by rewrite (slot_this n _ cl hd).
    + eapply thr_ok_other; eauto. lia.
  - intros t1 t2 p1 p2 q' H1 H2 Q1 Q2.
    apply lookup_insert_Some in H1 as [[<- <-]|[? H1]];
    apply lookup_insert_Some in H2 as [[<- <-]|[? H2]]; try done; eauto.
  - intros q' Hq'. rewrite Hown. auto.
  - intros q' t' Hq' Hl' Hno Hcl. rewrite Hown in Hno.
    rewrite (slot_other n _ cl hd); try done; [auto| |lia].
    intros <-. apply Hno. by exists tid, (PStore q t).
  - intros q' Hq' Hor. rewrite Hown in Hor. destruct (decide (q' = q)) as [->|Hne].
    + rewrite (slot_this n _ cl hd) by done. simpl. auto.
    + rewrite (slot_other n _ cl hd); try done; [auto|lia].
  - eapply cons_ok_ext; [done| |done]. by rewrite Hown.
Qed.

(** Every step of a device thread preserves the invariant. *)
Lemma inv_dev cuda n s cl hd tid p f' p' :
  inv n s cl hd -> Z.of_nat (length cl) + n < 2 ^ 64 -> prods s !! tid = Some p ->
  dev_step cuda (mem s) p = (f', p') ->
  inv n (mkSys f' (<[tid := p']> (prods s)) (cons_pc s)) cl hd.
Proof.
  intros I Hb Hp Hs. pose proof (inv_thr _ _ _ _ I _ _ Hp) as Hok.
  pose proof (inv_size _ _ _ _ I). pose proof (inv_tail _ _ _ _ I).
  pose proof (inv_cache _ _ _ _ I). pose proof (inv_head _ _ _ _ I).
  pose proof (inv_pos _ _ _ _ I).
  destruct p as [q t|h q t|v q t|q t|q t|h|h|v|h|b]; simpl in Hs, Hok.
  - rewrite u64_small in Hs by lia. case_match eqn:E; bool_to_prop; simplify_eq;
      eapply inv_local; try done; simpl; split; try done; try lia.
    rewrite u64_small by lia. lia.
  - case_match eqn:E; bool_to_prop; simplify_eq;
      eapply inv_local; try done; simpl; split; naive_solver lia.
  - simplify_eq. eapply inv_local; try done; simpl; [lia|split; naive_solver lia].
  - destruct Hok as [[? Hc] ?]. destruct cuda; simplify_eq.
    + eapply inv_publish; try done. lia.
    + by apply inv_store_snd.
  - destruct Hok as ([? Hc] & ? & Hsnd). simplify_eq. rewrite Hsnd.
    replace (mkTrigger (tr_fst t) (tr_snd t)) with t by (by destruct t).
    eapply inv_publish; try done. lia.
  - simplify_eq. by eapply inv_local.
  - case_match eqn:E; bool_to_prop; simplify_eq; eapply inv_local; try done; simpl; lia.
  - simplify_eq. eapply inv_local; try done; simpl; lia.
  - case_match eqn:E; bool_to_prop; simplify_eq; eapply inv_local; try done; simpl; lia.
  - simplify_eq. by eapply inv_local.
Qed.

(** A non-zero [fst] in the tail slot means a published trigger. *)
Lemma tail_nonzero n s cl hd :
  inv n s cl hd -> clearing (cons_pc s) = false -> tr_fst (slot (mem s) (tail (mem s))) <> 0 ->
  exists t0, tail_ready (mem s) (prods s) cl t0 /\ slot (mem s) (tail (mem s)) = flip_msb t0.
Proof.
  intros I Hc Hv. pose proof (inv_pos _ _ _ _ I). pose proof (inv_free _ _ _ _ I) as Hfree.
  pose proof (inv_tail _ _ _ _ I). pose proof (inv_head _ _ _ _ I).
  assert (Hno : ~ owned (prods s) (tail (mem s)))
    by (intros Ho; apply Hv, Hfree; [lia|by right; left]).
  assert (Hlt : tail (mem s) < head (mem s)).
  { destruct (decide (head (mem s) <= tail (mem s))); [|lia].
    exfalso. apply Hv, Hfree; [lia|by left]. }
  destruct (lookup_lt_is_Some_2 cl (Z.to_nat (tail (mem s)))) as [t0 Ht0]; [lia|].
  exists t0. split; [done|]. apply (inv_slot _ _ _ _ I); try done; [lia|].
  rewrite Hc. naive_solver.
Qed.

(** A consumer step that touches no memory: only the program counter and the
    handled history change. *)
Lemma inv_cons_local n s cl hd hd' c' :
  inv n s cl hd -> clearing (cons_pc s) = false -> clearing c' = false ->
  cons_ok (mem s) (prods s) cl hd' c' -> inv n (mkSys (mem s) (prods s) c') cl hd'.
Proof. intros I Hc Hc' Hok. destruct I. split; simpl; try done; rewrite Hc in *; by rewrite Hc'. Qed.

(** [pop], first access: [fst] of the tail slot is cleared. *)
Lemma inv_clear n s cl hd t :
  inv n s cl hd -> cons_pc s = CHandled t ->
  inv n (mkSys (clear_fst (mem s) (tail (mem s))) (prods s) (CPop (tail (mem s)))) cl hd.
Proof.
  intros I Hc. pose proof I as I'. pose proof (inv_cons _ _ _ _ I) as Hok. rewrite Hc in Hok.
  destruct Hok as (-> & Hr). pose proof Hr as [Hl Hno].
  pose proof (inv_pos _ _ _ _ I) as Hn. destruct I. rewrite Hc in *. unfold clear_fst.
  split; simpl; try done.
  - by rewrite length_insert.
  - intros t1 p1 H1. eapply thr_ok_other; eauto; [lia|]. intros E. apply Hno. by exists t1, p1.
  - intros q' t' Hq' Hl' Hno' Hcl. rewrite (slot_other n _ cl _ _ _ _ I') by naive_solver lia.
    apply inv_slot0; try done. naive_solver.
  - intros q' Hq' Hor. destruct (decide (tail (mem s) = q')) as [<-|Hne].
    + by rewrite (slot_this n _ cl _ _ _ I').
    + rewrite (slot_other n _ cl _ _ _ _ I') by naive_solver lia.
      apply inv_free0; [done|]. naive_solver.
  - eauto.
Qed.

Lemma slot_set_tail f x q : slot (set_tail f x) q = slot f q.
Proof. done. Qed.

(** [pop], second access: [tail] moves on and the freed slot enters the window
    one lap later. *)
Lemma inv_advance n s cl hd cur :
  inv n s cl hd -> Z.of_nat (length cl) + n < 2 ^ 64 -> cons_pc s = CPop cur ->
  inv n (mkSys (set_tail (mem s) (u64 (cur + 1))) (prods s) CPoll) cl hd.
Proof.
  intros I Hb Hc. pose proof (inv_cons _ _ _ _ I) as Hok. rewrite Hc in Hok.
  destruct Hok as (-> & -> & t0 & Hl & Hno). pose proof (lookup_lt_Some _ _ _ Hl) as Hlt.
  pose proof (inv_size _ _ _ _ I) as Hn. destruct I. rewrite Hc in *. rewrite u64_small by lia.
  split; simpl; rewrite ?slot_set_tail; try done.
  - lia.
  - lia.
  - intros t1 p1 H1. specialize (inv_thr0 _ _ H1).
    assert (Hne : pos p1 <> Some (tail (mem s))) by (intros E; apply Hno; by exists t1, p1).
    destruct p1; simpl in *; rewrite ?slot_set_tail;
      try (assert (prevHead <> tail (mem s)) by congruence); naive_solver lia.
  - intros q Hq. apply inv_wait0. lia.
  - intros q t Hq Hl' Hno' _. rewrite slot_set_tail. pose proof (lookup_lt_Some _ _ _ Hl').
    apply inv_slot0; try done; [|naive_solver lia].
    split; [lia|]. destruct (decide (q = tail (mem s) + n)) as [->|]; [|lia].
    exfalso. apply Hno', inv_wait0. lia.
  - intros q Hq Hor. rewrite slot_set_tail.
    destruct (decide (q = tail (mem s) + n)) as [->|Hne].
    + rewrite <- Hn, slot_lap by lia. apply inv_free0; [lia|]. by do 2 right.
    + apply inv_free0; [lia|]. naive_solver lia.
  - do 2 f_equal. lia.
Qed.

(** Every step of the consumer preserves the invariant. *)
Lemma inv_consume n s cl hd f' c' h :
  inv n s cl hd -> Z.of_nat (length cl) + n < 2 ^ 64 ->
  cons_step (mem s) (cons_pc s) = (f', c', h) ->
  inv n (mkSys f' (prods s) c') cl (hd ++ h).
Proof.
  intros I Hb Hs. pose proof (inv_cons _ _ _ _ I) as Hok.
  destruct (cons_pc s) as [|v|t|t|cur] eqn:Hc; simpl in Hs.
  - simplify_eq. rewrite app_nil_r. apply inv_cons_local with hd; rewrite ?Hc; try done.
    split; [done|]. intros Hv. destruct (tail_nonzero n s cl hd I) as (t0 & Hr & Hslot); rewrite ?Hc; try done.
    exists t0. by rewrite <- Hslot.
  - simplify_eq. rewrite app_nil_r. destruct Hok as [-> Hv].
    apply inv_cons_local with (take (Z.to_nat (tail (mem s))) cl); rewrite ?Hc; try done.
    split; [done|]. simpl. intros (t0 & Hr & ->)%Hv. exists t0. split; [done|].
    pose proof (inv_pos _ _ _ _ I). destruct Hr as [Hl Hno].
    rewrite (inv_slot _ _ _ _ I (tail (mem s)) t0 ltac:(lia) Hl Hno); [done|]. rewrite Hc. naive_solver.
  - destruct Hok as [-> Hv]. case_match eqn:Hrdy; simplify_eq.
    + destruct Hv as (t0 & [Hl Hno] & ->).
      { unfold ready in Hrdy. bool_to_prop. done. }
      rewrite flip_msb_involutive. eapply inv_cons_local; rewrite ?Hc; try done.
      split; [|done]. symmetry. by apply take_S_r.
    + rewrite app_nil_r. by eapply inv_cons_local; rewrite ?Hc.
  - simplify_eq. rewrite app_nil_r. by eapply inv_clear.
  - simplify_eq. rewrite app_nil_r. by eapply inv_advance.
Qed.

Lemma inv_init n : 0 < n -> inv n (sys_init n) [] [].
Proof.
  intros Hn. split; simpl; try done.
  - by rewrite length_replicate.
  - intros q Hq. lia.
  - intros q _. unfold slot, slot_index. simpl.
    pose proof (Z.mod_pos_bound q n Hn). by rewrite lookup_total_replicate_2 by lia.
Qed.

Lemma inv_act cuda n s cl hd a s' c h :
  inv n s cl hd -> Z.of_nat (length (cl ++ c)) + n < 2 ^ 64 -> Forall pushable c ->
  act cuda s a = Some (s', c, h) -> inv n s' (cl ++ c) (hd ++ h).
Proof.
  intros I Hb Hp Ha. rewrite length_app in Hb. pose proof (inv_pos _ _ _ _ I).
  destruct a as [tid t|tid q|tid q|tid|]; simpl in Ha.
  - case_match eqn:Hf; simplify_eq. rewrite app_nil_r. inversion Hp; subst.
    apply inv_push; try done. simpl in Hb. lia.
  - case_match eqn:Hf; simplify_eq. rewrite !app_nil_r. by apply inv_start.
  - case_match eqn:Hf; simplify_eq. rewrite !app_nil_r. by apply inv_start.
  - destruct (prods s !! tid) as [p|] eqn:Hpc; [|done].
    destruct (dev_step cuda (mem s) p) as [f' p'] eqn:Hs. simplify_eq. rewrite !app_nil_r.
    eapply inv_dev; try done. lia.
  - destruct (cons_step (mem s) (cons_pc s)) as [[f' c'] h'] eqn:Hs. simplify_eq.
    rewrite !app_nil_r. eapply inv_consume; try done. lia.
Qed.

Lemma reach_inv cuda n s cl hd :
  0 < n -> reach cuda n s cl hd -> Z.of_nat (length cl) + n < 2 ^ 64 -> inv n s cl hd.
Proof.
  intros Hn. induction 1 as [|s cl hd a s' c h Hr IH Ha Hp]; intros Hb; [by apply inv_init|].
  eapply inv_act; try done. apply IH. rewrite length_app in Hb. lia.
Qed.

(** ** Progress *)

Lemma run_app cuda s1 s2 s3 as1 as2 c1 c2 h1 h2 :
  run cuda s1 as1 = Some (s2, c1, h1) -> run cuda s2 as2 = Some (s3, c2, h2) ->
  run cuda s1 (as1 ++ as2) = Some (s3, c1 ++ c2, h1 ++ h2).
Proof.
  revert s1 c1 h1. induction as1 as [|a as1 IH]; simpl; intros s1 c1 h1 H1 H2.
  - by simplify_eq.
  - destruct (act cuda s1 a) as [[[s' c'] h']|] eqn:Ha; [|done]. simpl in *.
    destruct (run cuda s' as1) as [[[s'' c''] h'']|] eqn:Hr; [|done]. simplify_eq/=.
    rewrite (IH _ _ _ Hr H2). simpl. by rewrite <- !app_assoc.
Qed.

Lemma run_inv cuda n s cl hd as_ s' h :
  inv n s cl hd -> Z.of_nat (length cl) + n < 2 ^ 64 -> run cuda s as_ = Some (s', [], h) ->
  inv n s' cl (hd ++ h).
Proof.
  revert s hd h. induction as_ as [|a as_ IH]; simpl; intros s hd h I Hb Hr.
  - simplify_eq. by rewrite app_nil_r.
  - destruct (act cuda s a) as [[[s1 c1] h1]|] eqn:Ha; [|done]. simpl in Hr.
    destruct (run cuda s1 as_) as [[[s2 c2] h2]|] eqn:Hr'; [|done]. simplify_eq/=.
    destruct c1, c2; try done. rewrite app_assoc. eapply IH; try done.
    rewrite <- (app_nil_r cl). eapply inv_act; try done. by rewrite app_nil_r.
Qed.

Definition rank (p : pc) : nat :=
  match p with
  | PClaimed _ _ => 5 | PSync _ _ _ => 4 | PSyncStore _ _ _ => 3
  | PStore _ _ => 2 | PStoreFst _ _ => 1 | _ => 0
  end.

(** The owner of the tail position is never blocked: each of its steps gets it
    closer to publishing. *)
Lemma tail_owner_step cuda n s cl hd tid p f' p' :
  inv n s cl hd -> Z.of_nat (length cl) + n < 2 ^ 64 -> prods s !! tid = Some p ->
  pos p = Some (tail (mem s)) -> dev_step cuda (mem s) p = (f', p') ->
  tail f' = tail (mem s) /\ (pos p' = None \/ pos p' = pos p /\ (rank p' < rank p)%nat).
Proof.
  intros I Hb Hp Hpos Hs. pose proof (inv_thr _ _ _ _ I _ _ Hp) as Hok.
  pose proof (inv_pos _ _ _ _ I). pose proof (inv_size _ _ _ _ I).
  destruct p as [q t|h q t|v q t|q t|q t|h|h|v|h|b]; simpl in *; simplify_eq.
  - case_match; simplify_eq; simpl; auto with lia.
  - case_match eqn:E; simplify_eq; simpl; [bool_to_prop; lia|auto with lia].
  - simpl. auto with lia.
  - destruct cuda; simplify_eq; simpl; auto with lia.
  - simpl. auto with lia.
Qed.

Lemma tail_owner_publishes cuda n k s cl hd tid p :
  inv n s cl hd -> Z.of_nat (length cl) + n < 2 ^ 64 -> prods s !! tid = Some p ->
  pos p = Some (tail (mem s)) -> (rank p <= k)%nat ->
  exists as_ s', run cuda s as_ = Some (s', [], []) /\ cons_pc s' = cons_pc s /\
    tail (mem s') = tail (mem s) /\ ~ owned (prods s') (tail (mem s')).
Proof.
  revert s p. induction k as [|k IH]; intros s p I Hb Hp Hpos Hk.
  { destruct p; simpl in *; simplify_eq; lia. }
  destruct (dev_step cuda (mem s) p) as [f' p'] eqn:Hs.
  destruct (tail_owner_step _ _ _ _ _ _ _ _ _ I Hb Hp Hpos Hs) as [Ht Hcase].
  pose (s1 := mkSys f' (<[tid := p']> (prods s)) (cons_pc s)).
  assert (Ha : run cuda s [ADev tid] = Some (s1, [], [])) by (simpl; by rewrite Hp, Hs).
  assert (I1 : inv n s1 cl hd) by (eapply inv_dev; eauto).
  destruct Hcase as [Hnone|[Hsame Hlt]].
  - exists [ADev tid], s1. split; [done|]. split; [done|]. split; [done|].
    simpl. rewrite Ht, (owned_release _ _ _ _ _ _ _ (tail (mem s)) _ I Hp Hpos Hnone). naive_solver.
  - destruct (IH s1 p') as (as_ & s' & Hr & Hc & Ht' & Hno); try done.
    + simpl. by rewrite lookup_insert_eq.
    + simpl. congruence.
    + lia.
    + exists (ADev tid :: as_), s'. split; [|simpl in *; split_and!; congruence || done].
      apply (run_app _ _ _ _ _ _ _ _ _ _ Ha Hr).
Qed.

Lemma owned_em ps q : owned ps q \/ ~ owned ps q.
Proof.
  destruct (decide (map_Exists (fun _ p => pos p = Some q) ps)) as [H|H]; [left|right].
  - destruct H as (tid & p & ? & ?). by exists tid, p.
  - intros (tid & p & ? & ?). apply H. by exists tid, p.
Qed.

(** From the top of its loop the consumer reaches the handler with the trigger
    at the tail. *)
Lemma consumer_delivers cuda n s cl hd :
  inv n s cl hd -> Z.of_nat (length cl) + n < 2 ^ 64 -> cons_pc s = CPoll ->
  ~ owned (prods s) (tail (mem s)) -> tail (mem s) < head (mem s) ->
  exists s' t, run cuda s [ACons; ACons; ACons] = Some (s', [], [t]).
Proof.
  intros I Hb Hc Hno Hlt. pose proof (inv_head _ _ _ _ I). pose proof (inv_tail _ _ _ _ I).
  pose proof (inv_pos _ _ _ _ I).
  destruct (lookup_lt_is_Some_2 cl (Z.to_nat (tail (mem s)))) as [t0 Ht0]; [lia|].
  assert (Hslot : slot (mem s) (tail (mem s)) = flip_msb t0).
  { apply (inv_slot _ _ _ _ I); try done; [lia|]. rewrite Hc. naive_solver. }
  assert (Hp : pushable t0)
    by (eapply (Forall_lookup_1 _ _ _ _ (inv_pushable _ _ _ _ I)); done).
  eexists _, _. simpl. rewrite Hc. simpl. rewrite Hslot.
  replace (mkTrigger (tr_fst (flip_msb t0)) (tr_snd (flip_msb t0))) with (flip_msb t0) by done.
  rewrite (pushable_ready _ Hp). simpl. done.
Qed.

(** The consumer gets back to the top of its loop by its own steps. *)
Lemma consumer_to_poll cuda n s cl hd :
  inv n s cl hd ->
  exists as_ s' h, run cuda s as_ = Some (s', [], h) /\ (h <> [] \/ (h = [] /\ cons_pc s' = CPoll)).
Proof.
  intros I. destruct (cons_pc s) as [|v|t|t|cur] eqn:Hc.
  - by exists [], s, []; auto.
  - destruct (ready (mkTrigger v (tr_snd (slot (mem s) (tail (mem s)))))) eqn:Hr;
      exists [ACons; ACons]; simpl; rewrite Hc; simpl; rewrite Hr; simpl; eexists _, _; auto.
  - destruct (ready t) eqn:Hr; exists [ACons]; simpl; rewrite Hc; simpl; rewrite Hr; simpl;
      eexists _, _; auto.
  - exists [ACons; ACons]. simpl. rewrite Hc. simpl. eexists _, _; auto.
  - exists [ACons]. simpl. rewrite Hc. simpl. eexists _, _; auto.
Qed.

Lemma inv_hd_prefix n s cl hd : inv n s cl hd ->
  hd = take (length hd) cl /\ tail (mem s) <= Z.of_nat (length hd) <= tail (mem s) + 1.
Proof.
  intros I. pose proof (inv_head _ _ _ _ I). pose proof (inv_tail _ _ _ _ I).
  assert (Hk : forall k, (k <= length cl)%nat -> length (take k cl) = k)
    by (intros; rewrite length_take; lia).
  pose proof (inv_cons _ _ _ _ I) as Hc. unfold cons_ok, tail_ready in Hc.
  destruct (cons_pc s); [subst hd|destruct Hc as [-> _]|destruct Hc as [-> _]|
    destruct Hc as (-> & Hl & _)|destruct Hc as (_ & -> & t0 & Hl & _)];
    try (apply lookup_lt_Some in Hl); rewrite Hk by lia; split; try done; lia.
Qed.

Lemma progress cuda n s cl hd :
  inv n s cl hd -> Z.of_nat (length cl) + n < 2 ^ 64 -> (length hd < length cl)%nat ->
  exists as_ s' h, run cuda s as_ = Some (s', [], h) /\ h <> [].
Proof.
  intros I Hb Hlt.
  destruct (consumer_to_poll cuda _ _ _ _ I) as (as1 & s1 & h1 & R1 & [?|[-> Hc1]]); [eauto|].
  pose proof (run_inv _ _ _ _ _ _ _ _ I Hb R1) as I1. rewrite app_nil_r in I1.
  assert (exists as2 s2, run cuda s1 as2 = Some (s2, [], []) /\ cons_pc s2 = CPoll /\
            tail (mem s2) = tail (mem s1) /\ ~ owned (prods s2) (tail (mem s2)))
    as (as2 & s2 & R2 & Hc2 & Ht2 & Hno).
  { destruct (owned_em (prods s1) (tail (mem s1))) as [(tid & p & Hp & Hpos)|Hno].
    - rewrite <- Hc1. by eapply tail_owner_publishes.
    - exists [], s1. auto. }
  pose proof (run_inv _ _ _ _ _ _ _ _ I1 Hb R2) as I2. rewrite app_nil_r in I2.
  destruct (consumer_delivers cuda _ _ _ _ I2 Hb Hc2 Hno) as (s3 & t & R3).
  { pose proof (inv_head _ _ _ _ I2). pose proof (inv_tail _ _ _ _ I2).
    pose proof (inv_cons _ _ _ _ I2) as Hok. rewrite Hc2 in Hok. simpl in Hok.
    rewrite Hok, length_take in Hlt. lia. }
  exists (as1 ++ as2 ++ [ACons; ACons; ACons]), s3, [t]. split; [|done].
  apply (run_app _ _ _ _ _ _ _ _ _ _ R1 (run_app _ _ _ _ _ _ _ _ _ _ R2 R3)).
Qed.

(** ** Results *)

(** C4: at every point of every interleaving of any number of device pushers
    with the proxy thread, the triggers handled so far are exactly the first
    ones claimed on the head counter, in claim order, each once and with its
    reserved bit restored; and the tail counter trails the handled count by at
    most the trigger being handled. *)
Theorem fifo_in_order cuda n s cl hd :
  0 < n -> reach cuda n s cl hd -> Z.of_nat (length cl) + n < 2 ^ 64 ->
  hd = take (length hd) cl /\ head (mem s) = Z.of_nat (length cl) /\
  tail (mem s) <= Z.of_nat (length hd) <= tail (mem s) + 1.
Proof.
  intros Hn Hr Hb. pose proof (reach_inv _ _ _ _ _ Hn Hr Hb) as I.
  destruct (inv_hd_prefix _ _ _ _ I) as [? ?]. split; [done|]. split; [|done].
  by apply inv_head in I.
Qed.

(** C14: a pusher that is about to write its slot has waited long enough: the
    trigger that used the slot one lap earlier is popped, the slot's [fst] word
    is still zero, and no other pusher holds the same position. *)
Theorem fifo_no_overwrite cuda n s cl hd tid q t :
  0 < n -> reach cuda n s cl hd -> Z.of_nat (length cl) + n < 2 ^ 64 ->
  prods s !! tid = Some (PStore q t) \/ prods s !! tid = Some (PStoreFst q t) ->
  q - n < tail (mem s) <= q /\ tr_fst (slot (mem s) q) = 0 /\
  (forall tid' p', prods s !! tid' = Some p' -> pos p' = Some q -> tid' = tid).
Proof.
  intros Hn Hr Hb Hp. pose proof (reach_inv _ _ _ _ _ Hn Hr Hb) as I.
  assert (exists p, prods s !! tid = Some p /\ pos p = Some q /\
            tail (mem s) <= q < tail (mem s) + n) as (p & Hp' & Hpos & Hq).
  { pose proof (inv_size _ _ _ _ I).
    destruct Hp as [Hp|Hp]; pose proof (inv_thr _ _ _ _ I _ _ Hp) as Hok; simpl in Hok;
      eexists; split_and!; try done; lia. }
  split; [lia|]. split.
  - apply (inv_free _ _ _ _ I); [done|]. right; left. by exists tid, p.
  - intros tid' p' H1 H2. by eapply (inv_uniq _ _ _ _ I).
Qed.

(** C34: no deadlock: from every reachable state there is a schedule without new
    pushes after which every claimed trigger has been handled, in order. *)
Theorem fifo_drains cuda n s cl hd :
  0 < n -> reach cuda n s cl hd -> Z.of_nat (length cl) + n < 2 ^ 64 ->
  exists as_ s' h, run cuda s as_ = Some (s', [], h) /\ hd ++ h = cl.
Proof.
  intros Hn Hr Hb. pose proof (reach_inv _ _ _ _ _ Hn Hr Hb) as I. clear Hr.
  assert (Hpre : forall s hd, inv n s cl hd -> (length hd <= length cl)%nat /\
            (length hd = length cl -> hd = cl)).
  { intros s1 hd1 I1. destruct (inv_hd_prefix _ _ _ _ I1) as [E _].
    pose proof (f_equal length E) as El. rewrite length_take in El. split; [lia|].
    intros Heq. rewrite E, Heq. by apply firstn_all. }
  remember (length cl - length hd)%nat as k eqn:Hk. revert s hd I Hk.
  induction (lt_wf k) as [k _ IH]. intros s hd I Hk. destruct (Hpre _ _ I) as [Hle Heq].
  destruct (decide (length hd = length cl)) as [E|Hne].
  { exists [], s, []. by rewrite app_nil_r, Heq. }
  destruct (progress cuda _ _ _ _ I Hb) as (as1 & s1 & h1 & R1 & Hh1); [lia|].
  pose proof (run_inv _ _ _ _ _ _ _ _ I Hb R1) as I1.
  destruct (Hpre _ _ I1) as [Hle1 _]. rewrite length_app in Hle1.
  assert (length h1 <> 0)%nat by (by destruct h1).
  destruct (IH (length cl - length (hd ++ h1))%nat) with (s := s1) (hd := hd ++ h1)
    as (as2 & s2 & h2 & R2 & E2); try done; [rewrite length_app; lia|].
  exists (as1 ++ as2), s2, (h1 ++ h2). split; [|by rewrite app_assoc].
  apply (run_app _ _ _ _ _ _ _ _ _ _ R1 R2).
Qed.

(** ** Witnesses *)

Lemma run_reach cuda n s cl hd as_ s' c h :
  reach cuda n s cl hd -> run cuda s as_ = Some (s', c, h) -> Forall pushable c ->
  reach cuda n s' (cl ++ c) (hd ++ h).
Proof.
  revert s cl hd c h. induction as_ as [|a as_ IH]; simpl; intros s cl hd c h Hr Hrun Hp.
  - simplify_eq. by rewrite !app_nil_r.
  - destruct (act cuda s a) as [[[s1 c1] h1]|] eqn:Ha; [|done]. simpl in Hrun.
    destruct (run cuda s1 as_) as [[[s2 c2] h2]|] eqn:Hr'; [|done]. simplify_eq/=.
    apply Forall_app in Hp as [Hp1 Hp2]. rewrite !app_assoc.
    eapply IH; [|done..]. by eapply reach_step.
Qed.

(** The state the demonstration schedule ends in, and the one where the second
    pusher is about to write the slot the first trigger was popped from. *)
Definition demo_end : sys :=
  match run false (sys_init 1) demo_schedule with Some (s, _, _) => s | None => sys_init 1 end.
Definition demo_mid : sys :=
  match run false (sys_init 1) (take 15 demo_schedule) with
  | Some (s, _, _) => s | None => sys_init 1 end.

Lemma demo_pushable : Forall pushable [demo_t1; demo_t2].
Proof. repeat constructor; done. Qed.

Lemma demo_end_reach : reach false 1 demo_end [demo_t1; demo_t2] [demo_t1; demo_t2].
Proof.
  refine (run_reach false 1 _ [] [] demo_schedule _ _ _ (reach_init _ _) _ demo_pushable).
  vm_compute. reflexivity.
Qed.

Lemma demo_mid_reach : reach false 1 demo_mid [demo_t1; demo_t2] [demo_t1].
Proof.
  refine (run_reach false 1 _ [] [] (take 15 demo_schedule) _ _ _ (reach_init _ _) _ demo_pushable).
  vm_compute. reflexivity.
Qed.

Lemma fifo_in_order_witness :
  [demo_t1; demo_t2] = take 2 [demo_t1; demo_t2] /\ head (mem demo_end) = 2 /\
  tail (mem demo_end) <= 2 <= tail (mem demo_end) + 1.
Proof.
  apply (fifo_in_order false 1 demo_end [demo_t1; demo_t2] [demo_t1; demo_t2]);
    [done|exact demo_end_reach|done].
Defined.

Lemma fifo_no_overwrite_witness :
  1 - 1 < tail (mem demo_mid) <= 1 /\ tr_fst (slot (mem demo_mid) 1) = 0 /\
  (forall tid' p', prods demo_mid !! tid' = Some p' -> pos p' = Some 1 -> tid' = 1%nat).
Proof.
  apply (fifo_no_overwrite false 1 demo_mid [demo_t1; demo_t2] [demo_t1] 1 1 (flip_msb demo_t2));
    [done|exact demo_mid_reach|done|]. left. vm_compute. reflexivity.
Defined.

Lemma fifo_drains_witness :
  exists as_ s' h, run false demo_mid as_ = Some (s', [], h) /\ [demo_t1] ++ h = [demo_t1; demo_t2].
Proof. apply (fifo_drains false 1); [done|exact demo_mid_reach|done]. Defined.
