(* ===== verification/Proxy.v ===== *)
(** * The proxy thread

    Models [Proxy] of src/core/proxy.cc with the state of [Proxy::Impl]
    (src/core/include/proxy_impl.hpp): [start], the thread's loop, [stop].  The
    loop is generic in the handler and the per-iteration progress handler; other
    threads act between iterations through an environment function.

    An exception that leaves a handler leaves the thread function, and C++ then
    calls [std::terminate]; so does assigning a new thread to a joinable
    [std::thread].  Both end the process and are the outcome [Terminated]. *)

From S2P Require Import Prelude Errors Trigger Fifo.
Local Open Scope Z_scope.

Definition ProxyStopCheckPeriod : Z := 1000.

Inductive ProxyHandlerResult := Continue | Stop.

(** Where the service thread is. *)
Inductive phase := NotStarted | Starting | Looping (runCnt : Z) | Exited.

(** [Proxy::Impl] with the memory the handlers work on. *)
Record Proxy (S : Type) := mkProxy {
  fifo : Fifo;
  threadStarted : bool;
  running : bool;
  joinable : bool;         (* [service.joinable()] *)
  thread : phase;
  user : S                 (* what [handler] and [progressHandler] read and write *)
}.
Arguments mkProxy {S}.
Arguments fifo {S}. Arguments threadStarted {S}. Arguments running {S}.
Arguments joinable {S}. Arguments thread {S}. Arguments user {S}.

Inductive outcome (S : Type) := Running (px : Proxy S) | Left (px : Proxy S) | Terminated (e : exn).
Arguments Running {S}. Arguments Left {S}. Arguments Terminated {S}.

Section proxy.
Context {S : Type}.
Context (handler : ProxyTrigger -> Fifo -> S -> result (S * ProxyHandlerResult)).
Context (progressHandler : option (S -> result S)).

(** [Impl::Impl]. *)
Definition Proxy_init (fifoSize : Z) (u : S) : Proxy S :=
  mkProxy (Fifo_init fifoSize) false false false NotStarted u.

Definition set_thread (px : Proxy S) (ph : phase) : Proxy S :=
  mkProxy (fifo px) (threadStarted px) (running px) (joinable px) ph (user px).
Definition set_work (px : Proxy S) (f : Fifo) (u : S) : Proxy S :=
  mkProxy f (threadStarted px) (running px) (joinable px) (thread px) u.

(** [start] up to the creation of the thread; [None] is [std::terminate]. *)
Definition start (px : Proxy S) : option (Proxy S) :=
  if joinable px then None
  else Some (mkProxy (fifo px) (threadStarted px) true true Starting (user px)).

(** The thread's prologue: [threadInit], then [threadStarted] is published and
    the loop is entered with a full stop-check period. *)
Definition thread_begin (px : Proxy S) : Proxy S :=
  match thread px with
  | Starting => mkProxy (fifo px) true (running px) (joinable px)
                  (Looping ProxyStopCheckPeriod) (user px)
  | _ => px
  end.

(** [if (progressHandler) progressHandler();] *)
Definition run_progress (u : S) : result S :=
  match progressHandler with Some h => h u | None => Ok u end.

(** The rest of an iteration, after the stop check, with the decremented counter. *)
Definition iter_body (runCnt : Z) (px : Proxy S) : outcome S :=
  match run_progress (user px) with
  | Throw e => Terminated e
  | Ok u =>
      let px := set_thread (set_work px (fifo px) u) (Looping runCnt) in
      let trigger := Fifo_poll (fifo px) in
      if (tr_fst trigger =? 0) || (tr_snd trigger =? 0) then Running px
      else
        match handler (flip_msb trigger) (fifo px) u with
        | Throw e => Terminated e
        | Ok (u', r) =>
            let px := set_work px (Fifo_pop (fifo px)) u' in
            match r with
            | Stop => Left (set_thread px Exited)
            | Continue => Running px
            end
        end
  end.

(** One iteration of [for (;;)]; [runCnt-- == 0] tests the old value. *)
Definition iter (px : Proxy S) : outcome S :=
  match thread px with
  | Looping runCnt =>
      if runCnt =? 0 then
        if negb (running px) then Left (set_thread px Exited)
        else iter_body ProxyStopCheckPeriod px
      else iter_body (runCnt - 1) px
  | _ => Left px
  end.

(** The loop, with the other threads' effect [env i] before iteration [i]. *)
Fixpoint loop (fuel : nat) (env : nat -> Proxy S -> Proxy S) (i : nat) (px : Proxy S) : outcome S :=
  match fuel with
  | O => Running px
  | Datatypes.S fuel' =>
      match iter (env i px) with
      | Running px' => loop fuel' env (Datatypes.S i) px'
      | o => o
      end
  end.

(** [stop]: clear [running]; join (the thread runs to its exit); reset the
    started flag.  [fuel] bounds the iterations the join waits for. *)
Definition stop (fuel : nat) (px : Proxy S) : outcome S :=
  let px := mkProxy (fifo px) (threadStarted px) false (joinable px) (thread px) (user px) in
  let finish px' :=
    mkProxy (fifo px') false (running px') false (thread px') (user px') in
  if joinable px then
    match loop fuel (fun _ p => p) 0 (thread_begin px) with
    | Left px' => Left (finish px')
    | o => o
    end
  else Left (mkProxy (fifo px) false (running px) (joinable px) (thread px) (user px)).

(** ** Properties *)

(** What other threads can do between two iterations: push to the FIFO and set
    [running]; the thread's locals and the handlers' state are its own. *)
Definition env_ok (env : nat -> Proxy S -> Proxy S) : Prop :=
  forall i px, thread (env i px) = thread px /\ user (env i px) = user px.

Definition loop_inv (px : Proxy S) : Prop :=
  match thread px with Looping c => 0 <= c <= ProxyStopCheckPeriod | _ => True end.

Lemma iter_body_running c px px' :
  iter_body c px = Running px' -> thread px' = Looping c /\ running px' = running px.
Proof. unfold iter_body. intros H. split_cases. Qed.

(** The countdown: an iteration that keeps looping either decrements the counter
    or, at zero, saw [running] set and refilled it. *)
Lemma iter_counts c px px' :
  thread px = Looping c -> iter px = Running px' ->
  (c <> 0 /\ thread px' = Looping (c - 1)) \/
  (c = 0 /\ running px = true /\ thread px' = Looping ProxyStopCheckPeriod).
Proof.
  intros Hc. unfold iter. rewrite Hc. destruct (Z.eqb_spec c 0).
  - destruct (running px) eqn:Hr; simpl; [|done]. intros [? ?]%iter_body_running. auto.
  - intros [? ?]%iter_body_running. auto.
Qed.

Lemma iter_loop_inv px px' :
  loop_inv px -> iter px = Running px' -> loop_inv px'.
Proof.
  unfold loop_inv. intros Hi Hs. destruct (thread px) as [| |c|] eqn:Hc;
    try (unfold iter in Hs; rewrite Hc in Hs; done).
  destruct (iter_counts _ _ _ Hc Hs) as [[? ->]|(? & ? & ->)]; unfold ProxyStopCheckPeriod in *; lia.
Qed.

Lemma loop_stops env fuel i px c :
  env_ok env -> (forall j p, running (env j p) = false) ->
  thread px = Looping c -> 0 <= c < Z.of_nat fuel ->
  (exists px', loop fuel env i px = Left px') \/ (exists e, loop fuel env i px = Terminated e).
Proof.
  intros Henv Hrun. revert i px c. induction fuel as [|fuel IH]; intros i px c Hc Hb; [lia|].
  simpl. destruct (iter (env i px)) as [px'|px'|e] eqn:Hs; [|eauto..].
  assert (Hc' : thread (env i px) = Looping c) by (by rewrite (proj1 (Henv i px))).
  destruct (iter_counts _ _ _ Hc' Hs) as [[Hne Hn]|(-> & Hr & _)];
    [|rewrite Hrun in Hr; done].
  apply (IH _ _ _ Hn). lia.
Qed.

(** [k] triggers are published from position [pos] on, and the slot after them
    is empty or reused by them. *)
Definition published (f : Fifo) (ts : list ProxyTrigger) : Prop :=
  forall i t, ts !! i = Some t -> slot f (tail f + Z.of_nat i) = flip_msb t.

(** Handling the triggers one after the other. *)
Fixpoint handle_all (ts : list ProxyTrigger) (f : Fifo) (u : S) : result (Fifo * S) :=
  match ts with
  | [] => Ok (f, u)
  | t :: ts' =>
      u1 ← run_progress u;
      '(u2, _) ← handler t f u1;
      handle_all ts' (Fifo_pop f) u2
  end.

Lemma published_pop f t ts :
  0 < fifo_size f -> Z.of_nat (length (t :: ts)) <= fifo_size f ->
  0 <= tail f -> tail f + Z.of_nat (length (t :: ts)) < 2 ^ 64 ->
  published f (t :: ts) -> published (Fifo_pop f) ts.
Proof.
  intros Hn Hlen H0 Hb Hp i t' Hi. pose proof (lookup_lt_Some _ _ _ Hi) as Hlt. simpl in *.
  unfold Fifo_pop, clear_fst. simpl. rewrite slot_set_tail, u64_small by lia.
  rewrite slot_set_slot_ne by lia.
  replace (tail f + 1 + Z.of_nat i) with (tail f + Z.of_nat (Datatypes.S i)) by lia. by apply Hp.
Qed.

(** With a handler that always continues, draining published triggers is
    [handle_all]: each is handled once, in order, and popped. *)
Lemma loop_drains ts px c f' u' i :
  (forall t f u u2 r, handler t f u = Ok (u2, r) -> r = Continue) ->
  thread px = Looping c -> 0 <= c <= ProxyStopCheckPeriod -> running px = true ->
  0 < fifo_size (fifo px) -> Z.of_nat (length ts) <= fifo_size (fifo px) ->
  0 <= tail (fifo px) -> tail (fifo px) + Z.of_nat (length ts) < 2 ^ 64 ->
  Forall pushable ts -> published (fifo px) ts ->
  handle_all ts (fifo px) (user px) = Ok (f', u') ->
  exists px', loop (length ts) (fun _ p => p) i px = Running px' /\
    fifo px' = f' /\ user px' = u' /\ tail f' = tail (fifo px) + Z.of_nat (length ts).
Proof.
  intros Hcont. revert px c i.
  induction ts as [|t ts IH]; intros px c i Hc Hcr Hrun Hn Hlen H0 Hb Hpush Hpub Hall.
  { simpl in Hall. simplify_eq. exists px. simpl. split_and!; try done. lia. }
  simpl in Hall. inv_ok. destruct v0 as [u2 r]. inversion Hpush as [|? ? Hpt Hpts]; subst.
  assert (Hr : r = Continue) by eauto. subst r. inv_ok.
  assert (Hslot : Fifo_poll (fifo px) = flip_msb t).
  { pose proof (Hpub 0%nat t eq_refl) as E. by rewrite Z.add_0_r in E. }
  assert (Hready : (tr_fst (flip_msb t) =? 0) || (tr_snd (flip_msb t) =? 0) = false).
  { pose proof (pushable_ready _ Hpt) as E. unfold ready in E. by apply negb_true_iff in E. }
  pose (c' := if c =? 0 then ProxyStopCheckPeriod else c - 1).
  pose (px1 := set_work (set_thread (set_work px (fifo px) v) (Looping c'))
                 (Fifo_pop (fifo px)) u2).
  assert (Hit : iter px = Running px1).
  { unfold iter. rewrite Hc, Hrun. simpl. unfold px1, c'.
    destruct (c =? 0); unfold iter_body; rewrite H; simpl; rewrite Hslot, Hready,
      flip_msb_involutive, H1; done. }
  assert (Hc' : 0 <= c' <= ProxyStopCheckPeriod).
  { unfold c', ProxyStopCheckPeriod in *. destruct (Z.eqb_spec c 0); lia. }
  assert (Ht1 : tail (fifo px1) = tail (fifo px) + 1)
    by (unfold px1; simpl in *; rewrite u64_small by lia; done).
  destruct (IH px1 c' (Datatypes.S i)) as (px' & Hl & Hf & Hu & Ht); try done; simpl in *; try lia.
  - eapply published_pop; simpl; try done; lia.
  - exists px'. rewrite Hit. split_and!; try done. lia.
Qed.
End proxy.

(** The atomic [poll] and [pop] used here are the consumer steps of the
    interleaving model run back to back. *)
Lemma consumer_poll_atomic f :
  let '(f1, c1, _) := cons_step f CPoll in
  cons_step f1 c1 = (f, CTest (Fifo_poll f), []).
Proof. simpl. unfold Fifo_poll. by destruct (slot f (tail f)). Qed.

Lemma consumer_pop_atomic f t :
  let '(f1, c1, _) := cons_step f (CHandled t) in
  cons_step f1 c1 = (Fifo_pop f, CPoll, []).
Proof. done. Qed.

(** ** Results *)

(** once [stop] has cleared [running], the proxy thread leaves its loop
    within ProxyStopCheckPeriod + 1 iterations, whatever the other threads push
    meanwhile and whatever the handlers do, as long as they do not throw. *)
Theorem proxy_leaves_loop {S} handler progress (env : nat -> Proxy S -> Proxy S) i px c :
  (forall t f u, is_ok (handler t f u) = true) ->
  (forall u, is_ok (run_progress progress u) = true) ->
  env_ok env -> (forall j p, running (env j p) = false) ->
  thread px = Looping c -> 0 <= c <= ProxyStopCheckPeriod ->
  exists px', loop handler progress (Z.to_nat (ProxyStopCheckPeriod + 1)) env i px = Left px' /\
    running px' = false.
Proof.
  intros Hh Hp Henv Hrun Hc Hb.
  destruct (loop_stops handler progress env (Z.to_nat (ProxyStopCheckPeriod + 1)) i px c)
    as [[px' E]|[e E]]; try done; [unfold ProxyStopCheckPeriod in *; lia|..].
  - exists px'. split; [done|]. clear Hc Hb. revert i px E.
    induction (Z.to_nat _) as [|n IH]; simpl; intros i px E; [done|].
    destruct (iter handler progress (env i px)) as [px1|px1|e] eqn:Hi; [eauto| |done].
    simplify_eq. pose proof (Hrun i px) as Hr. revert Hi. unfold iter, iter_body.
    intros Hi. split_cases.
  - exfalso. clear Hc Hb. revert i px E.
    induction (Z.to_nat _) as [|n IH]; simpl; intros i px E; [done|].
    destruct (iter handler progress (env i px)) as [px1|px1|e'] eqn:Hi; [eauto|done|].
    revert Hi. unfold iter, iter_body. intros Hi.
    pose proof (Hp (user (env i px))) as Hp'.
    destruct (run_progress progress (user (env i px))) as [u|] eqn:Hpr; [|done].
    repeat case_match; simplify_eq; simpl in *;
      match goal with H : handler ?t ?f ?u = Throw _ |- _ =>
        pose proof (Hh t f u) as Hk; rewrite H in Hk; done end.
Qed.

(** A handler that records what it is given. *)
Definition recorder (t : ProxyTrigger) (f : Fifo) (u : list ProxyTrigger) :
    result (list ProxyTrigger * ProxyHandlerResult) := Ok (u ++ [t], Continue).

(** A proxy of a four-slot FIFO that has been asked to stop, 3 iterations into
    its period. *)
Definition stopping_proxy : Proxy (list ProxyTrigger) :=
  mkProxy (Fifo_init 4) true false true (Looping 997) [].

Lemma proxy_leaves_loop_witness :
  exists px', loop recorder None (Z.to_nat (ProxyStopCheckPeriod + 1))
    (fun _ p => mkProxy (fifo p) (threadStarted p) false (joinable p) (thread p) (user p))
    0 stopping_proxy = Left px' /\ running px' = false.
Proof. apply (proxy_leaves_loop recorder None _ 0 stopping_proxy 997); done. Defined.

(** draining [k] published triggers takes exactly [k] iterations; each one is
    passed to the handler once, in order and with the reserved bit reverted,
    after the progress handler, and is popped after the handler returned. *)
Theorem proxy_handles_in_order {S} handler progress ts (px : Proxy S) c f' u' :
  (forall t f u u2 r, handler t f u = Ok (u2, r) -> r = Continue) ->
  thread px = Looping c -> 0 <= c <= ProxyStopCheckPeriod -> running px = true ->
  0 < fifo_size (fifo px) -> Z.of_nat (length ts) <= fifo_size (fifo px) ->
  0 <= tail (fifo px) -> tail (fifo px) + Z.of_nat (length ts) < 2 ^ 64 ->
  Forall pushable ts -> published (fifo px) ts ->
  handle_all handler progress ts (fifo px) (user px) = Ok (f', u') ->
  exists px', loop handler progress (length ts) (fun _ p => p) 0 px = Running px' /\
    fifo px' = f' /\ user px' = u' /\ tail f' = tail (fifo px) + Z.of_nat (length ts).
Proof. apply loop_drains. Qed.

(** Two triggers in a four-slot FIFO. *)
Definition two_published : Fifo :=
  mkFifo [flip_msb demo_t1; flip_msb demo_t2; mkTrigger 0 0; mkTrigger 0 0] 2 0 0 4.

Lemma proxy_handles_in_order_witness :
  exists px', loop recorder None 2 (fun _ p => p) 0
      (mkProxy two_published true true true (Looping 0) []) = Running px' /\
    fifo px' = Fifo_pop (Fifo_pop two_published) /\ user px' = [demo_t1; demo_t2] /\
    tail (Fifo_pop (Fifo_pop two_published)) = 0 + Z.of_nat 2.
Proof.
  apply (proxy_handles_in_order recorder None [demo_t1; demo_t2]
           (mkProxy two_published true true true (Looping 0) []) 0);
    [by intros; unfold recorder in *; simplify_eq|done..|exact demo_pushable| |reflexivity].
  intros [|[|i]] t Ht; simplify_eq/=; vm_compute; reflexivity.
Defined.

(** [start] on a proxy whose thread has not been joined ends the process;
    after [stop] it works again, and the thread then publishes [threadStarted]
    and begins with a full stop-check period. *)
Theorem proxy_restart {S} handler progress fuel (px px1 : Proxy S) :
  (joinable px = true -> start px = None) /\
  (stop handler progress fuel px = Left px1 ->
   exists px2, start px1 = Some px2 /\ running px2 = true /\
     threadStarted (thread_begin px2) = true /\
     thread (thread_begin px2) = Looping ProxyStopCheckPeriod).
Proof.
  split; [intros Hj; unfold start; by rewrite Hj|].
  unfold stop. intros H. split_cases; by eexists.
Qed.

Lemma proxy_restart_witness :
  exists px2, start (mkProxy (Fifo_init 4) false false false Exited ([] : list ProxyTrigger)) = Some px2 /\
    running px2 = true /\ threadStarted (thread_begin px2) = true /\
    thread (thread_begin px2) = Looping ProxyStopCheckPeriod.
Proof. apply (proxy_restart recorder None 2000 stopping_proxy). reflexivity. Defined.
