(* ===== verification/Core.v ===== *)
(** * Core types: transports, flags, devices, and raw serialization

    Models the value types of include/mscclpp/core.hpp with their operations in
    src/core/core.cc ([Transport], [TransportFlags] as an 11-bit bitset,
    [DeviceType], [Device]) and the byte-level [detail::serialize] /
    [detail::deserialize] of src/core/include/serialization.hpp.

    [deserialize] copies [sizeof(T)] bytes without checking that they exist;
    reading past the end of the buffer is undefined behaviour in the code and
    [None] here. *)

From S2P Require Import Prelude Errors.
Local Open Scope Z_scope.

(** ** Transports *)

Inductive Transport :=
  | Unknown | CudaIpc | IB0 | IB1 | IB2 | IB3 | IB4 | IB5 | IB6 | IB7 | Ethernet | NumTransports.

#[export] Instance Transport_eq_dec : EqDecision Transport.
Proof. solve_decision. Defined.

Definition Transport_to_Z (t : Transport) : Z :=
  match t with
  | Unknown => 0 | CudaIpc => 1 | IB0 => 2 | IB1 => 3 | IB2 => 4 | IB3 => 5 | IB4 => 6
  | IB5 => 7 | IB6 => 8 | IB7 => 9 | Ethernet => 10 | NumTransports => 11
  end.

Definition all_transports : list Transport :=
  [Unknown; CudaIpc; IB0; IB1; IB2; IB3; IB4; IB5; IB6; IB7; Ethernet].

Definition Transport_of_Z (z : Z) : option Transport :=
  if z =? 11 then Some NumTransports
  else if (0 <=? z) && (z <? 11) then all_transports !! Z.to_nat z else None.

#[export] Instance Transport_countable : Countable Transport.
Proof.
  apply (inj_countable Transport_to_Z Transport_of_Z). by intros [].
Defined.

Definition TransportFlagsSize : Z := 11.

(** A [std::bitset<11>], as the integer of its bits. *)
Abbreviation TransportFlags := Z.

Definition flags_mask : Z := Z.ones TransportFlagsSize.

(** [TransportFlags(Transport)]: the constructor of [std::bitset] keeps the low
    11 bits of its argument. *)
Definition TransportFlags_of (t : Transport) : TransportFlags :=
  Z.land (Z.shiftl 1 (Transport_to_Z t)) flags_mask.

(** [has]: [bitset::test], which throws when the position is not below the size. *)
Definition has (f : TransportFlags) (t : Transport) : result bool :=
  if Transport_to_Z t <? TransportFlagsSize then Ok (Z.testbit f (Transport_to_Z t)) else Throw EStd.

(** [has] for the transports that name a bit. *)
Definition hasb (f : TransportFlags) (t : Transport) : bool := Z.testbit f (Transport_to_Z t).

Definition flags_none (f : TransportFlags) : bool := f =? 0.
Definition flags_any (f : TransportFlags) : bool := negb (f =? 0).
Definition flags_all (f : TransportFlags) : bool := f =? flags_mask.
Definition flags_count (f : TransportFlags) : Z :=
  Z.of_nat (length (filter (fun t => hasb f t = true) all_transports)).
Definition flags_or (f g : TransportFlags) : TransportFlags := Z.lor f g.
Definition flags_and (f g : TransportFlags) : TransportFlags := Z.land f g.
Definition flags_xor (f g : TransportFlags) : TransportFlags := Z.lxor f g.
Definition flags_not (f : TransportFlags) : TransportFlags := Z.land (Z.lnot f) flags_mask.
Definition flags_eqb (f g : TransportFlags) : bool := f =? g.

Definition NoTransports : TransportFlags := 0.
Definition AllIBTransports : TransportFlags :=
  fold_left (fun f t => flags_or f (TransportFlags_of t)) [IB1; IB2; IB3; IB4; IB5; IB6; IB7]
    (TransportFlags_of IB0).
Definition AllTransports : TransportFlags :=
  flags_or (flags_or AllIBTransports (TransportFlags_of CudaIpc)) (TransportFlags_of Ethernet).

(** [operator<<] of [Transport]. *)
Definition TransportNames : list string :=
  ["UNK"; "IPC"; "IB0"; "IB1"; "IB2"; "IB3"; "IB4"; "IB5"; "IB6"; "IB7"; "ETH"; "NUM"].
Definition Transport_show (t : Transport) : string :=
  default "" (TransportNames !! Z.to_nat (Transport_to_Z t)).

Definition isIB (t : Transport) : bool :=
  match t with IB0 | IB1 | IB2 | IB3 | IB4 | IB5 | IB6 | IB7 => true | _ => false end.

(** ** Devices *)

Inductive DeviceType := DUnknown | DCPU | DGPU.

#[export] Instance DeviceType_eq_dec : EqDecision DeviceType.
Proof. solve_decision. Defined.

Definition DeviceType_to_Z (t : DeviceType) : Z :=
  match t with DUnknown => 0 | DCPU => 1 | DGPU => 2 end.

Record Device := mkDevice { dev_type : DeviceType; dev_id : Z }.

#[export] Instance Device_eq_dec : EqDecision Device.
Proof. solve_decision. Defined.

(** ** Byte-level serialization *)

(** A byte is an integer in [0, 256).  [le_bytes n z]: [n] bytes, low first. *)
Fixpoint le_bytes (n : nat) (z : Z) : list Z :=
  match n with
  | O => []
  | S n' => z mod 256 :: le_bytes n' (z / 256)
  end.

Fixpoint le_val (bs : list Z) : Z :=
  match bs with
  | [] => 0
  | b :: bs' => b + 256 * le_val bs'
  end.

(** The object representation of a trivially copyable type: its size, the bytes
    of a value and the value of some bytes. *)
Record codec (A : Type) := mkCodec {
  csize : nat;
  enc : A -> list Z;
  dec : list Z -> A;
  cwf : A -> Prop;
  enc_len : forall a, length (enc a) = csize;
  dec_enc : forall a, cwf a -> dec (enc a) = a
}.
Arguments csize {A}. Arguments enc {A}. Arguments dec {A}. Arguments cwf {A}.
Arguments mkCodec {A}.

(** [detail::serialize]: append the bytes of [value]. *)
Definition serialize {A} (c : codec A) (buffer : list Z) (value : A) : list Z :=
  buffer ++ enc c value.

(** [detail::deserialize]: copy [sizeof(T)] bytes from [pos]; the rest of the
    buffer is the returned iterator. *)
Definition deserialize {A} (c : codec A) (pos : list Z) : option (A * list Z) :=
  if decide (csize c <= length pos)%nat
  then Some (dec c (take (csize c) pos), drop (csize c) pos) else None.

Lemma le_bytes_len n z : length (le_bytes n z) = n.
Proof. revert z. induction n; simpl; intros; [done|]. by rewrite IHn. Qed.

Lemma le_val_bytes n z : 0 <= z < 256 ^ Z.of_nat n -> le_val (le_bytes n z) = z.
Proof.
  revert z. induction n as [|n IH]; intros z Hz; simpl; [simpl in Hz; lia|].
  rewrite Nat2Z.inj_succ, Z.pow_succ_r in Hz by lia.
  rewrite IH by (split; [apply Z.div_pos; lia|apply Z.div_lt_upper_bound; lia]).
  pose proof (Z.div_mod z 256 ltac:(lia)). lia.
Qed.

(** Unsigned integers of [n] bytes. *)
Program Definition c_uint (n : nat) : codec Z :=
  mkCodec n (le_bytes n) le_val (fun z => 0 <= z < 256 ^ Z.of_nat n) _ _.
Next Obligation. intros. apply le_bytes_len. Qed.
Next Obligation. intros. by apply le_val_bytes. Qed.

Definition c_u64 : codec Z := c_uint 8.

(** Signed integers of [n] bytes, two's complement. *)
Definition to_signed (n : nat) (r : Z) : Z :=
  if r <? 2 ^ (8 * Z.of_nat n - 1) then r else r - 2 ^ (8 * Z.of_nat n).

Program Definition c_sint (n : nat) (Hn : (0 < n)%nat) : codec Z :=
  mkCodec n (fun z => le_bytes n (z mod 2 ^ (8 * Z.of_nat n))) (fun bs => to_signed n (le_val bs))
    (fun z => - 2 ^ (8 * Z.of_nat n - 1) <= z < 2 ^ (8 * Z.of_nat n - 1)) _ _.
Next Obligation. intros. apply le_bytes_len. Qed.
Next Obligation.
  intros n Hn z Hz. simpl in Hz. simpl.
  assert (H2 : 2 ^ (8 * Z.of_nat n) = 2 * 2 ^ (8 * Z.of_nat n - 1))
    by (rewrite <- Z.pow_succ_r by lia; f_equal; lia).
  assert (Hp : 256 ^ Z.of_nat n = 2 ^ (8 * Z.of_nat n)) by (rewrite Z.pow_mul_r by lia; done).
  rewrite le_val_bytes by (rewrite Hp; apply Z.mod_pos_bound; lia). unfold to_signed.
  destruct (decide (0 <= z)).
  - rewrite Z.mod_small by lia. destruct (Z.ltb_spec z (2 ^ (8 * Z.of_nat n - 1))); lia.
  - replace (z mod 2 ^ (8 * Z.of_nat n)) with (z + 2 ^ (8 * Z.of_nat n))
      by (apply Z.mod_unique with (-1); lia).
    destruct (Z.ltb_spec (z + 2 ^ (8 * Z.of_nat n)) (2 ^ (8 * Z.of_nat n - 1))); lia.
Qed.

Definition c_i32 : codec Z := c_sint 4 ltac:(lia).
Definition c_i8 : codec Z := c_sint 1 ltac:(lia).

(** [bool]: one byte. *)
Program Definition c_bool : codec bool :=
  mkCodec 1 (fun b : bool => [if b then 1 else 0]) (fun bs => negb (le_val bs =? 0)) (fun _ => True) _ _.
Next Obligation. done. Qed.
Next Obligation. by intros []. Qed.

(** Raw storage of [n] bytes: structures whose layout another library owns. *)
Program Definition c_blob (n : nat) : codec (list Z) :=
  mkCodec n (fun bs => take n (bs ++ replicate n 0)) (fun bs => bs) (fun bs => length bs = n) _ _.
Next Obligation. intros. simpl. rewrite length_take, length_app, length_replicate. lia. Qed.
Next Obligation. simpl. intros n bs <-. by apply take_app_length. Qed.

(** Two members stored one after the other. *)
Program Definition c_pair {A B} (ca : codec A) (cb : codec B) : codec (A * B) :=
  mkCodec (csize ca + csize cb) (fun p => enc ca (fst p) ++ enc cb (snd p))
    (fun bs => (dec ca (take (csize ca) bs), dec cb (drop (csize ca) bs)))
    (fun p => cwf ca (fst p) /\ cwf cb (snd p)) _ _.
Next Obligation. intros. simpl. by rewrite length_app, !enc_len. Qed.
Next Obligation.
  intros A B ca cb [a b] [Ha Hb]. simpl in *.
  rewrite take_app_length', drop_app_length' by (by rewrite enc_len).
  by rewrite !dec_enc.
Qed.

(** A type stored through another representation. *)
Program Definition c_map {A B} (c : codec B) (f : A -> B) (g : B -> A)
    (gf : forall a, g (f a) = a) : codec A :=
  mkCodec (csize c) (fun a => enc c (f a)) (fun bs => g (dec c bs)) (fun a => cwf c (f a)) _ _.
Next Obligation. intros. apply enc_len. Qed.
Next Obligation. intros. simpl. by rewrite dec_enc. Qed.

(** ** Lemmas on serialization *)

Lemma deserialize_enc {A} (c : codec A) a rest :
  cwf c a -> deserialize c (enc c a ++ rest) = Some (a, rest).
Proof.
  intros Ha. unfold deserialize. rewrite decide_True
    by (rewrite length_app, enc_len; lia).
  rewrite take_app_length', drop_app_length' by (by rewrite enc_len). by rewrite dec_enc.
Qed.

Lemma deserialize_enc_nil {A} (c : codec A) a :
  cwf c a -> deserialize c (enc c a) = Some (a, []).
Proof. intros Ha. rewrite <- (app_nil_r (enc c a)). by apply deserialize_enc. Qed.

Lemma deserialize_len {A} (c : codec A) pos a rest :
  deserialize c pos = Some (a, rest) -> (length pos = csize c + length rest)%nat.
Proof. unfold deserialize. case_decide; intros; simplify_eq. rewrite length_drop. lia. Qed.

(** ** Lemmas on flags *)

Lemma Transport_range t : 0 <= Transport_to_Z t <= 11.
Proof. by destruct t. Qed.

Lemma hasb_of t t' : t <> NumTransports -> hasb (TransportFlags_of t) t' = bool_decide (t = t').
Proof. by intros; destruct t, t'. Qed.

Lemma flags_mask_bit t : t <> NumTransports -> Z.testbit flags_mask (Transport_to_Z t) = true.
Proof. by destruct t. Qed.

Lemma hasb_AllIB t : hasb AllIBTransports t = isIB t.
Proof. by destruct t. Qed.

Lemma has_hasb f t : t <> NumTransports -> has f t = Ok (hasb f t).
Proof. intros. unfold has, hasb. by destruct t. Qed.

Lemma transport_of_to t : Transport_of_Z (Transport_to_Z t) = Some t.
Proof. by destruct t. Qed.

(** Every bit position below 11 is the position of a transport. *)
Lemma transport_at i : 0 <= i < 11 -> exists t, t <> NumTransports /\ Transport_to_Z t = i.
Proof.
  intros Hi. assert (In i (map Transport_to_Z all_transports)) as Hin.
  { simpl. lia. }
  apply in_map_iff in Hin as (t & <- & Ht). exists t. split; [|done].
  intros ->. simpl in Ht. naive_solver.
Qed.

(** Two flag words within 11 bits with the same members are equal. *)
Lemma flags_ext f g :
  is_u 11 f -> is_u 11 g -> (forall t, t <> NumTransports -> hasb f t = hasb g t) -> f = g.
Proof.
  intros Hf Hg H. apply Z.bits_inj'. intros i Hi.
  destruct (decide (i < 11)) as [Hlt|Hge].
  - destruct (transport_at i) as (t & Ht & <-); [lia|]. by apply H.
  - by rewrite !(testbit_above 11) by (done || lia).
Qed.

(** ** Results *)

(** TransportFlags is the Boolean algebra of subsets of the eleven
    transports: a singleton has exactly its transport, the operators act member
    by member, equality is extensional, and AllIBTransports and AllTransports
    hold exactly the transports they name; asking for a transport outside the
    eleven throws. *)
Theorem transport_flags_algebra f g t t' :
  is_u 11 f -> is_u 11 g -> t <> NumTransports -> t' <> NumTransports ->
  hasb (TransportFlags_of t') t = bool_decide (t' = t) /\
  hasb (flags_or f g) t = hasb f t || hasb g t /\
  hasb (flags_and f g) t = hasb f t && hasb g t /\
  hasb (flags_xor f g) t = xorb (hasb f t) (hasb g t) /\
  hasb (flags_not f) t = negb (hasb f t) /\
  (flags_eqb f g = true <-> forall x, x <> NumTransports -> hasb f x = hasb g x) /\
  hasb AllIBTransports t = isIB t /\
  hasb AllTransports t = bool_decide (t <> Unknown) /\
  has f t = Ok (hasb f t) /\ has f NumTransports = Throw EStd.
Proof.
  intros Hf Hg Ht Ht'. pose proof (Transport_range t).
  split_and!; unfold hasb, flags_or, flags_and, flags_xor, flags_not, flags_eqb.
  - by apply hasb_of.
  - apply Z.lor_spec.
  - apply Z.land_spec.
  - apply Z.lxor_spec.
  - rewrite Z.land_spec, Z.lnot_spec by lia. by rewrite flags_mask_bit, andb_true_r.
  - rewrite Z.eqb_eq. split; [by intros ->|]. by apply flags_ext.
  - apply hasb_AllIB.
  - by destruct t.
  - by apply has_hasb.
  - done.
Qed.

Lemma transport_flags_algebra_witness :
  hasb (flags_or (TransportFlags_of CudaIpc) AllIBTransports) IB3 =
  hasb (TransportFlags_of CudaIpc) IB3 || hasb AllIBTransports IB3.
Proof.
  apply (transport_flags_algebra (TransportFlags_of CudaIpc) AllIBTransports IB3 IB0);
    [by split|by split|done|done].
Defined.
