(* ===== verification/Utils.v ===== *)
(** * Internal utilities

    Models src/core/utils_internal.cc: PCI bus ids as numbers and text, the hash of
    identifying strings, parsing and matching of interface lists, and the pool of
    device tokens.

    C strings are lists of character codes without the terminating zero. *)

From S2P Require Import Prelude Errors.
Local Open Scope Z_scope.

(** ** Characters and numbers *)

Definition is_digit (c : Z) : bool := (48 <=? c) && (c <=? 57).
Definition is_hex (c : Z) : bool := is_digit c || ((65 <=? c) && (c <=? 70)) || ((97 <=? c) && (c <=? 102)).
Definition hex_value (c : Z) : Z := if is_digit c then c - 48 else if c <=? 70 then c - 55 else c - 87.
Definition hex_char (d : Z) : Z := if d <? 10 then d + 48 else d + 87.
Definition is_space (c : Z) : bool := (c =? 32) || ((9 <=? c) && (c <=? 13)).

(** The [k] low hexadecimal digits of [x], and as many digits as [x] needs. *)
Fixpoint hex_fixed (k : nat) (x : Z) : list Z :=
  match k with O => [] | S k' => hex_char (x / 16 ^ Z.of_nat k' mod 16) :: hex_fixed k' x end.
Fixpoint hex_length (fuel : nat) (x : Z) : nat :=
  match fuel with O => 1 | S f => if x <? 16 then 1 else S (hex_length f (x / 16)) end.

(** [printf("%0<w>lx")]. *)
Definition print_hex (w : nat) (x : Z) : list Z := hex_fixed (Nat.max w (hex_length 15 (u64 x))) (u64 x).

(** [snprintf] into a buffer of [n] characters. *)
Definition snprintf (n : nat) (s : list Z) : list Z := take (n - 1) s.

(** [strtol(_, NULL, 16)] of hexadecimal digits, saturating. *)
Definition hex_fold (ds : list Z) : Z := foldl (fun acc d => acc * 16 + hex_value d) 0 ds.
Definition strtol16 (ds : list Z) : Z := Z.min (hex_fold ds) (2 ^ 63 - 1).

(** ** Bus ids *)

Definition COLON : Z := 58.
Definition DOT : Z := 46.

Definition int64ToBusId (id : Z) : list Z :=
  snprintf 20 (print_hex 4 (Z.shiftr id 20) ++ [COLON] ++ print_hex 2 (Z.shiftr (Z.land id 0xff000) 12) ++ [COLON] ++
    print_hex 2 (Z.shiftr (Z.land id 0xff0) 4) ++ [DOT] ++ print_hex 1 (Z.land id 0xf)).

(** The loop: [room] digits may still be stored. *)
Fixpoint bus_digits (room : nat) (s : list Z) : list Z :=
  match room, s with
  | O, _ | _, [] => []
  | S room', c :: s' =>
      if (c =? DOT) || (c =? COLON) then bus_digits room s'
      else if is_hex c then c :: bus_digits room' s' else []
  end.

Definition busIdToInt64 (busId : list Z) : Z := strtol16 (bus_digits 16 busId).

(** ** Hashing *)

(** A [char] is signed. *)
Definition char_to_u64 (c : Z) : Z := u64 (if c <? 128 then c else c - 256).
Definition getHash (s : list Z) : Z :=
  foldl (fun result c => Z.lxor (u64 (u64 (Z.shiftl result 5) + result)) (char_to_u64 c)) 5381 s.

(** ** Interface lists *)

Record netIf := mkNetIf { prefix : list Z; port : Z }.
Definition PREFIX_SIZE : nat := 64.
Definition COMMA : Z := 44.

(** [atoi]: white space, a sign, digits; [(int)strtol(_, NULL, 10)]. *)
Fixpoint digits_value (acc : Z) (s : list Z) : Z :=
  match s with
  | c :: s' => if is_digit c then digits_value (acc * 10 + (c - 48)) s' else acc
  | [] => acc
  end.
Fixpoint skip_space (s : list Z) : list Z :=
  match s with c :: s' => if is_space c then skip_space s' else s | [] => [] end.
Definition clamp64 (z : Z) : Z := Z.max (- 2 ^ 63) (Z.min z (2 ^ 63 - 1)).
Definition atoi (s : list Z) : Z :=
  s32 (clamp64 (match skip_space s with
                | c :: s' => if c =? 45 then - digits_value 0 s' else if c =? 43 then digits_value 0 s'
                             else digits_value 0 (c :: s')
                | [] => 0
                end)).

(** Terminate the entry read so far; an entry of 64 characters or more is written
    outside its array, which is undefined ([None]). *)
Definition flush_entry (cur : list Z) (p : Z) (l : list netIf) : option (list netIf) :=
  match cur with
  | [] => Some l
  | _ => if decide (length cur < PREFIX_SIZE)%nat then Some (l ++ [mkNetIf cur p]) else None
  end.

(** The loop over the characters.  [skip] is the inner loop that drops the rest of
    an entry after its colon. *)
Fixpoint parse_entries (maxList : nat) (skip : bool) (s : list Z) (cur : list Z) (l : list netIf)
    : option (list netIf) :=
  match s with
  | [] => if skip then Some l else flush_entry cur (-1) l
  | c :: s' =>
      if skip then
        if c =? COMMA then (if decide (length l < maxList)%nat then parse_entries maxList false s' [] l else Some l)
        else parse_entries maxList true s' [] l
      else if c =? COLON then
        l ← flush_entry cur (atoi s') l;
        parse_entries maxList true s' [] l
      else if c =? COMMA then
        l ← flush_entry cur (-1) l;
        if decide (length l < maxList)%nat then parse_entries maxList false s' [] l else Some l
      else if decide (length cur < PREFIX_SIZE)%nat then parse_entries maxList false s' (cur ++ [c]) l else None
  end.

Definition parseStringList (string : list Z) (maxList : nat) : option (list netIf) :=
  parse_entries maxList false string [] [].

(** [strncmp(a, b, n) == 0]. *)
Fixpoint strncmp_eq (n : nat) (a b : list Z) : bool :=
  match n, a, b with
  | O, _, _ => true
  | S _, [], [] => true
  | S n', x :: a', y :: b' => (x =? y) && strncmp_eq n' a' b'
  | _, _, _ => false
  end.

Definition matchIf (string ref : list Z) (matchExact : bool) : bool :=
  strncmp_eq (if matchExact then S (length string) else length ref) string ref.
Definition matchPort (port1 port2 : Z) : bool := (port1 =? -1) || (port2 =? -1) || (port1 =? port2).

Definition matchIfList (string : list Z) (p : Z) (ifList : list netIf) (matchExact : bool) : bool :=
  match ifList with
  | [] => true
  | _ => existsb (fun i => matchIf string (prefix i) matchExact && matchPort p (port i)) ifList
  end.

(** ** The token pool *)

Definition UINT64_WIDTH : Z := 64.

(** [allocationMap_] and [tailMask_]; [pool_mem] is the token memory, which
    starts zeroed. *)
Record TokenPool := mkPool {
  nToken : Z; baseAddr : Z; tailMask : Z; allocationMap : list Z; pool_mem : gmap Z Z
}.

Definition TokenPool_create (n base : Z) : TokenPool :=
  mkPool n base (if n mod UINT64_WIDTH =? 0 then UINT64_MAX else Z.shiftl 1 (n mod UINT64_WIDTH) - 1)
    (replicate (Z.to_nat ((n + (UINT64_WIDTH - 1)) / UINT64_WIDTH)) 0) ∅.

(** The first set bit of [holes] from [bit] on. *)
Fixpoint first_hole (fuel : nat) (bit holes : Z) : option Z :=
  match fuel with
  | O => None
  | S f => if negb (Z.land holes (Z.shiftl 1 bit) =? 0) then Some bit else first_hole f (bit + 1) holes
  end.

(** The loop over the words: index of the word, bit. *)
Fixpoint find_hole (i : nat) (words : list Z) (tail : Z) : option (nat * Z) :=
  match words with
  | [] => None
  | w :: words' =>
      let mask := match words' with [] => tail | _ => UINT64_MAX end in
      let holes := Z.land (Z.lnot w) mask in
      if holes =? 0 then find_hole (S i) words' tail
      else match first_hole 64 0 holes with Some b => Some (i, b) | None => find_hole (S i) words' tail end
  end.

(** [getToken]: the address of the token; tokens are 8 bytes, addresses count them. *)
Definition getToken (p : TokenPool) : result (TokenPool * Z) :=
  match find_hole 0 (allocationMap p) (tailMask p) with
  | Some (i, b) =>
      let w := nth i (allocationMap p) 0 in
      Ok (mkPool (nToken p) (baseAddr p) (tailMask p) (<[i := Z.lor w (Z.shiftl 1 b)]> (allocationMap p)) (pool_mem p),
          baseAddr p + Z.of_nat i * UINT64_WIDTH + b)
  | None => Throw (EError InternalError)
  end.

(** The deleter of a token: zero it and clear its bit. *)
Definition releaseToken (p : TokenPool) (token : Z) : TokenPool :=
  let off := token - baseAddr p in
  let i := Z.to_nat (off / UINT64_WIDTH) in
  let b := off mod UINT64_WIDTH in
  mkPool (nToken p) (baseAddr p) (tailMask p)
    (<[i := Z.land (nth i (allocationMap p) 0) (Z.lxor UINT64_MAX (Z.shiftl 1 b))]> (allocationMap p))
    (<[token := 0]> (pool_mem p)).

(** The holder of a token writes its counter. *)
Definition writeToken (p : TokenPool) (token v : Z) : TokenPool :=
  mkPool (nToken p) (baseAddr p) (tailMask p) (allocationMap p) (<[token := v]> (pool_mem p)).

Definition readToken (p : TokenPool) (token : Z) : Z := default 0 (pool_mem p !! token).

(** ** Lemmas: hexadecimal text *)

Lemma hex_char_ok d : 0 <= d < 16 ->
  is_hex (hex_char d) = true /\ hex_value (hex_char d) = d /\ hex_char d <> COLON /\ hex_char d <> DOT.
Proof.
  intros Hd. unfold hex_char, hex_value, is_hex, is_digit, COLON, DOT.
  destruct (Z.ltb_spec d 10).
  - rewrite (proj2 (Z.leb_le 48 _)), (proj2 (Z.leb_le _ 57)) by lia. simpl. lia.
  - rewrite (proj2 (Z.leb_gt _ 57)) by lia. rewrite !andb_false_r. simpl.
    rewrite (proj2 (Z.leb_gt (d + 87) 70)), (proj2 (Z.leb_le 97 _)), (proj2 (Z.leb_le _ 102)) by lia.
    rewrite !andb_false_r. simpl. lia.
Qed.

Lemma hex_fixed_hex k x : Forall (fun c => exists d, 0 <= d < 16 /\ c = hex_char d) (hex_fixed k x).
Proof. induction k; simpl; constructor; [|done]. eexists. split; [|done]. apply Z.mod_pos_bound. lia. Qed.

Lemma hex_fixed_length k x : length (hex_fixed k x) = k.
Proof. induction k; simpl; congruence. Qed.

Lemma hex_foldl_acc ds acc :
  foldl (fun a d => a * 16 + hex_value d) acc ds = acc * 16 ^ Z.of_nat (length ds) + hex_fold ds.
Proof.
  unfold hex_fold. revert acc. induction ds as [|d ds IH]; intros acc; cbn [foldl]; [simpl; lia|].
  rewrite IH, (IH (0 * 16 + hex_value d)). cbn [length]. rewrite Nat2Z.inj_succ, Z.pow_succ_r by lia. lia.
Qed.

Lemma hex_fold_app a b : hex_fold (a ++ b) = hex_fold a * 16 ^ Z.of_nat (length b) + hex_fold b.
Proof. unfold hex_fold at 1. rewrite foldl_app, hex_foldl_acc. done. Qed.

Lemma hex_fold_fixed k x : 0 <= x -> hex_fold (hex_fixed k x) = x mod 16 ^ Z.of_nat k.
Proof.
  intros Hx. induction k as [|k IH]; [by rewrite Z.mod_1_r|].
  cbn [hex_fixed]. change (?c :: ?l) with ([c] ++ l). rewrite hex_fold_app, hex_fixed_length, IH.
  unfold hex_fold. simpl. rewrite (proj1 (proj2 (hex_char_ok _ (Z.mod_pos_bound (x / 16 ^ Z.of_nat k) 16 ltac:(lia))))).
  rewrite Nat2Z.inj_succ, Z.pow_succ_r, (Z.mul_comm 16) by lia.
  rewrite Z.rem_mul_r by (try apply Z.pow_nonzero; lia). lia.
Qed.

Lemma hex_length_le f x k : (1 <= k)%nat -> 0 <= x < 16 ^ Z.of_nat k -> (hex_length f x <= k)%nat.
Proof.
  revert x k. induction f as [|f IH]; intros x k Hk Hx; simpl; [done|].
  destruct (Z.ltb_spec x 16); [done|]. destruct k as [|[|k]]; [lia| |].
  - change (16 ^ Z.of_nat 1) with 16 in Hx. lia.
  - apply le_n_S, IH; [lia|]. rewrite (Nat2Z.inj_succ (S k)), Z.pow_succ_r in Hx by lia.
    split; [apply Z.div_pos; lia|]. apply Z.div_lt_upper_bound; lia.
Qed.

Lemma hex_length_enough f x : 0 <= x < 16 ^ Z.of_nat (S f) -> x < 16 ^ Z.of_nat (hex_length f x).
Proof.
  revert x. induction f as [|f IH]; intros x Hx; cbn [hex_length]; [apply Hx|].
  destruct (Z.ltb_spec x 16); [simpl; lia|]. rewrite Nat2Z.inj_succ, Z.pow_succ_r by lia.
  rewrite (Nat2Z.inj_succ (S f)), Z.pow_succ_r in Hx by lia.
  assert (x / 16 < 16 ^ Z.of_nat (hex_length f (x / 16))).
  { apply IH. split; [apply Z.div_pos; lia|]. apply Z.div_lt_upper_bound; lia. }
  pose proof (Z.div_mod x 16 ltac:(lia)). pose proof (Z.mod_pos_bound x 16 ltac:(lia)). lia.
Qed.

Lemma print_hex_value w x : 0 <= x < 2 ^ 64 -> hex_fold (print_hex w x) = x.
Proof.
  intros Hx. unfold print_hex. rewrite u64_small by done. rewrite hex_fold_fixed by lia.
  apply Z.mod_small. split; [lia|]. eapply Z.lt_le_trans; [apply (hex_length_enough 15); simpl; lia|].
  apply Z.pow_le_mono_r; lia.
Qed.

Lemma print_hex_length w x k : (1 <= k)%nat -> (w <= k)%nat -> 0 <= x < 2 ^ 64 -> x < 16 ^ Z.of_nat k ->
  (w <= length (print_hex w x) <= k)%nat.
Proof.
  intros H1 Hw Hx Hk. unfold print_hex. rewrite u64_small, hex_fixed_length by done.
  pose proof (hex_length_le 15 x k H1 ltac:(lia)). lia.
Qed.

Lemma bus_digits_hex ds rest room :
  Forall (fun c => exists d, 0 <= d < 16 /\ c = hex_char d) ds -> (length ds <= room)%nat ->
  bus_digits room (ds ++ rest) = ds ++ bus_digits (room - length ds) rest.
Proof.
  intros Hf. revert room. induction Hf as [|c ds (d & Hd & ->) Hf IH]; intros room Hr; simpl; [by rewrite Nat.sub_0_r|].
  simpl in Hr. destruct room as [|room]; [lia|]. destruct (hex_char_ok d Hd) as (H1 & _ & H2 & H3).
  cbn [bus_digits]. rewrite (proj2 (Z.eqb_neq _ _) H3), (proj2 (Z.eqb_neq _ _) H2), H1. simpl. f_equal. apply IH. lia.
Qed.

Lemma bus_digits_sep c rest room : c = DOT \/ c = COLON -> (0 < room)%nat ->
  bus_digits room (c :: rest) = bus_digits room rest.
Proof. intros Hc Hr. destruct room; [lia|]. by destruct Hc as [-> | ->]. Qed.

(** The four fields of a bus id make it up again. *)
Lemma bus_fields id : 0 <= id < 2 ^ 63 ->
  let a := Z.shiftr id 20 in let b := Z.shiftr (Z.land id 0xff000) 12 in
  let c := Z.shiftr (Z.land id 0xff0) 4 in let d := Z.land id 0xf in
  id = ((a * 256 + b) * 256 + c) * 16 + d /\
  0 <= a < 2 ^ 43 /\ 0 <= b < 256 /\ 0 <= c < 256 /\ 0 <= d < 16.
Proof.
  intros Hid a b c d.
  assert (Hf : forall lo w, 0 <= lo -> 0 <= w ->
    Z.shiftr (Z.land id (Z.shiftl (Z.ones w) lo)) lo = id / 2 ^ lo mod 2 ^ w).
  { intros lo w H1 H2. rewrite Z.shiftr_land, Z.shiftr_shiftl_l, Z.sub_diag, Z.shiftl_0_r by lia.
    by rewrite Z.land_ones, Z.shiftr_div_pow2 by lia. }
  assert (Hb : b = id / 2 ^ 12 mod 256) by exact (Hf 12 8 ltac:(lia) ltac:(lia)).
  assert (Hc : c = id / 16 mod 256) by exact (Hf 4 8 ltac:(lia) ltac:(lia)).
  assert (Hd : d = id mod 16) by (unfold d; change 0xf with (Z.ones 4); by rewrite Z.land_ones by lia).
  assert (Ha : a = id / 2 ^ 20) by (unfold a; by rewrite Z.shiftr_div_pow2 by lia).
  clearbody a b c d. subst. split_and!; try (apply Z.mod_pos_bound; lia).
  - assert (E : forall x k m, 0 < k -> 0 < m -> x / k = x / (k * m) * m + x / k mod m).
    { intros x k m Hk Hm. rewrite <- Z.div_div by lia. pose proof (Z.div_mod (x / k) m ltac:(lia)). lia. }
    change (2 ^ 20) with (2 ^ 12 * 256). change (2 ^ 12) with (16 * 256).
    rewrite <- (E id (16 * 256) 256), <- (E id 16 256) by lia. pose proof (Z.div_mod id 16 ltac:(lia)). lia.
  - apply Z.div_pos; lia.
  - apply Z.div_lt_upper_bound; lia.
Qed.

Definition hex_text (s : list Z) : Prop := Forall (fun c => exists d, 0 <= d < 16 /\ c = hex_char d) s.

(** The digits of a printed bus id are read back in order. *)
Lemma bus_text sa sb sc sd :
  hex_text sa -> hex_text sb -> hex_text sc -> hex_text sd ->
  (length sa <= 11)%nat -> length sb = 2%nat -> length sc = 2%nat -> length sd = 1%nat ->
  bus_digits 16 (snprintf 20 (sa ++ [COLON] ++ sb ++ [COLON] ++ sc ++ [DOT] ++ sd)) = sa ++ sb ++ sc ++ sd.
Proof.
  intros Fa Fb Fc Fd La Lb Lc Ld. unfold snprintf. rewrite take_ge by (rewrite !length_app; simpl; lia).
  rewrite (bus_digits_hex sa) by (done || lia). simpl ([COLON] ++ _). rewrite bus_digits_sep by (auto || lia).
  rewrite (bus_digits_hex sb) by (done || lia). simpl ([COLON] ++ _). rewrite bus_digits_sep by (auto || lia).
  rewrite (bus_digits_hex sc) by (done || lia). simpl ([DOT] ++ _). rewrite bus_digits_sep by (auto || lia).
  rewrite <- (app_nil_r sd), (bus_digits_hex sd) by (done || lia).
  assert (En : forall k, bus_digits k [] = []) by (by intros []). by rewrite En.
Qed.

(** ** Properties: bus ids *)

(** every non-negative bus id survives being printed and parsed again: the text fits
    its buffer, and its digits are exactly the number. *)
Theorem bus_id_roundtrip (id : Z) : 0 <= id < 2 ^ 63 -> busIdToInt64 (int64ToBusId id) = id.
Proof.
  intros Hid. unfold int64ToBusId, busIdToInt64. destruct (bus_fields id Hid) as (Hsum & Ha & Hb & Hc & Hd).
  set (a := Z.shiftr id 20) in *. set (b := Z.shiftr _ 12) in *. set (c := Z.shiftr _ 4) in *. set (d := Z.land id 0xf) in *.
  clearbody a b c d.
  pose proof (print_hex_length 4 a 11 ltac:(lia) ltac:(lia) ltac:(lia) ltac:(simpl; lia)) as La.
  pose proof (print_hex_length 2 b 2 ltac:(lia) ltac:(lia) ltac:(lia) ltac:(simpl; lia)) as Lb.
  pose proof (print_hex_length 2 c 2 ltac:(lia) ltac:(lia) ltac:(lia) ltac:(simpl; lia)) as Lc.
  pose proof (print_hex_length 1 d 1 ltac:(lia) ltac:(lia) ltac:(lia) ltac:(simpl; lia)) as Ld.
  rewrite bus_text; [|apply hex_fixed_hex..|lia|lia|lia|lia].
  unfold strtol16. rewrite !hex_fold_app, !print_hex_value, !length_app by lia.
  replace (length (print_hex 2 b)) with 2%nat by lia. replace (length (print_hex 2 c)) with 2%nat by lia.
  replace (length (print_hex 1 d)) with 1%nat by lia. simpl (Z.of_nat _).
  change (16 ^ 1) with 16. change (16 ^ 3) with 4096. change (16 ^ 5) with 1048576. rewrite Z.min_l; lia.
Qed.

Lemma bus_id_roundtrip_witness :
  0 <= 0x1a2b3c4d5 < 2 ^ 63 /\ busIdToInt64 (int64ToBusId 0x1a2b3c4d5) = 0x1a2b3c4d5.
Proof. split; [lia|]. apply bus_id_roundtrip. lia. Defined.

(** ** Lemmas: interface lists *)

(** The text of one entry: a name and, after a colon, a port. *)
Definition entry_text (e : list Z * option (list Z)) : list Z :=
  e.1 ++ match e.2 with Some ds => COLON :: ds | None => [] end.
Definition entry_value (e : list Z * option (list Z)) : netIf :=
  mkNetIf e.1 (match e.2 with Some ds => atoi ds | None => -1 end).
Fixpoint list_text (es : list (list Z * option (list Z))) : list Z :=
  match es with
  | [] => []
  | [e] => entry_text e
  | e :: es' => entry_text e ++ COMMA :: list_text es'
  end.
Definition entry_ok (e : list Z * option (list Z)) : Prop :=
  e.1 <> [] /\ (length e.1 < PREFIX_SIZE)%nat /\ Forall (fun c => c <> COMMA /\ c <> COLON) e.1 /\
  match e.2 with Some ds => Forall (fun c => c <> COMMA) ds | None => True end.

Lemma parse_name m name rest cur l :
  Forall (fun c => c <> COMMA /\ c <> COLON) name -> (length cur + length name <= PREFIX_SIZE)%nat ->
  parse_entries m false (name ++ rest) cur l = parse_entries m false rest (cur ++ name) l.
Proof.
  intros Hf. revert cur. induction Hf as [|c name [H1 H2] Hf IH]; intros cur Hl; simpl; [by rewrite app_nil_r|].
  simpl in Hl. rewrite (proj2 (Z.eqb_neq _ _) H1), (proj2 (Z.eqb_neq _ _) H2), decide_True by lia.
  rewrite IH by (rewrite length_app; simpl; lia). by rewrite <- app_assoc.
Qed.

Lemma parse_skip m ds rest l :
  Forall (fun c => c <> COMMA) ds ->
  parse_entries m true (ds ++ rest) [] l = parse_entries m true rest [] l.
Proof.
  intros Hf. induction Hf as [|c ds H1 Hf IH]; simpl; [done|]. by rewrite (proj2 (Z.eqb_neq _ _) H1).
Qed.

Lemma digits_value_comma ds rest acc : digits_value acc (ds ++ COMMA :: rest) = digits_value acc ds.
Proof. revert acc. induction ds as [|c ds IH]; intros acc; simpl; [done|]. destruct (is_digit c); [apply IH|done]. Qed.

Lemma skip_space_app ds rest :
  skip_space (ds ++ COMMA :: rest) = match skip_space ds with [] => COMMA :: rest | s => s ++ COMMA :: rest end.
Proof. induction ds as [|c ds IH]; simpl; [done|]. by destruct (is_space c). Qed.

(** A number ends at a comma. *)
Lemma atoi_comma ds rest : atoi (ds ++ COMMA :: rest) = atoi ds.
Proof.
  unfold atoi. rewrite skip_space_app. destruct (skip_space ds) as [|c s]; simpl; [done|].
  rewrite !digits_value_comma. destruct (c =? 45); [done|]. destruct (c =? 43); [done|].
  by destruct (is_digit c).
Qed.

Lemma flush_ok name p l : name <> [] -> (length name < PREFIX_SIZE)%nat ->
  flush_entry name p l = Some (l ++ [mkNetIf name p]).
Proof. intros Hn Hl. unfold flush_entry. destruct name; [done|]. by rewrite decide_True. Qed.

Lemma parse_entry m e rest l :
  entry_ok e ->
  parse_entries m false (entry_text e ++ COMMA :: rest) [] l =
  (if decide (S (length l) < m)%nat then parse_entries m false rest [] (l ++ [entry_value e])
   else Some (l ++ [entry_value e])).
Proof.
  destruct e as [name pt]. intros (Hn & Hl & Hf & Hp). simpl in *. unfold entry_text, entry_value. simpl.
  rewrite <- app_assoc, parse_name by (simpl; done || lia). simpl. destruct pt as [ds|]; simpl.
  - rewrite flush_ok by done. cbn [mbind option_bind]. rewrite parse_skip by done. simpl.
    rewrite length_app, Nat.add_1_r, atoi_comma. done.
  - rewrite flush_ok by done. cbn [mbind option_bind]. by rewrite length_app, Nat.add_1_r.
Qed.

Lemma parse_last m e l :
  entry_ok e -> parse_entries m false (entry_text e) [] l = Some (l ++ [entry_value e]).
Proof.
  destruct e as [name pt]. intros (Hn & Hl & Hf & Hp). simpl in *. unfold entry_text, entry_value. simpl.
  rewrite parse_name by (simpl; done || lia). simpl. destruct pt as [ds|]; simpl.
  - rewrite flush_ok by done. cbn [mbind option_bind]. pose proof (parse_skip m ds [] (l ++ [mkNetIf name (atoi ds)]) Hp) as E.
    rewrite app_nil_r in E. by rewrite E.
  - by rewrite flush_ok.
Qed.

(** ** Properties: interface lists *)

(** a comma-separated list of interface names, each with an optional port, is parsed
    into exactly its entries, up to the limit. *)
Theorem parse_list_correct (es : list (list Z * option (list Z))) (maxList : nat) :
  (0 < maxList)%nat -> Forall entry_ok es ->
  parseStringList (list_text es) maxList = Some (take maxList (map entry_value es)).
Proof.
  intros Hm Hok. unfold parseStringList.
  assert (Hgen : forall es l, Forall entry_ok es -> (length l < maxList)%nat ->
    parse_entries maxList false (list_text es) [] l = Some (l ++ take (maxList - length l) (map entry_value es))).
  { clear es Hok. induction es as [|e es IH]; intros l Hok Hl; [simpl; by rewrite take_nil, app_nil_r|].
    apply Forall_cons in Hok as [He Hok]. destruct (maxList - length l)%nat as [|k] eqn:Ek; [lia|].
    destruct es as [|e' es]; [simpl; rewrite parse_last by done; by rewrite take_nil|].
    change (list_text (e :: e' :: es)) with (entry_text e ++ COMMA :: list_text (e' :: es)).
    rewrite parse_entry by done. cbn [map take]. case_decide as Hd.
    - rewrite IH by (done || rewrite length_app; simpl; lia). rewrite <- app_assoc, length_app. simpl.
      by replace (maxList - (length l + 1))%nat with k by lia.
    - replace k with 0%nat by lia. done. }
  rewrite Hgen by done. simpl. by rewrite Nat.sub_0_r.
Qed.

Lemma parse_list_correct_witness :
  let es := [([101; 116; 104; 48], Some [53; 48; 48; 49]); ([108; 111], None)] in
  parseStringList (list_text es) 16 = Some [mkNetIf [101; 116; 104; 48] 5001; mkNetIf [108; 111] (-1)].
Proof.
  intros es. rewrite (parse_list_correct es 16); [by vm_compute|lia|].
  assert (forall l, bool_decide (Forall (fun c => c <> COMMA /\ c <> COLON) l) = true ->
    Forall (fun c => c <> COMMA /\ c <> COLON) l) as H1 by (intros l; apply bool_decide_eq_true_1).
  assert (forall l, bool_decide (Forall (fun c => c <> COMMA) l) = true -> Forall (fun c => c <> COMMA) l) as H2
    by (intros l; apply bool_decide_eq_true_1).
  repeat constructor; simpl; unfold PREFIX_SIZE; try done; try lia; try (apply H1; reflexivity); try (apply H2; reflexivity).
Defined.

Lemma matchIf_exact string ref : matchIf string ref true = true <-> string = ref.
Proof.
  unfold matchIf. cbn [Nat.add]. revert ref. induction string as [|c s IH]; intros [|d r]; simpl; try done.
  rewrite andb_true_iff, Z.eqb_eq. rewrite (IH r). naive_solver.
Qed.

Lemma matchIf_prefix string ref : matchIf string ref false = true <-> ref `prefix_of` string.
Proof.
  unfold matchIf. revert string. induction ref as [|d r IH]; intros string; simpl.
  - split; [intros _; apply prefix_nil|by destruct string].
  - destruct string as [|c s]; simpl.
    + split; [done|]. intros Hp. by apply prefix_nil_not in Hp.
    + rewrite andb_true_iff, Z.eqb_eq, IH. split.
      * intros [-> Hp]. by apply prefix_cons.
      * intros Hp. split; [by apply prefix_cons_inv_1 in Hp|by eapply prefix_cons_inv_2].
Qed.

(** ** Lemmas: the token pool *)

Lemma land_bit w b : 0 <= b -> (Z.land w (Z.shiftl 1 b) =? 0) = negb (Z.testbit w b).
Proof.
  intros Hb. rewrite Z.shiftl_1_l. destruct (Z.testbit w b) eqn:E; simpl.
  - apply Z.eqb_neq. intros Hz. assert (Z.testbit (Z.land w (2 ^ b)) b = false) as Hf by (by rewrite Hz, Z.testbit_0_l).
    by rewrite Z.land_spec, E, Z.pow2_bits_true in Hf by lia.
  - apply Z.eqb_eq, Z.bits_inj'. intros n Hn. rewrite Z.land_spec, Z.testbit_0_l, Z.pow2_bits_eqb by lia.
    destruct (Z.eqb_spec b n); [subst; by rewrite E|]. apply andb_false_r.
Qed.

Lemma first_hole_spec f bit holes : 0 <= bit ->
  match first_hole f bit holes with
  | Some b => bit <= b < bit + Z.of_nat f /\ Z.testbit holes b = true /\
              forall b', bit <= b' < b -> Z.testbit holes b' = false
  | None => forall b', bit <= b' < bit + Z.of_nat f -> Z.testbit holes b' = false
  end.
Proof.
  revert bit. induction f as [|f IH]; intros bit Hb; cbn [first_hole]; [intros; lia|].
  rewrite land_bit by done. rewrite negb_involutive. destruct (Z.testbit holes bit) eqn:E.
  - split_and!; [lia|lia|done|intros; lia].
  - specialize (IH (bit + 1) ltac:(lia)). destruct (first_hole f (bit + 1) holes) as [b|].
    + destruct IH as (H1 & H2 & H3). split_and!; [lia|lia|done|]. intros b' Hb'.
      destruct (decide (b' = bit)) as [->|]; [done|]. apply H3. lia.
    + intros b' Hb'. destruct (decide (b' = bit)) as [->|]; [done|]. apply IH. lia.
Qed.

(** Bit [b] of word [k] is free and inside the pool. *)
Definition hole (words : list Z) (tail : Z) (k : nat) (b : Z) : bool :=
  negb (Z.testbit (nth k words 0) b) &&
  Z.testbit (if decide (S k = length words) then tail else UINT64_MAX) b.

Lemma hole_cons w words tail k b : hole (w :: words) tail (S k) b = hole words tail k b.
Proof.
  unfold hole. cbn [nth length].
  destruct (decide (S k = length words)), (decide (S (S k) = S (length words))); done || lia.
Qed.

Lemma holes_word w words tail b : 0 <= b ->
  Z.testbit (Z.land (Z.lnot w) (match words with [] => tail | _ => UINT64_MAX end)) b =
  hole (w :: words) tail 0 b.
Proof.
  intros Hb. rewrite Z.land_spec, Z.lnot_spec by lia. unfold hole. cbn [nth length].
  by destruct words as [|x words]; [rewrite decide_True by done|rewrite decide_False by done].
Qed.

Lemma find_hole_spec words tail i :
  0 <= tail ->
  match find_hole i words tail with
  | Some (j, b) => exists k, j = (i + k)%nat /\ (k < length words)%nat /\ 0 <= b < 64 /\
      hole words tail k b = true /\
      forall k' b', 0 <= b' < 64 -> (k' < k)%nat \/ (k' = k /\ b' < b) -> hole words tail k' b' = false
  | None => forall k b, (k < length words)%nat -> 0 <= b < 64 -> hole words tail k b = false
  end.
Proof.
  intros Ht. revert i. induction words as [|w words IH]; intros i; [intros k b Hk; simpl in Hk; lia|].
  cbn [find_hole]. set (holes := Z.land (Z.lnot w) _).
  assert (Hh : forall b, 0 <= b -> Z.testbit holes b = hole (w :: words) tail 0 b) by (intros; by apply holes_word).
  assert (Hnext : (forall b, 0 <= b < 64 -> hole (w :: words) tail 0 b = false) ->
    match find_hole (S i) words tail with
    | Some (j, b) => exists k, j = (i + k)%nat /\ (k < length (w :: words))%nat /\ 0 <= b < 64 /\
        hole (w :: words) tail k b = true /\
        forall k' b', 0 <= b' < 64 -> (k' < k)%nat \/ (k' = k /\ b' < b) -> hole (w :: words) tail k' b' = false
    | None => forall k b, (k < length (w :: words))%nat -> 0 <= b < 64 -> hole (w :: words) tail k b = false
    end).
  { intros H0. specialize (IH (S i)). destruct (find_hole (S i) words tail) as [[j b]|].
    - destruct IH as (k & -> & Hk & Hb & H1 & H2). exists (S k). split_and!; simpl; try lia; [by rewrite hole_cons|].
      intros [|k'] b' Hb' Hlt; [by apply H0|]. rewrite hole_cons. apply H2; [done|]. lia.
    - intros [|k] b Hk Hb; [by apply H0|]. rewrite hole_cons. apply IH; [simpl in Hk; lia|done]. }
  destruct (Z.eqb_spec holes 0) as [Hz|Hz].
  { apply Hnext. intros b Hb. by rewrite <- Hh, Hz, Z.testbit_0_l by lia. }
  pose proof (first_hole_spec 64 0 holes ltac:(lia)) as Hf. destruct (first_hole 64 0 holes) as [b|].
  - destruct Hf as (H1 & H2 & H3). exists 0%nat. split_and!; simpl; try lia; [by rewrite <- Hh by lia|].
    intros k' b' Hb' [Hlt|[-> Hlt]]; [lia|]. rewrite <- Hh by lia. apply H3. lia.
  - apply Hnext. intros b Hb. rewrite <- Hh by lia. apply Hf. lia.
Qed.

(** ** Properties: the token pool *)

(** The abstract pool: the set [X] of tokens handed out, as indices below [n]. *)
Record pool_ok (p : TokenPool) (n : Z) (X : gset Z) : Prop := {
  po_size : 0 <= n /\ nToken p = n;
  po_words : length (allocationMap p) = Z.to_nat ((n + 63) / 64);
  po_tail : tailMask p = if n mod 64 =? 0 then UINT64_MAX else Z.shiftl 1 (n mod 64) - 1;
  po_bits : forall k b, (k < length (allocationMap p))%nat -> 0 <= b < 64 ->
    Z.testbit (nth k (allocationMap p) 0) b = true <-> Z.of_nat k * 64 + b ∈ X;
  po_range : forall t, t ∈ X -> 0 <= t < n;
  po_zero : forall t, 0 <= t < n -> t ∉ X -> readToken p (baseAddr p + t) = 0
}.

Lemma tail_bit n b : 0 < n -> 0 <= b < 64 ->
  Z.testbit (if n mod 64 =? 0 then UINT64_MAX else Z.shiftl 1 (n mod 64) - 1) b = ((n - 1) / 64 * 64 + b <? n).
Proof.
  intros Hn Hb. pose proof (Z.div_mod (n - 1) 64 ltac:(lia)) as E1. pose proof (Z.div_mod n 64 ltac:(lia)) as E2.
  pose proof (Z.mod_pos_bound (n - 1) 64 ltac:(lia)). pose proof (Z.mod_pos_bound n 64 ltac:(lia)).
  destruct (Z.eqb_spec (n mod 64) 0) as [E|E].
  - unfold UINT64_MAX. change (2 ^ 64 - 1) with (Z.ones 64). rewrite Z.ones_spec_low by lia. symmetry. apply Z.ltb_lt. lia.
  - rewrite Z.shiftl_1_l. replace (2 ^ (n mod 64) - 1) with (Z.ones (n mod 64)) by (rewrite Z.ones_equiv; lia).
    rewrite Z.testbit_ones_nonneg by lia. replace ((n - 1) / 64) with (n / 64) by lia.
    destruct (Z.ltb_spec b (n mod 64)), (Z.ltb_spec (n / 64 * 64 + b) n); lia.
Qed.

(** A hole is a token that is not handed out. *)
Lemma hole_free p n X k b : pool_ok p n X -> (k < length (allocationMap p))%nat -> 0 <= b < 64 ->
  hole (allocationMap p) (tailMask p) k b = true <-> Z.of_nat k * 64 + b < n /\ Z.of_nat k * 64 + b ∉ X.
Proof.
  intros Hp Hk Hb. pose proof (po_words _ _ _ Hp) as Hw. pose proof (po_bits _ _ _ Hp k b Hk Hb) as Hbit.
  unfold hole. rewrite andb_true_iff, negb_true_iff, <- not_true_iff_false, Hbit, (po_tail _ _ _ Hp).
  assert (Hn : 0 < n).
  { destruct (po_size _ _ _ Hp) as [H0 _]. destruct (decide (n = 0)) as [E|]; [|lia].
    rewrite E in Hw. change (Z.to_nat ((0 + 63) / 64)) with 0%nat in Hw. lia. }
  pose proof (Z.div_mod (n + 63) 64 ltac:(lia)). pose proof (Z.mod_pos_bound (n + 63) 64 ltac:(lia)).
  pose proof (Z.div_mod (n - 1) 64 ltac:(lia)). pose proof (Z.mod_pos_bound (n - 1) 64 ltac:(lia)).
  destruct (decide (S k = length (allocationMap p))) as [Hl|Hl].
  - rewrite tail_bit by done. replace ((n - 1) / 64) with (Z.of_nat k) by lia.
    destruct (Z.ltb_spec (Z.of_nat k * 64 + b) n); split; intros [? ?]; split; try done; lia.
  - unfold UINT64_MAX. change (2 ^ 64 - 1) with (Z.ones 64). rewrite Z.ones_spec_low by lia.
    split; [intros [? _]|intros [_ ?]]; split; try done. lia.
Qed.

Lemma nth_insert_bits (l : list Z) i k x : (i < length l)%nat ->
  nth k (<[i := x]> l) 0 = if decide (k = i) then x else nth k l 0.
Proof.
  intros Hi. rewrite !nth_lookup. case_decide as Hd.
  - subst. by rewrite list_lookup_insert_eq.
  - by rewrite list_lookup_insert_ne.
Qed.

(** Changing one bit of the map changes one token of the abstract pool. *)
Lemma pool_ok_update p n X X' k b w (v : bool) mem :
  pool_ok p n X -> (k < length (allocationMap p))%nat -> 0 <= b < 64 -> Z.of_nat k * 64 + b < n ->
  (forall b', 0 <= b' < 64 -> Z.testbit w b' = if b' =? b then v else Z.testbit (nth k (allocationMap p) 0) b') ->
  (forall t, t ∈ X' <-> if decide (t = Z.of_nat k * 64 + b) then v = true else t ∈ X) ->
  let p' := mkPool (nToken p) (baseAddr p) (tailMask p) (<[k := w]> (allocationMap p)) mem in
  (forall t, 0 <= t < n -> t ∉ X' -> readToken p' (baseAddr p + t) = 0) ->
  pool_ok p' n X'.
Proof.
  intros Hp Hk Hb Hn Hw HX p' Hz. split; simpl.
  - apply (po_size _ _ _ Hp).
  - rewrite length_insert. apply (po_words _ _ _ Hp).
  - apply (po_tail _ _ _ Hp).
  - intros k' b' Hk' Hb'. rewrite length_insert in Hk'. rewrite nth_insert_bits, HX by done.
    destruct (decide (k' = k)) as [->|Hd].
    + rewrite Hw by done. destruct (Z.eqb_spec b' b) as [->|]; [by rewrite decide_True|].
      rewrite decide_False by lia. by apply (po_bits _ _ _ Hp).
    + rewrite decide_False by lia. by apply (po_bits _ _ _ Hp).
  - intros t. rewrite HX. case_decide; [lia|]. apply (po_range _ _ _ Hp).
  - exact Hz.
Qed.

Lemma token_place p n X t : pool_ok p n X -> 0 <= t < n ->
  exists k b, t = Z.of_nat k * 64 + b /\ (k < length (allocationMap p))%nat /\ 0 <= b < 64 /\
    k = Z.to_nat (t / 64) /\ b = t mod 64.
Proof.
  intros Hp Hb. exists (Z.to_nat (t / 64)), (t mod 64). rewrite (po_words _ _ _ Hp).
  pose proof (Z.div_mod t 64 ltac:(lia)). pose proof (Z.mod_pos_bound t 64 ltac:(lia)).
  pose proof (Z.div_mod (n + 63) 64 ltac:(lia)). pose proof (Z.mod_pos_bound (n + 63) 64 ltac:(lia)).
  split_and!; lia.
Qed.

Lemma tail_nonneg p n X : pool_ok p n X -> 0 <= tailMask p.
Proof.
  intros Hp. rewrite (po_tail _ _ _ Hp). case_match; [done|]. rewrite Z.shiftl_1_l.
  assert (0 < 2 ^ (n mod 64)) by (apply Z.pow_pos_nonneg; pose proof (Z.mod_pos_bound n 64); lia). lia.
Qed.

Lemma getToken_spec (p : TokenPool) (n : Z) (X : gset Z) :
  pool_ok p n X ->
  match getToken p with
  | Ok (p', token) => exists t, token = baseAddr p + t /\ 0 <= t < n /\ t ∉ X /\ (forall t', 0 <= t' < t -> t' ∈ X) /\
      readToken p' token = 0 /\ baseAddr p' = baseAddr p /\ pool_ok p' n ({[t]} ∪ X)
  | Throw e => e = EError InternalError /\ forall t, 0 <= t < n -> t ∈ X
  end.
Proof.
  intros Hp. unfold getToken.
  assert (Hdec : forall k b, (k < length (allocationMap p))%nat -> 0 <= b < 64 -> Z.of_nat k * 64 + b < n ->
    hole (allocationMap p) (tailMask p) k b = false -> Z.of_nat k * 64 + b ∈ X).
  { intros k b Hk Hb Hn Hf. destruct (decide (Z.of_nat k * 64 + b ∈ X)) as [|Hni]; [done|].
    by rewrite (proj2 (hole_free p n X k b Hp Hk Hb) (conj Hn Hni)) in Hf. }
  pose proof (find_hole_spec (allocationMap p) (tailMask p) 0 (tail_nonneg _ _ _ Hp)) as Hf.
  destruct (find_hole 0 _ _) as [[j b]|].
  - destruct Hf as (k & -> & Hk & Hb & Hh & Hmin). simpl. apply (hole_free p n X k b Hp Hk Hb) in Hh as [Hn Hs].
    exists (Z.of_nat k * 64 + b). unfold UINT64_WIDTH. split_and!; try done; try lia.
    + intros t' Ht'. destruct (token_place p n X t' Hp ltac:(lia)) as (k' & b' & -> & Hk' & Hb' & _).
      apply Hdec; [done|done|lia|]. apply Hmin; [done|]. lia.
    + unfold readToken. simpl. rewrite <- Z.add_assoc. apply (po_zero _ _ _ Hp); [lia|done].
    + apply (pool_ok_update p n X _ k b _ true); try done.
      * intros b' Hb'. rewrite Z.lor_spec, Z.shiftl_1_l, Z.pow2_bits_eqb by lia. rewrite (Z.eqb_sym b).
        destruct (b' =? b); [apply orb_true_r|apply orb_false_r].
      * intros t. rewrite elem_of_union, elem_of_singleton. case_decide; naive_solver.
      * intros t Hr Hns. unfold readToken. simpl. apply (po_zero _ _ _ Hp); [done|]. set_solver.
  - split; [done|]. intros t Hr. destruct (token_place p n X t Hp Hr) as (k & b & -> & Hk & Hb & _).
    apply Hdec; [done|done|lia|]. by apply Hf.
Qed.

(** the token pool implements a set of free tokens: [getToken] hands out the lowest
    free token, its counter zero, and fails exactly when none is free. *)
Theorem get_token_refines (p : TokenPool) (n : Z) (X : gset Z) :
  pool_ok p n X ->
  match getToken p with
  | Ok (p', token) => exists t, token = baseAddr p + t /\ 0 <= t < n /\ t ∉ X /\ (forall t', 0 <= t' < t -> t' ∈ X) /\
      readToken p' token = 0 /\ baseAddr p' = baseAddr p /\ pool_ok p' n ({[t]} ∪ X)
  | Throw e => e = EError InternalError /\ forall t, 0 <= t < n -> t ∈ X
  end.
Proof. apply getToken_spec. Qed.

(** releasing a token makes exactly that token free again, with its counter zeroed,
    and a holder's writes do not change the pool. *)
Theorem release_token_refines (p : TokenPool) (n t v : Z) (X : gset Z) :
  pool_ok p n X -> t ∈ X ->
  pool_ok (releaseToken p (baseAddr p + t)) n (X ∖ {[t]}) /\ pool_ok (writeToken p (baseAddr p + t) v) n X.
Proof.
  intros Hp Hs. pose proof (po_range _ _ _ Hp t Hs) as Hr.
  destruct (token_place p n X t Hp Hr) as (k & b & Et & Hk & Hb & Ek & Eb). split.
  - unfold releaseToken, UINT64_WIDTH. replace (baseAddr p + t - baseAddr p) with t by lia. rewrite <- Ek, <- Eb.
    apply (pool_ok_update p n X _ k b _ false); try done; try lia.
    + intros b' Hb'. rewrite Z.land_spec, Z.lxor_spec, Z.shiftl_1_l, Z.pow2_bits_eqb by lia.
      unfold UINT64_MAX. change (2 ^ 64 - 1) with (Z.ones 64). rewrite Z.ones_spec_low, (Z.eqb_sym b) by lia.
      destruct (b' =? b); [apply andb_false_r|apply andb_true_r].
    + intros u. rewrite <- Et, elem_of_difference, elem_of_singleton. case_decide; naive_solver.
    + intros u Hu Hn. unfold readToken. simpl. destruct (decide (u = t)) as [->|Hne]; [by rewrite lookup_insert_eq|].
      rewrite lookup_insert_ne by lia. apply (po_zero _ _ _ Hp); [done|]. set_solver.
  - split; try apply Hp. intros u Hu Hn. unfold readToken. simpl.
    rewrite lookup_insert_ne by (intros Heq; apply Hn; by replace u with t by lia). by apply (po_zero _ _ _ Hp).
Qed.

Lemma pool_create_ok n base : 0 <= n -> pool_ok (TokenPool_create n base) n ∅.
Proof.
  intros Hn. split.
  - done.
  - simpl. by rewrite length_replicate.
  - done.
  - simpl. intros k b Hk Hb. rewrite length_replicate in Hk. rewrite nth_lookup, lookup_replicate_2 by done. simpl.
    rewrite Z.testbit_0_l. set_solver.
  - set_solver.
  - intros u _ _. unfold readToken. simpl. by rewrite lookup_empty.
Qed.

Lemma get_token_refines_witness :
  exists p', getToken (TokenPool_create 70 4096) = Ok (p', 4096) /\ pool_ok p' 70 ({[0]} ∪ ∅).
Proof.
  pose proof (get_token_refines (TokenPool_create 70 4096) 70 ∅ (pool_create_ok 70 4096 ltac:(lia))) as H.
  destruct (getToken (TokenPool_create 70 4096)) as [[p' a]|] eqn:E; [|by vm_compute in E].
  destruct H as (t & Ha & Ht & _ & Hmin & _ & _ & Hp). exists p'.
  assert (a = 4096) as -> by (vm_compute in E; by injection E as _ <-). simpl in Ha.
  assert (t = 0) as -> by lia. done.
Defined.

Lemma release_token_refines_witness :
  exists p', getToken (TokenPool_create 70 4096) = Ok (p', 4096) /\
  pool_ok (releaseToken p' (baseAddr p' + 0)) 70 (({[0]} ∪ ∅) ∖ {[0]}).
Proof.
  pose proof (getToken_spec (TokenPool_create 70 4096) 70 ∅ (pool_create_ok 70 4096 ltac:(lia))) as H.
  destruct (getToken (TokenPool_create 70 4096)) as [[p' a]|] eqn:E; [|by vm_compute in E].
  destruct H as (t & Ha & Ht & _ & _ & _ & _ & Hp). exists p'.
  assert (a = 4096) as -> by (vm_compute in E; by injection E as _ <-). simpl in Ha.
  assert (t = 0) as -> by lia. split; [done|]. apply (release_token_refines p' 70 0 5 ({[0]} ∪ ∅)); [done|set_solver].
Defined.
