(* ===== verification/Socket.v ===== *)
(** * Sockets

    Models [Socket] of src/core/bootstrap/socket.cc: the state machine of a socket
    (bind, listen, connect, accept with their handshake of magic number and type), its
    retries, and sending and receiving with partial transfers.

    The operating system is the list of answers its calls give, in order ([os]), the
    bytes every descriptor still has to deliver ([rx]) or has accepted ([tx]), and the
    set of open descriptors.  Reading the abort flag and comparing the timer with the
    timeout are inputs too.  A computation without an answer to go on with is one
    that has not returned: it is [None]. *)

From S2P Require Import Prelude Errors Core.
Local Open Scope Z_scope.

(** ** Data *)

Inductive SocketState :=
  | SNone | SInitialized | SAccepting | SAccepted | SConnecting | SConnectPolling | SConnected
  | SBound | SReady | SClosed | SError.
#[export] Instance SocketState_eq_dec : EqDecision SocketState.
Proof. solve_decision. Defined.

Inductive errno := EINTR | EAGAIN | ECONNREFUSED | ETIMEDOUT | EINPROGRESS | EADDRINUSE | EOTHER.
#[export] Instance errno_eq_dec : EqDecision errno.
Proof. solve_decision. Defined.

Inductive family := AF_INET | AF_INET6 | AF_OTHER.
#[export] Instance family_eq_dec : EqDecision family.
Proof. solve_decision. Defined.

Record SocketAddress := mkAddr { sa_family : family; sa_port : Z; sa_host : list Z }.

Record Socket := mkSocket {
  fd_ : Z; acceptFd_ : Z; connectRetries_ : Z; acceptRetries_ : Z;
  abortFlag_ : bool;                (* whether there is a flag *)
  asyncFlag_ : bool; state_ : SocketState; magic_ : Z; type_ : Z; addr_ : SocketAddress
}.

(** Answers of the calls into the system. *)
Inductive answer :=
  | AOk                             (* 0 *)
  | AErr (e : errno)                (* -1 with [errno] *)
  | AFd (fd : Z) (incoming : list Z) (* a new descriptor, with what its peer will send *)
  | ABytes (n : nat)                (* [send], [recv]: at most [n] bytes *)
  | AEof                            (* [recv] returns 0 *)
  | APort (p : Z)                   (* [getsockname] *)
  | APoll (out : bool)              (* one descriptor, with or without POLLOUT *)
  | ASoError (e : option errno).    (* [getsockopt(SO_ERROR)] *)

Record OS := mkOS {
  os : list answer; rx : gmap Z (list Z); tx : gmap Z (list Z); openFds : gset Z;
  aborts : list bool;               (* what successive reads of the abort flag give *)
  timers : list bool                (* whether the timer is past the timeout *)
}.

(** ** Computations: a socket, a system, exceptions, no return *)

Definition IO (A : Type) : Type := Socket -> OS -> option (result A * Socket * OS).

#[export] Instance IO_ret : MRet IO := fun A a s w => Some (Ok a, s, w).
#[export] Instance IO_bind : MBind IO := fun A B k m s w =>
  match m s w with
  | Some (Ok a, s, w) => k a s w
  | Some (Throw e, s, w) => Some (Throw e, s, w)
  | None => None
  end.

Definition throw {A} (e : exn) : IO A := fun s w => Some (Throw e, s, w).
Definition get_sock : IO Socket := fun s w => Some (Ok s, s, w).
Definition set_sock (f : Socket -> Socket) : IO () := fun s w => Some (Ok tt, f s, w).
Definition no_return {A} : IO A := fun s w => None.

Definition set_state (st : SocketState) : IO () := set_sock (fun s =>
  mkSocket (fd_ s) (acceptFd_ s) (connectRetries_ s) (acceptRetries_ s) (abortFlag_ s) (asyncFlag_ s) st
    (magic_ s) (type_ s) (addr_ s)).
Definition set_fd (fd : Z) : IO () := set_sock (fun s =>
  mkSocket fd (acceptFd_ s) (connectRetries_ s) (acceptRetries_ s) (abortFlag_ s) (asyncFlag_ s) (state_ s)
    (magic_ s) (type_ s) (addr_ s)).
Definition set_port (p : Z) : IO () := set_sock (fun s =>
  mkSocket (fd_ s) (acceptFd_ s) (connectRetries_ s) (acceptRetries_ s) (abortFlag_ s) (asyncFlag_ s) (state_ s)
    (magic_ s) (type_ s) (mkAddr (sa_family (addr_ s)) p (sa_host (addr_ s)))).
Definition count_connect : IO () := set_sock (fun s =>
  mkSocket (fd_ s) (acceptFd_ s) (connectRetries_ s + 1) (acceptRetries_ s) (abortFlag_ s) (asyncFlag_ s) (state_ s)
    (magic_ s) (type_ s) (addr_ s)).
Definition count_accept : IO () := set_sock (fun s =>
  mkSocket (fd_ s) (acceptFd_ s) (connectRetries_ s) (acceptRetries_ s + 1) (abortFlag_ s) (asyncFlag_ s) (state_ s)
    (magic_ s) (type_ s) (addr_ s)).

(** *** Calls *)

Definition next (s : Socket) (w : OS) : option (result answer * Socket * OS) :=
  match os w with
  | [] => None
  | a :: l => Some (Ok a, s, mkOS l (rx w) (tx w) (openFds w) (aborts w) (timers w))
  end.

(** A call on the descriptor that returns 0 or an error; without a valid descriptor
    it fails with EBADF. *)
Definition call_status : IO (option errno) :=
  a ← next; s ← get_sock;
  match a with
  | AOk => if 0 <=? fd_ s then mret None else no_return
  | AErr e => if (0 <=? fd_ s) || bool_decide (e = EOTHER) then mret (Some e) else no_return
  | _ => no_return
  end.

(** A call that makes a descriptor, which is not one that is open; numbers are used
    again after a [close], for another connection. *)
Definition call_fd : IO (errno + Z) :=
  a ← next;
  match a with
  | AFd fd incoming => fun s w =>
      if bool_decide (0 <= fd /\ fd ∉ openFds w)
      then Some (Ok (inr fd), s, mkOS (os w) (<[fd := incoming]> (rx w)) (<[fd := []]> (tx w))
                   ({[fd]} ∪ openFds w) (aborts w) (timers w))
      else None
  | AErr e => mret (inl e)
  | _ => no_return
  end.

Definition call_close : IO () := fun s w =>
  Some (Ok tt, s, mkOS (os w) (rx w) (tx w) (openFds w ∖ {[fd_ s]}) (aborts w) (timers w)).

Inductive transfer := TBytes (bs : list Z) | TEof | TErr (e : errno).

(** [recv] of up to [n] bytes: some of the bytes to come, in order. *)
Definition call_recv (n : nat) : IO transfer :=
  a ← next;
  match a with
  | ABytes k => fun s w =>
      let l := default [] (rx w !! fd_ s) in
      let bs := take (Nat.min k n) l in
      match bs with
      | [] => None
      | _ => Some (Ok (TBytes bs), s,
               mkOS (os w) (<[fd_ s := drop (length bs) l]> (rx w)) (tx w) (openFds w) (aborts w) (timers w))
      end
  | AEof => mret TEof
  | AErr e => mret (TErr e)
  | _ => no_return
  end.

(** [send] of bytes: a prefix of them is accepted. *)
Definition call_send (bytes : list Z) : IO transfer :=
  a ← next;
  match a with
  | ABytes k => fun s w =>
      let bs := take k bytes in
      match bs with
      | [] => None
      | _ => Some (Ok (TBytes bs), s,
               mkOS (os w) (rx w) (<[fd_ s := default [] (tx w !! fd_ s) ++ bs]> (tx w)) (openFds w) (aborts w) (timers w))
      end
  | AErr e => mret (TErr e)
  | _ => no_return
  end.

(** [abortFlag_ && *abortFlag_ != 0]. *)
Definition aborted : IO bool := fun s w =>
  if abortFlag_ s then
    match aborts w with
    | [] => Some (Ok false, s, w)
    | b :: l => Some (Ok b, s, mkOS (os w) (rx w) (tx w) (openFds w) l (timers w))
    end
  else Some (Ok false, s, w).

(** [timeout > 0 && timer.elapsed() > timeout]. *)
Definition timed_out (timeout : Z) : IO bool := fun s w =>
  if 0 <? timeout then
    match timers w with
    | [] => Some (Ok false, s, w)
    | b :: l => Some (Ok b, s, mkOS (os w) (rx w) (tx w) (openFds w) (aborts w) l)
    end
  else Some (Ok false, s, w).

(** One round of a loop uses up an answer at least, so a loop may run for as many
    rounds as there are answers; what is left then does not return. *)
Definition with_fuel {A} (loop : nat -> IO A) : IO A := fun s w => loop (S (length (os w))) s w.

Definition SysErr : exn := ESysError.
Definition Err (c : ErrorCode) : exn := EError c.

(** ** Transfers *)

Definition retryable (e : errno) : bool := bool_decide (e = EINTR \/ e = EAGAIN).

(** [socketProgressOpt] for receiving: the bytes so far, and whether the peer closed. *)
Fixpoint recvProgressOpt (fuel : nat) (size : nat) (got : list Z) : IO (list Z * bool) :=
  match fuel with
  | O => no_return
  | S f =>
      r ← call_recv (size - length got);
      match r with
      | TEof => mret (got, true)
      | TErr e =>
          if retryable e then a ← aborted; if (a : bool) then throw (Err Aborted) else mret (got, false)
          else throw SysErr
      | TBytes bs =>
          a ← aborted;
          if (a : bool) then throw (Err Aborted)
          else if decide (length (got ++ bs) < size)%nat then recvProgressOpt f size (got ++ bs)
          else mret (got ++ bs, false)
      end
  end.

(** For sending: how many of the bytes have been sent. *)
Fixpoint sendProgressOpt (fuel : nat) (bytes : list Z) (offset : nat) : IO nat :=
  match fuel with
  | O => no_return
  | S f =>
      r ← call_send (drop offset bytes);
      match r with
      | TBytes bs =>
          a ← aborted;
          if (a : bool) then throw (Err Aborted)
          else if decide (offset + length bs < length bytes)%nat then sendProgressOpt f bytes (offset + length bs)
          else mret (offset + length bs)%nat
      | TErr e =>
          if retryable e then a ← aborted; if (a : bool) then throw (Err Aborted) else mret offset
          else throw SysErr
      | TEof => no_return
      end
  end.

(** [socketProgress]. *)
Definition recvProgress (size : nat) (got : list Z) : IO (list Z) :=
  '(got, closed) ← with_fuel (fun f => recvProgressOpt f size got);
  if (closed : bool) then throw (Err RemoteError) else mret got.
Definition sendProgress (bytes : list Z) (offset : nat) : IO nat :=
  with_fuel (fun f => sendProgressOpt f bytes offset).

(** [socketWait]: until everything is transferred. *)
Fixpoint recvWait_loop (fuel size : nat) (got : list Z) : IO (list Z) :=
  if decide (length got < size)%nat then
    match fuel with
    | O => no_return
    | S f => got ← recvProgress size got; recvWait_loop f size got
    end
  else mret got.
Definition recvWait (size : nat) (got : list Z) : IO (list Z) := with_fuel (fun f => recvWait_loop f size got).

Fixpoint sendWait_loop (fuel : nat) (bytes : list Z) (offset : nat) : IO nat :=
  if decide (offset < length bytes)%nat then
    match fuel with
    | O => no_return
    | S f => offset ← sendProgress bytes offset; sendWait_loop f bytes offset
    end
  else mret offset.
Definition sendWait (bytes : list Z) (offset : nat) : IO nat := with_fuel (fun f => sendWait_loop f bytes offset).

Definition require_ready : IO () :=
  s ← get_sock; if decide (state_ s = SReady) then mret tt else throw (Err InternalError).

Definition send (bytes : list Z) : IO () := _ ← require_ready; _ ← sendWait bytes 0; mret tt.
Definition recv (size : nat) : IO (list Z) := _ ← require_ready; recvWait size [].

(** [recvUntilEnd]: a loop of its own, which a retryable error ends. *)
Fixpoint recvUntilEnd_loop (fuel size : nat) (got : list Z) : IO (list Z * bool) :=
  match fuel with
  | O => no_return
  | S f =>
      r ← call_recv (size - length got);
      match r with
      | TEof => mret (got, true)
      | TErr e =>
          s ← get_sock;
          if retryable e || bool_decide (state_ s = SClosed) then
            a ← aborted; if (a : bool) then throw (Err Aborted) else mret (got, false)
          else throw SysErr
      | TBytes bs =>
          a ← aborted;
          if (a : bool) then throw (Err Aborted)
          else if decide (length (got ++ bs) < size)%nat then recvUntilEnd_loop f size (got ++ bs)
          else mret (got ++ bs, false)
      end
  end.
Definition recvUntilEnd (size : nat) : IO (list Z * bool) :=
  _ ← require_ready; with_fuel (fun f => recvUntilEnd_loop f size []).

(** ** Set-up *)

Definition close_fd : IO () := _ ← call_close; set_fd (-1).

(** [close]. *)
Definition close : IO () :=
  s ← get_sock;
  _ ← (if 0 <=? fd_ s then call_close else mret tt);
  _ ← set_state SClosed; set_fd (-1).

(** The constructor with an address ([Some]) or without. *)
Definition Socket_init (magic type : Z) (abortable async : bool) (addr : SocketAddress) : Socket :=
  mkSocket (-1) (-1) 0 0 abortable async SInitialized magic type addr.
Definition no_addr : SocketAddress := mkAddr AF_OTHER 0 [].

Definition Socket_construct (addr : option SocketAddress) : IO () :=
  _ ← (match addr with
       | None => mret tt
       | Some a =>
           if decide (sa_family a = AF_OTHER) then throw (Err InvalidUsage)
           else r ← call_fd; match r with inl _ => throw SysErr | inr fd => set_fd fd end
       end);
  s ← get_sock;
  if (asyncFlag_ s || abortFlag_ s) && (0 <=? fd_ s) then
    g ← call_status; match g with Some _ => throw SysErr | None =>
    f ← call_status; match f with Some _ => throw SysErr | None => mret tt end end
  else mret tt.

(** [bind], where [finTimeout] is the kernel's FIN timeout, if it can be read. *)
Fixpoint bind_loop (remainSecs : nat) : IO () :=
  r ← call_status;
  match r with
  | None => mret tt
  | Some e =>
      if decide (e = EADDRINUSE) then
        match remainSecs with O => throw SysErr | S n => bind_loop n end
      else throw SysErr
  end.

Definition bind (finTimeout : option Z) : IO () :=
  s ← get_sock;
  if fd_ s =? -1 then throw (Err InvalidUsage) else
  _ ← (if sa_port (addr_ s) =? 0 then mret tt
       else r ← call_status; match r with None => mret tt | Some _ => throw SysErr end);
  match finTimeout with
  | None => throw SysErr
  | Some t =>
      _ ← bind_loop (Z.to_nat (t + 1));
      a ← next;
      match a with
      | APort p => _ ← set_port p; set_state SBound
      | AErr _ => throw SysErr
      | _ => no_return
      end
  end.

Definition bindAndListen (finTimeout : option Z) : IO () :=
  _ ← bind finTimeout;
  r ← call_status;
  match r with None => set_state SReady | Some _ => throw SysErr end.

(** *** The handshake *)

Definition MAGIC_SIZE : nat := 8.
Definition TYPE_SIZE : nat := 4.
Definition hello (magic type : Z) : list Z := le_bytes MAGIC_SIZE magic ++ le_bytes TYPE_SIZE type.

Definition tryAccept : IO () :=
  r ← call_fd;
  match r with
  | inr fd => _ ← set_fd fd; set_state SAccepted
  | inl e => _ ← set_fd (-1); if decide (e = EAGAIN) then count_accept else throw SysErr
  end.

Definition finalizeAccept : IO () :=
  got ← recvProgress MAGIC_SIZE [];
  if decide (got = []) then mret tt else
  got ← recvWait MAGIC_SIZE got;
  s ← get_sock;
  if negb (le_val got =? magic_ s) then
    _ ← close_fd; set_state SAccepting
  else
    ty ← recvWait TYPE_SIZE [];
    if negb (le_val ty =? type_ s) then
      _ ← set_state SError; _ ← close_fd; throw (Err InternalError)
    else set_state SReady.

Definition startConnect : IO () :=
  r ← call_status;
  match r with
  | None => set_state SConnected
  | Some e =>
      if decide (e = EINPROGRESS) then set_state SConnectPolling
      else if decide (e = ECONNREFUSED \/ e = ETIMEDOUT) then count_connect
      else _ ← set_state SError; throw SysErr
  end.

Definition pollConnect : IO () :=
  a ← next;
  match a with
  | AErr _ => throw SysErr
  | AOk => mret tt                                   (* the poll timed out *)
  | APoll false => throw (Err InternalError)
  | APoll true =>
      b ← next;
      match b with
      | AErr _ => throw SysErr
      | ASoError None => set_state SConnected
      | ASoError (Some e) =>
          if decide (e = ECONNREFUSED \/ e = ETIMEDOUT) then
            _ ← count_connect;
            _ ← call_close;
            r ← call_fd;
            _ ← set_fd (match r with inr fd => fd | inl _ => -1 end);
            set_state SConnecting
          else if decide (e = EINPROGRESS) then mret tt
          else _ ← set_state SError; throw (Err SystemError)
      | _ => no_return
      end
  | _ => no_return
  end.

Definition finalizeConnect : IO () :=
  s ← get_sock;
  sent ← sendProgress (le_bytes MAGIC_SIZE (magic_ s)) 0;
  if decide (sent = 0%nat) then mret tt else
  _ ← sendWait (le_bytes MAGIC_SIZE (magic_ s)) sent;
  _ ← sendWait (le_bytes TYPE_SIZE (type_ s)) 0;
  set_state SReady.

(** [if (state_ == st) m]. *)
Definition when_state (st : SocketState) (m : IO ()) : IO () :=
  s ← get_sock; if decide (state_ s = st) then m else mret tt.

Definition progressState : IO () :=
  _ ← when_state SAccepting tryAccept;
  _ ← when_state SAccepted finalizeAccept;
  _ ← when_state SConnecting startConnect;
  _ ← when_state SConnectPolling pollConnect;
  when_state SConnected finalizeConnect.

(** The loops of [connect] and [accept]: until one of [states] is left. *)
Fixpoint progress_loop (fuel : nat) (timeout : Z) (states : list SocketState) : IO () :=
  match fuel with
  | O => no_return
  | S f =>
      _ ← progressState;
      t ← timed_out timeout;
      if (t : bool) then throw (Err Timeout) else
      s ← get_sock;
      if asyncFlag_ s then mret tt else
      a ← aborted;
      if (a : bool) then mret tt
      else if decide (state_ s ∈ states) then progress_loop f timeout states else mret tt
  end.

Definition check_aborted : IO () := a ← aborted; if (a : bool) then throw (Err Aborted) else mret tt.

Definition connect (timeout : Z) : IO () :=
  s ← get_sock;
  if fd_ s =? -1 then throw (Err InvalidUsage) else
  if decide (state_ s = SInitialized) then
    r ← call_status;
    match r with
    | Some _ => throw SysErr
    | None =>
        _ ← set_state SConnecting;
        _ ← with_fuel (fun f => progress_loop f timeout [SConnecting; SConnectPolling; SConnected]);
        check_aborted
    end
  else if decide (state_ s = SError) then throw (Err RemoteError) else throw (Err InternalError).

(** Take over the members of the listening socket. *)
Definition adopt (l s : Socket) : Socket :=
  mkSocket (fd_ l) (fd_ l) (connectRetries_ l) (acceptRetries_ l) (abortFlag_ l) (asyncFlag_ l) SAccepting
    (magic_ l) (type_ l) (addr_ l).

Definition accept (listenSocket : option Socket) (timeout : Z) : IO () :=
  match listenSocket with
  | None => throw (Err InvalidUsage)
  | Some l =>
      if decide (state_ l = SReady) then
        s ← get_sock;
        _ ← (if acceptFd_ s =? -1 then set_sock (adopt l) else mret tt);
        _ ← with_fuel (fun f => progress_loop f timeout [SAccepting; SAccepted]);
        check_aborted
      else throw (Err InternalError)
  end.

(** ** Reasoning about computations *)

(** Whatever [m] returns, with an exception or without, satisfies [Q]. *)
Definition wp {A} (m : IO A) (s : Socket) (w : OS) (Q : result A -> Socket -> OS -> Prop) : Prop :=
  forall r s' w', m s w = Some (r, s', w') -> Q r s' w'.

Lemma wp_bind {A B} (m : IO A) (k : A -> IO B) s w Q :
  wp m s w (fun r s' w' => match r with Ok a => wp (k a) s' w' Q | Throw e => Q (Throw e) s' w' end) ->
  wp (m ≫= k) s w Q.
Proof.
  intros Hm r s' w' Hr. unfold mbind, IO_bind in Hr.
  destruct (m s w) as [[[[a|e] s1] w1]|] eqn:E; [|injection Hr as <- <- <-|done].
  - by apply (Hm _ _ _ E).
  - by apply (Hm _ _ _ E).
Qed.

Lemma wp_mono {A} (m : IO A) s w (Q Q' : result A -> Socket -> OS -> Prop) :
  wp m s w Q -> (forall r s' w', Q r s' w' -> Q' r s' w') -> wp m s w Q'.
Proof. intros Hm HQ r s' w' Hr. by apply HQ, Hm. Qed.

Lemma wp_ret {A} (a : A) s w (Q : result A -> Socket -> OS -> Prop) : Q (Ok a) s w -> wp (mret a) s w Q.
Proof. intros HQ r s' w' [= <- <- <-]. done. Qed.
Lemma wp_throw {A} e s w (Q : result A -> Socket -> OS -> Prop) : Q (Throw e) s w -> wp (throw e) s w Q.
Proof. intros HQ r s' w' [= <- <- <-]. done. Qed.
Lemma wp_get s w (Q : result Socket -> Socket -> OS -> Prop) : Q (Ok s) s w -> wp get_sock s w Q.
Proof. intros HQ r s' w' [= <- <- <-]. done. Qed.
Lemma wp_set f s w (Q : result () -> Socket -> OS -> Prop) : Q (Ok tt) (f s) w -> wp (set_sock f) s w Q.
Proof. intros HQ r s' w' [= <- <- <-]. done. Qed.
Lemma wp_no_return {A} s w (Q : result A -> Socket -> OS -> Prop) : wp no_return s w Q.
Proof. done. Qed.
Lemma wp_fuel {A} (loop : nat -> IO A) s w Q : (forall n, wp (loop n) s w Q) -> wp (with_fuel loop) s w Q.
Proof. intros Hn. apply Hn. Qed.

(** *** Transfers on a descriptor *)

(** From [w] to [w'] the bytes [ins] have been read from descriptor [fd] and [outs]
    written to it, and no descriptor has been opened or closed. *)
Record moved (fd : Z) (ins outs : list Z) (w w' : OS) : Prop := {
  mv_rx : default [] (rx w !! fd) = ins ++ default [] (rx w' !! fd);
  mv_rx_other : forall fd', fd' <> fd -> rx w' !! fd' = rx w !! fd';
  mv_tx : default [] (tx w' !! fd) = default [] (tx w !! fd) ++ outs;
  mv_tx_other : forall fd', fd' <> fd -> tx w' !! fd' = tx w !! fd';
  mv_open : openFds w' = openFds w;
  mv_os : exists l, os w = l ++ os w'
}.

Lemma moved_same fd w w' :
  rx w' = rx w -> tx w' = tx w -> openFds w' = openFds w -> (exists l, os w = l ++ os w') -> moved fd [] [] w w'.
Proof. intros E1 E2 E3 E4. split; rewrite ?E1, ?E2; try done. by rewrite app_nil_r. Qed.

Lemma moved_refl fd w : moved fd [] [] w w.
Proof. apply moved_same; try done. by exists []. Qed.

Lemma moved_trans fd i1 i2 o1 o2 w1 w2 w3 :
  moved fd i1 o1 w1 w2 -> moved fd i2 o2 w2 w3 -> moved fd (i1 ++ i2) (o1 ++ o2) w1 w3.
Proof.
  intros [A1 A2 A3 A4 A5 [l1 A6]] [B1 B2 B3 B4 B5 [l2 B6]]. split.
  - by rewrite A1, B1, app_assoc.
  - intros fd' Hne. by rewrite B2, A2.
  - by rewrite B3, A3, app_assoc.
  - intros fd' Hne. by rewrite B4, A4.
  - by rewrite B5, A5.
  - exists (l1 ++ l2). by rewrite A6, B6, app_assoc.
Qed.

Lemma moved_nil_l fd i o w1 w2 w3 : moved fd [] [] w1 w2 -> moved fd i o w2 w3 -> moved fd i o w1 w3.
Proof. apply (moved_trans fd [] i [] o). Qed.
Lemma moved_nil_r fd i o w1 w2 w3 : moved fd i o w1 w2 -> moved fd [] [] w2 w3 -> moved fd i o w1 w3.
Proof. intros H1 H2. rewrite <- (app_nil_r i), <- (app_nil_r o). by eapply moved_trans. Qed.

Lemma wp_next s w : wp next s w (fun r s' w' => s' = s /\ moved (fd_ s) [] [] w w' /\
  exists a, r = Ok a /\ os w = a :: os w' /\ rx w' = rx w /\ tx w' = tx w /\ openFds w' = openFds w).
Proof.
  intros r s' w' Hr. unfold next in Hr. destruct (os w) as [|a l] eqn:E; [done|]. injection Hr as <- <- <-.
  split; [done|]. split; [|by exists a]. apply moved_same; try done. exists [a]. by rewrite E.
Qed.

Lemma wp_aborted s w : wp aborted s w (fun r s' w' => s' = s /\ moved (fd_ s) [] [] w w' /\ exists b, r = Ok b).
Proof.
  intros r s' w' Hr. unfold aborted in Hr. destruct (abortFlag_ s); [destruct (aborts w)|];
    injection Hr as <- <- <-; (split; [done|]); (split; [|eauto]); apply moved_same; try done; by exists [].
Qed.

Lemma wp_timed_out t s w : wp (timed_out t) s w (fun r s' w' => s' = s /\ moved (fd_ s) [] [] w w' /\ exists b, r = Ok b).
Proof.
  intros r s' w' Hr. unfold timed_out in Hr. destruct (0 <? t); [destruct (timers w)|];
    injection Hr as <- <- <-; (split; [done|]); (split; [|eauto]); apply moved_same; try done; by exists [].
Qed.

Lemma wp_call_status s w : wp call_status s w (fun r s' w' => s' = s /\ moved (fd_ s) [] [] w w' /\
  exists e, r = Ok e /\ (e <> Some EOTHER -> 0 <= fd_ s)).
Proof.
  apply wp_bind. eapply wp_mono; [apply wp_next|]. intros r s' w' (-> & Hm & a & -> & _).
  apply wp_bind, wp_get. destruct a; try apply wp_no_return; destruct (Z.leb_spec 0 (fd_ s)); simpl.
  - apply wp_ret. eauto 6.
  - apply wp_no_return.
  - apply wp_ret. eauto 6.
  - case_bool_decide as He; [|apply wp_no_return]. apply wp_ret. split_and!; [done|done|]. eexists. split; [done|]. by subst.
Qed.

Lemma wp_call_recv n s w : wp (call_recv n) s w (fun r s' w' => s' = s /\ exists bs, moved (fd_ s) bs [] w w' /\
  (r = Ok (TBytes bs) /\ bs <> [] /\ (length bs <= n)%nat \/ bs = [] /\ (r = Ok TEof \/ exists e, r = Ok (TErr e)))).
Proof.
  apply wp_bind. eapply wp_mono; [apply wp_next|]. intros r s' w1 (-> & Hm & a & -> & _ & E1 & E2 & E3).
  destruct a; try apply wp_no_return; try (apply wp_ret; split; [done|]; exists []; eauto 6; fail).
  intros r s' w' Hr. cbv zeta in Hr. set (l := default [] (rx w1 !! fd_ s)) in Hr.
  destruct (take (Nat.min n0 n) l) as [|b bs] eqn:Et; [done|]. injection Hr as <- <- <-.
  assert (Hsplit : l = (b :: bs) ++ drop (length (b :: bs)) l).
  { rewrite <- Et at 1. rewrite <- (take_drop (Nat.min n0 n) l) at 1. f_equal. rewrite <- Et, length_take.
    destruct (decide (Nat.min n0 n <= length l)%nat); [by rewrite (Nat.min_l (Nat.min n0 n)) by lia|].
    rewrite (Nat.min_r (Nat.min n0 n)) by lia. by rewrite !drop_ge by lia. }
  split; [done|]. exists (b :: bs). split.
  - eapply moved_nil_l; [exact Hm|]. split; simpl; try done; try (by rewrite app_nil_r); try (by exists []).
    + rewrite lookup_insert_eq. simpl. exact Hsplit.
    + intros fd' Hne. by rewrite lookup_insert_ne by done.
  - left. split_and!; [done|done|]. rewrite <- Et, length_take. lia.
Qed.

Lemma wp_call_send bytes s w : wp (call_send bytes) s w (fun r s' w' => s' = s /\ exists bs rest, bytes = bs ++ rest /\
  moved (fd_ s) [] bs w w' /\ (r = Ok (TBytes bs) /\ bs <> [] \/ bs = [] /\ exists e, r = Ok (TErr e))).
Proof.
  apply wp_bind. eapply wp_mono; [apply wp_next|]. intros r s' w1 (-> & Hm & a & -> & _ & E1 & E2 & E3).
  destruct a; try apply wp_no_return; try (apply wp_ret; split; [done|]; exists [], bytes; eauto 7; fail).
  intros r s' w' Hr. cbv zeta in Hr. destruct (take n bytes) as [|b bs] eqn:Et; [done|]. injection Hr as <- <- <-.
  split; [done|]. exists (b :: bs), (drop n bytes). split; [by rewrite <- Et, take_drop|]. split; [|by left].
  eapply moved_nil_l; [exact Hm|]. split; simpl; try done; try (by exists []).
  - by rewrite lookup_insert_eq.
  - intros fd' Hne. by rewrite lookup_insert_ne by done.
Qed.

(** *** Receiving and sending *)

Lemma wp_recvProgressOpt f size got s w :
  wp (recvProgressOpt f size got) s w (fun r s' w' => s' = s /\ exists bs, moved (fd_ s) bs [] w w' /\
    match r with
    | Ok (got', _) => got' = got ++ bs /\ ((length got <= size)%nat -> (length got' <= size)%nat)
    | Throw _ => True
    end).
Proof.
  revert got s w. induction f as [|f IH]; intros got s w; [apply wp_no_return|]. cbn [recvProgressOpt].
  apply wp_bind. eapply wp_mono; [apply wp_call_recv|]. intros r s' w1 (-> & bs & Hm & Hr).
  destruct Hr as [(-> & Hne & Hlen)|[-> Hr]].
  - apply wp_bind. eapply wp_mono; [apply wp_aborted|]. intros r s' w2 (-> & Hm2 & b & ->).
    pose proof (moved_nil_r _ _ _ _ _ _ Hm Hm2) as Hm3. destruct b; [apply wp_throw; eauto|].
    case_decide as Hd.
    + eapply wp_mono; [apply IH|]. intros r s' w' (-> & bs2 & Hm4 & Hr). split; [done|]. exists (bs ++ bs2).
      split; [by apply (moved_trans _ bs bs2 [] [] _ _ _ Hm3 Hm4)|]. destruct r as [[got' c]|]; [|done].
      rewrite app_assoc. destruct Hr as [-> Hr]. split; [done|]. intros _. apply Hr. lia.
    + apply wp_ret. split; [done|]. exists bs. split; [done|]. split; [done|]. intros. rewrite length_app. lia.
  - destruct Hr as [->|[e ->]].
    + apply wp_ret. split; [done|]. exists []. by rewrite app_nil_r.
    + destruct (retryable e); [|apply wp_throw; eauto].
      apply wp_bind. eapply wp_mono; [apply wp_aborted|]. intros r s' w2 (-> & Hm2 & b & ->).
      pose proof (moved_nil_r _ _ _ _ _ _ Hm Hm2) as Hm3.
      destruct b; [apply wp_throw; eauto|]. apply wp_ret. split; [done|]. exists []. by rewrite app_nil_r.
Qed.

Lemma wp_recvProgress size got s w :
  wp (recvProgress size got) s w (fun r s' w' => s' = s /\ exists bs, moved (fd_ s) bs [] w w' /\
    match r with
    | Ok got' => got' = got ++ bs /\ ((length got <= size)%nat -> (length got' <= size)%nat)
    | Throw _ => True
    end).
Proof.
  apply wp_bind, wp_fuel. intros n. eapply wp_mono; [apply wp_recvProgressOpt|].
  intros r s' w' (-> & bs & Hm & Hr). destruct r as [[got' c]|e]; [|eauto].
  destruct c; [apply wp_throw|apply wp_ret]; eauto.
Qed.

Lemma wp_recvWait size got s w :
  wp (recvWait size got) s w (fun r s' w' => s' = s /\ exists bs, moved (fd_ s) bs [] w w' /\
    match r with
    | Ok got' => got' = got ++ bs /\ ((length got <= size)%nat -> length got' = size)
    | Throw _ => True
    end).
Proof.
  apply wp_fuel. intros f. revert got s w. induction f as [|f IH]; intros got s w; cbn [recvWait_loop];
    (case_decide as Hd; [|apply wp_ret; split; [done|]; exists []; rewrite app_nil_r; split_and!; eauto using moved_refl; lia]);
    [apply wp_no_return|].
  apply wp_bind. eapply wp_mono; [apply wp_recvProgress|]. intros r s' w1 (-> & bs & Hm & Hr).
  destruct r as [got'|e]; [|eauto]. destruct Hr as [-> Hr]. eapply wp_mono; [apply IH|].
  intros r s' w' (-> & bs2 & Hm2 & Hr2). split; [done|]. exists (bs ++ bs2).
  split; [by apply (moved_trans _ bs bs2 [] [] _ _ _ Hm Hm2)|]. destruct r as [got'|]; [|done].
  rewrite app_assoc. destruct Hr2 as [-> Hr2]. split; [done|]. intros Hl. by apply Hr2, Hr.
Qed.

(** What sending from [offset] guarantees. *)
Definition sent_ok (bytes : list Z) (offset : nat) (s : Socket) (w : OS) (r : result nat) (s' : Socket) (w' : OS) : Prop :=
  s' = s /\ exists bs, moved (fd_ s) [] bs w w' /\ (exists rest, drop offset bytes = bs ++ rest) /\
  match r with Ok off' => off' = (offset + length bs)%nat | Throw _ => True end.

Lemma drop_prefix (bytes bs rest : list Z) offset :
  drop offset bytes = bs ++ rest -> drop (offset + length bs) bytes = rest.
Proof. intros E. by rewrite Nat.add_comm, <- drop_drop, E, drop_app_length || rewrite <- drop_drop, E, drop_app_length. Qed.

Lemma sent_ok_trans bytes o s w bs w1 r s' w' :
  moved (fd_ s) [] bs w w1 -> (exists rest, drop o bytes = bs ++ rest) ->
  sent_ok bytes (o + length bs) s w1 r s' w' -> sent_ok bytes o s w r s' w'.
Proof.
  intros Hm [rest Hd] (-> & bs2 & Hm2 & (rest2 & Hd2) & Hr). split; [done|]. exists (bs ++ bs2). split_and!.
  - by apply (moved_trans _ [] [] bs bs2 _ _ _ Hm Hm2).
  - exists rest2. rewrite Hd, <- app_assoc. f_equal. by rewrite <- (drop_prefix _ _ _ _ Hd), Hd2.
  - destruct r; [|done]. rewrite length_app. lia.
Qed.

Lemma sent_ok_nil bytes o s w w' r : moved (fd_ s) [] [] w w' -> match r with Ok off' => off' = o | Throw _ => True end ->
  sent_ok bytes o s w r s w'.
Proof. intros Hm Hr. split; [done|]. exists []. split_and!; [done|by eexists|]. destruct r; [simpl; lia|done]. Qed.

Lemma wp_sendProgressOpt f bytes offset s w : wp (sendProgressOpt f bytes offset) s w (sent_ok bytes offset s w).
Proof.
  revert offset s w. induction f as [|f IH]; intros offset s w; [apply wp_no_return|]. cbn [sendProgressOpt].
  apply wp_bind. eapply wp_mono; [apply wp_call_send|]. intros r s' w1 (-> & bs & rest & Hd & Hm & Hr).
  destruct Hr as [(-> & Hne)|[-> [e ->]]].
  - apply wp_bind. eapply wp_mono; [apply wp_aborted|]. intros r s' w2 (-> & Hm2 & b & ->).
    pose proof (moved_nil_r _ _ _ _ _ _ Hm Hm2) as Hm3. destruct b.
    { apply wp_throw. split; [done|]. exists bs. eauto. }
    case_decide.
    + eapply wp_mono; [apply IH|]. intros r s' w' Hs. eapply sent_ok_trans; eauto.
    + apply wp_ret. split; [done|]. exists bs. eauto.
  - destruct (retryable e); [|apply wp_throw; by apply sent_ok_nil].
    apply wp_bind. eapply wp_mono; [apply wp_aborted|]. intros r s' w2 (-> & Hm2 & b & ->).
    pose proof (moved_nil_r _ _ _ _ _ _ Hm Hm2) as Hm3. destruct b; [apply wp_throw|apply wp_ret]; by apply sent_ok_nil.
Qed.

Lemma wp_sendProgress bytes offset s w : wp (sendProgress bytes offset) s w (sent_ok bytes offset s w).
Proof. apply wp_fuel. intros n. apply wp_sendProgressOpt. Qed.

Lemma wp_sendWait bytes offset s w :
  wp (sendWait bytes offset) s w (fun r s' w' => sent_ok bytes offset s w r s' w' /\
    match r with Ok off' => (length bytes <= off')%nat | Throw _ => True end).
Proof.
  apply wp_fuel. intros f. revert offset s w. induction f as [|f IH]; intros offset s w; cbn [sendWait_loop];
    (case_decide as Hd; [|apply wp_ret; split; [apply sent_ok_nil; [apply moved_refl|done]|lia]]); [apply wp_no_return|].
  apply wp_bind. eapply wp_mono; [apply wp_sendProgress|]. intros r s' w1 Hs. pose proof Hs as (-> & bs & Hm & Hp & Hr).
  destruct r as [o|e]; [|done]. subst o. eapply wp_mono; [apply IH|]. intros r s' w' [H1 H2]. split; [|done].
  by eapply sent_ok_trans.
Qed.

Lemma wp_require_ready s w :
  wp require_ready s w (fun r s' w' => s' = s /\ w' = w /\
    r = if decide (state_ s = SReady) then Ok tt else Throw (Err InternalError)).
Proof.
  apply wp_bind, wp_get. case_decide; [apply wp_ret|apply wp_throw]; done.
Qed.

Lemma wp_sendWait_all bytes s w :
  wp (sendWait bytes 0) s w (fun r s' w' => s' = s /\ exists bs, moved (fd_ s) [] bs w w' /\
    match r with Ok _ => bs = bytes | Throw _ => True end).
Proof.
  eapply wp_mono; [apply wp_sendWait|]. intros r s' w' ((-> & bs & Hm & (rest & Hd) & Hr) & Hl).
  split; [done|]. exists bs. split; [done|]. destruct r as [o|e]; [|done]. subst o.
  change (drop 0 bytes) with bytes in Hd. rewrite Hd, length_app in Hl. rewrite Hd.
  destruct rest; [by rewrite app_nil_r|simpl in Hl; lia].
Qed.

Lemma wp_send bytes s w :
  wp (send bytes) s w (fun r s' w' => s' = s /\ exists bs, moved (fd_ s) [] bs w w' /\
    match r with Ok _ => bs = bytes | Throw _ => True end).
Proof.
  apply wp_bind. eapply wp_mono; [apply wp_require_ready|]. intros r s1 w1 (-> & -> & ->).
  case_decide; [|split; [done|]; exists []; split; [apply moved_refl|done]].
  apply wp_bind. eapply wp_mono; [apply wp_sendWait_all|]. intros r s1 w1 (-> & bs & Hm & Hr).
  destruct r; [apply wp_ret|]; eauto.
Qed.

Lemma wp_recv size s w :
  wp (recv size) s w (fun r s' w' => s' = s /\ exists bs, moved (fd_ s) bs [] w w' /\
    match r with Ok got => got = bs /\ length got = size | Throw _ => True end).
Proof.
  apply wp_bind. eapply wp_mono; [apply wp_require_ready|]. intros r s1 w1 (-> & -> & ->).
  case_decide; [|split; [done|]; exists []; split; [apply moved_refl|done]].
  eapply wp_mono; [apply wp_recvWait|]. intros r s1 w1 (-> & bs & Hm & Hr). split; [done|]. exists bs. split; [done|].
  destruct r as [got|]; [|done]. destruct Hr as [-> Hr]. split; [done|]. apply Hr. simpl. lia.
Qed.

(** ** Properties: transfers *)

(** [send] and [recv] are exact however the kernel splits the transfer: when [send]
    returns, all its bytes have been accepted, in order and once; when [recv]
    returns, it has the next [size] bytes of the stream and has taken nothing else. *)
Theorem transfers_exact (s s' : Socket) (w w' : OS) :
  (forall bytes, send bytes s w = Some (Ok tt, s', w') ->
     s' = s /\ default [] (tx w' !! fd_ s) = default [] (tx w !! fd_ s) ++ bytes) /\
  (forall size got, recv size s w = Some (Ok got, s', w') ->
     s' = s /\ length got = size /\ default [] (rx w !! fd_ s) = got ++ default [] (rx w' !! fd_ s)).
Proof.
  split.
  - intros bytes Hs. destruct (wp_send _ _ _ _ _ _ Hs) as (-> & bs & Hm & ->). split; [done|].
    apply (mv_tx _ _ _ _ _ Hm).
  - intros size got Hs. destruct (wp_recv _ _ _ _ _ _ Hs) as (-> & bs & Hm & -> & Hl).
    split_and!; [done|done|apply (mv_rx _ _ _ _ _ Hm)].
Qed.

(** *** Receiving comes to an end *)

(** An answer that makes progress or asks to try again. *)
Definition serves (a : answer) : Prop :=
  match a with ABytes n => (0 < n)%nat | AErr e => retryable e = true | _ => False end.
Definition is_bytes (a : answer) : bool := match a with ABytes _ => true | _ => false end.
Definition transfers_left (l : list answer) : nat := length (filter (fun a => is_bytes a = true) l).

Lemma transfers_left_cons a l : transfers_left (a :: l) = ((if is_bytes a then 1 else 0) + transfers_left l)%nat.
Proof. unfold transfers_left. rewrite filter_cons. by destruct (is_bytes a). Qed.

(** The kernel will serve [n] more bytes on the socket's descriptor. *)
Record serving (n : nat) (s : Socket) (w : OS) : Prop := {
  sv_answers : Forall serves (os w);
  sv_enough : (n <= transfers_left (os w))%nat;
  sv_bytes : (n <= length (default [] (rx w !! fd_ s)))%nat
}.

Lemma call_recv_serves n s w : abortFlag_ s = false -> (0 < n)%nat -> serving n s w ->
  exists a l, os w = a :: l /\
  ((exists bs w', call_recv n s w = Some (Ok (TBytes bs), s, w') /\ os w' = l /\ bs <> [] /\ serving (n - length bs) s w') \/
   (exists e w', call_recv n s w = Some (Ok (TErr e), s, w') /\ retryable e = true /\ os w' = l /\ serving n s w')).
Proof.
  intros Ha Hn [H1 H2 H3]. destruct (os w) as [|a l] eqn:Eo; [unfold transfers_left in H2; simpl in H2; lia|].
  exists a, l. split; [done|]. apply Forall_cons in H1 as [Hs H1]. rewrite transfers_left_cons in H2.
  unfold call_recv, mbind, IO_bind, next. rewrite Eo. destruct a; try done; simpl in H2.
  - right. eexists e, _. split; [done|]. simpl. split; [done|]. split; [done|]. by split.
  - left. set (lr := default [] (rx w !! fd_ s)) in *. simpl in *. fold lr.
    destruct (take (Nat.min n0 n) lr) as [|b bs] eqn:Et.
    { apply (f_equal length) in Et. rewrite length_take in Et. simpl in Et. lia. }
    assert (Hlen : (length (b :: bs) <= n)%nat) by (rewrite <- Et, length_take; lia).
    eexists (b :: bs), _. split; [done|]. simpl. split; [done|]. split; [done|]. split; simpl; [done| |].
    + lia.
    + rewrite lookup_insert_eq. simpl. rewrite length_drop. simpl in Hlen. lia.
Qed.

Lemma recvProgressOpt_live f size got s w :
  abortFlag_ s = false -> (length got < size)%nat -> serving (size - length got) s w -> (length (os w) < f)%nat ->
  exists got' w', recvProgressOpt f size got s w = Some (Ok (got', false), s, w') /\
    (length (os w') < length (os w))%nat /\ serving (size - length got') s w'.
Proof.
  intros Ha. revert got w. induction f as [|f IH]; intros got w Hl Hs Hf; [lia|]. cbn [recvProgressOpt].
  destruct (call_recv_serves (size - length got) s w Ha ltac:(lia) Hs) as (a & l & Eo & Hr).
  assert (Hab : forall w, aborted s w = Some (Ok false, s, w)) by (intros; unfold aborted; by rewrite Ha).
  destruct Hr as [(bs & w1 & Ec & El & Hne & Hs1)|(e & w1 & Ec & He & El & Hs1)];
    unfold mbind, IO_bind; rewrite Ec.
  - rewrite Hab. rewrite <- Nat.sub_add_distr, <- length_app in Hs1.
    case_decide as Hd.
    + destruct (IH (got ++ bs) w1 Hd Hs1) as (got' & w' & E & Hlt & Hs'); [rewrite Eo in Hf; simpl in Hf; rewrite El; lia|].
      exists got', w'. split; [exact E|]. split; [rewrite Eo; simpl; rewrite El in Hlt; lia|done].
    + eexists _, w1. split; [done|]. rewrite Eo, El. simpl. split; [lia|done].
  - rewrite He, Hab. eexists _, w1. split; [done|]. rewrite Eo, El. simpl. split; [lia|done].
Qed.

Lemma recvWait_live size got s w :
  abortFlag_ s = false -> serving (size - length got) s w ->
  exists got' w', recvWait size got s w = Some (Ok got', s, w').
Proof.
  intros Ha Hs. unfold recvWait, with_fuel.
  assert (Hf : (length (os w) < S (length (os w)))%nat) by lia. revert Hf. generalize (S (length (os w))). intros f.
  revert got w Hs. induction f as [|f IH]; intros got w Hs Hf; [lia|]. cbn [recvWait_loop].
  case_decide as Hd; [|eexists _, w; done].
  destruct (recvProgressOpt_live (S (length (os w))) size got s w Ha Hd Hs ltac:(lia)) as (got1 & w1 & E & Hlt & Hs1).
  assert (Hp : recvProgress size got s w = Some (Ok got1, s, w1)).
  { unfold recvProgress, mbind, IO_bind, with_fuel. by rewrite E. }
  destruct (IH got1 w1 Hs1 ltac:(lia)) as (got' & w' & E'). exists got', w'. unfold mbind, IO_bind. by rewrite Hp.
Qed.

(** [recv] returns: whenever the kernel keeps serving - chunks of any size, with any
    number of interruptions and empty polls between them - and the peer's bytes
    are there, it ends with them. *)
Theorem recv_completes (s : Socket) (w : OS) (size : nat) :
  state_ s = SReady -> abortFlag_ s = false -> serving size s w ->
  exists got w', recv size s w = Some (Ok got, s, w') /\
    default [] (rx w !! fd_ s) = got ++ default [] (rx w' !! fd_ s) /\ length got = size.
Proof.
  intros Hr Ha Hs. destruct (recvWait_live size [] s w Ha) as (got & w' & E); [by rewrite Nat.sub_0_r|].
  assert (Hrecv : recv size s w = Some (Ok got, s, w')).
  { unfold recv, require_ready, mbind, IO_bind, get_sock. by rewrite decide_True. }
  exists got, w'. destruct (wp_recv _ _ _ _ _ _ Hrecv) as (_ & bs & Hm & -> & Hl).
  split_and!; [done|apply (mv_rx _ _ _ _ _ Hm)|done].
Qed.

(** [recvUntilEnd] may return early: an interruption, or an empty poll of a
    non-blocking socket, ends it as if everything had been received, with only the
    first part of the data and nothing that tells its caller so. *)
Theorem recv_until_end_short (s : Socket) (w : OS) (size k : nat) (e : errno) :
  state_ s = SReady -> abortFlag_ s = false -> (0 < k < size)%nat ->
  (size <= length (default [] (rx w !! fd_ s)))%nat -> e = EINTR \/ e = EAGAIN ->
  os w = [ABytes k; AErr e] ->
  exists w', recvUntilEnd size s w = Some (Ok (take k (default [] (rx w !! fd_ s)), false), s, w') /\
    (length (take k (default [] (rx w !! fd_ s))) < size)%nat.
Proof.
  intros Hr Ha Hk Hl He Ho. set (l := default [] (rx w !! fd_ s)) in *.
  assert (Hlen : length (take k l) = k) by (rewrite length_take; lia).
  assert (Hret : retryable e = true) by (apply bool_decide_eq_true_2; done).
  unfold recvUntilEnd, require_ready, with_fuel, mbind, IO_bind, get_sock. rewrite decide_True by done.
  unfold mret, IO_ret. rewrite Ho. cbn [length recvUntilEnd_loop]. unfold mbind, IO_bind, call_recv, mbind, IO_bind, next.
  rewrite Ho. cbn [rx fd_ os]. fold l. rewrite Nat.sub_0_r, Nat.min_l by lia.
  destruct (take k l) as [|b bs] eqn:Et; [simpl in Hlen; lia|]. simpl in Hlen.
  assert (Hab : forall w, aborted s w = Some (Ok false, s, w)) by (intros; unfold aborted; by rewrite Ha).
  rewrite Hab. cbn [app]. rewrite decide_True by (simpl; lia). unfold get_sock, mret, IO_ret. cbn [os].
  rewrite Hret. cbn [orb]. rewrite Hab. eexists. split; [done|]. simpl. lia.
Qed.

(** ** Lemmas: a socket owns its descriptor *)

Definition owned (fd : Z) : gset Z := if 0 <=? fd then {[fd]} else ∅.

(** States in which the socket has a descriptor. *)
Definition has_fd (st : SocketState) : bool :=
  match st with SAccepted | SConnectPolling | SConnected | SBound | SReady => true | _ => false end.
Definition lacks_fd (st : SocketState) : bool := match st with SAccepting | SClosed => true | _ => false end.

(** A well-formed socket over the descriptors [base] of others: what is open is [base]
    and the socket's own descriptor, which agrees with its state. *)
Record sock_wf (base : gset Z) (s : Socket) (w : OS) : Prop := {
  wf_open : openFds w = base ∪ owned (fd_ s);
  wf_fresh : 0 <= fd_ s -> fd_ s ∉ base;
  wf_has : has_fd (state_ s) = true -> 0 <= fd_ s;
  wf_lacks : lacks_fd (state_ s) = true -> fd_ s = -1
}.

(** [m] keeps the socket well-formed, whether it returns or throws. *)
Definition keeps (base : gset Z) {A} (m : IO A) : Prop :=
  forall s w, sock_wf base s w -> wp m s w (fun _ s' w' => sock_wf base s' w').

Section wf.
Context (base : gset Z).

Lemma keeps_bind {A B} (m : IO A) (k : A -> IO B) :
  keeps base m -> (forall a, keeps base (k a)) -> keeps base (m ≫= k).
Proof.
  intros Hm Hk s w Hs. apply wp_bind. eapply wp_mono; [by apply Hm|]. intros r s' w' Hs'.
  destruct r; [by apply Hk|done].
Qed.

Lemma keeps_ret {A} (a : A) : keeps base (mret a).
Proof. intros s w Hs. by apply wp_ret. Qed.
Lemma keeps_throw {A} e : keeps base (@throw A e).
Proof. intros s w Hs. by apply wp_throw. Qed.
Lemma keeps_no_return {A} : keeps base (@no_return A).
Proof. intros s w Hs. apply wp_no_return. Qed.
Lemma keeps_get : keeps base get_sock.
Proof. intros s w Hs. by apply wp_get. Qed.
Lemma keeps_fuel {A} (loop : nat -> IO A) : (forall n, keeps base (loop n)) -> keeps base (with_fuel loop).
Proof. intros Hn s w Hs. apply wp_fuel. intros n. by apply Hn. Qed.

(** Transfers leave the socket and the open descriptors alone. *)
Lemma keeps_moved {A} (m : IO A) :
  (forall s w, wp m s w (fun r s' w' => s' = s /\ exists i o, moved (fd_ s) i o w w')) -> keeps base m.
Proof.
  intros Hm s w [H1 H2 H3 H4]. eapply wp_mono; [apply Hm|]. intros r s' w' (-> & i & o & Hmv).
  split; try done. by rewrite (mv_open _ _ _ _ _ Hmv).
Qed.

Lemma wf_moved s w i o w1 : sock_wf base s w -> moved (fd_ s) i o w w1 -> sock_wf base s w1.
Proof. intros [H1 H2 H3 H4] Hm. split; try done. by rewrite (mv_open _ _ _ _ _ Hm). Qed.

Lemma keeps_next : keeps base next.
Proof. apply keeps_moved. intros s w. eapply wp_mono; [apply wp_next|]. intros r s' w' (-> & Hm & _). eauto. Qed.
Lemma keeps_aborted : keeps base aborted.
Proof. apply keeps_moved. intros s w. eapply wp_mono; [apply wp_aborted|]. intros r s' w' (-> & Hm & _). eauto. Qed.
Lemma keeps_timed_out t : keeps base (timed_out t).
Proof. apply keeps_moved. intros s w. eapply wp_mono; [apply wp_timed_out|]. intros r s' w' (-> & Hm & _). eauto. Qed.
Lemma keeps_recvProgress n got : keeps base (recvProgress n got).
Proof. apply keeps_moved. intros s w. eapply wp_mono; [apply wp_recvProgress|]. intros r s' w' (-> & bs & Hm & _). eauto. Qed.
Lemma keeps_recvWait n got : keeps base (recvWait n got).
Proof. apply keeps_moved. intros s w. eapply wp_mono; [apply wp_recvWait|]. intros r s' w' (-> & bs & Hm & _). eauto. Qed.
Lemma keeps_recv n : keeps base (recv n).
Proof. apply keeps_moved. intros s w. eapply wp_mono; [apply wp_recv|]. intros r s' w' (-> & bs & Hm & _). eauto. Qed.
Lemma keeps_sendProgress bytes o : keeps base (sendProgress bytes o).
Proof. apply keeps_moved. intros s w. eapply wp_mono; [apply wp_sendProgress|]. intros r s' w' (-> & bs & Hm & _). eauto. Qed.
Lemma keeps_sendWait bytes o : keeps base (sendWait bytes o).
Proof. apply keeps_moved. intros s w. eapply wp_mono; [apply wp_sendWait|]. intros r s' w' ((-> & bs & Hm & _) & _). eauto. Qed.
Lemma keeps_send bytes : keeps base (send bytes).
Proof. apply keeps_moved. intros s w. eapply wp_mono; [apply wp_send|]. intros r s' w' (-> & bs & Hm & _). eauto. Qed.
Lemma keeps_call_recv n : keeps base (call_recv n).
Proof. apply keeps_moved. intros s w. eapply wp_mono; [apply wp_call_recv|]. intros r s' w' (-> & bs & Hm & _). eauto. Qed.
Lemma keeps_call_status : keeps base call_status.
Proof. apply keeps_moved. intros s w. eapply wp_mono; [apply wp_call_status|]. intros r s' w' (-> & Hm & _). eauto. Qed.

Lemma keeps_recvUntilEnd n : keeps base (recvUntilEnd n).
Proof.
  apply keeps_bind.
  { apply keeps_bind; [apply keeps_get|]. intros s. case_decide; [apply keeps_ret|apply keeps_throw]. }
  intros _. apply keeps_fuel. intros f. generalize (@nil Z). induction f as [|f IH]; intros got; [apply keeps_no_return|].
  cbn [recvUntilEnd_loop]. apply keeps_bind; [apply keeps_call_recv|]. intros [bs| |e].
  - apply keeps_bind; [apply keeps_aborted|]. intros []; [apply keeps_throw|]. case_decide; [apply IH|apply keeps_ret].
  - apply keeps_ret.
  - apply keeps_bind; [apply keeps_get|]. intros s. destruct (_ || _); [|apply keeps_throw].
    apply keeps_bind; [apply keeps_aborted|]. intros []; [apply keeps_throw|apply keeps_ret].
Qed.

(** Descriptors made and closed. *)
Lemma wp_call_fd s w : wp call_fd s w (fun r s' w' => s' = s /\
  match r with
  | Ok (inr fd) => 0 <= fd /\ fd ∉ openFds w /\ openFds w' = {[fd]} ∪ openFds w /\
      tx w' !! fd = Some [] /\ exists inc, In (AFd fd inc) (os w) /\ rx w' !! fd = Some inc
  | Ok (inl _) => moved (fd_ s) [] [] w w'
  | Throw _ => False
  end /\ exists l, os w = l ++ os w').
Proof.
  apply wp_bind. eapply wp_mono; [apply wp_next|]. intros r s' w1 (-> & Hm & a & -> & Eo & E1 & E2 & E3).
  destruct a; try apply wp_no_return.
  - apply wp_ret. split_and!; [done|done|apply (mv_os _ _ _ _ _ Hm)].
  - intros r s' w' Hr. cbv beta zeta in Hr. case_bool_decide as Hb; [|done]. injection Hr as <- <- <-. simpl.
    destruct Hb as [Hf Hn]. rewrite E3 in Hn |- *. split; [done|].
    split; [|exists [AFd fd incoming]; by rewrite Eo]. rewrite !lookup_insert_eq.
    split_and!; try done. exists incoming. rewrite Eo. split; [by left|done].
Qed.

Lemma owned_neg : owned (-1) = ∅.
Proof. done. Qed.
Lemma owned_pos fd : 0 <= fd -> owned fd = {[fd]}.
Proof. intros Hf. unfold owned. by rewrite (proj2 (Z.leb_le 0 fd) Hf). Qed.

(** Changing the state to one that agrees with the descriptor. *)
Lemma wf_set_state s w st :
  sock_wf base s w -> (has_fd st = true -> 0 <= fd_ s) -> (lacks_fd st = true -> fd_ s = -1) ->
  wp (set_state st) s w (fun _ s' w' => sock_wf base s' w').
Proof. intros [H1 H2 _ _] H3 H4. apply wp_set. by split. Qed.

Lemma wf_close_fd s w st : sock_wf base s w -> 0 <= fd_ s -> lacks_fd st = true \/ st = SError ->
  forall s', state_ s' = st -> fd_ s' = -1 ->
  sock_wf base s' (mkOS (os w) (rx w) (tx w) (openFds w ∖ {[fd_ s]}) (aborts w) (timers w)).
Proof.
  intros [H1 H2 _ _] Hf Hst s' Es Ef. split.
  - simpl. rewrite H1, Ef, owned_neg, owned_pos by done. specialize (H2 Hf). set_solver.
  - rewrite Ef. lia.
  - rewrite Es. destruct Hst as [Hst| ->]; [by destruct st|done].
  - by rewrite Ef.
Qed.

Lemma wf_open_fd s w fd s' w' :
  sock_wf base s w -> fd_ s = -1 -> 0 <= fd -> fd ∉ openFds w -> openFds w' = {[fd]} ∪ openFds w ->
  fd_ s' = fd -> lacks_fd (state_ s') = false -> sock_wf base s' w'.
Proof.
  intros [H1 _ _ _] Hs Hf Hn Ho Es Hl. rewrite H1, Hs, owned_neg in *. split.
  - rewrite Ho, Es, owned_pos by done. set_solver.
  - rewrite Es. set_solver.
  - intros _. by rewrite Es.
  - by rewrite Hl.
Qed.
End wf.

Section operations.
Context (base : gset Z).

(** Before [tryAccept] the socket has no descriptor of its own. *)
Lemma wf_tryAccept s w : state_ s = SAccepting -> openFds w = base ->
  wp tryAccept s w (fun _ s' w' => sock_wf base s' w').
Proof.
  intros Hst Ho. apply wp_bind. eapply wp_mono; [apply wp_call_fd|]. intros r s' w1 (-> & Hr & _).
  destruct r as [[e|fd]|]; [| |done].
  - apply wp_bind, wp_set. set (s1 := mkSocket _ _ _ _ _ _ _ _ _ _).
    assert (Hwf : forall s2, state_ s2 = SAccepting -> fd_ s2 = -1 -> sock_wf base s2 w1).
    { intros s2 E1 E2. split; rewrite ?E1, ?E2; try done. rewrite (mv_open _ _ _ _ _ Hr), Ho, owned_neg. set_solver. }
    case_decide; [apply wp_set|apply wp_throw]; by apply Hwf.
  - destruct Hr as (Hf & Hn & E & _). apply wp_bind, wp_set, wp_set. split; simpl; try done.
    + rewrite E, Ho, owned_pos by done. set_solver.
    + rewrite <- Ho. done.
Qed.

Lemma wf_closed_again s w st : sock_wf base s w -> 0 <= fd_ s -> lacks_fd st = true \/ st = SError ->
  wp (_ ← close_fd; set_state st) s w (fun _ s' w' => sock_wf base s' w').
Proof.
  intros Hs Hf Hst. apply wp_bind. unfold close_fd. apply wp_bind.
  intros r s' w' [= <- <- <-]. apply wp_set, wp_set. by eapply wf_close_fd.
Qed.

Lemma wf_finalizeAccept s w : sock_wf base s w -> state_ s = SAccepted ->
  wp finalizeAccept s w (fun _ s' w' => sock_wf base s' w').
Proof.
  intros Hs Hst. pose proof (wf_has _ _ _ Hs) as Hf. rewrite Hst in Hf. specialize (Hf eq_refl).
  assert (Hkeep : forall i o w1, moved (fd_ s) i o w w1 -> sock_wf base s w1).
  { intros i o w1 Hm. by eapply wf_moved. }
  apply wp_bind. eapply wp_mono; [apply wp_recvProgress|]. intros r s' w1 (-> & b1 & M1 & Hr).
  destruct r as [got|e]; [|by eapply Hkeep]. case_decide; [apply wp_ret; by eapply Hkeep|].
  apply wp_bind. eapply wp_mono; [apply wp_recvWait|]. intros r s' w2 (-> & b2 & M2 & _).
  pose proof (moved_trans _ _ _ _ _ _ _ _ M1 M2) as M12. destruct r as [got2|e]; [|by eapply Hkeep].
  apply wp_bind, wp_get. destruct (negb _).
  { apply wf_closed_again; [by eapply Hkeep|done|by left]. }
  apply wp_bind. eapply wp_mono; [apply wp_recvWait|]. intros r s' w3 (-> & b3 & M3 & _).
  pose proof (moved_trans _ _ _ _ _ _ _ _ M12 M3) as M13. destruct r as [ty|e]; [|by eapply Hkeep].
  destruct (negb _); [|apply wf_set_state; [by eapply Hkeep|done|done]].
  apply wp_bind, wp_set. apply wp_bind. unfold close_fd. apply wp_bind.
  intros r s' w' [= <- <- <-]. apply wp_set, wp_throw. eapply (wf_close_fd base s w3 SError); [by eapply Hkeep|done|by right|done|done].
Qed.

Lemma wf_startConnect s w : sock_wf base s w -> wp startConnect s w (fun _ s' w' => sock_wf base s' w').
Proof.
  intros Hs. apply wp_bind. eapply wp_mono; [apply wp_call_status|]. intros r s' w1 (-> & Hm & e & -> & He).
  pose proof (wf_moved base _ _ _ _ _ Hs Hm) as Hs1.
  destruct e as [e|]; [|apply wf_set_state; [done|intros _; by apply He|done]].
  destruct (decide (e = EINPROGRESS)) as [->|]; [apply wf_set_state; [done|intros _; by apply He|done]|].
  case_decide; [apply wp_set; by destruct Hs1|].
  apply wp_bind. eapply wp_mono; [by apply (wf_set_state base)|]. intros r s' w2 Hs2.
  destruct r; [by apply wp_throw|done].
Qed.

Lemma wf_pollConnect s w : sock_wf base s w -> state_ s = SConnectPolling ->
  wp pollConnect s w (fun _ s' w' => sock_wf base s' w').
Proof.
  intros Hs Hst. pose proof (wf_has _ _ _ Hs) as Hf. rewrite Hst in Hf. specialize (Hf eq_refl).
  assert (Hkeep : forall w1, moved (fd_ s) [] [] w w1 -> sock_wf base s w1).
  { intros w1 Hm. by eapply wf_moved. }
  apply wp_bind. eapply wp_mono; [apply wp_next|]. intros r s' w1 (-> & M1 & a & -> & _).
  destruct a as [|e| | | | |out|]; try apply wp_no_return; [apply wp_ret; by apply Hkeep|apply wp_throw; by apply Hkeep|].
  destruct out; [|apply wp_throw; by apply Hkeep].
  apply wp_bind. eapply wp_mono; [apply wp_next|]. intros r s' w2 (-> & M2 & b & -> & _).
  pose proof (moved_nil_l _ _ _ _ _ _ M1 M2) as M12.
  destruct b as [|e| | | | | |[e|]]; try apply wp_no_return; [apply wp_throw; by apply Hkeep| |].
  - case_decide as Hd.
    + apply wp_bind, wp_set. apply wp_bind. intros r s' w3 [= <- <- <-].
      apply wp_bind. eapply wp_mono; [apply wp_call_fd|]. intros r s' w4 (-> & Hr & _).
      set (w3 := mkOS _ _ _ _ _ _) in Hr. set (s3 := mkSocket _ _ _ _ _ _ _ _ _ _) in Hr.
      assert (H3 : openFds w3 = base).
      { unfold w3, s3. simpl. rewrite (wf_open _ _ _ (Hkeep _ M12)), owned_pos by done.
        pose proof (wf_fresh _ _ _ Hs Hf). set_solver. }
      destruct r as [[e'|fd]|]; [| |done]; apply wp_bind, wp_set, wp_set.
      * split; simpl; try done. rewrite (mv_open _ _ _ _ _ Hr), H3, owned_neg. set_solver.
      * destruct Hr as (H5 & H6 & H7 & _). split; simpl; try done.
        -- rewrite H7, H3, owned_pos by done. set_solver.
        -- by rewrite <- H3.
    + case_decide; [apply wp_ret; by apply Hkeep|]. apply wp_bind.
      eapply wp_mono; [by apply (wf_set_state base); [apply Hkeep| |]|]. intros r s' w3 Hs3. destruct r; [by apply wp_throw|done].
  - apply wf_set_state; [by apply Hkeep|done|done].
Qed.

Lemma wf_finalizeConnect s w : sock_wf base s w -> state_ s = SConnected ->
  wp finalizeConnect s w (fun _ s' w' => sock_wf base s' w').
Proof.
  intros Hs Hst. pose proof (wf_has _ _ _ Hs) as Hf. rewrite Hst in Hf. specialize (Hf eq_refl).
  assert (Hkeep : forall o w1, moved (fd_ s) [] o w w1 -> sock_wf base s w1).
  { intros o w1 Hm. by eapply wf_moved. }
  apply wp_bind, wp_get. apply wp_bind. eapply wp_mono; [apply wp_sendProgress|].
  intros r s' w1 (-> & b1 & M1 & _). destruct r as [n|e]; [|by eapply Hkeep].
  case_decide; [apply wp_ret; by eapply Hkeep|].
  apply wp_bind. eapply wp_mono; [apply wp_sendWait|]. intros r s' w2 ((-> & b2 & M2 & _) & _).
  pose proof (moved_trans _ _ _ _ _ _ _ _ M1 M2) as M12. destruct r as [n2|e]; [|by eapply Hkeep].
  apply wp_bind. eapply wp_mono; [apply wp_sendWait|]. intros r s' w3 ((-> & b3 & M3 & _) & _).
  pose proof (moved_trans _ _ _ _ _ _ _ _ M12 M3) as M13. destruct r as [n3|e]; [|by eapply Hkeep].
  apply wf_set_state; [by eapply Hkeep|done|done].
Qed.

Lemma wf_when st m s w :
  sock_wf base s w -> (state_ s = st -> wp m s w (fun _ s' w' => sock_wf base s' w')) ->
  wp (when_state st m) s w (fun _ s' w' => sock_wf base s' w').
Proof. intros Hs Hm. apply wp_bind, wp_get. case_decide; [by apply Hm|by apply wp_ret]. Qed.

(** One round keeps the socket well-formed, also the first one of [accept]. *)
Lemma wf_progressState s w :
  sock_wf base s w \/ (state_ s = SAccepting /\ openFds w = base) ->
  wp progressState s w (fun _ s' w' => sock_wf base s' w').
Proof.
  intros Hs. apply wp_bind. eapply wp_mono with (Q := fun _ s' w' => sock_wf base s' w').
  { destruct Hs as [Hs|[Hst Ho]].
    - apply wf_when; [done|]. intros Hst. apply wf_tryAccept; [done|]. rewrite (wf_open _ _ _ Hs).
      rewrite (wf_lacks _ _ _ Hs) by (by rewrite Hst). rewrite owned_neg. set_solver.
    - apply wp_bind, wp_get. rewrite decide_True by done. by apply wf_tryAccept. }
  clear s w Hs. intros r s w Hs. destruct r; [|done].
  assert (Hstep : forall st (m k : IO ()), (forall s w, sock_wf base s w -> state_ s = st -> wp m s w (fun _ s' w' => sock_wf base s' w')) ->
    (forall s w, sock_wf base s w -> wp k s w (fun _ s' w' => sock_wf base s' w')) ->
    forall s w, sock_wf base s w -> wp (_ ← when_state st m; k) s w (fun _ s' w' => sock_wf base s' w')).
  { clear. intros st m k Hm Hk s w Hs. apply wp_bind. eapply wp_mono; [apply wf_when; [done|by apply Hm]|].
    intros r s' w' Hs'. destruct r; [by apply Hk|done]. }
  apply Hstep; [apply wf_finalizeAccept| |done]. clear s w Hs. intros s w Hs.
  apply Hstep; [by intros; apply wf_startConnect| |done]. clear s w Hs. intros s w Hs.
  apply Hstep; [apply wf_pollConnect| |done]. clear s w Hs. intros s w Hs.
  apply wf_when; [done|]. by apply wf_finalizeConnect.
Qed.

Lemma wf_progress_loop f t states s w :
  sock_wf base s w \/ (state_ s = SAccepting /\ openFds w = base) ->
  wp (progress_loop f t states) s w (fun _ s' w' => sock_wf base s' w').
Proof.
  revert s w. induction f as [|f IH]; intros s w Hs; [apply wp_no_return|]. cbn [progress_loop].
  apply wp_bind. eapply wp_mono; [by apply wf_progressState|]. clear s w Hs. intros r s w Hs. destruct r; [|done].
  apply wp_bind. eapply wp_mono; [by apply (keeps_timed_out base)|]. clear s w Hs. intros r s w Hs. destruct r as [t'|]; [|done].
  destruct t'; [by apply wp_throw|]. apply wp_bind, wp_get. destruct (asyncFlag_ s); [by apply wp_ret|].
  apply wp_bind. eapply wp_mono; [by apply (keeps_aborted base)|]. intros r s' w' Hs'. destruct r as [ab|]; [|done].
  destruct ab; [by apply wp_ret|]. case_decide; [apply IH; by left|by apply wp_ret].
Qed.

Lemma keeps_check_aborted : keeps base check_aborted.
Proof. apply keeps_bind; [apply keeps_aborted|]. intros []; [apply keeps_throw|apply keeps_ret]. Qed.

Lemma wf_connect t s w : sock_wf base s w -> wp (connect t) s w (fun _ s' w' => sock_wf base s' w').
Proof.
  intros Hs. apply wp_bind, wp_get. case_match; [by apply wp_throw|].
  case_decide; [|case_decide; by apply wp_throw].
  apply wp_bind. eapply wp_mono; [by apply (keeps_call_status base)|]. clear H H0. intros r s' w' Hs'.
  destruct r as [r|]; [|done]. destruct r; [by apply wp_throw|].
  apply wp_bind. eapply wp_mono; [by apply (wf_set_state base)|]. clear s w Hs s' w' Hs'. intros r s w Hs. destruct r; [|done].
  apply wp_bind, wp_fuel. intros f. eapply wp_mono; [apply wf_progress_loop; by left|].
  intros r s' w' Hs'. destruct r; [by apply keeps_check_aborted|done].
Qed.

(** [accept] on a socket made without an address, or used for [accept] before. *)
Lemma wf_accept l t s w : sock_wf base s w -> acceptFd_ s <> -1 \/ fd_ s = -1 ->
  wp (accept l t) s w (fun _ s' w' => sock_wf base s' w').
Proof.
  intros Hs Ha. destruct l as [l|]; [|by apply wp_throw]. cbn [accept]. case_decide; [|by apply wp_throw].
  apply wp_bind, wp_get. apply wp_bind.
  assert (Hgo : forall s1, sock_wf base s1 w \/ (state_ s1 = SAccepting /\ openFds w = base) ->
    wp (_ ← with_fuel (fun f => progress_loop f t [SAccepting; SAccepted]); check_aborted) s1 w
      (fun _ s' w' => sock_wf base s' w')).
  { intros s1 H1. apply wp_bind, wp_fuel. intros f. eapply wp_mono; [by apply wf_progress_loop|].
    intros r s' w' Hs'. destruct r; [by apply keeps_check_aborted|done]. }
  destruct (Z.eqb_spec (acceptFd_ s) (-1)) as [E|E].
  - apply wp_set, Hgo. right. split; [done|]. rewrite (wf_open _ _ _ Hs). destruct Ha as [?| ->]; [done|].
    rewrite owned_neg. set_solver.
  - apply wp_ret, Hgo. by left.
Qed.

Lemma wp_bind_loop n s w : sock_wf base s w ->
  wp (bind_loop n) s w (fun r s' w' => sock_wf base s' w' /\ s' = s /\ (r = Ok tt -> 0 <= fd_ s)).
Proof.
  revert w. induction n as [|n IH]; intros w Hs; cbn [bind_loop]; apply wp_bind;
    (eapply wp_mono; [apply wp_call_status|]); intros r s' w1 (-> & Hm & e & -> & He);
    pose proof (wf_moved base _ _ _ _ _ Hs Hm) as Hs1; destruct e as [e|]; try (apply wp_ret; eauto; fail);
    (case_decide; [|by apply wp_throw]); [by apply wp_throw|by apply IH].
Qed.

Lemma wf_bind t s w : sock_wf base s w -> wp (bind t) s w (fun _ s' w' => sock_wf base s' w').
Proof.
  intros Hs. apply wp_bind, wp_get. destruct (fd_ s =? -1); [by apply wp_throw|].
  apply wp_bind. eapply wp_mono with (Q := fun _ s' w' => sock_wf base s' w').
  { destruct (_ =? 0); [by apply wp_ret|]. apply keeps_bind; [apply keeps_call_status| |done].
    intros [e|]; [apply keeps_throw|apply keeps_ret]. }
  clear s w Hs. intros r s w Hs. destruct r; [|done]. destruct t as [t|]; [|by apply wp_throw].
  apply wp_bind. eapply wp_mono; [by apply wp_bind_loop|]. intros r s' w1 (Hs1 & -> & Hf).
  destruct r as [[]|]; [|done]. specialize (Hf eq_refl).
  apply wp_bind. eapply wp_mono; [apply wp_next|]. intros r s' w2 (-> & Hm & ans & -> & _).
  pose proof (wf_moved base _ _ _ _ _ Hs1 Hm) as Hs2.
  destruct ans; try apply wp_no_return; [by apply wp_throw|]. apply wp_bind, wp_set.
  destruct Hs2 as [H1 H2 H3 H4]. apply wp_set. by split.
Qed.

Lemma wf_bindAndListen t s w : sock_wf base s w -> wp (bindAndListen t) s w (fun _ s' w' => sock_wf base s' w').
Proof.
  intros Hs. apply wp_bind. eapply wp_mono; [by apply wf_bind|]. clear s w Hs. intros r s w Hs. destruct r; [|done].
  apply wp_bind. eapply wp_mono; [apply wp_call_status|]. intros r s' w1 (-> & Hm & e & -> & He).
  pose proof (wf_moved base _ _ _ _ _ Hs Hm) as Hs1.
  destruct e; [by apply wp_throw|]. apply wf_set_state; [done|intros _; by apply He|done].
Qed.

Lemma wf_close s w : sock_wf base s w ->
  wp close s w (fun r s' w' => sock_wf base s' w' /\ openFds w' = base).
Proof.
  intros Hs. apply wp_bind, wp_get. apply wp_bind.
  destruct (Z.leb_spec 0 (fd_ s)) as [Hf|Hf].
  - intros r s' w' [= <- <- <-]. apply wp_bind, wp_set, wp_set. split.
    + by eapply (wf_close_fd base s w SClosed); [done|done|by left|..].
    + simpl. rewrite (wf_open _ _ _ Hs), owned_pos by done. pose proof (wf_fresh _ _ _ Hs Hf). set_solver.
  - apply wp_ret, wp_bind, wp_set, wp_set. assert (Ho : openFds w = base).
    { rewrite (wf_open _ _ _ Hs). unfold owned. rewrite (proj2 (Z.leb_gt 0 (fd_ s)) Hf). set_solver. }
    split; [|done]. split; simpl; try done. rewrite owned_neg. set_solver.
Qed.

Lemma wf_construct addr s w : sock_wf base s w -> fd_ s = -1 -> state_ s = SInitialized ->
  wp (Socket_construct addr) s w (fun _ s' w' => sock_wf base s' w').
Proof.
  intros Hs Hf Hst. apply wp_bind. eapply wp_mono with (Q := fun _ s' w' => sock_wf base s' w').
  { destruct addr as [a|]; [|by apply wp_ret]. case_decide; [by apply wp_throw|].
    apply wp_bind. eapply wp_mono; [apply wp_call_fd|]. intros r s' w1 (-> & Hr & _).
    destruct r as [[e|fd]|]; [| |done].
    - apply wp_throw. by eapply wf_moved.
    - destruct Hr as (H1 & H2 & H3 & _). apply wp_set. eapply wf_open_fd; try done. simpl. by rewrite Hst. }
  clear s w Hs Hf Hst. intros r s w Hs. destruct r; [|done]. apply wp_bind, wp_get. destruct (_ && _); [|by apply wp_ret].
  apply (keeps_bind base); [apply keeps_call_status| |done]. intros [e|]; [apply keeps_throw|].
  apply keeps_bind; [apply keeps_call_status|]. intros [e|]; [apply keeps_throw|apply keeps_ret].
Qed.
End operations.

(** ** Properties: sockets and descriptors *)

(** The operations of a socket. *)
Inductive op :=
  | OConstruct (addr : option SocketAddress) | OBind (finTimeout : option Z) | OListen (finTimeout : option Z)
  | OConnect (timeout : Z) | OAccept (l : option Socket) (timeout : Z)
  | OSend (bytes : list Z) | ORecv (size : nat) | ORecvUntilEnd (size : nat) | OClose.

Definition perform (o : op) : IO () :=
  match o with
  | OConstruct addr => Socket_construct addr
  | OBind t => bind t
  | OListen t => bindAndListen t
  | OConnect t => connect t
  | OAccept l t => accept l t
  | OSend bytes => send bytes
  | ORecv size => _ ← recv size; mret tt
  | ORecvUntilEnd size => _ ← recvUntilEnd size; mret tt
  | OClose => close
  end.

(** A constructor runs once, and [accept] on a socket without a descriptor or one that
    [accept] made. *)
Definition allowed (o : op) (s : Socket) : Prop :=
  match o with
  | OConstruct _ => fd_ s = -1 /\ state_ s = SInitialized
  | OAccept _ _ => acceptFd_ s <> -1 \/ fd_ s = -1
  | _ => True
  end.

(** Any sequence of operations, each returning or throwing, with other things done to
    the system in between that leave the open descriptors alone. *)
Inductive sock_reach (base : gset Z) : Socket -> OS -> Prop :=
  | reach_new magic type ab async addr w :
      openFds w = base -> sock_reach base (Socket_init magic type ab async addr) w
  | reach_op s w o r s' w' :
      sock_reach base s w -> allowed o s -> perform o s w = Some (r, s', w') -> sock_reach base s' w'
  | reach_env s w w' : sock_reach base s w -> openFds w' = openFds w -> sock_reach base s w'.

(** a socket stays well-formed: after any sequence of operations, whatever the system
    answers and whichever of them throw, the descriptor agrees with the state, what
    is open is what was open before and at most this one descriptor, and closing the
    socket leaves nothing open. *)
Theorem socket_well_formed (base : gset Z) (s : Socket) (w : OS) :
  sock_reach base s w ->
  sock_wf base s w /\
  forall r s' w', close s w = Some (r, s', w') -> state_ s' = SClosed /\ openFds w' = base.
Proof.
  intros Hr. assert (Hwf : sock_wf base s w).
  { induction Hr as [magic type ab async addr w Ho|s w o r s' w' _ IH Ha Hp|s w w' _ IH Ho].
    - split; simpl; try done. rewrite Ho, owned_neg. set_solver.
    - revert Hp. revert r s' w'. change (wp (perform o) s w (fun _ s' w' => sock_wf base s' w')).
      destruct o; simpl in Ha |- *.
      + destruct Ha. by apply wf_construct.
      + by apply wf_bind.
      + by apply wf_bindAndListen.
      + by apply wf_connect.
      + by apply wf_accept.
      + by apply keeps_send.
      + apply (keeps_bind base); [apply keeps_recv|intros; apply keeps_ret|done].
      + apply (keeps_bind base); [apply keeps_recvUntilEnd|intros; apply keeps_ret|done].
      + eapply wp_mono; [by apply wf_close|]. by intros r s' w' [? _].
    - destruct IH as [H1 H2 H3 H4]. split; try done. by rewrite Ho. }
  split; [done|]. intros r s' w' Hc. pose proof (wf_close base s w Hwf _ _ _ Hc) as [_ Ho]. split; [|done].
  revert Hc. unfold close, mbind, IO_bind, get_sock, set_state, set_fd, set_sock, call_close, mret, IO_ret.
  destruct (0 <=? fd_ s); by intros [= <- <- <-].
Qed.

Definition demo_addr : SocketAddress := mkAddr AF_INET 4000 [127; 0; 0; 1].
Definition demo_connect_os : OS := mkOS [AFd 5 [9; 8; 7]; AOk; AErr EINPROGRESS; APoll true; ASoError None; ABytes 3; ABytes 9; ABytes 4]
  ∅ ∅ ∅ [] [].
Definition ret_of {A} (x : option (result A * Socket * OS)) : bool := match x with Some (Ok _, _, _) => true | _ => false end.
Lemma ret_of_true {A} (x : option (result A * Socket * OS)) :
  ret_of x = true -> exists a s w, x = Some (Ok a, s, w).
Proof. destruct x as [[[[a|e] s] w]|]; [eauto|done|done]. Qed.

(** A socket that is made, connects and sends. *)
Lemma socket_well_formed_witness :
  exists s w, sock_reach ∅ s w /\ state_ s = SReady /\ fd_ s = 5 /\
    sock_wf ∅ s w /\ forall r s' w', close s w = Some (r, s', w') -> state_ s' = SClosed /\ openFds w' = ∅.
Proof.
  set (s0 := Socket_init 77 1 false false demo_addr).
  assert (H1 : sock_reach ∅ s0 demo_connect_os) by by apply reach_new.
  destruct (Socket_construct (Some demo_addr) s0 demo_connect_os) as [[[r1 s1] w1]|] eqn:E1; [|by vm_compute in E1].
  assert (H2 : sock_reach ∅ s1 w1) by by apply (reach_op ∅ s0 demo_connect_os (OConstruct (Some demo_addr)) r1).
  vm_compute in E1. injection E1 as <- <- <-.
  match type of H2 with sock_reach _ ?s ?w => set (s1 := s) in *; set (w1 := w) in * end.
  destruct (connect 0 s1 w1) as [[[r2 s2] w2]|] eqn:E2; [|by vm_compute in E2].
  assert (H3 : sock_reach ∅ s2 w2) by by apply (reach_op ∅ s1 w1 (OConnect 0) r2).
  vm_compute in E2. injection E2 as <- <- <-.
  match type of H3 with sock_reach _ ?s ?w => exists s, w end.
  split; [exact H3|]. split; [reflexivity|]. split; [reflexivity|]. exact (socket_well_formed _ _ _ H3).
Defined.

(** ** Lemmas: the handshake *)

(** [I] holds when the computation returns without an exception. *)
Definition okp {A} (I : Socket -> OS -> Prop) : result A -> Socket -> OS -> Prop :=
  fun r s w => match r with Ok _ => I s w | Throw _ => True end.

(** Loops of rounds keep what one round keeps. *)
Section rounds.
Context (I : Socket -> OS -> Prop).
Hypothesis I_moved : forall s w w', I s w -> moved (fd_ s) [] [] w w' -> I s w'.

Lemma ok_aborted s w : I s w -> wp aborted s w (okp I).
Proof. intros Hs. eapply wp_mono; [apply wp_aborted|]. intros r s' w' (-> & Hm & b & ->). by eapply I_moved. Qed.
Lemma ok_timed_out t s w : I s w -> wp (timed_out t) s w (okp I).
Proof. intros Hs. eapply wp_mono; [apply wp_timed_out|]. intros r s' w' (-> & Hm & b & ->). by eapply I_moved. Qed.
Lemma ok_check_aborted s w : I s w -> wp check_aborted s w (okp I).
Proof.
  intros Hs. apply wp_bind. eapply wp_mono; [by apply ok_aborted|]. intros r s' w' Hs'. destruct r as [ab|]; [|done].
  destruct ab; [by apply wp_throw|by apply wp_ret].
Qed.

Lemma ok_when st m s w :
  (state_ s = st -> wp m s w (okp I)) -> I s w -> wp (when_state st m) s w (okp I).
Proof. intros Hm Hs. apply wp_bind, wp_get. case_decide; [by apply Hm|by apply wp_ret]. Qed.

Lemma ok_seq (m k : IO ()) s w :
  wp m s w (okp I) -> (forall s w, I s w -> wp k s w (okp I)) -> wp (_ ← m; k) s w (okp I).
Proof. intros Hm Hk. apply wp_bind. eapply wp_mono; [done|]. intros r s' w' Hs'. destruct r; [by apply Hk|done]. Qed.

Lemma ok_progressState s w :
  (forall s w, I s w -> state_ s = SAccepting -> wp tryAccept s w (okp I)) ->
  (forall s w, I s w -> state_ s = SAccepted -> wp finalizeAccept s w (okp I)) ->
  (forall s w, I s w -> state_ s = SConnecting -> wp startConnect s w (okp I)) ->
  (forall s w, I s w -> state_ s = SConnectPolling -> wp pollConnect s w (okp I)) ->
  (forall s w, I s w -> state_ s = SConnected -> wp finalizeConnect s w (okp I)) ->
  I s w -> wp progressState s w (okp I).
Proof.
  intros H1 H2 H3 H4 H5 Hs.
  apply ok_seq; [apply ok_when; [by apply H1|done]|]. clear s w Hs. intros s w Hs.
  apply ok_seq; [apply ok_when; [by apply H2|done]|]. clear s w Hs. intros s w Hs.
  apply ok_seq; [apply ok_when; [by apply H3|done]|]. clear s w Hs. intros s w Hs.
  apply ok_seq; [apply ok_when; [by apply H4|done]|]. clear s w Hs. intros s w Hs.
  apply ok_when; [by apply H5|done].
Qed.

Lemma ok_progress_loop f t states :
  (forall s w, I s w -> wp progressState s w (okp I)) ->
  forall s w, I s w -> wp (progress_loop f t states) s w (okp I).
Proof.
  intros Hp. induction f as [|f IH]; intros s w Hs; [apply wp_no_return|]. cbn [progress_loop].
  apply wp_bind. eapply wp_mono; [by apply Hp|]. clear s w Hs. intros r s w Hs. destruct r; [|done].
  apply wp_bind. eapply wp_mono; [by apply ok_timed_out|]. clear s w Hs. intros r s w Hs. destruct r as [t'|]; [|done].
  destruct t'; [by apply wp_throw|]. apply wp_bind, wp_get. destruct (asyncFlag_ s); [by apply wp_ret|].
  apply wp_bind. eapply wp_mono; [apply wp_aborted|]. intros r s' w' (-> & Hm & ab & ->).
  pose proof (I_moved _ _ _ Hs Hm). destruct ab; [by apply wp_ret|]. case_decide; [by apply IH|by apply wp_ret].
Qed.
End rounds.

(** The end of a handshake on the accepting side: what came in on an accepted
    descriptor began with the magic number and the type. *)
Definition greeted (O : list answer) (magic type : Z) (s : Socket) (w : OS) : Prop :=
  exists inc, In (AFd (fd_ s) inc) O /\ le_val (take MAGIC_SIZE inc) = magic /\
    le_val (take TYPE_SIZE (drop MAGIC_SIZE inc)) = type /\
    default [] (rx w !! fd_ s) = drop (MAGIC_SIZE + TYPE_SIZE) inc.

(** While accepting; [O] is all the system will answer. *)
Record accepting (O : list answer) (magic type : Z) (s : Socket) (w : OS) : Prop := {
  ac_magic : magic_ s = magic;
  ac_type : type_ s = type;
  ac_os : exists l, O = l ++ os w;
  ac_state : match state_ s with
             | SAccepting => True
             | SAccepted => exists inc, In (AFd (fd_ s) inc) O /\ default [] (rx w !! fd_ s) = inc
             | SReady => greeted O magic type s w
             | _ => False
             end
}.

Lemma suffix_moved {X} (O l1 l2 : list X) : (exists l, O = l ++ l1) -> (exists l, l1 = l ++ l2) -> exists l, O = l ++ l2.
Proof. intros [a ->] [b ->]. exists (a ++ b). by rewrite app_assoc. Qed.

Lemma accepting_moved O m t s w w' : accepting O m t s w -> moved (fd_ s) [] [] w w' -> accepting O m t s w'.
Proof.
  intros [H1 H2 H3 H4] Hm. pose proof (mv_rx _ _ _ _ _ Hm) as E. simpl in E.
  split; [done|done|by eapply suffix_moved, mv_os|]. unfold greeted in *. by rewrite <- E.
Qed.

Lemma accepting_tryAccept O m t s w : accepting O m t s w -> state_ s = SAccepting -> wp tryAccept s w (okp (accepting O m t)).
Proof.
  intros [H1 H2 H3 _] Hst. apply wp_bind. eapply wp_mono; [apply wp_call_fd|]. intros r s' w1 (-> & Hr & Hos).
  pose proof (suffix_moved _ _ _ H3 Hos) as Hos1. destruct r as [[e|fd]|]; [| |done].
  - apply wp_bind, wp_set. case_decide; [|by apply wp_throw]. apply wp_set. split; simpl; try done. by rewrite Hst.
  - destruct Hr as (_ & _ & _ & _ & inc & Hin & E). apply wp_bind, wp_set, wp_set. split; simpl; try done.
    exists inc. split; [|by rewrite E]. destruct H3 as [l ->]. apply in_or_app. by right.
Qed.

Lemma greeted_split (O : list answer) m t s w (b1 b2 : list Z) :
  In (AFd (fd_ s) (b1 ++ b2 ++ default [] (rx w !! fd_ s))) O -> length b1 = MAGIC_SIZE -> length b2 = TYPE_SIZE ->
  le_val b1 = m -> le_val b2 = t -> greeted O m t s w.
Proof.
  intros Hin L1 L2 E1 E2. eexists. split; [exact Hin|].
  rewrite take_app_length' by done. rewrite drop_app_length' by done. rewrite take_app_length' by done.
  split_and!; [done|done|]. rewrite app_assoc, drop_app_length'; [done|]. rewrite length_app, L1, L2. done.
Qed.

Lemma accepting_finalizeAccept O m t s w :
  accepting O m t s w -> state_ s = SAccepted -> wp finalizeAccept s w (okp (accepting O m t)).
Proof.
  intros Hs Hst. pose proof Hs as [H1 H2 H3 H4]. rewrite Hst in H4. destruct H4 as (inc & Hin & Einc).
  apply wp_bind. eapply wp_mono; [apply wp_recvProgress|]. intros r s' w1 (-> & b1 & M1 & Hr).
  destruct r as [got|e]; [|done]. destruct Hr as [-> Hl]. simpl app in *. specialize (Hl ltac:(simpl; lia)).
  case_decide as Hb; [subst b1; apply wp_ret; by eapply accepting_moved|].
  apply wp_bind. eapply wp_mono; [apply wp_recvWait|]. intros r s' w2 (-> & b2 & M2 & Hr2).
  pose proof (moved_trans _ _ _ _ _ _ _ _ M1 M2) as M12. destruct r as [got2|e]; [|done].
  destruct Hr2 as [-> Hl2]. specialize (Hl2 Hl). apply wp_bind, wp_get.
  destruct (Z.eqb_spec (le_val (b1 ++ b2)) (magic_ s)) as [Em|_]; simpl negb.
  - apply wp_bind. eapply wp_mono; [apply wp_recvWait|]. intros r s' w3 (-> & b3 & M3 & Hr3).
    pose proof (moved_trans _ _ _ _ _ _ _ _ M12 M3) as M13. destruct r as [ty|e]; [|done].
    destruct Hr3 as [-> Hl3]. specialize (Hl3 ltac:(simpl; lia)). simpl app in Hl3 |- *.
    destruct (Z.eqb_spec (le_val b3) (type_ s)) as [Et|_]; simpl negb.
    + apply wp_set. split; try done; [eapply suffix_moved; [done|apply (mv_os _ _ _ _ _ M13)]|]. simpl.
      eapply greeted_split; [|exact Hl2|exact Hl3|congruence|congruence].
      pose proof (mv_rx _ _ _ _ _ M13) as Erx. rewrite Einc, <- app_assoc in Erx. simpl. rewrite <- app_assoc in *. by rewrite <- Erx.
    + apply wp_bind, wp_set. apply wp_bind. intros r s' w' [= <- <- <-]. by apply wp_throw.
  - apply wp_bind. intros r s' w' [= <- <- <-]. apply wp_set. split; simpl; try done.
    eapply suffix_moved; [done|apply (mv_os _ _ _ _ _ M12)].
Qed.

(** The connecting side: nothing is written to the descriptor before the handshake. *)
Record connecting (magic type : Z) (s : Socket) (w : OS) : Prop := {
  cn_magic : magic_ s = magic;
  cn_type : type_ s = type;
  cn_state : match state_ s with
             | SConnecting => 0 <= fd_ s -> default [] (tx w !! fd_ s) = []
             | SConnectPolling | SConnected => default [] (tx w !! fd_ s) = []
             | SReady => default [] (tx w !! fd_ s) = hello magic type
             | _ => False
             end
}.

Lemma connecting_moved m t s w w' : connecting m t s w -> moved (fd_ s) [] [] w w' -> connecting m t s w'.
Proof.
  intros [H1 H2 H3] Hm. pose proof (mv_tx _ _ _ _ _ Hm) as E. rewrite app_nil_r in E. split; [done|done|]. by rewrite E.
Qed.

Lemma connecting_startConnect m t s w :
  connecting m t s w -> state_ s = SConnecting -> wp startConnect s w (okp (connecting m t)).
Proof.
  intros Hs Hst. apply wp_bind. eapply wp_mono; [apply wp_call_status|]. intros r s' w1 (-> & Hm & e & -> & He).
  pose proof (connecting_moved _ _ _ _ _ Hs Hm) as [H1 H2 H3]. rewrite Hst in H3.
  destruct e as [e|]; [|apply wp_set; split; simpl; try done; by apply H3, He].
  destruct (decide (e = EINPROGRESS)) as [->|]; [apply wp_set; split; simpl; try done; by apply H3, He|].
  case_decide; [apply wp_set; split; simpl; try done; by rewrite Hst|].
  apply wp_bind, wp_set. by apply wp_throw.
Qed.

Lemma connecting_pollConnect m t s w :
  connecting m t s w -> state_ s = SConnectPolling -> wp pollConnect s w (okp (connecting m t)).
Proof.
  intros Hs Hst. apply wp_bind. eapply wp_mono; [apply wp_next|]. intros r s' w1 (-> & M1 & a & -> & _).
  pose proof (connecting_moved _ _ _ _ _ Hs M1) as Hs1.
  destruct a as [|e| | | | |out|]; try apply wp_no_return; [by apply wp_ret|by apply wp_throw|].
  destruct out; [|by apply wp_throw]. apply wp_bind. eapply wp_mono; [apply wp_next|]. intros r s' w2 (-> & M2 & b & -> & _).
  pose proof (connecting_moved _ _ _ _ _ Hs1 M2) as Hs2. pose proof Hs2 as [H1 H2 H3]. rewrite Hst in H3.
  destruct b as [|e| | | | | |[e|]]; try apply wp_no_return; [by apply wp_throw| |by apply wp_set].
  case_decide.
  - apply wp_bind, wp_set. apply wp_bind. intros r s' w3 [= <- <- <-].
    apply wp_bind. eapply wp_mono; [apply wp_call_fd|]. intros r s' w4 (-> & Hr & _).
    destruct r as [[e'|fd]|]; [| |done]; apply wp_bind, wp_set, wp_set; split; simpl; try done.
    intros _. destruct Hr as (_ & _ & _ & -> & _). done.
  - case_decide; [by apply wp_ret|]. apply wp_bind, wp_set. by apply wp_throw.
Qed.

Lemma connecting_finalizeConnect m t s w :
  connecting m t s w -> state_ s = SConnected -> wp finalizeConnect s w (okp (connecting m t)).
Proof.
  intros Hs Hst. pose proof Hs as [H1 H2 H3]. rewrite Hst in H3. apply wp_bind, wp_get.
  apply wp_bind. eapply wp_mono; [apply wp_sendProgress|]. intros r s' w1 (-> & b1 & M1 & (r1 & D1) & Hr).
  destruct r as [n|e]; [|done]. simpl in Hr. subst n. change (drop 0 ?l) with l in D1.
  case_decide as Hn; [apply nil_length_inv in Hn as ->; apply wp_ret; by eapply connecting_moved|].
  apply wp_bind. eapply wp_mono; [apply wp_sendWait|]. intros r s' w2 ((-> & b2 & M2 & (r2 & D2) & Hr2) & Hl2).
  pose proof (moved_trans _ _ _ _ _ _ _ _ M1 M2) as M12. destruct r as [n2|e]; [|done].
  apply wp_bind. eapply wp_mono; [apply wp_sendWait_all|]. intros r s' w3 (-> & b3 & M3 & Hr3).
  pose proof (moved_trans _ _ _ _ _ _ _ _ M12 M3) as M13. destruct r as [n3|e]; [|done]. subst b3.
  apply wp_set. split; try done. cbn [state_ fd_]. rewrite (mv_tx _ _ _ _ _ M13), H3, app_nil_l. unfold hello.
  rewrite <- H1, <- H2. f_equal.
  pose proof (drop_prefix _ b1 r1 0 D1 : drop (length b1) _ = r1) as Dp. rewrite Dp in D2. subst n2 r1.
  rewrite D1, !length_app in Hl2. rewrite D1. destruct r2; [by rewrite app_nil_r|simpl in Hl2; lia].
Qed.

Lemma connect_connecting tc s w :
  default [] (tx w !! fd_ s) = [] -> wp (connect tc) s w (okp (connecting (magic_ s) (type_ s))).
Proof.
  intros Ht. apply wp_bind, wp_get. destruct (fd_ s =? -1); [by apply wp_throw|].
  case_decide; [|case_decide; by apply wp_throw].
  apply wp_bind. eapply wp_mono; [apply wp_call_status|]. intros r s' w1 (-> & Hm & e & -> & _).
  destruct e; [by apply wp_throw|]. apply wp_bind, wp_set. cbn beta.
  pose proof (mv_tx _ _ _ _ _ Hm) as Etx. rewrite app_nil_r, Ht in Etx.
  set (s1 := mkSocket _ _ _ _ _ _ _ _ _ _). assert (H1 : connecting (magic_ s) (type_ s) s1 w1) by (split; try done; intros _; exact Etx).
  apply (ok_seq _ _ _ s1); [|apply ok_check_aborted, connecting_moved].
  apply wp_fuel. intros f. apply ok_progress_loop; [apply connecting_moved| |done]. clear. intros s1 w1 H1.
  apply ok_progressState; try done; clear s1 w1 H1; intros s1 w1 H1 Hst.
  - pose proof (cn_state _ _ _ _ H1) as Hf. by rewrite Hst in Hf.
  - pose proof (cn_state _ _ _ _ H1) as Hf. by rewrite Hst in Hf.
  - by apply connecting_startConnect.
  - by apply connecting_pollConnect.
  - by apply connecting_finalizeConnect.
Qed.

Lemma accept_accepting l ta s w : acceptFd_ s = -1 ->
  wp (accept (Some l) ta) s w (okp (accepting (os w) (magic_ l) (type_ l))).
Proof.
  intros Ha. cbn [accept]. case_decide; [|by apply wp_throw]. apply wp_bind, wp_get. rewrite Ha. cbn [Z.eqb Pos.eqb].
  apply wp_bind, wp_set.
  assert (H1 : accepting (os w) (magic_ l) (type_ l) (adopt l s) w) by (split; simpl; try done; by exists []).
  apply ok_seq; [|apply ok_check_aborted, accepting_moved].
  apply wp_fuel. intros f. apply ok_progress_loop; [apply accepting_moved| |done]. generalize (os w). clear. intros O s1 w1 H1.
  apply ok_progressState; try done; clear s1 w1 H1; intros s1 w1 H1 Hst;
    try (pose proof (ac_state _ _ _ _ _ H1) as Hf; by rewrite Hst in Hf).
  - by apply accepting_tryAccept.
  - by apply accepting_finalizeAccept.
Qed.

(** C26: a connection that both ends report as ready is between a socket and a listener
    with the same magic number and type, whatever the kernel did in between -
    refused and retried connections, spurious peers, transfers in pieces - and what the
    accepting end reads next is what the connecting end sends after the handshake. *)
Theorem handshake_agrees (c c' l s s' : Socket) (w w' v v' : OS) (tc ta : Z) (later : list Z) :
  connect tc c w = Some (Ok tt, c', w') -> state_ c' = SReady -> default [] (tx w !! fd_ c) = [] ->
  accept (Some l) ta s v = Some (Ok tt, s', v') -> state_ s' = SReady -> acceptFd_ s = -1 ->
  (forall inc, In (AFd (fd_ s') inc) (os v) -> inc = default [] (tx w' !! fd_ c') ++ later) ->
  0 <= magic_ c < 2 ^ 64 -> 0 <= type_ c < 2 ^ 32 ->
  magic_ c = magic_ l /\ type_ c = type_ l /\ default [] (rx v' !! fd_ s') = later.
Proof.
  intros Hc Hc' Ht Ha Ha' Hfd Hwire Hm Hty.
  pose proof (connect_connecting _ _ _ Ht _ _ _ Hc) as [_ _ Hhello]. rewrite Hc' in Hhello.
  pose proof (accept_accepting _ _ _ _ Hfd _ _ _ Ha) as [_ _ _ Hg]. rewrite Ha' in Hg.
  destruct Hg as (inc & Hin & Em & Et & Er). rewrite (Hwire _ Hin), Hhello in *. unfold hello in *.
  rewrite <- app_assoc in *.
  rewrite take_app_length' in Em by (by rewrite le_bytes_len). rewrite le_val_bytes in Em by (unfold MAGIC_SIZE, TYPE_SIZE; change (256 ^ Z.of_nat 8) with (2 ^ 64); change (256 ^ Z.of_nat 4) with (2 ^ 32); lia).
  rewrite drop_app_length' in Et by (by rewrite le_bytes_len). rewrite take_app_length' in Et by (by rewrite le_bytes_len).
  rewrite le_val_bytes in Et by (unfold MAGIC_SIZE, TYPE_SIZE; change (256 ^ Z.of_nat 8) with (2 ^ 64); change (256 ^ Z.of_nat 4) with (2 ^ 32); lia).
  split_and!; [congruence|congruence|]. rewrite Er, app_assoc, drop_app_length'; [done|]. by rewrite length_app, !le_bytes_len.
Qed.

Definition demo_listener : Socket := mkSocket 3 (-1) 0 0 false false SReady 77 1 demo_addr.
Definition demo_client : Socket := mkSocket 5 (-1) 0 0 false false SInitialized 77 1 demo_addr.
(** A refused first attempt, and a hello sent in three pieces. *)
Definition demo_client_os : OS := mkOS [AOk; AErr ECONNREFUSED; AErr EINPROGRESS; APoll true; ASoError (Some ECONNREFUSED);
    AFd 6 []; AOk; ABytes 3; ABytes 5; AErr EAGAIN; ABytes 4] ∅ ∅ {[5]} [] [].
(** A spurious peer, and then the client. *)
Definition demo_server_os : OS := mkOS [AErr EAGAIN; AFd 7 (hello 78 1); ABytes 8; AFd 8 (hello 77 1 ++ [42]);
    AErr EAGAIN; ABytes 2; ABytes 6; ABytes 4] ∅ ∅ {[3]} [] [].

Lemma handshake_agrees_witness :
  exists c' w' s' v', connect 0 demo_client demo_client_os = Some (Ok tt, c', w') /\
    accept (Some demo_listener) 0 (Socket_init 0 0 false false no_addr) demo_server_os = Some (Ok tt, s', v') /\
    fd_ s' = 8 /\ default [] (rx v' !! fd_ s') = [42].
Proof.
  destruct (connect 0 demo_client demo_client_os) as [[[[[]|] c'] w']|] eqn:E1; [|by vm_compute in E1..].
  destruct (accept (Some demo_listener) 0 (Socket_init 0 0 false false no_addr) demo_server_os)
    as [[[[[]|] s'] v']|] eqn:E2; [|by vm_compute in E2..].
  pose proof E1 as E1'. pose proof E2 as E2'. vm_compute in E1', E2'. injection E1' as Ec' Ew'. injection E2' as Es' Ev'.
  exists c', w', s', v'. split; [reflexivity|]. split; [reflexivity|]. split; [rewrite <- Es'; reflexivity|].
  assert (Hc : state_ c' = SReady) by (rewrite <- Ec'; reflexivity).
  assert (Hs : state_ s' = SReady) by (rewrite <- Es'; reflexivity).
  assert (Hwire : forall inc, In (AFd (fd_ s') inc) (os demo_server_os) -> inc = default [] (tx w' !! fd_ c') ++ [42]).
  { rewrite <- Es', <- Ec', <- Ew'. intros inc Hin.
    repeat (destruct Hin as [Hin|Hin]; [try discriminate Hin; injection Hin as <-; vm_compute; reflexivity|]).
    destruct Hin. }
  exact (proj2 (proj2 (handshake_agrees _ _ _ _ _ _ _ _ _ _ _ [42] E1 Hc eq_refl E2 Hs eq_refl Hwire
    ltac:(split; [discriminate|reflexivity]) ltac:(split; [discriminate|reflexivity])))).
Defined.

(** ** Properties: the timeout of [accept] *)

Lemma aborted_no_flag s w : abortFlag_ s = false -> aborted s w = Some (Ok false, s, w).
Proof. intros Ha. unfold aborted. by rewrite Ha. Qed.

(** One round of receiving: nothing there yet, or one byte. *)
Lemma recvProgressOpt_again f size got s w l : abortFlag_ s = false -> os w = AErr EAGAIN :: l ->
  recvProgressOpt (S f) size got s w = Some (Ok (got, false), s, mkOS l (rx w) (tx w) (openFds w) (aborts w) (timers w)).
Proof.
  intros Ha Ho. unfold mbind, IO_bind. cbn [recvProgressOpt].
  unfold call_recv, mbind, IO_bind, next. rewrite Ho. unfold mret, IO_ret. cbv beta iota.
  change (retryable EAGAIN) with true. cbv beta iota. by rewrite aborted_no_flag.
Qed.

Lemma recvProgress_again size got s w l : abortFlag_ s = false -> os w = AErr EAGAIN :: l ->
  recvProgress size got s w = Some (Ok got, s, mkOS l (rx w) (tx w) (openFds w) (aborts w) (timers w)).
Proof.
  intros Ha Ho. unfold recvProgress, with_fuel, mbind, IO_bind. by rewrite (recvProgressOpt_again _ _ _ _ _ l).
Qed.

Lemma recvProgress_none size got s w : os w = [] -> recvProgress size got s w = None.
Proof.
  intros Ho. unfold recvProgress, with_fuel, mbind, IO_bind. cbn [recvProgressOpt].
  unfold call_recv, mbind, IO_bind, next. by rewrite Ho.
Qed.

Lemma recvWait_starved size got s w n :
  abortFlag_ s = false -> os w = replicate n (AErr EAGAIN) -> (length got < size)%nat -> recvWait size got s w = None.
Proof.
  intros Ha. unfold recvWait, with_fuel. generalize (S (length (os w))). intros f.
  revert n w. induction f as [|f IH]; intros n w Ho Hl; cbn [recvWait_loop]; rewrite decide_True by done; [done|].
  unfold mbind, IO_bind. destruct n as [|n]; [by rewrite recvProgress_none|].
  rewrite (recvProgress_again _ _ _ _ (replicate n (AErr EAGAIN))) by done. by apply (IH n).
Qed.

Lemma bind_eq {A B} (m : IO A) (k : A -> IO B) s w a s1 w1 :
  m s w = Some (Ok a, s1, w1) -> (m ≫= k) s w = k a s1 w1.
Proof. intros E. unfold mbind, IO_bind. by rewrite E. Qed.
Lemma bind_none {A B} (m : IO A) (k : A -> IO B) s w : m s w = None -> (m ≫= k) s w = None.
Proof. intros E. unfold mbind, IO_bind. by rewrite E. Qed.

Lemma when_yes st m s w : state_ s = st -> when_state st m s w = m s w.
Proof. intros E. unfold when_state. rewrite (bind_eq _ _ _ _ s s w) by done. by rewrite decide_True. Qed.
Lemma when_no st m s w : state_ s <> st -> when_state st m s w = Some (Ok tt, s, w).
Proof. intros E. unfold when_state. rewrite (bind_eq _ _ _ _ s s w) by done. by rewrite decide_False. Qed.

(** A round that finds no connection. *)
Lemma progressState_again s w l : state_ s = SAccepting -> os w = AErr EAGAIN :: l ->
  exists s' w', progressState s w = Some (Ok tt, s', w') /\ state_ s' = SAccepting /\ abortFlag_ s' = abortFlag_ s /\
    asyncFlag_ s' = asyncFlag_ s /\ os w' = l /\ timers w' = timers w.
Proof.
  intros Hst Ho.
  assert (Ht : exists s' w', tryAccept s w = Some (Ok tt, s', w') /\ state_ s' = SAccepting /\ abortFlag_ s' = abortFlag_ s /\
    asyncFlag_ s' = asyncFlag_ s /\ os w' = l /\ timers w' = timers w).
  { unfold tryAccept, call_fd, mbind, IO_bind, next. rewrite Ho. by eexists _, _. }
  destruct Ht as (s' & w' & Et & Hst' & Ht). exists s', w'. split; [|done]. unfold progressState.
  rewrite (bind_eq _ _ _ _ tt s' w') by (by rewrite when_yes).
  do 3 rewrite (bind_eq _ _ _ _ tt s' w') by (by rewrite when_no; [|rewrite Hst']). by rewrite when_no; [|rewrite Hst'].
Qed.

(** A round that finds a peer that sends one byte and then nothing. *)
Lemma progressState_starved s w fd b later n : state_ s = SAccepting -> abortFlag_ s = false -> 0 <= fd -> fd ∉ openFds w ->
  os w = AFd fd (b :: later) :: ABytes 1 :: replicate n (AErr EAGAIN) -> progressState s w = None.
Proof.
  intros Hst Ha Hf Hn Ho.
  assert (Ht : exists s' w', tryAccept s w = Some (Ok tt, s', w') /\ state_ s' = SAccepted /\ abortFlag_ s' = false /\
    rx w' !! fd_ s' = Some (b :: later) /\ os w' = ABytes 1 :: replicate n (AErr EAGAIN)).
  { unfold tryAccept, call_fd, mbind, IO_bind, next. rewrite Ho. cbn [openFds]. rewrite bool_decide_eq_true_2 by done.
    eexists _, _. split; [done|]. cbn. by rewrite lookup_insert_eq. }
  destruct Ht as (s' & w' & Et & Hst' & Ha' & Hr & Ho'). unfold progressState.
  rewrite (bind_eq _ _ _ _ tt s' w') by (by rewrite when_yes). apply bind_none. rewrite when_yes by done.
  assert (Hc : exists w1, call_recv (MAGIC_SIZE - 0) s' w' = Some (Ok (TBytes [b]), s', w1) /\ os w1 = replicate n (AErr EAGAIN)).
  { unfold call_recv, mbind, IO_bind, next. rewrite Ho'. cbv zeta. cbn [rx]. rewrite Hr. by eexists. }
  destruct Hc as (w1 & Ec & Ho1). unfold finalizeAccept.
  destruct n as [|n].
  - apply bind_none. unfold recvProgress. apply bind_none. unfold with_fuel. cbn [recvProgressOpt].
    rewrite (bind_eq _ _ _ _ _ _ _ Ec). rewrite (bind_eq _ _ _ _ false s' w1) by (by rewrite aborted_no_flag). cbn [app length].
    rewrite decide_True by (unfold MAGIC_SIZE; lia). rewrite Ho'. cbn [length recvProgressOpt replicate].
    apply bind_none. unfold call_recv. apply bind_none. unfold next. by rewrite Ho1.
  - assert (Hp : exists w2, recvProgress MAGIC_SIZE [] s' w' = Some (Ok [b], s', w2) /\ os w2 = replicate n (AErr EAGAIN)).
    { exists (mkOS (replicate n (AErr EAGAIN)) (rx w1) (tx w1) (openFds w1) (aborts w1) (timers w1)). split; [|done].
      unfold recvProgress, with_fuel. unfold mbind at 1, IO_bind at 1. cbn [recvProgressOpt].
      rewrite (bind_eq _ _ _ _ _ _ _ Ec). rewrite (bind_eq _ _ _ _ false s' w1) by (by rewrite aborted_no_flag). cbn [app length].
      rewrite decide_True by (unfold MAGIC_SIZE; lia). rewrite Ho'. cbn [length].
      by rewrite (recvProgressOpt_again _ _ _ _ _ (replicate n (AErr EAGAIN))). }
    destruct Hp as (w2 & Ep & Ho2). rewrite (bind_eq _ _ _ _ _ _ _ Ep). rewrite decide_False by done.
    apply bind_none. apply (recvWait_starved _ _ _ _ n); [done|done|]. unfold MAGIC_SIZE. simpl. lia.
Qed.

(** what the timeout of [accept] covers.  While nobody connects, [accept] throws
    [Timeout] as soon as the timer is past it.  Once a peer has connected and sent one
    byte, the timer is not looked at again: if nothing more comes, [accept] does not
    return, however often the kernel is asked and whatever the timer says. *)
Theorem accept_timeout (l s : Socket) (w : OS) (timeout : Z) (k : nat) :
  state_ l = SReady -> abortFlag_ l = false -> asyncFlag_ l = false -> acceptFd_ s = -1 ->
  (forall more later, 0 < timeout -> os w = replicate (S k) (AErr EAGAIN) ++ more ->
     timers w = replicate k false ++ true :: later ->
     exists s' w', accept (Some l) timeout s w = Some (Throw (EError Timeout), s', w')) /\
  (forall fd b later, 0 <= fd -> fd ∉ openFds w ->
     os w = AFd fd (b :: later) :: ABytes 1 :: replicate k (AErr EAGAIN) ->
     accept (Some l) timeout s w = None).
Proof.
  intros Hl Hab Has Hfd.
  assert (Hgo : forall r, with_fuel (fun f => progress_loop f timeout [SAccepting; SAccepted]) (adopt l s) w = r ->
    match r with
    | None => accept (Some l) timeout s w = None
    | Some (Throw e, s1, w1) => accept (Some l) timeout s w = Some (Throw e, s1, w1)
    | _ => True
    end).
  { intros r Hr. cbn [accept]. rewrite decide_True by done. rewrite (bind_eq _ _ _ _ s s w) by done. rewrite Hfd.
    rewrite (bind_eq _ _ _ _ tt (adopt l s) w) by done. unfold mbind, IO_bind. rewrite Hr. by destruct r as [[[[]] ]|]. }
  specialize (Hgo _ eq_refl). unfold with_fuel in Hgo. split.
  - intros more later Ht Ho Htm.
    assert (Hloop : forall f k s1 w1, (k < f)%nat -> state_ s1 = SAccepting -> abortFlag_ s1 = false -> asyncFlag_ s1 = false ->
      os w1 = replicate (S k) (AErr EAGAIN) ++ more -> timers w1 = replicate k false ++ true :: later ->
      exists s' w', progress_loop f timeout [SAccepting; SAccepted] s1 w1 = Some (Throw (EError Timeout), s', w')).
    { clear - Ht. induction f as [|f IH]; intros k s1 w1 Hk Hst Ha1 Ha2 Ho Htm; [lia|]. cbn [progress_loop].
      destruct (progressState_again _ _ _ Hst Ho) as (s2 & w2 & Ep & Hst2 & Hab2 & Has2 & Ho2 & Ht2).
      rewrite (bind_eq _ _ _ _ _ _ _ Ep). rewrite Htm in Ht2. unfold mbind at 1, IO_bind at 1, timed_out.
      rewrite (proj2 (Z.ltb_lt 0 timeout) Ht), Ht2. destruct k as [|k]; cbn [replicate app]; [by eexists _, _|].
      rewrite (bind_eq _ _ _ _ s2 s2 _) by done. rewrite Has2, Ha2.
      rewrite (bind_eq _ _ _ _ false s2 _) by (rewrite aborted_no_flag; [done|congruence]).
      rewrite decide_True by (rewrite Hst2; left). apply (IH k); try done; [lia|congruence|congruence]. }
    destruct (Hloop (S (length (os w))) k (adopt l s) w) as (s' & w' & E); try done.
    { rewrite Ho, length_app, length_replicate. lia. }
    rewrite E in Hgo. by eexists _, _.
  - intros fd b later Hp Hn Ho. cbn [progress_loop] in Hgo.
    rewrite (bind_none progressState) in Hgo; [done|]. by eapply progressState_starved.
Qed.

Lemma accept_timeout_witness :
  exists s' w', accept (Some demo_listener) 5 (Socket_init 0 0 false false no_addr)
    (mkOS [AErr EAGAIN; AErr EAGAIN] ∅ ∅ {[3]} [] [false; true]) = Some (Throw (EError Timeout), s', w').
Proof.
  apply (proj1 (accept_timeout demo_listener (Socket_init 0 0 false false no_addr)
    (mkOS [AErr EAGAIN; AErr EAGAIN] ∅ ∅ {[3]} [] [false; true]) 5 1 eq_refl eq_refl eq_refl eq_refl) [] []);
    [lia|reflexivity|reflexivity].
Defined.

(** ** Witnesses of the transfers *)

Definition demo_ready : Socket := mkSocket 5 (-1) 0 0 false false SReady 77 1 demo_addr.
Definition demo_transfer (l : list answer) : OS := mkOS l {[5 := [1; 2; 3; 4]]} {[5 := [9]]} {[5]} [] [].

Lemma transfers_exact_witness :
  exists w' s' v', send [7; 8] demo_ready (demo_transfer [ABytes 1; AErr EINTR; ABytes 5]) = Some (Ok tt, s', w') /\
    default [] (tx w' !! 5) = [9; 7; 8] /\
    recv 3 demo_ready (demo_transfer [ABytes 2; AErr EAGAIN; ABytes 5]) = Some (Ok [1; 2; 3], s', v') /\
    [1; 2; 3; 4] = [1; 2; 3] ++ default [] (rx v' !! 5).
Proof.
  destruct (send [7; 8] demo_ready (demo_transfer [ABytes 1; AErr EINTR; ABytes 5])) as [[[[[]|] s'] w']|] eqn:E1;
    [|by vm_compute in E1..].
  destruct (transfers_exact demo_ready s' (demo_transfer [ABytes 1; AErr EINTR; ABytes 5]) w') as [Hs _].
  destruct (Hs _ E1) as [-> Etx].
  destruct (recv 3 demo_ready (demo_transfer [ABytes 2; AErr EAGAIN; ABytes 5])) as [[[[got|] s2] v']|] eqn:E2;
    [|by vm_compute in E2..].
  assert (got = [1; 2; 3]) as -> by (vm_compute in E2; by injection E2 as <- _ _).
  destruct (transfers_exact demo_ready s2 (demo_transfer [ABytes 2; AErr EAGAIN; ABytes 5]) v') as [_ Hr].
  destruct (Hr _ _ E2) as (-> & _ & Erx). exists w', demo_ready, v'. by split_and!.
Defined.

Lemma recv_completes_witness :
  exists got w', recv 3 demo_ready (demo_transfer [AErr EAGAIN; ABytes 2; AErr EINTR; ABytes 1; ABytes 1]) = Some (Ok got, demo_ready, w') /\
    length got = 3%nat.
Proof.
  destruct (recv_completes demo_ready (demo_transfer [AErr EAGAIN; ABytes 2; AErr EINTR; ABytes 1; ABytes 1]) 3)
    as (got & w' & E & _ & Hl); [reflexivity|reflexivity| |by exists got, w'].
  split; [|vm_compute; lia|vm_compute; lia].
  repeat (apply Forall_cons; split; [first [reflexivity|simpl; lia]|]). apply Forall_nil. done.
Defined.

Lemma recv_until_end_short_witness :
  exists w', recvUntilEnd 4 demo_ready (demo_transfer [ABytes 2; AErr EINTR]) = Some (Ok ([1; 2], false), demo_ready, w').
Proof.
  destruct (recv_until_end_short demo_ready (demo_transfer [ABytes 2; AErr EINTR]) 4 2 EINTR) as (w' & E & _);
    [reflexivity|reflexivity|lia|vm_compute; lia|by left|reflexivity|]. exists w'. exact E.
Defined.
