(* ===== verification/Interfaces.v ===== *)
(** * Network interfaces

    Models the choice of network interfaces and the parsing of addresses in
    src/core/bootstrap/socket.cc ([findInterfaces], [matchSubnet],
    [FindInterfaceMatchSubnet], [SocketGetAddrFromString], [FindInterfaces]).

    The list that getifaddrs returns is an argument; name resolution
    (getaddrinfo, inet_pton, if_nametoindex) is a parameter.  Writing past a fixed-size
    array is undefined: [None]. *)

From S2P Require Import Prelude Errors Core Utils Socket.
Local Open Scope Z_scope.

(** ** Data *)

(** The address of a socket: its bytes and, for IPv6, the scope. *)
Record in_addr := mkIn { in_family : family; in_bytes : list Z; in_scope : Z }.
(** What [ifaddrs] says of an interface; the address may be missing. *)
Record ifaddrs := mkIf { ifa_name : list Z; ifa_addr : option in_addr; ifa_netmask : list Z }.

Definition MAX_IFS : nat := 16.
Definition MAX_IF_NAME_SIZE : nat := 16.
Definition CARET : Z := 94.
Definition EQUALS : Z := 61.
Definition PERCENT : Z := 37.
Definition OPENING : Z := 91.
Definition CLOSING : Z := 93.
Definition str_ib : list Z := [105; 98].
Definition str_docker : list Z := [100; 111; 99; 107; 101; 114].
Definition str_lo : list Z := [108; 111].
Definition str_AF_INET : list Z := [65; 70; 95; 73; 78; 69; 84].
Definition str_AF_INET6 : list Z := str_AF_INET ++ [54].

(** -1 is [None]. *)
Definition envSocketFamily (socketFamily : list Z) : option family :=
  if decide (socketFamily = []) then None
  else if decide (socketFamily = str_AF_INET) then Some AF_INET
  else if decide (socketFamily = str_AF_INET6) then Some AF_INET6
  else None.

Definition in6_loopback (a : in_addr) : bool := bool_decide (in_bytes a = replicate 15 0 ++ [1]).

(** ** Selection *)

(** The conditions that skip an interface before its name is looked at. *)
Definition usable (sock_family : option family) (a : in_addr) : bool :=
  negb (bool_decide (in_family a = AF_OTHER)) &&
  match sock_family with None => true | Some f => bool_decide (in_family a = f) end &&
  negb (bool_decide (in_family a = AF_INET6) && in6_loopback a).

(** The loop over the interfaces; [found] are the names and addresses stored. *)
Fixpoint scan (sock_family : option family) (maxIfNameSize maxIfs : nat) (wanted : list Z -> bool)
    (ifs : list ifaddrs) (found : list (list Z * in_addr)) : option (list (list Z * in_addr)) :=
  match ifs with
  | [] => Some found
  | i :: ifs' =>
      if decide (length found < maxIfs)%nat then
        match ifa_addr i with
        | None => scan sock_family maxIfNameSize maxIfs wanted ifs' found
        | Some a =>
            if negb (usable sock_family a) then scan sock_family maxIfNameSize maxIfs wanted ifs' found
            else if negb (wanted (ifa_name i)) then scan sock_family maxIfNameSize maxIfs wanted ifs' found
            else if bool_decide (ifa_name i ∈ map fst found) then scan sock_family maxIfNameSize maxIfs wanted ifs' found
            else if decide (length (ifa_name i) < maxIfNameSize)%nat then
              scan sock_family maxIfNameSize maxIfs wanted ifs' (found ++ [(ifa_name i, a)])
            else None
        end
      else Some found
  end.

(** Drop a leading character, and say whether it was there. *)
Definition leading (c : Z) (s : list Z) : bool * list Z :=
  match s with x :: s' => if x =? c then (true, s') else (false, s) | [] => (false, []) end.

Definition findInterfaces (prefixList : list Z) (sock_family : option family) (maxIfNameSize maxIfs : nat)
    (ifs : list ifaddrs) : option (list (list Z * in_addr)) :=
  let '(searchNot, prefixList) := leading CARET prefixList in
  let '(searchExact, prefixList) := leading EQUALS prefixList in
  userIfs ← parseStringList prefixList MAX_IFS;
  scan sock_family maxIfNameSize maxIfs
    (fun name => xorb (matchIfList name (-1) userIfs searchExact) searchNot) ifs [].

Definition masked (bytes mask : list Z) : list Z := zip_with Z.land bytes mask.

Definition matchSubnet (local : in_addr) (mask : list Z) (remote : in_addr) : bool :=
  if decide (in_family local = in_family remote) then
    match in_family local with
    | AF_INET => bool_decide (masked (in_bytes local) mask = masked (in_bytes remote) mask)
    | AF_INET6 =>
        bool_decide (masked (in_bytes local) mask = masked (in_bytes remote) mask) && (in_scope local =? in_scope remote)
    | AF_OTHER => false
    end
  else false.

(** The first interface in the subnet, if any. *)
Fixpoint FindInterfaceMatchSubnet (remote : in_addr) (maxIfNameSize : nat) (ifs : list ifaddrs)
    : option (list (list Z * in_addr)) :=
  match ifs with
  | [] => Some []
  | i :: ifs' =>
      match ifa_addr i with
      | None => FindInterfaceMatchSubnet remote maxIfNameSize ifs'
      | Some a =>
          if decide (in_family a = AF_OTHER) then FindInterfaceMatchSubnet remote maxIfNameSize ifs'
          else if negb (matchSubnet a (ifa_netmask i) remote) then FindInterfaceMatchSubnet remote maxIfNameSize ifs'
          else if decide (length (ifa_name i) < maxIfNameSize)%nat then Some [(ifa_name i, a)] else None
      end
  end.

(** ** Addresses as strings *)

Section parsing.
(** [getaddrinfo]: the first address of a host; [inet_pton] for IPv6; [if_nametoindex]. *)
Context (getaddrinfo : list Z -> option in_addr) (inet_pton6 : list Z -> list Z) (if_nametoindex : list Z -> Z).

Definition NI_MAXHOST : nat := 1025.
Definition NI_MAXSERV : nat := 32.

(** The scan for the closing bracket: its index, and that of the last percent sign. *)
Fixpoint bracket_loop (s : list Z) (i : nat) (j : option nat) : option (nat * option nat) :=
  match s with
  | [] => None
  | c :: s' =>
      let j := if c =? PERCENT then Some i else j in
      if c =? CLOSING then Some (i, j) else bracket_loop s' (S i) j
  end.

Definition substr (s : list Z) (from n : nat) : list Z := take n (drop from s).

(** [strncpy] of [n] characters into an array of [room] that ends with a terminator. *)
Definition copy_into (room : nat) (s : list Z) (from n : nat) : option (list Z) :=
  if decide (n < room)%nat then Some (substr s from n) else None.

Definition htons (port : Z) : Z := port mod 2 ^ 16.

Definition SocketGetAddrFromString (s : list Z) : option (result (in_addr * Z)) :=
  match s with
  | c :: _ :: _ =>
      if negb (c =? OPENING) then
        l ← parseStringList s 1;
        match l with
        | [ni] =>
            match getaddrinfo (prefix ni) with
            | None => Some (Throw (EError InvalidUsage))
            | Some a =>
                match in_family a with
                | AF_INET => Some (Ok (a, htons (port ni)))
                | AF_INET6 => Some (Ok (mkIn AF_INET6 (in_bytes a) 0, htons (port ni)))
                | AF_OTHER => Some (Throw (EError InvalidUsage))
                end
            end
        | _ => Some (Throw (EError InvalidUsage))
        end
      else
        match bracket_loop (drop 1 s) 1 None with
        | None => Some (Throw (EError InvalidUsage))
        | Some (i, j) =>
            ip_str ← copy_into NI_MAXHOST s 1 (match j with None => i - 1 | Some j => j - 1 end);
            port_str ← copy_into NI_MAXSERV s (i + 2) (length s - i - 1);
            scope ← match j with
                    | None => Some 0
                    | Some j => if_name ← copy_into MAX_IF_NAME_SIZE s (j + 1) (i - j - 1); Some (if_nametoindex if_name)
                    end;
            Some (Ok (mkIn AF_INET6 (inet_pton6 ip_str) scope, htons (atoi port_str)))
        end
  | _ => Some (Throw (EError InvalidUsage))
  end.

(** *** The interfaces of a bootstrap *)

Record SocketEnv := mkSocketEnv { socketFamily : list Z; socketIfname : list Z; commId : list Z }.

(** The stages of the automatic choice: the first that finds something. *)
Definition or_else (r : option (result (list (list Z * in_addr)))) (next : option (result (list (list Z * in_addr))))
    : option (result (list (list Z * in_addr))) :=
  match r with Some (Ok []) => next | _ => r end.

Definition FindInterfaces (E : SocketEnv) (maxIfNameSize maxIfs : nat) (inputIfName : option (list Z))
    (ifs : list ifaddrs) : option (result (list (list Z * in_addr))) :=
  let sock_family := envSocketFamily (socketFamily E) in
  let find := fun l => Ok <$> findInterfaces l sock_family maxIfNameSize maxIfs ifs in
  match inputIfName with
  | Some name => find name
  | None =>
      if decide (socketIfname E <> []) then find (socketIfname E)
      else
        or_else (find str_ib)
        (or_else
          (if decide (commId E <> []) then
             r ← SocketGetAddrFromString (commId E);
             match r with
             | Ok (idAddr, _) => Ok <$> FindInterfaceMatchSubnet idAddr maxIfNameSize ifs
             | Throw e => Some (Throw e)
             end
           else Some (Ok []))
        (or_else (find (CARET :: str_docker ++ COMMA :: str_lo))
        (or_else (find str_docker) (find str_lo))))
  end.
End parsing.

(** ** Specification of the selection *)

(** The interfaces that qualify, in the order of the system. *)
Definition candidates (sock_family : option family) (wanted : list Z -> bool) (ifs : list ifaddrs)
    : list (list Z * in_addr) :=
  omap (fun i => match ifa_addr i with
                 | Some a => if usable sock_family a && wanted (ifa_name i) then Some (ifa_name i, a) else None
                 | None => None
                 end) ifs.

(** The first address of every name that has not been seen. *)
Fixpoint first_by_name (seen : list (list Z)) (l : list (list Z * in_addr)) : list (list Z * in_addr) :=
  match l with
  | [] => []
  | (n, a) :: l' =>
      if bool_decide (n ∈ seen) then first_by_name seen l' else (n, a) :: first_by_name (seen ++ [n]) l'
  end.

Definition names_fit (maxIfNameSize : nat) (ifs : list ifaddrs) : Prop :=
  Forall (fun i => (length (ifa_name i) < maxIfNameSize)%nat) ifs.

(** What an automatic choice prefers: InfiniBand, then anything, then docker's bridge,
    then the loopback interface. *)
Definition rank (name : list Z) : nat :=
  if decide (str_ib `prefix_of` name) then 0
  else if decide (str_docker `prefix_of` name) then 2
  else if decide (str_lo `prefix_of` name) then 3 else 1.

(** ** Lemmas *)

Lemma scan_spec fam room maxIfs wanted ifs found :
  names_fit room ifs -> (length found <= maxIfs)%nat ->
  scan fam room maxIfs wanted ifs found =
    Some (take maxIfs (found ++ first_by_name (map fst found) (candidates fam wanted ifs))).
Proof.
  intros Hn. revert found. induction Hn as [|i ifs Hi _ IH]; intros found Hl; cbn [scan candidates omap].
  { by rewrite app_nil_r, take_ge. }
  case_decide as Hlt; [|by rewrite take_app_length' by lia].
  unfold candidates. cbn [omap list_omap]. fold (candidates fam wanted ifs).
  destruct (ifa_addr i) as [a|]; [|by apply IH].
  destruct (usable fam a); simpl; [|by apply IH]. destruct (wanted (ifa_name i)); simpl; [|by apply IH].
  case_bool_decide as Hd; [by apply IH|]. rewrite decide_True by done.
  rewrite IH by (rewrite length_app; simpl; lia). by rewrite <- app_assoc, map_app.
Qed.

Lemma findInterfaces_spec list fam room maxIfs ifs userIfs :
  names_fit room ifs -> forall not_ exact l1 l2, leading CARET list = (not_, l1) -> leading EQUALS l1 = (exact, l2) ->
  parseStringList l2 MAX_IFS = Some userIfs ->
  findInterfaces list fam room maxIfs ifs =
    Some (take maxIfs (first_by_name [] (candidates fam (fun name => xorb (matchIfList name (-1) userIfs exact) not_) ifs))).
Proof.
  intros Hn not_ exact l1 l2 E1 E2 E3. unfold findInterfaces. rewrite E1, E2. cbn. rewrite E3. cbn.
  by rewrite scan_spec by (try done; simpl; lia).
Qed.

Lemma first_by_name_elem seen l n a : (n, a) ∈ first_by_name seen l -> (n, a) ∈ l /\ n ∉ seen.
Proof.
  revert seen. induction l as [|[m b] l IH]; intros seen; simpl; [by intros ?%not_elem_of_nil|].
  case_bool_decide as Hb.
  - intros Hin. destruct (IH _ Hin). split; [by right|done].
  - rewrite elem_of_cons. intros [[= -> ->]|Hin]; [split; [by left|done]|]. destruct (IH _ Hin) as [H1 H2].
    rewrite elem_of_app in H2. split; [by right|]. naive_solver.
Qed.

Lemma first_by_name_nodup seen l : NoDup (map fst (first_by_name seen l)).
Proof.
  revert seen. induction l as [|[m b] l IH]; intros seen; simpl; [constructor|]. case_bool_decide; [apply IH|].
  simpl. constructor; [|apply IH]. rewrite list_elem_of_fmap. intros ([n a] & -> & Hin).
  apply first_by_name_elem in Hin as [_ Hin]. rewrite elem_of_app, list_elem_of_singleton in Hin. naive_solver.
Qed.

Lemma first_by_name_nil l : first_by_name [] l = [] -> l = [].
Proof. by destruct l as [|[n a] l]. Qed.

Lemma candidates_elem fam wanted ifs n a :
  (n, a) ∈ candidates fam wanted ifs <-> wanted n = true /\ (n, a) ∈ candidates fam (fun _ => true) ifs.
Proof.
  unfold candidates. rewrite !list_elem_of_omap. split.
  - intros (i & Hin & He). destruct (ifa_addr i) as [b|] eqn:Ea; [|done].
    destruct (usable fam b) eqn:Eu; simpl in He; [|done]. destruct (wanted (ifa_name i)) eqn:Ew; [|done].
    injection He as <- <-. split; [done|]. exists i. by rewrite Ea, Eu.
  - intros (Hw & i & Hin & He). exists i. split; [done|]. destruct (ifa_addr i) as [b|]; [|done].
    destruct (usable fam b); simpl in *; [|done]. injection He as <- <-. by rewrite Hw.
Qed.

Lemma matchIf_bool name ref : matchIf name ref false = bool_decide (ref `prefix_of` name).
Proof. apply eq_bool_prop_intro. rewrite bool_decide_spec, <- matchIf_prefix. by destruct (matchIf name ref false). Qed.

(** What a stage of the automatic choice that looks for [wanted] names finds. *)
Record stage_found (all : list (list Z * in_addr)) (maxIfs : nat) (wanted : list Z -> bool) (l : list (list Z * in_addr)) : Prop := {
  st_nodup : NoDup (map fst l);
  st_len : (length l <= maxIfs)%nat;
  st_in : forall n a, (n, a) ∈ l -> wanted n = true /\ (n, a) ∈ all;
  st_nil : l = [] -> forall n a, (n, a) ∈ all -> wanted n = false
}.

Lemma stage_take fam maxIfs wanted wanted' ifs :
  (forall n, wanted n = wanted' n) -> (0 < maxIfs)%nat ->
  stage_found (candidates fam (fun _ => true) ifs) maxIfs wanted' (take maxIfs (first_by_name [] (candidates fam wanted ifs))).
Proof.
  intros Hw Hm. split.
  - rewrite <- firstn_map. eapply sublist_NoDup; [apply first_by_name_nodup|apply sublist_take].
  - rewrite length_take. lia.
  - intros n a Hin. eapply elem_of_sublist in Hin; [|apply sublist_take]. apply first_by_name_elem in Hin as [Hin _].
    apply candidates_elem in Hin. by rewrite <- Hw.
  - intros Ht n a Hin. destruct (first_by_name [] _) as [|x l'] eqn:E; [|by destruct maxIfs; [lia|]].
    apply first_by_name_nil in E. rewrite <- Hw. destruct (wanted n) eqn:Ew; [|done].
    assert (Hc : (n, a) ∈ candidates fam wanted ifs) by (apply candidates_elem; done).
    rewrite E in Hc. by apply not_elem_of_nil in Hc.
Qed.

Section stages.
Context (fam : option family) (room maxIfs : nat) (ifs : list ifaddrs).
Hypothesis Hfit : names_fit room ifs.
Hypothesis Hmax : (0 < maxIfs)%nat.

Lemma find_stage list wanted wanted' :
  findInterfaces list fam room maxIfs ifs = scan fam room maxIfs wanted ifs [] -> (forall n, wanted n = wanted' n) ->
  exists l, findInterfaces list fam room maxIfs ifs = Some l /\ stage_found (candidates fam (fun _ => true) ifs) maxIfs wanted' l.
Proof.
  intros -> Hw. rewrite scan_spec by (try done; simpl; lia). eexists. split; [done|]. by apply stage_take.
Qed.

Lemma find_prefix ref :
  ref = str_ib \/ ref = str_docker \/ ref = str_lo ->
  exists l, findInterfaces ref fam room maxIfs ifs = Some l /\
    stage_found (candidates fam (fun _ => true) ifs) maxIfs (fun n => bool_decide (ref `prefix_of` n)) l.
Proof.
  intros Hr. apply find_stage with (wanted := fun n => xorb (matchIfList n (-1) [mkNetIf ref (-1)] false) false).
  - by destruct Hr as [-> |[-> | ->]].
  - intros n. cbn [matchIfList existsb prefix port]. rewrite matchIf_bool. by destruct (bool_decide _).
Qed.

Lemma find_others :
  exists l, findInterfaces (CARET :: str_docker ++ COMMA :: str_lo) fam room maxIfs ifs = Some l /\
    stage_found (candidates fam (fun _ => true) ifs) maxIfs
      (fun n => negb (bool_decide (str_docker `prefix_of` n) || bool_decide (str_lo `prefix_of` n))) l.
Proof.
  apply find_stage with
    (wanted := fun n => xorb (matchIfList n (-1) [mkNetIf str_docker (-1); mkNetIf str_lo (-1)] false) true); [done|].
  intros n. cbn [matchIfList existsb prefix port]. rewrite !matchIf_bool.
  by destruct (bool_decide (str_docker `prefix_of` n)), (bool_decide (str_lo `prefix_of` n)).
Qed.
End stages.

(** Names with different first characters do not share a prefix. *)
Lemma prefix_heads (c d : Z) (p q n : list Z) : (c :: p) `prefix_of` n -> (d :: q) `prefix_of` n -> c = d.
Proof. intros [k ->] [k' E]. by injection E. Qed.

Lemma rank_ib n : rank n = 0%nat <-> bool_decide (str_ib `prefix_of` n) = true.
Proof. unfold rank. rewrite bool_decide_eq_true. repeat case_decide; naive_solver. Qed.
Lemma rank_others n : (rank n <= 1)%nat <->
  negb (bool_decide (str_docker `prefix_of` n) || bool_decide (str_lo `prefix_of` n)) = true.
Proof.
  unfold rank. rewrite negb_true_iff, orb_false_iff, !bool_decide_eq_false.
  repeat case_decide; split; intros; try lia; try done; try naive_solver.
  split; intros Hp; [by pose proof (prefix_heads _ _ _ _ _ H Hp)|by pose proof (prefix_heads _ _ _ _ _ H Hp)].
Qed.
Lemma rank_docker n : bool_decide (str_docker `prefix_of` n) = true -> rank n = 2%nat.
Proof.
  rewrite bool_decide_eq_true. intros Hp. unfold rank. rewrite decide_False, decide_True; [done|done|].
  intros Hi. by pose proof (prefix_heads _ _ _ _ _ Hi Hp).
Qed.
Lemma rank_lo n : bool_decide (str_lo `prefix_of` n) = true -> rank n = 3%nat.
Proof.
  rewrite bool_decide_eq_true. intros Hp. unfold rank. rewrite decide_False, decide_False, decide_True; [done|done|..];
    intros Hi; by pose proof (prefix_heads _ _ _ _ _ Hi Hp).
Qed.

(** ** Properties *)

(** the automatic choice of interfaces, when neither an interface nor an address
    is given: it finds an interface whenever one is usable - with an IPv4 or IPv6
    address of the allowed family, and not IPv6 loopback - and only such ones, each name
    once and at most [maxIfs]; and none of them is ranked behind an interface it left
    out (InfiniBand before others, docker's bridge and loopback last). *)
Theorem interface_choice (getaddrinfo : list Z -> option in_addr) (inet_pton6 : list Z -> list Z)
    (if_nametoindex : list Z -> Z) (E : SocketEnv) (room maxIfs : nat) (ifs : list ifaddrs) :
  socketIfname E = [] -> commId E = [] -> names_fit room ifs -> (0 < maxIfs)%nat ->
  let usable_ifs := candidates (envSocketFamily (socketFamily E)) (fun _ => true) ifs in
  exists l, FindInterfaces getaddrinfo inet_pton6 if_nametoindex E room maxIfs None ifs = Some (Ok l) /\
    NoDup (map fst l) /\ (length l <= maxIfs)%nat /\ l ⊆ usable_ifs /\ (l = [] <-> usable_ifs = []) /\
    forall n a n' a', (n, a) ∈ l -> (n', a') ∈ usable_ifs -> (rank n <= rank n')%nat.
Proof.
  intros Hi Hc Hfit Hm all. set (fam := envSocketFamily (socketFamily E)) in *.
  destruct (find_prefix fam room maxIfs ifs Hfit Hm str_ib) as (l1 & E1 & S1); [by left|].
  destruct (find_others fam room maxIfs ifs Hfit Hm) as (l2 & E2 & S2).
  destruct (find_prefix fam room maxIfs ifs Hfit Hm str_docker) as (l3 & E3 & S3); [by right; left|].
  destruct (find_prefix fam room maxIfs ifs Hfit Hm str_lo) as (l4 & E4 & S4); [by right; right|].
  assert (Hfin : forall l w, stage_found all maxIfs w l -> (l = [] -> all = []) ->
    (forall n n' a', w n = true -> (n', a') ∈ all -> (rank n <= rank n')%nat) ->
    NoDup (map fst l) /\ (length l <= maxIfs)%nat /\ l ⊆ all /\ (l = [] <-> all = []) /\
    forall n a n' a', (n, a) ∈ l -> (n', a') ∈ all -> (rank n <= rank n')%nat).
  { intros l w [H1 H2 H3 H4] Hnil Hr. split_and!; try done.
    - intros [n a] Hin. by apply H3.
    - split; [done|]. intros Ha. destruct l as [|[n a] l]; [done|]. destruct (H3 n a) as [_ Hin]; [by left|].
      rewrite Ha in Hin. by apply not_elem_of_nil in Hin.
    - intros n a n' a' Hin Hin'. eapply Hr; [by eapply H3|done]. }
  assert (Hlo : forall n, (2 <= rank n)%nat -> bool_decide (str_docker `prefix_of` n) = false -> bool_decide (str_lo `prefix_of` n) = true).
  { intros n Hr Hd. destruct (bool_decide (str_lo `prefix_of` n)) eqn:El; [done|]. 
    assert (rank n <= 1)%nat by (apply rank_others; by rewrite Hd, El). lia. }
  unfold FindInterfaces. rewrite Hi, Hc. rewrite !decide_False by (intros []; done). fold fam. rewrite E1, E2, E3, E4.
  pose proof (st_nil _ _ _ _ S1) as N1. pose proof (st_nil _ _ _ _ S2) as N2. pose proof (st_nil _ _ _ _ S3) as N3.
  destruct l1 as [|x1 l1]; [specialize (N1 eq_refl)|exists (x1 :: l1); split; [done|]; eapply Hfin; [done|done|]].
  2:{ intros n n' a' Hw _. apply rank_ib in Hw. lia. }
  destruct l2 as [|x2 l2]; [specialize (N2 eq_refl)|exists (x2 :: l2); split; [done|]; eapply Hfin; [done|done|]].
  2:{ intros n n' a' Hw Hin'. apply rank_others in Hw. pose proof (N1 _ _ Hin') as Hib.
      assert (rank n' <> 0%nat) by (rewrite rank_ib, Hib; done). lia. }
  assert (Hge : forall n a, (n, a) ∈ all -> (2 <= rank n)%nat).
  { intros n a Hin. pose proof (N2 _ _ Hin) as Hf. destruct (decide (rank n <= 1)%nat) as [Hr|]; [|lia].
    apply rank_others in Hr. congruence. }
  destruct l3 as [|x3 l3]; [specialize (N3 eq_refl)|exists (x3 :: l3); split; [done|]; eapply Hfin; [done|done|]].
  2:{ intros n n' a' Hw Hin'. apply rank_docker in Hw. rewrite Hw. by eapply Hge. }
  exists l4. split; [by destruct l4|]. eapply Hfin; [done| |].
  - intros ->. apply elem_of_nil_inv. intros [n a] Hin. pose proof (st_nil _ _ _ _ S4 eq_refl n a Hin) as Hf.
    cbn beta in Hf. rewrite Hlo in Hf; [done|by eapply Hge|by eapply N3].
  - intros n n' a' Hw Hin'. apply rank_lo in Hw. rewrite (rank_lo n'); [lia|]. apply Hlo; [by eapply Hge|by eapply N3].
Qed.

Definition demo_if (name : list Z) (d : Z) : ifaddrs := mkIf name (Some (mkIn AF_INET [10; 0; 0; d] 0)) [255; 255; 255; 0].
(** eth0, docker0, lo and an interface without an address. *)
Definition demo_ifs : list ifaddrs :=
  [demo_if (str_lo) 9; mkIf [101] None []; demo_if (str_docker ++ [48]) 2; demo_if [101; 116; 104; 48] 3].

Lemma interface_choice_witness :
  exists l, FindInterfaces (fun _ => None) (fun _ => []) (fun _ => 0) (mkSocketEnv [] [] []) 16 16 None demo_ifs = Some (Ok l) /\
    l <> [] /\ forall n a n' a', (n, a) ∈ l ->
      (n', a') ∈ candidates None (fun _ => true) demo_ifs -> (rank n <= rank n')%nat.
Proof.
  destruct (interface_choice (fun _ => None) (fun _ => []) (fun _ => 0) (mkSocketEnv [] [] []) 16 16 demo_ifs eq_refl eq_refl)
    as (l & E & _ & _ & _ & Hn & Hr).
  - repeat (apply Forall_cons; split; [simpl; lia|]). by apply Forall_nil.
  - lia.
  - exists l. split; [exact E|]. split; [|exact Hr]. intros ->. destruct Hn as [Hn _]. by discriminate (Hn eq_refl).
Defined.
