(* ===== verification/RegisteredMemory.v ===== *)
(** * RegisteredMemory: registration, serialization, import

    Models [RegisteredMemory::Impl] of src/core/registered_memory.cc: the
    constructor that registers local memory per transport, [serialize], and the
    constructor that rebuilds a (usually remote) memory from bytes and decides
    which pointer it may be accessed through.

    Calls into the CUDA driver and the verbs library are parameters: creating
    and importing an IPC handle, registering an IB memory region, granting
    access. *)

From S2P Require Import Prelude Errors Core.
Local Open Scope Z_scope.

(** [struct IbMrInfo]: address, key and four bytes of padding. *)
Record IbMrInfo := mkIbMrInfo { mr_addr : Z; mr_rkey : Z }.

(** [struct GpuIpcMemHandle], with the opaque CUDA handles as byte strings. *)
Record GpuIpcMemHandle := mkGpuIpcMemHandle {
  typeFlags : Z; baseSize : Z; offsetFromBase : Z;
  runtimeIpc : list Z; posix_pid : Z; posix_fd : Z;
  fabric_handle : list Z; fabric_allocHandle : Z
}.

Definition Type_None : Z := 0.
Definition Type_RuntimeIpc : Z := 1.
Definition Type_PosixFd : Z := 2.
Definition Type_Fabric : Z := 4.

Definition c_IbMrInfo : codec IbMrInfo :=
  c_map (c_pair (c_uint 8) (c_pair (c_uint 4) (c_blob 4)))
    (fun i => (mr_addr i, (mr_rkey i, [0; 0; 0; 0])))
    (fun '(a, (k, _)) => mkIbMrInfo a k) (fun i => match i with mkIbMrInfo _ _ => eq_refl end).

Definition c_GpuIpcMemHandle : codec GpuIpcMemHandle :=
  c_map (c_pair (c_pair (c_uint 1) (c_blob 7))
          (c_pair (c_pair c_u64 c_u64)
            (c_pair (c_blob 64) (c_pair (c_pair c_i32 c_i32) (c_pair (c_blob 64) c_u64)))))
    (fun h => ((typeFlags h, replicate 7 0), ((baseSize h, offsetFromBase h),
       (runtimeIpc h, ((posix_pid h, posix_fd h), (fabric_handle h, fabric_allocHandle h))))))
    (fun '((t, _), ((b, o), (r, ((p, f), (fh, fa))))) => mkGpuIpcMemHandle t b o r p f fh fa)
    (fun h => match h with mkGpuIpcMemHandle _ _ _ _ _ _ _ _ => eq_refl end).

(** [struct TransportInfo]: the union holds a CUDA IPC handle for [CudaIpc] and
    a memory-region description for the IB transports. *)
Inductive payload :=
  | PIpc (gpuIpcMemHandle : GpuIpcMemHandle)
  | PIb (ibMrInfo : IbMrInfo).

Record TransportInfo := mkTransportInfo {
  transport : Transport; ibLocal : bool; info : payload
}.

Record Impl := mkImpl {
  data : Z;                 (* 0 is [nullptr] *)
  originalDataPtr : Z;
  rm_size : Z;
  hostHash : Z;
  pidHash : Z;
  transports : TransportFlags;
  transportInfos : list TransportInfo
}.

(** The identity of a process: [getHostHash()], [getPidHash()]. *)
Record process := mkProcess { p_host : Z; p_pid : Z }.

(** ** Registration of local memory *)

Definition ib_transports : list Transport := [IB0; IB1; IB2; IB3; IB4; IB5; IB6; IB7].

Section local.
Context (createHandle : Z -> result GpuIpcMemHandle).
Context (registerMr : Transport -> Z -> Z -> result IbMrInfo).

(** The lambda [addIb], called for each IB transport of the flags in order. *)
Fixpoint addIbs (ts : list Transport) (flags : TransportFlags) (ptr size : Z)
    : result (list TransportInfo) :=
  match ts with
  | [] => Ok []
  | t :: ts' =>
      if hasb flags t then
        mr ← registerMr t ptr size;
        rest ← addIbs ts' flags ptr size;
        Ok (mkTransportInfo t true (PIb mr) :: rest)
      else addIbs ts' flags ptr size
  end.

Definition Impl_register (self : process) (ptr size : Z) (flags : TransportFlags) : result Impl :=
  ipc ← (if hasb flags CudaIpc
         then h ← createHandle ptr; Ok [mkTransportInfo CudaIpc false (PIpc h)]
         else Ok []);
  ibs ← (if flags_any (flags_and flags AllIBTransports)
         then addIbs ib_transports flags ptr size else Ok []);
  Ok (mkImpl ptr ptr size (p_host self) (p_pid self) flags (ipc ++ ibs)).
End local.

Fixpoint getTransportInfo (infos : list TransportInfo) (t : Transport) : result TransportInfo :=
  match infos with
  | [] => Throw (EError InternalError)
  | e :: rest => if decide (transport e = t) then Ok e else getTransportInfo rest t
  end.

(** ** Serialization *)

Definition serialize_info (buf : list Z) (e : TransportInfo) : result (list Z) :=
  let buf := serialize c_i32 buf (Transport_to_Z (transport e)) in
  match info e with
  | PIpc h => if decide (transport e = CudaIpc) then Ok (serialize c_GpuIpcMemHandle buf h)
              else Throw (EError InternalError)
  | PIb i => if hasb AllIBTransports (transport e) then Ok (serialize c_IbMrInfo buf i)
             else Throw (EError InternalError)
  end.

Fixpoint serialize_infos (buf : list Z) (es : list TransportInfo) : result (list Z) :=
  match es with
  | [] => Ok buf
  | e :: rest => buf' ← serialize_info buf e; serialize_infos buf' rest
  end.

Definition RegisteredMemory_serialize (m : Impl) : result (list Z) :=
  let r := serialize c_u64 [] (originalDataPtr m) in
  let r := serialize c_u64 r (rm_size m) in
  let r := serialize c_u64 r (hostHash m) in
  let r := serialize c_u64 r (pidHash m) in
  let r := serialize c_u64 r (transports m) in
  if 127 <? Z.of_nat (length (transportInfos m)) then Throw (EError InternalError)
  else
    let r := serialize c_i8 r (Z.of_nat (length (transportInfos m))) in
    serialize_infos r (transportInfos m).

(** ** Deserialization *)

(** One iteration of the loop over [transportCount]; the option is [None] when
    the code reads past the end of the buffer. *)
Definition parse_info (it : list Z) : option (result (TransportInfo * list Z)) :=
  '(raw, it) ← deserialize c_i32 it;
  match Transport_of_Z raw with
  | None => Some (Throw EStd)                 (* [AllIBTransports.has] throws *)
  | Some t =>
      if decide (t = CudaIpc) then
        '(h, it) ← deserialize c_GpuIpcMemHandle it;
        Some (Ok (mkTransportInfo t false (PIpc h), it))
      else if Transport_to_Z t <? TransportFlagsSize then
        if hasb AllIBTransports t then
          '(i, it) ← deserialize c_IbMrInfo it;
          Some (Ok (mkTransportInfo t false (PIb i), it))
        else Some (Throw (EError InternalError))
      else Some (Throw EStd)
  end.

Fixpoint parse_infos (n : nat) (it : list Z) : option (result (list TransportInfo * list Z)) :=
  match n with
  | O => Some (Ok ([], it))
  | S n' =>
      r ← parse_info it;
      match r with
      | Throw e => Some (Throw e)
      | Ok (e, it) =>
          r' ← parse_infos n' it;
          Some ('(es, it) ← r'; Ok (e :: es, it))
      end
  end.

(** The fields, up to the test that the whole buffer was consumed; [data] is
    still [nullptr]. *)
Definition parse_fields (bytes : list Z) : option (result Impl) :=
  '(orig, it) ← deserialize c_u64 bytes;
  '(sz, it) ← deserialize c_u64 it;
  '(hh, it) ← deserialize c_u64 it;
  '(ph, it) ← deserialize c_u64 it;
  '(fl, it) ← deserialize c_u64 it;
  '(cnt, it) ← deserialize c_i8 it;
  r ← parse_infos (Z.to_nat cnt) it;
  Some ('(es, it) ← r;
        match it with
        | [] => Ok (mkImpl 0 orig sz hh ph fl es)
        | _ => Throw (EError InternalError)
        end).

Section import.
Context (self : process) (currentDevice : Z).
Context (gpuIdFromAddress : Z -> Z).
Context (setReadWriteMemoryAccess : Z -> Z -> result ()).
(** [GpuIpcMem::create(handle)->map()]. *)
Context (importIpc : GpuIpcMemHandle -> result Z).

Definition is_base_error (e : exn) : bool := match e with EStd => false | _ => true end.

Definition set_data (m : Impl) (d : Z) : Impl :=
  mkImpl d (originalDataPtr m) (rm_size m) (hostHash m) (pidHash m) (transports m)
    (transportInfos m).

Definition ipc_handle_of (m : Impl) : result GpuIpcMemHandle :=
  e ← getTransportInfo (transportInfos m) CudaIpc;
  match info e with PIpc h => Ok h | PIb _ => Throw (EError InternalError) end.

(** "Next decide how to set this->data". *)
Definition decide_data (m : Impl) : result Impl :=
  if (p_host self =? hostHash m) && (p_pid self =? pidHash m) then
    let m' := set_data m (originalDataPtr m) in
    if hasb (transports m) CudaIpc then
      h ← ipc_handle_of m;
      if Z.land (typeFlags h) Type_RuntimeIpc =? 0 then
        if negb (gpuIdFromAddress (data m') =? currentDevice)
        then _ ← setReadWriteMemoryAccess (data m') (baseSize h); Ok m'
        else Ok m'
      else Ok m'
    else Ok m'
  else if hasb (transports m) CudaIpc then
    h ← ipc_handle_of m;
    let hasIB := flags_any (flags_and (transports m) AllIBTransports) in
    match importIpc h with
    | Ok d => Ok (set_data m d)
    | Throw e => if is_base_error e && hasIB then Ok m else Throw e
    end
  else Ok m.

Definition RegisteredMemory_deserialize (bytes : list Z) : option (result Impl) :=
  r ← parse_fields bytes; Some (m ← r; decide_data m).
End import.

(** ** Well-formedness *)

Definition info_wf (e : TransportInfo) : Prop :=
  match info e with
  | PIpc h => transport e = CudaIpc /\ cwf c_GpuIpcMemHandle h
  | PIb i => isIB (transport e) = true /\ cwf c_IbMrInfo i
  end.

Definition impl_wf (m : Impl) : Prop :=
  is_u 64 (originalDataPtr m) /\ is_u 64 (rm_size m) /\ is_u 64 (hostHash m) /\
  is_u 64 (pidHash m) /\ is_u 11 (transports m) /\
  (length (transportInfos m) <= 127)%nat /\ Forall info_wf (transportInfos m).

(** What the receiver reads back before it decides on [data]: the same fields,
    every IB region marked remote. *)
Definition remote_info (e : TransportInfo) : TransportInfo :=
  mkTransportInfo (transport e) false (info e).
Definition remote_view (m : Impl) : Impl :=
  mkImpl 0 (originalDataPtr m) (rm_size m) (hostHash m) (pidHash m) (transports m)
    (map remote_info (transportInfos m)).

Definition info_bytes (e : TransportInfo) : list Z :=
  enc c_i32 (Transport_to_Z (transport e)) ++
  match info e with PIpc h => enc c_GpuIpcMemHandle h | PIb i => enc c_IbMrInfo i end.

Definition header_bytes (m : Impl) : list Z :=
  enc c_u64 (originalDataPtr m) ++ enc c_u64 (rm_size m) ++ enc c_u64 (hostHash m) ++
  enc c_u64 (pidHash m) ++ enc c_u64 (transports m) ++
  enc c_i8 (Z.of_nat (length (transportInfos m))).

Lemma serialize_info_ok buf e : info_wf e -> serialize_info buf e = Ok (buf ++ info_bytes e).
Proof.
  unfold info_wf, serialize_info, info_bytes, serialize. destruct (info e).
  - intros [-> ?]. rewrite decide_True by done. by rewrite <- app_assoc.
  - intros [H ?]. rewrite hasb_AllIB, H. by rewrite <- app_assoc.
Qed.

Lemma serialize_infos_ok es buf :
  Forall info_wf es -> serialize_infos buf es = Ok (buf ++ concat (map info_bytes es)).
Proof.
  intros H. revert buf. induction H as [|e es He Hes IH]; intros buf; simpl.
  - by rewrite app_nil_r.
  - rewrite serialize_info_ok by done. simpl. by rewrite IH, <- app_assoc.
Qed.

Lemma parse_info_bytes e rest :
  info_wf e -> parse_info (info_bytes e ++ rest) = Some (Ok (remote_info e, rest)).
Proof.
  unfold info_wf, parse_info, info_bytes, remote_info. intros H. rewrite <- app_assoc.
  pose proof (Transport_range (transport e)).
  rewrite deserialize_enc by (simpl; lia). cbn [mbind option_bind]. rewrite transport_of_to.
  destruct (info e) as [h|i].
  - destruct H as [-> Hh]. rewrite decide_True by done. by rewrite deserialize_enc.
  - destruct H as [Hib Hi]. rewrite decide_False by (by intros E; rewrite E in Hib).
    rewrite hasb_AllIB, Hib.
    replace (Transport_to_Z (transport e) <? TransportFlagsSize) with true
      by (by destruct (transport e)).
    by rewrite deserialize_enc.
Qed.

Lemma parse_infos_bytes es rest :
  Forall info_wf es ->
  parse_infos (length es) (concat (map info_bytes es) ++ rest) = Some (Ok (map remote_info es, rest)).
Proof.
  induction 1 as [|e es He Hes IH]; [done|].
  cbn [length map concat parse_infos]. rewrite <- app_assoc.
  rewrite parse_info_bytes by done. cbn [mbind option_bind]. by rewrite IH.
Qed.

Lemma serialize_layout m :
  impl_wf m -> RegisteredMemory_serialize m =
    Ok (header_bytes m ++ concat (map info_bytes (transportInfos m))).
Proof.
  intros (H1 & H2 & H3 & H4 & H5 & H6 & H7). unfold RegisteredMemory_serialize.
  destruct (Z.ltb_spec 127 (Z.of_nat (length (transportInfos m)))); [lia|].
  rewrite serialize_infos_ok by done. unfold serialize, header_bytes. rewrite app_nil_l.
  by rewrite <- !app_assoc.
Qed.

Lemma parse_header m rest :
  impl_wf m ->
  parse_fields (header_bytes m ++ rest) =
    (r ← parse_infos (length (transportInfos m)) rest;
     Some ('(es, it) ← r;
           match it with
           | [] => Ok (mkImpl 0 (originalDataPtr m) (rm_size m) (hostHash m) (pidHash m)
                         (transports m) es)
           | _ => Throw (EError InternalError)
           end)).
Proof.
  intros (H1 & H2 & H3 & H4 & H5 & H6 & H7). unfold parse_fields, header_bytes, is_u in *.
  rewrite <- !app_assoc.
  do 6 (rewrite deserialize_enc by (simpl; lia); cbn [mbind option_bind]).
  by rewrite Nat2Z.id.
Qed.

(** Which transports [addIbs] registers, in order. *)
Lemma addIbs_ok registerMr ts flags ptr size es :
  addIbs registerMr ts flags ptr size = Ok es ->
  map transport es = filter (fun t => hasb flags t = true) ts /\
  Forall (fun e => exists i, info e = PIb i /\ ibLocal e = true /\
            registerMr (transport e) ptr size = Ok i) es.
Proof.
  revert es. induction ts as [|t ts IH]; intros es H; simpl in H; [by inv_ok|].
  rewrite filter_cons. destruct (hasb flags t) eqn:Ht.
  - inv_ok. destruct (IH _ H1) as [E F]. rewrite decide_True by done. simpl. rewrite E.
    split; [done|]. constructor; [|done]. by exists v.
  - rewrite decide_False by done. by apply IH.
Qed.

Lemma getTransportInfo_in infos t :
  In t (map transport infos) -> exists e, getTransportInfo infos t = Ok e /\ transport e = t /\ In e infos.
Proof.
  induction infos as [|e infos IH]; simpl; [done|]. intros H.
  case_decide as Hd; [by exists e; auto|]. destruct H as [|H]; [done|].
  destruct (IH H) as (e' & ? & ? & ?). exists e'. auto.
Qed.

Lemma getTransportInfo_notin infos t :
  ~ In t (map transport infos) -> getTransportInfo infos t = Throw (EError InternalError).
Proof.
  induction infos as [|e infos IH]; simpl; [done|]. intros H. rewrite decide_False by naive_solver.
  apply IH. naive_solver.
Qed.

Lemma flags_any_AllIB flags :
  is_u 11 flags -> flags_any (flags_and flags AllIBTransports) = false ->
  forall t, isIB t = true -> hasb flags t = false.
Proof.
  intros Hf Hany t Ht. unfold flags_any in Hany. apply negb_false_iff, Z.eqb_eq in Hany.
  apply (f_equal (fun z => Z.testbit z (Transport_to_Z t))) in Hany.
  unfold flags_and in Hany. rewrite Z.land_spec, Z.bits_0 in Hany.
  pose proof (hasb_AllIB t) as HA. unfold hasb in *. rewrite HA, Ht, andb_true_r in Hany. done.
Qed.

Lemma register_transports createHandle registerMr self ptr size flags m :
  is_u 11 flags -> Impl_register createHandle registerMr self ptr size flags = Ok m ->
  map transport (transportInfos m) =
    filter (fun t => hasb flags t = true) (CudaIpc :: ib_transports).
Proof.
  intros Hf H. unfold Impl_register in H. inv_ok. simpl. rewrite map_app, filter_cons.
  assert (Hib : map transport v0 = filter (fun t => hasb flags t = true) ib_transports).
  { destruct (flags_any (flags_and flags AllIBTransports)) eqn:Hany.
    - by eapply addIbs_ok.
    - inv_ok. simpl. symmetry.
      assert (Hn := flags_any_AllIB _ Hf Hany). unfold ib_transports.
      by rewrite !filter_cons, !decide_False by (by rewrite Hn). }
  rewrite Hib. destruct (hasb flags CudaIpc) eqn:Hc; [rewrite decide_True by done|
    rewrite decide_False by done]; inv_ok; done.
Qed.

(** ** Results *)

(** C28: whatever was serialized is read back unchanged: the receiver obtains the
    original pointer, size, owner, flags and every transport entry, with each IB
    region marked remote; bytes left over after the last entry are rejected. *)
Theorem registered_memory_roundtrip m rest :
  impl_wf m ->
  exists bytes, RegisteredMemory_serialize m = Ok bytes /\
    parse_fields bytes = Some (Ok (remote_view m)) /\
    (rest <> [] -> parse_fields (bytes ++ rest) = Some (Throw (EError InternalError))).
Proof.
  intros Hwf. pose proof Hwf as (_ & _ & _ & _ & _ & _ & Hinfos).
  eexists. split; [by apply serialize_layout|]. split.
  - rewrite parse_header by done.
    rewrite <- (app_nil_r (concat _)), parse_infos_bytes by done. done.
  - intros Hrest. rewrite <- app_assoc, parse_header by done.
    rewrite parse_infos_bytes by done. simpl. by destruct rest.
Qed.

(** A memory registered for CUDA IPC and two IB devices. *)
Definition demo_handle : GpuIpcMemHandle :=
  mkGpuIpcMemHandle 3 4096 16 (replicate 64 7) 42 5 (replicate 64 9) 0.
Definition demo_impl : Impl :=
  mkImpl 140000 140000 1024 11 22
    (flags_or (TransportFlags_of CudaIpc) (flags_or (TransportFlags_of IB0) (TransportFlags_of IB3)))
    [mkTransportInfo CudaIpc false (PIpc demo_handle);
     mkTransportInfo IB0 true (PIb (mkIbMrInfo 140000 77));
     mkTransportInfo IB3 true (PIb (mkIbMrInfo 140000 78))].

Lemma demo_impl_wf : impl_wf demo_impl.
Proof. repeat split; try done; repeat constructor; try done. Qed.

Lemma registered_memory_roundtrip_witness :
  exists bytes, RegisteredMemory_serialize demo_impl = Ok bytes /\
    parse_fields bytes = Some (Ok (remote_view demo_impl)) /\
    ([0] <> [] -> parse_fields (bytes ++ [0]) = Some (Throw (EError InternalError))).
Proof. apply registered_memory_roundtrip. exact demo_impl_wf. Defined.

(** registering memory creates exactly one entry for each registered
    transport among CudaIpc and IB0..IB7, in that order: [getTransportInfo]
    finds the entry of every such transport in the flags, marked local for IB,
    and fails with InternalError for every other one. *)
Theorem register_covers_flags createHandle registerMr self ptr size flags m t :
  is_u 11 flags -> Impl_register createHandle registerMr self ptr size flags = Ok m ->
  t = CudaIpc \/ isIB t = true ->
  if hasb flags t
  then exists e, getTransportInfo (transportInfos m) t = Ok e /\ transport e = t
  else getTransportInfo (transportInfos m) t = Throw (EError InternalError).
Proof.
  intros Hf H Ht. pose proof (register_transports _ _ _ _ _ _ _ Hf H) as E.
  assert (Hin : In t (map transport (transportInfos m)) <-> hasb flags t = true).
  { rewrite E, <- list_elem_of_In, list_elem_of_filter, list_elem_of_In. split; [by intros [? _]|].
    intros Hh. split; [done|]. simpl. destruct Ht as [->|Ht]; [auto|].
    destruct t; simpl in Ht; try done; tauto. }
  destruct (hasb flags t) eqn:Hh.
  - destruct (getTransportInfo_in (transportInfos m) t) as (e & ? & ? & _); [by apply Hin|eauto].
  - apply getTransportInfo_notin. intros Hi. apply Hin in Hi. done.
Qed.

Lemma register_covers_flags_witness :
  exists e, getTransportInfo (transportInfos
      (mkImpl 8 8 64 1 2 4 [mkTransportInfo IB0 true (PIb (mkIbMrInfo 8 5))])) IB0 = Ok e /\
    transport e = IB0.
Proof.
  apply (register_covers_flags (fun _ => Throw ECudaError) (fun t p s => Ok (mkIbMrInfo p 5))
           (mkProcess 1 2) 8 64 4 _ IB0); [by split|reflexivity|by right].
Defined.

(** importing a serialized memory never fails for a reason other than the
    driver's: in the owner's process the original pointer is used; elsewhere a
    memory with CudaIpc is mapped through its IPC handle, and when that import
    fails it is still returned, without a pointer, if it is also registered for
    an IB transport (and the failure is rethrown if not); without CudaIpc no
    pointer is set. *)
Theorem import_decides_data self dev gpuId access importIpc m h :
  impl_wf m -> (hasb (transports m) CudaIpc = true -> ipc_handle_of (remote_view m) = Ok h) ->
  (forall p s, access p s = Ok ()) ->
  exists bytes, RegisteredMemory_serialize m = Ok bytes /\
    RegisteredMemory_deserialize self dev gpuId access importIpc bytes = Some (
      if (p_host self =? hostHash m) && (p_pid self =? pidHash m)
      then Ok (set_data (remote_view m) (originalDataPtr m))
      else if hasb (transports m) CudaIpc then
        match importIpc h with
        | Ok d => Ok (set_data (remote_view m) d)
        | Throw e =>
            if is_base_error e && flags_any (flags_and (transports m) AllIBTransports)
            then Ok (remote_view m) else Throw e
        end
      else Ok (remote_view m)).
Proof.
  intros Hwf Hh Hacc. pose proof Hwf as (_ & _ & _ & _ & _ & _ & Hinfos).
  eexists. split; [by apply serialize_layout|]. unfold RegisteredMemory_deserialize.
  rewrite parse_header by done.
  rewrite <- (app_nil_r (concat _)), parse_infos_bytes by done.
  cbn [mbind option_bind result_bind]. f_equal.
  fold (remote_view m). unfold decide_data. cbn [remote_view hostHash pidHash transports].
  destruct ((p_host self =? hostHash m) && (p_pid self =? pidHash m)).
  - destruct (hasb (transports m) CudaIpc); [|done]. rewrite Hh by done. simpl.
    destruct (Z.land (typeFlags h) Type_RuntimeIpc =? 0); [|done].
    destruct (negb _); [|done]. by rewrite Hacc.
  - destruct (hasb (transports m) CudaIpc); [|done]. rewrite Hh by done. simpl.
    by destruct (importIpc h).
Qed.

Lemma import_decides_data_witness :
  exists bytes, RegisteredMemory_serialize demo_impl = Ok bytes /\
    RegisteredMemory_deserialize (mkProcess 12 22) 0 (fun _ => 0) (fun _ _ => Ok ())
      (fun _ => Throw (EError Aborted)) bytes = Some (Ok (remote_view demo_impl)).
Proof.
  apply (import_decides_data (mkProcess 12 22) 0 (fun _ => 0) (fun _ _ => Ok ())
           (fun _ => Throw (EError Aborted)) demo_impl demo_handle); [exact demo_impl_wf|done..].
Defined.
