(* ===== verification/Endpoint.v ===== *)
(** * Endpoints

    Models [EndpointConfig] (include/mscclpp/core.hpp) and [Endpoint::Impl]
    (src/core/endpoint.cc: construction, [serialize], [deserialize]).

    What the IB device, the environment variables and the network interfaces say
    is a parameter: it is read once, at construction. *)

From S2P Require Import Prelude Errors Core RegisteredMemory.
Local Open Scope Z_scope.

(** [EndpointConfig::Ib::Mode] *)
Inductive IbMode := ModeDefault | ModeHost | ModeHostNoAtomic.

#[export] Instance IbMode_eq_dec : EqDecision IbMode.
Proof. solve_decision. Defined.

Definition IbMode_to_Z (m : IbMode) : Z :=
  match m with ModeDefault => 0 | ModeHost => 1 | ModeHostNoAtomic => 2 end.
Definition IbMode_of_Z (z : Z) : option IbMode :=
  match z with 0 => Some ModeDefault | 1 => Some ModeHost | 2 => Some ModeHostNoAtomic | _ => None end.
Definition DeviceType_of_Z (z : Z) : option DeviceType :=
  match z with 0 => Some DUnknown | 1 => Some DCPU | 2 => Some DGPU | _ => None end.

Definition DefaultPort : Z := -1.
Definition DefaultGidIndex : Z := -1.
Definition DefaultMaxCqSize : Z := 1024.
Definition DefaultMaxCqPollNum : Z := 1.
Definition DefaultMaxSendWr : Z := 8192.
Definition DefaultMaxRecvWr : Z := 16.
Definition DefaultMaxWrPerSend : Z := 64.

(** [EndpointConfig::Ib] *)
Record IbConfig := mkIbConfig {
  deviceIndex : Z; port : Z; gidIndex : Z; maxCqSize : Z; maxCqPollNum : Z;
  maxSendWr : Z; maxRecvWr : Z; maxWrPerSend : Z; mode : IbMode
}.

Definition IbConfig_default : IbConfig :=
  mkIbConfig (-1) DefaultPort DefaultGidIndex DefaultMaxCqSize DefaultMaxCqPollNum
    DefaultMaxSendWr DefaultMaxRecvWr DefaultMaxWrPerSend ModeDefault.

Record EndpointConfig := mkEndpointConfig {
  ec_transport : Transport; ec_device : Device; ec_maxWriteQueueSize : Z; ec_ib : IbConfig
}.

(** [struct IbQpInfo] *)
Record IbQpInfo := mkIbQpInfo {
  qi_lid : Z; qi_linkLayer : Z; qi_qpn : Z; qi_spn : Z; qi_mtu : Z; qi_iid : Z; qi_isGrh : bool
}.

Record EndpointImpl := mkEndpointImpl {
  config_ : EndpointConfig;
  ep_hostHash : Z;
  ep_pidHash : Z;
  ibLocal_ : bool;               (* the IB members are meaningful for IB transports only *)
  ibNoAtomic_ : bool;
  ibQpInfo_ : IbQpInfo;
  socketAddress_ : list Z        (* Ethernet only *)
}.

Definition no_qp : IbQpInfo := mkIbQpInfo 0 0 0 0 0 0 false.
Definition sizeof_SocketAddress : nat := 28.
Definition no_addr : list Z := replicate sizeof_SocketAddress 0.

(** ** Construction *)

Section construct.
Context (self : process) (cudaGetDevice : Z).
Context (ibvMode_host_no_atomic : bool) (env_ibGidIndex : Z).
Context (supportsRdmaAtomics : Transport -> bool).
(** [createQp(port, gidIndex, maxCqSize, maxCqPollNum, maxSendWr, maxRecvWr, maxWrPerSend, noAtomic)] *)
Context (createQp : Transport -> Z -> Z -> Z -> Z -> Z -> Z -> Z -> bool -> result IbQpInfo).
(** [FindInterfaces] followed by [bindAndListen] and [getAddr]. *)
Context (listenAddr : option (list Z)).

(** [ibNoAtomic_], from the mode, the environment and the device. *)
Definition resolve_no_atomic (t : Transport) (m : IbMode) : bool :=
  let na := match m with
            | ModeHostNoAtomic => true
            | ModeDefault => ibvMode_host_no_atomic
            | ModeHost => false
            end in
  if negb na then negb (supportsRdmaAtomics t) else na.

Definition resolve_device (d : Device) : Device :=
  match dev_type d with
  | DGPU => if dev_id d <? 0 then mkDevice DGPU cudaGetDevice else d
  | _ => d
  end.

Definition Endpoint_create (c : EndpointConfig) : result EndpointImpl :=
  let dev := resolve_device (ec_device c) in
  if hasb AllIBTransports (ec_transport c) then
    let ib := ec_ib c in
    let wq := if ec_maxWriteQueueSize c <=? 0 then maxCqSize ib else ec_maxWriteQueueSize c in
    let na := resolve_no_atomic (ec_transport c) (mode ib) in
    let gid := if gidIndex ib <? 0 then env_ibGidIndex else gidIndex ib in
    let ib' := mkIbConfig (deviceIndex ib) (port ib) gid (maxCqSize ib) (maxCqPollNum ib)
                 (maxSendWr ib) (maxRecvWr ib) (maxWrPerSend ib) (mode ib) in
    let maxRecv := if na then maxRecvWr ib else 0 in
    qp ← createQp (ec_transport c) (port ib) gid (maxCqSize ib) (maxCqPollNum ib)
           (maxSendWr ib) maxRecv (maxWrPerSend ib) na;
    Ok (mkEndpointImpl (mkEndpointConfig (ec_transport c) dev wq ib') (p_host self) (p_pid self)
          true na qp no_addr)
  else
    let c' := mkEndpointConfig (ec_transport c) dev (ec_maxWriteQueueSize c) (ec_ib c) in
    if decide (ec_transport c = Ethernet) then
      match listenAddr with
      | None => Throw (EError InternalError)
      | Some a => Ok (mkEndpointImpl c' (p_host self) (p_pid self) false false no_qp a)
      end
    else Ok (mkEndpointImpl c' (p_host self) (p_pid self) false false no_qp no_addr).
End construct.

(** ** Serialization: the object bytes of the configuration, thirteen [int]s *)

Definition c_ints5 : codec (Z * (Z * (Z * (Z * Z)))) :=
  c_pair c_i32 (c_pair c_i32 (c_pair c_i32 (c_pair c_i32 c_i32))).

(** transport, device type, device id, queue size; then the IB options. *)
Definition c_rawConfig := c_pair (c_pair c_i32 (c_pair c_i32 (c_pair c_i32 c_i32)))
                            (c_pair c_ints5 (c_pair c_i32 (c_pair c_i32 (c_pair c_i32 c_i32)))).

Definition config_raw (c : EndpointConfig) :=
  let ib := ec_ib c in
  ((Transport_to_Z (ec_transport c),
    (DeviceType_to_Z (dev_type (ec_device c)), (dev_id (ec_device c), ec_maxWriteQueueSize c))),
   ((deviceIndex ib, (port ib, (gidIndex ib, (maxCqSize ib, maxCqPollNum ib)))),
    (maxSendWr ib, (maxRecvWr ib, (maxWrPerSend ib, IbMode_to_Z (mode ib)))))).

(** [None]: a value outside an enumeration. *)
Definition config_of_raw (r : Z * (Z * (Z * Z)) * (Z * (Z * (Z * (Z * Z))) * (Z * (Z * (Z * Z)))))
    : option EndpointConfig :=
  let '((t, (dt, (di, wq))), ((ix, (pt, (gid, (cq, cp)))), (sw, (rw, (wps, m))))) := r in
  t' ← Transport_of_Z t;
  dt' ← DeviceType_of_Z dt;
  m' ← IbMode_of_Z m;
  Some (mkEndpointConfig t' (mkDevice dt' di) wq (mkIbConfig ix pt gid cq cp sw rw wps m')).

Definition c_IbQpInfo : codec IbQpInfo :=
  c_map (c_pair (c_pair (c_uint 2) (c_pair (c_uint 1) (c_blob 1)))
          (c_pair (c_uint 4) (c_pair c_u64 (c_pair (c_pair c_i32 (c_blob 4))
            (c_pair c_u64 (c_pair c_bool (c_blob 7)))))))
    (fun q => ((qi_lid q, (qi_linkLayer q, [0])), (qi_qpn q, (qi_spn q, ((qi_mtu q, replicate 4 0),
                (qi_iid q, (qi_isGrh q, replicate 7 0)))))))
    (fun '((l, (ll, _)), (n, (s, ((mt, _), (i, (g, _)))))) => mkIbQpInfo l ll n s mt i g)
    (fun q => match q with mkIbQpInfo _ _ _ _ _ _ _ => eq_refl end).

Definition Endpoint_serialize (e : EndpointImpl) : list Z :=
  let d := serialize c_rawConfig [] (config_raw (config_ e)) in
  let d := serialize c_u64 d (ep_hostHash e) in
  let d := serialize c_u64 d (ep_pidHash e) in
  if hasb AllIBTransports (ec_transport (config_ e)) then
    serialize c_bool (serialize c_IbQpInfo d (ibQpInfo_ e)) (ibNoAtomic_ e)
  else if decide (ec_transport (config_ e) = Ethernet) then
    serialize (c_blob sizeof_SocketAddress) d (socketAddress_ e)
  else d.

(** [if (it != serialization.end()) throw]. *)
Definition at_end (it : list Z) (e : EndpointImpl) : result EndpointImpl :=
  match it with [] => Ok e | _ => Throw (EError Aborted) end.

Definition Endpoint_deserialize (bytes : list Z) : option (result EndpointImpl) :=
  '(raw, it) ← deserialize c_rawConfig bytes;
  c ← config_of_raw raw;
  '(hh, it) ← deserialize c_u64 it;
  '(ph, it) ← deserialize c_u64 it;
  if Transport_to_Z (ec_transport c) <? TransportFlagsSize then
    if hasb AllIBTransports (ec_transport c) then
      '(q, it) ← deserialize c_IbQpInfo it;
      '(na, it) ← deserialize c_bool it;
      Some (at_end it (mkEndpointImpl c hh ph false na q no_addr))
    else if decide (ec_transport c = Ethernet) then
      '(a, it) ← deserialize (c_blob sizeof_SocketAddress) it;
      Some (at_end it (mkEndpointImpl c hh ph false false no_qp a))
    else Some (at_end it (mkEndpointImpl c hh ph false false no_qp no_addr))
  else Some (Throw EStd).

(** The first checks of [Context::connect]. *)
Definition gpu_without_id (d : Device) : bool :=
  match dev_type d with DGPU => dev_id d <? 0 | _ => false end.

(** ** Lemmas *)

Definition int32 (z : Z) : Prop := - 2 ^ 31 <= z < 2 ^ 31.

Definition config_wf (c : EndpointConfig) : Prop :=
  ec_transport c <> NumTransports /\ int32 (dev_id (ec_device c)) /\
  int32 (ec_maxWriteQueueSize c) /\ int32 (deviceIndex (ec_ib c)) /\ int32 (port (ec_ib c)) /\
  int32 (gidIndex (ec_ib c)) /\ int32 (maxCqSize (ec_ib c)) /\ int32 (maxCqPollNum (ec_ib c)) /\
  int32 (maxSendWr (ec_ib c)) /\ int32 (maxRecvWr (ec_ib c)) /\ int32 (maxWrPerSend (ec_ib c)).

Definition endpoint_wf (e : EndpointImpl) : Prop :=
  config_wf (config_ e) /\ is_u 64 (ep_hostHash e) /\ is_u 64 (ep_pidHash e) /\
  cwf c_IbQpInfo (ibQpInfo_ e) /\ length (socketAddress_ e) = sizeof_SocketAddress.

Lemma config_raw_wf c : config_wf c -> cwf c_rawConfig (config_raw c).
Proof.
  intros (H1 & H2 & H3 & H4 & H5 & H6 & H7 & H8 & H9 & H10 & H11). unfold int32 in *.
  pose proof (Transport_range (ec_transport c)). simpl.
  assert (0 <= DeviceType_to_Z (dev_type (ec_device c)) <= 2) by (by destruct (dev_type _)).
  assert (0 <= IbMode_to_Z (mode (ec_ib c)) <= 2) by (by destruct (mode _)).
  split_and!; lia.
Qed.

Lemma config_of_raw_raw c : config_of_raw (config_raw c) = Some c.
Proof.
  destruct c as [t [dt di] wq [ix pt gid cq cp sw rw wps m]].
  unfold config_raw, config_of_raw. cbn [ec_transport ec_device ec_ib dev_type dev_id mode].
  rewrite transport_of_to. cbn [mbind option_bind]. by destruct dt, m.
Qed.

(** The endpoint a peer sees: the members its transport does not use are unset,
    and the queue pair is remote. *)
Definition peer_view (e : EndpointImpl) : EndpointImpl :=
  let t := ec_transport (config_ e) in
  mkEndpointImpl (config_ e) (ep_hostHash e) (ep_pidHash e) false
    (if isIB t then ibNoAtomic_ e else false)
    (if isIB t then ibQpInfo_ e else no_qp)
    (if decide (t = Ethernet) then socketAddress_ e else no_addr).

(** ** Results *)

(** an endpoint sent to a peer is rebuilt there with the same configuration,
    owner and transport-specific part; trailing bytes are rejected. *)
Theorem endpoint_roundtrip e rest :
  endpoint_wf e ->
  Endpoint_deserialize (Endpoint_serialize e) = Some (Ok (peer_view e)) /\
  (rest <> [] -> Endpoint_deserialize (Endpoint_serialize e ++ rest) = Some (Throw (EError Aborted))).
Proof.
  intros (Hc & Hh & Hp & Hq & Ha). pose proof (config_raw_wf _ Hc) as Hraw.
  assert (Hgen : forall rest, Endpoint_deserialize (Endpoint_serialize e ++ rest) =
                   Some (at_end rest (peer_view e))).
  { intros r. unfold Endpoint_serialize, Endpoint_deserialize, serialize, peer_view.
    rewrite app_nil_l, hasb_AllIB. unfold is_u in *. destruct Hc as [Hnum _].
    destruct (isIB (ec_transport (config_ e))) eqn:Hib; [|case_decide as Heth];
      rewrite <- !app_assoc;
      (rewrite deserialize_enc by done); cbn [mbind option_bind]; rewrite config_of_raw_raw;
      cbn [mbind option_bind];
      do 2 (rewrite deserialize_enc by (simpl; lia); cbn [mbind option_bind]);
      rewrite hasb_AllIB, Hib;
      (replace (Transport_to_Z (ec_transport (config_ e)) <? TransportFlagsSize) with true
        by (by destruct (ec_transport (config_ e)))).
    - rewrite deserialize_enc by done. cbn [mbind option_bind].
      rewrite deserialize_enc by done. cbn [mbind option_bind].
      rewrite decide_False; [done|]. intros E. by rewrite E in Hib.
    - rewrite decide_True by done. rewrite deserialize_enc by done. done.
    - rewrite decide_False by done. done. }
  split.
  - rewrite <- (app_nil_r (Endpoint_serialize e)). apply Hgen.
  - intros Hr. rewrite Hgen. by destruct rest.
Qed.

Definition demo_endpoint : EndpointImpl :=
  mkEndpointImpl (mkEndpointConfig IB2 (mkDevice DGPU 3) 1024 IbConfig_default) 99 100 true true
    (mkIbQpInfo 1 1 1234 5678 4 91011 true) no_addr.

Lemma endpoint_roundtrip_witness :
  Endpoint_deserialize (Endpoint_serialize demo_endpoint) = Some (Ok (peer_view demo_endpoint)) /\
  ([1] <> [] -> Endpoint_deserialize (Endpoint_serialize demo_endpoint ++ [1]) =
     Some (Throw (EError Aborted))).
Proof. apply endpoint_roundtrip. repeat split; done. Defined.

(** an IB endpoint always ends up with a usable configuration: a positive
    write-queue bound when the completion queue has one, a resolved signaling
    mode that uses atomics only on a device that supports them, receive
    requests only in write-with-immediate mode, and a GPU with an id. *)
Theorem endpoint_ib_resolution self dev na gid atomics createQp addr c e :
  hasb AllIBTransports (ec_transport c) = true -> 0 < maxCqSize (ec_ib c) -> 0 <= dev ->
  Endpoint_create self dev na gid atomics createQp addr c = Ok e ->
  0 < ec_maxWriteQueueSize (config_ e) /\
  (ibNoAtomic_ e = false -> atomics (ec_transport c) = true /\ mode (ec_ib c) <> ModeHostNoAtomic) /\
  (mode (ec_ib c) = ModeHostNoAtomic -> ibNoAtomic_ e = true) /\
  gpu_without_id (ec_device (config_ e)) = false /\
  createQp (ec_transport c) (port (ec_ib c)) (gidIndex (ec_ib (config_ e))) (maxCqSize (ec_ib c))
    (maxCqPollNum (ec_ib c)) (maxSendWr (ec_ib c)) (if ibNoAtomic_ e then maxRecvWr (ec_ib c) else 0)
    (maxWrPerSend (ec_ib c)) (ibNoAtomic_ e) = Ok (ibQpInfo_ e).
Proof.
  intros Hib Hcq Hdev H. unfold Endpoint_create in H. rewrite Hib in H. inv_ok. simpl.
  unfold resolve_no_atomic, gpu_without_id, resolve_device.
  split_and!.
  - destruct (Z.leb_spec (ec_maxWriteQueueSize c) 0); lia.
  - destruct (mode (ec_ib c)), na, (atomics (ec_transport c)); simpl; done.
  - by destruct (mode (ec_ib c)).
  - destruct (ec_device c) as [ty id]. destruct ty; simpl; try done.
    destruct (Z.ltb_spec id 0); simpl; apply Z.ltb_ge; lia.
  - done.
Qed.

Lemma endpoint_ib_resolution_witness :
  0 < ec_maxWriteQueueSize (config_ (mkEndpointImpl
    (mkEndpointConfig IB2 (mkDevice DGPU 3) 1024 (mkIbConfig (-1) (-1) 7 1024 1 8192 16 64 ModeDefault))
    1 2 true true no_qp no_addr)).
Proof.
  apply (endpoint_ib_resolution (mkProcess 1 2) 3 false 7 (fun _ => false)
    (fun _ _ _ _ _ _ _ _ _ => Ok no_qp) None
    (mkEndpointConfig IB2 (mkDevice DGPU (-1)) (-1) IbConfig_default)); reflexivity || done.
Defined.
