(* ===== verification/Semaphore.v ===== *)
(** * Semaphores

    Device side (include/mscclpp/semaphore_device.hpp): the inbound token a peer
    raises, the expected token the local device counts waits in, [poll], [wait]
    and the device-to-device [signal].  Host side (src/core/semaphore.cc): the
    semaphore stub and its exchange, the checks of the three semaphore classes,
    [Host2HostSemaphore::poll] and [wait] with their timeout.

    Threads interleave step by step: the increment of the expected token and each load of one
    of the tokens, in [wait] and in [poll], are separate atomic accesses. *)

From S2P Require Import Prelude Errors Core RegisteredMemory.
Local Open Scope Z_scope.

(** ** Device handles *)

Record SemaphoreHandle := mkSem { inboundToken : Z; expectedInboundToken : Z }.

Definition loadInbound (h : SemaphoreHandle) : Z := inboundToken h.
Definition loadExpectedInbound (h : SemaphoreHandle) : Z := expectedInboundToken h.

(** [atomicFetchAdd(expectedInboundToken, 1) + 1]. *)
Definition incExpectedInbound (h : SemaphoreHandle) : Z * SemaphoreHandle :=
  let old := expectedInboundToken h in
  (u64 (old + 1), mkSem (inboundToken h) (u64 (old + 1))).

(** The comparison of [poll], with the two values it has loaded. *)
Definition poll_signaled (inbound expected : Z) : bool := expected <? inbound.

(** [wait]: take a ticket, then spin while [loadInbound() < expected]. *)
Definition wait_ticket (h : SemaphoreHandle) : Z * SemaphoreHandle := incExpectedInbound h.
Definition wait_spinning (h : SemaphoreHandle) (expected : Z) : bool := loadInbound h <? expected.

(** [MemoryDevice2DeviceSemaphoreDeviceHandle::signal] (and its relaxed form): an
    atomic add of one to the peer's inbound token. *)
Definition sem_signal (remote : SemaphoreHandle) : SemaphoreHandle :=
  mkSem (u64 (inboundToken remote + 1)) (expectedInboundToken remote).

(** ** Interleaving of one signaler with any number of threads that wait and poll *)

(** Where a thread is inside a call: [wait] spins on its ticket; [poll] has loaded one of the two
    tokens (the order of the two loads is not specified), or has found a signal and is about to
    increment the expected token. *)
Inductive call_pc := Spinning (expected : Z) | HasInbound (i : Z) | HasExpected (x : Z) | Incrementing.

Record wstate := mkW {
  sem : SemaphoreHandle;
  pcs : gmap nat call_pc;     (* threads that are inside a call *)
  passed : list Z;            (* tickets of the waits that have returned, latest first *)
  polled : list Z             (* tickets of the polls that have returned true *)
}.

Definition w_init : wstate := mkW (mkSem 0 0) ∅ [] [].

(** One access to memory each. *)
Inductive waction :=
  | WSignal
  | WWait (tid : nat) | WSpin (tid : nat)
  | WPollFirst (tid : nat) (inboundFirst : bool) | WPollSecond (tid : nat) | WPollInc (tid : nat).

Definition wact (s : wstate) (a : waction) : option wstate :=
  let set tid pc := mkW (sem s) (<[tid := pc]> (pcs s)) (passed s) (polled s) in
  let compare tid b := if (b : bool) then set tid Incrementing
                       else mkW (sem s) (delete tid (pcs s)) (passed s) (polled s) in
  match a with
  | WSignal => Some (mkW (sem_signal (sem s)) (pcs s) (passed s) (polled s))
  | WWait tid =>
      match pcs s !! tid with
      | Some _ => None
      | None => let '(e, h) := wait_ticket (sem s) in Some (mkW h (<[tid := Spinning e]> (pcs s)) (passed s) (polled s))
      end
  | WSpin tid =>
      match pcs s !! tid with
      | Some (Spinning e) =>
          if wait_spinning (sem s) e then Some s
          else Some (mkW (sem s) (delete tid (pcs s)) (e :: passed s) (polled s))
      | _ => None
      end
  | WPollFirst tid inboundFirst =>
      match pcs s !! tid with
      | Some _ => None
      | None => Some (set tid (if inboundFirst then HasInbound (loadInbound (sem s)) else HasExpected (loadExpectedInbound (sem s))))
      end
  | WPollSecond tid =>
      match pcs s !! tid with
      | Some (HasInbound i) => Some (compare tid (poll_signaled i (loadExpectedInbound (sem s))))
      | Some (HasExpected x) => Some (compare tid (poll_signaled (loadInbound (sem s)) x))
      | _ => None
      end
  | WPollInc tid =>
      match pcs s !! tid with
      | Some Incrementing => let '(t, h) := incExpectedInbound (sem s) in
                             Some (mkW h (delete tid (pcs s)) (passed s) (t :: polled s))
      | _ => None
      end
  end.

Fixpoint wrun (s : wstate) (as_ : list waction) : option wstate :=
  match as_ with
  | [] => Some s
  | a :: rest => s' ← wact s a; wrun s' rest
  end.

Definition is_signal (a : waction) : bool := match a with WSignal => true | _ => false end.
Definition takes_ticket (a : waction) : bool :=
  match a with WWait _ | WPollInc _ => true | _ => false end.
Definition signals (as_ : list waction) : nat := length (filter (fun a => is_signal a = true) as_).
Definition tickets (as_ : list waction) : nat := length (filter (fun a => takes_ticket a = true) as_).

(** No call starts while a thread is inside [poll]. *)
Definition polling (pc : call_pc) : Prop := match pc with Spinning _ => False | _ => True end.
#[export] Instance polling_dec pc : Decision (polling pc).
Proof. destruct pc; apply _. Defined.
Definition starts (a : waction) : bool := match a with WWait _ | WPollFirst _ _ => true | _ => false end.
Fixpoint polls_alone (s : wstate) (as_ : list waction) : Prop :=
  match as_ with
  | [] => True
  | a :: rest =>
      (starts a = true -> map_Forall (fun _ pc => ~ polling pc) (pcs s)) /\
      match wact s a with Some s' => polls_alone s' rest | None => True end
  end.

#[export] Instance polls_alone_dec s as_ : Decision (polls_alone s as_).
Proof. revert s. induction as_ as [|a as_ IH]; intros s; simpl; [apply _|]. destruct (wact s a); apply _. Defined.

(** [n] signals have been sent and [w] tickets taken. *)
Record winv (n w : nat) (s : wstate) : Prop := {
  wi_in : inboundToken (sem s) = Z.of_nat n;
  wi_exp : expectedInboundToken (sem s) = Z.of_nat w;
  wi_wait : forall tid e, pcs s !! tid = Some (Spinning e) -> 1 <= e <= Z.of_nat w /\ e ∉ passed s ++ polled s;
  wi_uniq : forall t1 t2 e, pcs s !! t1 = Some (Spinning e) -> pcs s !! t2 = Some (Spinning e) -> t1 = t2;
  wi_nodup : NoDup (passed s ++ polled s);
  wi_tickets : forall e, e ∈ passed s ++ polled s -> 1 <= e <= Z.of_nat w;
  wi_passed : forall e, e ∈ passed s -> e <= Z.of_nat n
}.

Lemma winv_init : winv 0 0 w_init.
Proof.
  split; simpl; try done; try (intros *; rewrite lookup_empty; done); [constructor|..]; intros e He; by apply not_elem_of_nil in He.
Qed.

(** Going on inside [poll], or leaving it empty-handed. *)
Lemma winv_pcs n w s m :
  winv n w s -> (forall tid e, m !! tid = Some (Spinning e) -> pcs s !! tid = Some (Spinning e)) ->
  winv n w (mkW (sem s) m (passed s) (polled s)).
Proof. intros [] Hm. split; simpl; eauto. Qed.

Lemma winv_signal n w s :
  winv n w s -> Z.of_nat (S n) < 2 ^ 64 ->
  winv (S n) w (mkW (sem_signal (sem s)) (pcs s) (passed s) (polled s)).
Proof.
  intros [] Hb. split; simpl; try done; [rewrite u64_small; lia|]. intros e He. specialize (wi_passed0 e He). lia.
Qed.

Lemma winv_ticket n w s tid :
  winv n w s -> Z.of_nat (S w) < 2 ^ 64 -> pcs s !! tid = None ->
  winv n (S w) (mkW (snd (wait_ticket (sem s)))
                  (<[tid := Spinning (fst (wait_ticket (sem s)))]> (pcs s)) (passed s) (polled s)).
Proof.
  intros [] Hb Hn. simpl. rewrite u64_small by lia. split; simpl; try done.
  - lia.
  - intros t e He. apply lookup_insert_Some in He as [[<- [= <-]]|[? He]].
    + split; [lia|]. intros Hin. specialize (wi_tickets0 _ Hin). lia.
    + destruct (wi_wait0 _ _ He). split; [lia|done].
  - intros t1 t2 e H1 H2. apply lookup_insert_Some in H1 as [[<- [= <-]]|[? H1]];
      apply lookup_insert_Some in H2 as [[<- E]|[? H2]]; eauto.
    + destruct (wi_wait0 _ _ H2). lia.
    + injection E as <-. destruct (wi_wait0 _ _ H1). lia.
  - intros e He. specialize (wi_tickets0 e He). lia.
Qed.

Lemma winv_pass n w s tid e :
  winv n w s -> pcs s !! tid = Some (Spinning e) -> wait_spinning (sem s) e = false ->
  winv n w (mkW (sem s) (delete tid (pcs s)) (e :: passed s) (polled s)).
Proof.
  intros [] Hw Hs. unfold wait_spinning, loadInbound in Hs. bool_to_prop. destruct (wi_wait0 _ _ Hw) as [He Hni].
  split; simpl; try done.
  - intros t e' [? Ht]%lookup_delete_Some. destruct (wi_wait0 _ _ Ht) as [? ?]. split; [done|].
    rewrite elem_of_cons. intros [->|]; [|done]. assert (t = tid) by eauto. congruence.
  - intros t1 t2 e' [? H1]%lookup_delete_Some [? H2]%lookup_delete_Some. eauto.
  - by apply NoDup_cons.
  - intros e' [->|Hin]%elem_of_cons; [done|by apply wi_tickets0].
  - intros e' [->|Hin]%elem_of_cons; [lia|by apply wi_passed0].
Qed.

Lemma winv_inc n w s tid :
  winv n w s -> Z.of_nat (S w) < 2 ^ 64 ->
  winv n (S w) (mkW (snd (incExpectedInbound (sem s))) (delete tid (pcs s)) (passed s)
                  (fst (incExpectedInbound (sem s)) :: polled s)).
Proof.
  intros [] Hb. simpl. rewrite u64_small by lia.
  assert (Hp : forall e, e ∈ passed s ++ expectedInboundToken (sem s) + 1 :: polled s <-> e = expectedInboundToken (sem s) + 1 \/ e ∈ passed s ++ polled s)
    by (intros e; rewrite !elem_of_app, elem_of_cons; tauto).
  split; simpl; try done.
  - lia.
  - intros t e [_ He]%lookup_delete_Some. destruct (wi_wait0 _ _ He). rewrite Hp. split; [lia|]. intros [->|]; [lia|done].
  - intros t1 t2 e [_ H1]%lookup_delete_Some [_ H2]%lookup_delete_Some. eauto.
  - rewrite <- Permutation_middle. apply NoDup_cons. split; [|done]. intros Hin. specialize (wi_tickets0 _ Hin). lia.
  - intros e [->|Hin]%Hp; [lia|]. specialize (wi_tickets0 _ Hin). lia.
Qed.

Lemma winv_act n w s a s' :
  winv n w s -> Z.of_nat (S n) < 2 ^ 64 -> Z.of_nat (S w) < 2 ^ 64 -> wact s a = Some s' ->
  winv (n + signals [a]) (w + tickets [a]) s'.
Proof.
  intros I Hn Hw H. destruct a as [|tid|tid|tid b|tid|tid]; unfold signals, tickets; simpl in *; rewrite ?Nat.add_0_r, ?Nat.add_1_r.
  - simplify_eq. by apply winv_signal.
  - case_match eqn:E; [done|]. simplify_eq. by apply (winv_ticket n w s tid).
  - repeat case_match; simplify_eq; [done|]. by apply winv_pass.
  - case_match eqn:E; [done|]. simplify_eq. apply winv_pcs; [done|]. intros t e [[_ He]|[_ He]]%lookup_insert_Some; [by destruct b|done].
  - assert (Hc : forall c, winv n w (if c : bool then mkW (sem s) (<[tid:=Incrementing]> (pcs s)) (passed s) (polled s)
        else mkW (sem s) (delete tid (pcs s)) (passed s) (polled s))).
    { intros []; apply winv_pcs; try done; intros t e; [intros [[_ ?]|[_ He]]%lookup_insert_Some|intros [_ He]%lookup_delete_Some]; done. }
    repeat case_match; simplify_eq; first [exact (Hc true)|exact (Hc false)].
  - repeat case_match; simplify_eq. by apply winv_inc.
Qed.

Lemma signals_cons a as_ : signals (a :: as_) = (signals [a] + signals as_)%nat.
Proof. unfold signals. rewrite !filter_cons. by destruct a. Qed.
Lemma tickets_cons a as_ : tickets (a :: as_) = (tickets [a] + tickets as_)%nat.
Proof. unfold tickets. rewrite !filter_cons. by destruct a. Qed.

(** What holds of the polls as well when each is alone: [poll] has not been overtaken. *)
Record pinv (n w : nat) (s : wstate) : Prop := {
  pi_one : forall t1 t2 p1 p2, pcs s !! t1 = Some p1 -> pcs s !! t2 = Some p2 -> polling p1 -> polling p2 -> t1 = t2;
  pi_pc : forall t p, pcs s !! t = Some p ->
    match p with Spinning _ => True | HasInbound i => i <= Z.of_nat n | HasExpected x => x = Z.of_nat w | Incrementing => (w < n)%nat end;
  pi_polled : forall e, e ∈ polled s -> e <= Z.of_nat n
}.

Lemma pinv_init : pinv 0 0 w_init.
Proof. split; simpl; try (intros *; rewrite lookup_empty; done). intros e He. by apply not_elem_of_nil in He. Qed.

(** A thread enters a call, or goes on inside it. *)
Lemma pinv_set n w s tid pc h ps :
  pinv n w s -> (polling pc -> forall t p, pcs s !! t = Some p -> polling p -> t = tid) ->
  match pc with Spinning _ => True | HasInbound i => i <= Z.of_nat n | HasExpected x => x = Z.of_nat w | Incrementing => (w < n)%nat end ->
  pinv n w (mkW h (<[tid := pc]> (pcs s)) ps (polled s)).
Proof.
  intros [] Ho Hp. split; simpl; [| |done].
  - intros t1 t2 p1 p2 H1 H2 P1 P2. apply lookup_insert_Some in H1 as [[<- ->]|[N1 H1]], H2 as [[<- E2]|[N2 H2]]; subst; eauto.
    symmetry. eauto.
  - intros t p [[<- <-]|[_ H]]%lookup_insert_Some; [done|by eapply pi_pc0].
Qed.

Lemma pinv_delete n w s tid h ps :
  pinv n w s -> pinv n w (mkW h (delete tid (pcs s)) ps (polled s)).
Proof.
  intros []. split; simpl; [| |done].
  - intros t1 t2 p1 p2 [_ H1]%lookup_delete_Some [_ H2]%lookup_delete_Some. eauto.
  - intros t p [_ H]%lookup_delete_Some. by eapply pi_pc0.
Qed.

Lemma pinv_act n w s a s' :
  winv n w s -> pinv n w s -> Z.of_nat (S n) < 2 ^ 64 -> Z.of_nat (S w) < 2 ^ 64 -> wact s a = Some s' ->
  (starts a = true -> map_Forall (fun _ pc => ~ polling pc) (pcs s)) ->
  pinv (n + signals [a]) (w + tickets [a]) s'.
Proof.
  intros I P Hn Hw H Ha. pose proof (wi_in _ _ _ I) as Ein. pose proof (wi_exp _ _ _ I) as Eex.
  destruct a as [|tid|tid|tid b|tid|tid]; unfold signals, tickets; simpl in *; rewrite ?Nat.add_0_r, ?Nat.add_1_r.
  - destruct P. simplify_eq. split; simpl; try done; [|intros e He; specialize (pi_polled0 e He); lia].
    intros t p Hp. specialize (pi_pc0 t p Hp). destruct p; try done; lia.
  - case_match; [done|]. simplify_eq. specialize (Ha eq_refl). destruct P. split; simpl; [| |done].
    + intros t1 t2 p1 p2 H1 H2 P1 P2. apply lookup_insert_Some in H1 as [[_ <-]|[_ H1]]; [done|]. by destruct (Ha _ _ H1).
    + intros t p [[_ <-]|[_ Hp]]%lookup_insert_Some; [done|]. specialize (Ha _ _ Hp). destruct p; try done; by destruct Ha.
  - repeat case_match; simplify_eq; [done|]. by apply pinv_delete.
  - case_match; [done|]. simplify_eq. specialize (Ha eq_refl). apply pinv_set; [done| |].
    + intros _ t p Hp Hpl. by destruct (Ha _ _ Hp).
    + destruct b; unfold loadInbound, loadExpectedInbound; lia.
  - destruct (pcs s !! tid) as [[| | |]|] eqn:E; try done; injection H as <-; unfold poll_signaled, loadInbound, loadExpectedInbound;
      (case_match; [bool_to_prop|]); try (by apply pinv_delete); (apply pinv_set; [done| |]);
      try (intros _ t p Hp Hpl; by eapply (pi_one _ _ _ P)); pose proof (pi_pc _ _ _ P _ _ E); simpl in *; lia.
  - destruct (pcs s !! tid) as [[| | |]|] eqn:E; try done. injection H as <-. pose proof (pi_pc _ _ _ P _ _ E) as Hlt. simpl in Hlt.
    rewrite u64_small by lia. destruct P. split; simpl.
    + intros t1 t2 p1 p2 [_ H1]%lookup_delete_Some [_ H2]%lookup_delete_Some. eauto.
    + intros t p [Hne Hp]%lookup_delete_Some. destruct p; try done; by destruct Hne; symmetry; eapply pi_one0.
    + intros e [->|He]%elem_of_cons; [lia|by apply pi_polled0].
Qed.

Lemma wrun_inv n w s as_ s' :
  winv n w s -> Z.of_nat (n + signals as_) + 1 < 2 ^ 64 -> Z.of_nat (w + tickets as_) + 1 < 2 ^ 64 ->
  wrun s as_ = Some s' ->
  winv (n + signals as_) (w + tickets as_) s' /\
  (pinv n w s -> polls_alone s as_ -> pinv (n + signals as_) (w + tickets as_) s').
Proof.
  revert n w s. induction as_ as [|a as_ IH]; intros n w s I Hn Hw H; simpl in H.
  - simplify_eq. unfold signals, tickets. simpl. by rewrite !Nat.add_0_r.
  - destruct (wact s a) as [s1|] eqn:Ha; [|done]. simpl in H.
    rewrite signals_cons, tickets_cons in *. rewrite !Nat.add_assoc in *.
    destruct (IH (n + signals [a])%nat (w + tickets [a])%nat s1) as [IH1 IH2]; try done;
      [by eapply winv_act; try done; lia|].
    split; [done|]. intros P [Hst Hrest]. rewrite Ha in Hrest. apply IH2; [|done]. eapply pinv_act; try done; lia.
Qed.

(** Different tickets between 1 and [n] are at most [n]. *)
Lemma tickets_bounded (l : list Z) (n : nat) : NoDup l -> (forall e, e ∈ l -> 1 <= e <= Z.of_nat n) -> (length l <= n)%nat.
Proof.
  intros Hd He. replace n with (length (Z.of_nat <$> seq 1 n)) by (by rewrite length_fmap, length_seq). apply submseteq_length, NoDup_submseteq; [done|].
  intros e Hin. specialize (He e Hin). apply list_elem_of_fmap. exists (Z.to_nat e). split; [lia|]. apply elem_of_seq. lia.
Qed.

(** ** Host2HostSemaphore *)

Record HostSem := mkHostSem { hs_expected : Z; hs_outbound : Z }.

Definition h2h_poll (inbound : Z) (s : HostSem) : bool * HostSem :=
  let signaled := hs_expected s <? inbound in
  if signaled then (signaled, mkHostSem (u64 (hs_expected s + 1)) (hs_outbound s)) else (signaled, s).

(** The spin loop: [obs i] is the inbound token at the [i]-th load. *)
Fixpoint h2h_spin (fuel : nat) (obs : nat -> Z) (i : nat) (spinCount maxSpinCount expected : Z)
    : option (result ()) :=
  match fuel with
  | O => None
  | S fuel' =>
      if obs i <? expected then
        if 0 <=? maxSpinCount then
          if spinCount =? maxSpinCount then Some (Throw (EError Timeout))
          else h2h_spin fuel' obs (S i) (spinCount + 1) maxSpinCount expected
        else h2h_spin fuel' obs (S i) spinCount maxSpinCount expected
      else Some (Ok ())
  end.

Definition h2h_wait (fuel : nat) (obs : nat -> Z) (maxSpinCount : Z) (s : HostSem)
    : option (result () * HostSem) :=
  let s' := mkHostSem (u64 (hs_expected s + 1)) (hs_outbound s) in
  r ← h2h_spin fuel obs 0 0 maxSpinCount (hs_expected s');
  Some (r, s').

Lemma h2h_spin_decides fuel obs i spin max expected :
  0 <= spin <= max -> (Z.to_nat (max - spin) < fuel)%nat ->
  (exists j, (j <= Z.to_nat (max - spin))%nat /\ expected <= obs (i + j)%nat /\
     h2h_spin fuel obs i spin max expected = Some (Ok ())) \/
  ((forall j, (j <= Z.to_nat (max - spin))%nat -> obs (i + j)%nat < expected) /\
     h2h_spin fuel obs i spin max expected = Some (Throw (EError Timeout))).
Proof.
  revert i spin. induction fuel as [|fuel IH]; intros i spin Hs Hf; [lia|]. simpl.
  destruct (Z.ltb_spec (obs i) expected) as [Hlt|Hge].
  2: { left. exists 0%nat. rewrite Nat.add_0_r. split_and!; [lia|done|done]. }
  destruct (Z.leb_spec 0 max); [|lia]. destruct (Z.eqb_spec spin max) as [->|Hne].
  - right. split; [|done]. intros j Hj. replace j with 0%nat by lia. by rewrite Nat.add_0_r.
  - destruct (IH (S i) (spin + 1)) as [(j & Hj & Ho & E)|[Hall E]]; try lia.
    + left. exists (S j). split_and!; [lia| |done]. by rewrite <- Nat.add_succ_comm.
    + right. split; [|done]. intros [|j] Hj; [by rewrite Nat.add_0_r|].
      rewrite <- Nat.add_succ_comm. apply Hall. lia.
Qed.

(** ** Stubs and semaphore construction *)

(** What the semaphore code asks of a connection. *)
Record ConnView := mkConnView {
  cv_transport : Transport; cv_device : Device; cv_forwarding : bool
}.

(** [SemaphoreStub::Impl(connection)]: allocate the token on the local device and
    register it.  [device_] is not assigned: [None]. *)
Record StubImpl := mkStub { idMemory_ : Impl; device_ : option Device }.

Definition Stub_create (registerMemory : Z -> Z -> TransportFlags -> result Impl)
    (token : Z) (c : ConnView) : result StubImpl :=
  _ ← (match dev_type (cv_device c) with
       | DCPU => Ok ()
       | DGPU => throw_if (dev_id (cv_device c) <? 0) (EError InvalidUsage)
       | DUnknown => Throw (EError InvalidUsage)
       end);
  m ← registerMemory token 8 (TransportFlags_of (cv_transport c));
  Ok (mkStub m None).

Definition c_Device_raw : codec (Z * Z) := c_pair c_i32 c_i32.

(** [serialize]: the token memory, then the bytes of [device_], which for a local
    stub hold whatever was there ([garbage]). *)
Definition Stub_serialize (garbage : Z * Z) (s : StubImpl) : result (list Z) :=
  d ← RegisteredMemory_serialize (idMemory_ s);
  Ok (serialize c_Device_raw d
        match device_ s with
        | Some dv => (DeviceType_to_Z (dev_type dv), dev_id dv)
        | None => garbage
        end).

(** [deserialize]: the device is the last [sizeof(Device)] bytes. *)
Definition Stub_deserialize (import : list Z -> option (result Impl)) (bytes : list Z)
    : option (result (Impl * (Z * Z))) :=
  let n := (length bytes - csize c_Device_raw)%nat in
  if decide (csize c_Device_raw <= length bytes)%nat then
    r ← import (take n bytes);
    '(dv, it) ← deserialize c_Device_raw (drop n bytes);
    Some (m ← r; match it with [] => Ok (m, dv) | _ => Throw (EError InvalidUsage) end)
  else None.

Definition Host2Device_check (c : ConnView) : result bool :=
  _ ← throw_if (negb (bool_decide (dev_type (cv_device c) = DGPU))) (EError InvalidUsage);
  Ok (cv_forwarding c).

Definition Host2Host_check (c : ConnView) : result bool :=
  _ ← throw_if (bool_decide (cv_transport c = CudaIpc)) (EError InvalidUsage);
  _ ← throw_if (negb (bool_decide (dev_type (cv_device c) = DCPU))) (EError InvalidUsage);
  Ok (cv_forwarding c).

Definition MemoryDevice2Device_check (c : ConnView) : result () :=
  throw_if (negb (bool_decide (dev_type (cv_device c) = DGPU))) (EError InvalidUsage).

(** [Host2DeviceSemaphore::deviceHandle]: which token the GPU polls. *)
Definition polled_token (forwardingToken : option Z) (localToken : Z) : Z :=
  match forwardingToken with Some t => t | None => localToken end.

(** ** Results *)

(** C25: no lost and no invented signals.  Any number of threads wait and poll on a device semaphore,
    interleaved at every access to the two tokens.  Every success has a ticket of its own; the
    waits that have returned are never more than the signals; as soon as there are as many
    signals as tickets every thread that spins passes at its next load.  If no call starts while a thread
    is inside [poll], the waits and successful polls together are never more than the signals. *)
Theorem semaphore_counts as_ s :
  wrun w_init as_ = Some s ->
  Z.of_nat (signals as_) + 1 < 2 ^ 64 -> Z.of_nat (tickets as_) + 1 < 2 ^ 64 ->
  NoDup (passed s ++ polled s) /\ (length (passed s) <= signals as_)%nat /\
  ((tickets as_ <= signals as_)%nat ->
   forall tid e, pcs s !! tid = Some (Spinning e) -> wait_spinning (sem s) e = false) /\
  (polls_alone w_init as_ -> (length (passed s) + length (polled s) <= signals as_)%nat).
Proof.
  intros Hr Hn Hw. destruct (wrun_inv 0 0 _ _ _ winv_init Hn Hw Hr) as [I P]. simpl in I, P.
  pose proof (wi_nodup _ _ _ I) as Hnd. split; [done|]. split; [|split].
  - apply tickets_bounded; [by apply NoDup_app in Hnd as [? _]|]. intros e He.
    destruct (wi_tickets _ _ _ I e); [apply elem_of_app; by left|]. pose proof (wi_passed _ _ _ I e He). lia.
  - intros Hle tid e He. destruct (wi_wait _ _ _ I _ _ He) as [? _].
    pose proof (wi_in _ _ _ I). unfold wait_spinning, loadInbound. apply Z.ltb_ge. lia.
  - intros Ha. specialize (P pinv_init Ha). rewrite <- length_app. apply tickets_bounded; [done|]. intros e He.
    destruct (wi_tickets _ _ _ I e He) as [? _]. apply elem_of_app in He as [He|He];
      [pose proof (wi_passed _ _ _ I e He)|pose proof (pi_polled _ _ _ P e He)]; lia.
Qed.

Definition demo_actions : list waction :=
  [WWait 0; WSignal; WPollFirst 1 true; WPollSecond 1; WSpin 0; WSignal; WPollFirst 1 false; WPollSecond 1; WPollInc 1].

Lemma semaphore_counts_witness :
  exists s, wrun w_init demo_actions = Some s /\ NoDup (passed s ++ polled s) /\ (length (passed s) + length (polled s) <= 2)%nat.
Proof.
  eexists. split; [vm_compute; reflexivity|].
  destruct (semaphore_counts demo_actions (mkW (mkSem 2 2) ∅ [1] [2])) as (H1 & _ & _ & H2); [reflexivity|done|done|].
  split; [exact H1|]. apply H2. apply (bool_decide_eq_true_1 _). by vm_compute.
Defined.

(** two threads that poll at the same time can both take the same signal: both compare before
    either increments the expected token, and a signal that comes later is lost to the threads that wait. *)
Theorem concurrent_polls_share_signal :
  let l := [WSignal; WPollFirst 0 true; WPollFirst 1 true; WPollSecond 0; WPollSecond 1; WPollInc 0; WPollInc 1] in
  exists s, wrun w_init l = Some s /\ signals l = 1%nat /\ length (polled s) = 2%nat /\
    exists s', wrun s [WSignal; WWait 0] = Some s' /\ wact s' (WSpin 0) = Some s'.
Proof.
  eexists. split; [vm_compute; reflexivity|]. split; [done|]. split; [done|].
  eexists. split; [vm_compute; reflexivity|]. by vm_compute.
Qed.

(** [Host2HostSemaphore::wait] with a non-negative limit always returns: it
    succeeds exactly when one of the first maxSpinCount + 1 loads shows the
    expected token, and otherwise throws Timeout; either way the expected token
    has been advanced. *)
Theorem host_wait_terminates obs max s :
  0 <= max -> 0 <= hs_expected s < 2 ^ 64 - 1 ->
  exists r, h2h_wait (S (Z.to_nat max)) obs max s =
      Some (r, mkHostSem (hs_expected s + 1) (hs_outbound s)) /\
    ((r = Ok () /\ exists j, Z.of_nat j <= max /\ hs_expected s + 1 <= obs j) \/
     (r = Throw (EError Timeout) /\ forall j, Z.of_nat j <= max -> obs j < hs_expected s + 1)).
Proof.
  intros Hm Hs. unfold h2h_wait. cbn [hs_expected hs_outbound]. rewrite u64_small by lia.
  destruct (h2h_spin_decides (S (Z.to_nat max)) obs 0 0 max (hs_expected s + 1)) as [(j & Hj & Ho & ->)|[Hall ->]];
    [lia|rewrite Z.sub_0_r; lia|..].
  - exists (Ok ()). split; [done|]. left. split; [done|]. exists j. split; [lia|done].
  - exists (Throw (EError Timeout)). split; [done|]. right. split; [done|].
    intros j Hj. apply (Hall j). lia.
Qed.

Lemma host_wait_terminates_witness :
  exists r, h2h_wait 4 (fun i => Z.of_nat i) 3 (mkHostSem 1 0) = Some (r, mkHostSem (1 + 1) 0) /\
    ((r = Ok () /\ exists j, Z.of_nat j <= 3 /\ 1 + 1 <= Z.of_nat j) \/
     (r = Throw (EError Timeout) /\ forall j, Z.of_nat j <= 3 -> Z.of_nat j < 1 + 1)).
Proof. apply (host_wait_terminates (fun i => Z.of_nat i) 3 (mkHostSem 1 0)); simpl; lia. Defined.

(** the stub exchange delivers the token memory whatever the uninitialised
    device bytes of the sender are, and the receiver reads exactly those bytes
    back as the peer's device. *)
Theorem stub_exchange garbage stub import m' :
  impl_wf (idMemory_ stub) -> device_ stub = None -> cwf c_Device_raw garbage ->
  (forall bs, RegisteredMemory_serialize (idMemory_ stub) = Ok bs -> import bs = Some (Ok m')) ->
  exists bytes, Stub_serialize garbage stub = Ok bytes /\
    Stub_deserialize import bytes = Some (Ok (m', garbage)).
Proof.
  intros Hwf Hdev Hg Himp. unfold Stub_serialize. pose proof (serialize_layout _ Hwf) as Hs.
  rewrite Hs, Hdev. eexists. split; [done|]. unfold Stub_deserialize, serialize.
  rewrite !length_app, enc_len. rewrite decide_True by lia.
  match goal with |- context [take ?n (?a ++ ?b)] => replace n with (length a) by (rewrite length_app; lia) end.
  rewrite take_app_length, drop_app_length. rewrite (Himp _ Hs). cbn [mbind option_bind].
  by rewrite deserialize_enc_nil.
Qed.

Lemma stub_exchange_witness :
  exists bytes, Stub_serialize (7, -9) (mkStub demo_impl None) = Ok bytes /\
    Stub_deserialize parse_fields bytes = Some (Ok (remote_view demo_impl, (7, -9))).
Proof.
  apply stub_exchange; [exact demo_impl_wf|done|split; simpl; lia|].
  intros bs Hbs. vm_compute in Hbs. injection Hbs as <-. vm_compute. reflexivity.
Defined.
