(* ===== verification/IbQp.v ===== *)
(** * IbQp: staging, posting and completing InfiniBand work requests

    Models [IbQp] of src/core/ib.cc: the fixed array of staged send requests that
    is handed to the NIC in one [ibv_post_send], the counters of signaled
    requests, the receive side, and the completion-queue polls.  The verbs
    library is a parameter: the error code of a post and the completions of a
    poll are arguments of the operations; [wire] records what the NIC was given. *)

From S2P Require Import Prelude Errors Core RegisteredMemory.
Local Open Scope Z_scope.

Inductive opcode :=
  | RDMA_WRITE
  | RDMA_WRITE_WITH_IMM (imm_data : Z)
  | ATOMIC_FETCH_AND_ADD (compare_add : Z).

(** [ibv_send_wr] with its single scatter-gather element. *)
Record send_wr := mkWr {
  wr_id : Z; wr_op : opcode; wr_signaled : bool;
  wr_remote_addr : Z; wr_rkey : Z;
  sge_addr : Z; sge_length : Z; sge_lkey : Z
}.

(** [IbMr]: the buffer and its local key. *)
Record IbMr := mkIbMr { mr_buff : Z; mr_lkey : Z }.

Record IbQp := mkQp {
  staged : list send_wr;              (* [sendWrs_[0 .. numStagedSend_)], chained in order *)
  stagedRecv : Z;                     (* [numStagedRecv_] *)
  numPostedSignaledSend : Z;
  numStagedSignaledSend : Z;
  maxSendCqPollNum : Z;
  qp_maxWrPerSend : Z;
  qp_maxRecvWr : Z;
  wire : list send_wr;                (* accepted by the NIC, oldest first *)
  recvPosted : Z                      (* receive requests given to the NIC *)
}.

Definition set_send (q : IbQp) (st : list send_wr) (posted stagedSig : Z) (w : list send_wr) : IbQp :=
  mkQp st (stagedRecv q) posted stagedSig (maxSendCqPollNum q) (qp_maxWrPerSend q)
    (qp_maxRecvWr q) w (recvPosted q).
Definition set_recv (q : IbQp) (st posted : Z) : IbQp :=
  mkQp (staged q) st (numPostedSignaledSend q) (numStagedSignaledSend q) (maxSendCqPollNum q)
    (qp_maxWrPerSend q) (qp_maxRecvWr q) (wire q) posted.

(** [getNewSendWrInfo] followed by the assignments of a [stageSend*]: a request
    is appended unless the array is full. *)
Definition stage (q : IbQp) (wr : send_wr) : result IbQp :=
  if qp_maxWrPerSend q <=? Z.of_nat (length (staged q)) then Throw (EError InvalidUsage)
  else Ok (set_send q (staged q ++ [wr]) (numPostedSignaledSend q)
             (if wr_signaled wr then numStagedSignaledSend q + 1 else numStagedSignaledSend q)
             (wire q)).

Definition stageSendWrite (q : IbQp) (mr : IbMr) (info : IbMrInfo) (size wrId srcOffset dstOffset : Z)
    (signaled : bool) : result IbQp :=
  stage q (mkWr wrId RDMA_WRITE signaled (u64 (mr_addr info + dstOffset)) (mr_rkey info)
             (u64 (mr_buff mr + srcOffset)) size (mr_lkey mr)).

Definition stageSendAtomicAdd (q : IbQp) (mr : IbMr) (info : IbMrInfo) (wrId dstOffset addVal : Z)
    (signaled : bool) : result IbQp :=
  stage q (mkWr wrId (ATOMIC_FETCH_AND_ADD addVal) signaled (u64 (mr_addr info + dstOffset))
             (mr_rkey info) (mr_buff mr) 8 (mr_lkey mr)).

Definition stageSendWriteWithImm (q : IbQp) (mr : option IbMr) (info : IbMrInfo)
    (size wrId srcOffset dstOffset : Z) (signaled : bool) (immData : Z) : result IbQp :=
  match mr with
  | Some mr =>
      stage q (mkWr wrId (RDMA_WRITE_WITH_IMM immData) signaled (u64 (mr_addr info + dstOffset))
                 (mr_rkey info) (u64 (mr_buff mr + srcOffset)) size (mr_lkey mr))
  | None =>
      stage q (mkWr wrId (RDMA_WRITE_WITH_IMM immData) signaled (u64 (mr_addr info + dstOffset))
                 (mr_rkey info) 0 0 0)
  end.

(** [postSend]; [err] is what [ibv_post_send] returns. *)
Definition postSend (err : Z) (q : IbQp) : result IbQp :=
  match staged q with
  | [] => Ok q
  | _ =>
      if negb (err =? 0) then Throw EIbError
      else Ok (set_send q [] (numPostedSignaledSend q + numStagedSignaledSend q) 0
                 (wire q ++ staged q))
  end.

Definition stageRecv (q : IbQp) : result IbQp :=
  if qp_maxRecvWr q <=? stagedRecv q then Throw (EError InvalidUsage)
  else Ok (set_recv q (stagedRecv q + 1) (recvPosted q)).

Definition postRecv (err : Z) (q : IbQp) : result IbQp :=
  if stagedRecv q =? 0 then Ok q
  else if negb (err =? 0) then Throw EIbError
  else Ok (set_recv q 0 (recvPosted q + stagedRecv q)).

(** [pollSendCq]; [wcNum] is what [ibv_poll_cq] returns. *)
Definition pollSendCq (wcNum : Z) (q : IbQp) : IbQp :=
  if 0 <? wcNum
  then set_send q (staged q) (numPostedSignaledSend q - wcNum) (numStagedSignaledSend q) (wire q)
  else q.

Definition getNumSendCqItems (q : IbQp) : Z := numPostedSignaledSend q.

(** ** The queue-pair invariant *)

Definition num_signaled (wrs : list send_wr) : Z :=
  Z.of_nat (length (filter (fun w => wr_signaled w = true) wrs)).

(** [done]: completions polled so far. *)
Record qp_inv (done : Z) (q : IbQp) : Prop := {
  qi_staged : Z.of_nat (length (staged q)) <= Z.max 0 (qp_maxWrPerSend q);
  qi_sig : numStagedSignaledSend q = num_signaled (staged q);
  qi_posted : numPostedSignaledSend q = num_signaled (wire q) - done;
  qi_done : 0 <= done <= num_signaled (wire q)
}.

Lemma num_signaled_app a b : num_signaled (a ++ b) = num_signaled a + num_signaled b.
Proof. unfold num_signaled. rewrite filter_app, length_app. lia. Qed.

Lemma num_signaled_one w : num_signaled [w] = if wr_signaled w then 1 else 0.
Proof. unfold num_signaled. rewrite filter_cons. by destruct (wr_signaled w). Qed.

Lemma num_signaled_nonneg a : 0 <= num_signaled a.
Proof. unfold num_signaled. lia. Qed.

Lemma stage_inv done q wr q' : qp_inv done q -> stage q wr = Ok q' -> qp_inv done q'.
Proof.
  unfold stage. intros [] H. destruct (Z.leb_spec (qp_maxWrPerSend q) (Z.of_nat (length (staged q)))) as [|Hlt];
    inv_ok. split; simpl; try done.
  - rewrite length_app. simpl. lia.
  - rewrite num_signaled_app, num_signaled_one, qi_sig0. destruct (wr_signaled wr); lia.
Qed.

Lemma post_inv done err q q' : qp_inv done q -> postSend err q = Ok q' -> qp_inv done q' /\
  wire q' = wire q ++ staged q /\ staged q' = [].
Proof.
  unfold postSend. intros I H. destruct (staged q) as [|w ws] eqn:E.
  - inv_ok. rewrite app_nil_r. done.
  - destruct (negb (err =? 0)); inv_ok. destruct I. split; [|done].
    rewrite E in *. split; simpl; try done; [lia|..];
      rewrite num_signaled_app, ?qi_sig0; pose proof (num_signaled_nonneg (w :: ws)); lia.
Qed.

(** The verbs library completes a signaled request at most once. *)
Definition poll_ok (q : IbQp) (wcNum : Z) : Prop := wcNum <= numPostedSignaledSend q.

Lemma poll_inv done q wcNum :
  qp_inv done q -> poll_ok q wcNum -> qp_inv (done + Z.max 0 wcNum) (pollSendCq wcNum q).
Proof.
  unfold pollSendCq, poll_ok. intros [] Hp. destruct (Z.ltb_spec 0 wcNum) as [Hlt|Hge].
  - split; simpl; try done; lia.
  - replace (done + Z.max 0 wcNum) with done by lia. by split.
Qed.

(** ** Stage-and-post, the way the connection uses the queue pair *)

Definition send_one (err : Z) (q : IbQp) (wr : send_wr) : result IbQp :=
  q' ← stage q wr; postSend err q'.

Lemma send_one_spec done err q wr :
  qp_inv done q -> staged q = [] -> 0 < qp_maxWrPerSend q ->
  send_one err q wr = if err =? 0
    then Ok (set_send q [] (numPostedSignaledSend q + (if wr_signaled wr then 1 else 0)) 0 (wire q ++ [wr]))
    else Throw EIbError.
Proof.
  intros [] Hs Hm. unfold send_one, stage. rewrite Hs in *. simpl in *.
  destruct (Z.leb_spec (qp_maxWrPerSend q) (Z.of_nat 0)); [lia|]. simpl.
  change (num_signaled []) with 0 in qi_sig0. rewrite qi_sig0.
  unfold postSend, set_send. simpl. destruct (err =? 0); simpl; [by destruct (wr_signaled wr)|done].
Qed.

(** ** Results *)

(** Operations on the send side, with the library's answers. *)
Inductive qop :=
  | QStage (wr : send_wr) | QPost (err : Z) | QPoll (wcNum : Z).

Definition qact (q : IbQp) (o : qop) : result IbQp :=
  match o with
  | QStage wr => stage q wr
  | QPost err => postSend err q
  | QPoll n => Ok (pollSendCq n q)
  end.

(** A run in which a failing operation leaves the object as it was. *)
Inductive qreach (maxWr : Z) : list send_wr -> Z -> IbQp -> Prop :=
  | qr_init poll maxRecv : qreach maxWr [] 0 (mkQp [] 0 0 0 poll maxWr maxRecv [] 0)
  | qr_stage ws d q wr q' : qreach maxWr ws d q -> stage q wr = Ok q' -> qreach maxWr (ws ++ [wr]) d q'
  | qr_post ws d q err q' : qreach maxWr ws d q -> postSend err q = Ok q' -> qreach maxWr ws d q'
  | qr_poll ws d q n : qreach maxWr ws d q -> poll_ok q n -> qreach maxWr ws (d + Z.max 0 n) (pollSendCq n q).

(** C27: the queue pair loses and reorders nothing: at every point the requests
    given to the NIC followed by those still staged are exactly the requests
    staged, in order; at most maxWrPerSend are staged; and getNumSendCqItems is
    the number of signaled requests on the wire not yet completed, never
    negative. *)
Theorem qp_conserves_requests maxWr ws d q :
  0 <= maxWr -> qreach maxWr ws d q ->
  wire q ++ staged q = ws /\ Z.of_nat (length (staged q)) <= maxWr /\
  getNumSendCqItems q = num_signaled (wire q) - d /\ 0 <= getNumSendCqItems q.
Proof.
  intros Hm Hr. assert (qp_inv d q /\ wire q ++ staged q = ws /\ qp_maxWrPerSend q = maxWr)
    as (I & E & Em).
  { induction Hr as [poll maxRecv|ws d q wr q' Hr (I & E & Em) Hs|ws d q err q' Hr (I & E & Em) Hs|
                     ws d q n Hr (I & E & Em) Hp].
    - split; [|done]. by split; simpl; try lia.
    - pose proof (stage_inv _ _ _ _ I Hs). unfold stage in Hs. case_match; inv_ok. simpl.
      split; [done|]. split; [|done]. by rewrite app_assoc.
    - destruct (post_inv _ _ _ _ I Hs) as (I' & Ew & Es). rewrite Es, app_nil_r, Ew.
      split; [done|]. split; [done|]. unfold postSend in Hs. repeat case_match; by inv_ok.
    - pose proof (poll_inv _ _ _ I Hp). split; [done|]. unfold pollSendCq. by case_match. }
  destruct I. unfold getNumSendCqItems. split_and!; [done|lia|done|lia].
Qed.

Definition demo_wr (n : Z) : send_wr := mkWr 0 RDMA_WRITE true (1000 + n) 5 (2000 + n) 64 7.

Lemma qp_conserves_requests_witness :
  exists q, qreach 2 [demo_wr 0; demo_wr 1] 1 q /\ getNumSendCqItems q = 1 /\
    wire q ++ staged q = [demo_wr 0; demo_wr 1].
Proof.
  assert (H : qreach 2 [demo_wr 0; demo_wr 1] 1
     (mkQp [] 0 1 0 1 2 0 [demo_wr 0; demo_wr 1] 0)).
  { apply (qr_poll 2 [demo_wr 0; demo_wr 1] 0 (mkQp [] 0 2 0 1 2 0 [demo_wr 0; demo_wr 1] 0) 1);
      [|done].
    apply (qr_post 2 _ _ (mkQp [demo_wr 0; demo_wr 1] 0 0 2 1 2 0 [] 0) 0); [|done].
    apply (qr_stage 2 [demo_wr 0] 0 (mkQp [demo_wr 0] 0 0 1 1 2 0 [] 0)); [|done].
    apply (qr_stage 2 [] 0 (mkQp [] 0 0 0 1 2 0 [] 0)); [|done]. constructor. }
  eexists. split; [exact H|].
  destruct (qp_conserves_requests 2 _ _ _ ltac:(lia) H) as (E & _ & Hn & _).
  split; [rewrite Hn; reflexivity|exact E].
Defined.
