(* ===== verification/IbVerbs.v ===== *)
(** * InfiniBand devices, memory regions and queue pairs

    Models the rest of src/core/ib.cc: opening a device ([IbCtx]), registering memory ([IbMr]),
    the choice of a port, making a queue pair and taking it to its states ([IbQp], whose staging
    is in the file of that name), and the names of devices; the set-up of [IBConnection]
    (src/core/connection.cc), and what [Context::Impl] keeps (src/core/context.cc).

    The verbs library and the driver are what their calls answer; the state is what the
    process holds of them.  A device answers a query of a port or of a GID the same way each time. *)

From S2P Require Import Prelude Errors Core RegisteredMemory Endpoint.
From S2P Require IbQp Utils.
Local Open Scope Z_scope.

(** ** What the process holds *)

(** [ibv_mr]: the registered range and its keys. *)
Record ibv_mr := mkIbvMr { v_handle : Z; v_addr : Z; v_length : Z; v_lkey : Z; v_rkey : Z }.
#[export] Instance ibv_mr_eq_dec : EqDecision ibv_mr.
Proof. solve_decision. Defined.

Inductive resource := RFd (fd : Z) | RMr (m : ibv_mr) | RCq (h : Z) | RQp (h : Z) | RPd (h : Z) | RCtx (h : Z) | RDeviceList (h : Z).
#[export] Instance resource_eq_dec : EqDecision resource.
Proof. solve_decision. Defined.

(** Computations that throw, and change what the process holds; newest first. *)
Definition M (A : Type) : Type := list resource -> result A * list resource.
#[export] Instance M_ret : MRet M := fun A a w => (Ok a, w).
#[export] Instance M_bind : MBind M := fun A B k m w => match m w with (Ok a, w) => k a w | (Throw e, w) => (Throw e, w) end.
Definition throw {A} (e : exn) : M A := fun w => (Throw e, w).
Definition acquire (x : resource) : M () := fun w => (Ok tt, x :: w).
Definition release (x : resource) : M () := fun w => (Ok tt, remove_one x w).
(** Pass on an exception of a computation that holds nothing. *)
Definition lift {A} (r : result A) : M A := fun w => (r, w).
Definition need {A} (x : option A) (e : exn) : M A := match x with Some a => mret a | None => throw e end.

Definition IBV_ACCESS_REMOTE_WRITE : Z := 2.
Definition IBV_ACCESS_REMOTE_READ : Z := 4.
Definition IBV_ACCESS_REMOTE_ATOMIC : Z := 8.
Definition LINK_LAYER_INFINIBAND : Z := 1.
Definition LINK_LAYER_ETHERNET : Z := 2.

(** ** Memory regions *)

(** How the library was built. *)
Record build := mkBuild { b_rocm : bool; b_cuda1203 : bool; b_mlx5dv : bool }.

(** [checkNvPeerMemLoaded], on the lines of /proc/modules. *)
Definition checkNvPeerMemLoaded (lines : list string) : bool :=
  existsb (fun line => match String.index 0 "nvidia_peermem" line with Some _ => true | None => false end) lines.

(** [attribute]: what the driver says of the GPU, [None] when the query fails; [cache] is static. *)
Definition isDmabufSupportedByGpu (b : build) (lib : bool) (attribute : option bool) (cache : gmap Z bool) (gpuId : Z) : result (bool * gmap Z bool) :=
  if (gpuId <? 0) || negb lib then Ok (false, cache) else
  match cache !! gpuId with
  | Some ret => Ok (ret, cache)
  | None =>
      if b_rocm b then Ok (false, <[gpuId := false]> cache) else
      match attribute with
      | Some ret => Ok (ret, <[gpuId := ret]> cache)
      | None => Throw ECuError
      end
  end.

(** What the calls of the constructor answer; a descriptor with whether the call succeeded; handle and keys of a region. *)
Record mr_answers := mkMrAnswers {
  ma_pageSize : Z; ma_gpuId : Z; ma_lib : bool; ma_attribute : option bool;
  ma_pcie : bool * Z; ma_fd : option Z; ma_fd2 : option Z;
  ma_mlx5 : option (Z * Z * Z); ma_dmabuf : option (Z * Z * Z); ma_dmabuf2 : option (Z * Z * Z); ma_reg : option (Z * Z * Z);
  ma_cuMemMap : bool; ma_modules : list string
}.

Record IbMr := mkIbMr { mr_ : ibv_mr; buff_ : Z; size_ : Z }.

Section mr.
Context (b : build) (d : mr_answers) (buff size : Z).

Definition mr_page : Z := Z.land buff (u64 (- ma_pageSize d)).
Definition mr_pages : Z := u64 (size + (buff - mr_page) + ma_pageSize d - 1) / ma_pageSize d.
Definition rangeSize : Z := u64 (mr_pages * ma_pageSize d).
Definition offsetInDmaBuf : Z := buff mod ma_pageSize d.

(** [cuMemGetHandleForAddressRange] of the range from [mr_page] with the flag for PCIe: -1 if there is no descriptor. *)
Definition pcie_fd : M Z :=
  if negb (b_cuda1203 b) then mret (-1) else
  let '(ok, fd) := ma_pcie d in
  _ ← (if 0 <=? fd then acquire (RFd fd) else mret tt);
  if negb ok || (fd <? 0) then _ ← (if 0 <=? fd then release (RFd fd) else mret tt); mret (-1) else mret fd.

(** The same without the flag. *)
Definition default_fd (answer : option Z) : M Z := fd ← need answer ECuError; _ ← acquire (RFd fd); mret fd.

(** [ibv_reg_dmabuf_mr] of [size] bytes at an offset in the range, and [ibv_reg_mr]. *)
Definition reg (addr length : Z) (answer : option (Z * Z * Z)) : M (option ibv_mr) :=
  match answer with
  | Some (h, lkey, rkey) => let m := mkIbvMr h addr length lkey rkey in _ ← acquire (RMr m); mret (Some m)
  | None => mret None
  end.
Definition reg_dmabuf : option (Z * Z * Z) -> M (option ibv_mr) := reg (mr_page + offsetInDmaBuf) size.
Definition reg_unless (m : option ibv_mr) (answer : option (Z * Z * Z)) : M (option ibv_mr) :=
  match m with Some _ => mret m | None => reg_dmabuf answer end.

Definition register_dmabuf (isDataDirect : bool) : M ibv_mr :=
  pcie ← pcie_fd;
  let usedPcieFlag := 0 <=? pcie in
  fd ← (if pcie <? 0 then default_fd (ma_fd d) else mret pcie);
  m ← (if b_mlx5dv b && isDataDirect then reg_dmabuf (ma_mlx5 d) else mret None);
  m ← reg_unless m (ma_dmabuf d);
  '(fd, m) ← match m with
             | None =>
                 if usedPcieFlag then
                   _ ← release (RFd fd);
                   fd ← default_fd (ma_fd2 d);
                   m ← reg_dmabuf (ma_dmabuf2 d);
                   mret (fd, m)
                 else mret (fd, m)
             | Some _ => mret (fd, m)
             end;
  _ ← release (RFd fd);
  need m EIbError.

(** [IbMr::IbMr]. *)
Definition IbMr_create (cache : gmap Z bool) (isDataDirect : bool) : M (IbMr * gmap Z bool) :=
  if size =? 0 then throw (EError InvalidUsage) else
  let isGpuBuff := negb (ma_gpuId d =? -1) in
  '(dmabuf, cache) ← (if isGpuBuff then lift (isDmabufSupportedByGpu b (ma_lib d) (ma_attribute d) cache (ma_gpuId d)) else mret (false, cache));
  m ← (if isGpuBuff && dmabuf then
         (if b_rocm b then throw (EError InvalidUsage) else register_dmabuf isDataDirect)
       else
         _ ← (if negb (b_rocm b) && isGpuBuff then
                _ ← lift (throw_if (ma_cuMemMap d) (EError InvalidUsage));
                lift (throw_if (negb (checkNvPeerMemLoaded (ma_modules d))) (EError SystemError))
              else mret tt);
         m ← reg mr_page rangeSize (ma_reg d);
         need m EIbError);
  mret (mkIbMr m buff rangeSize, cache).
End mr.

Definition IbMr_destroy (m : IbMr) : M () := release (RMr (mr_ m)).
Definition IbMr_getInfo (m : IbMr) : IbMrInfo := mkIbMrInfo (buff_ m) (v_rkey (mr_ m)).
(** What staging a request reads of it: [getBuff] and [getLkey]. *)
Definition staging_mr (m : IbMr) : IbQp.IbMr := IbQp.mkIbMr (buff_ m) (v_lkey (mr_ m)).

(** ** Queue pairs *)

Record port_attr := mkPortAttr { pa_active : bool; pa_link : Z; pa_lid : Z; pa_mtu : Z; pa_grh : bool; pa_gid_tbl_len : Z }.

(** What [ibv_modify_qp] is given. *)
Record rtr_attr := mkRtr {
  path_mtu : Z; dest_qp_num : Z; max_dest_rd_atomic : Z; is_global : bool; dgid : Z * Z; sgid_index : Z; dlid : Z; ah_port : Z
}.
Inductive qp_attr := AInit (port_num qp_access_flags : Z) | ARtr (a : rtr_attr) | ARts (max_rd_atomic : Z).

(** [q_attrs]: the modifications the device has accepted; [q_requests]: the staged requests and their counters. *)
Record QueuePair := mkQueuePair {
  q_port : Z; q_gidIndex : Z; q_info : IbQpInfo; q_handle : Z; q_sendCq : Z; q_recvCq : option Z; q_noAtomic : bool;
  q_attrs : list qp_attr; q_requests : IbQp.IbQp
}.

Definition with_attr (q : QueuePair) (a : qp_attr) : QueuePair :=
  mkQueuePair (q_port q) (q_gidIndex q) (q_info q) (q_handle q) (q_sendCq q) (q_recvCq q) (q_noAtomic q) (q_attrs q ++ [a]) (q_requests q).
Definition with_requests (q : QueuePair) (r : IbQp.IbQp) : QueuePair :=
  mkQueuePair (q_port q) (q_gidIndex q) (q_info q) (q_handle q) (q_sendCq q) (q_recvCq q) (q_noAtomic q) (q_attrs q) r.

(** Handles of the two completion queues, handle and number of the queue pair, and whether it goes to the state INIT. *)
Record qp_answers := mkQpAnswers { qa_sendCq : option Z; qa_recvCq : option Z; qa_qp : option (Z * Z); qa_init : bool }.

(** A vector of [n] elements, [n] an [int]. *)
Definition vector (n : Z) : result () := throw_if (n <? 0) EStd.

(** A device: its ports and their tables of GIDs. *)
Record device := mkDev { d_port : Z -> option port_attr; d_gid : Z -> Z -> option (Z * Z); d_ports : option Z }.

Section device.
Context (dev : device).

(** The GID that [IbQp::IbQp] reads. *)
Definition qp_gid (pa : port_attr) (portNum gidIndex : Z) : result (Z * Z) :=
  if negb (pa_link pa =? LINK_LAYER_INFINIBAND) || pa_grh pa then
    _ ← throw_if (pa_gid_tbl_len pa <=? gidIndex) (EError InvalidUsage);
    match d_gid dev portNum gidIndex with Some gid => Ok gid | None => Throw EIbError end
  else Ok (0, 0).

(** [IbQp::IbQp]. *)
Definition IbQp_create (ans : qp_answers) (portNum gidIndex maxSendCqPollNum maxRecvWr maxWrPerSend : Z) (noAtomic : bool) : M QueuePair :=
  sendCq ← need (qa_sendCq ans) EIbError;
  _ ← acquire (RCq sendCq);
  recvCq ← (if 0 <? maxRecvWr then cq ← need (qa_recvCq ans) EIbError; _ ← acquire (RCq cq); mret (Some cq) else mret None);
  '(qp, qp_num) ← need (qa_qp ans) EIbError;
  _ ← acquire (RQp qp);
  pa ← need (d_port dev portNum) EIbError;
  gid ← lift (qp_gid pa portNum gidIndex);
  _ ← lift (throw_if (negb (qa_init ans)) EIbError);
  _ ← lift (_ ← vector maxWrPerSend; _ ← vector maxSendCqPollNum; vector maxRecvWr);
  let access := if noAtomic then IBV_ACCESS_REMOTE_WRITE else Z.lor (Z.lor IBV_ACCESS_REMOTE_WRITE IBV_ACCESS_REMOTE_READ) IBV_ACCESS_REMOTE_ATOMIC in
  mret (mkQueuePair portNum gidIndex (mkIbQpInfo (pa_lid pa) (pa_link pa) qp_num gid.1 (pa_mtu pa) gid.2 (pa_grh pa)) qp sendCq recvCq noAtomic
          [AInit portNum access] (IbQp.mkQp [] 0 0 0 maxSendCqPollNum maxWrPerSend maxRecvWr [] 0)).

Definition IbQp_destroy (q : QueuePair) : M () :=
  _ ← release (RQp (q_handle q));
  _ ← release (RCq (q_sendCq q));
  match q_recvCq q with Some cq => release (RCq cq) | None => mret tt end.

(** [IbQp::rtr], [IbQp::rts]; [ok]: whether the device accepts the modification. *)
Definition rtr_attr_of (q : QueuePair) (info : IbQpInfo) : rtr_attr :=
  let global := (qi_linkLayer info =? LINK_LAYER_ETHERNET) || qi_isGrh info in
  mkRtr (qi_mtu info) (qi_qpn info) (if q_noAtomic q then 0 else 1) global
    (if global then (qi_spn info, qi_iid info) else (0, 0)) (if global then q_gidIndex q else 0) (qi_lid info) (q_port q).
Definition rtr (ok : bool) (info : IbQpInfo) (q : QueuePair) : result QueuePair :=
  _ ← throw_if (negb ok) EIbError; Ok (with_attr q (ARtr (rtr_attr_of q info))).
Definition rts (ok : bool) (q : QueuePair) : result QueuePair :=
  _ ← throw_if (negb ok) EIbError; Ok (with_attr q (ARts (if q_noAtomic q then 0 else 1))).

(** *** The choice of a port *)

Definition isPortUsable (port gidIndex : Z) : result bool :=
  match d_port dev port with
  | None => Throw EIbError
  | Some pa =>
      if negb (pa_active pa) then Ok false else
      if negb (pa_link pa =? LINK_LAYER_ETHERNET) && negb (pa_link pa =? LINK_LAYER_INFINIBAND) then Ok false else
      if (0 <=? gidIndex) && ((pa_link pa =? LINK_LAYER_ETHERNET) || pa_grh pa) then
        if pa_gid_tbl_len pa <=? gidIndex then Ok false
        else Ok (match d_gid dev port gidIndex with Some _ => true | None => false end)
      else Ok true
  end.

(** The loop of [getAnyUsablePort]: [port] has 8 bits. *)
Fixpoint any_port (fuel : nat) (cnt gidIndex port : Z) : option (result Z) :=
  match fuel with
  | O => None
  | S fuel =>
      if port <=? cnt then
        match isPortUsable port gidIndex with
        | Throw e => Some (Throw e)
        | Ok true => Some (Ok port)
        | Ok false => any_port fuel cnt gidIndex ((port + 1) mod 256)
        end
      else Some (Ok (-1))
  end.
Definition getAnyUsablePort (fuel : nat) (gidIndex : Z) : option (result Z) :=
  match d_ports dev with
  | None => Some (Throw EIbError)
  | Some cnt => any_port fuel cnt gidIndex 1
  end.

(** [IbCtx::createQp]; [None]: the search for a port does not end. *)
Definition createQp (ans : qp_answers) (port gidIndex maxSendCqPollNum maxRecvWr maxWrPerSend : Z) (noAtomic : bool) : option (M QueuePair) :=
  p ← (if port =? -1 then
         r ← getAnyUsablePort 256 gidIndex;
         Some (p ← r; _ ← throw_if (p =? -1) (EError InvalidUsage); Ok p)
       else Some (u ← isPortUsable port gidIndex; _ ← throw_if (negb u) (EError InvalidUsage); Ok port));
  Some (p ← lift p; IbQp_create ans p gidIndex maxSendCqPollNum maxRecvWr maxWrPerSend noAtomic).
End device.

(** ** Devices *)

Inductive atomic_cap := ATOMIC_NONE | ATOMIC_HCA | ATOMIC_GLOB.

(** The devices, by name; what opening the one with the name gives, and what is found out about it. *)
Record ctx_answers := mkCtxAnswers {
  ca_list : Z; ca_devices : list string; ca_open : option Z; ca_vf : bool; ca_mlx5 : bool; ca_pd : option Z;
  ca_data_direct : bool; ca_atomic : option atomic_cap
}.

Record IbCtx := mkIbCtx { devName_ : string; ctx_ : Z; pd_ : Z; supportsRdmaAtomics_ : bool; isMlx5_ : bool; isDataDirect_ : bool; isVF_ : bool }.

(** [IbCtx::IbCtx]. *)
Definition IbCtx_create (b : build) (d : ctx_answers) (devName : string) : M IbCtx :=
  _ ← acquire (RDeviceList (ca_list d));
  let found := bool_decide (devName ∈ ca_devices d) in
  opened ← match (if found then ca_open d else None) with Some h => _ ← acquire (RCtx h); mret (Some h) | None => mret None end;
  let isVF := found && ca_vf d in
  let isMlx5 := b_mlx5dv b && found && ca_mlx5 d in
  _ ← release (RDeviceList (ca_list d));
  ctx ← need opened EIbError;
  pd ← need (ca_pd d) EIbError;
  _ ← acquire (RPd pd);
  mret (mkIbCtx devName ctx pd (match ca_atomic d with Some ATOMIC_HCA | Some ATOMIC_GLOB => true | _ => false end)
          isMlx5 (isMlx5 && ca_data_direct d) isVF).

Definition IbCtx_destroy (c : IbCtx) : M () := _ ← release (RPd (pd_ c)); release (RCtx (ctx_ c)).

Definition registerMr (b : build) (c : IbCtx) (d : mr_answers) (cache : gmap Z bool) (buff size : Z) : M (IbMr * gmap Z bool) :=
  IbMr_create b d buff size cache (isDataDirect_ c).

(** *** Names and transports *)

(** [ibTransportIndex] and its inverse. *)
Definition ib_index (t : Transport) : option nat :=
  match t with
  | IB0 => Some 0%nat | IB1 => Some 1%nat | IB2 => Some 2%nat | IB3 => Some 3%nat | IB4 => Some 4%nat | IB5 => Some 5%nat | IB6 => Some 6%nat | IB7 => Some 7%nat
  | _ => None
  end.
Definition ib_transport (i : nat) : option Transport :=
  match i with
  | 0%nat => Some IB0 | 1%nat => Some IB1 | 2%nat => Some IB2 | 3%nat => Some IB3 | 4%nat => Some IB4 | 5%nat => Some IB5 | 6%nat => Some IB6 | 7%nat => Some IB7
  | _ => None
  end.

(** The lines that [std::getline] with a delimiter reads; [acc]: what has been read of the current one. *)
Fixpoint getlines (sep : Ascii.ascii) (acc s : string) : list string :=
  match s with
  | EmptyString => if decide (acc = EmptyString) then [] else [acc]
  | String c s' => if decide (c = sep) then acc :: getlines sep EmptyString s' else getlines sep (acc ++ String c EmptyString)%string s'
  end.

Definition comma : Ascii.ascii := Ascii.Ascii false false true true false true false false.

(** [env]: MSCCLPP_HCA_DEVICES. *)
Definition getHcaDevices (env : string) (deviceIndex : nat) : result string :=
  if decide (env = EmptyString) then Ok EmptyString else
  match getlines comma EmptyString env !! deviceIndex with Some name => Ok name | None => Throw (EError InvalidUsage) end.

(** [devices]: the names in the order of the device list, which nobody frees. *)
Section names.
Context (list_handle : Z) (devices : list string).

Definition ibv_get_device_list : M (list string) := _ ← acquire (RDeviceList list_handle); mret devices.

Definition getIBDeviceCount : M Z := l ← ibv_get_device_list; mret (Z.of_nat (length l)).

Definition getIBDeviceName (env : string) (t : Transport) : M string :=
  i ← need (ib_index t) (EError InvalidUsage);
  user ← lift (getHcaDevices env i);
  if decide (user <> EmptyString) then mret user else
  l ← ibv_get_device_list;
  need (l !! i) (EError InvalidUsage).

(** The first device of the name. *)
Definition getIBTransportByDeviceName (name : string) : M Transport :=
  l ← ibv_get_device_list;
  match list_find (fun d => name = d) l with
  | Some (i, _) => need (ib_transport i) (EError InvalidUsage)
  | None => throw (EError InvalidUsage)
  end.
End names.

(** ** What a context keeps *)

Record ContextImpl := mkContextImpl { ibContexts_ : gmap Transport IbCtx; tokenPool_ : option Utils.TokenPool }.
Definition new_context : ContextImpl := mkContextImpl ∅ None.
Definition maxNumTokens_ : Z := 2 ^ 15.

(** [name]: what [getIBDeviceName] gives; the device is opened once. *)
Definition getIbContext (b : build) (name : M string) (d : ctx_answers) (t : Transport) (c : ContextImpl) : M (IbCtx * ContextImpl) :=
  match ibContexts_ c !! t with
  | Some ctx => mret (ctx, c)
  | None =>
      ibDev ← name;
      ctx ← IbCtx_create b d ibDev;
      mret (ctx, mkContextImpl (<[t := ctx]> (ibContexts_ c)) (tokenPool_ c))
  end.

(** [base]: where the memory of a new pool is. *)
Definition Context_getToken (base : Z) (c : ContextImpl) : result (ContextImpl * Z) :=
  let pool := match tokenPool_ c with Some p => p | None => Utils.TokenPool_create maxNumTokens_ base end in
  '(pool, token) ← Utils.getToken pool;
  Ok (mkContextImpl (ibContexts_ c) (Some pool), token).

(** ** The set-up of a connection *)

(** [IBConnection::IBConnection]: what the device says of the two modifications, what comes
    of registering the source of atomic operations, whether GDRCopy can be used (asked by builds
    for CUDA), and what posting the receives returns. *)
Record conn_answers := mkConnAnswers { cn_rtr : bool; cn_rts : bool; cn_source : result (); cn_gdr : bool; cn_post : Z }.

Fixpoint stage_recvs (n : nat) (q : IbQp.IbQp) : result IbQp.IbQp :=
  match n with O => Ok q | S n => q ← IbQp.stageRecv q; stage_recvs n q end.

Definition IBConnection_create (b : build) (d : conn_answers) (local remote : EndpointImpl) (qp : QueuePair) : result QueuePair :=
  qp ← rtr (cn_rtr d) (ibQpInfo_ remote) qp;
  qp ← rts (cn_rts d) qp;
  _ ← cn_source d;
  if ibNoAtomic_ local then
    _ ← throw_if (negb (b_rocm b) && negb (cn_gdr d)) (EError InvalidUsage);
    r ← stage_recvs (Z.to_nat (maxRecvWr (ec_ib (config_ local)))) (q_requests qp);
    r ← IbQp.postRecv (cn_post d) r;
    Ok (with_requests qp r)
  else Ok qp.

(** ** Lemmas *)

Ltac runs := cbv beta iota zeta delta [mbind mret M_bind M_ret throw acquire release lift need].

Lemma bind_ok {A B} (m : M A) (k : A -> M B) w b w' : (m ≫= k) w = (Ok b, w') -> exists a w1, m w = (Ok a, w1) /\ k a w1 = (Ok b, w').
Proof. unfold mbind, M_bind. destruct (m w) as [[a|e] w1]; [intros H; by exists a, w1|done]. Qed.

(** *** Pages *)

Lemma land_pages x k : 0 <= x < 2 ^ 64 -> 0 <= k < 64 -> Z.land x (u64 (- 2 ^ k)) = x - x mod 2 ^ k.
Proof.
  intros Hx Hk. assert (Hp : 0 < 2 ^ k) by (apply Z.pow_pos_nonneg; lia). assert (Hlt : 2 ^ k < 2 ^ 64) by (apply Z.pow_lt_mono_r; lia).
  assert (E : u64 (- 2 ^ k) = Z.ldiff (Z.ones 64) (Z.ones k)).
  { rewrite Z.ldiff_ones_r, Z.shiftr_div_pow2, Z.shiftl_mul_pow2, Z.ones_equiv by lia. unfold u64, wrap.
    assert (E64 : 2 ^ 64 = 2 ^ (64 - k) * 2 ^ k) by (rewrite <- Z.pow_add_r by lia; f_equal; lia).
    assert (Ed : Z.pred (2 ^ 64) / 2 ^ k = 2 ^ (64 - k) - 1) by (symmetry; apply (Z.div_unique _ _ _ (2 ^ k - 1)); lia).
    rewrite Ed. symmetry. apply (Z.mod_unique _ _ (-1)); lia. }
  rewrite E. assert (El : Z.land x (Z.ldiff (Z.ones 64) (Z.ones k)) = Z.ldiff (Z.land x (Z.ones 64)) (Z.ones k)).
  { apply Z.bits_inj'. intros n _. rewrite Z.land_spec, !Z.ldiff_spec, Z.land_spec. by rewrite andb_assoc. }
  rewrite El, Z.land_ones, Z.mod_small, Z.ldiff_ones_r, Z.shiftr_div_pow2, Z.shiftl_mul_pow2 by lia.
  pose proof (Z.div_mod x (2 ^ k) ltac:(lia)). lia.
Qed.

Section regions.
Context (b : build) (d : mr_answers) (buff size k : Z).
Hypothesis Hk : 0 <= k < 64.
Hypothesis Hpage : ma_pageSize d = 2 ^ k.
Hypothesis Hbuff : 0 <= buff.
Hypothesis Hsize : 0 < size.
Hypothesis Hfits : buff + size + 2 ^ k <= 2 ^ 64.

(** The range of pages is the smallest that holds the buffer. *)
Lemma page_range : mr_page d buff mod 2 ^ k = 0 /\ mr_page d buff + offsetInDmaBuf d buff = buff /\ 0 <= offsetInDmaBuf d buff < 2 ^ k /\
  buff + size <= mr_page d buff + rangeSize d buff size < buff + size + 2 ^ k.
Proof using Hk Hpage Hbuff Hsize Hfits.
  unfold rangeSize, mr_pages, offsetInDmaBuf, mr_page. rewrite Hpage. assert (Hp : 0 < 2 ^ k) by (apply Z.pow_pos_nonneg; lia).
  rewrite land_pages by lia. set (P := 2 ^ k) in *. pose proof (Z.mod_pos_bound buff P Hp) as Hm. pose proof (Z.div_mod buff P ltac:(lia)) as Ed.
  assert (Hle : buff mod P <= buff) by (apply Z.mod_le; lia). replace (buff - (buff - buff mod P)) with (buff mod P) by lia.
  set (o := buff mod P) in *. rewrite (u64_small (size + o + P - 1)) by (split; lia). pose proof (Z.div_mod (size + o + P - 1) P ltac:(lia)) as Eq.
  pose proof (Z.mod_pos_bound (size + o + P - 1) P Hp). rewrite u64_small by (split; nia). split_and!; try lia.
  replace (buff - o) with (buff / P * P) by lia. apply Z.mod_mul. lia.
Qed.

(** A region that covers the buffer. *)
Definition covers (m : ibv_mr) : Prop := v_addr m <= buff /\ buff + size <= v_addr m + v_length m.
Definition mr_outcome (w : list resource) (r : result ibv_mr) (w' : list resource) : Prop :=
  match r with Ok m => w' = RMr m :: w /\ covers m | Throw _ => w' = w end.

Lemma dmabuf_covers h l r : covers (mkIbvMr h (mr_page d buff + offsetInDmaBuf d buff) size l r).
Proof using Hk Hpage Hbuff Hsize Hfits. destruct page_range as (_ & E & _). rewrite E. split; cbn [v_addr v_length]; lia. Qed.

Lemma pcie_outcome w : pcie_fd b d w = (Ok (-1), w) \/ exists fd, 0 <= fd /\ pcie_fd b d w = (Ok fd, RFd fd :: w).
Proof using.
  unfold pcie_fd. destruct (b_cuda1203 b); [|by left]. destruct (ma_pcie d) as [ok fd]. runs. destruct (Z.leb_spec 0 fd); cbn [negb orb].
  - rewrite (proj2 (Z.ltb_ge fd 0)), orb_false_r by done. destruct ok; cbn [negb]; [right; by exists fd|left].
    by rewrite remove_one_cons.
  - left. rewrite (proj2 (Z.ltb_lt fd 0)), orb_true_r by done. done.
Qed.

(** Whatever is tried, every descriptor is closed, and a region is kept only if there is one to return. *)
Lemma register_dmabuf_outcome isDataDirect w : let '(r, w') := register_dmabuf b d buff size isDataDirect w in mr_outcome w r w'.
Proof using Hk Hpage Hbuff Hsize Hfits.
  unfold register_dmabuf. pose proof dmabuf_covers as Hc. unfold mbind at 1, M_bind at 1. destruct (pcie_outcome w) as [->|(fd & Hfd & ->)].
  - unfold default_fd, reg_unless, reg_dmabuf, reg. change (-1 <? 0) with true. change (0 <=? -1) with false.
    destruct (ma_fd d) as [fd1|]; [|by runs]. destruct (b_mlx5dv b && isDataDirect), (ma_mlx5 d) as [[[h l] r]|], (ma_dmabuf d) as [[[h' l'] r']|]; runs;
      rewrite ?remove_one_other, ?remove_one_cons by done; first [done|split; [done|apply Hc]].
  - unfold default_fd, reg_unless, reg_dmabuf, reg. rewrite (proj2 (Z.ltb_ge fd 0)), (proj2 (Z.leb_le 0 fd)) by done.
    destruct (b_mlx5dv b && isDataDirect), (ma_mlx5 d) as [[[h l] r]|], (ma_dmabuf d) as [[[h' l'] r']|]; runs;
      rewrite ?remove_one_other, ?remove_one_cons by done; try (split; [done|apply Hc]);
      (destruct (ma_fd2 d) as [fd2|]; [|done]); destruct (ma_dmabuf2 d) as [[[h2 l2] r2]|]; rewrite ?remove_one_other, ?remove_one_cons by done;
      first [done|split; [done|apply Hc]].
Qed.
End regions.

(** *** Queue pairs *)

Definition access_of (noAtomic : bool) : Z :=
  if noAtomic then IBV_ACCESS_REMOTE_WRITE else Z.lor (Z.lor IBV_ACCESS_REMOTE_WRITE IBV_ACCESS_REMOTE_READ) IBV_ACCESS_REMOTE_ATOMIC.

(** What a queue pair holds. *)
Definition qp_holds (q : QueuePair) : list resource :=
  RQp (q_handle q) :: match q_recvCq q with Some cq => [RCq cq] | None => [] end ++ [RCq (q_sendCq q)].

Lemma lift_throw_if c e {B} (k : () -> M B) w : (lift (throw_if c e) ≫= k) w = if c then (Throw e, w) else k () w.
Proof. by destruct c. Qed.

(** Computations that only add to what is held. *)
Class Grows {A} (m : M A) : Prop := grows w : exists l, (m w).2 = l ++ w.
#[export] Instance grows_ret {A} (a : A) : Grows (mret a).
Proof. intros w. by exists []. Qed.
#[export] Instance grows_throw {A} e : Grows (throw e : M A).
Proof. intros w. by exists []. Qed.
#[export] Instance grows_lift {A} (r : result A) : Grows (lift r).
Proof. intros w. by exists []. Qed.
#[export] Instance grows_need {A} (x : option A) e : Grows (need x e).
Proof. intros w. destruct x; by exists []. Qed.
#[export] Instance grows_acquire x : Grows (acquire x).
Proof. intros w. by exists [x]. Qed.
#[export] Instance grows_bind {A B} (m : M A) (k : A -> M B) : Grows m -> (forall a, Grows (k a)) -> Grows (m ≫= k).
Proof.
  intros Hm Hk w. destruct (Hm w) as [l Hl]. unfold mbind, M_bind. destruct (m w) as [[a|e] w1]; simpl in Hl; subst w1; [|by exists l].
  destruct (Hk a (l ++ w)) as [l' ->]. exists (l' ++ l). by rewrite app_assoc.
Qed.
Ltac grow := repeat match goal with
  | |- Grows (match ?x with _ => _ end) => destruct x
  | |- Grows (_ ≫= _) => apply grows_bind; [|intros ?]
  | |- Grows _ => apply _
  end.

(** A computation whose first acquisition is that of [f h], for the answer [h]. *)
Lemma acquires_first {A B} (x : option A) e0 (f : A -> resource) (k : A -> () -> M B) e w w' : (forall a, Grows (k a tt)) ->
  (h ← need x e0; u ← acquire (f h); k h u) w = (Throw e, w') -> exists left, w' = left ++ w /\ (left = [] <-> x = None).
Proof.
  intros Hk. destruct x as [a|]; [|intros [= _ <-]; by exists []]. runs. intros H. destruct (Hk a (f a :: w)) as [l Hl]. rewrite H in Hl. simpl in Hl. subst w'.
  exists (l ++ [f a]). split; [by rewrite <- app_assoc|]. split; [by intros [_ ?]%app_eq_nil|done].
Qed.

Section qps.
Context (dev : device) (ans : qp_answers) (portNum gidIndex pollNum maxRecv maxWr : Z) (noAtomic : bool).
Notation create := (IbQp_create dev ans portNum gidIndex pollNum maxRecv maxWr noAtomic).

Lemma qp_created q w w' : create w = (Ok q, w') -> exists pa gid num,
  d_port dev portNum = Some pa /\ qp_gid dev pa portNum gidIndex = Ok gid /\ w' = qp_holds q ++ w /\ 0 <= maxRecv /\
  q = mkQueuePair portNum gidIndex (mkIbQpInfo (pa_lid pa) (pa_link pa) num gid.1 (pa_mtu pa) gid.2 (pa_grh pa)) (q_handle q) (q_sendCq q) (q_recvCq q)
        noAtomic [AInit portNum (access_of noAtomic)] (IbQp.mkQp [] 0 0 0 pollNum maxWr maxRecv [] 0).
Proof using.
  unfold IbQp_create, vector. destruct (qa_sendCq ans) as [cq|]; [|done]. destruct (0 <? maxRecv).
  - destruct (qa_recvCq ans) as [rcq|]; [|done]. destruct (qa_qp ans) as [[h n]|]; [|done]. destruct (d_port dev portNum) as [pa|] eqn:Ep; [|done].
    runs. destruct (qp_gid dev pa portNum gidIndex) as [gid|e] eqn:Eg; [|done]. destruct (qa_init ans); [|done]. cbn [negb throw_if].
    destruct (maxWr <? 0), (pollNum <? 0), (Z.ltb_spec maxRecv 0); try done. intros [= <- <-]. by exists pa, gid, n.
  - destruct (qa_qp ans) as [[h n]|]; [|done]. destruct (d_port dev portNum) as [pa|] eqn:Ep; [|done].
    runs. destruct (qp_gid dev pa portNum gidIndex) as [gid|e] eqn:Eg; [|done]. destruct (qa_init ans); [|done]. cbn [negb throw_if].
    destruct (maxWr <? 0), (pollNum <? 0), (Z.ltb_spec maxRecv 0); try done. intros [= <- <-]. by exists pa, gid, n.
Qed.

Lemma qp_destroyed q w : IbQp_destroy q (qp_holds q ++ w) = (Ok tt, w).
Proof using.
  unfold IbQp_destroy, qp_holds. runs. rewrite <- app_comm_cons, remove_one_cons. destruct (q_recvCq q) as [cq|]; cbn [app].
  - destruct (decide (q_sendCq q = cq)) as [->|Hne]; [by rewrite !remove_one_cons|]. rewrite remove_one_other by congruence. by rewrite !remove_one_cons.
  - by rewrite remove_one_cons.
Qed.

(** When the constructor throws, what it has made so far stays. *)
Lemma qp_leaves e w w' : create w = (Throw e, w') -> exists left, w' = left ++ w /\ (left = [] <-> qa_sendCq ans = None).
Proof using. apply (acquires_first (qa_sendCq ans) EIbError RCq). intros cq. grow. Qed.
End qps.

(** *** Ports *)

Section ports.
Context (dev : device).

Lemma any_port_ends cnt gid : cnt < 255 -> forall n port, 0 <= port -> cnt - port < Z.of_nat n -> exists r, any_port dev (S n) cnt gid port = Some r.
Proof using.
  intros Hc. induction n as [|n IH]; intros port Hp Hn; cbn [any_port].
  - rewrite (proj2 (Z.leb_gt port cnt)) by lia. by eexists.
  - destruct (Z.leb_spec port cnt); [|by eexists]. destruct (isPortUsable dev port gid) as [[]|]; [by eexists| |by eexists].
    rewrite Z.mod_small by lia. apply IH; lia.
Qed.

(** The least usable port from [port] on. *)
Lemma any_port_least cnt gid n : cnt < 255 -> forall port p, 0 <= port -> any_port dev n cnt gid port = Some (Ok p) ->
  (forall q, port <= q <= cnt -> q < p \/ p = -1 -> isPortUsable dev q gid = Ok false) /\
  (p = -1 \/ (port <= p <= cnt /\ isPortUsable dev p gid = Ok true)).
Proof using.
  intros Hc. induction n as [|n IH]; intros port p Hp; cbn [any_port]; [done|]. destruct (Z.leb_spec port cnt).
  - destruct (isPortUsable dev port gid) as [[]|] eqn:E; [intros [= <-]|rewrite Z.mod_small by lia; intros H'|done].
    + split; [intros q Hq Hl; lia|right]. split; [lia|done].
    + destruct (IH (port + 1) p ltac:(lia) H') as [H1 H2]. split; [|destruct H2 as [->|[? ?]]; [by left|right; split; [lia|done]]].
      intros q Hq Hl. destruct (decide (q = port)) as [->|]; [done|]. apply H1; [lia|done].
  - intros [= <-]. split; [intros; lia|by left].
Qed.

Lemma any_port_loops gid : (forall q, 0 <= q < 256 -> isPortUsable dev q gid = Ok false) -> forall n port, 0 <= port < 256 -> any_port dev n 255 gid port = None.
Proof using.
  intros Hn n. induction n as [|n IH]; intros port Hp; cbn [any_port]; [done|]. rewrite (proj2 (Z.leb_le port 255)), Hn by lia. apply IH, Z.mod_pos_bound. lia.
Qed.

Lemma usable_port p gid : isPortUsable dev p gid = Ok true -> exists pa, d_port dev p = Some pa /\ pa_active pa = true /\
  (pa_link pa = LINK_LAYER_ETHERNET \/ pa_link pa = LINK_LAYER_INFINIBAND).
Proof using.
  unfold isPortUsable. destruct (d_port dev p) as [pa|]; [|done]. intros H. exists pa. split; [done|]. destruct (pa_active pa); [|done]. split; [done|].
  cbn [negb] in H. destruct (Z.eqb_spec (pa_link pa) LINK_LAYER_ETHERNET); [by left|]. destruct (Z.eqb_spec (pa_link pa) LINK_LAYER_INFINIBAND); [by right|done].
Qed.

Lemma createQp_port ans port gidIndex pollNum maxRecv maxWr noAtomic m q w w' : createQp dev ans port gidIndex pollNum maxRecv maxWr noAtomic = Some m ->
  m w = (Ok q, w') -> exists p, (port = p \/ (port = -1 /\ exists r, getAnyUsablePort dev 256 gidIndex = Some (Ok r) /\ r = p)) /\ isPortUsable dev p gidIndex = Ok true /\
    IbQp_create dev ans p gidIndex pollNum maxRecv maxWr noAtomic w = (Ok q, w').
Proof using.
  unfold createQp. destruct (Z.eqb_spec port (-1)) as [->|].
  - destruct (getAnyUsablePort dev 256 gidIndex) as [[p|]|] eqn:E; [|by intros [= <-]|done]. intros [= <-] H. apply bind_ok in H as (p' & w1 & H1 & H).
    unfold lift in H1. cbn [mbind result_bind] in H1. destruct (Z.eqb_spec p (-1)) as [|Hne]; [done|]. injection H1 as -> ->. exists p'. split; [right; split; [done|by exists p']|]. split; [|done].
    unfold getAnyUsablePort in E. destruct (d_ports dev) as [cnt|]; [|done]. clear H. revert E. generalize 256%nat 1. intros n. induction n as [|n IH]; intros x; cbn [any_port]; [done|].
    destruct (x <=? cnt); [|intros [= <-]; done]. destruct (isPortUsable dev x gidIndex) as [[]|] eqn:Eu; [by intros [= <-]|apply IH|done].
  - intros [= <-] H. apply bind_ok in H as (p' & w1 & H1 & H). unfold lift in H1. destruct (isPortUsable dev port gidIndex) as [[]|] eqn:Eu; try done.
    injection H1 as -> ->. exists p'. split; [by left|done].
Qed.
End ports.

(** *** Names *)

Lemma ib_transport_index i t : ib_transport i = Some t <-> ib_index t = Some i.
Proof. split; [do 8 (destruct i as [|i]; [by intros [= <-]|]); done|]. destruct t; simpl; intros [= <-]; done. Qed.

Lemma str_app_nil s : (s ++ EmptyString)%string = s.
Proof. induction s as [|c s IH]; [done|]. change (String c (s ++ EmptyString) = String c s). by rewrite IH. Qed.
Lemma str_app_assoc s t u : ((s ++ t) ++ u)%string = (s ++ (t ++ u))%string.
Proof. induction s as [|c s IH]; [done|]. change (String c ((s ++ t) ++ u) = String c (s ++ (t ++ u))). by rewrite IH. Qed.

(** A name that the list of an environment variable can hold. *)
Fixpoint plain (name : string) : Prop := match name with EmptyString => True | String c s => c <> comma /\ plain s end.

Lemma getlines_name name : forall acc s, plain name -> getlines comma acc (name ++ s)%string = getlines comma (acc ++ name)%string s.
Proof.
  induction name as [|c name IH]; intros acc s Hn; [by rewrite str_app_nil|]. destruct Hn as [Hc Hn]. change ((String c name ++ s)%string) with (String c (name ++ s)%string).
  cbn [getlines]. rewrite decide_False by done. rewrite IH by done. by rewrite str_app_assoc.
Qed.

Lemma getlines_join names : Forall (fun n => plain n /\ n <> EmptyString) names -> forall acc, acc = EmptyString ->
  getlines comma acc (String.concat (String comma EmptyString) names) = names.
Proof.
  induction 1 as [|n names [Hp Hne] Hf IH]; intros acc ->; [done|]. cbn [String.concat]. destruct names as [|n' names].
  - rewrite <- (str_app_nil n) at 1. rewrite getlines_name by done. cbn [getlines]. change ((EmptyString ++ n)%string) with n. by rewrite decide_False.
  - rewrite getlines_name by done. change ((EmptyString ++ n)%string) with n.
    change ((String comma EmptyString ++ String.concat (String comma EmptyString) (n' :: names))%string) with (String comma (String.concat (String comma EmptyString) (n' :: names))).
    cbn [getlines]. rewrite decide_True by done. f_equal. by apply IH.
Qed.

(** *** Receives *)

Lemma stage_recvs_count n : forall q, 0 <= IbQp.stagedRecv q -> IbQp.stagedRecv q + Z.of_nat n <= IbQp.qp_maxRecvWr q ->
  exists q', stage_recvs n q = Ok q' /\ IbQp.stagedRecv q' = IbQp.stagedRecv q + Z.of_nat n /\ IbQp.recvPosted q' = IbQp.recvPosted q.
Proof.
  induction n as [|n IH]; intros q H0 Hn; cbn [stage_recvs]; [exists q; split_and!; (done || lia)|]. unfold IbQp.stageRecv. rewrite (proj2 (Z.leb_gt _ _)) by lia.
  cbn [mbind result_bind]. destruct (IH (IbQp.set_recv q (IbQp.stagedRecv q + 1) (IbQp.recvPosted q))) as (q' & E & H1 & H2); [cbn; lia..|].
  exists q'. cbn [IbQp.stagedRecv IbQp.recvPosted IbQp.set_recv] in *. split_and!; [done|lia|done].
Qed.

(** ** Results *)

(** What a process that held [w] holds after making a region for a buffer. *)
Definition region_made (buff size : Z) (w : list resource) (out : result (IbMr * gmap Z bool) * list resource) : Prop :=
  match out with
  | (Ok (m, _), w') => w' = RMr (mr_ m) :: w /\ covers buff size (mr_ m) /\ IbMr_getInfo m = mkIbMrInfo buff (v_rkey (mr_ m)) /\ IbMr_destroy m w' = (Ok tt, w)
  | (Throw _, w') => w' = w
  end.

(** C22: registering memory: on every path that succeeds (with or without dma-buf, with the PCIe
    mapping, the mlx5 call or the retry) the region covers the buffer, its key is the one
    handed to peers, and it is all the process holds more; on every path that fails, and after
    the destructor, the process holds what it held before: no descriptor is left open. *)
Theorem region_covers_buffer b d buff size k cache isDataDirect w : 0 <= k < 64 -> ma_pageSize d = 2 ^ k -> 0 <= buff -> 0 < size -> buff + size + 2 ^ k <= 2 ^ 64 ->
  region_made buff size w (IbMr_create b d buff size cache isDataDirect w).
Proof.
  intros Hk Hp Hb Hs Hf. unfold IbMr_create. rewrite (proj2 (Z.eqb_neq size 0)) by lia.
  assert (G : forall m w' c, w' = RMr m :: w /\ covers buff size m -> region_made buff size w (Ok (mkIbMr m buff (rangeSize d buff size), c), w')).
  { intros m w' c [-> Hc]. split_and!; try done. unfold IbMr_destroy. runs. cbn [mr_]. by rewrite remove_one_cons. }
  assert (Hreg : forall c, region_made buff size w (((m ← reg (mr_page d buff) (rangeSize d buff size) (ma_reg d); need m EIbError) ≫= fun m => mret (mkIbMr m buff (rangeSize d buff size), c)) w)).
  { intros c. unfold reg. destruct (ma_reg d) as [[[h l] r]|]; [|done]. runs. apply (G _ _ c). split; [done|].
    destruct (page_range d buff size k Hk Hp Hb Hs Hf) as (_ & E & Ho & Hr). split; cbn [v_addr v_length]; lia. }
  destruct (negb (ma_gpuId d =? -1)); cbn [andb]; [|rewrite andb_false_r; exact (Hreg cache)].
  destruct (isDmabufSupportedByGpu _ _ _ _ _) as [[[] c]|e]; [| |done].
  - change (region_made buff size w (((if b_rocm b then throw (EError InvalidUsage) else register_dmabuf b d buff size isDataDirect) ≫=
      fun m => mret (mkIbMr m buff (rangeSize d buff size), c)) w)).
    destruct (b_rocm b); [done|]. pose proof (register_dmabuf_outcome b d buff size k Hk Hp Hb Hs Hf isDataDirect w) as H.
    runs. destruct (register_dmabuf b d buff size isDataDirect w) as [[m|e] w']; [by apply G|done].
  - destruct (negb (b_rocm b)); [|exact (Hreg c)]. destruct (ma_cuMemMap d); [done|]. destruct (checkNvPeerMemLoaded (ma_modules d)); [|done]. exact (Hreg c).
Qed.

(** a queue pair that is made holds itself and its completion queues until its destructor
    runs, which gives all of them back; when the constructor throws after the first completion queue
    has been made, what it has made is never given back. *)
Theorem queue_pair_held dev ans portNum gidIndex pollNum maxRecv maxWr noAtomic w :
  match IbQp_create dev ans portNum gidIndex pollNum maxRecv maxWr noAtomic w with
  | (Ok q, w') => w' = qp_holds q ++ w /\ IbQp_destroy q w' = (Ok tt, w)
  | (Throw _, w') => exists left, w' = left ++ w /\ (left = [] <-> qa_sendCq ans = None)
  end.
Proof.
  destruct (IbQp_create _ _ _ _ _ _ _ _ w) as [[q|e] w'] eqn:E; [|by eapply qp_leaves].
  apply qp_created in E as (pa & gid & num & _ & _ & -> & _). split; [done|]. apply qp_destroyed.
Qed.

(** of a device with fewer than 255 ports the least usable port is chosen, if there is one;
    with 255 ports none of which is usable the search, whose counter has 8 bits, never ends. *)
Theorem port_choice dev gidIndex cnt : d_ports dev = Some cnt ->
  (0 <= cnt < 255 -> exists r, getAnyUsablePort dev 256 gidIndex = Some r /\
    forall p, r = Ok p -> (p = -1 /\ forall q, 1 <= q <= cnt -> isPortUsable dev q gidIndex = Ok false) \/
      (1 <= p <= cnt /\ isPortUsable dev p gidIndex = Ok true /\ forall q, 1 <= q < p -> isPortUsable dev q gidIndex = Ok false)) /\
  (cnt = 255 -> (forall q, 0 <= q < 256 -> isPortUsable dev q gidIndex = Ok false) -> forall fuel, getAnyUsablePort dev fuel gidIndex = None).
Proof.
  intros Hc. unfold getAnyUsablePort. rewrite Hc. split.
  - intros Hcnt. destruct (any_port_ends dev cnt gidIndex ltac:(lia) 255 1 ltac:(lia) ltac:(lia)) as [r Hr]. exists r. split; [done|]. intros p ->.
    destruct (any_port_least dev cnt gidIndex 256 ltac:(lia) 1 p ltac:(lia) Hr) as [H1 [->|[Hp H2]]].
    + left. split; [done|]. intros q Hq. apply H1; [lia|by right].
    + right. split_and!; [lia|lia|done|]. intros q Hq. apply H1; [lia|left; lia].
  - intros -> Hn fuel. by apply any_port_loops.
Qed.

(** C21: the set-up of a connection takes the queue pair through INIT, RTR and RTS, in this order,
    and addresses the peer's: its number, its port's LID, and, where the address is global,
    the GID that the peer's device has at the index its endpoint was made with; where
    it is not, the peer's port is InfiniBand and needs none. *)
Theorem connection_addresses_peer b d local remote devA ansA portA gidA pollA recvA wrA naA mA qa w wa devB ansB portB gidB pollB recvB wrB naB mB qb v vb qa' :
  createQp devA ansA portA gidA pollA recvA wrA naA = Some mA -> mA w = (Ok qa, wa) ->
  createQp devB ansB portB gidB pollB recvB wrB naB = Some mB -> mB v = (Ok qb, vb) ->
  ibQpInfo_ remote = q_info qb -> IBConnection_create b d local remote qa = Ok qa' ->
  exists pa pb a, d_port devA (q_port qa) = Some pa /\ pa_active pa = true /\ d_port devB (q_port qb) = Some pb /\ pa_active pb = true /\
    q_attrs qa' = [AInit (q_port qa) (access_of naA); ARtr a; ARts (if naA then 0 else 1)] /\
    dest_qp_num a = qi_qpn (q_info qb) /\ dlid a = pa_lid pb /\ path_mtu a = pa_mtu pb /\ ah_port a = q_port qa /\
    (is_global a = true -> d_gid devB (q_port qb) gidB = Some (dgid a)) /\
    (is_global a = false -> pa_link pb = LINK_LAYER_INFINIBAND /\ pa_grh pb = false).
Proof.
  intros HmA HA HmB HB Hinfo H. destruct (createQp_port _ _ _ _ _ _ _ _ _ _ _ _ HmA HA) as (p & _ & HuA & HcA). destruct (createQp_port _ _ _ _ _ _ _ _ _ _ _ _ HmB HB) as (p' & _ & HuB & HcB).
  apply qp_created in HcA as (pa & ga & na & Epa & _ & _ & _ & EA). apply qp_created in HcB as (pb & gb & nb & Epb & Eg & _ & _ & EB).
  destruct (usable_port devA p gidA HuA) as (pa' & Epa' & Ha & _). destruct (usable_port devB p' gidB HuB) as (pb' & Epb' & Hb & Hl).
  rewrite Epa in Epa'. injection Epa' as <-. rewrite Epb in Epb'. injection Epb' as <-.
  assert (Hattrs : q_attrs qa' = q_attrs qa ++ [ARtr (rtr_attr_of qa (q_info qb)); ARts (if q_noAtomic qa then 0 else 1)]).
  { unfold IBConnection_create, rtr, rts in H. rewrite Hinfo in H. inv_ok. destruct (ibNoAtomic_ local); inv_ok; cbn [q_attrs with_attr with_requests q_noAtomic]; by rewrite <- app_assoc. }
  rewrite Hattrs. exists pa, pb, (rtr_attr_of qa (q_info qb)).
  rewrite EA, EB. cbn [q_port q_attrs q_noAtomic q_info qi_qpn]. split_and!; try done.
  - unfold rtr_attr_of. cbn [is_global dgid q_info qi_linkLayer qi_isGrh qi_spn qi_iid]. intros Hg. rewrite Hg. unfold qp_gid in Eg.
    destruct (negb (pa_link pb =? LINK_LAYER_INFINIBAND) || pa_grh pb) eqn:E.
    + inv_ok. destruct (d_gid devB p' gidB) as [[x y]|]; inv_ok. done.
    + exfalso. apply orb_false_iff in E as [E1 E2]. apply negb_false_iff, Z.eqb_eq in E1. by rewrite E1, E2 in Hg.
  - unfold rtr_attr_of. cbn [is_global q_info qi_linkLayer qi_isGrh]. intros [E1 E2]%orb_false_iff. apply Z.eqb_neq in E1. destruct Hl; [done|]. by split.
Qed.

(** in the mode without atomics the connection posts as many receives as its endpoint is
    configured for, for which the queue pair has been made large enough. *)
Theorem receives_posted b d local remote dev ans port gid poll recv wr m q w w' :
  createQp dev ans port gid poll recv wr true = Some m -> m w = (Ok q, w') ->
  ibNoAtomic_ local = true -> maxRecvWr (ec_ib (config_ local)) = recv ->
  cn_rtr d = true -> cn_rts d = true -> cn_source d = Ok tt -> b_rocm b = true \/ cn_gdr d = true -> cn_post d = 0 ->
  exists q', IBConnection_create b d local remote q = Ok q' /\ IbQp.recvPosted (q_requests q') = recv /\ IbQp.stagedRecv (q_requests q') = 0.
Proof.
  intros Hm Hq Hna Hrecv H1 H2 H3 H4 H5. destruct (createQp_port _ _ _ _ _ _ _ _ _ _ _ _ Hm Hq) as (p & _ & _ & Hc).
  apply qp_created in Hc as (pa & g & n & _ & _ & _ & Hr & E). unfold IBConnection_create, rtr, rts. rewrite H1, H2, H3, Hna, Hrecv. cbn [negb throw_if mbind result_bind].
  assert (E4 : negb (b_rocm b) && negb (cn_gdr d) = false) by (destruct H4 as [-> | ->]; [done|by rewrite andb_false_r]). rewrite E4. cbn [throw_if mbind result_bind].
  destruct (stage_recvs_count (Z.to_nat recv) (q_requests q)) as (r & Er & Hs & Hp); [by rewrite E|rewrite E; cbn; lia|].
  cbn [with_attr q_requests]. rewrite Er. cbn [mbind result_bind]. unfold IbQp.postRecv. rewrite H5. rewrite E in Hs, Hp. cbn in Hs, Hp.
  destruct (Z.eqb_spec (IbQp.stagedRecv r) 0) as [E0|]; cbn [negb Z.eqb mbind result_bind]; eexists; split; try reflexivity; cbn; split; try done; lia.
Qed.

(** opening a device: the list of devices is freed on every path, success holds the context
    and the protection domain until the destructor gives them back, and failure holds
    nothing, except that the context stays open when there is no protection domain. *)
Theorem device_opened b d devName w :
  match IbCtx_create b d devName w with
  | (Ok c, w') => devName ∈ ca_devices d /\ w' = [RPd (pd_ c); RCtx (ctx_ c)] ++ w /\ IbCtx_destroy c w' = (Ok tt, w)
  | (Throw _, w') => w' = w \/ (ca_pd d = None /\ exists h, ca_open d = Some h /\ w' = RCtx h :: w)
  end.
Proof.
  unfold IbCtx_create. runs. destruct (bool_decide_reflect (devName ∈ ca_devices d)) as [Hin|_]; [|left; by rewrite remove_one_cons].
  destruct (ca_open d) as [h|]; [|left; by rewrite remove_one_cons]. rewrite remove_one_other, remove_one_cons by done. destruct (ca_pd d) as [pd|].
  - unfold IbCtx_destroy. runs. cbn [pd_ ctx_ app]. by rewrite !remove_one_cons.
  - right. split; [done|]. by exists h.
Qed.

(** A device is opened once for a transport: from then on it is found, and nothing more is held. *)
Lemma context_cached b name d t c w ctx c' w' : getIbContext b name d t c w = (Ok (ctx, c'), w') ->
  (forall name2 d2 w2, getIbContext b name2 d2 t c' w2 = (Ok (ctx, c'), w2)) /\ (forall t2, t2 <> t -> ibContexts_ c' !! t2 = ibContexts_ c !! t2).
Proof.
  unfold getIbContext. destruct (ibContexts_ c !! t) as [x|] eqn:E.
  - intros [= <- <- <-]. split; [|done]. intros name2 d2 w2. by rewrite E.
  - intros H. apply bind_ok in H as (n & w1 & _ & H). apply bind_ok in H as (x & w2 & _ & H). injection H as <- <- <-. cbn [ibContexts_]. split.
    + intros name2 d2 w3. by rewrite lookup_insert_eq.
    + intros t2 Hne. by rewrite lookup_insert_ne.
Qed.

(** without a list of the user's and with device names that differ, the name of a transport's
    device and the transport of a device's name are inverse to each other; neither call frees
    the list of devices it has asked for. *)
Theorem device_names_agree list_handle devices t name w : NoDup devices -> let w' := RDeviceList list_handle :: w in
  (getIBDeviceName list_handle devices EmptyString t w = (Ok name, w') <-> getIBTransportByDeviceName list_handle devices name w = (Ok t, w')).
Proof.
  intros Hnd w'. assert (Hnone : forall i, getHcaDevices EmptyString i = Ok EmptyString) by done.
  unfold getIBDeviceName, getIBTransportByDeviceName, ibv_get_device_list. runs.
  assert (Hfind : forall i, devices !! i = Some name -> list_find (fun d => name = d) devices = Some (i, name)).
  { intros i Hi. apply list_find_Some. split_and!; [done|done|]. intros j y Hj Hlt ->. pose proof (NoDup_lookup _ _ _ _ Hnd Hi Hj). lia. }
  split.
  - destruct (ib_index t) as [i|] eqn:Ei; [|done]. rewrite Hnone. rewrite decide_False by (intros H; by apply H). destruct (devices !! i) as [n|] eqn:En; [|done].
    intros [= ->]. rewrite (Hfind i En). by apply ib_transport_index in Ei as ->.
  - destruct (list_find (fun d => name = d) devices) as [[i n]|] eqn:E; [|done]. apply list_find_Some in E as (En & <- & _).
    destruct (ib_transport i) as [t'|] eqn:Et; [|done]. intros [= ->]. apply ib_transport_index in Et as ->.
    rewrite Hnone. rewrite decide_False by (intros H; by apply H). by rewrite En.
Qed.

(** a list of names in MSCCLPP_HCA_DEVICES is read back name by name, whatever the names
    without commas; a transport beyond its end is refused, and none of this asks for devices. *)
Theorem hca_devices_read list_handle devices names t i w : Forall (fun n => plain n /\ n <> EmptyString) names -> names <> [] -> ib_index t = Some i ->
  getIBDeviceName list_handle devices (String.concat (String comma EmptyString) names) t w =
  (match names !! i with Some name => Ok name | None => Throw (EError InvalidUsage) end, w).
Proof.
  intros Hn Hne Hi. assert (He : String.concat (String comma EmptyString) names <> EmptyString).
  { destruct names as [|n names]; [done|]. apply Forall_cons in Hn as [[_ Hne'] _]. destruct n as [|c n]; [done|]. by destruct names. }
  unfold getIBDeviceName. rewrite Hi. runs. unfold getHcaDevices. rewrite decide_False, getlines_join by done. destruct (names !! i) as [name|] eqn:E; [|done].
  rewrite decide_True; [done|]. exact (proj2 (Forall_lookup_1 _ _ _ _ Hn E)).
Qed.

(** ** Two hosts *)

Definition demo_dev (lid gid : Z) : device :=
  mkDev (fun p => if p =? 1 then Some (mkPortAttr false 1 lid 5 false 8) else if p =? 2 then Some (mkPortAttr true 2 lid 5 false 8) else None)
    (fun _ i => if i <? 4 then Some (gid, i) else None) (Some 2).
Definition demo_answers (n : Z) : qp_answers := mkQpAnswers (Some (n + 1)) (Some (n + 2)) (Some (n + 3, n)) true.
(** [createQp] as the endpoint calls it. *)
Definition demo_createQp (dev : device) (ans : qp_answers) (_ : Transport) (port gid _ poll _ recv wr : Z) (noAtomic : bool) : result IbQpInfo :=
  match createQp dev ans port gid poll recv wr noAtomic with Some m => q ← (m []).1; Ok (q_info q) | None => Throw EStd end.
Definition demo_qp (dev : device) (ans : qp_answers) (recv : Z) (noAtomic : bool) : option (result QueuePair) :=
  m ← createQp dev ans (-1) 3 1 recv 64 noAtomic; Some (m []).1.
Definition demo_config : EndpointConfig := mkEndpointConfig IB0 (mkDevice DGPU 0) (-1) IbConfig_default.
Definition demo_endpoint (host : Z) (atomics : bool) (dev : device) (ans : qp_answers) : result EndpointImpl :=
  Endpoint_create (mkProcess host 1) 0 false 3 (fun _ => atomics) (demo_createQp dev ans) None demo_config.
Definition demo_conn : conn_answers := mkConnAnswers true true (Ok tt) true 0.
Definition demo_build : build := mkBuild false true true.

(** *** Concrete inputs *)

Definition demo_mr (pcie : bool * Z) (dmabuf dmabuf2 : option (Z * Z * Z)) : mr_answers :=
  mkMrAnswers 4096 0 true (Some true) pcie (Some 9) (Some 10) None dmabuf dmabuf2 None false [].

(** The retry. *)
Lemma region_covers_buffer_witness : let d := demo_mr (true, 8) None (Some (1, 2, 3)) in
  region_made 5000 100 [RPd 1] (IbMr_create demo_build d 5000 100 ∅ false [RPd 1]) /\
  exists c, IbMr_create demo_build d 5000 100 ∅ false [RPd 1] = (Ok (mkIbMr (mkIbvMr 1 5000 100 2 3) 5000 4096, c), [RMr (mkIbvMr 1 5000 100 2 3); RPd 1]).
Proof.
  intros d. split; [|eexists; vm_compute; reflexivity]. apply (region_covers_buffer demo_build d 5000 100 12); [lia|reflexivity|lia|lia|]. vm_compute. discriminate.
Defined.

Lemma port_choice_witness : getAnyUsablePort (demo_dev 7 100) 256 3 = Some (Ok 2) /\ isPortUsable (demo_dev 7 100) 1 3 = Ok false.
Proof.
  destruct (proj1 (port_choice (demo_dev 7 100) 3 2 eq_refl) ltac:(lia)) as (r & Hr & H). split; [reflexivity|].
  assert (E : r = Ok 2) by (vm_compute in Hr; by injection Hr as <-). destruct (H 2 E) as [[? _]|(_ & _ & H1)]; [done|]. apply H1. lia.
Defined.

Lemma connection_addresses_peer_witness : exists mA qa mB qb qa',
  createQp (demo_dev 7 100) (demo_answers 10) (-1) 3 1 0 64 false = Some mA /\ (mA []).1 = Ok qa /\
  createQp (demo_dev 8 200) (demo_answers 20) (-1) 3 1 0 64 false = Some mB /\ (mB []).1 = Ok qb /\
  exists a, q_attrs qa' = [AInit 2 14; ARtr a; ARts 1] /\ dest_qp_num a = 20 /\ dgid a = (200, 3).
Proof.
  destruct (createQp (demo_dev 7 100) (demo_answers 10) (-1) 3 1 0 64 false) as [mA|] eqn:EA; [|by vm_compute in EA].
  destruct (createQp (demo_dev 8 200) (demo_answers 20) (-1) 3 1 0 64 false) as [mB|] eqn:EB; [|by vm_compute in EB].
  destruct (mA []) as [[qa|] wa] eqn:Ha; [|injection EA as <-; by vm_compute in Ha].
  destruct (mB []) as [[qb|] wb] eqn:Hb; [|injection EB as <-; by vm_compute in Hb].
  set (remote := mkEndpointImpl demo_config 2 1 false false (q_info qb) no_addr). set (local := mkEndpointImpl demo_config 1 1 true false (q_info qa) no_addr).
  destruct (IBConnection_create demo_build demo_conn local remote qa) as [qa'|] eqn:Hc; [|injection EA as <-; vm_compute in Ha; injection Ha as <- <-; by vm_compute in Hc].
  exists mA, qa, mB, qb, qa'. split_and!; try done; [by rewrite Ha|by rewrite Hb|].
  destruct (connection_addresses_peer demo_build demo_conn local remote _ _ _ _ _ _ _ _ mA qa [] wa _ _ _ _ _ _ _ _ mB qb [] wb qa' EA Ha EB Hb eq_refl Hc)
    as (pa & pb & a & _ & _ & _ & _ & Hat & Hn & _ & _ & _ & Hg & _).
  exists a. injection EA as <-. injection EB as <-. vm_compute in Ha, Hb. injection Ha as <- <-. injection Hb as <- <-. vm_compute in Hc. injection Hc as <-.
  split_and!; [exact Hat|exact Hn|]. vm_compute in Hat. injection Hat as <-. reflexivity.
Defined.

Lemma receives_posted_witness : exists q q' : QueuePair,
  demo_qp (demo_dev 8 200) (demo_answers 20) 16 true = Some (Ok q) /\ IbQp.recvPosted (q_requests q') = 16.
Proof.
  destruct (createQp (demo_dev 8 200) (demo_answers 20) (-1) 3 1 16 64 true) as [m|] eqn:Em; [|by vm_compute in Em].
  destruct (m []) as [[q|] w] eqn:Hq; [|injection Em as <-; by vm_compute in Hq].
  destruct (receives_posted demo_build demo_conn (mkEndpointImpl demo_config 1 1 true true (q_info q) no_addr) (mkEndpointImpl demo_config 2 1 false true no_qp no_addr)
    _ _ _ _ _ 16 _ m q [] w Em Hq) as (q' & _ & H & _); try done; [by right|].
  exists q, q'. split; [|done]. unfold demo_qp. rewrite Em. cbn [mbind option_bind]. by rewrite Hq.
Defined.

Lemma device_names_agree_witness : getIBDeviceName 5 ["mlx5_0"; "mlx5_1"]%string EmptyString IB1 [] = (Ok "mlx5_1"%string, [RDeviceList 5]) /\
  getIBTransportByDeviceName 5 ["mlx5_0"; "mlx5_1"]%string "mlx5_1"%string [] = (Ok IB1, [RDeviceList 5]).
Proof.
  split; [reflexivity|]. apply (device_names_agree 5 ["mlx5_0"; "mlx5_1"]%string IB1 "mlx5_1"%string []); [|reflexivity].
  apply NoDup_cons. split; [by intros ?%list_elem_of_singleton|]. apply NoDup_singleton.
Defined.

Lemma hca_devices_read_witness : getIBDeviceName 5 [] "a,b"%string IB1 [] = (Ok "b"%string, []) /\ getIBDeviceName 5 [] "a,b"%string IB2 [] = (Throw (EError InvalidUsage), []).
Proof.
  assert (H : Forall (fun n => plain n /\ n <> EmptyString) ["a"; "b"]%string) by (repeat constructor; done).
  split; [exact (hca_devices_read 5 [] ["a"; "b"]%string IB1 1 [] H ltac:(done) eq_refl)|exact (hca_devices_read 5 [] ["a"; "b"]%string IB2 2 [] H ltac:(done) eq_refl)].
Defined.
