(* ===== verification/Connection.v ===== *)
(** * Connections: CUDA IPC, InfiniBand and Ethernet

    Models src/core/connection.cc: the checks on registered memories, and for
    each of the three connections [write], [updateAndSync], [flush],
    [requestFlush] and [progressFlush]; the InfiniBand receive thread that
    rebuilds 64-bit tokens from 32-bit immediates; the Ethernet message format
    with its receive loop.

    The connections of a context share its memory and, for CUDA IPC, one stream;
    so the operations act on a [world]: device memory (a finite map from
    addresses to bytes), the streams and the connections by handle.  A stream
    runs the copies queued on it in order and [sync] waits for all of them.  What
    the verbs library answers ([ibv_post_send], [ibv_poll_cq]) is a list kept in
    the connection and consumed call by call; a socket delivers the bytes sent,
    in order.  An exception ends the operation: the state it leaves behind is not
    described.

    The interface the proxy service uses them through is in [ConnOps]. *)

From S2P Require Import Prelude Errors Core RegisteredMemory Endpoint IbQp.
Local Open Scope Z_scope.

(** ** Byte-addressed memory *)

Abbreviation memory := (gmap Z Z).

Fixpoint mem_read (m : memory) (a : Z) (n : nat) : list Z :=
  match n with
  | O => []
  | S n' => default 0 (m !! a) :: mem_read m (a + 1) n'
  end.

Fixpoint mem_write (m : memory) (a : Z) (bs : list Z) : memory :=
  match bs with
  | [] => m
  | b :: bs' => mem_write (<[a := b]> m) (a + 1) bs'
  end.

Lemma mem_read_len m a n : length (mem_read m a n) = n.
Proof. revert a. induction n; simpl; intros; [done|]. by rewrite IHn. Qed.

Lemma mem_write_lookup_out m a bs x :
  x < a \/ a + Z.of_nat (length bs) <= x -> mem_write m a bs !! x = m !! x.
Proof.
  revert m a. induction bs as [|b bs IH]; intros m a Hx; simpl in *; [done|].
  rewrite IH by lia. by rewrite lookup_insert_ne by lia.
Qed.

Lemma mem_read_write m a bs : mem_read (mem_write m a bs) a (length bs) = bs.
Proof.
  revert m a. induction bs as [|b bs IH]; intros m a; simpl; [done|].
  rewrite mem_write_lookup_out by lia. rewrite lookup_insert_eq. simpl. by rewrite IH.
Qed.

Lemma mem_write_app m a bs1 bs2 :
  mem_write m a (bs1 ++ bs2) = mem_write (mem_write m a bs1) (a + Z.of_nat (length bs1)) bs2.
Proof.
  revert m a. induction bs1 as [|b bs1 IH]; intros m a; simpl; [by rewrite Z.add_0_r|].
  rewrite IH. f_equal. lia.
Qed.

Lemma mem_read_app m a n k : mem_read m a (n + k) = mem_read m a n ++ mem_read m (a + Z.of_nat n) k.
Proof.
  revert a. induction n as [|n IH]; intros a; simpl; [by rewrite Z.add_0_r|].
  rewrite IH. do 3 f_equal. lia.
Qed.

(** ** Checks shared by the connections *)

(** [validateTransport]: both comparisons are on 64-bit unsigned integers. *)
Definition validateTransport (m : Impl) (t : Transport) (offset size : Z) : result () :=
  _ ← throw_if (negb (hasb (transports m) t)) (EError InvalidUsage);
  throw_if (rm_size m <? u64 (offset + size)) (EError InvalidUsage).

Definition isSameProcess (a b : EndpointImpl) : bool :=
  (ep_hostHash a =? ep_hostHash b) && (ep_pidHash a =? ep_pidHash b).

Definition is_gpu (d : Device) : bool := match dev_type d with DGPU => true | _ => false end.

(** [CudaIpcConnection::CudaIpcConnection]: the checks, in order; on success the
    device of the stream and whether peer access has to be enabled first. *)
Definition CudaIpc_check (local remote : EndpointImpl) : result (Z * bool) :=
  let ld := ec_device (config_ local) in
  let rd := ec_device (config_ remote) in
  _ ← throw_if (negb (bool_decide (ec_transport (config_ local) = CudaIpc)) ||
                negb (bool_decide (ec_transport (config_ remote) = CudaIpc))) (EError InternalError);
  _ ← throw_if (is_gpu ld && (dev_id ld <? 0)) (EError InternalError);
  _ ← throw_if (is_gpu rd && (dev_id rd <? 0)) (EError InternalError);
  _ ← throw_if (negb (is_gpu ld) && negb (is_gpu rd)) (EError InvalidUsage);
  Ok (if is_gpu ld then dev_id ld else dev_id rd,
      is_gpu ld && is_gpu rd && isSameProcess local remote && negb (dev_id ld =? dev_id rd)).

(** ** CudaIpcStream and CudaIpcConnection *)

Inductive copy :=
  | D2D (dst src : Z) (nbytes : Z)
  | H2D (dst : Z) (value : list Z).

Definition run_copy (m : memory) (c : copy) : memory :=
  match c with
  | D2D dst src n => mem_write m dst (mem_read m src (Z.to_nat n))
  | H2D dst v => mem_write m dst v
  end.

(** [CudaIpcStream]: the copies handed to CUDA, each with the connection that
    queued it: those already executed and those still queued. *)
Record stream := mkStream { queued : list (Z * copy); dirty : bool; executed : list (Z * copy) }.

Definition stream_push (s : stream) (h : Z) (c : copy) : stream :=
  mkStream (queued s ++ [(h, c)]) true (executed s).

Definition run_copies (m : memory) (cs : list (Z * copy)) : memory :=
  fold_left (fun m c => run_copy m c.2) cs m.

Definition stream_sync (m : memory) (s : stream) : memory * stream :=
  if dirty s then (run_copies m (queued s), mkStream [] false (executed s ++ queued s)) else (m, s).

(** The device may run a prefix of the queue at any time. *)
Definition stream_advance (n : nat) (m : memory) (s : stream) : memory * stream :=
  (run_copies m (take n (queued s)),
   mkStream (drop n (queued s)) (dirty s) (executed s ++ take n (queued s))).

Definition CudaIpc_write (h : Z) (s : stream) (dst : Impl) (dstOffset : Z) (src : Impl)
    (srcOffset size : Z) : result stream :=
  _ ← validateTransport dst CudaIpc dstOffset size;
  _ ← validateTransport src CudaIpc srcOffset size;
  Ok (stream_push s h (D2D (data dst + dstOffset) (data src + srcOffset) size)).

(** [updateAndSync]: [dstPtr] already includes [dstOffset] bytes, and the copy
    adds [dstOffset] elements of eight bytes once more. *)
Definition CudaIpc_updateAndSync (h : Z) (s : stream) (dst : Impl) (dstOffset oldValue newValue : Z)
    : result stream :=
  _ ← validateTransport dst CudaIpc 0 0;
  let dstPtr := data dst + dstOffset in
  Ok (stream_push s h (H2D (dstPtr + 8 * dstOffset) (le_bytes 8 newValue))).

(** [flush]: the timeout is ignored. *)
Definition CudaIpc_flush (m : memory) (s : stream) : memory * stream := stream_sync m s.

(** ** IBConnection *)

(** One answer of the completion queue: [None] is a negative return, otherwise
    the statuses ([true] for Success); with the time a timer then shows. *)
Record cq_answer := mkAnswer { wcs : option (list bool); elapsed : Z }.

(** The members the operations read and write, and the answers to come.  The
    queue pair belongs to the endpoint the connection holds, so the weak pointer
    does not expire. *)
Record IBConn := mkIBConn {
  ib_transport : Transport; ib_remoteTransport : Transport;
  qp : IbQp; noAtomic : bool; atomicSrc : IbMr; recvThreadError : bool;
  posts : list Z; cq : list cq_answer
}.

Definition set_qp (c : IBConn) (q : IbQp) (ps : list Z) (cq : list cq_answer) : IBConn :=
  mkIBConn (ib_transport c) (ib_remoteTransport c) q (noAtomic c) (atomicSrc c) (recvThreadError c)
    ps cq.

Definition ib_info (m : Impl) (t : Transport) : result (bool * IbMrInfo) :=
  e ← getTransportInfo (transportInfos m) t;
  match info e with PIb i => Ok (ibLocal e, i) | PIpc _ => Throw (EError InternalError) end.

(** [postSend] with the next answer of [ibv_post_send] (success when none is left). *)
Definition ib_post (c : IBConn) (q : IbQp) : result IBConn :=
  q ← postSend (default 0 (head (posts c))) q;
  Ok (set_qp c q (tail (posts c)) (cq c)).

Definition IB_write (localMr : IbMrInfo -> IbMr) (c : IBConn)
    (dst : Impl) (dstOffset : Z) (src : Impl) (srcOffset size : Z) : result IBConn :=
  _ ← validateTransport dst (ib_remoteTransport c) dstOffset size;
  _ ← validateTransport src (ib_transport c) srcOffset size;
  '(dLocal, dInfo) ← ib_info dst (ib_remoteTransport c);
  _ ← throw_if dLocal (EError InvalidUsage);
  '(sLocal, sInfo) ← ib_info src (ib_transport c);
  _ ← throw_if (negb sLocal) (EError InvalidUsage);
  q ← stageSendWrite (qp c) (localMr sInfo) dInfo (u32 size) 0 srcOffset dstOffset true;
  ib_post c q.

Definition IB_updateAndSync (c : IBConn) (dst : Impl) (dstOffset oldValue newValue : Z)
    : result IBConn :=
  _ ← validateTransport dst (ib_remoteTransport c) 0 0;
  '(dLocal, dInfo) ← ib_info dst (ib_remoteTransport c);
  _ ← throw_if dLocal (EError InvalidUsage);
  q ← (if noAtomic c
       then stageSendWriteWithImm (qp c) None dInfo 0 0 0 0 true (u32 newValue)
       else stageSendAtomicAdd (qp c) (atomicSrc c) dInfo 0 dstOffset (u64 (newValue - oldValue)) true);
  ib_post c q.

(** The completions of one poll: at most [maxSendCqPollNum], and only for
    requests that are outstanding. *)
Definition poll_wcs (q : IbQp) (l : list bool) : list bool :=
  take (Z.to_nat (Z.min (maxSendCqPollNum q) (getNumSendCqItems q))) l.

(** [flush]: poll until no signaled request is outstanding; [None] when the
    answers end before that (the loop goes on polling). *)
Fixpoint IB_flush_loop (timeoutUsec : Z) (answers : list cq_answer) (q : IbQp)
    : option (result (IbQp * list cq_answer)) :=
  if getNumSendCqItems q =? 0 then Some (Ok (q, answers)) else
  match answers with
  | [] => None
  | a :: answers' =>
      match wcs a with
      | None => Some (Throw EIbError)
      | Some l =>
          let l := poll_wcs q l in
          let q' := pollSendCq (Z.of_nat (length l)) q in
          if (0 <=? timeoutUsec) && (timeoutUsec <? elapsed a) then Some (Throw (EError Timeout))
          else if forallb id l then IB_flush_loop timeoutUsec answers' q'
          else Some (Throw (EError SystemError))
      end
  end.

Definition IB_flush (timeoutUsec : Z) (c : IBConn) : option (result IBConn) :=
  if recvThreadError c then Some (Throw (EError SystemError))
  else r ← IB_flush_loop timeoutUsec (cq c) (qp c);
       Some ('(q, answers) ← r; Ok (set_qp c q (posts c) answers)).

Definition IB_requestFlush (c : IBConn) : option (result IBConn) := Some (Ok c).

(** [progressFlush]: one poll; a queue with no answer left has no completion. *)
Definition IB_progressFlush (c : IBConn) : result (IBConn * bool) :=
  if recvThreadError c then Throw (EError SystemError)
  else if getNumSendCqItems (qp c) =? 0 then Ok (c, true)
  else match wcs (default (mkAnswer (Some []) 0) (head (cq c))) with
       | None => Throw EIbError
       | Some l =>
           let l := poll_wcs (qp c) l in
           let q' := pollSendCq (Z.of_nat (length l)) (qp c) in
           if forallb id l then Ok (set_qp c q' (posts c) (tail (cq c)), getNumSendCqItems q' =? 0)
           else Throw (EError SystemError)
       end.

(** *** The receive thread *)

(** The locals of [recvThreadFunc]. *)
Record recv_state := mkRecv { lastImmData : Z; immHighBits : Z; newValueHost : Z }.

Definition recv_init : recv_state := mkRecv 0 0 0.

(** Rebuild the token from one immediate. *)
Definition recv_imm (s : recv_state) (immData : Z) : recv_state :=
  let high := if immData <? lastImmData s then u64 (immHighBits s + Z.shiftl 1 32)
              else immHighBits s in
  mkRecv immData high (Z.lor high immData).

(** A receive completion: a failure, or an immediate with the answer of the
    [ibv_post_recv] that follows. *)
Inductive recv_wc := WcFail | WcImm (imm : Z) (postErr : Z).

(** The thread's view: its locals, the queue pair, whether a forwarding address
    is set, the tokens stored there (oldest first) and the error flag. *)
Record recv_thread := mkThread {
  rt_locals : recv_state; rt_qp : IbQp; rt_forward : bool; rt_signal : list Z; rt_error : bool
}.

Definition fail_thread (t : recv_thread) : recv_thread :=
  mkThread (rt_locals t) (rt_qp t) (rt_forward t) (rt_signal t) true.

(** The [for] over the completions of one poll; [false] when the thread returns. *)
Fixpoint recv_wcs (t : recv_thread) (l : list recv_wc) : result (recv_thread * bool) :=
  match l with
  | [] => Ok (t, true)
  | WcFail :: _ => Ok (fail_thread t, false)
  | WcImm imm postErr :: l' =>
      let loc := recv_imm (rt_locals t) imm in
      let signal := if rt_forward t then rt_signal t ++ [newValueHost loc] else rt_signal t in
      q ← stageRecv (rt_qp t);
      q ← postRecv postErr q;
      recv_wcs (mkThread loc q (rt_forward t) signal (rt_error t)) l'
  end.

(** The thread from its loop on; the list ends when the stop flag is seen. *)
Fixpoint recvThreadFunc (polls : list (option (list recv_wc))) (t : recv_thread) : result recv_thread :=
  match polls with
  | [] => Ok t
  | None :: _ => Ok (fail_thread t)
  | Some l :: polls' =>
      '(t', continue) ← recv_wcs t l;
      if (continue : bool) then recvThreadFunc polls' t' else Ok t'
  end.

(** ** EthernetConnection *)

Definition eth_header (dstPtr size : Z) : list Z := le_bytes 8 dstPtr ++ le_bytes 8 size.

(** The sending loop of [write]: [hdr] is the header still in the send buffer
    (empty after the first message). *)
Fixpoint eth_send_loop (fuel : nat) (bufSize : Z) (hdr : list Z) (src : Z -> nat -> list Z)
    (sent size : Z) : list Z :=
  match fuel with
  | O => []
  | S fuel' =>
      if sent <? size then
        let headerSize := Z.of_nat (length hdr) in
        let dataSize := Z.min (u64 (bufSize - headerSize)) (size - sent) in
        let messageSize := dataSize + headerSize in
        hdr ++ src sent (Z.to_nat dataSize) ++
        eth_send_loop fuel' bufSize [] src (u64 (sent + messageSize)) size
      else []
  end.

(** [write]: the bytes put on the socket. *)
Definition Eth_write (bufSize : Z) (m : memory) (dst : Impl) (dstOffset : Z) (src : Impl)
    (srcOffset size : Z) : result (list Z) :=
  _ ← validateTransport dst Ethernet dstOffset size;
  _ ← validateTransport src Ethernet srcOffset size;
  Ok (eth_send_loop (Z.to_nat size) bufSize (eth_header (u64 (originalDataPtr dst + dstOffset)) size)
        (fun off n => mem_read m (data src + srcOffset + off) n) 0 size).

Definition Eth_updateAndSync (dst : Impl) (dstOffset oldValue newValue : Z) : result (list Z) :=
  _ ← validateTransport dst Ethernet 0 0;
  Ok (eth_header (u64 (originalDataPtr dst + dstOffset)) 8 ++ le_bytes 8 newValue).

(** [flush] does nothing: [send] has handed the bytes to the socket. *)
Definition Eth_flush (sent : list (list Z)) : list (list Z) := sent.

(** [recvUntilEnd]: [n] bytes, or [None] while they have not arrived. *)
Definition recvUntilEnd (n : nat) (wire : list Z) : option (list Z * list Z) :=
  if decide (n <= length wire)%nat then Some (take n wire, drop n wire) else None.

(** The inner loop of [recvMessages]: data in chunks of the receive buffer, each
    copied when it is complete; no wire is left once the bytes ran out. *)
Fixpoint eth_recv_data (fuel : nat) (bufSize ptr recvd size : Z) (wire : list Z) (m : memory)
    : memory * option (list Z) :=
  match fuel with
  | O => (m, Some wire)
  | S fuel' =>
      if recvd <? size then
        let messageSize := Z.min bufSize (size - recvd) in
        match recvUntilEnd (Z.to_nat messageSize) wire with
        | None => (m, None)
        | Some (bs, wire') =>
            eth_recv_data fuel' bufSize ptr (recvd + messageSize) size wire' (mem_write m (ptr + recvd) bs)
        end
      else (m, Some wire)
  end.

(** One iteration of the outer loop: a message, copied to its address. *)
Definition eth_recv_message (bufSize : Z) (wire : list Z) (m : memory) : memory * option (list Z) :=
  match recvUntilEnd 8 wire with
  | None => (m, None)
  | Some (p, wire) =>
      match recvUntilEnd 8 wire with
      | None => (m, None)
      | Some (s, wire) =>
          let size := le_val s in
          eth_recv_data (Z.to_nat size) bufSize (le_val p) 0 size wire m
      end
  end.

(** [recvMessages] on the bytes that arrive before the socket closes. *)
Fixpoint recvMessages (fuel : nat) (bufSize : Z) (wire : list Z) (m : memory) : memory :=
  match fuel with
  | O => m
  | S fuel' =>
      match eth_recv_message bufSize wire m with
      | (m', None) => m'
      | (m', Some wire') => recvMessages fuel' bufSize wire' m'
      end
  end.

(** ** Connections of a context *)

Inductive conn_impl :=
  | CIpc (stream_id : nat)
  | CIB (c : IBConn)
  | CEth (sendBufferSize : Z) (sent : list (list Z)).

(** [BaseConnection]: the queue bound and the implementation. *)
Record conn := mkConn { c_maxWriteQueueSize : Z; c_impl : conn_impl }.

Record world := mkWorld { w_mem : memory; ipcStreams : list stream; conns : gmap Z conn }.

(** The stream a new CUDA IPC connection uses: created once, then shared (on
    HIP, one per connection). *)
Definition ipc_stream_for (hip : bool) (streams : list stream) : list stream * nat :=
  let fresh := mkStream [] false [] in
  let streams := if hip || bool_decide (streams = []) then streams ++ [fresh] else streams in
  (streams, (length streams - 1)%nat).

Definition new_ipc_conn (hip : bool) (h wq : Z) (local remote : EndpointImpl) (w : world)
    : result (world * Z * bool) :=
  '(dev, peer) ← CudaIpc_check local remote;
  let '(streams, sid) := ipc_stream_for hip (ipcStreams w) in
  Ok (mkWorld (w_mem w) streams (<[h := mkConn wq (CIpc sid)]> (conns w)), dev, peer).

Definition set_impl (w : world) (h : Z) (i : conn_impl) : world :=
  mkWorld (w_mem w) (ipcStreams w) (alter (fun c => mkConn (c_maxWriteQueueSize c) i) h (conns w)).
Definition set_stream (w : world) (sid : nat) (m : memory) (s : stream) : world :=
  mkWorld m (<[sid := s]> (ipcStreams w)) (conns w).

(** The virtual calls, dispatched on the implementation.  A connection is held
    by shared pointers and its stream by the context, so both exist. *)
Section dispatch.
Context (localMr : IbMrInfo -> IbMr).

Definition Connection_write (h : Z) (dst : Impl) (dstOffset : Z) (src : Impl) (srcOffset size : Z)
    (w : world) : result world :=
  match c_impl <$> conns w !! h with
  | Some (CIpc sid) =>
      match ipcStreams w !! sid with
      | Some s => s' ← CudaIpc_write h s dst dstOffset src srcOffset size;
                  Ok (set_stream w sid (w_mem w) s')
      | None => Throw EStd
      end
  | Some (CIB c) =>
      c' ← IB_write localMr c dst dstOffset src srcOffset size; Ok (set_impl w h (CIB c'))
  | Some (CEth b sent) =>
      bytes ← Eth_write b (w_mem w) dst dstOffset src srcOffset size;
      Ok (set_impl w h (CEth b (sent ++ [bytes])))
  | None => Throw EStd
  end.

Definition Connection_updateAndSync (h : Z) (dst : Impl) (dstOffset oldValue newValue : Z) (w : world)
    : result world :=
  match c_impl <$> conns w !! h with
  | Some (CIpc sid) =>
      match ipcStreams w !! sid with
      | Some s => s' ← CudaIpc_updateAndSync h s dst dstOffset oldValue newValue;
                  Ok (set_stream w sid (w_mem w) s')
      | None => Throw EStd
      end
  | Some (CIB c) =>
      c' ← IB_updateAndSync c dst dstOffset oldValue newValue; Ok (set_impl w h (CIB c'))
  | Some (CEth b sent) =>
      bytes ← Eth_updateAndSync dst dstOffset oldValue newValue;
      Ok (set_impl w h (CEth b (sent ++ [bytes])))
  | None => Throw EStd
  end.
End dispatch.

(** [flush]; [None] while it does not return. *)
Definition Connection_flush (timeoutUsec : Z) (h : Z) (w : world) : option (result world) :=
  match c_impl <$> conns w !! h with
  | Some (CIpc sid) =>
      match ipcStreams w !! sid with
      | Some s => let '(m, s') := CudaIpc_flush (w_mem w) s in Some (Ok (set_stream w sid m s'))
      | None => Some (Throw EStd)
      end
  | Some (CIB c) => r ← IB_flush timeoutUsec c; Some (c' ← r; Ok (set_impl w h (CIB c')))
  | Some (CEth b sent) => Some (Ok (set_impl w h (CEth b (Eth_flush sent))))
  | None => Some (Throw EStd)
  end.

(** [requestFlush]: a blocking flush, except for InfiniBand. *)
Definition Connection_requestFlush (h : Z) (w : world) : option (result world) :=
  match c_impl <$> conns w !! h with
  | Some (CIB c) => r ← IB_requestFlush c; Some (c' ← r; Ok (set_impl w h (CIB c')))
  | _ => Connection_flush (-1) h w
  end.

Definition Connection_progressFlush (h : Z) (w : world) : result (world * bool) :=
  match c_impl <$> conns w !! h with
  | Some (CIB c) => '(c', b) ← IB_progressFlush c; Ok (set_impl w h (CIB c'), b)
  | _ => Ok (w, true)
  end.

Definition Connection_getMaxWriteQueueSize (h : Z) (w : world) : Z :=
  default (-1) (c_maxWriteQueueSize <$> conns w !! h).

(** ** Lemmas: Ethernet *)

Lemma recvUntilEnd_app n bs rest : length bs = n -> recvUntilEnd n (bs ++ rest) = Some (bs, rest).
Proof.
  intros <-. unfold recvUntilEnd. rewrite decide_True by (rewrite length_app; lia).
  by rewrite take_app_length, drop_app_length.
Qed.

Lemma recvUntilEnd_short n wire : (length wire < n)%nat -> recvUntilEnd n wire = None.
Proof. intros. unfold recvUntilEnd. by rewrite decide_False by lia. Qed.

(** The receive loop copies exactly the announced bytes, whatever the chunks. *)
Lemma eth_recv_data_ok fuel bufSize ptr recvd size bs rest m :
  0 < bufSize -> Z.of_nat (length bs) = size - recvd -> (Z.to_nat (size - recvd) <= fuel)%nat ->
  eth_recv_data fuel bufSize ptr recvd size (bs ++ rest) m = (mem_write m (ptr + recvd) bs, Some rest).
Proof.
  intros Hb. revert recvd bs m. induction fuel as [|fuel IH]; intros recvd bs m Hl Hf; simpl.
  - assert (bs = []) as -> by (destruct bs; simpl in *; [done|lia]). done.
  - destruct (Z.ltb_spec recvd size) as [Hlt|Hge].
    2:{ assert (bs = []) as -> by (destruct bs; simpl in *; [done|lia]). done. }
    set (n := Z.min bufSize (size - recvd)).
    rewrite <- (take_drop (Z.to_nat n) bs) at 1. rewrite <- app_assoc.
    rewrite recvUntilEnd_app by (rewrite length_take; lia).
    rewrite IH by (rewrite ?length_drop; lia).
    rewrite <- (take_drop (Z.to_nat n) bs) at 3. rewrite mem_write_app, length_take.
    do 2 f_equal. lia.
Qed.

Lemma eth_recv_message_ok bufSize ptr bs rest m :
  0 < bufSize -> 0 <= ptr < 2 ^ 64 -> Z.of_nat (length bs) < 2 ^ 64 ->
  eth_recv_message bufSize (eth_header ptr (Z.of_nat (length bs)) ++ bs ++ rest) m =
  (mem_write m ptr bs, Some rest).
Proof.
  intros Hb Hp Hl. unfold eth_recv_message, eth_header. rewrite <- !app_assoc.
  rewrite recvUntilEnd_app by apply le_bytes_len.
  rewrite recvUntilEnd_app by apply le_bytes_len.
  rewrite !le_val_bytes by (simpl; lia).
  rewrite eth_recv_data_ok by lia. by rewrite Z.add_0_r.
Qed.

(** After the first message the loop sends the rest of the source. *)
Lemma eth_send_rest fuel bufSize src sent size :
  (forall a n k, src a (n + k)%nat = src a n ++ src (a + Z.of_nat n) k) ->
  0 < bufSize < 2 ^ 64 -> 0 <= sent -> size < 2 ^ 64 -> (Z.to_nat (size - sent) <= fuel)%nat ->
  eth_send_loop fuel bufSize [] src sent size = src sent (Z.to_nat (size - sent)).
Proof.
  intros Hsrc Hb. assert (Hnil : forall a, src a O = []).
  { intros a. pose proof (Hsrc a O O) as E. rewrite Z.add_0_r in E. apply (f_equal length) in E.
    rewrite length_app in E. apply nil_length_inv. simpl in E. lia. }
  revert sent. induction fuel as [|fuel IH]; intros sent H0 Hs Hf; simpl.
  - replace (Z.to_nat (size - sent)) with O by lia. by rewrite Hnil.
  - destruct (Z.ltb_spec sent size) as [Hlt|Hge].
    2:{ replace (Z.to_nat (size - sent)) with O by lia. by rewrite Hnil. }
    rewrite Z.sub_0_r, Z.add_0_r, (u64_small bufSize) by lia. rewrite u64_small by lia.
    rewrite IH by lia.
    replace (Z.to_nat (size - sent)) with
      (Z.to_nat (Z.min bufSize (size - sent)) + Z.to_nat (size - (sent + Z.min bufSize (size - sent))))%nat by lia.
    rewrite Hsrc. do 2 f_equal; lia.
Qed.

(** The bytes of one [write]: the first message carries the header, and the next
    one continues [headerSize] bytes too far. *)
Lemma eth_send_wire bufSize hdr src size :
  (forall a n k, src a (n + k)%nat = src a n ++ src (a + Z.of_nat n) k) ->
  length hdr = 16%nat -> 16 < bufSize < 2 ^ 64 -> 0 < size < 2 ^ 63 ->
  eth_send_loop (Z.to_nat size) bufSize hdr src 0 size =
  hdr ++ src 0 (Z.to_nat (Z.min (bufSize - 16) size)) ++ src bufSize (Z.to_nat (size - bufSize)).
Proof.
  intros Hsrc Hh Hb Hs. destruct (Z.to_nat size) as [|fuel] eqn:E; [lia|]. cbn [eth_send_loop].
  destruct (Z.ltb_spec 0 size) as [_|]; [|lia]. rewrite Hh, Z.sub_0_r. change (Z.of_nat 16) with 16.
  rewrite (u64_small (bufSize - 16)) by lia. do 2 f_equal.
  rewrite (u64_small (0 + _)) by lia.
  destruct (decide (size <= bufSize - 16)) as [Hle|Hgt].
  - rewrite eth_send_rest by (try done; lia). replace (Z.to_nat (size - bufSize)) with O by lia.
    replace (Z.to_nat (size - _)) with O by lia.
    pose proof (Hsrc bufSize O O) as E1. apply (f_equal length) in E1.
    pose proof (Hsrc (0 + (Z.min (bufSize - 16) size + 16)) O O) as E2. apply (f_equal length) in E2.
    rewrite length_app in E1, E2. rewrite Z.add_0_r in E1, E2. simpl Nat.add in E1, E2.
    rewrite (nil_length_inv (src bufSize O)) by lia. apply nil_length_inv. lia.
  - rewrite eth_send_rest by (try done; lia). f_equal; lia.
Qed.

(** ** Lemmas: InfiniBand *)

Lemma lor_high_low a b w : 0 <= w -> 0 <= b < 2 ^ w -> Z.lor (a * 2 ^ w) b = a * 2 ^ w + b.
Proof.
  intros Hw Hb. rewrite <- Z.shiftl_mul_pow2 by done.
  pose proof (Z.add_lor_land (Z.shiftl a w) b) as E.
  replace (Z.land (Z.shiftl a w) b) with 0 in E; [lia|].
  symmetry. apply Z.bits_inj'. intros i Hi. rewrite Z.bits_0, Z.land_spec.
  destruct (decide (i < w)).
  - by rewrite Z.shiftl_spec_low by lia.
  - rewrite (testbit_above w b i) by (unfold is_u; lia). apply andb_false_r.
Qed.

(** The receiver's locals when the last token was [t]. *)
Definition recv_at (t : Z) : recv_state := mkRecv (t mod 2 ^ 32) (t / 2 ^ 32 * 2 ^ 32) t.

Lemma recv_imm_step t t' :
  0 <= t -> 0 < t' - t < 2 ^ 32 -> t' < 2 ^ 64 -> recv_imm (recv_at t) (u32 t') = recv_at t'.
Proof.
  intros H0 Hd Hb. unfold recv_imm, recv_at, u32, wrap. simpl lastImmData. simpl immHighBits.
  rewrite Z.shiftl_1_l.
  pose proof (Z.div_mod t (2 ^ 32) ltac:(lia)). pose proof (Z.div_mod t' (2 ^ 32) ltac:(lia)).
  pose proof (Z.mod_pos_bound t (2 ^ 32) ltac:(lia)). pose proof (Z.mod_pos_bound t' (2 ^ 32) ltac:(lia)).
  assert (Hh : (if t' mod 2 ^ 32 <? t mod 2 ^ 32 then u64 (t / 2 ^ 32 * 2 ^ 32 + 2 ^ 32)
                else t / 2 ^ 32 * 2 ^ 32) = t' / 2 ^ 32 * 2 ^ 32).
  { destruct (Z.ltb_spec (t' mod 2 ^ 32) (t mod 2 ^ 32)).
    - assert (t' / 2 ^ 32 = t / 2 ^ 32 + 1) by nia. rewrite u64_small by nia. nia.
    - assert (t' / 2 ^ 32 = t / 2 ^ 32) by nia. nia. }
  rewrite Hh, lor_high_low by lia. f_equal. lia.
Qed.

(** Tokens that grow by less than 2^32 each time. *)
Fixpoint token_chain (t : Z) (ts : list Z) : Prop :=
  match ts with
  | [] => t < 2 ^ 64
  | t' :: ts' => 0 < t' - t < 2 ^ 32 /\ token_chain t' ts'
  end.

Lemma token_chain_bound t ts : token_chain t ts -> t < 2 ^ 64.
Proof. revert t. induction ts as [|t' ts IH]; simpl; intros t H; [done|]. destruct H as [? H%IH]. lia. Qed.

(** The immediates in a list of work requests. *)
Definition wr_imm (w : send_wr) : option Z :=
  match wr_op w with RDMA_WRITE_WITH_IMM imm => Some imm | _ => None end.
Definition imms (l : list send_wr) : list Z := omap wr_imm l.

Lemma imms_cons w l :
  imms (w :: l) = match wr_imm w with Some i => i :: imms l | None => imms l end.
Proof. done. Qed.

Definition thread_at (t : recv_thread) (last : Z) : Prop :=
  rt_locals t = recv_at last /\ rt_forward t = true /\
  stagedRecv (rt_qp t) = 0 /\ 0 < qp_maxRecvWr (rt_qp t).

Lemma recv_wcs_tokens ts t last :
  thread_at t last -> 0 <= last -> token_chain last ts ->
  exists t', recv_wcs t (map (fun x => WcImm (u32 x) 0) ts) = Ok (t', true) /\
    thread_at t' (foldl (fun _ x => x) last ts) /\ rt_signal t' = rt_signal t ++ ts /\
    rt_error t' = rt_error t /\
    recvPosted (rt_qp t') = recvPosted (rt_qp t) + Z.of_nat (length ts).
Proof.
  revert t last. induction ts as [|x ts IH]; intros t last (Hl & Hf & Hs & Hm) H0 Hc; cbn [recv_wcs map].
  - exists t. rewrite app_nil_r, Z.add_0_r. done.
  - destruct Hc as [Hd Hc]. pose proof (token_chain_bound _ _ Hc).
    rewrite Hf, Hl, recv_imm_step by lia.
    unfold stageRecv, postRecv. rewrite Hs. destruct (Z.leb_spec (qp_maxRecvWr (rt_qp t)) 0); [lia|].
    edestruct (IH (mkThread (recv_at x) (set_recv (set_recv (rt_qp t) 1 (recvPosted (rt_qp t))) 0
                     (recvPosted (rt_qp t) + 1)) true (rt_signal t ++ [x]) (rt_error t)) x)
      as (t' & E & Ht' & Hsig & He & Hp); [done|lia|done|].
    exists t'. split; [exact E|]. simpl in *. rewrite Hsig, He, Hp, <- app_assoc.
    split_and!; try done. lia.
Qed.

(** [updateAndSync] for each token in turn, the semaphore's value running along. *)
Fixpoint IB_signals (c : IBConn) (dst : Impl) (old : Z) (ts : list Z) : result IBConn :=
  match ts with
  | [] => Ok c
  | t :: ts' => c' ← IB_updateAndSync c dst 0 old t; IB_signals c' dst t ts'
  end.

(** A connection between two operations. *)
Definition ib_idle (c : IBConn) : Prop :=
  staged (qp c) = [] /\ exists d, qp_inv d (qp c).

Lemma stage_post_ok c q wr c' :
  ib_idle c -> stage (qp c) wr = Ok q -> ib_post c q = Ok c' ->
  ib_idle c' /\ wire (qp c') = wire (qp c) ++ [wr] /\
  numPostedSignaledSend (qp c') = numPostedSignaledSend (qp c) + (if wr_signaled wr then 1 else 0) /\
  c' = set_qp c (qp c') (posts c') (cq c).
Proof.
  intros [Hs [d I]] Hst Hp. pose proof (stage_inv _ _ _ _ I Hst) as I'.
  unfold ib_post in Hp. apply bind_ok_inv in Hp as (q' & Hpost & Hc'). inv_ok.
  destruct (post_inv _ _ _ _ I' Hpost) as (I'' & Ew & Es).
  assert (Eq : staged q = [wr] /\ wire q = wire (qp c) /\ numPostedSignaledSend q = numPostedSignaledSend (qp c)).
  { unfold stage in Hst. case_match; inv_ok. simpl. by rewrite Hs. }
  destruct Eq as (E1 & E2 & E3). simpl. rewrite Ew, E1, E2. split; [split; [done|by exists d]|].
  split; [done|]. split; [|done].
  destruct I'' as [_ _ Ep _], I as [_ _ Ep0 _]. rewrite Ep, Ep0, Ew, E1, E2, num_signaled_app, num_signaled_one. lia.
Qed.

Lemma IB_update_ok c dst off old new c' :
  ib_idle c -> IB_updateAndSync c dst off old new = Ok c' ->
  exists wr, ib_idle c' /\ wire (qp c') = wire (qp c) ++ [wr] /\ wr_signaled wr = true /\
    (noAtomic c = true -> wr_imm wr = Some (u32 new)) /\
    (noAtomic c = false -> wr_op wr = ATOMIC_FETCH_AND_ADD (u64 (new - old))) /\
    numPostedSignaledSend (qp c') = numPostedSignaledSend (qp c) + 1 /\
    c' = set_qp c (qp c') (posts c') (cq c).
Proof.
  intros Hi H. unfold IB_updateAndSync in H. apply bind_ok_inv in H as (? & _ & H).
  apply bind_ok_inv in H as ([dl di] & _ & H). apply throw_if_bind in H as [_ H].
  apply bind_ok_inv in H as (q & Hst & Hp).
  destruct (noAtomic c); unfold stageSendWriteWithImm, stageSendAtomicAdd in Hst;
    destruct (stage_post_ok _ _ _ _ Hi Hst Hp) as (? & ? & ? & ?); eexists; split_and!; eauto; done.
Qed.

Lemma IB_write_ok localMr c dst do src so size c' :
  ib_idle c -> IB_write localMr c dst do src so size = Ok c' ->
  exists wr, ib_idle c' /\ wire (qp c') = wire (qp c) ++ [wr] /\ wr_signaled wr = true /\
    wr_op wr = RDMA_WRITE /\ sge_length wr = u32 size /\
    numPostedSignaledSend (qp c') = numPostedSignaledSend (qp c) + 1 /\
    c' = set_qp c (qp c') (posts c') (cq c).
Proof.
  intros Hi H. unfold IB_write in H. do 2 apply bind_ok_inv in H as (? & _ & H).
  apply bind_ok_inv in H as ([dl di] & _ & H). apply throw_if_bind in H as [_ H].
  apply bind_ok_inv in H as ([sl si] & _ & H). apply throw_if_bind in H as [_ H].
  apply bind_ok_inv in H as (q & Hst & Hp). unfold stageSendWrite in Hst.
  destruct (stage_post_ok _ _ _ _ Hi Hst Hp) as (? & ? & ? & ?). eexists. split_and!; eauto.
Qed.

Lemma IB_signals_wire ts c dst old c' :
  ib_idle c -> noAtomic c = true -> IB_signals c dst old ts = Ok c' ->
  exists new, wire (qp c') = wire (qp c) ++ new /\ imms new = map u32 ts.
Proof.
  revert c old. induction ts as [|t ts IH]; intros c old Hi Hn H; simpl in H.
  - inv_ok. exists []. by rewrite app_nil_r.
  - apply bind_ok_inv in H as (c1 & Hu & H).
    destruct (IB_update_ok _ _ _ _ _ _ Hi Hu) as (wr & Hi1 & Ew & _ & Himm & _ & _ & Ec).
    destruct (IH c1 t Hi1) as (new & E & En); [by rewrite Ec|done|].
    exists (wr :: new). rewrite E, Ew, <- app_assoc. split; [done|].
    rewrite imms_cons, (Himm Hn), En. done.
Qed.

Lemma recv_wcs_app l1 l2 t :
  recv_wcs t (l1 ++ l2) = ('(t', b) ← recv_wcs t l1; if (b : bool) then recv_wcs t' l2 else Ok (t', false)).
Proof.
  revert t. induction l1 as [|[|i e] l1 IH]; intros t; cbn [recv_wcs app]; [done|done|].
  destruct (stageRecv (rt_qp t)) as [q|]; [|done]. cbn [mbind result_bind].
  destruct (postRecv e q) as [q'|]; [|done]. apply IH.
Qed.

(** However the completions are spread over the polls, they are handled in order. *)
Lemma recv_batches batches t t' :
  recv_wcs t (concat batches) = Ok (t', true) -> recvThreadFunc (map Some batches) t = Ok t'.
Proof.
  revert t. induction batches as [|b bs IH]; intros t H; simpl in *; [by inv_ok|].
  rewrite recv_wcs_app in H. apply bind_ok_inv in H as ([t1 ok] & E & H). rewrite E.
  destruct ok; [|done]. cbn. by apply IH.
Qed.

Lemma poll_wcs_len q l : 0 <= getNumSendCqItems q -> poll_ok q (Z.of_nat (length (poll_wcs q l))).
Proof. intros. unfold poll_ok, poll_wcs, getNumSendCqItems in *. rewrite length_take. lia. Qed.

Lemma poll_keeps q n : wire (pollSendCq n q) = wire q /\ staged (pollSendCq n q) = staged q /\
  maxSendCqPollNum (pollSendCq n q) = maxSendCqPollNum q.
Proof. unfold pollSendCq. by case_match. Qed.

Lemma qp_inv_nonneg d q : qp_inv d q -> 0 <= getNumSendCqItems q.
Proof. intros []. unfold getNumSendCqItems. lia. Qed.

Lemma poll_wcs_inv d q l : qp_inv d q -> staged q = [] ->
  exists d', qp_inv d' (pollSendCq (Z.of_nat (length (poll_wcs q l))) q) /\ d <= d'.
Proof.
  intros I Hs. eexists. split; [apply poll_inv; [exact I|]|lia].
  by eapply poll_wcs_len, qp_inv_nonneg.
Qed.

Lemma flush_loop_ok to answers q d q' rest :
  qp_inv d q -> IB_flush_loop to answers q = Some (Ok (q', rest)) -> staged q = [] ->
  getNumSendCqItems q' = 0 /\ wire q' = wire q /\ staged q' = [] /\ exists d', qp_inv d' q'.
Proof.
  revert q d. induction answers as [|a answers IH]; intros q d I H Hs; simpl in H;
    (destruct (Z.eqb_spec (getNumSendCqItems q) 0) as [E|E]; [simplify_eq; eauto|]); [done|].
  destruct (wcs a) as [l|]; [|simplify_eq]. repeat (case_match; simplify_eq).
  destruct (poll_wcs_inv d q l I Hs) as (d' & I' & _).
  destruct (poll_keeps q (Z.of_nat (length (poll_wcs q l)))) as (E1 & E2 & _).
  rewrite <- E1. eapply IH; eauto. by rewrite E2.
Qed.

(** Every answer that reports one successful completion or more makes progress. *)
Definition good_answer (a : cq_answer) : Prop :=
  exists l, wcs a = Some (true :: l) /\ Forall (fun b => b = true) l.

Lemma flush_loop_terminates answers q d :
  qp_inv d q -> staged q = [] -> 0 < maxSendCqPollNum q -> Forall good_answer answers ->
  getNumSendCqItems q <= Z.of_nat (length answers) ->
  exists r, IB_flush_loop (-1) answers q = Some (Ok r).
Proof.
  revert q d. induction answers as [|a answers IH]; intros q d I Hs Hm Hg Hl; simpl in *;
    (destruct (Z.eqb_spec (getNumSendCqItems q) 0) as [E|E]; [eauto|]);
    pose proof (qp_inv_nonneg _ _ I); [lia|].
  apply Forall_cons in Hg as [(l & -> & Hall) Hg].
  destruct (poll_wcs_inv d q (true :: l) I Hs) as (d' & I' & _).
  set (n := Z.of_nat (length (poll_wcs q (true :: l)))) in *.
  assert (Hn : 0 < n). { subst n. unfold poll_wcs. rewrite length_take. simpl. lia. }
  assert (Hok : forallb id (poll_wcs q (true :: l)) = true).
  { apply forallb_forall. intros b Hb. apply list_elem_of_In in Hb.
    apply elem_of_take in Hb as (i & Hb & _). change (b = true).
    apply list_elem_of_lookup_2, elem_of_cons in Hb as [->|Hb]; [done|].
    rewrite Forall_forall in Hall. by apply Hall. }
  rewrite Hok. destruct (poll_keeps q n) as (_ & E2 & E3).
  eapply IH; [exact I'|by rewrite E2|by rewrite E3|done|].
  unfold pollSendCq. destruct (Z.ltb_spec 0 n); [|lia]. unfold getNumSendCqItems in *. simpl. lia.
Qed.

(** ** Results *)

(** Streams whose dirty flag is down have an empty queue. *)
Definition stream_ok (s : stream) : Prop := dirty s = false -> queued s = [].

Lemma sync_advance n m s : stream_ok s ->
  stream_sync (stream_advance n m s).1 (stream_advance n m s).2 = stream_sync m s.
Proof.
  intros Hs. unfold stream_sync, stream_advance. simpl. destruct (dirty s) eqn:Ed.
  - unfold run_copies. rewrite <- fold_left_app, <- app_assoc, take_drop. done.
  - destruct s as [q d e]. simpl in *. pose proof (Hs Ed) as E. simpl in E. subst.
    by rewrite take_nil, drop_nil, app_nil_r.
Qed.

Lemma validate_ok m t off n :
  validateTransport m t off n = Ok () <-> hasb (transports m) t = true /\ u64 (off + n) <= rm_size m.
Proof.
  unfold validateTransport. destruct (hasb (transports m) t); simpl; [|naive_solver].
  rewrite throw_if_ok, Z.ltb_ge. naive_solver.
Qed.

(** a CUDA IPC write whose offsets and size come from a 32-bit trigger is
    accepted exactly when both memories support CUDA IPC and both ranges lie
    inside them; after the flush the destination range holds the bytes the source
    range had once the copies queued before had run, every byte outside it is as
    those copies left it, nothing stays queued, and this holds however much of
    the queue the device ran before the flush. *)
Theorem cuda_ipc_delivers h m s dst dOff src sOff size n :
  stream_ok s -> 0 <= dOff < 2 ^ 32 -> 0 <= sOff < 2 ^ 32 -> 0 <= size < 2 ^ 32 ->
  let before := run_copies m (queued s) in
  (is_ok (CudaIpc_write h s dst dOff src sOff size) = true <->
     hasb (transports dst) CudaIpc = true /\ dOff + size <= rm_size dst /\
     hasb (transports src) CudaIpc = true /\ sOff + size <= rm_size src) /\
  forall s', CudaIpc_write h s dst dOff src sOff size = Ok s' ->
  exists m'' s'', CudaIpc_flush (stream_advance n m s').1 (stream_advance n m s').2 = (m'', s'') /\
    mem_read m'' (data dst + dOff) (Z.to_nat size) = mem_read before (data src + sOff) (Z.to_nat size) /\
    (forall a, a < data dst + dOff \/ data dst + dOff + size <= a -> m'' !! a = before !! a) /\
    queued s'' = [] /\ dirty s'' = false.
Proof.
  intros Hs Hd Hso Hn before. unfold CudaIpc_write. split.
  - pose proof (validate_ok dst CudaIpc dOff size) as V1. pose proof (validate_ok src CudaIpc sOff size) as V2.
    rewrite u64_small in V1, V2 by lia.
    destruct (validateTransport dst CudaIpc dOff size) as [[]|]; simpl;
      destruct (validateTransport src CudaIpc sOff size) as [[]|]; simpl; naive_solver.
  - intros s' H. apply bind_ok_inv in H as (? & _ & H). apply bind_ok_inv in H as (? & _ & H). inv_ok.
    eexists _, _. split.
    { unfold CudaIpc_flush. rewrite sync_advance by done. reflexivity. }
    simpl. unfold run_copies. rewrite fold_left_app. simpl. fold (run_copies m (queued s)).
    split_and!; [|intros a Ha|done|done].
    + set (bs := mem_read _ (data src + sOff) _).
      replace (Z.to_nat size) with (length bs) by apply mem_read_len. apply mem_read_write.
    + apply mem_write_lookup_out. rewrite mem_read_len. lia.
Qed.

Definition ipc_flags : TransportFlags := TransportFlags_of CudaIpc.
Definition demo_mem (base size : Z) (flags : TransportFlags) : Impl := mkImpl base base size 1 1 flags [].

Lemma cuda_ipc_delivers_witness :
  exists s', CudaIpc_write 7 (mkStream [] false []) (demo_mem 100 8 ipc_flags) 2
               (demo_mem 200 8 ipc_flags) 4 2 = Ok s' /\
  exists m'' s'', CudaIpc_flush (stream_advance 1 (<[204 := 9]> ∅) s').1
                    (stream_advance 1 (<[204 := 9]> ∅) s').2 = (m'', s'') /\
    mem_read m'' 102 2 = [9; 0] /\ queued s'' = [].
Proof.
  eexists. split; [reflexivity|].
  destruct (cuda_ipc_delivers 7 (<[204 := 9]> ∅) (mkStream [] false []) (demo_mem 100 8 ipc_flags) 2
    (demo_mem 200 8 ipc_flags) 4 2 1 ltac:(done) ltac:(lia) ltac:(lia) ltac:(lia)) as [_ H].
  destruct (H _ eq_refl) as (m'' & s'' & E & Hr & _ & Hq & _). exists m'', s''.
  split; [exact E|]. split; [exact Hr|exact Hq].
Defined.

(** the value of a CUDA IPC [updateAndSync] is stored nine times the given
    offset away from the start of the memory, so at the requested address exactly
    when the offset is zero. *)
Theorem cuda_ipc_signal_address h s dst off old new s' :
  CudaIpc_updateAndSync h s dst off old new = Ok s' ->
  queued s' = queued s ++ [(h, H2D (data dst + 9 * off) (le_bytes 8 new))] /\ dirty s' = true /\
  (data dst + 9 * off = data dst + off <-> off = 0).
Proof.
  unfold CudaIpc_updateAndSync. intros H. apply bind_ok_inv in H as (? & _ & H). inv_ok.
  simpl. split_and!; [|done|lia]. do 4 f_equal. lia.
Qed.

Lemma cuda_ipc_signal_address_witness :
  exists s', CudaIpc_updateAndSync 7 (mkStream [] false []) (demo_mem 100 80 ipc_flags) 8 0 1 = Ok s' /\
    queued s' = [(7, H2D 172 [1; 0; 0; 0; 0; 0; 0; 0])].
Proof.
  eexists. split; [reflexivity|].
  exact (proj1 (cuda_ipc_signal_address 7 (mkStream [] false []) (demo_mem 100 80 ipc_flags) 8 0 1 _ eq_refl)).
Defined.

(** C18: in the mode without atomics, signals whose tokens grow by less than
    2^32 at a time reach the peer exactly: the immediates put on the wire are the
    low halves of the tokens, and a receive thread that was at the token before
    them stores the full 64-bit tokens, in order, whatever batches the polls
    return, raises no error and leaves as many receives posted as it consumed. *)
Theorem ib_tokens_delivered c c' dst last ts t batches :
  ib_idle c -> noAtomic c = true -> IB_signals c dst last ts = Ok c' ->
  0 <= last -> token_chain last ts -> thread_at t last ->
  concat batches = map (fun x => WcImm (u32 x) 0) ts ->
  exists new t', wire (qp c') = wire (qp c) ++ new /\ imms new = map u32 ts /\
    recvThreadFunc (map Some batches) t = Ok t' /\
    rt_signal t' = rt_signal t ++ ts /\ rt_error t' = rt_error t /\
    recvPosted (rt_qp t') = recvPosted (rt_qp t) + Z.of_nat (length ts).
Proof.
  intros Hi Hn Hs H0 Hc Ht Hb. destruct (IB_signals_wire _ _ _ _ _ Hi Hn Hs) as (new & Ew & Em).
  destruct (recv_wcs_tokens ts t last Ht H0 Hc) as (t' & E & _ & Hsig & He & Hp).
  exists new, t'. rewrite <- Hb in E. apply recv_batches in E. done.
Qed.

Definition demo_qp : IbQp := mkQp [] 0 0 0 1 4 2 [] 0.
Definition demo_ib (answers : list cq_answer) : IBConn :=
  mkIBConn IB0 IB1 demo_qp true (mkIbMr 5000 3) false [] answers.
Definition ib_mem (local : bool) (t : Transport) (base : Z) : Impl :=
  mkImpl base base 64 1 1 (TransportFlags_of t) [mkTransportInfo t local (PIb (mkIbMrInfo base 11))].

Lemma ib_tokens_delivered_witness :
  exists c' t', IB_signals (demo_ib []) (ib_mem false IB1 4096) (2 ^ 32 - 1) [2 ^ 32; 2 ^ 32 + 5] = Ok c' /\
    recvThreadFunc [Some []; Some [WcImm 0 0]; Some [WcImm 5 0]]
      (mkThread (recv_at (2 ^ 32 - 1)) demo_qp true [] false) = Ok t' /\
    rt_signal t' = [2 ^ 32; 2 ^ 32 + 5].
Proof.
  destruct (ib_tokens_delivered (demo_ib [])
    (match IB_signals (demo_ib []) (ib_mem false IB1 4096) (2 ^ 32 - 1) [2 ^ 32; 2 ^ 32 + 5] with
     | Ok c => c | Throw _ => demo_ib [] end)
    (ib_mem false IB1 4096) (2 ^ 32 - 1) [2 ^ 32; 2 ^ 32 + 5]
    (mkThread (recv_at (2 ^ 32 - 1)) demo_qp true [] false) [[]; [WcImm 0 0]; [WcImm 5 0]])
    as (new & t' & _ & _ & E & Hsig & _).
  - split; [done|]. exists 0. by split.
  - done.
  - reflexivity.
  - lia.
  - simpl. lia.
  - split_and!; try done.
  - reflexivity.
  - eexists _, t'. split; [reflexivity|]. split; [exact E|exact Hsig].
Defined.

(** an InfiniBand [flush] that returns normally leaves no signaled request
    outstanding and does not touch what was sent; and without a timeout it does
    return, after at most as many polls as requests are outstanding, when each
    poll reports some successful completion. *)
Theorem ib_flush_drains to c :
  ib_idle c ->
  (forall c', IB_flush to c = Some (Ok c') ->
     getNumSendCqItems (qp c') = 0 /\ wire (qp c') = wire (qp c) /\ ib_idle c') /\
  (recvThreadError c = false -> 0 < maxSendCqPollNum (qp c) -> Forall good_answer (cq c) ->
   getNumSendCqItems (qp c) <= Z.of_nat (length (cq c)) ->
   exists c', IB_flush (-1) c = Some (Ok c')).
Proof.
  intros [Hs [d I]]. split.
  - intros c' H. unfold IB_flush in H. destruct (recvThreadError c); [done|].
    destruct (IB_flush_loop to (cq c) (qp c)) as [[[q rest]|e]|] eqn:E; cbn in H; simplify_eq.
    destruct (flush_loop_ok _ _ _ _ _ _ I E Hs) as (? & ? & ? & ?). done.
  - intros He Hm Hg Hl. destruct (flush_loop_terminates (cq c) (qp c) d) as [[q rest] E]; try done.
    unfold IB_flush. rewrite He, E. by eexists.
Qed.

Definition one_done : cq_answer := mkAnswer (Some [true; true]) 3.
Definition busy_ib : IBConn :=
  mkIBConn IB0 IB1 (mkQp [] 0 2 0 1 4 2 [demo_wr 0; demo_wr 1] 0) true (mkIbMr 5000 3) false []
    [one_done; one_done].

Lemma ib_flush_drains_witness :
  exists c', IB_flush (-1) busy_ib = Some (Ok c') /\ getNumSendCqItems (qp c') = 0.
Proof.
  assert (Hi : ib_idle busy_ib) by (split; [done|]; exists 0; by split).
  destruct (ib_flush_drains (-1) busy_ib Hi) as [Hsafe Hlive].
  destruct Hlive as [c' E]; [done|simpl; lia| |simpl; lia|].
  - repeat constructor; eexists; (split; [reflexivity|]); repeat constructor.
  - exists c'. split; [exact E|]. apply (Hsafe c' E).
Defined.

(** The source of an Ethernet write as the loop reads it. *)
Lemma src_split m base a n k :
  mem_read m (base + a) (n + k) = mem_read m (base + a) n ++ mem_read m (base + (a + Z.of_nat n)) k.
Proof. rewrite mem_read_app. by rewrite Z.add_assoc. Qed.

Lemma Eth_write_wire buf m dst dOff src sOff size bytes :
  16 < buf < 2 ^ 64 -> 0 < size < 2 ^ 63 ->
  Eth_write buf m dst dOff src sOff size = Ok bytes ->
  bytes = eth_header (u64 (originalDataPtr dst + dOff)) size ++
    mem_read m (data src + sOff) (Z.to_nat (Z.min (buf - 16) size)) ++
    mem_read m (data src + sOff + buf) (Z.to_nat (size - buf)).
Proof.
  intros Hb Hs H. unfold Eth_write in H. do 2 apply bind_ok_inv in H as (? & _ & H). inv_ok.
  rewrite eth_send_wire; try done.
  - by rewrite Z.add_0_r.
  - intros. apply src_split.
Qed.

(** an Ethernet write that fits in the send buffer together with its header
    arrives: the receiver copies exactly the source bytes to the destination
    address and goes on with the bytes that follow; so does the eight-byte value
    of [updateAndSync]. *)
Theorem ethernet_delivers buf rbuf m m' dst dOff src sOff size rest bytes :
  16 < buf < 2 ^ 64 -> 0 < rbuf -> 0 < size <= buf - 16 -> size < 2 ^ 63 ->
  Eth_write buf m dst dOff src sOff size = Ok bytes ->
  eth_recv_message rbuf (bytes ++ rest) m' =
    (mem_write m' (u64 (originalDataPtr dst + dOff)) (mem_read m (data src + sOff) (Z.to_nat size)), Some rest) /\
  forall old new sig, 0 <= new < 2 ^ 64 -> Eth_updateAndSync dst dOff old new = Ok sig ->
  eth_recv_message rbuf (sig ++ rest) m' =
    (mem_write m' (u64 (originalDataPtr dst + dOff)) (le_bytes 8 new), Some rest).
Proof.
  intros Hb Hr Hs Hs' H. pose proof (u64_is_u (originalDataPtr dst + dOff)) as Hu. split.
  - rewrite (Eth_write_wire buf m dst dOff src sOff size bytes Hb ltac:(lia) H). replace (Z.to_nat (size - buf)) with O by lia.
    cbn [mem_read]. rewrite app_nil_r. replace (Z.min (buf - 16) size) with size by lia.
    rewrite <- app_assoc. set (bs := mem_read _ _ _).
    assert (El : Z.of_nat (length bs) = size) by (unfold bs; rewrite mem_read_len; lia).
    rewrite <- El at 1. apply eth_recv_message_ok; [done|exact Hu|rewrite El; lia].
  - intros old new sig Hn E. unfold Eth_updateAndSync in E. apply bind_ok_inv in E as (? & _ & E).
    assert (sig = eth_header (u64 (originalDataPtr dst + dOff)) 8 ++ le_bytes 8 new) as -> by congruence.
    rewrite <- app_assoc. change 8 with (Z.of_nat 8). rewrite <- (le_bytes_len 8 new) at 1.
    apply eth_recv_message_ok; [done|exact Hu|rewrite le_bytes_len; lia].
Qed.

Definition eth_flags : TransportFlags := TransportFlags_of Ethernet.

Lemma ethernet_delivers_witness :
  exists bytes, Eth_write 64 (<[200 := 5]> (<[201 := 6]> ∅)) (demo_mem 100 8 eth_flags) 2
                  (demo_mem 200 8 eth_flags) 0 3 = Ok bytes /\
  eth_recv_message 2 (bytes ++ [1]) ∅ = (mem_write ∅ 102 [5; 6; 0], Some [1]).
Proof.
  eexists. split; [reflexivity|].
  refine (proj1 (ethernet_delivers 64 2 (<[200 := 5]> (<[201 := 6]> ∅)) ∅ (demo_mem 100 8 eth_flags) 2
           (demo_mem 200 8 eth_flags) 0 3 [1] _ _ _ _ _ eq_refl)); lia.
Defined.

(** an Ethernet write that does not fit with its header loses data: the loop
    counts the header as data sent, so fewer bytes than the header announces go
    on the wire, those between [bufSize - 16] and [bufSize] are never sent, and a
    receiver whose buffer holds the announced size keeps waiting. *)
Theorem ethernet_loses_data buf rbuf m m' dst dOff src sOff size bytes :
  16 < buf < 2 ^ 64 -> buf - 16 < size < 2 ^ 63 -> size <= rbuf ->
  Eth_write buf m dst dOff src sOff size = Ok bytes ->
  Z.of_nat (length bytes) = Z.max buf size /\ Z.of_nat (length bytes) < 16 + size /\
  eth_recv_message rbuf bytes m' = (m', None).
Proof.
  intros Hb Hs Hr H. rewrite (Eth_write_wire buf m dst dOff src sOff size bytes Hb ltac:(lia) H).
  set (tailb := mem_read m (data src + sOff) _ ++ _).
  assert (Ht : Z.of_nat (length tailb) = Z.max buf size - 16).
  { unfold tailb. rewrite length_app, !mem_read_len. lia. }
  assert (Hh : length (eth_header (u64 (originalDataPtr dst + dOff)) size) = 16%nat) by done.
  rewrite length_app, Hh. split_and!; [lia|lia|].
  unfold eth_recv_message, eth_header. rewrite <- !app_assoc.
  rewrite recvUntilEnd_app by apply le_bytes_len. rewrite recvUntilEnd_app by apply le_bytes_len.
  rewrite (le_val_bytes 8 size) by (simpl; lia).
  destruct (Z.to_nat size) as [|fuel] eqn:E; [lia|]. cbn [eth_recv_data].
  destruct (Z.ltb_spec 0 size); [|lia]. rewrite recvUntilEnd_short by lia. done.
Qed.

Lemma ethernet_loses_data_witness :
  exists bytes, Eth_write 20 ∅ (demo_mem 100 64 eth_flags) 0 (demo_mem 200 64 eth_flags) 0 30 = Ok bytes /\
    length bytes = 30%nat /\ eth_recv_message 64 bytes ∅ = (∅, None).
Proof.
  eexists. split; [reflexivity|]. split; [reflexivity|].
  refine (proj2 (proj2 (ethernet_loses_data 20 64 ∅ ∅ (demo_mem 100 64 eth_flags) 0
           (demo_mem 200 64 eth_flags) 0 30 _ _ _ _ eq_refl))); lia.
Defined.
