(* ===== verification/ConnOps.v ===== *)
(** * The connection interface the proxy service relies on

    [BaseConnection] (src/core/include/connection.hpp) is a class of virtual
    functions; [ConnOps] is its signature over a shared world and [ConnLaws] what
    its documentation promises about flushes: how many operations each connection
    has issued and completed, and that [progressFlush] reports a requested flush
    only when everything issued before the request has completed.  The instance
    at the end discharges the laws for the three connections of [Connection]. *)

From S2P Require Import Prelude Errors Core RegisteredMemory Endpoint IbQp Connection.
Local Open Scope Z_scope.

Class ConnOps (W : Type) := {
  co_maxWriteQueueSize : Z -> W -> Z;
  co_write : Z -> Impl -> Z -> Impl -> Z -> Z -> W -> result W;
  co_updateAndSync : Z -> Impl -> Z -> Z -> Z -> W -> result W;
  co_flush : Z -> W -> option (result W);
  co_requestFlush : Z -> W -> option (result W);
  co_progressFlush : Z -> W -> result (W * bool)
}.

(** What is observed of a world: per connection, the operations issued and
    completed so far, and the counts a pending flush was requested at. *)
Class ConnView (W : Type) := {
  cv_ok : W -> Prop;
  issued : W -> Z -> Z;
  completed : W -> Z -> Z;
  requested : W -> Z -> Z -> Prop
}.

(** [w'] follows [w] with [n] more operations issued on [h]; completions are
    never taken back, on any connection, and requests are remembered. *)
Record advances {W} `{ConnView W} (h n : Z) (w w' : W) : Prop := {
  adv_ok : cv_ok w';
  adv_issued : forall h', issued w' h' = issued w h' + (if decide (h' = h) then n else 0);
  adv_completed : forall h', completed w h' <= completed w' h';
  adv_requested : forall h' k, requested w h' k -> requested w' h' k
}.

Class ConnLaws (W : Type) `{ConnOps W} `{ConnView W} := {
  cl_completed w h : cv_ok w -> 0 <= completed w h <= issued w h;
  cl_write w h d dO s sO n w' : cv_ok w -> co_write h d dO s sO n w = Ok w' -> advances h 1 w w';
  cl_update w h d o a b w' : cv_ok w -> co_updateAndSync h d o a b w = Ok w' -> advances h 1 w w';
  cl_flush w h w' : cv_ok w -> co_flush h w = Some (Ok w') ->
    advances h 0 w w' /\ completed w' h = issued w' h;
  cl_request w h w' : cv_ok w -> co_requestFlush h w = Some (Ok w') ->
    advances h 0 w w' /\ requested w' h (issued w h);
  cl_progress w h w' b : cv_ok w -> co_progressFlush h w = Ok (w', b) ->
    advances h 0 w w' /\ (b = true -> forall k, requested w h k -> k <= completed w' h);
  (** the queue bound is a constant of the connection *)
  cl_max_write w h d dO s sO n w' h' : co_write h d dO s sO n w = Ok w' ->
    co_maxWriteQueueSize h' w' = co_maxWriteQueueSize h' w;
  cl_max_update w h d o a b w' h' : co_updateAndSync h d o a b w = Ok w' ->
    co_maxWriteQueueSize h' w' = co_maxWriteQueueSize h' w;
  cl_max_flush w h w' h' : co_flush h w = Some (Ok w') ->
    co_maxWriteQueueSize h' w' = co_maxWriteQueueSize h' w;
  cl_max_request w h w' h' : co_requestFlush h w = Some (Ok w') ->
    co_maxWriteQueueSize h' w' = co_maxWriteQueueSize h' w
}.

(** ** The instance for the connections of a context *)

#[export] Instance world_ops (localMr : IbMrInfo -> IbMr) : ConnOps world := {|
  co_maxWriteQueueSize := Connection_getMaxWriteQueueSize;
  co_write := Connection_write localMr;
  co_updateAndSync := Connection_updateAndSync;
  co_flush := Connection_flush (-1);
  co_requestFlush := Connection_requestFlush;
  co_progressFlush := Connection_progressFlush
|}.

Definition of_conn (h : Z) (l : list (Z * copy)) : Z :=
  Z.of_nat (length (filter (fun c : Z * copy => c.1 = h) l)).

(** Copies of connection [h] over all streams. *)
Definition ipc_count (sel : stream -> list (Z * copy)) (ss : list stream) (h : Z) : Z :=
  foldr (fun s acc => of_conn h (sel s) + acc) 0 ss.

Definition w_issued (w : world) (h : Z) : Z :=
  match c_impl <$> conns w !! h with
  | Some (CIpc _) => ipc_count (fun s => executed s ++ queued s) (ipcStreams w) h
  | Some (CIB c) => num_signaled (wire (qp c))
  | Some (CEth _ sent) => Z.of_nat (length sent)
  | None => 0
  end.

Definition w_completed (w : world) (h : Z) : Z :=
  match c_impl <$> conns w !! h with
  | Some (CIpc _) => ipc_count executed (ipcStreams w) h
  | Some (CIB c) => num_signaled (wire (qp c)) - getNumSendCqItems (qp c)
  | Some (CEth _ sent) => Z.of_nat (length sent)
  | None => 0
  end.

(** An InfiniBand request only waits for what was posted; the others have
    completed when the request returns. *)
Definition w_requested (w : world) (h k : Z) : Prop :=
  match c_impl <$> conns w !! h with
  | Some (CIB c) => k <= num_signaled (wire (qp c))
  | _ => k <= w_completed w h
  end.

(** Every queue pair is between operations, and the copies a stream holds belong
    to connections that use that stream. *)
Record w_ok (w : world) : Prop := {
  wo_ib : forall h c, c_impl <$> conns w !! h = Some (CIB c) -> ib_idle c;
  wo_stream : forall i s, ipcStreams w !! i = Some s -> stream_ok s;
  wo_owner : forall i s h c, ipcStreams w !! i = Some s -> In (h, c) (queued s) ->
               c_impl <$> conns w !! h = Some (CIpc i)
}.

#[export] Instance world_view : ConnView world := {|
  cv_ok := w_ok; issued := w_issued; completed := w_completed; requested := w_requested
|}.

(** ** Lemmas *)

Lemma of_conn_app h a b : of_conn h (a ++ b) = of_conn h a + of_conn h b.
Proof. unfold of_conn. rewrite filter_app, length_app. lia. Qed.

Lemma of_conn_nonneg h l : 0 <= of_conn h l.
Proof. unfold of_conn. lia. Qed.

Lemma of_conn_one h h' c : of_conn h' [(h, c)] = if decide (h' = h) then 1 else 0.
Proof. unfold of_conn. rewrite filter_cons. simpl. repeat case_decide; by subst. Qed.

Lemma of_conn_none h l : (forall c, ~ In (h, c) l) -> of_conn h l = 0.
Proof.
  unfold of_conn. intros Hn. induction l as [|[h' c] l IH]; [done|]. rewrite filter_cons. simpl.
  rewrite decide_False; [apply IH; intros c' Hc; by apply (Hn c'); right|].
  intros ->. apply (Hn c). by left.
Qed.

Lemma ipc_count_insert sel ss i s s' h :
  ss !! i = Some s ->
  ipc_count sel (<[i := s']> ss) h = ipc_count sel ss h + of_conn h (sel s') - of_conn h (sel s).
Proof.
  revert i. induction ss as [|x ss IH]; intros [|i] Hi; simpl in *; simplify_eq; [lia|].
  rewrite IH by done. lia.
Qed.

Lemma ipc_count_le ss h : 0 <= ipc_count executed ss h <= ipc_count (fun s => executed s ++ queued s) ss h.
Proof.
  induction ss as [|s ss IH]; simpl; [lia|]. rewrite of_conn_app.
  pose proof (of_conn_nonneg h (executed s)). pose proof (of_conn_nonneg h (queued s)). lia.
Qed.

(** With the queue of its stream empty, nothing of a connection is pending. *)
Lemma ipc_count_drained w h i s :
  w_ok w -> c_impl <$> conns w !! h = Some (CIpc i) -> ipcStreams w !! i = Some s -> queued s = [] ->
  ipc_count executed (ipcStreams w) h = ipc_count (fun s => executed s ++ queued s) (ipcStreams w) h.
Proof.
  intros [_ _ Ho] Hh Hi Hq.
  assert (Hall : forall j x, ipcStreams w !! j = Some x -> of_conn h (queued x) = 0).
  { intros j x Hj. apply of_conn_none. intros c Hc. pose proof (Ho _ _ _ _ Hj Hc) as E.
    rewrite Hh in E. simplify_eq. rewrite Hq in Hc. done. }
  clear Ho Hh Hi. induction (ipcStreams w) as [|x ss IH]; simpl; [done|].
  rewrite of_conn_app, (Hall 0%nat x) by done. rewrite IH; [lia|]. intros j y Hj. by apply (Hall (S j)).
Qed.

Lemma set_impl_lookup w h i h' :
  c_impl <$> conns (set_impl w h i) !! h' =
  if decide (h' = h) then (fun _ => i) <$> conns w !! h' else c_impl <$> conns w !! h'.
Proof.
  unfold set_impl. simpl. case_decide; subst.
  - rewrite lookup_alter_eq. by destruct (conns w !! h).
  - by rewrite lookup_alter_ne by done.
Qed.

Lemma impl_some w h i : c_impl <$> conns w !! h = Some i -> exists c, conns w !! h = Some c /\ c_impl c = i.
Proof. destruct (conns w !! h) as [c|]; simpl; [|done]. intros. simplify_eq. eauto. Qed.

Lemma set_impl_max w h i h' :
  Connection_getMaxWriteQueueSize h' (set_impl w h i) = Connection_getMaxWriteQueueSize h' w.
Proof.
  unfold Connection_getMaxWriteQueueSize, set_impl. simpl. destruct (decide (h' = h)) as [->|].
  - rewrite lookup_alter_eq. by destruct (conns w !! h).
  - by rewrite lookup_alter_ne by done.
Qed.

(** Worlds with the same connections: only the streams decide. *)
Lemma view_set_stream w i m s h :
  c_impl <$> conns (set_stream w i m s) !! h = c_impl <$> conns w !! h.
Proof. done. Qed.

Lemma adv_push w h i s c :
  w_ok w -> c_impl <$> conns w !! h = Some (CIpc i) -> ipcStreams w !! i = Some s ->
  advances h 1 w (set_stream w i (w_mem w) (stream_push s h c)).
Proof.
  intros Hw Hh Hi. pose proof Hw as [Hib Hst Ho].
  assert (Hlt : (i < length (ipcStreams w))%nat) by (by eapply lookup_lt_Some).
  split; simpl.
  - split; simpl; [done| |].
    + intros j x Hj. apply list_lookup_insert_Some in Hj as [(<- & <- & _)|[_ Hj]]; [intros [=]|eauto].
    + intros j x h' c' Hj Hin. apply list_lookup_insert_Some in Hj as [(<- & <- & _)|[_ Hj]]; [|eauto].
      simpl in Hin. apply in_app_or in Hin as [Hin|[Hin|[]]]; [eauto|]. by simplify_eq.
  - intros h'. unfold w_issued. simpl. destruct (decide (h' = h)) as [->|Hne].
    + rewrite Hh, (ipc_count_insert _ _ _ _ _ _ Hi). simpl. rewrite !of_conn_app, of_conn_one.
      rewrite decide_True by done. lia.
    + case_match; [|lia]. case_match; try lia. rewrite (ipc_count_insert _ _ _ _ _ _ Hi). simpl.
      rewrite !of_conn_app, of_conn_one. rewrite decide_False by done. lia.
  - intros h'. unfold w_completed. simpl. repeat case_match; try lia.
    rewrite (ipc_count_insert _ _ _ _ _ _ Hi). simpl. lia.
  - intros h' k. unfold w_requested, w_completed. simpl. repeat case_match; try done.
    rewrite (ipc_count_insert _ _ _ _ _ _ Hi). simpl. lia.
Qed.

Lemma adv_sync w h i s m' s' :
  w_ok w -> c_impl <$> conns w !! h = Some (CIpc i) -> ipcStreams w !! i = Some s ->
  stream_sync (w_mem w) s = (m', s') ->
  advances h 0 w (set_stream w i m' s') /\
  w_completed (set_stream w i m' s') h = w_issued (set_stream w i m' s') h.
Proof.
  intros Hw Hh Hi Hsync. pose proof Hw as [Hib Hst Ho].
  assert (Hlt : (i < length (ipcStreams w))%nat) by (by eapply lookup_lt_Some).
  assert (Hs' : queued s' = [] /\ executed s' = executed s ++ queued s).
  { unfold stream_sync in Hsync. destruct (dirty s) eqn:Ed; simplify_eq/=; [done|].
    rewrite (Hst _ _ Hi Ed), app_nil_r. done. }
  destruct Hs' as [Hq He].
  assert (Hok : w_ok (set_stream w i m' s')).
  { split; simpl; [done| |].
    - intros j x Hj. apply list_lookup_insert_Some in Hj as [(<- & <- & _)|[_ Hj]]; [by intros _|eauto].
    - intros j x h' c' Hj Hin. apply list_lookup_insert_Some in Hj as [(<- & <- & _)|[_ Hj]]; [|eauto].
      by rewrite Hq in Hin. }
  assert (Hcnt : forall h', ipc_count executed (ipcStreams w) h' <=
                   ipc_count executed (<[i := s']> (ipcStreams w)) h').
  { intros h'. rewrite (ipc_count_insert _ _ _ _ _ _ Hi), He, of_conn_app.
    pose proof (of_conn_nonneg h' (queued s)). lia. }
  split; [split; simpl|].
  - done.
  - intros h'. unfold w_issued. simpl. repeat case_match; try lia;
      rewrite (ipc_count_insert _ _ _ _ _ _ Hi), He, Hq, app_nil_r; lia.
  - intros h'. unfold w_completed. simpl. specialize (Hcnt h'). repeat case_match; lia.
  - intros h' k. unfold w_requested, w_completed. simpl. specialize (Hcnt h').
    repeat case_match; try done; lia.
  - unfold w_completed, w_issued. rewrite view_set_stream, Hh.
    apply (ipc_count_drained _ h i s'); [done|done| |done]. simpl. by apply list_lookup_insert_eq.
Qed.

Lemma w_ok_set_impl w h i c0 :
  w_ok w -> c_impl <$> conns w !! h = Some c0 -> (forall sid, c0 <> CIpc sid) ->
  (forall c, i = CIB c -> ib_idle c) -> w_ok (set_impl w h i).
Proof.
  intros [Hib Hst Ho] Hh Hni Hi. split.
  - intros h' c. rewrite set_impl_lookup. case_decide; [|eauto].
    destruct (conns w !! h'); simpl; [|done]. intros. simplify_eq. eauto.
  - done.
  - intros j s h' c Hj Hin. rewrite set_impl_lookup. case_decide as Hd; [|by eapply Ho].
    subst h'. specialize (Ho _ _ _ _ Hj Hin). rewrite Hh in Ho. simplify_eq. by destruct (Hni j).
Qed.

Lemma adv_ib w h c c' n :
  w_ok w -> c_impl <$> conns w !! h = Some (CIB c) -> ib_idle c' ->
  num_signaled (wire (qp c')) = num_signaled (wire (qp c)) + n -> 0 <= n ->
  num_signaled (wire (qp c)) - getNumSendCqItems (qp c) <=
    num_signaled (wire (qp c')) - getNumSendCqItems (qp c') ->
  advances h n w (set_impl w h (CIB c')).
Proof.
  intros Hw Hh Hid Hn H0 Hc. apply impl_some in Hh as Hx. destruct Hx as (x & Hx & Ex).
  split; simpl.
  - eapply w_ok_set_impl; eauto; intros; by simplify_eq.
  - intros h'. unfold w_issued. rewrite set_impl_lookup.
    case_decide; subst; [|simpl; lia]. rewrite Hh, Hx. simpl. lia.
  - intros h'. unfold w_completed. rewrite set_impl_lookup.
    case_decide; subst; [|simpl; lia]. rewrite Hh, Hx. simpl. lia.
  - intros h' k. unfold w_requested, w_completed. rewrite set_impl_lookup.
    case_decide; subst; [|done]. rewrite Hh, Hx. simpl. lia.
Qed.

Lemma adv_eth w h b sent sent' n :
  w_ok w -> c_impl <$> conns w !! h = Some (CEth b sent) ->
  Z.of_nat (length sent') = Z.of_nat (length sent) + n -> 0 <= n ->
  advances h n w (set_impl w h (CEth b sent')).
Proof.
  intros Hw Hh Hn H0. apply impl_some in Hh as Hx. destruct Hx as (x & Hx & Ex).
  split; simpl.
  - eapply w_ok_set_impl; eauto; intros; by simplify_eq.
  - intros h'. unfold w_issued. rewrite set_impl_lookup.
    case_decide; subst; [|simpl; lia]. rewrite Hh, Hx. simpl. lia.
  - intros h'. unfold w_completed. rewrite set_impl_lookup.
    case_decide; subst; [|simpl; lia]. rewrite Hh, Hx. simpl. lia.
  - intros h' k. unfold w_requested, w_completed. rewrite set_impl_lookup.
    case_decide; subst; [|done]. rewrite Hh, Hx. simpl. lia.
Qed.

Lemma adv_refl w h : w_ok w -> advances h 0 w w.
Proof. intros. split; simpl; try done; intros; try case_decide; lia. Qed.

(** ** Each operation advances the view *)

Lemma ib_send_adv w h c c' wr :
  w_ok w -> c_impl <$> conns w !! h = Some (CIB c) -> ib_idle c' ->
  wire (qp c') = wire (qp c) ++ [wr] -> wr_signaled wr = true ->
  numPostedSignaledSend (qp c') = numPostedSignaledSend (qp c) + 1 ->
  advances h 1 w (set_impl w h (CIB c')).
Proof.
  intros Hw Hh Hid Ew Hs Hp.
  assert (num_signaled (wire (qp c')) = num_signaled (wire (qp c)) + 1).
  { by rewrite Ew, num_signaled_app, num_signaled_one, Hs. }
  eapply adv_ib; eauto; unfold getNumSendCqItems; lia.
Qed.

Lemma write_adv localMr w h d dO s sO n w' :
  w_ok w -> Connection_write localMr h d dO s sO n w = Ok w' -> advances h 1 w w'.
Proof.
  intros Hw H. unfold Connection_write in H.
  destruct (c_impl <$> conns w !! h) as [[i|c|b sent]|] eqn:Hh; [| | |done].
  - destruct (ipcStreams w !! i) as [x|] eqn:Hi; [|done]. apply bind_ok_inv in H as (s' & Hw' & H).
    unfold CudaIpc_write in Hw'. do 2 apply bind_ok_inv in Hw' as (? & _ & Hw'). inv_ok. by apply adv_push.
  - apply bind_ok_inv in H as (c' & Hc & H). inv_ok.
    destruct (IB_write_ok _ _ _ _ _ _ _ _ (wo_ib w Hw _ _ Hh) Hc) as (wr & ? & ? & ? & _ & _ & ? & _).
    by eapply ib_send_adv.
  - apply bind_ok_inv in H as (bytes & _ & H). inv_ok. eapply adv_eth; eauto; [|lia].
    rewrite length_app. simpl. lia.
Qed.

Lemma update_adv w h d o a b w' :
  w_ok w -> Connection_updateAndSync h d o a b w = Ok w' -> advances h 1 w w'.
Proof.
  intros Hw H. unfold Connection_updateAndSync in H.
  destruct (c_impl <$> conns w !! h) as [[i|c|bs sent]|] eqn:Hh; [| | |done].
  - destruct (ipcStreams w !! i) as [x|] eqn:Hi; [|done]. apply bind_ok_inv in H as (s' & Hw' & H).
    unfold CudaIpc_updateAndSync in Hw'. apply bind_ok_inv in Hw' as (? & _ & Hw'). inv_ok. by apply adv_push.
  - apply bind_ok_inv in H as (c' & Hc & H). inv_ok.
    destruct (IB_update_ok _ _ _ _ _ _ (wo_ib w Hw _ _ Hh) Hc) as (wr & ? & ? & ? & _ & _ & ? & _).
    by eapply ib_send_adv.
  - apply bind_ok_inv in H as (bytes & _ & H). inv_ok. eapply adv_eth; eauto; [|lia].
    rewrite length_app. simpl. lia.
Qed.

Lemma flush_adv to w h w' :
  w_ok w -> Connection_flush to h w = Some (Ok w') ->
  advances h 0 w w' /\ w_completed w' h = w_issued w' h.
Proof.
  intros Hw H. unfold Connection_flush in H.
  destruct (c_impl <$> conns w !! h) as [[i|c|bs sent]|] eqn:Hh; [| | |done].
  - destruct (ipcStreams w !! i) as [x|] eqn:Hi; [|done]. unfold CudaIpc_flush in H.
    destruct (stream_sync (w_mem w) x) as [m' s'] eqn:Es. simplify_eq. by apply (adv_sync w h i x).
  - destruct (IB_flush to c) as [[c'|e]|] eqn:E; cbn in H; simplify_eq.
    pose proof (wo_ib w Hw _ _ Hh) as Hid. destruct Hid as [Hs [d I]].
    unfold IB_flush in E. destruct (recvThreadError c); [done|].
    destruct (IB_flush_loop to (cq c) (qp c)) as [[[q rest]|e]|] eqn:El; cbn in E; simplify_eq.
    destruct (flush_loop_ok _ _ _ _ _ _ I El Hs) as (E0 & Ew & Es & Ed).
    apply impl_some in Hh as Hx. destruct Hx as (x & Hx & _). split.
    + eapply adv_ib; eauto; simpl; rewrite ?Ew; try lia; [by split|].
      pose proof (qp_inv_nonneg _ _ I). lia.
    + unfold w_completed, w_issued. rewrite set_impl_lookup, decide_True, Hx by done. simpl. lia.
  - simplify_eq. apply impl_some in Hh as Hx. destruct Hx as (x & Hx & _). split.
    + eapply adv_eth; eauto; unfold Eth_flush; lia.
    + unfold w_completed, w_issued. rewrite set_impl_lookup, decide_True, Hx by done. done.
Qed.

Lemma request_adv w h w' :
  w_ok w -> Connection_requestFlush h w = Some (Ok w') ->
  advances h 0 w w' /\ w_requested w' h (w_issued w h).
Proof.
  intros Hw H.
  destruct (c_impl <$> conns w !! h) as [[i|c|bs sent]|] eqn:Hh; unfold Connection_requestFlush in H;
    rewrite Hh in H.
  2:{ cbn in H. simplify_eq. apply impl_some in Hh as Hx. destruct Hx as (x & Hx & Ex). split.
      - eapply adv_ib; eauto; try lia. by eapply wo_ib.
      - unfold w_requested, w_issued. rewrite set_impl_lookup, decide_True, Hx by done. simpl. rewrite Ex. simpl. lia. }
  all: destruct (flush_adv _ _ _ _ Hw H) as [A E]; (split; [done|]); destruct A as [_ Ai _ _];
    specialize (Ai h); rewrite decide_True in Ai by done; simpl in Ai.
  - unfold Connection_flush in H. rewrite Hh in H. destruct (ipcStreams w !! i) as [x|] eqn:Hi; [|done].
    destruct (CudaIpc_flush (w_mem w) x) as [m' s'] eqn:Es. simplify_eq.
    unfold w_requested. rewrite view_set_stream, Hh. lia.
  - unfold Connection_flush in H. rewrite Hh in H. simplify_eq.
    apply impl_some in Hh as Hx. destruct Hx as (x & Hx & _).
    unfold w_requested. rewrite set_impl_lookup, decide_True, Hx by done. simpl. lia.
  - unfold Connection_flush in H. by rewrite Hh in H.
Qed.

Lemma progress_adv w h w' b :
  w_ok w -> Connection_progressFlush h w = Ok (w', b) ->
  advances h 0 w w' /\ (b = true -> forall k, w_requested w h k -> k <= w_completed w' h).
Proof.
  intros Hw H. unfold Connection_progressFlush in H.
  destruct (c_impl <$> conns w !! h) as [[i|c|bs sent]|] eqn:Hh;
    try (inv_ok; simplify_eq; split; [by apply adv_refl|intros _ k; unfold w_requested; by rewrite Hh]).
  apply bind_ok_inv in H as ([c' b'] & Hp & H). simplify_eq.
  pose proof (wo_ib w Hw _ _ Hh) as Hid. destruct Hid as [Hs [d I]].
  apply impl_some in Hh as Hx. destruct Hx as (x & Hx & _).
  assert (ib_idle c' /\ wire (qp c') = wire (qp c) /\
               getNumSendCqItems (qp c') <= getNumSendCqItems (qp c) /\
               (b = true -> getNumSendCqItems (qp c') = 0)) as (Hid' & Ew & Hle & Hb).
  { unfold IB_progressFlush in Hp. destruct (recvThreadError c); [done|].
    destruct (Z.eqb_spec (getNumSendCqItems (qp c)) 0) as [E|E]; [simplify_eq; refine (conj _ (conj _ (conj _ _))); try done; by split; eauto|].
    case_match; [|done]. case_match; [|done]. simplify_eq. simpl.
    destruct (poll_wcs_inv d (qp c) l I Hs) as (d' & I' & Hd).
    destruct (poll_keeps (qp c) (Z.of_nat (length (poll_wcs (qp c) l)))) as (E1 & E2 & _).
    refine (conj _ (conj _ (conj _ _)));
      [split; [simpl; by rewrite E2|by exists d']|done| |intros Hb; by apply Z.eqb_eq].
    unfold getNumSendCqItems, pollSendCq. case_match; simpl; bool_to_prop; lia. }
  split.
  - eapply adv_ib; eauto; rewrite ?Ew; lia.
  - intros Ht k. unfold w_requested, w_completed. rewrite Hh, set_impl_lookup, decide_True, Hx by done.
    simpl. rewrite Ew, (Hb Ht). lia.
Qed.

Lemma write_max localMr w h d dO s sO n w' h' :
  Connection_write localMr h d dO s sO n w = Ok w' ->
  Connection_getMaxWriteQueueSize h' w' = Connection_getMaxWriteQueueSize h' w.
Proof.
  unfold Connection_write. intros H. repeat case_match; inv_ok; try done; apply set_impl_max.
Qed.

Lemma update_max w h d o a b w' h' :
  Connection_updateAndSync h d o a b w = Ok w' ->
  Connection_getMaxWriteQueueSize h' w' = Connection_getMaxWriteQueueSize h' w.
Proof.
  unfold Connection_updateAndSync. intros H. repeat case_match; inv_ok; try done; apply set_impl_max.
Qed.

Lemma flush_max to w h w' h' :
  Connection_flush to h w = Some (Ok w') ->
  Connection_getMaxWriteQueueSize h' w' = Connection_getMaxWriteQueueSize h' w.
Proof.
  unfold Connection_flush. intros H. destruct (c_impl <$> conns w !! h) as [[i|c|b sent]|]; [| | |done].
  - repeat case_match; by simplify_eq.
  - destruct (IB_flush to c) as [[c'|]|]; cbn in H; simplify_eq. apply set_impl_max.
  - simplify_eq. apply set_impl_max.
Qed.

Lemma request_max w h w' h' :
  Connection_requestFlush h w = Some (Ok w') ->
  Connection_getMaxWriteQueueSize h' w' = Connection_getMaxWriteQueueSize h' w.
Proof.
  unfold Connection_requestFlush. intros H.
  destruct (c_impl <$> conns w !! h) as [[i|c|b sent]|] eqn:Hh; try by eapply flush_max.
  cbn in H. simplify_eq. apply set_impl_max.
Qed.

Lemma completed_le_issued w h : w_ok w -> 0 <= w_completed w h <= w_issued w h.
Proof.
  intros Hw. unfold w_completed, w_issued.
  destruct (c_impl <$> conns w !! h) as [[i|c|bs sent]|] eqn:Hh; [apply ipc_count_le| |lia|lia].
  destruct (wo_ib w Hw _ _ Hh) as [_ [d [_ _ Ep Ed]]]. unfold getNumSendCqItems. lia.
Qed.

#[export] Instance world_laws localMr : @ConnLaws world (world_ops localMr) world_view.
Proof.
  split; simpl.
  - apply completed_le_issued.
  - intros. by eapply write_adv.
  - intros. by eapply update_adv.
  - intros. by eapply flush_adv.
  - intros. by eapply request_adv.
  - intros. by eapply progress_adv.
  - intros. by eapply write_max.
  - intros. by eapply update_max.
  - intros. by eapply flush_max.
  - intros. by eapply request_max.
Qed.
