(* ===== verification/Connect.v ===== *)
(** * Making connections

    Models [Context::connect] (src/core/context.cc): its checks of the two endpoints, the choice of a
    kind of connection, and the constructor of that kind (src/core/connection.cc), which can throw
    on one side of a connection and not on the other.  The parts of the constructors are
    [CudaIpc_check] of Connection and [IBConnection_create] of IbVerbs. *)

From S2P Require Import Prelude Errors Core RegisteredMemory Endpoint Connection.
From S2P Require IbVerbs IbQp.
Local Open Scope Z_scope.

Inductive ConnKind := KCudaIpc | KIB | KEthernet.

#[export] Instance ConnKind_eq_dec : EqDecision ConnKind.
Proof. solve_decision. Defined.

(** What a constructor meets: the allocation of [gpuFlushDonePos_]; whether CUDA has enabled peer access;
    the queue pair of the local endpoint and what the device says of it; what becomes of
    accepting and connecting the two sockets and of starting the receiving thread. *)
Record environment := mkEnvironment {
  en_flushPos : result (); en_peerAccess : bool;
  en_build : IbVerbs.build; en_qp : IbVerbs.QueuePair; en_ib : IbVerbs.conn_answers;
  en_sockets : result ()
}.

Section connect.
Context (env : environment).

(** [CudaIpcConnection::CudaIpcConnection]. *)
Definition CudaIpcConnection_create (local remote : EndpointImpl) : result () :=
  _ ← en_flushPos env;
  '(_, peer) ← CudaIpc_check local remote;
  throw_if (peer && negb (en_peerAccess env)) ECudaError.

(** [IBConnection::IBConnection]. *)
Definition IBConnection_new (local remote : EndpointImpl) : result () :=
  _ ← en_flushPos env;
  _ ← IbVerbs.IBConnection_create (en_build env) (en_ib env) local remote (en_qp env);
  Ok tt.

(** [EthernetConnection::EthernetConnection]. *)
Definition EthernetConnection_create (local remote : EndpointImpl) : result () :=
  _ ← en_flushPos env;
  _ ← throw_if (negb (bool_decide (ec_transport (config_ local) = Ethernet)) ||
                negb (bool_decide (ec_transport (config_ remote) = Ethernet))) (EError InvalidUsage);
  en_sockets env.

Definition connect (local remote : EndpointImpl) : result ConnKind :=
  let lt := ec_transport (config_ local) in
  let rt := ec_transport (config_ remote) in
  _ ← throw_if (gpu_without_id (ec_device (config_ local))) (EError InvalidUsage);
  _ ← throw_if (gpu_without_id (ec_device (config_ remote))) (EError InvalidUsage);
  _ ← throw_if (negb (bool_decide (lt = rt)) &&
                negb (hasb AllIBTransports lt && hasb AllIBTransports rt)) (EError InvalidUsage);
  if decide (lt = CudaIpc) then _ ← CudaIpcConnection_create local remote; Ok KCudaIpc
  else if hasb AllIBTransports lt then _ ← IBConnection_new local remote; Ok KIB
  else if decide (lt = Ethernet) then _ ← EthernetConnection_create local remote; Ok KEthernet
  else Throw (EError InternalError).
End connect.

(** ** Properties *)

(** What the endpoints alone decide, and the constructor of a kind. *)
Definition agreed (local remote : EndpointImpl) : result ConnKind :=
  let lt := ec_transport (config_ local) in
  let rt := ec_transport (config_ remote) in
  _ ← throw_if (gpu_without_id (ec_device (config_ local))) (EError InvalidUsage);
  _ ← throw_if (gpu_without_id (ec_device (config_ remote))) (EError InvalidUsage);
  _ ← throw_if (negb (bool_decide (lt = rt)) && negb (isIB lt && isIB rt)) (EError InvalidUsage);
  if decide (lt = CudaIpc) then Ok KCudaIpc else if isIB lt then Ok KIB
  else if decide (lt = Ethernet) then Ok KEthernet else Throw (EError InternalError).
Definition construct (env : environment) (k : ConnKind) : EndpointImpl -> EndpointImpl -> result () :=
  match k with
  | KCudaIpc => CudaIpcConnection_create env | KIB => IBConnection_new env | KEthernet => EthernetConnection_create env
  end.

Lemma connect_split env a b : connect env a b = (k ← agreed a b; _ ← construct env k a b; Ok k).
Proof.
  unfold connect, agreed. rewrite !hasb_AllIB.
  destruct (gpu_without_id (ec_device (config_ a))); [done|]. destruct (gpu_without_id (ec_device (config_ b))); [done|].
  destruct (negb _ && negb _); [done|]. cbn [throw_if mbind result_bind].
  destruct (decide (_ = CudaIpc)); [done|]. destruct (isIB _); [done|]. by destruct (decide (_ = Ethernet)).
Qed.

Lemma agreed_symmetric a b k : agreed a b = Ok k -> agreed b a = Ok k.
Proof.
  unfold agreed. intros H. inv_ok. rewrite H0, H1. cbn [throw_if mbind result_bind]. apply andb_false_iff in H2.
  destruct (ec_transport (config_ a)) eqn:Ea, (ec_transport (config_ b)) eqn:Eb;
    simpl in *; repeat case_bool_decide; try done; naive_solver.
Qed.

Lemma CudaIpc_check_symmetric a b r : CudaIpc_check a b = Ok r -> exists r', CudaIpc_check b a = Ok r'.
Proof.
  unfold CudaIpc_check. intros H. inv_ok. rewrite orb_comm, H0, H2, H1, (andb_comm (negb (is_gpu (ec_device (config_ b))))), H3. cbn [throw_if mbind result_bind]. by eexists.
Qed.

(** the two ends of a connection.  When one end has its connection, the other gets one of the
    same kind or fails for a reason of its own: its host memory, CUDA, its queue pair, its sockets.
    What the endpoints say has been agreed on by both. *)
Theorem connect_agrees (ea eb : environment) (a b : EndpointImpl) (k : ConnKind) :
  connect ea a b = Ok k ->
  match connect eb b a with
  | Ok k' => k' = k
  | Throw e => en_flushPos eb = Throw e \/
      match k with
      | KCudaIpc => e = ECudaError /\ en_peerAccess eb = false
      | KIB => IbVerbs.IBConnection_create (en_build eb) (en_ib eb) b a (en_qp eb) = Throw e
      | KEthernet => en_sockets eb = Throw e
      end
  end.
Proof.
  rewrite !connect_split. intros H. apply bind_ok_inv in H as (k' & Ha & H). apply bind_ok_inv in H as (u & Hc & [= <-]).
  rewrite (agreed_symmetric _ _ _ Ha). cbn [mbind result_bind].
  destruct k'; cbn [construct] in *; revert Hc; unfold CudaIpcConnection_create, IBConnection_new, EthernetConnection_create;
    (destruct (en_flushPos eb); [|by left]); intros Hc; apply bind_ok_inv in Hc as (? & _ & Hc); cbn [mbind result_bind].
  - apply bind_ok_inv in Hc as ([d p] & Hc & _). apply CudaIpc_check_symmetric in Hc as [[d' p'] ->]. cbn [mbind result_bind].
    destruct p', (en_peerAccess eb); cbn; by auto.
  - destruct (IbVerbs.IBConnection_create (en_build eb) _ _ _ _); cbn [mbind result_bind]; [done|by right].
  - apply throw_if_bind in Hc as [Hc _]. rewrite orb_comm in Hc. rewrite Hc. cbn [throw_if mbind result_bind]. destruct (en_sockets eb); cbn [mbind result_bind]; [done|by right].
Qed.

(** *** Two hosts *)

Import IbVerbs(demo_endpoint, demo_dev, demo_answers, demo_qp, demo_build, demo_conn, q_attrs, q_requests, QueuePair).

Definition demo_queue_pair : QueuePair := IbVerbs.mkQueuePair 1 0 no_qp 1 2 None false [] (IbQp.mkQp [] 0 0 0 1 64 0 [] 0).
Definition demo_environment (gdr : bool) (q : QueuePair) : environment :=
  mkEnvironment (Ok tt) true demo_build q (IbVerbs.mkConnAnswers true true (Ok tt) gdr 0) (Ok tt).

(** nothing compares the modes of the two ends: with the default mode on a device with atomics and one
    without, both connections are set up, the first end may send atomics, which the second
    has not allowed, and the second sends notifications, for which the first has posted no receive.
    And if GDRCopy cannot be used at the second end, the first has its connection all the same. *)
Theorem modes_may_differ : exists a b qa qb qa' qb',
  demo_endpoint 1 true (demo_dev 7 100) (demo_answers 10) = Ok a /\ demo_endpoint 2 false (demo_dev 8 200) (demo_answers 20) = Ok b /\
  demo_qp (demo_dev 7 100) (demo_answers 10) 0 (ibNoAtomic_ a) = Some (Ok qa) /\ demo_qp (demo_dev 8 200) (demo_answers 20) 16 (ibNoAtomic_ b) = Some (Ok qb) /\
  Endpoint_deserialize (Endpoint_serialize b) = Some (Ok (peer_view b)) /\
  connect (demo_environment true qa) a (peer_view b) = Ok KIB /\ connect (demo_environment true qb) b (peer_view a) = Ok KIB /\
  connect (demo_environment false qb) b (peer_view a) = Throw (EError InvalidUsage) /\
  IbVerbs.IBConnection_create demo_build demo_conn a (peer_view b) qa = Ok qa' /\ IbVerbs.IBConnection_create demo_build demo_conn b (peer_view a) qb = Ok qb' /\
  ibNoAtomic_ a = false /\ ibNoAtomic_ b = true /\
  (exists port r, q_attrs qb' = [IbVerbs.AInit port IbVerbs.IBV_ACCESS_REMOTE_WRITE; IbVerbs.ARtr r; IbVerbs.ARts 0] /\ IbVerbs.max_dest_rd_atomic r = 0) /\
  IbQp.recvPosted (q_requests qa') = 0.
Proof.
  destruct (demo_endpoint 1 true (demo_dev 7 100) (demo_answers 10)) as [a|] eqn:Ea; [|by vm_compute in Ea].
  destruct (demo_endpoint 2 false (demo_dev 8 200) (demo_answers 20)) as [b|] eqn:Eb; [|by vm_compute in Eb].
  vm_compute in Ea, Eb. injection Ea as <-. injection Eb as <-. do 6 eexists. do 2 (split; [reflexivity|]). do 2 (split; [vm_compute; reflexivity|]).
  do 4 (split; [by vm_compute|]). do 2 (split; [vm_compute; reflexivity|]). split; [done|]. split; [done|].
  split; [|done]. do 2 eexists. split; [reflexivity|done].
Qed.
