(* ===== verification/PortChannel.v ===== *)
(** * Port channels and the proxy service

    Models [ProxyService] of src/core/port_channel.cc and the device handles of
    include/mscclpp/port_channel_device.hpp.  The service turns the triggers the
    GPU pushes into connection operations: [handleTrigger] is the handler and
    [progressFlushes] the progress handler of the proxy loop ([Proxy]).

    The service is proved against the interface [ConnOps]/[ConnLaws], so the
    results hold for every kind of connection.  Semaphores are shared objects: the
    table of the service holds references into a store. *)

From S2P Require Import Prelude Errors Trigger Core RegisteredMemory Endpoint IbQp Connection ConnOps Proxy.
Local Open Scope Z_scope.

(** ** Device side *)

Section device.
Context (semaphoreId : Z).

(** [BasePortChannelDeviceHandle]: the trigger each operation pushes. *)
Definition port_put (dstId dstOffset srcId srcOffset size : Z) : ProxyTrigger :=
  ProxyTrigger_make TriggerData dstId dstOffset srcId srcOffset size semaphoreId.
Definition port_signal : ProxyTrigger := ProxyTrigger_make TriggerFlag 0 0 0 0 1 semaphoreId.
Definition port_putWithSignal (dstId dstOffset srcId srcOffset size : Z) : ProxyTrigger :=
  ProxyTrigger_make (Z.lor TriggerData TriggerFlag) dstId dstOffset srcId srcOffset size semaphoreId.
Definition port_putWithSignalAndFlush (dstId dstOffset srcId srcOffset size : Z) : ProxyTrigger :=
  ProxyTrigger_make (Z.lor (Z.lor TriggerData TriggerFlag) TriggerSync) dstId dstOffset srcId srcOffset
    size semaphoreId.
Definition port_flush : ProxyTrigger := ProxyTrigger_make TriggerSync 0 0 0 0 1 semaphoreId.
End device.

(** [waitFlush]: spin over the values loaded; [Some true] when it passes,
    [Some false] when the assertion on the spin count fails, [None] while it
    still spins. *)
Fixpoint waitFlush_spin (loads : list Z) (fifoPos maxSpinCount spin : Z) : option bool :=
  match loads with
  | [] => None
  | v :: loads' =>
      if v <=? fifoPos then
        if (maxSpinCount <? 0) || negb (spin =? maxSpinCount)
        then waitFlush_spin loads' fifoPos maxSpinCount (spin + 1) else Some false
      else Some true
  end.

Definition waitFlush (loads : list Z) (fifoPos maxSpinCount : Z) : option bool :=
  waitFlush_spin loads fifoPos maxSpinCount 0.

(** ** Host side *)

(** [Host2DeviceSemaphore]: its connection, the peer's token and the outbound token. *)
Record H2DSem := mkH2D { hs_connection : Z; hs_remoteMemory : Impl; hs_outboundToken : Z }.

Section service.
Context {W : Type} `{ConnOps W}.

Record ProxyService := mkService {
  semObjs : gmap Z H2DSem;          (* the semaphore objects *)
  semaphores : list Z;              (* [semaphores_], shared pointers *)
  memories : list Impl;
  inflightRequests : gmap Z Z;
  pendingFlushPos : gmap Z Z;
  flushDonePos : gmap Z Z;          (* [gpuFlushDonePos_] of each connection *)
  net : W
}.

Definition set_net (s : ProxyService) (w : W) : ProxyService :=
  mkService (semObjs s) (semaphores s) (memories s) (inflightRequests s) (pendingFlushPos s)
    (flushDonePos s) w.
Definition set_inflight (s : ProxyService) (h n : Z) : ProxyService :=
  mkService (semObjs s) (semaphores s) (memories s) (<[h := n]> (inflightRequests s))
    (pendingFlushPos s) (flushDonePos s) (net s).
Definition set_pending (s : ProxyService) (p : gmap Z Z) : ProxyService :=
  mkService (semObjs s) (semaphores s) (memories s) (inflightRequests s) p (flushDonePos s) (net s).
Definition set_flushDone (s : ProxyService) (h v : Z) : ProxyService :=
  mkService (semObjs s) (semaphores s) (memories s) (inflightRequests s) (pendingFlushPos s)
    (<[h := v]> (flushDonePos s)) (net s).
Definition set_sem (s : ProxyService) (i : Z) (x : H2DSem) : ProxyService :=
  mkService (<[i := x]> (semObjs s)) (semaphores s) (memories s) (inflightRequests s)
    (pendingFlushPos s) (flushDonePos s) (net s).

Definition inflight (s : ProxyService) (h : Z) : Z := default 0 (inflightRequests s !! h).
Definition flushDone (s : ProxyService) (h : Z) : Z := default 0 (flushDonePos s !! h).

(** [addSemaphore(shared_ptr)]: the id is the index in the table. *)
Definition addSemaphore_ptr (s : ProxyService) (i : Z) : ProxyService * Z :=
  let s' := mkService (semObjs s) (semaphores s ++ [i]) (memories s) (inflightRequests s)
              (pendingFlushPos s) (flushDonePos s) (net s) in
  (s', u32 (Z.of_nat (length (semaphores s')) - 1)).

(** [addSemaphore(semaphore)] and [buildAndAddSemaphore]: a new object at the
    free address [i], its token zero. *)
Definition addSemaphore (s : ProxyService) (i h : Z) (remote : Impl) : ProxyService * Z :=
  addSemaphore_ptr (set_sem s i (mkH2D h remote 0)) i.

Definition addMemory (s : ProxyService) (m : Impl) : ProxyService * Z :=
  let s' := mkService (semObjs s) (semaphores s) (memories s ++ [m]) (inflightRequests s)
              (pendingFlushPos s) (flushDonePos s) (net s) in
  (s', u32 (Z.of_nat (length (memories s')) - 1)).

(** [nextMemoryId]: no range is reserved, whatever the count. *)
Definition nextMemoryId (s : ProxyService) (count : Z) : result Z :=
  if count =? 0 then Throw (EError InvalidUsage) else Ok (u32 (Z.of_nat (length (memories s)))).

(** [Host2DeviceSemaphore::signal]. *)
Definition sem_signal_host (s : ProxyService) (i : Z) (x : H2DSem) : result ProxyService :=
  let new := u64 (hs_outboundToken x + 1) in
  w ← co_updateAndSync (hs_connection x) (hs_remoteMemory x) 0 (hs_outboundToken x) new (net s);
  Ok (set_net (set_sem s i (mkH2D (hs_connection x) (hs_remoteMemory x) new)) w).

Definition has_type (t : TriggerFields) (b : Z) : bool := negb (Z.land (f_type t) b =? 0).

(** The [TriggerData] branch.  An id that was never handed out is an access
    outside the vector, undefined in C++; here it is [EStd]. *)
Definition do_data (s : ProxyService) (h : Z) (t : TriggerFields) : result ProxyService :=
  if has_type t TriggerData then
    match memories s !! Z.to_nat (f_dstMemoryId t), memories s !! Z.to_nat (f_srcMemoryId t) with
    | Some dst, Some src =>
        w ← co_write h dst (f_dstOffset t) src (f_srcOffset t) (f_size t) (net s);
        Ok (set_inflight (set_net s w) h (inflight s h + 1))
    | _, _ => Throw EStd
    end
  else Ok s.

(** The [TriggerFlag] branch. *)
Definition do_flag (s : ProxyService) (i h : Z) (t : TriggerFields) : result ProxyService :=
  if has_type t TriggerFlag then
    match semObjs s !! i with
    | Some x => s' ← sem_signal_host s i x; Ok (set_inflight s' h (inflight s' h + 1))
    | None => Throw EStd
    end
  else Ok s.

(** The [TriggerSync] branch and the flow control; [None] while a flush blocks. *)
Definition do_sync (pos : Z) (s : ProxyService) (h maxWriteQueueSize : Z) (t : TriggerFields)
    : option (result ProxyService) :=
  if has_type t TriggerSync then
    r ← co_requestFlush h (net s);
    Some (w ← r; Ok (set_inflight (set_pending (set_net s w) (<[h := pos]> (pendingFlushPos s))) h 0))
  else if negb (maxWriteQueueSize =? -1) && (maxWriteQueueSize <=? inflight s h) then
    r ← co_flush h (net s);
    Some (w ← r; Ok (set_inflight (set_net s w) h 0))
  else Some (Ok s).

(** [handleTrigger]; [pos] is the FIFO's tail.  [operator[]] creates the counter. *)
Definition handleTrigger (pos : Z) (trigger : ProxyTrigger) (s : ProxyService)
    : option (result (ProxyService * ProxyHandlerResult)) :=
  let t := fields trigger in
  match semaphores s !! Z.to_nat (f_semaphoreId t) with
  | None => Some (Throw EStd)
  | Some i =>
      match semObjs s !! i with
      | None => Some (Throw EStd)
      | Some x =>
          let h := hs_connection x in
          let maxWriteQueueSize := co_maxWriteQueueSize h (net s) in
          let s := set_inflight s h (inflight s h) in
          match (s ← do_data s h t; do_flag s i h t) with
          | Throw e => Some (Throw e)
          | Ok s => r ← do_sync pos s h maxWriteQueueSize t; Some (s ← r; Ok (s, Continue))
          end
      end
  end.

(** One entry of [progressFlushes]. *)
Definition progress_one (h : Z) (s : ProxyService) : result ProxyService :=
  match pendingFlushPos s !! h with
  | None => Ok s
  | Some pos =>
      '(w, drained) ← co_progressFlush h (net s);
      let s := set_net s w in
      if (drained : bool)
      then Ok (set_pending (set_flushDone s h (u64 (pos + 1))) (delete h (pendingFlushPos s)))
      else Ok s
  end.

(** [progressFlushes], visiting the map in the given order. *)
Fixpoint progressFlushes_in (order : list Z) (s : ProxyService) : result ProxyService :=
  match order with
  | [] => Ok s
  | h :: order' => s' ← progress_one h s; progressFlushes_in order' s'
  end.

Definition pending_keys (s : ProxyService) : list Z := (map_to_list (pendingFlushPos s)).*1.
Definition progressFlushes (s : ProxyService) : result ProxyService :=
  progressFlushes_in (pending_keys s) s.

(** The drain loop of [stopProxy]. *)
Fixpoint drain_pending (n : nat) (s : ProxyService) : result ProxyService :=
  match n with
  | O => Ok s
  | S n' => if bool_decide (pendingFlushPos s = ∅) then Ok s
            else s' ← progressFlushes s; drain_pending n' s'
  end.

(** The sentinel writes. *)
Definition release_all (s : ProxyService) : ProxyService :=
  mkService (semObjs s) (semaphores s) (memories s) (inflightRequests s) ∅
    (((fun _ => UINT64_MAX) <$> pendingFlushPos s) ∪ flushDonePos s) (net s).

(** [stopProxy] after the proxy thread has been joined. *)
Definition stopProxy_tail (s : ProxyService) : result ProxyService :=
  s' ← drain_pending 1000 s;
  Ok (if bool_decide (pendingFlushPos s' = ∅) then s' else release_all s').
End service.
Arguments ProxyService : clear implicits.

(** ** Properties *)

#[local] Opaque fields.
#[local] Arguments has_type : simpl never.

Section properties.
Context {W : Type} `{ConnLaws W}.

(** The connection a trigger is for. *)
Definition conn_of (s : ProxyService W) (t : ProxyTrigger) : option Z :=
  i ← semaphores s !! Z.to_nat (f_semaphoreId (fields t));
  hs_connection <$> semObjs s !! i.

(** Operations a trigger issues. *)
Definition ops_of (t : ProxyTrigger) : Z :=
  (if has_type (fields t) TriggerData then 1 else 0) +
  (if has_type (fields t) TriggerFlag then 1 else 0).

(** What the branches leave alone. *)
Definition same_tables (s s' : ProxyService W) : Prop :=
  pendingFlushPos s' = pendingFlushPos s /\ flushDonePos s' = flushDonePos s /\
  semaphores s' = semaphores s /\ memories s' = memories s.

Lemma advances_refl h (w : W) : cv_ok w -> advances h 0 w w.
Proof. intros. split; try done; intros; try case_decide; lia. Qed.

Lemma advances_trans h n m (w1 w2 w3 : W) :
  advances h n w1 w2 -> advances h m w2 w3 -> advances h (n + m) w1 w3.
Proof.
  intros [? I1 C1 R1] [? I2 C2 R2]. split; try done.
  - intros h'. rewrite I2, I1. case_decide; lia.
  - intros h'. specialize (C1 h'). specialize (C2 h'). lia.
  - auto.
Qed.

Lemma do_data_spec s h t s' :
  cv_ok (net s) -> do_data s h t = Ok s' ->
  let n := if has_type t TriggerData then 1 else 0 in
  advances h n (net s) (net s') /\ same_tables s s' /\ semObjs s' = semObjs s /\
  inflight s' h = inflight s h + n /\
  forall h', co_maxWriteQueueSize h' (net s') = co_maxWriteQueueSize h' (net s) /\
             (h' <> h -> inflight s' h' = inflight s h').
Proof.
  intros Hok Hd. unfold do_data in Hd. destruct (has_type t TriggerData).
  - destruct (memories s !! _) as [d|]; [|done]. destruct (memories s !! _) as [x|]; [|done].
    apply bind_ok_inv in Hd as (w & Hw & Hd). injection Hd as <-. simpl.
    unfold inflight, set_inflight. simpl. rewrite lookup_insert_eq.
    split_and!; [by eapply cl_write|done|done|done|]. intros h'.
    split; [by eapply cl_max_write|]. intros. by rewrite lookup_insert_ne.
  - inv_ok. split_and!; [by apply advances_refl|done|done|lia|done].
Qed.

Lemma do_flag_spec s i h t s' :
  cv_ok (net s) -> do_flag s i h t = Ok s' -> hs_connection <$> semObjs s !! i = Some h ->
  let n := if has_type t TriggerFlag then 1 else 0 in
  advances h n (net s) (net s') /\ same_tables s s' /\
  (forall j, hs_connection <$> semObjs s' !! j = hs_connection <$> semObjs s !! j) /\
  inflight s' h = inflight s h + n /\
  forall h', co_maxWriteQueueSize h' (net s') = co_maxWriteQueueSize h' (net s) /\
             (h' <> h -> inflight s' h' = inflight s h').
Proof.
  intros Hok Hd Hh. unfold do_flag in Hd. destruct (has_type t TriggerFlag).
  - destruct (semObjs s !! i) as [x|] eqn:Hx; [|done]. simpl in Hh. injection Hh as Hh.
    apply bind_ok_inv in Hd as (s1 & Hs & Hd). injection Hd as <-.
    unfold sem_signal_host in Hs. apply bind_ok_inv in Hs as (w & Hw & Hs). injection Hs as <-.
    rewrite Hh in Hw. simpl. split_and!; [by eapply cl_update|done| | |].
    + intros j. destruct (decide (j = i)) as [->|]; [|by rewrite lookup_insert_ne].
      rewrite lookup_insert_eq, Hx. done.
    + unfold inflight, set_inflight. simpl. by rewrite lookup_insert_eq.
    + intros h'. split; [by eapply cl_max_update|]. intros.
      unfold inflight, set_inflight. simpl. by rewrite lookup_insert_ne.
  - inv_ok. split_and!; [by apply advances_refl|done|done|lia|done].
Qed.

(** What [handleTrigger] does on the network and in the tables. *)
Record handled (pos : Z) (t : ProxyTrigger) (h : Z) (s s' : ProxyService W) : Prop := {
  hd_adv : advances h (ops_of t) (net s) (net s');
  hd_done : flushDonePos s' = flushDonePos s;
  hd_ids : semaphores s' = semaphores s /\ memories s' = memories s;
  hd_frame : forall h', co_maxWriteQueueSize h' (net s') = co_maxWriteQueueSize h' (net s) /\
                        (h' <> h -> inflight s' h' = inflight s h');
  hd_pending :
    if has_type (fields t) TriggerSync
    then pendingFlushPos s' = <[h := pos]> (pendingFlushPos s) /\
         requested (net s') h (issued (net s') h) /\ inflight s' h = 0
    else pendingFlushPos s' = pendingFlushPos s /\
         let n := inflight s h + ops_of t in
         let max := co_maxWriteQueueSize h (net s) in
         if negb (max =? -1) && (max <=? n)
         then inflight s' h = 0 /\ completed (net s') h = issued (net s') h
         else inflight s' h = n
}.

Lemma handleTrigger_spec pos t s s' r :
  cv_ok (net s) -> handleTrigger pos t s = Some (Ok (s', r)) ->
  r = Continue /\ exists h, conn_of s t = Some h /\ handled pos t h s s'.
Proof.
  intros Hok Hh. unfold handleTrigger in Hh. unfold conn_of.
  destruct (semaphores s !! _) as [i|]; [|done]. cbn [mbind option_bind].
  destruct (semObjs s !! i) as [x|] eqn:Hx; [|done]. set (h := hs_connection x) in *.
  set (s0 := set_inflight s h (inflight s h)) in *.
  assert (E0 : inflight s0 h = inflight s h).
  { unfold s0, inflight at 1, set_inflight. simpl. by rewrite lookup_insert_eq. }
  destruct (do_data s0 h (fields t)) as [s1|] eqn:Hd; cbn [mbind result_bind] in Hh; [|done].
  destruct (do_flag s1 i h (fields t)) as [s2|] eqn:Hf; [|done].
  destruct (do_data_spec s0 h (fields t) s1 Hok Hd) as (A1 & (T1 & T2 & T3 & T4) & T5 & N1 & M1).
  destruct (do_flag_spec s1 i h (fields t) s2 (adv_ok _ _ _ _ A1) Hf) as (A2 & (U1 & U2 & U3 & U4) & U5 & N2 & M2).
  { rewrite T5. simpl. by rewrite Hx. }
  pose proof (advances_trans _ _ _ _ _ _ A1 A2) as A. fold (ops_of t) in A. change (net s0) with (net s) in *.
  assert (N : inflight s2 h = inflight s h + ops_of t) by (unfold ops_of; lia).
  unfold do_sync in Hh. rewrite N in Hh.
  assert (Tp : pendingFlushPos s2 = pendingFlushPos s) by (rewrite U1, T1; done).
  assert (Td : flushDonePos s2 = flushDonePos s) by (rewrite U2, T2; done).
  assert (Ti : semaphores s2 = semaphores s /\ memories s2 = memories s)
    by (rewrite U3, T3, U4, T4; done).
  assert (Tf : forall h', co_maxWriteQueueSize h' (net s2) = co_maxWriteQueueSize h' (net s) /\
                          (h' <> h -> inflight s2 h' = inflight s h')).
  { intros h'. destruct (M1 h') as [E1 F1], (M2 h') as [E2 F2]. split; [congruence|].
    intros Hne. rewrite F2, F1 by done. unfold s0, inflight, set_inflight. simpl.
    by rewrite lookup_insert_ne. }
  destruct (has_type (fields t) TriggerSync) eqn:Hs.
  - destruct (co_requestFlush h (net s2)) as [[w|e]|] eqn:Hr; cbn [mbind option_bind result_bind] in Hh; simplify_eq.
    destruct (cl_request _ _ _ (adv_ok _ _ _ _ A) Hr) as [A3 R3].
    split; [done|]. exists h. split; [done|].
    split; simpl; try done.
    + rewrite <- (Z.add_0_r (ops_of t)). by eapply advances_trans.
    + intros h'. destruct (Tf h') as [E1 F1]. split; [by rewrite (cl_max_request _ _ _ h' Hr)|].
      intros Hne. rewrite <- F1 by done. unfold inflight, set_inflight. simpl. by rewrite lookup_insert_ne.
    + rewrite Hs, Tp. split; [done|]. split.
      * rewrite (adv_issued _ _ _ _ A3 h), decide_True, Z.add_0_r by done. done.
      * unfold inflight, set_inflight. simpl. by rewrite lookup_insert_eq.
  - destruct (negb (co_maxWriteQueueSize h (net s) =? -1) && _) eqn:Hm.
    + destruct (co_flush h (net s2)) as [[w|e]|] eqn:Hr; cbn [mbind option_bind result_bind] in Hh; simplify_eq.
      destruct (cl_flush _ _ _ (adv_ok _ _ _ _ A) Hr) as [A3 C3].
      split; [done|]. exists h. split; [done|]. split; simpl; try done.
      * rewrite <- (Z.add_0_r (ops_of t)). by eapply advances_trans.
      * intros h'. destruct (Tf h') as [E1 F1]. split; [by rewrite (cl_max_flush _ _ _ h' Hr)|].
        intros Hne. rewrite <- F1 by done. unfold inflight, set_inflight. simpl. by rewrite lookup_insert_ne.
      * rewrite Hs. split; [done|]. rewrite Hm. split; [|done].
        unfold inflight, set_inflight. simpl. by rewrite lookup_insert_eq.
    + cbn [mbind option_bind result_bind] in Hh. simplify_eq. split; [done|]. exists h. split; [done|]. split; try done.
      rewrite Hs. split; [done|]. cbv zeta. rewrite Hm. done.
Qed.

(** *** Runs of the service *)

(** A service just built: no flush was ever requested. *)
Definition svc_fresh (s : ProxyService W) : Prop :=
  cv_ok (net s) /\ pendingFlushPos s = ∅ /\ forall h, flushDone s h = 0.

(** The steps of the proxy thread.  The log has, for every FIFO position handled,
    the connection and the operations issued on it up to and including that
    position. *)
Inductive svc_reach : list (Z * Z) -> ProxyService W -> Prop :=
  | sr_start s : svc_fresh s -> svc_reach [] s
  | sr_trigger log s t h s' r :
      svc_reach log s -> conn_of s t = Some h ->
      handleTrigger (Z.of_nat (length log)) t s = Some (Ok (s', r)) ->
      svc_reach (log ++ [(h, issued (net s') h)]) s'
  | sr_progress log s order s' :
      svc_reach log s -> progressFlushes_in order s = Ok s' -> svc_reach log s'.

(** Everything logged for [h] at a position up to [p] is at most [k]. *)
Definition logged_upto (log : list (Z * Z)) (h p k : Z) : Prop :=
  forall i k', log !! i = Some (h, k') -> Z.of_nat i <= p -> k' <= k.

Record svc_inv (log : list (Z * Z)) (s : ProxyService W) : Prop := {
  si_ok : cv_ok (net s);
  si_log : forall h p, logged_upto log h p (issued (net s) h);
  si_pending : forall h p, pendingFlushPos s !! h = Some p ->
    0 <= p < Z.of_nat (length log) /\ exists k, requested (net s) h k /\ logged_upto log h p k;
  si_range : forall h, flushDone s h <= Z.of_nat (length log);
  si_done : forall h, logged_upto log h (flushDone s h - 1) (completed (net s) h)
}.

Lemma logged_upto_snoc log h h0 k0 p k :
  logged_upto log h p k -> (h = h0 -> Z.of_nat (length log) <= p -> k0 <= k) ->
  logged_upto (log ++ [(h0, k0)]) h p k.
Proof.
  intros Hl Hn i k' Hi Hp. destruct (decide (i < length log)%nat) as [Hlt|Hge].
  - rewrite lookup_app_l in Hi by done. eauto.
  - assert (i = length log) as ->.
    { apply lookup_lt_Some in Hi. rewrite length_app in Hi. simpl in Hi. lia. }
    rewrite lookup_app_r, Nat.sub_diag in Hi by lia. simplify_eq/=. auto.
Qed.

Lemma logged_upto_mono log h p k k' : logged_upto log h p k -> k <= k' -> logged_upto log h p k'.
Proof. intros Hl Hk i x Hi Hp. specialize (Hl i x Hi Hp). lia. Qed.

(** The invariant only looks at the network through the view. *)
Lemma svc_inv_net log s w h :
  svc_inv log s -> advances h 0 (net s) w -> svc_inv log (set_net s w).
Proof.
  intros [Hok Hl Hp Hr Hd] [Aok Ai Ac Ar]. split; simpl; try done.
  - intros h' p. rewrite Ai. eapply logged_upto_mono; [apply Hl|]. case_decide; lia.
  - intros h' p Hh. destruct (Hp h' p Hh) as [? (k & Hk & Hu)]. eauto 10.
  - intros h'. eapply logged_upto_mono; [apply Hd|apply Ac].
Qed.

Lemma svc_inv_trigger log s t h s' :
  svc_inv log s -> handled (Z.of_nat (length log)) t h s s' ->
  svc_inv (log ++ [(h, issued (net s') h)]) s'.
Proof.
  intros [Hok Hl Hp Hr Hd] [[Aok Ai Ac Ar] Td _ _ Tp].
  assert (Hops : 0 <= ops_of t) by (unfold ops_of; repeat case_match; lia).
  assert (Efd : forall h', flushDone s' h' = flushDone s h') by (intros h'; unfold flushDone; by rewrite Td).
  assert (Hkeep : forall h' p, pendingFlushPos s !! h' = Some p ->
    0 <= p < Z.of_nat (length (log ++ [(h, issued (net s') h)])) /\
    exists k, requested (net s') h' k /\ logged_upto (log ++ [(h, issued (net s') h)]) h' p k).
  { intros h' p Hh. destruct (Hp h' p Hh) as [? (k & Hk & Hu)]. rewrite length_app. simpl.
    split; [lia|]. exists k. split; [auto|]. apply logged_upto_snoc; [done|lia]. }
  split.
  - done.
  - intros h' p. apply logged_upto_snoc; [|by intros ->].
    eapply logged_upto_mono; [apply Hl|]. rewrite Ai. case_decide; lia.
  - destruct (has_type (fields t) TriggerSync).
    + destruct Tp as (-> & Hreq & _). intros h' p Hh.
      apply lookup_insert_Some in Hh as [[<- <-]|[_ Hh]]; [|by apply Hkeep].
      rewrite length_app. simpl. split; [lia|]. exists (issued (net s') h). split; [done|].
      apply logged_upto_snoc; [|done]. eapply logged_upto_mono; [apply Hl|].
      rewrite Ai, decide_True by done. lia.
    + destruct Tp as [-> _]. apply Hkeep.
  - intros h'. rewrite Efd, length_app. specialize (Hr h'). lia.
  - intros h'. rewrite Efd. apply logged_upto_snoc; [|specialize (Hr h'); lia].
    eapply logged_upto_mono; [apply Hd|apply Ac].
Qed.

Lemma svc_inv_progress_one log s h s' :
  svc_inv log s -> Z.of_nat (length log) < 2 ^ 64 -> progress_one h s = Ok s' -> svc_inv log s'.
Proof.
  intros I Hb Hp. unfold progress_one in Hp. destruct (pendingFlushPos s !! h) as [p|] eqn:Hh; [|by inv_ok].
  apply bind_ok_inv in Hp as ([w b] & Hw & Hp).
  destruct (cl_progress _ _ _ _ (si_ok _ _ I) Hw) as [A Hdone].
  pose proof (svc_inv_net _ _ _ _ I A) as I'. destruct b; inv_ok; [|done].
  destruct (si_pending _ _ I _ _ Hh) as [Hpr (k & Hk & Hu)]. specialize (Hdone eq_refl k Hk).
  destruct I' as [Hok Hl Hpd Hr Hd]. rewrite u64_small by lia. split; simpl in *; try done.
  - intros h' p' Hh'. apply lookup_delete_Some in Hh' as [_ Hh']. auto.
  - intros h'. unfold flushDone. simpl. destruct (decide (h' = h)) as [->|].
    + rewrite lookup_insert_eq. simpl. lia.
    + rewrite lookup_insert_ne by done. apply Hr.
  - intros h'. unfold flushDone. simpl. destruct (decide (h' = h)) as [->|].
    + rewrite lookup_insert_eq. simpl. replace (p + 1 - 1) with p by lia.
      by eapply logged_upto_mono.
    + rewrite lookup_insert_ne by done. apply Hd.
Qed.

Lemma svc_inv_progress order log s s' :
  svc_inv log s -> Z.of_nat (length log) < 2 ^ 64 -> progressFlushes_in order s = Ok s' -> svc_inv log s'.
Proof.
  revert s. induction order as [|h order IH]; intros s I Hb Hp; simpl in Hp; [by inv_ok|].
  apply bind_ok_inv in Hp as (s1 & Hone & Hp). eapply IH; [|done|done]. by eapply svc_inv_progress_one.
Qed.

Lemma svc_reach_inv log s : svc_reach log s -> Z.of_nat (length log) < 2 ^ 64 -> svc_inv log s.
Proof.
  induction 1 as [s (Hok & Hp & Hf)|log s t h s' r Hr IH Hc Ht|log s order s' Hr IH Hp]; intros Hb.
  - split; try done.
    + intros h p. rewrite Hp, lookup_empty. done.
    + intros h. rewrite Hf. done.
  - rewrite length_app in Hb. simpl in Hb. specialize (IH ltac:(lia)).
    destruct (handleTrigger_spec _ _ _ _ _ (si_ok _ _ IH) Ht) as (_ & h' & Hc' & Hh).
    rewrite Hc in Hc'. injection Hc' as <-. by eapply svc_inv_trigger.
  - by eapply svc_inv_progress; [apply IH| |].
Qed.

(** *** Publication and shutdown *)

(** A connection was drained and its position published, or is still pending. *)
Definition released (s s' : ProxyService W) (h : Z) : Prop :=
  match pendingFlushPos s !! h with
  | None => pendingFlushPos s' !! h = None /\ flushDone s' h = flushDone s h
  | Some p => pendingFlushPos s' !! h = Some p /\ flushDone s' h = flushDone s h \/
              pendingFlushPos s' !! h = None /\ flushDone s' h = u64 (p + 1)
  end.

Lemma released_trans s1 s2 s3 h : released s1 s2 h -> released s2 s3 h -> released s1 s3 h.
Proof.
  unfold released. intros Hone Htwo. destruct (pendingFlushPos s1 !! h) as [p|].
  - destruct Hone as [[E F]|[E F]]; rewrite E in Htwo; [naive_solver congruence|].
    destruct Htwo. right. split; congruence.
  - destruct Hone as [E F]. rewrite E in Htwo. destruct Htwo. split; congruence.
Qed.

Lemma progress_one_released h0 s s' h : progress_one h0 s = Ok s' -> released s s' h.
Proof.
  intros Hp. unfold progress_one in Hp. unfold released.
  destruct (pendingFlushPos s !! h0) as [p0|] eqn:E0.
  2:{ inv_ok. destruct (pendingFlushPos s' !! h); auto. }
  apply bind_ok_inv in Hp as ([w b] & _ & Hp). destruct b; inv_ok; simpl.
  2:{ destruct (pendingFlushPos s !! h); auto. }
  unfold flushDone. simpl. destruct (decide (h = h0)) as [->|Hne].
  - rewrite E0, lookup_delete_eq, lookup_insert_eq. auto.
  - rewrite lookup_delete_ne, lookup_insert_ne by done. destruct (pendingFlushPos s !! h); auto.
Qed.

Lemma progress_released order s s' h : progressFlushes_in order s = Ok s' -> released s s' h.
Proof.
  revert s. induction order as [|h0 order IH]; intros s Hp; simpl in Hp.
  - inv_ok. unfold released. destruct (pendingFlushPos s' !! h); auto.
  - apply bind_ok_inv in Hp as (s1 & Hone & Hp).
    eapply released_trans; [by eapply progress_one_released|by apply IH].
Qed.

Lemma drain_released n s s' h : drain_pending n s = Ok s' -> released s s' h.
Proof.
  revert s. induction n as [|n IH]; intros s Hp; simpl in Hp.
  - inv_ok. unfold released. destruct (pendingFlushPos s' !! h); auto.
  - case_bool_decide; [inv_ok; unfold released; destruct (pendingFlushPos s' !! h); auto|].
    apply bind_ok_inv in Hp as (s1 & Hone & Hp).
    eapply released_trans; [by eapply progress_released|by apply IH].
Qed.

(** *** Flow control *)

(** Triggers that never ask for a flush. *)
Definition no_sync (t : ProxyTrigger) : Prop := has_type (fields t) TriggerSync = false.

Definition outstanding (s : ProxyService W) (h : Z) : Z := issued (net s) h - completed (net s) h.

(** Flow control keeps its promise on every connection. *)
Definition flow_ok (s : ProxyService W) : Prop :=
  forall h, outstanding s h <= inflight s h /\
    (0 < co_maxWriteQueueSize h (net s) -> inflight s h < co_maxWriteQueueSize h (net s)).

Lemma flow_control_step pos t h s s' :
  no_sync t -> handled pos t h s s' -> flow_ok s -> flow_ok s'.
Proof.
  unfold no_sync. intros Hn [[_ Ai Ac _] _ _ Tf Tp] Hf h'. rewrite Hn in Tp. destruct Tp as [_ Tp].
  specialize (Ai h'). specialize (Ac h'). destruct (Tf h') as [-> Hne]. specialize (Hf h').
  unfold outstanding in *. destruct (decide (h' = h)) as [->|Hd].
  2:{ rewrite Hne by done. lia. }
  simpl in Tp. destruct (Z.eqb_spec (co_maxWriteQueueSize h (net s)) (-1)) as [Em|Em]; simpl in Tp; [lia|].
  destruct (Z.leb_spec (co_maxWriteQueueSize h (net s)) (inflight s h + ops_of t)); [|lia].
  destruct Tp as [-> ->]. lia.
Qed.

(** Triggers handled one after the other, from FIFO position [pos] on. *)
Fixpoint handle_list (pos : Z) (ts : list ProxyTrigger) (s : ProxyService W)
    : option (result (ProxyService W)) :=
  match ts with
  | [] => Some (Ok s)
  | t :: ts' =>
      match handleTrigger pos t s with
      | Some (Ok (s', _)) => handle_list (pos + 1) ts' s'
      | Some (Throw e) => Some (Throw e)
      | None => None
      end
  end.
End properties.

(** ** Results *)

(** C1: a GPU thread whose [waitFlush] passes at FIFO position [p] can rely on it:
    every operation that triggers up to and including position [p] issued on that
    connection has completed.  This holds in every run of the proxy thread, for
    every kind of connection, whatever the order in which the pending map is
    visited. *)
Theorem flush_done_sound {W} `{ConnLaws W} log (s : ProxyService W) p h k :
  svc_reach log s -> Z.of_nat (length log) < 2 ^ 64 -> log !! p = Some (h, k) ->
  waitFlush [flushDone s h] (Z.of_nat p) (-1) = Some true -> k <= completed (net s) h.
Proof.
  intros Hr Hb Hp Hw. destruct (svc_reach_inv _ _ Hr Hb) as [_ _ _ _ Hd].
  unfold waitFlush, waitFlush_spin in Hw.
  destruct (Z.leb_spec (flushDone s h) (Z.of_nat p)); [done|]. apply (Hd h p k Hp). lia.
Qed.

(** [handleTrigger] on every branch: it goes on, issues exactly the data and
    flag operations of the trigger on the semaphore's connection; with a sync bit
    it records this position as the pending flush, after a request that covers
    everything issued, and restarts the request count; without one it counts the
    operations and flushes once the queue bound is reached; ids keep their
    meaning. *)
Theorem handle_trigger_branches {W} `{ConnLaws W} pos t (s s' : ProxyService W) r :
  cv_ok (net s) -> handleTrigger pos t s = Some (Ok (s', r)) ->
  r = Continue /\ semaphores s' = semaphores s /\ memories s' = memories s /\
  flushDonePos s' = flushDonePos s /\
  exists h, conn_of s t = Some h /\
    (forall h', issued (net s') h' = issued (net s) h' + (if decide (h' = h) then ops_of t else 0)) /\
    if has_type (fields t) TriggerSync
    then pendingFlushPos s' = <[h := pos]> (pendingFlushPos s) /\
         requested (net s') h (issued (net s') h) /\ inflight s' h = 0
    else pendingFlushPos s' = pendingFlushPos s /\
         (if negb (co_maxWriteQueueSize h (net s) =? -1) &&
             (co_maxWriteQueueSize h (net s) <=? inflight s h + ops_of t)
          then inflight s' h = 0 /\ completed (net s') h = issued (net s') h
          else inflight s' h = inflight s h + ops_of t).
Proof.
  intros Hok Ht. destruct (handleTrigger_spec _ _ _ _ _ Hok Ht) as (-> & h & Hc & Hh).
  destruct Hh as [A Td [Ts Tm] _ Tp]. repeat (split; [done|]). exists h. repeat (split; [done|]).
  split; [apply (adv_issued _ _ _ _ A)|exact Tp].
Qed.

(** when [stopProxy] returns, no flush is left pending and every GPU thread
    still waiting for one of them is let go. *)
Theorem stop_releases_waiters {W} `{ConnOps W} (s s' : ProxyService W) :
  stopProxy_tail s = Ok s' ->
  pendingFlushPos s' = ∅ /\
  forall h p, pendingFlushPos s !! h = Some p -> 0 <= p < UINT64_MAX ->
    waitFlush [flushDone s' h] p (-1) = Some true.
Proof.
  unfold stopProxy_tail. intros Hs. apply bind_ok_inv in Hs as (s1 & Hd & Hs). injection Hs as <-.
  split; [by case_bool_decide|]. intros h p Hp Hb.
  pose proof (drain_released _ _ _ h Hd) as Hr. unfold released in Hr. rewrite Hp in Hr.
  assert (p < flushDone (if bool_decide (pendingFlushPos s1 = ∅) then s1 else release_all s1) h) as Hlt.
  { unfold UINT64_MAX in Hb. case_bool_decide as He.
    - rewrite He, lookup_empty in Hr. destruct Hr as [[? _]|[_ ->]]; [done|]. rewrite u64_small by lia. lia.
    - unfold flushDone, release_all. simpl. destruct Hr as [[E _]|[E F]].
      + rewrite lookup_union_l' by (rewrite lookup_fmap, E; by eexists).
        rewrite lookup_fmap, E. simpl. unfold UINT64_MAX. lia.
      + rewrite lookup_union_r by (by rewrite lookup_fmap, E).
        unfold flushDone in F. rewrite F, u64_small by lia. lia. }
  unfold waitFlush, waitFlush_spin. by rewrite (proj2 (Z.leb_gt _ _) Hlt).
Qed.

(** C39: as long as no trigger asks for a flush, the service keeps the operations
    outstanding on each connection below its write-queue bound. *)
Theorem flow_control_bound {W} `{ConnLaws W} ts pos (s s' : ProxyService W) :
  cv_ok (net s) -> flow_ok s -> Forall no_sync ts -> handle_list pos ts s = Some (Ok s') ->
  flow_ok s' /\ forall h, 0 < co_maxWriteQueueSize h (net s') ->
    outstanding s' h < co_maxWriteQueueSize h (net s').
Proof.
  intros Hok Hf Hn Hr. assert (Hf' : flow_ok s').
  { revert pos s Hok Hf Hn Hr. induction ts as [|t ts IH]; intros pos s Hok Hf Hn Hr; simpl in Hr; [by simplify_eq|].
    apply Forall_cons in Hn as [Ht Hn].
    destruct (handleTrigger pos t s) as [[[s1 r]|]|] eqn:E; simplify_eq.
    destruct (handleTrigger_spec _ _ _ _ _ Hok E) as (_ & h & _ & Hh).
    eapply IH; [apply (adv_ok _ _ _ _ (hd_adv _ _ _ _ _ Hh))| |done|done].
    by eapply flow_control_step. }
  split; [done|]. intros h Hm. destruct (Hf' h) as [? Hi]. specialize (Hi Hm). lia.
Qed.

(** *** A concrete service *)

#[local] Transparent fields.

Definition demo_world (wq : Z) (answers : list cq_answer) : world :=
  mkWorld ∅ [] (<[7 := mkConn wq (CIB (demo_ib answers))]> ∅).
Definition demo_localMr (i : IbMrInfo) : IbMr := mkIbMr (mr_addr i) 3.
#[local] Instance demo_ops : ConnOps world := world_ops demo_localMr.

Definition demo_service (wq : Z) (answers : list cq_answer) : ProxyService world :=
  let s := mkService ∅ [] [] ∅ ∅ ∅ (demo_world wq answers) in
  let s := (addSemaphore s 1 7 (ib_mem false IB1 4096)).1 in
  let s := (addMemory s (ib_mem true IB0 8192)).1 in
  (addMemory s (ib_mem false IB1 4096)).1.

Definition demo_puts : list ProxyTrigger := [port_put 0 1 0 0 0 16; port_putWithSignal 0 1 8 0 8 4].
Definition demo_sync_put : ProxyTrigger := port_putWithSignalAndFlush 0 1 0 0 0 16.

Lemma demo_fresh wq answers : svc_fresh (demo_service wq answers).
Proof.
  split; [|done]. split; simpl.
  - intros h c Hc. destruct (decide (h = 7)) as [->|].
    + rewrite lookup_insert_eq in Hc. simpl in Hc. simplify_eq. split; [done|]. exists 0. by split.
    + by rewrite lookup_insert_ne, lookup_empty in Hc by done.
  - done.
  - done.
Qed.

Definition ok_or {A} (d : A) (r : option (result A)) : A :=
  match r with Some (Ok a) => a | _ => d end.

Definition demo_two_done : cq_answer := mkAnswer (Some [true]) 0.
Definition demo_synced : ProxyService world :=
  let s := demo_service 8 [demo_two_done; demo_two_done] in ok_or s (handle_list 0 [demo_sync_put] s).
Definition demo_polled : ProxyService world :=
  ok_or demo_synced (Some (progressFlushes_in [7] demo_synced)).
Definition demo_drained : ProxyService world :=
  ok_or demo_polled (Some (progressFlushes_in [7] demo_polled)).

Lemma demo_reach : svc_reach [(7, 2)] demo_drained.
Proof.
  assert (H1 : svc_reach [(7, 2)] demo_synced).
  { replace [(7, 2)] with ([] ++ [(7, issued (net demo_synced) 7)]) by (vm_compute; reflexivity).
    apply (sr_trigger [] (demo_service 8 [demo_two_done; demo_two_done]) demo_sync_put 7 demo_synced Continue).
    - constructor. apply demo_fresh.
    - vm_compute. reflexivity.
    - vm_compute. reflexivity. }
  assert (H2 : svc_reach [(7, 2)] demo_polled).
  { apply (sr_progress _ _ [7] _ H1). vm_compute. reflexivity. }
  apply (sr_progress _ _ [7] _ H2). vm_compute. reflexivity.
Qed.

Lemma flush_done_sound_witness :
  waitFlush [flushDone demo_synced 7] 0 (-1) = None /\
  waitFlush [flushDone demo_drained 7] 0 (-1) = Some true /\ 2 <= completed (net demo_drained) 7.
Proof.
  split; [vm_compute; reflexivity|]. split; [vm_compute; reflexivity|].
  apply (flush_done_sound [(7, 2)] demo_drained 0%nat 7 2);
    [exact demo_reach|simpl; lia|reflexivity|vm_compute; reflexivity].
Defined.

Lemma handle_trigger_branches_witness :
  conn_of (demo_service 8 []) demo_sync_put = Some 7 /\
  exists s', handleTrigger 5 demo_sync_put (demo_service 8 []) = Some (Ok (s', Continue)) /\
    semaphores s' = [1] /\ flushDonePos s' = ∅.
Proof.
  split; [vm_compute; reflexivity|].
  destruct (handleTrigger 5 demo_sync_put (demo_service 8 [])) as [[[s' r]|]|] eqn:E;
    [|exfalso; vm_compute in E; discriminate E|exfalso; vm_compute in E; discriminate E].
  destruct (handle_trigger_branches 5 demo_sync_put (demo_service 8 []) s' r (proj1 (demo_fresh 8 [])) E)
    as (-> & Hs & _ & Hd & _).
  exists s'. split; [reflexivity|]. split; [exact Hs|exact Hd].
Defined.

Lemma stop_releases_waiters_witness :
  exists s', stopProxy_tail demo_synced = Ok s' /\ pendingFlushPos demo_synced !! 7 = Some 0 /\
    pendingFlushPos s' = ∅ /\ waitFlush [flushDone s' 7] 0 (-1) = Some true.
Proof.
  destruct (stopProxy_tail demo_synced) as [s'|] eqn:E; [|exfalso; vm_compute in E; discriminate E].
  exists s'. destruct (stop_releases_waiters demo_synced s' E) as [Hp Hw].
  assert (Hd : pendingFlushPos demo_synced !! 7 = Some 0) by (vm_compute; reflexivity).
  split; [reflexivity|]. split; [exact Hd|]. split; [exact Hp|].
  apply Hw; [exact Hd|unfold UINT64_MAX; lia].
Defined.

Lemma demo_flow_ok wq answers : 0 < wq -> flow_ok (demo_service wq answers).
Proof.
  intros Hwq h. unfold outstanding, inflight. simpl. unfold w_issued, w_completed, Connection_getMaxWriteQueueSize.
  simpl. destruct (decide (h = 7)) as [->|].
  - rewrite lookup_insert_eq, lookup_empty. simpl. change (num_signaled []) with 0. unfold getNumSendCqItems.
    simpl. lia.
  - rewrite lookup_insert_ne, !lookup_empty by done. simpl. lia.
Qed.

Lemma flow_control_bound_witness :
  exists s', handle_list 0 demo_puts (demo_service 4 []) = Some (Ok s') /\
    outstanding s' 7 < 4 /\ outstanding s' 7 = 3.
Proof.
  destruct (handle_list 0 demo_puts (demo_service 4 [])) as [[s'|]|] eqn:E;
    [|exfalso; vm_compute in E; discriminate E|exfalso; vm_compute in E; discriminate E].
  exists s'. split; [reflexivity|].
  assert (Em : co_maxWriteQueueSize 7 (net s') = 4) by (vm_compute in E; injection E as <-; reflexivity).
  split; [|vm_compute in E; injection E as <-; reflexivity].
  rewrite <- Em. refine (proj2 (flow_control_bound demo_puts 0 (demo_service 4 []) s' _ _ _ E) 7 _).
  - apply demo_fresh.
  - apply demo_flow_ok. lia.
  - repeat constructor.
  - rewrite Em. lia.
Defined.

(** a trigger with a sync bit restarts the request count although an
    InfiniBand flush request waits for nothing, so the outstanding operations of
    a connection exceed its write-queue bound: with a bound of 2 (the size of the
    completion queue, when not configured), four are outstanding after two
    flushing puts and the service counts none. *)
Theorem sync_defeats_flow_control :
  exists s', handle_list 0 [demo_sync_put; demo_sync_put] (demo_service 2 []) = Some (Ok s') /\
    co_maxWriteQueueSize 7 (net s') = 2 /\ outstanding s' 7 = 4 /\ inflight s' 7 = 0.
Proof. eexists. split; [vm_compute; reflexivity|]. split; [|split]; vm_compute; reflexivity. Qed.

(** the id [addMemory] returns denotes the memory just added, earlier ids keep
    their memories, and [nextMemoryId] is the id the next [addMemory] returns; it
    reserves nothing, so a second request, whatever its count, gets the same id. *)
Theorem memory_ids {W} (s : ProxyService W) m count count' :
  Z.of_nat (length (memories s)) < 2 ^ 32 -> count <> 0 -> count' <> 0 ->
  let '(s', id) := addMemory s m in
  memories s' !! Z.to_nat id = Some m /\
  (forall i x, memories s !! i = Some x -> memories s' !! i = Some x) /\
  nextMemoryId s count = Ok id /\ nextMemoryId s count' = Ok id.
Proof.
  intros Hb Hc Hc'. unfold addMemory, nextMemoryId. simpl. rewrite length_app. simpl.
  rewrite (proj2 (Z.eqb_neq _ _) Hc), (proj2 (Z.eqb_neq _ _) Hc').
  replace (Z.of_nat (length (memories s) + 1) - 1) with (Z.of_nat (length (memories s))) by lia.
  rewrite u32_small by lia. rewrite Nat2Z.id. split_and!; try done.
  - by rewrite lookup_app_r, Nat.sub_diag by lia.
  - intros i x Hi. by apply lookup_app_l_Some.
Qed.

Lemma memory_ids_witness :
  memories (addMemory (demo_service 4 []) (ib_mem true IB0 0)).1 !! 2%nat = Some (ib_mem true IB0 0) /\
  nextMemoryId (demo_service 4 []) 3 = Ok 2.
Proof.
  destruct (memory_ids (demo_service 4 []) (ib_mem true IB0 0) 3 1) as (H1 & _ & H3 & _);
    [simpl; lia|lia|lia|]. split; [exact H1|exact H3].
Defined.
