(* ===== verification/Communicator.v ===== *)
(** * Communicator: ordered receives and local memories

    Models src/core/communicator.cc.  [recvMemory], [connect] and
    [buildSemaphore] return deferred futures: the receive happens when the future
    is waited for, and a future first waits for the previous unfinished one of the
    same peer and tag, so that messages go to futures in the order the futures
    were made.  Sending to the own rank goes through a list of promises instead.

    A future is an index in the list of futures made so far (its shared state); a
    deferred one holds what its closure captured.  The bootstrap delivers the
    messages of a peer and tag in order: [inbox] holds those not yet received. *)

From S2P Require Import Prelude Errors Core RegisteredMemory Endpoint Connect Semaphore.
Local Open Scope Z_scope.

(** The [func] of a deferred future, by the call that made it. *)
Inductive recv_kind :=
  | RecvMemory
  | RecvConnection (localEndpoint : EndpointImpl)
  | RecvSemaphore (localStub : StubImpl).

Inductive value :=
  | VMemory (m : Impl)
  | VConnection (k : ConnKind)
  | VSemaphore (local : StubImpl) (remote : Impl).

(** Shared state of a future: [f_prev] is the captured [lastRecvItem], [f_value]
    the outcome once the deferred function has run. *)
Record future := mkFuture {
  f_key : Z * Z; f_kind : recv_kind; f_prev : option nat; f_value : option (result value)
}.

Record Comm := mkComm {
  rank : Z;
  futures : list future;
  lastRecvItems : gmap (Z * Z) nat;
  connectionInfos : gmap (bool * nat) (Z * Z);  (* by connection: [(true, i)] came out of future
                                                   [i], [(false, j)] is the [j]-th one to itself *)
  selfConns : nat;
  localFutures : list (option Impl);            (* shared states of the local promises *)
  localRecvMemories : gmap Z (list nat);        (* promises by tag, as indices into them *)
  inbox : gmap (Z * Z) (list (list Z));
  outbox : gmap (Z * Z) (list (list Z))
}.

Definition set_futures (c : Comm) (fs : list future) (last : gmap (Z * Z) nat) : Comm :=
  mkComm (rank c) fs last (connectionInfos c) (selfConns c) (localFutures c) (localRecvMemories c) (inbox c) (outbox c).
Definition set_inbox (c : Comm) (b : gmap (Z * Z) (list (list Z))) : Comm :=
  mkComm (rank c) (futures c) (lastRecvItems c) (connectionInfos c) (selfConns c) (localFutures c)
    (localRecvMemories c) b (outbox c).
Definition set_local (c : Comm) (lf : list (option Impl)) (lm : gmap Z (list nat)) : Comm :=
  mkComm (rank c) (futures c) (lastRecvItems c) (connectionInfos c) (selfConns c) lf lm (inbox c) (outbox c).
Definition add_info (c : Comm) (i : bool * nat) (k : Z * Z) (n : nat) : Comm :=
  mkComm (rank c) (futures c) (lastRecvItems c) (<[i := k]> (connectionInfos c)) n (localFutures c)
    (localRecvMemories c) (inbox c) (outbox c).

Definition messages (c : Comm) (k : Z * Z) : list (list Z) := default [] (inbox c !! k).

(** [bootstrap()->send]. *)
Definition boot_send (c : Comm) (k : Z * Z) (bytes : list Z) : Comm :=
  mkComm (rank c) (futures c) (lastRecvItems c) (connectionInfos c) (selfConns c) (localFutures c)
    (localRecvMemories c) (inbox c) (<[k := default [] (outbox c !! k) ++ [bytes]]> (outbox c)).

(** [future.wait_for(0) == ready]: false for a deferred future that has not run. *)
Definition isReady (c : Comm) (i : nat) : bool :=
  match futures c !! i with Some f => bool_decide (is_Some (f_value f)) | None => false end.

Definition getLastRecvItem (c : Comm) (k : Z * Z) : option nat * Comm :=
  match lastRecvItems c !! k with
  | None => (None, c)
  | Some i => if isReady c i then (None, set_futures c (futures c) (delete k (lastRecvItems c)))
              else (Some i, c)
  end.

Definition clearLastRecvItemIfMatches (c : Comm) (k : Z * Z) (i : nat) : Comm :=
  if bool_decide (lastRecvItems c !! k = Some i)
  then set_futures c (futures c) (delete k (lastRecvItems c)) else c.

(** [makeOrderedRecvFuture]: returns the new future's index. *)
Definition makeOrderedRecvFuture (c : Comm) (k : Z * Z) (kind : recv_kind) : Comm * nat :=
  let '(prev, c) := getLastRecvItem c k in
  let i := length (futures c) in
  (set_futures c (futures c ++ [mkFuture k kind prev None]) (<[k := i]> (lastRecvItems c)), i).

Section run.
(** Reading past the end of a message is undefined; it is [EStd] here. *)
Context (importMemory : list Z -> option (result Impl)).
Context (createEndpoint : EndpointConfig -> result EndpointImpl).
(** What the constructor of a connection between two endpoints meets. *)
Context (env : EndpointImpl -> EndpointImpl -> environment).

(** What [func] makes of the message. *)
Definition run_kind (kind : recv_kind) (bytes : list Z) : result value :=
  match kind with
  | RecvMemory => m ← default (Throw EStd) (importMemory bytes); Ok (VMemory m)
  | RecvConnection local =>
      remote ← default (Throw EStd) (Endpoint_deserialize bytes);
      k ← connect (env local remote) local remote; Ok (VConnection k)
  | RecvSemaphore stub =>
      '(m, _) ← default (Throw EStd) (Stub_deserialize importMemory bytes); Ok (VSemaphore stub m)
  end.

Definition set_value (c : Comm) (i : nat) (f : future) (v : result value) : Comm :=
  set_futures c (<[i := mkFuture (f_key f) (f_kind f) (f_prev f) (Some v)]> (futures c)) (lastRecvItems c).

(** The deferred function after the previous item: receive, convert, clean up
    (not after an exception), store the outcome.  [None] while no message is there. *)
Definition run_deferred (c : Comm) (i : nat) (f : future) : option Comm :=
  match messages c (f_key f) with
  | [] => None
  | bytes :: rest =>
      let c := set_inbox c (<[f_key f := rest]> (inbox c)) in
      match run_kind (f_kind f) bytes with
      | Throw e => Some (set_value c i f (Throw e))
      | Ok v =>
          let c := match f_kind f with RecvConnection _ => add_info c (true, i) (f_key f) (selfConns c) | _ => c end in
          Some (set_value (clearLastRecvItemIfMatches c (f_key f) i) i f (Ok v))
      end
  end.

(** [future.wait()]: run the function once, the previous item first.  [None]
    while the thread blocks. *)
Fixpoint wait (fuel : nat) (c : Comm) (i : nat) : option Comm :=
  match fuel with
  | O => None
  | S fuel' =>
      f ← futures c !! i;
      match f_value f with
      | Some _ => Some c
      | None =>
          c ← match f_prev f with Some p => wait fuel' c p | None => Some c end;
          run_deferred c i f
      end
  end.

(** [future.get()]. *)
Definition get (c : Comm) (i : nat) : option (Comm * result value) :=
  c ← wait (S i) c i; f ← futures c !! i; v ← f_value f; Some (c, v).

(** *** Local memories *)

(** The first promise of a list for which [ready] is as wanted. *)
Fixpoint find_local (lf : list (option Impl)) (want : bool) (l : list nat) : option nat :=
  match l with
  | [] => None
  | i :: l' => if Bool.eqb (bool_decide (is_Some (mjoin (lf !! i)))) want then Some i
               else find_local lf want l'
  end.

Definition sendMemory_local (c : Comm) (m : Impl) (tag : Z) : Comm :=
  let l := default [] (localRecvMemories c !! tag) in
  match find_local (localFutures c) false l with
  | Some i => set_local c (<[i := Some m]> (localFutures c)) (<[tag := l]> (localRecvMemories c))
  | None => let i := length (localFutures c) in
            set_local c (localFutures c ++ [Some m]) (<[tag := l ++ [i]]> (localRecvMemories c))
  end.

(** Erase the first occurrence ([erase(it)]). *)
Fixpoint erase (i : nat) (l : list nat) : list nat :=
  match l with [] => [] | j :: l' => if decide (i = j) then l' else j :: erase i l' end.

Definition recvMemory_local (c : Comm) (tag : Z) : Comm * nat :=
  let l := default [] (localRecvMemories c !! tag) in
  match find_local (localFutures c) true l with
  | Some i => (set_local c (localFutures c) (<[tag := erase i l]> (localRecvMemories c)), i)
  | None => let i := length (localFutures c) in
            (set_local c (localFutures c ++ [None]) (<[tag := l ++ [i]]> (localRecvMemories c)), i)
  end.

(** *** The operations *)

Inductive handle := HLocal (i : nat) | HFuture (i : nat) | HValue (v : value).

Definition sendMemory (c : Comm) (m : Impl) (remoteRank tag : Z) : result Comm :=
  if remoteRank =? rank c then Ok (sendMemory_local c m tag)
  else bytes ← RegisteredMemory_serialize m; Ok (boot_send c (remoteRank, tag) bytes).

Definition recvMemory (c : Comm) (remoteRank tag : Z) : Comm * handle :=
  if remoteRank =? rank c then let '(c, i) := recvMemory_local c tag in (c, HLocal i)
  else let '(c, i) := makeOrderedRecvFuture c (remoteRank, tag) RecvMemory in (c, HFuture i).

(** [connect(endpoint, ...)]; a connection to the own rank is made at once. *)
Definition Comm_connect (c : Comm) (local : EndpointImpl) (remoteRank tag : Z) : result (Comm * handle) :=
  if remoteRank =? rank c then
    remote ← createEndpoint (config_ local);
    k ← connect (env local remote) local remote;
    Ok (add_info c (false, selfConns c) (remoteRank, tag) (S (selfConns c)), HValue (VConnection k))
  else
    let c := boot_send c (remoteRank, tag) (Endpoint_serialize local) in
    let '(c, i) := makeOrderedRecvFuture c (remoteRank, tag) (RecvConnection local) in
    Ok (c, HFuture i).

Definition buildSemaphore (c : Comm) (garbage : Z * Z) (stub : StubImpl) (remoteRank tag : Z)
    : result (Comm * handle) :=
  bytes ← Stub_serialize garbage stub;
  let c := boot_send c (remoteRank, tag) bytes in
  let '(c, i) := makeOrderedRecvFuture c (remoteRank, tag) (RecvSemaphore stub) in
  Ok (c, HFuture i).

Definition remoteRankOf (c : Comm) (i : bool * nat) : result Z :=
  match connectionInfos c !! i with Some k => Ok k.1 | None => Throw EStd end.
Definition tagOf (c : Comm) (i : bool * nat) : result Z :=
  match connectionInfos c !! i with Some k => Ok k.2 | None => Throw EStd end.

(** ** Properties *)

(** The futures of a peer and tag, in the order they were made. *)
Fixpoint ids_from (n : nat) (k : Z * Z) (fs : list future) : list nat :=
  match fs with
  | [] => []
  | f :: fs' => (if decide (f_key f = k) then [n] else []) ++ ids_from (S n) k fs'
  end.
Definition ids (c : Comm) (k : Z * Z) : list nat := ids_from 0 k (futures c).

(** What never changes about a future. *)
Definition shape (f : future) : (Z * Z) * recv_kind * option nat := (f_key f, f_kind f, f_prev f).
Definition shapes (c : Comm) := map shape (futures c).

Lemma ids_from_app n k fs f :
  ids_from n k (fs ++ [f]) = ids_from n k fs ++ (if decide (f_key f = k) then [n + length fs]%nat else []).
Proof.
  revert n. induction fs as [|g fs IH]; intros n; simpl.
  - rewrite Nat.add_0_r. by case_decide.
  - rewrite IH, <- app_assoc. do 3 f_equal. case_decide; [|done]. f_equal. lia.
Qed.

Lemma ids_from_shape n k fs fs' : map shape fs = map shape fs' -> ids_from n k fs = ids_from n k fs'.
Proof.
  revert n fs'. induction fs as [|f fs IH]; intros n [|f' fs'] Hs; simpl in *; try done.
  injection Hs as Hk _ _ Hs. by rewrite Hk, (IH (S n) fs' Hs).
Qed.

Lemma ids_from_lookup n k fs j i :
  ids_from n k fs !! j = Some i ->
  (n <= i)%nat /\ (j <= i - n)%nat /\ exists f, fs !! (i - n)%nat = Some f /\ f_key f = k.
Proof.
  revert n j. induction fs as [|f fs IH]; intros n j Hj; simpl in Hj; [by rewrite lookup_nil in Hj|].
  case_decide as Hk; [destruct j as [|j]; simpl in Hj|].
  - injection Hj as <-. rewrite Nat.sub_diag. split_and!; [lia|lia|by exists f].
  - destruct (IH _ _ Hj) as (? & ? & f' & Hf & Hf'). split_and!; [lia|lia|]. exists f'.
    replace (i - n)%nat with (S (i - S n)) by lia. done.
  - destruct (IH _ _ Hj) as (? & ? & f' & Hf & Hf'). split_and!; [lia|lia|]. exists f'.
    replace (i - n)%nat with (S (i - S n)) by lia. done.
Qed.

Lemma ids_from_inj n k fs j j' i :
  ids_from n k fs !! j = Some i -> ids_from n k fs !! j' = Some i -> j = j'.
Proof.
  revert n j j'. induction fs as [|f fs IH]; intros n j j' Hj Hj'; simpl in *; [by rewrite lookup_nil in Hj|].
  case_decide; [|by eapply IH]. destruct j as [|j], j' as [|j']; simpl in *; try done.
  - injection Hj as <-. apply ids_from_lookup in Hj'. lia.
  - injection Hj' as <-. apply ids_from_lookup in Hj. lia.
  - f_equal. by eapply IH.
Qed.

(** [r] messages of [k], out of those that arrived ([M]), have been received. *)
Record kinv (c : Comm) (k : Z * Z) (M : list (list Z)) (r : nat) : Prop := {
  ki_le : (r <= length (ids c k))%nat /\ (r <= length M)%nat;
  ki_inbox : messages c k = drop r M;
  ki_done : forall j i f, (j < r)%nat -> ids c k !! j = Some i -> futures c !! i = Some f ->
    exists b, M !! j = Some b /\ f_value f = Some (run_kind (f_kind f) b);
  ki_todo : forall j i f, (r <= j)%nat -> ids c k !! j = Some i -> futures c !! i = Some f ->
    f_value f = None;
  ki_prev : forall j i f, ids c k !! j = Some i -> futures c !! i = Some f ->
    match f_prev f with None => (j <= r)%nat | Some p => exists j', j = S j' /\ ids c k !! j' = Some p end;
  ki_last : match lastRecvItems c !! k with
            | None => r = length (ids c k)
            | Some i => ids c k !! (length (ids c k) - 1)%nat = Some i
            end
}.

(** The invariant looks at three members only. *)
Lemma kinv_ext c c' k M r :
  futures c' = futures c -> lastRecvItems c' !! k = lastRecvItems c !! k -> messages c' k = messages c k ->
  kinv c k M r -> kinv c' k M r.
Proof.
  intros Ef El Em [? ? ? ? ? ?]. unfold ids in *.
  split; unfold ids; rewrite ?Ef, ?El, ?Em; done.
Qed.

(** A message arrives. *)
Definition deliver (c : Comm) (k : Z * Z) (b : list Z) : Comm :=
  set_inbox c (<[k := messages c k ++ [b]]> (inbox c)).

Lemma kinv_arrive c k M r b : kinv c k M r -> kinv (deliver c k b) k (M ++ [b]) r.
Proof.
  intros [[H1 H2] Hi Hd Ht Hp Hl]. split; try done.
  - rewrite length_app. simpl. split; [exact H1|lia].
  - unfold messages at 1. simpl. rewrite lookup_insert_eq. simpl. by rewrite Hi, drop_app_le.
  - intros j i f Hj Hid Hf. destruct (Hd j i f Hj Hid Hf) as (x & Hx & E). exists x.
    split; [by apply lookup_app_l_Some|done].
Qed.

Lemma isReady_spec c k M r j i :
  kinv c k M r -> ids c k !! j = Some i -> isReady c i = bool_decide (j < r)%nat.
Proof.
  intros K Hj. destruct (ids_from_lookup _ _ _ _ _ Hj) as (_ & _ & f & Hf & _). rewrite Nat.sub_0_r in Hf.
  unfold isReady. rewrite Hf. destruct (decide (j < r)%nat) as [Hlt|Hge].
  - destruct (ki_done _ _ _ _ K _ _ _ Hlt Hj Hf) as (b & _ & ->). by rewrite !bool_decide_true.
  - rewrite (ki_todo _ _ _ _ K j i f) by (done || lia).
    rewrite !bool_decide_false; [done|done|]. by intros [? [=]].
Qed.

Lemma kinv_last_lt c k M r i :
  kinv c k M r -> lastRecvItems c !! k = Some i ->
  exists j, ids c k !! j = Some i /\ length (ids c k) = S j.
Proof.
  intros K Hl. pose proof (ki_last _ _ _ _ K) as Hi. rewrite Hl in Hi.
  exists (length (ids c k) - 1)%nat. split; [done|]. apply lookup_lt_Some in Hi. lia.
Qed.

(** *** Making a future *)

Lemma getLast_frame c k : futures (getLastRecvItem c k).2 = futures c /\ inbox (getLastRecvItem c k).2 = inbox c.
Proof. unfold getLastRecvItem. by repeat case_match. Qed.

Lemma getLast_prev c k M r :
  kinv c k M r ->
  match (getLastRecvItem c k).1 with
  | None => r = length (ids c k)
  | Some i => exists j, ids c k !! j = Some i /\ length (ids c k) = S j
  end.
Proof.
  intros K. unfold getLastRecvItem. pose proof (ki_last _ _ _ _ K) as Hl.
  destruct (lastRecvItems c !! k) as [i|] eqn:E; [|done].
  destruct (kinv_last_lt _ _ _ _ _ K E) as (j & Hj & Hlen).
  rewrite (isReady_spec _ _ _ _ _ _ K Hj). case_bool_decide; simpl; [|eauto].
  destruct (ki_le _ _ _ _ K). lia.
Qed.

Lemma make_frame c k kind :
  futures (makeOrderedRecvFuture c k kind).1 =
    futures c ++ [mkFuture k kind (getLastRecvItem c k).1 None] /\
  (makeOrderedRecvFuture c k kind).2 = length (futures c) /\
  inbox (makeOrderedRecvFuture c k kind).1 = inbox c /\
  lastRecvItems (makeOrderedRecvFuture c k kind).1 !! k = Some (length (futures c)) /\
  forall k', k' <> k -> lastRecvItems (makeOrderedRecvFuture c k kind).1 !! k' = lastRecvItems c !! k'.
Proof.
  destruct (getLast_frame c k) as [E1 E2]. unfold makeOrderedRecvFuture, getLastRecvItem in *.
  destruct (lastRecvItems c !! k) as [i|]; [destruct (isReady c i)|]; simpl;
    (split_and!; [done..|by rewrite lookup_insert_eq|]); intros k' Hk; rewrite lookup_insert_ne by done;
    try done; by rewrite lookup_delete_ne.
Qed.

Lemma lookup_snoc_cases {A} (l : list A) x i y :
  (l ++ [x]) !! i = Some y -> l !! i = Some y \/ i = length l /\ y = x.
Proof.
  intros H. destruct (decide (i < length l)%nat) as [Hlt|Hge].
  - left. by rewrite lookup_app_l in H by done.
  - right. assert (i = length l) as ->.
    { apply lookup_lt_Some in H. rewrite length_app in H. simpl in H. lia. }
    rewrite lookup_app_r, Nat.sub_diag in H by lia. by simplify_eq/=.
Qed.

Lemma ids_lt c k j i : ids c k !! j = Some i -> (i < length (futures c))%nat.
Proof.
  intros H. destruct (ids_from_lookup _ _ _ _ _ H) as (_ & _ & f & Hf & _). rewrite Nat.sub_0_r in Hf.
  by eapply lookup_lt_Some.
Qed.

(** Splitting a future of the extended list into an old one and the new one. *)
Lemma ids_make c k kind k' j i f :
  let c' := (makeOrderedRecvFuture c k kind).1 in
  ids c' k' !! j = Some i -> futures c' !! i = Some f ->
  (ids c k' !! j = Some i /\ futures c !! i = Some f) \/
  (k' = k /\ j = length (ids c k) /\ i = length (futures c) /\
   f = mkFuture k kind (getLastRecvItem c k).1 None).
Proof.
  destruct (make_frame c k kind) as (Ef & _ & _ & _ & _). intros c' Hi Hf. unfold c', ids in *.
  rewrite Ef in Hi, Hf. rewrite ids_from_app in Hi. simpl in Hi.
  apply lookup_snoc_cases in Hf. case_decide as Hk.
  - subst k'. apply lookup_snoc_cases in Hi as [Hi|[-> ->]].
    + left. split; [done|]. pose proof (ids_lt c k j i Hi). destruct Hf as [?|[-> _]]; [done|lia].
    + right. split_and!; try done. destruct Hf as [Hf|[_ ->]]; [|done]. apply lookup_lt_Some in Hf. lia.
  - rewrite app_nil_r in Hi. left. split; [done|]. pose proof (ids_lt c k' j i Hi).
    destruct Hf as [?|[-> _]]; [done|lia].
Qed.

Lemma kinv_make c k kind k' M r :
  kinv c k' M r -> kinv (makeOrderedRecvFuture c k kind).1 k' M r.
Proof.
  intros K. set (c' := (makeOrderedRecvFuture c k kind).1).
  destruct (make_frame c k kind) as (Ef & _ & Eb & El & Eo). fold c' in Ef, Eb, El, Eo.
  assert (Ei : ids c' k' = ids c k' ++ (if decide (k = k') then [length (futures c)] else [])).
  { unfold ids. by rewrite Ef, ids_from_app. }
  pose proof (ki_le _ _ _ _ K) as [H1 H2]. split.
  - rewrite Ei, length_app. lia.
  - unfold messages. rewrite Eb. apply (ki_inbox _ _ _ _ K).
  - intros j i f Hj Hi Hf. destruct (ids_make _ _ _ _ _ _ _ Hi Hf) as [[? ?]|(-> & -> & _)];
      [by eapply ki_done|lia].
  - intros j i f Hj Hi Hf. destruct (ids_make _ _ _ _ _ _ _ Hi Hf) as [[? ?]|(_ & _ & _ & ->)];
      [by eapply ki_todo|done].
  - intros j i f Hi Hf. destruct (ids_make _ _ _ _ _ _ _ Hi Hf) as [[Hi' Hf']|(-> & -> & _ & ->)].
    + pose proof (ki_prev _ _ _ _ K j i f Hi' Hf') as Hp. destruct (f_prev f) as [p|]; [|done].
      destruct Hp as (j' & -> & Hp). exists j'. split; [done|]. rewrite Ei. by apply lookup_app_l_Some.
    + simpl. pose proof (getLast_prev _ _ _ _ K) as Hp. destruct (getLastRecvItem c k).1 as [p|]; [|lia].
      destruct Hp as (j & Hp & ->). exists j. split; [done|]. rewrite Ei. by apply lookup_app_l_Some.
  - rewrite Ei. destruct (decide (k = k')) as [<-|Hne].
    + rewrite El, length_app. simpl. rewrite lookup_app_r by lia.
      replace (_ - _ - _)%nat with 0%nat by lia. done.
    + rewrite Eo by done. rewrite app_nil_r. apply (ki_last _ _ _ _ K).
Qed.

(** *** Running a future *)

(** What running the [j]-th future of [k] leaves behind. *)
Record ran (c c' : Comm) (k : Z * Z) (i : nat) : Prop := {
  rn_shapes : shapes c' = shapes c;
  rn_futures : forall i', i' <> i -> futures c' !! i' = futures c !! i';
  rn_other : forall k', k' <> k -> lastRecvItems c' !! k' = lastRecvItems c !! k' /\ messages c' k' = messages c k'
}.

Lemma set_value_shapes c i f v : futures c !! i = Some f -> shapes (set_value c i f v) = shapes c.
Proof.
  intros Hf. unfold shapes, set_value. simpl. rewrite list_fmap_insert. apply list_insert_id.
  by rewrite list_lookup_fmap, Hf.
Qed.

Lemma ids_shapes c c' k : shapes c' = shapes c -> ids c' k = ids c k.
Proof. intros. by apply ids_from_shape. Qed.

(** The state after the function of the next future has run. *)
Lemma run_deferred_eq c k i f b rest :
  futures c !! i = Some f -> f_key f = k -> messages c k = b :: rest ->
  exists c', run_deferred c i f = Some c' /\ ran c c' k i /\ messages c' k = rest /\
    futures c' !! i = Some (mkFuture k (f_kind f) (f_prev f) (Some (run_kind (f_kind f) b))) /\
    (lastRecvItems c' !! k = lastRecvItems c !! k \/
     lastRecvItems c !! k = Some i /\ lastRecvItems c' !! k = None).
Proof.
  intros Hf Hk Hm. unfold run_deferred. rewrite Hk, Hm. pose proof (lookup_lt_Some _ _ _ Hf) as Hlt.
  set (c1 := set_inbox c (<[k := rest]> (inbox c))).
  assert (Hm1 : messages c1 k = rest) by (unfold messages, c1; simpl; by rewrite lookup_insert_eq).
  assert (Ho1 : forall k', k' <> k -> messages c1 k' = messages c k').
  { intros k' Hne. unfold messages, c1. simpl. by rewrite lookup_insert_ne. }
  destruct (run_kind (f_kind f) b) as [v|e].
  - set (c2 := match f_kind f with RecvConnection _ => add_info c1 (true, i) k (selfConns c1) | _ => c1 end).
    set (c3 := clearLastRecvItemIfMatches c2 k i).
    assert (E3 : futures c3 = futures c /\ inbox c3 = inbox c1 /\
      (lastRecvItems c3 !! k = lastRecvItems c !! k \/
       lastRecvItems c !! k = Some i /\ lastRecvItems c3 !! k = None) /\
      forall k', k' <> k -> lastRecvItems c3 !! k' = lastRecvItems c !! k').
    { assert (E2 : futures c2 = futures c /\ inbox c2 = inbox c1 /\ lastRecvItems c2 = lastRecvItems c)
        by (unfold c2; by destruct (f_kind f)).
      destruct E2 as (F2 & I2 & L2). unfold c3, clearLastRecvItemIfMatches. rewrite L2.
      case_bool_decide as Hl; simpl; rewrite ?L2; [|by split_and!; auto].
      split_and!; [done|done|right; split; [done|by rewrite lookup_delete_eq]|].
      intros k' Hne. by rewrite lookup_delete_ne. }
    destruct E3 as (F3 & I3 & L3 & O3). eexists. split; [done|].
    assert (Em : forall k', messages (set_value c3 i f (Ok v)) k' = messages c1 k').
    { intros k'. unfold messages, set_value. simpl. by rewrite I3. }
    split_and!.
    + split.
      * rewrite set_value_shapes by (by rewrite F3). unfold shapes. by rewrite F3.
      * intros i' Hne. simpl. rewrite list_lookup_insert_ne by done. by rewrite F3.
      * intros k' Hne. split; [by apply O3|]. rewrite Em. by apply Ho1.
    + by rewrite Em.
    + simpl. rewrite F3, list_lookup_insert_eq by done. by rewrite Hk.
    + exact L3.
  - eexists. split; [done|]. split_and!.
    + split; [exact (set_value_shapes c1 i f (Throw e) Hf)|intros i' Hne; simpl; by rewrite list_lookup_insert_ne|].
      intros k' Hne. split; [done|]. apply Ho1, Hne.
    + exact Hm1.
    + simpl. rewrite list_lookup_insert_eq by done. by rewrite Hk.
    + by left.
Qed.

Lemma run_deferred_kinv c k M j i f :
  kinv c k M j -> ids c k !! j = Some i -> futures c !! i = Some f -> (j < length M)%nat ->
  exists c', run_deferred c i f = Some c' /\ ran c c' k i /\ kinv c' k M (S j).
Proof.
  intros K Hi Hf Hj. destruct (ids_from_lookup _ _ _ _ _ Hi) as (_ & _ & f' & Hf' & Hk).
  rewrite Nat.sub_0_r, Hf in Hf'. injection Hf' as <-.
  destruct (lookup_lt_is_Some_2 M j Hj) as [b Hb].
  assert (Hm : messages c k = b :: drop (S j) M) by (rewrite (ki_inbox _ _ _ _ K); by apply drop_S).
  destruct (run_deferred_eq c k i f b _ Hf Hk Hm) as (c' & E & R & Em & Ef & El).
  exists c'. split; [done|]. split; [done|]. pose proof (ids_shapes _ _ k (rn_shapes _ _ _ _ R)) as Ei.
  assert (Hother : forall j' i' f', ids c k !! j' = Some i' -> futures c' !! i' = Some f' ->
    j' <> j -> futures c !! i' = Some f').
  { intros j' i' f' Hi' Hf' Hne. rewrite <- Hf'. symmetry. apply (rn_futures _ _ _ _ R).
    intros ->. apply Hne. by eapply ids_from_inj. }
  pose proof (ki_le _ _ _ _ K) as [H1 H2]. pose proof (lookup_lt_Some _ _ _ Hi). split.
  - rewrite Ei. lia.
  - done.
  - intros j' i' f' Hlt Hi' Hf'. rewrite Ei in Hi'. destruct (decide (j' = j)) as [->|Hne].
    + rewrite Hi in Hi'. injection Hi' as <-. rewrite Ef in Hf'. injection Hf' as <-. by exists b.
    + eapply ki_done; [done| |done|by eapply Hother]. lia.
  - intros j' i' f' Hge Hi' Hf'. rewrite Ei in Hi'.
    apply (ki_todo _ _ _ _ K j' i'); [lia|done|]. eapply Hother; [done|done|lia].
  - intros j' i' f' Hi' Hf'. rewrite Ei in Hi' |- *. destruct (decide (j' = j)) as [->|Hne].
    + rewrite Hi in Hi'. injection Hi' as <-. rewrite Ef in Hf'. injection Hf' as <-. simpl.
      pose proof (ki_prev _ _ _ _ K j i f Hi Hf) as Hp. destruct (f_prev f); [done|lia].
    + pose proof (ki_prev _ _ _ _ K j' i' f' Hi' (Hother _ _ _ Hi' Hf' Hne)) as Hp.
      destruct (f_prev f'); [done|lia].
  - rewrite Ei. pose proof (ki_last _ _ _ _ K) as Hl. destruct El as [->|[El ->]].
    + destruct (lastRecvItems c !! k); [done|]. lia.
    + rewrite El in Hl. pose proof (ids_from_inj _ _ _ _ _ _ Hi Hl). unfold ids in *. lia.
Qed.

(** Other peers and tags do not notice. *)
Lemma kinv_other c c' k k' i M r j :
  ran c c' k i -> k' <> k -> ids c k !! j = Some i -> kinv c k' M r -> kinv c' k' M r.
Proof.
  intros R Hne Hi K. destruct (rn_other _ _ _ _ R k' Hne) as [El Em].
  pose proof (ids_shapes _ _ k' (rn_shapes _ _ _ _ R)) as Ei.
  assert (Hf : forall j' i', ids c k' !! j' = Some i' -> futures c' !! i' = futures c !! i').
  { intros j' i' Hi'. apply (rn_futures _ _ _ _ R). intros ->.
    destruct (ids_from_lookup _ _ _ _ _ Hi) as (_ & _ & f & Hf & Hk).
    destruct (ids_from_lookup _ _ _ _ _ Hi') as (_ & _ & f' & Hf' & Hk'). congruence. }
  destruct K as [H1 H2 Hd Ht Hp Hl]. split; rewrite ?Ei, ?El, ?Em; try done.
  - intros j' i' f Hj Hi' Hf'. rewrite (Hf _ _ Hi') in Hf'. eauto.
  - intros j' i' f Hj Hi' Hf'. rewrite (Hf _ _ Hi') in Hf'. eauto.
  - intros j' i' f Hi' Hf'. rewrite (Hf _ _ Hi') in Hf'. by apply (Hp j' i').
Qed.

(** Everything the invariant is about, over all peers and tags. *)
Definition comm_inv (M : Z * Z -> list (list Z)) (c : Comm) : Prop := forall k, exists r, kinv c k (M k) r.

Lemma comm_inv_ran M c c' k i j r :
  comm_inv M c -> ran c c' k i -> ids c k !! j = Some i -> kinv c' k (M k) r -> comm_inv M c'.
Proof.
  intros I R Hi K k'. destruct (decide (k' = k)) as [->|Hne]; [eauto|].
  destruct (I k') as [r' K']. exists r'. by eapply kinv_other.
Qed.

(** Waiting for the [j]-th future of [k] receives the messages up to the [j]-th. *)
Lemma wait_ok M fuel c k j i r :
  comm_inv M c -> kinv c k (M k) r -> ids c k !! j = Some i -> (j < length (M k))%nat -> (j < fuel)%nat ->
  exists c', wait fuel c i = Some c' /\ comm_inv M c' /\ kinv c' k (M k) (Nat.max r (S j)) /\
    shapes c' = shapes c.
Proof.
  revert c j i r. induction fuel as [|fuel IH]; intros c j i r I K Hi Hj Hf; [lia|]. cbn [wait].
  destruct (ids_from_lookup _ _ _ _ _ Hi) as (_ & _ & f & Ef & Hk). rewrite Nat.sub_0_r in Ef.
  rewrite Ef. cbn [mbind option_bind]. destruct (decide (j < r)%nat) as [Hlt|Hge].
  { destruct (ki_done _ _ _ _ K _ _ _ Hlt Hi Ef) as (b & _ & ->). exists c.
    replace (Nat.max r (S j)) with r by lia. done. }
  rewrite (ki_todo _ _ _ _ K j i f ltac:(lia) Hi Ef).
  pose proof (ki_prev _ _ _ _ K j i f Hi Ef) as Hp.
  assert (exists c1, match f_prev f with Some p => wait fuel c p | None => Some c end = Some c1 /\
    comm_inv M c1 /\ kinv c1 k (M k) j /\ shapes c1 = shapes c) as (c1 & -> & I1 & K1 & S1).
  { destruct (f_prev f) as [p|].
    - destruct Hp as (j' & -> & Hp). destruct (IH c j' p r I K Hp ltac:(lia) ltac:(lia)) as (c1 & E & I1 & K1 & S1).
      exists c1. replace (Nat.max r (S j')) with (S j') in K1 by lia. done.
    - exists c. replace j with r by lia. done. }
  cbn [mbind option_bind].
  assert (Hi1 : ids c1 k !! j = Some i) by (by rewrite (ids_shapes c c1)).
  assert (Ef1 : futures c1 !! i = Some f).
  { destruct (ids_from_lookup _ _ _ _ _ Hi1) as (_ & _ & f1 & Ef1 & _). rewrite Nat.sub_0_r in Ef1.
    pose proof (ki_todo _ _ _ _ K1 j i f1 ltac:(lia) Hi1 Ef1) as V1.
    pose proof (ki_todo _ _ _ _ K j i f ltac:(lia) Hi Ef) as V.
    assert (shape f1 = shape f) as Es.
    { pose proof (f_equal (fun l => l !! i) S1) as E. unfold shapes in E.
      rewrite !list_lookup_fmap, Ef, Ef1 in E. simpl in E. congruence. }
    rewrite Ef1. f_equal. destruct f1, f. unfold shape in Es. simpl in *. congruence. }
  destruct (run_deferred_kinv c1 k (M k) j i f K1 Hi1 Ef1 Hj) as (c' & E & R & K').
  exists c'. split; [done|]. split; [by eapply comm_inv_ran|].
  replace (Nat.max r (S j)) with (S j) by lia. split; [done|].
  rewrite (rn_shapes _ _ _ _ R). done.
Qed.

Lemma run_deferred_blocks c i f : messages c (f_key f) = [] -> run_deferred c i f = None.
Proof. unfold run_deferred. by intros ->. Qed.

Lemma wait_blocks M fuel c k j i r :
  comm_inv M c -> kinv c k (M k) r -> ids c k !! j = Some i -> (length (M k) <= j)%nat -> (j < fuel)%nat ->
  wait fuel c i = None.
Proof.
  revert c j i r. induction fuel as [|fuel IH]; intros c j i r I K Hi Hj Hf; [done|]. cbn [wait].
  destruct (ids_from_lookup _ _ _ _ _ Hi) as (_ & _ & f & Ef & Hk). rewrite Nat.sub_0_r in Ef.
  rewrite Ef. cbn [mbind option_bind]. pose proof (ki_le _ _ _ _ K) as [_ Hr].
  rewrite (ki_todo _ _ _ _ K j i f ltac:(lia) Hi Ef).
  pose proof (ki_prev _ _ _ _ K j i f Hi Ef) as Hp. destruct (f_prev f) as [p|].
  - destruct Hp as (j' & -> & Hp). destruct (decide (length (M k) <= j')%nat).
    + by rewrite (IH c j' p r I K Hp) by lia.
    + destruct (wait_ok M fuel c k j' p r I K Hp ltac:(lia) ltac:(lia)) as (c1 & -> & _ & K1 & _).
      apply run_deferred_blocks. rewrite Hk, (ki_inbox _ _ _ _ K1). apply drop_ge. lia.
  - apply run_deferred_blocks. rewrite Hk, (ki_inbox _ _ _ _ K). apply drop_ge. lia.
Qed.

Definition arrive (M : Z * Z -> list (list Z)) (k : Z * Z) (b : list Z) : Z * Z -> list (list Z) :=
  fun k' => if decide (k' = k) then M k' ++ [b] else M k'.

(** States of a communicator, with the messages that arrived so far for each peer
    and tag: any sequence of its operations, of waits in any order, and of
    arrivals. *)
Inductive comm_reach : (Z * Z -> list (list Z)) -> Comm -> Prop :=
  | cr_init rk : comm_reach (fun _ => []) (mkComm rk [] ∅ ∅ 0 [] ∅ ∅ ∅)
  | cr_send M c m r t c' : comm_reach M c -> sendMemory c m r t = Ok c' -> comm_reach M c'
  | cr_recv M c r t : comm_reach M c -> comm_reach M (recvMemory c r t).1
  | cr_connect M c e r t c' h : comm_reach M c -> Comm_connect c e r t = Ok (c', h) -> comm_reach M c'
  | cr_semaphore M c g st r t c' h :
      comm_reach M c -> buildSemaphore c g st r t = Ok (c', h) -> comm_reach M c'
  | cr_get M c i c' v : comm_reach M c -> get c i = Some (c', v) -> comm_reach M c'
  | cr_arrive M c k b : comm_reach M c ->
      comm_reach (arrive M k b) (deliver c k b).

Lemma comm_inv_ext M c c' :
  futures c' = futures c -> lastRecvItems c' = lastRecvItems c -> inbox c' = inbox c ->
  comm_inv M c -> comm_inv M c'.
Proof.
  intros Ef El Eb I k. destruct (I k) as [r K]. exists r.
  eapply kinv_ext; [exact Ef|by rewrite El|unfold messages; by rewrite Eb|exact K].
Qed.

Lemma comm_inv_make M c k kind : comm_inv M c -> comm_inv M (makeOrderedRecvFuture c k kind).1.
Proof. intros I k'. destruct (I k') as [r K]. exists r. by apply kinv_make. Qed.

Lemma comm_inv_wait M c i c' : comm_inv M c -> wait (S i) c i = Some c' -> comm_inv M c'.
Proof.
  intros I Hw. destruct (futures c !! i) as [f|] eqn:Ef; [|cbn in Hw; by rewrite Ef in Hw].
  destruct (I (f_key f)) as [r K].
  assert (exists j, ids c (f_key f) !! j = Some i /\ (j <= i)%nat) as (j & Hj & Hle).
  { unfold ids. assert (Hgen : forall fs n i', fs !! i' = Some f ->
      exists j, ids_from n (f_key f) fs !! j = Some (n + i')%nat /\ (j <= i')%nat).
    { induction fs as [|g fs IHf]; intros n [|i'] Hg; simpl in *; simplify_eq.
      - rewrite decide_True by done. exists 0%nat. rewrite Nat.add_0_r. split; [done|lia].
      - destruct (IHf (S n) i' Hg) as (j & Hj & Hle). case_decide.
        + exists (S j). simpl. rewrite Hj. split; [f_equal; lia|lia].
        + exists j. simpl. rewrite Hj. split; [f_equal; lia|lia]. }
    destruct (Hgen (futures c) 0%nat i Ef) as (j & Hj & Hle). exists j. done. }
  destruct (decide (j < length (M (f_key f)))%nat) as [Hlt|Hge].
  - destruct (wait_ok M (S i) c _ j i r I K Hj Hlt ltac:(lia)) as (c1 & E & I1 & _).
    rewrite E in Hw. by injection Hw as <-.
  - rewrite (wait_blocks M (S i) c _ j i r I K Hj) in Hw by lia. done.
Qed.

Lemma comm_reach_inv M c : comm_reach M c -> comm_inv M c.
Proof.
  induction 1 as [rk|M c m r t c' _ I E|M c r t _ I|M c e r t c' h _ I E|M c g st r t c' h _ I E|
                  M c i c' v _ I E|M c k b _ I].
  - intros k. exists 0%nat. by split; unfold ids; simpl.
  - unfold sendMemory in E. case_match; inv_ok; [|by apply (comm_inv_ext _ c)].
    unfold sendMemory_local. destruct (find_local _ _ _); by apply (comm_inv_ext _ c).
  - unfold recvMemory. destruct (r =? rank c).
    + unfold recvMemory_local. destruct (find_local _ _ _); by apply (comm_inv_ext _ c).
    + pose proof (comm_inv_make M c (r, t) RecvMemory I) as I'.
      by destruct (makeOrderedRecvFuture c (r, t) RecvMemory).
  - unfold Comm_connect in E. case_match; inv_ok; [by apply (comm_inv_ext _ c)|].
    set (c0 := boot_send c (r, t) (Endpoint_serialize e)) in *.
    pose proof (comm_inv_make M c0 (r, t) (RecvConnection e) (comm_inv_ext M c c0 eq_refl eq_refl eq_refl I)) as I'.
    destruct (makeOrderedRecvFuture c0 (r, t) (RecvConnection e)). inv_ok. simplify_eq. done.
  - unfold buildSemaphore in E. apply bind_ok_inv in E as (bytes & _ & E).
    set (c0 := boot_send c (r, t) bytes) in *.
    pose proof (comm_inv_make M c0 (r, t) (RecvSemaphore st) (comm_inv_ext M c c0 eq_refl eq_refl eq_refl I)) as I'.
    destruct (makeOrderedRecvFuture c0 (r, t) (RecvSemaphore st)). inv_ok. simplify_eq. done.
  - unfold get in E. destruct (wait (S i) c i) as [c1|] eqn:Ew; [|done]. cbn in E.
    destruct (futures c1 !! i) as [f|]; [|done]. cbn in E. destruct (f_value f); [|done]. cbn in E.
    simplify_eq. by eapply comm_inv_wait.
  - intros k'. destruct (I k') as [r K]. exists r. unfold arrive. case_decide as Hk.
    + subst. by apply kinv_arrive.
    + eapply kinv_ext; [| | |exact K]; try done. unfold messages. simpl. by rewrite lookup_insert_ne.
Qed.

(** ** Results *)

(** C11: whatever the order in which the futures of a peer and tag are waited for,
    and however receives of other peers and tags are mixed in, the [j]-th future
    made gets the [j]-th message that arrived, once that message is there; until
    then waiting for it blocks. *)
Theorem futures_in_order M c k j i f :
  comm_reach M c -> ids c k !! j = Some i -> futures c !! i = Some f ->
  (forall b, M k !! j = Some b -> exists c', get c i = Some (c', run_kind (f_kind f) b)) /\
  ((length (M k) <= j)%nat -> get c i = None).
Proof.
  intros Hr Hi Hf. pose proof (comm_reach_inv _ _ Hr) as I. destruct (I k) as [r K].
  pose proof (ids_from_lookup _ _ _ _ _ Hi) as (_ & Hle & _). rewrite Nat.sub_0_r in Hle. split.
  - intros b Hb. pose proof (lookup_lt_Some _ _ _ Hb) as Hlt.
    destruct (wait_ok M (S i) c k j i r I K Hi Hlt ltac:(lia)) as (c' & E & I' & K' & S').
    exists c'. unfold get. rewrite E. cbn [mbind option_bind].
    assert (Hi' : ids c' k !! j = Some i) by (by rewrite (ids_shapes c c')).
    destruct (ids_from_lookup _ _ _ _ _ Hi') as (_ & _ & f' & Hf' & _). rewrite Nat.sub_0_r in Hf'.
    rewrite Hf'. cbn [mbind option_bind].
    destruct (ki_done _ _ _ _ K' j i f' ltac:(lia) Hi' Hf') as (b' & Hb' & ->). cbn [mbind option_bind].
    assert (f_kind f' = f_kind f) as ->.
    { pose proof (f_equal (fun l => l !! i) S') as Es. unfold shapes in Es.
      rewrite !list_lookup_fmap, Hf, Hf' in Es. simpl in Es. unfold shape in Es. congruence. }
    congruence.
  - intros Hge. unfold get. by rewrite (wait_blocks M (S i) c k j i r I K Hi) by lia.
Qed.
End run.

Definition tag_import (bytes : list Z) : option (result Impl) :=
  Some (Ok (mkImpl (default 0 (head bytes)) 0 0 0 0 0 [])).

(** Two receives of the same peer, waited for in the opposite order. *)
Definition demo_comm : Comm :=
  let c := mkComm 0 [] ∅ ∅ 0 [] ∅ ∅ ∅ in
  let c := (recvMemory c 1 5).1 in
  (recvMemory c 1 5).1.

Definition demo_env (_ _ : EndpointImpl) : environment := demo_environment true demo_queue_pair.

Lemma futures_in_order_witness :
  let k := (1, 5) in
  let c := deliver (deliver demo_comm k [70]) k [80] in
  exists c', get tag_import demo_env c 1 = Some (c', Ok (VMemory (mkImpl 80 0 0 0 0 0 []))).
Proof.
  intros k c.
  assert (Hr : comm_reach tag_import (fun _ => Throw EStd) demo_env (arrive (arrive (fun _ => []) k [70]) k [80]) c).
  { apply cr_arrive, cr_arrive. apply cr_recv, cr_recv, cr_init. }
  destruct (proj1 (futures_in_order tag_import (fun _ => Throw EStd) demo_env
    (arrive (arrive (fun _ => []) k [70]) k [80]) c k 1%nat 1%nat
    (mkFuture k RecvMemory (Some 0%nat) None) Hr eq_refl eq_refl) [80] eq_refl) as [c' E].
  exists c'. exact E.
Defined.

(** *** Memories sent to the own rank *)

(** The promises listed for a tag hold exactly the memories [vs]. *)
Definition local_holds (c : Comm) (tag : Z) (vs : list Impl) : Prop :=
  (fun i => mjoin (localFutures c !! i)) <$> default [] (localRecvMemories c !! tag) = map Some vs.

Lemma find_local_none lf l (vs : list Impl) :
  ((fun i => mjoin (lf !! i)) <$> l) = map Some vs -> find_local lf false l = None.
Proof.
  revert vs. induction l as [|i l IH]; intros [|v vs] H; simpl in *; try done.
  injection H as Hi H. rewrite Hi, bool_decide_true by done. simpl. by eapply IH.
Qed.

Lemma send_local_holds c tag vs m :
  local_holds c tag vs -> local_holds (sendMemory_local c m tag) tag (vs ++ [m]).
Proof.
  unfold local_holds, sendMemory_local. intros H. rewrite (find_local_none _ _ _ H). simpl.
  rewrite lookup_insert_eq. simpl. rewrite fmap_app, map_app. f_equal.
  - rewrite <- H. apply list_fmap_ext. intros n i Hi. f_equal. apply lookup_app_l.
    pose proof (f_equal (fun l => l !! n) H) as E. simpl in E. rewrite list_lookup_fmap, Hi in E. simpl in E.
    destruct (localFutures c !! i) eqn:Ei; [by eapply lookup_lt_Some|].
    change (map Some vs) with (Some <$> vs) in E. rewrite list_lookup_fmap in E.
    by destruct (vs !! n).
  - simpl. by rewrite lookup_app_r, Nat.sub_diag by lia.
Qed.

Lemma recv_local_holds c tag v vs :
  local_holds c tag (v :: vs) ->
  local_holds (recvMemory_local c tag).1 tag vs /\
  localFutures (recvMemory_local c tag).1 = localFutures c /\
  mjoin (localFutures c !! (recvMemory_local c tag).2) = Some v.
Proof.
  unfold local_holds, recvMemory_local. intros H.
  destruct (default [] (localRecvMemories c !! tag)) as [|i l]; [done|]. simpl in *.
  injection H as Hi H. rewrite Hi, bool_decide_true by done. simpl.
  rewrite lookup_insert_eq, decide_True by done. done.
Qed.

Fixpoint recv_many (n : nat) (c : Comm) (tag : Z) : Comm * list nat :=
  match n with
  | O => (c, [])
  | S n' => let '(c, i) := recvMemory_local c tag in
            let '(c, l) := recv_many n' c tag in (c, i :: l)
  end.

(** memories sent to the own rank before they are received come out in the
    order they went in, each once. *)
Theorem local_send_first_fifo c tag vs ms :
  local_holds c tag vs ->
  let c' := foldl (fun c m => sendMemory_local c m tag) c ms in
  let '(c'', is_) := recv_many (length (vs ++ ms)) c' tag in
  map (fun i => mjoin (localFutures c'' !! i)) is_ = map Some (vs ++ ms) /\ local_holds c'' tag [].
Proof.
  intros H c'. assert (H' : local_holds c' tag (vs ++ ms)).
  { unfold c'. clear c'. revert c vs H. induction ms as [|m ms IH]; intros c vs H; simpl; [by rewrite app_nil_r|].
    replace (vs ++ m :: ms) with ((vs ++ [m]) ++ ms) by (by rewrite <- app_assoc).
    by apply IH, send_local_holds. }
  clear H. clearbody c'. revert c' H'. generalize (vs ++ ms). intros xs. induction xs as [|x xs IH]; intros c' H; simpl.
  - done.
  - destruct (recv_local_holds _ _ _ _ H) as (H1 & E & V).
    destruct (recvMemory_local c' tag) as [c1 i]. simpl in *. specialize (IH c1 H1).
    destruct (recv_many (length xs) c1 tag) as [c2 is_] eqn:Er. destruct IH as [Em Hl]. split; [|done].
    simpl. f_equal; [|done].
    assert (Hkeep : forall n c, localFutures (recv_many n c tag).1 !! i = localFutures c !! i \/ localFutures c !! i = None).
    { intros n. induction n as [|n IHn]; intros c0; simpl; [by left|].
      unfold recvMemory_local. destruct (find_local _ true _) as [i0|].
      - match goal with |- context [recv_many n ?x tag] => specialize (IHn x) end.
        destruct (recv_many n _ tag). simpl in *. done.
      - destruct (localFutures c0 !! i) eqn:Ei; [|by right]. left.
        match goal with |- context [recv_many n ?x tag] => specialize (IHn x) end.
        destruct (recv_many n _ tag). simpl in *.
        rewrite lookup_app_l in IHn by (by eapply lookup_lt_Some). rewrite Ei in IHn. by destruct IHn. }
    destruct (Hkeep (length xs) c1) as [Ek|Ek]; rewrite ?Er in Ek; simpl in Ek.
    + by rewrite Ek, E.
    + rewrite E in Ek. by rewrite Ek in V.
Qed.

Lemma local_send_first_fifo_witness :
  let m x := mkImpl x 0 0 0 0 0 [] in
  let c := foldl (fun c y => sendMemory_local c y 3) (mkComm 0 [] ∅ ∅ 0 [] ∅ ∅ ∅) [m 1; m 2] in
  let '(c'', is_) := recv_many 2 c 3 in
  map (fun i => mjoin (localFutures c'' !! i)) is_ = [Some (m 1); Some (m 2)] /\ local_holds c'' 3 [].
Proof.
  intros m. exact (local_send_first_fifo (mkComm 0 [] ∅ ∅ 0 [] ∅ ∅ ∅) 3 [] [m 1; m 2] eq_refl).
Defined.

(** a receive from the own rank that comes before the send is answered twice:
    the promise stays in the list after it is fulfilled, so the next receive gets
    the same future and the same memory, although it was sent once. *)
Theorem local_recv_first_duplicates c tag m :
  default [] (localRecvMemories c !! tag) = [] ->
  let '(c1, i1) := recvMemory_local c tag in
  let '(c2, i2) := recvMemory_local (sendMemory_local c1 m tag) tag in
  i2 = i1 /\ localFutures c2 !! i2 = Some (Some m).
Proof.
  intros H. unfold recvMemory_local at 1. rewrite H. simpl.
  unfold sendMemory_local. simpl. rewrite lookup_insert_eq. simpl.
  rewrite lookup_app_r, Nat.sub_diag by lia. simpl.
  unfold recvMemory_local. simpl. rewrite lookup_insert_eq. simpl.
  rewrite list_lookup_insert_eq by (rewrite length_app; simpl; lia). simpl.
  split; [done|]. apply list_lookup_insert_eq. rewrite length_app. simpl. lia.
Qed.

Lemma local_recv_first_duplicates_witness :
  let m := mkImpl 1 0 0 0 0 0 [] in
  let '(c1, i1) := recvMemory_local (mkComm 0 [] ∅ ∅ 0 [] ∅ ∅ ∅) 3 in
  let '(c2, i2) := recvMemory_local (sendMemory_local c1 m 3) 3 in
  i2 = i1 /\ localFutures c2 !! i2 = Some (Some m).
Proof.
  intros m. exact (local_recv_first_duplicates (mkComm 0 [] ∅ ∅ 0 [] ∅ ∅ ∅) 3 m eq_refl).
Defined.
