(* ===== verification/Bootstrap.v ===== *)
(** * The TCP bootstrap

    Models src/core/bootstrap/bootstrap.cc: message framing ([netSend],
    [netRecv]), the ring collectives [allGather], [broadcast] and [barrier], the
    root's exchange of addresses, the sockets per peer and tag, and
    [getNranksPerNode].

    The collectives are distributed programs: every rank runs its own sequence of
    sends and receives on the ring sockets; ranks interleave arbitrarily.  Here the
    sockets are queues of whole messages, to which a send appends at once: the
    specification of the machine of RingSockets, in which messages are bytes in
    buffers of a limited size and a send blocks. *)

From S2P Require Import Prelude Errors Core.
Local Open Scope Z_scope.

(** ** Framing *)

(** [netSend]: a 32-bit size, then the bytes. *)
Definition netSend (data : list Z) : list Z := le_bytes 4 (Z.of_nat (length data)) ++ data.

(** [netRecv] of at most [size] bytes; [None] while the bytes have not arrived. *)
Definition netRecv (size : Z) (wire : list Z) : option (result (list Z * list Z)) :=
  if decide (4 <= length wire)%nat then
    let recvSize := to_signed 4 (le_val (take 4 wire)) in
    let wire := drop 4 wire in
    if size <? recvSize then Some (Throw (EError InvalidUsage))
    else let n := Z.to_nat (Z.min recvSize size) in
         if decide (n <= length wire)%nat then Some (Ok (take n wire, drop n wire)) else None
  else None.

(** [Bootstrap::send/recv] of a vector: its size first. *)
Definition send_vector (data : list Z) : list Z :=
  netSend (le_bytes 8 (Z.of_nat (length data))) ++ netSend data.

Definition recv_vector (wire : list Z) : option (result (list Z * list Z)) :=
  r ← netRecv 8 wire;
  match r with
  | Throw e => Some (Throw e)
  | Ok (s, wire) => netRecv (le_val s) wire
  end.

(** ** Ring programs *)

Inductive instr := ISend (slice : nat) | IRecv (slice : nat).

#[export] Instance instr_eq_dec : EqDecision instr.
Proof. solve_decision. Defined.

(** The [allGather] loop of a rank, as the sequence of its socket operations. *)
Definition rSlice (n rank i : nat) : nat :=
  Z.to_nat ((Z.of_nat rank - Z.of_nat i - 1 + Z.of_nat n) mod Z.of_nat n).
Definition sSlice (n rank i : nat) : nat :=
  Z.to_nat ((Z.of_nat rank - Z.of_nat i + Z.of_nat n) mod Z.of_nat n).
Fixpoint allGather_from (n rank i steps : nat) : list instr :=
  match steps with
  | O => []
  | S steps' => ISend (sSlice n rank i) :: IRecv (rSlice n rank i) :: allGather_from n rank (S i) steps'
  end.
Definition allGather (n rank : nat) : list instr := allGather_from n rank 0 (n - 1).

(** The [broadcast] loop of a rank; the buffer is the only slice. *)
Definition receiveStep (n rank root : nat) : nat :=
  Z.to_nat ((Z.of_nat rank - Z.of_nat root - 1 + Z.of_nat n) mod Z.of_nat n).
Definition broadcast_step (n rank root step : nat) : list instr :=
  if decide (rank = root) then (if decide (step = 0)%nat then [ISend 0] else [])
  else if decide (step = receiveStep n rank root) then
    IRecv 0 :: (if decide (step < n - 2)%nat then [ISend 0] else [])
  else [].
Definition broadcast (n rank root : nat) : list instr :=
  if decide (n = 1)%nat then [] else concat (map (broadcast_step n rank root) (seq 0 (n - 1))).

(** [barrier]: an [allGather] of [barrierArr_]. *)
Definition barrier (n rank : nat) : list instr := allGather n rank.

(** The buffers and remaining instructions of each rank; [ring !! r]: the messages from rank [r]
    to rank [r + 1] that have not been received. *)
Record queue_sys := mkQueues { bufs : list (list (list Z)); progs : list (list instr); ring : list (list (list Z)) }.

Definition next_rank (n r : nat) : nat := (S r mod n)%nat.
Definition prev_rank (n r : nat) : nat := ((r + n - 1) mod n)%nat.

(** One operation of rank [r]; [None] when it has to wait or is done. *)
Definition queue_step (n : nat) (s : queue_sys) (r : nat) : option queue_sys :=
  buf ← bufs s !! r;
  prog ← progs s !! r;
  match prog with
  | [] => None
  | ISend sl :: rest =>
      q ← ring s !! r;
      d ← buf !! sl;
      Some (mkQueues (bufs s) (<[r := rest]> (progs s)) (<[r := q ++ [d]]> (ring s)))
  | IRecv sl :: rest =>
      q ← ring s !! prev_rank n r;
      match q with
      | [] => None
      | d :: q' => Some (mkQueues (<[r := <[sl := d]> buf]> (bufs s)) (<[r := rest]> (progs s))
                           (<[prev_rank n r := q']> (ring s)))
      end
  end.

Fixpoint queue_run (n : nat) (s : queue_sys) (sched : list nat) : option queue_sys :=
  match sched with
  | [] => Some s
  | r :: sched' => s' ← queue_step n s r; queue_run n s' sched'
  end.

Definition queue_init (n : nat) (bs : list (list (list Z))) (prog : nat -> list instr) : queue_sys :=
  mkQueues bs (map prog (seq 0 n)) (replicate n []).

Definition finished (s : queue_sys) (r : nat) : Prop := progs s !! r = Some [].

(** ** The root's address exchange *)

Definition sizeof_SocketAddress : nat := 28.
Definition zero_addr : list Z := replicate sizeof_SocketAddress 0.

Record ExtInfo := mkExtInfo {
  ei_rank : nat; ei_nRanks : nat; extAddressListenRoot : list Z; extAddressListen : list Z
}.

(** [getRemoteAddresses]; a rank outside the vectors is undefined in C++ and is
    [EStd] here. *)
Definition getRemoteAddresses (n : nat) (info : ExtInfo) (st : list (list Z) * list (list Z))
    : result (list (list Z) * list (list Z)) :=
  let '(addrs, addrsRoot) := st in
  _ ← throw_if (negb (bool_decide (n = ei_nRanks info))) (EError InternalError);
  match addrsRoot !! ei_rank info with
  | None => Throw EStd
  | Some a =>
      _ ← throw_if (negb (bool_decide (a = zero_addr))) (EError InternalError);
      Ok (<[ei_rank info := extAddressListen info]> addrs,
          <[ei_rank info := extAddressListenRoot info]> addrsRoot)
  end.

Fixpoint collect (n : nat) (infos : list ExtInfo) (st : list (list Z) * list (list Z))
    : result (list (list Z) * list (list Z)) :=
  match infos with
  | [] => Ok st
  | i :: infos' => st' ← getRemoteAddresses n i st; collect n infos' st'
  end.

(** [sendHandleToPeer]: where it connects to and what it sends. *)
Definition sendHandleToPeer (n : nat) (st : list (list Z) * list (list Z)) (peer : nat)
    : list Z * list Z :=
  (st.2 !!! peer, st.1 !!! next_rank n peer).

(** [bootstrapRoot] when it is not aborted: [infos] are the check-ins in the order
    they arrive. *)
Definition bootstrapRoot (n : nat) (infos : list ExtInfo) : result (list (list Z * list Z)) :=
  st ← collect n (take n infos) (replicate n zero_addr, replicate n zero_addr);
  Ok (map (sendHandleToPeer n st) (seq 0 n)).

(** ** Sockets per peer and tag *)

(** [getPeerRecvSocket]: accept until the wanted connection shows up, keeping the
    others.  A pending connection is its handshake and its socket. *)
Fixpoint getPeerRecvSocket (pending : list ((Z * Z) * nat)) (socks : gmap (Z * Z) nat) (k : Z * Z)
    : option (nat * list ((Z * Z) * nat) * gmap (Z * Z) nat) :=
  match socks !! k with
  | Some s => Some (s, pending, socks)
  | None =>
      match pending with
      | [] => None
      | (k', s) :: pending' =>
          if decide (k' = k) then Some (s, pending', <[k' := s]> socks)
          else getPeerRecvSocket pending' (<[k' := s]> socks) k
      end
  end.

(** [getPeerSendSocket]: connect once, sending the own rank and the tag. *)
Definition getPeerSendSocket (rank : Z) (socks : gmap (Z * Z) nat) (fresh : nat) (peer tag : Z)
    : nat * gmap (Z * Z) nat * list Z :=
  match socks !! (peer, tag) with
  | Some s => (s, socks, [])
  | None => (fresh, <[(peer, tag) := fresh]> socks,
             netSend (le_bytes 4 (u32 rank)) ++ netSend (le_bytes 4 (u32 tag)))
  end.

(** ** Ranks per node *)

(** A [SocketAddress] as its bytes: the family, then for IPv4 the address at
    offset 4, for IPv6 at offset 8. *)
Definition AF_INET : Z := 2.
Definition sa_family (a : list Z) : Z := le_val (take 2 a).
Definition sin_addr (a : list Z) : list Z := take 4 (drop 4 a).
Definition sin6_addr (a : list Z) : list Z := take 16 (drop 8 a).

(** The comparison of the loop: the own family decides which bytes are compared. *)
Definition same_host (own other : list Z) : bool :=
  if sa_family own =? AF_INET then bool_decide (sin_addr other = sin_addr own)
  else bool_decide (sin6_addr other = sin6_addr own).

Definition getNranksPerNode (cached : Z) (addrs : list (list Z)) (rank : nat) : option Z :=
  if 0 <? cached then Some cached
  else own ← addrs !! rank;
       Some (Z.of_nat (length (filter (fun a => same_host own a = true) addrs))).

(** ** [initialize] from an interface:ip:port trio *)

Definition colon : Ascii.ascii := Ascii.ascii_of_nat 58.
Fixpoint count_colons (s : string) : nat :=
  match s with
  | EmptyString => O
  | String c s' => ((if Ascii.ascii_dec c colon then 1 else 0) + count_colons s')%nat
  end.
(** [substr(0, find_first_of(':'))] and [substr(find_first_of(':') + 1)]. *)
Fixpoint split_colon (s : string) : string * string :=
  match s with
  | EmptyString => (EmptyString, EmptyString)
  | String c s' => if Ascii.ascii_dec c colon then (EmptyString, s')
                   else let '(a, b) := split_colon s' in (String c a, b)
  end.
(** The interface and the ip:port pair. *)
Definition parse_trio (trio : string) : string * string :=
  if decide (count_colons trio = 2)%nat then split_colon trio else (EmptyString, trio).

(** ** Ring arithmetic *)

Lemma rSlice_sSlice n r i : rSlice n r i = sSlice n r (S i).
Proof. unfold rSlice, sSlice. do 2 f_equal. lia. Qed.

Lemma sSlice_lt n r j : (0 < n)%nat -> (sSlice n r j < n)%nat.
Proof.
  intros Hn. unfold sSlice.
  pose proof (Z.mod_pos_bound (Z.of_nat r - Z.of_nat j + Z.of_nat n) (Z.of_nat n) ltac:(lia)). lia.
Qed.

Lemma prev_lt n r : (0 < n)%nat -> (prev_rank n r < n)%nat.
Proof. intros. unfold prev_rank. apply Nat.mod_upper_bound. lia. Qed.

Lemma next_lt n r : (0 < n)%nat -> (next_rank n r < n)%nat.
Proof. intros. unfold next_rank. apply Nat.mod_upper_bound. lia. Qed.

Lemma next_prev n r : (r < n)%nat -> next_rank n (prev_rank n r) = r.
Proof.
  intros Hr. unfold next_rank, prev_rank. destruct (decide (r = 0)%nat) as [->|].
  - rewrite (Nat.mod_small (0 + n - 1)) by lia. replace (S (0 + n - 1)) with n by lia.
    apply Nat.Div0.mod_same.
  - replace (r + n - 1)%nat with ((r - 1) + 1 * n)%nat by lia. rewrite Nat.Div0.mod_add.
    rewrite (Nat.mod_small (r - 1)) by lia. replace (S (r - 1)) with r by lia. by rewrite Nat.mod_small.
Qed.

Lemma prev_next n r : (r < n)%nat -> prev_rank n (next_rank n r) = r.
Proof.
  intros Hr. unfold next_rank, prev_rank. destruct (decide (S r = n)) as [E|].
  - rewrite E, Nat.Div0.mod_same. rewrite Nat.mod_small by lia. lia.
  - rewrite (Nat.mod_small (S r)) by lia. replace (S r + n - 1)%nat with (r + 1 * n)%nat by lia.
    rewrite Nat.Div0.mod_add. by rewrite Nat.mod_small.
Qed.

Lemma sSlice_prev n r j : (r < n)%nat -> sSlice n (prev_rank n r) j = sSlice n r (S j).
Proof.
  intros Hr. unfold sSlice. f_equal. unfold prev_rank. destruct (decide (r = 0)%nat) as [->|].
  - rewrite Nat.mod_small by lia.
    replace (Z.of_nat (0 + n - 1) - Z.of_nat j + Z.of_nat n)
      with (Z.of_nat 0 - Z.of_nat (S j) + Z.of_nat n + 1 * Z.of_nat n) by lia.
    apply Z.mod_add. lia.
  - replace (r + n - 1)%nat with ((r - 1) + 1 * n)%nat by lia. rewrite Nat.Div0.mod_add.
    rewrite Nat.mod_small by lia. f_equal. lia.
Qed.

Lemma sSlice_own n r : (r < n)%nat -> sSlice n r 0 = r.
Proof.
  intros. unfold sSlice. replace (Z.of_nat r - Z.of_nat 0 + Z.of_nat n) with (Z.of_nat r + 1 * Z.of_nat n) by lia.
  rewrite Z.mod_add by lia. rewrite Z.mod_small by lia. lia.
Qed.

(** Every slot is reached within [n - 1] steps. *)
Lemma sSlice_onto n r k : (r < n)%nat -> (k < n)%nat -> exists j, (j <= n - 1)%nat /\ sSlice n r j = k.
Proof.
  intros Hr Hk. exists (if decide (k <= r)%nat then r - k else r + n - k)%nat. case_decide.
  - split; [lia|]. unfold sSlice.
    replace (Z.of_nat r - Z.of_nat (r - k) + Z.of_nat n) with (Z.of_nat k + 1 * Z.of_nat n) by lia.
    rewrite Z.mod_add by lia. rewrite Z.mod_small by lia. lia.
  - split; [lia|]. unfold sSlice.
    replace (Z.of_nat r - Z.of_nat (r + n - k) + Z.of_nat n) with (Z.of_nat k) by lia.
    rewrite Z.mod_small by lia. lia.
Qed.

(** ** Facts of every ring program *)

Lemma queue_step_len n s r s' : queue_step n s r = Some s' -> length (progs s') = length (progs s).
Proof.
  unfold queue_step. intros H. destruct (bufs s !! r); [|done]. cbn in H.
  destruct (progs s !! r) as [[|[]]|]; cbn in H; try done;
    destruct (ring s !! _) as [[]|]; cbn in H; try done; try (destruct (_ !! slice); cbn in H; [|done]);
    injection H as <-; simpl; by rewrite length_insert.
Qed.

(** Socket operations still to be done. *)
Definition queue_remaining (s : queue_sys) : nat := sum_list (length <$> progs s).

Lemma queue_step_remaining n s r s' : queue_step n s r = Some s' -> (queue_remaining s' < queue_remaining s)%nat.
Proof.
  unfold queue_step, queue_remaining. intros H. destruct (bufs s !! r); [|done]. cbn in H.
  destruct (progs s !! r) as [[|ins rest]|] eqn:E; cbn in H; try done.
  assert (Hdec : (sum_list (length <$> <[r := rest]> (progs s)) < sum_list (length <$> progs s))%nat).
  { rewrite list_fmap_insert.
    assert (Hl : (length <$> progs s) !! r = Some (length (ins :: rest))) by (by rewrite list_lookup_fmap, E).
    pose proof (sum_list_insert _ _ _ (length rest) Hl). simpl in *. lia. }
  destruct ins as [sl|sl]; (destruct (ring s !! _) as [q|]; [|done]); cbn in H.
  - destruct (_ !! sl); cbn in H; [|done]. injection H as <-. done.
  - destruct q; [done|]. injection H as <-. done.
Qed.

Lemma not_all_done n s :
  length (progs s) = n -> (forall r, (r < n)%nat -> finished s r) \/ exists r, (r < n)%nat /\ ~ finished s r.
Proof.
  intros Hl. unfold finished.
  assert (Hgen : forall m, (m <= n)%nat -> (forall r, (r < m)%nat -> progs s !! r = Some []) \/
    exists r, (r < n)%nat /\ progs s !! r <> Some []).
  { intros m. induction m as [|m IH]; intros Hm; [left; lia|].
    destruct (IH ltac:(lia)) as [Hall|]; [|by right].
    destruct (decide (progs s !! m = Some [])) as [E|E].
    - left. intros r Hr. destruct (decide (r = m)) as [->|]; [done|apply Hall; lia].
    - right. exists m. split; [lia|done]. }
  apply (Hgen n). lia.
Qed.

(** ** The all-gather invariant *)

Section allgather.
Context (n : nat) (xs : list (list Z)) (Hn : (0 < n)%nat) (Hxs : length xs = n).

Definition b2n (b : bool) : nat := if b then 1%nat else 0%nat.

(** What is left of rank [r]'s program after [i] receives and [i + b] sends. *)
Definition prog_at (r i : nat) (b : bool) : list instr :=
  if b then IRecv (rSlice n r i) :: allGather_from n r (S i) (n - 1 - S i)
  else allGather_from n r i (n - 1 - i).

(** The slices in flight from [r] to its successor. *)
Definition in_flight (r lo hi : nat) : list (list Z) :=
  map (fun j => xs !!! sSlice n r j) (seq lo (hi - lo)).

Record ag_inv (I : nat -> nat) (B : nat -> bool) (s : queue_sys) : Prop := {
  ag_range : forall r, (r < n)%nat -> (I r + b2n (B r) <= n - 1)%nat;
  ag_prog : forall r, (r < n)%nat -> progs s !! r = Some (prog_at r (I r) (B r));
  ag_buf : forall r, (r < n)%nat -> exists b, bufs s !! r = Some b /\ length b = n /\
    forall j, (j <= I r)%nat -> b !! sSlice n r j = xs !! sSlice n r j;
  ag_ring : forall r, (r < n)%nat -> (I (next_rank n r) <= I r + b2n (B r))%nat /\
    ring s !! r = Some (in_flight r (I (next_rank n r)) (I r + b2n (B r)))
}.

Definition upd {A} (f : nat -> A) (r : nat) (x : A) : nat -> A :=
  fun r' => if decide (r' = r) then x else f r'.
Lemma upd_eq {A} (f : nat -> A) r x : upd f r x r = x.
Proof. unfold upd. by rewrite decide_True. Qed.
Lemma upd_ne {A} (f : nat -> A) r x r' : r' <> r -> upd f r x r' = f r'.
Proof. intros. unfold upd. by rewrite decide_False. Qed.

Lemma in_flight_snoc r lo hi : (lo <= hi)%nat ->
  in_flight r lo (hi + 1) = in_flight r lo hi ++ [xs !!! sSlice n r hi].
Proof.
  intros. unfold in_flight. replace (hi + 1 - lo)%nat with (hi - lo + 1)%nat by lia.
  rewrite seq_app, map_app. simpl. do 4 f_equal. lia.
Qed.

Lemma in_flight_cons r lo hi : (lo < hi)%nat ->
  in_flight r lo hi = (xs !!! sSlice n r lo) :: in_flight r (S lo) hi.
Proof.
  intros. unfold in_flight. replace (hi - lo)%nat with (S (hi - S lo)) by lia. done.
Qed.

Lemma in_flight_nil r lo hi : in_flight r lo hi = [] -> (hi <= lo)%nat.
Proof. unfold in_flight. intros H. apply map_eq_nil in H. destruct (hi - lo)%nat eqn:E; [lia|done]. Qed.

Lemma prog_at_send r i : (i < n - 1)%nat -> prog_at r i false = ISend (sSlice n r i) :: prog_at r i true.
Proof.
  intros. unfold prog_at. replace (n - 1 - i)%nat with (S (n - 1 - S i)) by lia. done.
Qed.

Lemma prog_at_end r i : (n - 1 <= i)%nat -> prog_at r i false = [].
Proof. intros. unfold prog_at. by replace (n - 1 - i)%nat with 0%nat by lia. Qed.

Lemma lookup_xs k : (k < n)%nat -> xs !! k = Some (xs !!! k).
Proof. intros. apply list_lookup_lookup_total_lt. lia. Qed.

Lemma ag_send I B s r s' :
  ag_inv I B s -> (r < n)%nat -> B r = false -> queue_step n s r = Some s' ->
  ag_inv I (upd B r true) s'.
Proof.
  intros [Hr Hp Hb Hq] Hlt HB Hs. unfold queue_step in Hs.
  destruct (Hb r Hlt) as (b & Eb & Lb & Vb). rewrite Eb, (Hp r Hlt), HB in Hs. cbn [mbind option_bind] in Hs.
  pose proof (Hr r Hlt) as Hir. rewrite HB in Hir. simpl in Hir.
  destruct (decide (I r < n - 1)%nat) as [Hi|Hi]; [|by rewrite prog_at_end in Hs by lia].
  rewrite prog_at_send in Hs by done. destruct (Hq r Hlt) as [Hle Eq]. rewrite Eq in Hs.
  cbn [mbind option_bind] in Hs. rewrite (Vb (I r)) in Hs by lia.
  rewrite lookup_xs in Hs by (by apply sSlice_lt). cbn [mbind option_bind] in Hs. injection Hs as <-.
  split; simpl.
  - intros r' H'. destruct (decide (r' = r)) as [->|]; [rewrite upd_eq; simpl; lia|rewrite upd_ne by done; auto].
  - intros r' H'. destruct (decide (r' = r)) as [->|].
    + rewrite upd_eq, list_lookup_insert_eq; [done|]. eapply lookup_lt_Some, Hp, Hlt.
    + rewrite upd_ne, list_lookup_insert_ne by done. auto.
  - auto.
  - intros r' H'. destruct (decide (r' = r)) as [->|].
    + rewrite upd_eq, list_lookup_insert_eq by (by eapply lookup_lt_Some).
      rewrite HB in *. simpl b2n in *. split; [lia|]. rewrite in_flight_snoc by lia.
      rewrite Nat.add_0_r. done.
    + rewrite upd_ne, list_lookup_insert_ne by done. auto.
Qed.

Lemma ag_recv I B s r s' :
  ag_inv I B s -> (r < n)%nat -> B r = true -> queue_step n s r = Some s' ->
  ag_inv (upd I r (S (I r))) (upd B r false) s'.
Proof.
  intros [Hr Hp Hb Hq] Hlt HB Hs. unfold queue_step in Hs.
  destruct (Hb r Hlt) as (b & Eb & Lb & Vb). rewrite Eb, (Hp r Hlt), HB in Hs. cbn [mbind option_bind prog_at] in Hs.
  pose proof (Hr r Hlt) as Hir. rewrite HB in Hir. simpl in Hir.
  set (p := prev_rank n r) in *. assert (Hpl : (p < n)%nat) by (by apply prev_lt).
  assert (Hnp : next_rank n p = r) by (by apply next_prev).
  destruct (Hq p Hpl) as [Hle Eq]. rewrite Hnp in *. rewrite Eq in Hs. cbn [mbind option_bind] in Hs.
  destruct (decide (I r < I p + b2n (B p))%nat) as [Hi|Hi].
  2:{ unfold in_flight in Hs. by replace (I p + b2n (B p) - I r)%nat with 0%nat in Hs by lia. }
  rewrite in_flight_cons in Hs by done. injection Hs as <-.
  assert (Hpr : p <> r).
  { intros E. destruct (decide (n = 1)%nat); [lia|]. rewrite E in Hnp. unfold next_rank in Hnp.
    destruct (decide (S r = n)) as [E'|]; [rewrite E', Nat.Div0.mod_same in Hnp; lia|].
    rewrite Nat.mod_small in Hnp; lia. }
  assert (Hsl : sSlice n p (I r) = sSlice n r (S (I r))) by (by apply sSlice_prev).
  assert (Hinv : forall r', (r' < n)%nat -> next_rank n r' = r -> r' = p).
  { intros r' H' E. unfold p. rewrite <- E. symmetry. by apply prev_next. }
  split; simpl.
  - intros r' H'. destruct (decide (r' = r)) as [->|]; [rewrite !upd_eq; simpl; lia|rewrite !upd_ne by done; auto].
  - intros r' H'. destruct (decide (r' = r)) as [->|].
    + rewrite !upd_eq, list_lookup_insert_eq; [done|]. eapply lookup_lt_Some, Hp, Hlt.
    + rewrite !upd_ne, list_lookup_insert_ne by done. auto.
  - intros r' H'. destruct (decide (r' = r)) as [->|].
    + rewrite upd_eq, list_lookup_insert_eq by (by eapply lookup_lt_Some). eexists. split; [done|].
      rewrite length_insert. split; [done|]. intros j Hj. rewrite rSlice_sSlice, Hsl.
      pose proof (sSlice_lt n r (S (I r)) Hn).
      destruct (decide (sSlice n r j = sSlice n r (S (I r)))) as [E|E].
      * rewrite E, list_lookup_insert_eq by lia. symmetry. by apply lookup_xs.
      * rewrite list_lookup_insert_ne by done. apply Vb. destruct (decide (j = S (I r))); [congruence|lia].
    + rewrite upd_ne, list_lookup_insert_ne by done. auto.
  - intros r' H'. destruct (decide (r' = p)) as [->|Hne].
    + rewrite list_lookup_insert_eq by (by eapply lookup_lt_Some).
      rewrite Hnp, upd_eq, !upd_ne by done. split; [lia|done].
    + rewrite list_lookup_insert_ne by done.
      assert (next_rank n r' <> r) by (intros E; apply Hne; auto).
      destruct (Hq r' H') as [Hle' Eq']. rewrite (upd_ne I r _ (next_rank n r')) by done.
      destruct (decide (r' = r)) as [->|]; [|rewrite !upd_ne by done; auto].
      rewrite !upd_eq. rewrite HB in *. simpl b2n in *.
      replace (S (I r) + 0)%nat with (I r + 1)%nat by lia. done.
Qed.

Lemma ag_step I B s r s' :
  ag_inv I B s -> queue_step n s r = Some s' -> length (progs s) = n ->
  (r < n)%nat /\ exists I' B', ag_inv I' B' s' /\ (forall r', (I r' + b2n (B r') <= I' r' + b2n (B' r'))%nat).
Proof.
  intros Inv Hs Hl.
  assert (Hlt : (r < n)%nat).
  { unfold queue_step in Hs. destruct (bufs s !! r); [|done]. cbn in Hs.
    destruct (progs s !! r) eqn:E; [|done]. apply lookup_lt_Some in E. lia. }
  split; [done|]. destruct (B r) eqn:HB.
  - exists (upd I r (S (I r))), (upd B r false). split; [by apply (ag_recv _ _ s)|].
    intros r'. destruct (decide (r' = r)) as [->|]; [rewrite !upd_eq, HB; simpl; lia|by rewrite !upd_ne].
  - exists I, (upd B r true). split; [by apply (ag_send _ _ s)|].
    intros r'. destruct (decide (r' = r)) as [->|]; [rewrite !upd_eq, HB; simpl; lia|by rewrite !upd_ne].
Qed.

(** Initially nothing has moved and each rank holds its own slice. *)
Definition own_slices (bs : list (list (list Z))) : Prop :=
  length bs = n /\ forall r b, bs !! r = Some b -> length b = n /\ b !! r = xs !! r.

Lemma ag_init bs :
  own_slices bs -> ag_inv (fun _ => 0%nat) (fun _ => false) (queue_init n bs (allGather n)).
Proof.
  intros [Hl Hb]. split; simpl.
  - lia.
  - intros r Hr. rewrite list_lookup_fmap, lookup_seq_lt by done. simpl.
    unfold allGather. by replace (n - 1 - 0)%nat with (n - 1)%nat by lia.
  - intros r Hr. destruct (lookup_lt_is_Some_2 bs r ltac:(lia)) as [b E]. destruct (Hb r b E) as [Lb Vb].
    exists b. split; [done|]. split; [done|]. intros j Hj. replace j with 0%nat by lia.
    by rewrite sSlice_own.
  - intros r Hr. split; [lia|]. by rewrite lookup_replicate_2.
Qed.

Lemma ag_run bs sched s :
  own_slices bs -> queue_run n (queue_init n bs (allGather n)) sched = Some s ->
  length (progs s) = n /\ exists I B, ag_inv I B s.
Proof.
  intros Ho. assert (Hgen : forall sched s0 I B, ag_inv I B s0 -> length (progs s0) = n ->
    queue_run n s0 sched = Some s -> length (progs s) = n /\ exists I B, ag_inv I B s).
  { clear sched. intros sched. induction sched as [|r sched IH]; intros s0 I B Inv Hl H; simpl in H.
    - injection H as <-. eauto.
    - destruct (queue_step n s0 r) as [s1|] eqn:E; [|done]. cbn in H.
      destruct (ag_step _ _ _ _ _ Inv E Hl) as (_ & I' & B' & Inv' & _).
      eapply IH; [exact Inv'| |exact H]. by rewrite (queue_step_len n _ _ _ E). }
  apply Hgen with (I := fun _ => 0%nat) (B := fun _ => false); [by apply ag_init|].
  simpl. by rewrite length_map, length_seq.
Qed.

Lemma ag_finished I B s r :
  ag_inv I B s -> (r < n)%nat -> finished s r -> I r = (n - 1)%nat /\ B r = false.
Proof.
  intros Inv Hr Hf. unfold finished in Hf. rewrite (ag_prog _ _ _ Inv r Hr) in Hf.
  pose proof (ag_range _ _ _ Inv r Hr). destruct (B r); [done|]. split; [|done].
  destruct (decide (I r < n - 1)%nat); [by rewrite prog_at_send in Hf|]. simpl in *. lia.
Qed.

Lemma ag_buf_full I B s r :
  ag_inv I B s -> (r < n)%nat -> I r = (n - 1)%nat -> bufs s !! r = Some xs.
Proof.
  intros Inv Hr Hi. destruct (ag_buf _ _ _ Inv r Hr) as (b & Eb & Lb & Vb). rewrite Eb. f_equal.
  apply list_eq. intros k. destruct (decide (k < n)%nat) as [Hk|Hk].
  - destruct (sSlice_onto n r k Hr Hk) as (j & Hj & <-). apply Vb. lia.
  - rewrite !lookup_ge_None_2 by lia. done.
Qed.

(** A rank that cannot step although it is not done waits for its predecessor,
    which is then further behind. *)
Lemma ag_blocked I B s r :
  ag_inv I B s -> (r < n)%nat -> queue_step n s r = None -> ~ finished s r ->
  B r = true /\ (I (prev_rank n r) + b2n (B (prev_rank n r)) <= I r)%nat.
Proof.
  intros Inv Hr Hs Hf. pose proof (ag_range _ _ _ Inv r Hr) as Hir.
  destruct (ag_buf _ _ _ Inv r Hr) as (b & Eb & Lb & Vb). unfold queue_step in Hs.
  unfold finished in Hf. rewrite (ag_prog _ _ _ Inv r Hr) in Hf.
  rewrite Eb, (ag_prog _ _ _ Inv r Hr) in Hs. cbn [mbind option_bind] in Hs.
  destruct (B r) eqn:HB; simpl in Hir.
  - split; [done|]. cbn [prog_at] in Hs. pose proof (prev_lt n r Hn) as Hpl.
    destruct (ag_ring _ _ _ Inv _ Hpl) as [Hle Eq]. rewrite next_prev in Hle, Eq by done.
    rewrite Eq in Hs. cbn [mbind option_bind] in Hs.
    destruct (in_flight (prev_rank n r) (I r) _) eqn:E; [|done]. by apply in_flight_nil in E.
  - destruct (decide (I r < n - 1)%nat); [|by rewrite prog_at_end in Hf by lia].
    rewrite prog_at_send in Hs by done. destruct (ag_ring _ _ _ Inv r Hr) as [_ Eq]. rewrite Eq in Hs.
    cbn [mbind option_bind] in Hs. rewrite (Vb (I r)), lookup_xs in Hs by (try apply sSlice_lt; lia).
    done.
Qed.

(** So the ring cannot be stuck: going round it, the counts would fall forever. *)
Lemma ag_no_deadlock I B s r :
  ag_inv I B s -> (r < n)%nat -> ~ finished s r -> exists r', is_Some (queue_step n s r').
Proof.
  intros Inv. assert (Hgen : forall m r, (I r <= m)%nat -> (r < n)%nat -> ~ finished s r ->
    exists r', is_Some (queue_step n s r')).
  { intros m. induction m as [|m IH]; intros r0 Hm Hr Hf;
      (destruct (queue_step n s r0) as [s'|] eqn:E; [by exists r0; rewrite E|]);
      destruct (ag_blocked _ _ _ _ Inv Hr E Hf) as [HB Hle];
      pose proof (prev_lt n r0 Hn) as Hpl; pose proof (ag_range _ _ _ Inv r0 Hr) as Hir; rewrite HB in Hir;
      simpl in Hir;
      (destruct (queue_step n s (prev_rank n r0)) as [s'|] eqn:Ep; [by exists (prev_rank n r0); rewrite Ep|]);
      (assert (Hfp : ~ finished s (prev_rank n r0));
        [intros Hfp; destruct (ag_finished _ _ _ _ Inv Hpl Hfp) as [E1 E2]; rewrite E1, E2 in Hle; simpl in Hle; lia|]);
      destruct (ag_blocked _ _ _ _ Inv Hpl Ep Hfp) as [HBp _]; rewrite HBp in Hle; simpl in Hle; [lia|].
    apply (IH (prev_rank n r0)); [lia|done|done]. }
  intros Hr Hf. by apply (Hgen (I r) r).
Qed.

Lemma ag_completes I B s :
  ag_inv I B s -> length (progs s) = n ->
  exists sched s', queue_run n s sched = Some s' /\ (forall r, (r < n)%nat -> finished s' r) /\
    exists I' B', ag_inv I' B' s'.
Proof.
  remember (queue_remaining s) as m eqn:Em. assert (Hm : (queue_remaining s <= m)%nat) by lia. clear Em.
  revert s I B Hm. induction m as [|m IH]; intros s I B Hm Inv Hl;
    (destruct (not_all_done n s Hl) as [Hall|(r & Hr & Hf)]; [exists [], s; eauto|]);
    destruct (ag_no_deadlock _ _ _ _ Inv Hr Hf) as [r' [s' Hs]];
    pose proof (queue_step_remaining n _ _ _ Hs); [lia|].
  destruct (ag_step _ _ _ _ _ Inv Hs Hl) as (_ & I' & B' & Inv' & _).
  destruct (IH s' I' B' ltac:(lia) Inv') as (sched & s'' & Hrun & Hfin & Hinv);
    [by rewrite (queue_step_len n _ _ _ Hs)|].
  exists (r' :: sched), s''. simpl. rewrite Hs. done.
Qed.

(** Going back [k] ranks from one that has finished, at least [n - k] sends. *)
Lemma ag_started I B s r k :
  ag_inv I B s -> (r < n)%nat -> I r = (n - 1)%nat -> (k < n)%nat ->
  (n - 1 <= I (Nat.iter k (prev_rank n) r) + b2n (B (Nat.iter k (prev_rank n) r)) + (k - 1))%nat.
Proof.
  intros Inv Hr Hi. induction k as [|k IH]; intros Hk; simpl; [lia|].
  set (q := Nat.iter k (prev_rank n) r) in *.
  assert (Hq : (q < n)%nat) by (unfold q; destruct k; simpl; [done|by apply prev_lt]).
  destruct (ag_ring _ _ _ Inv _ (prev_lt n q Hn)) as [Hle _]. rewrite next_prev in Hle by done.
  specialize (IH ltac:(lia)). destruct k as [|k]; [unfold q in *; simpl in *; lia|].
  pose proof (ag_range _ _ _ Inv q Hq). destruct (B q); simpl in *; lia.
Qed.

Lemma iter_prev_onto r r' : (r < n)%nat -> (r' < n)%nat ->
  exists k, (k < n)%nat /\ Nat.iter k (prev_rank n) r = r'.
Proof.
  intros Hr Hr'.
  assert (Hgen : forall k, (k <= r)%nat -> Nat.iter k (prev_rank n) r = (r - k)%nat).
  { intros k. induction k as [|k IH]; intros Hk; simpl; [lia|]. rewrite IH by lia. unfold prev_rank.
    replace (r - k + n - 1)%nat with ((r - S k) + 1 * n)%nat by lia.
    rewrite Nat.Div0.mod_add, Nat.mod_small by lia. lia. }
  destruct (decide (r' <= r)%nat) as [Hle|Hgt].
  - exists (r - r')%nat. split; [lia|]. rewrite Hgen by lia. lia.
  - exists (r + (n - r'))%nat. split; [lia|].
    assert (Hwrap : forall k, (0 < k <= n - r')%nat -> Nat.iter (r + k) (prev_rank n) r = (n - k)%nat).
    { intros k. induction k as [|k IH]; intros Hk; [lia|].
      replace (r + S k)%nat with (S (r + k)) by lia. simpl.
      destruct (decide (k = 0)%nat) as [->|].
      - rewrite Nat.add_0_r, Hgen by lia. rewrite Nat.sub_diag. unfold prev_rank.
        rewrite Nat.mod_small by lia. lia.
      - rewrite IH by lia. unfold prev_rank. replace (n - k + n - 1)%nat with ((n - S k) + 1 * n)%nat by lia.
        rewrite Nat.Div0.mod_add, Nat.mod_small by lia. lia. }
    rewrite Hwrap by lia. lia.
Qed.
End allgather.

(** ** The broadcast invariant *)

Section broadcast.
Context (n root : nat) (x : list Z) (Hn : (2 <= n)%nat) (Hroot : (root < n)%nat).
Abbreviation hop r := (receiveStep n r root).

Lemma hop_lt r : (hop r < n)%nat.
Proof.
  unfold receiveStep.
  pose proof (Z.mod_pos_bound (Z.of_nat r - Z.of_nat root - 1 + Z.of_nat n) (Z.of_nat n) ltac:(lia)). lia.
Qed.

Lemma hop_root r : (r < n)%nat -> hop r = (n - 1)%nat <-> r = root.
Proof.
  intros Hr. unfold receiveStep. split.
  - intros H. destruct (decide (r <= root)%nat).
    + rewrite Z.mod_small in H by lia. lia.
    + replace (Z.of_nat r - Z.of_nat root - 1 + Z.of_nat n) with (Z.of_nat r - Z.of_nat root - 1 + 1 * Z.of_nat n) in H by lia.
      rewrite Z.mod_add in H by lia. rewrite Z.mod_small in H by lia. lia.
  - intros ->. rewrite Z.mod_small by lia. lia.
Qed.

(** The predecessor received one step earlier; the first receiver follows the root. *)
Lemma hop_prev r : (r < n)%nat -> r <> root ->
  (hop r = 0%nat /\ prev_rank n r = root) \/ (hop r = S (hop (prev_rank n r)) /\ prev_rank n r <> root).
Proof.
  intros Hr Hne. assert (Hp : prev_rank n r = if decide (r = 0)%nat then (n - 1)%nat else (r - 1)%nat).
  { unfold prev_rank. case_decide; [subst; rewrite Nat.mod_small; lia|].
    replace (r + n - 1)%nat with ((r - 1) + 1 * n)%nat by lia. rewrite Nat.Div0.mod_add, Nat.mod_small; lia. }
  assert (Hh : forall q, (q < n)%nat -> hop q = if decide (q <= root)%nat then (q + n - root - 1)%nat else (q - root - 1)%nat).
  { intros q Hq. unfold receiveStep. destruct (decide (q <= root)%nat).
    - rewrite Z.mod_small by lia. lia.
    - replace (Z.of_nat q - Z.of_nat root - 1 + Z.of_nat n) with (Z.of_nat q - Z.of_nat root - 1 + 1 * Z.of_nat n) by lia.
      rewrite Z.mod_add by lia. rewrite Z.mod_small by lia. lia. }
  rewrite Hp. clear Hp. rewrite !Hh by (repeat case_decide; lia). repeat case_decide; lia.
Qed.

Lemma concat_at {A} (f : nat -> list A) k m lo :
  (forall i, i <> k -> f i = []) -> (lo <= k < lo + m)%nat -> concat (map f (seq lo m)) = f k.
Proof.
  intros Hf. revert lo. induction m as [|m IH]; intros lo Hk; [lia|]. simpl.
  destruct (decide (lo = k)) as [->|Hne].
  - rewrite <- (app_nil_r (f k)) at 2. f_equal. clear IH Hk.
    assert (Hgen : forall m lo, (k < lo)%nat -> concat (map f (seq lo m)) = []).
    { intros m'. induction m' as [|m' IH]; intros lo Hlo; simpl; [done|]. rewrite Hf, IH by lia. done. }
    apply Hgen. lia.
  - rewrite Hf by done. apply IH. lia.
Qed.

Definition forwards (r : nat) : bool := bool_decide (hop r < n - 2)%nat.

Lemma broadcast_root : broadcast n root root = [ISend 0].
Proof.
  unfold broadcast. rewrite decide_False by lia. rewrite (concat_at _ 0) by
    (try lia; intros i Hi; unfold broadcast_step; rewrite decide_True by done; by rewrite decide_False).
  unfold broadcast_step. by rewrite !decide_True by done.
Qed.

Lemma broadcast_other r : (r < n)%nat -> r <> root ->
  broadcast n r root = IRecv 0 :: (if forwards r then [ISend 0] else []).
Proof.
  intros Hr Hne. unfold broadcast. rewrite decide_False by lia.
  assert (Hh : (hop r < n - 1)%nat).
  { pose proof (hop_lt r). assert (hop r <> n - 1)%nat by (rewrite hop_root; done). lia. }
  rewrite (concat_at _ (hop r)) by
    (try lia; intros i Hi; unfold broadcast_step; rewrite decide_False by done; by rewrite decide_False).
  unfold broadcast_step. rewrite decide_False by done. rewrite decide_True by done.
  unfold forwards. case_decide; [by rewrite bool_decide_true|by rewrite bool_decide_false].
Qed.

(** Who has sent and who has received; what is left of each program. *)
Definition bc_prog (St Rc : nat -> bool) (r : nat) : list instr :=
  if decide (r = root) then (if St r then [] else [ISend 0])
  else if Rc r then (if forwards r && negb (St r) then [ISend 0] else [])
  else IRecv 0 :: (if forwards r then [ISend 0] else []).

Record bc_inv (St Rc : nat -> bool) (s : queue_sys) : Prop := {
  bc_len : length (progs s) = n;
  bc_progs : forall r, (r < n)%nat -> progs s !! r = Some (bc_prog St Rc r);
  bc_buf : forall r, (r < n)%nat -> exists b, bufs s !! r = Some [b] /\ (r = root \/ Rc r = true -> b = x);
  bc_ring : forall r, (r < n)%nat ->
    ring s !! r = Some (if St r && negb (Rc (next_rank n r)) then [x] else []);
  bc_order : forall r, (r < n)%nat -> Rc r = true -> r <> root /\ St (prev_rank n r) = true;
  bc_sent : forall r, (r < n)%nat -> St r = true -> r = root \/ Rc r = true /\ forwards r = true
}.

Lemma bc_init bs :
  length bs = n -> (forall r, (r < n)%nat -> exists b, bs !! r = Some [b] /\ (r = root -> b = x)) ->
  bc_inv (fun _ => false) (fun _ => false) (queue_init n bs (fun r => broadcast n r root)).
Proof.
  intros Hl Hb. split; simpl; try done.
  - by rewrite length_map, length_seq.
  - intros r Hr. rewrite list_lookup_fmap, lookup_seq_lt by done. simpl. f_equal. unfold bc_prog.
    case_decide as E; [rewrite E; apply broadcast_root|by apply broadcast_other].
  - intros r Hr. destruct (Hb r Hr) as (b & E & V). exists b. split; [done|]. intros [|]; auto; done.
  - intros r Hr. by rewrite lookup_replicate_2.
Qed.

Lemma bc_step St Rc s r s' :
  bc_inv St Rc s -> queue_step n s r = Some s' -> exists St' Rc', bc_inv St' Rc' s'.
Proof.
  intros [Hl Hp Hb Hq Ho Hse] Hs.
  assert (Hr : (r < n)%nat).
  { unfold queue_step in Hs. destruct (bufs s !! r); [|done]. cbn in Hs.
    destruct (progs s !! r) eqn:E; [|done]. apply lookup_lt_Some in E. lia. }
  pose proof (prev_lt n r ltac:(lia)) as Hpl. pose proof (next_lt n r ltac:(lia)) as Hnl.
  destruct (Hb r Hr) as (b & Eb & Vb). unfold queue_step in Hs. rewrite Eb, (Hp r Hr) in Hs.
  cbn [mbind option_bind] in Hs. unfold bc_prog in Hs.
  assert (Hcase : (St r = false /\ b = x /\ (r = root \/ Rc r = true /\ forwards r = true) /\
                   Some s' = Some (mkQueues (bufs s) (<[r := []]> (progs s)) (<[r := [x]]> (ring s)))) \/
                  (r <> root /\ Rc r = false /\ St (prev_rank n r) = true /\
                   Some s' = Some (mkQueues (<[r := [x]]> (bufs s))
                     (<[r := if forwards r then [ISend 0] else []]> (progs s)) (<[prev_rank n r := []]> (ring s))))).
  { case_decide as Hroot'; [|destruct (Rc r) eqn:HRc].
    - destruct (St r) eqn:HSt; [done|]. left. rewrite (Hq r Hr), HSt in Hs. simpl in Hs.
      rewrite (Vb (or_introl Hroot')) in *. naive_solver.
    - destruct (forwards r) eqn:Hfw; [|done]. destruct (St r) eqn:HSt; [done|]. simpl in Hs. left.
      rewrite (Hq r Hr), HSt in Hs. simpl in Hs. rewrite (Vb (or_intror eq_refl)) in *. naive_solver.
    - right. rewrite (Hq _ Hpl) in Hs. cbn [mbind option_bind] in Hs. rewrite next_prev, HRc in Hs by done.
      destruct (St (prev_rank n r)); [|done]. simpl in Hs. naive_solver. }
  clear Hs. destruct Hcase as [(HSt & -> & Hwho & E)|(Hne & HRc & HSt & E)]; injection E as ->.
  - assert (HRn : Rc (next_rank n r) = false).
    { destruct (Rc (next_rank n r)) eqn:E; [|done]. destruct (Ho _ Hnl E) as [_ E2].
      rewrite prev_next in E2 by done. congruence. }
    exists (upd St r true), Rc. split; simpl.
    + by rewrite length_insert.
    + intros r' H'. unfold bc_prog. destruct (decide (r' = r)) as [->|Hne].
      * rewrite list_lookup_insert_eq by lia. rewrite upd_eq. f_equal.
        case_decide; [done|]. destruct Hwho as [|[-> ->]]; done.
      * rewrite list_lookup_insert_ne, upd_ne by done. apply Hp, H'.
    + auto.
    + intros r' H'. destruct (decide (r' = r)) as [->|Hne].
      * rewrite list_lookup_insert_eq by (eapply lookup_lt_Some, Hq, Hr). by rewrite upd_eq, HRn.
      * rewrite list_lookup_insert_ne, upd_ne by done. auto.
    + intros r' H' HR. destruct (Ho r' H' HR) as [? HS]. split; [done|].
      destruct (decide (prev_rank n r' = r)) as [->|]; [by rewrite upd_eq|by rewrite upd_ne].
    + intros r' H' HS. destruct (decide (r' = r)) as [->|]; [done|]. rewrite upd_ne in HS by done. auto.
  - assert (HStr : St r = false).
    { destruct (St r) eqn:E; [|done]. destruct (Hse r Hr E) as [|[? _]]; congruence. }
    exists St, (upd Rc r true). split; simpl.
    + by rewrite length_insert.
    + intros r' H'. unfold bc_prog. destruct (decide (r' = r)) as [->|Hne'].
      * rewrite list_lookup_insert_eq by lia. rewrite upd_eq, HStr, decide_False by done. by rewrite andb_true_r.
      * rewrite list_lookup_insert_ne, upd_ne by done. apply Hp, H'.
    + intros r' H'. destruct (decide (r' = r)) as [->|Hne'].
      * rewrite list_lookup_insert_eq by (by eapply lookup_lt_Some). by exists x.
      * rewrite list_lookup_insert_ne, upd_ne by done. auto.
    + intros r' H'. destruct (decide (r' = prev_rank n r)) as [->|Hne'].
      * rewrite list_lookup_insert_eq by (eapply lookup_lt_Some, Hq, Hpl).
        rewrite next_prev, upd_eq by done. by rewrite andb_false_r.
      * rewrite list_lookup_insert_ne by done.
        rewrite upd_ne; [auto|]. intros E. apply Hne'. rewrite <- E. symmetry. by apply prev_next.
    + intros r' H' HR. destruct (decide (r' = r)) as [->|]; [done|]. rewrite upd_ne in HR by done. auto.
    + intros r' H' HS. destruct (decide (r' = r)) as [->|]; [congruence|]. rewrite upd_ne by done. auto.
Qed.

Lemma bc_no_deadlock St Rc s r :
  bc_inv St Rc s -> (r < n)%nat -> ~ finished s r -> exists r', is_Some (queue_step n s r').
Proof.
  intros [Hl Hp Hb Hq Ho Hse].
  assert (Hroot_step : St root = false -> exists r', is_Some (queue_step n s r')).
  { intros HS. exists root. destruct (Hb root Hroot) as (b & Eb & _). unfold queue_step.
    rewrite Eb, (Hp root Hroot), (Hq root Hroot). unfold bc_prog. rewrite decide_True, HS by done. by eexists. }
  assert (Hgen : forall m r, (r < n)%nat -> (if decide (r = root) then 0 else S (hop r))%nat = m ->
    ~ finished s r -> exists r', is_Some (queue_step n s r')).
  { intros m. induction m as [m IH] using lt_wf_ind. intros r0 Hr Hm Hf. unfold finished in Hf.
    rewrite (Hp r0 Hr) in Hf. unfold bc_prog in Hf. case_decide as Hd.
    - apply Hroot_step. rewrite Hd in Hf. by destruct (St root).
    - destruct (Hb r0 Hr) as (b & Eb & _). pose proof (prev_lt n r0 ltac:(lia)) as Hpl.
      destruct (Rc r0) eqn:HRc.
      + destruct (forwards r0) eqn:Hfw; [|done]. destruct (St r0) eqn:HSt; [done|].
        exists r0. unfold queue_step. rewrite Eb, (Hp r0 Hr), (Hq r0 Hr). unfold bc_prog.
        rewrite decide_False, HRc, Hfw, HSt by done. by eexists.
      + destruct (St (prev_rank n r0)) eqn:HSp.
        * exists r0. unfold queue_step. rewrite Eb, (Hp r0 Hr). unfold bc_prog. rewrite decide_False, HRc by done.
          cbn [mbind option_bind]. rewrite (Hq _ Hpl), HSp, next_prev, HRc by done. by eexists.
        * destruct (hop_prev r0 Hr Hd) as [[_ E]|[E E']]; [rewrite E in HSp; auto|].
          assert (hop r0 < n - 1)%nat.
          { pose proof (hop_lt r0). assert (hop r0 <> n - 1)%nat by (by rewrite hop_root). lia. }
          apply (IH (S (hop (prev_rank n r0)))%nat ltac:(lia) (prev_rank n r0) Hpl).
          -- by rewrite decide_False.
          -- unfold finished. rewrite (Hp _ Hpl). unfold bc_prog. rewrite decide_False, HSp by done.
             assert (forwards (prev_rank n r0) = true) as -> by (apply bool_decide_true; lia).
             by destruct (Rc (prev_rank n r0)). }
  intros Hr Hf. by eapply Hgen.
Qed.

Lemma bc_completes s : (exists St Rc, bc_inv St Rc s) ->
  exists sched s', queue_run n s sched = Some s' /\ (forall r, (r < n)%nat -> finished s' r) /\
    exists St Rc, bc_inv St Rc s'.
Proof.
  remember (queue_remaining s) as m eqn:Em. assert (Hm : (queue_remaining s <= m)%nat) by lia. clear Em.
  revert s Hm. induction m as [|m IH]; intros s Hm (St & Rc & Inv);
    (destruct (not_all_done n s (bc_len _ _ _ Inv)) as [Hall|(r & Hr & Hf)]; [exists [], s; eauto|]);
    destruct (bc_no_deadlock _ _ _ _ Inv Hr Hf) as [r' [s' Hs]];
    pose proof (queue_step_remaining n _ _ _ Hs); [lia|].
  pose proof (bc_step _ _ _ _ _ Inv Hs) as Inv'.
  destruct (IH s' ltac:(lia) Inv') as (sched & s'' & Hrun & Hfin & Hinv).
  exists (r' :: sched), s''. simpl. rewrite Hs. done.
Qed.

Lemma bc_run sched s0 s : (exists St Rc, bc_inv St Rc s0) -> queue_run n s0 sched = Some s ->
  exists St Rc, bc_inv St Rc s.
Proof.
  revert s0. induction sched as [|r sched IH]; intros s0 Inv H; simpl in H; [by simplify_eq|].
  destruct (queue_step n s0 r) as [s1|] eqn:E; [|done]. cbn in H. eapply IH; [|exact H].
  destruct Inv as (St & Rc & Inv). by eapply bc_step.
Qed.

Lemma bc_finished St Rc s r :
  bc_inv St Rc s -> (r < n)%nat -> finished s r -> bufs s !! r = Some [x].
Proof.
  intros Inv Hr Hf. destruct (bc_buf _ _ _ Inv r Hr) as (b & -> & V). do 2 f_equal. apply V.
  unfold finished in Hf. rewrite (bc_progs _ _ _ Inv r Hr) in Hf. unfold bc_prog in Hf.
  case_decide; [by left|]. right. by destruct (Rc r).
Qed.
End broadcast.

(** ** Framing and root exchange: lemmas *)

Lemma netRecv_netSend size data rest :
  Z.of_nat (length data) < 2 ^ 31 ->
  netRecv size (netSend data ++ rest) =
  Some (if size <? Z.of_nat (length data) then Throw (EError InvalidUsage) else Ok (data, rest)).
Proof.
  intros Hl. unfold netRecv, netSend. rewrite <- app_assoc.
  rewrite decide_True by (rewrite length_app, le_bytes_len; lia).
  assert (Ht : take 4 (le_bytes 4 (Z.of_nat (length data)) ++ data ++ rest) = le_bytes 4 (Z.of_nat (length data)))
    by (apply take_app_length'; by rewrite le_bytes_len).
  assert (Hd : drop 4 (le_bytes 4 (Z.of_nat (length data)) ++ data ++ rest) = data ++ rest)
    by (apply drop_app_length'; by rewrite le_bytes_len).
  rewrite Ht, Hd, le_val_bytes by (simpl; lia). unfold to_signed.
  destruct (Z.ltb_spec (Z.of_nat (length data)) (2 ^ (8 * Z.of_nat 4 - 1))) as [_|Hge]; [|simpl in Hge; lia].
  destruct (Z.ltb_spec size (Z.of_nat (length data))); [done|].
  replace (Z.to_nat (Z.min (Z.of_nat (length data)) size)) with (length data) by lia.
  rewrite decide_True by (rewrite length_app; lia). by rewrite take_app_length, drop_app_length.
Qed.

(** What the root has collected: the check-ins of distinct ranks. *)
Lemma collect_ok n infos addrs addrsRoot :
  NoDup (map ei_rank infos) ->
  Forall (fun i => (ei_rank i < n)%nat /\ ei_nRanks i = n /\ extAddressListenRoot i <> zero_addr) infos ->
  length addrs = n -> length addrsRoot = n ->
  (forall i, In i infos -> addrsRoot !! ei_rank i = Some zero_addr) ->
  exists a ar, collect n infos (addrs, addrsRoot) = Ok (a, ar) /\ length a = n /\ length ar = n /\
    (forall i, In i infos -> a !! ei_rank i = Some (extAddressListen i) /\
                             ar !! ei_rank i = Some (extAddressListenRoot i)) /\
    (forall r, ~ In r (map ei_rank infos) -> a !! r = addrs !! r /\ ar !! r = addrsRoot !! r).
Proof.
  revert addrs addrsRoot. induction infos as [|i infos IH]; intros addrs addrsRoot Hd Hf La Lr Hz; simpl.
  - exists addrs, addrsRoot. split_and!; try done.
  - apply NoDup_cons in Hd as [Hni Hd]. apply Forall_cons in Hf as [(Hlt & Hn & Hnz) Hf].
    rewrite bool_decide_true by done. simpl. rewrite (Hz i) by (by left).
    rewrite bool_decide_true by done. simpl.
    destruct (IH (<[ei_rank i := extAddressListen i]> addrs) (<[ei_rank i := extAddressListenRoot i]> addrsRoot))
      as (a & ar & E & La' & Lr' & Hin & Hout); try done; try (by rewrite length_insert).
    { intros j Hj. rewrite list_lookup_insert_ne; [apply Hz; by right|].
      intros Eq. apply Hni. rewrite Eq. apply list_elem_of_In, in_map, Hj. }
    exists a, ar. split; [exact E|]. split; [done|]. split; [done|]. split.
    + intros j [<-|Hj]; [|by apply Hin].
      destruct (Hout (ei_rank i)) as [-> ->]; [by rewrite <- list_elem_of_In|].
      rewrite !list_lookup_insert_eq by lia. done.
    + intros r Hr. destruct (Hout r) as [-> ->]; [by intros ?; apply Hr; right|].
      rewrite !list_lookup_insert_ne by (intros Eq; apply Hr; by left). done.
Qed.

(** ** Results *)

Definition demo_slices : list (list Z) := [[10]; [20]; [30]].
Definition demo_bufs : list (list (list Z)) := [[[10]; []; []]; [[]; [20]; []]; [[]; []; [30]]].

Lemma demo_own : own_slices 3 demo_slices demo_bufs.
Proof. split; [done|]. intros [|[|[|r]]] b E; try discriminate E; injection E as <-; done. Qed.

(** the root connects the ring: when every rank checks in once, in any order,
    the root answers rank [r] at its own address with the listening address of
    rank [r + 1] modulo the number of ranks; a second check-in of a rank, or one
    with another rank count, is refused. *)
Theorem root_hands_out_next n infos :
  (0 < n)%nat -> length infos = n -> NoDup (map ei_rank infos) ->
  Forall (fun i => (ei_rank i < n)%nat /\ ei_nRanks i = n /\ extAddressListenRoot i <> zero_addr) infos ->
  exists handles, bootstrapRoot n infos = Ok handles /\
    (forall i j, In i infos -> In j infos -> ei_rank j = next_rank n (ei_rank i) ->
       handles !! ei_rank i = Some (extAddressListenRoot i, extAddressListen j)) /\
    (forall i st st', In i infos -> st.2 !! ei_rank i = Some (extAddressListenRoot i) ->
       getRemoteAddresses n i st <> Ok st').
Proof.
  intros Hn Hl Hd Hf. unfold bootstrapRoot. rewrite take_ge by lia.
  destruct (collect_ok n infos (replicate n zero_addr) (replicate n zero_addr) Hd Hf)
    as (a & ar & -> & La & Lr & Hin & _); try apply length_replicate.
  { intros i Hi. apply lookup_replicate_2. rewrite Forall_forall in Hf. apply Hf. by apply list_elem_of_In. }
  cbn [mbind result_bind]. eexists. split; [done|]. rewrite Forall_forall in Hf. split.
  - intros i j Hi Hj E. assert (Hlt : (ei_rank i < n)%nat) by (apply Hf; by apply list_elem_of_In).
    rewrite list_lookup_fmap, lookup_seq_lt by done. simpl. unfold sendHandleToPeer. simpl.
    destruct (Hin i Hi) as [_ E1], (Hin j Hj) as [E2 _]. rewrite <- E.
    by rewrite (list_lookup_total_correct _ _ _ E1), (list_lookup_total_correct _ _ _ E2).
  - intros i [b br] st' Hi E H. simpl in E. unfold getRemoteAddresses in H.
    apply throw_if_bind in H as [_ H]. rewrite E in H. apply throw_if_bind in H as [Hz _].
    rewrite negb_false_iff in Hz. apply bool_decide_eq_true in Hz.
    destruct (Hf i) as (_ & _ & Hnz); [by apply list_elem_of_In|done].
Qed.

Definition demo_info (r : nat) : ExtInfo := mkExtInfo r 2 [1; Z.of_nat r] [2; Z.of_nat r].

Lemma root_hands_out_next_witness :
  exists handles, bootstrapRoot 2 [demo_info 1; demo_info 0] = Ok handles /\
    handles !! 1%nat = Some ([1; 1], [2; 0]).
Proof.
  destruct (root_hands_out_next 2 [demo_info 1; demo_info 0] ltac:(lia) eq_refl) as (h & E & H & _).
  - simpl. repeat constructor; set_solver.
  - repeat constructor; done.
  - exists h. split; [exact E|]. exact (H (demo_info 1) (demo_info 0) ltac:(by left) ltac:(right; by left) eq_refl).
Defined.

(** a vector sent with [Bootstrap::send] is received by [Bootstrap::recv]
    unchanged and leaves the following messages alone; a message longer than the
    receiver's buffer is an error and never overruns it. *)
Theorem vector_roundtrip data rest size :
  Z.of_nat (length data) < 2 ^ 31 ->
  recv_vector (send_vector data ++ rest) = Some (Ok (data, rest)) /\
  (size < Z.of_nat (length data) -> netRecv size (netSend data ++ rest) = Some (Throw (EError InvalidUsage))).
Proof.
  intros Hl. split.
  - unfold recv_vector, send_vector. rewrite <- app_assoc.
    rewrite netRecv_netSend by (rewrite le_bytes_len; lia). rewrite le_bytes_len.
    change (8 <? Z.of_nat 8) with false. cbn [mbind option_bind].
    rewrite le_val_bytes by (simpl; lia). rewrite netRecv_netSend by done.
    by rewrite Z.ltb_irrefl.
  - intros Hs. rewrite netRecv_netSend by done. by rewrite (proj2 (Z.ltb_lt _ _) Hs).
Qed.

Lemma vector_roundtrip_witness : recv_vector (send_vector [1; 2; 3] ++ [9]) = Some (Ok ([1; 2; 3], [9])).
Proof. exact (proj1 (vector_roundtrip [1; 2; 3] [9] 0 ltac:(simpl; lia))). Defined.
