(* ===== verification/RingSockets.v ===== *)
(** * The ring collectives over sockets

    The ring collectives of src/core/bootstrap/bootstrap.cc as they run on their sockets.  [netSend] and
    [netRecv] block: a send returns when all its bytes are in the buffers of the connection,
    which hold a limited number, and a receive reads what has arrived until its message is complete.
    Every step moves as many bytes as the kernel likes, and the ranks interleave arbitrarily.

    Every run is one of the machine of Bootstrap, whose sockets are queues of messages, if a
    message counts as sent when the send begins and as received when the receive ends; so what
    holds in all states of that machine holds here.  Progress depends on the buffers. *)

From stdpp Require Import functions.
From S2P Require Import Prelude Errors Core Bootstrap.
Local Open Scope Z_scope.

(** ** The machine *)

(** [r_wire r]: the bytes in the buffers between rank [r] and its successor; [r_out r]: what the
    [netSend] of rank [r] has still to hand over; [r_in r]: what its [netRecv] has read. *)
Record ring_sys := mkRing {
  r_bufs : list (list (list Z)); r_progs : list (list instr);
  r_out : nat -> list Z; r_wire : nat -> list Z; r_in : nat -> list Z
}.

(** How many bytes [netRecv] waits for next: the rest of the size, then of the data.  [size]: the
    receiver's buffer. *)
Definition needed (size : Z) (got : list Z) : result nat :=
  if decide (length got < 4)%nat then Ok (4 - length got)%nat
  else let recvSize := to_signed 4 (le_val (take 4 got)) in
       _ ← throw_if (size <? recvSize) (EError InvalidUsage);
       Ok (4 + Z.to_nat (Z.min recvSize size) - length got)%nat.

Section machine.
(** [cap]: how many bytes the buffers of a ring connection hold, those of the sender and of the receiver
    together; [size]: the argument of the collective. *)
Context (n cap : nat) (size : Z).

(** A step of rank [r], in which up to [k] bytes move; [None]: it is blocked, or done. *)
Definition ring_step (s : ring_sys) (r k : nat) : option (result ring_sys) :=
  buf ← r_bufs s !! r;
  prog ← r_progs s !! r;
  match r_out s r with
  | _ :: _ =>
      let m := Nat.min k (cap - length (r_wire s r)) in
      if decide (m = 0)%nat then None
      else Some (Ok (mkRing (r_bufs s) (r_progs s) (<[r := drop m (r_out s r)]> (r_out s))
                       (<[r := r_wire s r ++ take m (r_out s r)]> (r_wire s)) (r_in s)))
  | [] =>
      match prog with
      | [] => None
      | ISend sl :: rest =>
          d ← buf !! sl;
          Some (Ok (mkRing (r_bufs s) (<[r := rest]> (r_progs s)) (<[r := netSend d]> (r_out s)) (r_wire s) (r_in s)))
      | IRecv sl :: rest =>
          let got := r_in s r in
          let w := r_wire s (prev_rank n r) in
          match needed size got with
          | Throw e => Some (Throw e)
          | Ok O =>
              Some (Ok (mkRing (<[r := <[sl := drop 4 got]> buf]> (r_bufs s)) (<[r := rest]> (r_progs s)) (r_out s) (r_wire s)
                          (<[r := []]> (r_in s))))
          | Ok want =>
              let m := Nat.min k (Nat.min want (length w)) in
              if decide (m = 0)%nat then None
              else Some (Ok (mkRing (r_bufs s) (r_progs s) (r_out s) (<[prev_rank n r := drop m w]> (r_wire s))
                               (<[r := got ++ take m w]> (r_in s))))
          end
      end
  end.

Fixpoint ring_run (s : ring_sys) (sched : list (nat * nat)) : option (result ring_sys) :=
  match sched with
  | [] => Some (Ok s)
  | (r, k) :: sched' =>
      x ← ring_step s r k;
      match x with Ok s' => ring_run s' sched' | Throw e => Some (Throw e) end
  end.

Definition ring_init (bs : list (list (list Z))) (prog : nat -> list instr) : ring_sys :=
  mkRing bs (map prog (seq 0 n)) (fun _ => []) (fun _ => []) (fun _ => []).

(** The call of rank [r] has returned. *)
Definition finished (s : ring_sys) (r : nat) : Prop := r_progs s !! r = Some [] /\ r_out s r = [].

(** ** The machine of messages *)

Context (Hsize : 0 <= size < 2 ^ 31).

Lemma netSend_length d : length (netSend d) = (4 + length d)%nat.
Proof using. unfold netSend. by rewrite length_app, le_bytes_len. Qed.

(** What [netRecv] needs when it has read a part of a message. *)
Lemma needed_part got rest d more : got ++ rest = netSend d ++ more -> (length got <= length (netSend d))%nat ->
  Z.of_nat (length d) <= size ->
  exists want, needed size got = Ok want /\ (length got + want <= length (netSend d))%nat /\ (want = 0%nat -> got = netSend d).
Proof using Hsize.
  intros E Hl Hd. assert (Eg : got = take (length got) (netSend d)).
  { rewrite <- (take_app_le (netSend d) more) by done. rewrite <- E. by rewrite take_app_length. }
  rewrite netSend_length in Hl. unfold needed. case_decide as H4; [exists (4 - length got)%nat; rewrite netSend_length; split; [done|split; lia]|].
  assert (E4 : take 4 got = le_bytes 4 (Z.of_nat (length d))).
  { rewrite Eg. rewrite take_take, Nat.min_l by lia. unfold netSend. apply take_app_length'. by rewrite le_bytes_len. }
  assert (Ev : to_signed 4 (le_val (take 4 got)) = Z.of_nat (length d)).
  { rewrite E4, le_val_bytes by (simpl; lia). unfold to_signed. change (2 ^ (8 * Z.of_nat 4 - 1)) with (2 ^ 31).
    by rewrite (proj2 (Z.ltb_lt _ _)) by lia. }
  cbv zeta. rewrite Ev. rewrite (proj2 (Z.ltb_ge size _)) by lia. cbn [throw_if mbind result_bind].
  rewrite Z.min_l, Nat2Z.id by lia. eexists. split; [done|]. rewrite netSend_length. split; [lia|].
  intros Hw. rewrite Eg, take_ge; [done|]. rewrite netSend_length. lia.
Qed.

(** The bytes between rank [r] and its successor are those of the messages in the queue; a message is
    read by a rank that is in [netRecv]. *)
Record view (s : ring_sys) (q : queue_sys) : Prop := {
  vw_bufs : r_bufs s = bufs q;
  vw_progs : r_progs s = progs q;
  vw_ranks : length (progs q) = n /\ length (ring q) = n;
  vw_bytes : forall r msgs, ring q !! r = Some msgs ->
    r_in s (next_rank n r) ++ r_wire s r ++ r_out s r = concat (map netSend msgs) /\
    Forall (fun d => Z.of_nat (length d) <= size) msgs /\
    match msgs with [] => True | d :: _ => (length (r_in s (next_rank n r)) <= length (netSend d))%nat end;
  vw_cap : forall r, (length (r_wire s r) <= cap)%nat;
  vw_slots : forall r b, bufs q !! r = Some b -> Forall (fun d => Z.of_nat (length d) <= size) b
}.

Context (Hn : (0 < n)%nat).

Lemma view_empty s q r : view s q -> ring q !! r = Some [] -> r_in s (next_rank n r) = [] /\ r_wire s r = [] /\ r_out s r = [].
Proof using. intros V E. destruct (vw_bytes _ _ V _ _ E) as (Hb & _). simpl in Hb. by apply app_nil in Hb as [? [? ?]%app_nil]. Qed.

(** Bytes that move between two places of a connection. *)
Lemma view_move s q r i w o :
  view s q -> (r < n)%nat -> i ++ w ++ o = r_in s (next_rank n r) ++ r_wire s r ++ r_out s r ->
  (forall d ms, ring q !! r = Some (d :: ms) -> (length i <= length (netSend d))%nat) -> (length w <= cap)%nat ->
  view (mkRing (r_bufs s) (r_progs s) (<[r := o]> (r_out s)) (<[r := w]> (r_wire s)) (<[next_rank n r := i]> (r_in s))) q.
Proof using Hn.
  intros V Hr Hb Hd Hw. destruct V as [V1 V2 [V3 V4] V5 V6 V7]. split; simpl; try done.
  - intros r' msgs E. destruct (decide (r' = r)) as [->|Hne].
    + rewrite !fn_lookup_insert, Hb. destruct (V5 _ _ E) as (H1 & H2 & H3). split; [done|]. split; [done|].
      destruct msgs; [done|]. by eapply Hd.
    + assert (next_rank n r <> next_rank n r').
      { intros En. apply Hne. pose proof (lookup_lt_Some _ _ _ E). rewrite <- (prev_next n r'), <- En, prev_next; [done|done|lia]. }
      rewrite !fn_lookup_insert_ne by done. auto.
  - intros r'. destruct (decide (r' = r)) as [->|Hne]; [by rewrite fn_lookup_insert|by rewrite fn_lookup_insert_ne].
Qed.

(** [insert] of what is there changes nothing that the machine looks at; so [view] is up to equality at
    every rank. *)
Lemma view_ext s s' q : r_bufs s = r_bufs s' -> r_progs s = r_progs s' ->
  (forall r, r_out s r = r_out s' r) -> (forall r, r_wire s r = r_wire s' r) -> (forall r, r_in s r = r_in s' r) ->
  view s q -> view s' q.
Proof using.
  intros E1 E2 E3 E4 E5 [V1 V2 V3 V4 V5 V6]. split; try congruence.
  - intros r msgs E. rewrite <- E3, <- E4, <- E5. by apply V4.
  - intros r. rewrite <- E4. apply V5.
  - done.
Qed.

Lemma fn_insert_id {A} (f : nat -> A) (r : nat) (v : A) x : f r = v -> <[r := v]> f x = f x.
Proof using. intros <-. destruct (decide (x = r)) as [->|]; [by rewrite fn_lookup_insert|by rewrite fn_lookup_insert_ne]. Qed.

(** A step of bytes only, or of the machine of messages as well. *)
Lemma ring_step_view s q r k x : view s q -> ring_step s r k = Some x ->
  exists s', x = Ok s' /\ (view s' q \/ exists q', queue_step n q r = Some q' /\ view s' q').
Proof using Hn Hsize.
  intros V H. pose proof V as [V1 V2 [V3 V4] V5 V6 V7]. unfold ring_step in H. rewrite V1, V2 in H.
  destruct (bufs q !! r) as [buf|] eqn:Eb; [|done]. destruct (progs q !! r) as [prog|] eqn:Ep; [|done]. cbn [mbind option_bind] in H.
  assert (Hr : (r < n)%nat) by (rewrite <- V3; by eapply lookup_lt_Some).
  destruct (r_out s r) as [|c o] eqn:Eo.
  2: { case_decide; [done|]. injection H as <-. eexists. split; [done|]. left.
    set (m := Nat.min k (cap - length (r_wire s r))) in *.
    refine (view_ext _ _ q _ _ _ _ _ (view_move s q r (r_in s (next_rank n r)) (r_wire s r ++ take m (c :: o)) (drop m (c :: o)) V Hr _ _ _));
      simpl; try done; rewrite ?V1, ?V2; try done.
    - intros r'. by apply fn_insert_id.
    - by rewrite <- app_assoc, take_drop, Eo.
    - intros d ms E. by destruct (V5 _ _ E) as (_ & _ & ?).
    - rewrite length_app, length_take. specialize (V6 r). lia. }
  destruct prog as [|[sl|sl] rest]; [done| |].
  - destruct (buf !! sl) as [d|] eqn:Ed; [|done]. cbn [mbind option_bind] in H. injection H as <-. eexists. split; [done|]. right.
    destruct (lookup_lt_is_Some_2 (ring q) r ltac:(lia)) as [msgs Er]. unfold queue_step. rewrite Eb, Ep, Er. cbn [mbind option_bind].
    rewrite Ed. cbn [mbind option_bind]. eexists. split; [done|]. split; simpl; try done.
    + split; [by rewrite length_insert|by rewrite length_insert].
    + intros r' ms E. destruct (decide (r' = r)) as [->|Hne].
      * rewrite list_lookup_insert_eq in E by lia. injection E as <-. rewrite fn_lookup_insert.
        destruct (V5 _ _ Er) as (H1 & H2 & H3). rewrite Eo, app_nil_r in H1. rewrite app_assoc, H1, map_app, concat_app. simpl. rewrite app_nil_r.
        split; [done|]. split; [apply Forall_app; split; [done|apply Forall_singleton; exact (Forall_lookup_1 _ _ _ _ (V7 _ _ Eb) Ed)]|].
        destruct msgs as [|d' msgs]; [|done]. simpl in H1. apply app_nil in H1 as [-> _]. simpl. lia.
      * rewrite list_lookup_insert_ne in E by done. rewrite fn_lookup_insert_ne by done. auto.
  - set (p := prev_rank n r) in *. assert (Hp : (p < n)%nat) by (by apply prev_lt). assert (Enp : next_rank n p = r) by (by apply next_prev).
    destruct (lookup_lt_is_Some_2 (ring q) p ltac:(lia)) as [msgs Er]. destruct (V5 _ _ Er) as (H1 & H2 & H3). rewrite Enp in H1, H3.
    destruct msgs as [|d ms].
    { destruct (view_empty _ _ _ V Er) as (Ei & Ew & _). rewrite Enp in Ei. rewrite Ei, Ew in H. simpl in H.
      rewrite Nat.min_0_r in H. by destruct (decide _). }
    apply Forall_cons in H2 as [Hd H2]. cbn [map concat] in H1. destruct (needed_part (r_in s r) _ d _ H1 H3 Hd) as (want & En & Hle & Hw). rewrite En in H.
    destruct want as [|want].
    + injection H as <-. eexists. split; [done|]. right. unfold queue_step. rewrite Eb, Ep. cbn [mbind option_bind]. fold p. rewrite Er. cbn [mbind option_bind].
      pose proof (Hw eq_refl) as Eg. rewrite Eg in H1. assert (Edrop : drop 4 (r_in s r) = d) by (rewrite Eg; unfold netSend; apply drop_app_length'; by rewrite le_bytes_len).
      eexists. split; [done|]. split; simpl; try done.
      * by rewrite Edrop.
      * split; by rewrite length_insert.
      * intros r' ms' E. destruct (decide (r' = p)) as [->|Hne].
        -- rewrite list_lookup_insert_eq in E by lia. injection E as <-. rewrite Enp, fn_lookup_insert. split; [by apply app_inv_head in H1|].
           split; [done|]. destruct ms; [done|]. simpl. lia.
        -- rewrite list_lookup_insert_ne in E by done. rewrite fn_lookup_insert_ne; [auto|].
           intros En'. apply Hne. pose proof (lookup_lt_Some _ _ _ E). unfold p. rewrite En'. symmetry. apply prev_next. lia.
      * intros r' b' E. destruct (decide (r' = r)) as [->|Hne].
        -- rewrite list_lookup_insert_eq in E by (by eapply lookup_lt_Some). injection E as <-. apply Forall_insert; [by eapply V7|done].
        -- rewrite list_lookup_insert_ne in E by done. by eapply V7.
    + case_decide as Hm; [done|]. injection H as <-. eexists. split; [done|]. left. set (m := Nat.min k _) in *.
      refine (view_ext _ _ q _ _ _ _ _ (view_move s q p (r_in s r ++ take m (r_wire s p)) (drop m (r_wire s p)) (r_out s p) V Hp _ _ _));
        simpl; try done; rewrite ?V1, ?V2; try done.
      * intros r'. by apply fn_insert_id.
      * by rewrite Enp.
      * rewrite Enp, <- app_assoc. f_equal. by rewrite app_assoc, take_drop.
      * intros d' ms' E. rewrite Er in E. injection E as <- <-. rewrite netSend_length in Hle. rewrite length_app, length_take. unfold m. lia.
      * rewrite length_drop. specialize (V6 p). lia.
Qed.

Lemma ring_run_view s q l x : view s q -> ring_run s l = Some x ->
  exists s' q' lq, x = Ok s' /\ queue_run n q lq = Some q' /\ view s' q'.
Proof using Hn Hsize.
  revert s q. induction l as [|[r k] l IH]; intros s q V H; simpl in H; [injection H as <-; by exists s, q, []|].
  destruct (ring_step s r k) as [y|] eqn:E; [|done]. cbn [mbind option_bind] in H.
  destruct (ring_step_view _ _ _ _ _ V E) as (s1 & -> & [V1|(q1 & E1 & V1)]); destruct (IH _ _ V1 H) as (s' & q' & lq & -> & Hq & V').
  - by exists s', q', lq.
  - exists s', q', (r :: lq). simpl. by rewrite E1.
Qed.

Lemma view_init bs prog : Forall (Forall (fun d => Z.of_nat (length d) <= size)) bs -> view (ring_init bs prog) (queue_init n bs prog).
Proof using Hn.
  intros Hs. split; simpl; try done.
  - by rewrite length_map, length_seq, length_replicate.
  - intros r msgs E. apply lookup_replicate in E as [-> _]. done.
  - intros. lia.
  - intros r b. by apply Forall_lookup_1.
Qed.

(** *** When nothing moves *)

Definition stuck (s : ring_sys) : Prop := forall r, (r < n)%nat -> ring_step s r 1 = None.

Lemma stuck_or s : stuck s \/ exists r, (r < n)%nat /\ is_Some (ring_step s r 1).
Proof using Hn.
  destruct (Forall_Exists_dec (fun r => ring_step s r 1 = None) (fun r => is_Some (ring_step s r 1))
    (fun r => match ring_step s r 1 as o return {o = None} + {is_Some o} with None => left eq_refl | Some x => right (ex_intro _ x eq_refl) end)
    (seq 0 n)) as [H|H].
  - left. intros r Hr. rewrite Forall_forall in H. apply H, elem_of_seq. lia.
  - right. apply Exists_exists in H as (r & Hr%elem_of_seq & H). exists r. split; [lia|done].
Qed.

(** A rank that is stuck in a send has filled the buffers. *)
Lemma stuck_out s q r : (0 < cap)%nat -> view s q -> length (bufs q) = n -> stuck s -> (r < n)%nat -> r_out s r <> [] -> (cap <= length (r_wire s r))%nat.
Proof using Hn.
  intros Hcap V Hb Hs Hr Ho. specialize (Hs r Hr). unfold ring_step in Hs. rewrite (vw_bufs _ _ V), (vw_progs _ _ V) in Hs. destruct (vw_ranks _ _ V) as [Hp _].
  destruct (lookup_lt_is_Some_2 (bufs q) r ltac:(lia)) as [b Eb]. destruct (lookup_lt_is_Some_2 (progs q) r ltac:(lia)) as [p Ep].
  rewrite Eb, Ep in Hs. cbn [mbind option_bind] in Hs. destruct (r_out s r); [done|]. case_decide; [lia|done].
Qed.

(** A rank that is not in a send waits for what it waits for in the machine of messages. *)
Lemma stuck_rank s q r : (0 < cap)%nat -> view s q -> length (bufs q) = n -> stuck s -> (r < n)%nat -> r_out s r = [] -> queue_step n q r = None.
Proof using Hn Hsize.
  intros Hcap V Hb Hs Hr Ho. pose proof (Hs r Hr) as H. unfold ring_step in H. rewrite (vw_bufs _ _ V), (vw_progs _ _ V), Ho in H. unfold queue_step.
  destruct (bufs q !! r) as [b|]; [|done]. destruct (progs q !! r) as [p|]; [|done]. cbn [mbind option_bind] in *.
  destruct p as [|[sl|sl] rest]; [done| |].
  - destruct (ring q !! r); [|done]. cbn [mbind option_bind]. by destruct (b !! sl).
  - set (p := prev_rank n r) in *. assert (Hp : (p < n)%nat) by (by apply prev_lt). assert (Enp : next_rank n p = r) by (by apply next_prev).
    destruct (ring q !! p) as [[|d ms]|] eqn:Er; [done| |done]. exfalso.
    destruct (vw_bytes _ _ V _ _ Er) as (H1 & H2 & H3). rewrite Enp in H1, H3. apply Forall_cons in H2 as [Hd _]. cbn [map concat] in H1.
    destruct (needed_part _ _ d _ H1 H3 Hd) as (want & En & Hle & Hw). rewrite En in H. destruct want as [|want]; [done|].
    case_decide as Hm; [|done]. assert (Ew : r_wire s p = []) by (destruct (r_wire s p); [done|simpl in Hm; lia]).
    pose proof (stuck_out s q p Hcap V Hb Hs Hp) as Hf. rewrite Ew in Hf. destruct (r_out s p) as [|c o]; [|specialize (Hf ltac:(done)); simpl in Hf; lia].
    rewrite Ew in H1. apply (f_equal length) in H1. rewrite !length_app in H1. simpl in H1. rewrite netSend_length in *. lia.
Qed.

(** *** The end of a run *)

Definition total (f : nat -> list Z) : nat := sum_list (map (fun r => length (f r)) (seq 0 n)).

Lemma total_insert f r v : (r < n)%nat -> (total (<[r := v]> f) + length (f r) = total f + length v)%nat.
Proof using Hn.
  intros Hr. unfold total. rewrite <- (sum_list_insert _ r (length (f r)) (length v)); [|by rewrite list_lookup_fmap, lookup_seq_lt].
  do 2 f_equal. apply list_eq. intros i. destruct (decide (i < n)%nat) as [Hi|Hi].
  - rewrite list_lookup_fmap, lookup_seq_lt by done. simpl. destruct (decide (i = r)) as [->|Hne].
    + by rewrite fn_lookup_insert, list_lookup_insert_eq by (rewrite length_map, length_seq; done).
    + by rewrite fn_lookup_insert_ne, list_lookup_insert_ne, list_lookup_fmap, lookup_seq_lt by done.
  - rewrite !lookup_ge_None_2; rewrite ?length_insert, ?length_map, ?length_seq; done || lia.
Qed.

(** How many steps are left at most. *)
Definition steps_left (s : ring_sys) : nat :=
  (sum_list (length <$> r_progs s) * (2 * (4 + Z.to_nat size) + 1) + (2 * total (r_out s) + total (r_wire s)))%nat.

Lemma progs_insert (ps : list (list instr)) r i rest : ps !! r = Some (i :: rest) ->
  sum_list (length <$> ps) = S (sum_list (length <$> <[r := rest]> ps)).
Proof using Hn.
  intros E. rewrite list_fmap_insert. assert (El : (length <$> ps) !! r = Some (S (length rest))) by (by rewrite list_lookup_fmap, E).
  pose proof (sum_list_insert _ _ _ (length rest) El). lia.
Qed.

Lemma ring_step_left s q r k s' : view s q -> ring_step s r k = Some (Ok s') -> (steps_left s' < steps_left s)%nat.
Proof using Hn Hsize.
  intros V H. pose proof V as [V1 V2 [V3 V4] V5 V6 V7]. unfold ring_step in H. rewrite V1, V2 in H. unfold steps_left. rewrite V2.
  destruct (bufs q !! r) as [buf|] eqn:Eb; [|done]. destruct (progs q !! r) as [prog|] eqn:Ep; [|done]. cbn [mbind option_bind] in H.
  assert (Hr : (r < n)%nat) by (rewrite <- V3; by eapply lookup_lt_Some). pose proof (prev_lt n r Hn) as Hp.
  destruct (r_out s r) as [|c o] eqn:Eo.
  2: { case_decide; [done|]. injection H as <-. simpl r_progs. simpl r_out. simpl r_wire. set (m := Nat.min k _) in *.
    pose proof (total_insert (r_out s) r (drop m (c :: o)) Hr) as T1. pose proof (total_insert (r_wire s) r (r_wire s r ++ take m (c :: o)) Hr) as T2.
    rewrite Eo, length_drop in T1. rewrite length_app, length_take in T2. simpl length in *. lia. }
  destruct prog as [|[sl|sl] rest]; [done| |].
  - destruct (buf !! sl) as [d|] eqn:Ed; [|done]. cbn [mbind option_bind] in H. injection H as <-. simpl r_progs. simpl r_out. simpl r_wire.
    rewrite (progs_insert _ _ _ _ Ep). pose proof (total_insert (r_out s) r (netSend d) Hr) as T1. rewrite Eo, netSend_length in T1. simpl length in T1.
    pose proof (Forall_lookup_1 _ _ _ _ (V7 _ _ Eb) Ed) as Hd. simpl in Hd. lia.
  - destruct (needed size (r_in s r)) as [[|want]|e]; [| |done].
    + injection H as <-. simpl r_progs. simpl r_out. simpl r_wire. rewrite (progs_insert _ _ _ _ Ep). lia.
    + case_decide as Hm; [done|]. injection H as <-. simpl r_progs. simpl r_out. simpl r_wire. set (m := Nat.min k _) in *.
      pose proof (total_insert (r_wire s) (prev_rank n r) (drop m (r_wire s (prev_rank n r))) Hp) as T. rewrite length_drop in T. lia.
Qed.

Lemma ring_run_app s l1 l2 s1 : ring_run s l1 = Some (Ok s1) -> ring_run s (l1 ++ l2) = ring_run s1 l2.
Proof using.
  revert s. induction l1 as [|[r k] l1 IH]; intros s H; simpl in *; [by injection H as ->|].
  destruct (ring_step s r k) as [[s2|e]|]; cbn [mbind option_bind] in *; [by apply IH|done|done].
Qed.

(** If the ranks are never stuck before all are done, every run can be completed, and is bounded. *)
Lemma ring_completes (P : queue_sys -> Prop) :
  (forall q r q', P q -> queue_step n q r = Some q' -> P q') ->
  (forall s q, view s q -> P q -> stuck s -> forall r, (r < n)%nat -> finished s r) ->
  forall s q, view s q -> P q -> exists l s' q', ring_run s l = Some (Ok s') /\ view s' q' /\ P q' /\ forall r, (r < n)%nat -> finished s' r.
Proof using Hn Hsize.
  intros HP Hst s. remember (steps_left s) as m eqn:Em. revert s Em. induction (lt_wf m) as [m _ IH]. intros s -> q V Pq.
  destruct (stuck_or s) as [Hs|(r & Hr & x & Ex)]; [exists [], s, q; split_and!; try done; by eapply Hst|].
  destruct (ring_step_view _ _ _ _ _ V Ex) as (s1 & -> & H). pose proof (ring_step_left _ _ _ _ _ V Ex) as Hlt.
  assert (Hq : exists q1, view s1 q1 /\ P q1) by (destruct H as [?|(q1 & E1 & ?)]; [by exists q|exists q1; split; [done|by eapply HP]]).
  destruct Hq as (q1 & V1 & P1). destruct (IH _ Hlt s1 eq_refl q1 V1 P1) as (l & s' & q' & Hl & V' & P' & Hf).
  exists ((r, 1%nat) :: l), s', q'. simpl. rewrite Ex. by cbn [mbind option_bind].
Qed.

Lemma ring_run_bounded s q l s' : view s q -> ring_run s l = Some (Ok s') -> (length l + steps_left s' <= steps_left s)%nat.
Proof using Hn Hsize.
  revert s q. induction l as [|[r k] l IH]; intros s q V H; simpl in H; [injection H as ->; simpl; lia|].
  destruct (ring_step s r k) as [x|] eqn:E; [|done]. cbn [mbind option_bind] in H. destruct (ring_step_view _ _ _ _ _ V E) as (s1 & -> & Hv).
  pose proof (ring_step_left _ _ _ _ _ V E). assert (Hq : exists q1, view s1 q1) by (destruct Hv as [?|(q1 & _ & ?)]; eauto). destruct Hq as (q1 & V1).
  specialize (IH s1 q1 V1 H). simpl. lia.
Qed.
End machine.

(** ** The all-gather *)

Lemma concat_at_most (size : Z) (msgs : list (list Z)) : 0 <= size -> Forall (fun d => Z.of_nat (length d) <= size) msgs ->
  (length (concat (map netSend msgs)) <= length msgs * (4 + Z.to_nat size))%nat.
Proof.
  intros H0 H. induction H as [|d ms Hd _ IH]; [done|]. cbn [map concat]. rewrite length_app, netSend_length. simpl length. lia.
Qed.

Section allgather.
Context (n cap : nat) (size : Z) (Hsize : 0 <= size < 2 ^ 31) (Hn : (0 < n)%nat).
Context (xs : list (list Z)) (Hxs : length xs = n) (bs : list (list (list Z))) (Hown : own_slices n xs bs).
Context (Hslices : Forall (Forall (fun d => Z.of_nat (length d) <= size)) bs).

(** What holds in the machine of messages. *)
Definition gathering (q : queue_sys) : Prop := length (bufs q) = n /\ length (progs q) = n /\ exists I B, ag_inv n xs I B q.

Lemma gathering_step q r q' : gathering q -> queue_step n q r = Some q' -> gathering q'.
Proof using Hn Hxs.
  intros (Hb & Hp & I & B & Inv) H. split; [|split].
  - revert H. unfold queue_step. destruct (bufs q !! r); [|done]. destruct (progs q !! r) as [[|[] ?]|]; cbn [mbind option_bind]; try done;
      destruct (ring q !! _) as [[]|]; cbn [mbind option_bind]; try done; try (destruct (_ !! slice); cbn [mbind option_bind]; [|done]);
      intros [= <-]; simpl; by rewrite ?length_insert.
  - by rewrite (queue_step_len n _ _ _ H).
  - destruct (ag_step n xs Hn Hxs _ _ _ _ _ Inv H Hp) as (_ & I' & B' & ? & _). by exists I', B'.
Qed.

Lemma gathering_run l q q' : gathering q -> queue_run n q l = Some q' -> gathering q'.
Proof using Hn Hxs.
  revert q. induction l as [|r l IH]; intros q G H; simpl in H; [by injection H as <-|].
  destruct (queue_step n q r) as [q1|] eqn:E; [|done]. eapply IH; [by eapply gathering_step|exact H].
Qed.

Lemma gathering_init : gathering (queue_init n bs (allGather n)).
Proof using Hn Hxs Hown.
  split; [by destruct Hown|]. split; [simpl; by rewrite length_map, length_seq|].
  exists (fun _ => 0%nat), (fun _ => false). by apply ag_init.
Qed.

(** A rank that is stuck in a send has a successor that is further behind and is stuck in a send too, if a
    message fits in the buffers. *)
Lemma gather_not_full s q r : (4 + Z.to_nat size <= cap)%nat -> view n cap size s q -> gathering q -> stuck n cap size s -> (r < n)%nat -> r_out s r = [].
Proof using Hsize Hn Hxs.
  intros Hfit V (Hb & Hp & I & B & Inv) Hst. assert (Hcap : (0 < cap)%nat) by lia. remember (I r) as m eqn:Em. revert r Em.
  induction (lt_wf m) as [m _ IH]. intros r -> Hr. destruct (decide (r_out s r = [])) as [|Ho]; [done|exfalso].
  pose proof (stuck_out n cap size Hn s q r Hcap V Hb Hst Hr Ho) as Hfull.
  destruct (ag_ring _ _ _ _ _ Inv r Hr) as [Hle Eq]. destruct (vw_bytes _ _ _ _ _ V _ _ Eq) as (Hbytes & Hsz & _).
  pose proof (concat_at_most size _ ltac:(lia) Hsz) as Hmax. rewrite <- Hbytes, !length_app in Hmax.
  unfold in_flight in Hmax. rewrite length_map, length_seq in Hmax. set (t := next_rank n r) in *.
  assert (Hout : (0 < length (r_out s r))%nat) by (destruct (r_out s r); [done|simpl; lia]).
  assert (Hlag : (I t + 2 <= I r + b2n (B r))%nat) by nia. assert (Hlt : (I t < I r)%nat) by (destruct (B r); simpl in Hlag; lia).
  assert (Ht : (t < n)%nat) by (by apply next_lt). pose proof (IH _ Hlt t eq_refl Ht) as Eo.
  pose proof (stuck_rank n cap size Hsize Hn s q t Hcap V Hb Hst Ht Eo) as Hq. pose proof (ag_range _ _ _ _ _ Inv r Hr).
  destruct (ag_blocked n xs Hn Hxs _ _ _ _ Inv Ht Hq) as [_ Hw].
  - intros Hf. destruct (ag_finished n xs Hn Hxs _ _ _ _ Inv Ht Hf). destruct (B r); simpl in *; lia.
  - unfold t in Hw at 1 2. rewrite prev_next in Hw by done. lia.
Qed.

Lemma gather_stuck s q : (4 + Z.to_nat size <= cap)%nat -> view n cap size s q -> gathering q -> stuck n cap size s ->
  forall r, (r < n)%nat -> finished s r.
Proof using Hsize Hn Hxs.
  intros Hfit V G Hst r Hr. assert (Hcap : (0 < cap)%nat) by lia. pose proof (fun r => gather_not_full s q r Hfit V G Hst) as Hout.
  destruct G as (Hb & Hp & I & B & Inv). split; [|by apply Hout]. rewrite (vw_progs _ _ _ _ _ V).
  destruct (decide (progs q !! r = Some [])) as [|Hf]; [done|exfalso].
  destruct (ag_no_deadlock n xs Hn Hxs I B q r Inv Hr Hf) as (r' & q' & E).
  assert (Hr' : (r' < n)%nat) by (by apply (ag_step n xs Hn Hxs _ _ _ _ _ Inv) in E as [? _]).
  by rewrite (stuck_rank n cap size Hsize Hn s q r' Hcap V Hb Hst Hr' (Hout r' Hr')) in E.
Qed.

(** A rank whose call has returned has everything. *)
Lemma gather_full s q r : view n cap size s q -> gathering q -> (r < n)%nat -> finished s r -> r_bufs s !! r = Some xs.
Proof using Hn Hxs.
  intros V (_ & _ & I & B & Inv) Hr [Hf _]. rewrite (vw_bufs _ _ _ _ _ V). rewrite (vw_progs _ _ _ _ _ V) in Hf.
  apply (ag_buf_full n xs Hn Hxs I B q r Inv Hr). by apply (ag_finished n xs Hn Hxs I B q r Inv Hr).
Qed.
End allgather.

(** ** Properties *)

(** C12: the ring all-gather, under every interleaving of the ranks and whatever part of a message the
    kernel moves at a time.  A rank whose call has returned holds the slices of all ranks, and no call
    throws.  If a slice with its header fits in the buffers of a connection, the ring never comes to a
    stand before all calls have returned, can be run to the end from any point, and no schedule
    is longer than a number fixed by the call. *)
Theorem allgather_gathers (n cap : nat) (size : Z) xs bs sched x :
  0 <= size < 2 ^ 31 -> (0 < n)%nat -> length xs = n -> own_slices n xs bs ->
  Forall (Forall (fun d => Z.of_nat (length d) <= size)) bs ->
  let s0 := ring_init n bs (allGather n) in
  ring_run n cap size s0 sched = Some x ->
  exists s, x = Ok s /\ (forall r, (r < n)%nat -> finished s r -> r_bufs s !! r = Some xs) /\
    (length sched <= steps_left n size s0)%nat /\
    ((4 + Z.to_nat size <= cap)%nat ->
       ((exists r, (r < n)%nat /\ ~ finished s r) -> exists r, is_Some (ring_step n cap size s r 1)) /\
       exists sched' s', ring_run n cap size s0 (sched ++ sched') = Some (Ok s') /\
         forall r, (r < n)%nat -> finished s' r /\ r_bufs s' !! r = Some xs).
Proof.
  intros Hsize Hn Hx Ho Hsl s0 Hrun. assert (V0 : view n cap size s0 (queue_init n bs (allGather n))) by (by apply view_init).
  assert (G0 : gathering n xs (queue_init n bs (allGather n))) by (by apply gathering_init).
  destruct (ring_run_view n cap size Hsize Hn _ _ _ _ V0 Hrun) as (s & q & lq & -> & Hq & V). pose proof (gathering_run n Hn xs Hx _ _ _ G0 Hq) as G.
  exists s. split; [done|]. split; [intros r; by apply (gather_full n cap size Hn xs Hx s q)|].
  split; [pose proof (ring_run_bounded n cap size Hsize Hn _ _ _ _ V0 Hrun); lia|].
  intros Hfit. pose proof (fun s q => gather_stuck n cap size Hsize Hn xs Hx s q Hfit) as Hst. split.
  - intros (r & Hr & Hf). destruct (stuck_or n cap size Hn s) as [H|(r' & _ & H)]; [|by exists r']. destruct Hf. by apply (Hst s q).
  - destruct (ring_completes n cap size Hsize Hn (gathering n xs) (gathering_step n Hn xs Hx) Hst s q V G) as (l & s' & q' & Hl & V' & G' & Hf).
    exists l, s'. split; [by rewrite (ring_run_app n cap size _ _ _ _ Hrun)|]. intros r Hr. split; [by apply Hf|].
    apply (gather_full n cap size Hn xs Hx s' q'); auto.
Qed.




(** C32: the barrier separates, however small the buffers are: once the call of one rank has returned,
    every rank has entered it. *)
Theorem barrier_separates (n cap : nat) (size : Z) xs bs sched s r :
  0 <= size < 2 ^ 31 -> (2 <= n)%nat -> length xs = n -> own_slices n xs bs ->
  Forall (Forall (fun d => Z.of_nat (length d) <= size)) bs ->
  ring_run n cap size (ring_init n bs (barrier n)) sched = Some (Ok s) -> (r < n)%nat -> finished s r ->
  forall r', (r' < n)%nat -> r_progs s !! r' <> Some (barrier n r').
Proof.
  intros Hsize Hn Hx Ho Hsl Hrun Hr [Hf _] r' Hr' E. assert (Hn0 : (0 < n)%nat) by lia.
  assert (V0 : view n cap size (ring_init n bs (barrier n)) (queue_init n bs (barrier n))) by (by apply view_init).
  destruct (ring_run_view n cap size Hsize Hn0 _ _ _ _ V0 Hrun) as (s' & q & lq & [= <-] & Hq & V).
  destruct (ag_run n xs Hn0 Hx bs lq q Ho Hq) as (Hl & I & B & Inv). rewrite (vw_progs _ _ _ _ _ V) in Hf, E.
  destruct (ag_finished n xs Hn0 Hx I B q r Inv Hr Hf) as [HI _].
  destruct (iter_prev_onto n xs Hn0 Hx r r' Hr Hr') as (k & Hk & <-).
  pose proof (ag_started n xs Hn0 Hx I B q r k Inv Hr HI Hk) as Hst.
  set (t := Nat.iter k (prev_rank n) r) in *. rewrite (ag_prog _ _ _ _ _ Inv t Hr') in E.
  pose proof (ag_range _ _ _ _ _ Inv t Hr').
  apply (f_equal (fun p => length (default [] p))) in E. simpl in E. unfold barrier, allGather in E.
  assert (Hlen : forall r i m, length (allGather_from n r i m) = (2 * m)%nat).
  { intros r0 i m. revert i. induction m as [|m IH]; intros i; simpl; [done|]. rewrite IH. lia. }
  unfold prog_at in E. destruct (B t); simpl in *; rewrite !Hlen in E; lia.
Qed.

(** the ring broadcast: a rank whose call has returned holds the root's data, whatever the interleaving and the
    buffers, and no call throws. *)
Theorem broadcast_delivers (n cap root : nat) (size : Z) x bs sched y :
  0 <= size < 2 ^ 31 -> (2 <= n)%nat -> (root < n)%nat -> length bs = n ->
  (forall r, (r < n)%nat -> exists b, bs !! r = Some [b] /\ (r = root -> b = x)) ->
  Forall (Forall (fun d => Z.of_nat (length d) <= size)) bs ->
  ring_run n cap size (ring_init n bs (fun r => broadcast n r root)) sched = Some y ->
  exists s, y = Ok s /\ forall r, (r < n)%nat -> finished s r -> r_bufs s !! r = Some [x].
Proof.
  intros Hsize Hn Hroot Hl Hb Hsl Hrun. assert (Hn0 : (0 < n)%nat) by lia.
  assert (V0 : view n cap size (ring_init n bs (fun r => broadcast n r root)) (queue_init n bs (fun r => broadcast n r root))) by (by apply view_init).
  destruct (ring_run_view n cap size Hsize Hn0 _ _ _ _ V0 Hrun) as (s & q & lq & -> & Hq & V). exists s. split; [done|].
  assert (Inv0 : exists St Rc, bc_inv n root x St Rc (queue_init n bs (fun r => broadcast n r root)))
    by (exists (fun _ => false), (fun _ => false); by apply bc_init).
  destruct (bc_run n root x Hn Hroot lq _ q Inv0 Hq) as (St & Rc & Inv). intros r Hr [Hf _].
  rewrite (vw_bufs _ _ _ _ _ V). rewrite (vw_progs _ _ _ _ _ V) in Hf. exact (bc_finished n root x St Rc q r Inv Hr Hf).
Qed.

(** ** Concrete runs *)

(** The steps of a list that can be taken, one after the other. *)
Fixpoint possible (n cap : nat) (size : Z) (s : ring_sys) (l : list (nat * nat)) : list (nat * nat) :=
  match l with
  | [] => []
  | (r, k) :: l =>
      match ring_step n cap size s r k with
      | Some (Ok s') => (r, k) :: possible n cap size s' l
      | _ => possible n cap size s l
      end
  end.

(** Three ranks with a byte each; two bytes move at a time, and there is room for five. *)
Definition demo_start (prog : nat -> list instr) : ring_sys := ring_init 3 demo_bufs prog.
Definition demo_schedule (cap : nat) (prog : nat -> list instr) : list (nat * nat) :=
  possible 3 cap 1 (demo_start prog) (concat (replicate 20 [(0, 2); (2, 1); (1, 2)]%nat)).

Lemma demo_slots : Forall (Forall (fun d => Z.of_nat (length d) <= 1)) demo_bufs.
Proof. repeat constructor; simpl; lia. Qed.

Lemma allgather_gathers_witness : exists s, ring_run 3 5 1 (demo_start (allGather 3)) (demo_schedule 5 (allGather 3)) = Some (Ok s) /\
  finished s 0 /\ r_bufs s !! 0%nat = Some demo_slices /\ exists sched' s', ring_run 3 5 1 (demo_start (allGather 3)) ([(0, 1); (1, 1)]%nat ++ sched') = Some (Ok s') /\ finished s' 2.
Proof.
  destruct (ring_run 3 5 1 (demo_start (allGather 3)) (demo_schedule 5 (allGather 3))) as [x|] eqn:E; [|exfalso; vm_compute in E; discriminate E].
  destruct (allgather_gathers 3 5 1 demo_slices demo_bufs _ x ltac:(lia) ltac:(lia) eq_refl demo_own demo_slots E) as (s & -> & H & _).
  exists s. split; [reflexivity|]. assert (Hf : finished s 0) by (vm_compute in E; injection E as <-; split; reflexivity).
  split; [exact Hf|]. split; [exact (H 0%nat ltac:(lia) Hf)|].
  destruct (ring_run 3 5 1 (demo_start (allGather 3)) [(0, 1); (1, 1)]%nat) as [y|] eqn:E'; [|exfalso; vm_compute in E'; discriminate E'].
  destruct (allgather_gathers 3 5 1 demo_slices demo_bufs _ y ltac:(lia) ltac:(lia) eq_refl demo_own demo_slots E') as (s1 & -> & _ & _ & Hgo).
  destruct (Hgo ltac:(vm_compute; lia)) as [_ (l & s' & Hl & Hf')]. exists l, s'. split; [exact Hl|]. exact (proj1 (Hf' 2%nat ltac:(lia))).
Defined.


Lemma barrier_separates_witness : exists s, ring_run 3 5 1 (demo_start (barrier 3)) (demo_schedule 5 (barrier 3)) = Some (Ok s) /\
  finished s 0 /\ r_progs s !! 2%nat <> Some (barrier 3 2).
Proof.
  destruct (ring_run 3 5 1 (demo_start (barrier 3)) (demo_schedule 5 (barrier 3))) as [[s|]|] eqn:E; [|exfalso; vm_compute in E; discriminate E..].
  exists s. split; [reflexivity|]. assert (Hf : finished s 0) by (vm_compute in E; injection E as <-; split; reflexivity). split; [exact Hf|].
  apply (barrier_separates 3 5 1 demo_slices demo_bufs _ s 0 ltac:(lia) ltac:(lia) eq_refl demo_own demo_slots E); [lia|exact Hf|lia].
Defined.

Definition demo_broadcast_bufs : list (list (list Z)) := [[[0]]; [[7]]; [[0]]].
Definition demo_broadcast : ring_sys := ring_init 3 demo_broadcast_bufs (fun r => broadcast 3 r 1).
Definition demo_broadcast_schedule : list (nat * nat) := possible 3 5 1 demo_broadcast (concat (replicate 20 [(0, 2); (2, 1); (1, 2)]%nat)).

Lemma broadcast_delivers_witness :
  exists s, ring_run 3 5 1 demo_broadcast demo_broadcast_schedule = Some (Ok s) /\ finished s 0 /\ r_bufs s !! 0%nat = Some [[7]].
Proof.
  assert (Hb : forall r, (r < 3)%nat -> exists b, demo_broadcast_bufs !! r = Some [b] /\ (r = 1%nat -> b = [7]))
    by (intros [|[|[|r]]] Hr; [by exists [0]|by exists [7]|by exists [0]|lia]).
  assert (Hs : Forall (Forall (fun d => Z.of_nat (length d) <= 1)) demo_broadcast_bufs) by (repeat constructor; simpl; lia).
  pose proof (broadcast_delivers 3 5 1 1 [7] demo_broadcast_bufs demo_broadcast_schedule) as T.
  destruct (ring_run 3 5 1 demo_broadcast demo_broadcast_schedule) as [x|] eqn:E; [|exfalso; vm_compute in E; discriminate E].
  destruct (T x ltac:(lia) ltac:(lia) ltac:(lia) eq_refl Hb Hs E) as (s & -> & H). clear T Hb Hs.
  exists s. split; [reflexivity|]. assert (Hf : finished s 0) by (vm_compute in E; injection E as <-; split; reflexivity).
  split; [exact Hf|]. exact (H 0%nat ltac:(lia) Hf).
Defined.
