(* ===== verification/ExecutionPlan.v ===== *)
(** * Execution plans

    Models src/core/executor/execution_plan.cc with the data types of
    src/core/include/execution_plan.hpp and execution_common.hpp: how a plan read
    from JSON becomes channels, remote buffers, semaphores and operations with
    their byte offsets.

    The JSON library is third-party code: a plan file is given as the record of
    the members the code reads, optional where it asks [contains] or gives a
    default; a malformed file makes the library throw and is not modelled.  Integer
    division by zero and vector indices out of range are undefined behaviour in
    C++ and have an outcome of their own, [Undef]. *)

From S2P Require Import Prelude Errors Core.
Local Open Scope Z_scope.

(** ** Outcomes *)

Inductive eff (A : Type) := Ret (a : A) | Raise (e : exn) | Undef.
Arguments Ret {A}. Arguments Raise {A}. Arguments Undef {A}.

#[export] Instance eff_ret : MRet eff := fun A a => Ret a.
#[export] Instance eff_bind : MBind eff := fun A B k m =>
  match m with Ret a => k a | Raise e => Raise e | Undef => Undef end.

Definition ExecutorError_ : exn := EError ExecutorError.
Definition raise_if (b : bool) (e : exn) : eff () := if b then Raise e else Ret ().

(** [operator[]] of a vector, read and write. *)
Definition at_ {A} (l : list A) (i : Z) : eff A :=
  if i <? 0 then Undef else match l !! Z.to_nat i with Some a => Ret a | None => Undef end.
Definition push_at {A} (l : list (list A)) (i : Z) (a : A) : eff (list (list A)) :=
  x ← at_ l i; Ret (<[Z.to_nat i := x ++ [a]]> l).

(** Unsigned division and remainder. *)
Definition udiv (a b : Z) : eff Z := if b =? 0 then Undef else Ret (a / b).
Definition umod (a b : Z) : eff Z := if b =? 0 then Undef else Ret (a mod b).

Fixpoint fold_eff {A S} (f : S -> A -> eff S) (s : S) (l : list A) : eff S :=
  match l with [] => Ret s | a :: l' => s' ← f s a; fold_eff f s' l' end.
Fixpoint map_eff {A B} (f : A -> eff B) (l : list A) : eff (list B) :=
  match l with [] => Ret [] | a :: l' => b ← f a; bs ← map_eff f l'; Ret (b :: bs) end.

(** Split the binds of a computation that has returned. *)
Ltac eff_steps H :=
  repeat match type of H with
  | (?m ≫= _) = _ => let u := fresh in destruct m as [u| |]; [|done|done]; cbn [mbind eff_bind] in H
  | match ?x with (_, _) => _ end = _ => destruct x
  end.

(** ** Enumerations *)

Inductive BufferType := BNone | BInput | BOutput | BScratch.
Inductive ChannelType := CNone | CMemory | CPort | CSwitch.
Inductive OperationType :=
  | NOP | BARRIER | PUT | PUT_PACKETS | READ_PUT_PACKETS | PUT_WITH_SIGNAL
  | PUT_WITH_SIGNAL_AND_FLUSH | GET | COPY | COPY_PACKETS | UNPACK_PACKETS | SIGNAL | WAIT | FLUSH
  | REDUCE | REDUCE_PACKETS | REDUCE_COPY_PACKETS | REDUCE_SEND | REDUCE_SEND_PACKETS
  | REDUCE_COPY_SEND_PACKETS | READ_REDUCE | READ_REDUCE_SEND | MULTI_LOAD_REDUCE_STORE
  | RELAXED_SIGNAL | RELAXED_WAIT | PIPELINE | SEM_RELEASE | SEM_ACQUIRE.

#[export] Instance BufferType_eq_dec : EqDecision BufferType.
Proof. solve_decision. Defined.
#[export] Instance ChannelType_eq_dec : EqDecision ChannelType.
Proof. solve_decision. Defined.
#[export] Instance OperationType_eq_dec : EqDecision OperationType.
Proof. solve_decision. Defined.

Definition ChannelType_to_Z (t : ChannelType) : Z :=
  match t with CNone => 0 | CMemory => 1 | CPort => 2 | CSwitch => 3 end.
Definition ChannelType_of_Z (z : Z) : ChannelType :=
  if z =? 1 then CMemory else if z =? 2 then CPort else if z =? 3 then CSwitch else CNone.
#[export] Program Instance ChannelType_countable : Countable ChannelType :=
  inj_countable' ChannelType_to_Z ChannelType_of_Z _.
Next Obligation. by intros []. Qed.

Definition op_names : list (string * OperationType) :=
  [("nop", NOP); ("barrier", BARRIER); ("put", PUT); ("pws", PUT_WITH_SIGNAL);
   ("pwsf", PUT_WITH_SIGNAL_AND_FLUSH); ("get", GET); ("copy", COPY); ("signal", SIGNAL);
   ("wait", WAIT); ("flush", FLUSH); ("re", REDUCE); ("res", REDUCE_SEND); ("rre", READ_REDUCE);
   ("rres", READ_REDUCE_SEND); ("ppkt", PUT_PACKETS); ("rppkt", READ_PUT_PACKETS);
   ("respkt", REDUCE_SEND_PACKETS); ("cpkt", COPY_PACKETS); ("upkt", UNPACK_PACKETS);
   ("repkt", REDUCE_PACKETS); ("recpkt", REDUCE_COPY_PACKETS);
   ("recspkt", REDUCE_COPY_SEND_PACKETS); ("glres", MULTI_LOAD_REDUCE_STORE);
   ("rlxsignal", RELAXED_SIGNAL); ("rlxwait", RELAXED_WAIT); ("pipeline", PIPELINE);
   ("sem_acquire", SEM_ACQUIRE); ("sem_release", SEM_RELEASE)]%string.

(** The chain of comparisons: the first name that matches. *)
Fixpoint assoc_name {A} (l : list (string * A)) (s : string) : eff A :=
  match l with
  | [] => Raise ExecutorError_
  | (n, a) :: l' => if String.eqb s n then Ret a else assoc_name l' s
  end.

Definition getOpType (str : string) : eff OperationType := assoc_name op_names str.
Definition convertToBufferType (str : string) : eff BufferType :=
  assoc_name [("i", BInput); ("o", BOutput); ("s", BScratch)]%string str.
Definition convertToChannelType (str : string) : eff ChannelType :=
  assoc_name [("memory", CMemory); ("port", CPort); ("none", CNone); ("switch", CSwitch)]%string str.

(** ** The plan file *)

Record jbuff := mkJBuff {
  jb_type : option string; jb_buffer_id : option Z; jb_switch_channel_id : option Z;
  jb_index : Z; jb_size : Z
}.

Inductive jop := mkJOp {
  jo_name : string; jo_channel_type : option string; jo_channel_ids : option (list Z);
  jo_tbg_info : option (Z * Z); jo_src_buff : option (list jbuff); jo_dst_buff : option (list jbuff);
  jo_barrier_id : option Z; jo_num_threadblocks : option Z; jo_semaphore_ids : option (list Z);
  jo_iter_context : option (Z * Z);        (* unit_size, num_chunks *)
  jo_ops : list jop
}.

Record jchannel := mkJChannel {
  jc_channel_type : string; jc_buffer_type : string; jc_rank_groups : list (Z * list Z);
  jc_connected_to : list Z
}.
Record jremote := mkJRemote { jr_rank : Z; jr_type : string; jr_access_channel_types : list string }.
Record jtbchannel := mkJTbChannel { jt_channel_type : string; jt_buff : option string; jt_channel_ids : list Z }.
Record jtb := mkJTb {
  jtb_id : Z; jtb_channels : list jtbchannel; jtb_remote_buffer_refs : option (list (string * list Z));
  jtb_ops : list jop
}.
Record jgpu := mkJGpu {
  jg_id : Z; jg_input_chunks : Z; jg_output_chunks : Z; jg_scratch_chunks : Z;
  jg_channels : list jchannel; jg_remote_buffers : list jremote; jg_threadblocks : list jtb;
  jg_semaphores : option (list Z)
}.
Record jplan := mkJPlan {
  j_name : string; j_collective : string; j_inplace : bool; j_reuse_resources : option bool;
  j_use_double_scratch_buffer : option bool; j_buffer_alignment : option Z;
  j_min_message_size : option Z; j_max_message_size : option Z; j_protocol : string;
  j_num_threads_per_block : option Z; j_gpus : list jgpu
}.

(** ** The plan *)

Definition PREDFINED_SCRATCH_SIZE : Z := 2 ^ 26.
Definition MAX_CHANNEL_PER_OPERATION : nat := 8.
Definition MAX_BUFFERS_PER_OPERATION : nat := 10.    (* MAX_LOCAL_BUFFER_PER_OPERATION + 8 *)
Definition MAX_DEVICE_SEMAPHORES : nat := 16.

Record ChannelInfo := mkChannelInfo { ci_channelType : ChannelType; ci_connectedPeers : list Z }.
Record BufferInfo := mkBufferInfo {
  bi_rank : Z; bi_accessRank : Z; bi_bufferType : BufferType; bi_accessChannelTypes : list ChannelType
}.
Record NvlsInfo := mkNvlsInfo { nv_ranks : list Z; nv_nChunks : Z; nv_bufferType : BufferType }.

(** [BufferRef]: an id or a type in one byte. *)
Inductive BufferRef := RefType (t : BufferType) | RefId (id : Z).

(** [Operation].  Its unions share storage between the members for data, loops,
    barriers and semaphores; an operation uses one group, and they are kept apart
    here. *)
Record Operation := mkOperation {
  op_type : OperationType; op_channelType : ChannelType;
  inputBufferRefs : list (option BufferRef); outputBufferRefs : list (option BufferRef);
  nvlsInput : option (Z * BufferType); nvlsOutput : option (Z * BufferType);
  channelIndexes : list Z; inputOffsets : list Z; outputOffsets : list Z;
  inputBufferSizes : list Z; outputBufferSizes : list Z;
  unitSize : Z; nIterations : Z; nOperations : Z;
  deviceSyncerIndex : Z; nThreadBlocks : Z; deviceSemaphoreIds : list Z
}.

(** The scalar members of [ExecutionPlan::Impl]. *)
Record PlanConfig := mkConfig {
  pl_name : string; collective : string; isUsingPacket : bool; reuseResources : bool; pl_rank : Z;
  inputChunks : Z; outputChunks : Z; scratchChunks : Z; inputSize : Z; outputSize : Z;
  nThreadsPerBlock : Z; minMessageSize : Z; maxMessageSize : Z; bufferAlignment : Z;
  isInPlace : bool; doubleScratchBuffer : bool
}.

(** The tables. *)
Record PlanTables := mkTables {
  nvlsInfos : gmap Z (list NvlsInfo);
  channelInfos : gmap Z (list ChannelInfo);
  channelInfosByDstRank : gmap Z (list ChannelInfo);
  channelCountMap : gmap ((Z * ChannelType) * Z) Z;
  remoteBufferInfos : gmap Z (list BufferInfo);
  localBufferToSend : gmap Z (list BufferInfo);
  bufferIndexMap : gmap (Z * (Z * ChannelType)) Z;
  threadblockMemoryChannels : list (list Z);
  threadblockPortChannels : list (list Z);
  threadblockNvlsChannels : list (list Z);
  threadblockMemoryChannelBuffers : list (list (Z * BufferType));
  threadblockPortChannelBuffers : list (list (Z * BufferType));
  semaphoreInfos : list Z
}.

Record Plan := mkPlan { cfg : PlanConfig; tabs : PlanTables; operations : list (list Operation) }.

Definition no_tables : PlanTables := mkTables ∅ ∅ ∅ ∅ ∅ ∅ ∅ [] [] [] [] [] [].

(** [ExecutionPlan::Impl::Impl]: the members it does not set are indeterminate;
    they are zero here and set by a load before they are read. *)
Definition Plan_create (j : jplan) (rank : Z) : Plan :=
  mkPlan (mkConfig (j_name j) (j_collective j) false (default false (j_reuse_resources j)) rank
            0 0 0 0 0 0 (default 0 (j_min_message_size j)) (default UINT64_MAX (j_max_message_size j))
            (default 16 (j_buffer_alignment j)) (j_inplace j)
            (default false (j_use_double_scratch_buffer j)))
    no_tables [].

(** [reset] and [operationsReset]. *)
Definition plan_reset (p : Plan) : Plan := mkPlan (cfg p) no_tables [].
Definition operationsReset (p : Plan) : Plan := mkPlan (cfg p) (tabs p) [].

(** ** Sizes and offsets *)

Section sizes.
Context (c : PlanConfig).

Definition calMaxScratchChunkSize (scratchSize : Z) : eff Z :=
  if scratchChunks c =? 0 then Ret 0 else
  let scratchSize := if doubleScratchBuffer c then scratchSize / 2 else scratchSize in
  size ← udiv (u64 (scratchSize + scratchChunks c - 1)) (scratchChunks c);
  q ← udiv (u64 (size + bufferAlignment c - 1)) (bufferAlignment c);
  Ret (u64 (q * bufferAlignment c)).

Definition calScratchBufferSize (inputSize outputSize : Z) : eff Z :=
  if reuseResources c && (0 <? scratchChunks c) then Ret PREDFINED_SCRATCH_SIZE else
  sizePerChunk ←
    (if negb (inputChunks c =? 0) then udiv (u64 (inputSize + inputChunks c - 1)) (inputChunks c)
     else if negb (outputChunks c =? 0) then udiv (u64 (outputSize + outputChunks c - 1)) (outputChunks c)
     else Raise ExecutorError_);
  let size := if isUsingPacket c then u64 (u64 (sizePerChunk * scratchChunks c) * 2)
              else u64 (sizePerChunk * scratchChunks c) in
  let size := if doubleScratchBuffer c then u64 (size * 2) else size in
  q ← udiv (u64 (size + bufferAlignment c - 1)) (bufferAlignment c);
  Ret (u64 (q * bufferAlignment c)).

(** [checkMessageSize]; [||] evaluates left to right and stops at a true operand. *)
Fixpoint any_of (tests : list (eff bool)) : eff bool :=
  match tests with
  | [] => Ret false
  | t :: tests' => b ← t; if (b : bool) then Ret true else any_of tests'
  end.

Definition not_multiple (a b : Z) : eff bool := r ← umod a b; Ret (negb (r =? 0)).

Definition checkMessageSize : eff () :=
  bad ← any_of [
    not_multiple (inputSize c) (bufferAlignment c);
    not_multiple (outputSize c) (bufferAlignment c);
    (q ← udiv (inputSize c) (bufferAlignment c); not_multiple q (inputChunks c));
    (q ← udiv (outputSize c) (bufferAlignment c); not_multiple q (outputChunks c))];
  _ ← raise_if bad ExecutorError_;
  let size := if String.eqb (collective c) "allgather" then outputSize c else inputSize c in
  raise_if ((size <? minMessageSize c) || (maxMessageSize c <? size)) ExecutorError_.

Definition getSizeAndChunks : eff (Z * Z) :=
  if (inputChunks c =? 0) && (outputChunks c =? 0) then Raise ExecutorError_
  else if negb (inputChunks c =? 0) && negb (outputChunks c =? 0) then
    a ← udiv (inputSize c) (inputChunks c);
    b ← udiv (outputSize c) (outputChunks c);
    if negb (a =? b) then Raise ExecutorError_ else Ret (inputSize c, inputChunks c)
  else if negb (inputChunks c =? 0) then Ret (inputSize c, inputChunks c)
  else Ret (outputSize c, outputChunks c).

Definition calcOffset (size index slices : Z) : eff Z :=
  n ← udiv size (bufferAlignment c);
  let nelems := u32 n in
  minNelems ← udiv nelems slices;
  remainder ← umod nelems slices;
  m ← umod index nelems;
  let offset := u32 (u32 (index * minNelems) + (if m <? remainder then m else remainder)) in
  Ret (u64 (offset * bufferAlignment c)).

(** The offsets are narrowed to 32 bits and subtracted there. *)
Definition calcSize (size index slices : Z) : eff Z :=
  b ← calcOffset size index slices;
  e ← calcOffset size (u32 (index + 1)) slices;
  Ret (u32 (u32 e - u32 b)).

Definition getOffset (chunkIndex : Z) (bufferType : BufferType) : eff Z :=
  '(size, nChunks) ← getSizeAndChunks;
  q ← udiv (u64 (size + nChunks - 1)) nChunks;
  let chunkSize := u32 q in
  s ← calMaxScratchChunkSize PREDFINED_SCRATCH_SIZE;
  let scratchChunkSize := u32 s in
  if bool_decide (bufferType = BScratch) && reuseResources c && (scratchChunkSize <? chunkSize)
  then Ret (u64 (chunkIndex * s))
  else calcOffset size chunkIndex nChunks.

Definition getBufferSize (index nChunks : Z) : eff Z :=
  b ← getOffset index BNone;
  e ← getOffset (u32 (index + nChunks)) BNone;
  Ret (u32 (u32 e - u32 b)).

Definition getUpperBoundChunkSize : eff Z :=
  if negb (inputChunks c =? 0) then
    nelems ← udiv (inputSize c) (bufferAlignment c);
    Ret (u64 (u64 (nelems + inputChunks c - 1) / inputChunks c * bufferAlignment c))
  else if negb (outputChunks c =? 0) then
    nelems ← udiv (outputSize c) (bufferAlignment c);
    Ret (u64 (u64 (nelems + outputChunks c - 1) / outputChunks c * bufferAlignment c))
  else Raise ExecutorError_.
End sizes.

(** ** Operations *)

Section operation.
Context (c : PlanConfig) (t : PlanTables) (constSrcOffset constDstOffset : Z).

Definition getConstOffset (b : BufferType) : eff Z :=
  match b with
  | BInput => Ret constSrcOffset
  | BOutput => Ret constDstOffset
  | BScratch => Ret 0
  | BNone => Raise ExecutorError_
  end.

Definition getRemoteBufferTypeWithId (bufferId tb : Z) (ct : ChannelType) : eff BufferType :=
  match ct with
  | CMemory => l ← at_ (threadblockMemoryChannelBuffers t) tb; x ← at_ l bufferId; Ret x.2
  | CPort => l ← at_ (threadblockPortChannelBuffers t) tb; x ← at_ l bufferId; Ret x.2
  | _ => Raise ExecutorError_
  end.

(** What one entry of [src_buff] or [dst_buff] becomes. *)
Record buff_out := mkBuffOut {
  bo_ref : option BufferRef; bo_nvls : option (Z * BufferType); bo_offset : Z; bo_size : Z
}.

Definition setupBuff (tb : Z) (ct : ChannelType) (tbId tbgSize : Z) (b : jbuff) : eff buff_out :=
  '(ref, bt) ← (match jb_type b with
                | Some s => bt ← convertToBufferType s; Ret (Some (RefType bt), bt)
                | None => Ret (None, BNone)
                end);
  '(ref, bt, co) ← (match jb_buffer_id b with
                    | Some id => bt ← getRemoteBufferTypeWithId id tb ct;
                                 co ← getConstOffset bt; Ret (Some (RefId (u8 id)), bt, co)
                    | None => Ret (ref, bt, 0)
                    end);
  '(nv, bt, co) ← (match jb_switch_channel_id b with
                   | Some id =>
                       l ← at_ (threadblockNvlsChannels t) tb; idx ← at_ l id;
                       info ← at_ (default [] (nvlsInfos t !! pl_rank c)) idx;
                       let bt := nv_bufferType info in
                       co ← getConstOffset bt; Ret (Some (u8 id, bt), bt, co)
                   | None => Ret (None, bt, co)
                   end);
  off ← getOffset c (jb_index b) bt;
  size ← getBufferSize c (jb_index b) (jb_size b);
  slice ← calcOffset c size tbId tbgSize;
  ssize ← calcSize c size tbId tbgSize;
  Ret (mkBuffOut ref nv (u32 (u64 (u64 (off + co) + slice))) (u32 ssize)).

(** Entries beyond the fixed arrays would be written outside them. *)
Definition bounded {A} (n : nat) (l : list A) : eff (list A) :=
  if decide (length l <= n)%nat then Ret l else Undef.

Definition last_nvls (l : list buff_out) : option (Z * BufferType) :=
  foldl (fun acc b => match bo_nvls b with Some x => Some x | None => acc end) None l.

Definition setupOperation (tb : Z) (op : jop) : eff Operation :=
  ty ← getOpType (jo_name op);
  ct ← (match jo_channel_type op with Some s => convertToChannelType s | None => Ret CNone end);
  ids ← bounded MAX_CHANNEL_PER_OPERATION (default [] (jo_channel_ids op));
  let '(tbId, tbgSize) := default (0, 1) (jo_tbg_info op) in
  srcs ← bounded MAX_BUFFERS_PER_OPERATION (default [] (jo_src_buff op));
  ins ← map_eff (setupBuff tb ct tbId tbgSize) srcs;
  dsts ← bounded MAX_BUFFERS_PER_OPERATION (default [] (jo_dst_buff op));
  outs ← map_eff (setupBuff tb ct tbId tbgSize) dsts;
  sems ← bounded MAX_DEVICE_SEMAPHORES (default [] (jo_semaphore_ids op));
  '(unit_, iters, nops) ←
    (match jo_iter_context op with
     | Some (unit_size, num_chunks) =>
         s ← getUpperBoundChunkSize c;
         n ← udiv (u64 (u64 (num_chunks * s) + (unit_size - 1))) unit_size;
         Ret (unit_size, u32 n, u8 (Z.of_nat (length (jo_ops op))))
     | None => Ret (0, 0, 0)
     end);
  Ret (mkOperation ty ct (map bo_ref ins) (map bo_ref outs) (last_nvls ins) (last_nvls outs)
         (map u8 ids) (map bo_offset ins) (map bo_offset outs) (map bo_size ins) (map bo_size outs)
         unit_ iters nops (default 0 (jo_barrier_id op)) (default 0 (jo_num_threadblocks op)) sems).

(** An operation, followed by those nested in a pipeline. *)
Definition setupOp (tb : Z) (op : jop) : eff (list Operation) :=
  o ← setupOperation tb op;
  inner ← (if decide (op_type o = PIPELINE) then map_eff (setupOperation tb) (jo_ops op) else Ret []);
  Ret (o :: inner).

Definition setupOperations (gpu : jgpu) (ops : list (list Operation)) : eff (list (list Operation)) :=
  new ← map_eff (fun b => l ← map_eff (setupOp (jtb_id b)) (jtb_ops b); Ret (concat l)) (jg_threadblocks gpu);
  Ret (ops ++ new).
End operation.

(** ** Channels, buffers, semaphores *)

Abbreviation conn_key := (Z * ChannelType)%type.

(** [std::map]: keys in increasing order. *)
Definition key_ltb (a b : conn_key) : bool :=
  (a.1 <? b.1) || ((a.1 =? b.1) && (ChannelType_to_Z a.2 <? ChannelType_to_Z b.2)).

Fixpoint map_push (k : conn_key) (v : Z) (l : list (conn_key * list Z)) : list (conn_key * list Z) :=
  match l with
  | [] => [(k, [v])]
  | (k', vs) :: l' =>
      if decide (k = k') then (k', vs ++ [v]) :: l'
      else if key_ltb k k' then (k, [v]) :: l
      else (k', vs) :: map_push k v l'
  end.

(** The state [parseChannels] works on for one GPU. *)
Record parse_state := mkParse {
  ps_infos : list ChannelInfo; ps_nvls : list NvlsInfo; ps_peers : list (conn_key * list Z);
  ps_count : gmap (conn_key * Z) Z
}.

Definition add_peer (rank : Z) (ct : ChannelType) (s : parse_state) (peer : Z) : parse_state :=
  mkParse (ps_infos s) (ps_nvls s) (map_push (peer, ct) rank (ps_peers s))
    (<[((rank, ct), peer) := default 0 (ps_count s !! ((rank, ct), peer)) + 1]> (ps_count s)).

Definition parse_channel (rank : Z) (s : parse_state) (ch : jchannel) : eff parse_state :=
  ct ← convertToChannelType (jc_channel_type ch);
  if decide (ct = CSwitch) then
    bt ← convertToBufferType (jc_buffer_type ch);
    Ret (mkParse (ps_infos s)
           (ps_nvls s ++ map (fun g => mkNvlsInfo g.2 g.1 bt) (jc_rank_groups ch)) (ps_peers s) (ps_count s))
  else
    let s := foldl (add_peer rank ct) s (jc_connected_to ch) in
    Ret (mkParse (ps_infos s ++ [mkChannelInfo ct (jc_connected_to ch)]) (ps_nvls s) (ps_peers s) (ps_count s)).

Definition parseChannels (gpu : jgpu) (peers : list (conn_key * list Z)) (count : gmap (conn_key * Z) Z)
    : eff parse_state :=
  fold_eff (parse_channel (jg_id gpu)) (mkParse [] [] peers count) (jg_channels gpu).

Definition push_map {A} (k : Z) (a : A) (m : gmap Z (list A)) : gmap Z (list A) :=
  <[k := default [] (m !! k) ++ [a]]> m.

(** The first loop of [setupChannels]: all GPUs. *)
Record chan_state := mkChan {
  cs_peers : list (conn_key * list Z); cs_count : gmap (conn_key * Z) Z;
  cs_infos : gmap Z (list ChannelInfo); cs_nvls : gmap Z (list NvlsInfo)
}.

Definition setup_gpu_channels (s : chan_state) (gpu : jgpu) : eff chan_state :=
  ps ← parseChannels gpu (cs_peers s) (cs_count s);
  Ret (mkChan (ps_peers ps) (ps_count ps) (<[jg_id gpu := ps_infos ps]> (cs_infos s))
         (<[jg_id gpu := ps_nvls ps]> (cs_nvls s))).

Abbreviation tb_lists := (list (list Z) * list (list Z) * list (list Z))%type.

Definition tb_channel_id (tb : Z) (ct : ChannelType) (s : tb_lists) (id : Z) : eff tb_lists :=
  let '(m, p, n) := s in
  match ct with
  | CMemory => m' ← push_at m tb id; Ret (m', p, n)
  | CPort => p' ← push_at p tb id; Ret (m, p', n)
  | CSwitch => n' ← push_at n tb id; Ret (m, p, n')
  | CNone => Ret s
  end.

Definition tb_channel (tb : Z) (s : tb_lists) (ch : jtbchannel) : eff tb_lists :=
  ct ← convertToChannelType (jt_channel_type ch);
  _ ← (match jt_buff ch with Some b => convertToBufferType b | None => Ret BNone end);
  fold_eff (tb_channel_id tb ct) s (jt_channel_ids ch).

Definition resize {A} (n : nat) (x : A) (l : list A) : list A := take n l ++ replicate (n - length l) x.

Definition setupChannels (rank : Z) (gpus : list jgpu) (t : PlanTables) : eff PlanTables :=
  s ← fold_eff setup_gpu_channels (mkChan [] (channelCountMap t) (channelInfos t) (nvlsInfos t)) gpus;
  let byDst := foldl (fun m (e : conn_key * list Z) => push_map e.1.1 (mkChannelInfo e.1.2 e.2) m)
                 (channelInfosByDstRank t) (cs_peers s) in
  gpu ← at_ gpus rank;
  let n := length (jg_threadblocks gpu) in
  '(m, p, nv) ← fold_eff (fun s b => fold_eff (tb_channel (jtb_id b)) s (jtb_channels b))
    (resize n [] (threadblockMemoryChannels t), resize n [] (threadblockPortChannels t),
     resize n [] (threadblockNvlsChannels t)) (jg_threadblocks gpu);
  Ret (mkTables (cs_nvls s) (cs_infos s) byDst (cs_count s) (remoteBufferInfos t) (localBufferToSend t)
         (bufferIndexMap t) m p nv (threadblockMemoryChannelBuffers t) (threadblockPortChannelBuffers t)
         (semaphoreInfos t)).

(** [parseRemoteBuffer]: for one GPU, with the counters per channel type. *)
Record rb_state := mkRb {
  rb_count : gmap ChannelType Z; rb_infos : list BufferInfo; rb_send : gmap Z (list BufferInfo);
  rb_index : gmap (Z * conn_key) Z
}.

Definition access_channel (gpuRank bufferId : Z) (s : rb_state * list ChannelType) (name : string)
    : eff (rb_state * list ChannelType) :=
  let '(s, acc) := s in
  ct ← convertToChannelType name;
  let n := default 0 (rb_count s !! ct) in
  Ret (mkRb (<[ct := n + 1]> (rb_count s)) (rb_infos s) (rb_send s)
         (<[(gpuRank, (bufferId, ct)) := n]> (rb_index s)), acc ++ [ct]).

Definition parse_remote (gpuRank : Z) (s : rb_state) (r : jremote) : eff rb_state :=
  let bufferId := Z.of_nat (length (rb_infos s)) in
  bt ← convertToBufferType (jr_type r);
  '(s, acc) ← fold_eff (access_channel gpuRank bufferId) (s, []) (jr_access_channel_types r);
  let info := mkBufferInfo (jr_rank r) gpuRank bt acc in
  Ret (mkRb (rb_count s) (rb_infos s ++ [info]) (push_map (jr_rank r) info (rb_send s)) (rb_index s)).

Abbreviation remote_maps := (gmap Z (list BufferInfo) * gmap Z (list BufferInfo) * gmap (Z * conn_key) Z)%type.

Definition parse_gpu_remotes (s : remote_maps) (gpu : jgpu) : eff remote_maps :=
  let '(infos, send, index) := s in
  s' ← fold_eff (parse_remote (jg_id gpu)) (mkRb ∅ (default [] (infos !! jg_id gpu)) send index)
         (jg_remote_buffers gpu);
  Ret (<[jg_id gpu := rb_infos s']> infos, rb_send s', rb_index s').

Definition parseRemoteBuffer (gpus : list jgpu) (s : remote_maps) : eff remote_maps :=
  fold_eff parse_gpu_remotes s gpus.

Abbreviation buff_lists := (list (list (Z * BufferType)) * list (list (Z * BufferType)))%type.

(** One reference of a threadblock; [operator[]] of the index map gives 0 for a
    pair that was never declared. *)
Definition buffer_ref (rank : Z) (infos : gmap Z (list BufferInfo)) (index : gmap (Z * conn_key) Z)
    (tb : Z) (ct : ChannelType) (s : buff_lists) (bufferId : Z) : eff buff_lists :=
  let '(m, p) := s in
  match ct with
  | CPort | CMemory =>
      info ← at_ (default [] (infos !! rank)) bufferId;
      let entry := (default 0 (index !! (rank, (bufferId, ct))), bi_bufferType info) in
      if decide (ct = CPort) then p' ← push_at p tb entry; Ret (m, p')
      else m' ← push_at m tb entry; Ret (m', p)
  | _ => Ret s
  end.

Definition buffer_refs (rank : Z) (infos : gmap Z (list BufferInfo)) (index : gmap (Z * conn_key) Z)
    (tb : Z) (s : buff_lists) (r : string * list Z) : eff buff_lists :=
  ct ← convertToChannelType r.1;
  fold_eff (buffer_ref rank infos index tb ct) s r.2.

Definition setupRemoteBuffers (rank : Z) (gpus : list jgpu) (t : PlanTables) : eff PlanTables :=
  '(infos, send, index) ← parseRemoteBuffer gpus (remoteBufferInfos t, localBufferToSend t, bufferIndexMap t);
  gpu ← at_ gpus rank;
  let n := length (jg_threadblocks gpu) in
  '(m, p) ← fold_eff (fun s b => fold_eff (buffer_refs rank infos index (jtb_id b)) s
                                   (default [] (jtb_remote_buffer_refs b)))
    (resize n [] (threadblockMemoryChannelBuffers t), resize n [] (threadblockPortChannelBuffers t))
    (jg_threadblocks gpu);
  Ret (mkTables (nvlsInfos t) (channelInfos t) (channelInfosByDstRank t) (channelCountMap t) infos send index
         (threadblockMemoryChannels t) (threadblockPortChannels t) (threadblockNvlsChannels t) m p
         (semaphoreInfos t)).

Definition setupSemaphores (gpu : jgpu) (t : PlanTables) : PlanTables :=
  mkTables (nvlsInfos t) (channelInfos t) (channelInfosByDstRank t) (channelCountMap t)
    (remoteBufferInfos t) (localBufferToSend t) (bufferIndexMap t) (threadblockMemoryChannels t)
    (threadblockPortChannels t) (threadblockNvlsChannels t) (threadblockMemoryChannelBuffers t)
    (threadblockPortChannelBuffers t) (semaphoreInfos t ++ default [] (jg_semaphores gpu)).

(** ** Loading *)

Definition loadExecutionPlan (j : jplan) (inSize outSize constSrcOffset constDstOffset : Z) (p : Plan)
    : eff Plan :=
  let c := cfg p in
  _ ← raise_if (negb (String.eqb (pl_name c) (j_name j))) ExecutorError_;
  gpu ← at_ (j_gpus j) (pl_rank c);
  _ ← raise_if (negb (jg_id gpu =? pl_rank c)) ExecutorError_;
  let c := mkConfig (pl_name c) (j_collective j) (isUsingPacket c || String.eqb (j_protocol j) "LL")
             (reuseResources c) (pl_rank c) (jg_input_chunks gpu) (jg_output_chunks gpu)
             (jg_scratch_chunks gpu) inSize outSize (default 1024 (j_num_threads_per_block j))
             (default 0 (j_min_message_size j)) (default UINT64_MAX (j_max_message_size j))
             (bufferAlignment c) (j_inplace j) (doubleScratchBuffer c) in
  _ ← checkMessageSize c;
  t ← setupChannels (pl_rank c) (j_gpus j) (tabs p);
  t ← setupRemoteBuffers (pl_rank c) (j_gpus j) t;
  let t := setupSemaphores gpu t in
  ops ← setupOperations c t constSrcOffset constDstOffset gpu (operations p);
  Ret (mkPlan c t ops).

Definition lightLoadExecutionPlan (j : jplan) (inSize outSize constSrcOffset constDstOffset : Z) (p : Plan)
    : eff Plan :=
  let c := cfg p in
  _ ← raise_if (negb (String.eqb (pl_name c) (j_name j))) ExecutorError_;
  gpu ← at_ (j_gpus j) (pl_rank c);
  _ ← raise_if (negb (jg_id gpu =? pl_rank c)) ExecutorError_;
  let c := mkConfig (pl_name c) (collective c) (isUsingPacket c || String.eqb (j_protocol j) "LL")
             (reuseResources c) (pl_rank c) (jg_input_chunks gpu) (jg_output_chunks gpu)
             (jg_scratch_chunks gpu) inSize outSize (nThreadsPerBlock c) (minMessageSize c)
             (maxMessageSize c) (bufferAlignment c) (isInPlace c) (doubleScratchBuffer c) in
  _ ← checkMessageSize c;
  ops ← setupOperations c (tabs p) constSrcOffset constDstOffset gpu (operations p);
  Ret (mkPlan c (tabs p) ops).

(** ** Queries *)

Definition channel_count (t : PlanTables) (rank : Z) (ct : ChannelType) (peer : Z) : Z :=
  default 0 (channelCountMap t !! ((rank, ct), peer)).

Definition getChannelInfos (t : PlanTables) (rank : Z) (ct : ChannelType) : option (list ChannelInfo) :=
  filter (fun i => ci_channelType i = ct) <$> channelInfos t !! rank.

Definition unpaired_with (t : PlanTables) (rank : Z) (ct : ChannelType) (peer : Z) : list ChannelInfo :=
  if peer =? rank then [] else
  let mine := channel_count t rank ct peer in
  let theirs := channel_count t peer ct rank in
  if mine <? theirs then replicate (Z.to_nat (theirs - mine)) (mkChannelInfo ct [peer]) else [].

Definition getUnpairedChannelInfos (t : PlanTables) (rank : Z) (worldSize : nat) (ct : ChannelType)
    : list ChannelInfo :=
  concat (map (fun peer => unpaired_with t rank ct (Z.of_nat peer)) (seq 0 worldSize)).

(** [std::set<int>]: sorted, without duplicates. *)
Fixpoint set_insert (x : Z) (l : list Z) : list Z :=
  match l with
  | [] => [x]
  | y :: l' => if x <? y then x :: l else if x =? y then l else y :: set_insert x l'
  end.

Definition getConnectedPeers (t : PlanTables) (rank : Z) : option (list Z) :=
  infos ← channelInfos t !! rank;
  Some (foldl (fun s p => set_insert p s) []
          (concat (map ci_connectedPeers infos) ++
           concat (map ci_connectedPeers (default [] (channelInfosByDstRank t !! rank))))).

Definition getRemoteBufferInfos (t : PlanTables) (rank : Z) : list BufferInfo :=
  default [] (remoteBufferInfos t !! rank).
Definition getLocalBufferToSend (t : PlanTables) (rank : Z) : list BufferInfo :=
  default [] (localBufferToSend t !! rank).
Definition getOperations (p : Plan) (tb : Z) : eff (list Operation) := at_ (operations p) tb.
Definition getThreadblockCount (p : Plan) : Z := Z.of_nat (length (operations p)).

(** ** Lemmas: slicing *)

Lemma udiv_pos a b : 0 < b -> udiv a b = Ret (a / b).
Proof. intros. unfold udiv. by rewrite (proj2 (Z.eqb_neq b 0)) by lia. Qed.
Lemma umod_pos a b : 0 < b -> umod a b = Ret (a mod b).
Proof. intros. unfold umod. by rewrite (proj2 (Z.eqb_neq b 0)) by lia. Qed.

(** [calcOffset] with its divisions resolved. *)
Lemma calcOffset_eq c size index slices :
  0 < bufferAlignment c -> 0 < slices -> 0 < size / bufferAlignment c < 2 ^ 32 ->
  let n := size / bufferAlignment c in
  calcOffset c size index slices =
  Ret (u64 (u32 (u32 (index * (n / slices)) + Z.min (index mod n) (n mod slices)) * bufferAlignment c)).
Proof.
  intros Ha Hs Hn n. unfold calcOffset. rewrite udiv_pos by done. cbn [mbind eff_bind].
  rewrite u32_small by lia. fold n. rewrite udiv_pos, !umod_pos by lia. cbn [mbind eff_bind].
  do 4 f_equal. pose proof (Z.mod_pos_bound n slices ltac:(lia)).
  destruct (Z.ltb_spec (index mod n) (n mod slices)); lia.
Qed.

(** Where slice [i] of [k] starts, in units of the alignment. *)
Definition slice_start (n k i : Z) : Z := i * (n / k) + Z.min i (n mod k).

Lemma slice_start_bound n k i : 0 < k <= n -> 0 <= i <= k -> 0 <= slice_start n k i <= n.
Proof.
  intros Hk Hi. unfold slice_start. pose proof (Z.div_mod n k ltac:(lia)) as E.
  pose proof (Z.mod_pos_bound n k ltac:(lia)). pose proof (Z.div_pos n k ltac:(lia) ltac:(lia)). nia.
Qed.

Lemma slice_start_end n k : 0 < k <= n -> slice_start n k k = n.
Proof.
  intros Hk. unfold slice_start. pose proof (Z.div_mod n k ltac:(lia)) as E.
  pose proof (Z.mod_pos_bound n k ltac:(lia)). lia.
Qed.

Lemma calcOffset_slice c size i k :
  let ba := bufferAlignment c in
  0 < ba -> 0 < k <= size / ba -> 0 <= i <= k -> size < 2 ^ 32 -> 0 <= size ->
  calcOffset c size i k = Ret (slice_start (size / ba) k i * ba).
Proof.
  intros ba Ha Hk Hi Hs H0. set (n := size / ba) in *.
  assert (Hn : n * ba <= size) by (unfold n; pose proof (Z.mul_div_le size ba ltac:(lia)); lia).
  assert (n < 2 ^ 32) by nia.
  rewrite calcOffset_eq by (fold ba; fold n; lia). fold ba. fold n.
  pose proof (slice_start_bound n k i Hk Hi) as Hb.
  assert (E : slice_start n k i = u32 (u32 (i * (n / k)) + Z.min (i mod n) (n mod k))).
  { assert (Hd : 0 <= n / k) by (apply Z.div_pos; lia).
    pose proof (Z.mod_pos_bound n k ltac:(lia)) as Hm.
    assert (Hle : 0 <= i * (n / k) <= n) by (unfold slice_start in Hb; nia).
    rewrite (u32_small (i * (n / k))) by lia.
    assert (Em : Z.min (i mod n) (n mod k) = Z.min i (n mod k)).
    { destruct (decide (i < n)); [by rewrite Z.mod_small by lia|].
      assert (i = n) as -> by lia. assert (k = n) as -> by lia.
      rewrite Z.mod_same by lia. lia. }
    rewrite Em. fold (slice_start n k i). by rewrite u32_small by lia. }
  rewrite <- E, u64_small by nia. done.
Qed.

(** More slices than elements: the offsets start over after each [n]. *)
Lemma calcOffset_wrap c size i k :
  let ba := bufferAlignment c in
  0 < ba -> 0 < size / ba < k -> 0 <= i -> size < 2 ^ 32 -> 0 <= size ->
  calcOffset c size i k = Ret (i mod (size / ba) * ba).
Proof.
  intros ba Ha Hk Hi Hs H0. set (n := size / ba) in *.
  assert (Hn : n * ba <= size) by (unfold n; pose proof (Z.mul_div_le size ba ltac:(lia)); lia).
  assert (n < 2 ^ 32) by nia.
  rewrite calcOffset_eq by (fold ba; fold n; lia). fold ba. fold n.
  rewrite (Z.div_small n k), (Z.mod_small n k), Z.mul_0_r by lia.
  pose proof (Z.mod_pos_bound i n ltac:(lia)). rewrite Z.min_l by lia.
  rewrite (u32_small 0), Z.add_0_l, (u32_small (i mod n)) by lia. by rewrite u64_small by nia.
Qed.

(** ** Lemmas: chunks *)

Lemma getSizeAndChunks_in c :
  0 < inputChunks c -> getSizeAndChunks c = Ret (inputSize c, inputChunks c) \/ getSizeAndChunks c = Raise ExecutorError_.
Proof.
  intros Hi. unfold getSizeAndChunks. rewrite (proj2 (Z.eqb_neq (inputChunks c) 0)) by lia. simpl.
  destruct (Z.eqb_spec (outputChunks c) 0) as [|Ho]; simpl; [by left|].
  rewrite (udiv_pos (inputSize c)) by lia. cbn [mbind eff_bind]. unfold udiv.
  rewrite (proj2 (Z.eqb_neq (outputChunks c) 0)) by done. cbn [mbind eff_bind].
  destruct (negb _); auto.
Qed.

Lemma any_of_false tests : any_of tests = Ret false -> Forall (fun t => t = Ret false) tests.
Proof.
  induction tests as [|t tests IH]; intros H; simpl in H; [constructor|].
  destruct t as [[]| |]; simpl in H; try done. constructor; auto.
Qed.

Lemma not_multiple_false a b : not_multiple a b = Ret false -> b <> 0 /\ a mod b = 0.
Proof.
  unfold not_multiple, umod. destruct (Z.eqb_spec b 0); simpl; [done|]. intros H.
  split; [done|]. injection H as H. apply negb_false_iff, Z.eqb_eq in H. done.
Qed.

(** What an accepted message size guarantees. *)
Lemma checked_sizes c :
  checkMessageSize c = Ret () ->
  inputSize c mod bufferAlignment c = 0 /\ outputSize c mod bufferAlignment c = 0 /\
  inputChunks c <> 0 /\ outputChunks c <> 0 /\
  (inputSize c / bufferAlignment c) mod inputChunks c = 0 /\
  (outputSize c / bufferAlignment c) mod outputChunks c = 0.
Proof.
  unfold checkMessageSize. intros H.
  destruct (any_of _) as [[]| |] eqn:E; try done. apply any_of_false in E.
  repeat match goal with H : Forall _ (_ :: _) |- _ => apply Forall_cons in H as [? H] end.
  apply not_multiple_false in H0 as [Hba H0], H1 as [_ H1].
  unfold udiv in H2, H3. rewrite (proj2 (Z.eqb_neq _ _) Hba) in H2, H3. cbn [mbind eff_bind] in H2, H3.
  apply not_multiple_false in H2 as [? ?], H3 as [? ?]. done.
Qed.

(** ** Lemmas: channel counting *)

Definition occ (p : Z) (l : list Z) : Z := Z.of_nat (length (filter (fun x => x = p) l)).

(** The peers of the channels of one type, one entry per connection. *)
Definition peers_of (ct : ChannelType) (infos : list ChannelInfo) : list Z :=
  concat (map ci_connectedPeers (filter (fun i => ci_channelType i = ct) infos)).

Lemma occ_nil p : occ p [] = 0.
Proof. done. Qed.

Lemma occ_app p a b : occ p (a ++ b) = occ p a + occ p b.
Proof. unfold occ. rewrite filter_app, length_app. lia. Qed.

Lemma occ_cons p x l : occ p (x :: l) = (if decide (x = p) then 1 else 0) + occ p l.
Proof. unfold occ. rewrite filter_cons. case_decide; simpl; lia. Qed.

Lemma peers_of_app ct a b : peers_of ct (a ++ b) = peers_of ct a ++ peers_of ct b.
Proof. unfold peers_of. by rewrite filter_app, map_app, concat_app. Qed.

Lemma peers_of_one ct ct' l : peers_of ct [mkChannelInfo ct' l] = if decide (ct' = ct) then l else [].
Proof. unfold peers_of. rewrite filter_cons. simpl. case_decide; simpl; [apply app_nil_r|done]. Qed.

Definition cnt (m : gmap (conn_key * Z) Z) (r : Z) (ct : ChannelType) (p : Z) : Z := default 0 (m !! ((r, ct), p)).

(** Counting goes with the channels added, for the rank that declares them. *)
Definition counts_with (r : Z) (new : list ChannelInfo) (m m' : gmap (conn_key * Z) Z) : Prop :=
  forall r' ct p, cnt m' r' ct p = cnt m r' ct p + (if decide (r' = r) then occ p (peers_of ct new) else 0).

Lemma add_peers_count r ct l s :
  ps_infos (foldl (add_peer r ct) s l) = ps_infos s /\ ps_nvls (foldl (add_peer r ct) s l) = ps_nvls s /\
  counts_with r [mkChannelInfo ct l] (ps_count s) (ps_count (foldl (add_peer r ct) s l)).
Proof.
  revert s. induction l as [|x l IH]; intros s; simpl.
  - split_and!; try done. intros r' ct' p. rewrite peers_of_one.
    assert (occ p (if decide (ct = ct') then [] else []) = 0) as -> by (by destruct (decide (ct = ct'))).
    destruct (decide (r' = r)); lia.
  - destruct (IH (add_peer r ct s x)) as (-> & -> & Hc). split_and!; try done.
    intros r' ct' p. rewrite Hc. rewrite !peers_of_one. unfold cnt, add_peer. simpl.
    destruct (decide (((r', ct'), p) = ((r, ct), x))) as [E|Hne].
    + injection E as -> -> ->. rewrite lookup_insert_eq, !decide_True by done. simpl.
      rewrite occ_cons, decide_True by done. lia.
    + rewrite lookup_insert_ne by congruence.
      destruct (decide (r' = r)) as [->|]; [|done]. destruct (decide (ct = ct')) as [<-|]; [|done].
      rewrite occ_cons, decide_False by congruence. lia.
Qed.

Lemma parse_channel_count r s ch s' :
  parse_channel r s ch = Ret s' ->
  exists new, ps_infos s' = ps_infos s ++ new /\ counts_with r new (ps_count s) (ps_count s').
Proof.
  unfold parse_channel. intros H. destruct (convertToChannelType _) as [ct| |]; [|done|done].
  cbn [mbind eff_bind] in H. case_decide.
  - destruct (convertToBufferType _); [|done|done]. cbn [mbind eff_bind] in H. injection H as <-. exists [].
    rewrite app_nil_r. split; [done|]. intros r' ct' p. unfold peers_of; simpl. rewrite occ_nil. destruct (decide (r' = r)); lia.
  - destruct (add_peers_count r ct (jc_connected_to ch) s) as (E1 & _ & Hc). injection H as <-. simpl.
    exists [mkChannelInfo ct (jc_connected_to ch)]. rewrite E1. done.
Qed.

Lemma counts_with_app r a b m1 m2 m3 :
  counts_with r a m1 m2 -> counts_with r b m2 m3 -> counts_with r (a ++ b) m1 m3.
Proof.
  intros H1 H2 r' ct p. rewrite H2, H1, peers_of_app, occ_app. case_decide; lia.
Qed.

Lemma parse_channels_count r l s s' :
  fold_eff (parse_channel r) s l = Ret s' ->
  exists new, ps_infos s' = ps_infos s ++ new /\ counts_with r new (ps_count s) (ps_count s').
Proof.
  revert s. induction l as [|ch l IH]; intros s H; simpl in H.
  - injection H as <-. exists []. rewrite app_nil_r. split; [done|]. intros r' ct' p.
    unfold peers_of; simpl. rewrite occ_nil. destruct (decide (r' = r)); lia.
  - destruct (parse_channel r s ch) as [s1| |] eqn:E; [|done|done]. cbn [mbind eff_bind] in H.
    destruct (parse_channel_count _ _ _ _ E) as (n1 & E1 & C1), (IH s1 H) as (n2 & E2 & C2).
    exists (n1 ++ n2). rewrite E2, E1, <- app_assoc. split; [done|]. by eapply counts_with_app.
Qed.

(** The count map agrees with the channels declared so far. *)
Definition counted (m : gmap (conn_key * Z) Z) (infos : gmap Z (list ChannelInfo)) : Prop :=
  forall r ct p, cnt m r ct p = occ p (peers_of ct (default [] (infos !! r))).

Lemma setup_gpus_counted gpus s s' :
  fold_eff setup_gpu_channels s gpus = Ret s' -> NoDup (map jg_id gpus) ->
  Forall (fun g => cs_infos s !! jg_id g = None) gpus ->
  counted (cs_count s) (cs_infos s) -> counted (cs_count s') (cs_infos s').
Proof.
  revert s. induction gpus as [|g gpus IH]; intros s H Hd Hf Hc; simpl in H; [by injection H as <-|].
  destruct (setup_gpu_channels s g) as [s1| |] eqn:E; [|done|done]. cbn [mbind eff_bind] in H.
  apply NoDup_cons in Hd as [Hni Hd]. apply Forall_cons in Hf as [Hg Hf].
  unfold setup_gpu_channels, parseChannels in E.
  destruct (fold_eff _ _ (jg_channels g)) as [ps| |] eqn:Ep; [|done|done]. cbn [mbind eff_bind] in E.
  injection E as <-. destruct (parse_channels_count _ _ _ _ Ep) as (new & En & Cn). simpl in En, Cn.
  eapply IH; [exact H|done| |].
  - simpl. rewrite Forall_forall in Hf |- *. intros g' Hg'. rewrite lookup_insert_ne; [by apply Hf|].
    intros Eq. apply Hni. rewrite Eq. by apply list_elem_of_In, in_map, list_elem_of_In.
  - intros r ct p. simpl. rewrite Cn, Hc. destruct (decide (r = jg_id g)) as [->|Hne].
    + rewrite Hg, lookup_insert_eq. cbn [default]. rewrite En. destruct (decide (jg_id g = jg_id g)); [|done].
      change (peers_of ct (default [] None)) with (@nil Z). rewrite occ_nil. cbn [default]. simpl. lia.
    + rewrite lookup_insert_ne by done. lia.
Qed.

Lemma setupChannels_counted rank gpus t :
  setupChannels rank gpus no_tables = Ret t -> NoDup (map jg_id gpus) ->
  counted (channelCountMap t) (channelInfos t).
Proof.
  unfold setupChannels. intros H Hd.
  destruct (fold_eff setup_gpu_channels _ gpus) as [s| |] eqn:E; [|done|done]. cbn [mbind eff_bind] in H.
  destruct (at_ gpus rank) as [gpu| |]; [|done|done]. cbn [mbind eff_bind] in H.
  destruct (fold_eff _ _ (jg_threadblocks gpu)) as [[[m p] nv]| |]; [|done|done]. cbn [mbind eff_bind] in H.
  injection H as <-. simpl. eapply setup_gpus_counted; [exact E|done| |].
  - apply Forall_forall. intros. apply lookup_empty.
  - intros r ct q. unfold cnt. simpl. by rewrite !lookup_empty.
Qed.

(** The channels a rank adds towards one peer. *)
Lemma unpaired_occ t r n ct p :
  (p < n)%nat ->
  occ (Z.of_nat p) (peers_of ct (getUnpairedChannelInfos t r n ct)) =
  Z.of_nat (length (unpaired_with t r ct (Z.of_nat p))).
Proof.
  intros Hp. unfold getUnpairedChannelInfos.
  assert (Hone : forall q, occ (Z.of_nat p) (peers_of ct (unpaired_with t r ct (Z.of_nat q))) =
    if decide (q = p) then Z.of_nat (length (unpaired_with t r ct (Z.of_nat q))) else 0).
  { intros q. unfold unpaired_with. case_match; [by case_decide|]. case_match; [|by case_decide].
    generalize (Z.to_nat (channel_count t (Z.of_nat q) ct r - channel_count t r ct (Z.of_nat q))). intros k.
    induction k as [|k IH]; simpl; [by case_decide|].
    change (mkChannelInfo ct [Z.of_nat q] :: replicate k (mkChannelInfo ct [Z.of_nat q]))
      with ([mkChannelInfo ct [Z.of_nat q]] ++ replicate k (mkChannelInfo ct [Z.of_nat q])).
    rewrite peers_of_app, peers_of_one, decide_True, occ_app, IH by done. rewrite occ_cons.
    change (occ (Z.of_nat p) []) with 0. repeat case_decide; lia. }
  assert (Hgen : forall m lo, occ (Z.of_nat p)
     (peers_of ct (concat (map (fun peer => unpaired_with t r ct (Z.of_nat peer)) (seq lo m)))) =
     if decide (lo <= p < lo + m)%nat then Z.of_nat (length (unpaired_with t r ct (Z.of_nat p))) else 0).
  { intros m. induction m as [|m IH]; intros lo; simpl; [case_decide; [lia|done]|].
    rewrite peers_of_app, occ_app, Hone, IH. repeat case_decide; subst; lia. }
  rewrite Hgen, decide_True by lia. done.
Qed.

(** Counting right makes both ends set up the same number of connections. *)
Lemma counted_pair_up (t : PlanTables) (worldSize r p : nat) (ct : ChannelType) :
  counted (channelCountMap t) (channelInfos t) ->
  (r < worldSize)%nat -> (p < worldSize)%nat -> r <> p ->
  let declared a b := occ b (peers_of ct (default [] (getChannelInfos t a ct))) in
  let added a b := occ b (peers_of ct (getUnpairedChannelInfos t a worldSize ct)) in
  declared (Z.of_nat r) (Z.of_nat p) + added (Z.of_nat r) (Z.of_nat p) =
  declared (Z.of_nat p) (Z.of_nat r) + added (Z.of_nat p) (Z.of_nat r).
Proof.
  intros Hc Hr Hp Hrp declared added.
  assert (Hdec : forall a b, declared a b = channel_count t a ct b).
  { intros a b. unfold declared, channel_count. pose proof (Hc a ct b) as E. unfold cnt in E. rewrite E.
    unfold getChannelInfos, peers_of. destruct (channelInfos t !! a); simpl; [|done].
    by rewrite list_filter_filter_l by done. }
  assert (Hadd : forall a b : nat, (b < worldSize)%nat -> a <> b -> added (Z.of_nat a) (Z.of_nat b) =
     Z.max 0 (channel_count t (Z.of_nat b) ct (Z.of_nat a) - channel_count t (Z.of_nat a) ct (Z.of_nat b))).
  { intros a b Hb Hab. unfold added. rewrite unpaired_occ by done. unfold unpaired_with.
    rewrite (proj2 (Z.eqb_neq _ _)) by lia.
    destruct (Z.ltb_spec (channel_count t (Z.of_nat a) ct (Z.of_nat b)) (channel_count t (Z.of_nat b) ct (Z.of_nat a)));
      rewrite ?length_replicate; simpl; lia. }
  rewrite !Hdec, !Hadd by done. lia.
Qed.

(** Sizes that passed [checkMessageSize] split into equal chunks. *)
Lemma checked_getSizeAndChunks c n k :
  checkMessageSize c = Ret () -> getSizeAndChunks c = Ret (n, k) ->
  n = inputSize c /\ k = inputChunks c.
Proof.
  intros Hc Hg. apply checked_sizes in Hc as (_ & _ & Hi & Ho & _).
  unfold getSizeAndChunks, udiv in Hg.
  rewrite (proj2 (Z.eqb_neq _ _) Hi), (proj2 (Z.eqb_neq _ _) Ho) in Hg.
  cbn [andb negb mbind eff_bind] in Hg. destruct (negb _); [done|]. by injection Hg as <- <-.
Qed.

Lemma exact_chunk n k ba :
  0 < ba -> 0 < k -> 0 < n -> n mod ba = 0 -> (n / ba) mod k = 0 ->
  n = n / k * k /\ n / ba = n / ba / k * k /\ n / ba / k * ba = n / k /\ k <= n / ba.
Proof.
  intros Hba Hk Hn H1 H2. pose proof (Z.div_mod n ba ltac:(lia)) as E1.
  pose proof (Z.div_mod (n / ba) k ltac:(lia)) as E2. rewrite H1, H2 in *.
  set (q := n / ba / k) in *. assert (E3 : n = q * ba * k) by nia.
  assert (E4 : n / k = q * ba) by (rewrite E3 at 1; apply Z.div_mul; lia).
  rewrite E4. assert (0 < q) by nia. repeat split; nia.
Qed.

(** ** Properties *)

(** C33: splitting a buffer into [slices] pieces, at most one for each aligned element, [calcOffset] and [calcSize] cover the
    aligned elements exactly: the first slice starts at 0, each next slice starts
    where the previous one ends, the last one ends at the last whole element, and
    the slices differ by at most one element. *)
Theorem slices_partition (c : PlanConfig) (size slices : Z) :
  let ba := bufferAlignment c in
  let n := size / ba in
  0 < ba -> 0 < slices <= n -> 0 <= size < 2 ^ 32 ->
  calcOffset c size 0 slices = Ret 0 /\ calcOffset c size slices slices = Ret (n * ba) /\
  forall i, 0 <= i < slices -> exists b s,
    calcOffset c size i slices = Ret b /\ calcSize c size i slices = Ret s /\
    calcOffset c size (i + 1) slices = Ret (b + s) /\
    (s = n / slices * ba \/ s = (n / slices + 1) * ba).
Proof.
  intros ba n Hba Hk Hs. assert (Hn : n * ba <= size) by (unfold n; pose proof (Z.mul_div_le size ba Hba); lia).
  split; [|split].
  - rewrite calcOffset_slice by (fold ba; fold n; lia). fold ba; fold n. unfold slice_start.
    pose proof (Z.mod_pos_bound n slices ltac:(lia)). rewrite Z.min_l by lia. done.
  - rewrite calcOffset_slice by (fold ba; fold n; lia). fold ba; fold n. by rewrite slice_start_end.
  - intros i Hi. pose proof (slice_start_bound n slices i Hk ltac:(lia)).
    pose proof (slice_start_bound n slices (i + 1) Hk ltac:(lia)).
    pose proof (Z.div_pos n slices ltac:(lia) ltac:(lia)).
    assert (Hd : slice_start n slices (i + 1) - slice_start n slices i = n / slices \/
                 slice_start n slices (i + 1) - slice_start n slices i = n / slices + 1).
    { unfold slice_start. rewrite (Z.mul_add_distr_r i 1), Z.mul_1_l.
      generalize (i * (n / slices)) (n / slices) (n mod slices). intros a b d.
      destruct (Z.min_spec i d) as [[? ->]|[? ->]], (Z.min_spec (i + 1) d) as [[? ->]|[? ->]]; lia. }
    exists (slice_start n slices i * ba), ((slice_start n slices (i + 1) - slice_start n slices i) * ba).
    assert (Hk32 : slices < 2 ^ 32 /\ n * ba < 2 ^ 32) by nia.
    unfold calcSize. rewrite (u32_small (i + 1)) by lia.
    rewrite !calcOffset_slice by (fold ba; fold n; lia). fold ba; fold n. cbn [mbind eff_bind].
    clear Hs. set (a := slice_start n slices i) in *. set (b := slice_start n slices (i + 1)) in *.
    assert (a * ba <= b * ba <= n * ba) by (split; apply Z.mul_le_mono_nonneg_r; lia).
    assert (0 <= a * ba) by nia.
    rewrite (u32_small (a * ba)), (u32_small (b * ba)), u32_small by lia.
    split_and!; [done|f_equal; lia|f_equal; lia|]. destruct Hd as [-> | ->]; auto.
Qed.

Definition cfg0 : PlanConfig :=
  mkConfig "p" "allreduce" false false 0 4 4 0 640 640 1024 0 UINT64_MAX 16 true false.

Lemma slices_partition_witness :
  (0 < bufferAlignment cfg0 /\ 0 < 4 <= 160 / bufferAlignment cfg0 /\ 0 <= 160 < 2 ^ 32) /\
  calcOffset cfg0 160 0 4 = Ret 0.
Proof.
  split; [vm_compute; intuition congruence|].
  apply (slices_partition cfg0 160 4); vm_compute; intuition congruence.
Defined.

(** with more slices than elements the offsets wrap around ([index % nelems]): for a
    buffer of one element every slice is empty, and for [n >= 2] elements the slice
    before the wrap has a size of almost [2^32] bytes. *)
Theorem slices_lost (c : PlanConfig) (size slices : Z) :
  let ba := bufferAlignment c in
  let n := size / ba in
  0 < ba -> 0 < n < slices -> 0 <= size < 2 ^ 32 ->
  (n = 1 -> forall i, 0 <= i < 2 ^ 32 - 1 -> calcSize c size i slices = Ret 0) /\
  (2 <= n -> calcSize c size (n - 1) slices = Ret (2 ^ 32 - (n - 1) * ba)).
Proof.
  intros ba n Hba Hk Hs. assert (Hn : n * ba <= size) by (unfold n; pose proof (Z.mul_div_le size ba Hba); lia).
  assert (Hcs : forall i, 0 <= i < 2 ^ 32 - 1 ->
    calcSize c size i slices = Ret (u32 (u32 ((i + 1) mod n * ba) - u32 (i mod n * ba)))).
  { intros i Hi. unfold calcSize. rewrite (u32_small (i + 1)) by lia.
    rewrite !calcOffset_wrap by (fold ba; fold n; lia). by fold ba n. }
  split.
  - intros E i Hi. rewrite Hcs, E by done. by rewrite !Z.mod_1_r.
  - intros H2. rewrite Hcs by nia. replace (n - 1 + 1) with n by lia.
    rewrite Z.mod_same, Z.mod_small by lia. rewrite (u32_small (0 * ba)), (u32_small ((n - 1) * ba)) by nia.
    f_equal. unfold u32, wrap. replace (0 * ba - (n - 1) * ba) with (2 ^ 32 - (n - 1) * ba + (-1) * 2 ^ 32) by lia.
    rewrite Z.mod_add by lia. apply Z.mod_small. nia.
Qed.

Lemma slices_lost_witness :
  (0 < bufferAlignment cfg0 /\ 0 < 32 / bufferAlignment cfg0 < 3 /\ 0 <= 32 < 2 ^ 32) /\
  calcSize cfg0 32 1 3 = Ret (2 ^ 32 - 16).
Proof.
  split; [vm_compute; intuition congruence|].
  apply (slices_lost cfg0 32 3); vm_compute; intuition congruence.
Defined.

(** for a message size that [checkMessageSize] accepts, chunk [i] of a buffer that
    is not a reused scratch buffer starts [i] whole chunks into it and a run of [m]
    chunks is [m] chunks long: an operation on chunks [i..i+m) touches exactly those
    bytes and stays within the buffer. *)
Theorem chunk_layout (c : PlanConfig) (n k i m : Z) (bt : BufferType) :
  0 < bufferAlignment c -> 0 < inputChunks c -> 0 < inputSize c < 2 ^ 32 ->
  reuseResources c = false -> scratchChunks c = 0 ->
  checkMessageSize c = Ret () -> getSizeAndChunks c = Ret (n, k) ->
  0 <= i -> 0 <= m -> i + m <= k ->
  let chunk := n / k in
  chunk * k = inputSize c /\
  getOffset c i bt = Ret (i * chunk) /\ getBufferSize c i m = Ret (m * chunk) /\
  i * chunk + m * chunk <= inputSize c.
Proof.
  intros Hba Hk Hn Hr Hs Hc Hg Hi Hm Him chunk.
  destruct (checked_getSizeAndChunks _ _ _ Hc Hg) as [-> ->].
  apply checked_sizes in Hc as (H1 & _ & _ & _ & H2 & _).
  destruct (exact_chunk _ _ _ Hba Hk (proj1 Hn) H1 H2) as (E1 & E2 & E3 & Hle).
  assert (Hoff : forall j b, 0 <= j <= inputChunks c -> getOffset c j b = Ret (j * chunk)).
  { intros j b Hj. unfold getOffset. rewrite Hg. cbn [mbind eff_bind]. rewrite udiv_pos by lia. cbn [mbind eff_bind].
    unfold calMaxScratchChunkSize. rewrite Hs, Hr, andb_false_r. cbn [mbind eff_bind Z.eqb andb].
    rewrite calcOffset_slice by lia. unfold slice_start. rewrite H2. rewrite Z.min_r by lia. f_equal.
    unfold chunk. rewrite <- E3. lia. }
  fold chunk in E1, E3. assert (0 <= chunk) by (unfold chunk; apply Z.div_pos; lia).
  assert (inputChunks c <= inputSize c) by (transitivity (inputSize c / bufferAlignment c); [lia|]; apply Z.div_le_upper_bound; nia).
  split; [lia|]. split; [apply Hoff; lia|]. split; [|nia].
  unfold getBufferSize. rewrite (u32_small (i + m)) by lia. rewrite !Hoff by lia. cbn [mbind eff_bind].
  assert (0 <= i * chunk <= (i + m) * chunk) by (split; [nia|apply Z.mul_le_mono_nonneg_r; lia]).
  assert ((i + m) * chunk <= inputChunks c * chunk) by (apply Z.mul_le_mono_nonneg_r; lia).
  rewrite (u32_small (i * chunk)), (u32_small ((i + m) * chunk)), u32_small by lia. f_equal. lia.
Qed.

Lemma chunk_layout_witness :
  (checkMessageSize cfg0 = Ret () /\ getSizeAndChunks cfg0 = Ret (640, 4)) /\
  getBufferSize cfg0 1 2 = Ret 320.
Proof.
  split; [done|]. refine (proj1 (proj2 (proj2 (chunk_layout cfg0 640 4 1 2 BInput _ _ _ _ _ _ _ _ _ _))));
  first [done | vm_compute; intuition congruence].
Defined.

(** the channels a rank sets up towards a peer are those the plan declares and the
    unpaired ones it adds; both ends set up the same number of connections of each
    type, so the connections of a plan match pairwise. *)
Theorem channels_pair_up (rank : Z) (gpus : list jgpu) (t : PlanTables) (worldSize r p : nat)
    (ct : ChannelType) :
  setupChannels rank gpus no_tables = Ret t -> NoDup (map jg_id gpus) ->
  (r < worldSize)%nat -> (p < worldSize)%nat -> r <> p ->
  let declared a b := occ b (peers_of ct (default [] (getChannelInfos t a ct))) in
  let added a b := occ b (peers_of ct (getUnpairedChannelInfos t a worldSize ct)) in
  declared (Z.of_nat r) (Z.of_nat p) + added (Z.of_nat r) (Z.of_nat p) =
  declared (Z.of_nat p) (Z.of_nat r) + added (Z.of_nat p) (Z.of_nat r).
Proof.
  intros H Hd. apply counted_pair_up. by eapply setupChannels_counted.
Qed.

Definition gpu0 (id : Z) (chs : list jchannel) : jgpu := mkJGpu id 1 1 0 chs [] [] None.

Lemma channels_pair_up_witness :
  exists t, setupChannels 0 [gpu0 0 [mkJChannel "port" "i" [] [1; 1]]; gpu0 1 []] no_tables = Ret t /\
  occ 1 (peers_of CPort (default [] (getChannelInfos t 0 CPort))) +
    occ 1 (peers_of CPort (getUnpairedChannelInfos t 0 2 CPort)) =
  occ 0 (peers_of CPort (default [] (getChannelInfos t 1 CPort))) +
    occ 0 (peers_of CPort (getUnpairedChannelInfos t 1 2 CPort)).
Proof.
  eexists. split; [vm_compute; reflexivity|].
  apply (channels_pair_up 0 [gpu0 0 [mkJChannel "port" "i" [] [1; 1]]; gpu0 1 []] _ 2 0 1);
    [by vm_compute| |lia|lia|lia].
  apply (bool_decide_unpack _). by vm_compute.
Defined.

(** [checkMessageSize] divides by the chunk counts before anything checks that they
    are not zero: for a plan without input or without output chunks, which the other
    size functions accept, loading is undefined behaviour for every aligned size. *)
Theorem zero_chunks_undefined (c : PlanConfig) :
  0 < bufferAlignment c -> inputSize c mod bufferAlignment c = 0 ->
  outputSize c mod bufferAlignment c = 0 -> inputChunks c = 0 -> 0 < outputChunks c ->
  checkMessageSize c = Undef /\ getSizeAndChunks c = Ret (outputSize c, outputChunks c).
Proof.
  intros Hba H1 H2 Hi Ho. split.
  - unfold checkMessageSize. cbn [any_of]. unfold not_multiple.
    rewrite !umod_pos, !udiv_pos, H1, H2, Hi by done. done.
  - unfold getSizeAndChunks. rewrite Hi. by rewrite (proj2 (Z.eqb_neq (outputChunks c) 0)) by lia.
Qed.

Lemma zero_chunks_undefined_witness :
  let c := mkConfig "p" "broadcast" false false 0 0 4 0 640 640 1024 0 UINT64_MAX 16 true false in
  checkMessageSize c = Undef.
Proof. intros c. by apply (zero_chunks_undefined c). Defined.

(** the executor's shortcut for a context it has seen is right: after a plan has been
    loaded once, reloading only its operations for other message sizes and offsets
    gives the plan, or the error, that a full load would give. *)
Theorem light_load_equivalent (j : jplan) (p p1 : Plan) (i1 o1 s1 d1 i2 o2 s2 d2 : Z) :
  loadExecutionPlan j i1 o1 s1 d1 (plan_reset p) = Ret p1 ->
  lightLoadExecutionPlan j i2 o2 s2 d2 (operationsReset p1) = loadExecutionPlan j i2 o2 s2 d2 (plan_reset p).
Proof.
  unfold loadExecutionPlan, lightLoadExecutionPlan. intros H. simpl in H |- *.
  destruct (raise_if _ _) as [[]| |] eqn:E1; [|done|done]. cbn [mbind eff_bind] in H |- *.
  destruct (at_ (j_gpus j) _) as [gpu| |] eqn:E2; [|done|done]. cbn [mbind eff_bind] in H |- *.
  destruct (raise_if (negb (jg_id gpu =? _)) _) as [[]| |] eqn:E3; [|done|done]. cbn [mbind eff_bind] in H |- *.
  destruct (checkMessageSize _); [|done|done]. cbn [mbind eff_bind] in H |- *.
  destruct (setupChannels _ _ _) as [t| |] eqn:E5; [|done|done]. cbn [mbind eff_bind] in H |- *.
  destruct (setupRemoteBuffers _ _ _) as [t'| |] eqn:E6; [|done|done]. cbn [mbind eff_bind] in H |- *.
  destruct (setupOperations _ _ _ _ _ _); [|done|done]. cbn [mbind eff_bind] in H. injection H as <-.
  cbn. rewrite E1. cbn. rewrite E2. cbn. rewrite E3. cbn.
  rewrite <- orb_assoc, orb_diag. reflexivity.
Qed.

Definition jplan0 : jplan :=
  mkJPlan "p" "allreduce" true None None None None None "Simple" None
    [mkJGpu 0 2 2 0 [mkJChannel "memory" "i" [] [1]] [mkJRemote 1 "o" ["memory"]]
       [mkJTb 0 [mkJTbChannel "memory" None [0]] None [mkJOp "nop" None None None None None None None None None []]]
       None;
     gpu0 1 []].

Lemma light_load_equivalent_witness :
  exists p1, loadExecutionPlan jplan0 64 64 0 0 (plan_reset (Plan_create jplan0 0)) = Ret p1 /\
  lightLoadExecutionPlan jplan0 128 128 16 16 (operationsReset p1) =
  loadExecutionPlan jplan0 128 128 16 16 (plan_reset (Plan_create jplan0 0)).
Proof.
  eexists. split; [vm_compute; reflexivity|]. apply (light_load_equivalent jplan0 (Plan_create jplan0 0) _ 64 64 0 0). vm_compute. reflexivity.
Defined.
