(* ===== verification/Executor.v ===== *)
(** * The executor

    Models src/core/executor/executor.cc: how a plan becomes connections,
    registered memories, semaphores, channels and a device plan per thread block
    ([setupExecutionContext] and what it calls), the cache of contexts and device
    plans, and the arguments of the kernel launch.

    The executor works on a communicator and a proxy service.  Here [World] holds
    what it does to them: the calls made on the communicator in order, the tables
    of the proxy service, the GPU allocations.  What comes back is given by the
    environment [Env]: addresses of allocations, and the memory each receive from a
    peer yields.  Registration of memory is the interface [Registrar], implemented
    by [RegisteredMemory]. *)

From S2P Require Import Prelude Errors Core RegisteredMemory ExecutionPlan.
Local Open Scope Z_scope.

(** ** Data *)

Definition MAX_CHANNEL : nat := 16.
Definition MAX_OPERATION : nat := 64.
Definition defaultScratchBufferSize : Z := 2 ^ 27.

(** [ExecutionContextKey]: send and receive buffer, their sizes, the plan's name. *)
Abbreviation ExecutionContextKey := (Z * Z * Z * Z * string)%type.
(** [DeviceExecutionPlanKey]: input and output message size, constant offsets. *)
Abbreviation DeviceExecutionPlanKey := (Z * Z * Z * Z)%type.

(** A connection as the executor sees it: its peer and its transport. *)
Record Conn := mkConn { cn_peer : Z; cn_transport : Transport }.
(** A semaphore: the [sm_nth] one built with [sm_peer]. *)
Record Sem := mkSem { sm_peer : Z; sm_nth : nat }.
Record SwitchChan := mkSwitch { sw_conn : nat; sw_ptr : Z; sw_size : Z }.

Record DeviceExecutionPlan := mkDPlan {
  dp_nMemoryChannels : Z; dp_nPortChannels : Z; dp_nOperations : Z;
  dp_memoryChannels : list Sem; dp_portChannels : list Z; dp_nvlsChannels : list SwitchChan;
  memoryChannelBuffers : list (Z * BufferType);      (* addresses and types *)
  portChannelBuffers : list (Z * BufferType);        (* memory ids and types *)
  dp_operations : list Operation
}.

(** What the executor needs of registered memory: registering a local range, the
    address to access a memory at, and the empty memory. *)
Class Registrar (M : Type) := {
  registerMemory : Z -> Z -> TransportFlags -> result M;
  memData : M -> Z;
  noMemory : M
}.

(** The calls made on the communicator. *)
Inductive comm_call (M : Type) :=
  | CConnect (t : Transport) (peer : Z)
  | CBuildSemaphore (peer : Z)
  | CSendMemory (m : M) (dest : Z)
  | CRecvMemory (src : Z)
  | CConnectNvls (ranks : list Z) (size : Z).
Arguments CConnect {M}. Arguments CBuildSemaphore {M}. Arguments CSendMemory {M}.
Arguments CRecvMemory {M}. Arguments CConnectNvls {M}.

(** [recv p k]: what the [k]-th memory received from peer [p] is; a receive whose
    memory never arrives blocks its caller and has no result.  [alloc n]: the
    address of the [n]-th GPU allocation. *)
Record Env (M : Type) := mkEnv {
  nranksPerNode : Z; nranks : nat; ibDeviceCount : Z;
  alloc : nat -> Z; recv : Z -> nat -> M
}.
Arguments nranksPerNode {M}. Arguments nranks {M}. Arguments ibDeviceCount {M}.
Arguments alloc {M}. Arguments recv {M}.

Record World (M : Type) := mkWorld {
  calls : list (comm_call M);
  svc_memories : list M;            (* [ProxyService::memories_] *)
  svc_semaphores : list Sem;        (* [ProxyService::semaphores_] *)
  allocs : nat;
  defaultScratchBuffer : Z          (* 0 is [nullptr] *)
}.
Arguments mkWorld {M}. Arguments calls {M}. Arguments svc_memories {M}.
Arguments svc_semaphores {M}. Arguments allocs {M}. Arguments defaultScratchBuffer {M}.

Record ExecutionContext (M : Type) := mkContext {
  connections : gmap Z Conn; nvlsConnections : list (list Z * Z);
  localMemoryIdBegin : Z;
  registeredMemories : list M; registeredMemoryAddresses : list Z; registeredMemoryIds : list Z;
  localRegisteredMemories : list M;
  memorySemaphores : list Sem; proxySemaphores : list Z;
  memoryChannels : list Sem; portChannels : list Z; nvlsChannels : list SwitchChan;
  deviceExecutionPlans : gmap DeviceExecutionPlanKey (list DeviceExecutionPlan);
  deviceExecutionPlansBuffers : gmap DeviceExecutionPlanKey (list DeviceExecutionPlan);
  scratchBuffer : Z; smemaphores : list Z; scratchBufferSize : Z; scratchChunkSize : Z;
  nthreadsPerBlock : Z; currentDevicePlan : DeviceExecutionPlanKey;
  ctx_reuseResources : bool; doubleScratchBuff : bool
}.
Arguments mkContext {M}. Arguments connections {M}. Arguments nvlsConnections {M}.
Arguments localMemoryIdBegin {M}. Arguments registeredMemories {M}.
Arguments registeredMemoryAddresses {M}. Arguments registeredMemoryIds {M}.
Arguments localRegisteredMemories {M}. Arguments memorySemaphores {M}. Arguments proxySemaphores {M}.
Arguments memoryChannels {M}. Arguments portChannels {M}. Arguments nvlsChannels {M}.
Arguments deviceExecutionPlans {M}. Arguments deviceExecutionPlansBuffers {M}. Arguments scratchBuffer {M}.
Arguments smemaphores {M}. Arguments scratchBufferSize {M}. Arguments scratchChunkSize {M}.
Arguments nthreadsPerBlock {M}. Arguments currentDevicePlan {M}. Arguments ctx_reuseResources {M}.
Arguments doubleScratchBuff {M}.

(** A failing host call in the outcome type of plans. *)
Definition lift {A} (r : result A) : eff A := match r with Ok a => Ret a | Throw e => Raise e end.

(** [vector::at]. *)
Definition vec_at {A} (l : list A) (i : nat) : eff A :=
  match l !! i with Some a => Ret a | None => Raise EStd end.
(** [unordered_map::at]. *)
Definition map_at {A} (m : gmap Z A) (k : Z) : eff A :=
  match m !! k with Some a => Ret a | None => Raise EStd end.

(** Signed division: truncated, undefined by zero. *)
Definition idiv (a b : Z) : eff Z := if b =? 0 then Undef else Ret (Z.quot a b).
Definition imod (a b : Z) : eff Z := if b =? 0 then Undef else Ret (Z.rem a b).

Definition getBufferInfo (type : BufferType) (sendbuff recvbuff scratch sendBuffSize recvBuffSize
    scratchBuffSize : Z) : eff (Z * Z) :=
  match type with
  | BInput => Ret (sendbuff, sendBuffSize)
  | BOutput => Ret (recvbuff, recvBuffSize)
  | BScratch => Ret (scratch, scratchBuffSize)
  | BNone => Raise ExecutorError_
  end.

Definition IBs : list Transport := [IB0; IB1; IB2; IB3; IB4; IB5; IB6; IB7].

(** ** Setting up a context *)

Section setup.
Context {M : Type} `{Registrar M} (E : Env M).

Definition hasIBDevices : bool := 0 <? ibDeviceCount E.

Definition useIB (rank1 rank2 : Z) : eff bool :=
  n1 ← idiv rank1 (nranksPerNode E);
  n2 ← idiv rank2 (nranksPerNode E);
  Ret (hasIBDevices && negb (n1 =? n2)).

(** [IBs[rank % nranksPerNode]]; the array has eight entries. *)
Definition ib_of (rank : Z) : eff Transport := i ← imod rank (nranksPerNode E); at_ IBs i.

Definition add_transport (rank : Z) (info : BufferInfo) (flags : TransportFlags) (type : ChannelType)
    : eff TransportFlags :=
  match type with
  | CMemory => Ret (flags_or flags (TransportFlags_of CudaIpc))
  | CPort =>
      ib ← useIB rank (bi_accessRank info);
      if (ib : bool) then t ← ib_of rank; Ret (flags_or flags (TransportFlags_of t))
      else Ret (flags_or flags (TransportFlags_of CudaIpc))
  | _ => Ret flags
  end.

Definition getTransportFlags (info : BufferInfo) (rank : Z) : eff TransportFlags :=
  fold_eff (add_transport rank info) 0 (bi_accessChannelTypes info).

(** *** The world *)

Definition log (c : comm_call M) (w : World M) : World M :=
  mkWorld (calls w ++ [c]) (svc_memories w) (svc_semaphores w) (allocs w) (defaultScratchBuffer w).

(** [GpuBuffer(size).memory()]: a null pointer when there is nothing to allocate. *)
Definition GpuBuffer (size : Z) (w : World M) : Z * World M :=
  if size =? 0 then (0, w)
  else (alloc E (allocs w),
        mkWorld (calls w) (svc_memories w) (svc_semaphores w) (S (allocs w)) (defaultScratchBuffer w)).

Definition set_default (p : Z) (w : World M) : World M :=
  mkWorld (calls w) (svc_memories w) (svc_semaphores w) (allocs w) p.

(** [ProxyService::addMemory] and [addSemaphore]: ids are positions. *)
Definition svc_addMemory (m : M) (w : World M) : Z * World M :=
  (u32 (Z.of_nat (length (svc_memories w))),
   mkWorld (calls w) (svc_memories w ++ [m]) (svc_semaphores w) (allocs w) (defaultScratchBuffer w)).
Definition svc_addSemaphore (s : Sem) (w : World M) : Z * World M :=
  (u32 (Z.of_nat (length (svc_semaphores w))),
   mkWorld (calls w) (svc_memories w) (svc_semaphores w ++ [s]) (allocs w) (defaultScratchBuffer w)).

Definition is_build (peer : Z) (c : comm_call M) : bool :=
  match c with CBuildSemaphore p => p =? peer | _ => false end.
Definition is_recv (peer : Z) (c : comm_call M) : bool :=
  match c with CRecvMemory p => p =? peer | _ => false end.
Definition count_calls (f : comm_call M -> bool) (w : World M) : nat :=
  length (filter (fun c => f c = true) (calls w)).

(** [connect], [buildSemaphore], [recvMemory] and waiting for their futures. *)
Definition comm_connect (t : Transport) (peer : Z) (w : World M) : Conn * World M :=
  (mkConn peer t, log (CConnect t peer) w).
Definition comm_buildSemaphore (peer : Z) (w : World M) : Sem * World M :=
  (mkSem peer (count_calls (is_build peer) w), log (CBuildSemaphore peer) w).
Definition comm_recvMemory (peer : Z) (w : World M) : M * World M :=
  (recv E peer (count_calls (is_recv peer) w), log (CRecvMemory peer) w).

(** *** Scratch buffer *)

Record scratch := mkScratch { sc_size : Z; sc_chunk : Z; sc_ptr : Z }.

Definition setupScratchBuffer (sendBuffSize recvBuffSize : Z) (plan : Plan) (w : World M)
    : eff (scratch * World M) :=
  let c := cfg plan in
  size ← calScratchBufferSize c (Z.min sendBuffSize (maxMessageSize c)) (Z.min recvBuffSize (maxMessageSize c));
  chunk ← calMaxScratchChunkSize c size;
  if reuseResources c then
    let w := if defaultScratchBuffer w =? 0
             then let '(p, w) := GpuBuffer defaultScratchBufferSize w in set_default p w else w in
    _ ← raise_if (defaultScratchBufferSize <? size) ExecutorError_;
    Ret (mkScratch defaultScratchBufferSize (u32 chunk) (defaultScratchBuffer w), w)
  else
    let '(p, w) := GpuBuffer size w in Ret (mkScratch size (u32 chunk) p, w).

(** *** Connections *)

Definition buffer_size (sendBuffSize recvBuffSize scratchBuffSize : Z) (b : BufferType) : eff Z :=
  match b with
  | BInput => Ret sendBuffSize | BOutput => Ret recvBuffSize | BScratch => Ret scratchBuffSize
  | BNone => Raise ExecutorError_
  end.

Definition connect_peer (rank : Z) (s : gmap Z Conn * World M) (peer : Z) : eff (gmap Z Conn * World M) :=
  let '(conns, w) := s in
  ib ← useIB rank peer;
  t ← (if negb ib then Ret CudaIpc else ib_of rank);
  let '(c, w) := comm_connect t peer w in
  Ret (<[peer := c]> conns, w).

Definition connect_nvls (size : BufferType -> eff Z) (s : list (list Z * Z) * World M) (info : NvlsInfo)
    : eff (list (list Z * Z) * World M) :=
  let '(l, w) := s in
  n ← size (nv_bufferType info);
  Ret (l ++ [(nv_ranks info, n)], log (CConnectNvls (nv_ranks info) n) w).

Definition setupConnections (rank sendBuffSize recvBuffSize scratchBuffSize : Z) (plan : Plan) (w : World M)
    : eff (gmap Z Conn * list (list Z * Z) * World M) :=
  peers ← (match getConnectedPeers (tabs plan) (pl_rank (cfg plan)) with
           | Some l => Ret l | None => Raise EStd end);
  '(conns, w) ← fold_eff (connect_peer rank) (∅, w) peers;
  infos ← map_at (nvlsInfos (tabs plan)) rank;
  '(nvls, w) ← fold_eff (connect_nvls (buffer_size sendBuffSize recvBuffSize scratchBuffSize)) ([], w) infos;
  Ret (conns, nvls, w).

(** *** Channels *)

(** The semaphores built so far, of memory and of port channels. *)
Record futures := mkFutures { fu_memory : list Sem; fu_proxy : list Sem; fu_world : World M }.

Definition process_peer (conns : gmap Z Conn) (type : ChannelType) (s : futures) (peer : Z) : eff futures :=
  conn ← map_at conns peer;
  match type with
  | CMemory => let '(x, w) := comm_buildSemaphore (cn_peer conn) (fu_world s) in
               Ret (mkFutures (fu_memory s ++ [x]) (fu_proxy s) w)
  | CPort => let '(x, w) := comm_buildSemaphore (cn_peer conn) (fu_world s) in
             Ret (mkFutures (fu_memory s) (fu_proxy s ++ [x]) w)
  | _ => Ret s
  end.

Definition process_info (conns : gmap Z Conn) (s : futures) (info : ChannelInfo) : eff futures :=
  fold_eff (process_peer conns (ci_channelType info)) s (ci_connectedPeers info).

Definition processChannelInfos (conns : gmap Z Conn) (infos : list ChannelInfo) (s : futures) : eff futures :=
  fold_eff (process_info conns) s infos.

Definition plan_channelInfos (plan : Plan) (ct : ChannelType) : eff (list ChannelInfo) :=
  match getChannelInfos (tabs plan) (pl_rank (cfg plan)) ct with Some l => Ret l | None => Raise EStd end.

Definition process_type (conns : gmap Z Conn) (plan : Plan) (s : futures) (ct : ChannelType) : eff futures :=
  infos ← plan_channelInfos plan ct;
  s ← processChannelInfos conns infos s;
  processChannelInfos conns (getUnpairedChannelInfos (tabs plan) (pl_rank (cfg plan)) (nranks E) ct) s.

Fixpoint add_semaphores (l : list Sem) (w : World M) : list Z * World M :=
  match l with
  | [] => ([], w)
  | s :: l' => let '(i, w) := svc_addSemaphore s w in
               let '(ids, w) := add_semaphores l' w in (i :: ids, w)
  end.

(** One channel per connection of the declared channels, taking the semaphores in
    order. *)
Definition take_semaphores {A} (infos : list ChannelInfo) (sems : list A) : eff (list A) :=
  map_eff (fun i => at_ sems (Z.of_nat i)) (seq 0 (length (concat (map ci_connectedPeers infos)))).

Record channels := mkChannels {
  ch_memorySemaphores : list Sem; ch_proxySemaphores : list Z;
  ch_memory : list Sem; ch_port : list Z
}.

Definition setupChannels (conns : gmap Z Conn) (plan : Plan) (w : World M) : eff (channels * World M) :=
  s ← fold_eff (process_type conns plan) (mkFutures [] [] w) [CMemory; CPort];
  let '(ids, w) := add_semaphores (fu_proxy s) (fu_world s) in
  mem ← plan_channelInfos plan CMemory;
  chMem ← take_semaphores mem (fu_memory s);
  port ← plan_channelInfos plan CPort;
  chPort ← take_semaphores port ids;
  Ret (mkChannels (fu_memory s) ids chMem chPort, w).

(** *** Registered memories *)

Record buffers := mkBuffers {
  b_send : Z; b_recv : Z; b_scratch : Z; b_sendSize : Z; b_recvSize : Z; b_scratchSize : Z
}.

Definition buffer_info (b : buffers) (type : BufferType) : eff (Z * Z) :=
  getBufferInfo type (b_send b) (b_recv b) (b_scratch b) (b_sendSize b) (b_recvSize b) (b_scratchSize b).

Definition add_local (rank : Z) (b : buffers) (w : World M) (type : BufferType) : eff (World M) :=
  flags ← (if hasIBDevices
           then t ← ib_of rank; Ret (flags_or (TransportFlags_of CudaIpc) (TransportFlags_of t))
           else Ret (TransportFlags_of CudaIpc));
  '(ptr, size) ← buffer_info b type;
  m ← (if 0 <? size then lift (registerMemory ptr size flags) else Ret noMemory);
  Ret (svc_addMemory m w).2.

Definition send_buffer (rank : Z) (b : buffers) (s : list M * World M) (info : BufferInfo)
    : eff (list M * World M) :=
  let '(l, w) := s in
  '(ptr, size) ← buffer_info b (bi_bufferType info);
  flags ← getTransportFlags info rank;
  m ← lift (registerMemory ptr size flags);
  Ret (l ++ [m], log (CSendMemory m (bi_accessRank info)) w).

Record received := mkReceived {
  re_memories : list M; re_addresses : list Z; re_ids : list Z; re_world : World M
}.

Definition access_memory (m : M) (s : received) (type : ChannelType) : received :=
  match type with
  | CMemory => mkReceived (re_memories s) (re_addresses s ++ [memData m]) (re_ids s) (re_world s)
  | CPort => let '(i, w) := svc_addMemory m (re_world s) in
             mkReceived (re_memories s) (re_addresses s) (re_ids s ++ [i]) w
  | _ => s
  end.

Definition receive_buffer (s : received) (info : BufferInfo) : received :=
  let '(m, w) := comm_recvMemory (bi_rank info) (re_world s) in
  foldl (access_memory m) (mkReceived (re_memories s ++ [m]) (re_addresses s) (re_ids s) w)
    (bi_accessChannelTypes info).

Definition setupRegisteredMemories (b : buffers) (rank : Z) (plan : Plan) (w : World M)
    : eff (Z * list M * received) :=
  let begin := u32 (Z.of_nat (length (svc_memories w))) in   (* [nextMemoryId(3)] *)
  w ← fold_eff (add_local rank b) w [BInput; BOutput; BScratch];
  '(sent, w) ← fold_eff (send_buffer rank b) ([], w) (getLocalBufferToSend (tabs plan) (pl_rank (cfg plan)));
  Ret (begin, sent,
       foldl receive_buffer (mkReceived [] [] [] w) (getRemoteBufferInfos (tabs plan) (pl_rank (cfg plan)))).

(** *** Switch channels, semaphores *)

Definition nvls_channel (b : buffers) (nvls : list (list Z * Z)) (l : list SwitchChan) (info : NvlsInfo)
    : eff (list SwitchChan) :=
  _ ← at_ nvls (Z.of_nat (length l));
  '(ptr, size) ← buffer_info b (nv_bufferType info);
  Ret (l ++ [mkSwitch (length l) ptr size]).

Definition setupNvlsChannels (b : buffers) (rank : Z) (nvls : list (list Z * Z)) (plan : Plan)
    : eff (list SwitchChan) :=
  infos ← map_at (nvlsInfos (tabs plan)) rank;
  fold_eff (nvls_channel b nvls) [] infos.

(** The device copy of the semaphores, with their initial values ([int]). *)
Definition setupSemaphores (plan : Plan) (w : World M) : list Z * World M :=
  let init := semaphoreInfos (tabs plan) in
  (init, (GpuBuffer (Z.of_nat (length init)) w).2).

(** *** Device plans *)

(** What the handles and buffers of a device plan come from. *)
Record resources := mkResources {
  rs_memoryChannels : list Sem; rs_portChannels : list Z; rs_nvlsChannels : list SwitchChan;
  rs_addresses : list Z; rs_ids : list Z
}.

(** Fill a fixed array from a list of indices. *)
Definition fill {A B C} (n : nat) (get : A -> Z) (out : A -> B -> C) (src : list B) (l : list A) : eff (list C) :=
  l ← bounded n l;
  map_eff (fun a => b ← at_ src (get a); Ret (out a b)) l.

Definition fill_handles {A} (src : list A) (l : list Z) : eff (list A) :=
  fill MAX_CHANNEL (fun i => i) (fun _ a => a) src l.
Definition fill_buffers (src : list Z) (l : list (Z * BufferType)) : eff (list (Z * BufferType)) :=
  fill MAX_CHANNEL fst (fun p a => (a, p.2)) src l.

Definition threadblock_plan (rs : resources) (plan : Plan) (tb : nat) (ops : list Operation)
    : eff DeviceExecutionPlan :=
  let t := tabs plan in
  mems ← vec_at (threadblockMemoryChannels t) tb;
  ports ← vec_at (threadblockPortChannels t) tb;
  hm ← fill_handles (rs_memoryChannels rs) mems;
  hp ← fill_handles (rs_portChannels rs) ports;
  nvls ← vec_at (threadblockNvlsChannels t) tb;
  hn ← fill_handles (rs_nvlsChannels rs) nvls;
  mb ← vec_at (threadblockMemoryChannelBuffers t) tb;
  bm ← fill_buffers (rs_addresses rs) mb;
  pb ← vec_at (threadblockPortChannelBuffers t) tb;
  bp ← fill_buffers (rs_ids rs) pb;
  _ ← raise_if (Z.of_nat MAX_OPERATION <? Z.of_nat (length ops)) ExecutorError_;
  Ret (mkDPlan (u8 (Z.of_nat (length mems))) (u8 (Z.of_nat (length ports))) (u16 (Z.of_nat (length ops)))
         hm hp hn bm bp ops).

Fixpoint device_plans (rs : resources) (plan : Plan) (tb : nat) (ops : list (list Operation))
    : eff (list DeviceExecutionPlan) :=
  match ops with
  | [] => Ret []
  | o :: ops' => d ← threadblock_plan rs plan tb o; ds ← device_plans rs plan (S tb) ops'; Ret (d :: ds)
  end.

(** What [setupDeviceExecutionPlan] stores. *)
Definition build_plans (rs : resources) (plan : Plan) : eff (list DeviceExecutionPlan) :=
  device_plans rs plan 0 (operations plan).

Definition resources_of (c : ExecutionContext M) : resources :=
  mkResources (memoryChannels c) (portChannels c) (nvlsChannels c) (registeredMemoryAddresses c)
    (registeredMemoryIds c).

Definition set_plans (c : ExecutionContext M)
    (plans buffers : gmap DeviceExecutionPlanKey (list DeviceExecutionPlan)) (current : DeviceExecutionPlanKey)
    : ExecutionContext M :=
  mkContext (connections c) (nvlsConnections c) (localMemoryIdBegin c) (registeredMemories c)
    (registeredMemoryAddresses c) (registeredMemoryIds c) (localRegisteredMemories c) (memorySemaphores c)
    (proxySemaphores c) (memoryChannels c) (portChannels c) (nvlsChannels c) plans buffers
    (scratchBuffer c) (smemaphores c) (scratchBufferSize c) (scratchChunkSize c) (nthreadsPerBlock c) current
    (ctx_reuseResources c) (doubleScratchBuff c).

Definition setupDeviceExecutionPlan (c : ExecutionContext M) (key : DeviceExecutionPlanKey) (plan : Plan)
    : eff (ExecutionContext M) :=
  ds ← build_plans (resources_of c) plan;
  Ret (set_plans c (<[key := ds]> (deviceExecutionPlans c)) (deviceExecutionPlansBuffers c) (currentDevicePlan c)).

(** Copy the device plans of [key] to a new GPU buffer and make [key] current. *)
Definition upload (c : ExecutionContext M) (key : DeviceExecutionPlanKey) (w : World M)
    : ExecutionContext M * World M :=
  let ds := default [] (deviceExecutionPlans c !! key) in
  (set_plans c (deviceExecutionPlans c) (<[key := ds]> (deviceExecutionPlansBuffers c)) key,
   (GpuBuffer (Z.of_nat (length ds)) w).2).

(** ** Executing *)

(** [Executor::Impl]: the cache and the world. *)
Record ExecutorImpl := mkExecutor { contexts : gmap ExecutionContextKey (ExecutionContext M); ex_world : World M }.

(** The arguments of [setupExecutionContext]. *)
Record call := mkCall {
  c_rank : Z; c_sendbuff : Z; c_recvbuff : Z; c_input : Z; c_output : Z; c_src : Z; c_dst : Z;
  c_sendRange : Z; c_recvRange : Z
}.

Definition context_key (a : call) (p : Plan) : ExecutionContextKey :=
  if reuseResources (cfg p) then (0, 0, 0, 0, pl_name (cfg p))
  else (c_sendbuff a, c_recvbuff a, c_sendRange a, c_recvRange a, pl_name (cfg p)).
Definition device_key (a : call) : DeviceExecutionPlanKey := (c_input a, c_output a, c_src a, c_dst a).

(** The part after a context has been found. *)
Definition use_context (j : jplan) (a : call) (p : Plan) (s : ExecutorImpl) (c : ExecutionContext M)
    : eff (ExecutionContext M * Plan * ExecutorImpl) :=
  let key := context_key a p in
  let dkey := device_key a in
  let store c w := mkExecutor (<[key := c]> (contexts s)) w in
  if decide (currentDevicePlan c = dkey) then Ret (c, p, s)
  else if decide (is_Some (deviceExecutionPlans c !! dkey)) then
    let c := set_plans c (deviceExecutionPlans c) (deviceExecutionPlansBuffers c) dkey in
    Ret (c, p, store c (ex_world s))
  else
    p ← lightLoadExecutionPlan j (c_input a) (c_output a) (c_src a) (c_dst a) (operationsReset p);
    c ← setupDeviceExecutionPlan c dkey p;
    let '(c, w) := upload c dkey (ex_world s) in
    Ret (c, p, store c w).

(** The part that makes a context. *)
Definition make_context (a : call) (p : Plan) (w : World M) : eff (ExecutionContext M * World M) :=
  '(sc, w) ← setupScratchBuffer (c_sendRange a) (c_recvRange a) p w;
  let b := mkBuffers (c_sendbuff a) (c_recvbuff a) (sc_ptr sc) (c_sendRange a) (c_recvRange a) (sc_size sc) in
  '(conns, nvls, w) ← setupConnections (c_rank a) (c_sendRange a) (c_recvRange a) (sc_size sc) p w;
  '(ch, w) ← setupChannels conns p w;
  '(begin, sent, re) ← setupRegisteredMemories b (c_rank a) p w;
  switch ← setupNvlsChannels b (c_rank a) nvls p;
  let '(sems, w) := setupSemaphores p (re_world re) in
  let c := mkContext conns nvls begin (re_memories re) (re_addresses re) (re_ids re) sent
             (ch_memorySemaphores ch) (ch_proxySemaphores ch) (ch_memory ch) (ch_port ch) switch ∅ ∅
             (sc_ptr sc) sems (sc_size sc) (sc_chunk sc) (nThreadsPerBlock (cfg p)) (device_key a)
             (reuseResources (cfg p)) (doubleScratchBuffer (cfg p)) in
  c ← setupDeviceExecutionPlan c (device_key a) p;
  Ret (upload c (device_key a) w).

Definition setupExecutionContext (j : jplan) (a : call) (p : Plan) (s : ExecutorImpl)
    : eff (ExecutionContext M * Plan * ExecutorImpl) :=
  match contexts s !! context_key a p with
  | Some c => use_context j a p s c
  | None =>
      let key := context_key a p in
      p ← loadExecutionPlan j (c_input a) (c_output a) (c_src a) (c_dst a) (plan_reset p);
      '(c, w) ← make_context a p (ex_world s);
      Ret (c, p, mkExecutor (<[key := c]> (contexts s)) w)
  end.

(** *** Launching *)

Inductive PacketType := LL8 | LL16.

(** The arguments of the kernel that come from the context. *)
Record launch := mkLaunch {
  la_packet : PacketType; la_reuse : bool; la_nthreadblocks : Z; la_nthreads : Z;
  la_scratch : Z; la_scratchOffset : Z; la_scratchChunkSize : Z;
  la_plan : list DeviceExecutionPlan; la_semaphores : list Z; la_localMemoryIdBegin : Z; la_flag : Z
}.

Definition launchKernelHelper (pt : PacketType) (c : ExecutionContext M) (flag : Z) : launch :=
  let key := currentDevicePlan c in
  let scratchOffset :=
    if doubleScratchBuff c && (Z.land flag 1 =? 0) then Z.shiftr (scratchBufferSize c) 1 else 0 in
  mkLaunch pt (ctx_reuseResources c) (Z.of_nat (length (default [] (deviceExecutionPlans c !! key))))
    (nthreadsPerBlock c) (scratchBuffer c) scratchOffset (scratchChunkSize c)
    (default [] (deviceExecutionPlansBuffers c !! key)) (smemaphores c) (localMemoryIdBegin c) flag.

(** The counter [flag] is a static variable: one for the process. *)
Definition launchKernel (pt : PacketType) (c : ExecutionContext M) (flag : Z) : launch * Z :=
  let flag := u32 (flag + 1) in (launchKernelHelper pt c flag, flag).

(** [execute]: [base] and [range] are what [cuMemGetAddressRange] says of the send
    and the receive buffer. *)
Definition execute (j : jplan) (rank sendbuff recvbuff sendSize recvSize : Z) (base range : Z -> Z)
    (pt : PacketType) (p : Plan) (s : ExecutorImpl) (flag : Z)
    : eff (launch * Plan * ExecutorImpl * Z) :=
  let a := mkCall rank (base sendbuff) (base recvbuff) sendSize recvSize
             (u64 (sendbuff - base sendbuff)) (u64 (recvbuff - base recvbuff)) (range sendbuff) (range recvbuff) in
  '(c, p, s) ← setupExecutionContext j a p s;
  let '(l, flag) := launchKernel pt c flag in
  Ret (l, p, s, flag).
End setup.

(** ** Lemmas: the cache *)

(** The plan a load for the sizes and offsets of a device key gives. *)
Definition load_for (j : jplan) (k : DeviceExecutionPlanKey) (p : Plan) : eff Plan :=
  let '(i, o, s, d) := k in loadExecutionPlan j i o s d (plan_reset p).

(** The members of the configuration that a load takes from the plan object. *)
Definition same_input (j : jplan) (c c' : PlanConfig) : Prop :=
  pl_name c' = pl_name c /\ reuseResources c' = reuseResources c /\ pl_rank c' = pl_rank c /\
  bufferAlignment c' = bufferAlignment c /\ doubleScratchBuffer c' = doubleScratchBuffer c /\
  (isUsingPacket c' || String.eqb (j_protocol j) "LL")%bool =
  (isUsingPacket c || String.eqb (j_protocol j) "LL")%bool.

Lemma load_cfg j k p p' : load_for j k p = Ret p' -> same_input j (cfg p) (cfg p').
Proof.
  destruct k as [[[i o] s] d]. unfold load_for, loadExecutionPlan. simpl. intros H.
  repeat match type of H with (?m ≫= _) = _ => destruct m; simpl in H; try done end.
  injection H as <-. unfold same_input. simpl. split_and!; try done. by rewrite <- orb_assoc, orb_diag.
Qed.

(** Loading does not depend on what the plan object was loaded for before. *)
Lemma load_again j k k' p p' : load_for j k p = Ret p' -> load_for j k' p' = load_for j k' p.
Proof.
  intros H. apply load_cfg in H as (E1 & E2 & E3 & E4 & E5 & E6).
  destruct k' as [[[i' o'] s'] d']. unfold load_for, loadExecutionPlan. simpl.
  by rewrite E1, E2, E3, E4, E5, E6.
Qed.

Lemma light_load_for j k k' p p' :
  load_for j k p = Ret p' ->
  (let '(i, o, s, d) := k' in lightLoadExecutionPlan j i o s d (operationsReset p')) = load_for j k' p.
Proof.
  destruct k as [[[i o] s] d], k' as [[[i' o'] s'] d']. apply light_load_equivalent.
Qed.

Section cache.
Context {M : Type} `{Registrar M} (E : Env M) (j : jplan) (p0 : Plan).

(** [c] has the resources that [make_context] made for a call with this key; only
    its device plans have changed since. *)
Definition made_for (k : ExecutionContextKey) (c : ExecutionContext M) : Prop :=
  exists a w p c0 w0,
    context_key a p0 = k /\ load_for j (device_key a) p0 = Ret p /\ make_context E a p w = Ret (c0, w0) /\
    c = set_plans c0 (deviceExecutionPlans c) (deviceExecutionPlansBuffers c) (currentDevicePlan c).

(** Every cached device plan is the one of a fresh load, and is on the GPU. *)
Record context_ok (c : ExecutionContext M) : Prop := {
  co_current : is_Some (deviceExecutionPlans c !! currentDevicePlan c);
  co_uploaded : deviceExecutionPlansBuffers c = deviceExecutionPlans c;
  co_fresh : forall k ds, deviceExecutionPlans c !! k = Some ds ->
    exists p, load_for j k p0 = Ret p /\ build_plans (resources_of c) p = Ret ds
}.

Record cache_inv (p : Plan) (s : ExecutorImpl) : Prop := {
  ci_plan : (contexts s = ∅ /\ p = p0) \/ exists k, load_for j k p0 = Ret p;
  ci_contexts : forall k c, contexts s !! k = Some c -> context_ok c /\ made_for k c
}.

Lemma cache_inv_key p s a : cache_inv p s -> context_key a p = context_key a p0.
Proof.
  intros [[[_ ->]|[k Hk]] _]; [done|]. unfold context_key. by destruct (load_cfg _ _ _ _ Hk) as (-> & -> & _).
Qed.

(** [setupDeviceExecutionPlan] and the upload add a plan and keep the others. *)
Lemma upload_ok c k p c1 w :
  context_ok c \/ (deviceExecutionPlans c = ∅ /\ deviceExecutionPlansBuffers c = ∅) ->
  load_for j k p0 = Ret p -> setupDeviceExecutionPlan c k p = Ret c1 ->
  let c2 := (upload E c1 k w).1 in
  context_ok c2 /\ currentDevicePlan c2 = k /\
  c2 = set_plans c (deviceExecutionPlans c2) (deviceExecutionPlansBuffers c2) (currentDevicePlan c2).
Proof.
  unfold setupDeviceExecutionPlan. intros Hc Hl H1.
  destruct (build_plans _ _) as [ds| |] eqn:E1; [|done|done]. injection H1 as <-. simpl.
  rewrite lookup_insert_eq. simpl. split; [|done]. split; simpl.
  - rewrite lookup_insert_eq. eauto.
  - f_equal. destruct Hc as [Hc|[-> ->]]; [apply (co_uploaded _ Hc)|done].
  - intros k' ds' Hk. destruct (decide (k = k')) as [<-|Hne].
    + rewrite lookup_insert_eq in Hk. injection Hk as <-. eauto.
    + rewrite lookup_insert_ne in Hk by done. destruct Hc as [Hc|[Hc _]]; [by apply (co_fresh _ Hc)|].
      by rewrite Hc, lookup_empty in Hk.
Qed.

Lemma cache_store p' (s : ExecutorImpl) k c w :
  (forall k c, contexts s !! k = Some c -> context_ok c /\ made_for k c) ->
  (exists dk, load_for j dk p0 = Ret p') -> context_ok c -> made_for k c ->
  cache_inv p' (mkExecutor (<[k := c]> (contexts s)) w).
Proof.
  intros Hs Hp Hc Hm. split; [by right|]. simpl. intros k' c' Hk.
  destruct (decide (k = k')) as [<-|Hne].
  - rewrite lookup_insert_eq in Hk. by injection Hk as <-.
  - rewrite lookup_insert_ne in Hk by done. by apply Hs.
Qed.

Lemma use_context_ok a p s c r p' s' :
  cache_inv p s -> contexts s !! context_key a p = Some c ->
  use_context E j a p s c = Ret (r, p', s') ->
  cache_inv p' s' /\ context_ok r /\ currentDevicePlan r = device_key a /\ made_for (context_key a p0) r.
Proof.
  intros Hi Hc H1. pose proof (cache_inv_key p s a Hi) as Hk.
  destruct (ci_contexts _ _ Hi _ _ Hc) as [Hok Hm]. rewrite Hk in Hm.
  assert (Hp : exists dk, load_for j dk p0 = Ret p).
  { destruct (ci_plan _ _ Hi) as [[He _]|?]; [|done]. by rewrite He, lookup_empty in Hc. }
  unfold use_context in H1. destruct (decide (currentDevicePlan c = device_key a)) as [Ec|Hne].
  { injection H1 as <- <- <-. done. }
  destruct (decide (is_Some (deviceExecutionPlans c !! device_key a))) as [Hs|Hn].
  - injection H1 as <- <- <-.
    set (c' := set_plans c (deviceExecutionPlans c) (deviceExecutionPlansBuffers c) (device_key a)).
    assert (Hok' : context_ok c') by (split; [exact Hs|apply (co_uploaded _ Hok)|apply (co_fresh _ Hok)]).
    assert (Hm' : made_for (context_key a p0) c').
    { destruct Hm as (a0 & w & q & c0 & w0 & ? & ? & ? & E0). exists a0, w, q, c0, w0. split_and!; try done.
      unfold c'. rewrite E0. done. }
    rewrite Hk. split_and!; try done. apply cache_store; try done. apply (ci_contexts _ _ Hi).
  - destruct Hp as [dk Hp].
    assert (Hl : lightLoadExecutionPlan j (c_input a) (c_output a) (c_src a) (c_dst a) (operationsReset p) =
                 load_for j (device_key a) p0) by exact (light_load_for j dk (device_key a) p0 p Hp).
    rewrite Hl in H1.
    destruct (load_for j (device_key a) p0) as [p1| |] eqn:E1; [|done|done]. cbn [mbind eff_bind] in H1.
    destruct (setupDeviceExecutionPlan c (device_key a) p1) as [c1| |] eqn:E2; [|done|done].
    cbn [mbind eff_bind] in H1.
    destruct (upload_ok c (device_key a) p1 c1 (ex_world s) (or_introl Hok) E1 E2) as (Hok' & Hcur & Hset).
    destruct (upload E c1 (device_key a) (ex_world s)) as [c2 w2]. simpl in *. injection H1 as <- <- <-.
    assert (Hm' : made_for (context_key a p0) c2).
    { destruct Hm as (a0 & w & q & c0 & w0 & ? & ? & ? & E0). exists a0, w, q, c0, w0. split_and!; try done.
      rewrite Hset. rewrite E0. done. }
    rewrite Hk. split_and!; try done. apply cache_store; try done; [apply (ci_contexts _ _ Hi)|by exists (device_key a)].
Qed.

Lemma make_context_ok a p w c w' :
  load_for j (device_key a) p0 = Ret p -> make_context E a p w = Ret (c, w') ->
  context_ok c /\ currentDevicePlan c = device_key a /\ made_for (context_key a p0) c.
Proof.
  intros Hl H1. pose proof H1 as H2. unfold make_context in H1.
  repeat match type of H1 with
    | (setupDeviceExecutionPlan _ _ _ ≫= _) = _ => fail 1
    | (?m ≫= _) = _ => destruct m as [?x| |]; [|done|done]; cbn [mbind eff_bind] in H1
    | (let '_ := ?x in _) = _ => destruct x
    | match ?x with (_, _) => _ end = _ => destruct x
    end.
  match type of H1 with (setupDeviceExecutionPlan ?c _ _ ≫= _) = _ => set (ctx0 := c) in * end.
  destruct (setupDeviceExecutionPlan ctx0 (device_key a) p) as [c1| |] eqn:E2; [|done|done].
  cbn [mbind eff_bind] in H1.
  match type of H1 with Ret (upload _ _ _ ?w) = _ =>
    destruct (upload_ok ctx0 (device_key a) p c1 w (or_intror (conj eq_refl eq_refl)) Hl E2) as (Hok & Hcur & _) end.
  injection H1 as H1 _. split_and!; [by rewrite <- H1|by rewrite <- H1|].
  exists a, w, p, c, w'. split_and!; try done. by destruct c.
Qed.

Lemma setup_context_ok a p s r p' s' :
  cache_inv p s -> setupExecutionContext E j a p s = Ret (r, p', s') ->
  cache_inv p' s' /\ context_ok r /\ currentDevicePlan r = device_key a /\ made_for (context_key a p0) r.
Proof.
  intros Hi H1. unfold setupExecutionContext in H1.
  destruct (contexts s !! context_key a p) as [c|] eqn:Ec; [by eapply use_context_ok|].
  assert (Hl : load_for j (device_key a) p = load_for j (device_key a) p0).
  { destruct (ci_plan _ _ Hi) as [[_ ->]|[k Hk]]; [done|by eapply load_again]. }
  change (loadExecutionPlan _ _ _ _ _ _) with (load_for j (device_key a) p) in H1. rewrite Hl in H1.
  destruct (load_for j (device_key a) p0) as [p1| |] eqn:E1; [|done|done]. cbn [mbind eff_bind] in H1.
  destruct (make_context E a p1 (ex_world s)) as [[c1 w1]| |] eqn:E2; [|done|done]. cbn [mbind eff_bind] in H1.
  destruct (make_context_ok _ _ _ _ _ E1 E2) as (Hok & Hcur & Hm). injection H1 as <- <- <-.
  rewrite (cache_inv_key _ _ _ Hi). split_and!; try done. apply cache_store; try done; [apply (ci_contexts _ _ Hi)|by exists (device_key a)].
Qed.

(** A run of successful calls with one plan object. *)
Fixpoint run_calls (l : list call) (p : Plan) (s : ExecutorImpl) : eff (list (ExecutionContext M) * Plan * ExecutorImpl) :=
  match l with
  | [] => Ret ([], p, s)
  | a :: l' =>
      '(c, p, s) ← setupExecutionContext E j a p s;
      '(cs, p, s) ← run_calls l' p s;
      Ret (c :: cs, p, s)
  end.
End cache.

Lemma map_eff_length {A B} (f : A -> eff B) l l' : map_eff f l = Ret l' -> length l' = length l.
Proof.
  revert l'. induction l as [|x l IH]; intros l' H; simpl in H; [by injection H as <-|].
  destruct (f x); [|done|done]. simpl in H. destruct (map_eff f l) as [bs| |]; [|done|done]. simpl in H.
  injection H as <-. simpl. by rewrite (IH bs).
Qed.

Lemma calls_ok {M} `{Registrar M} (E : Env M) (j : jplan) (p0 : Plan) l : forall p s cs p' s',
  cache_inv E j p0 p s -> run_calls E j l p s = Ret (cs, p', s') ->
  Forall2 (fun a c => context_ok j p0 c /\ currentDevicePlan c = device_key a /\ made_for E j p0 (context_key a p0) c) l cs.
Proof.
  induction l as [|a l IH]; intros p s cs p' s' Hi Hr; simpl in Hr; [injection Hr as <- <- <-; constructor|].
  destruct (setupExecutionContext E j a p s) as [[[c p1] s1]| |] eqn:E1; [|done|done]. cbn [mbind eff_bind] in Hr.
  destruct (setup_context_ok E j p0 _ _ _ _ _ _ Hi E1) as (Hi' & H1).
  destruct (run_calls E j l p1 s1) as [[[cs1 p2] s2]| |] eqn:E2; [|done|done]. cbn [mbind eff_bind] in Hr.
  injection Hr as <- <- <-. constructor; [done|]. by eapply IH.
Qed.

Lemma cache_inv_empty {M} `{Registrar M} (E : Env M) (j : jplan) (p0 : Plan) (w0 : World M) : cache_inv E j p0 p0 (mkExecutor ∅ w0).
Proof. split; [by left|]. intros k c Hk. simpl in Hk. by rewrite lookup_empty in Hk. Qed.

(** What a context that is in order launches. *)
Lemma launch_ok {M} `{Registrar M} (j : jplan) (p0 : Plan) (c : ExecutionContext M) (k : DeviceExecutionPlanKey) pt flag :
  context_ok j p0 c -> currentDevicePlan c = k -> exists p' ds,
    load_for j k p0 = Ret p' /\ build_plans (resources_of c) p' = Ret ds /\ la_plan (launchKernelHelper pt c flag) = ds /\
    la_nthreadblocks (launchKernelHelper pt c flag) = Z.of_nat (length ds).
Proof.
  intros Hok Hcur. destruct (co_current _ _ _ Hok) as [ds Hds]. destruct (co_fresh _ _ _ Hok _ _ Hds) as (p' & Hl & Hb).
  rewrite Hcur in Hl, Hds. exists p', ds. unfold launchKernelHelper. simpl. rewrite (co_uploaded _ _ _ Hok), Hcur, Hds. done.
Qed.

(** ** Properties: the cache *)

(** C15: for one plan object the cache of contexts and device plans is transparent: in every
    sequence of successful executions of it on a new executor, whatever sizes, offsets and buffers come in
    which order, each kernel is launched with the device plan that a fresh load of the
    plan for its own sizes and offsets gives, over the channels and buffers of a context that was
    made for a call with the same key: the same buffers with the same ranges, except that for a plan that
    reuses resources the key leaves the buffers out, and the context may be one made for others. *)
Theorem cache_transparent {M} `{Registrar M} (E : Env M) (j : jplan) (p0 : Plan) (w0 : World M)
    (l : list call) cs p s (pt : PacketType) (flag : Z) :
  run_calls E j l p0 (mkExecutor ∅ w0) = Ret (cs, p, s) ->
  Forall2 (fun a c => exists p' ds,
    load_for j (device_key a) p0 = Ret p' /\ build_plans (resources_of c) p' = Ret ds /\
    la_plan (launchKernelHelper pt c flag) = ds /\
    la_nthreadblocks (launchKernelHelper pt c flag) = Z.of_nat (length ds) /\
    made_for E j p0 (context_key a p0) c) l cs.
Proof.
  intros Hr. eapply Forall2_impl; [eapply calls_ok; [apply cache_inv_empty|exact Hr]|].
  intros a c (Hok & Hcur & Hm). destruct (launch_ok j p0 c _ pt flag Hok Hcur) as (p' & ds & H1 & H2 & H3 & H4). by exists p', ds.
Qed.

(** the cache belongs to the executor and the plan's tables to the plan object: an
    execution that finds a context but no device plan for its sizes reloads only the
    operations, and with a plan object that has not been loaded before it never
    succeeds. *)
Theorem fresh_plan_object_fails {M} `{Registrar M} (E : Env M) (j : jplan) (a : call) (rank : Z)
    (s : ExecutorImpl) (c : ExecutionContext M) (gpu : jgpu) :
  let p := Plan_create j rank in
  contexts s !! context_key a p = Some c ->
  currentDevicePlan c <> device_key a -> deviceExecutionPlans c !! device_key a = None ->
  at_ (j_gpus j) rank = Ret gpu -> jg_threadblocks gpu <> [] ->
  forall r, setupExecutionContext E j a p s <> Ret r.
Proof.
  intros p Hc Hcur Hk Hg Ht r. unfold setupExecutionContext. rewrite Hc. unfold use_context.
  rewrite decide_False by done. rewrite decide_False by (rewrite Hk; apply is_Some_None).
  unfold lightLoadExecutionPlan. cbn [cfg tabs operations operationsReset p Plan_create pl_rank].
  destruct (raise_if _ _); [|done|done]. cbn [mbind eff_bind]. rewrite Hg. cbn [mbind eff_bind].
  destruct (raise_if _ _); [|done|done]. cbn [mbind eff_bind].
  destruct (checkMessageSize _); [|done|done]. cbn [mbind eff_bind].
  destruct (setupOperations _ _ _ _ _ _) as [ops| |] eqn:Eo; [|done|done]. cbn [mbind eff_bind].
  assert (Hops : exists o ops', ops = o :: ops').
  { unfold setupOperations in Eo. destruct (map_eff _ (jg_threadblocks gpu)) as [new| |] eqn:En; [|done|done].
    cbn [mbind eff_bind] in Eo. injection Eo as <-. apply map_eff_length in En.
    destruct new as [|o new]; [|by exists o, new]. by destruct (jg_threadblocks gpu). }
  destruct Hops as (o & ops' & ->). unfold setupDeviceExecutionPlan, build_plans. cbn. done.
Qed.

(** ** Witnesses *)

Definition is_ret {A} (m : eff A) : bool := match m with Ret _ => true | _ => false end.
Lemma is_ret_true {A} (m : eff A) : is_ret m = true -> exists a, m = Ret a.
Proof. destruct m; [eauto|done|done]. Qed.

(** The registrar that [RegisteredMemory] implements. *)
Definition impl_registrar (createHandle : Z -> result GpuIpcMemHandle)
    (registerMr : Transport -> Z -> Z -> result IbMrInfo) (self : process) : Registrar Impl :=
  Build_Registrar Impl (fun ptr size flags => Impl_register createHandle registerMr self ptr size flags)
    data (mkImpl 0 0 0 0 0 0 []).

#[local] Instance demo_registrar : Registrar Impl :=
  impl_registrar (fun _ => Ok demo_handle) (fun _ _ _ => Ok (mkIbMrInfo 0 0)) (mkProcess 1 1).

Definition demo_nop : jop := mkJOp "nop" None None None None None None None None None [].
Definition demo_gpu (id peer : Z) (chs : list jchannel) (types : list string) (tb : jtb) : jgpu :=
  mkJGpu id 1 1 0 chs [mkJRemote peer "i" types] [tb] (Some [1]).

(** Two ranks: 0 has a memory and a port channel to 1, 1 only a port channel to 0. *)
Definition demo_plan : jplan :=
  mkJPlan "p" "allreduce" true None None None None None "Simple" None
    [demo_gpu 0 1 [mkJChannel "memory" "i" [] [1]; mkJChannel "port" "i" [] [1]] ["memory"; "port"]%string
       (mkJTb 0 [mkJTbChannel "memory" None [0]; mkJTbChannel "port" None [0]]
          (Some [("memory"%string, [0]); ("port"%string, [0])]) [demo_nop]);
     demo_gpu 1 0 [mkJChannel "port" "i" [] [0]] ["port"]%string
       (mkJTb 0 [mkJTbChannel "port" None [0]] (Some [("port"%string, [0])]) [demo_nop])].

Definition demo_env (recv : Z -> nat -> Impl) : Env Impl :=
  mkEnv Impl 1 2 1 (fun n => 4096 * (Z.of_nat n + 1)) recv.
Definition demo_exec_world : World Impl := mkWorld [] [] [] 0 0.
Definition demo_call (send size : Z) : call := mkCall 0 send 8192 size size 0 0 256 256.

Lemma cache_transparent_witness :
  let E := demo_env (fun _ _ => demo_impl) in
  let l := [demo_call 1024 64; demo_call 1024 128; demo_call 2048 64; demo_call 1024 64] in
  exists cs p s, run_calls E demo_plan l (Plan_create demo_plan 0) (mkExecutor ∅ demo_exec_world) = Ret (cs, p, s) /\
  Forall2 (fun a c => exists p' ds,
    load_for demo_plan (device_key a) (Plan_create demo_plan 0) = Ret p' /\
    build_plans (resources_of c) p' = Ret ds /\ la_plan (launchKernelHelper LL16 c 1) = ds /\
    la_nthreadblocks (launchKernelHelper LL16 c 1) = Z.of_nat (length ds) /\
    made_for E demo_plan (Plan_create demo_plan 0) (context_key a (Plan_create demo_plan 0)) c) l cs.
Proof.
  intros E l.
  assert (Hr : is_ret (run_calls E demo_plan l (Plan_create demo_plan 0) (mkExecutor ∅ demo_exec_world)) = true)
    by (vm_compute; reflexivity).
  destruct (is_ret_true _ Hr) as [[[cs p] s] Er].
  exists cs, p, s. split; [done|]. by apply (cache_transparent E demo_plan _ demo_exec_world l cs p s LL16 1).
Defined.

(** The state after one execution. *)
Definition demo_executed : eff (ExecutionContext Impl * Plan * ExecutorImpl) :=
  setupExecutionContext (demo_env (fun _ _ => demo_impl)) demo_plan (demo_call 1024 64) (Plan_create demo_plan 0)
    (mkExecutor ∅ demo_exec_world).

Definition demo_cache : ExecutorImpl :=
  match demo_executed with Ret (_, _, s) => s | _ => mkExecutor ∅ demo_exec_world end.

Lemma fresh_plan_object_fails_witness :
  setupExecutionContext (demo_env (fun _ _ => demo_impl)) demo_plan (demo_call 1024 128) (Plan_create demo_plan 0)
    demo_cache = Raise EStd /\
  forall r, setupExecutionContext (demo_env (fun _ _ => demo_impl)) demo_plan (demo_call 1024 128)
              (Plan_create demo_plan 0) demo_cache <> Ret r.
Proof.
  split; [vm_compute; reflexivity|].
  assert (Hs : bool_decide (is_Some (contexts demo_cache !! context_key (demo_call 1024 128) (Plan_create demo_plan 0))) = true)
    by (vm_compute; reflexivity).
  destruct (bool_decide_eq_true_1 _ Hs) as [c Ec].
  assert (Hc : (fun c => (currentDevicePlan c, deviceExecutionPlans c !! (128, 128, 0, 0))) <$> Some c =
                 Some ((64, 64, 0, 0), None)) by (rewrite <- Ec; vm_compute; reflexivity).
  injection Hc as H1 H2.
  refine (fresh_plan_object_fails (demo_env (fun _ _ => demo_impl)) demo_plan (demo_call 1024 128) 0 demo_cache c
              (demo_gpu 0 1 [mkJChannel "memory" "i" [] [1]; mkJChannel "port" "i" [] [1]] ["memory"; "port"]%string
                (mkJTb 0 [mkJTbChannel "memory" None [0]; mkJTbChannel "port" None [0]]
                  (Some [("memory"%string, [0]); ("port"%string, [0])]) [demo_nop])) Ec _ H2 eq_refl _); [|done].
  rewrite H1. by intros [=].
Defined.

(** the cache knows a plan by its name only: an execution of another plan of the same name, with buffers
    and sizes that have been used last, runs the device plan of the first. *)
Theorem same_name_shares_plan {M} `{Registrar M} (E : Env M) (j : jplan) (a : call) (p : Plan) (s : ExecutorImpl) (c : ExecutionContext M) :
  contexts s !! context_key a p = Some c -> currentDevicePlan c = device_key a -> setupExecutionContext E j a p s = Ret (c, p, s).
Proof. intros Hc Hd. unfold setupExecutionContext, use_context. by rewrite Hc, decide_True. Qed.

(** Another plan with the name of [demo_plan], without a memory channel. *)
Definition demo_namesake : jplan :=
  mkJPlan "p" "allreduce" true None None None None None "Simple" None
    [demo_gpu 0 1 [mkJChannel "port" "i" [] [1]] ["port"]%string
       (mkJTb 0 [mkJTbChannel "port" None [0]] (Some [("port"%string, [0])]) [demo_nop]);
     demo_gpu 1 0 [mkJChannel "port" "i" [] [0]] ["port"]%string
       (mkJTb 0 [mkJTbChannel "port" None [0]] (Some [("port"%string, [0])]) [demo_nop])].

Definition memory_channels (r : eff (ExecutionContext Impl * Plan * ExecutorImpl (M := Impl))) : option nat :=
  match r with Ret (c, _, _) => Some (length (memoryChannels c)) | _ => None end.

Lemma same_name_shares_plan_witness :
  let run := setupExecutionContext (demo_env (fun _ _ => demo_impl)) demo_namesake (demo_call 1024 64) (Plan_create demo_namesake 0) in
  memory_channels (run (mkExecutor ∅ demo_exec_world)) = Some 0%nat /\ memory_channels (run demo_cache) = Some 1%nat.
Proof.
  intros run. split; [vm_compute; reflexivity|].
  assert (Hs : bool_decide (is_Some (contexts demo_cache !! context_key (demo_call 1024 64) (Plan_create demo_namesake 0))) = true)
    by (vm_compute; reflexivity).
  destruct (bool_decide_eq_true_1 _ Hs) as [c Ec].
  assert (Hc : (fun c => (currentDevicePlan c, length (memoryChannels c))) <$> Some c = Some ((64, 64, 0, 0), 1%nat)) by (rewrite <- Ec; vm_compute; reflexivity).
  injection Hc as H1 H2. unfold run. rewrite (same_name_shares_plan _ demo_namesake _ _ _ c Ec H1). simpl. by rewrite H2.
Defined.
