(* ===== verification/ExecutorExchange.v ===== *)
(** * The executors of different ranks fit together

    Theorems over [Executor] and [ExecutionPlan]: every rank sets itself up from its
    own reading of the same plan file, without negotiation.  The memories one rank
    sends are the ones the other expects, in the same order, and what a device plan
    refers to as remote buffer is the buffer the plan names; ranks connect to each
    other mutually and the semaphores they build pair up. *)

From S2P Require Import Prelude Errors Core RegisteredMemory ExecutionPlan Executor.
Local Open Scope Z_scope.

(** ** Remote buffers: the tables of the plan *)

(** The buffers reachable through channels of one type: their positions, once per
    declared access. *)
Definition entries (ct : ChannelType) (ls : list (list ChannelType)) : list nat :=
  concat (imap (fun i l => replicate (length (filter (fun t => t = ct) l)) i) ls).

Lemma entries_snoc ct ls l :
  entries ct (ls ++ [l]) = entries ct ls ++ replicate (length (filter (fun t => t = ct) l)) (length ls).
Proof. unfold entries. rewrite imap_app, concat_app. simpl. by rewrite app_nil_r, Nat.add_0_r. Qed.

Lemma entries_access ct ls l t :
  entries ct (ls ++ [l ++ [t]]) =
  entries ct (ls ++ [l]) ++ (if decide (t = ct) then [length ls] else []).
Proof.
  rewrite !entries_snoc, filter_app, length_app, replicate_add, <- app_assoc. do 2 f_equal.
  rewrite filter_cons. by case_decide.
Qed.

(** The index map of GPU [g] points into [entries]. *)
Record index_ok (g : Z) (ls : list (list ChannelType)) (index : gmap (Z * conn_key) Z) : Prop := {
  io_sound : forall i ct k, index !! (g, (i, ct)) = Some k ->
    0 <= k /\ exists n, i = Z.of_nat n /\ entries ct ls !! Z.to_nat k = Some n;
  io_complete : forall n l ct, ls !! n = Some l -> ct ∈ l -> is_Some (index !! (g, (Z.of_nat n, ct)))
}.

Definition counts_ok (ls : list (list ChannelType)) (count : gmap ChannelType Z) : Prop :=
  forall ct, default 0 (count !! ct) = Z.of_nat (length (entries ct ls)).

Lemma index_ok_new g ls index : index_ok g ls index -> index_ok g (ls ++ [[]]) index.
Proof.
  intros [Hs Hc]. split.
  - intros i ct k Hk. destruct (Hs _ _ _ Hk) as (H0 & n & -> & Hn). split; [done|]. exists n. split; [done|].
    rewrite entries_snoc. simpl. by rewrite app_nil_r.
  - intros n l ct Hn Hl. apply lookup_app_Some in Hn as [Hn|[_ Hn]]; [by eapply Hc|].
    apply list_lookup_singleton_Some in Hn as [_ <-]. by apply not_elem_of_nil in Hl.
Qed.

Lemma counts_ok_new ls count : counts_ok ls count -> counts_ok (ls ++ [[]]) count.
Proof. intros Hc ct. rewrite Hc, entries_snoc. simpl. by rewrite app_nil_r. Qed.

Lemma counts_ok_access ls l t count :
  counts_ok (ls ++ [l]) count -> counts_ok (ls ++ [l ++ [t]]) (<[t := default 0 (count !! t) + 1]> count).
Proof.
  intros Hc ct. rewrite entries_access, length_app. destruct (decide (t = ct)) as [->|Hne].
  - rewrite lookup_insert_eq. simpl. rewrite Hc. lia.
  - rewrite lookup_insert_ne by done. rewrite Hc. simpl. lia.
Qed.

Lemma index_ok_access g ls l t count index :
  counts_ok (ls ++ [l]) count -> index_ok g (ls ++ [l]) index ->
  index_ok g (ls ++ [l ++ [t]]) (<[(g, (Z.of_nat (length ls), t)) := default 0 (count !! t)]> index).
Proof.
  intros Hcnt [Hs Hc]. split.
  - intros i ct k Hk. rewrite entries_access. apply lookup_insert_Some in Hk as [[Heq <-]|[Hne Hk]].
    + injection Heq as <- <-. rewrite Hcnt. split; [lia|]. exists (length ls). split; [done|].
      rewrite Hcnt, Nat2Z.id, lookup_app_r by lia. rewrite Nat.sub_diag. by rewrite decide_True.
    + destruct (Hs _ _ _ Hk) as (H0 & n & -> & Hn). split; [done|]. exists n. split; [done|].
      by apply lookup_app_l_Some.
  - intros n l' ct Hn Hl. destruct (decide ((Z.of_nat (length ls), t) = (Z.of_nat n, ct))) as [<-|Hne].
    { rewrite lookup_insert_eq. eauto. }
    rewrite lookup_insert_ne by congruence.
    apply lookup_app_Some in Hn as [Hn|[Hle Hn]].
    + eapply (Hc n l'); [by apply lookup_app_l_Some|done].
    + apply list_lookup_singleton_Some in Hn as [Hn <-]. assert (n = length ls) as -> by lia.
      apply elem_of_app in Hl as [Hl|Hl]; [|apply list_elem_of_singleton in Hl; congruence].
      eapply Hc; [|exact Hl]. rewrite lookup_app_r, Nat.sub_diag by lia. done.
Qed.

(** Keys of other GPUs are left alone. *)
Definition others_same (g : Z) (m m' : gmap (Z * conn_key) Z) : Prop :=
  forall g' k, g' <> g -> m' !! (g', k) = m !! (g', k).

Lemma access_channels_ok g ls names s acc s' acc' :
  fold_eff (access_channel g (Z.of_nat (length ls))) (s, acc) names = Ret (s', acc') ->
  counts_ok (ls ++ [acc]) (rb_count s) -> index_ok g (ls ++ [acc]) (rb_index s) ->
  counts_ok (ls ++ [acc']) (rb_count s') /\ index_ok g (ls ++ [acc']) (rb_index s') /\
  others_same g (rb_index s) (rb_index s') /\ rb_infos s' = rb_infos s /\ rb_send s' = rb_send s.
Proof.
  revert s acc. induction names as [|name names IH]; intros s acc Hf Hc Hi; simpl in Hf.
  - by injection Hf as <- <-.
  - destruct (convertToChannelType name) as [ct| |]; [|done|done]. cbn [mbind eff_bind] in Hf.
    destruct (IH _ _ Hf (counts_ok_access _ _ ct _ Hc) (index_ok_access g _ _ ct _ _ Hc Hi))
      as (H1 & H2 & H3 & H4 & H5). split_and!; try done.
    intros g' k Hne. rewrite H3 by done. simpl. rewrite lookup_insert_ne by congruence. done.
Qed.

(** The buffers [r] sends to [p] are, in order, those [p] expects from [r]. *)
Definition exchanged (send : gmap Z (list BufferInfo)) (infos : Z -> list BufferInfo) : Prop :=
  forall r p, filter (fun i => bi_accessRank i = p) (default [] (send !! r)) =
              filter (fun i => bi_rank i = r) (infos p).

Definition with_infos (g : Z) (l : list BufferInfo) (infos : Z -> list BufferInfo) (p : Z) : list BufferInfo :=
  if decide (p = g) then l else infos p.

Definition access_lists (l : list BufferInfo) : list (list ChannelType) := map bi_accessChannelTypes l.

Record gpu_ok (g : Z) (infos : Z -> list BufferInfo) (s : rb_state) : Prop := {
  go_counts : counts_ok (access_lists (rb_infos s)) (rb_count s);
  go_index : index_ok g (access_lists (rb_infos s)) (rb_index s);
  go_exchanged : exchanged (rb_send s) (with_infos g (rb_infos s) infos)
}.

Lemma exchanged_push g infos l send info :
  bi_accessRank info = g -> exchanged send (with_infos g l infos) ->
  exchanged (push_map (bi_rank info) info send) (with_infos g (l ++ [info]) infos).
Proof.
  intros Hg Hx r p. specialize (Hx r p). unfold push_map, with_infos in *.
  destruct (decide (bi_rank info = r)) as [Hr|Hr].
  - rewrite Hr, lookup_insert_eq. simpl. rewrite filter_app, Hx. case_decide; subst.
    + rewrite filter_app. f_equal. rewrite !filter_cons. by rewrite !decide_True.
    + rewrite filter_cons, decide_False by congruence. by rewrite app_nil_r.
  - rewrite lookup_insert_ne by done. rewrite Hx. case_decide; [|done].
    rewrite filter_app, (filter_cons _ info), decide_False by done. by rewrite app_nil_r.
Qed.

Lemma parse_remote_ok g infos s r s' :
  parse_remote g s r = Ret s' -> gpu_ok g infos s ->
  gpu_ok g infos s' /\ others_same g (rb_index s) (rb_index s').
Proof.
  unfold parse_remote. intros Hp [Hc Hi Hx].
  destruct (convertToBufferType _) as [bt| |]; [|done|done]. cbn [mbind eff_bind] in Hp.
  destruct (fold_eff _ _ _) as [[s1 acc]| |] eqn:Ef; [|done|done]. cbn [mbind eff_bind] in Hp. injection Hp as <-.
  assert (Hlen : length (rb_infos s) = length (access_lists (rb_infos s))) by (unfold access_lists; by rewrite length_map).
  rewrite Hlen in Ef.
  destruct (access_channels_ok _ _ _ _ _ _ _ Ef (counts_ok_new _ _ Hc) (index_ok_new _ _ _ Hi))
    as (H1 & H2 & H3 & H4 & H5).
  split; [|done]. split; simpl.
  - unfold access_lists. rewrite map_app. simpl. by rewrite H4.
  - unfold access_lists. rewrite map_app. simpl. by rewrite H4.
  - rewrite H4, H5. exact (exchanged_push g infos _ _ (mkBufferInfo (jr_rank r) g bt acc) eq_refl Hx).
Qed.

Lemma parse_remotes_ok g infos rs s s' :
  fold_eff (parse_remote g) s rs = Ret s' -> gpu_ok g infos s ->
  gpu_ok g infos s' /\ others_same g (rb_index s) (rb_index s').
Proof.
  revert s. induction rs as [|r rs IH]; intros s Hf Hs; simpl in Hf; [by injection Hf as <-|].
  destruct (parse_remote g s r) as [s1| |] eqn:E1; [|done|done]. cbn [mbind eff_bind] in Hf.
  destruct (parse_remote_ok _ _ _ _ _ E1 Hs) as [H1 H2]. destruct (IH _ Hf H1) as [H3 H4].
  split; [done|]. intros g' k Hne. by rewrite H4, H2.
Qed.

(** What the tables say once the GPUs [gs] have been read. *)
Record tables_ok (m : remote_maps) : Prop := {
  to_exchanged : exchanged m.1.2 (fun p => default [] (m.1.1 !! p));
  to_index : forall g l, m.1.1 !! g = Some l -> index_ok g (access_lists l) m.2;
  to_fresh : forall g k, m.1.1 !! g = None -> m.2 !! (g, k) = None
}.

Lemma parse_gpu_ok m g m' :
  parse_gpu_remotes m g = Ret m' -> m.1.1 !! jg_id g = None -> tables_ok m -> tables_ok m'.
Proof.
  destruct m as [[infos send] index]. unfold parse_gpu_remotes. simpl. intros Hp Hg [Hx Hi Hf]. simpl in *.
  rewrite Hg in Hp. simpl in Hp.
  destruct (fold_eff _ _ _) as [s| |] eqn:Ef; [|done|done]. cbn [mbind eff_bind] in Hp. injection Hp as <-.
  destruct (parse_remotes_ok _ (fun p => default [] (infos !! p)) _ _ _ Ef) as [[H1 H2 H3] H4].
  { split; simpl; [done| |].
    - split; [|intros n l ct Hn; by rewrite lookup_nil in Hn]. intros i ct k Hk. by rewrite Hf in Hk.
    - intros r p. rewrite Hx. unfold with_infos. case_decide; [subst; by rewrite Hg|done]. }
  split; simpl.
  - intros r p. rewrite H3. unfold with_infos. case_decide as Hd; [subst; by rewrite lookup_insert_eq|].
    by rewrite lookup_insert_ne by done.
  - intros g' l Hl. apply lookup_insert_Some in Hl as [[<- <-]|[Hne Hl]]; [done|].
    destruct (Hi _ _ Hl) as [Hs Hc]. split; intros; [rewrite H4 in * by congruence; eauto|].
    rewrite H4 by congruence. eauto.
  - intros g' k Hl. apply lookup_insert_None in Hl as [Hl Hne]. simpl in H4. rewrite H4 by congruence. by apply Hf.
Qed.

Lemma parse_gpu_keys m g m' g' :
  parse_gpu_remotes m g = Ret m' -> m.1.1 !! g' = None -> g' <> jg_id g -> m'.1.1 !! g' = None.
Proof.
  destruct m as [[infos send] index]. unfold parse_gpu_remotes. simpl. intros Hp Hg Hne.
  destruct (fold_eff _ _ _); [|done|done]. cbn [mbind eff_bind] in Hp. injection Hp as <-. simpl.
  by rewrite lookup_insert_ne.
Qed.

Lemma parseRemoteBuffer_ok gpus m m' :
  parseRemoteBuffer gpus m = Ret m' -> NoDup (map jg_id gpus) ->
  Forall (fun g => m.1.1 !! jg_id g = None) gpus -> tables_ok m -> tables_ok m'.
Proof.
  unfold parseRemoteBuffer. revert m. induction gpus as [|g gpus IH]; intros m Hf Hd Hn Hm; simpl in Hf.
  { by injection Hf as <-. }
  destruct (parse_gpu_remotes m g) as [m1| |] eqn:E1; [|done|done]. cbn [mbind eff_bind] in Hf.
  apply NoDup_cons in Hd as [Hni Hd]. apply Forall_cons in Hn as [Hg Hn].
  apply (IH m1); [done|done| |by eapply parse_gpu_ok]. rewrite Forall_forall in Hn |- *. intros g' Hg'.
  eapply parse_gpu_keys; [exact E1|by apply Hn|]. intros Heq. apply Hni. rewrite <- Heq.
  by apply list_elem_of_In, in_map, list_elem_of_In.
Qed.

(** The tables of a loaded plan. *)
Lemma load_parts j k r p' :
  load_for j k (Plan_create j r) = Ret p' ->
  exists t t' gpu, ExecutionPlan.setupChannels r (j_gpus j) no_tables = Ret t /\
    setupRemoteBuffers r (j_gpus j) t = Ret t' /\ tabs p' = ExecutionPlan.setupSemaphores gpu t'.
Proof.
  destruct k as [[[i o] s] d]. unfold load_for, loadExecutionPlan. simpl. intros H.
  destruct (raise_if _ _); [|done|done]. cbn [mbind eff_bind] in H.
  destruct (at_ (j_gpus j) r) as [gpu| |]; [|done|done]. cbn [mbind eff_bind] in H.
  destruct (raise_if _ _); [|done|done]. cbn [mbind eff_bind] in H.
  destruct (checkMessageSize _); [|done|done]. cbn [mbind eff_bind] in H.
  destruct (ExecutionPlan.setupChannels _ _ _) as [t| |]; [|done|done]. cbn [mbind eff_bind] in H.
  destruct (setupRemoteBuffers _ _ _) as [t'| |] eqn:Et; [|done|done]. cbn [mbind eff_bind] in H.
  eff_steps H. injection H as <-. by exists t, t', gpu.
Qed.

(** The tables of remote buffers depend on the file only. *)
Lemma load_parse j k r p' :
  load_for j k (Plan_create j r) = Ret p' ->
  parseRemoteBuffer (j_gpus j) (∅, ∅, ∅) =
  Ret (remoteBufferInfos (tabs p'), localBufferToSend (tabs p'), bufferIndexMap (tabs p')).
Proof.
  intros H. destruct (load_parts _ _ _ _ H) as (t & t' & gpu & Et & Et' & ->). simpl.
  unfold setupRemoteBuffers in Et'.
  assert (Hempty : (remoteBufferInfos t, localBufferToSend t, bufferIndexMap t) = (∅, ∅, ∅)).
  { unfold ExecutionPlan.setupChannels in Et. eff_steps Et. by injection Et as <-. }
  rewrite Hempty in Et'.
  destruct (parseRemoteBuffer _ _) as [[[infos send] index]| |]; [|done|done]. cbn [mbind eff_bind] in Et'.
  eff_steps Et'. by injection Et' as <-.
Qed.

Lemma load_tables j k r p' :
  load_for j k (Plan_create j r) = Ret p' -> NoDup (map jg_id (j_gpus j)) ->
  tables_ok (remoteBufferInfos (tabs p'), localBufferToSend (tabs p'), bufferIndexMap (tabs p')).
Proof.
  intros Hl Hd. eapply (parseRemoteBuffer_ok _ _ _ (load_parse _ _ _ _ Hl) Hd).
  - apply Forall_forall. intros. apply lookup_empty.
  - split; simpl.
    + intros a q. by rewrite !lookup_empty.
    + intros g l Hg. by rewrite lookup_empty in Hg.
    + intros. apply lookup_empty.
Qed.

(** ** Remote buffers: the exchange *)

Lemma filter_position {A} (P : A -> Prop) `{forall x, Decision (P x)} (l : list A) i x :
  l !! i = Some x -> P x -> filter P l !! length (filter P (take i l)) = Some x.
Proof.
  intros Hi Hx. assert (E : filter P l = filter P (take i l) ++ x :: filter P (drop (S i) l)).
  { transitivity (filter P (take i l ++ x :: drop (S i) l)); [by rewrite take_drop_middle|].
    by rewrite filter_app, filter_cons, decide_True. }
  by rewrite E, list_lookup_middle.
Qed.

Section exchange.
Context {M : Type} `{Registrar M}.

(** The memories sent to [p], in order. *)
Definition sent_to (p : Z) (l : list (comm_call M)) : list M :=
  omap (fun c => match c with CSendMemory m d => if d =? p then Some m else None | _ => None end) l.

Lemma sent_to_app p a b : sent_to p (a ++ b) = sent_to p a ++ sent_to p b.
Proof. apply omap_app. Qed.

Lemma count_calls_log f c (w : World M) :
  count_calls f (log c w) = (count_calls f w + if f c then 1 else 0)%nat.
Proof. unfold count_calls, log. simpl. rewrite filter_app, length_app, filter_cons. destruct (f c); simpl; lia. Qed.

(** The memory sent for a buffer: the registration of the buffer its type names. *)
Definition registered (E : Env M) (rank : Z) (b : buffers) (info : BufferInfo) (m : M) : Prop :=
  exists ptr size flags,
    buffer_info b (bi_bufferType info) = Ret (ptr, size) /\ getTransportFlags E info rank = Ret flags /\
    registerMemory ptr size flags = Ok m.

Lemma send_buffers_sent (E : Env M) rank b infos l w l' w' p :
  fold_eff (send_buffer E rank b) (l, w) infos = Ret (l', w') ->
  (exists ms, sent_to p (calls w') = sent_to p (calls w) ++ ms /\
     Forall2 (registered E rank b) (filter (fun i => bi_accessRank i = p) infos) ms) /\
  svc_memories w' = svc_memories w /\ count_calls (is_recv p) w' = count_calls (is_recv p) w.
Proof.
  revert l w. induction infos as [|info infos IH]; intros l w Hf; simpl in Hf.
  { injection Hf as <- <-. split; [|done]. exists []. by rewrite app_nil_r. }
  destruct (buffer_info b _) as [[ptr size]| |] eqn:E1; [|done|done]. cbn [mbind eff_bind] in Hf.
  destruct (getTransportFlags E info rank) as [flags| |] eqn:E2; [|done|done]. cbn [mbind eff_bind] in Hf.
  destruct (registerMemory ptr size flags) as [m|] eqn:E3; [|done]. cbn [lift mbind eff_bind] in Hf.
  destruct (IH _ _ Hf) as ((ms & Hs & Hf2) & Hm & Hc). rewrite count_calls_log in Hc. simpl in Hc, Hm, Hs.
  split; [|split; [done|lia]]. rewrite sent_to_app in Hs. simpl in Hs. rewrite filter_cons.
  destruct (Z.eqb_spec (bi_accessRank info) p) as [Hp|Hp].
  - rewrite decide_True by done. exists (m :: ms). rewrite Hs, <- app_assoc. split; [done|].
    constructor; [|done]. by exists ptr, size, flags.
  - rewrite decide_False by done. exists ms. by rewrite Hs, app_nil_r.
Qed.

Lemma add_local_call (E : Env M) rank b w t w' : add_local E rank b w t = Ret w' -> calls w' = calls w.
Proof.
  unfold add_local. intros Hf.
  eff_steps Hf.
  by injection Hf as <-.
Qed.

Lemma add_local_calls (E : Env M) rank b types w w' :
  fold_eff (add_local E rank b) w types = Ret w' -> calls w' = calls w.
Proof.
  revert w. induction types as [|t types IH]; intros w Hf; simpl in Hf; [by injection Hf as <-|].
  destruct (add_local E rank b w t) as [w1| |] eqn:E1; [|done|done]. cbn [mbind eff_bind] in Hf.
  by rewrite (IH _ Hf), (add_local_call _ _ _ _ _ _ E1).
Qed.

(** What has been received after the buffers [infos], starting from world [w0]. *)
Record received_ok (E : Env M) (w0 : World M) (infos : list BufferInfo) (s : received) : Prop := {
  ro_length : length (re_memories s) = length infos;
  ro_memories : forall i info, infos !! i = Some info -> exists m, re_memories s !! i = Some m /\
    m = recv E (bi_rank info) (count_calls (is_recv (bi_rank info)) w0 +
                               length (filter (fun x => bi_rank x = bi_rank info) (take i infos)));
  ro_counts : forall r, count_calls (is_recv r) (re_world s) =
    (count_calls (is_recv r) w0 + length (filter (fun x => bi_rank x = r) infos))%nat;
  ro_sent : forall p, sent_to p (calls (re_world s)) = sent_to p (calls w0)
}.

(** The addresses and ids, per declared access [ls]; memory ids are 32-bit. *)
Record accessed_ok (ls : list (list ChannelType)) (s : received) : Prop := {
  ao_addresses : Forall2 (fun n a => exists m, re_memories s !! n = Some m /\ a = memData m)
                   (entries CMemory ls) (re_addresses s);
  ao_ids : Forall2 (fun n id => exists m (k : nat), re_memories s !! n = Some m /\ id = u32 (Z.of_nat k) /\
                      svc_memories (re_world s) !! k = Some m) (entries CPort ls) (re_ids s)
}.

Lemma access_memory_ok ls l m s t :
  accessed_ok (ls ++ [l]) s -> re_memories s !! length ls = Some m ->
  accessed_ok (ls ++ [l ++ [t]]) (access_memory m s t) /\
  re_memories (access_memory m s t) = re_memories s /\
  calls (re_world (access_memory m s t)) = calls (re_world s).
Proof.
  intros [Ha Hi] Hm. destruct t; simpl; split_and!; try done; split; rewrite entries_access; simpl;
    rewrite ?app_nil_r; try done.
  - apply Forall2_app; [done|]. constructor; [by eauto|done].
  - apply Forall2_app.
    + eapply Forall2_impl; [exact Hi|]. intros n id (m' & k & ? & ? & ?). exists m', k.
      split_and!; try done. by apply lookup_app_l_Some.
    + constructor; [|done]. exists m, (length (svc_memories (re_world s))). split_and!; try done.
      by rewrite lookup_app_r, Nat.sub_diag by lia.
Qed.

Lemma access_memories_ok ls m types : forall l s,
  accessed_ok (ls ++ [l]) s -> re_memories s !! length ls = Some m ->
  let s' := foldl (access_memory m) s types in
  accessed_ok (ls ++ [l ++ types]) s' /\ re_memories s' = re_memories s /\
  calls (re_world s') = calls (re_world s).
Proof.
  induction types as [|t types IH]; intros l s Ha Hm; simpl; [by rewrite app_nil_r|].
  destruct (access_memory_ok ls l m s t Ha Hm) as (H1 & H2 & H3).
  destruct (IH (l ++ [t]) _ H1) as (H4 & H5 & H6); [by rewrite H2|].
  rewrite <- app_assoc in H4. simpl in H4. rewrite H5, H6. done.
Qed.

Lemma receive_buffer_ok E w0 infos s info :
  received_ok E w0 infos s -> accessed_ok (access_lists infos) s ->
  received_ok E w0 (infos ++ [info]) (receive_buffer E s info) /\
  accessed_ok (access_lists (infos ++ [info])) (receive_buffer E s info).
Proof.
  intros [Hl Hm Hc Hs] [Ha Hi]. unfold receive_buffer, comm_recvMemory.
  set (m := recv E (bi_rank info) (count_calls (is_recv (bi_rank info)) (re_world s))).
  set (s1 := mkReceived _ _ _ _).
  assert (Hlen : length (access_lists infos) = length (re_memories s)) by (unfold access_lists; by rewrite length_map).
  assert (Hold : forall i x, re_memories s !! i = Some x -> (re_memories s ++ [m]) !! i = Some x).
  { intros. by apply lookup_app_l_Some. }
  destruct (access_memories_ok (access_lists infos) m (bi_accessChannelTypes info) [] s1) as (H1 & H2 & H3).
  - split; rewrite entries_snoc; simpl; rewrite app_nil_r.
    + eapply Forall2_impl; [exact Ha|]. intros n a (x & ? & ?). eauto.
    + eapply Forall2_impl; [exact Hi|]. intros n a (x & k & ? & ? & ?). exists x, k. eauto.
  - rewrite Hlen. simpl. by rewrite lookup_app_r, Nat.sub_diag by lia.
  - cbv zeta in H1, H2, H3. split; [|unfold access_lists in *; by rewrite map_app].
    split.
    + rewrite H2. simpl. rewrite !length_app. simpl. lia.
    + intros i info' Hi'. rewrite H2. simpl. apply lookup_app_Some in Hi' as [Hi'|[Hle Hi']].
      * destruct (Hm _ _ Hi') as (x & Hx & ->). eexists. split; [by apply Hold|].
        by rewrite take_app_le by (apply lookup_lt_Some in Hi'; lia).
      * apply list_lookup_singleton_Some in Hi' as [Hi' <-]. assert (i = length infos) as -> by lia.
        rewrite <- Hl. rewrite lookup_app_r, Nat.sub_diag by lia. eexists. split; [done|].
        unfold m. rewrite Hc, Hl, take_app_length. done.
    + intros r. unfold count_calls at 1. rewrite H3. fold (count_calls (is_recv r) (re_world s1)). simpl.
      rewrite count_calls_log, Hc, filter_app, length_app, filter_cons. simpl.
      destruct (Z.eqb_spec (bi_rank info) r); [rewrite decide_True by done|rewrite decide_False by done]; simpl; lia.
    + intros p. rewrite H3. simpl. by rewrite sent_to_app, app_nil_r, Hs.
Qed.

Lemma receive_buffers_ok E w infos :
  let s := foldl (receive_buffer E) (mkReceived [] [] [] w) infos in
  received_ok E w infos s /\ accessed_ok (access_lists infos) s.
Proof.
  induction infos as [|info infos IH] using rev_ind; simpl.
  - split; split; simpl; try done; try (by constructor); intros; lia.
  - rewrite foldl_app. destruct IH. by apply receive_buffer_ok.
Qed.

(** An entry of the index map leads to the address and the id of its buffer. *)
Lemma accessed_at g ls index s n l ct m :
  accessed_ok ls s -> index_ok g ls index -> Z.of_nat (length (svc_memories (re_world s))) < 2 ^ 32 ->
  ls !! n = Some l -> ct ∈ l -> re_memories s !! n = Some m ->
  let k := default 0 (index !! (g, (Z.of_nat n, ct))) in
  (ct = CMemory -> at_ (re_addresses s) k = Ret (memData m)) /\
  (ct = CPort -> exists id, at_ (re_ids s) k = Ret id /\ svc_memories (re_world s) !! Z.to_nat id = Some m).
Proof.
  intros [Ha Hi] [Hs Hc] Hb Hn Hl Hm. destruct (Hc _ _ _ Hn Hl) as [k Hk]. rewrite Hk. simpl.
  destruct (Hs _ _ _ Hk) as (H0 & n' & Heq & He). assert (n' = n) as -> by lia.
  unfold at_. rewrite (proj2 (Z.ltb_ge k 0) H0). split; intros ->.
  - destruct (Forall2_lookup_l _ _ _ _ _ Ha He) as (a & -> & m' & Hm' & ->). by simplify_eq.
  - destruct (Forall2_lookup_l _ _ _ _ _ Hi He) as (a & -> & m' & p & Hm' & -> & Hp).
    eexists. split; [done|]. pose proof (lookup_lt_Some _ _ _ Hp).
    rewrite u32_small, Nat2Z.id by lia. by simplify_eq.
Qed.
End exchange.

(** The parts of [setupRegisteredMemories]. *)
Lemma setup_memories_parts {M} `{Registrar M} (E : Env M) b rank plan w begin sent re :
  setupRegisteredMemories E b rank plan w = Ret (begin, sent, re) ->
  let infos := getRemoteBufferInfos (tabs plan) (pl_rank (cfg plan)) in
  exists w1 w2, calls w1 = calls w /\
    fold_eff (send_buffer E rank b) ([], w1) (getLocalBufferToSend (tabs plan) (pl_rank (cfg plan))) = Ret (sent, w2) /\
    re = foldl (receive_buffer E) (mkReceived [] [] [] w2) infos.
Proof.
  unfold setupRegisteredMemories. intros Hs. cbv zeta in Hs |- *.
  destruct (fold_eff _ w _) as [w1| |] eqn:E1; [|done|done]. cbn [mbind eff_bind] in Hs.
  destruct (fold_eff _ ([], w1) _) as [[sent' w2]| |] eqn:E2; [|done|done]. cbn [mbind eff_bind] in Hs.
  injection Hs as _ <- <-. exists w1, w2. split; [by eapply add_local_calls|done].
Qed.

Lemma calls_count {M} f (w w' : World M) : calls w = calls w' -> count_calls f w = count_calls f w'.
Proof. unfold count_calls. by intros ->. Qed.

(** ** Properties: remote buffers *)

(** remote buffers are the buffers the plan names: if ranks [r] and [p] have loaded
    the same plan file and set up their memories, with as many memories exchanged
    between them before on both sides, then for the [i]-th remote buffer that the plan
    declares at [p] on [r], the address and the memory id that a device plan of [p]
    finds for it are those of [r]'s registration of the buffer of the declared type. *)
Theorem remote_buffers_exchanged {M} `{Registrar M} (Er Ep : Env M) (j : jplan) (kr kp : DeviceExecutionPlanKey)
    (r p : Z) (pr pp : Plan) (br bp : buffers) (wr wp : World M) beginr sentr rer beginp sentp rep
    (import : M -> M) (i : nat) (info : BufferInfo) (ct : ChannelType) :
  NoDup (map jg_id (j_gpus j)) ->
  load_for j kr (Plan_create j r) = Ret pr -> load_for j kp (Plan_create j p) = Ret pp ->
  setupRegisteredMemories Er br r pr wr = Ret (beginr, sentr, rer) ->
  setupRegisteredMemories Ep bp p pp wp = Ret (beginp, sentp, rep) ->
  count_calls (is_recv r) wp = length (sent_to p (calls wr)) ->
  (forall k m, sent_to p (calls (re_world rer)) !! k = Some m -> recv Ep r k = import m) ->
  Z.of_nat (length (svc_memories (re_world rep))) < 2 ^ 32 ->
  getRemoteBufferInfos (tabs pp) p !! i = Some info -> bi_rank info = r ->
  ct ∈ bi_accessChannelTypes info ->
  exists m, registered Er r br info m /\
    let k := default 0 (bufferIndexMap (tabs pp) !! (p, (Z.of_nat i, ct))) in
    (ct = CMemory -> at_ (re_addresses rep) k = Ret (memData (import m))) /\
    (ct = CPort -> exists id, at_ (re_ids rep) k = Ret id /\
                    svc_memories (re_world rep) !! Z.to_nat id = Some (import m)).
Proof.
  intros Hd Hlr Hlp Hr Hp Hbal Hrecv Hb Hi Hrank Hct.
  destruct (setup_memories_parts _ _ _ _ _ _ _ _ Hr) as (wr1 & wr2 & Hcr & Hsr & ->).
  destruct (setup_memories_parts _ _ _ _ _ _ _ _ Hp) as (wp1 & wp2 & Hcp & Hsp & ->).
  pose proof (load_tables _ _ _ _ Hlr Hd) as Htr. pose proof (load_tables _ _ _ _ Hlp Hd) as Htp.
  destruct (load_cfg _ _ _ _ Hlr) as (_ & _ & Hkr & _). destruct (load_cfg _ _ _ _ Hlp) as (_ & _ & Hkp & _).
  simpl in Hkr, Hkp. rewrite Hkr in *. rewrite Hkp in *.
  assert (Hsame : remoteBufferInfos (tabs pr) = remoteBufferInfos (tabs pp) /\
                  localBufferToSend (tabs pr) = localBufferToSend (tabs pp)).
  { clear - Hlr Hlp. pose proof (load_parse _ _ _ _ Hlr) as E1. rewrite (load_parse _ _ _ _ Hlp) in E1.
    by injection E1 as -> -> _. }
  destruct Hsame as [Hs1 Hs2].
  destruct (receive_buffers_ok Ep wp2 (getRemoteBufferInfos (tabs pp) p)) as [Hro Hao].
  destruct (send_buffers_sent _ _ _ _ _ _ _ _ p Hsr) as ((ms & Hms & Hf2) & _ & _).
  destruct (send_buffers_sent _ _ _ _ _ _ _ _ r Hsp) as (_ & _ & Hcnt).
  destruct (receive_buffers_ok Er wr2 (getRemoteBufferInfos (tabs pr) r)) as [Hror _].
  rewrite (calls_count _ _ _ Hcp) in Hcnt. rewrite Hcr in Hms.
  (* position of the buffer among those exchanged *)
  set (infos := getRemoteBufferInfos (tabs pp) p) in *.
  pose proof (filter_position (fun x => bi_rank x = r) infos i info Hi Hrank) as Hpos.
  pose proof (to_exchanged _ Htp r p) as Hx. simpl in Hx. fold (getRemoteBufferInfos (tabs pp) p) in Hx. fold infos in Hx.
  rewrite <- Hx in Hpos. unfold getLocalBufferToSend in Hf2. rewrite Hs2 in Hf2.
  destruct (Forall2_lookup_l _ _ _ _ _ Hf2 Hpos) as (m & Hm & Hreg).
  exists m. split; [done|].
  destruct (ro_memories _ _ _ _ Hro _ _ Hi) as (m' & Hm' & Heq). rewrite Hrank, Hcnt, Hbal in Heq.
  rewrite (Hrecv _ m) in Heq.
  - subst m'. pose proof (to_index _ Htp p infos) as Hidx. simpl in Hidx.
    assert (Hinfos : remoteBufferInfos (tabs pp) !! p = Some infos).
    { unfold infos, getRemoteBufferInfos in *. destruct (remoteBufferInfos (tabs pp) !! p); [done|]. simpl in Hi. by rewrite lookup_nil in Hi. }
    apply (accessed_at p _ _ _ i (bi_accessChannelTypes info) ct (import m) Hao (Hidx Hinfos)); try done.
    unfold access_lists. by rewrite list_lookup_fmap, Hi.
  - rewrite (ro_sent _ _ _ _ Hror), Hms. rewrite lookup_app_r by lia. by rewrite Nat.add_comm, Nat.add_sub.
Qed.

(** ** Connections: who connects to whom *)

(** [x] is among the values of key [k]. *)
Definition keyed (l : list (conn_key * list Z)) (k : conn_key) (x : Z) : Prop :=
  exists vs, (k, vs) ∈ l /\ x ∈ vs.

Lemma keyed_cons e l k x : keyed (e :: l) k x <-> (e.1 = k /\ x ∈ e.2) \/ keyed l k x.
Proof.
  unfold keyed. split.
  - intros (vs & Hin & Hx). apply elem_of_cons in Hin as [<-|Hin]; [by left|]. right. eauto.
  - destruct e as [k' vs]. intros [[<- Hx]|(vs' & Hin & Hx)]; simpl in *.
    + exists vs. split; [by left|done].
    + exists vs'. split; [by right|done].
Qed.

Lemma map_push_keyed k v l k' x : keyed (map_push k v l) k' x <-> keyed l k' x \/ (k' = k /\ x = v).
Proof.
  induction l as [|[k1 vs] l IH]; simpl.
  - rewrite keyed_cons. simpl. rewrite list_elem_of_singleton. naive_solver.
  - destruct (decide (k = k1)) as [->|Hne]; [|destruct (key_ltb k k1)].
    + rewrite !keyed_cons. simpl. rewrite elem_of_app, list_elem_of_singleton. naive_solver.
    + rewrite keyed_cons. simpl. rewrite list_elem_of_singleton. naive_solver.
    + rewrite !keyed_cons, IH. naive_solver.
Qed.

Lemma elem_of_peers ct infos p :
  p ∈ peers_of ct infos <-> exists i, i ∈ infos /\ ci_channelType i = ct /\ p ∈ ci_connectedPeers i.
Proof.
  unfold peers_of. rewrite list_elem_of_In, in_concat. split.
  - intros (l & Hl & Hp). apply in_map_iff in Hl as (i & <- & Hi). apply list_elem_of_In in Hi, Hp.
    apply list_elem_of_filter in Hi as [? ?]. eauto.
  - intros (i & Hi & Ht & Hp). exists (ci_connectedPeers i). split; [|by apply list_elem_of_In].
    apply in_map, list_elem_of_In, list_elem_of_filter. done.
Qed.

Lemma add_peers_keyed r ct l s k x :
  keyed (ps_peers (foldl (add_peer r ct) s l)) k x <-> keyed (ps_peers s) k x \/ (k.2 = ct /\ k.1 ∈ l /\ x = r).
Proof.
  revert s. induction l as [|p l IH]; intros s; simpl; [|].
  - split; [by left|]. intros [?|(_ & Hn & _)]; [done|]. by apply not_elem_of_nil in Hn.
  - rewrite IH. simpl. rewrite map_push_keyed, elem_of_cons. destruct k as [p' ct']. simpl. naive_solver.
Qed.

(** The channels [new] declared by [r] are recorded under their destinations. *)
Definition peers_with (r : Z) (new : list ChannelInfo) (l l' : list (conn_key * list Z)) : Prop :=
  forall k x, keyed l' k x <-> keyed l k x \/ (k.1 ∈ peers_of k.2 new /\ x = r).

Lemma parse_channel_peers r s ch s' :
  parse_channel r s ch = Ret s' ->
  exists new, ps_infos s' = ps_infos s ++ new /\ peers_with r new (ps_peers s) (ps_peers s').
Proof.
  unfold parse_channel. intros H. destruct (convertToChannelType _) as [ct| |]; [|done|done].
  cbn [mbind eff_bind] in H. case_decide.
  - destruct (convertToBufferType _); [|done|done]. cbn [mbind eff_bind] in H. injection H as <-. exists [].
    rewrite app_nil_r. split; [done|]. intros k x. simpl. unfold peers_of. simpl. rewrite elem_of_nil. naive_solver.
  - injection H as <-. exists [mkChannelInfo ct (jc_connected_to ch)].
    destruct (add_peers_count r ct (jc_connected_to ch) s) as (E1 & _). simpl. rewrite E1. split; [done|].
    intros k x. rewrite add_peers_keyed, peers_of_one.
    destruct (decide (ct = k.2)) as [->|Hne]; [naive_solver|]. rewrite elem_of_nil. naive_solver.
Qed.

Lemma parse_channels_peers r l s s' :
  fold_eff (parse_channel r) s l = Ret s' ->
  exists new, ps_infos s' = ps_infos s ++ new /\ peers_with r new (ps_peers s) (ps_peers s').
Proof.
  revert s. induction l as [|ch l IH]; intros s H; simpl in H.
  - injection H as <-. exists []. rewrite app_nil_r. split; [done|]. intros k x. unfold peers_of. simpl.
    rewrite elem_of_nil. naive_solver.
  - destruct (parse_channel r s ch) as [s1| |] eqn:E; [|done|done]. cbn [mbind eff_bind] in H.
    destruct (parse_channel_peers _ _ _ _ E) as (n1 & E1 & C1), (IH s1 H) as (n2 & E2 & C2).
    exists (n1 ++ n2). rewrite E2, E1, <- app_assoc. split; [done|].
    intros k x. rewrite (C2 k x), (C1 k x), peers_of_app, elem_of_app. naive_solver.
Qed.

(** Everything declared so far is recorded, and nothing else. *)
Definition recorded (peers : list (conn_key * list Z)) (infos : gmap Z (list ChannelInfo)) : Prop :=
  forall p ct r, keyed peers (p, ct) r <-> p ∈ peers_of ct (default [] (infos !! r)).

Lemma setup_gpus_recorded gpus s s' :
  fold_eff setup_gpu_channels s gpus = Ret s' -> NoDup (map jg_id gpus) ->
  Forall (fun g => cs_infos s !! jg_id g = None) gpus ->
  recorded (cs_peers s) (cs_infos s) -> recorded (cs_peers s') (cs_infos s').
Proof.
  revert s. induction gpus as [|g gpus IH]; intros s H Hd Hf Hc; simpl in H; [by injection H as <-|].
  destruct (setup_gpu_channels s g) as [s1| |] eqn:E; [|done|done]. cbn [mbind eff_bind] in H.
  apply NoDup_cons in Hd as [Hni Hd]. apply Forall_cons in Hf as [Hg Hf].
  unfold setup_gpu_channels, parseChannels in E.
  destruct (fold_eff _ _ (jg_channels g)) as [ps| |] eqn:Ep; [|done|done]. cbn [mbind eff_bind] in E.
  injection E as <-. destruct (parse_channels_peers _ _ _ _ Ep) as (new & En & Cn). simpl in En, Cn.
  eapply IH; [exact H|done| |].
  - simpl. rewrite Forall_forall in Hf |- *. intros g' Hg'. rewrite lookup_insert_ne; [by apply Hf|].
    intros Eq. apply Hni. rewrite Eq. by apply list_elem_of_In, in_map, list_elem_of_In.
  - intros p ct r. simpl. rewrite (Cn (p, ct) r), (Hc p ct r). simpl. destruct (decide (r = jg_id g)) as [->|Hne].
    + rewrite Hg, lookup_insert_eq. simpl. rewrite En. unfold peers_of at 1. simpl. rewrite elem_of_nil. naive_solver.
    + rewrite lookup_insert_ne by done. naive_solver.
Qed.

(** The channel tables of a loaded plan. *)
Lemma load_channels j k r p' :
  load_for j k (Plan_create j r) = Ret p' ->
  exists s, fold_eff setup_gpu_channels (mkChan [] ∅ ∅ ∅) (j_gpus j) = Ret s /\
    channelInfos (tabs p') = cs_infos s /\ channelCountMap (tabs p') = cs_count s /\
    nvlsInfos (tabs p') = cs_nvls s /\
    channelInfosByDstRank (tabs p') =
      foldl (fun m (e : conn_key * list Z) => push_map e.1.1 (mkChannelInfo e.1.2 e.2) m) ∅ (cs_peers s).
Proof.
  intros H. destruct (load_parts _ _ _ _ H) as (t & t' & gpu & Et & Et' & ->). simpl.
  unfold setupRemoteBuffers in Et'. eff_steps Et'. injection Et' as <-. simpl.
  unfold ExecutionPlan.setupChannels in Et. simpl in Et.
  destruct (fold_eff setup_gpu_channels _ _) as [cs| |] eqn:Ec; [|done|done]. cbn [mbind eff_bind] in Et.
  exists cs. split; [done|]. eff_steps Et. by injection Et as <-.
Qed.

Lemma elem_of_set_insert x y l : x ∈ set_insert y l <-> x = y \/ x ∈ l.
Proof.
  induction l as [|z l IH]; simpl; [rewrite list_elem_of_singleton, elem_of_nil; naive_solver|].
  destruct (y <? z); [by rewrite elem_of_cons|]. destruct (Z.eqb_spec y z) as [->|]; rewrite !elem_of_cons; naive_solver.
Qed.

Lemma elem_of_set_of x l acc : x ∈ foldl (fun s p => set_insert p s) acc l <-> x ∈ l \/ x ∈ acc.
Proof.
  revert acc. induction l as [|y l IH]; intros acc; simpl; [rewrite elem_of_nil; naive_solver|].
  rewrite IH, elem_of_set_insert, elem_of_cons. naive_solver.
Qed.

Lemma elem_of_all_peers x infos :
  x ∈ concat (map ci_connectedPeers infos) <-> exists ct, x ∈ peers_of ct infos.
Proof.
  rewrite list_elem_of_In, in_concat. split.
  - intros (l & Hl & Hx). apply in_map_iff in Hl as (i & <- & Hi). exists (ci_channelType i).
    apply elem_of_peers. exists i. split_and!; [by apply list_elem_of_In|done|by apply list_elem_of_In].
  - intros (ct & Hx). apply elem_of_peers in Hx as (i & Hi & _ & Hx). exists (ci_connectedPeers i).
    split; [apply in_map|]; by apply list_elem_of_In.
Qed.

Lemma by_dst_peers l m dst x :
  x ∈ concat (map ci_connectedPeers
        (default [] (foldl (fun m (e : conn_key * list Z) => push_map e.1.1 (mkChannelInfo e.1.2 e.2) m) m l !! dst))) <->
  x ∈ concat (map ci_connectedPeers (default [] (m !! dst))) \/ exists ct, keyed l (dst, ct) x.
Proof.
  revert m. induction l as [|[[d ct] vs] l IH]; intros m; simpl.
  - split; [by left|]. intros [?|(ct & vs & Hn & _)]; [done|by apply elem_of_nil in Hn].
  - rewrite IH. unfold push_map. destruct (decide (d = dst)) as [->|Hne].
    + rewrite lookup_insert_eq. simpl. rewrite map_app, concat_app, elem_of_app. simpl. rewrite app_nil_r.
      split.
      * intros [[?|?]|(ct' & ?)]; [by left| |]; right; [exists ct|exists ct']; apply keyed_cons; simpl; auto.
      * intros [?|(ct' & Hk)]; [auto|]. apply keyed_cons in Hk as [[Heq ?]|?]; simpl in *; [auto|eauto].
    + rewrite lookup_insert_ne by done. split.
      * intros [?|(ct' & ?)]; [by left|]. right. exists ct'. apply keyed_cons. auto.
      * intros [?|(ct' & Hk)]; [auto|]. apply keyed_cons in Hk as [[Heq ?]|?]; simpl in *; [congruence|eauto].
Qed.

(** Channels between [r] and [x], declared by either. *)
Definition linked (infos : gmap Z (list ChannelInfo)) (r x : Z) : Prop :=
  exists ct, x ∈ peers_of ct (default [] (infos !! r)) \/ r ∈ peers_of ct (default [] (infos !! x)).

Lemma linked_sym infos r x : linked infos r x <-> linked infos x r.
Proof. unfold linked. naive_solver. Qed.

Lemma load_recorded j s :
  fold_eff setup_gpu_channels (mkChan [] ∅ ∅ ∅) (j_gpus j) = Ret s -> NoDup (map jg_id (j_gpus j)) ->
  recorded (cs_peers s) (cs_infos s) /\ counted (cs_count s) (cs_infos s).
Proof.
  intros Hs Hd. split.
  - eapply setup_gpus_recorded; [exact Hs|done| |].
    + apply Forall_forall. intros. apply lookup_empty.
    + intros p ct r. simpl. rewrite lookup_empty. unfold peers_of. simpl. rewrite elem_of_nil.
      split; [|done]. intros (vs & Hn & _). by apply elem_of_nil in Hn.
  - eapply setup_gpus_counted; [exact Hs|done| |].
    + apply Forall_forall. intros. apply lookup_empty.
    + intros r ct q. unfold cnt. simpl. by rewrite !lookup_empty.
Qed.

(** The connected peers of a loaded plan are the ranks it shares channels with. *)
Lemma connected_linked j k r p' l x :
  load_for j k (Plan_create j r) = Ret p' -> NoDup (map jg_id (j_gpus j)) ->
  getConnectedPeers (tabs p') r = Some l -> x ∈ l <-> linked (channelInfos (tabs p')) r x.
Proof.
  intros Hl Hd Hc. destruct (load_channels _ _ _ _ Hl) as (s & Hs & E1 & _ & _ & E2).
  destruct (load_recorded _ _ Hs Hd) as [Hrec _]. unfold getConnectedPeers in Hc. rewrite E1, E2 in *.
  destruct (cs_infos s !! r) as [infos|] eqn:Er; [|done]. simpl in Hc. injection Hc as <-.
  rewrite elem_of_set_of, elem_of_app, elem_of_all_peers, by_dst_peers, lookup_empty. simpl.
  rewrite !elem_of_nil. unfold linked. rewrite Er. simpl.
  setoid_rewrite (fun ct => Hrec r ct x). naive_solver.
Qed.

(** ** Connections: setting them up *)

Section connections.
Context {M : Type} `{Registrar M}.

Lemma connect_peers_ok (E : Env M) r peers conns w conns' w' :
  fold_eff (connect_peer E r) (conns, w) peers = Ret (conns', w') ->
  (forall x, is_Some (conns' !! x) <-> x ∈ peers \/ is_Some (conns !! x)) /\
  (forall x c, conns' !! x = Some c -> x ∈ peers \/ conns !! x = Some c) /\
  (forall x c, conns' !! x = Some c -> conns !! x = Some c \/ cn_peer c = x /\
     exists ib, useIB E r x = Ret ib /\
       if (ib : bool) then ib_of E r = Ret (cn_transport c) else cn_transport c = CudaIpc).
Proof.
  revert conns w. induction peers as [|p peers IH]; intros conns w Hf; simpl in Hf.
  { injection Hf as <- <-. split_and!; [|naive_solver|naive_solver]. intros x. rewrite elem_of_nil. naive_solver. }
  destruct (useIB E r p) as [ib| |] eqn:E1; [|done|done]. cbn [mbind eff_bind] in Hf.
  destruct (if negb ib then Ret CudaIpc else ib_of E r) as [t| |] eqn:E2; [|done|done]. cbn [mbind eff_bind] in Hf.
  destruct (IH _ _ Hf) as (H1 & H2 & H3). split_and!.
  - intros x. rewrite H1, elem_of_cons, lookup_insert_is_Some. destruct (decide (p = x)); naive_solver.
  - intros x c Hx. destruct (H2 _ _ Hx) as [?|Hi]; [left; by right|].
    apply lookup_insert_Some in Hi as [[-> _]|[_ ?]]; [left; by left|by right].
  - intros x c Hx. destruct (H3 _ _ Hx) as [Hi|?]; [|by right].
    apply lookup_insert_Some in Hi as [[-> <-]|[_ ?]]; [|by left]. right. split; [done|]. exists ib. split; [done|].
    simpl. destruct ib; simpl in E2; [done|]. by injection E2 as <-.
Qed.

Lemma setupConnections_ok (E : Env M) r s v b plan w conns nvls w' :
  setupConnections E r s v b plan w = Ret (conns, nvls, w') ->
  exists l, getConnectedPeers (tabs plan) (pl_rank (cfg plan)) = Some l /\
    (forall x, is_Some (conns !! x) <-> x ∈ l) /\
    (forall x c, conns !! x = Some c -> cn_peer c = x /\
      exists ib, useIB E r x = Ret ib /\
        if (ib : bool) then ib_of E r = Ret (cn_transport c) else cn_transport c = CudaIpc).
Proof.
  unfold setupConnections. intros Hs. destruct (getConnectedPeers _ _) as [l|]; [|done]. cbn [mbind eff_bind] in Hs.
  destruct (fold_eff _ (∅, w) l) as [[c1 w1]| |] eqn:Ef; [|done|done]. cbn [mbind eff_bind] in Hs.
  eff_steps Hs.
  injection Hs as <- _ _. destruct (connect_peers_ok _ _ _ _ _ _ _ Ef) as (H1 & _ & H3). exists l.
  split_and!; [done| |].
  - intros x. rewrite H1, lookup_empty. split; [intros [?|[? ?]]; done|by left].
  - intros x c Hx. destruct (H3 _ _ Hx) as [He|?]; [by rewrite lookup_empty in He|done].
Qed.

Lemma useIB_sym (E1 E2 : Env M) r p b b' :
  nranksPerNode E1 = nranksPerNode E2 -> hasIBDevices E1 = hasIBDevices E2 ->
  useIB E1 r p = Ret b -> useIB E2 p r = Ret b' -> b = b'.
Proof.
  unfold useIB, idiv. intros -> ->. destruct (nranksPerNode E2 =? 0); [done|]. simpl.
  intros [= <-] [= <-]. f_equal. f_equal. apply Z.eqb_sym.
Qed.

Lemma ib_of_isIB (E : Env M) r t : ib_of E r = Ret t -> isIB t = true.
Proof.
  unfold ib_of, at_. intros Ht. destruct (imod _ _) as [i| |]; [|done|done]. cbn [mbind eff_bind] in Ht.
  destruct (i <? 0); [done|]. destruct (IBs !! _) as [t'|] eqn:El; [|done]. injection Ht as ->.
  apply list_elem_of_lookup_2 in El. unfold IBs in El. set_unfold. naive_solver.
Qed.
End connections.

(** ** Properties: connections *)

(** connections are mutual: when two ranks have loaded the same plan file and
    connected, one is connected to the other exactly if the other is connected to it,
    and both ends then use InfiniBand or both use CUDA IPC. *)
Theorem connections_mutual {M} `{Registrar M} (Er Ep : Env M) (j : jplan) (kr kp : DeviceExecutionPlanKey)
    (r p : Z) (pr pp : Plan) (wr wp : World M) sr vr br sp vp bp connsr nvlsr wr' connsp nvlsp wp' :
  NoDup (map jg_id (j_gpus j)) ->
  nranksPerNode Er = nranksPerNode Ep -> hasIBDevices Er = hasIBDevices Ep ->
  load_for j kr (Plan_create j r) = Ret pr -> load_for j kp (Plan_create j p) = Ret pp ->
  setupConnections Er r sr vr br pr wr = Ret (connsr, nvlsr, wr') ->
  setupConnections Ep p sp vp bp pp wp = Ret (connsp, nvlsp, wp') ->
  (is_Some (connsr !! p) <-> is_Some (connsp !! r)) /\
  forall cr cp, connsr !! p = Some cr -> connsp !! r = Some cp ->
    isIB (cn_transport cr) = isIB (cn_transport cp) /\
    (isIB (cn_transport cr) = false -> cn_transport cr = CudaIpc /\ cn_transport cp = CudaIpc).
Proof.
  intros Hd Hn Hib Hlr Hlp Hr Hp.
  destruct (load_cfg _ _ _ _ Hlr) as (_ & _ & Hkr & _). destruct (load_cfg _ _ _ _ Hlp) as (_ & _ & Hkp & _).
  destruct (setupConnections_ok _ _ _ _ _ _ _ _ _ _ Hr) as (lr & Gr & D1 & T1).
  destruct (setupConnections_ok _ _ _ _ _ _ _ _ _ _ Hp) as (lp & Gp & D2 & T2).
  rewrite Hkr in Gr. rewrite Hkp in Gp. simpl in Gr, Gp. split.
  - rewrite D1, D2, (connected_linked _ _ _ _ _ p Hlr Hd Gr), (connected_linked _ _ _ _ _ r Hlp Hd Gp).
    destruct (load_channels _ _ _ _ Hlr) as (s & Es & -> & _), (load_channels _ _ _ _ Hlp) as (s' & Es' & -> & _).
    rewrite Es in Es'. injection Es' as <-. apply linked_sym.
  - intros cr cp Hcr Hcp. destruct (T1 _ _ Hcr) as (_ & ib & U1 & V1), (T2 _ _ Hcp) as (_ & ib' & U2 & V2).
    pose proof (useIB_sym _ _ _ _ _ _ Hn Hib U1 U2) as <-. destruct ib.
    + by rewrite (ib_of_isIB _ _ _ V1), (ib_of_isIB _ _ _ V2).
    + by rewrite V1, V2.
Qed.

(** ** Semaphores *)

Lemma occ_length p l : occ p l = Z.of_nat (length (filter (fun x => x = p) l)).
Proof. done. Qed.

Lemma filter_seq_app (a n m : nat) : seq a n ++ seq (a + n) m = seq a (n + m).
Proof. by rewrite seq_app. Qed.

Section semaphores.
Context {M : Type} `{Registrar M}.

Definition all_peers (infos : list ChannelInfo) : list Z := concat (map ci_connectedPeers infos).
Definition towards (p : Z) (l : list Sem) : list nat := map sm_nth (filter (fun s => sm_peer s = p) l).

(** [new] are the semaphores built from [w] to [w'], one per peer of [l] in order,
    numbered consecutively for each peer. *)
Record built (w w' : World M) (l : list Z) (new : list Sem) : Prop := {
  bu_peers : map sm_peer new = l;
  bu_numbers : forall p, towards p new = seq (count_calls (is_build p) w) (length (filter (fun x => x = p) l));
  bu_counts : forall p, count_calls (is_build p) w' =
    (count_calls (is_build p) w + length (filter (fun x => x = p) l))%nat;
  bu_service : svc_semaphores w' = svc_semaphores w /\ svc_memories w' = svc_memories w
}.

Lemma built_nil w : built w w [] [].
Proof. split; try done; intros p; simpl; lia. Qed.

Lemma towards_app p a b : towards p (a ++ b) = towards p a ++ towards p b.
Proof. unfold towards. by rewrite filter_app, map_app. Qed.

Lemma built_app w1 w2 w3 l1 l2 n1 n2 :
  built w1 w2 l1 n1 -> built w2 w3 l2 n2 -> built w1 w3 (l1 ++ l2) (n1 ++ n2).
Proof.
  intros [P1 N1 C1 [S1 S1']] [P2 N2 C2 [S2 S2']]. split.
  - by rewrite map_app, P1, P2.
  - intros p. rewrite towards_app, N1, N2, C1, filter_app, length_app. apply filter_seq_app.
  - intros p. rewrite C2, C1, filter_app, length_app. lia.
  - split; congruence.
Qed.

Lemma built_one w p :
  built w (comm_buildSemaphore p w).2 [p] [(comm_buildSemaphore p w).1].
Proof.
  unfold comm_buildSemaphore. simpl. split; [done| | |done].
  - intros q. unfold towards. rewrite !filter_cons. simpl. destruct (decide (p = q)) as [->|]; done.
  - intros q. rewrite count_calls_log, filter_cons. simpl.
    destruct (Z.eqb_spec p q); [rewrite decide_True by done|rewrite decide_False by done]; done.
Qed.

(** The futures after building semaphores of one type for the peers [l]. *)
Definition grown (type : ChannelType) (l : list Z) (s s' : futures) : Prop :=
  exists new, built (fu_world s) (fu_world s') l new /\
    match type with
    | CMemory => fu_memory s' = fu_memory s ++ new /\ fu_proxy s' = fu_proxy s
    | CPort => fu_memory s' = fu_memory s /\ fu_proxy s' = fu_proxy s ++ new
    | _ => False
    end.

Definition peers_connected (conns : gmap Z Conn) (l : list Z) : Prop :=
  forall p, p ∈ l -> exists c, conns !! p = Some c /\ cn_peer c = p.

Lemma grown_app type l1 l2 s1 s2 s3 :
  grown type l1 s1 s2 -> grown type l2 s2 s3 -> grown type (l1 ++ l2) s1 s3.
Proof.
  intros (n1 & B1 & E1) (n2 & B2 & E2). exists (n1 ++ n2). split; [by eapply built_app|].
  destruct type; try done; destruct E1 as [X1 Y1], E2 as [X2 Y2]; by rewrite X2, Y2, X1, Y1, ?app_assoc.
Qed.

Lemma grown_nil type s : type = CMemory \/ type = CPort -> grown type [] s s.
Proof. intros Ht. exists []. split; [apply built_nil|]. destruct Ht as [-> | ->]; by rewrite app_nil_r. Qed.

Lemma process_peer_grown conns type p s :
  type = CMemory \/ type = CPort -> peers_connected conns [p] ->
  exists s1, process_peer conns type s p = Ret s1 /\ grown type [p] s s1.
Proof.
  intros Ht Hc. destruct (Hc p) as (c & Hp & Ep); [by left|]. unfold process_peer, map_at. rewrite Hp.
  cbn [mbind eff_bind]. rewrite Ep. pose proof (built_one (fu_world s) p) as Hb.
  destruct Ht as [-> | ->]; (eexists; split; [done|]; eexists; split; [exact Hb|done]).
Qed.

Lemma process_peers_grown conns type l s :
  type = CMemory \/ type = CPort -> peers_connected conns l ->
  exists s', fold_eff (process_peer conns type) s l = Ret s' /\ grown type l s s'.
Proof.
  intros Ht. revert s. induction l as [|p l IH]; intros s Hc; simpl; [eauto using grown_nil|].
  destruct (process_peer_grown conns type p s Ht) as (s1 & -> & H1).
  { intros q Hq. apply Hc. apply list_elem_of_singleton in Hq as ->. by left. }
  cbn [mbind eff_bind]. destruct (IH s1) as (s' & -> & H2); [intros q Hq; apply Hc; by right|].
  exists s'. split; [done|]. by apply (grown_app type [p] l s s1 s').
Qed.

Lemma processChannelInfos_grown conns type infos s :
  type = CMemory \/ type = CPort -> Forall (fun i => ci_channelType i = type) infos ->
  peers_connected conns (all_peers infos) ->
  exists s', processChannelInfos conns infos s = Ret s' /\ grown type (all_peers infos) s s'.
Proof.
  intros Ht Hf. unfold processChannelInfos. revert s. induction Hf as [|i infos Hi Hf IH]; intros s Hc; simpl.
  { eauto using grown_nil. }
  unfold all_peers in Hc. simpl in Hc.
  change (process_info conns s i) with (fold_eff (process_peer conns (ci_channelType i)) s (ci_connectedPeers i)).
  rewrite Hi. destruct (process_peers_grown conns type (ci_connectedPeers i) s Ht) as (s1 & -> & H1).
  { intros q Hq. apply Hc. apply elem_of_app. by left. }
  cbn [mbind eff_bind]. destruct (IH s1) as (s' & -> & H2); [intros q Hq; apply Hc; apply elem_of_app; by right|].
  exists s'. split; [done|]. unfold all_peers. simpl. by eapply grown_app.
Qed.

(** The peers of the channels of one type that a rank sets up, declared ones first. *)
Definition declared_peers (plan : Plan) (ct : ChannelType) : list Z :=
  all_peers (default [] (getChannelInfos (tabs plan) (pl_rank (cfg plan)) ct)).
Definition added_peers (E : Env M) (plan : Plan) (ct : ChannelType) : list Z :=
  all_peers (getUnpairedChannelInfos (tabs plan) (pl_rank (cfg plan)) (nranks E) ct).

Lemma unpaired_type t r n ct : Forall (fun i => ci_channelType i = ct) (getUnpairedChannelInfos t r n ct).
Proof.
  unfold getUnpairedChannelInfos. apply Forall_concat, Forall_fmap, Forall_forall. intros p _. simpl.
  unfold unpaired_with. case_match; [constructor|]. case_match; [|constructor]. by apply Forall_replicate.
Qed.

Lemma process_type_grown (E : Env M) conns plan s ct infos :
  ct = CMemory \/ ct = CPort -> getChannelInfos (tabs plan) (pl_rank (cfg plan)) ct = Some infos ->
  peers_connected conns (declared_peers plan ct ++ added_peers E plan ct) ->
  exists s', process_type E conns plan s ct = Ret s' /\
    grown ct (declared_peers plan ct ++ added_peers E plan ct) s s'.
Proof.
  intros Ht Hi Hc. unfold declared_peers in *. unfold process_type, plan_channelInfos. rewrite Hi in *. simpl in *.
  cbn [mbind eff_bind].
  destruct (processChannelInfos_grown conns ct infos s Ht) as (s1 & -> & H1).
  { unfold getChannelInfos in Hi. destruct (channelInfos _ !! _); [|done]. simpl in Hi. injection Hi as <-.
    apply Forall_forall. intros i Hi. by apply list_elem_of_filter in Hi as [? _]. }
  { intros p Hp. apply Hc, elem_of_app. by left. }
  cbn [mbind eff_bind].
  destruct (processChannelInfos_grown conns ct _ s1 Ht (unpaired_type (tabs plan) (pl_rank (cfg plan)) (nranks E) ct))
    as (s2 & -> & H2); [intros p Hp; apply Hc, elem_of_app; by right|].
  exists s2. split; [done|]. by eapply grown_app.
Qed.

Lemma add_semaphores_ok l (w : World M) :
  let '(ids, w') := add_semaphores l w in
  svc_semaphores w' = svc_semaphores w ++ l /\ calls w' = calls w /\
  ids = imap (fun i _ => u32 (Z.of_nat (length (svc_semaphores w) + i))) l.
Proof.
  revert w. induction l as [|s l IH]; intros w; simpl; [by rewrite app_nil_r|].
  specialize (IH (svc_addSemaphore s w).2). simpl in IH. destruct (add_semaphores l _) as [ids w'].
  destruct IH as (-> & -> & ->). simpl. rewrite <- app_assoc, Nat.add_0_r. split_and!; try done. f_equal.
  apply imap_ext. intros i x _. simpl. rewrite length_app. simpl. do 2 f_equal. lia.
Qed.

Lemma at_nat {A} (l : list A) i x : l !! i = Some x -> at_ l (Z.of_nat i) = Ret x.
Proof. intros Hx. unfold at_. by rewrite (proj2 (Z.ltb_ge _ _)), Nat2Z.id, Hx by lia. Qed.

Lemma map_eff_at {A} (l : list A) n :
  (n <= length l)%nat -> map_eff (fun i => at_ l (Z.of_nat i)) (seq 0 n) = Ret (take n l).
Proof.
  intros Hn. assert (Hgen : forall k m, (k + m <= length l)%nat ->
    map_eff (fun i => at_ l (Z.of_nat i)) (seq k m) = Ret (take m (drop k l))).
  { intros k m. revert k. induction m as [|m IH]; intros k Hk; simpl; [done|].
    destruct (lookup_lt_is_Some_2 l k) as [x Hx]; [lia|]. rewrite (at_nat _ _ _ Hx). cbn [mbind eff_bind].
    rewrite IH by lia. cbn [mbind eff_bind]. by rewrite (drop_S _ _ _ Hx). }
  apply (Hgen 0%nat n). done.
Qed.

(** What [setupChannels] does when its peers are connected: it succeeds, and its
    semaphores are those of the declared and the added channels. *)
Lemma setupChannels_built (E : Env M) conns plan w im ip :
  getChannelInfos (tabs plan) (pl_rank (cfg plan)) CMemory = Some im ->
  getChannelInfos (tabs plan) (pl_rank (cfg plan)) CPort = Some ip ->
  (forall ct, ct = CMemory \/ ct = CPort ->
     peers_connected conns (declared_peers plan ct ++ added_peers E plan ct)) ->
  exists ch w' w1 w2 prox, setupChannels E conns plan w = Ret (ch, w') /\
    built w w1 (declared_peers plan CMemory ++ added_peers E plan CMemory) (ch_memorySemaphores ch) /\
    built w1 w2 (declared_peers plan CPort ++ added_peers E plan CPort) prox /\
    svc_semaphores w' = svc_semaphores w ++ prox /\ calls w' = calls w2 /\
    ch_memory ch = take (length (declared_peers plan CMemory)) (ch_memorySemaphores ch) /\
    ch_proxySemaphores ch = imap (fun i _ => u32 (Z.of_nat (length (svc_semaphores w) + i))) prox /\
    ch_port ch = take (length (declared_peers plan CPort)) (ch_proxySemaphores ch).
Proof.
  intros Hm Hp Hc. unfold setupChannels. cbn [fold_eff].
  destruct (process_type_grown E conns plan (mkFutures [] [] w) CMemory im) as (s1 & -> & n1 & B1 & E1 & E1');
    [by left|done|apply Hc; by left|]. cbn [mbind eff_bind].
  destruct (process_type_grown E conns plan s1 CPort ip) as (s2 & -> & n2 & B2 & E2 & E2');
    [by right|done|apply Hc; by right|]. cbn [mbind eff_bind].
  simpl in E1, E1'. rewrite E1 in E2. rewrite E1' in E2'. simpl in E2'.
  pose proof (add_semaphores_ok (fu_proxy s2) (fu_world s2)) as Ha.
  destruct (add_semaphores _ _) as [ids w3]. destruct Ha as (A1 & A2 & A3).
  unfold plan_channelInfos. rewrite Hm, Hp. cbn [mbind eff_bind]. unfold take_semaphores.
  fold (all_peers im). fold (all_peers ip).
  pose proof (f_equal length (bu_peers _ _ _ _ B1)) as L1. pose proof (f_equal length (bu_peers _ _ _ _ B2)) as L2.
  rewrite length_map, length_app in L1, L2. unfold declared_peers in *. rewrite Hm in *. rewrite Hp in *. simpl in *.
  rewrite (map_eff_at (fu_memory s2) (length (all_peers im))) by (rewrite E2; lia). cbn [mbind eff_bind].
  rewrite (map_eff_at ids (length (all_peers ip))) by (rewrite A3, length_imap, E2'; lia). cbn [mbind eff_bind].
  eexists _, w3, (fu_world s1), (fu_world s2), n2. split; [done|]. simpl.
  destruct (bu_service _ _ _ _ B1) as [S1 _], (bu_service _ _ _ _ B2) as [S2 _]. simpl in S1.
  rewrite E2, A3, E2', S2, S1. split_and!; try done. by rewrite A1, E2', S2, S1.
Qed.
End semaphores.

Lemma all_peers_of ct infos : Forall (fun i => ci_channelType i = ct) infos -> all_peers infos = peers_of ct infos.
Proof.
  intros Hf. unfold all_peers, peers_of. f_equal. f_equal. induction Hf; [done|].
  rewrite filter_cons, decide_True by done. by f_equal.
Qed.

Lemma declared_peers_of plan ct :
  declared_peers plan ct = peers_of ct (default [] (getChannelInfos (tabs plan) (pl_rank (cfg plan)) ct)).
Proof.
  apply all_peers_of. unfold getChannelInfos. destruct (channelInfos _ !! _); simpl; [|constructor].
  apply Forall_forall. intros i Hi. by apply list_elem_of_filter in Hi as [? _].
Qed.

Lemma added_peers_of {M} (E : Env M) plan ct :
  added_peers E plan ct = peers_of ct (getUnpairedChannelInfos (tabs plan) (pl_rank (cfg plan)) (nranks E) ct).
Proof. apply all_peers_of, unpaired_type. Qed.

Lemma occ_elem p l : 0 < occ p l <-> p ∈ l.
Proof.
  rewrite occ_length. split.
  - intros Hl. destruct (filter _ l) as [|x l'] eqn:E; simpl in Hl; [lia|].
    assert (Hx : x ∈ filter (fun x => x = p) l) by (rewrite E; by left).
    apply list_elem_of_filter in Hx as [-> ?]. done.
  - intros Hl. destruct (filter (fun x => x = p) l) as [|x l'] eqn:E; simpl; [|lia].
    assert (Hx : p ∈ filter (fun x => x = p) l) by (by apply list_elem_of_filter).
    rewrite E in Hx. by apply elem_of_nil in Hx.
Qed.

(** Every peer a channel is set up towards is connected. *)
Lemma channel_peers_linked {M} (E : Env M) j k r plan ct x :
  load_for j k (Plan_create j r) = Ret plan -> NoDup (map jg_id (j_gpus j)) ->
  x ∈ declared_peers plan ct ++ added_peers E plan ct -> linked (channelInfos (tabs plan)) r x.
Proof.
  intros Hl Hd Hx. destruct (load_channels _ _ _ _ Hl) as (s & Hs & E1 & E2 & _).
  destruct (load_cfg _ _ _ _ Hl) as (_ & _ & Hr & _). simpl in Hr.
  destruct (load_recorded _ _ Hs Hd) as [_ Hcnt]. exists ct.
  rewrite declared_peers_of, added_peers_of, Hr, elem_of_app in Hx. destruct Hx as [Hx|Hx].
  - left. unfold getChannelInfos in Hx. destruct (channelInfos (tabs plan) !! r); simpl in *; [|by apply elem_of_nil in Hx].
    apply elem_of_peers in Hx as (i & Hi & ? & ?). apply list_elem_of_filter in Hi as [_ ?]. apply elem_of_peers. eauto.
  - right. apply elem_of_peers in Hx as (i & Hi & Ht & Hp). unfold getUnpairedChannelInfos in Hi.
    apply list_elem_of_In, in_concat in Hi as (l & Hl' & Hi). apply in_map_iff in Hl' as (q & <- & _).
    apply list_elem_of_In in Hi. unfold unpaired_with in Hi. destruct (_ =? r); [by apply elem_of_nil in Hi|].
    destruct (Z.ltb_spec (channel_count (tabs plan) r ct (Z.of_nat q)) (channel_count (tabs plan) (Z.of_nat q) ct r))
      as [Hlt|]; [|by apply elem_of_nil in Hi].
    apply elem_of_replicate in Hi as [-> _]. simpl in Hp. apply list_elem_of_singleton in Hp as ->.
    apply occ_elem. unfold channel_count in Hlt. rewrite E2 in Hlt.
    pose proof (Hcnt r ct (Z.of_nat q)) as C1. pose proof (Hcnt (Z.of_nat q) ct r) as C2. unfold cnt in C1, C2.
    rewrite C1, C2 in Hlt. rewrite E1. rewrite occ_length in Hlt. lia.
Qed.

Lemma setup_peers_connected {M} `{Registrar M} (E : Env M) j k r plan s v b w conns nvls w' ct :
  load_for j k (Plan_create j r) = Ret plan -> NoDup (map jg_id (j_gpus j)) ->
  setupConnections E r s v b plan w = Ret (conns, nvls, w') ->
  peers_connected conns (declared_peers plan ct ++ added_peers E plan ct).
Proof.
  intros Hl Hd Hs x Hx. destruct (setupConnections_ok _ _ _ _ _ _ _ _ _ _ Hs) as (l & Hg & Hdom & Hp).
  destruct (load_cfg _ _ _ _ Hl) as (_ & _ & Hr & _). simpl in Hr. rewrite Hr in Hg.
  pose proof (channel_peers_linked _ _ _ _ _ _ _ Hl Hd Hx) as Hlink.
  apply (connected_linked _ _ _ _ _ _ Hl Hd Hg), Hdom in Hlink as [c Hc]. exists c. split; [done|]. by apply Hp.
Qed.

(** [setupChannels] after [setupConnections]. *)
Lemma channels_built {M} `{Registrar M} (E : Env M) j k r plan s v b w0 conns nvls w1 w :
  load_for j k (Plan_create j r) = Ret plan -> NoDup (map jg_id (j_gpus j)) ->
  setupConnections E r s v b plan w0 = Ret (conns, nvls, w1) ->
  exists ch w' wa wb prox, setupChannels E conns plan w = Ret (ch, w') /\
    built w wa (declared_peers plan CMemory ++ added_peers E plan CMemory) (ch_memorySemaphores ch) /\
    built wa wb (declared_peers plan CPort ++ added_peers E plan CPort) prox /\
    svc_semaphores w' = svc_semaphores w ++ prox /\ calls w' = calls wb /\
    ch_memory ch = take (length (declared_peers plan CMemory)) (ch_memorySemaphores ch) /\
    ch_proxySemaphores ch = imap (fun i _ => u32 (Z.of_nat (length (svc_semaphores w) + i))) prox /\
    ch_port ch = take (length (declared_peers plan CPort)) (ch_proxySemaphores ch).
Proof.
  intros Hl Hd Hs. destruct (setupConnections_ok _ _ _ _ _ _ _ _ _ _ Hs) as (l & Hg & _).
  unfold getConnectedPeers in Hg. destruct (channelInfos (tabs plan) !! pl_rank (cfg plan)) as [infos|] eqn:Ei; [|done].
  eapply setupChannels_built; [unfold getChannelInfos; by rewrite Ei|unfold getChannelInfos; by rewrite Ei|].
  intros ct _. by eapply setup_peers_connected.
Qed.

(** ** Properties: channels *)

(** after the connections of a plan have been made, setting up its channels always
    succeeds, and the channels are the declared ones: the [n]-th memory (port)
    channel a plan refers to leads to the [n]-th peer that its memory (port) channel
    declarations list. *)
Theorem channels_reach_peers {M} `{Registrar M} (E : Env M) (j : jplan) (k : DeviceExecutionPlanKey) (r : Z)
    (plan : Plan) s v b w0 conns nvls w1 (w : World M) :
  NoDup (map jg_id (j_gpus j)) -> load_for j k (Plan_create j r) = Ret plan ->
  setupConnections E r s v b plan w0 = Ret (conns, nvls, w1) ->
  exists ch w', setupChannels E conns plan w = Ret (ch, w') /\
    map sm_peer (ch_memory ch) = declared_peers plan CMemory /\
    (Z.of_nat (length (svc_semaphores w')) <= 2 ^ 32 ->
     map (fun id => sm_peer <$> svc_semaphores w' !! Z.to_nat id) (ch_port ch) =
     map Some (declared_peers plan CPort)).
Proof.
  intros Hd Hl Hs.
  destruct (channels_built E j k r plan s v b w0 conns nvls w1 w Hl Hd Hs)
    as (ch & w' & wa & wb & prox & Hc & B1 & B2 & S & _ & Em & Ei & Ep).
  exists ch, w'. split; [done|]. split.
  - rewrite Em. pose proof (bu_peers _ _ _ _ B1) as P. rewrite <- firstn_map, P. by rewrite take_app_length.
  - intros Hb. rewrite Ep, Ei, S. rewrite S, length_app in Hb. pose proof (bu_peers _ _ _ _ B2) as P.
    set (d := declared_peers plan CPort) in *. rewrite <- firstn_map.
    assert (Hall : map (fun id => sm_peer <$> (svc_semaphores w ++ prox) !! Z.to_nat id)
              (imap (fun i _ => u32 (Z.of_nat (length (svc_semaphores w) + i))) prox) = map Some (map sm_peer prox)).
    { apply list_eq. intros i. rewrite !list_lookup_fmap, list_lookup_imap.
      destruct (prox !! i) as [x|] eqn:Ex; simpl; [|done]. pose proof (lookup_lt_Some _ _ _ Ex).
      rewrite u32_small, Nat2Z.id by lia. rewrite lookup_app_r by lia.
      by rewrite Nat.add_comm, Nat.add_sub, Ex. }
    rewrite Hall, P, firstn_map. by rewrite take_app_length.
Qed.

(** C40: semaphores pair up: when two ranks have loaded the same plan file and have built
    equally many semaphores with each other before, then the [n]-th semaphore one
    builds with the other is a memory semaphore (a port semaphore) exactly if the
    other's [n]-th is, although neither tells the other what it builds. *)
Theorem semaphores_pair_up {M} `{Registrar M} (Er Ep : Env M) (j : jplan) (kr kp : DeviceExecutionPlanKey)
    (r p : nat) (pr pp : Plan) connsr connsp (wr wp wr' wp' : World M) chr chp
    sr vr br sp vp bp w0 w1 nvls0 nvls1 w2 w3 :
  let R := Z.of_nat r in let P := Z.of_nat p in
  NoDup (map jg_id (j_gpus j)) -> nranks Er = nranks Ep -> (r < nranks Er)%nat -> (p < nranks Er)%nat -> r <> p ->
  load_for j kr (Plan_create j R) = Ret pr -> load_for j kp (Plan_create j P) = Ret pp ->
  setupConnections Er R sr vr br pr w0 = Ret (connsr, nvls0, w1) ->
  setupConnections Ep P sp vp bp pp w2 = Ret (connsp, nvls1, w3) ->
  setupChannels Er connsr pr wr = Ret (chr, wr') -> setupChannels Ep connsp pp wp = Ret (chp, wp') ->
  count_calls (is_build P) wr = count_calls (is_build R) wp ->
  towards P (ch_memorySemaphores chr) = towards R (ch_memorySemaphores chp) /\
  towards P (drop (length (svc_semaphores wr)) (svc_semaphores wr')) =
  towards R (drop (length (svc_semaphores wp)) (svc_semaphores wp')) /\
  count_calls (is_build P) wr' = count_calls (is_build R) wp'.
Proof.
  intros R P Hd Hn Hr Hp Hrp Hlr Hlp Hcr Hcp Hsr Hsp Hbal.
  destruct (channels_built _ _ _ _ _ _ _ _ _ _ _ _ wr Hlr Hd Hcr) as (c1 & u1 & a1 & b1 & x1 & Q1 & A1 & B1 & S1 & C1 & _).
  destruct (channels_built _ _ _ _ _ _ _ _ _ _ _ _ wp Hlp Hd Hcp) as (c2 & u2 & a2 & b2 & x2 & Q2 & A2 & B2 & S2 & C2 & _).
  rewrite Q1 in Hsr. injection Hsr as <- <-. rewrite Q2 in Hsp. injection Hsp as <- <-.
  destruct (load_cfg _ _ _ _ Hlr) as (_ & _ & Hkr & _). destruct (load_cfg _ _ _ _ Hlp) as (_ & _ & Hkp & _).
  simpl in Hkr, Hkp.
  assert (Hlen : forall ct,
    length (filter (fun x => x = P) (declared_peers pr ct ++ added_peers Er pr ct)) =
    length (filter (fun x => x = R) (declared_peers pp ct ++ added_peers Ep pp ct))).
  { intros ct. destruct (load_channels _ _ _ _ Hlr) as (s & Es & I1 & I2 & _).
    destruct (load_channels _ _ _ _ Hlp) as (s' & Es' & I1' & I2' & _). rewrite Es in Es'. injection Es' as <-.
    destruct (load_recorded _ _ Es Hd) as [_ Hcnt]. rewrite <- I1, <- I2 in Hcnt.
    pose proof (counted_pair_up (tabs pr) (nranks Er) r p ct Hcnt Hr Hp Hrp) as Heq. cbv beta zeta in Heq. fold R P in Heq.
    rewrite !filter_app, !length_app, !declared_peers_of, !added_peers_of, Hkr, Hkp, <- Hn.
    assert (Hsame : getChannelInfos (tabs pp) P ct = getChannelInfos (tabs pr) P ct /\
      getUnpairedChannelInfos (tabs pp) P (nranks Er) ct = getUnpairedChannelInfos (tabs pr) P (nranks Er) ct).
    { unfold getChannelInfos, getUnpairedChannelInfos, unpaired_with, channel_count.
      by rewrite I1, I1', I2, I2'. }
    destruct Hsame as [-> ->]. rewrite !occ_length in Heq. lia. }
  split_and!.
  - by rewrite (bu_numbers _ _ _ _ A1), (bu_numbers _ _ _ _ A2), Hbal, Hlen.
  - rewrite S1, S2, !drop_app_length, (bu_numbers _ _ _ _ B1), (bu_numbers _ _ _ _ B2).
    by rewrite (bu_counts _ _ _ _ A1), (bu_counts _ _ _ _ A2), Hbal, !Hlen.
  - rewrite (calls_count _ _ _ C1), (calls_count _ _ _ C2), (bu_counts _ _ _ _ B1), (bu_counts _ _ _ _ B2).
    by rewrite (bu_counts _ _ _ _ A1), (bu_counts _ _ _ _ A2), Hbal, !Hlen.
Qed.

(** ** Witnesses *)

#[local] Instance demo_registrar' : Registrar Impl :=
  impl_registrar (fun _ => Ok demo_handle) (fun _ _ _ => Ok (mkIbMrInfo 0 0)) (mkProcess 1 1).

Definition plan_of (r : Z) : Plan :=
  match load_for demo_plan (64, 64, 0, 0) (Plan_create demo_plan r) with Ret p => p | _ => Plan_create demo_plan r end.
Definition demo_buffers : buffers := mkBuffers 1024 2048 4096 256 256 0.
Definition env0 : Env Impl := demo_env (fun _ _ => demo_impl).
Definition memories_of (E : Env Impl) (r : Z) : Z * list Impl * received :=
  match setupRegisteredMemories E demo_buffers r (plan_of r) demo_exec_world with
  | Ret x => x | _ => (0, [], mkReceived [] [] [] demo_exec_world)
  end.
Definition demo_sent : list Impl := sent_to 0 (calls (re_world (memories_of env0 1).2)).
(** Rank 0 receives what rank 1 sent, at an address of its own. *)
Definition demo_import (m : Impl) : Impl := set_data m 77.
Definition env1 : Env Impl := demo_env (fun _ k => demo_import (nth k demo_sent demo_impl)).

Lemma demo_ids : NoDup (map jg_id (j_gpus demo_plan)).
Proof. apply (bool_decide_unpack _). by vm_compute. Qed.

Lemma remote_buffers_exchanged_witness :
  exists m, registered env0 1 demo_buffers (mkBufferInfo 1 0 BInput [CMemory; CPort]) m /\
    at_ (re_addresses (memories_of env1 0).2) 0 = Ret 77 /\ memData (demo_import m) = 77.
Proof.
  destruct (remote_buffers_exchanged env0 env1 demo_plan (64, 64, 0, 0) (64, 64, 0, 0) 1 0 (plan_of 1) (plan_of 0)
    demo_buffers demo_buffers demo_exec_world demo_exec_world (memories_of env0 1).1.1 (memories_of env0 1).1.2
    (memories_of env0 1).2 (memories_of env1 0).1.1 (memories_of env1 0).1.2 (memories_of env1 0).2
    demo_import 0 (mkBufferInfo 1 0 BInput [CMemory; CPort]) CMemory demo_ids) as (m & Hm & Ha & _).
  all: try (vm_compute; reflexivity).
  - intros k m Hk. exact (f_equal demo_import (nth_lookup_Some demo_sent k demo_impl m Hk)).
  - by left.
  - exists m. split; [exact Hm|]. split; [vm_compute; reflexivity|done].
Defined.

Definition conns_of (r : Z) : gmap Z Conn * list (list Z * Z) * World Impl :=
  match setupConnections env0 r 256 256 0 (plan_of r) demo_exec_world with
  | Ret x => x | _ => (∅, [], demo_exec_world)
  end.

Lemma connections_mutual_witness :
  is_Some ((conns_of 0).1.1 !! 1) <-> is_Some ((conns_of 1).1.1 !! 0).
Proof.
  refine (proj1 (connections_mutual env0 env0 demo_plan (64, 64, 0, 0) (64, 64, 0, 0) 0 1 (plan_of 0) (plan_of 1)
    demo_exec_world demo_exec_world 256 256 0 256 256 0 _ (conns_of 0).1.2 (conns_of 0).2 _ (conns_of 1).1.2
    (conns_of 1).2 demo_ids eq_refl eq_refl _ _ _ _)); vm_compute; reflexivity.
Defined.

Definition channels_of (r : Z) : channels * World Impl :=
  match setupChannels env0 (conns_of r).1.1 (plan_of r) demo_exec_world with
  | Ret x => x | _ => (mkChannels [] [] [] [], demo_exec_world)
  end.

Lemma channels_reach_peers_witness :
  exists ch w', setupChannels env0 (conns_of 0).1.1 (plan_of 0) demo_exec_world = Ret (ch, w') /\
    map sm_peer (ch_memory ch) = [1].
Proof.
  destruct (channels_reach_peers env0 demo_plan (64, 64, 0, 0) 0 (plan_of 0) 256 256 0 demo_exec_world
    (conns_of 0).1.1 (conns_of 0).1.2 (conns_of 0).2 demo_exec_world demo_ids) as (ch & w' & H1 & H2 & _);
    [vm_compute; reflexivity|vm_compute; reflexivity|].
  exists ch, w'. split; [done|]. rewrite H2. by vm_compute.
Defined.

Lemma semaphores_pair_up_witness :
  towards 1 (ch_memorySemaphores (channels_of 0).1) = towards 0 (ch_memorySemaphores (channels_of 1).1) /\
  towards 1 (ch_memorySemaphores (channels_of 0).1) = [0%nat].
Proof.
  split; [|by vm_compute].
  refine (proj1 (semaphores_pair_up env0 env0 demo_plan (64, 64, 0, 0) (64, 64, 0, 0) 0 1 (plan_of 0) (plan_of 1)
    (conns_of 0).1.1 (conns_of 1).1.1 demo_exec_world demo_exec_world (channels_of 0).2 (channels_of 1).2 (channels_of 0).1
    (channels_of 1).1 256 256 0 256 256 0 demo_exec_world (conns_of 0).2 (conns_of 0).1.2 (conns_of 1).1.2
    demo_exec_world (conns_of 1).2 demo_ids _ _ _ _ _ _ _ _ _ _ _));
  first [by vm_compute; lia | vm_compute; reflexivity | simpl; lia].
Defined.
