(* ===== verification/Algorithm.v ===== *)
(** * Collective algorithms

    Models src/core/algorithm.cc (native algorithms with their cached contexts,
    algorithms that run an execution plan, collections with selectors),
    src/ext/nccl/algorithm_selector.cc and the selector of src/ext/nccl/nccl.cc (which
    algorithm serves a request), and the collections of
    src/ext/collectives/algorithm_collection_builder.cc.

    The kernels and the set-up functions of an algorithm are parameters: they act
    on a world of type [W].  The order in which an [unordered_map] is walked through is
    a parameter too. *)

From S2P Require Import Prelude Errors Core ExecutionPlan.
Local Open Scope Z_scope.

(** ** Data *)

Inductive DataType :=
  | INT32 | UINT32 | FLOAT16 | FLOAT32 | BFLOAT16 | FLOAT8_E4M3FN | FLOAT8_E4M3FNUZ | FLOAT8_E5M2
  | FLOAT8_E5M2FNUZ | UINT8 | FLOAT8_E4M3B15 | AUTO.
#[export] Instance DataType_eq_dec : EqDecision DataType.
Proof. solve_decision. Defined.

Inductive CollectiveBufferMode := Any | InPlace | OutOfPlace.
#[export] Instance CollectiveBufferMode_eq_dec : EqDecision CollectiveBufferMode.
Proof. solve_decision. Defined.

Inductive CommResult :=
  | CommSuccess | CommUnhandledCudaError | CommSystemError | CommInternalError | CommInvalidArgument
  | CommInvalidUsage | CommRemoteError | CommInProgress | CommNumResults.
#[export] Instance CommResult_eq_dec : EqDecision CommResult.
Proof. solve_decision. Defined.

Inductive ReduceOp := SUM | MIN | NOP.
#[export] Instance ReduceOp_eq_dec : EqDecision ReduceOp.
Proof. solve_decision. Defined.

Record Constraint := mkConstraint { worldSize : Z; nRanksPerNode : Z }.

Record CollectiveRequest := mkRequest {
  rq_worldSize : Z; rq_nRanksPerNode : Z; rq_rank : Z; inputBuffer : Z; outputBuffer : Z;
  messageSize : Z; rq_collective : string; rq_dtype : DataType; hints : gmap string (list Z)
}.

(** [CollectiveRequest::bufferMode]. *)
Definition request_bufferMode (r : CollectiveRequest) : CollectiveBufferMode :=
  if inputBuffer r =? outputBuffer r then InPlace
  else if String.eqb (rq_collective r) "allgather" then
    let rankOffset := u64 (u64 (rq_rank r) * messageSize r) in
    if u64 (outputBuffer r + rankOffset) =? inputBuffer r then InPlace else OutOfPlace
  else OutOfPlace.

Record AlgorithmCtxKey := mkCtxKey {
  baseSendBuff : Z; baseRecvBuff : Z; baseSendSize : Z; baseRecvSize : Z; tag : Z
}.
#[export] Instance AlgorithmCtxKey_eq_dec : EqDecision AlgorithmCtxKey.
Proof. solve_decision. Defined.
#[export] Instance AlgorithmCtxKey_countable : Countable AlgorithmCtxKey.
Proof.
  apply (inj_countable' (fun k => (baseSendBuff k, baseRecvBuff k, baseSendSize k, baseRecvSize k, tag k))
           (fun '(a, b, c, d, e) => mkCtxKey a b c d e)).
  by intros [].
Defined.

(** What a caller of [execute] passes. *)
Record exec_args := mkArgs {
  ea_input : Z; ea_output : Z; ea_inputSize : Z; ea_outputSize : Z; ea_dtype : DataType; ea_op : ReduceOp;
  ea_nBlocks : Z; ea_nThreadsPerBlock : Z; ea_symmetricMemory : bool; ea_accumDtype : DataType
}.

(** [if (accumDtype == DataType::AUTO) accumDtype = dtype]. *)
Definition resolve_accum (a : exec_args) : exec_args :=
  mkArgs (ea_input a) (ea_output a) (ea_inputSize a) (ea_outputSize a) (ea_dtype a) (ea_op a) (ea_nBlocks a)
    (ea_nThreadsPerBlock a) (ea_symmetricMemory a)
    (if decide (ea_accumDtype a = AUTO) then ea_dtype a else ea_accumDtype a).

(** ** Native algorithms *)

Section native.
Context {Ctx W : Type}.

(** The functions an algorithm is made of. *)
Record NativeFuncs := mkFuncs {
  initFunc : W -> result () * W;
  contextKeyGenFunc : exec_args -> AlgorithmCtxKey;
  contextInitFunc : exec_args -> W -> result Ctx * W;
  kernelLaunchFunc : Ctx -> exec_args -> W -> result CommResult * W
}.

Record NativeAlgorithm := mkNative {
  na_name : string; na_collective : string; minMessageSize_ : Z; maxMessageSize_ : Z;
  bufferMode_ : CollectiveBufferMode; constraint_ : Constraint;
  contexts_ : gmap AlgorithmCtxKey Ctx; initialized_ : bool
}.

(** The constructor. *)
Definition NativeAlgorithm_create (name collective : string) (minSize maxSize : Z) (mode : CollectiveBufferMode)
    (c : Constraint) : NativeAlgorithm := mkNative name collective minSize maxSize mode c ∅ false.

Definition set_contexts (n : NativeAlgorithm) (m : gmap AlgorithmCtxKey Ctx) : NativeAlgorithm :=
  mkNative (na_name n) (na_collective n) (minMessageSize_ n) (maxMessageSize_ n) (bufferMode_ n) (constraint_ n) m
    (initialized_ n).
Definition set_initialized (n : NativeAlgorithm) : NativeAlgorithm :=
  mkNative (na_name n) (na_collective n) (minMessageSize_ n) (maxMessageSize_ n) (bufferMode_ n) (constraint_ n)
    (contexts_ n) true.
Definition setMessageSizeRange (lo hi : Z) (n : NativeAlgorithm) : NativeAlgorithm :=
  mkNative (na_name n) (na_collective n) lo hi (bufferMode_ n) (constraint_ n) (contexts_ n) (initialized_ n).
Definition native_reset (n : NativeAlgorithm) : NativeAlgorithm := set_contexts n ∅.

(** Calls out of the algorithm, and its resets, for the record. *)
Inductive event :=
  | EvInit (ok : bool) | EvContext (a : exec_args) (c : Ctx) | EvContextFails (a : exec_args)
  | EvLaunch (c : Ctx) (a : exec_args) | EvReset.

Context (F : NativeFuncs).

(** [if (!initialized_) { initFunc_(comm); initialized_ = true; }] *)
Definition ensure_initialized (n : NativeAlgorithm) (w : W) : result () * NativeAlgorithm * W * list event :=
  if initialized_ n then (Ok tt, n, w, [])
  else
    let '(r, w) := initFunc F w in
    match r with
    | Ok _ => (Ok tt, set_initialized n, w, [EvInit true])
    | Throw e => (Throw e, n, w, [EvInit false])
    end.

Definition ensure_context (key : AlgorithmCtxKey) (a : exec_args) (n : NativeAlgorithm) (w : W)
    : result Ctx * NativeAlgorithm * W * list event :=
  match contexts_ n !! key with
  | Some c => (Ok c, n, w, [])
  | None =>
      let '(r, w) := contextInitFunc F a w in
      match r with
      | Ok c => (Ok c, set_contexts n (<[key := c]> (contexts_ n)), w, [EvContext a c])
      | Throw e => (Throw e, n, w, [EvContextFails a])
      end
  end.

Definition native_execute (a : exec_args) (n : NativeAlgorithm) (w : W)
    : result CommResult * NativeAlgorithm * W * list event :=
  let a := resolve_accum a in
  let '(r, n, w, t1) := ensure_initialized n w in
  match r with
  | Throw e => (Throw e, n, w, t1)
  | Ok _ =>
      let key := contextKeyGenFunc F a in
      let '(r, n, w, t2) := ensure_context key a n w in
      match r with
      | Throw e => (Throw e, n, w, t1 ++ t2)
      | Ok c => let '(r, w) := kernelLaunchFunc F c a w in (r, n, w, t1 ++ t2 ++ [EvLaunch c a])
      end
  end.
End native.
Arguments NativeAlgorithm Ctx : clear implicits.
Arguments event Ctx : clear implicits.
Arguments NativeFuncs Ctx W : clear implicits.

(** ** Algorithms that run a plan *)

Record DslAlgorithm := mkDsl { dsl_id : string; plan_ : Plan; dsl_constraint : Constraint }.

Definition dsl_messageRange (d : DslAlgorithm) : Z * Z := (minMessageSize (cfg (plan_ d)), maxMessageSize (cfg (plan_ d))).

(** [DslAlgorithm::bufferMode]: a static variable of the function, which the first call
    in the process sets for all algorithms. *)
Definition dsl_bufferMode (d : DslAlgorithm) (mode : option CollectiveBufferMode)
    : CollectiveBufferMode * option CollectiveBufferMode :=
  match mode with
  | Some m => (m, mode)
  | None => let m := if isInPlace (cfg (plan_ d)) then InPlace else OutOfPlace in (m, Some m)
  end.

(** What the platform's compiler defines. *)
Record Platform := mkPlatform {
  fp8_types_exist : bool; fp8_e4m3_is_fnuz : bool; fp8_e5m2_is_fnuz : bool;
  hip_platform : bool;                       (* __HIP_PLATFORM_AMD__ *)
  arch_specific : bool                       (* __CUDA_ARCH_SPECIFIC__ or __CUDA_ARCH_FAMILY_SPECIFIC__ *)
}.

Definition Usage : exn := EError InvalidUsage.

(** [DslAlgorithm::execute]: [executor] is the call on the executor, with the data type
    it is made for, if there is an executor.  The reduction operation is not passed on. *)
Definition dsl_execute (P : Platform) (executor : option (DataType -> result ())) (a : exec_args) : result CommResult :=
  match executor with
  | None => Throw Usage
  | Some execute =>
      let run := fun d => _ ← execute d; Ok CommSuccess in
      let unsupported := Ok CommInvalidArgument in
      match ea_dtype a with
      | FLOAT16 => run FLOAT16
      | FLOAT32 => run FLOAT32
      | BFLOAT16 => run BFLOAT16
      | FLOAT8_E4M3FN => if fp8_types_exist P then (if fp8_e4m3_is_fnuz P then Throw Usage else run FLOAT8_E4M3FN) else unsupported
      | FLOAT8_E4M3FNUZ => if fp8_types_exist P then (if fp8_e4m3_is_fnuz P then run FLOAT8_E4M3FNUZ else Throw Usage) else unsupported
      | FLOAT8_E5M2 => if fp8_types_exist P then (if fp8_e5m2_is_fnuz P then Throw Usage else run FLOAT8_E5M2) else unsupported
      | FLOAT8_E5M2FNUZ => if fp8_types_exist P then (if fp8_e5m2_is_fnuz P then run FLOAT8_E5M2FNUZ else Throw Usage) else unsupported
      | FLOAT8_E4M3B15 => run FLOAT8_E4M3B15
      | INT32 | UINT32 => run UINT32
      | UINT8 | AUTO => unsupported
      end
  end.

(** ** Collections *)

Section collection.
Context {A : Type}.
Notation algo_maps := (gmap string (gmap string A)).

Definition AlgoSelectFunc : Type := algo_maps -> CollectiveRequest -> result (option A).

Record AlgorithmCollection := mkCollection {
  algoMapByCollective_ : algo_maps;
  algoSelector_ : option AlgoSelectFunc; fallbackAlgoSelector_ : option AlgoSelectFunc
}.

Definition empty_collection : AlgorithmCollection := mkCollection ∅ None None.

Definition registerAlgorithm (collective algoName : string) (algorithm : A) (c : AlgorithmCollection) : AlgorithmCollection :=
  mkCollection (<[collective := <[algoName := algorithm]> (default ∅ (algoMapByCollective_ c !! collective))]>
                  (algoMapByCollective_ c))
    (algoSelector_ c) (fallbackAlgoSelector_ c).

Definition setSelectors (s f : option AlgoSelectFunc) (c : AlgorithmCollection) : AlgorithmCollection :=
  mkCollection (algoMapByCollective_ c) s f.

(** Calling an empty [std::function] throws [bad_function_call]. *)
Definition selectAlgorithm (c : AlgorithmCollection) (r : CollectiveRequest) : result (option A) :=
  match algoSelector_ c, fallbackAlgoSelector_ c with
  | None, None => Throw Usage
  | _, _ =>
      algo ← (match algoSelector_ c with Some s => s (algoMapByCollective_ c) r | None => Ok None end);
      match algo with
      | Some _ => Ok algo
      | None => match fallbackAlgoSelector_ c with Some f => f (algoMapByCollective_ c) r | None => Throw EStd end
      end
  end.

(** The entries of a collection, in the order of [map_to_list]. *)
Definition entries (c : AlgorithmCollection) : list (string * string * A) :=
  '(coll, m) ← map_to_list (algoMapByCollective_ c); '(name, a) ← map_to_list m; [(coll, name, a)].

(** [extend], given the order in which the other collection is walked through. *)
Definition register_all (l : list (string * string * A)) (c : AlgorithmCollection) : AlgorithmCollection :=
  foldl (fun c '(coll, name, a) => registerAlgorithm coll name a c) c l.
Definition extend (c other : AlgorithmCollection) : AlgorithmCollection := register_all (entries other) c.

Definition getAllAlgorithms (c : AlgorithmCollection) : list A := map snd (entries c).
Definition getAlgorithmsByCollective (c : AlgorithmCollection) (collective : string) : gmap string A :=
  default ∅ (algoMapByCollective_ c !! collective).

(** What the selectors ask an algorithm. *)
Definition find_algo (c : AlgorithmCollection) (coll name : string) : option A :=
  m ← algoMapByCollective_ c !! coll; m !! name.
End collection.
Arguments AlgorithmCollection A : clear implicits.
Arguments AlgoSelectFunc A : clear implicits.

(** *** The builder *)

(** A builder makes an algorithm, with the collective and the name it reports. *)
Record AlgorithmBuilder (A : Type) := mkBuilder { build_collective : string; build_name : string; build_algo : A }.
Arguments mkBuilder {A}. Arguments build_collective {A}. Arguments build_name {A}. Arguments build_algo {A}.

Record AlgorithmCollectionBuilder (A : Type) := mkCB {
  algoBuilders_ : list (AlgorithmBuilder A);
  cb_selector : option (AlgoSelectFunc A); cb_fallback : option (AlgoSelectFunc A)
}.
Arguments mkCB {A}. Arguments algoBuilders_ {A}. Arguments cb_selector {A}. Arguments cb_fallback {A}.

Section builder.
Context {A : Type}.

Definition addAlgorithmBuilder (b : AlgorithmBuilder A) (cb : AlgorithmCollectionBuilder A) : AlgorithmCollectionBuilder A :=
  mkCB (algoBuilders_ cb ++ [b]) (cb_selector cb) (cb_fallback cb).
Definition setAlgorithmSelector (s : option (AlgoSelectFunc A)) (cb : AlgorithmCollectionBuilder A) : AlgorithmCollectionBuilder A :=
  mkCB (algoBuilders_ cb) s (cb_fallback cb).
Definition setFallbackAlgorithmSelector (s : option (AlgoSelectFunc A)) (cb : AlgorithmCollectionBuilder A) : AlgorithmCollectionBuilder A :=
  mkCB (algoBuilders_ cb) (cb_selector cb) s.

Definition register_builder (c : AlgorithmCollection A) (b : AlgorithmBuilder A) : AlgorithmCollection A :=
  registerAlgorithm (build_collective b) (build_name b) (build_algo b) c.

Definition cb_build (cb : AlgorithmCollectionBuilder A) : AlgorithmCollection A :=
  setSelectors (cb_selector cb) (cb_fallback cb) (foldl register_builder empty_collection (algoBuilders_ cb)).

(** [buildDefaultNativeAlgorithms]: [native name] is the algorithm the source makes under
    this name. *)
Definition default_native_names : list (string * string) :=
  [("allreduce", "default_allreduce_allpair_packet"); ("allreduce", "default_allreduce_nvls_packet");
   ("allreduce", "default_allreduce_nvls_warp_pipeline"); ("allreduce", "default_allreduce_nvls_block_pipeline");
   ("allreduce", "default_allreduce_packet"); ("allreduce", "default_allreduce_nvls_zero_copy");
   ("allreduce", "default_allreduce_fullmesh"); ("allreduce", "default_allreduce_rsag");
   ("allreduce", "default_allreduce_rsag_pipeline"); ("allreduce", "default_allreduce_rsag_zero_copy");
   ("allgather", "default_allgather_fullmesh"); ("allgather", "default_allgather_fullmesh2")]%string.
Definition buildDefaultNativeAlgorithms (native : string -> A) : AlgorithmCollection A :=
  foldl (fun c '(coll, name) => registerAlgorithm coll name (native name) c) empty_collection default_native_names.

(** [buildDefaultDslAlgorithms]: the plans that are there and load become builders of the
    process's collection builder; the collection it returns is empty. *)
Definition buildDefaultDslAlgorithms (loaded : list (AlgorithmBuilder A)) (cb : AlgorithmCollectionBuilder A)
    : AlgorithmCollection A * AlgorithmCollectionBuilder A :=
  (empty_collection, foldl (fun cb b => addAlgorithmBuilder b cb) cb loaded).

Definition buildDefaultAlgorithms (native : string -> A) (loaded : list (AlgorithmBuilder A)) (cb : AlgorithmCollectionBuilder A)
    : AlgorithmCollection A * AlgorithmCollectionBuilder A :=
  let nativeCollection := buildDefaultNativeAlgorithms native in
  let '(dslCollection, cb) := buildDefaultDslAlgorithms loaded cb in
  (setSelectors (cb_selector cb) (cb_fallback cb) (extend nativeCollection dslCollection), cb).
End builder.

(** ** Selection *)

Record AlgorithmSelectorConfig := mkSelConfig {
  symmetricMemory : bool; nvlsSupported : bool; isCuMemMapAllocated : bool; inCaptureMode : bool;
  computeCapability : Z * Z; ncclDlopenSharedLib : bool
}.

Section selection.
Context (P : Platform).

Definition isNvlsSupportedForDataType (config : AlgorithmSelectorConfig) (dtype : DataType) : bool :=
  match dtype with
  | UINT8 | FLOAT8_E4M3B15 => false
  | FLOAT8_E4M3FN | FLOAT8_E4M3FNUZ | FLOAT8_E5M2 | FLOAT8_E5M2FNUZ =>
      if hip_platform P then nvlsSupported config
      else if (computeCapability config).1 <? 10 then false
      else arch_specific P
  | _ => nvlsSupported config
  end.

(** [matchExecutionPlan], with the static variable of [bufferMode]. *)
Definition matchExecutionPlan (d : DslAlgorithm) (r : CollectiveRequest) (mode : option CollectiveBufferMode)
    : bool * option CollectiveBufferMode :=
  let worldSizeMatch := worldSize (dsl_constraint d) =? rq_worldSize r in
  let ranksPerNodeMatch := nRanksPerNode (dsl_constraint d) =? rq_nRanksPerNode r in
  let collectiveMatch := String.eqb (collective (cfg (plan_ d))) (rq_collective r) in
  let '(m, mode) := dsl_bufferMode d mode in
  let bufferModeMatch := bool_decide (m = Any) || bool_decide (request_bufferMode r = m) in
  let effectiveSize :=
    if String.eqb (rq_collective r) "allgather" then u64 (messageSize r * u64 (rq_worldSize r)) else messageSize r in
  let minSizeMatch := (dsl_messageRange d).1 <=? effectiveSize in
  let maxSizeMatch := effectiveSize <=? (dsl_messageRange d).2 in
  (worldSizeMatch && ranksPerNodeMatch && collectiveMatch && bufferModeMatch && minSizeMatch && maxSizeMatch, mode).

Context {A : Type} (as_dsl : A -> option DslAlgorithm).   (* [type() == DSL], and the downcast *)

(** [algoMap.at(name)]. *)
Definition at_name (algoMap : gmap string A) (name : string) : result (option A) :=
  match algoMap !! name with Some a => Ok (Some a) | None => Throw EStd end.

Definition selectSingleNodeAllreduceBlackwell (algoMap : gmap string A) (r : CollectiveRequest)
    (config : AlgorithmSelectorConfig) : result (option A) :=
  let size := messageSize r in
  let nvls := isNvlsSupportedForDataType config (rq_dtype r) in
  if size <=? 2 ^ 15 then at_name algoMap "default_allreduce_nvls_packet" else
  if negb (symmetricMemory config) then
    if size <=? 2 ^ 21 then at_name algoMap "default_allreduce_packet" else
    if inCaptureMode config then at_name algoMap "default_allreduce_rsag_zero_copy" else
    if size <=? 2 ^ 23 then at_name algoMap "default_allreduce_rsag" else
    at_name algoMap "default_allreduce_rsag_pipeline"
  else
    let useNvlsWithZeroCopy := nvls && isCuMemMapAllocated config in
    if (size <=? 2 ^ 16) || ((size <=? 2 ^ 20) && negb useNvlsWithZeroCopy) then at_name algoMap "default_allreduce_packet" else
    if useNvlsWithZeroCopy then at_name algoMap "default_allreduce_nvls_zero_copy" else
    at_name algoMap "default_allreduce_rsag_zero_copy".

Definition selectSingleNodeAllreduce (algoMap : gmap string A) (r : CollectiveRequest)
    (config : AlgorithmSelectorConfig) : result (option A) :=
  if (computeCapability config).1 =? 10 then selectSingleNodeAllreduceBlackwell algoMap r config else
  let size := messageSize r in
  let nvls := isNvlsSupportedForDataType config (rq_dtype r) in
  let useNvlsWithZeroCopy := nvls && symmetricMemory config && isCuMemMapAllocated config in
  if size <=? 2 ^ 14 then at_name algoMap "default_allreduce_allpair_packet" else
  if (size <=? 2 ^ 15) && nvls then at_name algoMap "default_allreduce_nvls_packet" else
  if (size <=? 2 ^ 16) || ((size <=? 2 ^ 20) && negb useNvlsWithZeroCopy) then at_name algoMap "default_allreduce_packet" else
  if nvls && useNvlsWithZeroCopy then at_name algoMap "default_allreduce_nvls_zero_copy" else
  if nvls then
    if size <? 2 ^ 24 then at_name algoMap "default_allreduce_nvls_warp_pipeline"
    else at_name algoMap "default_allreduce_nvls_block_pipeline"
  else if hip_platform P then at_name algoMap "default_allreduce_fullmesh"
  else if negb (ncclDlopenSharedLib config) then at_name algoMap "default_allreduce_fullmesh"
  else Ok None.

Definition selectSingleNodeAllgather (algoMap : gmap string A) (r : CollectiveRequest)
    (config : AlgorithmSelectorConfig) : result (option A) :=
  if messageSize r <=? 32 * 2 ^ 20 then at_name algoMap "default_allgather_fullmesh2" else
  if hip_platform P then at_name algoMap "default_allgather_fullmesh2"
  else if negb (ncclDlopenSharedLib config) then at_name algoMap "default_allgather_fullmesh"
  else Ok None.

Definition selectMultiNodeAlgorithm (algoMap : gmap string A) (r : CollectiveRequest)
    (config : AlgorithmSelectorConfig) : result (option A) := Ok None.

(** The loop over the algorithms of the collective, in the order of the map. *)
Fixpoint first_plan (l : list A) (r : CollectiveRequest) (mode : option CollectiveBufferMode)
    : option A * option CollectiveBufferMode :=
  match l with
  | [] => (None, mode)
  | a :: l' =>
      match as_dsl a with
      | Some d =>
          let '(b, mode) := matchExecutionPlan d r mode in
          if b then (Some a, mode) else first_plan l' r mode
      | None => first_plan l' r mode
      end
  end.

(** [algoSelector] of nccl.cc; [order] is how the map is walked through. *)
Definition algoSelector (order : gmap string A -> list A) (config : AlgorithmSelectorConfig)
    (m : gmap string (gmap string A)) (r : CollectiveRequest) (mode : option CollectiveBufferMode)
    : result (option A) * option CollectiveBufferMode :=
  match m !! rq_collective r with
  | None => (Ok None, mode)
  | Some algoMap =>
      let '(a, mode) := first_plan (order algoMap) r mode in
      match a with
      | Some a => (Ok (Some a), mode)
      | None =>
          if negb (rq_nRanksPerNode r =? rq_worldSize r) then (selectMultiNodeAlgorithm algoMap r config, mode)
          else if String.eqb (rq_collective r) "allgather" then (selectSingleNodeAllgather algoMap r config, mode)
          else if String.eqb (rq_collective r) "allreduce" then (selectSingleNodeAllreduce algoMap r config, mode)
          else (Ok None, mode)
      end
  end.
End selection.

(** ** Lemmas: collections *)

Section collection_lemmas.
Context {A : Type}.
Implicit Types c : AlgorithmCollection A.

Lemma find_register coll name a c coll' name' :
  find_algo (registerAlgorithm coll name a c) coll' name' =
    if bool_decide (coll' = coll /\ name' = name) then Some a else find_algo c coll' name'.
Proof.
  unfold find_algo, registerAlgorithm. cbn [algoMapByCollective_]. destruct (decide (coll' = coll)) as [->|Hc].
  - rewrite lookup_insert_eq. cbn. destruct (decide (name' = name)) as [->|Hn].
    + by rewrite lookup_insert_eq, bool_decide_eq_true_2.
    + rewrite lookup_insert_ne by done. rewrite bool_decide_eq_false_2 by naive_solver.
      destruct (algoMapByCollective_ c !! coll); [done|]. simpl. by rewrite lookup_empty.
  - rewrite lookup_insert_ne by done. by rewrite bool_decide_eq_false_2 by naive_solver.
Qed.

(** The last entry of a name counts. *)
Lemma find_register_all l c coll name :
  NoDup (map fst l) ->
  find_algo (register_all l c) coll name =
    match list_to_map (M := gmap (string * string) A) l !! (coll, name) with Some a => Some a | None => find_algo c coll name end.
Proof.
  unfold register_all. revert c. induction l as [|[[k n] a] l IH]; intros c Hn; simpl; [by rewrite lookup_empty|].
  apply NoDup_cons in Hn as [Hk Hn]. rewrite IH by done. rewrite find_register.
  destruct (decide ((coll, name) = (k, n))) as [[= -> ->]|Hne].
  - rewrite lookup_insert_eq, bool_decide_eq_true_2 by done.
    by rewrite not_elem_of_list_to_map_1.
  - rewrite lookup_insert_ne by done. destruct (list_to_map l !! (coll, name)); [done|].
    by rewrite bool_decide_eq_false_2 by naive_solver.
Qed.

Lemma entries_elem c coll name a : (coll, name, a) ∈ entries c <-> find_algo c coll name = Some a.
Proof.
  unfold entries, find_algo. rewrite list_elem_of_bind. split.
  - intros ([k m] & Hin & Hm). apply elem_of_map_to_list in Hm. apply list_elem_of_bind in Hin as ([n b] & Hin & Hb).
    apply elem_of_map_to_list in Hb. apply list_elem_of_singleton in Hin as [= -> -> ->]. by rewrite Hm.
  - destruct (algoMapByCollective_ c !! coll) as [m|] eqn:Em; [|done]. cbn. intros Hn. exists (coll, m).
    split; [|by apply elem_of_map_to_list]. apply list_elem_of_bind. exists (name, a).
    split; [by apply list_elem_of_singleton|by apply elem_of_map_to_list].
Qed.
End collection_lemmas.

Lemma entries_nodup {A} (c : AlgorithmCollection A) : NoDup (map fst (entries c)).
Proof.
  unfold entries. pose proof (NoDup_fst_map_to_list (algoMapByCollective_ c)) as Hn. revert Hn.
  generalize (map_to_list (algoMapByCollective_ c)). intros l. induction l as [|[k m] l IH]; intros Hn; [constructor|].
  simpl in Hn. apply NoDup_cons in Hn as [Hk Hn]. simpl. rewrite map_app. apply NoDup_app. split_and!.
  - pose proof (NoDup_fst_map_to_list m) as Hm. revert Hm. generalize (map_to_list m). intros l'.
    induction l' as [|[n a] l' IH']; intros Hm; [constructor|]. simpl in Hm. apply NoDup_cons in Hm as [Hnn Hm]. simpl.
    constructor; [|by apply IH']. rewrite list_elem_of_fmap. intros ([[k' n'] b] & [= <- <-] & Hin). apply Hnn.
    apply list_elem_of_bind in Hin as ([n2 b2] & Hin & Hm2). apply list_elem_of_singleton in Hin as [= <- <-].
    apply list_elem_of_fmap. by exists (n, b).
  - intros [k' n'] Hin Hin'. apply list_elem_of_fmap in Hin as ([[? ?] b] & [= <- <-] & Hin).
    apply list_elem_of_bind in Hin as ([n2 b2] & Hin & _). apply list_elem_of_singleton in Hin as [= -> -> ->].
    apply list_elem_of_fmap in Hin' as ([[? ?] b'] & [= <- <-] & Hin'). apply Hk.
    apply list_elem_of_bind in Hin' as ([k3 m3] & Hin' & Hl). apply list_elem_of_bind in Hin' as ([n4 b4] & Hin' & _).
    apply list_elem_of_singleton in Hin' as [= -> -> ->]. apply list_elem_of_fmap. by exists (k3, m3).
  - by apply IH.
Qed.

(** Merging in any order of the other collection's entries. *)
Lemma find_extend {A} (c other : AlgorithmCollection A) (l : list (string * string * A)) coll name :
  l ≡ₚ entries other ->
  find_algo (register_all l c) coll name =
    match find_algo other coll name with Some a => Some a | None => find_algo c coll name end.
Proof.
  intros Hl. assert (Hn : NoDup (map fst l)) by (rewrite Hl; apply entries_nodup).
  rewrite find_register_all by done. destruct (find_algo other coll name) as [a|] eqn:E.
  - apply entries_elem in E. rewrite <- Hl in E. by rewrite (elem_of_list_to_map_1 _ _ a Hn E).
  - destruct (list_to_map l !! (coll, name)) as [b|] eqn:El; [|done].
    apply elem_of_list_to_map_2 in El. rewrite Hl in El. apply entries_elem in El. by rewrite E in El.
Qed.

(** ** Lemmas: native algorithms *)

Section native_lemmas.
Context {Ctx W : Type} (F : NativeFuncs Ctx W).

(** What a user does with an algorithm. *)
Inductive native_op := OpExecute (a : exec_args) | OpReset | OpRange (lo hi : Z).

Definition native_step (o : native_op) (n : NativeAlgorithm Ctx) (w : W) : NativeAlgorithm Ctx * W * list (event Ctx) :=
  match o with
  | OpExecute a => let '(_, n, w, t) := native_execute F a n w in (n, w, t)
  | OpReset => (native_reset n, w, [EvReset])
  | OpRange lo hi => (setMessageSizeRange lo hi n, w, [])
  end.

Fixpoint native_run (ops : list native_op) (n : NativeAlgorithm Ctx) (w : W) : NativeAlgorithm Ctx * W * list (event Ctx) :=
  match ops with
  | [] => (n, w, [])
  | o :: ops => let '(n, w, t) := native_step o n w in let '(n, w, t') := native_run ops n w in (n, w, t ++ t')
  end.

(** A proper order of calls: the initialisation succeeds once and before everything
    else; a context is made only when there is none for its key; a kernel gets the
    context of its own key, the last one made since a reset. *)
Fixpoint proper (live : gmap AlgorithmCtxKey Ctx) (init : bool) (t : list (event Ctx)) : Prop :=
  match t with
  | [] => True
  | EvInit ok :: t => init = false /\ proper live ok t
  | EvContext a c :: t =>
      init = true /\ live !! contextKeyGenFunc F a = None /\ proper (<[contextKeyGenFunc F a := c]> live) init t
  | EvContextFails a :: t => init = true /\ live !! contextKeyGenFunc F a = None /\ proper live init t
  | EvLaunch c a :: t => init = true /\ live !! contextKeyGenFunc F a = Some c /\ proper live init t
  | EvReset :: t => proper ∅ init t
  end.

Lemma native_step_proper o n w n' w' t t' :
  native_step o n w = (n', w', t) -> proper (contexts_ n') (initialized_ n') t' ->
  proper (contexts_ n) (initialized_ n) (t ++ t').
Proof.
  destruct o as [a| |lo hi]; simpl; [|by intros [= <- <- <-]|by intros [= <- <- <-]].
  unfold native_execute, ensure_initialized. generalize (resolve_accum a). clear a. intros a.
  destruct (initialized_ n) eqn:Ei.
  - unfold ensure_context. destruct (contexts_ n !! _) as [c|] eqn:Ec.
    + destruct (kernelLaunchFunc F c a w) as [r w1]. intros [= <- <- <-] Hp. simpl. by rewrite Ei in Hp.
    + destruct (contextInitFunc F a w) as [[c|e] w1].
      * destruct (kernelLaunchFunc F c a w1) as [r w2]. intros [= <- <- <-] Hp. simpl in *.
        rewrite Ei in Hp. by rewrite lookup_insert_eq.
      * intros [= <- <- <-] Hp. simpl. by rewrite Ei in Hp.
  - destruct (initFunc F w) as [[[]|e] w1]; [|intros [= <- <- <-] Hp; simpl; by rewrite Ei in Hp].
    unfold ensure_context. cbn [contexts_ set_initialized]. destruct (contexts_ n !! _) as [c|] eqn:Ec.
    + destruct (kernelLaunchFunc F c a w1) as [r w2]. by intros [= <- <- <-] Hp.
    + destruct (contextInitFunc F a w1) as [[c|e] w2].
      * destruct (kernelLaunchFunc F c a w2) as [r w3]. intros [= <- <- <-] Hp. simpl in *. by rewrite lookup_insert_eq.
      * by intros [= <- <- <-] Hp.
Qed.
Lemma ensure_context_live a n w r n' w' t :
  ensure_context F (contextKeyGenFunc F a) a n w = (Ok r, n', w', t) -> contexts_ n' !! contextKeyGenFunc F a = Some r.
Proof.
  unfold ensure_context. destruct (contexts_ n !! _) as [c|] eqn:Ec; [by intros [= <- <- <- <-]|].
  destruct (contextInitFunc F a w) as [[c|e] w2]; intros [= <- <- <- <-]. simpl. by rewrite lookup_insert_eq.
Qed.

Lemma native_execute_launches a n w r n' w' t :
  native_execute F a n w = (Ok r, n', w', t) ->
  exists t1 ctx, t = t1 ++ [EvLaunch ctx (resolve_accum a)] /\ contexts_ n' !! contextKeyGenFunc F (resolve_accum a) = Some ctx.
Proof.
  unfold native_execute. generalize (resolve_accum a). clear a. intros a.
  destruct (ensure_initialized F n w) as [[[[[]|e] n1] w1] t1]; [|done].
  destruct (ensure_context F _ a n1 w1) as [[[[c|e] n2] w2] t2] eqn:Ec; [|done].
  destruct (kernelLaunchFunc F c a w2) as [r3 w3]. intros [= _ <- _ <-]. apply ensure_context_live in Ec.
  exists (t1 ++ t2), c. by rewrite <- app_assoc.
Qed.
End native_lemmas.

(** ** Properties *)

(** a native algorithm, whatever is executed and however often it is reset, and
    whatever its functions do, calls its initialisation until it has succeeded once,
    before anything else; makes a context exactly when it has none for the key; and
    launches every kernel with the live context of the kernel's own key.  Every
    execution that returns a result has launched its kernel, as the last call. *)
Theorem native_context_cache {Ctx W} (F : NativeFuncs Ctx W) (name coll : string) (lo hi : Z)
    (mode : CollectiveBufferMode) (c : Constraint) (ops : list native_op) (w : W) :
  let '(n, w', t) := native_run F ops (NativeAlgorithm_create name coll lo hi mode c) w in
  proper F ∅ false t /\
  forall a r n' w'' t', native_execute F a n w' = (Ok r, n', w'', t') ->
    exists t1 ctx, t' = t1 ++ [EvLaunch ctx (resolve_accum a)] /\ contexts_ n' !! contextKeyGenFunc F (resolve_accum a) = Some ctx.
Proof.
  destruct (native_run F ops _ w) as [[n w'] t] eqn:E. split.
  - change (∅ : gmap AlgorithmCtxKey Ctx) with (contexts_ (NativeAlgorithm_create (Ctx := Ctx) name coll lo hi mode c)).
    change false with (initialized_ (NativeAlgorithm_create (Ctx := Ctx) name coll lo hi mode c)).
    revert E. generalize (NativeAlgorithm_create (Ctx := Ctx) name coll lo hi mode c). clear. intros n0 E.
    revert n0 w t E. induction ops as [|o ops IH]; intros n0 w t E; [by injection E as <- <- <-|]. simpl in E.
    destruct (native_step F o n0 w) as [[n1 w1] t1] eqn:E1. destruct (native_run F ops n1 w1) as [[n2 w2] t2] eqn:E2.
    injection E as <- <- <-. eapply native_step_proper; [exact E1|]. by eapply IH.
  - intros a r n' w'' t'. apply native_execute_launches.
Qed.

(** merging collections: after [extend], in whatever order the other collection is
    walked through, an algorithm is found under a collective and a name exactly if the
    other collection has it, and otherwise what was there before is found; nothing is
    lost, and the selectors stay. *)
Theorem extend_overrides {A} (c other : AlgorithmCollection A) (l : list (string * string * A)) :
  l ≡ₚ entries other ->
  (forall coll name, find_algo (register_all l c) coll name =
     match find_algo other coll name with Some a => Some a | None => find_algo c coll name end) /\
  (forall coll name a, (coll, name, a) ∈ entries (register_all l c) <->
     (coll, name, a) ∈ entries other \/ (find_algo other coll name = None /\ (coll, name, a) ∈ entries c)) /\
  algoSelector_ (register_all l c) = algoSelector_ c /\ fallbackAlgoSelector_ (register_all l c) = fallbackAlgoSelector_ c.
Proof.
  intros Hl. split; [intros; by apply find_extend|]. split.
  - intros coll name a. rewrite !entries_elem, (find_extend _ other) by done. destruct (find_algo other coll name) as [b|]; naive_solver.
  - clear Hl. revert c. induction l as [|[[k n] a] l IH]; intros c; [done|]. exact (IH (registerAlgorithm k n a c)).
Qed.

(** The collection of a communicator (ncclCommInitRank): the default algorithms, and
    on top of them what the builder holds. *)
Definition comm_collection {A} (native : string -> A) (loaded : list (AlgorithmBuilder A)) (cb : AlgorithmCollectionBuilder A)
    : AlgorithmCollection A :=
  let '(c, cb) := buildDefaultAlgorithms native loaded cb in extend c (cb_build cb).

(** All the algorithms a selector names are there. *)
Definition has_defaults {A} (c : AlgorithmCollection A) : Prop :=
  forall coll name, (coll, name) ∈ default_native_names -> is_Some (find_algo c coll name).

Lemma has_defaults_extend {A} (c other : AlgorithmCollection A) : has_defaults c -> has_defaults (extend c other).
Proof.
  intros Hd coll name Hin. unfold extend. rewrite (find_extend _ other) by done.
  destruct (find_algo other coll name); [done|by apply Hd].
Qed.

(** Membership in the table, by computation. *)
Lemma default_name coll name :
  existsb (fun '(c, n) => String.eqb c coll && String.eqb n name) default_native_names = true ->
  (coll, name) ∈ default_native_names.
Proof.
  intros Hn. apply existsb_exists in Hn as ([c n] & Hin & Hb).
  apply andb_true_iff in Hb as [->%String.eqb_eq ->%String.eqb_eq]. by apply list_elem_of_In.
Qed.

Lemma native_defaults {A} (native : string -> A) : has_defaults (buildDefaultNativeAlgorithms native).
Proof.
  intros coll name Hin. unfold buildDefaultNativeAlgorithms.
  assert (Hor : (coll, name) ∈ default_native_names \/ is_Some (find_algo (empty_collection (A := A)) coll name)) by by left.
  revert Hor. clear Hin. generalize (empty_collection (A := A)). induction default_native_names as [|[k n] l IH]; intros c Hor; simpl.
  { destruct Hor as [Hor|]; [by apply not_elem_of_nil in Hor|done]. }
  apply IH. rewrite elem_of_cons in Hor. rewrite find_register. case_bool_decide as Hb; [by right; eexists|].
  destruct Hor as [[[= -> ->]|Hor]|Hor]; [|by left|by right]. by destruct Hb.
Qed.

Lemma has_defaults_set {A} (c : AlgorithmCollection A) s f : has_defaults c -> has_defaults (setSelectors s f c).
Proof. done. Qed.

Lemma comm_collection_defaults {A} (native : string -> A) loaded cb : has_defaults (comm_collection native loaded cb).
Proof.
  unfold comm_collection, buildDefaultAlgorithms, buildDefaultDslAlgorithms.
  apply has_defaults_extend, has_defaults_set, has_defaults_extend, native_defaults.
Qed.

Section select_lemmas.
Context (P : Platform) {A : Type} (as_dsl : A -> option DslAlgorithm).

Lemma at_name_ok (algoMap : gmap string A) name : is_Some (algoMap !! name) ->
  exists a, at_name algoMap name = Ok (Some a) /\ algoMap !! name = Some a.
Proof. intros [a Ha]. exists a. unfold at_name. by rewrite Ha. Qed.

Lemma first_plan_in l r mode a : (first_plan as_dsl l r mode).1 = Some a -> a ∈ l.
Proof.
  revert mode. induction l as [|b l IH]; intros mode; [done|]. simpl. destruct (as_dsl b) as [d|].
  - destruct (matchExecutionPlan d r mode) as [[] mode']; [intros [= ->]; by left|]. intros Hf. right. by eapply IH.
  - intros Hf. right. by eapply IH.
Qed.

(** A selector among the registered names finds an algorithm or leaves the request
    to the other library. *)
Definition selects (algoMap : gmap string A) (other_library : bool) (r : result (option A)) : Prop :=
  (exists name a, r = Ok (Some a) /\ algoMap !! name = Some a) \/ (r = Ok None /\ other_library = true).

Lemma selects_at algoMap lib name : is_Some (algoMap !! name) -> selects algoMap lib (at_name algoMap name).
Proof. intros Ha. destruct (at_name_ok _ _ Ha) as (a & E1 & E2). left. by exists name, a. Qed.
End select_lemmas.

Lemma allgather_selects {A} P (algoMap : gmap string A) r config :
  (forall name, ("allgather"%string, name) ∈ default_native_names -> is_Some (algoMap !! name)) ->
  selects algoMap (ncclDlopenSharedLib config) (selectSingleNodeAllgather P algoMap r config).
Proof.
  intros Hd. unfold selectSingleNodeAllgather.
  destruct (_ <=? _); [apply selects_at, Hd, default_name; reflexivity|].
  destruct (hip_platform P); [apply selects_at, Hd, default_name; reflexivity|].
  destruct (ncclDlopenSharedLib config); [by right|]. apply selects_at, Hd, default_name. reflexivity.
Qed.

Lemma allreduce_selects {A} P (algoMap : gmap string A) r config :
  (forall name, ("allreduce"%string, name) ∈ default_native_names -> is_Some (algoMap !! name)) ->
  selects algoMap (ncclDlopenSharedLib config) (selectSingleNodeAllreduce P algoMap r config).
Proof.
  intros Hd.
  assert (Hat : forall name, existsb (fun '(c, n) => String.eqb c "allreduce" && String.eqb n name) default_native_names = true ->
    selects algoMap (ncclDlopenSharedLib config) (at_name algoMap name)).
  { intros name Hn. by apply selects_at, Hd, default_name. }
  unfold selectSingleNodeAllreduce, selectSingleNodeAllreduceBlackwell.
  repeat (match goal with |- selects _ _ (if ?b then _ else _) => destruct b eqn:? end; try (by apply Hat)).
  right. split; [done|]. by destruct (ncclDlopenSharedLib config).
Qed.

(** The selection for a communicator; also for what is built on it. *)
Lemma comm_selects {A} (P : Platform) (as_dsl : A -> option DslAlgorithm) (native : string -> A)
    (loaded : list (AlgorithmBuilder A)) (cb : AlgorithmCollectionBuilder A) (order : gmap string A -> list A)
    (config : AlgorithmSelectorConfig) (r : CollectiveRequest) (mode : option CollectiveBufferMode) :
  (forall m a, a ∈ order m -> exists name, m !! name = Some a) ->
  let c := comm_collection native loaded cb in
  match (algoSelector P as_dsl order config (algoMapByCollective_ c) r mode).1 with
  | Ok (Some a) => exists name, find_algo c (rq_collective r) name = Some a
  | Ok None =>
      rq_nRanksPerNode r <> rq_worldSize r \/ ncclDlopenSharedLib config = true \/
      (rq_collective r <> "allgather" /\ rq_collective r <> "allreduce")%string
  | Throw _ => False
  end.
Proof.
  intros Ho c. pose proof (comm_collection_defaults native loaded cb) as Hd. fold c in Hd.
  assert (Hsel : forall algoMap res, algoMapByCollective_ c !! rq_collective r = Some algoMap ->
    selects algoMap (ncclDlopenSharedLib config) res ->
    match res with
    | Ok (Some a) => exists name, find_algo c (rq_collective r) name = Some a
    | Ok None => rq_nRanksPerNode r <> rq_worldSize r \/ ncclDlopenSharedLib config = true \/
        (rq_collective r <> "allgather" /\ rq_collective r <> "allreduce")%string
    | Throw _ => False
    end).
  { intros algoMap res Em [(name & a & -> & Ea)|[-> Hl]]; [|by right; left]. exists name. unfold find_algo. by rewrite Em. }
  assert (Hmap : forall algoMap, algoMapByCollective_ c !! rq_collective r = Some algoMap -> forall name,
    (rq_collective r, name) ∈ default_native_names -> is_Some (algoMap !! name)).
  { intros algoMap Em name Hin. specialize (Hd _ _ Hin). unfold find_algo in Hd. by rewrite Em in Hd. }
  unfold algoSelector. destruct (algoMapByCollective_ c !! rq_collective r) as [algoMap|] eqn:Em.
  - specialize (Hmap _ eq_refl). destruct (first_plan as_dsl (order algoMap) r mode) as [[a|] mode'] eqn:Ef.
    + assert (Hin : a ∈ order algoMap) by (apply (first_plan_in as_dsl _ r mode); by rewrite Ef).
      apply Ho in Hin as [name Hn]. exists name. unfold find_algo. by rewrite Em.
    + destruct (Z.eqb_spec (rq_nRanksPerNode r) (rq_worldSize r)); simpl; [|by left].
      destruct (String.eqb_spec (rq_collective r) "allgather") as [E|E]; simpl.
      { rewrite E in Hmap. apply (Hsel algoMap); [done|]. by apply allgather_selects. }
      destruct (String.eqb_spec (rq_collective r) "allreduce") as [E'|E']; simpl; [|by right; right].
      rewrite E' in Hmap. apply (Hsel algoMap); [done|]. by apply allreduce_selects.
  - simpl. right. right. split; intros E; rewrite E in Em.
    + specialize (Hd "allgather"%string "default_allgather_fullmesh"%string ltac:(apply default_name; reflexivity)).
      unfold find_algo in Hd. rewrite Em in Hd. by destruct Hd.
    + specialize (Hd "allreduce"%string "default_allreduce_packet"%string ltac:(apply default_name; reflexivity)).
      unfold find_algo in Hd. rewrite Em in Hd. by destruct Hd.
Qed.

(** the selection for a communicator never fails: whatever plans and builders have
    been added, whatever the request, the device and the order of the maps, no
    algorithm is missing from the maps ([at] does not throw); what is selected is
    registered for the request's collective; and nothing is selected only
    for a request over several nodes, for another collective than allreduce and
    allgather, or when the original library is there to take it. *)
Theorem selection_total {A} (P : Platform) (as_dsl : A -> option DslAlgorithm) (native : string -> A)
    (loaded : list (AlgorithmBuilder A)) (cb : AlgorithmCollectionBuilder A) (order : gmap string A -> list A)
    (config : AlgorithmSelectorConfig) (r : CollectiveRequest) (mode : option CollectiveBufferMode) :
  (forall m a, a ∈ order m -> exists name, m !! name = Some a) ->
  let c := comm_collection native loaded cb in
  match (algoSelector P as_dsl order config (algoMapByCollective_ c) r mode).1 with
  | Ok (Some a) => exists name, find_algo c (rq_collective r) name = Some a
  | Ok None =>
      rq_nRanksPerNode r <> rq_worldSize r \/ ncclDlopenSharedLib config = true \/
      (rq_collective r <> "allgather" /\ rq_collective r <> "allreduce")%string
  | Throw _ => False
  end.
Proof. apply comm_selects. Qed.

(** A plan fits a request in everything but the buffer mode. *)
Definition plan_fits (d : DslAlgorithm) (r : CollectiveRequest) : Prop :=
  worldSize (dsl_constraint d) = rq_worldSize r /\ nRanksPerNode (dsl_constraint d) = rq_nRanksPerNode r /\
  collective (cfg (plan_ d)) = rq_collective r /\
  let size := if String.eqb (rq_collective r) "allgather" then u64 (messageSize r * u64 (rq_worldSize r)) else messageSize r in
  (dsl_messageRange d).1 <= size <= (dsl_messageRange d).2.

Lemma match_plan_iff d r mode :
  (matchExecutionPlan d r mode).1 = true <-> plan_fits d r /\ request_bufferMode r = (dsl_bufferMode d mode).1 \/
    plan_fits d r /\ (dsl_bufferMode d mode).1 = Any.
Proof.
  unfold matchExecutionPlan, plan_fits. destruct (dsl_bufferMode d mode) as [m mode']. simpl.
  rewrite !andb_true_iff, orb_true_iff, !bool_decide_eq_true, !Z.eqb_eq, !Z.leb_le, String.eqb_eq. naive_solver.
Qed.

(** the buffer mode of a plan is a static variable: the first plan that is asked in
    the process decides for all.  A plan is matched exactly if it fits and the
    request's mode is that of the first plan - so after an in-place plan an
    out-of-place plan takes the in-place requests it was not made for, and is refused
    the out-of-place requests it was made for. *)
Theorem plan_mode_shared (first d : DslAlgorithm) (r0 r : CollectiveRequest) :
  isInPlace (cfg (plan_ first)) = true -> isInPlace (cfg (plan_ d)) = false -> plan_fits d r ->
  let mode := (matchExecutionPlan first r0 None).2 in
  (request_bufferMode r = InPlace -> (matchExecutionPlan d r mode).1 = true) /\
  (request_bufferMode r = OutOfPlace -> (matchExecutionPlan d r mode).1 = false) /\
  (request_bufferMode r = OutOfPlace -> (matchExecutionPlan d r None).1 = true).
Proof.
  intros Hf Hd Hfit mode. assert (mode = Some InPlace) as ->.
  { unfold mode, matchExecutionPlan, dsl_bufferMode. by rewrite Hf. }
  split; [|split].
  - intros Hr. apply match_plan_iff. left. simpl. done.
  - intros Hr. destruct (matchExecutionPlan d r (Some InPlace)).1 eqn:E; [|done].
    apply match_plan_iff in E. simpl in E. rewrite Hr in E. naive_solver.
  - intros Hr. apply match_plan_iff. left. split; [done|]. unfold dsl_bufferMode. by rewrite Hd.
Qed.

(** ** Witnesses *)

Definition demo_funcs : NativeFuncs nat nat :=
  @mkFuncs nat nat (fun w => (Ok tt, w)) (fun a => mkCtxKey (ea_input a) (ea_output a) (ea_inputSize a) (ea_outputSize a) 0)
    (fun a w => (Ok w, S w)) (fun c a w => (Ok CommSuccess, w)).
Definition demo_args (input : Z) : exec_args := mkArgs input 64 16 16 FLOAT16 SUM 0 0 false AUTO.

(** Two executions with the same buffers share a context; a reset makes a new one. *)
Lemma native_context_cache_witness :
  let '(n, w, t) := native_run demo_funcs [OpExecute (demo_args 0); OpExecute (demo_args 0); OpReset; OpExecute (demo_args 0)]
    (NativeAlgorithm_create "a" "allreduce" 0 100 Any (mkConstraint 0 0)) 0%nat in
  proper demo_funcs ∅ false t /\ length t = 7%nat.
Proof.
  pose proof (native_context_cache demo_funcs "a" "allreduce" 0 100 Any (mkConstraint 0 0)
    [OpExecute (demo_args 0); OpExecute (demo_args 0); OpReset; OpExecute (demo_args 0)] 0%nat) as Hp.
  destruct (native_run _ _ _ _) as [[n w] t] eqn:E. destruct Hp as [Hp _]. split; [exact Hp|].
  apply (f_equal snd) in E. vm_compute in E. by subst t.
Defined.

Lemma extend_overrides_witness :
  let c := registerAlgorithm "allreduce" "a" 1%nat (registerAlgorithm "allreduce" "b" 2%nat empty_collection) in
  let other := registerAlgorithm "allreduce" "a" 3%nat empty_collection in
  find_algo (register_all (entries other) c) "allreduce" "a" = Some 3%nat /\
  find_algo (register_all (entries other) c) "allreduce" "b" = Some 2%nat.
Proof.
  intros c other. destruct (extend_overrides c other (entries other) (reflexivity _)) as [Hf _].
  rewrite !Hf. by split.
Defined.

Definition demo_request (size : Z) : CollectiveRequest := mkRequest 8 8 0 16 32 size "allreduce" FLOAT16 ∅.
Definition demo_platform : Platform := mkPlatform true false false false false.

Lemma selection_total_witness :
  match (algoSelector demo_platform (fun _ : string => None) (fun m => map snd (map_to_list m))
           (mkSelConfig false true false false (9, 0) false)
           (algoMapByCollective_ (comm_collection (fun n => n) [] (mkCB [] None None))) (demo_request 4096) None).1 with
  | Ok (Some a) => exists name, find_algo (comm_collection (fun n => n) [] (mkCB [] None None)) "allreduce" name = Some a
  | Ok None => False
  | Throw _ => False
  end.
Proof.
  pose proof (selection_total demo_platform (fun _ : string => None) (fun n => n) [] (mkCB [] None None)
    (fun m => map snd (map_to_list m)) (mkSelConfig false true false false (9, 0) false) (demo_request 4096) None) as Hs.
  cbv zeta in Hs. destruct (algoSelector _ _ _ _ _ _ _).1 as [[a|]|e] eqn:E.
  - apply Hs. intros m a' Hin. apply list_elem_of_fmap in Hin as ([n a2] & -> & Hin). exists n. by apply elem_of_map_to_list.
  - vm_compute in E. discriminate E.
  - vm_compute in E. discriminate E.
Defined.

Definition demo_dsl (inplace : bool) : DslAlgorithm :=
  mkDsl "x" (mkPlan (mkConfig "p" "allreduce" false false 0 0 0 0 0 0 0 0 1000000 16 inplace false) no_tables []) (mkConstraint 8 8).

Lemma plan_mode_shared_witness :
  (matchExecutionPlan (demo_dsl false) (demo_request 4096) (matchExecutionPlan (demo_dsl true) (demo_request 1) None).2).1 = false.
Proof.
  apply (plan_mode_shared (demo_dsl true) (demo_dsl false) (demo_request 1) (demo_request 4096) eq_refl eq_refl);
    [|reflexivity]. repeat split; discriminate.
Defined.
