(* ===== verification/Nccl.v ===== *)
(** * The NCCL interface

    Models src/ext/nccl/nccl.cc and datatype_conversion.hpp: argument checks and
    dispatch of the collectives to a copy, to an algorithm of the communicator's
    collection or to the original library; the initialisation and splitting of
    communicators; device memory handed out and freed.

    Pointers are [Z] with 0 for the null pointer; a communicator that may be null is an
    [option].  What a call comes to is an [outcome]; running an algorithm and calling
    the original library are outside of this file. *)

From Stdlib Require Import Sorting.Sorted.
From stdpp Require Import sorting.
From S2P Require Import Prelude Errors Core ExecutionPlan Algorithm.
Local Open Scope Z_scope.

(** ** Data *)

Inductive ncclResult_t :=
  | ncclSuccess | ncclUnhandledCudaError | ncclSystemError | ncclInternalError | ncclInvalidArgument
  | ncclInvalidUsage | ncclRemoteError | ncclInProgress | ncclNumResults.
#[export] Instance ncclResult_t_eq_dec : EqDecision ncclResult_t.
Proof. solve_decision. Defined.

Inductive ncclDataType_t :=
  | ncclInt8 | ncclUint8 | ncclInt32 | ncclUint32 | ncclInt64 | ncclUint64 | ncclFloat16 | ncclFloat32
  | ncclFloat64 | ncclBfloat16 | ncclFloat8e4m3 | ncclFloat8e5m2 | ncclNumTypes.
#[export] Instance ncclDataType_t_eq_dec : EqDecision ncclDataType_t.
Proof. solve_decision. Defined.

Inductive ncclRedOp_t := ncclSum | ncclProd | ncclMax | ncclMin | ncclAvg | ncclUserOp.
#[export] Instance ncclRedOp_t_eq_dec : EqDecision ncclRedOp_t.
Proof. solve_decision. Defined.

(** [static_cast<ncclResult_t>] of a [CommResult]: the enumerations agree. *)
Definition result_cast (r : CommResult) : ncclResult_t :=
  match r with
  | CommSuccess => ncclSuccess | CommUnhandledCudaError => ncclUnhandledCudaError | CommSystemError => ncclSystemError
  | CommInternalError => ncclInternalError | CommInvalidArgument => ncclInvalidArgument
  | CommInvalidUsage => ncclInvalidUsage | CommRemoteError => ncclRemoteError | CommInProgress => ncclInProgress
  | CommNumResults => ncclNumResults
  end.

Definition ncclTypeSize (t : ncclDataType_t) : Z :=
  match t with
  | ncclInt8 | ncclUint8 => 1
  | ncclFloat16 => 2
  | ncclInt32 | ncclUint32 => 4
  | ncclInt64 | ncclUint64 => 8
  | ncclFloat32 => 4
  | ncclFloat64 => 8
  | ncclBfloat16 => 2
  | ncclFloat8e4m3 | ncclFloat8e5m2 => 1
  | ncclNumTypes => 0
  end.

Definition getDataTypeSize (d : DataType) : Z :=
  match d with
  | UINT8 | FLOAT8_E4M3FN | FLOAT8_E4M3FNUZ | FLOAT8_E5M2 | FLOAT8_E5M2FNUZ | FLOAT8_E4M3B15 => 1
  | FLOAT16 | BFLOAT16 => 2
  | INT32 | UINT32 | FLOAT32 => 4
  | AUTO => 0
  end.

Definition ncclRedOpToMscclpp (op : ncclRedOp_t) : ReduceOp :=
  match op with ncclSum => SUM | ncclMin => MIN | _ => NOP end.

Section conversion.
Context (P : Platform).

Definition ncclDataTypeToMscclpp (t : ncclDataType_t) : result DataType :=
  match t with
  | ncclInt32 => Ok INT32
  | ncclUint32 => Ok UINT32
  | ncclUint8 => Ok UINT8
  | ncclFloat16 => Ok FLOAT16
  | ncclFloat32 => Ok FLOAT32
  | ncclBfloat16 => Ok BFLOAT16
  | ncclFloat8e4m3 =>
      if fp8_types_exist P then Ok (if fp8_e4m3_is_fnuz P then FLOAT8_E4M3FNUZ else FLOAT8_E4M3FN) else Throw Usage
  | ncclFloat8e5m2 =>
      if fp8_types_exist P then Ok (if fp8_e5m2_is_fnuz P then FLOAT8_E5M2FNUZ else FLOAT8_E5M2) else Throw Usage
  | _ => Throw Usage
  end.

Definition mscclppToNcclDataType (d : DataType) : result ncclDataType_t :=
  match d with
  | INT32 => Ok ncclInt32
  | UINT32 => Ok ncclUint32
  | UINT8 => Ok ncclUint8
  | FLOAT16 => Ok ncclFloat16
  | FLOAT32 => Ok ncclFloat32
  | BFLOAT16 => Ok ncclBfloat16
  | FLOAT8_E4M3FNUZ => if fp8_types_exist P && fp8_e4m3_is_fnuz P then Ok ncclFloat8e4m3 else Throw Usage
  | FLOAT8_E4M3FN => if fp8_types_exist P && negb (fp8_e4m3_is_fnuz P) then Ok ncclFloat8e4m3 else Throw Usage
  | FLOAT8_E5M2FNUZ => if fp8_types_exist P && fp8_e5m2_is_fnuz P then Ok ncclFloat8e5m2 else Throw Usage
  | FLOAT8_E5M2 => if fp8_types_exist P && negb (fp8_e5m2_is_fnuz P) then Ok ncclFloat8e5m2 else Throw Usage
  | FLOAT8_E4M3B15 | AUTO => Throw Usage
  end.
End conversion.

(** ** The fallback list *)

Definition comma : Ascii.ascii := Ascii.ascii_of_nat 44.

(** The tokens [strtok] finds: maximal pieces without a comma, none of them empty. *)
Fixpoint strtok_all (s cur : string) : list string :=
  match s with
  | EmptyString => if String.eqb cur "" then [] else [cur]
  | String c s' =>
      if Ascii.eqb c comma then (if String.eqb cur "" then strtok_all s' "" else cur :: strtok_all s' "")
      else strtok_all s' (cur +:+ String c EmptyString)
  end.

Definition mscclppNcclInFallbackList (collOps fallbackList : string) : bool :=
  if String.eqb fallbackList "all" then true else existsb (String.eqb collOps) (strtok_all fallbackList "").

(** ** Collectives *)

Record NcclEnv := mkNcclEnv {
  forceNcclFallbackOperation : string; ncclSymmetricMemory : bool;
  dlopenSharedLib : bool             (* mscclppNcclDlopenSharedLib *)
}.

Record ncclComm (A : Type) := mkComm {
  nc_rank : Z; nc_nranks : Z; nc_nRanksPerNode : Z; nc_collection : AlgorithmCollection A
}.
Arguments mkComm {A}. Arguments nc_rank {A}. Arguments nc_nranks {A}. Arguments nc_nRanksPerNode {A}.
Arguments nc_collection {A}.

Inductive outcome (A : Type) :=
  | Returns (r : ncclResult_t)
  | Copies (dst src bytes : Z)                      (* cudaMemcpyAsync, and success *)
  | Delegates                                       (* the original library, with the same arguments *)
  | Executes (algo : A) (args : exec_args) (root : option Z) (ret : result ncclResult_t)
                                                    (* the algorithm runs, and what becomes of it is the result *)
  | Raises (e : exn)                                (* an exception leaves the C function *)
  | Crashes.                                        (* a null communicator is dereferenced *)
Arguments Returns {A}. Arguments Copies {A}. Arguments Delegates {A}. Arguments Executes {A}. Arguments Raises {A}.
Arguments Crashes {A}.

Section collectives.
Context {A : Type} (P : Platform) (E : NcclEnv).
(** [algo->execute]: [native_execute] or [dsl_execute] of the algorithm. *)
Context (execute : A -> exec_args -> option Z -> result CommResult).

(** [if (comm->worldSize == 1)]. *)
Definition single_rank (sendbuff recvbuff bytes : Z) : outcome A :=
  if sendbuff =? recvbuff then Returns ncclSuccess else Copies recvbuff sendbuff bytes.

Definition falls_back (collective : string) : bool :=
  dlopenSharedLib E && mscclppNcclInFallbackList collective (forceNcclFallbackOperation E).

(** Select an algorithm, execute it and return its result, or go to the original library, or fail. *)
Definition select_and_execute (c : ncclComm A) (r : CollectiveRequest) (args : exec_args) (root : option Z)
    (no_algorithm : ncclResult_t) : outcome A :=
  match selectAlgorithm (nc_collection c) r with
  | Throw e => Raises e
  | Ok (Some algo) => Executes algo args root (ret ← execute algo args root; Ok (result_cast ret))
  | Ok None => if dlopenSharedLib E then Delegates else Returns no_algorithm
  end.

(** The request for the selector. *)
Definition request_of (c : ncclComm A) (coll : string) (sendbuff recvbuff size : Z) (dtype : DataType)
    (h : gmap string (list Z)) : CollectiveRequest :=
  mkRequest (nc_nranks c) (nc_nRanksPerNode c) (nc_rank c) sendbuff recvbuff size coll dtype h.

Definition ncclAllReduce (sendbuff recvbuff count : Z) (datatype : ncclDataType_t) (op : ncclRedOp_t)
    (comm : option (ncclComm A)) : outcome A :=
  let bytes := u64 (count * ncclTypeSize datatype) in
  match comm with
  | None => Crashes
  | Some c =>
      if nc_nranks c =? 1 then single_rank sendbuff recvbuff bytes
      else if (sendbuff =? 0) || (recvbuff =? 0) || (count =? 0) || (ncclTypeSize datatype =? 0) then Returns ncclInvalidArgument
      else if falls_back "allreduce" then Delegates
      else match ncclDataTypeToMscclpp P datatype with
           | Throw e => Raises e
           | Ok dtype =>
               select_and_execute c
                 (request_of c "allreduce" sendbuff recvbuff bytes dtype ∅)
                 (mkArgs sendbuff recvbuff bytes bytes dtype (ncclRedOpToMscclpp op) 0 0 (ncclSymmetricMemory E) AUTO)
                 None ncclInvalidUsage
           end
  end.

Definition ncclReduceScatter (sendbuff recvbuff recvcount : Z) (datatype : ncclDataType_t) (op : ncclRedOp_t)
    (comm : option (ncclComm A)) : outcome A :=
  let bytes := u64 (recvcount * ncclTypeSize datatype) in
  match comm with
  | None => Crashes
  | Some c =>
      if nc_nranks c =? 1 then single_rank sendbuff recvbuff bytes
      else if (sendbuff =? 0) || (recvbuff =? 0) || (bytes =? 0) then Returns ncclInvalidArgument
      else if falls_back "reducescatter" then Delegates
      else match ncclDataTypeToMscclpp P datatype with
           | Throw e => Raises e
           | Ok dtype =>
               let total := u64 (bytes * u64 (nc_nranks c)) in
               select_and_execute c
                 (request_of c "reducescatter" sendbuff recvbuff total dtype ∅)
                 (mkArgs sendbuff recvbuff total bytes dtype (ncclRedOpToMscclpp op) 0 0 (ncclSymmetricMemory E) AUTO)
                 None ncclInternalError
           end
  end.

Definition ncclAllGather (sendbuff recvbuff sendcount : Z) (datatype : ncclDataType_t)
    (comm : option (ncclComm A)) : outcome A :=
  let bytes := u64 (sendcount * ncclTypeSize datatype) in
  match comm with
  | None => Crashes
  | Some c =>
      if nc_nranks c =? 1 then single_rank sendbuff recvbuff bytes
      else if (sendbuff =? 0) || (recvbuff =? 0) || (bytes =? 0) then Returns ncclInvalidArgument
      else if falls_back "allgather" then Delegates
      else match ncclDataTypeToMscclpp P datatype with
           | Throw e => Raises e
           | Ok dtype =>
               select_and_execute c
                 (request_of c "allgather" sendbuff recvbuff bytes dtype ∅)
                 (mkArgs sendbuff recvbuff bytes (u64 (bytes * u64 (nc_nranks c))) dtype NOP 0 0 (ncclSymmetricMemory E) AUTO)
                 None ncclInvalidUsage
           end
  end.

Definition ncclBroadcast (sendbuff recvbuff count : Z) (datatype : ncclDataType_t) (root : Z)
    (comm : option (ncclComm A)) : outcome A :=
  let bytes := u64 (count * ncclTypeSize datatype) in
  match comm with
  | None => Crashes
  | Some c =>
      if nc_nranks c =? 1 then single_rank sendbuff recvbuff bytes
      else if ((sendbuff =? 0) && (root =? nc_rank c)) || (recvbuff =? 0) || (bytes =? 0) then Returns ncclInvalidArgument
      else if falls_back "broadcast" then Delegates
      else match ncclDataTypeToMscclpp P datatype with
           | Throw e => Raises e
           | Ok dtype =>
               select_and_execute c
                 (request_of c "broadcast" sendbuff recvbuff bytes dtype {["root"%string := [u64 root]]})
                 (mkArgs sendbuff recvbuff bytes bytes dtype NOP 0 0 (ncclSymmetricMemory E) AUTO)
                 (Some root) ncclInvalidUsage
           end
  end.

Definition ncclBcast (buff count : Z) (datatype : ncclDataType_t) (root : Z) (comm : option (ncclComm A)) : outcome A :=
  ncclBroadcast buff buff count datatype root comm.

(** Collectives that only the original library has. *)
Definition library_only : outcome A := if dlopenSharedLib E then Delegates else Returns ncclInternalError.
Definition ncclReduce : outcome A := library_only.
Definition ncclSend : outcome A := library_only.
Definition ncclRecv : outcome A := library_only.

Definition ncclAllToAll (sendbuff recvbuff count : Z) (datatype : ncclDataType_t) (comm : option (ncclComm A)) : outcome A :=
  let bytes := u64 (count * ncclTypeSize datatype) in
  match comm with
  | None => Crashes
  | Some c => if nc_nranks c =? 1 then single_rank sendbuff recvbuff bytes else Returns ncclInternalError
  end.

(** With the first entries of the count and displacement arrays. *)
Definition ncclAllToAllv (sendbuff sdispl recvbuff recvcount rdispl : Z) (datatype : ncclDataType_t)
    (comm : option (ncclComm A)) : outcome A :=
  let bytes := u64 (recvcount * ncclTypeSize datatype) in
  match comm with
  | None => Crashes
  | Some c =>
      if nc_nranks c =? 1 then
        Copies (u64 (recvbuff + rdispl * ncclTypeSize datatype)) (u64 (sendbuff + sdispl * ncclTypeSize datatype)) bytes
      else Returns ncclInternalError
  end.

(** [ncclGroupStart] tries to load the library first; [loaded] is what comes of it. *)
Definition ncclGroupStart (loaded : bool) : outcome A :=
  if dlopenSharedLib E || loaded then Delegates else Returns ncclSuccess.
Definition ncclGroupEnd : outcome A := if dlopenSharedLib E then Delegates else Returns ncclSuccess.

(** ** Communicators *)

(** The argument check of [ncclCommInitRank]; [comm] says whether the pointer is there. *)
Definition init_args_ok (comm : bool) (nranks rank : Z) : bool :=
  comm && negb ((nranks <? 0) || (rank <? 0) || (nranks <=? rank)).

Definition ncclCommCount (comm : option (ncclComm A)) (count : bool) : ncclResult_t * option Z :=
  match comm with Some c => if count then (ncclSuccess, Some (nc_nranks c)) else (ncclInvalidArgument, None)
             | None => (ncclInvalidArgument, None) end.
Definition ncclCommCuDevice (comm : option (ncclComm A)) (device : bool) : ncclResult_t * option Z :=
  match comm with Some c => if device then (ncclSuccess, Some (nc_rank c)) else (ncclInvalidArgument, None)
             | None => (ncclInvalidArgument, None) end.
End collectives.

(** *** Splitting *)

Definition NCCL_SPLIT_NOCOLOR : Z := -1.
Record splitCommInfo := mkSplit { color : Z; key : Z; originalRank : Z }.
#[export] Instance splitCommInfo_eq_dec : EqDecision splitCommInfo.
Proof. solve_decision. Defined.

Section split.
(** [std::sort] by the key: some sorted permutation. *)
Context (sort : list splitCommInfo -> list splitCommInfo).
(** The ids: what [ncclGetUniqueId] makes on a rank, and what is in the variable without it. *)
Context {Id : Type} (fresh unset : Z -> Id).

(** What every rank contributes to the first all-gather. *)
Definition split_infos (colors keys : list Z) : list splitCommInfo :=
  imap (fun i '(c, k) => mkSplit c k (Z.of_nat i)) (zip colors keys).

Definition split_group (infos : list splitCommInfo) (col : Z) : list splitCommInfo :=
  sort (filter (fun i => color i = col) infos).

Fixpoint find_rank (g : list splitCommInfo) (rank : Z) : nat :=
  match g with [] => 0%nat | i :: g' => if originalRank i =? rank then 0%nat else S (find_rank g' rank) end.

Definition newRank (infos : list splitCommInfo) (col rank : Z) : nat := find_rank (split_group infos col) rank.

(** What a rank contributes to the second all-gather. *)
Definition split_id (infos : list splitCommInfo) (col rank : Z) : Id :=
  if decide (newRank infos col rank = 0%nat) then fresh rank else unset rank.

(** What a rank's new communicator is made with: its size, the id and the new rank;
    [None] without a colour. *)
Definition ncclCommSplit (infos : list splitCommInfo) (rank col : Z) : option (nat * Id * nat) :=
  let group := split_group infos col in
  match group with
  | [] => None
  | front :: _ =>
      let uniqueId := match find (fun i => originalRank i =? originalRank front) infos with
                      | Some i => split_id infos (color i) (originalRank i)
                      | None => unset (originalRank front)
                      end in
      if decide (col = NCCL_SPLIT_NOCOLOR) then None
      else Some (length group, uniqueId, newRank infos col rank)
  end.
End split.

(** ** Memory *)

(** [ptrMap]: the addresses handed out.  [alloc] is what making a [GpuBuffer] comes to. *)
Inductive alloc_result := AllocOk (ptr : Z) | AllocNull | AllocThrows (e : exn).

Definition ncclMemAlloc (ptr : bool) (size : Z) (alloc : alloc_result) (ptrMap : gset Z)
    : result ncclResult_t * option Z * gset Z :=
  if negb ptr || (size =? 0) then (Ok ncclInvalidArgument, None, ptrMap)
  else match alloc with
       | AllocOk p => (Ok ncclSuccess, Some p, {[p]} ∪ ptrMap)
       | AllocNull => (Ok ncclSystemError, None, ptrMap)
       | AllocThrows e =>
           (match e with
            | EError InvalidUsage => Ok ncclInvalidUsage
            | EError _ => Ok ncclInternalError
            | ECudaError | ECuError => Ok ncclUnhandledCudaError
            | ESysError | EIbError => Ok ncclInternalError   (* BaseError *)
            | EStd => Throw EStd
            end, None, ptrMap)
       end.

Definition ncclMemFree (ptr : Z) (ptrMap : gset Z) : ncclResult_t * gset Z :=
  if decide (ptr ∈ ptrMap) then (ncclSuccess, ptrMap ∖ {[ptr]}) else (ncclInvalidUsage, ptrMap).

(** ** Lemmas: splitting *)

Section split_lemmas.
Context (sort : list splitCommInfo -> list splitCommInfo).
Hypothesis sort_perm : forall l, sort l ≡ₚ l.
Hypothesis sort_sorted : forall l, StronglySorted (fun a b => key a <= key b) (sort l).

Lemma split_infos_elem colors keys x :
  length keys = length colors ->
  x ∈ split_infos colors keys <->
  exists i c k, colors !! i = Some c /\ keys !! i = Some k /\ x = mkSplit c k (Z.of_nat i).
Proof.
  intros Hl. unfold split_infos. rewrite elem_of_lookup_imap. split.
  - intros (i & [c k] & -> & Hi). apply lookup_zip_with_Some in Hi as (c' & k' & [= <- <-] & Hc & Hk). eauto 8.
  - intros (i & c & k & Hc & Hk & ->). exists i, (c, k). split; [done|]. apply lookup_zip_with_Some. eauto.
Qed.

Lemma split_infos_nodup colors keys : NoDup (map originalRank (split_infos colors keys)).
Proof.
  unfold split_infos. apply NoDup_alt. intros i j r Hi Hj. apply list_lookup_fmap_Some in Hi as (x & -> & Hi).
  apply list_lookup_fmap_Some in Hj as (y & E & Hj). apply list_lookup_imap_Some in Hi as ([? ?] & _ & ->).
  apply list_lookup_imap_Some in Hj as ([? ?] & _ & ->). simpl in E. lia.
Qed.

Lemma find_rank_lookup g r : r ∈ map originalRank g -> exists y, g !! find_rank g r = Some y /\ originalRank y = r.
Proof.
  induction g as [|x g IH]; simpl; [by intros ?%not_elem_of_nil|]. destruct (Z.eqb_spec (originalRank x) r) as [E|E].
  - intros _. by exists x.
  - rewrite elem_of_cons. intros [Hr|Hr]; [congruence|]. by apply IH.
Qed.

Lemma find_rank_unique g r y i :
  NoDup (map originalRank g) -> g !! i = Some y -> originalRank y = r -> find_rank g r = i.
Proof.
  intros Hn Hi Hy. destruct (find_rank_lookup g r) as (z & Hz & Er).
  { rewrite <- Hy. by apply list_elem_of_fmap_2, list_elem_of_lookup_2 with i. }
  eapply NoDup_lookup; [exact Hn| |].
  - rewrite list_lookup_fmap, Hz. simpl. by rewrite Er.
  - rewrite list_lookup_fmap, Hi. simpl. by rewrite Hy.
Qed.

Lemma group_perm infos c : split_group sort infos c ≡ₚ filter (fun i => color i = c) infos.
Proof. apply sort_perm. Qed.

Lemma group_nodup colors keys c : NoDup (map originalRank (split_group sort (split_infos colors keys) c)).
Proof.
  rewrite group_perm. pose proof (split_infos_nodup colors keys) as Hn. revert Hn. generalize (split_infos colors keys).
  intros l. induction l as [|x l IH]; [constructor|]. simpl. intros [Hx Hn]%NoDup_cons. rewrite filter_cons.
  case_decide; [|by apply IH]. simpl. constructor; [|by apply IH]. intros Hin. apply Hx.
  apply list_elem_of_fmap in Hin as (y & -> & Hy). apply list_elem_of_filter in Hy as [_ Hy]. by apply list_elem_of_fmap_2.
Qed.

Lemma group_elem colors keys c x : length keys = length colors ->
  x ∈ split_group sort (split_infos colors keys) c <->
  exists i k, colors !! i = Some c /\ keys !! i = Some k /\ x = mkSplit c k (Z.of_nat i).
Proof.
  intros Hl. rewrite group_perm, list_elem_of_filter, split_infos_elem by done. split.
  - intros [<- (i & c' & k & Hc & Hk & ->)]. eauto.
  - intros (i & k & Hc & Hk & ->). split; [done|]. eauto 8.
Qed.

Lemma group_length colors keys c : length keys = length colors ->
  length (split_group sort (split_infos colors keys) c) = length (filter (fun x => x = c) colors).
Proof.
  intros Hl. rewrite group_perm. transitivity (length (filter (fun x => x = c) (map color (split_infos colors keys)))).
  - generalize (split_infos colors keys). intros l. induction l as [|x l IH]; [done|]. simpl.
    rewrite !filter_cons. case_decide; simpl; by rewrite IH.
  - f_equal. f_equal. apply list_eq. intros i. unfold split_infos. rewrite list_lookup_fmap, list_lookup_imap.
    destruct (zip colors keys !! i) as [[c' k]|] eqn:Ez; simpl.
    + apply lookup_zip_with_Some in Ez as (? & ? & [= <- <-] & -> & _). done.
    + symmetry. apply lookup_ge_None. apply lookup_ge_None in Ez. rewrite length_zip_with in Ez. lia.
Qed.

(** Sorted lists at two positions. *)
Lemma sorted_lookup (g : list splitCommInfo) i j a b :
  StronglySorted (fun a b => key a <= key b) g -> (i < j)%nat -> g !! i = Some a -> g !! j = Some b -> key a <= key b.
Proof.
  intros Hs. revert i j. induction Hs as [|x g _ IH Hx]; intros i j Hij Hi Hj; [done|].
  destruct i as [|i], j as [|j]; simpl in *; try lia.
  - injection Hi as ->. rewrite Forall_lookup in Hx. by eapply Hx.
  - eapply (IH i j); [lia|done|done].
Qed.
End split_lemmas.

(** ** Properties *)

Definition count_color (colors : list Z) (c : Z) : nat := length (filter (fun x => x = c) colors).

(** The selector that [ncclCommInitRank] installs as the fallback. *)
Definition default_selector {A} (P : Platform) (as_dsl : A -> option DslAlgorithm) (order : gmap string A -> list A)
    (config : AlgorithmSelectorConfig) (mode : option CollectiveBufferMode) : AlgoSelectFunc A :=
  fun m r => (algoSelector P as_dsl order config m r mode).1.

Lemma register_all_selectors {A} (l : list (string * string * A)) c :
  algoSelector_ (register_all l c) = algoSelector_ c /\ fallbackAlgoSelector_ (register_all l c) = fallbackAlgoSelector_ c.
Proof. revert c. induction l as [|[[k n] a] l IH]; intros c; [done|]. exact (IH (registerAlgorithm k n a c)). Qed.

Lemma comm_collection_selectors {A} (native : string -> A) loaded cb :
  algoSelector_ (comm_collection native loaded cb) = cb_selector cb /\
  fallbackAlgoSelector_ (comm_collection native loaded cb) = cb_fallback cb.
Proof.
  unfold comm_collection, buildDefaultAlgorithms, buildDefaultDslAlgorithms, extend.
  destruct (register_all_selectors (entries (cb_build (foldl (fun cb b => addAlgorithmBuilder b cb) cb loaded)))
    (setSelectors (cb_selector (foldl (fun cb b => addAlgorithmBuilder b cb) cb loaded))
       (cb_fallback (foldl (fun cb b => addAlgorithmBuilder b cb) cb loaded))
       (register_all (entries (empty_collection (A := A))) (buildDefaultNativeAlgorithms native)))) as [-> ->].
  cbn [algoSelector_ fallbackAlgoSelector_ setSelectors]. revert cb. induction loaded as [|b l IH]; intros cb; [done|].
  exact (IH (addAlgorithmBuilder b cb)).
Qed.

(** What a call that can be served comes to: an algorithm registered for the collective is run
    with these arguments and its result returned, or the original library is called, if it is there. *)
Definition served {A} (E : NcclEnv) (execute : A -> exec_args -> option Z -> result CommResult) (c : ncclComm A) (coll : string)
    (o : outcome A) (e : exec_args) : Prop :=
  (exists a name, o = Executes a e None (ret ← execute a e None; Ok (result_cast ret)) /\ find_algo (nc_collection c) coll name = Some a) \/
  (o = Delegates /\ dlopenSharedLib E = true).

Lemma select_served {A} P (E : NcclEnv) execute (as_dsl : A -> option DslAlgorithm) native loaded builders order config mode
    (c : ncclComm A) coll r e code :
  nc_collection c = comm_collection native loaded (mkCB builders None (Some (default_selector P as_dsl order config mode))) ->
  (forall m a, a ∈ order m -> exists name, m !! name = Some a) ->
  ncclDlopenSharedLib config = dlopenSharedLib E ->
  rq_nRanksPerNode r = rq_worldSize r -> rq_collective r = coll -> coll = "allgather"%string \/ coll = "allreduce"%string ->
  served E execute c coll (select_and_execute E execute c r e None code) e.
Proof.
  intros Hc Ho Hl Hn <- Hcoll. unfold select_and_execute, selectAlgorithm. rewrite Hc.
  destruct (comm_collection_selectors native loaded (mkCB builders None (Some (default_selector P as_dsl order config mode)))) as [-> ->].
  cbn [cb_selector cb_fallback mbind result_bind]. 
  match goal with |- context [default_selector P as_dsl order config mode ?m r] =>
    change (default_selector P as_dsl order config mode m r) with (algoSelector P as_dsl order config m r mode).1 end.
  pose proof (comm_selects P as_dsl native loaded (mkCB builders None (Some (default_selector P as_dsl order config mode)))
    order config r mode Ho) as Hsel. cbv zeta in Hsel.
  destruct (algoSelector _ _ _ _ _ _ _).1 as [[a|]|e']; [| |done].
  - destruct Hsel as [name Hs]. left. exists a, name. split; [done|]. by rewrite Hc.
  - right. destruct Hsel as [?|[Hd|[H1 H2]]]; [done| |by destruct Hcoll]. by rewrite <- Hl, Hd.
Qed.

(** C35: on one node every valid allreduce and allgather reaches an algorithm, as long as the
    user has installed no selector: with non-null buffers, a positive count, a type the library
    knows and sizes that do not wrap, the call runs an algorithm registered for the collective
    with exact sizes - an allgather with an output of [nranks] times its input - and returns
    what the algorithm returns; or, if the original library has been loaded, it may go there.
    It is never refused before that, whatever the operation; the algorithm may refuse it. *)
Theorem single_node_served {A} (P : Platform) (E : NcclEnv) (execute : A -> exec_args -> option Z -> result CommResult)
    (as_dsl : A -> option DslAlgorithm) (native : string -> A)
    (loaded builders : list (AlgorithmBuilder A)) (order : gmap string A -> list A) (config : AlgorithmSelectorConfig)
    (mode : option CollectiveBufferMode) (c : ncclComm A) (sendbuff recvbuff count : Z) (t : ncclDataType_t) (d : DataType)
    (op : ncclRedOp_t) :
  nc_collection c = comm_collection native loaded (mkCB builders None (Some (default_selector P as_dsl order config mode))) ->
  (forall m a, a ∈ order m -> exists name, m !! name = Some a) ->
  ncclDlopenSharedLib config = dlopenSharedLib E ->
  nc_nRanksPerNode c = nc_nranks c -> 1 < nc_nranks c -> ncclDataTypeToMscclpp P t = Ok d ->
  sendbuff <> 0 -> recvbuff <> 0 -> 0 < count -> nc_nranks c * (count * ncclTypeSize t) < 2 ^ 64 ->
  let bytes := count * ncclTypeSize t in
  served E execute c "allreduce" (ncclAllReduce P E execute sendbuff recvbuff count t op (Some c))
    (mkArgs sendbuff recvbuff bytes bytes d (ncclRedOpToMscclpp op) 0 0 (ncclSymmetricMemory E) AUTO) /\
  served E execute c "allgather" (ncclAllGather P E execute sendbuff recvbuff count t (Some c))
    (mkArgs sendbuff recvbuff bytes (nc_nranks c * bytes) d NOP 0 0 (ncclSymmetricMemory E) AUTO).
Proof.
  intros Hc Ho Hl Hn Hr Ht Hs Hv Hcnt Hsz bytes.
  assert (Hsize : 0 < ncclTypeSize t) by (destruct t; simpl in *; try lia; discriminate Ht).
  assert (Hb : 0 < bytes < 2 ^ 64) by (unfold bytes; nia).
  assert (E1 : u64 (count * ncclTypeSize t) = bytes) by (apply u64_small; unfold bytes in *; lia).
  assert (E2 : u64 (bytes * u64 (nc_nranks c)) = nc_nranks c * bytes).
  { rewrite (u64_small (nc_nranks c)) by (unfold bytes in *; nia). rewrite u64_small by (unfold bytes in *; nia). lia. }
  assert (Hfb : forall coll, falls_back E coll = true -> dlopenSharedLib E = true).
  { intros coll [? _]%andb_true_iff. done. }
  rewrite <- (Z.eqb_neq sendbuff 0) in Hs. rewrite <- (Z.eqb_neq recvbuff 0) in Hv.
  split; [unfold ncclAllReduce|unfold ncclAllGather]; cbv zeta; rewrite (proj2 (Z.eqb_neq (nc_nranks c) 1)) by lia; rewrite Hs, Hv, E1.
  - rewrite (proj2 (Z.eqb_neq count 0)), (proj2 (Z.eqb_neq (ncclTypeSize t) 0)) by lia. simpl orb.
    destruct (falls_back E _) eqn:Ef; [right; split; [done|by eapply Hfb]|]. rewrite Ht.
    eapply select_served; try done. by right.
  - rewrite (proj2 (Z.eqb_neq bytes 0)) by lia. simpl orb.
    destruct (falls_back E _) eqn:Ef; [right; split; [done|by eapply Hfb]|]. rewrite Ht, E2.
    eapply select_served; try done. by left.
Qed.

(** splitting a communicator: the ranks that give the same colour agree on the
    size of the new communicator, which is their number, and on its id, which is the
    one made by the rank that gets new rank 0; their new ranks are different, below
    the size, and follow the order of the keys.  A rank without a colour gets no
    communicator. *)
Theorem split_consistent (sort : list splitCommInfo -> list splitCommInfo) {Id} (fresh unset : Z -> Id)
    (colors keys : list Z) (i j : nat) (c : Z) :
  (forall l, sort l ≡ₚ l) -> (forall l, StronglySorted (fun a b => key a <= key b) (sort l)) ->
  length keys = length colors -> colors !! i = Some c -> colors !! j = Some c ->
  let split := fun r => ncclCommSplit sort fresh unset (split_infos colors keys) (Z.of_nat r) c in
  (c = NCCL_SPLIT_NOCOLOR -> split i = None) /\
  (c <> NCCL_SPLIT_NOCOLOR -> exists id ri rj f,
     split i = Some (count_color colors c, id, ri) /\ split j = Some (count_color colors c, id, rj) /\
     (ri < count_color colors c)%nat /\ (ri = rj -> i = j) /\
     (forall ki kj, keys !! i = Some ki -> keys !! j = Some kj -> ki < kj -> (ri < rj)%nat) /\
     id = fresh (Z.of_nat f) /\ colors !! f = Some c /\
     newRank sort (split_infos colors keys) c (Z.of_nat f) = 0%nat).
Proof.
  intros Hperm Hsorted Hl Hi Hj split. set (infos := split_infos colors keys) in *.
  pose proof (group_nodup sort Hperm colors keys c) as Hnd. fold infos in Hnd.
  assert (Hin : forall r, colors !! r = Some c -> exists k, keys !! r = Some k /\
    split_group sort infos c !! newRank sort infos c (Z.of_nat r) = Some (mkSplit c k (Z.of_nat r))).
  { intros r Hr. destruct (lookup_lt_is_Some_2 keys r) as [k Hk]; [rewrite Hl; by eapply lookup_lt_Some|].
    exists k. split; [done|]. assert (He : mkSplit c k (Z.of_nat r) ∈ split_group sort infos c) by (apply group_elem; eauto).
    apply list_elem_of_lookup_1 in He as [p Hp]. unfold newRank. by rewrite (find_rank_unique _ _ _ _ Hnd Hp). }
  assert (Hlen : length (split_group sort infos c) = count_color colors c) by (by apply group_length).
  split; [intros ->; unfold split, ncclCommSplit; destruct (split_group sort infos _); [done|]; by rewrite decide_True|].
  intros Hc. destruct (Hin i Hi) as (ki & Hki & Ei). destruct (Hin j Hj) as (kj & Hkj & Ej).
  destruct (split_group sort infos c) as [|front g] eqn:Eg; [done|].
  assert (Hf : front ∈ split_group sort infos c) by (rewrite Eg; left).
  apply (group_elem sort Hperm colors keys c _ Hl) in Hf as (f & kf & Hfc & Hkf & ->).
  assert (Hf0 : newRank sort infos c (Z.of_nat f) = 0%nat).
  { unfold newRank. rewrite Eg. simpl. by rewrite Z.eqb_refl. }
  assert (Hfind : find (fun x => originalRank x =? Z.of_nat f) infos = Some (mkSplit c kf (Z.of_nat f))).
  { destruct (find _ infos) as [y|] eqn:Ef.
    - apply find_some in Ef as [Hy Ey]. apply list_elem_of_In in Hy. apply Z.eqb_eq in Ey.
      apply split_infos_elem in Hy as (f' & c' & k' & Hc' & Hk' & ->); [|done]. simpl in Ey.
      assert (f' = f) as -> by lia. congruence.
    - assert (He : mkSplit c kf (Z.of_nat f) ∈ infos) by (apply split_infos_elem; eauto 8).
      apply list_elem_of_In in He. pose proof (find_none _ _ Ef _ He) as Hn. simpl in Hn. by rewrite Z.eqb_refl in Hn. }
  assert (Hsplit : forall r, split r = Some (count_color colors c, fresh (Z.of_nat f), newRank sort infos c (Z.of_nat r))).
  { intros r. unfold split, ncclCommSplit. rewrite Eg. cbn [originalRank]. rewrite Hfind. cbn [color originalRank].
    unfold split_id. rewrite (decide_True _ _ Hf0), decide_False by done. by rewrite Hlen. }
  exists (fresh (Z.of_nat f)), (newRank sort infos c (Z.of_nat i)), (newRank sort infos c (Z.of_nat j)), f.
  rewrite !Hsplit. split_and!; try done.
  - apply lookup_lt_Some in Ei. by rewrite <- Hlen.
  - intros E. rewrite E, Ej in Ei. injection Ei as ? ?. lia.
  - intros ki' kj' Hki' Hkj' Hlt. simplify_eq. destruct (decide (newRank sort infos c (Z.of_nat i) < newRank sort infos c (Z.of_nat j))%nat); [done|].
    destruct (decide (newRank sort infos c (Z.of_nat i) = newRank sort infos c (Z.of_nat j))) as [E|Hne].
    + rewrite E, Ej in Ei. injection Ei as ? ?. lia.
    + pose proof (Hsorted (filter (fun x => color x = c) infos)) as Hs. fold (split_group sort infos c) in Hs. rewrite Eg in Hs.
      assert (Hlt' : (newRank sort infos c (Z.of_nat j) < newRank sort infos c (Z.of_nat i))%nat) by lia.
      pose proof (sorted_lookup _ _ _ _ _ Hs Hlt' Ej Ei) as Hk. simpl in Hk. lia.
Qed.

Definition by_key (a b : splitCommInfo) : Prop := key a <= key b.
#[export] Instance by_key_dec a b : Decision (by_key a b).
Proof. unfold by_key. apply _. Defined.
#[export] Instance by_key_total : Total by_key.
Proof. intros a b. unfold by_key. lia. Qed.
#[export] Instance by_key_trans : Transitive by_key.
Proof. intros a b d. unfold by_key. lia. Qed.
Definition demo_sort : list splitCommInfo -> list splitCommInfo := merge_sort by_key.

Lemma split_consistent_witness :
  exists id ri rj, ncclCommSplit demo_sort (fun r => r) (fun _ => 0) (split_infos [7; 3; 7] [5; 0; 2]) 0 7 = Some (2%nat, id, ri) /\
    ncclCommSplit demo_sort (fun r => r) (fun _ => 0) (split_infos [7; 3; 7] [5; 0; 2]) 2 7 = Some (2%nat, id, rj) /\
    (rj < ri)%nat.
Proof.
  destruct (split_consistent demo_sort (fun r => r) (fun _ => 0) [7; 3; 7] [5; 0; 2] 2 0 7) as [_ Hs]; try reflexivity.
  - intros l. apply merge_sort_Permutation.
  - intros l. apply (StronglySorted_merge_sort by_key).
  - destruct (Hs ltac:(discriminate)) as (id & rj & ri & f & E1 & E2 & _ & _ & Hlt & _).
    exists id, ri, rj. split; [exact E2|]. split; [exact E1|]. apply (Hlt 2 5); reflexivity || lia.
Defined.

Definition demo_config : AlgorithmSelectorConfig := mkSelConfig false true false false (9, 0) false.
Definition demo_env : NcclEnv := mkNcclEnv "" false false.
Definition demo_order (m : gmap string string) : list string := map snd (map_to_list m).
Definition demo_comm : ncclComm string :=
  mkComm 0 8 8 (comm_collection (fun n => n) []
    (mkCB [] None (Some (default_selector demo_platform (fun _ => None) demo_order demo_config None)))).

(** An algorithm that runs every sum and minimum. *)
Definition demo_execute (_ : string) (e : exec_args) (_ : option Z) : result CommResult :=
  Ok (match ea_op e with NOP => CommInvalidArgument | _ => CommSuccess end).

Lemma single_node_served_witness :
  served demo_env demo_execute demo_comm "allreduce" (ncclAllReduce demo_platform demo_env demo_execute 16 32 1024 ncclFloat16 ncclSum (Some demo_comm))
    (mkArgs 16 32 2048 2048 FLOAT16 SUM 0 0 false AUTO) /\
  served demo_env demo_execute demo_comm "allgather" (ncclAllGather demo_platform demo_env demo_execute 16 32 1024 ncclFloat16 (Some demo_comm))
    (mkArgs 16 32 2048 16384 FLOAT16 NOP 0 0 false AUTO).
Proof.
  apply (single_node_served demo_platform demo_env demo_execute (fun _ => None) (fun n => n) [] [] demo_order demo_config None demo_comm
           16 32 1024 ncclFloat16 FLOAT16 ncclSum); try reflexivity; try discriminate.
  intros m a Hin. apply list_elem_of_fmap in Hin as ([n a2] & -> & Hin). exists n. by apply elem_of_map_to_list.
Defined.

(** when an operation is in place.  For an allgather the code agrees with the
    interface's description: it is in place exactly if the send buffer is the rank's own
    part of the receive buffer (or its start).  For a reduce-scatter it does not: with the
    receive buffer at the rank's part of the send buffer, as described, every rank
    but the first is taken to be out of place. *)
Theorem in_place_requests {A} (c : ncclComm A) (sendbuff recvbuff count total : Z) (t : ncclDataType_t) (d : DataType)
    (h : gmap string (list Z)) :
  0 <= nc_rank c < nc_nranks c -> 0 < count * ncclTypeSize t -> nc_nranks c < 2 ^ 31 ->
  0 <= sendbuff -> 0 <= recvbuff ->
  recvbuff + nc_nranks c * (count * ncclTypeSize t) < 2 ^ 64 -> sendbuff + nc_nranks c * (count * ncclTypeSize t) < 2 ^ 64 ->
  let bytes := u64 (count * ncclTypeSize t) in
  (request_bufferMode (request_of c "allgather" sendbuff recvbuff bytes d h) = InPlace <->
     sendbuff = recvbuff \/ sendbuff = recvbuff + nc_rank c * bytes) /\
  (recvbuff = sendbuff + nc_rank c * bytes -> 0 < nc_rank c ->
     request_bufferMode (request_of c "reducescatter" sendbuff recvbuff total d h) = OutOfPlace).
Proof.
  intros Hr Hb Hn Hs Hv Hov Hos bytes.
  assert (E1 : bytes = count * ncclTypeSize t) by (apply u64_small; nia).
  unfold request_bufferMode, request_of. cbn [inputBuffer outputBuffer rq_collective rq_rank messageSize]. split.
  - destruct (Z.eqb_spec sendbuff recvbuff) as [E|E]; [naive_solver|]. cbn [String.eqb Ascii.eqb Bool.eqb].
    rewrite (u64_small (nc_rank c)) by lia. rewrite (u64_small (nc_rank c * bytes)) by (rewrite E1; nia).
    rewrite u64_small by (rewrite E1; nia). simpl.
    destruct (Z.eqb_spec (recvbuff + nc_rank c * bytes) sendbuff); split; intros; try done; try naive_solver; lia.
  - intros -> Hk. destruct (Z.eqb_spec sendbuff (sendbuff + nc_rank c * bytes)); [|done]. rewrite E1 in *. nia.
Qed.

Lemma in_place_requests_witness :
  request_bufferMode (request_of (mkComm (A := unit) 2 8 8 empty_collection) "reducescatter" 1000 1200 800 FLOAT16 ∅) = OutOfPlace.
Proof.
  apply (in_place_requests (mkComm (A := unit) 2 8 8 empty_collection) 1000 1200 50 800 ncclFloat16 FLOAT16 ∅);
    simpl; lia || reflexivity.
Defined.

(** the reduction operation can be lost: for an algorithm that runs a plan a product
    or a maximum comes to the same execution, with the same result, as a sum. *)
Theorem reduction_op_ignored {A} (P : Platform) (E : NcclEnv) (execute : A -> exec_args -> option Z -> result CommResult)
    (c : ncclComm A) (sendbuff recvbuff count : Z) (t : ncclDataType_t) (op : ncclRedOp_t) (a : A) (e : exec_args)
    (executor : option (DataType -> result ())) ret :
  (forall e root, execute a e root = dsl_execute P executor e) ->
  ncclAllReduce P E execute sendbuff recvbuff count t ncclSum (Some c) = Executes a e None ret ->
  exists e', ncclAllReduce P E execute sendbuff recvbuff count t op (Some c) = Executes a e' None ret /\
    (op <> ncclSum -> op <> ncclMin -> ea_op e' = NOP).
Proof.
  intros Hdsl. unfold ncclAllReduce. destruct (nc_nranks c =? 1); [unfold single_rank; by destruct (_ =? _)|].
  destruct (_ || _); [done|]. destruct (falls_back E _); [done|]. destruct (ncclDataTypeToMscclpp P t) as [d|]; [|done].
  unfold select_and_execute. destruct (selectAlgorithm _ _) as [[b|]|]; [|by destruct (dlopenSharedLib E)|done].
  intros [= <- <- <-]. rewrite !Hdsl. eexists. split; [done|]. by destruct op.
Qed.

Lemma reduction_op_ignored_witness : let execute := fun (_ : string) e _ => dsl_execute demo_platform (Some (fun _ => Ok tt)) e in
  exists e', ncclAllReduce demo_platform demo_env execute 16 32 1024 ncclFloat16 ncclMax (Some demo_comm) =
    Executes "default_allreduce_allpair_packet"%string e' None (Ok ncclSuccess) /\ ea_op e' = NOP.
Proof.
  intros execute. destruct (reduction_op_ignored demo_platform demo_env execute demo_comm 16 32 1024 ncclFloat16 ncclMax
    "default_allreduce_allpair_packet" (mkArgs 16 32 2048 2048 FLOAT16 SUM 0 0 false AUTO) (Some (fun _ => Ok tt)) (Ok ncclSuccess)) as (e' & E & Hn);
    [done|vm_compute; reflexivity|]. exists e'. split; [exact E|]. apply Hn; discriminate.
Defined.

(** data types go to the library and back: a type the library knows keeps its size
    and comes back as itself; any other type makes the call throw. *)
Theorem data_type_roundtrip (P : Platform) (t : ncclDataType_t) :
  match ncclDataTypeToMscclpp P t with
  | Ok d => mscclppToNcclDataType P d = Ok t /\ getDataTypeSize d = ncclTypeSize t
  | Throw e => e = Usage /\
      (t = ncclInt8 \/ t = ncclInt64 \/ t = ncclUint64 \/ t = ncclFloat64 \/ t = ncclNumTypes \/
       ((t = ncclFloat8e4m3 \/ t = ncclFloat8e5m2) /\ fp8_types_exist P = false))
  end.
Proof.
  destruct P as [f e4 e5 h a]. unfold ncclDataTypeToMscclpp, mscclppToNcclDataType. simpl.
  destruct t, f, e4, e5; simpl; split; naive_solver.
Qed.
