(* ===== verification/DeviceSync.v ===== *)
(** * Device-wide synchronization

    Models include/mscclpp/concurrency_device.hpp: [DeviceSyncer], the barrier of the
    thread blocks of a kernel, and [DeviceSemaphore].

    Only thread 0 of a block touches the shared counters, between the two
    [__syncthreads] of [sync]: a block is one sequential process here, cut at its
    accesses to shared memory.  The spin limit only guards a debug assertion and is
    not modelled: a spinning process may spin on for ever. *)

From S2P Require Import Prelude.
Local Open Scope Z_scope.

(** ** [DeviceSyncer] *)

Definition NumCounters : Z := 3.

Record DeviceSyncer := mkSyncer { count_ : list Z; currentCountIdx_ : Z }.

(** Zeroed memory, as the device plan and the collectives allocate it. *)
Definition syncer_init : DeviceSyncer := mkSyncer [0; 0; 0] 0.

Definition counter (s : DeviceSyncer) (i : Z) : Z := nth (Z.to_nat i) (count_ s) 0.
Definition set_counter (s : DeviceSyncer) (i v : Z) : DeviceSyncer :=
  mkSyncer (<[Z.to_nat i := v]> (count_ s)) (currentCountIdx_ s).

(** Where a block is in [sync]. *)
Inductive bpc :=
  | BOut                               (* not in [sync] *)
  | BReset (countIdx : Z)              (* the index is read; about to reset the next counter *)
  | BAdd (countIdx : Z)                (* about to add to the counter *)
  | BPoll (countIdx : Z)               (* spinning *)
  | BStore (countIdx : Z).             (* about to store the index *)

(** Entering [sync]: with one block it returns at once. *)
Definition sync_begin (blockNum : Z) (s : DeviceSyncer) : bpc :=
  if blockNum =? 1 then BOut else BReset (u32 (currentCountIdx_ s + 1) mod NumCounters).

Definition sync_step (blockNum : Z) (s : DeviceSyncer) (p : bpc) : DeviceSyncer * bpc :=
  match p with
  | BOut => (s, BOut)
  | BReset i => (set_counter s (u32 (i + 1) mod NumCounters) 0, BAdd i)
  | BAdd i => (set_counter s i (u32 (counter s i + 1)), BPoll i)
  | BPoll i => if counter s i =? u32 blockNum then (s, BStore i) else (s, BPoll i)
  | BStore i => (mkSyncer (count_ s) i, BOut)
  end.

(** A block: where it is and how often it has entered [sync]. *)
Record block := mkBlock { bl_pc : bpc; bl_entered : nat }.

(** How often it has returned from [sync]. *)
Definition bl_left (b : block) : nat :=
  match bl_pc b with BOut => bl_entered b | _ => pred (bl_entered b) end.

Record grid := mkGrid { g_sync : DeviceSyncer; g_blocks : list block }.

Definition grid_init (n : nat) : grid := mkGrid syncer_init (replicate n (mkBlock BOut 0)).

(** The scheduler lets block [i] make one step; outside [sync] it enters it. *)
Definition grid_step (g : grid) (i : nat) : option grid :=
  let n := Z.of_nat (length (g_blocks g)) in
  b ← g_blocks g !! i;
  Some (match bl_pc b with
        | BOut => mkGrid (g_sync g) (<[i := mkBlock (sync_begin n (g_sync g)) (S (bl_entered b))]> (g_blocks g))
        | p => let '(s, p') := sync_step n (g_sync g) p in
               mkGrid s (<[i := mkBlock p' (bl_entered b)]> (g_blocks g))
        end).

Fixpoint grid_run (g : grid) (sched : list nat) : option grid :=
  match sched with
  | [] => Some g
  | i :: sched' => g' ← grid_step g i; grid_run g' sched'
  end.

(** ** [DeviceSemaphore] *)

(** The value, the threads that spin with the value they saw, and how many times
    the semaphore has been granted and released. *)
Record sem_sys := mkSemSys {
  sem_value : Z; sem_spinning : gmap nat Z; sem_granted : nat; sem_released : nat
}.

Definition sem_set (value : Z) : sem_sys := mkSemSys value ∅ 0 0.

Inductive sem_action := SAcquire (tid : nat) | SSpin (tid : nat) | SRelease.

(** One step: [acquire] up to its first load, one load of its spin loop, [release]. *)
Definition sem_act (s : sem_sys) (a : sem_action) : option sem_sys :=
  match a with
  | SAcquire tid =>
      match sem_spinning s !! tid with
      | Some _ => None
      | None =>
          let oldVal := sem_value s in
          let v := s32 (oldVal - 1) in
          Some (if oldVal <=? 0
                then mkSemSys v (<[tid := oldVal]> (sem_spinning s)) (sem_granted s) (sem_released s)
                else mkSemSys v (sem_spinning s) (S (sem_granted s)) (sem_released s))
      end
  | SSpin tid =>
      oldVal ← sem_spinning s !! tid;
      Some (if sem_value s <? oldVal then s
            else mkSemSys (sem_value s) (delete tid (sem_spinning s)) (S (sem_granted s)) (sem_released s))
  | SRelease =>
      Some (mkSemSys (s32 (sem_value s + 1)) (sem_spinning s) (sem_granted s) (S (sem_released s)))
  end.

Fixpoint sem_run (s : sem_sys) (as_ : list sem_action) : option sem_sys :=
  match as_ with
  | [] => Some s
  | a :: as' => s' ← sem_act s a; sem_run s' as'
  end.

Definition is_release (a : sem_action) : bool := match a with SRelease => true | _ => false end.

(** ** Lemmas: the barrier *)

(** Additions a block has made: one per round it has entered and counted. *)
Definition adds (b : block) : nat :=
  match bl_pc b with BReset _ | BAdd _ => pred (bl_entered b) | _ => bl_entered b end.

(** The counter of round [k]; round 0 stands for the initial state. *)
Definition idx (k : nat) : Z := Z.of_nat k mod 3.

Definition adders (k : nat) (bs : list block) : nat :=
  sum_list ((fun b => if decide (adds b = k) then 1%nat else 0%nat) <$> bs).

(** What a block may be doing when [m] rounds are complete. *)
Definition blk_ok (m : nat) (b : block) : Prop :=
  (adds b = S m /\ bl_pc b = BPoll (idx (S m))) \/
  (adds b = m /\
   match bl_pc b with
   | BOut => True
   | BPoll i | BStore i => i = idx m /\ (0 < m)%nat
   | BReset i | BAdd i => i = idx (S m) /\ (0 < bl_entered b)%nat
   end).

(** A block that has read or will read the index of round [m]. *)
Definition past_store (m : nat) (b : block) : Prop :=
  adds b = S m \/ match bl_pc b with BPoll _ | BStore _ => False | _ => True end.

(** A block that has reset the counter of round [m + 2]. *)
Definition past_reset (m : nat) (b : block) : Prop :=
  adds b = S m \/ match bl_pc b with BAdd _ => True | _ => False end.

Record barrier_inv (m : nat) (g : grid) : Prop := {
  bi_len : length (count_ (g_sync g)) = 3%nat;
  bi_blocks : forall i b, g_blocks g !! i = Some b -> blk_ok m b;
  bi_some : (adders (S m) (g_blocks g) < length (g_blocks g))%nat;
  bi_done : (0 < m)%nat -> counter (g_sync g) (idx m) = Z.of_nat (length (g_blocks g));
  bi_next : counter (g_sync g) (idx (S m)) = Z.of_nat (adders (S m) (g_blocks g));
  bi_reset : forall i b, g_blocks g !! i = Some b -> past_reset m b -> counter (g_sync g) (idx (S (S m))) = 0;
  bi_index : forall i b, g_blocks g !! i = Some b -> past_store m b -> currentCountIdx_ (g_sync g) = idx m
}.

Lemma idx_range k : 0 <= idx k < 3.
Proof. unfold idx. apply Z.mod_pos_bound. lia. Qed.

Lemma idx_succ k : u32 (idx k + 1) mod NumCounters = idx (S k).
Proof.
  pose proof (idx_range k). rewrite u32_small by lia. unfold idx, NumCounters.
  rewrite Z.add_mod_idemp_l by lia. f_equal. lia.
Qed.

Lemma idx_distinct k : idx k <> idx (S k) /\ idx k <> idx (S (S k)) /\ idx (S k) <> idx (S (S k)).
Proof.
  assert (H : forall a d : nat, (0 < d < 3)%nat -> idx a <> idx (d + a)).
  { intros a d Hd E. unfold idx in E.
    assert (Z.of_nat a = Z.of_nat (d + a)) by (apply (ring_inj 3); [lia|done|lia]). lia. }
  split_and!; [apply (H k 1%nat ltac:(lia))|apply (H k 2%nat ltac:(lia))|apply (H (S k) 1%nat ltac:(lia))].
Qed.

Lemma counter_set_eq s i v : length (count_ s) = 3%nat -> 0 <= i < 3 -> counter (set_counter s i v) i = v.
Proof.
  intros Hl Hi. unfold counter, set_counter. simpl. rewrite nth_lookup, list_lookup_insert_eq by lia. done.
Qed.

Lemma counter_set_ne s i j v : 0 <= i -> 0 <= j -> i <> j -> counter (set_counter s i v) j = counter s j.
Proof.
  intros Hi Hj Hne. unfold counter, set_counter. simpl. rewrite !nth_lookup, list_lookup_insert_ne by lia. done.
Qed.

Lemma adders_insert k bs i b b' :
  bs !! i = Some b ->
  (adders k (<[i := b']> bs) + (if decide (adds b = k) then 1 else 0) =
   adders k bs + (if decide (adds b' = k) then 1 else 0))%nat.
Proof.
  intros Hi. unfold adders. rewrite list_fmap_insert. apply sum_list_insert.
  by rewrite list_lookup_fmap, Hi.
Qed.

Lemma adders_cons k b bs : adders k (b :: bs) = ((if decide (adds b = k) then 1 else 0) + adders k bs)%nat.
Proof. done. Qed.

Lemma adders_le k bs : (adders k bs <= length bs)%nat.
Proof.
  induction bs as [|b bs IH]; [done|]. rewrite adders_cons. simpl. destruct (decide (adds b = k)); lia.
Qed.

Lemma adders_full k bs : adders k bs = length bs -> forall i b, bs !! i = Some b -> adds b = k.
Proof.
  induction bs as [|x bs IH]; intros H i b Hi; [done|]. rewrite adders_cons in H. simpl in H.
  pose proof (adders_le k bs). destruct (decide (adds x = k)); [|lia].
  destruct i; simpl in Hi; [by simplify_eq|]. eapply IH; [lia|done].
Qed.

Lemma adders_none k bs : (forall i b, bs !! i = Some b -> adds b <> k) -> adders k bs = 0%nat.
Proof.
  induction bs as [|x bs IH]; intros H; [done|]. rewrite adders_cons.
  rewrite decide_False by (by apply (H 0%nat)). apply IH. intros i b Hi. by apply (H (S i)).
Qed.

(** A step of a block that counts nothing. *)
Lemma inv_move m s bs i b b' s' :
  barrier_inv m (mkGrid s bs) -> bs !! i = Some b -> adds b' = adds b -> blk_ok m b' ->
  length (count_ s') = 3%nat -> counter s' (idx m) = counter s (idx m) ->
  counter s' (idx (S m)) = counter s (idx (S m)) ->
  counter s' (idx (S (S m))) = counter s (idx (S (S m))) \/ counter s' (idx (S (S m))) = 0 ->
  (past_reset m b' -> counter s' (idx (S (S m))) = 0) ->
  currentCountIdx_ s' = currentCountIdx_ s \/ currentCountIdx_ s' = idx m ->
  (past_store m b' -> currentCountIdx_ s' = idx m) ->
  barrier_inv m (mkGrid s' (<[i := b']> bs)).
Proof.
  intros [I1 I2 I3 I4 I5 I6 I7] Hb Ha Hok Hl C0 C1 C2 Hr Hc Hs. simpl in *.
  pose proof (adders_insert (S m) bs i b b' Hb) as Hn. rewrite Ha in Hn.
  assert (En : adders (S m) (<[i := b']> bs) = adders (S m) bs) by lia.
  split; simpl; rewrite ?length_insert, ?En, ?C0, ?C1; try done.
  - intros j x [(-> & -> & _)|[_ Hx]]%list_lookup_insert_Some; eauto.
  - intros j x [(-> & -> & _)|[_ Hx]]%list_lookup_insert_Some Hp; [auto|].
    destruct C2 as [-> | ->]; eauto.
  - intros j x [(-> & -> & _)|[_ Hx]]%list_lookup_insert_Some Hp; [auto|].
    destruct Hc as [-> | ->]; eauto.
Qed.

(** Steps a block still has to make in its round. *)
Definition distance (m : nat) (b : block) : nat :=
  if decide (adds b = S m) then 0%nat
  else match bl_pc b with BPoll _ => 5 | BStore _ => 4 | BOut => 3 | BReset _ => 2 | BAdd _ => 1 end%nat.
Definition distances (m : nat) (bs : list block) : nat := sum_list (distance m <$> bs).

Lemma distances_insert m bs i b b' :
  bs !! i = Some b -> (distances m (<[i := b']> bs) + distance m b = distances m bs + distance m b')%nat.
Proof.
  intros Hi. unfold distances. rewrite list_fmap_insert. apply sum_list_insert. by rewrite list_lookup_fmap, Hi.
Qed.

(** What a step leads to: the next round, or the same round with its block nearer. *)
Definition stepped (m : nat) (b : block) (g g' : grid) : Prop :=
  length (g_blocks g') = length (g_blocks g) /\
  (barrier_inv (S m) g' \/
   barrier_inv m g' /\ (adds b = m -> distances m (g_blocks g') < distances m (g_blocks g))%nat).

(** The block that makes the last addition of a round completes it. *)
Lemma inv_add m s bs i b e :
  barrier_inv m (mkGrid s bs) -> Z.of_nat (length bs) < 2 ^ 32 ->
  bs !! i = Some b -> adds b = m -> b = mkBlock (BAdd (idx (S m))) e -> (0 < e)%nat ->
  let s' := set_counter s (idx (S m)) (u32 (counter s (idx (S m)) + 1)) in
  let bs' := <[i := mkBlock (BPoll (idx (S m))) e]> bs in
  barrier_inv (S m) (mkGrid s' bs') \/ barrier_inv m (mkGrid s' bs').
Proof.
  intros [I1 I2 I3 I4 I5 I6 I7] Hn Hb Ha -> He s' bs'. simpl in *. set (b' := mkBlock (BPoll _) e) in *.
  unfold adds in Ha. simpl in Ha. assert (Ha' : adds b' = S m) by (unfold adds, b'; simpl; lia).
  pose proof (idx_range m). pose proof (idx_range (S m)). pose proof (idx_range (S (S m))).
  pose proof (idx_distinct m) as (D1 & D2 & D3).
  assert (Hc : adders (S m) bs' = S (adders (S m) bs)).
  { pose proof (adders_insert (S m) bs i _ b' Hb) as Hc. rewrite Ha' in Hc. fold bs' in Hc.
    unfold adds in Hc at 1. simpl in Hc.
    destruct (decide (S m = S m)); [|done]. destruct (decide (pred e = S m)); lia. }
  pose proof (I6 _ _ Hb ltac:(by right)) as Hz. pose proof (I7 _ _ Hb ltac:(by right)) as Hi.
  assert (C1 : counter s' (idx (S m)) = Z.of_nat (adders (S m) bs')).
  { unfold s'. rewrite counter_set_eq by done. rewrite I5, u32_small by lia. lia. }
  assert (C0 : counter s' (idx m) = counter s (idx m)) by (apply counter_set_ne; lia).
  assert (C2 : counter s' (idx (S (S m))) = 0) by (rewrite <- Hz; apply counter_set_ne; lia).
  assert (Hl : length bs' = length bs) by apply length_insert.
  assert (Hs : length (count_ s') = 3%nat) by (unfold s'; simpl; by rewrite length_insert).
  destruct (decide (adders (S m) bs' = length bs')) as [Hfull|Hnot].
  - left. pose proof (adders_full _ _ Hfull) as Hall.
    assert (Hpoll : forall j x, bs' !! j = Some x -> adds x = S m /\ bl_pc x = BPoll (idx (S m))).
    { intros j x Hx. pose proof (Hall _ _ Hx) as Ex. split; [done|].
      unfold bs' in Hx. apply list_lookup_insert_Some in Hx as [(-> & <- & _)|[_ Hx]]; [done|].
      destruct (I2 _ _ Hx) as [[_ Hp]|[E _]]; [done|lia]. }
    split; simpl; rewrite ?C1, ?C2; try done.
    + intros j x Hx. destruct (Hpoll _ _ Hx) as [E Hp]. right. rewrite Hp. split; [done|]. split; [done|lia].
    + rewrite adders_none; [lia|]. intros j x Hx. rewrite (Hall _ _ Hx). lia.
    + by rewrite Hfull.
    + rewrite adders_none; [done|]. intros j x Hx. rewrite (Hall _ _ Hx). lia.
    + intros j x Hx [E|E]; destruct (Hpoll _ _ Hx) as [E' Hp]; [lia|by rewrite Hp in E].
    + intros j x Hx [E|E]; destruct (Hpoll _ _ Hx) as [E' Hp]; [lia|by rewrite Hp in E].
  - right. pose proof (adders_le (S m) bs'). split; simpl; rewrite ?C0, ?C1, ?C2, ?Hl; try done.
    + intros j x [(-> & <- & _)|[_ Hx]]%list_lookup_insert_Some; [by left|eauto].
    + lia.
Qed.

Lemma step_same m s bs i b b' s' :
  barrier_inv m (mkGrid s' (<[i := b']> bs)) -> bs !! i = Some b -> adds b' = adds b ->
  (adds b = m -> distance m b' < distance m b)%nat ->
  stepped m b (mkGrid s bs) (mkGrid s' (<[i := b']> bs)).
Proof.
  intros Hi Hb Ha Hd. split; simpl; [by rewrite length_insert|]. right. split; [done|]. intros Hm.
  pose proof (distances_insert m bs i b b' Hb). specialize (Hd Hm). lia.
Qed.

Lemma distance_at m b k : adds b = m ->
  match bl_pc b with BPoll _ => 5 | BStore _ => 4 | BOut => 3 | BReset _ => 2 | BAdd _ => 1 end%nat = k ->
  distance m b = k.
Proof. intros Ha <-. unfold distance. rewrite decide_False by lia. done. Qed.

Lemma inv_step m g i b :
  barrier_inv m g -> 2 <= Z.of_nat (length (g_blocks g)) < 2 ^ 32 -> g_blocks g !! i = Some b ->
  exists g', grid_step g i = Some g' /\ stepped m b g g'.
Proof.
  destruct g as [s bs], b as [p e]. intros Hinv Hn Hb. simpl in Hn, Hb.
  pose proof Hinv as [I1 I2 I3 I4 I5 I6 I7]. simpl in *.
  pose proof (idx_range m). pose proof (idx_range (S m)). pose proof (idx_range (S (S m))).
  pose proof (idx_distinct m) as (D1 & D2 & D3).
  unfold grid_step. simpl. rewrite Hb. cbn [mbind option_bind]. eexists. split; [done|].
  destruct (I2 _ _ Hb) as [[Ha Hp]|[Ha Hp]]; simpl in Hp.
  - subst p. simpl. rewrite I5, u32_small, (proj2 (Z.eqb_neq _ _)) by lia.
    apply (step_same _ _ _ _ (mkBlock (BPoll (idx (S m))) e)); [|done|done|lia].
    eapply inv_move; try done; eauto.
  - destruct p as [|j|j|j|j]; simpl in *.
    + unfold sync_begin. rewrite (proj2 (Z.eqb_neq _ _)) by lia.
      assert (Hi : currentCountIdx_ s = idx m) by (apply (I7 _ _ Hb); by right).
      rewrite Hi, idx_succ. set (b' := mkBlock (BReset _) (S e)). assert (Ha' : adds b' = m) by done.
      apply (step_same _ _ _ _ (mkBlock BOut e)); [|done|done|].
      * eapply inv_move; try done; eauto.
        right. split; [done|]. split; [done|simpl; lia].
      * intros _. rewrite !(distance_at _ _ _ Ha eq_refl), (distance_at _ _ _ Ha' eq_refl). simpl. lia.
    + destruct Hp as [-> He]. rewrite idx_succ. set (b' := mkBlock (BAdd (idx (S m))) e).
      assert (Ha' : adds b' = m) by done.
      apply (step_same _ _ _ _ (mkBlock (BReset (idx (S m))) e)); [|done|done|].
      * eapply inv_move; try done; eauto.
        -- right. split; [done|]. done.
        -- simpl. by rewrite length_insert.
        -- apply counter_set_ne; lia.
        -- apply counter_set_ne; lia.
        -- right. by apply counter_set_eq.
        -- intros _. by apply counter_set_eq.
      * intros _. rewrite (distance_at _ _ _ Ha eq_refl), (distance_at _ _ _ Ha' eq_refl). simpl. lia.
    + destruct Hp as [-> He]. pose proof (inv_add m s bs i _ e Hinv ltac:(lia) Hb Ha eq_refl He) as HA.
      split; simpl; [by rewrite length_insert|]. destruct HA as [HA|HA]; [by left|right]. split; [done|].
      intros _. set (b' := mkBlock (BPoll _) e) in *. pose proof (distances_insert m bs i _ b' Hb) as Hd.
      rewrite (distance_at _ _ _ Ha eq_refl) in Hd. simpl in Hd.
      assert (distance m b' = 0%nat); [|lia]. unfold distance. rewrite decide_True; [done|].
      unfold adds, b' in *. simpl in *. lia.
    + destruct Hp as [-> Hm]. rewrite I4, u32_small, Z.eqb_refl by lia. set (b' := mkBlock (BStore _) e).
      assert (Ha' : adds b' = m) by done.
      apply (step_same _ _ _ _ (mkBlock (BPoll (idx m)) e)); [|done|done|].
      * eapply inv_move; try done; eauto. by right.
      * intros _. rewrite (distance_at _ _ _ Ha eq_refl), (distance_at _ _ _ Ha' eq_refl). simpl. lia.
    + destruct Hp as [-> Hm]. set (b' := mkBlock BOut e). assert (Ha' : adds b' = m) by done.
      apply (step_same _ _ _ _ (mkBlock (BStore (idx m)) e)); [|done|done|].
      * eapply inv_move; try done; eauto. by right.
      * intros _. rewrite (distance_at _ _ _ Ha eq_refl), (distance_at _ _ _ Ha' eq_refl). simpl. lia.
Qed.

Lemma barrier_inv_init n : (0 < n)%nat -> barrier_inv 0 (grid_init n).
Proof.
  intros Hn. unfold grid_init.
  assert (Hrep : forall i b, replicate n (mkBlock BOut 0) !! i = Some b -> b = mkBlock BOut 0)
    by (intros i b [-> _]%lookup_replicate_1; done).
  split; simpl; try done; try lia.
  - intros i b ->%Hrep. by right.
  - rewrite adders_none, length_replicate; [lia|]. by intros i b ->%Hrep.
  - rewrite adders_none; [done|]. by intros i b ->%Hrep.
Qed.

Lemma grid_run_app g s1 s2 : grid_run g (s1 ++ s2) = g' ← grid_run g s1; grid_run g' s2.
Proof.
  revert g. induction s1 as [|i s1 IH]; intros g; simpl; [done|].
  destruct (grid_step g i) as [g1|]; cbn [mbind option_bind]; [apply IH|done].
Qed.

Lemma grid_step_lookup g i g' : grid_step g i = Some g' -> exists b, g_blocks g !! i = Some b.
Proof. unfold grid_step. destruct (g_blocks g !! i); [eauto|done]. Qed.

Lemma grid_run_inv sched : forall m g g',
  barrier_inv m g -> 2 <= Z.of_nat (length (g_blocks g)) < 2 ^ 32 -> grid_run g sched = Some g' ->
  exists m', barrier_inv m' g' /\ length (g_blocks g') = length (g_blocks g).
Proof.
  induction sched as [|i sched IH]; intros m g g' Hi Hn Hr; simpl in Hr; [simplify_eq; eauto|].
  destruct (grid_step g i) as [g1|] eqn:E; [|done]. cbn [mbind option_bind] in Hr.
  destruct (grid_step_lookup _ _ _ E) as [b Hb]. destruct (inv_step _ _ _ _ Hi Hn Hb) as (g2 & E2 & Hl & Hs).
  rewrite E in E2. injection E2 as <-. rewrite <- Hl in *.
  destruct Hs as [Hs|[Hs _]]; eapply IH; eauto.
Qed.

#[local] Arguments grid_step : simpl never.

(** With a single block [sync] returns at once. *)
Lemma one_block_step e : grid_step (mkGrid syncer_init [mkBlock BOut e]) 0 = Some (mkGrid syncer_init [mkBlock BOut (S e)]).
Proof. done. Qed.

Lemma one_block_run sched : forall e g,
  grid_run (mkGrid syncer_init [mkBlock BOut e]) sched = Some g -> exists e', g = mkGrid syncer_init [mkBlock BOut e'].
Proof.
  induction sched as [|i sched IH]; intros e g Hr; simpl in Hr; [simplify_eq; eauto|].
  destruct i as [|i]; [|done]. rewrite one_block_step in Hr. eapply IH. exact Hr.
Qed.

Lemma one_block_rounds k : forall e,
  grid_run (mkGrid syncer_init [mkBlock BOut e]) (replicate k 0%nat) = Some (mkGrid syncer_init [mkBlock BOut (k + e)]).
Proof.
  induction k as [|k IH]; intros e; [done|]. cbn [replicate grid_run]. rewrite one_block_step. cbn [mbind option_bind].
  rewrite IH. do 4 f_equal. lia.
Qed.

Lemma left_bound m b : blk_ok m b -> (m <= bl_entered b /\ m <= S (bl_left b) /\ bl_left b <= m)%nat.
Proof.
  unfold blk_ok, adds, bl_left. intros [[Ha Hp]|[Ha Hp]]; destruct (bl_pc b); simplify_eq; lia.
Qed.

Lemma behind m bs : (adders (S m) bs < length bs)%nat -> exists i b, bs !! i = Some b /\ adds b <> S m.
Proof.
  induction bs as [|x bs IH]; intros H; simpl in H; [lia|]. rewrite adders_cons in H.
  destruct (decide (adds x = S m)); [|by exists 0%nat, x].
  destruct (IH ltac:(lia)) as (i & b & Hi & Hb). by exists (S i), b.
Qed.

(** One round can always be completed. *)
Lemma round_completes m g :
  barrier_inv m g -> 2 <= Z.of_nat (length (g_blocks g)) < 2 ^ 32 ->
  exists sched g', grid_run g sched = Some g' /\ barrier_inv (S m) g' /\ length (g_blocks g') = length (g_blocks g).
Proof.
  remember (distances m (g_blocks g)) as d eqn:Ed. revert g Ed.
  induction d as [d IH] using lt_wf_ind. intros g -> Hi Hn.
  destruct (behind _ _ (bi_some _ _ Hi)) as (i & b & Hb & Hne).
  destruct (inv_step _ _ _ _ Hi Hn Hb) as (g1 & E & Hl & Hs).
  destruct Hs as [Hs|[Hs Hd]].
  - exists [i], g1. simpl. by rewrite E.
  - assert (Ha : adds b = m) by (destruct (bi_blocks _ _ Hi _ _ Hb) as [[? _]|[? _]]; [lia|done]).
    destruct (IH _ (Hd Ha) g1 eq_refl Hs ltac:(by rewrite Hl)) as (sched & g' & Hr & Hg & Hl').
    exists (i :: sched), g'. simpl. rewrite E. cbn [mbind option_bind]. by rewrite Hr, Hl', Hl.
Qed.

Lemma rounds_complete k : forall m g,
  barrier_inv m g -> 2 <= Z.of_nat (length (g_blocks g)) < 2 ^ 32 ->
  exists sched g', grid_run g sched = Some g' /\ barrier_inv (k + m) g'.
Proof.
  induction k as [|k IH]; intros m g Hi Hn; [exists [], g; by simpl|].
  destruct (round_completes _ _ Hi Hn) as (s1 & g1 & R1 & H1 & L1).
  destruct (IH (S m) g1 H1 ltac:(by rewrite L1)) as (s2 & g2 & R2 & H2).
  exists (s1 ++ s2), g2. rewrite grid_run_app, R1. cbn [mbind option_bind]. split; [done|].
  by replace (S k + m)%nat with (k + S m)%nat by lia.
Qed.

(** ** Properties *)

(** C16: the barrier of [n] thread blocks: in every interleaving, when one block has
    returned from its [k]-th [sync] every block has entered its [k]-th [sync]; and from
    every reachable state the blocks can go on to complete any number of further
    rounds, so the three rotating counters never block or release anyone wrongly. *)
Theorem device_barrier (n : nat) (sched : list nat) (g : grid) :
  (0 < n)%nat -> Z.of_nat n < 2 ^ 32 -> grid_run (grid_init n) sched = Some g ->
  (forall a b x y, g_blocks g !! a = Some x -> g_blocks g !! b = Some y -> (bl_left x <= bl_entered y)%nat) /\
  (forall k, exists sched' g', grid_run g sched' = Some g' /\
     forall b y, g_blocks g' !! b = Some y -> (k <= bl_left y)%nat).
Proof.
  intros Hn Hw Hr. destruct (decide (n = 1)%nat) as [->|Hne].
  - destruct (one_block_run _ _ _ Hr) as [e ->]. split.
    + intros [|a] [|b] x y Hx Hy; simpl in *; simplify_eq. done.
    + intros k. eexists _, _. split; [apply (one_block_rounds k)|]. intros [|b] y Hy; simpl in *; simplify_eq.
      unfold bl_left. simpl. lia.
  - destruct (grid_run_inv _ _ _ _ (barrier_inv_init n Hn) ltac:(simpl; rewrite length_replicate; lia) Hr) as (m & Hi & Hl).
    simpl in Hl. rewrite length_replicate in Hl. split.
    + intros a b x y Hx Hy. pose proof (left_bound _ _ (bi_blocks _ _ Hi _ _ Hx)).
      pose proof (left_bound _ _ (bi_blocks _ _ Hi _ _ Hy)). lia.
    + intros k. destruct (rounds_complete (S k) m g Hi ltac:(lia)) as (s' & g' & R' & I').
      exists s', g'. split; [done|]. intros b y Hy. pose proof (left_bound _ _ (bi_blocks _ _ I' _ _ Hy)). lia.
Qed.

Definition demo_sched : list nat := [0; 1; 0; 1; 1; 0; 0; 0; 1; 1]%nat.

Lemma device_barrier_witness :
  exists g, grid_run (grid_init 2) demo_sched = Some g /\ map bl_left (g_blocks g) = [1; 1]%nat /\
  exists sched' g', grid_run g sched' = Some g' /\ forall b y, g_blocks g' !! b = Some y -> (3 <= bl_left y)%nat.
Proof.
  eexists. split; [vm_compute; reflexivity|]. split; [vm_compute; reflexivity|].
  apply (proj2 (device_barrier 2 demo_sched _ ltac:(lia) ltac:(lia) ltac:(vm_compute; reflexivity)) 3%nat).
Defined.

Definition is_acquire (a : sem_action) : bool := match a with SAcquire _ => true | _ => false end.
Definition acquires (as_ : list sem_action) : nat := length (filter (fun a => is_acquire a = true) as_).
Definition releases (as_ : list sem_action) : nat := length (filter (fun a => is_release a = true) as_).

(** Every level the value has fallen through is held by a thread that saw it. *)
Record sem_inv (V A : Z) (s : sem_sys) : Prop := {
  si_value : sem_value s = V + Z.of_nat (sem_released s) - A;
  si_levels : forall l, sem_value s < l <= 0 -> exists tid, sem_spinning s !! tid = Some l;
  si_count : A = Z.of_nat (sem_granted s) + Z.of_nat (size (sem_spinning s))
}.

Lemma size_delete (m : gmap nat Z) i x : m !! i = Some x -> size m = S (size (delete i m)).
Proof.
  intros H. rewrite <- (insert_delete_id m i x H) at 1. apply map_size_insert_None. apply lookup_delete_eq.
Qed.

Lemma levels_size (k : nat) : forall m : gmap nat Z,
  (forall l, - Z.of_nat k < l <= 0 -> exists tid, m !! tid = Some l) -> (k <= size m)%nat.
Proof.
  induction k as [|k IH]; intros m H; [lia|].
  destruct (H (- Z.of_nat k) ltac:(lia)) as [tid Ht].
  enough (k <= size (delete tid m))%nat by (rewrite (size_delete _ _ _ Ht); lia).
  apply IH. intros l Hl. destruct (H l ltac:(lia)) as [t Hlt]. exists t.
  rewrite lookup_delete_ne; [done|]. intros ->. rewrite Ht in Hlt. injection Hlt as E. lia.
Qed.

Lemma sem_inv_grants V A s : sem_inv V A s -> Z.of_nat (sem_granted s) <= V + Z.of_nat (sem_released s).
Proof.
  intros [I1 I2 I3]. destruct (decide (0 <= sem_value s)); [lia|].
  pose proof (levels_size (Z.to_nat (- sem_value s)) (sem_spinning s)) as H.
  rewrite Z2Nat.id in H by lia. specialize (H ltac:(intros; apply I2; lia)). lia.
Qed.

Lemma sem_inv_act V A s a s' :
  sem_inv V A s -> 0 <= V -> V + Z.of_nat (sem_released s) < 2 ^ 31 - 1 -> 0 <= A < 2 ^ 31 - 1 -> sem_act s a = Some s' ->
  sem_inv V (A + (if is_acquire a then 1 else 0)) s' /\
  sem_released s' = (sem_released s + (if is_release a then 1 else 0))%nat.
Proof.
  intros [I1 I2 I3] HV HR HA Ha. destruct a as [tid|tid|]; simpl in *.
  - destruct (sem_spinning s !! tid) eqn:Hf; [done|]. injection Ha as <-.
    rewrite s32_small by lia. destruct (Z.leb_spec (sem_value s) 0); split; simpl; try lia; split; simpl; try lia.
    + intros l Hl. destruct (decide (l = sem_value s)) as [->|]; [exists tid; apply lookup_insert_eq|].
      destruct (I2 l ltac:(lia)) as [t Ht]. exists t. rewrite lookup_insert_ne; [done|]. congruence.
    + rewrite map_size_insert_None by done. lia.
  - destruct (sem_spinning s !! tid) as [old|] eqn:Hf; [|done]. cbn [mbind option_bind] in Ha. injection Ha as <-.
    rewrite Z.add_0_r, Nat.add_0_r. destruct (Z.ltb_spec (sem_value s) old); [done|].
    split; [|done]. split; simpl; [done| |].
    + intros l Hl. destruct (I2 l Hl) as [t Ht]. exists t. rewrite lookup_delete_ne; [done|].
      intros ->. rewrite Hf in Ht. injection Ht as ->. lia.
    + rewrite (size_delete _ _ _ Hf) in I3. lia.
  - injection Ha as <-. rewrite s32_small by lia. split; simpl; [|lia]. split; simpl; [lia| |lia].
    intros l Hl. apply I2. lia.
Qed.

Lemma acquires_cons a as_ : acquires (a :: as_) = ((if is_acquire a then 1 else 0) + acquires as_)%nat.
Proof. by destruct a. Qed.
Lemma releases_cons a as_ : releases (a :: as_) = ((if is_release a then 1 else 0) + releases as_)%nat.
Proof. by destruct a. Qed.

Lemma sem_inv_run V as_ : forall A s s',
  sem_inv V A s -> 0 <= V -> V + Z.of_nat (sem_released s + releases as_) < 2 ^ 31 - 1 ->
  0 <= A -> A + Z.of_nat (acquires as_) < 2 ^ 31 - 1 -> sem_run s as_ = Some s' ->
  exists A', sem_inv V A' s' /\ sem_released s' = (sem_released s + releases as_)%nat.
Proof.
  induction as_ as [|a as_ IH]; intros A s s' Hi HV HR HA HA' Hr; simpl in Hr.
  - injection Hr as <-. exists A. split; [done|]. unfold releases. simpl. lia.
  - rewrite acquires_cons in HA'. rewrite releases_cons in HR |- *.
    destruct (sem_act s a) as [s1|] eqn:E; [|done]. cbn [mbind option_bind] in Hr.
    destruct (sem_inv_act V A s a s1 Hi HV ltac:(lia) ltac:(lia) E) as [H1 E1].
    destruct (IH _ _ _ H1 HV ltac:(destruct (is_release a); lia) ltac:(destruct (is_acquire a); lia) ltac:(destruct (is_acquire a); lia) Hr) as (A' & H' & E').
    exists A'. split; [done|]. lia.
Qed.

(** the semaphore never grants more than its initial value and the releases so far
    allow, in every interleaving of acquirers, their spinning loads and releases. *)
Theorem device_semaphore_safe (V : Z) (as_ : list sem_action) (s : sem_sys) :
  0 <= V -> V + Z.of_nat (releases as_) < 2 ^ 31 - 1 -> Z.of_nat (acquires as_) < 2 ^ 31 - 1 ->
  sem_run (sem_set V) as_ = Some s ->
  Z.of_nat (sem_granted s) <= V + Z.of_nat (releases as_).
Proof.
  intros HV HR HA Hr. destruct (sem_inv_run V as_ 0 (sem_set V) s) as (A' & Hi & E); simpl; try done; [split; simpl; try lia; done|].
  simpl in E. rewrite <- E. by apply (sem_inv_grants V A').
Qed.

Definition demo_acts : list sem_action :=
  [SAcquire 0; SAcquire 1; SAcquire 2; SSpin 1; SRelease; SSpin 2; SSpin 1; SRelease; SSpin 1].

Lemma device_semaphore_safe_witness :
  exists s, sem_run (sem_set 1) demo_acts = Some s /\ Z.of_nat (sem_granted s) <= 1 + Z.of_nat (releases demo_acts).
Proof. eexists. split; [vm_compute; reflexivity|]. by apply (device_semaphore_safe 1 demo_acts). Defined.

(** Every waiting thread saw more than the value now is. *)
Definition stuck (s : sem_sys) : Prop :=
  sem_value s < 0 /\ forall tid old, sem_spinning s !! tid = Some old -> sem_value s < old.

Lemma stuck_act s a s' :
  stuck s -> is_release a = false -> - 2 ^ 31 < sem_value s -> sem_act s a = Some s' ->
  stuck s' /\ sem_granted s' = sem_granted s /\ sem_value s - 1 <= sem_value s'.
Proof.
  intros [Hv Hs] Hr Hb Ha. destruct a as [tid|tid|]; simpl in *; [| |done].
  - destruct (sem_spinning s !! tid) eqn:Hf; [done|]. injection Ha as <-.
    rewrite s32_small, (proj2 (Z.leb_le _ _)) by lia. simpl. split; [|lia]. split; simpl; [lia|].
    intros t old [[<- <-]|[_ Ht]]%lookup_insert_Some; [lia|]. specialize (Hs _ _ Ht). lia.
  - destruct (sem_spinning s !! tid) as [old|] eqn:Hf; [|done]. cbn [mbind option_bind] in Ha. injection Ha as <-.
    rewrite (proj2 (Z.ltb_lt _ _)) by eauto. split; [done|lia].
Qed.

Lemma stuck_run as_ : forall s s',
  stuck s -> releases as_ = 0%nat -> - 2 ^ 31 + Z.of_nat (length as_) < sem_value s -> sem_run s as_ = Some s' ->
  sem_granted s' = sem_granted s.
Proof.
  induction as_ as [|a as_ IH]; intros s s' Hs Hr Hb Hrun; simpl in Hrun; [by injection Hrun as <-|].
  rewrite releases_cons in Hr. destruct (is_release a) eqn:Ea; [done|]. simpl in Hr, Hb.
  destruct (sem_act s a) as [s1|] eqn:E; [|done]. cbn [mbind option_bind] in Hrun.
  destruct (stuck_act _ _ _ Hs Ea ltac:(lia) E) as (H1 & <- & Hv). apply (IH s1 s'); [done|done|lia|done].
Qed.

(** used as a lock of three threads, [DeviceSemaphore] can lose its only permit: the
    holder has released it, nobody holds it, two threads spin, and no continuation in
    which the waiting or further threads run grants it again, since only a thread
    that was granted the lock would release it. *)
Theorem device_semaphore_deadlocks :
  exists sched s, sem_run (sem_set 1) sched = Some s /\
    sem_granted s = sem_released s /\ size (sem_spinning s) = 2%nat /\
    forall as_ s', releases as_ = 0%nat -> Z.of_nat (length as_) < 2 ^ 31 - 1 -> sem_run s as_ = Some s' ->
      sem_granted s' = sem_granted s.
Proof.
  exists [SAcquire 0; SAcquire 1; SRelease; SAcquire 2]%nat. eexists. split; [vm_compute; reflexivity|].
  split; [done|]. split; [done|]. intros as_ s' Hr Hl Hrun. eapply stuck_run; [|done| |exact Hrun]; simpl; [|lia].
  split; simpl; [lia|]. intros tid old H. apply elem_of_map_to_list in H. revert H.
  match goal with |- context [map_to_list ?m] => let x := eval vm_compute in (map_to_list m) in change (map_to_list m) with x end.
  rewrite !elem_of_cons. intros [?|[?|[]%elem_of_nil]]; simplify_eq; lia.
Qed.
