(* ===== verification/DeviceCopy.v ===== *)
(** * Device-side copies

    Models the copies of include/mscclpp/copy_device.hpp that a group of GPU threads
    makes together, on behalf of [MemoryChannelDeviceHandle::put] and [get]
    (memory_channel_device.hpp); [Packets] models its packet transfers.  Threads are
    interleaved by iteration of their loops, each of which loads one element into a
    register and stores it. *)

From S2P Require Import Prelude Connection.
Local Open Scope Z_scope.

(** ** The loop all of them share *)

(** [for (size_t i = start; i < num; i += step)]: the values of [i]. *)
Fixpoint strided_from (fuel : nat) (i step num : Z) : list Z :=
  match fuel with
  | O => []
  | S fuel' => if i <? num then i :: strided_from fuel' (u64 (i + step)) step num else []
  end.

(** At most [num] iterations: the step is positive. *)
Definition strided (threadId numThreads num : Z) : list Z :=
  strided_from (Z.to_nat num) threadId numThreads num.

Definition threads (numThreads : Z) : list Z := map Z.of_nat (seq 0 (Z.to_nat numThreads)).

(** ** Copying memory *)

(** One iteration: load [len] bytes into a register and store them. *)
Record copy_act := mkAct { ca_dst : Z; ca_src : Z; ca_len : nat }.

Definition run_act (m : memory) (c : copy_act) : memory :=
  mem_write m (ca_dst c) (mem_read m (ca_src c) (ca_len c)).
Definition run_acts (m : memory) (cs : list copy_act) : memory := foldl run_act m cs.

(** [detail::copy<T>]; [size] is [sizeof(T)]. *)
Definition detail_copy (size dst src numElems threadId numThreads : Z) : list copy_act :=
  map (fun i => mkAct (dst + i * size) (src + i * size) (Z.to_nat size)) (strided threadId numThreads numElems).

Definition sizeof_int : Z := 4.
Definition align_up (size p : Z) : Z := u64 (p + size - 1) / size * size.

(** Integers before the first aligned element. *)
Definition nFirstInt (size dst : Z) : Z := u64 (align_up size dst - dst) / sizeof_int.

(** [copyHelper<T, CopyRemainder>]. *)
Definition copyHelper (size : Z) (copyRemainder : bool) (dst src bytes threadId numThreads : Z) : list copy_act :=
  let numInt := bytes / sizeof_int in
  let nFirst := nFirstInt size dst in
  let nIntPerElem := size / sizeof_int in
  let nElem := u64 (numInt - nFirst) / nIntPerElem in
  (if copyRemainder then detail_copy sizeof_int dst src nFirst threadId numThreads else []) ++
  detail_copy size (align_up size dst) (align_up size src) nElem threadId numThreads ++
  (if copyRemainder && (1 <? nIntPerElem) then
     let nLastInt := u64 (numInt - nFirst) mod nIntPerElem in
     let done := (nFirst + nElem * nIntPerElem) * sizeof_int in
     detail_copy sizeof_int (dst + done) (src + done) nLastInt threadId numThreads
   else []).

(** [copy<Alignment, CopyRemainder>]; other alignments do not compile. *)
Definition copy (alignment : Z) (copyRemainder : bool) (dst src bytes threadId numThreads : Z)
    : option (list copy_act) :=
  if (alignment =? 4) || (alignment =? 8) || (alignment =? 16)
  then Some (copyHelper alignment copyRemainder dst src bytes threadId numThreads) else None.

(** All iterations of all threads. *)
Definition copy_all (alignment : Z) (dst src bytes numThreads : Z) : list copy_act :=
  concat (map (fun t => default [] (copy alignment true dst src bytes t numThreads)) (threads numThreads)).

(** ** Lemmas: loops *)

Lemma elem_of_strided_from fuel : forall i step num j,
  0 < step -> 0 <= i -> num + step <= 2 ^ 64 -> num - i <= Z.of_nat fuel ->
  (j ∈ strided_from fuel i step num <-> i <= j < num /\ (j - i) mod step = 0).
Proof.
  induction fuel as [|fuel IH]; intros i step num j Hs Hi Hn Hf; simpl.
  - rewrite elem_of_nil. lia.
  - destruct (Z.ltb_spec i num) as [Hlt|]; [|rewrite elem_of_nil; lia].
    rewrite elem_of_cons, u64_small by lia. rewrite IH by lia. split.
    + intros [->|[Hj Hm]]; [rewrite Z.sub_diag; split; [lia|by apply Z.mod_0_l; lia]|]. split; [lia|].
      rewrite <- Hm. replace (j - i) with (j - (i + step) + 1 * step) by lia. by rewrite Z.mod_add by lia.
    + intros [Hj Hm]. destruct (decide (j = i)); [by left|right].
      pose proof (Z.div_mod (j - i) step ltac:(lia)) as E. rewrite Hm in E. assert (0 < (j - i) / step) by nia.
      assert (step <= j - i) by nia. clear E. split; [lia|].
      rewrite <- Hm. replace (j - i) with (j - (i + step) + 1 * step) by lia. by rewrite Z.mod_add by lia.
Qed.

Lemma elem_of_strided t n num j :
  0 <= t < n -> 0 <= num -> num + n <= 2 ^ 64 -> (j ∈ strided t n num <-> 0 <= j < num /\ j mod n = t).
Proof.
  intros Ht H0 Hn. unfold strided. rewrite elem_of_strided_from by lia. split.
  - intros [Hj Hm]. split; [lia|]. pose proof (Z.div_mod (j - t) n ltac:(lia)).
    symmetry. apply Z.mod_unique with ((j - t) / n); [lia|]. lia.
  - intros [Hj <-]. split; [pose proof (Z.mod_le j n ltac:(lia) ltac:(lia)); lia|].
    pose proof (Z.div_mod j n ltac:(lia)) as E. replace (j - j mod n) with (j / n * n) by lia.
    apply Z.mod_mul. lia.
Qed.

Lemma elem_of_threads n t : 0 <= n -> (t ∈ threads n <-> 0 <= t < n).
Proof.
  intros Hn. unfold threads. rewrite list_elem_of_fmap. setoid_rewrite elem_of_seq. split.
  - intros (x & -> & Hx). lia.
  - intros Ht. exists (Z.to_nat t). lia.
Qed.

Lemma strided_from_above fuel : forall i step num j, 0 <= i -> 0 < step -> num + step <= 2 ^ 64 ->
  j ∈ strided_from fuel i step num -> i <= j.
Proof.
  induction fuel as [|fuel IH]; intros i step num j Hi Hs Hn Hj; simpl in Hj; [by apply elem_of_nil in Hj|].
  destruct (Z.ltb_spec i num); [|by apply elem_of_nil in Hj].
  apply elem_of_cons in Hj as [->|Hj]; [lia|]. rewrite u64_small in Hj by lia. apply IH in Hj; lia.
Qed.

Lemma NoDup_strided_from fuel : forall i step num, 0 <= i -> 0 < step -> num + step <= 2 ^ 64 ->
  NoDup (strided_from fuel i step num).
Proof.
  induction fuel as [|fuel IH]; intros i step num Hi Hs Hn; simpl; [constructor|].
  destruct (Z.ltb_spec i num); [|constructor]. rewrite u64_small by lia. constructor; [|apply IH; lia].
  intros Hj. apply strided_from_above in Hj; lia.
Qed.

Lemma NoDup_strided t n num : 0 <= t -> 0 < n -> num + n <= 2 ^ 64 -> NoDup (strided t n num).
Proof. apply NoDup_strided_from. Qed.

(** The threads of a block share the iterations of a loop among them. *)
Lemma strided_partition n num : 0 < n -> 0 <= num -> num + n <= 2 ^ 64 ->
  concat (map (fun t => strided t n num) (threads n)) ≡ₚ map Z.of_nat (seq 0 (Z.to_nat num)).
Proof.
  intros Hn H0 Hw. apply NoDup_Permutation.
  - unfold threads.
    assert (G : forall c a, (a + c <= Z.to_nat n)%nat ->
      NoDup (concat (map (fun t => strided t n num) (map Z.of_nat (seq a c)))) /\
      forall x, x ∈ concat (map (fun t => strided t n num) (map Z.of_nat (seq a c))) -> Z.of_nat a <= x mod n).
    { induction c as [|c IH]; intros a Ha; simpl; [split; [constructor|by intros x ?%elem_of_nil]|].
      destruct (IH (S a) ltac:(lia)) as [H1 H2]. split.
      - apply NoDup_app. split; [apply NoDup_strided_from; lia|]. split; [|done].
        intros x Hx Hx'. apply H2 in Hx'. apply elem_of_strided in Hx as [_ Hx]; lia.
      - intros x [Hx|Hx]%elem_of_app; [apply elem_of_strided in Hx as [_ Hx]; lia|]. apply H2 in Hx. lia. }
    by apply (G _ 0%nat).
  - apply (NoDup_fmap_2 Z.of_nat), NoDup_seq.
  - intros x. rewrite (list_elem_of_In (concat _)), in_concat. setoid_rewrite in_map_iff. split.
    + intros (l & (t & <- & Ht%list_elem_of_In) & Hx%list_elem_of_In). apply elem_of_threads in Ht; [|lia].
      apply elem_of_strided in Hx as [Hx _]; [|lia..]. apply list_elem_of_In, in_map_iff.
      exists (Z.to_nat x). split; [lia|]. apply in_seq. lia.
    + intros (i & Ei & Hi%elem_of_seq)%list_elem_of_fmap. subst x.
      pose proof (Z.mod_pos_bound (Z.of_nat i) n Hn).
      exists (strided (Z.of_nat i mod n) n num). split.
      * exists (Z.of_nat i mod n). split; [done|]. by apply list_elem_of_In, elem_of_threads; [lia|].
      * apply list_elem_of_In, elem_of_strided; lia.
Qed.

(** ** Lemmas: memory after copies *)

Definition byte (m : memory) (a : Z) : Z := default 0 (m !! a).

(** Bytes an iteration writes. *)
Definition writes (c : copy_act) (x : Z) : Prop := ca_dst c <= x < ca_dst c + Z.of_nat (ca_len c).

Lemma byte_write_read m d s k x :
  byte (mem_write m d (mem_read m s k)) x =
  if decide (d <= x < d + Z.of_nat k) then byte m (s + (x - d)) else byte m x.
Proof.
  destruct (decide (d <= x < d + Z.of_nat k)) as [Hx|Hx].
  2:{ unfold byte. rewrite mem_write_lookup_out; [done|]. rewrite mem_read_len. lia. }
  replace k with (Z.to_nat (x - d) + S (k - S (Z.to_nat (x - d))))%nat by lia.
  rewrite mem_read_app, mem_write_app, mem_read_len. simpl. unfold byte at 1.
  rewrite mem_write_lookup_out by lia. replace (d + Z.of_nat (Z.to_nat (x - d))) with x by lia.
  rewrite lookup_insert_eq. simpl. unfold byte. do 2 f_equal. lia.
Qed.

Lemma run_act_byte m c x :
  byte (run_act m c) x =
  if decide (ca_dst c <= x < ca_dst c + Z.of_nat (ca_len c)) then byte m (ca_src c + (x - ca_dst c)) else byte m x.
Proof. apply byte_write_read. Qed.

(** Copies that move everything by the same distance and do not overwrite what they
    read: the order does not matter. *)
Lemma run_acts_byte (delta : Z) (L : list copy_act) m x :
  (forall c, c ∈ L -> ca_src c = ca_dst c + delta) ->
  (forall c c' y, c ∈ L -> c' ∈ L -> writes c y -> ~ writes c' (y + delta)) ->
  ((exists c, c ∈ L /\ writes c x) -> byte (run_acts m L) x = byte m (x + delta)) /\
  ((forall c, c ∈ L -> ~ writes c x) -> byte (run_acts m L) x = byte m x).
Proof.
  revert x. induction L as [|c L IH] using rev_ind; intros x Hd Hs.
  - split; [by intros (c & []%elem_of_nil & _)|done].
  - unfold run_acts in *. rewrite foldl_app. simpl. rewrite !run_act_byte.
    assert (Hin : forall y, y ∈ L -> y ∈ L ++ [c]) by (intros y Hy; apply elem_of_app; by left).
    assert (Hc : c ∈ L ++ [c]) by (apply elem_of_app; right; by apply list_elem_of_singleton).
    assert (IH' : forall y, ((exists c, c ∈ L /\ writes c y) -> byte (foldl run_act m L) y = byte m (y + delta)) /\
       ((forall c, c ∈ L -> ~ writes c y) -> byte (foldl run_act m L) y = byte m y)).
    { intros y. apply IH; [auto|]. intros c1 c2 z H1 H2. apply Hs; auto. }
    destruct (decide (ca_dst c <= x < ca_dst c + Z.of_nat (ca_len c))) as [Hx|Hx].
    + split; [intros _|intros Hno; by destruct (Hno c Hc)]. rewrite (Hd c Hc).
      replace (ca_dst c + delta + (x - ca_dst c)) with (x + delta) by lia.
      apply IH'. intros c' Hc' Hw. by apply (Hs c c' x Hc (Hin _ Hc') Hx).
    + split.
      * intros (c' & Hc' & Hw). apply elem_of_app in Hc' as [Hc'|Hc'].
        -- apply IH'. eauto.
        -- apply list_elem_of_singleton in Hc' as ->. done.
      * intros Hno. apply IH'. auto.
Qed.

(** The bytes that one loop writes, over all threads. *)
Lemma detail_copy_covers size d s num n x :
  0 < size -> 0 < n -> 0 <= num -> num + n <= 2 ^ 64 ->
  (exists t c, 0 <= t < n /\ c ∈ detail_copy size d s num t n /\ writes c x) <-> d <= x < d + num * size.
Proof.
  intros Hs Hn H0 Hw. unfold detail_copy. split.
  - intros (t & c & Ht & Hc & Hx). apply list_elem_of_fmap in Hc as (i & -> & Hi).
    apply elem_of_strided in Hi as [Hi _]; [|done..]. unfold writes in Hx. simpl in Hx.
    rewrite Z2Nat.id in Hx by lia. nia.
  - intros Hx. set (i := (x - d) / size).
    pose proof (Z.div_mod (x - d) size ltac:(lia)) as E. pose proof (Z.mod_pos_bound (x - d) size Hs) as Hm.
    fold i in E. assert (0 <= i < num) by (split; [apply Z.div_pos; lia|apply Z.div_lt_upper_bound; lia]).
    exists (i mod n), (mkAct (d + i * size) (s + i * size) (Z.to_nat size)).
    split; [by apply Z.mod_pos_bound|]. split.
    + apply list_elem_of_fmap. exists i. split; [done|]. pose proof (Z.mod_pos_bound i n Hn). by apply elem_of_strided; try lia.
    + unfold writes. simpl. rewrite Z2Nat.id by lia. lia.
Qed.

Lemma detail_copy_delta size d s num t n c :
  c ∈ detail_copy size d s num t n -> ca_src c = ca_dst c + (s - d).
Proof. unfold detail_copy. rewrite list_elem_of_fmap. intros (i & -> & _). simpl. lia. Qed.

(** Rounding up to an aligned address. *)
Lemma align_up_spec size p :
  size = 4 \/ size = 8 \/ size = 16 -> 0 <= p < 2 ^ 63 -> p mod 4 = 0 ->
  align_up size p = p + sizeof_int * nFirstInt size p /\ 0 <= sizeof_int * nFirstInt size p < size /\
  (p + sizeof_int * nFirstInt size p) mod size = 0.
Proof.
  intros Hs Hp H4. unfold nFirstInt.
  assert (E : align_up size p = (p + size - 1) / size * size) by (unfold align_up; rewrite u64_small by lia; done).
  rewrite E. assert (0 <= (p + size - 1) / size * size - p < size /\ ((p + size - 1) / size * size - p) mod 4 = 0)
    by (destruct Hs as [->|[->| ->]]; Z.to_euclidean_division_equations; lia).
  rewrite u64_small by lia. unfold sizeof_int.
  assert (E4 : 4 * (((p + size - 1) / size * size - p) / 4) = (p + size - 1) / size * size - p)
    by (Z.to_euclidean_division_equations; lia).
  rewrite E4. split; [lia|]. split; [lia|].
  replace (p + ((p + size - 1) / size * size - p)) with ((p + size - 1) / size * size) by lia. apply Z.mod_mul. lia.
Qed.

(** ** Lemmas: the three loops together *)

Definition sizes_ok (size : Z) : Prop := size = 4 \/ size = 8 \/ size = 16.

Lemma elem_of_copy_all size dst src bytes n c :
  sizes_ok size -> 0 <= n ->
  (c ∈ copy_all size dst src bytes n <-> exists t, 0 <= t < n /\ c ∈ copyHelper size true dst src bytes t n).
Proof.
  intros Hs Hn. unfold copy_all, copy.
  assert ((size =? 4) || (size =? 8) || (size =? 16) = true) as -> by (by destruct Hs as [->|[->| ->]]).
  simpl. rewrite elem_of_list_concat || rewrite list_elem_of_In, in_concat. split.
  - intros (l & Hl & Hc). apply list_elem_of_In, list_elem_of_fmap in Hl as (t & -> & Ht).
    apply elem_of_threads in Ht; [|done]. exists t. split; [done|]. by apply list_elem_of_In.
  - intros (t & Ht & Hc). exists (copyHelper size true dst src bytes t n). split; [|by apply list_elem_of_In].
    apply list_elem_of_In, list_elem_of_fmap. exists t. split; [done|]. by apply elem_of_threads.
Qed.

(** The three ranges of a copy of whole integers that contains its leading ones. *)
Lemma helper_ranges size dst bytes :
  sizes_ok size -> 0 <= dst -> 0 <= bytes -> dst + bytes < 2 ^ 63 -> dst mod 4 = 0 -> bytes mod 4 = 0 ->
  sizeof_int * nFirstInt size dst <= bytes ->
  let f := nFirstInt size dst in
  let k := size / sizeof_int in
  let rest := u64 (bytes / sizeof_int - f) in
  0 <= f < k /\ 0 <= rest / k /\ 0 <= rest mod k < k /\ 0 <= rest <= bytes /\
  sizeof_int * f + rest / k * size + sizeof_int * (rest mod k) = bytes /\ k * sizeof_int = size.
Proof.
  intros Hs Hd Hb Hw H4 Hb4 Hl f k rest.
  destruct (align_up_spec size dst Hs ltac:(lia) H4) as (_ & Hf & _). fold f in Hf, Hl. unfold sizeof_int in *.
  assert (Ek : k * 4 = size /\ 0 < k) by (unfold k; destruct Hs as [->|[->| ->]]; done).
  assert (Er : rest = bytes / 4 - f).
  { unfold rest. rewrite u64_small; [done|]. Z.to_euclidean_division_equations; lia. }
  assert (Eb : bytes = 4 * (bytes / 4)) by (Z.to_euclidean_division_equations; lia).
  pose proof (Z.div_mod rest k ltac:(lia)) as E. pose proof (Z.mod_pos_bound rest k ltac:(lia)).
  assert (0 <= rest) by lia. pose proof (Z.div_pos rest k ltac:(lia) ltac:(lia)).
  split; [lia|]. split; [lia|]. split; [lia|]. split; [lia|]. split; [nia|lia].
Qed.


Lemma helper_covers size dst src bytes n x :
  sizes_ok size -> 0 <= dst -> 0 <= bytes -> dst + bytes < 2 ^ 63 -> dst mod 4 = 0 -> bytes mod 4 = 0 ->
  sizeof_int * nFirstInt size dst <= bytes -> 0 < n < 2 ^ 32 ->
  (exists c, c ∈ copy_all size dst src bytes n /\ writes c x) <-> dst <= x < dst + bytes.
Proof.
  intros Hs Hd Hb Hw H4 Hb4 Hl Hn.
  destruct (align_up_spec size dst Hs ltac:(lia) H4) as (Ea & Hf & _).
  destruct (helper_ranges size dst bytes Hs Hd Hb Hw H4 Hb4 Hl) as (R1 & R2 & R3 & R4 & R5 & R6).
  set (f := nFirstInt size dst) in *. set (k := size / sizeof_int) in *.
  set (rest := u64 (bytes / sizeof_int - f)) in *.
  assert (0 < size <= 16) by (destruct Hs as [->|[->| ->]]; lia). unfold sizeof_int in *.
  assert (rest / k <= rest) by (apply Z.div_le_upper_bound; nia).
  assert (Hin := fun c => elem_of_copy_all size dst src bytes n c Hs ltac:(lia)). setoid_rewrite Hin. clear Hin. unfold copyHelper, sizeof_int.
  fold f. fold k. fold rest.
  rewrite Ea. setoid_rewrite elem_of_app. setoid_rewrite elem_of_app.
  pose proof (detail_copy_covers 4 dst src f n x ltac:(lia) ltac:(lia) ltac:(lia) ltac:(lia)) as C1.
  pose proof (detail_copy_covers size (dst + 4 * f) (align_up size src) (rest / k) n x ltac:(lia) ltac:(lia) ltac:(lia) ltac:(lia)) as C2.
  set (off := (f + rest / k * k) * 4) in *.
  assert (Eoff : off = 4 * f + rest / k * size) by (unfold off; nia).
  pose proof (detail_copy_covers 4 (dst + off) (src + off) (rest mod k) n x ltac:(lia) ltac:(lia) ltac:(lia) ltac:(lia)) as C3.
  assert (Ek : k = 1 \/ 1 < k) by lia. assert (Ek1 : k = 1 -> rest mod k = 0) by (intros ->; apply Z.mod_1_r).
  split.
  - intros (c & (t & Ht & [Hc|[Hc|Hc]]) & Hx).
    + pose proof (proj1 C1 (ex_intro _ t (ex_intro _ c (conj Ht (conj Hc Hx))))). nia.
    + pose proof (proj1 C2 (ex_intro _ t (ex_intro _ c (conj Ht (conj Hc Hx))))). nia.
    + destruct (Z.ltb_spec 1 k); simpl in Hc; [|by apply elem_of_nil in Hc].
      pose proof (proj1 C3 (ex_intro _ t (ex_intro _ c (conj Ht (conj Hc Hx))))). nia.
  - intros Hx.
    destruct (decide (x < dst + f * 4)); [|destruct (decide (x < dst + off))].
    + destruct (proj2 C1 ltac:(lia)) as (t & c & Ht & Hc & Hwc). eauto 8.
    + destruct (proj2 C2 ltac:(lia)) as (t & c & Ht & Hc & Hwc). eauto 8.
    + destruct (proj2 C3 ltac:(lia)) as (t & c & Ht & Hc & Hwc).
      exists c. split; [|done]. exists t. split; [done|]. right. right.
      rewrite (proj2 (Z.ltb_lt 1 k)) by lia. done.
Qed.

(** Equally misaligned addresses have the same leading integers. *)
Lemma same_lead size dst src :
  sizes_ok size -> 0 <= dst < 2 ^ 63 -> 0 <= src < 2 ^ 63 -> dst mod 4 = 0 -> src mod 4 = 0 ->
  (dst - src) mod size = 0 -> align_up size src - align_up size dst = src - dst.
Proof.
  intros Hs Hd Hr Hd4 Hr4 Hm.
  destruct (align_up_spec size dst Hs Hd Hd4) as (-> & B1 & M1).
  destruct (align_up_spec size src Hs Hr Hr4) as (-> & B2 & M2).
  enough (sizeof_int * nFirstInt size dst = sizeof_int * nFirstInt size src) by lia.
  revert B1 M1 B2 M2. generalize (sizeof_int * nFirstInt size dst) (sizeof_int * nFirstInt size src). intros u v.
  intros B1 M1 B2 M2. assert (E : (u - v) mod size = 0).
  { replace (u - v) with ((dst + u) - ((src + v) + (dst - src))) by lia.
    rewrite Zminus_mod, (Z.add_mod (src + v)), M1, M2, Hm by lia. done. }
  pose proof (Z.div_mod (u - v) size ltac:(lia)) as D. rewrite E in D. assert ((u - v) / size = 0) by nia. nia.
Qed.

Lemma copy_all_delta size dst src bytes n c :
  sizes_ok size -> 0 <= n -> align_up size src - align_up size dst = src - dst ->
  c ∈ copy_all size dst src bytes n -> ca_src c = ca_dst c + (src - dst).
Proof.
  intros Hs Hn Ha Hc. apply elem_of_copy_all in Hc as (t & _ & Hc); [|done..]. unfold copyHelper in Hc.
  rewrite !elem_of_app in Hc. destruct Hc as [Hc|[Hc|Hc]].
  - by apply detail_copy_delta in Hc.
  - apply detail_copy_delta in Hc. lia.
  - destruct (true && _); [|by apply elem_of_nil in Hc]. apply detail_copy_delta in Hc. lia.
Qed.

(** All iterations of all threads, in any order. *)
Lemma copy_all_exact (alignment dst src bytes n : Z) (acts : list copy_act) (m : memory) :
  sizes_ok alignment -> 0 < n < 2 ^ 32 -> 0 <= dst -> 0 <= src -> 0 <= bytes ->
  dst + bytes < 2 ^ 63 -> src + bytes < 2 ^ 63 -> dst mod 4 = 0 -> src mod 4 = 0 -> bytes mod 4 = 0 ->
  (dst - src) mod alignment = 0 -> dst + bytes <= src \/ src + bytes <= dst ->
  sizeof_int * nFirstInt alignment dst <= bytes ->
  acts ≡ₚ copy_all alignment dst src bytes n ->
  forall x, byte (run_acts m acts) x =
            if decide (dst <= x < dst + bytes) then byte m (src + (x - dst)) else byte m x.
Proof.
  intros Hs Hn Hd Hr Hb Hdw Hrw Hd4 Hr4 Hb4 Hm Hdis Hl Hp x.
  pose proof (same_lead alignment dst src Hs ltac:(lia) ltac:(lia) Hd4 Hr4 Hm) as Ha.
  assert (Hcov : forall y, (exists c, c ∈ acts /\ writes c y) <-> dst <= y < dst + bytes).
  { intros y. rewrite <- (helper_covers alignment dst src bytes n y) by done. by setoid_rewrite Hp. }
  destruct (run_acts_byte (src - dst) acts m x) as [Hin Hout].
  - intros c Hc. rewrite Hp in Hc. eapply copy_all_delta; [exact Hs| |exact Ha|exact Hc]. lia.
  - intros c c' y Hc Hc' Hy Hy'. pose proof (proj1 (Hcov y) (ex_intro _ c (conj Hc Hy))).
    pose proof (proj1 (Hcov _) (ex_intro _ c' (conj Hc' Hy'))). lia.
  - destruct (decide (dst <= x < dst + bytes)) as [Hx|Hx].
    + rewrite Hin by (by apply Hcov). f_equal. lia.
    + apply Hout. intros c Hc Hw. apply Hx, Hcov. eauto.
Qed.

(** C29: a copy of [bytes] by [n] threads, in any interleaving of their iterations: when
    both addresses have the same misalignment, the ranges do not overlap and the
    bytes contain the leading integers up to the first aligned element, the
    destination range becomes the source range and no other byte changes. *)
Theorem copy_exact (alignment dst src bytes n : Z) (acts : list copy_act) (m : memory) :
  sizes_ok alignment -> 0 < n < 2 ^ 32 -> 0 <= dst -> 0 <= src -> 0 <= bytes ->
  dst + bytes < 2 ^ 63 -> src + bytes < 2 ^ 63 -> dst mod 4 = 0 -> src mod 4 = 0 -> bytes mod 4 = 0 ->
  (dst - src) mod alignment = 0 -> dst + bytes <= src \/ src + bytes <= dst ->
  sizeof_int * nFirstInt alignment dst <= bytes ->
  acts ≡ₚ copy_all alignment dst src bytes n ->
  forall x, byte (run_acts m acts) x =
            if decide (dst <= x < dst + bytes) then byte m (src + (x - dst)) else byte m x.
Proof. apply copy_all_exact. Qed.

Lemma copy_exact_witness :
  let m := list_to_map (imap (fun i b => (204 + Z.of_nat i, b)) [1; 2; 3; 4; 5; 6; 7; 8; 9; 10; 11; 12]) : memory in
  byte (run_acts m (copy_all 8 100 204 12 2)) 107 = 8.
Proof.
  intros m. rewrite (copy_exact 8 100 204 12 2 (copy_all 8 100 204 12 2) m);
    first [by vm_compute | lia | by right; left | by left | done].
Defined.

(** a copy shorter than the distance to the first aligned element is not cut off:
    the leading loop runs past the requested bytes and the element count wraps
    around, so every byte behind the destination is overwritten. *)
Theorem copy_overruns (alignment dst src bytes n : Z) :
  sizes_ok alignment -> 0 < n < 2 ^ 32 -> 0 <= dst < 2 ^ 62 -> 0 <= bytes -> dst mod 4 = 0 -> bytes mod 4 = 0 ->
  bytes < sizeof_int * nFirstInt alignment dst ->
  forall x, dst + bytes <= x < 2 ^ 63 -> exists c, c ∈ copy_all alignment dst src bytes n /\ writes c x.
Proof.
  intros Hs Hn Hd Hb Hd4 Hb4 Hl x Hx.
  destruct (align_up_spec alignment dst Hs ltac:(lia) Hd4) as (Ea & Hf & _).
  assert (Hin := fun c => elem_of_copy_all alignment dst src bytes n c Hs ltac:(lia)). setoid_rewrite Hin. clear Hin.
  unfold copyHelper. setoid_rewrite elem_of_app. setoid_rewrite elem_of_app. rewrite Ea.
  set (f := nFirstInt alignment dst) in *. unfold sizeof_int in *.
  assert (Hk : alignment / 4 * 4 = alignment /\ 0 < alignment / 4 <= 4) by (destruct Hs as [->|[->| ->]]; done).
  assert (Hf4 : f <= 3) by lia.
  assert (Hr : u64 (bytes / 4 - f) = 2 ^ 64 + (bytes / 4 - f)).
  { unfold u64, wrap. symmetry. apply Z.mod_unique with (-1); [|lia].
    assert (0 <= bytes / 4 < f) by (Z.to_euclidean_division_equations; lia). lia. }
  set (k := alignment / 4) in *. set (num := u64 (bytes / 4 - f) / k).
  assert (0 <= bytes / 4) by (apply Z.div_pos; lia).
  assert (Hnum : 2 ^ 62 - 1 <= num /\ num * alignment >= 2 ^ 63 /\ num + n <= 2 ^ 64).
  { destruct Hs as [Hs|[Hs|Hs]]; [lia| |]; assert (k = 2 \/ k = 4) as Ek by lia;
      unfold num; rewrite Hr; (destruct Ek as [-> | ->]); Z.to_euclidean_division_equations; lia. }
  destruct (decide (x < dst + f * 4)).
  - destruct (proj2 (detail_copy_covers 4 dst src f n x ltac:(lia) ltac:(lia) ltac:(lia) ltac:(lia)) ltac:(lia)) as (t & c & Ht & Hc & Hw).
    eauto 8.
  - destruct (proj2 (detail_copy_covers alignment (dst + 4 * f) (align_up alignment src) num n x ltac:(lia) ltac:(lia) ltac:(lia) ltac:(lia)) ltac:(lia)) as (t & c & Ht & Hc & Hw).
    eauto 8.
Qed.

Lemma copy_overruns_witness :
  4 < sizeof_int * nFirstInt 16 104 /\ exists c, c ∈ copy_all 16 104 200 4 32 /\ writes c 1000000.
Proof.
  split; [by vm_compute|]. apply copy_overruns; first [by vm_compute | lia | by right; right | done].
Defined.
