(* ===== verification/Packets.v ===== *)
(** * LL packets

    Models include/mscclpp/packet_device.hpp and the packet transfers of
    copy_device.hpp: data travels in 8-byte words that carry four bytes of payload
    and a flag, and the receiver spins until every word of a packet has the flag it
    expects.  A packet is a list of words, two for [LL16Packet] and one for
    [LL8Packet].  Words become visible one by one in any order, whatever the order of
    the stores; each load sees the word that is visible. *)

From S2P Require Import Prelude DeviceCopy.
Local Open Scope Z_scope.

Inductive PacketType := LL16Packet | LL8Packet.

(** Words of a packet, with four bytes of payload each. *)
Definition words (p : PacketType) : nat := match p with LL16Packet => 2 | LL8Packet => 1 end.

Abbreviation word := (Z * Z)%type.      (* data, flag *)

(** [write]: every word carries the flag. *)
Definition packet_write (vals : list Z) (flag : Z) : list word := map (fun v => (v, flag)) vals.

(** [readOnce]: whether a flag differs, and the data. *)
Definition readOnce (flag : Z) (ws : list word) : bool * list Z :=
  (existsb (fun w => negb (w.2 =? flag)) ws, map fst ws).

(** [clear]. *)
Definition packet_clear (p : PacketType) : list word := replicate (words p) (0, 0).

(** A store of one word on its way to memory. *)
Record store := mkStore { st_packet : nat; st_word : nat; st_val : word }.

Definition nElem (p : PacketType) (originBytes : Z) : Z := originBytes / (4 * Z.of_nat (words p)).

(** The payload of packet [i]. *)
Definition payload (p : PacketType) (origin : list Z) (i : nat) : list Z :=
  take (words p) (drop (words p * i) origin).

(** [copyToPackets]: the stores of one thread; [origin] as 32-bit integers. *)
Definition copyToPackets (p : PacketType) (origin : list Z) (originBytes threadId numThreads flag : Z) : list store :=
  concat (map (fun i => imap (fun j w => mkStore (Z.to_nat i) j w) (packet_write (payload p origin (Z.to_nat i)) flag))
            (strided threadId numThreads (nElem p originBytes))).

(** A thread in [copyFromPackets]: the packets it still has to read and the words of
    the current attempt. *)
Record reader := mkReader { rd_todo : list nat; rd_loaded : list word }.

Definition copyFromPackets (p : PacketType) (originBytes threadId numThreads : Z) : reader :=
  mkReader (map Z.to_nat (strided threadId numThreads (nElem p originBytes))) [].

(** One load, or the test after the last one: the loop of [read]. *)
Definition reader_step (p : PacketType) (flag : Z) (mem : list (list word)) (r : reader)
    : option (reader * option (nat * list Z)) :=
  match rd_todo r with
  | [] => None
  | i :: rest =>
      if decide (length (rd_loaded r) < words p)%nat then
        pkt ← mem !! i; w ← pkt !! length (rd_loaded r);
        Some (mkReader (i :: rest) (rd_loaded r ++ [w]), None)
      else
        let '(mismatch, data) := readOnce flag (rd_loaded r) in
        Some (if (mismatch : bool) then (mkReader (i :: rest) [], None) else (mkReader rest [], Some (i, data)))
  end.

Record transfer := mkTransfer {
  pk_mem : list (list word); pk_pending : list store; pk_readers : list reader;
  pk_origin : gmap nat (list Z)          (* what the receivers have stored *)
}.

Inductive pk_action := PStore (n : nat) | PRead (r : nat).

Definition apply_store (mem : list (list word)) (st : store) : list (list word) :=
  alter (fun pkt => <[st_word st := st_val st]> pkt) (st_packet st) mem.

Definition pk_act (p : PacketType) (flag : Z) (s : transfer) (a : pk_action) : option transfer :=
  match a with
  | PStore n =>
      st ← pk_pending s !! n;
      Some (mkTransfer (apply_store (pk_mem s) st) (delete n (pk_pending s)) (pk_readers s) (pk_origin s))
  | PRead n =>
      r ← pk_readers s !! n;
      '(r', out) ← reader_step p flag (pk_mem s) r;
      Some (mkTransfer (pk_mem s) (pk_pending s) (<[n := r']> (pk_readers s))
              (match out with Some (i, data) => <[i := data]> (pk_origin s) | None => pk_origin s end))
  end.

Fixpoint pk_run (p : PacketType) (flag : Z) (s : transfer) (as_ : list pk_action) : option transfer :=
  match as_ with
  | [] => Some s
  | a :: as' => s' ← pk_act p flag s a; pk_run p flag s' as'
  end.

(** All senders and receivers at their start. *)
Definition pk_init (p : PacketType) (mem : list (list word)) (origin : list Z) (originBytes senders receivers flag : Z)
    : transfer :=
  mkTransfer mem
    (concat (map (fun t => copyToPackets p origin originBytes t senders flag) (threads senders)))
    (map (fun t => copyFromPackets p originBytes t receivers) (threads receivers)) ∅.

(** ** Invariant *)

Section transfer.
Context (p : PacketType) (origin : list Z) (flag : Z) (n : nat).

(** A word is old, or the one that belongs there. *)
Definition final (i j : nat) (w : word) : Prop :=
  exists v, origin !! (words p * i + j)%nat = Some v /\ w = (v, flag).
Definition word_ok (i j : nat) (w : word) : Prop := w.2 <> flag \/ final i j w.

Definition reader_ok (r : reader) : Prop :=
  Forall (fun i => i < n)%nat (rd_todo r) /\ (length (rd_loaded r) <= words p)%nat /\
  match rd_todo r with
  | [] => rd_loaded r = []
  | i :: _ => forall j w, rd_loaded r !! j = Some w -> word_ok i j w
  end.

Record pk_inv (s : transfer) : Prop := {
  pi_shape : length (pk_mem s) = n /\ forall i pkt, pk_mem s !! i = Some pkt -> length pkt = words p;
  pi_mem : forall i pkt j w, pk_mem s !! i = Some pkt -> pkt !! j = Some w -> word_ok i j w;
  pi_stores : forall st, st ∈ pk_pending s -> (st_packet st < n)%nat /\ final (st_packet st) (st_word st) (st_val st);
  pi_covers : forall i pkt j w, pk_mem s !! i = Some pkt -> pkt !! j = Some w ->
    final i j w \/ exists st, st ∈ pk_pending s /\ st_packet st = i /\ st_word st = j;
  pi_readers : forall k r, pk_readers s !! k = Some r -> reader_ok r;
  pi_out : forall i v, pk_origin s !! i = Some v -> v = payload p origin i;
  pi_todo : forall i, (i < n)%nat -> is_Some (pk_origin s !! i) \/
    exists k r, pk_readers s !! k = Some r /\ i ∈ rd_todo r
}.

(** A full attempt without a mismatch is the payload. *)
Lemma attempt_payload i ws :
  length ws = words p -> (forall j w, ws !! j = Some w -> word_ok i j w) ->
  (words p * i + words p <= length origin)%nat -> fst (readOnce flag ws) = false -> snd (readOnce flag ws) = payload p origin i.
Proof.
  intros Hl Hok Ho Hm. simpl in *. apply list_eq. intros j. unfold payload.
  rewrite list_lookup_fmap. destruct (ws !! j) as [w|] eqn:Hj; simpl.
  - pose proof (lookup_lt_Some _ _ _ Hj). rewrite lookup_take_lt, lookup_drop by lia.
    destruct (Hok _ _ Hj) as [Hne|(v & -> & ->)]; [|done].
    exfalso. assert (existsb (fun w => negb (w.2 =? flag)) ws = true); [|congruence].
    apply existsb_exists. exists w. split; [by apply list_elem_of_In, list_elem_of_lookup_2 with j|].
    apply negb_true_iff. by apply Z.eqb_neq.
  - symmetry. apply lookup_ge_None. apply lookup_ge_None in Hj. rewrite length_take, length_drop. lia.
Qed.

Lemma apply_store_lookup mem st i pkt' :
  apply_store mem st !! i = Some pkt' ->
  exists pkt, mem !! i = Some pkt /\
    ((i = st_packet st /\ pkt' = <[st_word st := st_val st]> pkt) \/ (i <> st_packet st /\ pkt' = pkt)).
Proof.
  unfold apply_store. intros H. destruct (decide (i = st_packet st)) as [->|Hne].
  - rewrite list_lookup_alter_eq in H. destruct (mem !! st_packet st) as [pkt|]; [|done]. injection H as <-. eauto.
  - rewrite list_lookup_alter_ne in H by done. eauto.
Qed.

Lemma elem_of_delete_or {A} (l : list A) k x y : l !! k = Some x -> y ∈ l -> y = x \/ y ∈ delete k l.
Proof.
  intros Hk Hy. rewrite <- (take_drop_middle _ _ _ Hk) in Hy. rewrite delete_take_drop.
  rewrite elem_of_app, elem_of_cons in Hy. rewrite elem_of_app. tauto.
Qed.

Lemma elem_of_delete {A} (l : list A) k y : y ∈ delete k l -> y ∈ l.
Proof.
  rewrite delete_take_drop, elem_of_app. rewrite <- (take_drop k l) at 3. rewrite elem_of_app. intros [H|H]; [by left|].
  right. rewrite <- (take_drop 1 (drop k l)), drop_drop, elem_of_app. right. by rewrite Nat.add_1_r.
Qed.

Lemma pk_inv_store s k s' : pk_inv s -> pk_act p flag s (PStore k) = Some s' -> pk_inv s'.
Proof.
  intros [[S1 S2] I2 I3 I4 I5 I6 I7] H. simpl in H. destruct (pk_pending s !! k) as [st|] eqn:Hk; [|done].
  cbn [mbind option_bind] in H. injection H as <-.
  destruct (I3 st ltac:(by eapply list_elem_of_lookup_2)) as [Hn Hf].
  split; simpl; try done.
  - split; [unfold apply_store; by rewrite length_alter|]. intros i pkt' H.
    destruct (apply_store_lookup _ _ _ _ H) as (pkt & Hp & [[-> ->]|[_ ->]]); [rewrite length_insert|]; eauto.
  - intros i pkt' j w H Hj. destruct (apply_store_lookup _ _ _ _ H) as (pkt & Hp & [[-> ->]|[_ ->]]); [|eauto].
    apply list_lookup_insert_Some in Hj as [(<- & <- & _)|[_ Hj]]; [by right|eauto].
  - intros st' H. apply I3. by eapply elem_of_delete.
  - intros i pkt' j w H Hj. destruct (apply_store_lookup _ _ _ _ H) as (pkt & Hp & Hc).
    assert (Hold : pkt !! j = Some w -> (i, j) <> (st_packet st, st_word st) ->
      final i j w \/ exists st', st' ∈ delete k (pk_pending s) /\ st_packet st' = i /\ st_word st' = j).
    { intros Hw Hne. destruct (I4 _ _ _ _ Hp Hw) as [?|(st' & Hin & E1 & E2)]; [by left|right].
      destruct (elem_of_delete_or _ _ _ _ Hk Hin) as [->|]; [congruence|eauto]. }
    destruct Hc as [[-> ->]|[Hne ->]]; [|apply Hold; congruence].
    apply list_lookup_insert_Some in Hj as [(<- & <- & _)|[Hne Hj]]; [by left|apply Hold; congruence].
Qed.

(** What one step of a reader does. *)
Lemma reader_step_ok s r r' out :
  pk_inv s -> (words p * n <= length origin)%nat -> reader_ok r -> reader_step p flag (pk_mem s) r = Some (r', out) ->
  reader_ok r' /\
  match out with
  | Some (i, data) => data = payload p origin i /\ rd_todo r = i :: rd_todo r'
  | None => rd_todo r' = rd_todo r
  end.
Proof.
  intros Hi Ho (Ht & Hl & Hw) H. unfold reader_step in H. unfold reader_ok.
  destruct (rd_todo r) as [|i rest] eqn:Et; [done|]. apply Forall_cons in Ht as [Hin Ht].
  destruct (decide (length (rd_loaded r) < words p)%nat) as [Hlt|Hge].
  - destruct (pk_mem s !! i) as [pkt|] eqn:Hm; [|done]. cbn [mbind option_bind] in H.
    destruct (pkt !! _) as [w|] eqn:Hp; [|done]. cbn [mbind option_bind] in H. injection H as <- <-. simpl.
    split; [|done]. split; [by constructor|]. split; [rewrite length_app; simpl; lia|].
    intros j w' [Hj|[Hj E]]%lookup_app_Some; [eauto|].
    apply list_lookup_singleton_Some in E as [E <-]. replace j with (length (rd_loaded r)) by lia.
    by eapply pi_mem.
  - destruct (readOnce flag (rd_loaded r)) as [mis data] eqn:E. destruct mis; injection H as <- <-; simpl.
    + split; [|done]. split; [by constructor|]. split; [lia|]. intros j w Hj. done.
    + split; [split; [done|split; [lia|by destruct rest]]|]. split; [|done].
      assert (Hd : snd (readOnce flag (rd_loaded r)) = payload p origin i); [|by rewrite E in Hd].
      apply attempt_payload; [lia|done|nia|by rewrite E].
Qed.

Lemma pk_inv_read s k s' :
  pk_inv s -> (words p * n <= length origin)%nat -> pk_act p flag s (PRead k) = Some s' -> pk_inv s'.
Proof.
  intros Hi Ho H. simpl in H. destruct (pk_readers s !! k) as [r|] eqn:Hk; [|done]. cbn [mbind option_bind] in H.
  destruct (reader_step p flag (pk_mem s) r) as [[r' out]|] eqn:E; [|done]. cbn [mbind option_bind] in H. injection H as <-.
  destruct (reader_step_ok _ _ _ _ Hi Ho (pi_readers _ Hi _ _ Hk) E) as [Hr Hout].
  pose proof Hi as [S1 I2 I3 I4 I5 I6 I7]. split; simpl; try done.
  - intros j x [(-> & <- & _)|[_ Hx]]%list_lookup_insert_Some; eauto.
  - intros i v. destruct out as [[i' d]|]; [|apply I6].
    intros [(-> & <-)|[_ Hv]]%lookup_insert_Some; [tauto|auto].
  - intros i Hlt. destruct (I7 i Hlt) as [Hs|(k' & x & Hx & Hin)].
    { left. destruct out as [[i' d]|]; [|done]. destruct (decide (i' = i)) as [->|];
        [rewrite lookup_insert_eq; eauto|by rewrite lookup_insert_ne]. }
    destruct (decide (k' = k)) as [->|Hne].
    2:{ right. exists k', x. by rewrite list_lookup_insert_ne. }
    rewrite Hk in Hx. injection Hx as <-. destruct out as [[i' d]|].
    + destruct Hout as [_ Et]. rewrite Et in Hin. apply elem_of_cons in Hin as [->|Hin].
      * left. rewrite lookup_insert_eq. eauto.
      * right. exists k, r'. split; [|done]. apply list_lookup_insert_eq. by eapply lookup_lt_Some.
    + right. exists k, r'. rewrite Hout. split; [|done]. apply list_lookup_insert_eq. by eapply lookup_lt_Some.
Qed.
End transfer.

(** ** Start *)

Section start.
Context (p : PacketType) (origin : list Z) (flag originBytes : Z).
Let n := Z.to_nat (nElem p originBytes).

Lemma payload_lookup i j v :
  payload p origin i !! j = Some v <-> (j < words p)%nat /\ origin !! (words p * i + j)%nat = Some v.
Proof.
  unfold payload. destruct (decide (j < words p)%nat).
  - rewrite lookup_take_lt, lookup_drop by done. tauto.
  - rewrite lookup_take_ge by lia. split; [done|]. lia.
Qed.

Lemma elem_of_copyToPackets t senders st :
  0 <= t < senders -> senders < 2 ^ 32 -> 0 <= nElem p originBytes < 2 ^ 62 ->
  (st ∈ copyToPackets p origin originBytes t senders flag <->
   exists i v, 0 <= i < nElem p originBytes /\ i mod senders = t /\
     payload p origin (Z.to_nat i) !! st_word st = Some v /\
     st_packet st = Z.to_nat i /\ st_val st = (v, flag)).
Proof.
  intros Ht Hs Hn. unfold copyToPackets. rewrite list_elem_of_In, in_concat. split.
  - intros (l & Hl & Hst). apply list_elem_of_In, list_elem_of_fmap in Hl as (i & -> & Hi).
    apply elem_of_strided in Hi as [Hi Hm]; [|lia..]. apply list_elem_of_In, elem_of_lookup_imap in Hst as (j & w & -> & Hw).
    unfold packet_write in Hw. apply list_lookup_fmap_Some in Hw as (v & -> & Hv). exists i, v. done.
  - intros (i & v & Hi & Hm & Hv & Ep & Ev). eexists. split.
    + apply list_elem_of_In, list_elem_of_fmap. exists i. split; [reflexivity|]. apply elem_of_strided; [lia..|done].
    + apply list_elem_of_In, elem_of_lookup_imap. exists (st_word st), (st_val st).
      split; [destruct st; simpl in *; by subst|]. unfold packet_write. apply list_lookup_fmap_Some. eauto.
Qed.

Lemma mod_thread i k : 0 < k -> i mod k ∈ threads k.
Proof. intros Hk. apply elem_of_threads; [lia|]. by apply Z.mod_pos_bound. Qed.

Lemma pk_inv_init mem senders receivers :
  0 < senders < 2 ^ 32 -> 0 < receivers < 2 ^ 32 -> 0 <= nElem p originBytes < 2 ^ 62 ->
  (words p * n <= length origin)%nat -> length mem = n ->
  Forall (fun pkt => length pkt = words p /\ Forall (fun w => w.2 <> flag) pkt) mem ->
  pk_inv p origin flag n (pk_init p mem origin originBytes senders receivers flag).
Proof.
  intros Hs Hr Hn Ho Hl Hm. rewrite Forall_lookup in Hm.
  assert (Hst : forall st, st ∈ pk_pending (pk_init p mem origin originBytes senders receivers flag) <->
    exists t, 0 <= t < senders /\ st ∈ copyToPackets p origin originBytes t senders flag).
  { intros st. simpl. rewrite list_elem_of_In, in_concat. split.
    - intros (l & H1 & H2). apply list_elem_of_In, list_elem_of_fmap in H1 as (t & -> & Ht).
      apply elem_of_threads in Ht; [|lia]. exists t. by rewrite list_elem_of_In.
    - intros (t & Ht & H). exists (copyToPackets p origin originBytes t senders flag).
      rewrite <- !list_elem_of_In. split; [|done]. apply list_elem_of_fmap. exists t. split; [done|]. apply elem_of_threads; lia. }
  split.
  - simpl. split; [done|]. intros i pkt Hi. apply (Hm i pkt Hi).
  - simpl. intros i pkt j w Hi Hj. left. destruct (Hm i pkt Hi) as [_ Hw]. rewrite Forall_lookup in Hw. eauto.
  - intros st (t & Ht & H)%Hst. apply elem_of_copyToPackets in H as (i & v & Hi & _ & Hv & Ep & Ev); [|lia..].
    rewrite Ep. split; [unfold n; lia|]. exists v. apply payload_lookup in Hv. tauto.
  - intros i pkt j w Hi Hj. right. simpl in Hi. pose proof (lookup_lt_Some _ _ _ Hi).
    destruct (Hm i pkt Hi) as [Hlp _]. pose proof (lookup_lt_Some _ _ _ Hj).
    destruct (lookup_lt_is_Some_2 origin (words p * i + j)) as [v Hv]; [nia|].
    exists (mkStore i j (v, flag)). split; [|done]. apply Hst. exists (Z.of_nat i mod senders).
    split; [apply Z.mod_pos_bound; lia|]. apply elem_of_copyToPackets; [apply Z.mod_pos_bound; lia|lia|done|].
    exists (Z.of_nat i), v. unfold n in *. rewrite Nat2Z.id. simpl. rewrite payload_lookup.
    split_and!; try done; lia.
  - simpl. intros k r Hk. apply list_lookup_fmap_Some in Hk as (t & -> & Ht).
    apply list_elem_of_lookup_2, elem_of_threads in Ht; [|lia]. unfold reader_ok, copyFromPackets. simpl.
    split; [|split; [lia|by destruct (map _ _)]].
    apply Forall_forall. intros i Hi. apply list_elem_of_fmap in Hi as (x & -> & Hx).
    apply elem_of_strided in Hx; [|lia..]. unfold n. lia.
  - done.
  - intros i Hi. right. simpl. set (t := Z.of_nat i mod receivers).
    destruct (list_elem_of_lookup_1 _ _ (mod_thread (Z.of_nat i) receivers ltac:(lia))) as [k Hk].
    exists k, (copyFromPackets p originBytes t receivers). split.
    + apply list_lookup_fmap_Some. eauto.
    + unfold copyFromPackets. simpl. apply list_elem_of_fmap. exists (Z.of_nat i). split; [lia|].
      apply elem_of_strided; [apply Z.mod_pos_bound; lia|lia|lia|]. unfold n in Hi. split; [lia|done].
Qed.
End start.

(** ** Progress *)

Section progress.
Context (p : PacketType) (origin : list Z) (flag : Z) (n : nat).
Context (Horigin : (words p * n <= length origin)%nat).

(** Steps a reader needs when every word has arrived; an attempt that has loaded an
    old word is repeated. *)
Definition cost (r : reader) : nat :=
  match rd_todo r with
  | [] => 0
  | _ :: rest =>
      (words p - length (rd_loaded r)) + 1 +
      S (words p) * ((if fst (readOnce flag (rd_loaded r)) then 1 else 0) + length rest)
  end.
Definition costs (s : transfer) : nat := sum_list (cost <$> pk_readers s).

Lemma cost_fresh todo : cost (mkReader todo []) = (S (words p) * length todo)%nat.
Proof. unfold cost. destruct todo as [|i todo]; simpl; lia. Qed.

Lemma reader_progress s r i rest :
  pk_inv p origin flag n s -> pk_pending s = [] -> reader_ok p origin flag n r -> rd_todo r = i :: rest ->
  exists r' out, reader_step p flag (pk_mem s) r = Some (r', out) /\ (cost r' < cost r)%nat.
Proof.
  intros Hi Hp (Ht & Hl & Hw) Et. unfold reader_step. rewrite Et in *. apply Forall_cons in Ht as [Hin Ht].
  destruct (decide (length (rd_loaded r) < words p)%nat) as [Hlt|Hge].
  - destruct (pi_shape _ _ _ _ _ Hi) as [S1 S2]. destruct (lookup_lt_is_Some_2 (pk_mem s) i) as [pkt Hm]; [lia|].
    destruct (lookup_lt_is_Some_2 pkt (length (rd_loaded r))) as [w Hwd]; [by rewrite (S2 _ _ Hm)|].
    rewrite Hm. cbn [mbind option_bind]. rewrite Hwd. cbn [mbind option_bind]. eexists _, _. split; [reflexivity|].
    destruct (pi_covers _ _ _ _ _ Hi _ _ _ _ Hm Hwd) as [(v & _ & ->)|(st & Hst & _)];
      [|rewrite Hp in Hst; by apply elem_of_nil in Hst].
    unfold cost. rewrite Et. simpl. rewrite existsb_app. simpl. rewrite Z.eqb_refl, orb_false_r, length_app. simpl. lia.
  - destruct (readOnce flag (rd_loaded r)) as [mis data] eqn:E.
    assert (Hc : cost r = S (S (words p) * ((if mis then 1 else 0) + length rest))%nat).
    { unfold cost. rewrite Et, E. simpl. lia. }
    destruct mis; eexists _, _; (split; [reflexivity|]); rewrite cost_fresh, Hc; simpl; lia.
Qed.

Lemma pk_run_app s s1 s2 : pk_run p flag s (s1 ++ s2) = s' ← pk_run p flag s s1; pk_run p flag s' s2.
Proof.
  revert s. induction s1 as [|a s1 IH]; intros s; simpl; [done|].
  destruct (pk_act p flag s a) as [s'|]; cbn [mbind option_bind]; [apply IH|done].
Qed.

Lemma pk_run_inv sched : forall s s',
  pk_inv p origin flag n s -> pk_run p flag s sched = Some s' -> pk_inv p origin flag n s'.
Proof.
  induction sched as [|a sched IH]; intros s s' Hi Hr; simpl in Hr; [by injection Hr as <-|].
  destruct (pk_act p flag s a) as [s1|] eqn:E; [|done]. cbn [mbind option_bind] in Hr.
  apply (IH s1); [|done]. destruct a; [by eapply pk_inv_store|by eapply pk_inv_read].
Qed.

(** Every store on its way can arrive. *)
Lemma stores_arrive k : forall s,
  length (pk_pending s) = k -> exists s', pk_run p flag s (replicate k (PStore 0)) = Some s' /\ pk_pending s' = [].
Proof.
  induction k as [|k IH]; intros s Hk; [apply length_zero_iff_nil in Hk; by exists s|].
  destruct (pk_pending s) as [|st l] eqn:E; [done|]. cbn [replicate pk_run pk_act]. rewrite E. cbn [lookup list_lookup mbind option_bind].
  apply IH. simpl in *. lia.
Qed.

Lemma costs_read s k r r' m o :
  pk_readers s !! k = Some r -> (cost r' < cost r)%nat ->
  (costs (mkTransfer m (pk_pending s) (<[k := r']> (pk_readers s)) o) < costs s)%nat.
Proof.
  intros Hk Hc. unfold costs. simpl. rewrite list_fmap_insert.
  pose proof (sum_list_insert (cost <$> pk_readers s) k (cost r) (cost r')) as H.
  rewrite list_lookup_fmap, Hk in H. specialize (H eq_refl). lia.
Qed.

(** Then every reader finishes. *)
Lemma readers_finish s :
  pk_inv p origin flag n s -> pk_pending s = [] ->
  exists sched s', pk_run p flag s sched = Some s' /\ pk_inv p origin flag n s' /\
    forall k r, pk_readers s' !! k = Some r -> rd_todo r = [].
Proof.
  remember (costs s) as c eqn:Ec. revert s Ec. induction c as [c IH] using lt_wf_ind. intros s -> Hi Hp.
  destruct (decide (Forall (fun r => rd_todo r = []) (pk_readers s))) as [Hall|Hnot].
  { exists [], s. split; [done|]. split; [done|]. intros k r Hk. by rewrite Forall_lookup in Hall; eapply Hall. }
  apply not_Forall_Exists in Hnot; [|intros r; destruct (rd_todo r); [by left|by right]].
  apply Exists_exists in Hnot as (r & Hr & Hne). simpl in Hne.
  destruct (rd_todo r) as [|i rest] eqn:Et; [done|]. apply list_elem_of_lookup_1 in Hr as [k Hk].
  destruct (reader_progress s r i rest Hi Hp (pi_readers _ _ _ _ _ Hi _ _ Hk) Et) as (r' & out & Es & Hc).
  assert (Ea : exists s1, pk_act p flag s (PRead k) = Some s1 /\ pk_pending s1 = [] /\ (costs s1 < costs s)%nat).
  { simpl. rewrite Hk. cbn [mbind option_bind]. rewrite Es. cbn [mbind option_bind]. eexists. split; [reflexivity|].
    split; [done|]. by eapply costs_read. }
  destruct Ea as (s1 & Ea & Hp1 & Hlt).
  destruct (IH _ Hlt s1 eq_refl (pk_inv_read _ _ _ _ _ _ _ Hi Horigin Ea) Hp1) as (sched & s' & Hrun & Hi' & Hdone).
  exists (PRead k :: sched), s'. cbn [pk_run]. rewrite Ea. cbn [mbind option_bind]. done.
Qed.
End progress.

(** ** Property *)

(** C17: a packet transfer between a group of sending and a group of receiving threads,
    over a buffer in which no word has the flag yet, in every interleaving of words
    and loads: whatever a receiver stores is exactly the payload of its packet, never
    a mixture with older data; and the receivers can always go on to obtain all the
    data. *)
Theorem packets_transfer (p : PacketType) (mem : list (list (Z * Z))) (origin : list Z)
    (originBytes senders receivers flag : Z) (sched : list pk_action) (s : transfer) :
  let n := Z.to_nat (nElem p originBytes) in
  0 < senders < 2 ^ 32 -> 0 < receivers < 2 ^ 32 -> 0 <= nElem p originBytes < 2 ^ 62 ->
  (words p * n <= length origin)%nat -> length mem = n ->
  Forall (fun pkt => length pkt = words p /\ Forall (fun w => w.2 <> flag) pkt) mem ->
  pk_run p flag (pk_init p mem origin originBytes senders receivers flag) sched = Some s ->
  (forall i data, pk_origin s !! i = Some data -> data = payload p origin i) /\
  exists sched' s', pk_run p flag s sched' = Some s' /\
    forall i, (i < n)%nat -> pk_origin s' !! i = Some (payload p origin i).
Proof.
  intros n Hs Hr Hn Ho Hl Hm Hrun.
  pose proof (pk_inv_init _ _ _ _ _ _ _ Hs Hr Hn Ho Hl Hm) as Hi. fold n in Hi.
  pose proof (pk_run_inv _ _ _ _ Ho _ _ _ Hi Hrun) as His. split; [apply (pi_out _ _ _ _ _ His)|].
  destruct (stores_arrive p origin flag n Ho _ s eq_refl) as (s1 & R1 & P1).
  pose proof (pk_run_inv _ _ _ _ Ho _ _ _ His R1) as Hi1.
  destruct (readers_finish _ _ _ _ Ho s1 Hi1 P1) as (sched2 & s2 & R2 & Hi2 & Hdone).
  exists (replicate (length (pk_pending s)) (PStore 0) ++ sched2), s2. rewrite pk_run_app, R1. split; [done|].
  intros i Hlt. destruct (pi_todo _ _ _ _ _ Hi2 i Hlt) as [[v Hv]|(k & r & Hk & Hin)].
  - rewrite Hv. f_equal. by apply (pi_out _ _ _ _ _ Hi2).
  - rewrite (Hdone _ _ Hk) in Hin. by apply elem_of_nil in Hin.
Qed.

Definition demo_pk_sched : list pk_action := [PRead 0; PStore 1; PRead 0; PRead 0; PStore 0; PRead 0; PRead 0; PRead 0].

Lemma packets_transfer_witness :
  exists s, pk_run LL16Packet 7 (pk_init LL16Packet [[(0, 0); (0, 0)]; [(3, 6); (4, 6)]] [11; 12; 13; 14] 16 1 2 7) demo_pk_sched = Some s /\
  pk_origin s !! 0%nat = Some [11; 12] /\
  exists sched' s', pk_run LL16Packet 7 s sched' = Some s' /\
    forall i, (i < 2)%nat -> pk_origin s' !! i = Some (payload LL16Packet [11; 12; 13; 14] i).
Proof.
  eexists. split; [vm_compute; reflexivity|]. split; [done|].
  refine (proj2 (packets_transfer LL16Packet [[(0, 0); (0, 0)]; [(3, 6); (4, 6)]] [11; 12; 13; 14] 16 1 2 7 demo_pk_sched _ _ _ _ _ _ _ _));
    first [done | by vm_compute | repeat constructor; done].
Defined.
