(* ===== verification/GpuDataTypes.v ===== *)
(** * Data types of the GPU kernels

    Models include/mscclpp/gpu_data_types.hpp: the software float8 format
    [__fp8_e4m3b15] (scalar and packed conversions, arithmetic), packed bytes, clipping,
    the half and bfloat16 conversions of the CANN build, and the element-wise
    reductions of src/core/include/reduce_kernel.hpp built on them.  Values are bit
    patterns in [Z].  Device intrinsics and floating-point units are the classes
    [Intrinsics], [HalfConv] and [FloatOps]; [IntrinsicLaws] and [HalfConvLaws] state
    what their documentation says. *)

From S2P Require Import Prelude.
Local Open Scope Z_scope.

(** ** Packed words *)

(** Two 16-bit lanes and four 8-bit lanes of a 32-bit word, lowest first. *)
Definition pack2 (h0 h1 : Z) : Z := h0 + h1 * 2 ^ 16.
Definition pack4 (b0 b1 b2 b3 : Z) : Z := pack2 (b0 + b1 * 2 ^ 8) (b2 + b3 * 2 ^ 8).

Definition byte_of (w i : Z) : Z := Z.land (Z.shiftr w (8 * i)) 0xff.
Definition half_of (w i : Z) : Z := Z.land (Z.shiftr w (16 * i)) 0xffff.

(** ** Device intrinsics *)

Class Intrinsics := {
  byte_perm : Z -> Z -> Z -> Z;          (* __byte_perm(x, y, selector) *)
  vadd4 : Z -> Z -> Z;                   (* __vadd4 *)
  vminu4 : Z -> Z -> Z;                  (* __vminu4 *)
  vminu2 : Z -> Z -> Z;                  (* __vminu2, v_pk_min_u16 *)
  lop3 : Z -> Z -> Z -> Z -> Z           (* lop3.b32 a, b, c, table *)
}.

(** The byte of the pair [x], [y] that nibble [i] of the selector names. *)
Definition selected (x y s i : Z) : Z :=
  let n := Z.land (Z.shiftr s (4 * i)) 7 in if n <? 4 then byte_of x n else byte_of y (n - 4).

Class IntrinsicLaws (I : Intrinsics) : Prop := {
  byte_perm_spec x y s : byte_perm x y s =
    pack4 (selected x y s 0) (selected x y s 1) (selected x y s 2) (selected x y s 3);
  vadd4_spec a0 a1 a2 a3 b0 b1 b2 b3 : Forall (is_u 8) [a0; a1; a2; a3; b0; b1; b2; b3] ->
    vadd4 (pack4 a0 a1 a2 a3) (pack4 b0 b1 b2 b3) = pack4 (u8 (a0 + b0)) (u8 (a1 + b1)) (u8 (a2 + b2)) (u8 (a3 + b3));
  vminu4_spec a0 a1 a2 a3 b0 b1 b2 b3 : Forall (is_u 8) [a0; a1; a2; a3; b0; b1; b2; b3] ->
    vminu4 (pack4 a0 a1 a2 a3) (pack4 b0 b1 b2 b3) = pack4 (Z.min a0 b0) (Z.min a1 b1) (Z.min a2 b2) (Z.min a3 b3);
  vminu2_spec a0 a1 b0 b1 : Forall (is_u 16) [a0; a1; b0; b1] ->
    vminu2 (pack2 a0 a1) (pack2 b0 b1) = pack2 (Z.min a0 b0) (Z.min a1 b1);
  lop3_spec a b c t i : 0 <= i < 32 ->
    Z.testbit (lop3 a b c t) i =
    Z.testbit t (4 * Z.b2z (Z.testbit a i) + 2 * Z.b2z (Z.testbit b i) + Z.b2z (Z.testbit c i));
  lop3_range a b c t : is_u 32 (lop3 a b c t)
}.

(** Conversions between half and float; [None] is undefined behaviour. *)
Class HalfConv := { half2float : Z -> Z; float2half_rn : Z -> option Z }.

Definition half_nan (h : Z) : bool := 0x7c00 <? Z.land h 0x7fff.

(** Widening is exact, so narrowing gives the half back. *)
Class HalfConvLaws (C : HalfConv) : Prop := {
  half_exact h : is_u 16 h -> half_nan h = false -> float2half_rn (half2float h) = Some h
}.

(** Arithmetic on float and half bit patterns. *)
Class FloatOps := {
  fadd : Z -> Z -> Z; fminf : Z -> Z -> Z;
  hadd : Z -> Z -> Z; hmax : Z -> Z -> Z; hmin : Z -> Z -> Z;
  bf_hadd : Z -> Z -> Z; bf_hmax : Z -> Z -> Z; bf_hmin : Z -> Z -> Z
}.

(** ** half and bfloat16 of the CANN build *)

(** A shift by 32 or more is undefined. *)
Definition shr32 (a n : Z) : option Z := if n <? 32 then Some (Z.shiftr a n) else None.
Definition shl32 (a n : Z) : option Z := if n <? 32 then Some (u32 (Z.shiftl a n)) else None.

(** [__half(float)], on the bits of the float. *)
Definition cann_half (u : Z) : option Z :=
  let sign := Z.land u 0x80000000 in
  let abs := Z.land u 0x7fffffff in
  if 0x477fe000 <? abs then Some (u16 (Z.lor (Z.shiftr sign 16) 0x7c00))
  else if abs <? 0x33000000 then Some 0
  else
    let exp := Z.shiftr abs 23 in
    let mant := Z.land abs 0x7fffff in
    if 112 <? exp then
      Some (u16 (Z.lor (Z.lor (Z.shiftr sign 16) (u32 (Z.shiftl (exp - 112) 10))) (Z.shiftr mant 13)))
    else
      let shift := u32 (125 - exp) in
      m ← shr32 mant (u32 (shift + 2));
      one ← shl32 1 (u32 (10 - shift));
      Some (u16 (Z.lor (Z.lor (Z.shiftr sign 16) m) one)).

(** [__half::operator float]. *)
Definition cann_float (x : Z) : Z :=
  let sign := u32 (Z.shiftl (Z.land x 0x8000) 16) in
  let exp := Z.shiftr (Z.land x 0x7c00) 10 in
  let mant := Z.land x 0x03ff in
  if exp =? 0 then Z.lor sign (Z.shiftl mant 13)
  else if exp =? 31 then Z.lor (Z.lor sign 0x7f800000) (Z.shiftl mant 13)
  else Z.lor (Z.lor sign (u32 (Z.shiftl (exp + 112) 23))) (Z.shiftl mant 13).

Definition cann : HalfConv := {| half2float := cann_float; float2half_rn := cann_half |}.

(** [__bfloat16(float)] and [__bfloat16::operator float]. *)
Definition cann_bf16 (u : Z) : Z :=
  let rounding_bias := Z.land (Z.shiftr u 16) 1 in
  u16 (Z.shiftr (u32 (u + rounding_bias)) 16).
Definition cann_bf16_float (x : Z) : Z := u32 (Z.shiftl x 16).

(** ** __fp8_e4m3b15 *)

(** The half that [toFloat] makes of the eight bits. *)
Definition decode16 (bits : Z) : Z :=
  let h := u16 (Z.shiftl bits 8) in
  let sign16 := Z.land h 0x8000 in
  let nosign := Z.land h 0x7F00 in
  Z.lor sign16 (Z.shiftr nosign 1).

(** The eight bits that [fromFloat] makes of a half. *)
Definition encode16 (fp16_bits : Z) : Z :=
  let abs_fp16 := Z.land fp16_bits 0x7FFF in
  let abs_fp16 := if 0x3F00 <? abs_fp16 then 0x3F00 else abs_fp16 in
  let sign16 := Z.land fp16_bits 0x8000 in
  let adjusted := u16 (abs_fp16 * 2 + 0x0080) in
  let with_sign := Z.lor sign16 adjusted in
  u8 (Z.shiftr with_sign 8).

Section fp8.
Context `{C : HalfConv}.

Definition toFloat (bits : Z) : Z := half2float (decode16 bits).
Definition fromFloat (val : Z) : option Z := h ← float2half_rn val; Some (encode16 h).

(** The fallback of the packed conversions: one element after the other. *)
Definition elem_to_half (b : Z) : option Z := float2half_rn (toFloat b).
Definition elem_of_half (h : Z) : option Z := fromFloat (half2float h).
End fp8.

(** ** Packed conversions *)

Inductive platform := Cuda | Gfx942 | OtherDevice.

Section packed.
Context `{I : Intrinsics} `{C : HalfConv}.

(** [to<f16x2, f8_e4m3b15x2>]; CUDA and gfx942 do the same. *)
Definition to_f16x2 (p : platform) (v : Z) : option Z :=
  match p with
  | Cuda | Gfx942 =>
      let a0 := Z.lor (u32 (Z.shiftl (Z.land v 0xFF) 8)) (u32 (Z.shiftl (Z.shiftr v 8) 24)) in
      let b0 := Z.shiftr (Z.land a0 0x7f007f00) 1 in
      Some (Z.lor b0 (Z.land a0 0x80008000))
  | OtherDevice =>
      h0 ← elem_to_half (byte_of v 0); h1 ← elem_to_half (byte_of v 1); Some (pack2 h0 h1)
  end.

(** [to<f16x4, f8_e4m3b15x4>]: two words. *)
Definition to_f16x4 (p : platform) (v : Z) : option (Z * Z) :=
  match p with
  | Cuda =>
      let a0 := byte_perm 0 v 0x5746 in
      let out0 := lop3 (Z.shiftr a0 1) 0x3f803f80 (Z.land a0 0x80008000) 0xEA in
      let a1 := byte_perm a0 0 0x2301 in
      let out1 := lop3 (Z.shiftr a1 1) 0x3f803f80 (Z.land a1 0x80008000) 0xEA in
      Some (out0, out1)
  | Gfx942 =>
      let a0 := byte_perm 0 v 0x5746 in
      let out0 := Z.lor (Z.land (Z.shiftr a0 1) 0x3f803f80) (Z.land a0 0x80008000) in
      let a1 := byte_perm a0 0 0x2301 in
      let out1 := Z.lor (Z.land (Z.shiftr a1 1) 0x3f803f80) (Z.land a1 0x80008000) in
      Some (out0, out1)
  | OtherDevice =>
      h0 ← elem_to_half (byte_of v 0); h1 ← elem_to_half (byte_of v 1);
      h2 ← elem_to_half (byte_of v 2); h3 ← elem_to_half (byte_of v 3); Some (pack2 h0 h1, pack2 h2 h3)
  end.

(** [to<f8_e4m3b15x2, f16x2>]. *)
Definition to_fp8x2 (p : platform) (in0 : Z) : option Z :=
  match p with
  | Cuda =>
      let lo := Z.land in0 0xFFFF in
      let hi := Z.shiftr in0 16 in
      let alo := Z.land lo 0x7FFF in
      let ahi := Z.land hi 0x7FFF in
      let alo := if alo <? 0x3F00 then alo else 0x3F00 in
      let ahi := if ahi <? 0x3F00 then ahi else 0x3F00 in
      let a0 := Z.lor alo (u32 (Z.shiftl ahi 16)) in
      let a0 := u32 (a0 * 2 + 0x00800080) in
      let b0 := Z.lor a0 (Z.land in0 0x80008000) in
      Some (u16 (Z.lor (Z.land (Z.shiftr b0 8) 0xFF) (Z.land (Z.shiftr b0 16) 0xFF00)))
  | Gfx942 =>
      let abs0 := Z.land in0 0x7fff7fff in
      let a0 := vminu2 abs0 0x3F003F00 in
      let a0 := u32 (a0 * 2 + 0x00800080) in
      let b0 := Z.lor a0 (Z.land in0 0x80008000) in
      Some (u16 (Z.lor (Z.land (Z.shiftr b0 8) 0xFF) (Z.land (Z.shiftr b0 16) 0xFF00)))
  | OtherDevice =>
      b0 ← elem_of_half (half_of in0 0); b1 ← elem_of_half (half_of in0 1); Some (b0 + b1 * 2 ^ 8)
  end.

(** [to<f8_e4m3b15x4, f16x4>]. *)
Definition to_fp8x4 (p : platform) (in0 in1 : Z) : option Z :=
  match p with
  | Cuda =>
      let a0 := vminu2 (Z.land in0 0x7fff7fff) 0x3F003F00 in
      let a1 := vminu2 (Z.land in1 0x7fff7fff) 0x3F003F00 in
      let a0 := u32 (a0 * 2 + 0x00800080) in
      let a1 := u32 (a1 * 2 + 0x00800080) in
      let b0 := lop3 a0 in0 0x80008000 0xf8 in
      let b1 := lop3 a1 in1 0x80008000 0xf8 in
      Some (byte_perm b0 b1 0x7531)
  | Gfx942 =>
      let a0 := vminu2 (Z.land in0 0x7fff7fff) 0x3F003F00 in
      let a1 := vminu2 (Z.land in1 0x7fff7fff) 0x3F003F00 in
      let a0 := u32 (a0 * 2 + 0x00800080) in
      let a1 := u32 (a1 * 2 + 0x00800080) in
      let b0 := Z.lor a0 (Z.land in0 0x80008000) in
      let b1 := Z.lor a1 (Z.land in1 0x80008000) in
      Some (byte_perm b0 b1 0x7531)
  | OtherDevice =>
      b0 ← elem_of_half (half_of in0 0); b1 ← elem_of_half (half_of in0 1);
      b2 ← elem_of_half (half_of in1 0); b3 ← elem_of_half (half_of in1 1); Some (pack4 b0 b1 b2 b3)
  end.

(** ** Packed bytes *)

Definition is_hip (p : platform) : bool := match p with Cuda => false | _ => true end.

(** [operator+] of [u8x4]. *)
Definition u8x4_add (p : platform) (ua ub : Z) : Z :=
  if is_hip p then
    let even := 0x00ff00ff in
    let x := u32 (Z.land ua even + Z.land ub even) in
    let y := u32 (Z.land ua 0xff00ff00 + Z.land ub 0xff00ff00) in
    byte_perm x y 0x7250
  else vadd4 ua ub.

Definition not32 (x : Z) : Z := Z.lxor x 0xffffffff.

(** [min] of [u8x4]. *)
Definition u8x4_min (p : platform) (ua ub : Z) : Z :=
  if is_hip p then
    let ones := 0x01010101 in
    let even := 0x00ff00ff in
    let d0 := u32 (u32 (Z.land ua even + Z.land (not32 ub) even) + ones) in
    let d1 := u32 (u32 (Z.land (Z.shiftr ua 8) even + Z.land (not32 (Z.shiftr ub 8)) even) + ones) in
    let s := Z.land (byte_perm d0 d1 0x7351) ones in
    let s := u32 (s * 0xff) in
    Z.lor (Z.land ua s) (Z.land ub (not32 s))
  else vminu4 ua ub.
End packed.

(** ** Clipping and element-wise reductions *)

Inductive ReduceOp := SUM | MIN.
Inductive elem_type := Int32 | UInt32 | Float | Half | BFloat16 | UInt8 | Fp8E4M3B15.

Definition sizeof (T : elem_type) : Z :=
  match T with Int32 | UInt32 | Float => 4 | Half | BFloat16 => 2 | UInt8 | Fp8E4M3B15 => 1 end.

Section reduce.
Context `{I : Intrinsics} `{C : HalfConv} `{F : FloatOps}.

(** [clip(__half)], [clip(__bfloat16)]. *)
Definition clip_half (val : Z) : Z := hmin (hmax val 0xfbff) 0x7bff.
Definition clip_bf16 (val : Z) : Z := bf_hmin (bf_hmax val 0xff80) 0x7f80.

Definition map_half2 (f : Z -> Z -> Z) (a b : Z) : Z :=
  pack2 (f (half_of a 0) (half_of b 0)) (f (half_of a 1) (half_of b 1)).

(** [operator+] of [f16x2] and [bf16x2]. *)
Definition f16x2_add (a b : Z) : Z := map_half2 (fun x y => clip_half (hadd x y)) a b.
Definition bf16x2_add (a b : Z) : Z := map_half2 (fun x y => clip_bf16 (bf_hadd x y)) a b.

(** [operator+] and [min] of [__fp8_e4m3b15]; both go through float. *)
Definition fp8_add (a b : Z) : option Z := fromFloat (fadd (toFloat a) (toFloat b)).
Definition fp8_min (a b : Z) : option Z := fromFloat (fminf (toFloat a) (toFloat b)).
Definition fp8x4_op (f : Z -> Z -> option Z) (a b : Z) : option Z :=
  r0 ← f (byte_of a 0) (byte_of b 0); r1 ← f (byte_of a 1) (byte_of b 1);
  r2 ← f (byte_of a 2) (byte_of b 2); r3 ← f (byte_of a 3) (byte_of b 3); Some (pack4 r0 r1 r2 r3).

(** [calVectorHelper<CompType, OpType>] on one 32-bit word, with the [CompType] that
    [calVector] picks for the element type. *)
Definition calWord (p : platform) (T : elem_type) (op : ReduceOp) (a b : Z) : option Z :=
  match T, op with
  | (Int32 | UInt32), SUM => Some (u32 (a + b))
  | Int32, MIN => Some (if s32 a <? s32 b then a else b)
  | UInt32, MIN => Some (if a <? b then a else b)
  | Float, SUM => Some (fadd a b)
  | Float, MIN => Some (fminf a b)
  | Half, SUM => Some (f16x2_add a b)
  | Half, MIN => Some (map_half2 hmin a b)
  | BFloat16, SUM => Some (bf16x2_add a b)
  | BFloat16, MIN => Some (map_half2 bf_hmin a b)
  | UInt8, SUM => Some (u8x4_add p a b)
  | UInt8, MIN => Some (u8x4_min p a b)
  | Fp8E4M3B15, SUM => fp8x4_op fp8_add a b
  | Fp8E4M3B15, MIN => fp8x4_op fp8_min a b
  end.

(** [calVector] on the words of an [int4], [uint2] or [uint32_t]. *)
Fixpoint calVector (p : platform) (T : elem_type) (op : ReduceOp) (a b : list Z) : option (list Z) :=
  match a, b with
  | x :: a', y :: b' => z ← calWord p T op x y; zs ← calVector p T op a' b'; Some (z :: zs)
  | _, _ => Some []
  end.

(** [a + b] of two elements: what the kernels use for a rest shorter than a vector. *)
Definition add_elem (T : elem_type) (a b : Z) : option Z :=
  match T with
  | Int32 | UInt32 => Some (u32 (a + b))
  | Float => Some (fadd a b)
  | Half => Some (hadd a b)
  | BFloat16 => Some (bf_hadd a b)
  | UInt8 => Some (u8 (a + b))
  | Fp8E4M3B15 => fp8_add a b
  end.
End reduce.

(** ** Checking finitely many cases *)

Fixpoint all_from (fuel : nat) (i : Z) (f : Z -> bool) : bool :=
  match fuel with O => true | S fuel' => f i && all_from fuel' (i + 1) f end.
Definition all_below (n : Z) (f : Z -> bool) : bool := all_from (Z.to_nat n) 0 f.

Lemma all_below_spec n f i : all_below n f = true -> 0 <= i < n -> f i = true.
Proof.
  unfold all_below. intros H Hi. assert (Hg : forall fuel k, all_from fuel k f = true ->
    forall j, k <= j < k + Z.of_nat fuel -> f j = true).
  { clear. induction fuel as [|fuel IH]; intros k H j Hj; [lia|]. simpl in H. apply andb_prop in H as [H1 H2].
    destruct (decide (j = k)) as [->|]; [done|]. apply (IH (k + 1)); [done|lia]. }
  apply (Hg _ _ H). lia.
Qed.

(** ** Lanes *)

Lemma testbit_cat k lo hi i :
  0 <= k -> is_u k lo -> 0 <= i ->
  Z.testbit (lo + hi * 2 ^ k) i = if i <? k then Z.testbit lo i else Z.testbit hi (i - k).
Proof.
  intros Hk Hlo Hi. destruct (Z.ltb_spec i k).
  - rewrite <- (Z.mod_small lo (2 ^ k)) at 2 by done. rewrite <- (Z.mod_pow2_bits_low _ k) by lia.
    by rewrite Z.mod_add by (apply Z.pow_nonzero; lia).
  - replace i with (i - k + k) at 1 by lia. rewrite <- Z.div_pow2_bits by lia.
    rewrite Z.div_add by (apply Z.pow_nonzero; lia). rewrite Z.div_small by done. by rewrite Z.add_0_l.
Qed.

Lemma bits_is_u w z : 0 <= w -> (forall i, w <= i -> Z.testbit z i = false) -> is_u w z.
Proof.
  intros Hw H. assert (z = z mod 2 ^ w) as ->; [|by apply wrap_is_u].
  apply Z.bits_inj'. intros i Hi. destruct (Z.ltb_spec i w).
  - by rewrite Z.mod_pow2_bits_low by lia.
  - rewrite Z.mod_pow2_bits_high by lia. auto.
Qed.

Lemma is_u_land w x y : 0 <= w -> is_u w x -> is_u w (Z.land x y).
Proof.
  intros Hw H. apply bits_is_u; [done|]. intros i Hi. rewrite Z.land_spec.
  by rewrite (testbit_above w) by (done || lia).
Qed.

Lemma is_u_lor w x y : 0 <= w -> is_u w x -> is_u w y -> is_u w (Z.lor x y).
Proof.
  intros Hw Hx Hy. apply bits_is_u; [done|]. intros i Hi. rewrite Z.lor_spec.
  by rewrite !(testbit_above w) by (done || lia).
Qed.

Lemma is_u_shiftr w k x : 0 <= k -> is_u (w + k) x -> 0 <= w -> is_u w (Z.shiftr x k).
Proof.
  intros Hk Hx Hw. apply bits_is_u; [done|]. intros i Hi. rewrite Z.shiftr_spec by lia.
  apply (testbit_above (w + k)); [done|lia].
Qed.

Lemma is_u_cat k w lo hi : 0 <= k -> 0 <= w -> is_u k lo -> is_u w hi -> is_u (k + w) (lo + hi * 2 ^ k).
Proof. intros Hk Hw [? ?] [? ?]. unfold is_u. rewrite Z.pow_add_r by lia. nia. Qed.

(** Bitwise operations act on the lanes one by one. *)
Ltac cat_bits :=
  apply Z.bits_inj'; intros ? ?;
  repeat first [rewrite Z.land_spec | rewrite Z.lor_spec | rewrite Z.lxor_spec
               | rewrite testbit_cat by (try apply is_u_land; try apply is_u_lor; first [done | lia])];
  case_match; rewrite ?Z.land_spec, ?Z.lor_spec, ?Z.lxor_spec; done.

Lemma land_cat k lo hi lo' hi' : 0 <= k -> is_u k lo -> is_u k lo' ->
  Z.land (lo + hi * 2 ^ k) (lo' + hi' * 2 ^ k) = Z.land lo lo' + Z.land hi hi' * 2 ^ k.
Proof. intros. cat_bits. Qed.

Lemma lor_cat k lo hi lo' hi' : 0 <= k -> is_u k lo -> is_u k lo' ->
  Z.lor (lo + hi * 2 ^ k) (lo' + hi' * 2 ^ k) = Z.lor lo lo' + Z.lor hi hi' * 2 ^ k.
Proof. intros. cat_bits. Qed.

Lemma is_u_pack2 h0 h1 : is_u 16 h0 -> is_u 16 h1 -> is_u 32 (pack2 h0 h1).
Proof. intros. by apply (is_u_cat 16 16). Qed.

Lemma is_u_pair b0 b1 : is_u 8 b0 -> is_u 8 b1 -> is_u 16 (b0 + b1 * 2 ^ 8).
Proof. intros. by apply (is_u_cat 8 8). Qed.

Lemma land_pack2 x y x' y' : is_u 16 x -> is_u 16 x' ->
  Z.land (pack2 x y) (pack2 x' y') = pack2 (Z.land x x') (Z.land y y').
Proof. intros. by apply land_cat. Qed.

Lemma lor_pack2 x y x' y' : is_u 16 x -> is_u 16 x' ->
  Z.lor (pack2 x y) (pack2 x' y') = pack2 (Z.lor x x') (Z.lor y y').
Proof. intros. by apply lor_cat. Qed.

Lemma land_ffff x : Z.land x 0xffff = x mod 2 ^ 16.
Proof. by apply (Z.land_ones x 16). Qed.

Lemma land_ff x : Z.land x 0xff = x mod 2 ^ 8.
Proof. by apply (Z.land_ones x 8). Qed.

Lemma land_7fff x : Z.land x 0x7fff = x mod 2 ^ 15.
Proof. by apply (Z.land_ones x 15). Qed.

Lemma land_7f x : Z.land x 0x7f = x mod 2 ^ 7.
Proof. by apply (Z.land_ones x 7). Qed.

Lemma half_of_0 x y : is_u 16 x -> half_of (pack2 x y) 0 = x.
Proof.
  intros H. unfold half_of, pack2. rewrite Z.shiftr_0_r. change 0xffff with (0xffff + 0 * 2 ^ 16).
  rewrite land_cat by done. rewrite Z.land_0_r, land_ffff. by rewrite Z.mod_small, Z.add_0_r by done.
Qed.

Lemma half_of_1 x y : is_u 16 x -> is_u 16 y -> half_of (pack2 x y) 1 = y.
Proof.
  intros H Hy. unfold half_of, pack2. rewrite Z.shiftr_div_pow2 by lia. change (2 ^ (16 * 1)) with (2 ^ 16).
  rewrite Z.div_add, Z.div_small, Z.add_0_l by done. rewrite land_ffff. by apply Z.mod_small.
Qed.

Lemma byte_of_div w i : 0 <= i -> byte_of w i = (w / 2 ^ (8 * i)) mod 2 ^ 8.
Proof. intros Hi. unfold byte_of. rewrite Z.shiftr_div_pow2 by lia. by rewrite land_ff. Qed.

Lemma byte_of_pack4 b0 b1 b2 b3 :
  is_u 8 b0 -> is_u 8 b1 -> is_u 8 b2 -> is_u 8 b3 ->
  byte_of (pack4 b0 b1 b2 b3) 0 = b0 /\ byte_of (pack4 b0 b1 b2 b3) 1 = b1 /\
  byte_of (pack4 b0 b1 b2 b3) 2 = b2 /\ byte_of (pack4 b0 b1 b2 b3) 3 = b3.
Proof.
  unfold is_u, pack4, pack2. intros. rewrite !byte_of_div by lia. Z.to_euclidean_division_equations. lia.
Qed.

Lemma byte_of_pair b0 b1 : is_u 8 b0 -> is_u 8 b1 ->
  byte_of (b0 + b1 * 2 ^ 8) 0 = b0 /\ byte_of (b0 + b1 * 2 ^ 8) 1 = b1.
Proof. unfold is_u. intros. rewrite !byte_of_div by lia. Z.to_euclidean_division_equations. lia. Qed.

Lemma byte_of_is_u w i : is_u 8 (byte_of w i).
Proof. unfold byte_of. rewrite land_ff. by apply wrap_is_u. Qed.

(** A word is its bytes, and its lanes. *)
Lemma pack2_of w : is_u 32 w -> w = pack2 (half_of w 0) (half_of w 1).
Proof.
  intros [? ?]. unfold half_of, pack2. rewrite !land_ffff, !Z.shiftr_div_pow2 by lia.
  Z.to_euclidean_division_equations. lia.
Qed.

Lemma half_of_is_u w i : is_u 16 (half_of w i).
Proof. unfold half_of. rewrite land_ffff. by apply wrap_is_u. Qed.

Lemma shiftr1_pack2 x y : Z.shiftr (pack2 x y) 1 = pack2 (x / 2 + y mod 2 * 2 ^ 15) (y / 2).
Proof. unfold pack2. rewrite Z.shiftr_div_pow2 by lia. Z.to_euclidean_division_equations. lia. Qed.

(** ** The scalar format *)

Lemma decode16_is_u b : is_u 8 b -> is_u 16 (decode16 b).
Proof.
  intros Hb. unfold decode16. apply is_u_lor; [done|by apply is_u_land, wrap_is_u|].
  apply is_u_shiftr; [done| |done]. apply is_u_land; [done|]. unfold u16.
  destruct (wrap_is_u 16 (Z.shiftl b 8) ltac:(lia)). unfold is_u in *. lia.
Qed.

Lemma encode16_is_u h : is_u 8 (encode16 h).
Proof. by apply wrap_is_u. Qed.

(** One lane of the packed decoders; the lane above may leave a bit behind. *)
Lemma decode_lane l c : is_u 16 l -> is_u 1 c ->
  Z.lor (Z.land (l / 2 + c * 2 ^ 15) 0x3f80) (Z.land l 0x8000) = decode16 (l / 2 ^ 8).
Proof.
  intros Hl Hc. assert ((l * 2 + c) / 2 = l /\ (l * 2 + c) mod 2 = c) as [E1 E2]
    by (unfold is_u in *; Z.to_euclidean_division_equations; lia).
  assert (H : all_below (2 ^ 17) (fun i => let l := i / 2 in let c := i mod 2 in
    Z.lor (Z.land (l / 2 + c * 2 ^ 15) 0x3f80) (Z.land l 0x8000) =? decode16 (l / 2 ^ 8)) = true) by by vm_compute.
  pose proof (all_below_spec _ _ (l * 2 + c) H) as E. unfold is_u in *. specialize (E ltac:(lia)). cbv zeta in E.
  rewrite E1, E2 in E. by apply Z.eqb_eq in E.
Qed.

(** One lane of the packed encoders. *)
Definition clamp_lane (h : Z) : Z := Z.lor (Z.min (Z.land h 0x7fff) 0x3f00 * 2 + 0x80) (Z.land h 0x8000).

Lemma encode_lane h : is_u 16 h -> clamp_lane h / 2 ^ 8 = encode16 h /\ is_u 16 (clamp_lane h).
Proof.
  intros Hh. assert (H : all_below (2 ^ 16) (fun h =>
    (clamp_lane h / 2 ^ 8 =? encode16 h) && (0 <=? clamp_lane h) && (clamp_lane h <? 2 ^ 16)) = true) by by vm_compute.
  pose proof (all_below_spec _ _ h H Hh) as E. cbv beta in E. bool_to_prop. unfold is_u. lia.
Qed.

(** ** The packed conversions, lane by lane *)

Section laws.
Context `{I : Intrinsics} `{!IntrinsicLaws I}.

(** The two tables the code uses: [(a & b) | c] and [a | (b & c)]. *)
Lemma lop3_tables a b c : is_u 32 a -> is_u 32 b -> is_u 32 c ->
  lop3 a b c 0xEA = Z.lor (Z.land a b) c /\ lop3 a b c 0xf8 = Z.lor a (Z.land b c).
Proof.
  intros Ha Hb Hc. split; apply Z.bits_inj'; intros i Hi; rewrite Z.lor_spec, Z.land_spec;
    (destruct (Z.ltb_spec i 32); [|rewrite !(testbit_above 32) by (done || apply lop3_range || lia); done]);
    rewrite lop3_spec by lia; by destruct (Z.testbit a i), (Z.testbit b i), (Z.testbit c i).
Qed.

(** Where the selectors of the code take their bytes from. *)
Lemma byte_perms x y :
  byte_perm x y 0x5746 = pack4 (byte_of y 2) (byte_of y 0) (byte_of y 3) (byte_of y 1) /\
  byte_perm x y 0x2301 = pack4 (byte_of x 1) (byte_of x 0) (byte_of x 3) (byte_of x 2) /\
  byte_perm x y 0x7531 = pack4 (byte_of x 1) (byte_of x 3) (byte_of y 1) (byte_of y 3) /\
  byte_perm x y 0x7250 = pack4 (byte_of x 0) (byte_of y 1) (byte_of x 2) (byte_of y 3) /\
  byte_perm x y 0x7351 = pack4 (byte_of x 1) (byte_of y 1) (byte_of x 3) (byte_of y 3).
Proof. by rewrite !byte_perm_spec. Qed.

(** Decoding the high bytes of two lanes at once. *)
Lemma decode_word x0 b0 x1 b1 : is_u 8 x0 -> is_u 8 b0 -> is_u 8 x1 -> is_u 8 b1 ->
  let a := pack4 x0 b0 x1 b1 in
  Z.lor (Z.land (Z.shiftr a 1) 0x3f803f80) (Z.land a 0x80008000) = pack2 (decode16 b0) (decode16 b1) /\
  lop3 (Z.shiftr a 1) 0x3f803f80 (Z.land a 0x80008000) 0xEA = pack2 (decode16 b0) (decode16 b1).
Proof.
  intros Hx0 Hb0 Hx1 Hb1 a.
  pose proof (is_u_pair _ _ Hx0 Hb0) as Hl. pose proof (is_u_pair _ _ Hx1 Hb1) as Hh.
  assert (E : Z.lor (Z.land (Z.shiftr a 1) 0x3f803f80) (Z.land a 0x80008000) = pack2 (decode16 b0) (decode16 b1)).
  { unfold a, pack4. rewrite shiftr1_pack2. change 0x3f803f80 with (pack2 0x3f80 0x3f80).
    change 0x80008000 with (pack2 0x8000 0x8000). set (l := x0 + b0 * 2 ^ 8) in *. set (h := x1 + b1 * 2 ^ 8) in *.
    assert (Hc : is_u 1 (h mod 2)) by by apply wrap_is_u.
    assert (is_u 16 (l / 2 + h mod 2 * 2 ^ 15)) by (unfold is_u in *; Z.to_euclidean_division_equations; lia).
    rewrite !land_pack2, lor_pack2, decode_lane by (done || by apply is_u_land).
    rewrite <- (Z.add_0_r (h / 2)). change 0 with (0 * 2 ^ 15) at 1. rewrite decode_lane by done.
    unfold l, h. unfold is_u in *. f_equal; f_equal; rewrite Z.div_add, Z.div_small; lia. }
  split; [done|]. rewrite <- E. assert (is_u 32 a) by by apply is_u_pack2.
  apply lop3_tables; [|done|by apply is_u_land]. apply is_u_shiftr; [done| |done]. unfold is_u in *. lia.
Qed.

(** Encoding two lanes at once, up to the choice of the high bytes. *)
Lemma encode_word h0 h1 : is_u 16 h0 -> is_u 16 h1 ->
  let in0 := pack2 h0 h1 in
  let a0 := u32 (pack2 (Z.min (Z.land h0 0x7fff) 0x3f00) (Z.min (Z.land h1 0x7fff) 0x3f00) * 2 + 0x00800080) in
  Z.lor a0 (Z.land in0 0x80008000) = pack2 (clamp_lane h0) (clamp_lane h1) /\
  lop3 a0 in0 0x80008000 0xf8 = pack2 (clamp_lane h0) (clamp_lane h1).
Proof.
  intros H0 H1 in0 a0. pose proof (is_u_land 16 h0 0x7fff ltac:(lia) H0) as A0.
  pose proof (is_u_land 16 h1 0x7fff ltac:(lia) H1) as A1. unfold is_u in A0, A1.
  set (m0 := Z.min (Z.land h0 0x7fff) 0x3f00) in *. set (m1 := Z.min (Z.land h1 0x7fff) 0x3f00) in *.
  assert (0 <= m0 <= 0x3f00 /\ 0 <= m1 <= 0x3f00) as [M0 M1] by (unfold m0, m1; lia).
  assert (Ea : a0 = pack2 (m0 * 2 + 0x80) (m1 * 2 + 0x80)).
  { unfold a0, pack2. rewrite u32_small; lia. }
  assert (E : Z.lor a0 (Z.land in0 0x80008000) = pack2 (clamp_lane h0) (clamp_lane h1)).
  { rewrite Ea. unfold in0. change 0x80008000 with (pack2 0x8000 0x8000).
    rewrite land_pack2, lor_pack2 by (first [done | by apply is_u_land | unfold is_u; lia]). done. }
  split; [done|]. rewrite <- E. apply lop3_tables; [by apply wrap_is_u|by apply is_u_pack2|done].
Qed.

Lemma clamp_word h0 h1 : is_u 16 h0 -> is_u 16 h1 ->
  vminu2 (Z.land (pack2 h0 h1) 0x7fff7fff) 0x3F003F00 =
  pack2 (Z.min (Z.land h0 0x7fff) 0x3f00) (Z.min (Z.land h1 0x7fff) 0x3f00).
Proof.
  intros H0 H1. change 0x7fff7fff with (pack2 0x7fff 0x7fff). change 0x3F003F00 with (pack2 0x3F00 0x3F00).
  rewrite land_pack2 by done. apply vminu2_spec.
  rewrite !Forall_cons. split_and!; try done; by apply is_u_land.
Qed.

Lemma high_bytes h0 h1 : is_u 16 h0 -> is_u 16 h1 ->
  byte_of (pack2 h0 h1) 1 = h0 / 2 ^ 8 /\ byte_of (pack2 h0 h1) 3 = h1 / 2 ^ 8.
Proof.
  unfold is_u, pack2. intros. rewrite !byte_of_div by lia. Z.to_euclidean_division_equations. lia.
Qed.

Lemma pack_high h0 h1 : is_u 16 h0 -> is_u 16 h1 ->
  u16 (Z.lor (Z.land (Z.shiftr (pack2 h0 h1) 8) 0xFF) (Z.land (Z.shiftr (pack2 h0 h1) 16) 0xFF00)) =
  h0 / 2 ^ 8 + h1 / 2 ^ 8 * 2 ^ 8.
Proof.
  intros H0 H1. change (Z.land (Z.shiftr (pack2 h0 h1) 8) 0xFF) with (byte_of (pack2 h0 h1) 1).
  rewrite (proj1 (high_bytes h0 h1 H0 H1)). rewrite Z.shiftr_div_pow2 by lia.
  assert (pack2 h0 h1 / 2 ^ 16 = h1) as -> by (unfold pack2; rewrite Z.div_add, Z.div_small; [lia|done|lia]).
  unfold is_u in *. assert (B0 : is_u 8 (h0 / 2 ^ 8)) by (unfold is_u; Z.to_euclidean_division_equations; lia).
  rewrite (Z.div_mod h1 (2 ^ 8)) at 1 by lia. rewrite (Z.add_comm (2 ^ 8 * _)), (Z.mul_comm (2 ^ 8)).
  change 0xFF00 with (0 + 0xFF * 2 ^ 8). rewrite land_cat by (done || by apply wrap_is_u).
  rewrite Z.land_0_r, land_ff. rewrite <- (Z.add_0_r (h0 / 2 ^ 8)) at 1. change 0 with (0 * 2 ^ 8) at 1.
  rewrite lor_cat, Z.lor_0_r, Z.lor_0_l by done. unfold is_u in *.
  unfold u16, wrap. rewrite !Z.mod_small; Z.to_euclidean_division_equations; lia.
Qed.
End laws.

(** ** Bytes as lanes *)

Lemma land_pack4 a0 a1 a2 a3 b0 b1 b2 b3 : Forall (is_u 8) [a0; a1; a2; b0; b1; b2] ->
  Z.land (pack4 a0 a1 a2 a3) (pack4 b0 b1 b2 b3) = pack4 (Z.land a0 b0) (Z.land a1 b1) (Z.land a2 b2) (Z.land a3 b3).
Proof.
  rewrite !Forall_cons. intros (? & ? & ? & ? & ? & ? & _). unfold pack4.
  rewrite land_pack2 by (by apply is_u_pair). by rewrite !land_cat by done.
Qed.

Lemma lor_pack4 a0 a1 a2 a3 b0 b1 b2 b3 : Forall (is_u 8) [a0; a1; a2; b0; b1; b2] ->
  Z.lor (pack4 a0 a1 a2 a3) (pack4 b0 b1 b2 b3) = pack4 (Z.lor a0 b0) (Z.lor a1 b1) (Z.lor a2 b2) (Z.lor a3 b3).
Proof.
  rewrite !Forall_cons. intros (? & ? & ? & ? & ? & ? & _). unfold pack4.
  rewrite lor_pack2 by (by apply is_u_pair). by rewrite !lor_cat by done.
Qed.

(** Complement of a byte, and of a word. *)
Lemma not_byte b : is_u 8 b -> Z.lxor b 0xff = 255 - b.
Proof.
  intros Hb. assert (H : all_below 256 (fun b => Z.lxor b 0xff =? 255 - b) = true) by by vm_compute.
  apply Z.eqb_eq. by apply (all_below_spec _ _ b H).
Qed.

Lemma lxor_cat k lo hi lo' hi' : 0 <= k -> is_u k lo -> is_u k lo' ->
  Z.lxor (lo + hi * 2 ^ k) (lo' + hi' * 2 ^ k) = Z.lxor lo lo' + Z.lxor hi hi' * 2 ^ k.
Proof.
  intros Hk H H'. assert (is_u k (Z.lxor lo lo')).
  { apply bits_is_u; [done|]. intros i Hi. by rewrite Z.lxor_spec, !(testbit_above k) by (done || lia). }
  cat_bits.
Qed.

Lemma not32_pack4 b0 b1 b2 b3 : Forall (is_u 8) [b0; b1; b2; b3] ->
  not32 (pack4 b0 b1 b2 b3) = pack4 (255 - b0) (255 - b1) (255 - b2) (255 - b3).
Proof.
  rewrite !Forall_cons. intros (? & ? & ? & ? & _). unfold not32. change 0xffffffff with (pack4 255 255 255 255).
  unfold pack4, pack2. assert (is_u 16 (255 + 255 * 2 ^ 8)) by done.
  rewrite (lxor_cat 16) by (try apply is_u_pair; done). rewrite !(lxor_cat 8) by done. by rewrite !not_byte by done.
Qed.

(** The even and the odd bytes of a word. *)
Lemma even_bytes b0 b1 b2 b3 : Forall (is_u 8) [b0; b1; b2; b3] ->
  Z.land (pack4 b0 b1 b2 b3) 0x00ff00ff = pack2 b0 b2 /\
  Z.land (pack4 b0 b1 b2 b3) 0xff00ff00 = pack2 (b1 * 2 ^ 8) (b3 * 2 ^ 8) /\
  Z.shiftr (pack4 b0 b1 b2 b3) 8 = pack4 b1 b2 b3 0.
Proof.
  rewrite !Forall_cons. intros (H0 & H1 & H2 & H3 & _).
  assert (Hz : Forall (is_u 8) [b0; b1; b2; 255; 0; 255]) by (rewrite !Forall_cons; split_and!; done).
  assert (Hz' : Forall (is_u 8) [b0; b1; b2; 0; 255; 0]) by (rewrite !Forall_cons; split_and!; done).
  change 0x00ff00ff with (pack4 255 0 255 0). change 0xff00ff00 with (pack4 0 255 0 255).
  rewrite !land_pack4 by done. rewrite !Z.land_0_r, !land_ff, !Z.mod_small by done.
  unfold is_u, pack4, pack2 in *. rewrite Z.shiftr_div_pow2 by lia.
  split; [lia|]. split; [lia|]. Z.to_euclidean_division_equations. lia.
Qed.

Lemma bytes_of_pack2 s0 s1 : 0 <= s0 < 2 ^ 16 -> 0 <= s1 < 2 ^ 16 ->
  byte_of (u32 (pack2 s0 s1)) 0 = u8 s0 /\ byte_of (u32 (pack2 s0 s1)) 2 = u8 s1 /\
  byte_of (u32 (pack2 s0 s1)) 1 = s0 / 2 ^ 8 /\ byte_of (u32 (pack2 s0 s1)) 3 = s1 / 2 ^ 8.
Proof.
  intros H0 H1. rewrite u32_small by (unfold pack2; lia). rewrite !byte_of_div by lia.
  unfold pack2, u8, wrap. Z.to_euclidean_division_equations. lia.
Qed.

(** The high bytes of sums of odd bytes: the carries run into bytes nobody reads. *)
Lemma odd_sum_bytes s1 s3 : 0 <= s1 <= 510 -> 0 <= s3 <= 510 ->
  byte_of (u32 (pack2 (s1 * 2 ^ 8) (s3 * 2 ^ 8))) 1 = u8 s1 /\
  byte_of (u32 (pack2 (s1 * 2 ^ 8) (s3 * 2 ^ 8))) 3 = u8 s3.
Proof.
  intros H1 H3. unfold pack2, u32, u8, wrap. rewrite !byte_of_div by lia. change (8 * 1) with 8. change (8 * 3) with 24.
  Z.to_euclidean_division_equations. lia.
Qed.

(** Which operand the minimum takes, as one bit and as a mask. *)
Lemma min_select a b : is_u 8 a -> is_u 8 b ->
  let s := Z.land ((a + (255 - b) + 0x101) / 2 ^ 8) 1 in
  is_u 1 s /\ Z.lor (Z.land a (s * 255)) (Z.land b (255 - s * 255)) = Z.min a b.
Proof.
  intros Ha Hb. assert (H : all_below (2 ^ 16) (fun i => let a := i / 2 ^ 8 in let b := i mod 2 ^ 8 in
    let s := Z.land ((a + (255 - b) + 0x101) / 2 ^ 8) 1 in
    ((0 <=? s) && (s <? 2)) && (Z.lor (Z.land a (s * 255)) (Z.land b (255 - s * 255)) =? Z.min a b)) = true)
    by by vm_compute.
  pose proof (all_below_spec _ _ (b + a * 2 ^ 8) H) as E. pose proof (is_u_pair b a Hb Ha) as Hp.
  specialize (E Hp). cbv beta zeta in E. rewrite Z.div_add, (Z.div_small b), Z.add_0_l in E by (done || lia).
  rewrite Z.mod_add, (Z.mod_small b) in E by (done || lia). bool_to_prop. unfold is_u. lia.
Qed.

(** The two operations of packed bytes without intrinsics for them. *)
Section bytes.
Context `{I : Intrinsics} `{!IntrinsicLaws I} (a0 a1 a2 a3 b0 b1 b2 b3 : Z).
Context (A0 : is_u 8 a0) (A1 : is_u 8 a1) (A2 : is_u 8 a2) (A3 : is_u 8 a3).
Context (B0 : is_u 8 b0) (B1 : is_u 8 b1) (B2 : is_u 8 b2) (B3 : is_u 8 b3).

Lemma u8x4_add_hip :
  (let even := 0x00ff00ff in
   let x := u32 (Z.land (pack4 a0 a1 a2 a3) even + Z.land (pack4 b0 b1 b2 b3) even) in
   let y := u32 (Z.land (pack4 a0 a1 a2 a3) 0xff00ff00 + Z.land (pack4 b0 b1 b2 b3) 0xff00ff00) in
   byte_perm x y 0x7250) = pack4 (u8 (a0 + b0)) (u8 (a1 + b1)) (u8 (a2 + b2)) (u8 (a3 + b3)).
Proof.
  cbv zeta. destruct (even_bytes a0 a1 a2 a3) as (-> & -> & _); [by rewrite !Forall_cons|].
  destruct (even_bytes b0 b1 b2 b3) as (-> & -> & _); [by rewrite !Forall_cons|].
  assert (pack2 a0 a2 + pack2 b0 b2 = pack2 (a0 + b0) (a2 + b2)) as -> by (unfold pack2; lia).
  assert (pack2 (a1 * 2 ^ 8) (a3 * 2 ^ 8) + pack2 (b1 * 2 ^ 8) (b3 * 2 ^ 8) =
          pack2 ((a1 + b1) * 2 ^ 8) ((a3 + b3) * 2 ^ 8)) as -> by (unfold pack2; lia).
  destruct (byte_perms (u32 (pack2 (a0 + b0) (a2 + b2))) (u32 (pack2 ((a1 + b1) * 2 ^ 8) ((a3 + b3) * 2 ^ 8))))
    as (_ & _ & _ & -> & _).
  unfold is_u in *. destruct (bytes_of_pack2 (a0 + b0) (a2 + b2)) as (-> & -> & _); [lia..|].
  by destruct (odd_sum_bytes (a1 + b1) (a3 + b3)) as (-> & ->); [lia..|].
Qed.

(** A selection bit per byte, spread over the byte. *)
Lemma select_bytes s0 s1 s2 s3 : is_u 1 s0 -> is_u 1 s1 -> is_u 1 s2 -> is_u 1 s3 ->
  Z.lor (Z.land (pack4 a0 a1 a2 a3) (u32 (pack4 s0 s1 s2 s3 * 255)))
        (Z.land (pack4 b0 b1 b2 b3) (not32 (u32 (pack4 s0 s1 s2 s3 * 255)))) =
  pack4 (Z.lor (Z.land a0 (s0 * 255)) (Z.land b0 (255 - s0 * 255)))
        (Z.lor (Z.land a1 (s1 * 255)) (Z.land b1 (255 - s1 * 255)))
        (Z.lor (Z.land a2 (s2 * 255)) (Z.land b2 (255 - s2 * 255)))
        (Z.lor (Z.land a3 (s3 * 255)) (Z.land b3 (255 - s3 * 255))).
Proof.
  intros S0 S1 S2 S3. assert (M : forall s, is_u 1 s -> is_u 8 (s * 255) /\ is_u 8 (255 - s * 255)) by (unfold is_u; lia).
  assert (u32 (pack4 s0 s1 s2 s3 * 255) = pack4 (s0 * 255) (s1 * 255) (s2 * 255) (s3 * 255)) as ->.
  { unfold is_u, pack4, pack2 in *. rewrite u32_small; lia. }
  destruct (M _ S0), (M _ S1), (M _ S2), (M _ S3).
  rewrite not32_pack4, !land_pack4 by (by rewrite !Forall_cons).
  apply lor_pack4. rewrite !Forall_cons. split_and!; try done; by apply is_u_land.
Qed.

Lemma u8x4_min_hip :
  (let ua := pack4 a0 a1 a2 a3 in
   let ub := pack4 b0 b1 b2 b3 in
   let ones := 0x01010101 in
   let even := 0x00ff00ff in
   let d0 := u32 (u32 (Z.land ua even + Z.land (not32 ub) even) + ones) in
   let d1 := u32 (u32 (Z.land (Z.shiftr ua 8) even + Z.land (not32 (Z.shiftr ub 8)) even) + ones) in
   let s := Z.land (byte_perm d0 d1 0x7351) ones in
   let s := u32 (s * 0xff) in
   Z.lor (Z.land ua s) (Z.land ub (not32 s))) = pack4 (Z.min a0 b0) (Z.min a1 b1) (Z.min a2 b2) (Z.min a3 b3).
Proof.
  assert (FA : Forall (is_u 8) [a0; a1; a2; a3]) by by rewrite !Forall_cons.
  assert (FB : Forall (is_u 8) [b0; b1; b2; b3]) by by rewrite !Forall_cons.
  assert (N : forall b, is_u 8 b -> is_u 8 (255 - b)) by (unfold is_u; lia).
  cbv zeta. destruct (even_bytes a0 a1 a2 a3 FA) as (-> & _ & ->). destruct (even_bytes b0 b1 b2 b3 FB) as (_ & _ & ->).
  rewrite !not32_pack4 by (by rewrite !Forall_cons).
  destruct (even_bytes (255 - b0) (255 - b1) (255 - b2) (255 - b3)) as (-> & _ & _);
    [rewrite !Forall_cons; split_and!; by try apply N|].
  assert (E : Forall (is_u 8) [255 - b1; 255 - b2; 255 - b3; 255 - 0]) by (rewrite !Forall_cons; split_and!; by try apply N).
  apply even_bytes in E as [E _]. rewrite E.
  destruct (even_bytes a1 a2 a3 0) as (-> & _ & _); [by rewrite !Forall_cons|].
  destruct (min_select a0 b0 A0 B0) as [S0 M0]. destruct (min_select a1 b1 A1 B1) as [S1 M1].
  destruct (min_select a2 b2 A2 B2) as [S2 M2]. destruct (min_select a3 b3 A3 B3) as [S3 M3]. unfold is_u in *.
  assert (D : forall x y u v, 0 <= x < 2 ^ 8 -> 0 <= y < 2 ^ 8 -> 0 <= u < 2 ^ 8 -> 0 <= v < 2 ^ 8 ->
    u32 (u32 (pack2 x y + pack2 (255 - u) (255 - v)) + 0x01010101) =
    u32 (pack2 (x + (255 - u) + 0x101) (y + (255 - v) + 0x101))).
  { intros x y u v ????. rewrite (u32_small (pack2 x y + _)) by (unfold pack2; lia). f_equal. unfold pack2. lia. }
  rewrite !D by lia.
  match goal with |- context [byte_perm ?x ?y _] => destruct (byte_perms x y) as (_ & _ & _ & _ & ->) end.
  destruct (bytes_of_pack2 (a0 + (255 - b0) + 0x101) (a2 + (255 - b2) + 0x101)) as (_ & _ & -> & ->); [lia..|].
  destruct (bytes_of_pack2 (a1 + (255 - b1) + 0x101) (a3 + (255 - b3) + 0x101)) as (_ & _ & -> & ->); [lia..|].
  change 0x01010101 with (pack4 1 1 1 1).
  rewrite land_pack4 by (rewrite !Forall_cons; unfold is_u; split_and!; try done; Z.to_euclidean_division_equations; lia).
  by rewrite select_bytes, M0, M1, M2, M3 by done.
Qed.
End bytes.

(** ** The theorems *)

Lemma decode16_not_nan b : is_u 8 b -> half_nan (decode16 b) = false.
Proof.
  intros Hb. assert (H : all_below 256 (fun b => negb (half_nan (decode16 b))) = true) by by vm_compute.
  apply negb_true_iff. by apply (all_below_spec _ _ b H).
Qed.

Lemma elem_to_half_spec `{!HalfConv, !HalfConvLaws _} b : is_u 8 b -> elem_to_half b = Some (decode16 b).
Proof. intros Hb. apply half_exact; [by apply decode16_is_u|by apply decode16_not_nan]. Qed.

Lemma elem_of_half_spec `{!HalfConv, !HalfConvLaws _} h : is_u 16 h -> half_nan h = false ->
  elem_of_half h = Some (encode16 h).
Proof. intros Hh Hn. unfold elem_of_half, fromFloat. by rewrite half_exact. Qed.

(** Each packed conversion on its own. *)
Section conversions.
Context `{I : Intrinsics} `{!IntrinsicLaws I} `{C : HalfConv} `{!HalfConvLaws C} (p : platform).

Lemma to_f16x2_spec b0 b1 : is_u 8 b0 -> is_u 8 b1 ->
  to_f16x2 p (b0 + b1 * 2 ^ 8) = Some (pack2 (decode16 b0) (decode16 b1)).
Proof.
  intros B0 B1. pose proof (is_u_pair _ _ B0 B1) as Hp.
  assert (E : all_below (2 ^ 16) (fun v =>
    default 0 (to_f16x2 (C := cann) Cuda v) =? pack2 (decode16 (v mod 2 ^ 8)) (decode16 (v / 2 ^ 8))) = true)
    by by vm_compute.
  pose proof (all_below_spec _ _ _ E Hp) as E1. cbv beta in E1. apply Z.eqb_eq in E1.
  rewrite Z.mod_add, (Z.mod_small b0), Z.div_add, (Z.div_small b0), Z.add_0_l in E1 by (done || lia).
  pose proof (byte_of_pair b0 b1 B0 B1) as Hb.
  destruct p; simpl in *; [by rewrite E1..|]. destruct Hb as [-> ->]. by rewrite !elem_to_half_spec.
Qed.

Lemma to_f16x4_spec b0 b1 b2 b3 : is_u 8 b0 -> is_u 8 b1 -> is_u 8 b2 -> is_u 8 b3 ->
  to_f16x4 p (pack4 b0 b1 b2 b3) = Some (pack2 (decode16 b0) (decode16 b1), pack2 (decode16 b2) (decode16 b3)).
Proof.
  intros B0 B1 B2 B3. destruct (byte_of_pack4 b0 b1 b2 b3 B0 B1 B2 B3) as (E0 & E1 & E2 & E3).
  destruct (byte_of_pack4 b2 b0 b3 b1 B2 B0 B3 B1) as (F0 & F1 & F2 & F3).
  destruct (byte_perms 0 (pack4 b0 b1 b2 b3)) as (P1 & _). destruct (byte_perms (pack4 b2 b0 b3 b1) 0) as (_ & P2 & _).
  rewrite E0, E1, E2, E3 in P1. rewrite F0, F1, F2, F3 in P2.
  destruct (decode_word b2 b0 b3 b1 B2 B0 B3 B1) as [D1 D2]. destruct (decode_word b0 b2 b1 b3 B0 B2 B1 B3) as [D3 D4].
  unfold to_f16x4. destruct p; cbv zeta.
  - by rewrite P1, P2, D2, D4.
  - by rewrite P1, P2, D1, D3.
  - rewrite E0, E1, E2, E3, !elem_to_half_spec by done. done.
Qed.

Lemma to_fp8x2_spec h0 h1 : is_u 16 h0 -> is_u 16 h1 -> half_nan h0 = false -> half_nan h1 = false ->
  to_fp8x2 p (pack2 h0 h1) = Some (encode16 h0 + encode16 h1 * 2 ^ 8).
Proof.
  intros H0 H1 N0 N1. destruct (encode_lane h0 H0) as [E0 U0]. destruct (encode_lane h1 H1) as [E1 U1].
  destruct (encode_word h0 h1 H0 H1) as [W _]. pose proof (pack_high _ _ U0 U1) as Hp. rewrite E0, E1 in Hp.
  pose proof (half_of_0 h0 h1 H0) as L0. pose proof (half_of_1 h0 h1 H0 H1) as L1.
  unfold to_fp8x2. destruct p; cbv zeta.
  - assert (Z.land (pack2 h0 h1) 0xFFFF = h0) as -> by (unfold half_of in L0; by rewrite Z.shiftr_0_r in L0).
    assert (Z.shiftr (pack2 h0 h1) 16 = h1) as ->.
    { unfold pack2. rewrite Z.shiftr_div_pow2, Z.div_add, Z.div_small by (done || lia). lia. }
    set (m0 := Z.min (Z.land h0 0x7fff) 0x3f00) in *. set (m1 := Z.min (Z.land h1 0x7fff) 0x3f00) in *.
    assert ((if Z.land h0 0x7FFF <? 0x3F00 then Z.land h0 0x7FFF else 0x3F00) = m0) as ->
      by (unfold m0; destruct (Z.ltb_spec (Z.land h0 0x7FFF) 0x3F00); lia).
    assert ((if Z.land h1 0x7FFF <? 0x3F00 then Z.land h1 0x7FFF else 0x3F00) = m1) as ->
      by (unfold m1; destruct (Z.ltb_spec (Z.land h1 0x7FFF) 0x3F00); lia).
    pose proof (is_u_land 16 h0 0x7fff ltac:(lia) H0) as A0. pose proof (is_u_land 16 h1 0x7fff ltac:(lia) H1) as A1.
    unfold is_u in A0, A1. assert (0 <= m0 <= 0x3f00 /\ 0 <= m1 <= 0x3f00) as [M0 M1] by (unfold m0, m1; lia).
    assert (Z.lor m0 (u32 (Z.shiftl m1 16)) = pack2 m0 m1) as ->; [|by rewrite W, Hp].
    rewrite Z.shiftl_mul_pow2, u32_small by lia. rewrite <- (Z.add_0_r m0) at 1. change 0 with (0 * 2 ^ 16) at 1.
    rewrite <- (Z.add_0_l (m1 * 2 ^ 16)). rewrite lor_cat by (done || unfold is_u; lia).
    by rewrite Z.lor_0_r, Z.lor_0_l.
  - rewrite clamp_word by done. by rewrite W, Hp.
  - rewrite L0, L1, !elem_of_half_spec by done. done.
Qed.

Lemma to_fp8x4_spec h0 h1 h2 h3 : is_u 16 h0 -> is_u 16 h1 -> is_u 16 h2 -> is_u 16 h3 ->
  half_nan h0 = false -> half_nan h1 = false -> half_nan h2 = false -> half_nan h3 = false ->
  to_fp8x4 p (pack2 h0 h1) (pack2 h2 h3) = Some (pack4 (encode16 h0) (encode16 h1) (encode16 h2) (encode16 h3)).
Proof.
  intros H0 H1 H2 H3 N0 N1 N2 N3. destruct (encode_lane h0 H0) as [E0 U0]. destruct (encode_lane h1 H1) as [E1 U1].
  destruct (encode_lane h2 H2) as [E2 U2]. destruct (encode_lane h3 H3) as [E3 U3].
  destruct (encode_word h0 h1 H0 H1) as [W0 V0]. destruct (encode_word h2 h3 H2 H3) as [W1 V1].
  destruct (byte_perms (pack2 (clamp_lane h0) (clamp_lane h1)) (pack2 (clamp_lane h2) (clamp_lane h3))) as (_ & _ & P & _).
  destruct (high_bytes _ _ U0 U1) as [Q0 Q1]. destruct (high_bytes _ _ U2 U3) as [Q2 Q3].
  rewrite Q0, Q1, Q2, Q3, E0, E1, E2, E3 in P.
  unfold to_fp8x4. destruct p; cbv zeta; rewrite ?clamp_word by done.
  - by rewrite V0, V1, P.
  - by rewrite W0, W1, P.
  - rewrite !half_of_0, !half_of_1, !elem_of_half_spec by done. done.
Qed.
End conversions.

(** C31: on every platform whose conversion of a half to float and back is exact, the packed conversions
    between [__fp8_e4m3b15] and half that is not NaN, by masks, byte permutations and three-operand logic on
    whole words, convert each element as the scalar format does, without touching its
    neighbours.  (The conversion in software for platforms without it is not exact: [cann_half_broken].) *)
Theorem packed_conversions `{I : Intrinsics} `{LI : !IntrinsicLaws I} `{C : HalfConv} `{LC : !HalfConvLaws C} (p : platform)
    (b0 b1 b2 b3 h0 h1 h2 h3 : Z) :
  Forall (is_u 8) [b0; b1; b2; b3] ->
  Forall (fun h => is_u 16 h /\ half_nan h = false) [h0; h1; h2; h3] ->
  to_f16x2 p (b0 + b1 * 2 ^ 8) = Some (pack2 (decode16 b0) (decode16 b1)) /\
  to_f16x4 p (pack4 b0 b1 b2 b3) = Some (pack2 (decode16 b0) (decode16 b1), pack2 (decode16 b2) (decode16 b3)) /\
  to_fp8x2 p (pack2 h0 h1) = Some (encode16 h0 + encode16 h1 * 2 ^ 8) /\
  to_fp8x4 p (pack2 h0 h1) (pack2 h2 h3) = Some (pack4 (encode16 h0) (encode16 h1) (encode16 h2) (encode16 h3)).
Proof.
  rewrite !Forall_cons. intros (B0 & B1 & B2 & B3 & _) ((H0 & N0) & (H1 & N1) & (H2 & N2) & (H3 & N3) & _).
  split; [|split; [|split]].
  - by apply to_f16x2_spec.
  - by apply to_f16x4_spec.
  - by apply to_fp8x2_spec.
  - by apply to_fp8x4_spec.
Qed.

(** A concrete device: the intrinsics as their documentation computes them, and
    conversions of all halves that are exact. *)
Definition bits_of (n : nat) (f : Z -> bool) : Z :=
  foldr (fun i acc => Z.b2z (f (Z.of_nat i)) * 2 ^ Z.of_nat i + acc) 0 (seq 0 n).

Definition demo_intrinsics : Intrinsics := {|
  byte_perm x y s := pack4 (selected x y s 0) (selected x y s 1) (selected x y s 2) (selected x y s 3);
  vadd4 a b := pack4 (u8 (byte_of a 0 + byte_of b 0)) (u8 (byte_of a 1 + byte_of b 1))
                     (u8 (byte_of a 2 + byte_of b 2)) (u8 (byte_of a 3 + byte_of b 3));
  vminu4 a b := pack4 (Z.min (byte_of a 0) (byte_of b 0)) (Z.min (byte_of a 1) (byte_of b 1))
                      (Z.min (byte_of a 2) (byte_of b 2)) (Z.min (byte_of a 3) (byte_of b 3));
  vminu2 a b := pack2 (Z.min (half_of a 0) (half_of b 0)) (Z.min (half_of a 1) (half_of b 1));
  lop3 a b c t := bits_of 32 (fun i =>
    Z.testbit t (4 * Z.b2z (Z.testbit a i) + 2 * Z.b2z (Z.testbit b i) + Z.b2z (Z.testbit c i)))
|}.

Lemma bits_of_spec n f : is_u (Z.of_nat n) (bits_of n f) /\
  forall i, 0 <= i < Z.of_nat n -> Z.testbit (bits_of n f) i = f i.
Proof.
  unfold bits_of. assert (G : forall k, let v := foldr (fun i acc => Z.b2z (f (Z.of_nat i)) * 2 ^ Z.of_nat i + acc) 0 (seq k n) in
    exists w, is_u (Z.of_nat n) w /\ v = w * 2 ^ Z.of_nat k /\
      forall i, 0 <= i < Z.of_nat n -> Z.testbit w i = f (i + Z.of_nat k)).
  { induction n as [|n IH]; intros k; simpl; [exists 0; split; [done|]; split; [lia|]; lia|].
    destruct (IH (S k)) as (w & Hw & Ew & Hb). exists (Z.b2z (f (Z.of_nat k)) + w * 2 ^ 1). rewrite Ew.
    assert (Hk : is_u 1 (Z.b2z (f (Z.of_nat k)))) by (by destruct (f _)). split; [|split].
    - rewrite Nat2Z.inj_succ, <- Z.add_1_l. by apply is_u_cat; try lia.
    - rewrite Nat2Z.inj_succ, Z.pow_succ_r by lia. lia.
    - intros i Hi. rewrite testbit_cat by (done || lia). destruct (Z.ltb_spec i 1).
      + assert (i = 0) as -> by lia. by destruct (f _).
      + rewrite Hb by lia. f_equal. lia. }
  destruct (G 0%nat) as (w & Hw & -> & Hb). rewrite Z.mul_1_r. split; [done|]. intros i Hi. rewrite Hb by done.
  f_equal. lia.
Qed.

Lemma demo_intrinsic_laws : IntrinsicLaws demo_intrinsics.
Proof.
  split; simpl.
  - done.
  - intros a0 a1 a2 a3 b0 b1 b2 b3. rewrite !Forall_cons. intros (A0 & A1 & A2 & A3 & B0 & B1 & B2 & B3 & _).
    destruct (byte_of_pack4 a0 a1 a2 a3) as (-> & -> & -> & ->); [done..|].
    by destruct (byte_of_pack4 b0 b1 b2 b3) as (-> & -> & -> & ->).
  - intros a0 a1 a2 a3 b0 b1 b2 b3. rewrite !Forall_cons. intros (A0 & A1 & A2 & A3 & B0 & B1 & B2 & B3 & _).
    destruct (byte_of_pack4 a0 a1 a2 a3) as (-> & -> & -> & ->); [done..|].
    by destruct (byte_of_pack4 b0 b1 b2 b3) as (-> & -> & -> & ->).
  - intros a0 a1 b0 b1. rewrite !Forall_cons. intros (A0 & A1 & B0 & B1 & _). by rewrite !half_of_0, !half_of_1.
  - intros a b c t i Hi. by rewrite (proj2 (bits_of_spec 32 _)).
  - intros a b c t. apply bits_of_spec.
Qed.

(** IEEE widening, and narrowing by truncation. *)
Definition demo_widen (h : Z) : Z :=
  let exp := Z.shiftr (Z.land h 0x7c00) 10 in
  let mant := Z.land h 0x3ff in
  if (exp =? 0) && negb (mant =? 0) then
    let k := Z.log2 mant in
    Z.lor (Z.shiftl (Z.land h 0x8000) 16) (Z.lor (Z.shiftl (k + 103) 23) (Z.shiftl (mant - 2 ^ k) (23 - k)))
  else cann_float h.
Definition demo_narrow (u : Z) : option Z :=
  let abs := Z.land u 0x7fffffff in
  let exp := Z.shiftr abs 23 in
  if (103 <=? exp) && (exp <=? 112) then
    Some (Z.lor (Z.shiftr (Z.land u 0x80000000) 16) (Z.shiftr (2 ^ 23 + Z.land abs 0x7fffff) (126 - exp)))
  else if abs =? 0 then Some (Z.shiftr u 16) else cann_half u.
Definition demo_conv : HalfConv := {| half2float := demo_widen; float2half_rn := demo_narrow |}.

Lemma demo_conv_laws : HalfConvLaws demo_conv.
Proof.
  split. intros h Hh Hn. assert (H : all_below (2 ^ 16) (fun h => half_nan h ||
    bool_decide (demo_narrow (demo_widen h) = Some h)) = true) by by vm_compute.
  pose proof (all_below_spec _ _ h H Hh) as E. cbv beta in E. clear H. rewrite Hn in E.
  by apply bool_decide_eq_true in E.
Qed.

Lemma packed_conversions_witness :
  to_fp8x4 (I := demo_intrinsics) (C := demo_conv) Cuda (pack2 0x3C00 0xBC00) (pack2 0x7000 0x0001) =
  Some (pack4 0x78 0xF8 0x7E 0x00).
Proof.
  apply (packed_conversions (LI := demo_intrinsic_laws) (LC := demo_conv_laws) Cuda 0 0 0 0
           0x3C00 0xBC00 0x7000 0x0001); by repeat constructor.
Defined.

(** on every platform the packed sum and minimum of bytes, computed on whole words with
    masks and nine-bit differences on AMD and by intrinsics on NVIDIA, are the wrapping
    sum and the unsigned minimum of each byte. *)
Theorem packed_bytes `{I : Intrinsics} `{LI : !IntrinsicLaws I} (p : platform) (a0 a1 a2 a3 b0 b1 b2 b3 : Z) :
  Forall (is_u 8) [a0; a1; a2; a3; b0; b1; b2; b3] ->
  u8x4_add p (pack4 a0 a1 a2 a3) (pack4 b0 b1 b2 b3) = pack4 (u8 (a0 + b0)) (u8 (a1 + b1)) (u8 (a2 + b2)) (u8 (a3 + b3)) /\
  u8x4_min p (pack4 a0 a1 a2 a3) (pack4 b0 b1 b2 b3) = pack4 (Z.min a0 b0) (Z.min a1 b1) (Z.min a2 b2) (Z.min a3 b3).
Proof.
  intros H. split; unfold u8x4_add, u8x4_min; (destruct (is_hip p); [|by first [apply vadd4_spec | apply vminu4_spec]]);
    rewrite !Forall_cons in H; destruct H as (A0 & A1 & A2 & A3 & B0 & B1 & B2 & B3 & _).
  - by apply u8x4_add_hip.
  - by apply u8x4_min_hip.
Qed.

Lemma packed_bytes_witness :
  u8x4_add (I := demo_intrinsics) Gfx942 (pack4 255 1 200 128) (pack4 1 2 100 128) = pack4 0 3 44 0 /\
  u8x4_min (I := demo_intrinsics) Gfx942 (pack4 255 1 200 128) (pack4 1 2 100 128) = pack4 1 1 100 128.
Proof. apply (packed_bytes (LI := demo_intrinsic_laws) Gfx942 255 1 200 128 1 2 100 128). by repeat constructor. Defined.

(** ** What the scalar format computes *)

(** The number a half stands for, in units of 2^-24; infinity counts as the number
    after the largest. *)
Definition half_value (h : Z) : Z :=
  let e := Z.land (Z.shiftr h 10) 31 in
  let m := Z.land h 1023 in
  let v := if e =? 0 then m else (1024 + m) * 2 ^ (e - 1) in
  if Z.testbit h 15 then - v else v.
Definition fp8_value (b : Z) : Z := half_value (decode16 b).

(** The codes in use: all but 0x7f and 0xff. *)
Definition fp8_valid (b : Z) : bool := negb (Z.land b 0x7f =? 0x7f).

(** Codes and halves come in pairs of opposite sign. *)
Lemma fp8_value_neg b : 0 <= b < 128 -> fp8_value (b + 128) = - fp8_value b /\ 0 <= fp8_value b /\ encode16 (decode16 b) = (if b =? 127 then 126 else b).
Proof.
  intros Hb. assert (H : all_below 128 (fun b => (fp8_value (b + 128) =? - fp8_value b) && (0 <=? fp8_value b) &&
    (encode16 (decode16 b) =? if b =? 127 then 126 else b)) = true) by by vm_compute.
  pose proof (all_below_spec _ _ b H Hb) as E. cbv beta in E. bool_to_prop. lia.
Qed.

Lemma half_value_neg h : 0 <= h < 2 ^ 15 -> half_value (h + 2 ^ 15) = - half_value h /\ 0 <= half_value h /\
  encode16 (h + 2 ^ 15) = encode16 h + 128 /\ 0 <= encode16 h < 127.
Proof.
  intros Hh. assert (H : all_below (2 ^ 15) (fun h => (half_value (h + 2 ^ 15) =? - half_value h) && (0 <=? half_value h) &&
    (encode16 (h + 2 ^ 15) =? encode16 h + 128) && (0 <=? encode16 h) && (encode16 h <? 127)) = true) by by vm_compute.
  pose proof (all_below_spec _ _ h H Hh) as E. cbv beta in E. bool_to_prop. lia.
Qed.

Lemma fp8_value_mono n : forall a, 0 <= a -> a + Z.of_nat n < 127 -> fp8_value a <= fp8_value (a + Z.of_nat n).
Proof.
  assert (H : all_below 126 (fun b => fp8_value b <=? fp8_value (b + 1)) = true) by by vm_compute.
  induction n as [|n IH]; intros a Ha Hn; [rewrite Z.add_0_r; lia|].
  pose proof (all_below_spec _ _ a H ltac:(lia)) as E. cbv beta in E. apply Z.leb_le in E.
  specialize (IH (a + 1) ltac:(lia) ltac:(lia)). rewrite Nat2Z.inj_succ. unfold Z.succ.
  replace (a + (Z.of_nat n + 1)) with (a + 1 + Z.of_nat n) by lia. lia.
Qed.

Lemma fp8_value_le a b : 0 <= a <= b -> b < 127 -> fp8_value a <= fp8_value b.
Proof.
  intros Hab Hb. replace b with (a + Z.of_nat (Z.to_nat (b - a))) by lia. apply fp8_value_mono; lia.
Qed.

(** A half lies between the middles of its code and the two codes next to it. *)
Lemma encode_between h : 0 <= h <= 0x7c00 ->
  (encode16 h = 0 \/ fp8_value (encode16 h - 1) + fp8_value (encode16 h) <= 2 * half_value h) /\
  (encode16 h = 126 \/ 2 * half_value h <= fp8_value (encode16 h) + fp8_value (encode16 h + 1)).
Proof.
  intros Hh. assert (Hb : 0 <= h < 0x7c01) by lia. assert (H : all_below 0x7c01 (fun h => let e := encode16 h in let v := half_value h in
    ((e =? 0) || (fp8_value (e - 1) + fp8_value e <=? 2 * v)) &&
    ((e =? 126) || (2 * v <=? fp8_value e + fp8_value (e + 1)))) = true) by by vm_compute.
  pose proof (all_below_spec _ _ h H Hb) as E. cbv beta zeta in E. apply andb_prop in E as [E1 E2].
  apply orb_prop in E1, E2. rewrite Z.eqb_eq, Z.leb_le in E1, E2. exact (conj E1 E2).
Qed.

(** Of two numbers without sign. *)
Lemma encode_nearest_abs h b : 0 <= h <= 0x7c00 -> 0 <= b < 127 ->
  Z.abs (half_value h - fp8_value (encode16 h)) <= Z.abs (half_value h - fp8_value b).
Proof.
  intros Hh Hb. destruct (encode_between h Hh) as [E1 E2].
  destruct (half_value_neg h ltac:(lia)) as (_ & Hv & _ & He).
  set (e := encode16 h) in *. destruct (decide (b < e)) as [Hlt|Hge].
  - destruct E1 as [|E1]; [lia|]. pose proof (fp8_value_le b (e - 1) ltac:(lia) ltac:(lia)).
    pose proof (fp8_value_le (e - 1) e ltac:(lia) ltac:(lia)). lia.
  - destruct (decide (b = e)) as [->|]; [lia|]. destruct E2 as [|E2]; [lia|].
    pose proof (fp8_value_le (e + 1) b ltac:(lia) ltac:(lia)).
    pose proof (fp8_value_le e (e + 1) ltac:(lia) ltac:(lia)). lia.
Qed.

(** converting to [__fp8_e4m3b15] gives the value of the format that is nearest to the
    half (the largest one, 1.75, beyond the range, also for infinity), never one of
    the two codes the format leaves unused; and every code survives the round trip. *)
Theorem fp8_nearest (h b : Z) :
  is_u 16 h -> half_nan h = false -> is_u 8 b -> fp8_valid b = true ->
  Z.abs (half_value h - fp8_value (encode16 h)) <= Z.abs (half_value h - fp8_value b) /\
  fp8_valid (encode16 h) = true /\ encode16 (decode16 b) = b.
Proof.
  unfold is_u, half_nan, fp8_valid. intros Hh Hn Hb Hv. apply Z.ltb_ge in Hn. apply negb_true_iff, Z.eqb_neq in Hv.
  rewrite land_7fff in Hn. rewrite land_7f in Hv.
  assert (exists h' s, 0 <= h' <= 0x7c00 /\ (s = 0 \/ s = 1) /\ h = h' + s * 2 ^ 15) as (h' & s & Hh' & Hs & ->).
  { exists (h mod 2 ^ 15), (h / 2 ^ 15). Z.to_euclidean_division_equations. lia. }
  assert (exists b' t, 0 <= b' < 127 /\ (t = 0 \/ t = 1) /\ b = b' + t * 2 ^ 7) as (b' & t & Hb' & Ht & ->).
  { exists (b mod 2 ^ 7), (b / 2 ^ 7). Z.to_euclidean_division_equations. lia. }
  clear Hn Hv Hh Hb. destruct (half_value_neg h' ltac:(lia)) as (N1 & N2 & N3 & N4).
  destruct (fp8_value_neg b' ltac:(lia)) as (V1 & V2 & V3). destruct (Z.eqb_spec b' 127) as [|_]; [lia|].
  destruct (fp8_value_neg (encode16 h') ltac:(lia)) as (W1 & W2 & _).
  pose proof (encode_nearest_abs h' b' Hh' Hb') as Near. pose proof (encode_nearest_abs h' 0 Hh' ltac:(lia)) as Near0.
  change (fp8_value 0) with 0 in Near0.
  split; [|split].
  - destruct Hs as [-> | ->], Ht as [-> | ->]; change (0 * 2 ^ 15) with 0; change (1 * 2 ^ 15) with (2 ^ 15);
      change (0 * 2 ^ 7) with 0; change (1 * 2 ^ 7) with 128; rewrite ?Z.add_0_r, ?N1, ?N3, ?V1, ?W1; lia.
  - apply negb_true_iff, Z.eqb_neq. destruct Hs as [-> | ->]; change (0 * 2 ^ 15) with 0; change (1 * 2 ^ 15) with (2 ^ 15);
      rewrite ?Z.add_0_r, ?N3, land_7f; Z.to_euclidean_division_equations; lia.
  - destruct Ht as [-> | ->]; [by rewrite Z.add_0_r|].
    assert (H : all_below 127 (fun b => encode16 (decode16 (b + 1 * 2 ^ 7)) =? b + 1 * 2 ^ 7) = true) by by vm_compute.
    apply Z.eqb_eq. by apply (all_below_spec _ _ b' H).
Qed.

(** 1.0625 lies in the middle of two codes and goes to the larger; 2.0 saturates. *)
Lemma fp8_nearest_witness :
  encode16 0x3C40 = 0x79 /\ encode16 0x4000 = 0x7E /\
  Z.abs (half_value 0x3C40 - fp8_value (encode16 0x3C40)) <= Z.abs (half_value 0x3C40 - fp8_value 0x78).
Proof. split; [done|]. split; [done|]. apply (fp8_nearest 0x3C40 0x78); done. Defined.

(** the half of the CANN build is not what the float8 format relies on.  Narrowing a
    float between 2^-25 and 2^-14 always executes an undefined shift, and widening
    makes subnormal halves 2^112 times too small, so that exactly the
    codes with exponent zero (but +0) are lost: they come back as zero, all others
    unchanged. *)
Theorem cann_half_broken (u b : Z) :
  0x33000000 <= Z.land u 0x7fffffff < 0x38800000 -> is_u 8 b -> fp8_valid b = true ->
  cann_half u = None /\
  fromFloat (C := cann) (toFloat (C := cann) b) = Some (if Z.land b 0x78 =? 0 then 0 else b).
Proof.
  intros Hu Hb Hv. split.
  - unfold cann_half. rewrite (proj2 (Z.ltb_ge _ _)) by lia. rewrite (proj2 (Z.ltb_ge _ _)) by lia.
    assert (102 <= Z.shiftr (Z.land u 0x7fffffff) 23 <= 112) as He
      by (rewrite Z.shiftr_div_pow2 by lia; Z.to_euclidean_division_equations; lia).
    set (exp := Z.shiftr (Z.land u 0x7fffffff) 23) in *. rewrite (proj2 (Z.ltb_ge _ _)) by lia.
    rewrite (u32_small (125 - exp)), (u32_small (125 - exp + 2)) by lia.
    assert (u32 (10 - (125 - exp)) = 2 ^ 32 + 10 - (125 - exp)) as ->
      by (unfold u32, wrap; symmetry; apply Z.mod_unique with (-1); lia).
    unfold shr32. rewrite (proj2 (Z.ltb_lt _ _)) by lia.
    cbn [mbind option_bind]. unfold shl32.
    by rewrite (proj2 (Z.ltb_ge _ _)) by lia.
  - assert (H : all_below 256 (fun b => negb (fp8_valid b) || bool_decide (fromFloat (C := cann) (toFloat (C := cann) b) =
      Some (if Z.land b 0x78 =? 0 then 0 else b))) = true) by by vm_compute.
    pose proof (all_below_spec _ _ b H Hb) as E. cbv beta in E. clear H. rewrite Hv in E.
    by apply bool_decide_eq_true in E.
Qed.

Lemma cann_half_broken_witness : cann_half 0x38000000 = None /\ fromFloat (C := cann) (toFloat (C := cann) 5) = Some 0.
Proof.
  apply (cann_half_broken 0x38000000 5).
  - vm_compute. done.
  - done.
  - reflexivity.
Defined.
