(* ===== verification/ExecutionKernel.v ===== *)
(** * The executor's kernel

    Models src/core/include/execution_kernel.hpp: what the threads of a block do to
    execute the operations of their device plan ([Executor.DeviceExecutionPlan], made
    of [ExecutionPlan.Operation]s).  A handler is a function of the thread number that
    gives the list of the thread's actions: element copies and reductions, packets,
    signals and waits, pushes to port channels, synchronisation.  Only the results of a
    wait or a packet read depend on the other threads; the control flow of a thread
    does not.  Addresses are those of one flat memory, peers included.

    A plan stores counts next to its arrays; here they are the lengths of the lists.
    32-bit loop counters are written out ([loop32]); sums of element indices, which the
    code makes in 32 bits too, are those of buffers below 4 GB; assertions of the
    device code are taken to hold. *)

From S2P Require Import Prelude Core Connection GpuDataTypes ExecutionPlan Executor DeviceCopy Packets.
Local Open Scope Z_scope.

(** ** Actions of a thread *)

(** Load one value from each source, combine them from left to right, store the
    result at each destination.  [ra_vector] tells vectors ([calVector]) from
    single elements (the [operator+] of the element type). *)
Record reduce_act := mkReduce { ra_vector : bool; ra_len : nat; ra_srcs : list Z; ra_dsts : list Z }.

(** Read the packets at [pa_reads] (spinning on the flag) and take their payload, or,
    with [pa_local], add them to zero and then add the payload found there; store
    the result as payload at [pa_store] and as packets at [pa_outs]. *)
Record packet_act := mkPacket {
  pa_reads : list Z; pa_local : option Z; pa_store : option Z; pa_outs : list Z
}.

Inductive port_call :=
  | PSignal | PFlush
  | PPut (dstId dstOffset srcId srcOffset size : Z)
  | PPutWithSignal (dstId dstOffset srcId srcOffset size : Z)
  | PPutWithSignalAndFlush (dstId dstOffset srcId srcOffset size : Z).

Inductive device_act :=
  | ASyncThreads
  | ABarrier (syncer nThreadBlocks : Z)
  | ASignal (relaxed : bool) (channel : Z)
  | AWait (relaxed : bool) (channel : Z)
  | APort (channel : Z) (c : port_call)
  | APortWait (channel : Z)
  | ACopy (c : copy_act)
  | AReduce (r : reduce_act)
  | AToPacket (payload_at packet_at : Z)
  | APacket (p : packet_act)
  | AMultimem (bytes src dst : Z)
  | ASemRelease (id : Z) | ASemAcquire (id : Z).

(** [for (uint32_t idx = i; idx < num; idx += step)].  [num] units of fuel are enough
    unless the counter wraps around. *)
Fixpoint loop32_from (fuel : nat) (i step num : Z) : list Z :=
  match fuel with
  | O => []
  | S fuel' => if i <? num then i :: loop32_from fuel' (u32 (i + step)) step num else []
  end.
Definition loop32 (i step num : Z) : list Z := loop32_from (Z.to_nat num) i step num.

(** ** The handlers *)

Definition UINT32_MAX : Z := 2 ^ 32 - 1.
Definition sizeof_int4 : Z := 16.

(** Elements of the fixed arrays; those no plan sets are zero. *)
Definition arr (l : list Z) (i : Z) : Z := nth (Z.to_nat i) l 0.

(** [BufferRef] is one byte, read as a buffer type or as an id. *)
Definition BufferType_to_Z (b : BufferType) : Z :=
  match b with BInput => 0 | BOutput => 1 | BScratch => 2 | BNone => 255 end.
Definition BufferType_of_Z (z : Z) : BufferType :=
  if z =? 0 then BInput else if z =? 1 then BOutput else if z =? 2 then BScratch else BNone.
Definition ref_byte (r : option BufferRef) : Z :=
  match r with Some (RefType t) => BufferType_to_Z t | Some (RefId id) => id | None => 0 end.
Definition ref_type (l : list (option BufferRef)) (i : Z) : BufferType :=
  BufferType_of_Z (ref_byte (nth (Z.to_nat i) l None)).
Definition ref_id (l : list (option BufferRef)) (i : Z) : Z := ref_byte (nth (Z.to_nat i) l None).

Definition nChannels (op : Operation) : Z := Z.of_nat (length (channelIndexes op)).
Definition nInputs (op : Operation) : Z := Z.of_nat (length (inputOffsets op)).
Definition nOutputs (op : Operation) : Z := Z.of_nat (length (outputOffsets op)).

(** The arguments of the kernel and its template parameters. *)
Record kernel := mkKernel {
  k_input : Z; k_output : Z; k_scratch : Z; k_scratchOffset : Z; k_scratchChunkSize : Z;
  k_plan : DeviceExecutionPlan; k_localMemoryIdBegin : Z; k_type : elem_type;
  k_packet : Packets.PacketType; k_reuse : bool; k_blockDim : Z;
  k_srcOffsets : Operation -> Z        (* where the array of input offsets is *)
}.

Section handlers.
Context (k : kernel).

Definition getBuffer (bufferType : BufferType) : Z :=
  match bufferType with
  | BInput => k_input k | BOutput => k_output k
  | BScratch => k_scratch k + k_scratchOffset k | BNone => 0
  end.

(** [getOffset<ReuseScratch>]; with reuse the chunk size is not zero. *)
Definition getOffset (bufferType : BufferType) (offset : Z) : Z :=
  if k_reuse k && bool_decide (bufferType = BScratch) then offset mod k_scratchChunkSize k else offset.

(** The tables of remote buffers, in shared memory. *)
Definition remoteBuffer (id : Z) : Z * BufferType := nth (Z.to_nat id) (memoryChannelBuffers (k_plan k)) (0, BInput).
Definition remotePtr (id : Z) : Z := (remoteBuffer id).1.
Definition remoteType (id : Z) : BufferType := (remoteBuffer id).2.
Definition portBuffer (id : Z) : Z * BufferType := nth (Z.to_nat id) (portChannelBuffers (k_plan k)) (0, BInput).

(** [min(size - offset, unitSize)] in 32 bits. *)
Definition piece (size offset unitSize : Z) : Z := Z.min (u32 (size - offset)) unitSize.

Definition copy_acts (dst src size tid : Z) : list device_act :=
  map ACopy (default [] (copy 16 true dst src size tid (k_blockDim k))).

Definition handleNop : list device_act := [ASyncThreads].
Definition handleBarrier (op : Operation) : list device_act :=
  [ABarrier (deviceSyncerIndex op) (ExecutionPlan.nThreadBlocks op)].

Definition handleSignal (relaxed : bool) (op : Operation) (tid : Z) : list device_act :=
  if (tid <? nChannels op) && bool_decide (op_channelType op = CMemory)
  then [ASignal relaxed (arr (channelIndexes op) tid)]
  else if (tid <? nChannels op) && bool_decide (op_channelType op = CPort)
  then [APort (arr (channelIndexes op) tid) PSignal] else [].

Definition handleWait (relaxed : bool) (op : Operation) (tid : Z) : list device_act :=
  if (tid <? nChannels op) && bool_decide (op_channelType op = CMemory)
  then [AWait relaxed (arr (channelIndexes op) tid)]
  else if (tid <? nChannels op) && bool_decide (op_channelType op = CPort)
  then [APortWait (arr (channelIndexes op) tid)] else [].

(** The number of channels is taken from [nOutputs]. *)
Definition handleFlush (op : Operation) (tid : Z) : list device_act :=
  let nChannels := nOutputs op in
  if tid <? nChannels then [APort (arr (channelIndexes op) tid) PFlush] else [].

Definition handleGet (op : Operation) (offset unitSize tid : Z) : list device_act :=
  concat (map (fun i =>
    let dstOffset := u32 (arr (outputOffsets op) i + getOffset (ref_type (outputBufferRefs op) i) offset) in
    let id := ref_id (inputBufferRefs op) i in
    let srcOffset := u32 (arr (inputOffsets op) i + getOffset (remoteType id) offset) in
    let size := piece (arr (inputBufferSizes op) i) offset unitSize in
    copy_acts (getBuffer (ref_type (outputBufferRefs op) i) + srcOffset) (remotePtr id + dstOffset) size tid)
  (loop32 0 1 (nInputs op))).

(** The second flag is only instantiated together with the first, which wins; the
    offset it would pass is the address of the array of offsets. *)
Definition handlePut (putWithSignal putWithSignalAndFlush : bool) (op : Operation) (offset unitSize tid : Z)
    : list device_act :=
  let count := nOutputs op in
  let src := getBuffer (ref_type (inputBufferRefs op) 0) in
  match op_channelType op with
  | CMemory =>
      concat (map (fun i =>
        let id := ref_id (outputBufferRefs op) i in
        let dstOffset := u32 (arr (outputOffsets op) i + getOffset (remoteType id) offset) in
        let srcOffset := u32 (arr (inputOffsets op) i + getOffset (ref_type (inputBufferRefs op) i) offset) in
        let size := piece (arr (outputBufferSizes op) i) offset unitSize in
        copy_acts (remotePtr id + dstOffset) (src + srcOffset) size tid)
      (loop32 0 1 count))
  | CPort =>
      if tid <? count then
        let size := piece (arr (outputBufferSizes op) tid) offset unitSize in
        let id := ref_id (outputBufferRefs op) tid in
        let dstMemoryId := (portBuffer id).1 in
        let srcMemoryId := u32 (ref_byte (nth (Z.to_nat tid) (inputBufferRefs op) None) + k_localMemoryIdBegin k) in
        let dstOffset := u32 (arr (outputOffsets op) tid + getOffset (portBuffer id).2 offset) in
        let srcOffset := u32 (arr (inputOffsets op) tid + getOffset (ref_type (inputBufferRefs op) tid) offset) in
        [APort (arr (channelIndexes op) tid)
           (if putWithSignal then PPutWithSignal dstMemoryId dstOffset srcMemoryId srcOffset size
            else if putWithSignalAndFlush then PPutWithSignalAndFlush dstMemoryId dstOffset srcMemoryId (k_srcOffsets k op) size
            else PPut dstMemoryId dstOffset srcMemoryId srcOffset size)]
      else []
  | _ => []
  end.

(** The loop of the reducing handlers: [srcs] and [dsts] are base addresses that the
    loop advances together. *)
Definition reduce_iteration (vector : bool) (size : Z) (srcs dsts : list Z) (idx : Z) : device_act :=
  AReduce (mkReduce vector (Z.to_nat size) (map (fun a => a + idx * size) srcs) (map (fun a => a + idx * size) dsts)).

(** Byte offset of entry [index] of a table of remote buffers, as a multiple of [unit]. *)
Definition remote_base (refs : list (option BufferRef)) (offsets : list Z) (index offset unit : Z) : Z :=
  let id := ref_id refs index in
  remotePtr id + u32 (arr offsets index + getOffset (remoteType id) offset) / unit * unit.

Definition handleReadReduceSend (sendToRemote : bool) (op : Operation) (offset unitSize tid : Z) : list device_act :=
  let size := piece (arr (inputBufferSizes op) 0) offset unitSize in
  let nInt4 := size / sizeof_int4 in
  let inputOffset := u32 (arr (inputOffsets op) 0 + getOffset (ref_type (inputBufferRefs op) 0) offset) in
  let inputOffset4 := inputOffset / sizeof_int4 in
  let outputOffset4 :=
    u32 (arr (outputOffsets op) 0 + getOffset (ref_type (outputBufferRefs op) 0) offset) / sizeof_int4 in
  let nRemoteInputs := u8 (nInputs op - 1) in
  let nRemoteOutputs := u8 (nOutputs op - 1) in
  let input4 := getBuffer (ref_type (inputBufferRefs op) 0) in
  let output4 := getBuffer (ref_type (outputBufferRefs op) 0) in
  let remotes refs offsets n unit := map (fun i => remote_base refs offsets (i + 1) offset unit) (loop32 0 1 n) in
  map (reduce_iteration true sizeof_int4
        (input4 + inputOffset4 * sizeof_int4 :: remotes (inputBufferRefs op) (inputOffsets op) nRemoteInputs sizeof_int4)
        (output4 + outputOffset4 * sizeof_int4 ::
         if sendToRemote then remotes (outputBufferRefs op) (outputOffsets op) nRemoteOutputs sizeof_int4 else []))
    (loop32 tid (k_blockDim k) nInt4) ++
  (* handle rest of data *)
  let sz := sizeof (k_type k) in
  let processed := nInt4 * sizeof_int4 in
  let startIdx := u32 (inputOffset + processed) / sz in
  let endIdx := u32 (inputOffset + size) / sz in
  map (reduce_iteration false sz
        (k_input k :: remotes (inputBufferRefs op) (inputOffsets op) nRemoteInputs sz)
        (k_output k :: if sendToRemote then remotes (outputBufferRefs op) (outputOffsets op) nRemoteOutputs sz else []))
    (loop32 (u32 (tid + startIdx)) (k_blockDim k) endIdx).

Definition handleReduceSend (sendToRemote : bool) (op : Operation) (offset unitSize tid : Z) : list device_act :=
  let size := piece (arr (inputBufferSizes op) 0) offset unitSize in
  let nInt4 := size / sizeof_int4 in
  let nInput := nInputs op - 1 in
  let nOutput := nOutputs op - 1 in
  let srcOffsetByBytes := u32 (arr (inputOffsets op) 0 + getOffset (ref_type (inputBufferRefs op) 0) offset) in
  let dstOffsetByBytes := u32 (arr (outputOffsets op) 0 + getOffset (ref_type (outputBufferRefs op) 0) offset) in
  let srcOffset4 := srcOffsetByBytes / sizeof_int4 in
  let dstOffset4 := dstOffsetByBytes / sizeof_int4 in
  let src4 := getBuffer (ref_type (inputBufferRefs op) 0) in
  let dst4 := getBuffer (ref_type (outputBufferRefs op) 0) in
  (* the vector loop looks up the type of the output at the same index *)
  let inputs (types : list (option BufferRef)) unit :=
    map (fun i => getBuffer (ref_type (inputBufferRefs op) (i + 1)) +
                  u32 (arr (inputOffsets op) (i + 1) + getOffset (ref_type types (i + 1)) offset) / unit * unit)
      (loop32 0 1 nInput) in
  let outputs unit :=
    if sendToRemote
    then map (fun i => remote_base (outputBufferRefs op) (outputOffsets op) (i + 1) offset unit) (loop32 0 1 nOutput)
    else [] in
  map (reduce_iteration true sizeof_int4
        (src4 + srcOffset4 * sizeof_int4 :: inputs (outputBufferRefs op) sizeof_int4)
        (dst4 + dstOffset4 * sizeof_int4 :: outputs sizeof_int4))
    (loop32 tid (k_blockDim k) nInt4) ++
  (* handle rest of data *)
  let sz := sizeof (k_type k) in
  let processed := nInt4 * sizeof_int4 in
  let startIdx := u32 (srcOffsetByBytes + processed) / sz in
  let endIdx := u32 (srcOffsetByBytes + size) / sz in
  map (reduce_iteration false sz (src4 :: inputs (inputBufferRefs op) sz) (dst4 :: outputs sz))
    (loop32 (u32 (tid + startIdx)) (k_blockDim k) endIdx).

Definition handleCopy (op : Operation) (offset unitSize tid : Z) : list device_act :=
  let size := piece (arr (inputBufferSizes op) 0) offset unitSize in
  if size <=? 0 then [] else
  let dstOffset := u32 (arr (outputOffsets op) 0 + getOffset (ref_type (outputBufferRefs op) 0) offset) in
  let srcOffset := u32 (arr (inputOffsets op) 0 + getOffset (ref_type (inputBufferRefs op) 0) offset) in
  copy_acts (getBuffer (ref_type (outputBufferRefs op) 0) + dstOffset)
            (getBuffer (ref_type (inputBufferRefs op) 0) + srcOffset) size tid.

(** *** Packets *)

Definition packet_bytes : Z := 8 * Z.of_nat (words (k_packet k)).
Definition payload_bytes : Z := 4 * Z.of_nat (words (k_packet k)).

(** [copyToPackets]. *)
Definition to_packets (dst src size tid : Z) : list device_act :=
  map (fun i => AToPacket (src + i * payload_bytes) (dst + i * packet_bytes))
    (strided tid (k_blockDim k) (size / payload_bytes)).

(** The scratch buffer of this launch, where packets arrive. *)
Definition scratch_at (byteOffset : Z) : Z := k_scratch k + k_scratchOffset k + byteOffset.

(** Where packet [idx] of a remote scratch buffer goes. *)
Definition remote_packet (refs : list (option BufferRef)) (offsets : list Z) (index idx : Z) : Z :=
  remotePtr (ref_id refs index) +
  (u32 (k_scratchOffset k + u32 (arr offsets index * 2)) / packet_bytes + idx) * packet_bytes.

Definition handlePutPackets (op : Operation) (tid : Z) : list device_act :=
  let nDstChannels := nOutputs op in
  let inputBuff := getBuffer (ref_type (inputBufferRefs op) 0) in
  match op_channelType op with
  | CMemory =>
      concat (map (fun index =>
        to_packets (remotePtr (ref_id (outputBufferRefs op) index) + u32 (arr (outputOffsets op) index * 2) +
                    k_scratchOffset k)
          (inputBuff + arr (inputOffsets op) index) (arr (inputBufferSizes op) index) tid)
      (loop32 0 1 nDstChannels))
  | CPort =>
      if nDstChannels <=? tid then [] else
      let size := arr (inputBufferSizes op) tid in
      let constOffset := if bool_decide (ref_type (inputBufferRefs op) tid = BScratch) then k_scratchOffset k else 0 in
      let dstOffset := u32 (u32 (arr (outputOffsets op) tid * 2) + k_scratchOffset k) in
      let srcOffset := u32 (u32 (arr (inputOffsets op) tid * 2) + constOffset) in
      let srcMemoryId := ref_byte (nth (Z.to_nat tid) (inputBufferRefs op) None) in
      let dstMemoryId := (portBuffer (ref_id (outputBufferRefs op) tid)).1 in
      [APort (arr (channelIndexes op) tid) (PPut dstMemoryId dstOffset srcMemoryId srcOffset (u32 (size * 2)))]
  | _ => []
  end.

Definition handleReadPutPackets (op : Operation) (tid : Z) : list device_act :=
  let nOutput := nOutputs op in
  let size := arr (inputBufferSizes op) 0 in
  let nPackets := size / payload_bytes in
  let pkts := scratch_at (u32 (arr (inputOffsets op) 0 * 2)) in
  match op_channelType op with
  | CMemory =>
      map (fun pktIdx => APacket (mkPacket [pkts + pktIdx * packet_bytes] None None
             (map (fun idx => remote_packet (outputBufferRefs op) (outputOffsets op) idx pktIdx) (loop32 0 1 nOutput))))
        (strided tid (k_blockDim k) nPackets)
  | CPort =>
      map (fun pktIdx => APacket (mkPacket [pkts + pktIdx * packet_bytes] None None []))
        (strided tid (k_blockDim k) nPackets) ++ [ASyncThreads] ++
      if nOutput <=? tid then [] else
      let dstOffset := u32 (u32 (arr (outputOffsets op) tid * 2) + k_scratchOffset k) in
      let srcOffset := u32 (u32 (arr (inputOffsets op) 0 * 2) + k_scratchOffset k) in
      let dstMemoryId := (portBuffer (ref_id (outputBufferRefs op) tid)).1 in
      [APort (arr (channelIndexes op) tid)
         (PPut dstMemoryId dstOffset (u32 (BufferType_to_Z BScratch + k_localMemoryIdBegin k)) srcOffset (u32 (size * 2)))]
  | _ => []
  end.

(** The common part of the handlers that reduce packets: [copy] is where the result
    is kept as packets too. *)
Definition reduce_packets (op : Operation) (outs : Z -> list Z) (tid : Z) : list device_act :=
  let size := arr (inputBufferSizes op) 0 in
  let nSrcs := u32 (nInputs op - 1) in
  let nPackets := size / payload_bytes in
  let srcOffset := arr (inputOffsets op) 0 / payload_bytes in
  let dstOffset := arr (outputOffsets op) 0 / payload_bytes in
  let src := getBuffer (ref_type (inputBufferRefs op) 0) + srcOffset * payload_bytes in
  let dst := getBuffer (ref_type (outputBufferRefs op) 0) + dstOffset * payload_bytes in
  map (fun idx => APacket (mkPacket
         (map (fun index => scratch_at (u32 (2 * arr (inputOffsets op) (index + 1))) + idx * packet_bytes) (loop32 0 1 nSrcs))
         (Some (src + idx * payload_bytes)) (Some (dst + idx * payload_bytes)) (outs idx)))
    (loop32 tid (k_blockDim k) nPackets).

Definition handleReduceSendPackets (sendToRemote : bool) (op : Operation) (tid : Z) : list device_act :=
  let nDstChannels := u32 (nOutputs op - 1) in
  reduce_packets op (fun idx =>
    if sendToRemote
    then map (fun index => remote_packet (outputBufferRefs op) (outputOffsets op) (index + 1) idx) (loop32 0 1 nDstChannels)
    else []) tid.

Definition handleReduceCopySendPackets (sendToRemote : bool) (op : Operation) (tid : Z) : list device_act :=
  let nDstChannels := u32 (nOutputs op - 2) in
  let dstPkt := getBuffer (ref_type (outputBufferRefs op) 1) + u32 (2 * arr (outputOffsets op) 1) in
  reduce_packets op (fun idx =>
    dstPkt + idx * packet_bytes ::
    if sendToRemote
    then map (fun index => remote_packet (outputBufferRefs op) (outputOffsets op) (index + 2) idx) (loop32 0 1 nDstChannels)
    else []) tid.

Definition handleUnpackPackets (op : Operation) (tid : Z) : list device_act :=
  let size := arr (inputBufferSizes op) 0 in
  let srcPackets := scratch_at (u32 (arr (inputOffsets op) 0 * 2)) in
  let result := getBuffer (ref_type (outputBufferRefs op) 0) + arr (outputOffsets op) 0 in
  let nPackets := size / payload_bytes in
  map (fun idx => APacket (mkPacket [srcPackets + idx * packet_bytes] None (Some (result + idx * payload_bytes)) []))
    (loop32 tid (k_blockDim k) nPackets).

Definition handleCopyPackets (op : Operation) (tid : Z) : list device_act :=
  let size := arr (inputBufferSizes op) 0 in
  let dstOffset := u32 (arr (outputOffsets op) 0 * 2) in
  let srcOffset := arr (inputOffsets op) 0 in
  to_packets (getBuffer (ref_type (outputBufferRefs op) 0) + dstOffset)
             (getBuffer (ref_type (inputBufferRefs op) 0) + srcOffset) size tid.

(** *** Switch channels and semaphores *)

Definition multicastPtr (i : Z) : Z :=
  sw_ptr (nth (Z.to_nat i) (dp_nvlsChannels (k_plan k)) (mkSwitch 0 0 0)).

Definition multimem_loop (bytes src dst num tid : Z) : list device_act :=
  map (fun idx => AMultimem bytes (src + idx * bytes) (dst + idx * bytes)) (strided tid (k_blockDim k) num).

(** The rest of a 16-byte transfer takes byte offsets for element counts. *)
Definition handleMultiLoadReduceStore (op : Operation) (offset unitSize tid : Z) : list device_act :=
  match k_type k with
  | UInt8 => []
  | T =>
      let size := piece (arr (inputBufferSizes op) 0) offset unitSize in
      if size <=? 0 then [] else
      let '(srcIndex, srcType) := default (0, BInput) (nvlsInput op) in
      let '(dstIndex, dstType) := default (0, BInput) (nvlsOutput op) in
      let srcOffset := u32 (arr (inputOffsets op) 0 + getOffset srcType offset) in
      let dstOffset := u32 (arr (outputOffsets op) 0 + getOffset dstType offset) in
      let src := multicastPtr srcIndex in
      let dst := multicastPtr dstIndex in
      let sz := sizeof T in
      match T with
      | Int32 | UInt32 =>
          multimem_loop sz (src + srcOffset / sz * sz) (dst + dstOffset / sz * sz) (size / sz) tid
      | _ =>
          let nType16 := size / 16 in
          multimem_loop 16 (src + srcOffset / 16 * 16) (dst + dstOffset / 16 * 16) nType16 tid ++
          let redBytes := 4 in
          let processed := nType16 * 16 in
          multimem_loop redBytes (src + (srcOffset + processed) * sz) (dst + (dstOffset + processed) * sz)
            ((size - processed) / redBytes) tid
      end
  end.

Definition handleSemRelease (op : Operation) (tid : Z) : list device_act :=
  if tid <? Z.of_nat (length (deviceSemaphoreIds op)) then [ASemRelease (arr (deviceSemaphoreIds op) tid)] else [].
Definition handleSemAcquire (op : Operation) (tid : Z) : list device_act :=
  if tid <? Z.of_nat (length (deviceSemaphoreIds op)) then [ASemAcquire (arr (deviceSemaphoreIds op) tid)] else [].

(** ** Executing operations *)

(** [executeDeviceFunction] on every type but [PIPELINE]; built for sm_90 or later. *)
Definition run_operation (op : Operation) (offset unitSize tid : Z) : list device_act :=
  match op_type op with
  | NOP => handleNop
  | BARRIER => handleBarrier op
  | SIGNAL => handleSignal false op tid
  | WAIT => handleWait false op tid
  | RELAXED_SIGNAL => handleSignal true op tid
  | RELAXED_WAIT => handleWait true op tid
  | FLUSH => handleFlush op tid
  | PUT => handlePut false false op offset unitSize tid
  | PUT_WITH_SIGNAL => handlePut true false op offset unitSize tid
  | PUT_WITH_SIGNAL_AND_FLUSH => handlePut true true op offset unitSize tid
  | PUT_PACKETS => handlePutPackets op tid
  | READ_PUT_PACKETS => handleReadPutPackets op tid
  | GET => handleGet op offset unitSize tid
  | READ_REDUCE_SEND => handleReadReduceSend true op offset unitSize tid
  | READ_REDUCE => handleReadReduceSend false op offset unitSize tid
  | COPY => handleCopy op offset unitSize tid
  | REDUCE_SEND => handleReduceSend true op offset unitSize tid
  | REDUCE => handleReduceSend false op offset unitSize tid
  | REDUCE_SEND_PACKETS => handleReduceSendPackets true op tid
  | REDUCE_PACKETS => handleReduceSendPackets false op tid
  | REDUCE_COPY_SEND_PACKETS => handleReduceCopySendPackets true op tid
  | REDUCE_COPY_PACKETS => handleReduceCopySendPackets false op tid
  | UNPACK_PACKETS => handleUnpackPackets op tid
  | COPY_PACKETS => handleCopyPackets op tid
  | SEM_ACQUIRE => handleSemAcquire op tid
  | SEM_RELEASE => handleSemRelease op tid
  | MULTI_LOAD_REDUCE_STORE => handleMultiLoadReduceStore op offset unitSize tid
  | PIPELINE => []
  end.

(** An operation inside a pipeline: [nSteps] is null, and a pipeline writes to it. *)
Definition executeInner (op : Operation) (offset unitSize tid : Z) : option (list device_act) :=
  if bool_decide (op_type op = PIPELINE) then None else Some (run_operation op offset unitSize tid).

Fixpoint all_acts (l : list (option (list device_act))) : option (list device_act) :=
  match l with
  | [] => Some []
  | x :: l' => a ← x; b ← all_acts l'; Some (a ++ b)
  end.

(** [handlePipeline]: [following] are the operations behind the pipeline in the plan. *)
Definition handlePipeline (op : Operation) (following : list Operation) (tid : Z) : option (list device_act) :=
  let nIterations := u16 (ExecutionPlan.nIterations op) in
  let nOperations := ExecutionPlan.nOperations op in
  all_acts (map (fun i =>
    let offset := u32 (i * unitSize op) in
    all_acts (map (fun opId => o ← following !! Z.to_nat opId; executeInner o offset (unitSize op) tid)
                (loop32 0 1 nOperations)))
  (loop32 0 1 nIterations)).

(** [executeDeviceFunction] from the main loop: the actions and [nSteps]. *)
Definition executeDeviceFunction (op : Operation) (following : list Operation) (tid : Z)
    : option (list device_act * Z) :=
  if bool_decide (op_type op = PIPELINE)
  then acts ← handlePipeline op following tid; Some (acts, u8 (ExecutionPlan.nOperations op + 1))
  else Some (run_operation op 0 UINT32_MAX tid, 1).

(** The main loop of [executionKernel], for one thread.  [None]: undefined behaviour, or
    out of fuel. *)
Fixpoint kernel_loop (fuel : nat) (i : Z) (tid : Z) : option (list device_act) :=
  if dp_nOperations (k_plan k) <=? i then Some [] else
  match fuel with
  | O => None
  | S fuel' =>
      op ← dp_operations (k_plan k) !! Z.to_nat i;
      '(acts, nSteps) ← executeDeviceFunction op (drop (S (Z.to_nat i)) (dp_operations (k_plan k))) tid;
      rest ← kernel_loop fuel' (i + nSteps) tid;
      Some (acts ++ rest)
  end.

(** One step per operation of the plan is enough. *)
Definition executionKernel (tid : Z) : option (list device_act) :=
  kernel_loop (Z.to_nat (dp_nOperations (k_plan k))) 0 tid.
End handlers.

(** ** What the actions do to memory *)

Fixpoint to_words (bs : list Z) : list Z :=
  match bs with
  | b0 :: b1 :: b2 :: b3 :: bs' => le_val [b0; b1; b2; b3] :: to_words bs'
  | _ => []
  end.
Definition of_words (ws : list Z) : list Z := concat (map (le_bytes 4) ws).

Section semantics.
Context `{I : Intrinsics} `{C : HalfConv} `{F : FloatOps} (p : platform) (T : elem_type).

(** The sum of two vectors, or of two elements, as bytes; the executor only sums. *)
Definition combine (vector : bool) (a b : list Z) : option (list Z) :=
  if vector then ws ← calVector p T SUM (to_words a) (to_words b); Some (of_words ws)
  else x ← add_elem T (le_val a) (le_val b); Some (le_bytes (Z.to_nat (sizeof T)) x).

Definition ra_value (m : memory) (a : reduce_act) : option (list Z) :=
  match ra_srcs a with
  | [] => None
  | s :: srcs =>
      foldl (fun acc s' => v ← acc; combine (ra_vector a) v (mem_read m s' (ra_len a)))
        (Some (mem_read m s (ra_len a))) srcs
  end.

Definition run_reduce (m : memory) (a : reduce_act) : option memory :=
  v ← ra_value m a; Some (foldl (fun m d => mem_write m d v) m (ra_dsts a)).

Fixpoint run_reduces (m : memory) (l : list reduce_act) : option memory :=
  match l with
  | [] => Some m
  | a :: l' => m' ← run_reduce m a; run_reduces m' l'
  end.
End semantics.

(** ** Lemmas: the main loop *)

(** What a thread does for an operation of the plan file: [o :: inner] are the
    operations that [ExecutionPlan.setupOp] made of it. *)
Definition group_acts (k : kernel) (tid : Z) (group : list Operation) : list device_act :=
  match group with
  | [] => []
  | o :: inner =>
      if bool_decide (op_type o = PIPELINE) then
        concat (map (fun i => concat (map (fun o' => run_operation k o' (u32 (i * unitSize o)) (unitSize o) tid) inner))
                  (map Z.of_nat (seq 0 (Z.to_nat (u16 (ExecutionPlan.nIterations o))))))
      else run_operation k o 0 UINT32_MAX tid
  end.

(** Groups the loop can execute. *)
Definition group_ok (group : list Operation) : Prop :=
  match group with
  | [] => False
  | o :: inner =>
      if bool_decide (op_type o = PIPELINE)
      then ExecutionPlan.nOperations o = Z.of_nat (length inner) /\ (length inner < 255)%nat /\
           Forall (fun o' => op_type o' <> PIPELINE) inner
      else inner = []
  end.

Lemma loop32_from_seq fuel a num : num < 2 ^ 32 -> 0 <= a -> num - a = Z.of_nat fuel ->
  loop32_from fuel a 1 num = map (fun i => a + Z.of_nat i) (seq 0 fuel).
Proof.
  intros Hn. revert a. induction fuel as [|fuel IH]; intros a Ha Hf; simpl; [done|].
  rewrite (proj2 (Z.ltb_lt _ _)) by lia. rewrite Z.add_0_r. f_equal. rewrite <- seq_shift, map_map.
  destruct (decide (fuel = 0%nat)) as [->|].
  { done. }
  rewrite u32_small, IH by lia. apply map_ext. intros i. lia.
Qed.

Lemma loop32_seq num : 0 <= num < 2 ^ 32 -> loop32 0 1 num = map Z.of_nat (seq 0 (Z.to_nat num)).
Proof. intros Hn. unfold loop32. rewrite loop32_from_seq by lia. apply map_ext. lia. Qed.

Lemma all_acts_some {A} (f : A -> option (list device_act)) g l :
  (forall x, x ∈ l -> f x = Some (g x)) -> all_acts (map f l) = Some (concat (map g l)).
Proof.
  induction l as [|x l IH]; intros H; simpl; [done|]. rewrite H by set_solver.
  cbn [mbind option_bind]. rewrite IH by set_solver. done.
Qed.

Lemma u16_lt x : 0 <= u16 x < 2 ^ 16.
Proof. by apply wrap_is_u. Qed.

Lemma handlePipeline_ok k o inner rest tid : group_ok (o :: inner) -> op_type o = PIPELINE ->
  handlePipeline k o (inner ++ rest) tid = Some (group_acts k tid (o :: inner)).
Proof.
  unfold group_ok, group_acts, handlePipeline. intros H Ht. rewrite bool_decide_true in * by done.
  destruct H as (Hn & Hlt & Hf). rewrite Hn. pose proof (u16_lt (ExecutionPlan.nIterations o)).
  rewrite !loop32_seq by lia. apply all_acts_some. intros i _.
  rewrite Nat2Z.id, map_map.
  rewrite (all_acts_some _ (fun j => run_operation k (nth j inner o) (u32 (i * unitSize o)) (unitSize o) tid)).
  - do 2 f_equal. clear. induction inner as [|a inner IH]; simpl; [done|]. f_equal.
    rewrite <- seq_shift, map_map. done.
  - intros j Hj. apply elem_of_seq in Hj. rewrite Nat2Z.id.
    destruct (lookup_lt_is_Some_2 inner j ltac:(lia)) as [o' Ho']. rewrite lookup_app_l by lia. rewrite Ho'.
    cbn [mbind option_bind]. unfold executeInner. rewrite bool_decide_false.
    + do 2 f_equal. symmetry. by apply nth_lookup_Some.
    + rewrite Forall_lookup in Hf. by eapply Hf.
Qed.

(** The loop starts a group, executes it once, and goes on behind it. *)
Lemma kernel_loop_groups k tid groups : forall fuel pre,
  Forall group_ok groups -> dp_operations (k_plan k) = pre ++ concat groups ->
  dp_nOperations (k_plan k) = Z.of_nat (length (pre ++ concat groups)) -> (length (concat groups) <= fuel)%nat ->
  kernel_loop k fuel (Z.of_nat (length pre)) tid = Some (concat (map (group_acts k tid) groups)).
Proof.
  induction groups as [|g groups IH]; intros fuel pre Hok Hops Hn Hf.
  { rewrite app_nil_r in Hn. destruct fuel; simpl; rewrite Hn, (proj2 (Z.leb_le _ _)) by lia; done. }
  apply Forall_cons in Hok as [Hg Hok]. destruct g as [|o inner]; [done|]. simpl in Hops, Hn, Hf.
  rewrite length_app in Hn, Hf. simpl in Hn. rewrite length_app in Hn.
  destruct fuel as [|fuel]; [lia|]. simpl. rewrite (proj2 (Z.leb_gt _ _)) by lia. rewrite Nat2Z.id.
  rewrite Hops, (lookup_app_r pre), Nat.sub_diag by lia. cbn [lookup list_lookup mbind option_bind].
  assert (E : executeDeviceFunction k o (drop (S (length pre)) (pre ++ o :: inner ++ concat groups)) tid =
    Some (group_acts k tid (o :: inner), Z.of_nat (S (length inner)))).
  { rewrite (cons_middle o pre), app_assoc, drop_app_length' by (rewrite length_app; simpl; lia).
    unfold executeDeviceFunction.
    destruct (decide (op_type o = PIPELINE)) as [Ht|Ht].
    - rewrite bool_decide_true by done. rewrite handlePipeline_ok by done. cbn [mbind option_bind].
      unfold group_ok in Hg. rewrite bool_decide_true in Hg by done. destruct Hg as (-> & Hlt & _).
      unfold u8. rewrite wrap_small by (unfold is_u; lia). do 2 f_equal. lia.
    - unfold group_ok in Hg. unfold group_acts. rewrite bool_decide_false in * by done. by subst inner. }
  rewrite E. cbn [mbind option_bind]. specialize (IH fuel (pre ++ o :: inner)).
  replace (Z.of_nat (length pre) + Z.of_nat (S (length inner))) with (Z.of_nat (length (pre ++ o :: inner)))
    by (rewrite length_app; simpl; lia).
  rewrite IH; [done|done| | |lia].
  - rewrite Hops. by rewrite <- app_assoc.
  - rewrite Hn. rewrite !length_app. simpl. lia.
Qed.

(** ** Lemmas: from the plan file to the kernel *)

Lemma map_eff_Forall2 {A B} (f : A -> eff B) l l' : map_eff f l = Ret l' -> Forall2 (fun a b => f a = Ret b) l l'.
Proof.
  revert l'. induction l as [|a l IH]; intros l' H; simpl in H; [injection H as <-; constructor|].
  destruct (f a) as [b| |] eqn:E; [|done|done]. cbn [mbind eff_bind] in H.
  destruct (map_eff f l) as [bs| |]; [|done|done]. cbn [mbind eff_bind] in H. injection H as <-. auto.
Qed.

(** What the kernel relies on in an operation of the plan file: a pipeline has an
    iteration context and fewer than 255 operations, none of them a pipeline. *)
Definition jop_ok (j : jop) : Prop :=
  getOpType (jo_name j) = Ret PIPELINE ->
  jo_iter_context j <> None /\ (length (jo_ops j) < 255)%nat /\
  Forall (fun i => getOpType (jo_name i) <> Ret PIPELINE) (jo_ops j).

(** Split the first bind of a computation that has returned, keeping its equation. *)
Ltac eff_step H E :=
  match type of H with
  | (?m ≫= _) = _ => destruct m eqn:E; [|done|done]; cbn [mbind eff_bind] in H
  end.

Lemma setupOperation_spec c t cs cd tb j o : setupOperation c t cs cd tb j = Ret o ->
  getOpType (jo_name j) = Ret (op_type o) /\
  (jo_iter_context j <> None -> ExecutionPlan.nOperations o = u8 (Z.of_nat (length (jo_ops j)))) /\
  (jo_dst_buff j = None -> outputOffsets o = []).
Proof.
  unfold setupOperation. intros H. eff_step H Ety. eff_step H Ect. eff_step H Eids.
  destruct (default (0, 1) (jo_tbg_info j)) as [tbId tbgSize].
  eff_step H Es. eff_step H Ein. eff_step H Ed. eff_step H Eo. eff_step H Esem. eff_step H Ei.
  destruct a7 as [[unit_ iters] nops]. injection H as <-. simpl. split; [done|]. split.
  - intros Hi. destruct (jo_iter_context j) as [[us nc]|]; [|done].
    eff_step Ei E1. eff_step Ei E2. by injection Ei as _ _ <-.
  - intros Hd. rewrite Hd in Ed. unfold bounded in Ed. simpl in Ed. injection Ed as <-.
    simpl in Eo. by injection Eo as <-.
Qed.

Lemma setupOp_group c t cs cd tb j g : setupOp c t cs cd tb j = Ret g -> jop_ok j -> group_ok g.
Proof.
  unfold setupOp. intros H Hj. destruct (setupOperation c t cs cd tb j) as [o| |] eqn:Eo; [|done|done].
  cbn [mbind eff_bind] in H. apply setupOperation_spec in Eo as (Et & Ei & _).
  unfold group_ok, jop_ok in *. destruct (decide (op_type o = PIPELINE)) as [Hp|Hp].
  - destruct (map_eff _ (jo_ops j)) as [inner| |] eqn:Em; [|done|done]. cbn [mbind eff_bind] in H. injection H as <-.
    rewrite bool_decide_true by done. destruct Hj as (Hi & Hlt & Hf); [congruence|].
    apply map_eff_Forall2 in Em. pose proof (Forall2_length _ _ _ Em) as El.
    split; [|split]; [|lia|].
    + rewrite Ei by done. unfold u8. rewrite wrap_small by (unfold is_u; lia). by rewrite El.
    + apply Forall_lookup. intros i o' Ho'. destruct (Forall2_lookup_r _ _ _ _ _ Em Ho') as (ji & Hji & Es).
      apply setupOperation_spec in Es as (Et' & _). rewrite Forall_lookup in Hf. specialize (Hf _ _ Hji). congruence.
  - injection H as <-. by rewrite bool_decide_false.
Qed.

Lemma threadblock_plan_ops rs plan n ops dp : threadblock_plan rs plan n ops = Ret dp ->
  dp_operations dp = ops /\ dp_nOperations dp = u16 (Z.of_nat (length ops)) /\ (length ops <= MAX_OPERATION)%nat.
Proof.
  unfold threadblock_plan. cbv zeta. intros H. repeat (let E := fresh "E" in eff_step H E). injection H as <-.
  simpl. split; [done|]. split; [done|].
  match goal with E : raise_if _ _ = _ |- _ => unfold raise_if in E; destruct (Z.ltb_spec (Z.of_nat MAX_OPERATION)
    (Z.of_nat (length ops))); [done|lia] end.
Qed.

(** A thread of the kernel does what its groups say. *)
Lemma kernel_runs_groups c t cs cd tb (ops : list jop) groups rs plan n k tid :
  map_eff (setupOp c t cs cd tb) ops = Ret groups -> Forall jop_ok ops ->
  threadblock_plan rs plan n (concat groups) = Ret (k_plan k) ->
  executionKernel k tid = Some (concat (map (group_acts k tid) groups)).
Proof.
  intros Hg Hok Hp. assert (Hgs : Forall group_ok groups).
  { apply map_eff_Forall2 in Hg. apply Forall_lookup. intros i g Hi.
    destruct (Forall2_lookup_r _ _ _ _ _ Hg Hi) as (j & Hj & Es). eapply setupOp_group; [exact Es|].
    rewrite Forall_lookup in Hok. eauto. }
  apply threadblock_plan_ops in Hp as (E1 & E2 & E3).
  unfold executionKernel. apply (kernel_loop_groups k tid groups _ []); [done|done| |].
  - rewrite E2. unfold MAX_OPERATION in E3. unfold u16. by rewrite wrap_small by (unfold is_u; simpl; lia).
  - rewrite E2. unfold MAX_OPERATION in E3. unfold u16. rewrite wrap_small by (unfold is_u; lia). lia.
Qed.

(** *** Through loading and device plans *)

Lemma device_plans_lookup rs plan ops : forall tb ds n d,
  device_plans rs plan tb ops = Ret ds -> ds !! n = Some d ->
  exists o, ops !! n = Some o /\ threadblock_plan rs plan (tb + n) o = Ret d.
Proof.
  induction ops as [|o ops IH]; intros tb ds n d H Hn; simpl in H; [by injection H as <-|].
  eff_step H E1. eff_step H E2. injection H as <-. destruct n as [|n]; simpl in Hn.
  - injection Hn as <-. exists o. by rewrite Nat.add_0_r.
  - destruct (IH _ _ _ _ E2 Hn) as (o' & Ho' & Et). exists o'. split; [done|]. by rewrite Nat.add_succ_r.
Qed.

(** The operations of a thread block of a loaded plan. *)
Lemma load_operations j i o s d p p' : loadExecutionPlan j i o s d (plan_reset p) = Ret p' ->
  exists gpu, at_ (j_gpus j) (pl_rank (cfg p)) = Ret gpu /\
    setupOperations (cfg p') (tabs p') s d gpu [] = Ret (operations p').
Proof.
  unfold loadExecutionPlan. simpl. intros H. eff_step H E1. eff_step H E2. eff_step H E3. eff_step H E4.
  eff_step H E5. eff_step H E6. eff_step H E7. injection H as <-. eauto.
Qed.

Lemma setupOperations_lookup c t s d gpu ops n b : setupOperations c t s d gpu [] = Ret ops ->
  jg_threadblocks gpu !! n = Some b ->
  exists groups, map_eff (setupOp c t s d (jtb_id b)) (jtb_ops b) = Ret groups /\ ops !! n = Some (concat groups).
Proof.
  unfold setupOperations. intros H Hb. eff_step H E. injection H as <-. apply map_eff_Forall2 in E.
  destruct (Forall2_lookup_l _ _ _ _ _ E Hb) as (l & Hl & El). eff_step El E1. injection El as <-. eauto.
Qed.

Lemma kernel_runs_plan j i o s d p p' rs dps gpu n b k tid :
  loadExecutionPlan j i o s d (plan_reset p) = Ret p' -> build_plans rs p' = Ret dps ->
  at_ (j_gpus j) (pl_rank (cfg p)) = Ret gpu -> jg_threadblocks gpu !! n = Some b ->
  Forall jop_ok (jtb_ops b) -> dps !! n = Some (k_plan k) ->
  exists groups, map_eff (setupOp (cfg p') (tabs p') s d (jtb_id b)) (jtb_ops b) = Ret groups /\
    executionKernel k tid = Some (concat (map (group_acts k tid) groups)).
Proof.
  intros Hl Hb Hg Htb Hok Hd. apply load_operations in Hl as (gpu' & Hg' & Hs).
  assert (gpu' = gpu) as -> by congruence.
  destruct (setupOperations_lookup _ _ _ _ _ _ _ _ Hs Htb) as (groups & Em & Hops).
  destruct (device_plans_lookup _ _ _ _ _ _ _ Hb Hd) as (o' & Ho' & Et).
  assert (o' = concat groups) as -> by congruence. exists groups. split; [done|].
  by eapply kernel_runs_groups.
Qed.

(** ** Lemmas: flushing *)

Definition is_flush (a : device_act) : Prop :=
  match a with APort _ PFlush | APort _ (PPutWithSignalAndFlush _ _ _ _ _) => True | _ => False end.

Lemma Forall_concat_map {A B} (P : B -> Prop) (f : A -> list B) l :
  (forall x, x ∈ l -> Forall P (f x)) -> Forall P (concat (map f l)).
Proof.
  induction l as [|x l IH]; intros H; simpl; [constructor|]. apply Forall_app. split; [apply H|apply IH]; set_solver.
Qed.

Lemma Forall_map_all {A B} (P : B -> Prop) (f : A -> B) l : (forall x, P (f x)) -> Forall P (map f l).
Proof. intros H. apply Forall_forall. intros y Hy. apply list_elem_of_fmap in Hy as (x & -> & _). done. Qed.

Ltac no_flush :=
  repeat first [apply Forall_nil_2 | apply Forall_app_2 | apply Forall_cons; split; [by intros []|]
               | apply Forall_concat_map; intros ? _ | apply Forall_map_all; by intros ? [] | case_match].

(** No handler flushes, but that of [FLUSH] for an operation with outputs. *)
Lemma run_operation_no_flush k op offset us tid : (op_type op = FLUSH -> outputOffsets op = []) -> 0 <= tid ->
  Forall (fun a => ~ is_flush a) (run_operation k op offset us tid).
Proof.
  intros Hf Ht. unfold run_operation. destruct (op_type op);
    unfold handleNop, handleBarrier, handleSignal, handleWait, handleSemRelease, handleSemAcquire,
      handlePut, handlePutPackets, handleReadPutPackets, handleGet, handleCopy, handleCopyPackets,
      handleUnpackPackets, handleReduceSendPackets, handleReduceCopySendPackets, reduce_packets,
      handleReadReduceSend, handleReduceSend, handleMultiLoadReduceStore, copy_acts, to_packets, multimem_loop,
      reduce_iteration; cbv zeta; try (no_flush; done).
  unfold handleFlush, nOutputs. rewrite Hf by done. rewrite (proj2 (Z.ltb_ge _ _)) by (simpl; lia). constructor.
Qed.

(** A plan whose flushes name channels only, as the language front end writes them. *)
Definition flush_has_no_buffers (j : jop) : Prop := getOpType (jo_name j) = Ret FLUSH -> jo_dst_buff j = None.

Lemma setupOperation_no_flush c t cs cd tb j o k offset us tid : 0 <= tid -> flush_has_no_buffers j ->
  setupOperation c t cs cd tb j = Ret o -> Forall (fun a => ~ is_flush a) (run_operation k o offset us tid).
Proof.
  intros Ht Hj Ho. apply setupOperation_spec in Ho as (Et & _ & Ed). apply run_operation_no_flush; [|done].
  intros Hf. apply Ed, Hj. congruence.
Qed.

Lemma group_no_flush c t cs cd tb j g k tid : 0 <= tid -> flush_has_no_buffers j -> Forall flush_has_no_buffers (jo_ops j) ->
  setupOp c t cs cd tb j = Ret g -> Forall (fun a => ~ is_flush a) (group_acts k tid g).
Proof.
  intros Ht Hj Hi H. unfold setupOp in H. eff_step H Eo. eff_step H Ei. injection H as <-. unfold group_acts.
  case_bool_decide as Hp; [|by eapply setupOperation_no_flush].
  rewrite decide_True in Ei by done. apply map_eff_Forall2 in Ei. apply Forall_concat_map. intros i _.
  apply Forall_concat_map. intros o' (n & Hn)%list_elem_of_lookup_1.
  destruct (Forall2_lookup_r _ _ _ _ _ Ei Hn) as (j' & Hj' & Es). rewrite Forall_lookup in Hi.
  eapply (setupOperation_no_flush _ _ _ _ _ j'); eauto.
Qed.

(** ** The theorems: from the plan file to the threads *)

(** the kernel follows the plan file.  For a loaded plan and its device plans, each
    thread of a block ends its main loop and does what the operations of its thread
    block say, each once and in order: a pipeline runs all its operations for each
    piece before the next piece, and they are not run again on their own. *)
Theorem kernel_follows_plan (j : jplan) (i o s d : Z) (p p' : Plan) (rs : resources) (dps : list DeviceExecutionPlan)
    (gpu : jgpu) (n : nat) (b : jtb) (k : kernel) (tid : Z) :
  loadExecutionPlan j i o s d (plan_reset p) = Ret p' -> build_plans rs p' = Ret dps ->
  at_ (j_gpus j) (pl_rank (cfg p)) = Ret gpu -> jg_threadblocks gpu !! n = Some b ->
  Forall jop_ok (jtb_ops b) -> dps !! n = Some (k_plan k) ->
  exists groups,
    Forall2 (fun jop g => setupOp (cfg p') (tabs p') s d (jtb_id b) jop = Ret g) (jtb_ops b) groups /\
    executionKernel k tid = Some (concat (map (group_acts k tid) groups)).
Proof.
  intros. destruct (kernel_runs_plan j i o s d p p' rs dps gpu n b k tid) as (groups & Em & Ek); try done.
  exists groups. split; [by apply map_eff_Forall2|done].
Qed.

(** the kernel never flushes a port channel.  When flush operations name channels and no
    buffers, as the language front end writes them, no thread of a loaded plan flushes:
    the flush handler takes its number of channels from the outputs, of which there
    are none, and put-with-signal-and-flush is executed as put-with-signal. *)
Theorem plans_never_flush (j : jplan) (i o s d : Z) (p p' : Plan) (rs : resources) (dps : list DeviceExecutionPlan)
    (gpu : jgpu) (n : nat) (b : jtb) (k : kernel) (tid : Z) :
  loadExecutionPlan j i o s d (plan_reset p) = Ret p' -> build_plans rs p' = Ret dps ->
  at_ (j_gpus j) (pl_rank (cfg p)) = Ret gpu -> jg_threadblocks gpu !! n = Some b ->
  Forall jop_ok (jtb_ops b) -> dps !! n = Some (k_plan k) -> 0 <= tid ->
  Forall (fun jop => flush_has_no_buffers jop /\ Forall flush_has_no_buffers (jo_ops jop)) (jtb_ops b) ->
  exists acts, executionKernel k tid = Some acts /\ Forall (fun a => ~ is_flush a) acts.
Proof.
  intros ?????? Ht Hf. destruct (kernel_runs_plan j i o s d p p' rs dps gpu n b k tid) as (groups & Em & Ek); try done.
  eexists. split; [exact Ek|]. apply map_eff_Forall2 in Em. apply Forall_concat_map.
  intros g (m & Hm)%list_elem_of_lookup_1. destruct (Forall2_lookup_r _ _ _ _ _ Em Hm) as (jo & Hjo & Eg).
  rewrite Forall_lookup in Hf. destruct (Hf _ _ Hjo). by eapply group_no_flush.
Qed.

(** A plan for two ranks: rank 0 copies its input to the output in a pipeline, puts
    it to rank 1 over a port channel, flushes the channel and signals. *)
Definition demo_local (t : string) : jbuff := mkJBuff (Some t) None None 0 1.
Definition demo_copy : jop :=
  mkJOp "copy" None None None (Some [demo_local "i"]) (Some [demo_local "o"]) None None None None [].
Definition demo_ops : list jop :=
  [mkJOp "pipeline" None None None None None None None None (Some (32, 1)) [demo_copy];
   mkJOp "pwsf" (Some "port"%string) (Some [0]) None (Some [demo_local "i"])
     (Some [mkJBuff None (Some 0) None 0 1]) None None None None [];
   mkJOp "flush" (Some "port"%string) (Some [0]) None None None None None None None [];
   mkJOp "signal" (Some "port"%string) (Some [0]) None None None None None None None []].
Definition demo_kernel_plan : jplan :=
  mkJPlan "p" "allreduce" true None None None None None "Simple" None
    [demo_gpu 0 1 [mkJChannel "port" "i" [] [1]] ["port"]%string
       (mkJTb 0 [mkJTbChannel "port" None [0]] (Some [("port"%string, [0])]) demo_ops);
     demo_gpu 1 0 [mkJChannel "port" "i" [] [0]] ["port"]%string
       (mkJTb 0 [mkJTbChannel "port" None [0]] (Some [("port"%string, [0])]) [demo_nop])].
Definition demo_resources : resources := mkResources [] [7] [] [] [5].
Definition demo_device_plans : eff (Plan * list DeviceExecutionPlan) :=
  p ← loadExecutionPlan demo_kernel_plan 64 64 0 0 (plan_reset (Plan_create demo_kernel_plan 0));
  ds ← build_plans demo_resources p; Ret (p, ds).
Definition demo_kernel (dp : DeviceExecutionPlan) : kernel :=
  mkKernel 0 1024 2048 0 0 dp 10 Int32 Packets.LL16Packet false 32 (fun _ => 0).
Definition demo_empty_plan : DeviceExecutionPlan := mkDPlan 0 0 0 [] [] [] [] [] [].
Definition demo_device_plan : DeviceExecutionPlan :=
  match demo_device_plans with Ret (_, d :: _) => d | _ => demo_empty_plan end.
Definition demo_loaded_plan : Plan :=
  match demo_device_plans with Ret (p, _) => p | _ => Plan_create demo_kernel_plan 0 end.
Definition demo_gpu0 : jgpu :=
  match at_ (j_gpus demo_kernel_plan) 0 with Ret g => g | _ => demo_gpu 0 0 [] [] (mkJTb 0 [] None []) end.

Lemma demo_ops_ok : Forall jop_ok demo_ops.
Proof.
  unfold demo_ops. rewrite !Forall_cons. split_and!; try done; intros H; try discriminate H.
  split; [discriminate|]. split; [simpl; lia|]. repeat constructor. discriminate.
Qed.

Lemma demo_ops_flush : Forall (fun jop => flush_has_no_buffers jop /\ Forall flush_has_no_buffers (jo_ops jop)) demo_ops.
Proof.
  unfold demo_ops. rewrite !Forall_cons. unfold demo_copy. cbn [jo_ops]. rewrite !Forall_cons.
  split_and!; try apply Forall_nil_2; intros H; try discriminate H; reflexivity.
Qed.

Lemma kernel_follows_plan_witness :
  exists groups,
    Forall2 (fun jop g => setupOp (cfg demo_loaded_plan) (tabs demo_loaded_plan) 0 0 0 jop = Ret g) demo_ops groups /\
    executionKernel (demo_kernel demo_device_plan) 1 =
      Some (concat (map (group_acts (demo_kernel demo_device_plan) 1) groups)).
Proof.
  apply (kernel_follows_plan demo_kernel_plan 64 64 0 0 (Plan_create demo_kernel_plan 0) demo_loaded_plan demo_resources
           [demo_device_plan] demo_gpu0 0 (mkJTb 0 [mkJTbChannel "port" None [0]] (Some [("port"%string, [0])]) demo_ops)).
  - vm_compute. reflexivity.
  - vm_compute. reflexivity.
  - vm_compute. reflexivity.
  - vm_compute. reflexivity.
  - exact demo_ops_ok.
  - vm_compute. reflexivity.
Defined.

Lemma plans_never_flush_witness :
  exists acts, executionKernel (demo_kernel demo_device_plan) 0 = Some acts /\ Forall (fun a => ~ is_flush a) acts.
Proof.
  apply (plans_never_flush demo_kernel_plan 64 64 0 0 (Plan_create demo_kernel_plan 0) demo_loaded_plan demo_resources
           [demo_device_plan] demo_gpu0 0 (mkJTb 0 [mkJTbChannel "port" None [0]] (Some [("port"%string, [0])]) demo_ops)).
  - vm_compute. reflexivity.
  - vm_compute. reflexivity.
  - vm_compute. reflexivity.
  - vm_compute. reflexivity.
  - exact demo_ops_ok.
  - vm_compute. reflexivity.
  - lia.
  - exact demo_ops_flush.
Defined.

(** ** Lemmas: the loops of a block *)

Lemma loop32_strided i step num : 0 <= i -> 0 < step -> num + step <= 2 ^ 32 -> loop32 i step num = strided i step num.
Proof.
  unfold loop32, strided. generalize (Z.to_nat num). intros fuel. revert i.
  induction fuel as [|fuel IH]; intros i Hi Hs Hn; simpl; [done|].
  destruct (Z.ltb_spec i num); [|done]. f_equal. rewrite u32_small, u64_small by lia. apply IH; lia.
Qed.

(** ** Lemmas: copies in pieces *)

Definition copies_of (l : list device_act) : list copy_act :=
  omap (fun a => match a with ACopy c => Some c | _ => None end) l.

Definition block_acts (k : kernel) (f : Z -> list device_act) : list device_act :=
  concat (map f (threads (k_blockDim k))).

Lemma elem_of_omap_concat {A B C} (h : B -> option C) (f : A -> list B) l c :
  c ∈ omap h (concat (map f l)) <-> exists x, x ∈ l /\ c ∈ omap h (f x).
Proof.
  rewrite list_elem_of_omap. split.
  - intros (b & Hb & E). apply list_elem_of_In, in_concat in Hb as (l' & (x & <- & Hx)%in_map_iff & Hb).
    exists x. split; [by apply list_elem_of_In|]. apply list_elem_of_omap. exists b. by rewrite list_elem_of_In.
  - intros (x & Hx & (b & Hb & E)%list_elem_of_omap). exists b. split; [|done]. apply list_elem_of_In, in_concat.
    exists (f x). rewrite in_map_iff. setoid_rewrite <- list_elem_of_In. eauto.
Qed.

Lemma copies_of_copy_acts k dst src size tid :
  copies_of (copy_acts k dst src size tid) = default [] (copy 16 true dst src size tid (k_blockDim k)).
Proof. unfold copies_of, copy_acts. induction (default [] _) as [|c l IH]; [done|]. simpl. f_equal. exact IH. Qed.

(** Addresses of a single-buffer operation. *)
Definition input_addr (k : kernel) (op : Operation) (i : Z) : Z :=
  getBuffer k (ref_type (inputBufferRefs op) i) + arr (inputOffsets op) i.
Definition output_addr (k : kernel) (op : Operation) (i : Z) : Z :=
  getBuffer k (ref_type (outputBufferRefs op) i) + arr (outputOffsets op) i.

Lemma handleCopy_copies k op offset us tid : k_reuse k = false ->
  0 <= arr (inputOffsets op) 0 -> 0 <= arr (outputOffsets op) 0 -> 0 <= offset ->
  arr (inputOffsets op) 0 + offset < 2 ^ 32 -> arr (outputOffsets op) 0 + offset < 2 ^ 32 ->
  let size := piece (arr (inputBufferSizes op) 0) offset us in
  copies_of (handleCopy k op offset us tid) =
  if size <=? 0 then [] else
  copyHelper 16 true (output_addr k op 0 + offset) (input_addr k op 0 + offset) size tid (k_blockDim k).
Proof.
  intros Hr Hi Ho H0 Hi2 Ho2 size. unfold handleCopy. fold size. destruct (size <=? 0); [done|].
  rewrite copies_of_copy_acts. unfold getOffset. rewrite Hr. simpl andb. cbv iota.
  rewrite !u32_small by lia. unfold input_addr, output_addr. simpl. f_equal; lia.
Qed.

Lemma aligned_lead a : 0 <= a < 2 ^ 63 -> a mod 16 = 0 -> sizeof_int * nFirstInt 16 a = 0.
Proof.
  intros Ha Hm. destruct (align_up_spec 16 a) as (_ & B & M); [by right; right|done|by Z.to_euclidean_division_equations; lia|].
  Z.to_euclidean_division_equations. lia.
Qed.

Section pipeline.
Context (k : kernel) (o op : Operation).
Let n := k_blockDim k.
Let N := u16 (ExecutionPlan.nIterations o).
Let U := unitSize o.
Let S := arr (inputBufferSizes op) 0.
Let D := output_addr k op 0.
Let A := input_addr k op 0.

Record pipeline_ok : Prop := {
  po_pipe : op_type o = PIPELINE; po_copy : op_type op = COPY; po_reuse : k_reuse k = false;
  po_threads : 0 < n < 2 ^ 32;
  po_unit : 0 < U < 2 ^ 32 /\ U mod 16 = 0;
  po_pieces : 0 <= S /\ S mod 4 = 0 /\ (N - 1) * U <= S <= N * U;
  po_offsets : 0 <= arr (inputOffsets op) 0 /\ 0 <= arr (outputOffsets op) 0 /\
    arr (inputOffsets op) 0 + N * U < 2 ^ 32 /\ arr (outputOffsets op) 0 + N * U < 2 ^ 32;
  po_addrs : 0 <= D < 2 ^ 62 /\ 0 <= A < 2 ^ 62 /\ D mod 16 = 0 /\ A mod 16 = 0
}.

Lemma pipeline_offset i : pipeline_ok -> 0 <= i < N -> u32 (i * U) = i * U /\ 0 <= i * U <= S /\
  piece S (i * U) U = Z.min (S - i * U) U.
Proof.
  intros [] Hi. assert (0 <= i * U <= S) by nia. assert (S < 2 ^ 32) by lia.
  unfold piece. rewrite !u32_small by nia. done.
Qed.

(** The copies of the block are those of the pieces. *)
Lemma pipeline_copies c : pipeline_ok ->
  c ∈ copies_of (block_acts k (fun t => group_acts k t [o; op])) <->
  exists i, 0 <= i < N /\ Z.min (S - i * U) U <> 0 /\
    c ∈ copy_all 16 (D + i * U) (A + i * U) (Z.min (S - i * U) U) n.
Proof.
  intros Hok. pose proof Hok as []. unfold block_acts, copies_of. rewrite elem_of_omap_concat. unfold group_acts.
  rewrite bool_decide_true by done. setoid_rewrite elem_of_omap_concat. pose proof (u16_lt (ExecutionPlan.nIterations o)).
  fold N in H. assert (Hrun : forall t i, 0 <= i < N ->
    c ∈ omap (fun a => match a with ACopy c => Some c | _ => None end)
      (concat (map (fun o' => run_operation k o' (u32 (i * unitSize o)) (unitSize o) t) [op])) <->
    Z.min (S - i * U) U <> 0 /\ c ∈ copyHelper 16 true (D + i * U) (A + i * U) (Z.min (S - i * U) U) t n).
  { intros t i Hi. destruct (pipeline_offset i Hok Hi) as (Eo & Hb & Ep). simpl. rewrite app_nil_r.
    unfold run_operation. rewrite po_copy0. change (omap _ (handleCopy k op ?x ?y t)) with (copies_of (handleCopy k op x y t)).
    fold U. rewrite Eo. rewrite handleCopy_copies by (done || nia). fold S D A n. rewrite Ep.
    destruct (Z.leb_spec (Z.min (S - i * U) U) 0); [|naive_solver lia]. rewrite elem_of_nil. lia. }
  split.
  - intros (t & Ht & i & Hi & Hc). apply elem_of_threads in Ht; [|unfold n in *; lia].
    apply list_elem_of_fmap in Hi as (j & -> & Hj%elem_of_seq). exists (Z.of_nat j).
    apply Hrun in Hc as [Hm Hc]; [|fold N in Hj; lia]. split; [fold N in Hj; lia|]. split; [done|].
    apply elem_of_copy_all; [by right; right|lia|]. eauto.
  - intros (i & Hi & Hm & Hc). apply elem_of_copy_all in Hc as (t & Ht & Hc); [|by right; right|lia].
    exists t. split; [apply elem_of_threads; unfold n in *; lia|]. exists i. split.
    + apply list_elem_of_fmap. exists (Z.to_nat i). split; [lia|]. apply elem_of_seq. fold N. lia.
    + by apply Hrun.
Qed.

Lemma pipeline_shift i : pipeline_ok -> 0 <= i < N ->
  align_up 16 (A + i * U) - align_up 16 (D + i * U) = A - D.
Proof.
  intros [] Hi. destruct po_unit0 as [Hu Hu16]. destruct po_addrs0 as (Hd & Ha & Hd16 & Ha16).
  assert (Hmul : (i * U) mod 16 = 0) by (rewrite Zmult_mod, Hu16, Z.mul_0_r; done). assert (0 <= i * U <= S) by nia.
  rewrite (same_lead 16 (D + i * U) (A + i * U)); try lia; try (by right; right);
    Z.to_euclidean_division_equations; lia.
Qed.

Lemma pipeline_covers x : pipeline_ok ->
  (exists c, c ∈ copies_of (block_acts k (fun t => group_acts k t [o; op])) /\ writes c x) <-> D <= x < D + S.
Proof.
  intros Hok. pose proof Hok as []. setoid_rewrite (pipeline_copies _ Hok).
  assert (Hp : forall i, 0 <= i < N -> 0 <= i * U <= S) by (intros; nia).
  assert (Hcov : forall i, 0 <= i < N -> (exists c, c ∈ copy_all 16 (D + i * U) (A + i * U) (Z.min (S - i * U) U) n /\ writes c x) <->
    D + i * U <= x < D + i * U + Z.min (S - i * U) U).
  { intros i Hi. specialize (Hp i Hi). destruct po_unit0 as [Hu Hu16].
    assert (Hmul : (i * U) mod 16 = 0) by (rewrite Zmult_mod, Hu16, Z.mul_0_r; done).
    assert (Hd16 : (D + i * U) mod 16 = 0) by (rewrite Z.add_mod, Hmul by lia; destruct po_addrs0 as (_ & _ & -> & _); done).
    apply helper_covers; try (by right; right); try lia.
    - Z.to_euclidean_division_equations. lia.
    - destruct po_pieces0 as (_ & H4 & _). Z.to_euclidean_division_equations. lia.
    - rewrite aligned_lead by (done || lia). lia. }
  split.
  - intros (c & (i & Hi & Hm & Hc) & Hw). destruct (proj1 (Hcov i Hi)) as [? ?]; [eauto|]. specialize (Hp i Hi). lia.
  - intros Hx. set (i := (x - D) / U). pose proof (Z.div_mod (x - D) U ltac:(lia)) as E.
    pose proof (Z.mod_pos_bound (x - D) U ltac:(lia)). fold i in E.
    assert (Hi : 0 <= i < N) by (split; [apply Z.div_pos; lia|apply Z.div_lt_upper_bound; lia]).
    destruct (proj2 (Hcov i Hi) ltac:(lia)) as (c & Hc & Hw). exists c. split; [|done]. exists i. split; [done|]. split; [lia|done].
Qed.
End pipeline.

(** C30: a copy in a pipeline.  When buffers and pieces are aligned to 16 bytes, the iterations of the
    plan are those the size needs and resources are not reused, the threads of a block, in any interleaving and without
    waiting for each other between pieces, make the output range equal to the input
    range and change nothing else; a last piece that is short or empty is right too. *)
Theorem pipeline_copies_exactly (k : kernel) (o op : Operation) (acts : list copy_act) (m : memory) :
  let D := output_addr k op 0 in
  let A := input_addr k op 0 in
  let S := arr (inputBufferSizes op) 0 in
  pipeline_ok k o op -> D + S <= A \/ A + S <= D ->
  acts ≡ₚ copies_of (block_acts k (fun t => group_acts k t [o; op])) ->
  forall x, byte (run_acts m acts) x = if decide (D <= x < D + S) then byte m (A + (x - D)) else byte m x.
Proof.
  intros D A S Hok Hdis Hp x.
  assert (Hcov : forall y, (exists c, c ∈ acts /\ writes c y) <-> D <= y < D + S).
  { intros y. setoid_rewrite Hp. by apply pipeline_covers. }
  destruct (run_acts_byte (A - D) acts m x) as [Hin Hout].
  - intros c Hc. rewrite Hp in Hc. apply pipeline_copies in Hc as (i & Hi & Hm & Hc); [|done].
    pose proof (pipeline_shift k o op i Hok Hi) as Ha.
    apply copy_all_delta in Hc; [lia|by right; right|destruct Hok; lia|lia].
  - intros c c' y Hc Hc' Hy Hy'. pose proof (proj1 (Hcov y) (ex_intro _ c (conj Hc Hy))).
    pose proof (proj1 (Hcov _) (ex_intro _ c' (conj Hc' Hy'))). lia.
  - destruct (decide (D <= x < D + S)) as [Hx|Hx].
    + rewrite Hin by (by apply Hcov). f_equal. lia.
    + apply Hout. intros c Hc Hw. apply Hx, Hcov. eauto.
Qed.

Definition demo_op (type : OperationType) (ins outs : list (option BufferRef)) (ioffs ooffs sizes : list Z) (us iters nops : Z)
    : Operation :=
  mkOperation type CMemory ins outs None None [0] ioffs ooffs sizes sizes us iters nops 0 0 [].
Definition demo_pipe : Operation := demo_op PIPELINE [] [] [] [] [] 16 3 1.
Definition demo_copy_op : Operation :=
  demo_op COPY [Some (RefType BInput)] [Some (RefType BOutput)] [16] [0] [40] 0 0 0.
Definition demo_block : kernel :=
  mkKernel 0 1024 2048 0 0 demo_empty_plan 10 Int32 Packets.LL16Packet false 2 (fun _ => 0).
Definition demo_mem (a n : Z) : memory :=
  list_to_map (imap (fun i b => (a + Z.of_nat i, b mod 256)) (map Z.of_nat (seq 0 (Z.to_nat n)))).

Lemma pipeline_copies_exactly_witness :
  byte (run_acts (demo_mem 0 80) (copies_of (block_acts demo_block (fun t => group_acts demo_block t [demo_pipe; demo_copy_op]))))
    1060 = 52.
Proof.
  rewrite (pipeline_copies_exactly demo_block demo_pipe demo_copy_op).
  - vm_compute. reflexivity.
  - split; vm_compute; intuition (discriminate || congruence || auto).
  - right. vm_compute. discriminate.
  - reflexivity.
Defined.

(** An operation that has ended before this piece is not skipped: the remaining size wraps
    around, and a whole unit beyond its end is transferred. *)
Lemma piece_past_end size offset us : 0 <= size < offset -> offset < 2 ^ 32 -> us <= 2 ^ 32 - (offset - size) ->
  piece size offset us = us.
Proof.
  intros Hs Ho Hu. unfold piece. assert (u32 (size - offset) = 2 ^ 32 - (offset - size)) as ->; [|lia].
  unfold u32, wrap. symmetry. apply Z.mod_unique with (-1); lia.
Qed.

(** ** Lemmas: reductions *)

Lemma mem_read_byte m a n : mem_read m a n = map (fun j => byte m (a + Z.of_nat j)) (seq 0 n).
Proof.
  revert a. induction n as [|n IH]; intros a; simpl; [done|]. rewrite Z.add_0_r. f_equal.
  rewrite IH, <- seq_shift, map_map. apply map_ext. intros j. f_equal. lia.
Qed.

Lemma mem_read_ext m m' a a' n : (forall j, 0 <= j < Z.of_nat n -> byte m (a + j) = byte m' (a' + j)) ->
  mem_read m a n = mem_read m' a' n.
Proof.
  intros H. rewrite !mem_read_byte. apply map_ext_in. intros j Hj%in_seq. apply H. lia.
Qed.

Lemma byte_write m a bs x : byte (mem_write m a bs) x =
  if decide (a <= x < a + Z.of_nat (length bs)) then nth (Z.to_nat (x - a)) bs 0 else byte m x.
Proof.
  revert m a. induction bs as [|b bs IH]; intros m a; simpl.
  - by rewrite decide_False by lia.
  - rewrite IH. destruct (decide (x = a)) as [->|Hne].
    + rewrite decide_False, decide_True, Z.sub_diag by lia. unfold byte. by rewrite lookup_insert_eq.
    + destruct (decide (a + 1 <= x < a + 1 + Z.of_nat (length bs))) as [Hx|Hx].
      * rewrite decide_True by lia. replace (Z.to_nat (x - a)) with (S (Z.to_nat (x - (a + 1)))) by lia. done.
      * rewrite decide_False by lia. unfold byte. by rewrite lookup_insert_ne.
Qed.

(** Storing the same bytes at disjoint places. *)
Lemma byte_writes (v : list Z) ds : forall m x,
  (forall d, d ∈ ds -> ~ (d <= x < d + Z.of_nat (length v))) ->
  byte (foldl (fun m d => mem_write m d v) m ds) x = byte m x.
Proof.
  induction ds as [|d ds IH]; intros m x H; simpl; [done|]. rewrite IH by (intros; apply H; set_solver).
  rewrite byte_write. rewrite decide_False; [done|]. apply H. set_solver.
Qed.

Definition apart (len a b : Z) : Prop := a + len <= b \/ b + len <= a.

Lemma read_writes (v : list Z) ds m d :
  d ∈ ds -> (forall d', d' ∈ ds -> d' = d \/ apart (Z.of_nat (length v)) d d') ->
  mem_read (foldl (fun m d => mem_write m d v) m ds) d (length v) = v.
Proof.
  revert m. induction ds as [|d0 ds IH]; intros m Hd Hap; simpl; [by apply elem_of_nil in Hd|].
  destruct (decide (d ∈ ds)) as [Hin|Hout].
  - apply IH; [done|]. intros; apply Hap; set_solver.
  - apply elem_of_cons in Hd as [->|]; [|done]. rewrite <- (mem_read_write m d0 v) at 3. apply mem_read_ext.
    intros j Hj. apply byte_writes. intros d' Hd'. destruct (Hap d' ltac:(set_solver)) as [->|Ha]; [done|].
    unfold apart in Ha. lia.
Qed.

Section reduces.
Context `{I : Intrinsics} `{C : HalfConv} `{F : FloatOps} (p : platform) (T : elem_type).

(** The places one action reads and writes. *)
Definition slots (len : nat) (l : list Z) (x : Z) : Prop := exists a, a ∈ l /\ a <= x < a + Z.of_nat len.

Lemma ra_value_ext m m' a : (forall x, slots (ra_len a) (ra_srcs a) x -> byte m x = byte m' x) ->
  ra_value p T m a = ra_value p T m' a.
Proof.
  intros H. unfold ra_value. destruct (ra_srcs a) as [|s srcs]; [done|].
  assert (R : forall s', s' ∈ s :: srcs -> mem_read m s' (ra_len a) = mem_read m' s' (ra_len a)).
  { intros s' Hs. apply mem_read_ext. intros j Hj. apply H. exists s'. split; [done|lia]. }
  rewrite R by set_solver. assert (R' : forall s', s' ∈ srcs -> mem_read m s' (ra_len a) = mem_read m' s' (ra_len a))
    by (intros; apply R; set_solver). clear R H.
  generalize (Some (mem_read m' s (ra_len a))). induction srcs as [|s1 srcs IH]; intros acc; simpl; [done|].
  rewrite R' by set_solver. apply IH. intros; apply R'; set_solver.
Qed.

(** Actions that leave each other's sources and destinations alone can run in any
    order: each computes its result from the memory at the start. *)
Lemma run_reduces_exact (l : list reduce_act) (v : reduce_act -> list Z) : forall m,
  (forall a, a ∈ l -> ra_value p T m a = Some (v a) /\ length (v a) = ra_len a) ->
  (forall a d d', a ∈ l -> d ∈ ra_dsts a -> d' ∈ ra_dsts a -> d' = d \/ apart (Z.of_nat (ra_len a)) d d') ->
  (forall i j a b x, l !! i = Some a -> l !! j = Some b -> i <> j -> slots (ra_len a) (ra_dsts a) x ->
    ~ slots (ra_len b) (ra_dsts b) x /\ ~ slots (ra_len b) (ra_srcs b) x) ->
  exists m', run_reduces p T m l = Some m' /\
    (forall a d, a ∈ l -> d ∈ ra_dsts a -> mem_read m' d (ra_len a) = v a) /\
    (forall x, (forall a, a ∈ l -> ~ slots (ra_len a) (ra_dsts a) x) -> byte m' x = byte m x).
Proof.
  induction l as [|a l IH]; intros m Hv Hd Hs; simpl.
  { exists m. split; [done|]. split; [by intros a d ?%elem_of_nil|done]. }
  destruct (Hv a ltac:(set_solver)) as [Ev El]. unfold run_reduce. rewrite Ev. cbn [mbind option_bind].
  set (m1 := foldl (fun m d => mem_write m d (v a)) m (ra_dsts a)).
  assert (Hother : forall b x, b ∈ l -> slots (ra_len b) (ra_dsts b) x \/ slots (ra_len b) (ra_srcs b) x ->
    byte m1 x = byte m x).
  { intros b x (j & Hj)%list_elem_of_lookup_1 Hx. apply byte_writes. rewrite El. intros d Hdin Hr.
    destruct (Hs 0%nat (S j) a b x) as [N1 N2]; [done|done|done|by exists d|tauto]. }
  destruct (IH m1) as (m' & Er & Hr & Hk).
  - intros b Hb. destruct (Hv b ltac:(set_solver)) as [Eb Lb]. split; [|done]. rewrite <- Eb. apply ra_value_ext. eauto.
  - intros b d d' Hb. apply Hd. set_solver.
  - intros i j b b' x Hi Hj Hne. apply (Hs (S i) (S j)); [done|done|lia].
  - exists m'. split; [done|]. split.
    + intros b d Hb Hdb. apply elem_of_cons in Hb as [->|Hb]; [|eauto].
      rewrite <- El. transitivity (mem_read m1 d (length (v a))).
      * apply mem_read_ext. intros j Hj. apply Hk. intros b (i & Hi)%list_elem_of_lookup_1 Hx.
        destruct (Hs (S i) 0%nat b a (d + j)) as [N1 _]; [done|done|done|done|]. apply N1. exists d. split; [done|lia].
      * apply read_writes; [done|]. intros d' Hd'. rewrite El. apply Hd; set_solver.
    + intros x Hx. rewrite Hk by (intros b Hb; apply Hx; set_solver). apply byte_writes. intros d Hdin Hin. rewrite El in Hin.
      apply (Hx a ltac:(set_solver)). exists d. done.
Qed.
End reduces.

(** ** Lemmas: the reducing handlers *)

Definition reduces_of (l : list device_act) : list reduce_act :=
  omap (fun a => match a with AReduce r => Some r | _ => None end) l.

Definition reads_remote (t : OperationType) : bool := bool_decide (t = READ_REDUCE \/ t = READ_REDUCE_SEND).
Definition sends (t : OperationType) : bool := bool_decide (t = REDUCE_SEND \/ t = READ_REDUCE_SEND).
Definition remote_addr (k : kernel) (refs : list (option BufferRef)) (offsets : list Z) (i : Z) : Z :=
  remotePtr k (ref_id refs i) + arr offsets i.

(** Numbers 1 to [n] - 1, the entries behind the first. *)
Definition behind_first (n : nat) : list Z := map (fun i => Z.of_nat i + 1) (seq 0 (n - 1)).

(** Where a reduction reads and writes: its own buffers first. *)
Definition reduce_srcs (k : kernel) (op : Operation) : list Z :=
  input_addr k op 0 ::
  map (fun i => if reads_remote (op_type op) then remote_addr k (inputBufferRefs op) (inputOffsets op) i
                else input_addr k op i) (behind_first (length (inputOffsets op))).
Definition reduce_dsts (k : kernel) (op : Operation) : list Z :=
  output_addr k op 0 ::
  if sends (op_type op)
  then map (remote_addr k (outputBufferRefs op) (outputOffsets op)) (behind_first (length (outputOffsets op))) else [].

(** The [idx]-th 16-byte vector of the reduction. *)
Definition reduce_vector (k : kernel) (op : Operation) (idx : Z) : reduce_act :=
  mkReduce true 16 (map (fun a => a + idx * 16) (reduce_srcs k op)) (map (fun a => a + idx * 16) (reduce_dsts k op)).

Record reduce_ok (k : kernel) (op : Operation) : Prop := {
  ro_type : op_type op ∈ [REDUCE; REDUCE_SEND; READ_REDUCE; READ_REDUCE_SEND];
  ro_threads : 0 < k_blockDim k < 2 ^ 31;
  ro_size : 0 <= arr (inputBufferSizes op) 0 < 2 ^ 32 /\ arr (inputBufferSizes op) 0 mod 16 = 0;
  ro_counts : (0 < length (inputOffsets op) < 256)%nat /\ (0 < length (outputOffsets op) < 256)%nat;
  ro_offsets : Forall (fun x => 0 <= x < 2 ^ 32 /\ x mod 16 = 0) (inputOffsets op ++ outputOffsets op);
  ro_room : arr (inputOffsets op) 0 + arr (inputBufferSizes op) 0 + k_blockDim k <= 2 ^ 32
}.

Lemma arr_aligned l l' i : Forall (fun x => 0 <= x < 2 ^ 32 /\ x mod 16 = 0) (l ++ l') ->
  (0 <= arr l i < 2 ^ 32 /\ arr l i mod 16 = 0) /\ (0 <= arr l' i < 2 ^ 32 /\ arr l' i mod 16 = 0).
Proof.
  intros [H H']%Forall_app. assert (G : forall l, Forall (fun x => 0 <= x < 2 ^ 32 /\ x mod 16 = 0) l ->
    0 <= arr l i < 2 ^ 32 /\ arr l i mod 16 = 0); [|split; by apply G].
  intros l0 H0. unfold arr. destruct (nth_in_or_default (Z.to_nat i) l0 0) as [Hin| ->]; [|done].
  rewrite Forall_forall in H0. by apply H0, list_elem_of_In.
Qed.

Lemma getOffset_0 k b : getOffset k b 0 = 0.
Proof. unfold getOffset. case_match; [by rewrite Zmod_0_l|done]. Qed.

Lemma aligned_base x : 0 <= x < 2 ^ 32 -> x mod 16 = 0 -> u32 (x + 0) / 16 * 16 = x.
Proof. intros. rewrite Z.add_0_r, u32_small by lia. Z.to_euclidean_division_equations. lia. Qed.

Lemma remote_base_0 k refs offsets i : 0 <= arr offsets i < 2 ^ 32 -> arr offsets i mod 16 = 0 ->
  remote_base k refs offsets i 0 16 = remote_addr k refs offsets i.
Proof. intros. unfold remote_base, remote_addr. rewrite getOffset_0. by rewrite aligned_base. Qed.

Lemma reduces_of_app l l' : reduces_of (l ++ l') = reduces_of l ++ reduces_of l'.
Proof. apply omap_app. Qed.

Lemma reduces_of_loop vector size srcs dsts l :
  reduces_of (map (reduce_iteration vector size srcs dsts) l) =
  map (fun idx => mkReduce vector (Z.to_nat size) (map (fun a => a + idx * size) srcs) (map (fun a => a + idx * size) dsts)) l.
Proof. unfold reduces_of, reduce_iteration. induction l as [|i l IH]; [done|]. simpl. f_equal. exact IH. Qed.

Lemma loop32_empty i step num : num <= i -> loop32 i step num = [].
Proof. intros H. unfold loop32. destruct (Z.to_nat num); [done|]. simpl. by rewrite (proj2 (Z.ltb_ge _ _)). Qed.

Lemma behind_first_loop n : (0 < n < 256)%nat -> map (fun i => i + 1) (loop32 0 1 (Z.of_nat n - 1)) = behind_first n.
Proof.
  intros Hn. rewrite loop32_seq by lia. unfold behind_first. rewrite map_map.
  by replace (Z.to_nat (Z.of_nat n - 1)) with (n - 1)%nat by lia.
Qed.

(** The vectors of one thread, and nothing behind them. *)
Section whole_vectors.
Context (k : kernel) (op : Operation) (Hok : reduce_ok k op) (tid : Z) (Ht : 0 <= tid < k_blockDim k).
Let S := arr (inputBufferSizes op) 0.

Lemma whole_size : piece S 0 UINT32_MAX = S /\ S / 16 * 16 = S /\ 0 <= S / 16 /\ S / 16 + k_blockDim k <= 2 ^ 32.
Proof using Hok.
  clear tid Ht. destruct Hok. fold S in ro_size0. destruct ro_size0 as [HS HS16].
  split; [unfold piece, UINT32_MAX; rewrite Z.sub_0_r, u32_small; lia|]. Z.to_euclidean_division_equations. lia.
Qed.

Lemma rest_empty : let sz := sizeof (k_type k) in
  loop32 (u32 (tid + u32 (arr (inputOffsets op) 0 + S) / sz)) (k_blockDim k) (u32 (arr (inputOffsets op) 0 + S) / sz) = [].
Proof.
  intros sz. destruct Hok. fold S in ro_size0, ro_room0. destruct (arr_aligned _ _ 0 ro_offsets0) as [[A _] _].
  apply loop32_empty. assert (1 <= sz) by (unfold sz; destruct (k_type k); simpl; lia).
  rewrite (u32_small (arr _ _ + S)) by lia. set (x := arr (inputOffsets op) 0 + S) in *.
  assert (0 <= x / sz <= x) by (split; [apply Z.div_pos; lia|apply Z.div_le_upper_bound; nia]).
  rewrite u32_small; lia.
Qed.

Lemma vectors_loop srcs dsts srcs' dsts' : srcs = srcs' -> dsts = dsts' ->
  map (fun idx => mkReduce true (Z.to_nat sizeof_int4) (map (fun a => a + idx * sizeof_int4) srcs)
        (map (fun a => a + idx * sizeof_int4) dsts)) (loop32 tid (k_blockDim k) (S / sizeof_int4)) =
  map (fun idx => mkReduce true 16 (map (fun a => a + idx * 16) srcs') (map (fun a => a + idx * 16) dsts'))
    (strided tid (k_blockDim k) (S / 16)).
Proof.
  intros -> ->. destruct whole_size as (_ & _ & H1 & H2). destruct Hok.
  rewrite loop32_strided by (unfold sizeof_int4; lia). done.
Qed.

Lemma first_addr : getBuffer k (ref_type (inputBufferRefs op) 0) +
    u32 (arr (inputOffsets op) 0 + getOffset k (ref_type (inputBufferRefs op) 0) 0) / sizeof_int4 * sizeof_int4 =
    input_addr k op 0 /\
  getBuffer k (ref_type (outputBufferRefs op) 0) +
    u32 (arr (outputOffsets op) 0 + getOffset k (ref_type (outputBufferRefs op) 0) 0) / sizeof_int4 * sizeof_int4 =
    output_addr k op 0.
Proof.
  destruct Hok. destruct (arr_aligned _ _ 0 ro_offsets0) as [[? ?] [? ?]].
  by rewrite !getOffset_0, !aligned_base.
Qed.

Lemma other_addrs (f g : Z -> Z) (l : list Z) : (0 < length l < 256)%nat -> (forall i, f (i + 1) = g (i + 1)) ->
  map (fun i => f (i + 1)) (loop32 0 1 (Z.of_nat (length l) - 1)) = map g (behind_first (length l)).
Proof.
  intros Hl Hf. rewrite <- behind_first_loop by done. rewrite map_map. apply map_ext. auto.
Qed.

Lemma remotes_0 refs offsets : offsets = inputOffsets op \/ offsets = outputOffsets op -> (0 < length offsets < 256)%nat ->
  map (fun i => remote_base k refs offsets (i + 1) 0 sizeof_int4) (loop32 0 1 (Z.of_nat (length offsets) - 1)) =
  map (remote_addr k refs offsets) (behind_first (length offsets)).
Proof.
  intros Ho Hl. apply (other_addrs (fun i => remote_base k refs offsets i 0 sizeof_int4)); [done|]. intros i. destruct Hok.
  destruct (arr_aligned _ _ (i + 1) ro_offsets0) as [[? ?] [? ?]]. destruct Ho as [-> | ->]; by apply remote_base_0.
Qed.

Lemma handleReduceSend_whole (send : bool) :
  reduces_of (handleReduceSend k send op 0 UINT32_MAX tid) =
  map (fun idx => mkReduce true 16
        (map (fun a => a + idx * 16) (input_addr k op 0 :: map (input_addr k op) (behind_first (length (inputOffsets op)))))
        (map (fun a => a + idx * 16) (output_addr k op 0 ::
          if send then map (remote_addr k (outputBufferRefs op) (outputOffsets op)) (behind_first (length (outputOffsets op)))
          else []))) (strided tid (k_blockDim k) (S / 16)).
Proof.
  destruct whole_size as (Ep & E16 & _). destruct Hok. destruct first_addr as [F1 F2].
  unfold handleReduceSend. cbv zeta. fold S. rewrite Ep. change (S / sizeof_int4 * sizeof_int4) with (S / 16 * 16). rewrite E16.
  rewrite reduces_of_app, !reduces_of_loop, F1, F2. rewrite (getOffset_0 k (ref_type (inputBufferRefs op) 0)).
  rewrite (Z.add_0_r (arr (inputOffsets op) 0)), (u32_small (arr (inputOffsets op) 0)) by (apply (arr_aligned _ _ 0 ro_offsets0)).
  pose proof rest_empty as R. cbv zeta in R. rewrite R, app_nil_r.
  apply vectors_loop; f_equal.
  - unfold nInputs. apply (other_addrs (fun i => getBuffer k (ref_type (inputBufferRefs op) i) +
      u32 (arr (inputOffsets op) i + getOffset k (ref_type (outputBufferRefs op) i) 0) / sizeof_int4 * sizeof_int4)); [tauto|].
    intros i. destruct (arr_aligned _ _ (i + 1) ro_offsets0) as [[? ?] _]. by rewrite getOffset_0, aligned_base.
  - destruct send; [|done]. apply remotes_0; [by right|tauto].
Qed.

Lemma handleReadReduceSend_whole (send : bool) :
  reduces_of (handleReadReduceSend k send op 0 UINT32_MAX tid) =
  map (fun idx => mkReduce true 16
        (map (fun a => a + idx * 16) (input_addr k op 0 ::
          map (remote_addr k (inputBufferRefs op) (inputOffsets op)) (behind_first (length (inputOffsets op)))))
        (map (fun a => a + idx * 16) (output_addr k op 0 ::
          if send then map (remote_addr k (outputBufferRefs op) (outputOffsets op)) (behind_first (length (outputOffsets op)))
          else []))) (strided tid (k_blockDim k) (S / 16)).
Proof.
  destruct whole_size as (Ep & E16 & _). destruct Hok. destruct first_addr as [F1 F2].
  unfold handleReadReduceSend. cbv zeta. fold S. rewrite Ep. change (S / sizeof_int4 * sizeof_int4) with (S / 16 * 16).
  rewrite E16. rewrite reduces_of_app, !reduces_of_loop, F1, F2. rewrite (getOffset_0 k (ref_type (inputBufferRefs op) 0)).
  rewrite (Z.add_0_r (arr (inputOffsets op) 0)), (u32_small (arr (inputOffsets op) 0)) by (apply (arr_aligned _ _ 0 ro_offsets0)).
  pose proof rest_empty as R. cbv zeta in R. rewrite R, app_nil_r. unfold nInputs, nOutputs, u8.
  rewrite !(wrap_small 8) by (unfold is_u; lia).
  apply vectors_loop; f_equal.
  - apply remotes_0; [by left|tauto].
  - destruct send; [|done]. apply remotes_0; [by right|tauto].
Qed.

Lemma run_reduction :
  reduces_of (run_operation k op 0 UINT32_MAX tid) = map (reduce_vector k op) (strided tid (k_blockDim k) (S / 16)).
Proof.
  pose proof (ro_type _ _ Hok) as Hty. unfold run_operation, reduce_vector, reduce_srcs, reduce_dsts, reads_remote, sends.
  rewrite !elem_of_cons, elem_of_nil in Hty.
  destruct Hty as [-> |[-> |[-> |[-> |[]]]]]; rewrite ?handleReduceSend_whole, ?handleReadReduceSend_whole; done.
Qed.
End whole_vectors.

(** The block shares the vectors among its threads. *)
Lemma block_reduction k op : reduce_ok k op ->
  reduces_of (block_acts k (fun t => run_operation k op 0 UINT32_MAX t)) ≡ₚ
  map (reduce_vector k op) (map Z.of_nat (seq 0 (Z.to_nat (arr (inputBufferSizes op) 0 / 16)))).
Proof.
  intros Hok. pose proof (whole_size k op Hok) as (_ & _ & H0 & Hw). pose proof (ro_threads _ _ Hok) as Hn.
  rewrite <- (strided_partition (k_blockDim k)) by lia. unfold block_acts.
  assert (E : forall l, (forall t, t ∈ l -> 0 <= t < k_blockDim k) ->
    reduces_of (concat (map (fun t => run_operation k op 0 UINT32_MAX t) l)) =
    map (reduce_vector k op) (concat (map (fun t => strided t (k_blockDim k) (arr (inputBufferSizes op) 0 / 16)) l))).
  { induction l as [|t l IH]; intros Hl; simpl; [done|].
    rewrite reduces_of_app, map_app, run_reduction by (done || apply Hl; set_solver).
    f_equal. apply IH. intros; apply Hl; set_solver. }
  rewrite E; [done|]. intros t Ht. apply elem_of_threads in Ht; lia.
Qed.

(** Vectors of the same reduction. *)
Lemma dsts_apart k op S i d d' :
  (forall d d', d ∈ reduce_dsts k op -> d' ∈ reduce_dsts k op -> d' = d \/ apart S d d') -> 16 <= S ->
  d ∈ ra_dsts (reduce_vector k op i) -> d' ∈ ra_dsts (reduce_vector k op i) -> d' = d \/ apart 16 d d'.
Proof.
  intros H HS (e & -> & He)%list_elem_of_fmap (e' & -> & He')%list_elem_of_fmap.
  destruct (H e e' He He') as [->|Ha]; [by left|right]. unfold apart in *. lia.
Qed.

Lemma slots_apart k op S i j x :
  (forall d d', d ∈ reduce_dsts k op -> d' ∈ reduce_dsts k op -> d' = d \/ apart S d d') ->
  (forall s d, s ∈ reduce_srcs k op -> d ∈ reduce_dsts k op -> s = d \/ apart S s d) ->
  0 <= i -> i * 16 + 16 <= S -> 0 <= j -> j * 16 + 16 <= S -> i <> j -> slots 16 (ra_dsts (reduce_vector k op i)) x ->
  ~ slots 16 (ra_dsts (reduce_vector k op j)) x /\ ~ slots 16 (ra_srcs (reduce_vector k op j)) x.
Proof.
  intros Hdd Hsd ????? (y & (d & -> & Hd)%list_elem_of_fmap & Hy).
  split; intros (z & (e & -> & He)%list_elem_of_fmap & Hz).
  - destruct (Hdd d e Hd He) as [->|Ha]; unfold apart in *; lia.
  - destruct (Hsd e d He Hd) as [->|Ha]; unfold apart in *; lia.
Qed.

(** Different places of a permutation of distinct iterations are different iterations. *)
Lemma acts_distinct {A} (act : Z -> A) (acts : list A) N n1 n2 a b :
  acts ≡ₚ map act (map Z.of_nat (seq 0 (Z.to_nat N))) -> acts !! n1 = Some a -> acts !! n2 = Some b -> n1 <> n2 ->
  exists i j, 0 <= i < N /\ 0 <= j < N /\ i <> j /\ a = act i /\ b = act j.
Proof.
  intros Hp Ha Hb Hne. apply Permutation_inj in Hp as (Hlen & f & Hf & Hl).
  assert (G : forall n c, acts !! n = Some c -> exists i, c = act i /\ 0 <= i < N /\ i = Z.of_nat (f n)).
  { intros n c Hc. rewrite Hl in Hc. apply list_lookup_fmap_Some in Hc as (i & -> & Hi).
    apply list_lookup_fmap_Some in Hi as (j & -> & Hj). apply lookup_seq in Hj as [-> Hj]. exists (Z.of_nat (f n)).
    split; [done|lia]. }
  destruct (G _ _ Ha) as (i & -> & Hi & Ei). destruct (G _ _ Hb) as (j & -> & Hj & Ej). exists i, j.
  split_and!; try done; try lia. intros ->. apply Hne. apply Hf. lia.
Qed.

Section exact.
Context `{I : Intrinsics} `{C : HalfConv} `{F : FloatOps} (p : platform) (T : elem_type).

Lemma calVector_length a b r : calVector p T SUM a b = Some r -> length r = Nat.min (length a) (length b).
Proof.
  revert b r. induction a as [|x a IH]; intros [|y b] r H; simpl in H; try (by injection H as <-).
  destruct (calWord _ _ _ _ _) as [z|]; [|done]. cbn [mbind option_bind] in H.
  destruct (calVector p T SUM a b) as [zs|] eqn:E; [|done]. cbn [mbind option_bind] in H. injection H as <-.
  simpl. by rewrite (IH _ _ E).
Qed.

Lemma to_words_16 l : length l = 16%nat -> length (to_words l) = 4%nat.
Proof. intros H. do 17 (destruct l as [|? l]; try done). Qed.

Lemma of_words_length ws : length (of_words ws) = (4 * length ws)%nat.
Proof. unfold of_words. induction ws as [|w ws IH]; simpl; [done|]. simpl in IH. lia. Qed.

Lemma ra_value_length m a v : ra_vector a = true -> ra_len a = 16%nat -> ra_value p T m a = Some v -> length v = 16%nat.
Proof.
  intros Hv Hl. unfold ra_value. destruct (ra_srcs a) as [|s srcs]; [done|].
  assert (G : forall acc, (forall u, acc = Some u -> length u = 16%nat) -> forall v,
    foldl (fun acc s' => v ← acc; combine p T (ra_vector a) v (mem_read m s' (ra_len a))) acc srcs = Some v ->
    length v = 16%nat).
  { induction srcs as [|s' srcs IH]; intros acc Hacc w H; simpl in H; [by apply Hacc|]. apply (IH _) in H; [done|].
    intros u Hu. destruct acc as [x|]; [|done]. cbn [mbind option_bind] in Hu. unfold combine in Hu. rewrite Hv in Hu.
    destruct (calVector _ _ _ _ _) as [ws|] eqn:E; [|done]. cbn [mbind option_bind] in Hu. injection Hu as <-.
    apply calVector_length in E. rewrite of_words_length, E, !to_words_16; [done|by rewrite mem_read_len|by apply Hacc]. }
  intros H. eapply G; [|exact H]. intros u [= <-]. by rewrite mem_read_len.
Qed.

(** C10: reductions of whole vectors ([REDUCE], [REDUCE_SEND], [READ_REDUCE],
    [READ_REDUCE_SEND]).  When every source is the same range as a destination (in
    place) or apart from it, and sizes and offsets are multiples of 16, the block stores
    the combination of all sources, local or remote, in every destination, local or
    remote, and changes nothing else, in any interleaving of its threads. *)
Theorem reduce_exact (k : kernel) (op : Operation) (acts : list reduce_act) (m : memory) (v : Z -> list Z) :
  let S := arr (inputBufferSizes op) 0 in
  reduce_ok k op ->
  (forall d d', d ∈ reduce_dsts k op -> d' ∈ reduce_dsts k op -> d' = d \/ apart S d d') ->
  (forall s d, s ∈ reduce_srcs k op -> d ∈ reduce_dsts k op -> s = d \/ apart S s d) ->
  (forall i, 0 <= i < S / 16 -> ra_value p T m (reduce_vector k op i) = Some (v i)) ->
  acts ≡ₚ reduces_of (block_acts k (fun t => run_operation k op 0 UINT32_MAX t)) ->
  exists m', run_reduces p T m acts = Some m' /\
    (forall i d, 0 <= i < S / 16 -> d ∈ reduce_dsts k op -> mem_read m' (d + i * 16) 16 = v i) /\
    (forall x, (forall d, d ∈ reduce_dsts k op -> ~ (d <= x < d + S)) -> byte m' x = byte m x).
Proof.
  intros S Hok Hdd Hsd Hv Hp. rewrite block_reduction in Hp by done. fold S in Hp.
  pose proof (whole_size k op Hok) as (_ & E16 & H0 & Hw). fold S in E16, H0, Hw.
  set (act := reduce_vector k op) in *. set (N := S / 16) in *.
  assert (Hin : forall a, a ∈ acts <-> exists i, 0 <= i < N /\ a = act i).
  { intros a. rewrite Hp, list_elem_of_fmap. setoid_rewrite list_elem_of_fmap. setoid_rewrite elem_of_seq. split.
    - intros (y & -> & j & -> & Hj). exists (Z.of_nat j). split; [lia|done].
    - intros (i & Hi & ->). exists i. split; [done|]. exists (Z.to_nat i). lia. }
  destruct (run_reduces_exact p T acts (fun a => default [] (ra_value p T m a)) m) as (m' & Er & Hr & Hk).
  - intros a (i & Hi & ->)%Hin. rewrite Hv by done. simpl. split; [done|]. eapply ra_value_length; [| |by apply Hv]; done.
  - intros a d d' (i & Hi & ->)%Hin Hd Hd'. change (ra_len (act i)) with 16%nat.
    apply (dsts_apart k op S i); try done. lia.
  - intros n1 n2 a b x Ha Hb Hne.
    assert (exists i j, 0 <= i < N /\ 0 <= j < N /\ i <> j /\ a = act i /\ b = act j) as (i & j & Hi & Hj & Hij & -> & ->)
      by (eapply acts_distinct; eauto).
    apply slots_apart with S; try done; lia.
  - exists m'. split; [done|]. split.
    + intros i d Hi Hd. change 16%nat with (ra_len (act i)). rewrite (Hr (act i) (d + i * 16)).
      * by rewrite Hv.
      * apply Hin. eauto.
      * apply list_elem_of_fmap. eauto.
    + intros x Hx. apply Hk. intros a (i & Hi & ->)%Hin (y & (d & -> & Hd)%list_elem_of_fmap & Hy). apply (Hx d Hd).
      simpl in Hy. lia.
Qed.
End exact.

(** Rank 0 adds 8 integers of its input and its scratch buffer, and stores the sums in its
    output and at a peer. *)
Definition demo_float : FloatOps := Build_FloatOps (fun _ _ => 0) (fun _ _ => 0) (fun _ _ => 0) (fun _ _ => 0)
  (fun _ _ => 0) (fun _ _ => 0) (fun _ _ => 0) (fun _ _ => 0).
Definition demo_reduce_op (size : Z) : Operation :=
  demo_op REDUCE_SEND [Some (RefType BInput); Some (RefType BScratch)] [Some (RefType BOutput); Some (RefId 0)]
    [0; 16] [48; 0] [size; size] 0 0 0.
Definition demo_reduce_kernel : kernel :=
  mkKernel 0 1024 2048 0 0 (mkDPlan 1 0 1 [] [] [] [(4096, BScratch)] [] []) 10 Int32 Packets.LL16Packet false 2 (fun _ => 0).
Definition demo_sums (i : Z) : list Z :=
  match ra_value (I := demo_intrinsics) (C := demo_conv) (F := demo_float) Cuda Int32 (demo_mem 0 4000)
          (reduce_vector demo_reduce_kernel (demo_reduce_op 32) i) with Some v => v | None => [] end.

Lemma reduce_exact_witness :
  exists m', run_reduces (I := demo_intrinsics) (C := demo_conv) (F := demo_float) Cuda Int32 (demo_mem 0 4000)
      (reduces_of (block_acts demo_reduce_kernel (fun t => run_operation demo_reduce_kernel (demo_reduce_op 32) 0 UINT32_MAX t)))
      = Some m' /\
    (forall i d, 0 <= i < 2 -> d ∈ [1072; 4096] -> mem_read m' (d + i * 16) 16 = demo_sums i) /\
    (forall x, (forall d, d ∈ [1072; 4096] -> ~ (d <= x < d + 32)) -> byte m' x = byte (demo_mem 0 4000) x).
Proof.
  apply (reduce_exact (I := demo_intrinsics) (C := demo_conv) (F := demo_float) Cuda Int32 demo_reduce_kernel
           (demo_reduce_op 32)).
  - split.
    + apply list_elem_of_In. simpl. tauto.
    + vm_compute. intuition discriminate.
    + vm_compute. intuition discriminate.
    + split; split; vm_compute; lia.
    + change (inputOffsets _ ++ outputOffsets _) with [0; 16; 48; 0]. rewrite !Forall_cons. split_and!; try lia; done.
    + vm_compute. discriminate.
  - change (reduce_dsts demo_reduce_kernel (demo_reduce_op 32)) with [1072; 4096]. unfold apart.
    change (arr (inputBufferSizes (demo_reduce_op 32)) 0) with 32.
    intros d d' Hd Hd'. set_unfold in Hd. set_unfold in Hd'. lia.
  - change (reduce_dsts demo_reduce_kernel (demo_reduce_op 32)) with [1072; 4096].
    change (reduce_srcs demo_reduce_kernel (demo_reduce_op 32)) with [0; 2064]. unfold apart.
    change (arr (inputBufferSizes (demo_reduce_op 32)) 0) with 32.
    intros s d Hs Hd. set_unfold in Hs. set_unfold in Hd. lia.
  - intros i Hi. change (arr (inputBufferSizes (demo_reduce_op 32)) 0 / 16) with 2 in Hi.
    assert (i = 0 \/ i = 1) as [-> | ->] by lia; vm_compute; reflexivity.
  - reflexivity.
Defined.

(** ** Where the handlers miss their target *)

Lemma copies_of_concat (f : Z -> list copy_act) (g : Z -> list device_act) l :
  (forall t, copies_of (g t) = f t) -> copies_of (concat (map g l)) = concat (map f l).
Proof.
  intros H. induction l as [|t l IH]; simpl; [done|]. unfold copies_of in *. rewrite omap_app. by rewrite H, IH.
Qed.

(** [GET] mixes up its offsets.  The block copies to the local buffer at the offset that the
    plan gives for the source, from the remote buffer at the offset given for the
    destination, so a get is right only when the two offsets are the same. *)
Theorem get_swaps_offsets (k : kernel) (op : Operation) (acts : list copy_act) (m : memory) :
  let size := arr (inputBufferSizes op) 0 in
  let dst := getBuffer k (ref_type (outputBufferRefs op) 0) + arr (inputOffsets op) 0 in
  let src := remotePtr k (ref_id (inputBufferRefs op) 0) + arr (outputOffsets op) 0 in
  op_type op = GET -> length (inputOffsets op) = 1%nat -> 0 < k_blockDim k < 2 ^ 32 ->
  0 <= arr (inputOffsets op) 0 < 2 ^ 32 -> 0 <= arr (outputOffsets op) 0 < 2 ^ 32 ->
  0 <= size < 2 ^ 32 -> size mod 4 = 0 -> 0 <= dst < 2 ^ 62 -> 0 <= src < 2 ^ 62 -> dst mod 16 = 0 -> src mod 16 = 0 ->
  dst + size <= src \/ src + size <= dst ->
  acts ≡ₚ copies_of (block_acts k (fun t => run_operation k op 0 UINT32_MAX t)) ->
  forall x, byte (run_acts m acts) x = if decide (dst <= x < dst + size) then byte m (src + (x - dst)) else byte m x.
Proof.
  intros size dst src Hty Hlen Hn Hi Ho Hs Hs4 Hd Hsr Hd16 Hs16 Hdis Hp.
  apply (copy_exact 16 dst src size (k_blockDim k)); try done; try lia; try (by right; right).
  - Z.to_euclidean_division_equations. lia.
  - Z.to_euclidean_division_equations. lia.
  - Z.to_euclidean_division_equations. lia.
  - rewrite aligned_lead; lia.
  - rewrite Hp. unfold copy_all, block_acts. rewrite (copies_of_concat (fun t => default [] (copy 16 true dst src size t (k_blockDim k)))); [done|].
    intros t. unfold run_operation. rewrite Hty. unfold handleGet, nInputs. rewrite Hlen, loop32_seq by lia. simpl.
    rewrite app_nil_r, copies_of_copy_acts, !getOffset_0, !Z.add_0_r, !u32_small by done.
    unfold piece, UINT32_MAX. rewrite Z.sub_0_r, u32_small by done. change (Z.of_nat 0) with 0.
    fold size. by rewrite Z.min_l by lia.
Qed.

Definition demo_get_op : Operation := demo_op GET [Some (RefId 0)] [Some (RefType BOutput)] [16] [48] [32] 0 0 0.

Lemma get_swaps_offsets_witness :
  byte (run_acts (demo_mem 4000 400) (copies_of (block_acts demo_reduce_kernel
    (fun t => run_operation demo_reduce_kernel demo_get_op 0 UINT32_MAX t)))) 1040 = (4096 + 48 - 4000) mod 256.
Proof.
  rewrite (get_swaps_offsets demo_reduce_kernel demo_get_op);
    [vm_compute; reflexivity|reflexivity|reflexivity|..|reflexivity]; vm_compute; intuition discriminate.
Defined.

Lemma loop32_below x i step num : x ∈ loop32 i step num -> x < num.
Proof.
  unfold loop32. intros Hx. revert i Hx. induction (Z.to_nat num) as [|fuel IH]; intros i Hx; simpl in Hx; [by apply elem_of_nil in Hx|].
  destruct (Z.ltb_spec i num); [|by apply elem_of_nil in Hx]. apply elem_of_cons in Hx as [->|Hx]; [done|eauto].
Qed.

(** a reduction loses the end of a size that is not a multiple of 16.  The loop for the
    rest indexes the output by the source's position, so when the output lies further
    into its buffer than the source range, no thread writes the last bytes of the
    output. *)
Theorem reduce_rest_lost (k : kernel) (op : Operation) (t : Z) (a : reduce_act) (x : Z) :
  let size := arr (inputBufferSizes op) 0 in
  let src := arr (inputOffsets op) 0 in
  let dst := arr (outputOffsets op) 0 in
  op_type op = REDUCE -> 0 <= size -> 0 <= src -> src mod 16 = 0 -> dst mod 16 = 0 -> src + size <= dst ->
  dst + size < 2 ^ 32 -> 0 < k_blockDim k < 2 ^ 31 -> 0 <= t < k_blockDim k -> dst + k_blockDim k < 2 ^ 32 ->
  a ∈ reduces_of (run_operation k op 0 UINT32_MAX t) ->
  output_addr k op 0 + size / 16 * 16 <= x < output_addr k op 0 + size ->
  ~ slots (ra_len a) (ra_dsts a) x.
Proof.
  intros size src dst Hty H0 Hs Hs16 Hd16 Hsd Hw Hn Ht Hdn Ha Hx.
  assert (Ep : piece size 0 UINT32_MAX = size) by (unfold piece, UINT32_MAX; rewrite Z.sub_0_r, u32_small; lia).
  assert (E16 : dst / sizeof_int4 * sizeof_int4 = dst) by (unfold sizeof_int4; Z.to_euclidean_division_equations; lia).
  assert (Us : u32 (src + 0) = src) by (rewrite Z.add_0_r; apply u32_small; lia).
  assert (Ud : u32 (dst + 0) = dst) by (rewrite Z.add_0_r; apply u32_small; lia).
  unfold output_addr in Hx. fold dst in Hx. unfold run_operation in Ha. rewrite Hty in Ha.
  unfold handleReduceSend in Ha. cbv zeta in Ha. fold size src dst in Ha. rewrite reduces_of_app, !reduces_of_loop in Ha.
  rewrite Ep, !getOffset_0, Us, Ud in Ha. clear Ep Us Ud Hty.
  set (out := getBuffer k (ref_type (outputBufferRefs op) 0)) in *.
  rewrite E16 in Ha. apply elem_of_app in Ha as [Ha|Ha]; apply list_elem_of_fmap in Ha as (idx & -> & Hidx); simpl.
  - rewrite loop32_strided in Hidx by (unfold sizeof_int4; Z.to_euclidean_division_equations; lia).
    apply elem_of_strided in Hidx as [Hb _]; [|unfold sizeof_int4; Z.to_euclidean_division_equations; lia..].
    intros (y & Hy%list_elem_of_singleton & Hr). subst y. unfold sizeof_int4 in *. simpl in Hr. lia.
  - set (sz := sizeof (k_type k)) in *. assert (Hsz : 1 <= sz <= 4) by (unfold sz; destruct (k_type k); simpl; lia).
    apply loop32_below in Hidx. intros (y & Hy%list_elem_of_singleton & Hr). subst y.
    rewrite Z2Nat.id in Hr by lia. rewrite u32_small in Hidx by lia.
    pose proof (Z.mul_div_le (src + size) sz ltac:(lia)) as Hq. set (q := (src + size) / sz) in *.
    pose proof (Z.div_pos size 16 ltac:(lia) ltac:(lia)).
    assert ((idx + 1) * sz <= q * sz) by (apply Z.mul_le_mono_nonneg_r; lia). lia.
Qed.

(** The ninth integer is stored behind the eighth of the source, not of the output. *)
Definition demo_rest_op : Operation :=
  demo_op REDUCE [Some (RefType BInput); Some (RefType BScratch)] [Some (RefType BOutput)] [0; 16] [48] [36; 36] 0 0 0.
Definition demo_rest_act : reduce_act := mkReduce false 4 [32; 2096] [1056].

Lemma reduce_rest_lost_witness :
  demo_rest_act ∈ reduces_of (run_operation demo_reduce_kernel demo_rest_op 0 UINT32_MAX 0) /\
  output_addr demo_reduce_kernel demo_rest_op 0 + 32 = 1104 /\ ~ slots 4 [1056] 1104.
Proof.
  assert (Hin : demo_rest_act ∈ reduces_of (run_operation demo_reduce_kernel demo_rest_op 0 UINT32_MAX 0)).
  { apply list_elem_of_lookup_2 with 1%nat. vm_compute. reflexivity. }
  split; [exact Hin|]. split; [reflexivity|].
  apply (reduce_rest_lost demo_reduce_kernel demo_rest_op 0 demo_rest_act 1104); try exact Hin; try reflexivity;
    vm_compute; intuition discriminate.
Defined.
