(* ===== verification/KernelLaunch.v ===== *)
(** * Launching the executor's kernel

    Models the two versions of [ExecutionKernel::launchKernel], for CUDA
    (src/core/executor/execution_kernel.cu) and for HIP (include/execution_kernel.hpp), which
    choose the type the kernel is compiled for, and puts the executor ([Executor]), the
    kernel ([ExecutionKernel]) and the DSL algorithms ([Algorithm]) together: what the
    threads of a grid do when a plan is executed, and for which data types a grid is
    launched at all. *)

From S2P Require Import Prelude Errors GpuDataTypes ExecutionPlan Executor ExecutionKernel Nccl.
From S2P Require Packets RegisteredMemory.
From S2P Require Import Algorithm.
Local Open Scope Z_scope.

(** The types the kernel is compiled for: those of [GpuDataTypes] and the two float8
    formats of the hardware. *)
Inductive kernel_type := KType (T : elem_type) | KFp8E4M3 | KFp8E5M2.

Definition sizeof_kernel_type (t : kernel_type) : Z := match t with KType T => sizeof T | KFp8E4M3 | KFp8E5M2 => 1 end.

(** [None]: nothing is launched. *)
Definition launchKernel_cuda (dataType : DataType) : option kernel_type :=
  match dataType with
  | INT32 => Some (KType Int32)
  | UINT32 => Some (KType UInt32)
  | UINT8 => Some (KType UInt8)
  | FLOAT16 => Some (KType Half)
  | FLOAT32 => Some (KType Float)
  | BFLOAT16 => Some (KType BFloat16)
  | FLOAT8_E4M3FN | FLOAT8_E4M3FNUZ | FLOAT8_E5M2 | FLOAT8_E5M2FNUZ => None
  | FLOAT8_E4M3B15 => None
  | AUTO => None
  end.

(** The assertion against [AUTO] is compiled out of release builds. *)
Definition launchKernel_hip (P : Platform) (dataType : DataType) : result (option kernel_type) :=
  match dataType with
  | INT32 => Ok (Some (KType Int32))
  | UINT32 => Ok (Some (KType UInt32))
  | FLOAT16 => Ok (Some (KType Half))
  | FLOAT32 => Ok (Some (KType Float))
  | BFLOAT16 => Ok (Some (KType BFloat16))
  | FLOAT8_E4M3FN | FLOAT8_E4M3FNUZ =>
      if fp8_types_exist P then
        if fp8_e4m3_is_fnuz P then
          if decide (dataType = FLOAT8_E4M3FN) then Throw (EError InvalidUsage) else Ok (Some KFp8E4M3)
        else if decide (dataType = FLOAT8_E4M3FNUZ) then Throw (EError InvalidUsage) else Ok (Some KFp8E4M3)
      else Ok None
  | FLOAT8_E5M2 | FLOAT8_E5M2FNUZ =>
      if fp8_types_exist P then
        if fp8_e5m2_is_fnuz P then
          if decide (dataType = FLOAT8_E5M2) then Throw (EError InvalidUsage) else Ok (Some KFp8E5M2)
        else if decide (dataType = FLOAT8_E5M2FNUZ) then Throw (EError InvalidUsage) else Ok (Some KFp8E5M2)
      else Ok None
  | FLOAT8_E4M3B15 => Ok (Some (KType Fp8E4M3B15))
  | UINT8 => Ok (Some (KType UInt8))
  | AUTO => Ok None
  end.

Definition launchKernel (P : Platform) (dataType : DataType) : result (option kernel_type) :=
  if hip_platform P then launchKernel_hip P dataType else Ok (launchKernel_cuda dataType).

(** *** The grid *)

Definition packet_of (pt : Executor.PacketType) : Packets.PacketType :=
  match pt with LL8 => Packets.LL8Packet | LL16 => Packets.LL16Packet end.

(** The kernel that block [n] of a launch runs. *)
Definition block_kernel (l : launch) (T : elem_type) (src dst : Z) (srcOffsets : Operation -> Z) (n : nat) : option kernel :=
  dp ← la_plan l !! n;
  Some (mkKernel src dst (la_scratch l) (la_scratchOffset l) (la_scratchChunkSize l) dp (la_localMemoryIdBegin l) T
          (packet_of (la_packet l)) (la_reuse l) (la_nthreads l) srcOffsets).

(** ** Lemmas *)

Lemma device_plans_length rs plan ops : forall tb ds, device_plans rs plan tb ops = Ret ds -> length ds = length ops.
Proof.
  induction ops as [|o ops IH]; intros tb ds H; simpl in H; [by injection H as <-|].
  eff_step H E1. eff_step H E2. injection H as <-. simpl. by rewrite (IH _ _ E2).
Qed.

(** A loaded plan has device plans for all thread blocks of the rank. *)
Lemma loaded_length j i o s d p p' rs dps gpu : loadExecutionPlan j i o s d (plan_reset p) = Ret p' ->
  build_plans rs p' = Ret dps -> at_ (j_gpus j) (pl_rank (cfg p)) = Ret gpu -> length dps = length (jg_threadblocks gpu).
Proof.
  intros Hl Hb Hg. apply load_operations in Hl as (gpu' & Hg' & Hs). assert (gpu' = gpu) as -> by congruence.
  unfold setupOperations in Hs. eff_step Hs E. injection Hs as Hs. apply map_eff_length in E.
  rewrite (device_plans_length _ _ _ _ _ Hb), <- Hs. done.
Qed.

(** ** Properties *)

(** the kernel that is launched for a data type has elements of the size of the type. *)
Theorem launch_type_size (P : Platform) (d : DataType) (t : kernel_type) :
  launchKernel P d = Ok (Some t) -> sizeof_kernel_type t = getDataTypeSize d.
Proof.
  unfold launchKernel, launchKernel_hip, launchKernel_cuda. destruct (hip_platform P).
  - destruct d; repeat case_match; try done; by intros [= <-].
  - destruct d; try done; by intros [= <-].
Qed.

(** The executor as a DSL algorithm sees it; [silent] stands for a launch that does
    nothing and reports nothing. *)
Definition executor_of (P : Platform) (silent : exn) (d : DataType) : result () :=
  o ← launchKernel P d; match o with Some _ => Ok tt | None => Throw silent end.

(** The software float8, and those of the hardware that the platform has. *)
Definition fp8_of (P : Platform) (d : DataType) : bool :=
  match d with
  | FLOAT8_E4M3B15 => true
  | FLOAT8_E4M3FN => fp8_types_exist P && negb (fp8_e4m3_is_fnuz P)
  | FLOAT8_E4M3FNUZ => fp8_types_exist P && fp8_e4m3_is_fnuz P
  | FLOAT8_E5M2 => fp8_types_exist P && negb (fp8_e5m2_is_fnuz P)
  | FLOAT8_E5M2FNUZ => fp8_types_exist P && fp8_e5m2_is_fnuz P
  | _ => false
  end.

(** a DSL algorithm on HIP launches a kernel for every data type it accepts; on CUDA,
    for the float8 types, it launches none and yet returns success. *)
Theorem dsl_launches (P : Platform) (silent : exn) (a : exec_args) :
  silent <> EError InvalidUsage ->
  (dsl_execute P (Some (executor_of P silent)) a = Throw silent <-> hip_platform P = false /\ fp8_of P (ea_dtype a) = true) /\
  (dsl_execute P (Some (executor_of P silent)) a = Ok CommSuccess <->
   (fp8_of P (ea_dtype a) && hip_platform P || bool_decide (ea_dtype a ∈ [FLOAT16; FLOAT32; BFLOAT16; INT32; UINT32])) = true).
Proof.
  intros Hs. unfold dsl_execute, executor_of, launchKernel, launchKernel_hip, launchKernel_cuda, fp8_of, Usage.
  destruct P as [e f1 f2 h ?]; simpl. destruct (ea_dtype a), e, f1, f2, h; simpl; split; split; try done; try tauto; try (by intros [??]); intros [= ?]; congruence.
Qed.

(** C3: from the plan file to the threads.  In every sequence of successful executions
    with one plan object, each launch has a block for every thread block of the file,
    and every thread of the block runs the operations the file gives that thread block,
    set up for the sizes and offsets of that execution, in order and to the end. *)
Theorem execution_runs_plan {M} `{Registrar M} (E : Env M) (j : jplan) (p0 : Plan) (w0 : World M)
    (l : list Executor.call) cs p s (pt : Executor.PacketType) (flag : Z) (gpu : jgpu)
    (T : elem_type) (src dst : Z) (srcOffsets : Operation -> Z) :
  run_calls E j l p0 (mkExecutor ∅ w0) = Ret (cs, p, s) ->
  at_ (j_gpus j) (pl_rank (cfg p0)) = Ret gpu -> Forall (fun b => Forall jop_ok (jtb_ops b)) (jg_threadblocks gpu) ->
  Forall2 (fun a c =>
    let launched := launchKernelHelper pt c flag in
    la_nthreadblocks launched = Z.of_nat (length (jg_threadblocks gpu)) /\
    exists p', load_for j (device_key a) p0 = Ret p' /\
    forall n b, jg_threadblocks gpu !! n = Some b -> exists k, block_kernel launched T src dst srcOffsets n = Some k /\
    exists groups, Forall2 (fun jop g => setupOp (cfg p') (tabs p') (c_src a) (c_dst a) (jtb_id b) jop = Ret g) (jtb_ops b) groups /\
    forall tid, executionKernel k tid = Some (concat (map (group_acts k tid) groups))) l cs.
Proof.
  intros Hr Hg Hok. eapply Forall2_impl; [eapply calls_ok; [apply cache_inv_empty|exact Hr]|].
  intros a c (Hc & Hcur & _). destruct (launch_ok j p0 c _ pt flag Hc Hcur) as (p' & ds & Hl & Hb & Hp & Hn).
  intros launched. destruct (device_key a) as [[[i o] s1] d1] eqn:Ek.
  assert (Es : c_src a = s1 /\ c_dst a = d1) by (unfold device_key in Ek; by simplify_eq). destruct Es as [-> ->].
  pose proof (loaded_length _ _ _ _ _ _ _ _ _ _ Hl Hb Hg) as Elen. split; [unfold launched; by rewrite Hn, Elen|]. exists p'. split; [exact Hl|].
  intros n b Htb. rewrite Forall_lookup in Hok. specialize (Hok _ _ Htb).
  destruct (lookup_lt_is_Some_2 ds n) as [dp Hdp]; [rewrite Elen; by apply lookup_lt_Some in Htb|].
  unfold block_kernel, launched. rewrite Hp, Hdp. cbn [mbind option_bind]. eexists. split; [reflexivity|]. set (k := mkKernel _ _ _ _ _ _ _ _ _ _ _ _).
  destruct (kernel_runs_plan j i o s1 d1 p0 p' _ ds gpu n b k 0 Hl Hb Hg Htb Hok Hdp) as (groups & Em & _).
  exists groups. split; [by apply map_eff_Forall2|]. intros tid.
  destruct (kernel_runs_plan j i o s1 d1 p0 p' _ ds gpu n b k tid Hl Hb Hg Htb Hok Hdp) as (groups' & Em' & Ek'). congruence.
Qed.

(** ** Witnesses *)

Lemma launch_type_size_witness :
  let P := mkPlatform true false false true false in
  launchKernel P FLOAT8_E5M2 = Ok (Some KFp8E5M2) /\ sizeof_kernel_type KFp8E5M2 = getDataTypeSize FLOAT8_E5M2.
Proof. intros P. split; [reflexivity|]. by apply (launch_type_size P). Defined.

Lemma dsl_launches_witness :
  let P := mkPlatform true false false false false in let silent := EError ExecutorError in
  let a := mkArgs 0 1024 64 64 FLOAT8_E4M3FN SUM 0 0 false AUTO in
  dsl_execute P (Some (executor_of P silent)) a = Throw silent.
Proof. intros P silent a. by apply (dsl_launches P silent a). Defined.

Lemma execution_runs_plan_witness :
  let l := [demo_call 1024 64; demo_call 1024 128; demo_call 1024 64] in
  let p0 := Plan_create Executor.demo_plan 0 in
  exists cs p s, @run_calls _ demo_registrar (Executor.demo_env (fun _ _ => RegisteredMemory.demo_impl)) Executor.demo_plan l p0 (mkExecutor ∅ demo_exec_world) = Ret (cs, p, s) /\
    Forall2 (fun _ c => la_nthreadblocks (launchKernelHelper LL8 c 3) = 1) l cs.
Proof.
  intros l p0.
  assert (Hr : is_ret (@run_calls _ demo_registrar (Executor.demo_env (fun _ _ => RegisteredMemory.demo_impl)) Executor.demo_plan l p0 (mkExecutor ∅ demo_exec_world)) = true)
    by (vm_compute; reflexivity).
  destruct (is_ret_true _ Hr) as [[[cs p] s] Er]. exists cs, p, s. split; [done|].
  eapply Forall2_impl.
  - refine (@execution_runs_plan _ demo_registrar _ Executor.demo_plan p0 demo_exec_world l cs p s LL8 3 _ Int32 0 1024 (fun _ => 0) Er eq_refl _).
    repeat constructor; intros Hop; vm_compute in Hop; discriminate.
  - simpl. by intros a c [-> _].
Defined.
