(* ===== verification/MemoryChannel.v ===== *)
(** * Memory channels

    Models src/core/memory_channel.cc and include/mscclpp/memory_channel_device.hpp: the
    host object, which checks that the peer's memory can be reached by CUDA IPC, and the
    device handle, whose operations are the copies of [DeviceCopy], the packets of
    [Packets] and the semaphores of [Semaphore] at the addresses of the channel.  A block
    that puts, synchronizes and signals, and a peer that waits, are interleaved
    step by step. *)

From S2P Require Import Prelude Errors Core RegisteredMemory Semaphore Connection DeviceCopy Packets.
Local Open Scope Z_scope.

(** ** The host object and the device handle *)

Section host.
Context {S : Type}.                    (* MemoryDevice2DeviceSemaphore *)

Record MemoryChannel := mkMemoryChannel {
  mc_semaphore : S; mc_dst : Impl; mc_src : Impl; mc_packetBuffer : Z
}.

Definition MemoryChannel_create (semaphore : S) (dst src : Impl) (packetBuffer : Z) : result MemoryChannel :=
  if negb (hasb (transports dst) CudaIpc) then Throw (EError InvalidUsage)
  else Ok (mkMemoryChannel semaphore dst src packetBuffer).

Record MemoryChannelDeviceHandle := mkHandle { semaphore_ : S; dst_ : Z; src_ : Z; packetBuffer_ : Z }.

Definition deviceHandle (c : MemoryChannel) : MemoryChannelDeviceHandle :=
  mkHandle (mc_semaphore c) (data (mc_dst c)) (data (mc_src c)) (mc_packetBuffer c).

(** ** Operations of a thread *)

(** The address that [read<T>] loads from and [write<T>] stores to. *)
Definition element (h : MemoryChannelDeviceHandle) (sizeofT index : Z) : Z := dst_ h + index * sizeofT.

Definition put (alignment : Z) (copyRemainder : bool) (h : MemoryChannelDeviceHandle)
    (targetOffset originOffset originBytes threadId numThreads : Z) : option (list copy_act) :=
  copy alignment copyRemainder (dst_ h + targetOffset) (src_ h + originOffset) originBytes threadId numThreads.

Definition get (alignment : Z) (copyRemainder : bool) (h : MemoryChannelDeviceHandle)
    (targetOffset originOffset originBytes threadId numThreads : Z) : option (list copy_act) :=
  copy alignment copyRemainder (src_ h + targetOffset) (dst_ h + originOffset) originBytes threadId numThreads.

(** [putPackets]: for each packet the address of its payload and its own address. *)
Definition putPackets (p : PacketType) (h : MemoryChannelDeviceHandle)
    (targetOffset originOffset originBytes threadId numThreads : Z) : list (Z * Z) :=
  map (fun i => (src_ h + originOffset + i * (4 * Z.of_nat (words p)), dst_ h + targetOffset + i * (8 * Z.of_nat (words p))))
    (strided threadId numThreads (nElem p originBytes)).

(** [unpackPackets]: the address of each packet and where its payload goes.  The
    assertion on the packet buffer is the only check. *)
Definition unpackPackets (p : PacketType) (h : MemoryChannelDeviceHandle)
    (targetOffset originOffset originBytes threadId numThreads : Z) : option (list (Z * Z)) :=
  if packetBuffer_ h =? 0 then None else
  Some (map (fun i => (packetBuffer_ h + targetOffset + i * (8 * Z.of_nat (words p)), src_ h + originOffset + i * (4 * Z.of_nat (words p))))
    (strided threadId numThreads (nElem p originBytes))).
End host.
Arguments MemoryChannel : clear implicits.
Arguments MemoryChannelDeviceHandle : clear implicits.

(** ** Putting, signalling and waiting *)

(** A block of threads puts, [__syncthreads], one thread signals; a thread of the peer
    waits.  [tr_todo]: the iterations each thread has left; [tr_sem]: the peer's
    semaphore; [tr_ticket]: the token the waiting thread spins on. *)
Record transfer := mkTransfer {
  tr_mem : memory; tr_todo : list (list copy_act); tr_signalled : bool;
  tr_sem : SemaphoreHandle; tr_ticket : option Z; tr_passed : bool
}.

Inductive tr_action := TCopy (t : nat) | TSignal | TWait | TSpin.

Definition tr_act (s : transfer) (a : tr_action) : option transfer :=
  match a with
  | TCopy t =>
      match tr_todo s !! t with
      | Some (c :: l) =>
          Some (mkTransfer (run_act (tr_mem s) c) (<[t := l]> (tr_todo s)) (tr_signalled s) (tr_sem s) (tr_ticket s) (tr_passed s))
      | _ => None
      end
  | TSignal =>
      if tr_signalled s || negb (forallb (fun l => match l with [] => true | _ => false end) (tr_todo s)) then None
      else Some (mkTransfer (tr_mem s) (tr_todo s) true (sem_signal (tr_sem s)) (tr_ticket s) (tr_passed s))
  | TWait =>
      match tr_ticket s with
      | Some _ => None
      | None => let '(e, h) := wait_ticket (tr_sem s) in
                Some (mkTransfer (tr_mem s) (tr_todo s) (tr_signalled s) h (Some e) (tr_passed s))
      end
  | TSpin =>
      match tr_ticket s with
      | None => None
      | Some e =>
          if tr_passed s || wait_spinning (tr_sem s) e then None
          else Some (mkTransfer (tr_mem s) (tr_todo s) (tr_signalled s) (tr_sem s) (Some e) true)
      end
  end.

Fixpoint tr_run (s : transfer) (l : list tr_action) : option transfer :=
  match l with [] => Some s | a :: l' => s' ← tr_act s a; tr_run s' l' end.

(** [count] signals have been sent and waited for before. *)
Definition tr_init {S} (alignment : Z) (h : MemoryChannelDeviceHandle S) (targetOffset originOffset originBytes numThreads count : Z)
    (m : memory) : transfer :=
  mkTransfer m (map (fun t => default [] (put alignment true h targetOffset originOffset originBytes t numThreads)) (threads numThreads))
    false (mkSem count count) None false.

(** *** Lemmas *)

Lemma insert_concat {A} (ls : list (list A)) i x l :
  ls !! i = Some (x :: l) -> concat ls ≡ₚ x :: concat (<[i := l]> ls).
Proof.
  revert i. induction ls as [|y ls IH]; intros [|i] H; simpl in *; simplify_eq; [done|].
  rewrite (IH i H). by rewrite Permutation_middle.
Qed.

Section transfers.
Context (count : Z) (m0 : memory) (all : list copy_act).
Hypothesis Hcount : 0 <= count < 2 ^ 64 - 1.

(** What has run, with what is left, is the whole put; the signal comes after all of it. *)
Record tr_inv (s : transfer) : Prop := {
  ti_done : exists ran, ran ++ concat (tr_todo s) ≡ₚ all /\ tr_mem s = run_acts m0 ran;
  ti_signalled : tr_signalled s = true -> concat (tr_todo s) = [];
  ti_inbound : inboundToken (tr_sem s) = if tr_signalled s then count + 1 else count;
  ti_expected : expectedInboundToken (tr_sem s) = if tr_ticket s then count + 1 else count;
  ti_ticket : forall e, tr_ticket s = Some e -> e = count + 1;
  ti_passed : tr_passed s = true -> tr_signalled s = true
}.

Lemma tr_inv_act s a s' : tr_inv s -> tr_act s a = Some s' -> tr_inv s'.
Proof using Hcount.
  intros [(ran & Hp & Hm) H2 H3 H4 H5 H6] H. destruct a as [t| | |]; simpl in H.
  - destruct (tr_todo s !! t) as [[|c l]|] eqn:E; simplify_eq. pose proof (insert_concat _ _ _ _ E) as Hc.
    split; simpl; try done.
    + exists (ran ++ [c]). rewrite <- app_assoc. simpl. rewrite <- Hc. split; [done|]. rewrite Hm. unfold run_acts. by rewrite foldl_app.
    + intros Hs. rewrite (H2 Hs) in Hc. by apply Permutation_nil_cons in Hc.
  - destruct (tr_signalled s) eqn:Es; [done|]. destruct (forallb _ _) eqn:Ef; simplify_eq/=. split; simpl; try done.
    + by exists ran.
    + intros _. clear -Ef. revert Ef. generalize (tr_todo s). induction l as [|[|x y] ls IH]; simpl; [done|exact IH|done].
    + rewrite H3. by rewrite u64_small by lia.
  - destruct (tr_ticket s) eqn:Et; [done|]. simplify_eq. split; simpl; try done.
    + by exists ran.
    + rewrite H4. by rewrite u64_small by lia.
    + intros e [= <-]. rewrite H4. by rewrite u64_small by lia.
  - destruct (tr_ticket s) as [e|] eqn:Et; [|done]. destruct (tr_passed s) eqn:Ep; [done|].
    destruct (wait_spinning _ _) eqn:Ew; simplify_eq/=. split; simpl; try done.
    + by exists ran.
    + intros _. unfold wait_spinning, loadInbound in Ew. rewrite H3, (H5 _ eq_refl) in Ew.
      destruct (tr_signalled s); [done|]. apply Z.ltb_ge in Ew. lia.
Qed.

Lemma tr_inv_run l : forall s s', tr_inv s -> tr_run s l = Some s' -> tr_inv s'.
Proof using Hcount.
  induction l as [|a l IH]; intros s s' Hs H; simpl in H; [by simplify_eq|].
  destruct (tr_act s a) eqn:E; [|done]. eapply IH; [|exact H]. by eapply tr_inv_act.
Qed.

(** Until the wait has returned, some thread can make a step. *)
Lemma tr_progress s : tr_inv s -> tr_passed s = false -> exists a s', tr_act s a = Some s'.
Proof using Hcount.
  intros Hi Hn. destruct (tr_ticket s) as [e|] eqn:Et; [|exists TWait; simpl; rewrite Et; eauto].
  destruct (tr_signalled s) eqn:Es.
  - exists TSpin. simpl. rewrite Et, Hn. simpl. unfold wait_spinning, loadInbound.
    rewrite (ti_inbound _ Hi), Es, (ti_ticket _ Hi e Et), Z.ltb_irrefl. eauto.
  - destruct (forallb (fun l => match l with [] => true | _ => false end) (tr_todo s)) eqn:Ef.
    + exists TSignal. simpl. rewrite Es, Ef. eauto.
    + assert (H : exists t c l, tr_todo s !! t = Some (c :: l)).
      { clear -Ef. revert Ef. generalize (tr_todo s). induction l as [|[|x y] ls IH]; simpl; intros Ef; [done| |by exists 0%nat; eauto].
        destruct (IH Ef) as (t & c & l & E). by exists (S t), c, l. }
      destruct H as (t & c & l & E). exists (TCopy t). simpl. rewrite E. eauto.
Qed.
End transfers.

(** ** Properties *)

(** C13: what is put before a signal has arrived when the wait returns.  For every
    interleaving of the putting threads, the signal and the waiting thread: until the
    wait has returned some thread can go on, and when it has returned the target range
    equals the origin range and no other byte has changed. *)
Theorem put_signal_wait {S} (h : MemoryChannelDeviceHandle S) (alignment targetOffset originOffset bytes n count : Z)
    (m : memory) (l : list tr_action) (s : transfer) :
  let dst := dst_ h + targetOffset in let src := src_ h + originOffset in
  sizes_ok alignment -> 0 < n < 2 ^ 32 -> 0 <= dst -> 0 <= src -> 0 <= bytes ->
  dst + bytes < 2 ^ 63 -> src + bytes < 2 ^ 63 -> dst mod 4 = 0 -> src mod 4 = 0 -> bytes mod 4 = 0 ->
  (dst - src) mod alignment = 0 -> dst + bytes <= src \/ src + bytes <= dst ->
  sizeof_int * nFirstInt alignment dst <= bytes -> 0 <= count < 2 ^ 64 - 1 ->
  tr_run (tr_init alignment h targetOffset originOffset bytes n count m) l = Some s ->
  if tr_passed s
  then forall x, byte (tr_mem s) x = if decide (dst <= x < dst + bytes) then byte m (src + (x - dst)) else byte m x
  else exists a s', tr_act s a = Some s'.
Proof.
  intros dst src Hs Hn Hd Hr Hb Hdw Hrw Hd4 Hr4 Hb4 Hm Hdis Hl Hc Hrun.
  assert (Hi : tr_inv count m (copy_all alignment dst src bytes n) s).
  { eapply tr_inv_run; [exact Hc| |exact Hrun]. split; simpl; try done. by exists []. }
  destruct (tr_passed s) eqn:Ep; [|by eapply tr_progress].
  destruct Hi as [(ran & Hp & Hmem) H2 _ _ _ H6]. rewrite (H2 (H6 Ep)), app_nil_r in Hp.
  rewrite Hmem. by apply (copy_all_exact alignment dst src bytes n).
Qed.

Lemma put_signal_wait_witness :
  let h := mkHandle () 100 204 0 in
  let m := list_to_map (imap (fun i b => (204 + Z.of_nat i, b)) [1; 2; 3; 4; 5; 6; 7; 8; 9; 10; 11; 12]) : memory in
  exists s, tr_run (tr_init 8 h 0 0 12 2 5 m) [TWait; TCopy 0; TCopy 0; TSignal; TSpin] = Some s /\ byte (tr_mem s) 107 = 8.
Proof.
  intros h m. destruct (tr_run (tr_init 8 h 0 0 12 2 5 m) [TWait; TCopy 0; TCopy 0; TSignal; TSpin]) as [s|] eqn:E; [|by vm_compute in E].
  exists s. split; [done|].
  pose proof (put_signal_wait h 8 0 0 12 2 5 m _ s ltac:(right; left; done) ltac:(lia) ltac:(done) ltac:(done) ltac:(lia)
    ltac:(simpl; lia) ltac:(simpl; lia) ltac:(done) ltac:(done) ltac:(done) ltac:(done) ltac:(simpl; lia) ltac:(by vm_compute) ltac:(lia) E) as H.
  assert (Ep : tr_passed s = true) by (vm_compute in E; by injection E as <-). rewrite Ep in H. by rewrite H.
Defined.
