(* ===== verification/Collectives.v ===== *)
(** * Set-up shared by the built-in collectives

    Models src/ext/collectives/collective_utils.cc (connections, semaphores, memories and
    channels to all peers) and the dispatch of include/allreduce/common.hpp from data
    types to the types a kernel is compiled for. *)

From S2P Require Import Prelude Errors Core RegisteredMemory GpuDataTypes DeviceCopy MemoryChannel.
From S2P Require Import Algorithm.
Local Open Scope Z_scope.

Definition WARP_SIZE (p : platform) : Z := if is_hip p then 64 else 32.

(** ** Channels to all peers *)

(** The loop over all ranks but one's own. *)
Definition peers (nRanks rank : Z) : list Z := filter (fun i => i <> rank) (threads nRanks).

Record connection := mkConnection { c_peer : Z; c_transport : Transport }.

Definition setupConnections (nRanks rank : Z) : list connection :=
  map (fun i => mkConnection i CudaIpc) (peers nRanks rank).

(** [recv i]: the memory that rank [i] has sent. *)
Definition setupRemoteMemories (nRanks rank : Z) (recv : Z -> Impl) : list Impl := map recv (peers nRanks rank).

Section channels.
Context {S : Type}.

(** [make]: the semaphore built over a connection, for the [idx]-th time. *)
Definition setupMemorySemaphores (make : connection -> Z -> S) (connections : list connection)
    (nChannelsPerConnection : Z) : list S :=
  concat (map (fun idx => concat (map (fun c =>
    if decide (c_transport c = CudaIpc) then [make c idx] else []) connections)) (threads nChannelsPerConnection)).

(** An element of a vector; [None] is past the end. *)
Fixpoint collect {A} (l : list (option (result A))) : option (result (list A)) :=
  match l with
  | [] => Some (Ok [])
  | x :: l' =>
      r ← x;
      match r with
      | Throw e => Some (Throw e)
      | Ok a => rest ← collect l'; Some (xs ← rest; Ok (a :: xs))
      end
  end.

Definition setupMemoryChannels (connections : list connection) (memorySemaphores : list S) (remoteMemories : list Impl)
    (localMemory : Impl) (nChannelsPerConnection : Z) : option (result (list (MemoryChannel S))) :=
  let nConnections := length connections in
  collect (concat (map (fun idx => concat (imap (fun cid c =>
    if decide (c_transport c = CudaIpc)
    then [s ← memorySemaphores !! (Z.to_nat idx * nConnections + cid)%nat; m ← remoteMemories !! cid;
          Some (MemoryChannel_create s m localMemory 0)]
    else []) connections)) (threads nChannelsPerConnection))).

Definition setupMemoryChannelDeviceHandles (memoryChannels : list (MemoryChannel S)) : list (MemoryChannelDeviceHandle S) :=
  map deviceHandle memoryChannels.
(** What is kept for a context: memories and channels. *)
Record AlgorithmCtx := mkAlgorithmCtx {
  ctx_rank : Z; ctx_workSize : Z; ctx_nRanksPerNode : Z;
  ctx_registeredMemories : list Impl; ctx_memoryChannels : list (MemoryChannel S);
  ctx_memoryChannelDeviceHandles : list (MemoryChannelDeviceHandle S)
}.
End channels.
Arguments AlgorithmCtx : clear implicits.

(** ** Dispatch on data types *)

Inductive ctype := C_half | C_float | C_bfloat16 | C_fp8_e4m3 | C_fp8_e5m2 | C_fp8_e4m3b15 | C_int | C_uint8.

(** The element type and the type sums are accumulated in. *)
Definition dispatchFp8Accum (FP8T : ctype) (accumDtype dtype : DataType) : option (ctype * ctype) :=
  if decide (accumDtype = FLOAT32) then Some (FP8T, C_float)
  else if decide (accumDtype = FLOAT16) then Some (FP8T, C_half)
  else if decide (accumDtype = dtype) then Some (FP8T, FP8T)
  else None.

(** [bf16]: whether the compiler has bfloat16. *)
Definition dispatchByDtype (P : Platform) (bf16 : bool) (dtype accumDtype : DataType) : option (ctype * ctype) :=
  match dtype with
  | FLOAT16 => Some (C_half, C_half)
  | FLOAT32 => Some (C_float, C_float)
  | BFLOAT16 => if bf16 then Some (C_bfloat16, C_bfloat16) else None
  | FLOAT8_E4M3FNUZ =>
      if fp8_types_exist P && fp8_e4m3_is_fnuz P then dispatchFp8Accum C_fp8_e4m3 accumDtype dtype else None
  | FLOAT8_E4M3FN =>
      if fp8_types_exist P && negb (fp8_e4m3_is_fnuz P) then dispatchFp8Accum C_fp8_e4m3 accumDtype dtype else None
  | FLOAT8_E5M2FNUZ =>
      if fp8_types_exist P && fp8_e5m2_is_fnuz P then dispatchFp8Accum C_fp8_e5m2 accumDtype dtype else None
  | FLOAT8_E5M2 =>
      if fp8_types_exist P && negb (fp8_e5m2_is_fnuz P) then dispatchFp8Accum C_fp8_e5m2 accumDtype dtype else None
  | FLOAT8_E4M3B15 => dispatchFp8Accum C_fp8_e4m3b15 accumDtype dtype
  | INT32 | UINT32 => Some (C_int, C_int)
  | UINT8 => Some (C_uint8, C_uint8)
  | AUTO => None
  end.

Definition dispatch (P : Platform) (bf16 : bool) (op : Algorithm.ReduceOp) (dtype accumDtype : DataType)
    : option (Algorithm.ReduceOp * (ctype * ctype)) :=
  match op with
  | Algorithm.SUM => d ← dispatchByDtype P bf16 dtype accumDtype; Some (Algorithm.SUM, d)
  | Algorithm.MIN => d ← dispatchByDtype P bf16 dtype accumDtype; Some (Algorithm.MIN, d)
  | Algorithm.NOP => None
  end.

(** ** Accumulation *)

(** [upcastVector], [calVectorAccum] and [downcastVector] for the template arguments. *)
Record accumulator (D A : Type) := mkAccumulator { upcast : D -> A; accumulate : A -> D -> A; downcast : A -> D }.
Arguments upcast {D A}. Arguments accumulate {D A}. Arguments downcast {D A}.

(** ** Lemmas: the channels of a rank *)

(** [index < rank ? index : index + 1]: the rank behind a peer index. *)
Definition remoteRank (rank index : Z) : Z := if index <? rank then index else index + 1.

Lemma remoteRank_spec nRanks rank index : 0 <= rank < nRanks -> 0 <= index < nRanks - 1 ->
  0 <= remoteRank rank index < nRanks /\ remoteRank rank index <> rank.
Proof. unfold remoteRank. intros. destruct (Z.ltb_spec index rank); lia. Qed.

Lemma remoteRank_inj rank i j : remoteRank rank i = remoteRank rank j -> i = j.
Proof. unfold remoteRank. destruct (Z.ltb_spec i rank), (Z.ltb_spec j rank); lia. Qed.

Lemma remoteRank_surj nRanks rank q : 0 <= rank < nRanks -> 0 <= q < nRanks -> q <> rank ->
  exists index, 0 <= index < nRanks - 1 /\ remoteRank rank index = q.
Proof.
  unfold remoteRank. intros. exists (if q <? rank then q else q - 1).
  destruct (Z.ltb_spec q rank); [destruct (Z.ltb_spec q rank)|destruct (Z.ltb_spec (q - 1) rank)]; lia.
Qed.

Lemma peers_lookup nRanks rank index : 0 <= rank < nRanks -> 0 <= index < nRanks - 1 ->
  peers nRanks rank !! Z.to_nat index = Some (remoteRank rank index).
Proof.
  intros Hr Hi. unfold peers, threads.
  assert (G : forall (n : nat) (a : Z) (i : nat), (i < n - (if decide (a <= rank < a + Z.of_nat n)%Z then 1%nat else 0%nat))%nat ->
    filter (fun x => x <> rank) (map Z.of_nat (seq (Z.to_nat a) n)) !! i =
    Some (if decide (a <= rank) then if Z.of_nat i + a <? rank then Z.of_nat i + a else Z.of_nat i + a + 1 else Z.of_nat i + a)
    \/ a < 0).
  { induction n as [|n IH]; intros a i Hn; [lia|]. destruct (decide (a < 0)); [by right|left]. simpl.
    replace (S (Z.to_nat a)) with (Z.to_nat (a + 1)) by lia. rewrite filter_cons, Z2Nat.id by lia.
    destruct (decide (a <> rank)) as [Hne|He].
    - destruct i as [|i]; simpl.
      + f_equal. destruct (decide (a <= rank)); [|lia]. destruct (Z.ltb_spec (Z.of_nat 0 + a) rank); lia.
      + destruct (IH (a + 1) i) as [-> | ?]; [destruct (decide (a <= rank < a + Z.of_nat (S n))), (decide (a + 1 <= rank < a + 1 + Z.of_nat n)); lia| |lia].
        f_equal. destruct (decide (a <= rank)), (decide (a + 1 <= rank)); try lia.
        destruct (Z.ltb_spec (Z.of_nat i + (a + 1)) rank), (Z.ltb_spec (Z.of_nat (S i) + a) rank); lia.
    - assert (a = rank) as -> by lia. destruct (IH (rank + 1) i) as [-> | ?]; [destruct (decide (rank <= rank < rank + Z.of_nat (S n))), (decide (rank + 1 <= rank < rank + 1 + Z.of_nat n)); lia| |lia].
      f_equal. destruct (decide (rank <= rank)), (decide (rank + 1 <= rank)); try lia.
      destruct (Z.ltb_spec (Z.of_nat i + rank) rank); lia. }
  destruct (G (Z.to_nat nRanks) 0 (Z.to_nat index)) as [E|?]; [destruct (decide _); lia| |lia].
  rewrite Z2Nat.inj_0 in E. rewrite E. f_equal. unfold remoteRank.
  destruct (decide (0 <= rank)); [|lia]. rewrite Z2Nat.id, Z.add_0_r by lia. done.
Qed.

(** Entry [j] of block [i] of equally long blocks. *)
Lemma concat_blocks {A} (ls : list (list A)) (c i j : nat) :
  Forall (fun l => length l = c) ls -> (j < c)%nat -> concat ls !! (i * c + j)%nat = ls !! i ≫= (fun l => l !! j).
Proof.
  intros H Hj. revert i. induction H as [|l ls Hl _ IH]; intros i; simpl; [by destruct i|].
  destruct i as [|i]; simpl; [apply lookup_app_l; lia|].
  rewrite lookup_app_r by lia. rewrite <- IH. f_equal. lia.
Qed.

Lemma peers_length nRanks rank : 0 <= rank < nRanks -> length (peers nRanks rank) = Z.to_nat (nRanks - 1).
Proof.
  intros Hr. apply Nat.le_antisymm.
  - destruct (Nat.le_gt_cases (length (peers nRanks rank)) (Z.to_nat (nRanks - 1))) as [|Hgt]; [done|exfalso].
    destruct (lookup_lt_is_Some_2 (peers nRanks rank) (Z.to_nat (nRanks - 1)) Hgt) as [x Hx].
    assert (Hin : x ∈ peers nRanks rank) by (by eapply list_elem_of_lookup_2).
    apply list_elem_of_filter in Hin as [Hne Hin]. apply elem_of_threads in Hin; [|lia].
    destruct (remoteRank_surj nRanks rank x Hr Hin Hne) as (i & Hi & <-).
    pose proof (peers_lookup nRanks rank i Hr Hi) as Hl.
    assert (Hd : NoDup (peers nRanks rank)) by (apply NoDup_filter, (NoDup_fmap_2 Z.of_nat), NoDup_seq).
    pose proof (NoDup_lookup _ _ _ _ Hd Hx Hl). lia.
  - destruct (decide (nRanks - 1 = 0)) as [->|]; [simpl; lia|].
    pose proof (lookup_lt_Some _ _ _ (peers_lookup nRanks rank (nRanks - 2) Hr ltac:(lia))). lia.
Qed.

Lemma collect_all {A} (l : list A) : collect (map (fun a => Some (Ok a)) l) = Some (Ok l).
Proof. induction l as [|a l IH]; simpl; [done|]. by rewrite IH. Qed.

Section made.
Context {S : Type} (make : connection -> Z -> S) (recv : Z -> Impl) (local : Impl) (nRanks rank k : Z).
Hypothesis Hrank : 0 <= rank < nRanks.
Hypothesis Hrecv : forall i, 0 <= i < nRanks -> i <> rank -> hasb (transports (recv i)) CudaIpc = true.

Definition channel_to (idx peer : Z) : MemoryChannel S :=
  mkMemoryChannel (make (mkConnection peer CudaIpc) idx) (recv peer) local 0.

Lemma semaphores_are idx cid peer : 0 <= idx < k -> peers nRanks rank !! cid = Some peer ->
  setupMemorySemaphores make (setupConnections nRanks rank) k !! (Z.to_nat idx * length (setupConnections nRanks rank) + cid)%nat =
  Some (make (mkConnection peer CudaIpc) idx).
Proof using.
  intros Hi Hp. unfold setupMemorySemaphores.
  assert (E : forall idx, concat (map (fun c => if decide (c_transport c = CudaIpc) then [make c idx] else []) (setupConnections nRanks rank))
    = map (fun i => make (mkConnection i CudaIpc) idx) (peers nRanks rank)).
  { intros i. unfold setupConnections. rewrite map_map. clear Hp. induction (peers nRanks rank) as [|p l IH]; [done|].
    cbn [map concat]. rewrite IH. cbn [c_transport]. by rewrite decide_True by done. }
  rewrite (map_ext _ _ E), concat_blocks.
  - unfold threads. rewrite !list_lookup_fmap, lookup_seq_lt by lia. simpl. rewrite list_lookup_fmap, Hp. simpl. by rewrite Z2Nat.id by lia.
  - apply Forall_map, Forall_true. intros x. unfold setupConnections. by rewrite !length_map.
  - apply lookup_lt_Some in Hp. unfold setupConnections. by rewrite length_map.
Qed.

Lemma channels_are :
  setupMemoryChannels (setupConnections nRanks rank) (setupMemorySemaphores make (setupConnections nRanks rank) k)
    (setupRemoteMemories nRanks rank recv) local k =
  Some (Ok (concat (map (fun idx => map (channel_to idx) (peers nRanks rank)) (threads k)))).
Proof using Hrank Hrecv.
  unfold setupMemoryChannels. cbv zeta. rewrite <- collect_all, concat_map, map_map. f_equal. f_equal.
  apply map_ext_in. intros idx Hidx%list_elem_of_In. assert (Hk : 0 <= idx < k).
  { destruct (decide (0 <= k)); [by apply elem_of_threads|]. exfalso. revert Hidx. unfold threads. destruct k; [lia|lia|]. by intros ?%elem_of_nil. }
  rewrite map_map.
  assert (G : forall l a, (forall cid peer, l !! cid = Some peer -> peers nRanks rank !! (a + cid)%nat = Some peer) ->
    concat (imap (fun cid c => if decide (c_transport c = CudaIpc) then
      [s ← setupMemorySemaphores make (setupConnections nRanks rank) k !! (Z.to_nat idx * length (setupConnections nRanks rank) + (a + cid))%nat;
       m ← setupRemoteMemories nRanks rank recv !! (a + cid)%nat; Some (MemoryChannel_create s m local 0)] else [])
      (map (fun i => mkConnection i CudaIpc) l)) = map (fun peer => Some (Ok (channel_to idx peer))) l).
  { induction l as [|p l IH]; intros a Ha; [done|]. rewrite map_cons, imap_cons. cbn [c_transport concat]. rewrite decide_True by done.
    rewrite (semaphores_are idx _ p Hk) by (apply (Ha 0%nat); done). simpl.
    unfold setupRemoteMemories at 1. rewrite list_lookup_fmap, (Ha 0%nat p eq_refl). simpl. f_equal.
    - pose proof (list_elem_of_lookup_2 _ _ _ (Ha 0%nat p eq_refl)) as [Hne Hin]%list_elem_of_filter.
      apply elem_of_threads in Hin; [|lia]. unfold MemoryChannel_create. by rewrite Hrecv.
    - rewrite <- (IH (Datatypes.S a)); [|intros cid peer Hc; rewrite <- (Ha (Datatypes.S cid) peer Hc); f_equal; lia].
      f_equal. apply imap_ext. intros cid c _. simpl. by rewrite <- Nat.add_succ_comm. }
  apply (G (peers nRanks rank) 0%nat). done.
Qed.

(** The [index]-th channel of group [idx] leads to the [index]-th other rank. *)
Lemma channel_leads_to chans idx index : 0 <= idx < k -> 0 <= index < nRanks - 1 ->
  setupMemoryChannels (setupConnections nRanks rank) (setupMemorySemaphores make (setupConnections nRanks rank) k)
    (setupRemoteMemories nRanks rank recv) local k = Some (Ok chans) ->
  chans !! Z.to_nat (idx * (nRanks - 1) + index) = Some (channel_to idx (remoteRank rank index)).
Proof using Hrank Hrecv.
  rewrite channels_are. intros Hk Hi [= <-].
  replace (Z.to_nat (idx * (nRanks - 1) + index)) with (Z.to_nat idx * Z.to_nat (nRanks - 1) + Z.to_nat index)%nat by nia.
  rewrite concat_blocks; [|apply Forall_map, Forall_true; intros x; rewrite length_map; by apply peers_length|lia].
  unfold threads. rewrite !list_lookup_fmap, lookup_seq_lt by lia. simpl. rewrite list_lookup_fmap, peers_lookup by done.
  simpl. by rewrite Z2Nat.id by lia.
Qed.
End made.

(** ** Threads of a grid *)

(** Change a function at one argument. *)
Definition upd {B} (f : Z -> B) (i : Z) (v : B) : Z -> B := fun j => if j =? i then v else f j.

(** A sum over the threads. *)
Definition sumz (m : Z) (f : Z -> nat) : nat := sum_list (map f (threads m)).

Lemma upd_at {B} (f : Z -> B) i v : upd f i v i = v.
Proof. unfold upd. by rewrite Z.eqb_refl. Qed.
Lemma upd_other {B} (f : Z -> B) i v j : j <> i -> upd f i v j = f j.
Proof. unfold upd. by intros ->%Z.eqb_neq. Qed.

Lemma forallb_threads n f : 0 <= n -> forallb f (threads n) = true <-> forall t, 0 <= t < n -> f t = true.
Proof.
  intros Hn. rewrite forallb_forall. split; intros H t Ht; apply H; [by apply list_elem_of_In, elem_of_threads|].
  by apply list_elem_of_In, elem_of_threads in Ht.
Qed.

Lemma forallb_false {B} (f : B -> bool) l : forallb f l = false -> exists x, x ∈ l /\ f x = false.
Proof.
  induction l as [|y l IH]; simpl; [done|]. intros [H|H]%andb_false_iff; [exists y; split; [constructor|done]|].
  destruct (IH H) as (x & Hx & E). exists x. split; [by constructor|done].
Qed.

Lemma sumz_ext m f g : (forall i, 0 <= i < m -> f i = g i) -> sumz m f = sumz m g.
Proof.
  intros H. unfold sumz. f_equal. apply map_ext_in. intros i Hi%list_elem_of_In. apply H.
  destruct (decide (0 <= m)); [by apply elem_of_threads|]. revert Hi. unfold threads. destruct m; [lia|lia|]. by intros ?%elem_of_nil.
Qed.

Lemma sumz_zero m f : (forall i, In i (threads m) -> f i = 0%nat) -> sumz m f = 0%nat.
Proof.
  unfold sumz. generalize (threads m). induction l as [|i l IH]; intros H; simpl; [done|].
  rewrite (H i) by (by left). apply IH. intros j Hj. apply H. by right.
Qed.

Lemma sumz_upd m f g i c : 0 <= i < m -> (forall j, j <> i -> g j = f j) -> f i = (g i + c)%nat -> sumz m f = (sumz m g + c)%nat.
Proof.
  intros Hi Hne E. unfold sumz, threads.
  assert (G : forall l a, sum_list (map f (map Z.of_nat (seq a l))) =
    (sum_list (map g (map Z.of_nat (seq a l))) + (if decide (a <= Z.to_nat i < a + l)%nat then c else 0))%nat).
  { induction l as [|l IH]; intros a; simpl; [destruct (decide _); lia|]. rewrite IH.
    destruct (decide (Z.of_nat a = i)) as [Ea|Hna].
    - rewrite Ea, E. destruct (decide (Datatypes.S a <= Z.to_nat i < Datatypes.S a + l)%nat), (decide (a <= Z.to_nat i < a + Datatypes.S l)%nat); lia.
    - rewrite Hne by done. destruct (decide (Datatypes.S a <= Z.to_nat i < Datatypes.S a + l)%nat), (decide (a <= Z.to_nat i < a + Datatypes.S l)%nat); lia. }
  rewrite G. destruct (decide _); lia.
Qed.
