(* ===== verification/AllreduceAllpair.v ===== *)
(** * The all-pairs allreduce

    Models src/ext/collectives/allreduce/allreduce_allpair_packet.cu: the kernel
    [allreduceAllPairs], with which every rank sends its whole input to every other rank
    as LL8 packets and reduces what it receives, the checks of [allreduceKernelFunc],
    and repeated launches, which use the two halves of the scratch buffer in turn.

    A system is all threads of all ranks, interleaved at their accesses to memory that
    other threads use: scratch buffers, the buffers of the rank, flags.  Kernels of a
    rank run one after the other; what happens to the rank's buffers between two
    kernels is arbitrary.  Addresses of a rank's own buffers are per rank, those of
    scratch buffers are global (they are written by peers); [size_t] arithmetic on
    offsets stays within the buffers and is not wrapped. *)

From S2P Require Import Prelude Errors Core RegisteredMemory GpuDataTypes DeviceCopy Packets MemoryChannel Collectives Algorithm.
From S2P Require Nccl.
Local Open Scope Z_scope.

(** ** Host side *)

Definition nSegmentsForScratchBuffer_ : Z := 2.
Definition maxBlockNum_ : Z := 64.

Definition getDefaultBlockNumAndThreadNum (p : platform) (inputSize worldSize : Z) : Z * Z :=
  if inputSize <? worldSize * 4 then (worldSize - 1, (worldSize - 1) * WARP_SIZE p)
  else ((worldSize - 1) * 4, 512).

(** The checks of [allreduceKernelFunc]: the result to return, or the grid to launch.
    [func]: what [dispatch] gives. *)
Definition allreduceKernelFunc {F} (p : platform) (func : option F) (nBlocks nThreadsPerBlock inputSize worldSize nRanksPerNode : Z)
    : CommResult + (Z * Z) :=
  let '(blocks, threads) :=
    if (nBlocks =? 0) || (nThreadsPerBlock =? 0) then getDefaultBlockNumAndThreadNum p inputSize worldSize
    else (nBlocks, nThreadsPerBlock) in
  if maxBlockNum_ <? blocks then inl CommInvalidArgument else
  let nPeers := nRanksPerNode - 1 in
  if negb (Z.rem threads (WARP_SIZE p) =? 0) || (Z.quot threads (WARP_SIZE p) <? nPeers) then inl CommInvalidArgument else
  match func with
  | None => inl CommInvalidArgument
  | Some _ => inr (blocks, threads)
  end.

(** What is set up once for a communicator, and for each context. *)
Section contexts.
Context {S : Type} (make : connection -> Z -> S) (worldSize nRanksPerNode rank : Z).

Record AllreduceAllpairPacket := mkAllreduceAllpairPacket {
  conns_ : list connection; memorySemaphores_ : list S; registeredMemories_ : list Impl
}.

(** [recv i]: the scratch memory that rank [i] has sent. *)
Definition initialize (scratchMemory : Impl) (recv : Z -> Impl) : AllreduceAllpairPacket :=
  let conns := setupConnections worldSize rank in
  mkAllreduceAllpairPacket conns (setupMemorySemaphores make conns maxBlockNum_)
    (setupRemoteMemories worldSize rank recv ++ [scratchMemory]).

(** [localMemory]: the whole allocation that holds the input, registered. *)
Definition initAllreduceContext (algo : AllreduceAllpairPacket) (localMemory : Impl) : option (result (AlgorithmCtx S)) :=
  let memories := removelast (registeredMemories_ algo) in
  r ← setupMemoryChannels (conns_ algo) (memorySemaphores_ algo) memories localMemory maxBlockNum_;
  Some (chans ← r;
        Ok (mkAlgorithmCtx rank worldSize nRanksPerNode (memories ++ [localMemory]) chans (setupMemoryChannelDeviceHandles chans))).

(** The allocation that holds the input. *)
Definition generateAllreduceContextKey (sendBasePtr sendBytes : Z) : AlgorithmCtxKey := mkCtxKey sendBasePtr 0 sendBytes 0 0.
End contexts.

(** ** The kernel *)

(** When [AccumT] is [T], casts do nothing and [calVector] accumulates; words the
    code leaves undefined are [None]. *)
Definition accumulate_words `{I : Intrinsics} `{C : HalfConv} `{F : FloatOps} (p : platform) (T : elem_type)
    (op : GpuDataTypes.ReduceOp) : accumulator (option Z) (option Z) :=
  mkAccumulator _ _ (fun w => w) (fun acc w => x ← acc; y ← w; calWord p T op x y) (fun acc => acc).

(** One call of the collective: the arguments of the kernels of all ranks. *)
Record call {S : Type} := mkCall {
  a_nelems : Z; a_gridDim : Z; a_blockDim : Z;
  a_buff : Z -> Z; a_resultBuff : Z -> Z;
  a_memoryChannels : Z -> list (MemoryChannelDeviceHandle S); a_channelDataOffset : Z -> Z
}.
Arguments call : clear implicits.

(** A thread, between two accesses. *)
Inductive pc (A : Type) :=
  | PcFlag                                                   (* reads the flag of its block *)
  | PcPut (flag : Z) (todo : list (Z * Z))                   (* packets left to put *)
  | PcSync (flag : Z)                                        (* __syncthreads *)
  | PcLoop (flag : Z) (todo : list Z)                        (* the head of the reduction loop *)
  | PcRead (flag idx : Z) (acc : A) (indices : list Z) (todo : list Z)   (* peers left to read *)
  | PcSetFlags (flag : Z) (todo : list Z)                    (* flags left to set *)
  | PcDone.
Arguments PcFlag {A}. Arguments PcPut {A}. Arguments PcSync {A}. Arguments PcLoop {A}.
Arguments PcRead {A}. Arguments PcSetFlags {A}. Arguments PcDone {A}.

Section kernel.
Context {S D A : Type} (acc : accumulator D A) (W : Z) (sizeofT : Z).
(** The ranks and what they share: the scratch buffer of each rank and its size, the size
    of the flag buffers. *)
Context (worldSize nRanksPerNode : Z) (scratch : Z -> Z) (scratchBufferSize numScratchBuff flagSize : Z).
(** The calls, and what is done to a rank's buffers before the kernel of a call. *)
Context (calls : list (call S)) (host : Z -> nat -> (Z -> D) -> (Z -> D)).

(** All ranks: the call each is in, its threads by block and number, its buffers by words,
    the packets (payload and flag) in all scratch buffers by address, the flags of each
    rank; and, for stating properties, each rank's buffers as they were when its kernel
    for a call began. *)
Record system := mkSystem {
  s_call : Z -> nat; s_pc : Z -> Z -> Z -> pc A; s_mem : Z -> Z -> D; s_packet : Z -> D * Z; s_flags : Z -> Z -> Z;
  s_began : Z -> nat -> Z -> D
}.

Section thread.
Context (a : call S) (rank blockIdx threadIdx : Z).

Definition nelems : Z :=
  if (sizeofT =? 2) || (sizeofT =? 1) then (a_nelems a * sizeofT + sizeofT) / 4 else a_nelems a.
Definition nPeers : Z := nRanksPerNode - 1.
Definition warpId : Z := threadIdx / W.
Definition lane : Z := threadIdx mod W.
Definition nWarpsPerBlock : Z := a_blockDim a / W.

Definition scratchBaseOffset (flag : Z) : Z :=
  if flag mod numScratchBuff =? 0 then 0 else scratchBufferSize / numScratchBuff.

Definition sizeof_LL8Packet : Z := 8.

(** The packets the thread puts to the peer of its warp. *)
Definition puts (flag : Z) : list (Z * Z) :=
  if warpId <? nPeers then
    match a_memoryChannels a rank !! Z.to_nat warpId with
    | Some h => putPackets LL8Packet h (scratchBaseOffset flag + rank * nelems * sizeof_LL8Packet)
                  (a_channelDataOffset a rank) (nelems * 4) (lane + blockIdx * W) (a_gridDim a * W)
    | None => []
    end
  else [].

(** The words the thread reduces. *)
Definition indices : list Z :=
  strided (lane + blockIdx * W + warpId * W * a_gridDim a) (nWarpsPerBlock * W * a_gridDim a) nelems.

(** Where packet [idx] of a rank arrives. *)
Definition packet_from (flag remoteRank idx : Z) : Z :=
  scratch rank + scratchBaseOffset flag + (remoteRank * nelems + idx) * sizeof_LL8Packet.

Definition src (idx : Z) : Z := a_buff a rank + idx * 4.
Definition dst (idx : Z) : Z := a_resultBuff a rank + idx * 4.

(** The flags the thread sets at the end. *)
Definition flags_to_set : list Z :=
  let tid := threadIdx + blockIdx * a_blockDim a in
  (if threadIdx =? 0 then [blockIdx] else []) ++
  (if (a_gridDim a <=? tid) && (tid <? flagSize / 4) then [tid] else []).

Definition arrived (p : pc A) : bool := match p with PcFlag | PcPut _ _ => false | _ => true end.

(** One step of a thread; [None]: it has ended or has to wait. *)
Definition thread_step (s : system) : option (pc A * system) :=
  let goto p := Some (p, s) in
  match s_pc s rank blockIdx threadIdx with
  | PcFlag =>
      let flag := s_flags s rank blockIdx in goto (PcPut flag (puts flag))
  | PcPut flag [] => goto (PcSync flag)
  | PcPut flag ((from, to) :: todo) =>
      Some (PcPut flag todo, mkSystem (s_call s) (s_pc s) (s_mem s) (upd (s_packet s) to (s_mem s rank from, flag)) (s_flags s) (s_began s))
  | PcSync flag =>
      if forallb (fun t => arrived (s_pc s rank blockIdx t)) (threads (a_blockDim a)) then goto (PcLoop flag indices) else None
  | PcLoop flag [] => goto (PcSetFlags flag flags_to_set)
  | PcLoop flag (idx :: todo) =>
      goto (PcRead flag idx (upcast acc (s_mem s rank (src idx))) (threads nPeers) todo)
  | PcRead flag idx v (index :: ks) todo =>
      let '(val, f) := s_packet s (packet_from flag (remoteRank rank index) idx) in
      if f =? flag then goto (PcRead flag idx (accumulate acc v val) ks todo) else None
  | PcRead flag idx v [] todo =>
      Some (PcLoop flag todo,
            mkSystem (s_call s) (s_pc s) (upd (s_mem s) rank (upd (s_mem s rank) (dst idx) (downcast acc v))) (s_packet s) (s_flags s) (s_began s))
  | PcSetFlags flag [] => goto PcDone
  | PcSetFlags flag (i :: todo) =>
      Some (PcSetFlags flag todo,
            mkSystem (s_call s) (s_pc s) (s_mem s) (s_packet s) (upd (s_flags s) rank (upd (s_flags s rank) i (u32 (flag + 1)))) (s_began s))
  | PcDone => None
  end.
End thread.

Definition set_pc (s : system) (rank b t : Z) (p : pc A) : system :=
  mkSystem (s_call s) (upd (s_pc s) rank (upd (s_pc s rank) b (upd (s_pc s rank b) t p))) (s_mem s) (s_packet s) (s_flags s) (s_began s).

(** A kernel begins.  It returns at once when the ranks are not all on one node. *)
Definition first_pc : pc A := if worldSize =? nRanksPerNode then PcFlag else PcDone.
Definition begin_call (s : system) (rank : Z) (n : nat) : system :=
  let mem := host rank n (s_mem s rank) in
  mkSystem (upd (s_call s) rank n) (upd (s_pc s) rank (fun _ _ => first_pc)) (upd (s_mem s) rank mem) (s_packet s) (s_flags s)
    (upd (s_began s) rank (fun k => if decide (k = n) then mem else s_began s rank k)).

Definition is_done (p : pc A) : bool := match p with PcDone => true | _ => false end.
Definition rank_done (a : call S) (s : system) (rank : Z) : bool :=
  forallb (fun b => forallb (fun t => is_done (s_pc s rank b t)) (threads (a_blockDim a))) (threads (a_gridDim a)).

Inductive action := AThread (rank b t : Z) | ANext (rank : Z).

(** A thread's step, or the next call of a rank whose kernel has ended. *)
Definition step (s : system) (x : action) : option system :=
  match x with
  | AThread rank b t =>
      a ← calls !! s_call s rank;
      if (0 <=? rank) && (rank <? worldSize) && (0 <=? b) && (b <? a_gridDim a) && (0 <=? t) && (t <? a_blockDim a) then
        '(p, s') ← thread_step a rank b t s; Some (set_pc s' rank b t p)
      else None
  | ANext rank =>
      a ← calls !! s_call s rank;
      if (0 <=? rank) && (rank <? worldSize) && rank_done a s rank then
        _ ← calls !! Datatypes.S (s_call s rank); Some (begin_call s rank (Datatypes.S (s_call s rank)))
      else None
  end.

Fixpoint run (s : system) (l : list action) : option system :=
  match l with [] => Some s | x :: l' => s' ← step s x; run s' l' end.

(** All ranks at the beginning of the first call; [flag]: what a rank's flags are. *)
Definition initial (mem : Z -> Z -> D) (packet : Z -> D * Z) (flag : Z -> Z) : system :=
  mkSystem (fun _ => 0%nat) (fun _ _ _ => first_pc) (fun r => host r 0%nat (mem r)) packet (fun r _ => flag r)
    (fun r _ => host r 0%nat (mem r)).

(** ** What a call should compute *)

(** Word [idx] of the input of a rank. *)
Definition input (s : system) (n : nat) (a : call S) (rank idx : Z) : D := s_began s rank n (src a rank idx).

Definition reduced (s : system) (n : nat) (a : call S) (rank idx : Z) : D :=
  downcast acc (foldl (fun v index => accumulate acc v (input s n a (remoteRank rank index) idx))
                  (upcast acc (input s n a rank idx)) (threads nPeers)).
End kernel.

(** ** Lemmas: who sends, who reduces *)

(** The last of a group of nested remainders. *)
Lemma mod_split i a b : 0 < a -> 0 < b -> i mod (a * b) = i mod a + a * ((i / a) mod b).
Proof. intros. by rewrite Z.rem_mul_r by lia. Qed.

Lemma split_unique a x y x' y' : 0 < a -> 0 <= x < a -> 0 <= x' < a -> x + a * y = x' + a * y' -> x = x' /\ y = y'.
Proof.
  intros Ha Hx Hx' E. assert (y = y') as <- by (destruct (Z.lt_trichotomy y y') as [?|[?|?]]; nia). lia.
Qed.

Lemma in_suffix {B} (l0 l : list B) x todo : l0 = l ++ x :: todo -> x ∈ l0 /\ (NoDup l0 -> x ∉ todo).
Proof.
  intros ->. split; [set_solver|]. intros (_ & _ & H)%NoDup_app. by apply NoDup_cons in H as [H _].
Qed.

Section proofs.
Context {S D A : Type} (acc : accumulator D A) (W : Z) (sizeofT : Z).
Context (N : Z) (scratch : Z -> Z) (scratchBufferSize flagSize : Z).
Context (calls : list (call S)) (host : Z -> nat -> (Z -> D) -> (Z -> D)).
Context (flag0 : Z) (blocks : Z).

Notation nw := (nelems sizeofT).

(** What a call needs: a grid the host lets through, packets that fit in half a scratch
    buffer, channels as the set-up makes them, an output that is the input or does not
    overlap it, and enough threads to set the flags of [blocks] blocks. *)
Record call_ok (a : call S) : Prop := {
  ok_grid : 0 < a_gridDim a <= blocks;
  ok_warps : a_blockDim a mod W = 0 /\ N - 1 <= a_blockDim a / W;
  ok_flags : blocks <= flagSize / 4 /\ blocks <= a_gridDim a * a_blockDim a;
  ok_size : 0 < nw a /\ N * nw a * 8 <= scratchBufferSize / 2 /\ nw a + a_gridDim a * a_blockDim a <= 2 ^ 64;
  ok_channels : forall r w, 0 <= r < N -> 0 <= w < N - 1 -> exists h,
    a_memoryChannels a r !! Z.to_nat w = Some h /\ dst_ h = scratch (remoteRank r w) /\
    src_ h + a_channelDataOffset a r = a_buff a r;
  ok_overlap : forall r i j, 0 <= r < N -> 0 <= i < nw a -> 0 <= j < nw a -> src a r i = dst a r j -> i = j
}.

Record setup_ok : Prop := {
  ok_ranks : 2 <= N;
  ok_W : 0 < W;
  ok_scratch : forall q q' o o', 0 <= q < N -> 0 <= q' < N -> 0 <= o < scratchBufferSize -> 0 <= o' < scratchBufferSize ->
    scratch q + o = scratch q' + o' -> q = q';
  ok_flag0 : 0 <= flag0 /\ flag0 + Z.of_nat (length calls) < 2 ^ 32;
  ok_calls : forall k a, calls !! k = Some a -> call_ok a
}.
Hypothesis ok : setup_ok.

(** The flag of a call. *)
Definition F (k : nat) : Z := flag0 + Z.of_nat k.
(** The packet [i] that rank [p] sends to rank [q] in call [k]. *)
Notation slot_of a q f p i := (packet_from sizeofT scratch scratchBufferSize 2 a q f p i).
Notation slot a q k p i := (slot_of a q (F k) p i).
Notation puts := (puts W sizeofT N scratchBufferSize 2).
Notation indices := (indices W sizeofT).

Section one.
Context (a : call S).
Hypothesis Ha : call_ok a.

Local Lemma blockDim_pos : 0 < a_blockDim a /\ a_blockDim a = a_blockDim a / W * W /\ 0 < a_blockDim a / W.
Proof using ok Ha.
  destruct ok as [HN HW _ _ _]. destruct (ok_warps a Ha) as [Hm Hw].
  pose proof (Z.div_mod (a_blockDim a) W ltac:(lia)) as E. rewrite Hm in E. clear Hm.
  set (q := a_blockDim a / W) in *. split; [nia|split; lia].
Qed.

Local Lemma thread_parts t : 0 <= t < a_blockDim a ->
  0 <= lane W t < W /\ 0 <= warpId W t < a_blockDim a / W /\ t = warpId W t * W + lane W t.
Proof using ok Ha.
  intros Ht. destruct ok as [HN HW _ _ _]. pose proof blockDim_pos. unfold lane, warpId.
  pose proof (Z.div_mod t W ltac:(lia)). pose proof (Z.mod_pos_bound t W HW). split; [done|].
  split; [|lia]. split; [apply Z.div_pos; lia|]. apply Z.div_lt_upper_bound; lia.
Qed.

(** Word [i] is reduced by one thread. *)
Definition owner_block (i : Z) : Z := i mod (a_gridDim a * W) / W.
Definition owner_thread (i : Z) : Z := i / (a_gridDim a * W) mod (a_blockDim a / W) * W + i mod (a_gridDim a * W) mod W.

Lemma owner_range i : 0 <= i -> 0 <= owner_block i < a_gridDim a /\ 0 <= owner_thread i < a_blockDim a.
Proof using ok Ha.
  intros Hi. destruct ok as [HN HW _ _ _]. destruct (ok_grid a Ha). pose proof blockDim_pos as (H1 & H2 & H3).
  unfold owner_block, owner_thread. pose proof (Z.mod_pos_bound i (a_gridDim a * W) ltac:(nia)).
  pose proof (Z.mod_pos_bound (i mod (a_gridDim a * W)) W HW).
  pose proof (Z.mod_pos_bound (i / (a_gridDim a * W)) (a_blockDim a / W) H3).
  split; [|nia]. split; [apply Z.div_pos; lia|]. apply Z.div_lt_upper_bound; lia.
Qed.

Lemma elem_of_indices b t i : 0 <= b < a_gridDim a -> 0 <= t < a_blockDim a ->
  i ∈ indices a b t <-> 0 <= i < nw a /\ b = owner_block i /\ t = owner_thread i.
Proof using ok Ha.
  intros Hb Ht. destruct ok as [HN HW _ _ _]. destruct (ok_grid a Ha). destruct (ok_size a Ha) as (Hn & _ & Hw).
  pose proof blockDim_pos as (H1 & H2 & H3). destruct (thread_parts t Ht) as (Hl & Hwp & Et).
  unfold AllreduceAllpair.indices, nWarpsPerBlock. unfold owner_block, owner_thread.
  set (G := a_gridDim a) in *. set (nW := a_blockDim a / W) in *. set (l := lane W t) in *. set (w := warpId W t) in *.
  assert (0 <= l + b * W < G * W) by nia.
  assert (0 <= l + b * W + w * W * G < nW * W * G) by nia.
  rewrite elem_of_strided; [|lia..|]; [|nia].
  replace (nW * W * G) with (G * W * nW) by ring. rewrite mod_split by nia.
  pose proof (Z.mod_pos_bound i (G * W) ltac:(nia)) as Hx. set (x := i mod (G * W)) in *. set (y := i / (G * W) mod nW).
  pose proof (Z.div_mod x W ltac:(lia)) as Ex. pose proof (Z.mod_pos_bound x W HW).
  split; (intros [Hi H']; split; [done|]).
  - destruct (split_unique (G * W) x y (l + b * W) w) as [E1 E2]; [nia|done|nia|rewrite H'; ring|].
    destruct (split_unique W (x mod W) (x / W) l b) as [E3 E4]; [lia..|]. rewrite E2, E3, <- Et. split; [by symmetry|done].
  - destruct H' as [Eb Ew]. rewrite Et in Ew. 
    destruct (split_unique W l w (x mod W) y) as [E3 E4]; [lia..| |]; [unfold y; lia|]. rewrite E3, E4. rewrite Ex at 1. rewrite <- Eb. ring.
Qed.

Lemma indices_NoDup b t : 0 <= b < a_gridDim a -> 0 <= t < a_blockDim a -> NoDup (indices a b t).
Proof using ok Ha.
  intros Hb Ht. destruct ok as [HN HW _ _ _]. destruct (ok_size a Ha) as (Hn & _ & Hw).
  pose proof blockDim_pos as (H1 & H2 & H3). destruct (thread_parts t Ht) as (Hl & Hwp & Et).
  apply NoDup_strided; unfold nWarpsPerBlock; nia.
Qed.

(** What a thread puts: the words of its lane and block, to the peer of its warp. *)
Lemma elem_of_puts r b t f x : 0 <= r < N -> 0 <= b < a_gridDim a -> 0 <= t < a_blockDim a ->
  x ∈ puts a r b t f <->
  warpId W t < N - 1 /\ exists i, 0 <= i < nw a /\ i mod (a_gridDim a * W) = lane W t + b * W /\
    x = (src a r i, slot_of a (remoteRank r (warpId W t)) f r i).
Proof using ok Ha.
  intros Hr Hb Ht. destruct ok as [HN HW _ _ _]. destruct (ok_size a Ha) as (Hn & _ & Hw).
  pose proof blockDim_pos as (H1 & H2 & H3). destruct (thread_parts t Ht) as (Hl & Hwp & Et).
  unfold AllreduceAllpair.puts, nPeers. destruct (Z.ltb_spec (warpId W t) (N - 1)) as [Hlt|]; [|split; [by intros ?%elem_of_nil|lia]].
  destruct (ok_channels a Ha r (warpId W t) Hr ltac:(lia)) as (h & -> & Ed & Es).
  unfold putPackets, nElem. simpl words. change (4 * Z.of_nat 1) with 4. change (8 * Z.of_nat 1) with 8.
  assert (0 <= lane W t + b * W < a_gridDim a * W) by nia.
  assert (a_gridDim a * W <= a_gridDim a * a_blockDim a) by nia.
  rewrite Z.div_mul by lia. rewrite list_elem_of_fmap. split.
  - intros (i & -> & Hi). apply elem_of_strided in Hi as [Hi Hm]; [|lia..]. split; [done|]. exists i. split; [done|]. split; [done|].
    unfold src, packet_from, sizeof_LL8Packet. f_equal; [lia|]. rewrite Ed. ring.
  - intros (_ & i & Hi & Hm & ->). exists i. split; [|apply elem_of_strided; [lia..|done]].
    unfold src, packet_from, sizeof_LL8Packet. f_equal; [lia|]. rewrite Ed. ring.
Qed.

(** Some thread of [p] puts each packet. *)
Lemma put_exists p q k i : 0 <= p < N -> 0 <= q < N -> p <> q -> 0 <= i < nw a ->
  exists b t x, 0 <= b < a_gridDim a /\ 0 <= t < a_blockDim a /\ x ∈ puts a p b t (F k) /\ x.2 = slot a q k p i.
Proof using ok Ha.
  intros Hp Hq Hpq Hi. destruct ok as [HN HW _ _ _]. destruct (ok_grid a Ha). destruct (ok_warps a Ha) as [_ Hw].
  pose proof blockDim_pos as (H1 & H2 & H3). destruct (remoteRank_surj N p q Hp Hq ltac:(congruence)) as (w & Hw' & <-).
  pose proof (Z.mod_pos_bound i (a_gridDim a * W) ltac:(nia)) as Hx. set (x := i mod (a_gridDim a * W)) in *.
  pose proof (Z.div_mod x W ltac:(lia)) as Ex. pose proof (Z.mod_pos_bound x W HW).
  assert (Hb : 0 <= x / W < a_gridDim a) by (split; [apply Z.div_pos; lia|apply Z.div_lt_upper_bound; lia]).
  assert (Ht : 0 <= w * W + x mod W < a_blockDim a) by nia.
  assert (El : lane W (w * W + x mod W) = x mod W) by (unfold lane; rewrite Z.add_comm, Z.mod_add by lia; apply Z.mod_mod; lia).
  assert (Ew : warpId W (w * W + x mod W) = w) by (unfold warpId; rewrite Z.add_comm, Z.div_add by lia; rewrite Z.div_small by lia; lia).
  exists (x / W), (w * W + x mod W), (src a p i, slot a (remoteRank p w) k p i). split; [done|]. split; [done|].
  split; [|done]. apply elem_of_puts; try done. rewrite Ew, El. split; [lia|]. exists i. split; [done|]. split; [|done]. fold x. lia.
Qed.

(** A put and the reduction of the same word are in the same block. *)
Lemma put_same_block b t i : 0 <= t < a_blockDim a -> 0 <= i ->
  i mod (a_gridDim a * W) = lane W t + b * W -> owner_block i = b.
Proof using ok Ha.
  intros Ht Hi Hm. destruct ok as [HN HW _ _ _]. destruct (thread_parts t Ht) as (Hl & _).
  unfold owner_block. rewrite Hm, Z.div_add by lia. rewrite Z.div_small by lia. lia.
Qed.

(** Packets stay within a scratch buffer. *)
Lemma slot_offset q f p i : 0 <= p < N -> 0 <= i < nw a ->
  exists o, slot_of a q f p i = scratch q + o /\ 0 <= o < scratchBufferSize /\
    o = (if f mod 2 =? 0 then 0 else scratchBufferSize / 2) + (p * nw a + i) * 8 /\ (p * nw a + i) * 8 < scratchBufferSize / 2.
Proof using ok Ha.
  intros Hp Hi. destruct (ok_size a Ha) as (Hn & Hs & _). unfold packet_from, scratchBaseOffset, sizeof_LL8Packet.
  eexists. split; [rewrite <- Z.add_assoc; reflexivity|].
  assert (0 <= (p * nw a + i) * 8 < scratchBufferSize / 2) by nia.
  assert (2 * (scratchBufferSize / 2) <= scratchBufferSize) by (apply Z.mul_div_le; lia).
  destruct (_ =? 0); lia.
Qed.

(** Every flag below [blocks] is set by one thread. *)
Lemma elem_of_flags b t i : 0 <= b < a_gridDim a -> 0 <= t < a_blockDim a ->
  i ∈ flags_to_set flagSize a b t <->
  (t = 0 /\ i = b) \/ (i = t + b * a_blockDim a /\ a_gridDim a <= i < flagSize / 4).
Proof using.
  intros Hb Ht. unfold flags_to_set. rewrite elem_of_app.
  destruct (Z.eqb_spec t 0); destruct (Z.leb_spec (a_gridDim a) (t + b * a_blockDim a));
    destruct (Z.ltb_spec (t + b * a_blockDim a) (flagSize / 4)); simpl; rewrite ?elem_of_nil, ?list_elem_of_singleton; lia.
Qed.

Lemma flags_NoDup b t : 0 <= b < a_gridDim a -> NoDup (flags_to_set flagSize a b t).
Proof using.
  intros Hb. unfold flags_to_set. destruct (Z.eqb_spec t 0); destruct (Z.leb_spec (a_gridDim a) (t + b * a_blockDim a));
    destruct (Z.ltb_spec (t + b * a_blockDim a) (flagSize / 4)); simpl; repeat constructor; rewrite ?elem_of_nil, ?list_elem_of_singleton; lia.
Qed.

Lemma flag_unique b t b' t' i : 0 <= b < a_gridDim a -> 0 <= t < a_blockDim a -> 0 <= b' < a_gridDim a -> 0 <= t' < a_blockDim a ->
  i ∈ flags_to_set flagSize a b t -> i ∈ flags_to_set flagSize a b' t' -> b' = b /\ t' = t.
Proof using.
  intros Hb Ht Hb' Ht'. rewrite !elem_of_flags by done. intros [[-> ->]|[Ei Hi]] [[-> Ei']|[Ei' Hi']]; try lia.
  destruct (split_unique (a_blockDim a) t b t' b'); lia.
Qed.

Lemma flag_exists i : 0 <= i < blocks ->
  exists b t, 0 <= b < a_gridDim a /\ 0 <= t < a_blockDim a /\ i ∈ flags_to_set flagSize a b t.
Proof using ok Ha.
  intros Hi. destruct (ok_flags a Ha) as [H1 H2]. pose proof blockDim_pos as (H3 & _).
  destruct (Z.lt_ge_cases i (a_gridDim a)) as [Hlt|Hge].
  - exists i, 0. split; [lia|]. split; [lia|]. apply elem_of_flags; lia.
  - pose proof (Z.div_mod i (a_blockDim a) ltac:(lia)). pose proof (Z.mod_pos_bound i (a_blockDim a) H3).
    assert (0 <= i / a_blockDim a < a_gridDim a) by (split; [apply Z.div_pos; lia|apply Z.div_lt_upper_bound; lia]).
    exists (i / a_blockDim a), (i mod a_blockDim a). split; [done|]. split; [done|]. apply elem_of_flags; lia.
Qed.
End one.

(** Packets of calls next to each other, or of one call, are apart. *)
Lemma slot_inj a a' q q' f f' p p' i i' : call_ok a -> call_ok a' -> 0 <= q < N -> 0 <= q' < N ->
  0 <= p < N -> 0 <= p' < N -> 0 <= i < nw a -> 0 <= i' < nw a' ->
  slot_of a q f p i = slot_of a' q' f' p' i' -> q' = q /\ (f' mod 2 = f mod 2) /\ (a = a' -> p' = p /\ i' = i).
Proof using ok.
  intros Ha Ha' Hq Hq' Hp Hp' Hi Hi' E.
  destruct (slot_offset a Ha q f p i Hp Hi) as (o & Eo & Ho & Do & Bo). destruct (slot_offset a' Ha' q' f' p' i' Hp' Hi') as (o' & Eo' & Ho' & Do' & Bo').
  rewrite Eo, Eo' in E. assert (q = q') as <- by exact (ok_scratch ok q q' o o' Hq Hq' Ho Ho' E). split; [done|].
  assert (Eoo : o = o') by lia. clear E Eo Eo'. destruct (ok_size a Ha) as (Hn & _). destruct (ok_size a' Ha') as (Hn' & _).
  pose proof (Z.mod_pos_bound f 2 ltac:(lia)). pose proof (Z.mod_pos_bound f' 2 ltac:(lia)).
  assert (0 <= p * nw a) by nia. assert (0 <= p' * nw a') by nia.
  destruct (Z.eqb_spec (f mod 2) 0), (Z.eqb_spec (f' mod 2) 0); try lia;
    (split; [lia|intros <-; destruct (split_unique (nw a) i p i' p'); lia]).
Qed.

Lemma F_inj k k' : F k = F k' -> k = k'.
Proof using. unfold F. lia. Qed.

Lemma F_parity k k' : F k' mod 2 = F k mod 2 -> (k' <= Datatypes.S k)%nat -> (k <= Datatypes.S k')%nat -> k' = k.
Proof using.
  unfold F. intros H H1 H2. destruct (decide (k' = k)); [done|]. exfalso.
  pose proof (Z.div_mod (flag0 + Z.of_nat k') 2 ltac:(lia)). pose proof (Z.div_mod (flag0 + Z.of_nat k) 2 ltac:(lia)). lia.
Qed.

(** ** The invariant *)

Notation sys := (@system D A).
Notation thread_step := (thread_step acc W sizeofT N scratch scratchBufferSize 2 flagSize).
Notation step := (step acc W sizeofT N N scratch scratchBufferSize 2 flagSize calls host).
Notation input := (@input S D A).
Notation reduced := (reduced acc N).

(** Behind [__syncthreads]. *)
Definition past (p : pc A) : bool := match p with PcFlag | PcPut _ _ | PcSync _ => false | _ => true end.

(** The thread has stored word [i], put the packet at [to], set flag [i]. *)
Definition stored (i : Z) (p : pc A) : bool :=
  match p with
  | PcLoop _ todo => bool_decide (i ∉ todo)
  | PcRead _ j _ _ todo => bool_decide (i <> j /\ i ∉ todo)
  | PcSetFlags _ _ | PcDone => true
  | _ => false
  end.
Definition put_done (to : Z) (p : pc A) : bool :=
  match p with PcFlag => false | PcPut _ todo => bool_decide (to ∉ map snd todo) | _ => true end.
Definition flag_done (i : Z) (p : pc A) : bool :=
  match p with PcSetFlags _ todo => bool_decide (i ∉ todo) | PcDone => true | _ => false end.

Definition in_grid (a : call S) (b t : Z) : Prop := 0 <= b < a_gridDim a /\ 0 <= t < a_blockDim a.

Definition fold_inputs (s : sys) (k : nat) (a : call S) (r i : Z) (done : list Z) : A :=
  foldl (fun v index => accumulate acc v (input s k a (remoteRank r index) i)) (upcast acc (input s k a r i)) done.

Definition thread_ok (s : sys) (r : Z) (a : call S) (b t : Z) (p : pc A) : Prop :=
  let f := F (s_call s r) in
  match p with
  | PcFlag | PcDone => True
  | PcPut flag todo => flag = f /\ exists l, puts a r b t f = l ++ todo
  | PcSync flag => flag = f
  | PcLoop flag todo => flag = f /\ exists l, indices a b t = l ++ todo
  | PcRead flag idx v ks todo => flag = f /\ (exists l, indices a b t = l ++ idx :: todo) /\
      exists done, threads (N - 1) = done ++ ks /\ v = fold_inputs s (s_call s r) a r idx done /\
        forall index, index ∈ done -> (s_call s r <= s_call s (remoteRank r index))%nat
  | PcSetFlags flag todo => flag = f /\ exists l, flags_to_set flagSize a b t = l ++ todo
  end.

(** Rank [p] has put packet [i] of call [k] to rank [q]. *)
Definition sent (s : sys) (p q : Z) (k : nat) (a : call S) (i : Z) : Prop :=
  (k < s_call s p)%nat \/
  k = s_call s p /\ forall b t x, in_grid a b t -> x ∈ puts a p b t (F k) -> x.2 = slot a q k p i ->
    put_done x.2 (s_pc s p b t) = true.

(** Calls in progress and the program points of the threads. *)
Record control (s : sys) : Prop := {
  i_call : forall r, 0 <= r < N -> (s_call s r < length calls)%nat;
  i_near : forall r q, 0 <= r < N -> 0 <= q < N -> (s_call s q <= Datatypes.S (s_call s r))%nat;
  i_thread : forall r a b t, 0 <= r < N -> calls !! s_call s r = Some a -> in_grid a b t -> thread_ok s r a b t (s_pc s r b t);
  i_sync : forall r a b t t', 0 <= r < N -> calls !! s_call s r = Some a -> in_grid a b t -> in_grid a b t' ->
    past (s_pc s r b t) = true -> arrived (s_pc s r b t') = true
}.

(** What memory holds. *)
Record inv (s : sys) : Prop := {
  i_control : control s;
  i_flags : forall r a b t i, 0 <= r < N -> calls !! s_call s r = Some a -> in_grid a b t -> 0 <= i < blocks ->
    i ∈ flags_to_set flagSize a b t ->
    s_flags s r i = if flag_done i (s_pc s r b t) then F (Datatypes.S (s_call s r)) else F (s_call s r);
  i_packet : forall q o k, 0 <= q < N -> 0 <= o < scratchBufferSize -> (k < length calls)%nat ->
    (s_packet s (scratch q + o)).2 = F k ->
    exists a p i, calls !! k = Some a /\ 0 <= p < N /\ p <> q /\ 0 <= i < nw a /\ scratch q + o = slot a q k p i /\
      (k <= s_call s p)%nat /\ (s_packet s (scratch q + o)).1 = input s k a p i;
  i_mem : forall r a b t i, 0 <= r < N -> calls !! s_call s r = Some a -> in_grid a b t -> i ∈ indices a b t ->
    if stored i (s_pc s r b t)
    then s_mem s r (dst a r i) = reduced s (s_call s r) a r i /\ forall p, 0 <= p < N -> (s_call s r <= s_call s p)%nat
    else s_mem s r (src a r i) = input s (s_call s r) a r i;
  i_sent : forall p q k a i, 0 <= p < N -> 0 <= q < N -> p <> q -> calls !! k = Some a -> (s_call s q <= k)%nat ->
    0 <= i < nw a -> sent s p q k a i -> (s_packet s (slot a q k p i)).2 = F k
}.

(** *** Moving one thread *)

Lemma set_pc_cases (s : sys) r b t p r' b' t' :
  (r' = r /\ b' = b /\ t' = t /\ s_pc (set_pc s r b t p) r' b' t' = p) \/
  ((r' <> r \/ b' <> b \/ t' <> t) /\ s_pc (set_pc s r b t p) r' b' t' = s_pc s r' b' t').
Proof using.
  simpl. unfold upd. destruct (Z.eqb_spec r' r) as [->|]; [|by right; auto]. destruct (Z.eqb_spec b' b) as [->|]; [|by right; auto].
  destruct (Z.eqb_spec t' t) as [->|]; [by left|by right; auto].
Qed.

Section move.
Context (s : sys) (r : Z) (a : call S) (b t : Z) (p' : pc A).
Hypothesis Hr : 0 <= r < N.
Hypothesis Ha : calls !! s_call s r = Some a.
Hypothesis Hg : in_grid a b t.

(** Case analysis on whether a thread of the new state is the one that moved. *)
Ltac moved r' b' t' E :=
  destruct (set_pc_cases s r b t p' r' b' t') as [(-> & -> & -> & E)|[_ E]]; rewrite E in *.
Ltac same_call Ha' := rewrite Ha in Ha'; injection Ha' as <-.

Lemma control_goto : control s -> thread_ok s r a b t p' ->
  (arrived (s_pc s r b t) = true -> arrived p' = true) ->
  (past p' = true -> forall t', in_grid a b t' -> arrived (s_pc s r b t') = true) ->
  control (set_pc s r b t p').
Proof using Hr Ha Hg.
  intros [I1 I2 I3 I4] Hok Harr Hpast. split; [exact I1|exact I2| |].
  - intros r' a' b' t' Hr' Ha' Hg'. change (s_call (set_pc s r b t p')) with (s_call s) in *.
    moved r' b' t' E; [|exact (I3 _ _ _ _ Hr' Ha' Hg')]. same_call Ha'. exact Hok.
  - intros r' a' b' t1 t2 Hr' Ha' Hg1 Hg2. change (s_call (set_pc s r b t p')) with (s_call s) in *. intros H1.
    assert (H2 : arrived (s_pc s r' b' t2) = true).
    { moved r' b' t1 E; [same_call Ha'; by apply Hpast|by eapply (I4 r' a' b' t1 t2)]. }
    moved r' b' t2 E; [by apply Harr|done].
Qed.

(** What has been put so far stays put. *)
Lemma sent_goto : 
  (forall x, x ∈ puts a r b t (F (s_call s r)) -> put_done x.2 p' = true ->
    put_done x.2 (s_pc s r b t) = true \/ (s_packet s x.2).2 = F (s_call s r)) ->
  (forall p q k a i, 0 <= p < N -> 0 <= q < N -> p <> q -> calls !! k = Some a -> (s_call s q <= k)%nat ->
    0 <= i < nw a -> sent s p q k a i -> (s_packet s (slot a q k p i)).2 = F k) ->
  forall p q k a i, 0 <= p < N -> 0 <= q < N -> p <> q -> calls !! k = Some a -> (s_call s q <= k)%nat ->
    0 <= i < nw a -> sent (set_pc s r b t p') p q k a i -> (s_packet s (slot a q k p i)).2 = F k.
Proof using Hr Ha Hg.
  intros Hp I8 p1 q k a' i Hp1 Hq Hpq Ha' Hk Hi Hs.
  destruct (decide ((s_packet s (slot a' q k p1 i)).2 = F k)) as [|Hne]; [done|].
  apply I8; try done. destruct Hs as [Hs|[Ek Hs]]; [by left|right]. split; [done|]. change (s_call (set_pc s r b t p')) with (s_call s) in Ek.
  intros b' t' x Hg' Hx Ex. specialize (Hs b' t' x Hg' Hx Ex). moved p1 b' t' E; [|done].
  subst k. same_call Ha'. destruct (Hp x Hx Hs) as [|Hf]; [done|]. by rewrite <- Ex in Hne.
Qed.

(** A step that touches no memory. *)
Lemma inv_goto : inv s -> thread_ok s r a b t p' ->
  (arrived (s_pc s r b t) = true -> arrived p' = true) ->
  (past p' = true -> forall t', in_grid a b t' -> arrived (s_pc s r b t') = true) ->
  (forall i, i ∈ flags_to_set flagSize a b t -> flag_done i p' = flag_done i (s_pc s r b t)) ->
  (forall i, i ∈ indices a b t -> stored i p' = stored i (s_pc s r b t)) ->
  (forall x, x ∈ puts a r b t (F (s_call s r)) -> put_done x.2 p' = true -> put_done x.2 (s_pc s r b t) = true \/ (s_packet s x.2).2 = F (s_call s r)) ->
  inv (set_pc s r b t p').
Proof using Hr Ha Hg.
  intros [IC I5 I6 I7 I8] Hok Harr Hpast Hf Hst Hp. split; [by apply control_goto| |exact I6| |by apply sent_goto].
  - intros r' a' b' t' i Hr' Ha' Hg' Hi Hin. change (s_call (set_pc s r b t p')) with (s_call s) in *.
    change (s_flags (set_pc s r b t p')) with (s_flags s). rewrite (I5 r' a' b' t' i) by done.
    moved r' b' t' E; [|done]. same_call Ha'. by rewrite Hf.
  - intros r' a' b' t' i Hr' Ha' Hg' Hin. change (s_call (set_pc s r b t p')) with (s_call s) in *.
    change (s_mem (set_pc s r b t p')) with (s_mem s). specialize (I7 r' a' b' t' i Hr' Ha' Hg' Hin).
    moved r' b' t' E; [|exact I7]. same_call Ha'. rewrite Hst by done. exact I7.
Qed.
End move.

(** *** Steps that write memory *)

Lemma stored_past i p : stored i p = true -> past p = true.
Proof using. by destruct p. Qed.

Lemma fold_threads s k a r i : downcast acc (fold_inputs s k a r i (threads (N - 1))) = reduced s k a r i.
Proof using. done. Qed.

(** The threads of a block put what is still there: none of them has stored a word. *)
Lemma source_intact s r a b t i : inv s -> 0 <= r < N -> calls !! s_call s r = Some a -> in_grid a b t ->
  arrived (s_pc s r b t) = false -> 0 <= i < nw a -> i mod (a_gridDim a * W) = lane W t + b * W ->
  s_mem s r (src a r i) = input s (s_call s r) a r i.
Proof using ok.
  intros I Hr Ha [Hb Ht] Harr Hi Hm. pose proof (ok_calls ok _ _ Ha) as Hok.
  pose proof (put_same_block a Hok b t i Ht ltac:(lia) Hm) as Eb. destruct (owner_range a Hok i ltac:(lia)) as [H1 H2].
  pose proof (i_mem s I r a b (owner_thread a i) i Hr Ha ltac:(split; lia)) as H.
  specialize (H ltac:(apply elem_of_indices; try done; lia)). destruct (stored i (s_pc s r b (owner_thread a i))) eqn:E; [|done].
  apply stored_past, (i_sync s (i_control s I) r a b _ t Hr Ha) in E; [congruence|by split|by split].
Qed.

Lemma inv_put s r a b t flag from to todo : inv s -> 0 <= r < N -> calls !! s_call s r = Some a -> in_grid a b t ->
  s_pc s r b t = PcPut flag ((from, to) :: todo) ->
  inv (set_pc (mkSystem (s_call s) (s_pc s) (s_mem s) (upd (s_packet s) to (s_mem s r from, flag)) (s_flags s) (s_began s))
         r b t (PcPut flag todo)).
Proof using ok.
  intros I Hr Ha Hg Hpc. pose proof (ok_calls ok _ _ Ha) as Hok. pose proof (i_control s I) as C.
  pose proof (i_thread s C r a b t Hr Ha Hg) as Hth. rewrite Hpc in Hth. destruct Hth as [-> (l & El)].
  assert (Hin : (from, to) ∈ puts a r b t (F (s_call s r))) by exact (proj1 (in_suffix _ _ _ _ El)).
  apply (elem_of_puts a Hok) in Hin as (Hw & i & Hi & Hm & E); [|done|apply Hg..]. injection E as -> ->.
  set (q := remoteRank r (warpId W t)) in *. destruct (thread_parts a Hok t ltac:(apply Hg)) as (_ & Hwp & _).
  destruct (remoteRank_spec N r (warpId W t) Hr ltac:(lia)) as [Hq Hqr]. fold q in Hq, Hqr.
  assert (Hsrc : s_mem s r (src a r i) = input s (s_call s r) a r i) by (eapply source_intact; eauto; by rewrite Hpc).
  set (to := slot a q (s_call s r) r i) in *.
  set (s1 := mkSystem _ _ _ _ _ _).
  assert (I1 : inv s1).
  { destruct I as [_ I5 I6 I7 I8]. split; [destruct C; by split|exact I5| |exact I7|].
    - intros q' o k' Hq' Ho Hk'. simpl. unfold upd. destruct (Z.eqb_spec (scratch q' + o) to) as [Et|]; [|by apply I6].
      simpl. intros Ef%F_inj. subst k'. destruct (slot_offset a Hok q (F (s_call s r)) r i Hr Hi) as (o' & Eo' & Ho' & _).
      assert (q' = q) as -> by (apply (ok_scratch ok q' q o o'); try done; by rewrite Et, <- Eo').
      exists a, r, i. split; [done|]. split; [done|]. split; [by apply not_eq_sym|]. split; [done|]. split; [done|]. split; [lia|done].
    - intros p1 q' k' a' i' Hp1 Hq' Hpq Ha' Hk' Hi' Hs. simpl. unfold upd.
      destruct (Z.eqb_spec (slot a' q' k' p1 i') to) as [Et|]; [simpl|by apply I8].
      destruct (slot_inj a' a q' q (F k') (F (s_call s r)) p1 r i' i (ok_calls ok _ _ Ha') Hok Hq' Hq Hp1 Hr Hi' Hi Et) as (-> & Hpar & _).
      f_equal. apply F_parity; [done| |].
      + pose proof (i_near s C q' r Hq' Hr). simpl in *. lia.
      + pose proof (i_near s C r p1 Hr Hp1). destruct Hs as [Hs|[Hs _]]; simpl in Hs; lia. }
  apply inv_goto with (a := a); try done.
  - split; [done|]. exists (l ++ [(src a r i, to)]). change (s_call s1) with (s_call s). rewrite El, <- app_assoc. done.
  - change (s_pc s1) with (s_pc s). by rewrite Hpc.
  - intros i0 _. change (s_pc s1) with (s_pc s). by rewrite Hpc.
  - intros i0 _. change (s_pc s1) with (s_pc s). by rewrite Hpc.
  - intros [f0 to0] Hx Hd. change (s_pc s1) with (s_pc s). rewrite Hpc. simpl in *. unfold upd.
    destruct (Z.eqb_spec to0 to) as [|Hne]; [by right|left]. apply bool_decide_eq_true in Hd. apply bool_decide_eq_true.
    rewrite not_elem_of_cons. done.
Qed.

Lemma inv_store s r a b t flag idx v todo : inv s -> 0 <= r < N -> calls !! s_call s r = Some a -> in_grid a b t ->
  s_pc s r b t = PcRead flag idx v [] todo ->
  inv (set_pc (mkSystem (s_call s) (s_pc s) (upd (s_mem s) r (upd (s_mem s r) (dst a r idx) (downcast acc v))) (s_packet s) (s_flags s) (s_began s))
         r b t (PcLoop flag todo)).
Proof using ok host.
  intros I Hr Ha Hg Hpc. pose proof (ok_calls ok _ _ Ha) as Hok. pose proof (i_control s I) as C.
  pose proof (i_thread s C r a b t Hr Ha Hg) as Hth. rewrite Hpc in Hth.
  destruct Hth as (-> & (l & El) & done & Ed & Ev & Hev). rewrite app_nil_r in Ed. subst done.
  destruct (in_suffix _ _ _ _ El) as [Hin Hnotin]. specialize (Hnotin (indices_NoDup a Hok b t (proj1 Hg) (proj2 Hg))).
  pose proof (proj1 (elem_of_indices a Hok b t idx (proj1 Hg) (proj2 Hg)) Hin) as (Hidx & Eb & Et).
  set (mem := upd (s_mem s) r _). set (s1 := mkSystem _ _ _ _ _ _).
  assert (C1 : control s1) by (destruct C; by split).
  destruct I as [_ I5 I6 I7 I8].
  split; [apply control_goto with (a := a); try done| |exact I6| |].
  - change (s_call s1) with (s_call s). split; [done|]. exists (l ++ [idx]). rewrite El, <- app_assoc. done.
  - intros _ t' Ht'. apply (i_sync s C r a b t t'); try done. by rewrite Hpc.
  - intros r' a' b' t' i Hr' Ha' Hg' Hi Hf. change (s_call (set_pc s1 r b t (PcLoop (F (s_call s r)) todo))) with (s_call s) in *.
    change (s_flags (set_pc s1 r b t (PcLoop (F (s_call s r)) todo))) with (s_flags s). rewrite (I5 r' a' b' t' i) by done.
    destruct (set_pc_cases s1 r b t (PcLoop (F (s_call s r)) todo) r' b' t') as [(-> & -> & -> & ->)|[_ ->]]; [by rewrite Hpc|done].
  - intros r' a' b' t' i Hr' Ha' Hg' Hin'. change (s_call (set_pc s1 r b t (PcLoop (F (s_call s r)) todo))) with (s_call s) in *.
    change (s_mem (set_pc s1 r b t (PcLoop (F (s_call s r)) todo))) with mem.
    pose proof (proj1 (elem_of_indices a' (ok_calls ok _ _ Ha') b' t' i (proj1 Hg') (proj2 Hg')) Hin') as (Hi & Eb' & Et').
    specialize (I7 r' a' b' t' i Hr' Ha' Hg' Hin').
    destruct (decide (r' = r)) as [->|Hr'r].
    2:{ unfold mem. rewrite upd_other by done.
        destruct (set_pc_cases s1 r b t (PcLoop (F (s_call s r)) todo) r' b' t') as [(-> & _)|[_ ->]]; [done|exact I7]. }
    rewrite Ha in Ha'. injection Ha' as <-. unfold mem. rewrite !upd_at.
    destruct (decide (i = idx)) as [->|Hne].
    + assert (b' = b) as -> by exact (eq_trans Eb' (eq_sym Eb)). assert (t' = t) as -> by exact (eq_trans Et' (eq_sym Et)).
      destruct (set_pc_cases s1 r b t (PcLoop (F (s_call s r)) todo) r b t) as [(_ & _ & _ & ->)|[? _]]; [|lia].
      simpl. rewrite bool_decide_true by done. rewrite upd_at, Ev. split; [exact (fold_threads s (s_call s r) a r idx)|].
      intros p Hp. destruct (decide (p = r)) as [->|Hpr]; [done|].
      destruct (remoteRank_surj N r p Hr Hp Hpr) as (w & Hw & <-). apply Hev, elem_of_threads; lia.
    + assert (Est : stored i (s_pc (set_pc s1 r b t (PcLoop (F (s_call s r)) todo)) r b' t') = stored i (s_pc s r b' t')).
      { destruct (set_pc_cases s1 r b t (PcLoop (F (s_call s r)) todo) r b' t') as [(_ & -> & -> & ->)|[_ ->]]; [|done].
        rewrite Hpc. simpl. apply bool_decide_ext. tauto. }
      rewrite Est. destruct (stored i (s_pc s r b' t')).
      * rewrite upd_other; [exact I7|]. unfold dst. lia.
      * rewrite upd_other; [exact I7|]. intros E. apply Hne. by eapply (ok_overlap a Hok r).
  - refine (sent_goto s1 r a b t _ Hr Ha Hg _ I8). intros x _ _. left. change (s_pc s1) with (s_pc s). by rewrite Hpc.
Qed.

Lemma inv_set_flag s r a b t flag j todo : inv s -> 0 <= r < N -> calls !! s_call s r = Some a -> in_grid a b t ->
  s_pc s r b t = PcSetFlags flag (j :: todo) ->
  inv (set_pc (mkSystem (s_call s) (s_pc s) (s_mem s) (s_packet s) (upd (s_flags s) r (upd (s_flags s r) j (u32 (flag + 1)))) (s_began s))
         r b t (PcSetFlags flag todo)).
Proof using ok host.
  intros I Hr Ha Hg Hpc. pose proof (ok_calls ok _ _ Ha) as Hok. pose proof (i_control s I) as C.
  pose proof (i_thread s C r a b t Hr Ha Hg) as Hth. rewrite Hpc in Hth. destruct Hth as [-> (l & El)].
  destruct (in_suffix _ _ _ _ El) as [Hin Hnotin]. specialize (Hnotin (flags_NoDup a b t (proj1 Hg))).
  set (flags := upd (s_flags s) r _). set (s1 := mkSystem _ _ _ _ _ _). set (p' := PcSetFlags _ todo).
  assert (C1 : control s1) by (destruct C; by split).
  destruct I as [_ I5 I6 I7 I8].
  split; [apply control_goto with (a := a); try done| |exact I6| |].
  - change (s_call s1) with (s_call s). split; [done|]. exists (l ++ [j]). rewrite El, <- app_assoc. done.
  - intros _ t' Ht'. apply (i_sync s C r a b t t'); try done. by rewrite Hpc.
  - intros r' a' b' t' i Hr' Ha' Hg' Hi Hf. change (s_call (set_pc s1 r b t p')) with (s_call s) in *.
    change (s_flags (set_pc s1 r b t p')) with flags. specialize (I5 r' a' b' t' i Hr' Ha' Hg' Hi Hf).
    destruct (decide (r' = r)) as [->|Hr'r].
    2:{ unfold flags. rewrite upd_other by done. destruct (set_pc_cases s1 r b t p' r' b' t') as [(-> & _)|[_ ->]]; [done|exact I5]. }
    rewrite Ha in Ha'. injection Ha' as <-. unfold flags. rewrite upd_at. destruct (decide (i = j)) as [->|Hne].
    + destruct (flag_unique a b t b' t' j (proj1 Hg) (proj2 Hg) (proj1 Hg') (proj2 Hg') Hin Hf) as [-> ->].
      destruct (set_pc_cases s1 r b t p' r b t) as [(_ & _ & _ & ->)|[? _]]; [|lia].
      simpl. rewrite upd_at, bool_decide_true by done. unfold F. pose proof (ok_flag0 ok). pose proof (i_call s C r Hr).
      rewrite u32_small by lia. lia.
    + rewrite upd_other by done. destruct (set_pc_cases s1 r b t p' r b' t') as [(_ & -> & -> & ->)|[_ ->]]; [|exact I5].
      rewrite Hpc in I5. rewrite I5. simpl. rewrite (bool_decide_ext (i ∉ j :: todo) (i ∉ todo)); [done|]. rewrite not_elem_of_cons. tauto.
  - intros r' a' b' t' i Hr' Ha' Hg' Hin'. change (s_call (set_pc s1 r b t p')) with (s_call s) in *.
    change (s_mem (set_pc s1 r b t p')) with (s_mem s). specialize (I7 r' a' b' t' i Hr' Ha' Hg' Hin').
    destruct (set_pc_cases s1 r b t p' r' b' t') as [(-> & -> & -> & ->)|[_ ->]]; [by rewrite Hpc in I7|exact I7].
  - refine (sent_goto s1 r a b t _ Hr Ha Hg _ I8). intros x _ _. left. change (s_pc s1) with (s_pc s). by rewrite Hpc.
Qed.

(** What a thread reads with its flag is the word of this call. *)
Lemma packet_is s r a index i : inv s -> 0 <= r < N -> calls !! s_call s r = Some a -> index ∈ threads (N - 1) -> 0 <= i < nw a ->
  (s_packet s (slot a r (s_call s r) (remoteRank r index) i)).2 = F (s_call s r) ->
  (s_packet s (slot a r (s_call s r) (remoteRank r index) i)).1 = input s (s_call s r) a (remoteRank r index) i /\
  (s_call s r <= s_call s (remoteRank r index))%nat.
Proof using ok.
  intros I Hr Ha Hin Hi Hf. pose proof (ok_calls ok _ _ Ha) as Hok. pose proof (ok_ranks ok).
  apply elem_of_threads in Hin; [|lia]. destruct (remoteRank_spec N r index Hr Hin) as [Hp Hne].
  destruct (slot_offset a Hok r (F (s_call s r)) (remoteRank r index) i Hp Hi) as (o & Eo & Ho & _). rewrite Eo in *.
  destruct (i_packet s I r o (s_call s r) Hr Ho (i_call s (i_control s I) r Hr) Hf) as (a' & p & i' & Ha' & Hp' & _ & Hi' & E & Hle & Ev).
  rewrite Ha in Ha'. injection Ha' as <-. rewrite <- Eo in E.
  destruct (slot_inj a a r r (F (s_call s r)) (F (s_call s r)) (remoteRank r index) p i i') as (_ & _ & H'); try done.
  destruct (H' eq_refl) as [-> ->]. done.
Qed.

Lemma inv_thread s r a b t p' s' : inv s -> 0 <= r < N -> calls !! s_call s r = Some a -> in_grid a b t ->
  thread_step a r b t s = Some (p', s') -> inv (set_pc s' r b t p').
Proof using ok host.
  intros I Hr Ha Hg H. pose proof (ok_calls ok _ _ Ha) as Hok. pose proof (i_control s I) as C.
  pose proof (i_thread s C r a b t Hr Ha Hg) as Hth. destruct (ok_grid a Hok). pose proof (blockDim_pos a Hok) as (Hbd & _).
  unfold AllreduceAllpair.thread_step in H. destruct (s_pc s r b t) as [|flag [|[from to] todo]|flag|flag [|idx todo]|flag idx v [|index ks] todo|flag [|j todo]|] eqn:Hpc; simpl in Hth.
  - (* the flag *) injection H as <- <-.
    assert (Ef : s_flags s r b = F (s_call s r)).
    { destruct Hg as [Hb Ht]. assert (Hg0 : in_grid a b 0) by (split; lia).
      rewrite (i_flags s I r a b 0 b Hr Ha Hg0); [|lia|apply elem_of_flags; lia].
      destruct (flag_done b (s_pc s r b 0)) eqn:E; [|done]. exfalso.
      assert (Hp : past (s_pc s r b 0) = true) by (by destruct (s_pc s r b 0)).
      apply (i_sync s C r a b 0 t Hr Ha Hg0 ltac:(by split)) in Hp. by rewrite Hpc in Hp. }
    rewrite Ef. apply inv_goto with (a := a); try done; rewrite ?Hpc; try done.
    + split; [done|]. by exists [].
    + intros x Hx Hd. simpl in Hd. apply bool_decide_eq_true in Hd. exfalso. apply Hd. apply list_elem_of_fmap. eauto.
  - (* all packets put *) injection H as <- <-. apply inv_goto with (a := a); try done; rewrite ?Hpc; try done.
    + exact (proj1 Hth).
    + by left.
  - (* a packet *) injection H as <- <-. by eapply inv_put.
  - (* the barrier *) destruct (forallb _ _) eqn:E in H; [|done]. injection H as <- <-. subst flag.
    apply inv_goto with (a := a); try done; rewrite ?Hpc; try done.
    + split; [done|]. by exists [].
    + intros _ t' [_ Ht']. rewrite forallb_threads in E by lia. by apply E.
    + intros i Hi. simpl. by rewrite bool_decide_false by (intros Hn; exact (Hn Hi)).
    + by left.
  - (* the end of the loop *) injection H as <- <-. destruct Hth as [-> Hth].
    apply inv_goto with (a := a); try done; rewrite ?Hpc; try done.
    + split; [done|]. by exists [].
    + intros _ t' Ht'. apply (i_sync s C r a b t t'); try done. by rewrite Hpc.
    + intros i Hi. simpl. by rewrite bool_decide_false by (intros Hn; exact (Hn Hi)).
    + by left.
  - (* a word of one's own *) injection H as <- <-. destruct Hth as [-> (l & El)].
    destruct (in_suffix _ _ _ _ El) as [Hin _].
    pose proof (i_mem s I r a b t idx Hr Ha Hg Hin) as Hm. rewrite Hpc in Hm. simpl in Hm. rewrite bool_decide_false in Hm by set_solver.
    rewrite Hm. apply inv_goto with (a := a); try done; rewrite ?Hpc; try done.
    + split; [done|]. split; [by exists l|]. exists []. split; [done|]. split; [done|]. by intros ? ?%elem_of_nil.
    + intros _ t' Ht'. apply (i_sync s C r a b t t'); try done. by rewrite Hpc.
    + intros i _. simpl. apply bool_decide_ext. rewrite not_elem_of_cons. done.
    + by left.
  - (* the result *) injection H as <- <-. by eapply inv_store.
  - (* a packet of a peer *) destruct Hth as (-> & (l & El) & done & Ed & Ev & Hev).
    destruct (in_suffix _ _ _ _ El) as [Hin _]. destruct (in_suffix _ _ _ _ Ed) as [Hix _].
    pose proof (proj1 (elem_of_indices a Hok b t idx (proj1 Hg) (proj2 Hg)) Hin) as (Hi & _).
    destruct (s_packet s (slot a r (s_call s r) (remoteRank r index) idx)) as [val f] eqn:Ep.
    destruct (Z.eqb_spec f (F (s_call s r))) as [->|]; [|done]. injection H as <- <-.
    destruct (packet_is s r a index idx I Hr Ha Hix Hi) as [Eval Hle]; [by rewrite Ep|]. rewrite Ep in Eval. simpl in Eval. subst val.
    apply inv_goto with (a := a); try done; rewrite ?Hpc; try done.
    + split; [done|]. split; [by exists l|]. exists (done ++ [index]). rewrite <- app_assoc. split; [done|].
      split; [unfold fold_inputs; rewrite foldl_app; simpl; by rewrite Ev|].
      intros i [Hi'|Hi'%list_elem_of_singleton]%elem_of_app; [by apply Hev|by subst].
    + intros _ t' Ht'. apply (i_sync s C r a b t t'); try done. by rewrite Hpc.
    + by left.
  - (* all flags set *) injection H as <- <-. apply inv_goto with (a := a); try done; rewrite ?Hpc; try done.
    + intros _ t' Ht'. apply (i_sync s C r a b t t'); try done. by rewrite Hpc.
    + by left.
  - (* a flag to set *) injection H as <- <-. by eapply inv_set_flag.
  - done.
Qed.

(** *** The next call of a rank *)

Lemma rank_done_spec a (s : sys) r : call_ok a -> rank_done a s r = true <-> forall b t, in_grid a b t -> s_pc s r b t = PcDone.
Proof using ok.
  intros Hok. destruct (ok_grid a Hok). destruct (blockDim_pos a Hok) as (Hbd & _). unfold rank_done.
  rewrite forallb_threads by lia. setoid_rewrite forallb_threads; [|lia]. unfold in_grid. split.
  - intros H' b t [Hb Ht]. specialize (H' b Hb t Ht). by destruct (s_pc s r b t).
  - intros H' b Hb t Ht. by rewrite H'.
Qed.

Lemma results s r a : inv s -> 0 <= r < N -> calls !! s_call s r = Some a -> rank_done a s r = true ->
  (forall i, 0 <= i < nw a -> s_mem s r (dst a r i) = reduced s (s_call s r) a r i) /\
  (forall p, 0 <= p < N -> (s_call s r <= s_call s p)%nat).
Proof using ok.
  intros I Hr Ha Hd. pose proof (ok_calls ok _ _ Ha) as Hok. rewrite rank_done_spec in Hd by done.
  assert (H : forall i, 0 <= i < nw a -> s_mem s r (dst a r i) = reduced s (s_call s r) a r i /\ forall p, 0 <= p < N -> (s_call s r <= s_call s p)%nat).
  { intros i Hi. destruct (owner_range a Hok i ltac:(lia)) as [Hb Ht].
    pose proof (i_mem s I r a (owner_block a i) (owner_thread a i) i Hr Ha ltac:(by split)) as H.
    rewrite Hd in H by (by split). apply H, elem_of_indices; try done. }
  split; [intros i Hi; by apply H|]. destruct (ok_size a Hok) as (Hn & _). by apply (H 0).
Qed.

Notation begin_call := (begin_call N N host).

Lemma begin_pc (s : sys) r k r' b t : s_pc (begin_call s r k) r' b t = if r' =? r then PcFlag else s_pc s r' b t.
Proof using. simpl. unfold upd, first_pc. rewrite Z.eqb_refl. by destruct (r' =? r). Qed.
Lemma begin_s_call (s : sys) r k r' : s_call (begin_call s r k) r' = if r' =? r then k else s_call s r'.
Proof using. done. Qed.

(** The inputs of the calls that have begun stay what they were. *)
Lemma begin_input (s : sys) r r' k k' a i : (k' = k -> r' <> r) -> input (begin_call s r k) k' a r' i = input s k' a r' i.
Proof using.
  intros H. unfold AllreduceAllpair.input. simpl. unfold upd. destruct (Z.eqb_spec r' r) as [->|]; [|done].
  destruct (decide (k' = k)); [|done]. exfalso. by apply H.
Qed.

Lemma begin_fold (s : sys) r r' a i done : 0 <= r' < N -> r' <> r ->
  (forall index, index ∈ done -> (s_call s r' <= s_call s (remoteRank r' index))%nat) ->
  fold_inputs (begin_call s r (Datatypes.S (s_call s r))) (s_call s r') a r' i done = fold_inputs s (s_call s r') a r' i done.
Proof using.
  intros Hr' Hne Hev. unfold fold_inputs. rewrite begin_input by done. generalize (upcast acc (input s (s_call s r') a r' i)).
  induction done as [|x l IH]; intros v; simpl; [done|]. rewrite IH by (intros y Hy; apply Hev; by constructor). f_equal. f_equal.
  apply begin_input. intros E Er. specialize (Hev x ltac:(by constructor)). rewrite Er in Hev. lia.
Qed.

Lemma inv_next s r a a' : inv s -> 0 <= r < N -> calls !! s_call s r = Some a -> rank_done a s r = true ->
  calls !! Datatypes.S (s_call s r) = Some a' -> inv (begin_call s r (Datatypes.S (s_call s r))).
Proof using ok.
  intros I Hr Ha Hd Ha'. pose proof (ok_calls ok _ _ Ha) as Hok. destruct (results s r a I Hr Ha Hd) as [Hres Hev].
  rewrite rank_done_spec in Hd by done. pose proof (i_control s I) as C. destruct I as [_ I5 I6 I7 I8].
  set (k := Datatypes.S (s_call s r)) in *. split; [split|..].
  - intros r' Hr'. rewrite begin_s_call. destruct (Z.eqb_spec r' r) as [->|]; [by eapply lookup_lt_Some|by apply (i_call s C)].
  - intros r1 q Hr1 Hq. rewrite !begin_s_call. pose proof (i_near s C r1 q Hr1 Hq). pose proof (Hev r1 Hr1). pose proof (i_near s C r1 r Hr1 Hr).
    destruct (Z.eqb_spec q r) as [->|], (Z.eqb_spec r1 r) as [->|]; unfold k; lia.
  - intros r' a1 b t Hr' Ha1 Hg. rewrite begin_pc. rewrite begin_s_call in Ha1. pose proof (i_thread s C r' a1 b t Hr') as Hth.
    destruct (Z.eqb_spec r' r) as [->|Hne]; [done|]. specialize (Hth Ha1 Hg).
    unfold thread_ok in *. rewrite begin_s_call. rewrite (proj2 (Z.eqb_neq _ _) Hne).
    destruct (s_pc s r' b t) as [| | | |flag idx v ks todo| |]; try done.
    destruct Hth as (Hf & Hl & done & Ed & Ev & He). split; [done|]. split; [done|]. exists done. split; [done|].
    split; [rewrite Ev; symmetry; by apply begin_fold|]. intros index Hi. specialize (He index Hi). rewrite begin_s_call.
    destruct (Z.eqb_spec (remoteRank r' index) r) as [E|]; [rewrite E in He; unfold k; lia|done].
  - intros r' a1 b t t' Hr' Ha1 Hg Hg'. rewrite !begin_pc. rewrite begin_s_call in Ha1.
    destruct (Z.eqb_spec r' r) as [->|Hne]; [done|]. by apply (i_sync s C r' a1 b t t').
  - intros r' a1 b t i Hr' Ha1 Hg Hi Hin. rewrite begin_pc, begin_s_call. rewrite begin_s_call in Ha1.
    change (s_flags (begin_call s r k)) with (s_flags s). destruct (Z.eqb_spec r' r) as [->|Hne]; [|by apply (I5 r' a1 b t i)].
    destruct (flag_exists a Hok i Hi) as (b0 & t0 & Hb0 & Ht0 & Hin0).
    rewrite (I5 r a b0 t0 i) by done. by rewrite Hd by done.
  - intros q o k' Hq Ho Hk' Hf. change (s_packet (begin_call s r k)) with (s_packet s) in *.
    destruct (I6 q o k' Hq Ho Hk' Hf) as (a1 & p & i & Ha1 & Hp & Hpq & Hi & Eo & Hle & Ev). exists a1, p, i.
    repeat (split; [done|]). split.
    + rewrite begin_s_call. destruct (Z.eqb_spec p r) as [->|]; [unfold k; lia|done].
    + rewrite Ev. symmetry. apply begin_input. intros -> ->. unfold k in Hle. lia.
  - intros r' a1 b t i Hr' Ha1 Hg Hin. rewrite begin_pc, begin_s_call. rewrite begin_s_call in Ha1.
    destruct (Z.eqb_spec r' r) as [->|Hne].
    + simpl. unfold AllreduceAllpair.input. simpl. rewrite !upd_at. by rewrite decide_True.
    + specialize (I7 r' a1 b t i Hr' Ha1 Hg Hin). simpl. rewrite upd_other by done. destruct (stored i (s_pc s r' b t)).
      * destruct I7 as [Em He]. split.
        -- rewrite Em. change (reduced ?s0 ?n0 ?a0 ?r0 ?i0) with (downcast acc (fold_inputs s0 n0 a0 r0 i0 (threads (N - 1)))).
           f_equal. symmetry. apply begin_fold; try done. intros index Hx. apply He.
           pose proof (ok_ranks ok). apply elem_of_threads in Hx; [|lia]. by apply remoteRank_spec.
        -- intros p Hp. unfold upd. destruct (Z.eqb_spec p r) as [->|]; [specialize (He r Hr); unfold k; lia|by apply He].
      * rewrite I7. symmetry. by apply begin_input.
  - intros p q k' a1 i Hp Hq Hpq Ha1 Hk' Hi Hs. change (s_packet (begin_call s r k)) with (s_packet s). apply I8; try done.
    + rewrite begin_s_call in Hk'. destruct (Z.eqb_spec q r) as [->|]; [unfold k in Hk'; lia|done].
    + unfold sent in Hs. rewrite begin_s_call in Hs. destruct (Z.eqb_spec p r) as [->|Hne].
      * destruct Hs as [Hs|[-> Hs]].
        -- destruct (decide (k' = s_call s r)) as [->|]; [|left; unfold k in Hs; lia]. right. split; [done|].
           rewrite Ha in Ha1. injection Ha1 as <-. intros b t x Hg _ _. by rewrite Hd.
        -- destruct (put_exists a1 (ok_calls ok _ _ Ha1) r q k i Hp Hq Hpq Hi) as (b & t & x & Hb & Ht & Hx & Ex).
           specialize (Hs b t x ltac:(by split) Hx Ex). by rewrite begin_pc, Z.eqb_refl in Hs.
      * destruct Hs as [Hs|[-> Hs]]; [by left|right]. split; [done|]. intros b t x Hg Hx Ex. specialize (Hs b t x Hg Hx Ex).
        by rewrite begin_pc, (proj2 (Z.eqb_neq _ _) Hne) in Hs.
Qed.

(** ** Runs *)

Notation run := (run acc W sizeofT N N scratch scratchBufferSize 2 flagSize calls host).
Notation initial := (@initial D A N N host).

(** No scratch buffer holds a packet with the flag of a call to come. *)
Definition fresh (packet : Z -> D * Z) : Prop :=
  forall q o k, 0 <= q < N -> 0 <= o < scratchBufferSize -> (k < length calls)%nat -> (packet (scratch q + o)).2 <> F k.

Lemma inv_initial mem packet : (0 < length calls)%nat -> fresh packet -> inv (initial mem packet (fun _ => flag0)).
Proof using ok.
  intros Hc Hf. assert (E : @first_pc A N N = PcFlag) by (unfold first_pc; by rewrite Z.eqb_refl).
  split; [split|..]; try (intros; simpl; rewrite ?E; try done; lia).
  - intros r a b t t' _ _ _ _. simpl. by rewrite E.
  - intros r a b t i Hr Ha Hg Hi Hin. simpl. rewrite E. simpl. unfold F. lia.
  - intros q o k Hq Ho Hk Hp. simpl in Hp. by destruct (Hf q o k Hq Ho Hk).
  - intros p q k a i Hp Hq Hpq Ha Hk Hi [Hs|[-> Hs]]; simpl in Hs; [lia|]. simpl in Ha.
    destruct (put_exists a (ok_calls ok _ _ Ha) p q 0 i Hp Hq Hpq Hi) as (b & t & x & Hb & Ht & Hx & Ex).
    specialize (Hs b t x ltac:(by split) Hx Ex). by rewrite E in Hs.
Qed.

Lemma thread_grid s r b t s' : step s (AThread r b t) = Some s' ->
  exists a p' s1, calls !! s_call s r = Some a /\ 0 <= r < N /\ in_grid a b t /\ thread_step a r b t s = Some (p', s1) /\ s' = set_pc s1 r b t p'.
Proof using.
  simpl. destruct (calls !! s_call s r) as [a|]; simpl; [|done].
  destruct (Z.leb_spec 0 r), (Z.ltb_spec r N), (Z.leb_spec 0 b), (Z.ltb_spec b (a_gridDim a)), (Z.leb_spec 0 t), (Z.ltb_spec t (a_blockDim a)); simpl; try done.
  intros H'. destruct (thread_step a r b t s) as [[p' s1]|] eqn:E; [|done]. simpl in H'. injection H' as <-.
  exists a, p', s1. unfold in_grid. split_and!; try done; lia.
Qed.

Lemma step_grid s r b t a p' s1 : calls !! s_call s r = Some a -> 0 <= r < N -> in_grid a b t -> thread_step a r b t s = Some (p', s1) ->
  step s (AThread r b t) = Some (set_pc s1 r b t p').
Proof using.
  intros Ha Hr [Hb Ht] H. simpl. rewrite Ha. simpl.
  destruct (Z.leb_spec 0 r), (Z.ltb_spec r N), (Z.leb_spec 0 b), (Z.ltb_spec b (a_gridDim a)), (Z.leb_spec 0 t), (Z.ltb_spec t (a_blockDim a)); try lia.
  cbn [andb]. rewrite H. done.
Qed.

Lemma next_call s r s' : step s (ANext r) = Some s' ->
  exists a a', calls !! s_call s r = Some a /\ 0 <= r < N /\ rank_done a s r = true /\ calls !! Datatypes.S (s_call s r) = Some a' /\
    s' = begin_call s r (Datatypes.S (s_call s r)).
Proof using.
  cbn [AllreduceAllpair.step]. destruct (calls !! s_call s r) as [a|]; simpl; [|done].
  destruct (Z.leb_spec 0 r), (Z.ltb_spec r N); simpl; try done. destruct (rank_done a s r) eqn:Ed; [|done].
  destruct (calls !! Datatypes.S (s_call s r)) as [a'|] eqn:Ea'; simpl; [|done]. intros [= <-]. by exists a, a'.
Qed.

Lemma system_inv_step s x s' : inv s -> step s x = Some s' -> inv s'.
Proof using ok.
  intros I H. destruct x as [r b t|r].
  - destruct (thread_grid s r b t s' H) as (a & p' & s1 & Ha & Hr & Hg & Hs & ->). by eapply inv_thread.
  - destruct (next_call s r s' H) as (a & a' & Ha & Hr & Hd & Ha' & ->). by eapply inv_next.
Qed.

Lemma system_inv_run l : forall s s', inv s -> run s l = Some s' -> inv s'.
Proof using ok.
  induction l as [|x l IH]; intros s s' I H; [by injection H as <-|]. cbn [AllreduceAllpair.run] in H.
  destruct (step s x) as [s1|] eqn:E; [|done]. eapply IH; [|exact H]. by eapply system_inv_step.
Qed.

(** *** Nothing gets stuck *)

(** Every rank has finished its last call. *)
Definition complete (s : sys) : Prop :=
  forall r, 0 <= r < N -> Datatypes.S (s_call s r) = length calls /\ exists a, calls !! s_call s r = Some a /\ rank_done a s r = true.

Lemma least_call (f : Z -> nat) m : 0 < m -> exists r, 0 <= r < m /\ forall q, 0 <= q < m -> (f r <= f q)%nat.
Proof using.
  intros Hm. destruct (Z_of_nat_complete m ltac:(lia)) as [j ->]. destruct j as [|j]; [lia|]. clear Hm. induction j as [|j (r & Hr & IH)].
  - exists 0. split; [lia|]. intros q Hq. by replace q with 0 by lia.
  - destruct (Nat.le_gt_cases (f r) (f (Z.of_nat (Datatypes.S j)))).
    + exists r. split; [lia|]. intros q Hq. destruct (decide (q = Z.of_nat (Datatypes.S j))) as [->|]; [done|]. apply IH. lia.
    + exists (Z.of_nat (Datatypes.S j)). split; [lia|]. intros q Hq.
      destruct (decide (q = Z.of_nat (Datatypes.S j))) as [->|]; [done|]. specialize (IH q ltac:(lia)). lia.
Qed.

Lemma least_rank (s : sys) : exists r, 0 <= r < N /\ forall q, 0 <= q < N -> (s_call s r <= s_call s q)%nat.
Proof using ok. apply least_call. pose proof (ok_ranks ok). lia. Qed.

(** A thread in front of the barrier can go on. *)
Lemma early_step s r a b t : 0 <= r < N -> calls !! s_call s r = Some a -> in_grid a b t -> arrived (s_pc s r b t) = false ->
  exists x s', step s x = Some s'.
Proof using.
  intros Hr Ha Hg Hn. exists (AThread r b t).
  assert (H : exists p' s1, thread_step a r b t s = Some (p', s1)).
  { unfold AllreduceAllpair.thread_step. destruct (s_pc s r b t) as [|flag [|[from to] todo]| | | | |]; try done; eauto. }
  destruct H as (p' & s1 & H). eexists. by apply step_grid with (a := a).
Qed.

(** When all threads of all ranks have come to the barrier, a thread of a rank with the
    least call can go on. *)
Lemma late_step s r a b t : inv s -> 0 <= r < N -> calls !! s_call s r = Some a -> in_grid a b t ->
  (forall q a' b' t', 0 <= q < N -> calls !! s_call s q = Some a' -> in_grid a' b' t' -> arrived (s_pc s q b' t') = true) ->
  (forall q, 0 <= q < N -> (s_call s r <= s_call s q)%nat) -> s_pc s r b t <> PcDone ->
  exists x s', step s x = Some s'.
Proof using ok.
  intros I Hr Ha Hg Hall Hleast Hnd. exists (AThread r b t). pose proof (i_control s I) as C. pose proof (ok_calls ok _ _ Ha) as Hok.
  pose proof (i_thread s C r a b t Hr Ha Hg) as Hth. pose proof (Hall r a b t Hr Ha Hg) as Harr. pose proof (blockDim_pos a Hok) as (Hbd & _).
  assert (H : exists p' s1, thread_step a r b t s = Some (p', s1)).
  { unfold AllreduceAllpair.thread_step. destruct (s_pc s r b t) as [|flag todo|flag|flag [|idx todo]|flag idx v [|index ks] todo|flag [|j todo]|] eqn:Hpc; try done; eauto.
    - replace (forallb _ _) with true; [eauto|]. symmetry. apply forallb_threads; [lia|]. intros t' Ht'. apply (Hall r a b t'); try done. split; [apply Hg|done].
    - destruct Hth as (-> & (l & El) & done & Ed & _). destruct (in_suffix _ _ _ _ El) as [Hin _]. destruct (in_suffix _ _ _ _ Ed) as [Hix _].
      pose proof (proj1 (elem_of_indices a Hok b t idx (proj1 Hg) (proj2 Hg)) Hin) as (Hi & _). pose proof (ok_ranks ok).
      apply elem_of_threads in Hix; [|lia]. destruct (remoteRank_spec N r index Hr Hix) as [Hp Hne].
      assert (Hf : (s_packet s (slot a r (s_call s r) (remoteRank r index) idx)).2 = F (s_call s r)).
      { apply (i_sent s I); try done. destruct (decide (s_call s r = s_call s (remoteRank r index))) as [E|]; [right|left; specialize (Hleast _ Hp); lia].
        split; [done|]. intros b' t' x Hg' _ _. assert (Harr' : arrived (s_pc s (remoteRank r index) b' t') = true) by (apply (Hall _ a); try done; by rewrite <- E).
        by destruct (s_pc s (remoteRank r index) b' t'). }
      destruct (s_packet s (slot a r (s_call s r) (remoteRank r index) idx)) as [val f]. simpl in Hf. subst f. rewrite Z.eqb_refl. eauto. }
  destruct H as (p' & s1 & H). eexists. by apply step_grid with (a := a).
Qed.

(** The first thread a test rejects. *)
Lemma grid_search (f : call S -> Z -> Z -> Z -> bool) (s : sys) : control s ->
  (forall q a b t, 0 <= q < N -> calls !! s_call s q = Some a -> in_grid a b t -> f a q b t = true) \/
  exists q a b t, 0 <= q < N /\ calls !! s_call s q = Some a /\ in_grid a b t /\ f a q b t = false.
Proof using ok.
  intros C. pose proof (ok_ranks ok).
  set (g := fun q => match calls !! s_call s q with
    | Some a => forallb (fun b => forallb (fun t => f a q b t) (threads (a_blockDim a))) (threads (a_gridDim a)) | None => true end).
  destruct (forallb g (threads N)) eqn:E.
  - left. intros q a b t Hq Ha [Hb Ht]. rewrite forallb_threads in E by lia. specialize (E q Hq). unfold g in E. rewrite Ha in E.
    rewrite forallb_threads in E by lia. specialize (E b Hb). simpl in E. rewrite forallb_threads in E by lia. by apply E.
  - right. destruct (forallb_false _ _ E) as (q & Hq%elem_of_threads & Eq); [|lia]. unfold g in Eq.
    destruct (calls !! s_call s q) as [a|] eqn:Ha; [|done].
    destruct (ok_grid a (ok_calls ok _ _ Ha)). destruct (blockDim_pos a (ok_calls ok _ _ Ha)) as (Hbd & _).
    destruct (forallb_false _ _ Eq) as (b & Hb%elem_of_threads & Eb); [|lia].
    destruct (forallb_false _ _ Eb) as (t & Ht%elem_of_threads & Et); [|lia]. exists q, a, b, t.
    split; [done|]. split; [done|]. split; [by split|done].
Qed.

Lemma system_progress s : inv s -> complete s \/ exists x s', step s x = Some s'.
Proof using ok.
  intros I. pose proof (i_control s I) as C.
  destruct (grid_search (fun _ q b t => arrived (s_pc s q b t)) s C) as [Hall|(q & a & b & t & Hq & Ha & Hg & Hn)]; [|right; by eapply early_step].
  destruct (least_rank s) as (m & Hm & Hleast).
  destruct (grid_search (fun _ q b t => negb (bool_decide (s_call s q = s_call s m)) || is_done (s_pc s q b t)) s C)
    as [Hdone|(q & a & b & t & Hq & Ha & Hg & Hn)].
  2:{ right. apply orb_false_iff in Hn as [E Hn]. apply negb_false_iff, bool_decide_eq_true in E.
      apply (late_step s q a b t I Hq Ha Hg Hall); [intros q' Hq'; rewrite E; by apply Hleast|]. intros E'. by rewrite E' in Hn. }
  assert (Hd : forall q a, 0 <= q < N -> calls !! s_call s q = Some a -> s_call s q = s_call s m -> rank_done a s q = true).
  { intros q a Hq Ha E. apply rank_done_spec; [by eapply ok_calls|]. intros b t Hg. specialize (Hdone q a b t Hq Ha Hg).
    rewrite bool_decide_true in Hdone by done. by destruct (s_pc s q b t). }
  destruct (lookup_lt_is_Some_2 calls (s_call s m) (i_call s C m Hm)) as [am Ham].
  destruct (calls !! Datatypes.S (s_call s m)) as [a'|] eqn:Ea'.
  - right. exists (ANext m), (begin_call s m (Datatypes.S (s_call s m))). cbn [AllreduceAllpair.step]. rewrite Ham. simpl.
    rewrite (Hd m am Hm Ham eq_refl), Ea'. destruct (Z.leb_spec 0 m), (Z.ltb_spec m N); try lia. done.
  - left. apply lookup_ge_None in Ea'. intros q Hq. pose proof (i_call s C q Hq). specialize (Hleast q Hq).
    split; [lia|]. destruct (lookup_lt_is_Some_2 calls (s_call s q) (i_call s C q Hq)) as [a Ha]. exists a. split; [done|]. apply (Hd q a Hq Ha). lia.
Qed.

(** *** The number of steps *)

(** Steps a thread has left in its kernel. *)
Definition loop_cost (a : call S) (b t : Z) (todo : list Z) : nat :=
  length todo * Z.to_nat (N - 1) + 2 * length todo + 2 + length (flags_to_set flagSize a b t).
Definition cost (a : call S) (r b t : Z) (p : pc A) : nat :=
  match p with
  | PcFlag => length (puts a r b t 0) + 3 + loop_cost a b t (indices a b t)
  | PcPut _ todo => length todo + 2 + loop_cost a b t (indices a b t)
  | PcSync _ => 1 + loop_cost a b t (indices a b t)
  | PcLoop _ todo => loop_cost a b t todo
  | PcRead _ _ _ ks todo => length ks + 1 + loop_cost a b t todo
  | PcSetFlags _ todo => length todo + 1
  | PcDone => 0
  end.
Definition kernel_cost (a : call S) (r : Z) (pcs : Z -> Z -> pc A) : nat :=
  sumz (a_gridDim a) (fun b => sumz (a_blockDim a) (fun t => cost a r b t (pcs b t))).
Definition later_cost (r : Z) (k : nat) : nat :=
  sum_list (map (fun a => Datatypes.S (kernel_cost a r (fun _ _ => PcFlag))) (drop (Datatypes.S k) calls)).
Definition rank_cost (s : sys) (r : Z) : nat :=
  match calls !! s_call s r with Some a => kernel_cost a r (s_pc s r) + later_cost r (s_call s r) | None => 0 end.
Definition total_cost (s : sys) : nat := sumz N (rank_cost s).

Lemma puts_length (a : call S) r b t f : length (puts a r b t f) = length (puts a r b t 0).
Proof using.
  unfold AllreduceAllpair.puts. destruct (_ <? _); [|done]. destruct (a_memoryChannels a r !! _); [|done].
  unfold putPackets. by rewrite !length_map.
Qed.

Lemma thread_step_cost a r b t s p' s' : thread_step a r b t s = Some (p', s') ->
  cost a r b t (s_pc s r b t) = Datatypes.S (cost a r b t p') /\ s_pc s' = s_pc s /\ s_call s' = s_call s.
Proof using.
  unfold AllreduceAllpair.thread_step. intros H.
  destruct (s_pc s r b t) as [|flag [|[from to] todo]|flag|flag [|idx todo]|flag idx v [|index ks] todo|flag [|j todo]|] eqn:Hpc;
    try (injection H as <- <-; simpl; unfold loop_cost; split; [simpl; lia|done]); [| | | |done].
  - injection H as <- <-. simpl. rewrite (puts_length a r b t (s_flags s r b)). split; [lia|done].
  - destruct (forallb _ _); [|done]. injection H as <- <-. simpl. split; [lia|done].
  - injection H as <- <-. simpl. unfold loop_cost, nPeers, threads. rewrite length_map, length_seq. split; [simpl; lia|done].
  - destruct (s_packet s _) as [val f]. destruct (f =? flag); [|done]. injection H as <- <-. simpl. split; [lia|done].
Qed.

(** Every step takes one away. *)
Lemma step_cost s x s' : step s x = Some s' -> total_cost s = Datatypes.S (total_cost s').
Proof using.
  intros H. rewrite <- Nat.add_1_r. destruct x as [r b t|r].
  - destruct (thread_grid s r b t s' H) as (a & p' & s1 & Ha & Hr & [Hb Ht] & Hs & ->).
    destruct (thread_step_cost _ _ _ _ _ _ _ Hs) as (Hc & Ep & Ec).
    apply (sumz_upd N _ _ r); [done| |].
    + intros q Hq. unfold rank_cost. simpl. rewrite Ec, Ep, upd_other by done. done.
    + unfold rank_cost. simpl. rewrite Ec, Ep, Ha, upd_at. unfold kernel_cost.
      rewrite (sumz_upd _ (fun b0 => sumz _ (fun t0 => cost a r b0 t0 (s_pc s r b0 t0)))
        (fun b0 => sumz (a_blockDim a) (fun t0 => cost a r b0 t0 (upd (s_pc s r) b (upd (s_pc s r b) t p') b0 t0))) b 1); [lia|done| |].
      * intros b' Hb'. apply sumz_ext. intros t' _. by rewrite upd_other.
      * apply (sumz_upd _ _ _ t); [done| |].
        -- intros t' Ht'. by rewrite upd_at, upd_other.
        -- rewrite !upd_at, Hc. lia.
  - destruct (next_call s r s' H) as (a & a' & Ha & Hr & Hd & Ha' & ->).
    apply (sumz_upd N _ _ r); [done| |].
    + intros q Hq. unfold rank_cost. rewrite begin_s_call, (proj2 (Z.eqb_neq _ _) Hq). destruct (calls !! s_call s q); [|done].
      unfold kernel_cost. f_equal. apply sumz_ext. intros b _. apply sumz_ext. intros t _. by rewrite begin_pc, (proj2 (Z.eqb_neq _ _) Hq).
    + unfold rank_cost. rewrite begin_s_call, Z.eqb_refl, Ha, Ha'.
      assert (E0 : kernel_cost a r (s_pc s r) = 0%nat).
      { unfold rank_done in Hd. rewrite forallb_forall in Hd. apply sumz_zero. intros b Hb. specialize (Hd b Hb).
        rewrite forallb_forall in Hd. apply sumz_zero. intros t Ht. specialize (Hd t Ht). by destruct (s_pc s r b t). }
      assert (E1 : kernel_cost a' r (s_pc (begin_call s r (Datatypes.S (s_call s r))) r) = kernel_cost a' r (fun _ _ => PcFlag)).
      { unfold kernel_cost. apply sumz_ext. intros b _. apply sumz_ext. intros t _. by rewrite begin_pc, Z.eqb_refl. }
      rewrite E0, E1. unfold later_cost. rewrite (drop_S _ _ _ Ha'). simpl. lia.
Qed.

Lemma run_cost l : forall s s', run s l = Some s' -> total_cost s = (length l + total_cost s')%nat.
Proof using.
  induction l as [|x l IH]; intros s s' H; cbn [AllreduceAllpair.run] in H; [by injection H as <-|].
  destruct (step s x) as [s1|] eqn:E; [|done]. rewrite (step_cost _ _ _ E), (IH _ _ H). done.
Qed.

Lemma system_run_app l1 : forall l2 s s1, run s l1 = Some s1 -> run s (l1 ++ l2) = run s1 l2.
Proof using.
  induction l1 as [|x l1 IH]; intros l2 s s1 H; cbn [AllreduceAllpair.run app] in *; [by injection H as <-|].
  destruct (step s x) as [s2|]; [|done]. by apply IH.
Qed.

(** From every state a complete one is reached, and not by going on for ever. *)
Lemma completes s : inv s -> exists l s', run s l = Some s' /\ complete s'.
Proof using ok.
  remember (total_cost s) as m eqn:Em. revert s Em. induction (lt_wf m) as [m _ IH]. intros s -> I.
  destruct (system_progress s I) as [Hc|(x & s1 & Hx)]; [by exists [], s|].
  destruct (IH (total_cost s1) ltac:(rewrite (step_cost _ _ _ Hx); lia) s1 eq_refl (system_inv_step _ _ _ I Hx)) as (l & s' & Hl & Hc).
  exists (x :: l), s'. split; [|done]. cbn [AllreduceAllpair.run]. by rewrite Hx.
Qed.

(** ** What the calls achieve *)

(** C2: whatever the order in which the threads of all ranks run, and however far some
    ranks are ahead of others in a sequence of calls, when all threads of a rank have
    ended, every word of its output is the reduction of its own input and that of all
    other ranks, as their buffers were when their kernels for that call began: the flags
    and the two halves of the scratch buffers keep packets of different calls apart. *)
Theorem allpair_allreduce mem packet l s r a : fresh packet ->
  run (initial mem packet (fun _ => flag0)) l = Some s -> 0 <= r < N -> calls !! s_call s r = Some a -> rank_done a s r = true ->
  forall i, 0 <= i < nw a -> s_mem s r (dst a r i) = reduced s (s_call s r) a r i.
Proof using ok.
  intros Hf Hl Hr Ha Hd. assert (0 < length calls)%nat by (apply lookup_lt_Some in Ha; lia).
  apply (results s r a); try done. eapply system_inv_run; [|exact Hl]. by apply inv_initial.
Qed.

(** C5: no interleaving gets stuck: however far the threads of all ranks have come, there
    is a way on to the end of the last kernel of every rank, and no way takes more steps
    than a number fixed by the calls, so no schedule goes on for ever. *)
Theorem allpair_completes mem packet l s : fresh packet -> (0 < length calls)%nat ->
  let s0 := initial mem packet (fun _ => flag0) in
  run s0 l = Some s -> exists l' s', run s0 (l ++ l') = Some s' /\ complete s' /\ (length l + length l' <= total_cost s0)%nat.
Proof using ok.
  intros Hf Hc s0 Hl. assert (I : inv s) by (eapply system_inv_run; [|exact Hl]; by apply inv_initial).
  destruct (completes s I) as (l' & s' & Hl' & Hs'). exists l', s'. split; [by rewrite (system_run_app _ _ _ _ Hl)|]. split; [done|].
  rewrite (run_cost _ _ _ Hl), (run_cost _ _ _ Hl'). lia.
Qed.

(** ** Ranks whose flags differ *)

Section out_of_step.
Context (a : call S) (flags : Z -> Z) (r wp : Z).
Hypothesis Hcalls : calls = [a].
Hypothesis Hr : 0 <= r < N.
Hypothesis Hwp : 0 <= wp < N - 1.
Hypothesis Hflags : flags (remoteRank r wp) <> flags r.

(** The flag a thread goes by, and what it has left to put. *)
Definition goes_by (q b t : Z) (p : pc A) : Prop :=
  let f := flags q in
  match p with
  | PcFlag | PcDone => True
  | PcPut flag todo => flag = f /\ exists l, puts a q b t f = l ++ todo
  | PcSync flag | PcLoop flag _ | PcRead flag _ _ _ _ => flag = f
  | PcSetFlags flag todo => flag = f /\ exists l, flags_to_set flagSize a b t = l ++ todo
  end.

(** The thread has not had the packet of peer [wp] for any of its words. *)
Definition starved (b t : Z) (p : pc A) : Prop :=
  match p with
  | PcFlag | PcPut _ _ | PcSync _ => True
  | PcLoop _ todo => todo = indices a b t
  | PcRead _ idx _ ks _ => idx ∈ indices a b t /\ wp ∈ ks
  | PcSetFlags _ _ | PcDone => indices a b t = []
  end.

Record waits (s : sys) : Prop := {
  w_call : forall q, s_call s q = 0%nat;
  w_flag : forall q b t, 0 <= q < N -> in_grid a b t -> goes_by q b t (s_pc s q b t);
  w_sync : forall q b t t', 0 <= q < N -> in_grid a b t -> in_grid a b t' -> past (s_pc s q b t) = true -> arrived (s_pc s q b t') = true;
  w_flags : forall q b, 0 <= q < N -> 0 <= b < a_gridDim a -> (forall t, 0 <= t < a_blockDim a -> past (s_pc s q b t) = false) ->
    s_flags s q b = flags q;
  w_packet : forall i, 0 <= i < nw a -> (s_packet s (slot_of a r (flags r) (remoteRank r wp) i)).2 <> flags r;
  w_starved : forall b t, in_grid a b t -> starved b t (s_pc s r b t)
}.

Lemma waits_goto s q b t p' : waits s -> 0 <= q < N -> in_grid a b t ->
  goes_by q b t p' -> (arrived (s_pc s q b t) = true -> arrived p' = true) ->
  (past (s_pc s q b t) = true -> past p' = true) ->
  (past p' = true -> forall t', in_grid a b t' -> arrived (s_pc s q b t') = true) ->
  (q = r -> starved b t (s_pc s r b t) -> starved b t p') -> waits (set_pc s q b t p').
Proof using.
  intros [W1 W2 W3 W4 W5 W6] Hq Hg Hf Harr Hmono Hpast Hst. split; [exact W1| | | |exact W5|].
  - intros q' b' t' Hq' Hg'. destruct (set_pc_cases s q b t p' q' b' t') as [(-> & -> & -> & ->)|[_ ->]]; [done|by apply W2].
  - intros q' b' t1 t2 Hq' Hg1 Hg2 H1. assert (H2 : arrived (s_pc s q' b' t2) = true).
    { destruct (set_pc_cases s q b t p' q' b' t1) as [(-> & -> & -> & E)|[_ E]]; rewrite E in H1; [by apply Hpast|by eapply (W3 q' b' t1 t2)]. }
    destruct (set_pc_cases s q b t p' q' b' t2) as [(-> & -> & -> & ->)|[_ ->]]; [by apply Harr|done].
  - intros q' b' Hq' Hb' Hn. apply W4; try done. intros t' Ht'. specialize (Hn t' Ht').
    destruct (set_pc_cases s q b t p' q' b' t') as [(-> & -> & -> & E)|[_ E]]; rewrite E in Hn; [|done].
    destruct (past (s_pc s q b t)); [|done]. by rewrite Hmono in Hn.
  - intros b' t' Hg'. destruct (set_pc_cases s q b t p' r b' t') as [(<- & -> & -> & ->)|[_ ->]]; [|by apply W6].
    apply Hst; [done|]. by apply W6.
Qed.

Lemma waits_step s x s' : waits s -> step s x = Some s' -> waits s'.
Proof using ok Hcalls Hr Hwp Hflags.
  intros Hw H. pose proof Hw as [W1 W2 W3 W4 W5 W6]. destruct x as [q b t|q].
  2:{ destruct (next_call s q s' H) as (a1 & a2 & _ & _ & _ & Ha2 & _). by rewrite W1, Hcalls in Ha2. }
  destruct (thread_grid s q b t s' H) as (a1 & p' & s1 & Ha & Hq & Hg & Hs & ->).
  rewrite W1, Hcalls in Ha. injection Ha as <-.
  assert (Hok : call_ok a) by (apply (ok_calls ok 0%nat); by rewrite Hcalls).
  pose proof (blockDim_pos a Hok) as (Hbd & _). pose proof (W2 q b t Hq Hg) as Hf.
  unfold AllreduceAllpair.thread_step in Hs.
  destruct (s_pc s q b t) as [|flag [|[from to] todo]|flag|flag [|idx todo]|flag idx v [|index ks] todo|flag [|j todo]|] eqn:Hpc; simpl in Hf.
  - injection Hs as <- <-. assert (Ef : s_flags s q b = flags q).
    { apply W4; [done|apply Hg|]. intros t' Ht'. destruct (past (s_pc s q b t')) eqn:E; [|done].
      apply (W3 q b t' t Hq ltac:(split; [apply Hg|done]) Hg) in E. by rewrite Hpc in E. }
    rewrite Ef. apply waits_goto; try done; rewrite ?Hpc; try done. split; [done|]. by exists [].
  - injection Hs as <- <-. apply waits_goto; try done; rewrite ?Hpc; try done. exact (proj1 Hf).
  - injection Hs as <- <-. destruct Hf as [-> (l & El)].
    assert (Hin : (from, to) ∈ puts a q b t (flags q)) by exact (proj1 (in_suffix _ _ _ _ El)).
    apply (elem_of_puts a Hok) in Hin as (Hlt & i & Hi & Hm & E); [|done|apply Hg..]. injection E as -> ->.
    destruct (thread_parts a Hok t ltac:(apply Hg)) as (_ & Hw' & _).
    destruct (remoteRank_spec N q (warpId W t) Hq ltac:(lia)) as [Hto _]. destruct (remoteRank_spec N r wp Hr Hwp) as [Hp _].
    set (to := slot_of a (remoteRank q (warpId W t)) (flags q) q i) in *. set (s1 := mkSystem _ _ _ _ _ _).
    assert (Hw1 : waits s1).
    { split; try done. intros i' Hi'. simpl. unfold upd. destruct (Z.eqb_spec (slot_of a r (flags r) (remoteRank r wp) i') to) as [E|]; [|by apply W5].
      destruct (slot_inj a a r _ _ _ _ _ _ _ Hok Hok Hr Hto Hp Hq Hi' Hi E) as (_ & _ & H'). destruct (H' eq_refl) as [-> _]. exact Hflags. }
    apply waits_goto; try done; change (s_pc s1) with (s_pc s); rewrite ?Hpc; try done.
    split; [done|]. exists (l ++ [(src a q i, to)]). rewrite El, <- app_assoc. done.
  - destruct (forallb _ _) eqn:E in Hs; [|done]. injection Hs as <- <-. apply waits_goto; try done; rewrite ?Hpc; try done.
    intros _ t' [_ Ht']. rewrite forallb_threads in E by lia. by apply E.
  - injection Hs as <- <-. apply waits_goto; try done; rewrite ?Hpc; try done.
    + split; [done|]. by exists [].
    + intros _ t' Ht'. apply (W3 q b t t'); try done. by rewrite Hpc.
    + intros -> _. specialize (W6 b t Hg). rewrite Hpc in W6. by simpl in *.
  - injection Hs as <- <-. apply waits_goto; try done; rewrite ?Hpc; try done.
    + intros _ t' Ht'. apply (W3 q b t t'); try done. by rewrite Hpc.
    + intros -> Est. specialize (W6 b t Hg). rewrite Hpc in W6. simpl in W6. split; [rewrite <- W6; by constructor|].
      apply elem_of_threads; unfold nPeers; lia.
  - injection Hs as <- <-. set (s1 := mkSystem _ _ _ _ _ _). assert (Hw1 : waits s1) by by split.
    apply waits_goto; try done; change (s_pc s1) with (s_pc s); rewrite ?Hpc; try done.
    + intros _ t' Ht'. apply (W3 q b t t'); try done. by rewrite Hpc.
    + intros -> _. specialize (W6 b t Hg). rewrite Hpc in W6. by destruct W6 as [_ ?%elem_of_nil].
  - destruct (s_packet s _) as [val f] eqn:Ep. destruct (Z.eqb_spec f flag) as [->|]; [|done]. injection Hs as <- <-. subst flag.
    apply waits_goto; try done; rewrite ?Hpc; try done.
    + intros _ t' Ht'. apply (W3 q b t t'); try done. by rewrite Hpc.
    + intros -> _. specialize (W6 b t Hg). rewrite Hpc in W6. destruct W6 as [Hidx Hin]. split; [done|]. apply elem_of_cons in Hin as [<-|]; [|done]. exfalso.
      apply (elem_of_indices a Hok b t idx (proj1 Hg) (proj2 Hg)) in Hidx as (Hi & _). apply (W5 idx Hi). by rewrite Ep.
  - injection Hs as <- <-. destruct Hf as [-> _]. apply waits_goto; try done; rewrite ?Hpc; try done.
    + intros _ t' Ht'. apply (W3 q b t t'); try done. by rewrite Hpc.
    + intros -> _. specialize (W6 b t Hg). by rewrite Hpc in W6.
  - injection Hs as <- <-. set (s1 := mkSystem _ _ _ _ _ _). destruct Hf as [-> (l & El)].
    assert (Hw1 : waits s1).
    { split; try done. intros q' b' Hq' Hb' Hn. simpl in *. rewrite <- (W4 q' b' Hq' Hb' Hn).
      unfold upd. destruct (Z.eqb_spec q' q) as [->|]; [|done]. destruct (Z.eqb_spec b' j) as [->|]; [|done]. exfalso.
      assert (Hj : j ∈ flags_to_set flagSize a b t) by exact (proj1 (in_suffix _ _ _ _ El)).
      apply (elem_of_flags a b t j (proj1 Hg) (proj2 Hg)) in Hj as [[-> ->]|[_ ?]]; [|lia].
      specialize (Hn 0 ltac:(lia)). by rewrite Hpc in Hn. }
    apply waits_goto; try done; change (s_pc s1) with (s_pc s); rewrite ?Hpc; try done.
    + split; [done|]. exists (l ++ [j]). by rewrite El, <- app_assoc.
    + intros _ t' Ht'. apply (W3 q b t t'); try done. by rewrite Hpc.
    + intros -> _. specialize (W6 b t Hg). by rewrite Hpc in W6.
  - done.
Qed.
Lemma waits_run l : forall s s', waits s -> run s l = Some s' -> waits s'.
Proof using ok Hcalls Hr Hwp Hflags.
  induction l as [|x l IH]; intros s s' I H; [by injection H as <-|]. cbn [AllreduceAllpair.run] in H.
  destruct (step s x) as [s1|] eqn:E; [|done]. eapply IH; [|exact H]. by eapply waits_step.
Qed.

Lemma waits_initial mem packet :
  (forall i, 0 <= i < nw a -> (packet (slot_of a r (flags r) (remoteRank r wp) i)).2 <> flags r) -> waits (initial mem packet flags).
Proof using.
  intros Hp. assert (E : @first_pc A N N = PcFlag) by (unfold first_pc; by rewrite Z.eqb_refl).
  split; try (intros; simpl; rewrite ?E; done); [|exact Hp]. intros q b t t' _ _ _. simpl. by rewrite E.
Qed.

(** when the flag of one of its peers differs from a rank's own, which the flag
    buffers shared by all communicators of a process allow, the rank's kernel does not
    end in any interleaving: it keeps waiting for packets that carry its own flag. *)
Theorem flags_differ_hangs mem packet l s :
  (forall i, 0 <= i < nw a -> (packet (slot_of a r (flags r) (remoteRank r wp) i)).2 <> flags r) ->
  run (initial mem packet flags) l = Some s -> rank_done a s r = false.
Proof using ok Hcalls Hr Hwp Hflags.
  intros Hp Hl. pose proof (waits_run _ _ _ (waits_initial mem packet Hp) Hl) as [_ _ _ _ _ Hst].
  destruct (rank_done a s r) eqn:Hd; [|done]. exfalso. assert (Hok : call_ok a) by (apply (ok_calls ok 0%nat); by rewrite Hcalls).
  rewrite (rank_done_spec a s r Hok) in Hd. destruct (ok_size a Hok) as (Hn & _).
  destruct (owner_range a Hok 0 ltac:(lia)) as [Hb Ht]. specialize (Hst (owner_block a 0) (owner_thread a 0) ltac:(by split)).
  rewrite Hd in Hst by (by split). simpl in Hst.
  assert (H0 : 0 ∈ indices a (owner_block a 0) (owner_thread a 0)) by (apply elem_of_indices; done). rewrite Hst in H0. by apply elem_of_nil in H0.
Qed.
End out_of_step.
End proofs.

(** ** Channels of a context *)

(** a context is set up without an error, for every rank, and the channel its kernel
    uses for peer [w] stores into the scratch memory of the [w]-th other rank and loads
    from the allocation of the input: the address of the input is the channel's source
    plus the offset that the launch passes. *)
Theorem context_channels {S} (make : connection -> Z -> S) (N nRanksPerNode rank : Z) scratchMemory (recv : Z -> Impl) localMemory :
  2 <= N -> 0 <= rank < N -> (forall i, 0 <= i < N -> hasb (transports (recv i)) CudaIpc = true) ->
  exists ctx, initAllreduceContext N nRanksPerNode rank (initialize make N rank scratchMemory recv) localMemory = Some (Ok ctx) /\
    forall w, 0 <= w < N - 1 -> exists h, ctx_memoryChannelDeviceHandles ctx !! Z.to_nat w = Some h /\
      dst_ h = data (recv (remoteRank rank w)) /\ src_ h = data localMemory.
Proof.
  intros HN Hr Hrecv. unfold initAllreduceContext, initialize. cbn [registeredMemories_ conns_ memorySemaphores_].
  rewrite removelast_last. pose proof (channels_are make recv localMemory N rank maxBlockNum_ Hr (fun i Hi _ => Hrecv i Hi)) as E.
  rewrite E. eexists. split; [reflexivity|]. intros w Hw. cbn [ctx_memoryChannelDeviceHandles].
  unfold setupMemoryChannelDeviceHandles. rewrite list_lookup_fmap.
  pose proof (channel_leads_to make recv localMemory N rank maxBlockNum_ Hr (fun i Hi _ => Hrecv i Hi) _ 0 w ltac:(unfold maxBlockNum_; lia) Hw E) as H.
  rewrite Z.add_0_l in H. rewrite H. eexists. split; [reflexivity|]. done.
Qed.

(** ** Ranks agree *)

(** A fold over a list that is not empty does not depend on its order. *)
Lemma foldl_permutation {B} (op : B -> B -> B) x l y l' :
  (forall u v w, op u (op v w) = op (op u v) w) -> (forall u v, op u v = op v u) ->
  x :: l ≡ₚ y :: l' -> foldl op x l = foldl op y l'.
Proof.
  intros Ha Hc Hp. set (g := fun u (o : option B) => Some (match o with None => u | Some v => op v u end)).
  assert (Hg : forall l x, foldr g None (rev (x :: l)) = Some (foldl op x l)).
  { clear - Ha. intros l. induction l as [|z l IH] using rev_ind; intros x; [done|].
    change (x :: l ++ [z]) with ((x :: l) ++ [z]). rewrite rev_app_distr, foldl_app. simpl rev at 1. cbn [app foldr]. by rewrite IH. }
  assert (E : foldr g None (rev (x :: l)) = foldr g None (rev (y :: l'))).
  { apply (foldr_permutation_proper (=) g).
    - intros u. by intros ? ? ->.
    - intros u v [w|]; unfold g; simpl; f_equal; [|by rewrite Hc]. by rewrite <- !Ha, (Hc u v).
    - by rewrite <- !(Permutation_rev (_ :: _)). }
  rewrite !Hg in E. by injection E.
Qed.

Lemma NoDup_threads n : NoDup (threads n).
Proof. unfold threads. apply NoDup_fmap_2; [intros ??; lia|apply NoDup_seq]. Qed.

Lemma all_ranks N r : 0 <= r < N -> r :: map (remoteRank r) (threads (N - 1)) ≡ₚ threads N.
Proof.
  intros Hr. apply NoDup_Permutation.
  - apply NoDup_cons. split.
    + intros (w & E & Hw)%list_elem_of_fmap. apply elem_of_threads in Hw; [|lia]. destruct (remoteRank_spec N r w Hr Hw). done.
    + apply NoDup_fmap_2_strong; [|apply NoDup_threads]. intros w w' Hw Hw'. rewrite elem_of_threads in Hw, Hw' by lia. by apply (remoteRank_inj r).
  - apply NoDup_threads.
  - intros q. rewrite elem_of_cons, list_elem_of_fmap, elem_of_threads by lia. split.
    + intros [->|(w & -> & Hw)]; [done|]. apply elem_of_threads in Hw; [|lia]. by destruct (remoteRank_spec N r w Hr Hw).
    + intros Hq. destruct (decide (q = r)) as [->|Hn]; [by left|right].
      destruct (remoteRank_surj N r q Hr Hq Hn) as (w & Hw & <-). exists w. split; [done|]. apply elem_of_threads; lia.
Qed.

(** With an associative and commutative operation, the words reduced are the same on all
    ranks: the operation over all ranks in order. *)
Lemma reduced_in_order {S D} (op : D -> D -> D) N (s : @system D D) k (a : call S) r i x l :
  (forall u v w, op u (op v w) = op (op u v) w) -> (forall u v, op u v = op v u) -> 0 <= r < N ->
  map (fun q => input s k a q i) (threads N) = x :: l ->
  reduced (mkAccumulator D D id op id) N s k a r i = foldl op x l.
Proof.
  intros Ha Hc Hr Hl. unfold reduced, nPeers. simpl.
  assert (E : forall m v, foldl (fun v index => op v (input s k a (remoteRank r index) i)) v m
                = foldl op v (map (fun q => input s k a q i) (map (remoteRank r) m))).
  { induction m as [|y m IH]; intros v; simpl; [done|]. by rewrite IH. }
  rewrite E. apply foldl_permutation; [done..|]. rewrite <- Hl.
  change (?x :: map ?f ?m) with (map f (r :: m)). by rewrite (all_ranks N r Hr).
Qed.

(** when the operation is associative and commutative, ranks that have ended the
    kernels of a call hold the same words: the operation applied to the inputs of all
    ranks in the order of their numbers, although every rank begins with its own. *)
Theorem allpair_ranks_agree {S D} (op : D -> D -> D) W sizeofT N scratch scratchBufferSize flagSize (calls : list (call S)) host
    flag0 blocks mem packet l s a r i x xs :
  (forall u v w, op u (op v w) = op (op u v) w) -> (forall u v, op u v = op v u) ->
  let acc := mkAccumulator D D id op id in
  setup_ok W sizeofT N scratch scratchBufferSize flagSize calls flag0 blocks ->
  fresh N scratch scratchBufferSize calls flag0 packet ->
  run acc W sizeofT N N scratch scratchBufferSize 2 flagSize calls host (initial N N host mem packet (fun _ => flag0)) l = Some s ->
  0 <= r < N -> calls !! s_call s r = Some a -> rank_done a s r = true -> 0 <= i < nelems sizeofT a ->
  map (fun q => input s (s_call s r) a q i) (threads N) = x :: xs ->
  s_mem s r (dst a r i) = foldl op x xs.
Proof.
  intros Ha Hc acc ok Hf Hl Hr Hk Hd Hi Hx. assert (0 < length calls)%nat by (apply lookup_lt_Some in Hk; lia).
  rewrite <- (reduced_in_order op N s (s_call s r) a r i x xs Ha Hc Hr Hx).
  apply (results acc W sizeofT N scratch scratchBufferSize flagSize calls flag0 blocks ok s r a); try done.
  eapply system_inv_run; [exact ok| |exact Hl]. by apply inv_initial with (blocks := blocks).
Qed.

(** ** A system that runs *)

Definition three_call : call unit :=
  mkCall unit 3 1 64 (fun _ => 0) (fun _ => 0)
    (fun r => map (fun w => mkHandle tt (1000 * remoteRank r w) 0 0) [0; 1]) (fun _ => 0).
Definition three_host (r : Z) (n : nat) (_ : Z -> Z) : Z -> Z := fun x => 100 * r + 10 * Z.of_nat n + x.
Definition three_sum : accumulator Z Z := mkAccumulator Z Z id (fun x y => u32 (x + y)) id.

(** Tries actions in order. *)
Fixpoint sweep {S} (step : S -> action -> option S) (s : S) (xs : list action) : list action * S :=
  match xs with
  | [] => ([], s)
  | x :: xs' => match step s x with
                | Some s' => let '(l, s'') := sweep step s' xs' in (x :: l, s'')
                | None => sweep step s xs'
                end
  end.

Lemma sweep_run {S D A} acc W sizeofT N nR scratch size num fs calls host xs : forall s : @system D A,
  let r := sweep (@step S D A acc W sizeofT N nR scratch size num fs calls host) s xs in
  run acc W sizeofT N nR scratch size num fs calls host s r.1 = Some r.2.
Proof.
  induction xs as [|x xs IH]; intros s; simpl; [done|]. destruct (step _ _ _ _ _ _ _ _ _ _ _ s x) as [s'|] eqn:E; [|exact (IH s)].
  specialize (IH s'). destruct (sweep _ s' xs) as [l s'']. simpl in *. by rewrite E.
Qed.

(** All threads of all ranks twenty times, then the next call. *)
Definition three_actions : list action :=
  let all := concat (map (fun r => map (AThread r 0) (threads 64)) (threads 3)) in
  concat (repeat all 20) ++ map ANext (threads 3) ++ concat (repeat all 20).
Definition three_initial (flags : Z -> Z) : @system Z Z :=
  initial 3 3 three_host (fun _ _ => 0) (fun _ => (0, 0)) flags.
Definition three_swept : list action * @system Z Z :=
  sweep (step three_sum 32 4 3 3 (fun q => 1000 * q) 144 2 4 [three_call; three_call] three_host) (three_initial (fun _ => 6)) three_actions.

Lemma three_setup n : (n <= 2)%nat -> setup_ok 32 4 3 (fun q => 1000 * q) 144 4 (repeat three_call n) 6 1.
Proof.
  intros Hn. split; try lia; [rewrite repeat_length; lia|]. intros k a Ha.
  assert (a = three_call) as -> by (apply list_elem_of_lookup_2, list_elem_of_In, repeat_spec in Ha; done).
  split; unfold nelems, three_call; simpl; try lia.
  - change (64 / 32) with 2. by split.
  - change (4 / 4) with 1. lia.
  - change (144 / 2) with 72. lia.
  - intros r w Hr Hw. exists (mkHandle tt (1000 * remoteRank r w) 0 0). assert (w = 0 \/ w = 1) as [->| ->] by lia; done.
  - unfold src, dst. simpl. lia.
Qed.

Lemma three_fresh : fresh 3 (fun q => 1000 * q) 144 [three_call; three_call] 6 (fun _ => (0, 0)).
Proof. intros q o k _ _ _. unfold F. simpl. lia. Qed.

Lemma allpair_allreduce_witness : let s := three_swept.2 in
  s_call s 1 = 1%nat /\ rank_done three_call s 1 = true /\ s_mem s 1 8 = 354 /\
  s_mem s 1 8 = reduced three_sum 3 s (s_call s 1) three_call 1 2.
Proof.
  intros s. split; [by vm_compute|]. split; [by vm_compute|]. split; [by vm_compute|].
  exact (allpair_allreduce three_sum 32 4 3 (fun q => 1000 * q) 144 4 [three_call; three_call] three_host 6 1 (three_setup 2 ltac:(lia))
    (fun _ _ => 0) (fun _ => (0, 0)) _ s 1 three_call three_fresh (sweep_run _ _ _ _ _ _ _ _ _ _ _ _ _)
    ltac:(lia) ltac:(by vm_compute) ltac:(by vm_compute) 2 ltac:(by vm_compute)).
Defined.

Lemma allpair_completes_witness : let s0 := three_initial (fun _ => 6) in
  let steps := run three_sum 32 4 3 3 (fun q => 1000 * q) 144 2 4 [three_call; three_call] three_host s0 in
  exists l' s', steps ([AThread 0 0 0; AThread 2 0 1] ++ l') = Some s' /\ s_call s' 0 = 1%nat.
Proof.
  intros s0 steps. destruct (steps [AThread 0 0 0; AThread 2 0 1]) as [s|] eqn:E; [|by vm_compute in E].
  destruct (allpair_completes three_sum 32 4 3 (fun q => 1000 * q) 144 4 [three_call; three_call] three_host 6 1 (three_setup 2 ltac:(lia))
    (fun _ _ => 0) (fun _ => (0, 0)) [AThread 0 0 0; AThread 2 0 1] s three_fresh ltac:(simpl; lia) E) as (l' & s' & H & Hc & _).
  exists l', s'. split; [exact H|]. destruct (Hc 0 ltac:(lia)) as [Hk _]. simpl in Hk. lia.
Defined.

Lemma flags_differ_hangs_witness : let flags := fun q => if q =? 2 then 7 else 6 in
  let s := (sweep (step three_sum 32 4 3 3 (fun q => 1000 * q) 144 2 4 [three_call] three_host) (three_initial flags) three_actions).2 in
  s_flags s 2 0 = 7 /\ rank_done three_call s 1 = false.
Proof.
  intros flags s. split; [by vm_compute|].
  exact (flags_differ_hangs three_sum 32 4 3 (fun q => 1000 * q) 144 4 [three_call] three_host 6 1 (three_setup 1 ltac:(lia))
    three_call flags 1 1 eq_refl ltac:(lia) ltac:(lia) ltac:(by vm_compute) (fun _ _ => 0) (fun _ => (0, 0)) _ s
    (fun _ _ => ltac:(by vm_compute)) (sweep_run _ _ _ _ _ _ _ _ _ _ _ _ _)).
Defined.

Lemma allpair_ranks_agree_witness : let s := three_swept.2 in
  s_mem s 1 8 = foldl (fun x y => u32 (x + y)) 18 [118; 218] /\ s_mem s 2 8 = 354.
Proof.
  intros s. split; [|by vm_compute].
  exact (allpair_ranks_agree (fun x y => u32 (x + y)) 32 4 3 (fun q => 1000 * q) 144 4 [three_call; three_call] three_host 6 1
    (fun _ _ => 0) (fun _ => (0, 0)) _ s three_call 1 2 18 [118; 218]
    ltac:(intros; unfold u32, wrap; rewrite Z.add_mod_idemp_r, Z.add_mod_idemp_l, Z.add_assoc by done; done) ltac:(intros ??; cbv beta; f_equal; lia)
    (three_setup 2 ltac:(lia)) three_fresh (sweep_run _ _ _ _ _ _ _ _ _ _ _ _ _)
    ltac:(lia) ltac:(by vm_compute) ltac:(by vm_compute) ltac:(by vm_compute) ltac:(by vm_compute)).
Defined.

Lemma context_channels_witness :
  let memory p := mkImpl p p 96 1 1 (TransportFlags_of CudaIpc) [] in
  exists ctx, initAllreduceContext 3 3 1 (initialize (fun c idx => (c_peer c, idx)) 3 1 (memory 1000) (fun i => memory (1000 * i))) (memory 7)
      = Some (Ok ctx) /\ map dst_ (take 2 (ctx_memoryChannelDeviceHandles ctx)) = [0; 2000].
Proof.
  intros memory.
  destruct (context_channels (fun c idx => (c_peer c, idx)) 3 3 1 (memory 1000) (fun i => memory (1000 * i)) (memory 7)
    ltac:(lia) ltac:(lia) (fun _ _ => ltac:(by vm_compute))) as (ctx & E & _).
  exists ctx. split; [exact E|]. vm_compute in E. injection E as <-. by vm_compute.
Defined.

(** *** What the front end makes of other operations *)

(** an allreduce of the front end with an operation other than a sum or a minimum that selects this
    algorithm returns [ncclInvalidArgument]: the operation arrives as [NOP], for which there is no kernel. *)
Theorem other_operations_refused {A} (P : Platform) (E : Nccl.NcclEnv) execute (c : Nccl.ncclComm A) (sendbuff recvbuff count : Z)
    (t : Nccl.ncclDataType_t) (op : Nccl.ncclRedOp_t) (a : A) (e : exec_args) ret (p : platform) (bf16 : bool) (worldSize nRanksPerNode : Z) :
  (forall e root r, allreduceKernelFunc p (dispatch P bf16 (ea_op e) (ea_dtype e) (ea_accumDtype (resolve_accum e)))
      (ea_nBlocks e) (ea_nThreadsPerBlock e) (ea_inputSize e) worldSize nRanksPerNode = inl r -> execute a e root = Ok r) ->
  Nccl.ncclAllReduce P E execute sendbuff recvbuff count t op (Some c) = Nccl.Executes a e None ret ->
  op <> Nccl.ncclSum -> op <> Nccl.ncclMin -> ret = Ok Nccl.ncclInvalidArgument.
Proof.
  intros Hex. unfold Nccl.ncclAllReduce. destruct (Nccl.nc_nranks c =? 1); [unfold Nccl.single_rank; by destruct (_ =? _)|].
  destruct (_ || _); [done|]. destruct (Nccl.falls_back E _); [done|]. destruct (Nccl.ncclDataTypeToMscclpp P t) as [d|]; [|done].
  unfold Nccl.select_and_execute. destruct (selectAlgorithm _ _) as [[b|]|]; [|by destruct (Nccl.dlopenSharedLib E)|done].
  intros [= <- <- <-] H1 H2. rewrite (Hex _ _ CommInvalidArgument); [done|]. cbn [ea_op].
  replace (Nccl.ncclRedOpToMscclpp op) with NOP by (by destruct op). unfold allreduceKernelFunc, dispatch.
  destruct (if _ : bool then _ else _) as [blocks threads]. by repeat case_match.
Qed.

Lemma other_operations_refused_witness :
  let execute := fun (_ : string) e (_ : option Z) =>
    match allreduceKernelFunc Cuda (dispatch demo_platform true (ea_op e) (ea_dtype e) (ea_accumDtype (resolve_accum e)))
            (ea_nBlocks e) (ea_nThreadsPerBlock e) (ea_inputSize e) 8 8 with inl r => Ok r | inr _ => Ok CommSuccess end in
  exists a e ret, Nccl.ncclAllReduce demo_platform Nccl.demo_env execute 16 32 1024 Nccl.ncclFloat16 Nccl.ncclMax (Some Nccl.demo_comm) = Nccl.Executes a e None ret /\
    ret = Ok Nccl.ncclInvalidArgument.
Proof.
  intros execute. eexists _, _, _. split; [vm_compute; reflexivity|].
  apply (other_operations_refused demo_platform Nccl.demo_env execute Nccl.demo_comm 16 32 1024 Nccl.ncclFloat16 Nccl.ncclMax
    "default_allreduce_allpair_packet"%string (mkArgs 16 32 2048 2048 FLOAT16 NOP 0 0 false AUTO) _ Cuda true 8 8); try done.
  intros e root r Hr. unfold execute. by rewrite Hr.
Defined.
