(* ===== verification/GridKernel.v ===== *)
(** * Kernels of all ranks that signal and wait

    The machine for the built-in collectives whose kernels synchronize with the semaphores
    of memory channels (src/ext/collectives): on every rank a grid of thread blocks runs,
    one kernel call after the other; threads of all ranks are interleaved at their accesses
    to memory and their semaphore operations.

    The code of a thread is a list of segments with barriers between them.  A block barrier
    is [__syncthreads]; a grid barrier is [DeviceSyncer::sync], with what [DeviceSync] proves
    of it: nobody leaves before all blocks have arrived.  [Signal i] and [Wait i] are those of the
    [i]-th memory channel of the thread's block, with what [Semaphore] proves of them: a wait
    takes the next number and passes when that many signals have come.  Counters are not wrapped.

    A call is [structured] when its segments end with at most one signal and one wait for
    each peer, by the thread with the peer's index, alike on all ranks.  For such calls this
    file shows what a thread that has crossed a handshake knows of the other ranks, that
    nothing gets stuck, and how many steps everything takes. *)

From S2P Require Import Prelude Errors Core RegisteredMemory GpuDataTypes DeviceCopy MemoryChannel Collectives.
Local Open Scope Z_scope.

(** The index of rank [r] among the peers of rank [p]. *)
Definition index_of (p r : Z) : Z := if r <? p then r else r - 1.

Section machine.
Context {D R : Type}.

(** [Load]: the register becomes a function of itself and the memory; [Store] likewise. *)
Inductive instr := Signal (i : Z) | Wait (i : Z) | Load (f : R -> D -> R) (addr : Z) | Store (g : R -> D) (addr : Z).
Inductive barrier := BlockBarrier | GridBarrier.

(** One call: the grid, the segments of each thread by rank, block and number, and the
    barrier after each segment. *)
Record kernel := mkKernel { k_grid : Z; k_block : Z; k_code : Z -> Z -> Z -> list (list instr); k_barrier : nat -> barrier }.

Record thread := mkThread { th_seg : nat; th_rest : list instr; th_reg : R }.

(** [g_began]: for stating properties, the memory when a rank began a call. *)
Record grid_state := mkGrid {
  g_call : Z -> nat; g_thread : Z -> Z -> Z -> thread; g_mem : Z -> D;
  g_inbound : Z -> Z -> Z -> Z; g_expected : Z -> Z -> Z -> Z; g_began : Z -> nat -> Z -> D
}.

Definition set3 {A} (f : Z -> Z -> Z -> A) (r b t : Z) (v : A) : Z -> Z -> Z -> A := upd f r (upd (f r) b (upd (f r b) t v)).

(** Whether a thread has done all of a segment. *)
Definition passed (j : nat) (th : thread) : bool :=
  (j <? th_seg th)%nat || (Nat.eqb j (th_seg th) && match th_rest th with [] => true | _ => false end).

Context (N : Z) (calls : list kernel) (host : Z -> nat -> (Z -> D) -> (Z -> D)) (reg0 : R).

Definition barrier_open (K : kernel) (s : grid_state) (r b : Z) (j : nat) : bool :=
  let block b := forallb (fun t => passed j (g_thread s r b t)) (threads (k_block K)) in
  match k_barrier K j with BlockBarrier => block b | GridBarrier => forallb block (threads (k_grid K)) end.

Definition with_thread (s : grid_state) (r b t : Z) (th : thread) : grid_state :=
  mkGrid (g_call s) (set3 (g_thread s) r b t th) (g_mem s) (g_inbound s) (g_expected s) (g_began s).

Definition thread_step (K : kernel) (r b t : Z) (s : grid_state) : option grid_state :=
  let th := g_thread s r b t in
  match th_rest th with
  | Signal i :: rest =>
      let p := remoteRank r i in
      let s := with_thread s r b t (mkThread (th_seg th) rest (th_reg th)) in
      Some (mkGrid (g_call s) (g_thread s) (g_mem s) (set3 (g_inbound s) p b (index_of p r) (g_inbound s p b (index_of p r) + 1)) (g_expected s) (g_began s))
  | Wait i :: rest =>
      if g_expected s r b i <? g_inbound s r b i then
        let s := with_thread s r b t (mkThread (th_seg th) rest (th_reg th)) in
        Some (mkGrid (g_call s) (g_thread s) (g_mem s) (g_inbound s) (set3 (g_expected s) r b i (g_expected s r b i + 1)) (g_began s))
      else None
  | Load f a :: rest => Some (with_thread s r b t (mkThread (th_seg th) rest (f (th_reg th) (g_mem s a))))
  | Store g a :: rest =>
      let s := with_thread s r b t (mkThread (th_seg th) rest (th_reg th)) in
      Some (mkGrid (g_call s) (g_thread s) (upd (g_mem s) a (g (th_reg th))) (g_inbound s) (g_expected s) (g_began s))
  | [] =>
      seg ← k_code K r b t !! S (th_seg th);
      if barrier_open K s r b (th_seg th) then Some (with_thread s r b t (mkThread (S (th_seg th)) seg (th_reg th))) else None
  end.

Definition first_thread (K : kernel) (r b t : Z) : thread := mkThread 0 (default [] (k_code K r b t !! 0%nat)) reg0.

Definition finished (K : kernel) (r b t : Z) (th : thread) : bool :=
  match th_rest th with [] => (length (k_code K r b t) <=? S (th_seg th))%nat | _ => false end.
Definition rank_finished (K : kernel) (s : grid_state) (r : Z) : bool :=
  forallb (fun b => forallb (fun t => finished K r b t (g_thread s r b t)) (threads (k_block K))) (threads (k_grid K)).

(** A rank begins a call; what is done to its memory before that is arbitrary. *)
Definition begin_kernel (s : grid_state) (K : kernel) (r : Z) (n : nat) : grid_state :=
  let mem := host r n (g_mem s) in
  mkGrid (upd (g_call s) r n) (upd (g_thread s) r (first_thread K r)) mem (g_inbound s) (g_expected s)
    (upd (g_began s) r (fun k => if decide (k = n) then mem else g_began s r k)).

Inductive grid_action := GThread (r b t : Z) | GNext (r : Z).

Definition in_grid (K : kernel) (r b t : Z) : bool :=
  (0 <=? r) && (r <? N) && (0 <=? b) && (b <? k_grid K) && (0 <=? t) && (t <? k_block K).

Definition grid_step (s : grid_state) (x : grid_action) : option grid_state :=
  match x with
  | GThread r b t =>
      K ← calls !! g_call s r;
      if in_grid K r b t then thread_step K r b t s else None
  | GNext r =>
      K ← calls !! g_call s r;
      if (0 <=? r) && (r <? N) && rank_finished K s r then
        K' ← calls !! S (g_call s r); Some (begin_kernel s K' r (S (g_call s r)))
      else None
  end.

Fixpoint grid_run (s : grid_state) (l : list grid_action) : option grid_state :=
  match l with [] => Some s | x :: l' => s' ← grid_step s x; grid_run s' l' end.

(** All ranks at the beginning of the first call, with the semaphores in step. *)
Definition grid_initial (mem : Z -> D) (token : Z -> Z -> Z -> Z) : grid_state :=
  mkGrid (fun _ => 0%nat)
    (fun r b t => match calls with K :: _ => first_thread K r b t | [] => mkThread 0 [] reg0 end)
    mem token token (fun _ _ => mem).

(** Try actions in order: those that are possible, and the state they lead to. *)
Fixpoint grid_sweep (s : grid_state) (xs : list grid_action) : list grid_action * grid_state :=
  match xs with
  | [] => ([], s)
  | x :: xs' => match grid_step s x with
                | Some s' => let '(l, s'') := grid_sweep s' xs' in (x :: l, s'')
                | None => grid_sweep s xs'
                end
  end.

(** Everything has been done. *)
Definition grid_complete (s : grid_state) : Prop :=
  forall r, 0 <= r < N -> exists K, calls !! g_call s r = Some K /\ S (g_call s r) = length calls /\ rank_finished K s r = true.
End machine.
Arguments instr : clear implicits.
Arguments kernel : clear implicits.
Arguments thread : clear implicits.
Arguments grid_state : clear implicits.

(** ** Lemmas: peers and tables *)

(** Case analysis on a decision of the goal, and not of a hypothesis. *)
Ltac goal_decide E := match goal with |- context [decide ?P] => destruct (decide P) as [E|E] end.
Ltac hyp_decide H E := match type of H with context [decide ?P] => destruct (decide P) as [E|E] end.

Lemma remoteRank_index p r : p <> r -> remoteRank p (index_of p r) = r.
Proof. unfold remoteRank, index_of. intros H. destruct (Z.ltb_spec r p); [destruct (Z.ltb_spec r p); lia|]. destruct (Z.ltb_spec (r - 1) p); lia. Qed.

Lemma index_remoteRank r i : index_of r (remoteRank r i) = i.
Proof. unfold remoteRank, index_of. destruct (Z.ltb_spec i r); [destruct (Z.ltb_spec i r); lia|]. destruct (Z.ltb_spec (i + 1) r); lia. Qed.

Lemma index_of_range N p r : 0 <= p < N -> 0 <= r < N -> p <> r -> 0 <= index_of p r < N - 1.
Proof. unfold index_of. intros. destruct (Z.ltb_spec r p); lia. Qed.

Lemma set3_at {A} (f : Z -> Z -> Z -> A) r b t v : set3 f r b t v r b t = v.
Proof. unfold set3. by rewrite !upd_at. Qed.

Lemma set3_spec {A} (f : Z -> Z -> Z -> A) r b t v r' b' t' :
  set3 f r b t v r' b' t' = if decide (r' = r /\ b' = b /\ t' = t) then v else f r' b' t'.
Proof.
  unfold set3, upd. destruct (Z.eqb_spec r' r) as [->|]; [|by rewrite decide_False by naive_solver].
  destruct (Z.eqb_spec b' b) as [->|]; [|by rewrite decide_False by naive_solver].
  destruct (Z.eqb_spec t' t) as [->|]; [by rewrite decide_True|by rewrite decide_False by naive_solver].
Qed.

Lemma set3_other {A} (f : Z -> Z -> Z -> A) r b t v r' b' t' : r' <> r \/ b' <> b \/ t' <> t -> set3 f r b t v r' b' t' = f r' b' t'.
Proof. rewrite set3_spec. intros. rewrite decide_False; naive_solver. Qed.

Lemma grid_sweep_run {D R} N (calls : list (kernel D R)) host reg0 xs : forall s,
  let r := grid_sweep N calls host reg0 s xs in grid_run N calls host reg0 s r.1 = Some r.2.
Proof.
  induction xs as [|x xs IH]; intros s; cbn [grid_sweep]; [done|]. destruct (grid_step N calls host reg0 s x) as [s'|] eqn:E; [|exact (IH s)].
  specialize (IH s'). destruct (grid_sweep _ _ _ _ s' xs) as [l s'']. cbn in *. by rewrite E.
Qed.

(** ** Structured calls *)

Section structured.
Context {D R : Type}.
Implicit Types (K : kernel D R) (th : thread D R) (l : list (instr D R)).

Definition is_signal (x : instr D R) : bool := match x with Signal _ => true | _ => false end.
Definition is_wait (x : instr D R) : bool := match x with Wait _ => true | _ => false end.
Definition is_data (x : instr D R) : bool := match x with Load _ _ | Store _ _ => true | _ => false end.

Definition handshake (c : bool) (t : Z) : list (instr D R) := if c then [Signal t; Wait t] else [].

(** [hs b j]: whether segment [j] of block [b] ends in a handshake; [len b]: the number of its segments. *)
Record structured (N : Z) K (hs : Z -> nat -> bool) (len : Z -> nat) : Prop := {
  st_grid : 0 < k_grid K;
  st_block : 0 < k_block K /\ N - 1 <= k_block K;
  st_len : forall r b t, 0 <= r < N -> 0 <= b < k_grid K -> 0 <= t < k_block K -> length (k_code K r b t) = len b;
  st_pos : forall b, (0 < len b)%nat;
  st_seg : forall r b t j seg, 0 <= r < N -> 0 <= b < k_grid K -> 0 <= t < k_block K -> k_code K r b t !! j = Some seg ->
    exists data, forallb is_data data = true /\ seg = data ++ handshake (hs b j && (t <? N - 1)) t
}.

(** A grid barrier is reached by all blocks. *)
Definition grid_barriers_reached K (len : Z -> nat) : Prop :=
  forall j b b', k_barrier K j = GridBarrier -> 0 <= b < k_grid K -> 0 <= b' < k_grid K -> (S j < len b)%nat -> (S j < len b')%nat.

Definition has_signal l : bool := existsb is_signal l.
Definition has_wait l : bool := existsb is_wait l.

(** The part of a segment that is left. *)
Definition rest_of (data : list (instr D R)) (c : bool) (t : Z) (rest : list (instr D R)) : Prop := exists pre, pre ++ rest = data ++ handshake c t.

Lemma rest_cons data c t x rest : rest_of data c t (x :: rest) -> rest_of data c t rest.
Proof. intros [pre H]. exists (pre ++ [x]). by rewrite <- app_assoc. Qed.

Lemma rest_split data c t rest : forallb is_data data = true -> rest_of data c t rest ->
  (exists d, forallb is_data d = true /\ rest = d ++ handshake c t) \/ (c = true /\ (rest = [Wait t] \/ rest = [])).
Proof.
  intros Hd [pre H]. revert pre H. induction data as [|x data IH]; intros pre H; simpl in H.
  - destruct c; simpl in *.
    + destruct pre as [|y [|z [|w pre]]]; simpl in H; simplify_eq; [left; by exists []|right; split; [done|by left]|right; split; [done|by right]].
    + left. exists []. split; [done|]. apply app_eq_nil in H as [_ H]. by rewrite H.
  - simpl in Hd. apply andb_true_iff in Hd as [Hx Hd]. destruct pre as [|y pre]; simpl in H.
    + left. exists (x :: data). split; [simpl; by rewrite Hx, Hd|done].
    + injection H as -> H. by apply (IH Hd pre).
Qed.

Lemma data_no_signal d : forallb is_data d = true -> has_signal d = false /\ has_wait d = false.
Proof. induction d as [|x d IH]; simpl; [done|]. intros [Hx Hd]%andb_true_iff. destruct (IH Hd) as [-> ->]. by destruct x. Qed.

Lemma has_signal_app l l' : has_signal (l ++ l') = has_signal l || has_signal l'.
Proof. unfold has_signal. apply existsb_app. Qed.
Lemma has_wait_app l l' : has_wait (l ++ l') = has_wait l || has_wait l'.
Proof. unfold has_wait. apply existsb_app. Qed.

Lemma rest_signal data c t i rest : forallb is_data data = true -> rest_of data c t (Signal i :: rest) -> c = true /\ i = t /\ rest = [Wait t].
Proof.
  intros Hd H. destruct (rest_split _ _ _ _ Hd H) as [(d & Hdd & E)|(-> & [E|E])]; [|done..].
  destruct d as [|x d]; simpl in *; [destruct c; simpl in E; by simplify_eq|]. injection E as <- E. done.
Qed.

Lemma rest_wait data c t i rest : forallb is_data data = true -> rest_of data c t (Wait i :: rest) -> c = true /\ i = t /\ rest = [].
Proof.
  intros Hd H. destruct (rest_split _ _ _ _ Hd H) as [(d & Hdd & E)|(-> & [E|E])]; [|by simplify_eq|done].
  destruct d as [|x d]; simpl in *; [destruct c; simpl in E; by simplify_eq|]. injection E as <- E. done.
Qed.
(** What is left: the data operations from some point on, and what is left of the handshake. *)
Definition no_data l : bool := forallb (fun x => negb (is_data x)) l.

Lemma rest_suffix data c t rest : forallb is_data data = true -> rest_of data c t rest ->
  exists m tl, (m <= length data)%nat /\ rest = drop m data ++ tl /\ no_data tl = true.
Proof.
  intros Hd [pre H]. assert (E : rest = drop (length pre) (data ++ handshake c t)) by (by rewrite <- H, drop_app_length).
  assert (Hh : no_data (handshake c t) = true) by by destruct c.
  destruct (decide (length pre <= length data)%nat) as [Hl|Hl].
  - exists (length pre), (handshake c t). split_and!; [done| |done]. by rewrite E, drop_app_le.
  - exists (length data), rest. split_and!; [done|by rewrite drop_all|]. rewrite E, drop_app_ge by lia. unfold no_data in *.
    apply forallb_forall. intros x Hx. rewrite forallb_forall in Hh. apply Hh. apply list_elem_of_In. apply list_elem_of_In in Hx.
    apply list_elem_of_lookup in Hx as [i Hx]. rewrite lookup_drop in Hx. by eapply list_elem_of_lookup_2.
Qed.
End structured.

(** ** The invariant *)

Fixpoint count_hs (f : nat -> bool) (j : nat) : nat := match j with O => 0 | S j' => count_hs f j' + (if f j' then 1 else 0) end.

Lemma count_hs_mono f j j' : (j <= j')%nat -> (count_hs f j <= count_hs f j')%nat.
Proof. induction 1; simpl; lia. Qed.

Lemma count_hs_lt f j j' : (j < j')%nat -> f j = true -> (count_hs f j < count_hs f j')%nat.
Proof. intros H E. pose proof (count_hs_mono f (S j) j' H). simpl in *. rewrite E in *. lia. Qed.

Section theory.
Context {D R : Type} (N : Z) (calls : list (kernel D R)) (host : Z -> nat -> (Z -> D) -> (Z -> D)) (reg0 : R).
Context (hs : nat -> Z -> nat -> bool) (len : nat -> Z -> nat) (token : Z -> Z -> Z -> Z).
Hypothesis Hst : forall k K, calls !! k = Some K -> structured N K (hs k) (len k).

Notation state := (grid_state D R).
Notation step := (grid_step N calls host reg0).

(** The handshakes of block [b] before call [k]. *)
Fixpoint handshakes (b : Z) (k : nat) : nat :=
  match k with
  | O => 0
  | S k' => handshakes b k' + match calls !! k' with Some K => if b <? k_grid K then count_hs (hs k' b) (len k' b) else 0 | None => 0 end
  end.

(** Signals sent and waits passed by a thread of a peer's index. *)
Definition done_count (has : list (instr D R) -> bool) (k : nat) (b : Z) (th : thread D R) : nat :=
  handshakes b k +
  match calls !! k with
  | Some K => if b <? k_grid K then count_hs (hs k b) (th_seg th) + (if hs k b (th_seg th) && negb (has (th_rest th)) then 1 else 0) else 0
  | None => 0
  end.
Definition signals := done_count has_signal.
Definition waits := done_count has_wait.

(** Where a thread can be. *)
Definition thread_ok (K : kernel D R) (k : nat) (r b t : Z) (th : thread D R) : Prop :=
  (th_seg th < len k b)%nat /\ exists data, forallb is_data data = true /\
    k_code K r b t !! th_seg th = Some (data ++ handshake (hs k b (th_seg th) && (t <? N - 1)) t) /\
    rest_of data (hs k b (th_seg th) && (t <? N - 1)) t (th_rest th).

Record ginv (s : state) : Prop := {
  gi_call : forall r, 0 <= r < N -> (g_call s r < length calls)%nat;
  gi_thread : forall r b t K, 0 <= r < N -> calls !! g_call s r = Some K -> 0 <= b < k_grid K -> 0 <= t < k_block K ->
    thread_ok K (g_call s r) r b t (g_thread s r b t);
  gi_barrier : forall r b t t' K j, 0 <= r < N -> calls !! g_call s r = Some K -> 0 <= b < k_grid K -> 0 <= t < k_block K -> 0 <= t' < k_block K ->
    (j < th_seg (g_thread s r b t))%nat -> passed j (g_thread s r b t') = true;
  gi_grid : forall r b t b' t' K j, 0 <= r < N -> calls !! g_call s r = Some K -> 0 <= b < k_grid K -> 0 <= t < k_block K ->
    0 <= b' < k_grid K -> 0 <= t' < k_block K -> k_barrier K j = GridBarrier ->
    (j < th_seg (g_thread s r b t))%nat -> passed j (g_thread s r b' t') = true;
  gi_inbound : forall r b i, 0 <= r < N -> 0 <= i < N - 1 -> 0 <= b -> let p := remoteRank r i in
    g_inbound s r b i = token r b i + Z.of_nat (signals (g_call s p) b (g_thread s p b (index_of p r)));
  gi_expected : forall r b i, 0 <= r < N -> 0 <= i < N - 1 -> 0 <= b ->
    g_expected s r b i = token r b i + Z.of_nat (waits (g_call s r) b (g_thread s r b i));
  gi_le : forall r b i, 0 <= r < N -> 0 <= i < N - 1 -> 0 <= b -> g_expected s r b i <= g_inbound s r b i
}.

Lemma inv_update s r b t K th' ds dw mem began inbound expected : ginv s -> 0 <= r < N -> calls !! g_call s r = Some K ->
  0 <= b < k_grid K -> 0 <= t < k_block K -> thread_ok K (g_call s r) r b t th' ->
  (forall j, passed j (g_thread s r b t) = true -> passed j th' = true) ->
  (forall j t', (j < th_seg th')%nat -> (th_seg (g_thread s r b t) <= j)%nat -> 0 <= t' < k_block K -> passed j (g_thread s r b t') = true) ->
  (forall j b' t', (j < th_seg th')%nat -> (th_seg (g_thread s r b t) <= j)%nat -> k_barrier K j = GridBarrier -> 0 <= b' < k_grid K -> 0 <= t' < k_block K ->
     passed j (g_thread s r b' t') = true) ->
  (t < N - 1 -> signals (g_call s r) b th' = (signals (g_call s r) b (g_thread s r b t) + ds)%nat) ->
  (t < N - 1 -> waits (g_call s r) b th' = (waits (g_call s r) b (g_thread s r b t) + dw)%nat) ->
  (forall r' b' i', 0 <= r' < N -> 0 <= i' < N - 1 -> inbound r' b' i' =
     g_inbound s r' b' i' + if decide (t < N - 1 /\ r' = remoteRank r t /\ b' = b /\ i' = index_of r' r) then Z.of_nat ds else 0) ->
  (forall r' b' i', 0 <= r' < N -> 0 <= i' < N - 1 -> expected r' b' i' =
     g_expected s r' b' i' + if decide (r' = r /\ b' = b /\ i' = t) then Z.of_nat dw else 0) ->
  (t < N - 1 -> g_expected s r b t + Z.of_nat dw <= g_inbound s r b t) ->
  ginv (mkGrid (g_call s) (set3 (g_thread s) r b t th') mem inbound expected began).
Proof using.
  intros I Hr HK Hb Ht Hok Hp Hbar Hgrid Hs Hw Hin Hex Hle. destruct I as [I1 I2 I3 I4 I5 I6 I7].
  assert (Hpass : forall b' t' j, passed j (g_thread s r b' t') = true -> passed j (set3 (g_thread s) r b t th' r b' t') = true).
  { intros b' t' j H. rewrite set3_spec. goal_decide E; [destruct E as (_ & -> & ->); by apply Hp|done]. }
  split; cbn [g_call g_thread g_mem g_inbound g_expected g_began]; [done|..].
  - intros r' b' t' K' Hr' HK' Hb' Ht'. rewrite set3_spec. goal_decide E; [|by apply I2]. destruct E as (-> & -> & ->). by simplify_eq.
  - intros r' b' t1 t2 K' j Hr' HK' Hb' Ht1 Ht2 Hj. destruct (decide (r' = r)) as [->|Hne].
    + simplify_eq. apply Hpass. rewrite set3_spec in Hj. hyp_decide Hj E; [|by apply (I3 r b' t1 t2 K j)]. destruct E as (_ & -> & ->).
      destruct (decide (j < th_seg (g_thread s r b t))%nat); [by apply (I3 r b t t2 K j)|apply Hbar; [done|lia|done]].
    + rewrite set3_other in Hj |- * by auto. by apply (I3 r' b' t1 t2 K' j).
  - intros r' b1 t1 b2 t2 K' j Hr' HK' Hb1 Ht1 Hb2 Ht2 Hk Hj. destruct (decide (r' = r)) as [->|Hne].
    + simplify_eq. apply Hpass. rewrite set3_spec in Hj. hyp_decide Hj E; [|by apply (I4 r b1 t1 b2 t2 K j)]. destruct E as (_ & -> & ->).
      destruct (decide (j < th_seg (g_thread s r b t))%nat); [by apply (I4 r b t b2 t2 K j)|apply Hgrid; [done|lia|done..]].
    + rewrite set3_other in Hj |- * by auto. by apply (I4 r' b1 t1 b2 t2 K' j).
  - intros r' b' i' Hr' Hi' Hb'. rewrite Hin, I5 by done. destruct (remoteRank_spec N r' i' Hr' Hi') as [Hpr Hpne].
    rewrite set3_spec. goal_decide E.
    + destruct E as (Htn & -> & -> & ->). destruct (remoteRank_spec N r t Hr ltac:(lia)) as [Hq Hqne].
      rewrite remoteRank_index by lia. rewrite index_remoteRank. rewrite decide_True by done. rewrite Hs by done. lia.
    + rewrite decide_False; [lia|]. intros (E1 & E2 & E3). apply E. pose proof (index_of_range N (remoteRank r' i') r' Hpr Hr' ltac:(lia)).
      split; [lia|]. rewrite E1 in E3. rewrite <- E3, remoteRank_index by lia. split; [done|]. split; [done|]. by rewrite <- E1, index_remoteRank.
  - intros r' b' i' Hr' Hi' Hb'. rewrite Hex, I6, set3_spec by done. goal_decide E; [|lia]. destruct E as (-> & -> & ->). rewrite Hw by lia. lia.
  - intros r' b' i' Hr' Hi' Hb'. rewrite Hin, Hex by done. specialize (I7 r' b' i' Hr' Hi' Hb').
    assert (0 <= (if decide (t < N - 1 /\ r' = remoteRank r t /\ b' = b /\ i' = index_of r' r) then Z.of_nat ds else 0)) by (goal_decide E0; lia).
    goal_decide E; [|lia]. destruct E as (-> & -> & ->). specialize (Hle ltac:(lia)). lia.
Qed.

Lemma signals_same k b th th' : th_seg th' = th_seg th -> has_signal (th_rest th') = has_signal (th_rest th) -> signals k b th' = signals k b th.
Proof using. unfold signals, done_count. by intros -> ->. Qed.
Lemma waits_same k b th th' : th_seg th' = th_seg th -> has_wait (th_rest th') = has_wait (th_rest th) -> waits k b th' = waits k b th.
Proof using. unfold waits, done_count. by intros -> ->. Qed.

Lemma passed_tail j (th : thread D R) x rest reg : th_rest th = x :: rest -> passed j th = true -> passed j (mkThread (th_seg th) rest reg) = true.
Proof using. unfold passed. intros ->. simpl. by destruct (j <? th_seg th)%nat; [|rewrite andb_false_r]. Qed.

Lemma thread_ok_tail K k r b t th x rest reg : thread_ok K k r b t th -> th_rest th = x :: rest -> thread_ok K k r b t (mkThread (th_seg th) rest reg).
Proof using.
  intros (H & data & Hd & Hc & Hr) E. rewrite E in Hr. split; [done|]. exists data. split_and!; [done|done|]. by apply (rest_cons _ _ _ x).
Qed.

(** A step within a segment. *)
Lemma inv_tail s r b t K x rest reg ds dw mem began inbound expected : ginv s -> 0 <= r < N -> calls !! g_call s r = Some K ->
  0 <= b < k_grid K -> 0 <= t < k_block K -> th_rest (g_thread s r b t) = x :: rest ->
  let th' := mkThread (th_seg (g_thread s r b t)) rest reg in
  (t < N - 1 -> signals (g_call s r) b th' = (signals (g_call s r) b (g_thread s r b t) + ds)%nat) ->
  (t < N - 1 -> waits (g_call s r) b th' = (waits (g_call s r) b (g_thread s r b t) + dw)%nat) ->
  (forall r' b' i', 0 <= r' < N -> 0 <= i' < N - 1 -> inbound r' b' i' =
     g_inbound s r' b' i' + if decide (t < N - 1 /\ r' = remoteRank r t /\ b' = b /\ i' = index_of r' r) then Z.of_nat ds else 0) ->
  (forall r' b' i', 0 <= r' < N -> 0 <= i' < N - 1 -> expected r' b' i' =
     g_expected s r' b' i' + if decide (r' = r /\ b' = b /\ i' = t) then Z.of_nat dw else 0) ->
  (t < N - 1 -> g_expected s r b t + Z.of_nat dw <= g_inbound s r b t) ->
  ginv (mkGrid (g_call s) (set3 (g_thread s) r b t th') mem inbound expected began).
Proof using.
  intros I Hr HK Hb Ht E th' Hs Hw Hin Hex Hle. eapply inv_update; try done.
  - apply (thread_ok_tail _ _ _ _ _ _ x); [by apply (gi_thread s I)|done].
  - intros j. by apply (passed_tail _ _ x).
  - simpl. intros; lia.
  - simpl. intros; lia.
Qed.

Section at_thread.
Context (s : state) (r b t : Z) (K : kernel D R).
Hypothesis I : ginv s.
Hypothesis Hr : 0 <= r < N.
Hypothesis HK : calls !! g_call s r = Some K.
Hypothesis Hb : 0 <= b < k_grid K.
Hypothesis Ht : 0 <= t < k_block K.
Notation th := (g_thread s r b t).

Lemma inv_data x rest reg mem : th_rest th = x :: rest -> is_signal x = false -> is_wait x = false ->
  ginv (mkGrid (g_call s) (set3 (g_thread s) r b t (mkThread (th_seg th) rest reg)) mem (g_inbound s) (g_expected s) (g_began s)).
Proof using I Hr HK Hb Ht.
  intros E Hs Hw. apply (inv_tail s r b t K x rest reg 0 0); try done.
  - intros _. rewrite (signals_same _ _ th); [lia|done|]. rewrite E. simpl. by rewrite Hs.
  - intros _. rewrite (waits_same _ _ th); [lia|done|]. rewrite E. simpl. by rewrite Hw.
  - intros r' b' i' _ _. goal_decide E'; lia.
  - intros r' b' i' _ _. goal_decide E'; lia.
  - intros Htn. pose proof (gi_le s I r b t Hr ltac:(lia) ltac:(lia)). lia.
Qed.

Lemma inv_signal reg mem : th_rest th = [Signal t; Wait t] -> hs (g_call s r) b (th_seg th) = true -> t < N - 1 ->
  let p := remoteRank r t in
  ginv (mkGrid (g_call s) (set3 (g_thread s) r b t (mkThread (th_seg th) [Wait t] reg)) mem
    (set3 (g_inbound s) p b (index_of p r) (g_inbound s p b (index_of p r) + 1)) (g_expected s) (g_began s)).
Proof using I Hr HK Hb Ht.
  intros E Hhs Htn p. apply (inv_tail s r b t K (Signal t) [Wait t] reg 1 0); try done.
  - intros _. unfold signals, done_count. rewrite HK, E, (proj2 (Z.ltb_lt b (k_grid K))) by lia. simpl. rewrite Hhs. simpl. lia.
  - intros _. rewrite (waits_same _ _ th); [lia|done|]. by rewrite E.
  - intros r' b' i' Hr' Hi'. rewrite set3_spec. goal_decide E1; goal_decide E2; try lia.
    + destruct E1 as (-> & -> & ->). lia.
    + exfalso. apply E2. by destruct E1 as (-> & -> & ->).
    + exfalso. apply E1. by destruct E2 as (_ & -> & -> & ->).
  - intros r' b' i' _ _. goal_decide E'; lia.
  - intros _. pose proof (gi_le s I r b t Hr ltac:(lia) ltac:(lia)). lia.
Qed.

Lemma inv_wait reg mem : th_rest th = [Wait t] -> hs (g_call s r) b (th_seg th) = true -> t < N - 1 -> g_expected s r b t < g_inbound s r b t ->
  ginv (mkGrid (g_call s) (set3 (g_thread s) r b t (mkThread (th_seg th) [] reg)) mem (g_inbound s)
    (set3 (g_expected s) r b t (g_expected s r b t + 1)) (g_began s)).
Proof using I Hr HK Hb Ht.
  intros E Hhs Htn Hlt. apply (inv_tail s r b t K (Wait t) [] reg 0 1); try done.
  - intros _. rewrite (signals_same _ _ th); [lia|done|]. by rewrite E.
  - intros _. unfold waits, done_count. rewrite HK, E, (proj2 (Z.ltb_lt b (k_grid K))) by lia. simpl. rewrite Hhs. simpl. lia.
  - intros r' b' i' _ _. goal_decide E'; lia.
  - intros r' b' i' Hr' Hi'. rewrite set3_spec. goal_decide E1; [destruct E1 as (-> & -> & ->)|]; lia.
  - intros _. lia.
Qed.

(** What an open barrier says. *)
Lemma barrier_open_spec j : barrier_open K s r b j = true ->
  (forall t', 0 <= t' < k_block K -> passed j (g_thread s r b t') = true) /\
  (k_barrier K j = GridBarrier -> forall b' t', 0 <= b' < k_grid K -> 0 <= t' < k_block K -> passed j (g_thread s r b' t') = true).
Proof using Hb Ht.
  unfold barrier_open. destruct (k_barrier K j); intros Eb.
  - rewrite forallb_threads in Eb by lia. by split.
  - assert (G : forall b' t', 0 <= b' < k_grid K -> 0 <= t' < k_block K -> passed j (g_thread s r b' t') = true).
    { intros b' t' Hb' Ht'. rewrite forallb_threads in Eb by lia. specialize (Eb b' Hb'). rewrite forallb_threads in Eb by lia. by apply Eb. }
    split; [by intros; apply G|done].
Qed.

Lemma next_count has data : th_rest th = [] -> has [] = false -> has [Signal t; Wait t] = true -> has data = false ->
  (forall l l', has (l ++ l') = has l || has l') -> t < N - 1 ->
  done_count has (g_call s r) b (mkThread (S (th_seg th)) (data ++ handshake (hs (g_call s r) b (S (th_seg th)) && (t <? N - 1)) t) (th_reg th))
    = (done_count has (g_call s r) b th + 0)%nat.
Proof using HK.
  intros E Hnil Hhs Hdat Happ Htn. unfold done_count. rewrite HK, E, Hnil. simpl. rewrite Happ, Hdat, (proj2 (Z.ltb_lt _ _) Htn), !andb_true_r. simpl.
  destruct (hs _ b (S _)); unfold handshake; [rewrite Hhs|rewrite Hnil]; simpl; destruct (hs _ _ _), (b <? k_grid K); lia.
Qed.

Lemma inv_segment seg : th_rest th = [] -> k_code K r b t !! S (th_seg th) = Some seg -> barrier_open K s r b (th_seg th) = true ->
  ginv (with_thread s r b t (mkThread (S (th_seg th)) seg (th_reg th))).
Proof using I Hst Hr HK Hb Ht.
  intros E Es Eb. destruct (st_seg N K _ _ (Hst _ _ HK) r b t _ seg Hr Hb Ht Es) as (data & Hd & ->).
  destruct (barrier_open_spec _ Eb) as [Hbar Hgrid]. destruct (data_no_signal data Hd) as [Hns Hnw]. eapply inv_update; try done.
  - split; simpl; [apply lookup_lt_Some in Es; by rewrite (st_len N K _ _ (Hst _ _ HK)) in Es by done|].
    exists data. split_and!; [done|done|by exists []].
  - intros j. unfold passed. rewrite E. simpl. rewrite andb_true_r. intros [Hj%Nat.ltb_lt|Hj%Nat.eqb_eq]%orb_true_iff; apply orb_true_iff; left; apply Nat.ltb_lt; lia.
  - simpl. intros j t' H1 H2 Ht'. replace j with (th_seg th) by lia. by apply Hbar.
  - simpl. intros j b' t' H1 H2 Hk Hb' Ht'. assert (j = th_seg th) as -> by lia. by apply Hgrid.
  - intros Htn. by apply (next_count has_signal); try done; apply has_signal_app.
  - intros Htn. by apply (next_count has_wait); try done; apply has_wait_app.
  - intros r' b' i' _ _. goal_decide E'; lia.
  - intros r' b' i' _ _. goal_decide E'; lia.
  - intros Htn. pose proof (gi_le s I r b t Hr ltac:(lia) ltac:(lia)). lia.
Qed.

Lemma inv_thread_step s' : thread_step K r b t s = Some s' -> ginv s'.
Proof using I Hst Hr HK Hb Ht.
  intros H. pose proof (gi_thread s I r b t K Hr HK Hb Ht) as (_ & data & Hd & _ & Hrest). unfold thread_step in H.
  destruct (th_rest th) as [|[i|i|f a|g a] rest] eqn:E.
  - destruct (k_code K r b t !! S (th_seg th)) as [seg|] eqn:Es; [|done]. simpl in H.
    destruct (barrier_open K s r b (th_seg th)) eqn:Eb; [|done]. injection H as <-. by apply inv_segment.
  - destruct (rest_signal _ _ _ _ _ Hd Hrest) as (Hc & -> & ->). apply andb_true_iff in Hc as [Hhs Htn%Z.ltb_lt]. injection H as <-. by apply inv_signal.
  - destruct (rest_wait _ _ _ _ _ Hd Hrest) as (Hc & -> & ->). apply andb_true_iff in Hc as [Hhs Htn%Z.ltb_lt].
    destruct (Z.ltb_spec (g_expected s r b t) (g_inbound s r b t)); [|done]. injection H as <-. by apply inv_wait.
  - injection H as <-. by apply (inv_data (Load f a)).
  - injection H as <-. by apply (inv_data (Store g a)).
Qed.
End at_thread.

(** *** A rank's next call *)

Lemma first_ok K k r b t : calls !! k = Some K -> 0 <= r < N -> 0 <= b < k_grid K -> 0 <= t < k_block K -> thread_ok K k r b t (first_thread reg0 K r b t).
Proof using Hst.
  intros HK Hr Hb Ht. pose proof (st_pos N K _ _ (Hst _ _ HK) b) as Hp. pose proof (st_len N K _ _ (Hst _ _ HK) r b t Hr Hb Ht) as Hl.
  split; [done|]. destruct (k_code K r b t !! 0%nat) as [seg|] eqn:E; [|apply lookup_ge_None in E; lia].
  destruct (st_seg N K _ _ (Hst _ _ HK) r b t 0%nat seg Hr Hb Ht E) as (data & Hd & ->). exists data. split_and!; [done|exact E|].
  unfold first_thread. rewrite E. by exists [].
Qed.

Lemma first_count K k r b t has : calls !! k = Some K -> 0 <= r < N -> 0 <= b < k_grid K -> 0 <= t < k_block K -> t < N - 1 ->
  has [Signal t; Wait t] = true -> (forall l l', has (l ++ l') = has l || has l') -> done_count has k b (first_thread reg0 K r b t) = handshakes b k.
Proof using Hst.
  intros HK Hr Hb Ht Htn Hhs Happ. destruct (first_ok K k r b t HK Hr Hb Ht) as (_ & data & Hd & Hc & _).
  unfold done_count. rewrite HK. unfold first_thread in *. simpl in *. rewrite Hc. simpl. rewrite (proj2 (Z.ltb_lt _ _) Htn), andb_true_r.
  destruct (hs k b 0%nat); simpl; [rewrite Happ, Hhs, orb_true_r; simpl|]; destruct (b <? k_grid K); lia.
Qed.

(** A block that a call does not have is not counted. *)
Lemma outside_count K k b th th' has : calls !! k = Some K -> k_grid K <= b -> done_count has k b th = done_count has k b th'.
Proof using. intros HK Hb. unfold done_count. rewrite HK. by rewrite (proj2 (Z.ltb_ge _ _) Hb). Qed.

Lemma finished_count K k r b t th has : calls !! k = Some K -> thread_ok K k r b t th -> finished K r b t th = true -> 0 <= r < N -> 0 <= b < k_grid K ->
  0 <= t < k_block K -> has [] = false -> done_count has k b th = handshakes b (S k).
Proof using Hst.
  intros HK (Hlen & _) Hf Hr Hb Ht Hnil. unfold finished in Hf. destruct (th_rest th) eqn:E; [|done]. apply Nat.leb_le in Hf.
  rewrite (st_len N K _ _ (Hst _ _ HK)) in Hf by done. unfold done_count. rewrite HK, E, Hnil, (proj2 (Z.ltb_lt b (k_grid K))) by lia. simpl. rewrite HK.
  rewrite (proj2 (Z.ltb_lt b (k_grid K))) by lia. replace (len k b) with (S (th_seg th)) by lia. simpl. rewrite andb_true_r. lia.
Qed.

Lemma rank_finished_spec K s r : calls !! g_call s r = Some K -> rank_finished K s r = true <->
  forall b t, 0 <= b < k_grid K -> 0 <= t < k_block K -> finished K r b t (g_thread s r b t) = true.
Proof using Hst.
  intros HK. pose proof (st_grid N K _ _ (Hst _ _ HK)). destruct (st_block N K _ _ (Hst _ _ HK)). unfold rank_finished. rewrite forallb_threads by lia. split.
  - intros H' b t Hb. revert t. apply forallb_threads; [lia|]. by apply H'.
  - intros H' b Hb. apply forallb_threads; [lia|]. intros t. by apply H'.
Qed.

Lemma inv_begin s r K K' : ginv s -> 0 <= r < N -> calls !! g_call s r = Some K -> rank_finished K s r = true ->
  calls !! S (g_call s r) = Some K' -> ginv (begin_kernel host reg0 s K' r (S (g_call s r))).
Proof using Hst.
  intros I Hr HK Hf HK'. pose proof I as [I1 I2 I3 I4 I5 I6 I7]. rewrite (rank_finished_spec _ _ _ HK) in Hf.
  set (k := g_call s r) in *. destruct (st_block N K _ _ (Hst _ _ HK)) as [_ Hbk]. destruct (st_block N K' _ _ (Hst _ _ HK')) as [_ Hbk'].
  assert (Hcount : forall has i b, has [] = false -> has [Signal i; Wait i] = true -> (forall l l', has (l ++ l') = has l || has l') -> 0 <= i < N - 1 -> 0 <= b ->
    done_count has (S k) b (first_thread reg0 K' r b i) = done_count has k b (g_thread s r b i)).
  { intros has i b Hnil Hhs Happ Hi Hb'. transitivity (handshakes b (S k)).
    - destruct (decide (b < k_grid K')); [by apply (first_count K' (S k)); [done|done|lia|lia|lia|..]|].
      unfold done_count. rewrite HK', (proj2 (Z.ltb_ge b (k_grid K'))) by lia. lia.
    - destruct (decide (b < k_grid K)).
      + symmetry. apply (finished_count K k r b i); try done; [apply I2; try done; lia|apply Hf; lia|lia].
      + unfold done_count. simpl. rewrite HK, (proj2 (Z.ltb_ge b (k_grid K))) by lia. lia. }
  split; unfold begin_kernel; cbn [g_call g_thread g_mem g_inbound g_expected g_began].
  - intros r' Hr'. unfold upd. destruct (r' =? r); [by apply lookup_lt_Some in HK'|by apply I1].
  - intros r' b t K1 Hr' HK1 Hb Ht. unfold upd in *. destruct (Z.eqb_spec r' r) as [->|]; [|by apply I2]. simplify_eq. by apply first_ok.
  - intros r' b t t' K1 j Hr' HK1 Hb Ht Ht' Hj. unfold upd in *. destruct (Z.eqb_spec r' r) as [->|]; [simpl in Hj; lia|by apply (I3 r' b t t' K1 j)].
  - intros r' b t b' t' K1 j Hr' HK1 Hb Ht Hb' Ht' Hk Hj. unfold upd in *. destruct (Z.eqb_spec r' r) as [->|]; [simpl in Hj; lia|by apply (I4 r' b t b' t' K1 j)].
  - intros r' b i Hr' Hi Hb. rewrite (I5 r' b i Hr' Hi Hb). destruct (remoteRank_spec N r' i Hr' Hi) as [Hp Hpne]. unfold upd.
    destruct (Z.eqb_spec (remoteRank r' i) r) as [E|]; [|done]. rewrite E in *. f_equal. f_equal. symmetry.
    apply Hcount; try done; [apply has_signal_app|]. by apply (index_of_range N).
  - intros r' b i Hr' Hi Hb. rewrite (I6 r' b i Hr' Hi Hb). unfold upd. destruct (Z.eqb_spec r' r) as [->|]; [|done]. f_equal. f_equal. symmetry.
    apply Hcount; try done. apply has_wait_app.
  - done.
Qed.

Lemma next_call_spec s r s' : step s (GNext r) = Some s' -> exists K K', calls !! g_call s r = Some K /\ 0 <= r < N /\ rank_finished K s r = true /\
  calls !! S (g_call s r) = Some K' /\ s' = begin_kernel host reg0 s K' r (S (g_call s r)).
Proof using.
  simpl. destruct (calls !! g_call s r) as [K|] eqn:HK; [|done]. simpl. destruct (Z.leb_spec 0 r), (Z.ltb_spec r N); simpl; try done.
  destruct (rank_finished K s r) eqn:Hf; [|done]. destruct (calls !! S (g_call s r)) as [K'|] eqn:HK'; [|done]. intros [= <-]. by exists K, K'.
Qed.

Lemma thread_call_spec s r b t s' : step s (GThread r b t) = Some s' -> exists K, calls !! g_call s r = Some K /\ 0 <= r < N /\ 0 <= b < k_grid K /\
  0 <= t < k_block K /\ thread_step K r b t s = Some s'.
Proof using.
  simpl. destruct (calls !! g_call s r) as [K|] eqn:HK; [|done]. simpl. unfold in_grid.
  destruct (Z.leb_spec 0 r), (Z.ltb_spec r N), (Z.leb_spec 0 b), (Z.ltb_spec b (k_grid K)), (Z.leb_spec 0 t), (Z.ltb_spec t (k_block K)); simpl; try done.
  intros H'. by exists K.
Qed.

Lemma thread_keeps_call K r b t (s s' : state) : thread_step K r b t s = Some s' -> g_call s' = g_call s.
Proof using.
  unfold thread_step. destruct (th_rest _) as [|[i|i|f y|g y] rest]; intros E; try (by injection E as <-).
  - destruct (k_code K r b t !! _); [|done]. simpl in E. destruct (barrier_open _ _ _ _ _); [|done]. by injection E as <-.
  - destruct (_ <? _); [|done]. by injection E as <-.
Qed.

Lemma inv_grid_step s x s' : ginv s -> step s x = Some s' -> ginv s'.
Proof using Hst.
  intros I H. destruct x as [r b t|r].
  - destruct (thread_call_spec _ _ _ _ _ H) as (K & HK & Hr & Hb & Ht & Hs). by apply (inv_thread_step s r b t K I Hr HK Hb Ht).
  - destruct (next_call_spec _ _ _ H) as (K & K' & HK & Hr & Hf & HK' & ->). by apply (inv_begin s r K K').
Qed.

Lemma inv_grid_run l : forall s s', ginv s -> grid_run N calls host reg0 s l = Some s' -> ginv s'.
Proof using Hst.
  induction l as [|x l IH]; intros s s' I H; cbn [grid_run] in H; [by injection H as <-|]. destruct (step s x) as [s1|] eqn:E; [|done].
  simpl in H. exact (IH s1 s' (inv_grid_step s x s1 I E) H).
Qed.

Lemma grid_initial_thread mem K r b t : calls !! 0%nat = Some K -> g_thread (grid_initial calls reg0 mem token) r b t = first_thread reg0 K r b t.
Proof using. intros HK. unfold grid_initial. cbn [g_thread]. clear -HK; destruct calls; [done|]. by injection HK as ->. Qed.

Lemma inv_grid_initial mem : calls <> [] -> ginv (grid_initial calls reg0 mem token).
Proof using Hst.
  intros Hne. assert (exists K, calls !! 0%nat = Some K) as [K HK] by (clear -Hne; destruct calls as [|K ks]; [done|by exists K]).
  destruct (st_block N K _ _ (Hst _ _ HK)) as [_ Hbk].
  assert (H0 : forall has b i r, has [Signal i; Wait i] = true -> (forall l l', has (l ++ l') = has l || has l') -> 0 <= r < N -> 0 <= i < N - 1 -> 0 <= b ->
    done_count has 0 b (first_thread reg0 K r b i) = 0%nat).
  { intros has b i r Hhs Happ Hr Hi Hb. destruct (decide (b < k_grid K)); [by rewrite (first_count K 0); try done; lia|].
    unfold done_count. by rewrite HK, (proj2 (Z.ltb_ge b (k_grid K))) by lia. }
  split; [intros r Hr; by apply lookup_lt_Some in HK|..]; intros *; rewrite ?(grid_initial_thread _ K) by done; unfold grid_initial;
    cbn [g_call g_inbound g_expected].
  - intros Hr HK' Hb Ht. simplify_eq. by apply first_ok.
  - simpl. lia.
  - simpl. lia.
  - intros Hr Hi Hb. cbv zeta. rewrite (grid_initial_thread mem K) by done. destruct (remoteRank_spec N r i Hr Hi). unfold signals.
    rewrite H0; try done; [lia|apply has_signal_app|by apply (index_of_range N)].
  - intros Hr Hi Hb. unfold waits. rewrite H0; try done; [lia|apply has_wait_app].
  - done.
Qed.

(** *** What a crossed handshake says *)

(** Whether a thread has sent its signal of segment [j]. *)
Definition signalled (j : nat) (th : thread D R) : bool := (j <? th_seg th)%nat || (Nat.eqb j (th_seg th) && negb (has_signal (th_rest th))).

Lemma handshakes_mono b k k' : (k <= k')%nat -> (handshakes b k <= handshakes b k')%nat.
Proof using. induction 1; simpl; lia. Qed.

Lemma done_count_ge has k b th : (handshakes b k <= done_count has k b th)%nat.
Proof using. unfold done_count. lia. Qed.

Lemma done_count_le has k K r b t th : calls !! k = Some K -> (b < k_grid K -> thread_ok K k r b t th) -> (done_count has k b th <= handshakes b (S k))%nat.
Proof using.
  intros HK Hok. unfold done_count. simpl. rewrite HK. destruct (Z.ltb_spec b (k_grid K)); [|lia]. destruct (Hok ltac:(done)) as [Hl _].
  pose proof (count_hs_mono (hs k b) (S (th_seg th)) (len k b) Hl) as Hm. simpl in Hm. destruct (hs k b (th_seg th)); [destruct (negb _); simpl|simpl]; lia.
Qed.

(** Later calls and passed segments make the count larger than that of the handshake. *)
Lemma count_reached has k b th k' j K : calls !! k = Some K -> b < k_grid K -> hs k b j = true -> (j < len k b)%nat -> has [] = false ->
  (k < k')%nat \/ (k' = k /\ passed j th = true) -> (handshakes b k + count_hs (hs k b) (S j) <= done_count has k' b th)%nat.
Proof using.
  intros HK Hb Hh Hj Hnil [Hk|[-> Hp]].
  - pose proof (handshakes_mono b (S k) k' Hk) as H1. pose proof (done_count_ge has k' b th). simpl in H1. rewrite HK, (proj2 (Z.ltb_lt b (k_grid K))) in H1 by lia.
    pose proof (count_hs_mono (hs k b) (S j) (len k b) Hj). lia.
  - unfold done_count. rewrite HK, (proj2 (Z.ltb_lt b (k_grid K))) by lia. unfold passed in Hp. apply orb_true_iff in Hp as [Hp%Nat.ltb_lt|Hp].
    + pose proof (count_hs_mono (hs k b) (S j) (th_seg th) Hp). lia.
    + apply andb_true_iff in Hp as [<-%Nat.eqb_eq Hr]. destruct (th_rest th); [|done]. simpl. rewrite Hh, Hnil. simpl. lia.
Qed.

Lemma count_signalled k b th k' j K Kp p t : calls !! k = Some K -> calls !! k' = Some Kp -> b < k_grid K -> (b < k_grid Kp -> thread_ok Kp k' p b t th) ->
  (handshakes b k + count_hs (hs k b) j < signals k' b th)%nat -> (k < k')%nat \/ (k' = k /\ signalled j th = true).
Proof using.
  intros HK HKp Hb Hok Hlt. destruct (lt_eq_lt_dec k' k) as [[Hk|Hk]|Hk]; [exfalso|right; split; [done|]|by left].
  - pose proof (done_count_le has_signal k' Kp p b t th HKp Hok). pose proof (handshakes_mono b (S k') k Hk). unfold signals in Hlt. lia.
  - subst k'. simplify_eq. unfold signals, done_count in Hlt. rewrite HK, (proj2 (Z.ltb_lt b (k_grid K))) in Hlt by lia.
    unfold signalled. destruct (lt_eq_lt_dec j (th_seg th)) as [[H|H]|H]; apply orb_true_iff.
    + left. by apply Nat.ltb_lt.
    + right. subst j. rewrite Nat.eqb_refl. simpl. destruct (has_signal (th_rest th)); [|done]. simpl in Hlt. rewrite andb_false_r in Hlt. lia.
    + exfalso. pose proof (count_hs_mono (hs k b) (S (th_seg th)) j H) as Hm. simpl in Hm. destruct (hs k b (th_seg th)); simpl in Hlt; [destruct (negb _)|]; lia.
Qed.

Section handshakes.
Context (s : state).
Hypothesis I : ginv s.

(** A thread that has waited for a peer: the peer has signalled. *)
Lemma waited_signalled r b i j k K : 0 <= r < N -> 0 <= i < N - 1 -> calls !! k = Some K -> 0 <= b < k_grid K -> hs k b j = true -> (j < len k b)%nat ->
  (k < g_call s r)%nat \/ (g_call s r = k /\ passed j (g_thread s r b i) = true) ->
  let p := remoteRank r i in (k < g_call s p)%nat \/ (g_call s p = k /\ signalled j (g_thread s p b (index_of p r)) = true).
Proof using I Hst.
  intros Hr Hi HK Hb Hh Hj Hpass p. destruct (remoteRank_spec N r i Hr Hi) as [Hp Hne]. fold p in Hp, Hne.
  pose proof (gi_inbound s I r b i Hr Hi ltac:(lia)) as Hin. pose proof (gi_expected s I r b i Hr Hi ltac:(lia)) as Hex.
  pose proof (gi_le s I r b i Hr Hi ltac:(lia)) as Hle. cbv zeta in Hin. fold p in Hin.
  destruct (lookup_lt_is_Some_2 calls (g_call s p) (gi_call s I p Hp)) as [Kp HKp]. destruct (st_block N Kp _ _ (Hst _ _ HKp)) as [_ Hbk].
  pose proof (index_of_range N p r Hp Hr Hne).
  pose proof (count_reached has_wait k b (g_thread s r b i) (g_call s r) j K HK ltac:(lia) Hh Hj eq_refl Hpass) as Hw. fold (waits (g_call s r) b (g_thread s r b i)) in Hw.
  simpl in Hw. rewrite Hh in Hw. eapply (count_signalled k b _ _ j K Kp p (index_of p r)); [done|done|lia| |lia].
  intros Hbp. apply (gi_thread s I); [done|done|lia|lia].
Qed.

(** Any thread that is past a handshake of its block: all peers have signalled. *)
Lemma crossed_signalled r p b t j k K : 0 <= r < N -> 0 <= p < N -> p <> r -> calls !! k = Some K -> 0 <= b < k_grid K -> 0 <= t < k_block K ->
  hs k b j = true -> (j < len k b)%nat -> (k < g_call s r)%nat \/ (g_call s r = k /\ (j < th_seg (g_thread s r b t))%nat) ->
  (k < g_call s p)%nat \/ (g_call s p = k /\ signalled j (g_thread s p b (index_of p r)) = true).
Proof using I Hst.
  intros Hr Hp Hne HK Hb Ht Hh Hj Hc. pose proof (index_of_range N r p Hr Hp ltac:(done)) as Hi. destruct (st_block N K _ _ (Hst _ _ HK)) as [_ Hbk].
  pose proof (waited_signalled r b (index_of r p) j k K Hr Hi HK Hb Hh Hj) as H. rewrite remoteRank_index in H by done. apply H.
  destruct Hc as [Hc|[Hk Hc]]; [by left|right; split; [done|]]. subst k. apply (gi_barrier s I r b t _ K); done || lia.
Qed.

(** And then all threads of the peer's block have passed the segments before. *)
Lemma crossed_passed r p b t t' j j' k K : 0 <= r < N -> 0 <= p < N -> p <> r -> calls !! k = Some K -> 0 <= b < k_grid K -> 0 <= t < k_block K -> 0 <= t' < k_block K ->
  hs k b j = true -> (j < len k b)%nat -> (j' < j)%nat -> (k < g_call s r)%nat \/ (g_call s r = k /\ (j < th_seg (g_thread s r b t))%nat) ->
  (k < g_call s p)%nat \/ (g_call s p = k /\ passed j' (g_thread s p b t') = true).
Proof using I Hst.
  intros Hr Hp Hne HK Hb Ht Ht' Hh Hj Hjj Hc. destruct (crossed_signalled r p b t j k K) as [H|[Hk Hs]]; try done; [by left|right; split; [done|]]. subst k.
  pose proof (index_of_range N p r Hp Hr Hne). destruct (st_block N K _ _ (Hst _ _ HK)) as [_ Hbk].
  apply (gi_barrier s I p b (index_of p r) t' K); try done; [lia|]. unfold signalled in Hs.
  apply orb_true_iff in Hs as [Hs%Nat.ltb_lt|Hs]; [lia|]. apply andb_true_iff in Hs as [Hs%Nat.eqb_eq _]. lia.
Qed.
End handshakes.

(** *** Nothing gets stuck *)

Lemma has_signal_next K k r b t th : thread_ok K k r b t th -> has_signal (th_rest th) = true -> exists x rest, th_rest th = x :: rest /\ is_wait x = false.
Proof using.
  intros (_ & data & Hd & _ & Hr) Hs. destruct (rest_split _ _ _ _ Hd Hr) as [(d & Hdd & E)|(_ & [E|E])]; rewrite E in Hs |- *; [|done..].
  destruct d as [|x d]; [|exists x, (d ++ handshake (hs k b (th_seg th) && (t <? N - 1)) t); split; [done|simpl in Hdd; by destruct x]].
  unfold handshake in *. destruct (_ && _); [|done]. by exists (Signal t), [Wait t].
Qed.

Section progress.
Context (s : state).
Hypothesis I : ginv s.
Hypothesis Hgrid : forall k K, calls !! k = Some K -> grid_barriers_reached K (len k).

Definition moves : Prop := exists x s', step s x = Some s'.

Lemma thread_call r b t K s' : calls !! g_call s r = Some K -> 0 <= r < N -> 0 <= b < k_grid K -> 0 <= t < k_block K -> thread_step K r b t s = Some s' -> moves.
Proof using.
  intros HK Hr Hb Ht H. exists (GThread r b t), s'. simpl. rewrite HK. simpl. unfold in_grid.
  by rewrite !(proj2 (Z.leb_le _ _)), !(proj2 (Z.ltb_lt _ _)) by lia.
Qed.

Lemma not_waiting_moves r b t K x rest : calls !! g_call s r = Some K -> 0 <= r < N -> 0 <= b < k_grid K -> 0 <= t < k_block K ->
  th_rest (g_thread s r b t) = x :: rest -> is_wait x = false -> moves.
Proof using. intros HK Hr Hb Ht E Hx. destruct x as [i|i|f a|g a]; try done; eapply (thread_call r b t K); try done; unfold thread_step; by rewrite E. Qed.

(** Of a call and a segment: whoever is behind can move. *)
Section behind.
Context (k : nat) (K : kernel D R) (n : nat).
Hypothesis HK : calls !! k = Some K.
Hypothesis Hcalls : forall p, 0 <= p < N -> (g_call s p < k)%nat -> moves.
Hypothesis Hsegs : forall r b t, 0 <= r < N -> g_call s r = k -> 0 <= b < k_grid K -> 0 <= t < k_block K ->
  finished K r b t (g_thread s r b t) = false -> (th_seg (g_thread s r b t) < n)%nat -> moves.

Lemma waiting_moves r b t : 0 <= r < N -> g_call s r = k -> 0 <= b < k_grid K -> 0 <= t < k_block K -> th_seg (g_thread s r b t) = n ->
  th_rest (g_thread s r b t) <> [] -> moves.
Proof using Hst I HK Hcalls Hsegs.
  intros Hr Hk Hb Ht Hn Hne. rewrite <- Hk in HK. pose proof (gi_thread s I r b t K Hr HK Hb Ht) as (Hl & data & Hd & _ & Hrest). rewrite Hk in *.
  destruct (th_rest (g_thread s r b t)) as [|x rest] eqn:E; [done|]. destruct (is_wait x) eqn:Hx; [|eapply not_waiting_moves; rewrite ?Hk; done].
  destruct x as [|i| |]; try done. destruct (rest_wait _ _ _ _ _ Hd Hrest) as (Hc & -> & ->). rewrite Hn in *. apply andb_true_iff in Hc as [Hh Htn%Z.ltb_lt].
  destruct (decide (g_expected s r b t < g_inbound s r b t)) as [Hlt|Hge].
  { eapply (thread_call r b t K); rewrite ?Hk; try done. unfold thread_step. rewrite E. by rewrite (proj2 (Z.ltb_lt _ _) Hlt). }
  destruct (remoteRank_spec N r t Hr ltac:(lia)) as [Hp Hpr]. set (p := remoteRank r t) in *.
  destruct (decide (g_call s p < k)%nat); [by apply (Hcalls p)|].
  pose proof (gi_inbound s I r b t Hr ltac:(lia) ltac:(lia)) as Hin. pose proof (gi_expected s I r b t Hr ltac:(lia) ltac:(lia)) as Hex. cbv zeta in Hin. fold p in Hin.
  assert (Hw : waits (g_call s r) b (g_thread s r b t) = (handshakes b k + count_hs (hs k b) n)%nat).
  { unfold waits, done_count. rewrite Hk, HK, E, Hn, (proj2 (Z.ltb_lt b (k_grid K))) by lia. simpl. rewrite andb_false_r. lia. }
  assert (Hsig : (signals (g_call s p) b (g_thread s p b (index_of p r)) <= handshakes b k + count_hs (hs k b) n)%nat) by lia.
  pose proof (index_of_range N p r Hp Hr ltac:(done)) as Hi. destruct (st_block N K _ _ (Hst _ _ HK)) as [_ Hbk].
  assert (Hnr : ~ ((k < g_call s p)%nat \/ (g_call s p = k /\ passed n (g_thread s p b (index_of p r)) = true))).
  { intros H. pose proof (count_reached has_signal k b _ _ n K HK ltac:(lia) Hh ltac:(lia) eq_refl H) as Hc. unfold signals in Hsig. simpl in Hc. rewrite Hh in Hc. lia. }
  assert (Hpk : g_call s p = k) by (destruct (lt_eq_lt_dec (g_call s p) k) as [[?|?]|?]; [done|done|exfalso; auto]).
  set (th := g_thread s p b (index_of p r)) in *. assert (Hok : thread_ok K k p b (index_of p r) th) by (rewrite <- Hpk; apply (gi_thread s I); rewrite ?Hpk; done || lia).
  assert (Hnf : (th_seg th <= n)%nat).
  { destruct (decide (th_seg th <= n)%nat); [done|]. exfalso. apply Hnr. right. split; [done|]. unfold passed. apply orb_true_iff. left. apply Nat.ltb_lt. lia. }
  destruct (decide (th_seg th = n)) as [En|].
  - destruct (has_signal (th_rest th)) eqn:Hsg.
    + destruct (has_signal_next K k p b (index_of p r) th Hok Hsg) as (x & rest & Ex & Hxw). eapply (not_waiting_moves p b (index_of p r)); rewrite ?Hpk; done || lia.
    + exfalso. unfold signals, done_count in Hsig. rewrite Hpk, HK, En, Hh, Hsg, (proj2 (Z.ltb_lt b (k_grid K))) in Hsig by lia. simpl in Hsig. lia.
  - apply (Hsegs p b (index_of p r)); try done; [lia| |subst th; lia]. unfold finished. fold th. destruct (th_rest th); [|done]. apply Nat.leb_gt.
    rewrite (st_len N K _ _ (Hst _ _ HK)) by (done || lia). lia.
Qed.

Lemma behind_moves r b t : 0 <= r < N -> g_call s r = k -> 0 <= b < k_grid K -> 0 <= t < k_block K -> th_seg (g_thread s r b t) = n ->
  finished K r b t (g_thread s r b t) = false -> moves.
Proof using Hst I HK Hcalls Hsegs Hgrid.
  intros Hr Hk Hb Ht Hn Hf. destruct (th_rest (g_thread s r b t)) as [|x rest] eqn:E; [|apply (waiting_moves r b t); try done; by rewrite E].
  assert (Hlast : (S n < len k b)%nat).
  { unfold finished in Hf. rewrite E, Hn in Hf. apply Nat.leb_gt in Hf. by rewrite (st_len N K _ _ (Hst _ _ HK)) in Hf. }
  destruct (lookup_lt_is_Some_2 (k_code K r b t) (S n)) as [seg Hseg]; [by rewrite (st_len N K _ _ (Hst _ _ HK))|].
  destruct (barrier_open K s r b n) eqn:Eb.
  { eapply (thread_call r b t K); rewrite ?Hk; try done. unfold thread_step. rewrite E, Hn, Hseg. simpl. by rewrite Eb. }
  assert (Hlate : exists b' t', 0 <= b' < k_grid K /\ 0 <= t' < k_block K /\ (S n < len k b')%nat /\ passed n (g_thread s r b' t') = false).
  { unfold barrier_open in Eb. destruct (k_barrier K n) eqn:Ek.
    - apply forallb_false in Eb as (t' & Hin & Hp). apply elem_of_threads in Hin; [|lia]. by exists b, t'.
    - apply forallb_false in Eb as (b' & Hin & Hp). apply elem_of_threads in Hin; [|lia]. apply forallb_false in Hp as (t' & Hin' & Hp).
      apply elem_of_threads in Hin'; [|lia]. exists b', t'. split_and!; try done; try lia. by apply (Hgrid k K HK n b b'). }
  destruct Hlate as (b' & t' & Hb' & Ht' & Hl' & Hp). unfold passed in Hp. apply orb_false_iff in Hp as [Hp1%Nat.ltb_ge Hp2].
  destruct (decide (th_seg (g_thread s r b' t') = n)) as [En|].
  - apply (waiting_moves r b' t'); try done. intros E'. by rewrite En, E', Nat.eqb_refl in Hp2.
  - apply (Hsegs r b' t'); try done; [|lia]. unfold finished. destruct (th_rest (g_thread s r b' t')); [|done]. apply Nat.leb_gt.
    rewrite (st_len N K _ _ (Hst _ _ HK)) by done. lia.
Qed.
End behind.

Lemma unfinished_moves k K : calls !! k = Some K -> (forall p, 0 <= p < N -> (g_call s p < k)%nat -> moves) ->
  forall n r b t, 0 <= r < N -> g_call s r = k -> 0 <= b < k_grid K -> 0 <= t < k_block K -> th_seg (g_thread s r b t) = n ->
  finished K r b t (g_thread s r b t) = false -> moves.
Proof using Hst I Hgrid.
  intros HK Hcalls n. induction (lt_wf n) as [n _ IH]. intros r b t Hr Hk Hb Ht Hn Hf. eapply (behind_moves k K n); try done.
  intros r' b' t' Hr' Hk' Hb' Ht' Hf' Hlt. by apply (IH _ Hlt r' b' t').
Qed.

Lemma rank_moves k : forall r K, 0 <= r < N -> g_call s r = k -> calls !! k = Some K -> rank_finished K s r = false \/ (S k < length calls)%nat -> moves.
Proof using Hst I Hgrid.
  induction (lt_wf k) as [k _ IH]. intros r K Hr Hk HK H. destruct (rank_finished K s r) eqn:Hf.
  - destruct H as [|H]; [done|]. destruct (lookup_lt_is_Some_2 calls (S k) H) as [K' HK']. eexists (GNext r), _. simpl. rewrite Hk, HK. simpl. rewrite Hf, HK'.
    by rewrite (proj2 (Z.leb_le _ _)), (proj2 (Z.ltb_lt _ _)) by lia.
  - destruct (st_block N K _ _ (Hst _ _ HK)) as [? _]. pose proof (st_grid N K _ _ (Hst _ _ HK)).
    unfold rank_finished in Hf. apply forallb_false in Hf as (b & Hb & Hf). apply elem_of_threads in Hb; [|lia].
    apply forallb_false in Hf as (t & Ht & Hf). apply elem_of_threads in Ht; [|lia].
    eapply (unfinished_moves k K HK); try done. intros p Hp Hlt. pose proof (gi_call s I p Hp) as Hc. destruct (lookup_lt_is_Some_2 calls _ Hc) as [Kp HKp].
    apply (IH (g_call s p) Hlt p Kp); try done. right. apply lookup_lt_Some in HK. lia.
Qed.

(** Either everything has been done, or somebody can do a step. *)
Lemma grid_progress : grid_complete N calls s \/ moves.
Proof using Hst I Hgrid.
  set (fin r := match calls !! g_call s r with Some K => rank_finished K s r && Nat.eqb (S (g_call s r)) (length calls) | None => false end).
  destruct (forallb fin (threads N)) eqn:Hf; [left|right].
  - intros r Hr. rewrite forallb_threads in Hf by lia. specialize (Hf r Hr). unfold fin in Hf. destruct (calls !! g_call s r) as [K|]; [|done].
    apply andb_true_iff in Hf as [? ?%Nat.eqb_eq]. by exists K.
  - apply forallb_false in Hf as (r & Hin & Hf). assert (Hr : 0 <= r < N) by (destruct (decide (0 <= N)); [by apply elem_of_threads|unfold threads in Hin; replace (Z.to_nat N) with 0%nat in Hin by lia; by apply elem_of_nil in Hin]).
    pose proof (gi_call s I r Hr) as Hc. destruct (lookup_lt_is_Some_2 calls _ Hc) as [K HK]. apply (rank_moves (g_call s r) r K); try done.
    unfold fin in Hf. rewrite HK in Hf. apply andb_false_iff in Hf as [Hf|Hf%Nat.eqb_neq]; [by left|right; lia].
Qed.
End progress.

(** *** How many steps everything takes *)

Definition seg_cost (l : list (list (instr D R))) : nat := sum_list_with (fun seg => S (length seg)) l.
Definition thread_left (K : kernel D R) (r b t : Z) (th : thread D R) : nat := length (th_rest th) + seg_cost (drop (S (th_seg th)) (k_code K r b t)).
Definition kernel_left (K : kernel D R) (r : Z) (f : Z -> Z -> thread D R) : nat :=
  sumz (k_grid K) (fun b => sumz (k_block K) (fun t => thread_left K r b t (f b t))).
Definition calls_left (r : Z) (k : nat) : nat := sum_list_with (fun K => S (kernel_left K r (first_thread reg0 K r))) (drop k calls).

(** The steps that are left, of a rank and of all ranks. *)
Definition rank_left (s : state) (r : Z) : nat :=
  match calls !! g_call s r with Some K => kernel_left K r (g_thread s r) | None => 0 end + calls_left r (S (g_call s r)).
Definition grid_left (s : state) : nat := sumz N (rank_left s).

Lemma rank_left_thread s s' r b t K th : calls !! g_call s r = Some K -> 0 <= b < k_grid K -> 0 <= t < k_block K ->
  g_call s' = g_call s -> g_thread s' = set3 (g_thread s) r b t th ->
  thread_left K r b t (g_thread s r b t) = (thread_left K r b t th + 1)%nat -> 0 <= r < N -> grid_left s = S (grid_left s').
Proof using.
  intros HK Hb Ht Hc Hth E Hr. unfold grid_left. rewrite (sumz_upd N (rank_left s) (rank_left s') r 1); [lia|done|..].
  - intros r' Hne. unfold rank_left. rewrite Hc, Hth. unfold set3. by rewrite upd_other.
  - unfold rank_left. rewrite Hc, Hth, HK. unfold set3. rewrite upd_at. unfold kernel_left.
    rewrite (sumz_upd (k_grid K) _ (fun b' => sumz (k_block K) (fun t' => thread_left K r b' t' (upd (g_thread s r) b (upd (g_thread s r b) t th) b' t'))) b 1);
      [lia|done|intros b' Hne; by rewrite upd_other|].
    rewrite upd_at. apply sumz_upd with (i := t); [done|intros t' Hne; by rewrite upd_other|]. by rewrite upd_at.
Qed.

Lemma thread_left_next K r b t th seg reg : th_rest th = [] -> k_code K r b t !! S (th_seg th) = Some seg ->
  thread_left K r b t th = (thread_left K r b t (mkThread (S (th_seg th)) seg reg) + 1)%nat.
Proof using. intros E Hs. unfold thread_left. rewrite E. simpl. rewrite (drop_S _ _ _ Hs). unfold seg_cost. simpl. lia. Qed.

Lemma thread_left_rest K r b t th x rest reg : th_rest th = x :: rest ->
  thread_left K r b t th = (thread_left K r b t (mkThread (th_seg th) rest reg) + 1)%nat.
Proof using. intros E. unfold thread_left. rewrite E. simpl. lia. Qed.

Lemma rank_finished_left K s r : calls !! g_call s r = Some K -> rank_finished K s r = true -> kernel_left K r (g_thread s r) = 0%nat.
Proof using Hst.
  intros HK Hf. rewrite (rank_finished_spec K s r HK) in Hf. destruct (st_block N K _ _ (Hst _ _ HK)) as [? _]. pose proof (st_grid N K _ _ (Hst _ _ HK)).
  unfold kernel_left. apply sumz_zero. intros b Hb%list_elem_of_In%elem_of_threads; [|lia]. apply sumz_zero. intros t Ht%list_elem_of_In%elem_of_threads; [|lia].
  specialize (Hf b t Hb Ht). unfold finished in Hf. unfold thread_left. destruct (th_rest _); [|done]. apply Nat.leb_le in Hf. by rewrite drop_ge.
Qed.

(** Every step takes one off. *)
Lemma step_left s x s' : step s x = Some s' -> grid_left s = S (grid_left s').
Proof using Hst.
  destruct x as [r b t|r]; intros H.
  - destruct (thread_call_spec _ _ _ _ _ H) as (K & HK & Hr & Hb & Ht & Hs). unfold thread_step in Hs.
    destruct (th_rest (g_thread s r b t)) as [|[i|i|f a|g a] rest] eqn:E.
    + destruct (k_code K r b t !! _) as [seg|] eqn:Es; [|done]. simpl in Hs. destruct (barrier_open _ _ _ _ _); [|done]. injection Hs as <-.
      eapply rank_left_thread; try done. by apply thread_left_next.
    + injection Hs as <-. eapply rank_left_thread; try done. by apply (thread_left_rest _ _ _ _ _ _ _ _ E).
    + destruct (_ <? _); [|done]. injection Hs as <-. eapply rank_left_thread; try done. by apply (thread_left_rest _ _ _ _ _ _ _ _ E).
    + injection Hs as <-. eapply rank_left_thread; try done. by apply (thread_left_rest _ _ _ _ _ _ _ _ E).
    + injection Hs as <-. eapply rank_left_thread; try done. by apply (thread_left_rest _ _ _ _ _ _ _ _ E).
  - destruct (next_call_spec _ _ _ H) as (K & K' & HK & Hr & Hf & HK' & ->). unfold grid_left.
    rewrite (sumz_upd N (rank_left s) (rank_left (begin_kernel host reg0 s K' r (S (g_call s r)))) r 1); [lia|done|..]; unfold rank_left, begin_kernel; cbn [g_call g_thread].
    + intros r' Hne. by rewrite !upd_other.
    + rewrite !upd_at, HK, HK', (rank_finished_left K s r HK Hf). unfold calls_left at 1. rewrite (drop_S _ _ _ HK'). simpl. fold (calls_left r (S (S (g_call s r)))). lia.
Qed.

Lemma run_left l : forall s s', grid_run N calls host reg0 s l = Some s' -> grid_left s = (length l + grid_left s')%nat.
Proof using Hst.
  induction l as [|x l IH]; intros s s' H; cbn [grid_run] in H; [by injection H as <-|]. destruct (step s x) as [s1|] eqn:E; [|done]. simpl in H.
  rewrite (step_left _ _ _ E), (IH _ _ H). done.
Qed.

Lemma machine_run_app l l' : forall s, grid_run N calls host reg0 s (l ++ l') = (s' ← grid_run N calls host reg0 s l; grid_run N calls host reg0 s' l').
Proof using. induction l as [|x l IH]; intros s; cbn [app grid_run]; [done|]. destruct (step s x) as [s1|]; [|done]. simpl. apply IH. Qed.

(** From everywhere there is a way to the end. *)
Lemma grid_completes s : (forall k K, calls !! k = Some K -> grid_barriers_reached K (len k)) -> ginv s ->
  exists l s', grid_run N calls host reg0 s l = Some s' /\ grid_complete N calls s'.
Proof using Hst.
  intros Hgrid. remember (grid_left s) as m eqn:Em. revert s Em. induction (lt_wf m) as [m _ IH]. intros s -> I.
  destruct (grid_progress s I Hgrid) as [Hc|(x & s1 & Hx)]; [by exists [], s|].
  destruct (IH (grid_left s1) ltac:(rewrite (step_left _ _ _ Hx); lia) s1 eq_refl (inv_grid_step _ _ _ I Hx)) as (l & s' & Hl & Hc).
  exists (x :: l), s'. split; [|done]. cbn [grid_run]. by rewrite Hx.
Qed.
End theory.

(** ** The data operations of a thread

    A kernel describes what the threads do between barriers by lists of operations of its
    own, [strip] gives their code, and [o] those of one thread by segment. *)

Section operations.
Context {D R op : Type} (strip : op -> instr D R).
Hypothesis strip_is_data : forall x, is_data (strip x) = true.

Definition data_left (th : thread D R) : nat := length (List.filter is_data (th_rest th)).

(** How many operations of its segment a thread has done, and which of segment [j]. *)
Definition at_op (o : nat -> list op) (th : thread D R) : nat := length (o (th_seg th)) - data_left th.
Definition done_ops (o : nat -> list op) (j : nat) (th : thread D R) : list op :=
  if (j <? th_seg th)%nat then o j else if Nat.eqb j (th_seg th) then take (at_op o th) (o j) else [].

Lemma strip_data l : forallb is_data (map strip l) = true.
Proof using strip_is_data. induction l as [|x l IH]; simpl; [done|]. by rewrite strip_is_data. Qed.

Lemma filter_no_data l : no_data l = true -> List.filter is_data (l : list (instr D R)) = [].
Proof using. unfold no_data. induction l as [|x l IH]; simpl; [done|]. intros [Hx Hl]%andb_true_iff. apply negb_true_iff in Hx. rewrite Hx. by apply IH. Qed.

Lemma filter_strip l : List.filter is_data (map strip l) = map strip l.
Proof using strip_is_data. induction l as [|x l IH]; simpl; [done|]. by rewrite strip_is_data, IH. Qed.

Section one_thread.
Context (o : nat -> list op) (c : bool) (t : Z) (th : thread D R).
Hypothesis Hrest : rest_of (map strip (o (th_seg th))) c t (th_rest th).

(** What a thread has left: its operations from [at_op], and no other data operation. *)
Lemma rest_ops : (data_left th <= length (o (th_seg th)))%nat /\
  exists tl, th_rest th = map strip (drop (at_op o th) (o (th_seg th))) ++ tl /\ no_data tl = true.
Proof using strip_is_data Hrest.
  destruct (rest_suffix _ _ _ _ (strip_data _) Hrest) as (m & tl & Hm & E & Htl). rewrite length_map in Hm.
  assert (El : data_left th = (length (o (th_seg th)) - m)%nat).
  { unfold data_left. by rewrite E, List.filter_app, (filter_no_data tl Htl), app_nil_r, skipn_map, filter_strip, length_map, length_drop. }
  assert (Em : at_op o th = m) by (unfold at_op; lia). rewrite Em. split; [lia|]. exists tl. by rewrite E, skipn_map.
Qed.

(** The next data operation. *)
Lemma next_op x rest : th_rest th = x :: rest -> is_data x = true ->
  exists y, o (th_seg th) !! at_op o th = Some y /\ x = strip y /\ forall reg, at_op o (mkThread (th_seg th) rest reg) = S (at_op o th).
Proof using strip_is_data Hrest.
  intros E Hx. destruct rest_ops as (Hm & tl & Er & Htl). rewrite E in Er. set (m := at_op o th) in *.
  destruct (o (th_seg th) !! m) as [y|] eqn:Eo.
  - exists y. rewrite (drop_S _ _ _ Eo) in Er. simpl in Er. injection Er as -> _. split_and!; [done|done|]. intros reg.
    unfold m, at_op, data_left in *. cbn [th_seg th_rest]. rewrite E in Hm |- *. simpl in *. rewrite Hx in *. simpl in *. lia.
  - rewrite drop_ge in Er by (by apply lookup_ge_None). simpl in Er. subst tl. unfold no_data in Htl. simpl in Htl. by rewrite Hx in Htl.
Qed.

(** A thread that has a data operation left has not passed its segment. *)
Lemma op_left y : o (th_seg th) !! at_op o th = Some y -> th_rest th <> [].
Proof using strip_is_data Hrest. intros Ho. destruct rest_ops as (_ & tl & Er & _). rewrite (drop_S _ _ _ Ho) in Er. by rewrite Er. Qed.
End one_thread.

Lemma thread_rest N hs len K k r b t (th : thread D R) l : thread_ok N hs len K k r b t th ->
  k_code K r b t !! th_seg th = Some (map strip l ++ handshake (hs k b (th_seg th) && (t <? N - 1)) t) ->
  rest_of (map strip l) (hs k b (th_seg th) && (t <? N - 1)) t (th_rest th).
Proof using. intros (_ & data & _ & Hc & Hrest) H. rewrite Hc in H. injection H as H. apply app_inv_tail in H. by rewrite <- H. Qed.

Lemma passed_done o j th : passed j th = true -> done_ops o j th = o j.
Proof using.
  intros Hp. unfold passed in Hp. unfold done_ops. destruct (j <? th_seg th)%nat; [done|]. simpl in Hp. apply andb_true_iff in Hp as [Hj Hrest].
  rewrite Hj. apply Nat.eqb_eq in Hj as ->. unfold at_op, data_left. destruct (th_rest th); [|done]. simpl. rewrite Nat.sub_0_r. by apply take_ge.
Qed.

Lemma other_op o th x rest reg : th_rest th = x :: rest -> is_data x = false -> at_op o (mkThread (th_seg th) rest reg) = at_op o th.
Proof using. intros E Hx. unfold at_op, data_left. cbn [th_seg th_rest]. rewrite E. simpl. by rewrite Hx. Qed.

Lemma done_more o th y reg rest : o (th_seg th) !! at_op o th = Some y -> at_op o (mkThread (th_seg th) rest reg) = S (at_op o th) ->
  forall j y', y' ∈ done_ops o j (mkThread (th_seg th) rest reg) -> y' ∈ done_ops o j th \/ (j = th_seg th /\ y' = y).
Proof using.
  intros Ho Em j y'. unfold done_ops. cbn [th_seg]. destruct (j <? th_seg th)%nat; [by left|]. destruct (Nat.eqb_spec j (th_seg th)) as [->|]; [|by intros ?%elem_of_nil].
  rewrite Em, (take_S_r _ _ _ Ho), elem_of_app. intros [H|H%list_elem_of_singleton]; [by left|by right].
Qed.

Lemma done_ops_in o j th y : y ∈ done_ops o j th -> y ∈ o j /\ (j <= th_seg th)%nat.
Proof using.
  unfold done_ops. destruct (Nat.ltb_spec j (th_seg th)); [intros; split; [done|lia]|]. destruct (Nat.eqb_spec j (th_seg th)) as [->|]; [|by intros ?%elem_of_nil].
  intros Ho. split; [|lia]. by eapply elem_of_take in Ho as (i & Ho & _); eapply list_elem_of_lookup_2.
Qed.

(** At the beginning of a segment. *)
Lemma at_segment o j c t reg : at_op o (mkThread j (map strip (o j) ++ handshake c t) reg) = 0%nat.
Proof using strip_is_data. unfold at_op, data_left. cbn [th_seg th_rest]. rewrite List.filter_app, filter_strip, length_app, length_map. lia. Qed.

Lemma done_next o th rest reg : th_rest th = [] -> at_op o (mkThread (S (th_seg th)) rest reg) = 0%nat ->
  forall j y, y ∈ done_ops o j (mkThread (S (th_seg th)) rest reg) -> y ∈ done_ops o j th.
Proof using.
  intros E Em j y. unfold done_ops at 1. cbn [th_seg]. rewrite Em. simpl take. destruct (Nat.ltb_spec j (S (th_seg th))).
  - intros Ho. rewrite passed_done; [done|]. unfold passed. rewrite E. destruct (Nat.ltb_spec j (th_seg th)); [done|]. simpl. apply andb_true_iff. split; [apply Nat.eqb_eq; lia|done].
  - destruct (Nat.eqb j _); by intros ?%elem_of_nil.
Qed.

(** What has been done stays done. *)
Lemma done_stays_next o th rest reg j y : y ∈ done_ops o j th -> y ∈ done_ops o j (mkThread (S (th_seg th)) rest reg).
Proof using. intros [Hy Hj]%done_ops_in. unfold done_ops. cbn [th_seg]. by rewrite (proj2 (Nat.ltb_lt _ _)) by lia. Qed.

Lemma done_stays o th rest reg j y : (at_op o th <= at_op o (mkThread (th_seg th) rest reg))%nat ->
  y ∈ done_ops o j th -> y ∈ done_ops o j (mkThread (th_seg th) rest reg).
Proof using.
  intros Hle. unfold done_ops. cbn [th_seg]. destruct (j <? th_seg th)%nat; [done|]. destruct (Nat.eqb j (th_seg th)); [|done].
  rewrite !list_elem_of_In. intros (n & Hn)%In_nth_error. apply nth_error_In with n. rewrite nth_error_firstn in *. destruct (Nat.ltb_spec n (at_op o th)); [|done].
  by rewrite (proj2 (Nat.ltb_lt _ _)) by lia.
Qed.

Lemma done_includes o th y rest reg : o (th_seg th) !! at_op o th = Some y -> at_op o (mkThread (th_seg th) rest reg) = S (at_op o th) ->
  y ∈ done_ops o (th_seg th) (mkThread (th_seg th) rest reg).
Proof using.
  intros Ho Em. unfold done_ops. cbn [th_seg]. rewrite Nat.ltb_irrefl, Nat.eqb_refl, Em, (take_S_r _ _ _ Ho). apply elem_of_app. right. by left.
Qed.

(** A thread at its end has done everything. *)
Lemma finished_done o K r b t th j y : finished K r b t th = true -> (j < length (k_code K r b t))%nat -> y ∈ o j -> y ∈ done_ops o j th.
Proof using.
  unfold finished. intros Hf Hj Ho. destruct (th_rest th) eqn:E; [|done]. apply Nat.leb_le in Hf. rewrite passed_done; [done|]. unfold passed. rewrite E.
  destruct (Nat.ltb_spec j (th_seg th)); [done|]. simpl. apply andb_true_iff. split; [apply Nat.eqb_eq; lia|done].
Qed.
End operations.

(** ** What the register holds

    [before] says what an operation needs to find in the register, [after] what it leaves there. *)

Section chains.
Context {op X : Type} (before : op -> option X) (after : op -> X).

Fixpoint chained (cur : option X) (l : list op) : Prop :=
  match l with [] => True | o :: l' => (before o = None \/ before o = cur) /\ chained (Some (after o)) l' end.

Lemma chained_app l l' : (forall cur, chained cur l) -> (forall cur, chained cur l') -> forall cur, chained cur (l ++ l').
Proof.
  intros H H'. assert (G : forall l cur, chained cur l -> chained cur (l ++ l')).
  { clear l H. induction l as [|o l IH]; intros cur; simpl; [done|]. intros [Ho Hl]. split; [done|by apply IH]. }
  intros cur. by apply G.
Qed.

Lemma chained_flat_map {B} (f : B -> list op) l : (forall x cur, chained cur (f x)) -> forall cur, chained cur (flat_map f l).
Proof. intros H. induction l as [|x l IH]; simpl; [done|]. apply chained_app; [apply H|apply IH]. Qed.

Lemma chained_next l : forall cur m o o', chained cur l -> l !! m = Some o -> l !! S m = Some o' -> before o' = None \/ before o' = Some (after o).
Proof.
  induction l as [|o1 l IH]; intros cur m o o' Hc Hm Hs; [done|]. destruct Hc as [_ Hc]. destruct m as [|m]; simpl in *; [|by eapply IH].
  injection Hm as <-. destruct l as [|o2 l]; [done|]. simpl in Hs. injection Hs as ->. by destruct Hc.
Qed.

Lemma chained_first l o : chained None l -> l !! 0%nat = Some o -> before o = None.
Proof. destruct l as [|o' l]; [done|]. simpl. intros [H _] [= <-]. by destruct H. Qed.
End chains.

(** ** Code with barriers *)

Section code.
Context {D R : Type}.

(** The code of a thread, and its segments between barriers. *)
Inductive act := Do (x : instr D R) | Sync.

Fixpoint segments (l : list act) : list (list (instr D R)) :=
  match l with
  | [] => [[]]
  | Sync :: l' => [] :: segments l'
  | Do x :: l' => match segments l' with seg :: rest => (x :: seg) :: rest | [] => [[x]] end
  end.

Lemma segments_last l : segments (map Do l) = [l].
Proof. induction l as [|x l IH]; simpl; [done|]. by rewrite IH. Qed.
Lemma segments_sync l rest : segments (map Do l ++ [Sync] ++ rest) = l :: segments rest.
Proof. induction l as [|x l IH]; simpl; [done|]. simpl in IH. by rewrite IH. Qed.

Lemma flat_map_Do {B op} (strip : op -> instr D R) (f : B -> list op) (g : B -> list act) l : (forall x, x ∈ l -> g x = map Do (map strip (f x))) ->
  flat_map g l = map Do (map strip (flat_map f l)).
Proof.
  induction l as [|x l IH]; intros H; simpl; [done|]. rewrite !map_app. f_equal; [apply H; by left|]. apply IH. intros y Hy. apply H. by right.
Qed.
End code.
Arguments act : clear implicits.

Lemma elem_of_flat_map {B C} (f : B -> list C) l y : y ∈ flat_map f l <-> exists x, x ∈ l /\ y ∈ f x.
Proof. rewrite list_elem_of_In, in_flat_map. setoid_rewrite list_elem_of_In. done. Qed.
