(* ===== verification/AllgatherFullmesh.v ===== *)
(** * The full-mesh allgather

    Models src/ext/collectives/allgather/allgather_fullmesh.cu: the kernel
    [allgatherFullmesh], with which every rank writes its input in chunks to the scratch
    buffers of all other ranks and copies what has arrived to its output, the checks of
    [allgatherKernelFunc], the set-up of a context, and repeated launches.

    The threads of all ranks run on the machine of [GridKernel].  The memory is one of
    16-byte words ([int4]) by address, for all ranks; index arithmetic in [size_t] stays
    within the buffers and is not wrapped, [resultOffset] is an [int] and is. *)

From S2P Require Import Prelude Errors Core RegisteredMemory GpuDataTypes DeviceCopy MemoryChannel Collectives.
From S2P Require Import GridKernel.
From S2P Require Algorithm.
Import Algorithm(CommResult, CommInvalidArgument, CommInternalError, CommSuccess, AlgorithmCtxKey, mkCtxKey).
Local Open Scope Z_scope.

(** ** Host side *)

Definition kMaxBlocks : Z := 56.
Definition kMaxThreadsPerBlock : Z := 1024.
Definition sizeof_int4 : Z := 16.

(** A launch: out of place or in place, and the grid. *)
Record launch := mkLaunch { l_outOfPlace : bool; l_blocks : Z; l_threads : Z; l_nelems : Z }.

(** The result, and the kernel launched; [ok]: what the runtime says of the launch. *)
Definition allgatherKernelFunc (p : platform) (ok : bool) (rank input output inputSize nBlocks nThreadsPerBlock : Z) : CommResult * option launch :=
  let nElem := inputSize / 4 in
  let '(blocks, threads) :=
    if (nBlocks =? 0) || (nThreadsPerBlock =? 0) then (kMaxBlocks, kMaxThreadsPerBlock) else (nBlocks, nThreadsPerBlock) in
  if (kMaxBlocks <? blocks) || (kMaxThreadsPerBlock <? threads) then (CommInvalidArgument, None) else
  if negb (Z.rem threads (WARP_SIZE p) =? 0) then (CommInvalidArgument, None) else
  let l := mkLaunch (negb (input =? output + rank * inputSize)) blocks threads nElem in
  if ok then (CommSuccess, Some l) else (CommInternalError, Some l).

(** The same key for all buffers. *)
Definition generateAllgatherContextKey : AlgorithmCtxKey := mkCtxKey 0 0 0 0 0.

Section contexts.
Context {S : Type} (make : connection -> Z -> S) (worldSize nRanksPerNode rank : Z).

(** [recv i]: the scratch memory that rank [i] has sent. *)
Definition initAllgatherContext (localMemory scratchMemory : Impl) (recv : Z -> Impl) : option (result (AlgorithmCtx S)) :=
  let conns := setupConnections worldSize rank in
  let semaphores := setupMemorySemaphores make conns kMaxBlocks in
  let remoteMemories := setupRemoteMemories worldSize rank recv in
  r ← setupMemoryChannels conns semaphores remoteMemories localMemory kMaxBlocks;
  Some (chans ← r;
        Ok (mkAlgorithmCtx rank worldSize nRanksPerNode (remoteMemories ++ [localMemory; scratchMemory]) chans
              (setupMemoryChannelDeviceHandles chans))).
End contexts.

(** ** The kernel *)

Section kernel.
Context {D S : Type}.
Notation instr := (instr D D).

(** A word is loaded and stored at some places. *)
Definition copy_word (src : Z) (dsts : list Z) : list (act D D) :=
  Do (Load (fun _ v => v) src) :: map (fun d => Do (Store (fun v => v) d)) dsts.

Section thread.
Context (IsOutOfPlace : bool) (buff scratch resultBuff : Z) (memoryChannels : list (MemoryChannelDeviceHandle S))
  (rank nRanksPerNode nelems gridDim blockDim blockIdx threadIdx : Z).

Definition nPeer : Z := nRanksPerNode - 1.
Definition nInt4 : Z := nelems * 4 / sizeof_int4.
Definition unitNInt4 : Z := blockDim * gridDim.
Definition nInt4PerChunk : Z := unitNInt4 * 4.
Definition nItrs : Z := nInt4 / nInt4PerChunk.
Definition restNInt4 : Z := nInt4 mod nInt4PerChunk.
Definition scratchChunkRankOffset : Z := nInt4PerChunk * rank.
Definition tid : Z := threadIdx + blockIdx * blockDim.

Definition channel (peerIdx : Z) : option (MemoryChannelDeviceHandle S) := memoryChannels !! Z.to_nat (nPeer * blockIdx + peerIdx).

Definition signal_and_wait : list (act D D) := if threadIdx <? nPeer then [Do (Signal threadIdx); Do (Wait threadIdx)] else [].

(** Where a word is written to at the peers. *)
Definition peer_words (idx : Z) : list Z :=
  flat_map (fun i => match channel ((i + rank) mod nPeer) with
                     | Some h => [element h sizeof_int4 (idx + scratchChunkRankOffset)]
                     | None => []
                     end) (threads nPeer).

Definition write_chunk (itr count : Z) : list (act D D) :=
  flat_map (fun idx =>
      copy_word (buff + (itr * nInt4PerChunk + idx) * sizeof_int4)
        (peer_words idx ++ (if IsOutOfPlace then [resultBuff + (nInt4 * rank + idx + itr * nInt4PerChunk) * sizeof_int4] else [])))
    (strided tid (blockDim * gridDim) count).

Definition read_chunk (itr count : Z) : list (act D D) :=
  flat_map (fun peerIdx =>
      let resultOffset := s32 (nInt4 * remoteRank rank peerIdx + itr * nInt4PerChunk) in
      flat_map (fun idx => copy_word (scratch + (nInt4PerChunk * remoteRank rank peerIdx + idx) * sizeof_int4)
                             [resultBuff + (resultOffset + idx) * sizeof_int4])
        (strided tid (blockDim * gridDim) count))
    (threads nPeer).

(** One pass of the loop, and the rest. *)
Definition round (itr count : Z) : list (act D D) :=
  signal_and_wait ++ [Sync] ++ write_chunk itr count ++ [Sync] ++ signal_and_wait ++ [Sync] ++ read_chunk itr count.

Definition allgatherFullmesh : list (act D D) :=
  flat_map (fun itr => round itr nInt4PerChunk) (threads nItrs) ++ (if 0 <? restNInt4 then round nItrs restNInt4 else []).
End thread.

(** One call of the collective: the arguments of all ranks. *)
Record call := mkCall { a_inputSize : Z; a_gridDim : Z; a_blockDim : Z; a_buff : Z -> Z; a_resultBuff : Z -> Z }.

Definition a_nelems (a : call) : Z := a_inputSize a / 4.
Definition a_outOfPlace (a : call) (r : Z) : bool := negb (a_buff a r =? a_resultBuff a r + r * a_inputSize a).

(** The grids of all ranks. *)
Definition allgather_kernel (N : Z) (scratch : Z -> Z) (memoryChannels : Z -> list (MemoryChannelDeviceHandle S)) (a : call) : kernel D D :=
  mkKernel (a_gridDim a) (a_blockDim a)
    (fun r b t => segments (allgatherFullmesh (a_outOfPlace a r) (a_buff a r) (scratch r) (a_resultBuff a r) (memoryChannels r)
                              r N (a_nelems a) (a_gridDim a) (a_blockDim a) b t))
    (fun _ => BlockBarrier).
End kernel.







































(** ** The operations of a call *)

Section calls.
Context {D S : Type} (N : Z) (scratch : Z -> Z) (chans : Z -> list (MemoryChannelDeviceHandle S)) (home : Z -> Z).
Notation instr := (instr D D).

(** Word [idx] of the input and of part [p] of the output of rank [r]; what rank [p] writes to in its scratch buffer. *)
Definition words (a : call) : Z := nInt4 (a_nelems a).
Definition unit_of (a : call) : Z := a_blockDim a * a_gridDim a.
Definition chunk (a : call) : Z := nInt4PerChunk (a_gridDim a) (a_blockDim a).
Definition in_word (a : call) (r idx : Z) : Z := a_buff a r + idx * sizeof_int4.
Definition out_word (a : call) (r p idx : Z) : Z := a_resultBuff a r + (words a * p + idx) * sizeof_int4.
Definition slot (a : call) (r p idx : Z) : Z := scratch r + (chunk a * p + idx) * sizeof_int4.

(** The buffers of a call: each in the memory of its rank, and apart, but for an input that
    is a part of the output; one round is enough. *)
Record call_ok (a : call) : Prop := {
  ok_grid : 0 < a_gridDim a <= kMaxBlocks;
  ok_block : 0 < a_blockDim a <= kMaxThreadsPerBlock /\ N - 1 <= a_blockDim a;
  ok_size : 0 <= a_inputSize a /\ a_inputSize a mod sizeof_int4 = 0 /\ a_inputSize a * N < 2 ^ 31;
  ok_rounds : words a <= chunk a;
  ok_home_in : forall r i, 0 <= r < N -> 0 <= i < words a -> home (in_word a r i) = r;
  ok_home_out : forall r p i, 0 <= r < N -> 0 <= p < N -> 0 <= i < words a -> home (out_word a r p i) = r;
  ok_home_slot : forall r p i, 0 <= r < N -> 0 <= p < N -> 0 <= i < chunk a -> home (slot a r p i) = r;
  ok_in_slot : forall r i p j, 0 <= r < N -> 0 <= p < N -> 0 <= i < words a -> 0 <= j < words a -> in_word a r i <> slot a r p j;
  ok_out_slot : forall r p i q j, 0 <= r < N -> 0 <= p < N -> 0 <= q < N -> 0 <= i < words a -> 0 <= j < words a -> out_word a r p i <> slot a r q j;
  ok_in_out : forall r i p j, 0 <= r < N -> 0 <= p < N -> 0 <= i < words a -> 0 <= j < words a -> a_outOfPlace a r = true ->
    in_word a r i <> out_word a r p j
}.

Hypothesis HN : 1 <= N <= 8.
(** Every channel of a block leads to the scratch buffer of its peer. *)
Hypothesis Hchans : forall r b i, 0 <= r < N -> 0 <= b < kMaxBlocks -> 0 <= i < N - 1 ->
  exists h, chans r !! Z.to_nat ((N - 1) * b + i) = Some h /\ dst_ h = scratch (remoteRank r i).

(** Loads and stores, with the word they carry: the rank it is of, and its index. *)
Inductive op := OLoad (key : Z * Z) (a : Z) | OStore (key : Z * Z) (a : Z).
Definition strip (o : op) : instr := match o with OLoad _ a => Load (fun _ v => v) a | OStore _ a => Store (fun v => v) a end.
Definition key_of (o : op) : Z * Z := match o with OLoad k _ | OStore k _ => k end.
Definition carry (key : Z * Z) (src : Z) (dsts : list Z) : list op := OLoad key src :: map (OStore key) dsts.

Definition write_ops (a : call) (r b t : Z) : list op :=
  flat_map (fun idx => carry (r, idx) (in_word a r idx)
      (map (fun i => slot a (remoteRank r ((i + r) mod (N - 1))) r idx) (threads (N - 1)) ++ (if a_outOfPlace a r then [out_word a r r idx] else [])))
    (strided (tid (a_blockDim a) b t) (unit_of a) (words a)).
Definition read_ops (a : call) (r b t : Z) : list op :=
  flat_map (fun i => flat_map (fun idx => carry (remoteRank r i, idx) (slot a r (remoteRank r i) idx) [out_word a r (remoteRank r i) idx])
      (strided (tid (a_blockDim a) b t) (unit_of a) (words a)))
    (threads (N - 1)).

(** Of segment [j]. *)
Definition ops (a : call) (r b t : Z) (j : nat) : list op := match j with 1%nat => write_ops a r b t | 3%nat => read_ops a r b t | _ => [] end.

(** *** Their code *)

Lemma copy_carry key src dsts : copy_word src dsts = map Do (map strip (carry key src dsts)).
Proof. unfold copy_word, carry. simpl. f_equal. rewrite !map_map. done. Qed.

Lemma words_pos a : call_ok a -> 0 <= words a /\ words a * N * 4 < 2 ^ 31 /\ a_inputSize a = words a * sizeof_int4.
Proof using HN.
  intros Ha. destruct (ok_size a Ha) as (H1 & H2 & H3). unfold words, nInt4, a_nelems, sizeof_int4 in *.
  pose proof (Z.div_mod (a_inputSize a) 16 ltac:(lia)) as E. rewrite H2 in E.
  assert (a_inputSize a / 4 * 4 / 16 = a_inputSize a / 16) as ->.
  { rewrite E. replace (16 * (a_inputSize a / 16) + 0) with (a_inputSize a / 16 * 4 * 4) by lia. rewrite Z.div_mul by lia.
    replace (a_inputSize a / 16 * 4 * 4) with (a_inputSize a / 16 * 16) by lia. by rewrite !Z.div_mul by lia. }
  pose proof (Z.div_pos (a_inputSize a) 16 H1 ltac:(lia)). nia.
Qed.

Lemma peer_words_are a r b idx : call_ok a -> 0 <= r < N -> 0 <= b < a_gridDim a ->
  peer_words (chans r) r N (a_gridDim a) (a_blockDim a) b idx = map (fun i => slot a (remoteRank r ((i + r) mod (N - 1))) r idx) (threads (N - 1)).
Proof using HN Hchans.
  intros Ha Hr Hb. unfold peer_words, nPeer, channel. pose proof (ok_grid a Ha).
  assert (G : forall l, (forall i, i ∈ l -> 0 <= i < N - 1) -> flat_map (fun i =>
      match chans r !! Z.to_nat ((N - 1) * b + (i + r) mod (N - 1)) with
      | Some h => [element h sizeof_int4 (idx + scratchChunkRankOffset r (a_gridDim a) (a_blockDim a))]
      | None => [] end) l = map (fun i => slot a (remoteRank r ((i + r) mod (N - 1))) r idx) l).
  { induction l as [|i l IH]; intros Hl; simpl; [done|]. assert (0 <= i < N - 1) by (apply Hl; by left).
    destruct (Hchans r b ((i + r) mod (N - 1)) Hr ltac:(lia)) as (h & Hh & Ed); [apply Z.mod_pos_bound; lia|].
    rewrite Hh. simpl. f_equal; [|apply IH; intros; apply Hl; by right].
    unfold element, slot. rewrite Ed. unfold scratchChunkRankOffset, chunk. do 2 f_equal. lia. }
  apply G. intros i Hi. destruct (decide (0 <= N - 1)); [by apply elem_of_threads|lia].
Qed.

Lemma grid_fits a : call_ok a -> 0 < unit_of a /\ words a + unit_of a <= 2 ^ 64 /\ chunk a = unit_of a * 4.
Proof using HN.
  intros Ha. destruct (ok_grid a Ha), (ok_block a Ha) as [Hb _], (words_pos a Ha) as (Hw & Hw' & _).
  unfold unit_of, chunk, nInt4PerChunk, unitNInt4, kMaxBlocks, kMaxThreadsPerBlock in *. split_and!; [nia|nia|done].
Qed.

Section code.
Context (a : call) (r b t : Z).
Hypothesis Ha : call_ok a.
Hypothesis Hr : 0 <= r < N.
Hypothesis Hb : 0 <= b < a_gridDim a.
Hypothesis Ht : 0 <= t < a_blockDim a.

Lemma write_code : write_chunk (a_outOfPlace a r) (a_buff a r) (a_resultBuff a r) (chans r) r N (a_nelems a) (a_gridDim a) (a_blockDim a) b t 0 (words a)
  = map Do (map strip (write_ops a r b t)).
Proof using HN Hchans Ha Hr Hb.
  unfold write_chunk, write_ops. apply flat_map_Do. intros idx _. rewrite peer_words_are by done. rewrite copy_carry with (key := (r, idx)). do 3 f_equal.
  f_equal. destruct (a_outOfPlace a r); [|done]. unfold out_word, words. do 3 f_equal. lia.
Qed.

Lemma read_code : read_chunk (scratch r) (a_resultBuff a r) r N (a_nelems a) (a_gridDim a) (a_blockDim a) b t 0 (words a)
  = map Do (map strip (read_ops a r b t)).
Proof using HN Ha Hr.
  unfold read_chunk, read_ops. apply flat_map_Do. intros i Hi. apply flat_map_Do. intros idx _. rewrite copy_carry with (key := (remoteRank r i, idx)).
  do 3 f_equal. destruct (words_pos a Ha) as (Hw & Hw' & _). destruct (decide (N = 1)) as [E|]; [rewrite E in Hi; by apply elem_of_nil in Hi|].
  unfold nPeer in Hi. apply elem_of_threads in Hi; [|lia]. destruct (remoteRank_spec N r i Hr Hi) as [Hp _].
  rewrite s32_small; [|unfold words in *; nia]. unfold out_word, words. do 3 f_equal. lia.
Qed.

(** The segments of a thread. *)
Lemma code_of : k_code (allgather_kernel N scratch chans a) r b t =
  if 0 <? words a then [handshake (t <? N - 1) t; map strip (write_ops a r b t); handshake (t <? N - 1) t; map strip (read_ops a r b t)] else [[]].
Proof using HN Hchans Ha Hr Hb.
  destruct (grid_fits a Ha) as (Hu & _ & Hc), (words_pos a Ha) as (Hw & _ & _). pose proof (ok_rounds a Ha) as Ho.
  assert (Ec : nInt4PerChunk (a_gridDim a) (a_blockDim a) = chunk a) by done.
  assert (E : allgatherFullmesh (D := D) (a_outOfPlace a r) (a_buff a r) (scratch r) (a_resultBuff a r) (chans r) r N (a_nelems a) (a_gridDim a) (a_blockDim a) b t =
    if 0 <? words a then round (a_outOfPlace a r) (a_buff a r) (scratch r) (a_resultBuff a r) (chans r) r N (a_nelems a) (a_gridDim a) (a_blockDim a) b t 0 (words a) else []).
  { unfold allgatherFullmesh, nItrs, restNInt4. rewrite Ec. fold (words a). destruct (Z.ltb_spec 0 (words a)).
    - destruct (decide (words a = chunk a)) as [Ew|].
      + rewrite Ew, Z_div_same_full, Z_mod_same_full by lia. simpl. by rewrite !app_nil_r.
      + rewrite Z.div_small, Z.mod_small by lia. rewrite (proj2 (Z.ltb_lt 0 (words a))) by lia. done.
    - replace (words a) with 0 by lia. rewrite Z.div_0_l, Z.mod_0_l by lia. done. }
  unfold allgather_kernel. cbn [k_code]. rewrite E. destruct (0 <? words a); [|done].
  unfold round. rewrite write_code, read_code. unfold signal_and_wait, nPeer.
  assert (Eh : (if t <? N - 1 then [Do (Signal t); Do (Wait t)] else []) = map Do (handshake (D := D) (R := D) (t <? N - 1) t)) by by destruct (t <? N - 1).
  rewrite Eh, !segments_sync. by rewrite segments_last.
Qed.
End code.

Lemma strip_is_data x : is_data (strip x) = true.
Proof. by destruct x. Qed.

(** Where the handshakes are, and how many segments there are. *)
Definition ag_hs (a : call) (b : Z) (j : nat) : bool := (0 <? words a) && (Nat.eqb j 0 || Nat.eqb j 2).
Definition ag_len (a : call) (b : Z) : nat := if 0 <? words a then 4 else 1.

Lemma segment_of a r b t j seg : call_ok a -> 0 <= r < N -> 0 <= b < a_gridDim a -> 0 <= t < a_blockDim a ->
  k_code (allgather_kernel N scratch chans a) r b t !! j = Some seg ->
  seg = map strip (if 0 <? words a then ops a r b t j else []) ++ handshake (ag_hs a b j && (t <? N - 1)) t.
Proof using HN Hchans.
  intros Ha Hr Hb Ht. rewrite code_of by done. unfold ag_hs. destruct (0 <? words a); simpl.
  - destruct j as [|[|[|[|j]]]]; simpl; intros [= <-]; rewrite ?app_nil_r; done.
  - destruct j as [|j]; simpl; intros [= <-]; done.
Qed.

Lemma ag_structured a : call_ok a -> structured N (allgather_kernel (D := D) N scratch chans a) (ag_hs a) (ag_len a).
Proof using HN Hchans.
  intros Ha. destruct (ok_grid a Ha), (ok_block a Ha) as [? ?]. split; cbn [k_grid k_block]; unfold allgather_kernel; cbn [k_grid k_block]; [lia|lia|..].
  - intros r b t Hr Hb Ht. fold (allgather_kernel (D := D) N scratch chans a). rewrite code_of by done. unfold ag_len. by destruct (0 <? words a).
  - intros b. unfold ag_len. destruct (0 <? words a); lia.
  - intros r b t j seg Hr Hb Ht Hs. apply segment_of in Hs; try done. eexists. split; [|exact Hs]. apply (strip_data strip strip_is_data).
Qed.

(** *** What they load and store *)

Definition owns (a : call) (b t idx : Z) : Prop := 0 <= idx < words a /\ idx mod unit_of a = tid (a_blockDim a) b t.

Section facts.
Context (a : call).
Hypothesis Ha : call_ok a.

Lemma tid_range b t : 0 <= b < a_gridDim a -> 0 <= t < a_blockDim a -> 0 <= tid (a_blockDim a) b t < unit_of a.
Proof using. clear. intros. unfold tid, unit_of. nia. Qed.

Lemma elem_of_my_words b t idx : 0 <= b < a_gridDim a -> 0 <= t < a_blockDim a ->
  idx ∈ strided (tid (a_blockDim a) b t) (unit_of a) (words a) <-> owns a b t idx.
Proof using HN Ha.
  intros Hb Ht. destruct (grid_fits a Ha) as (Hu & Hf & _), (words_pos a Ha) as (Hw & _ & _). by apply elem_of_strided; [apply tid_range|..].
Qed.

Lemma word_owner idx : 0 <= idx < words a -> exists b t, 0 <= b < a_gridDim a /\ 0 <= t < a_blockDim a /\ owns a b t idx.
Proof using HN Ha.
  intros Hi. destruct (grid_fits a Ha) as (Hu & _ & _), (ok_block a Ha) as [Hbd _], (ok_grid a Ha). pose proof (Z.mod_pos_bound idx (unit_of a) Hu) as Hm.
  exists (idx mod unit_of a / a_blockDim a), (idx mod unit_of a mod a_blockDim a). unfold unit_of in *. split_and!.
  - apply Z.div_pos; lia.
  - apply Z.div_lt_upper_bound; lia.
  - apply Z.mod_pos_bound; lia.
  - apply Z.mod_pos_bound; lia.
  - split; [done|]. unfold tid, unit_of. pose proof (Z.div_mod (idx mod (a_blockDim a * a_gridDim a)) (a_blockDim a) ltac:(lia)). lia.
Qed.

Lemma elem_of_carry o key src dsts : o ∈ carry key src dsts <-> o = OLoad key src \/ exists d, d ∈ dsts /\ o = OStore key d.
Proof using.
  unfold carry. rewrite elem_of_cons. split.
  - intros [->|Hin]; [by left|right]. apply list_elem_of_fmap in Hin as (d & -> & Hd). by exists d.
  - intros [->|(d & Hd & ->)]; [by left|right]. apply list_elem_of_fmap. by exists d.
Qed.

(** Peer [(i + r) mod (N - 1)], for all [i], is every peer. *)
Lemma rotated r q : 0 <= r < N -> 0 <= q < N -> q <> r -> exists i, i ∈ threads (N - 1) /\ remoteRank r ((i + r) mod (N - 1)) = q.
Proof using. clear. intros Hr Hq Hne. destruct (remoteRank_surj N r q Hr Hq Hne) as (j & Hj & <-). exists ((j - r) mod (N - 1)).
  split; [apply elem_of_threads; [lia|]; apply Z.mod_pos_bound; lia|]. f_equal. rewrite Zplus_mod_idemp_l. replace (j - r + r) with j by lia. by apply Z.mod_small.
Qed.

Lemma rotated_peer r i : 0 <= r < N -> i ∈ threads (N - 1) -> 0 <= remoteRank r ((i + r) mod (N - 1)) < N /\ remoteRank r ((i + r) mod (N - 1)) <> r.
Proof using HN.
  intros Hr Hi. destruct (decide (N = 1)) as [E|]; [rewrite E in Hi; by apply elem_of_nil in Hi|]. apply remoteRank_spec; [done|]. apply Z.mod_pos_bound. lia.
Qed.

Section thread.
Context (r b t : Z).
Hypothesis Hr : 0 <= r < N.
Hypothesis Hb : 0 <= b < a_gridDim a.
Hypothesis Ht : 0 <= t < a_blockDim a.

Lemma load_fact j key x : OLoad key x ∈ ops a r b t j ->
  exists q idx, key = (q, idx) /\ owns a b t idx /\
    ((j = 1%nat /\ q = r /\ x = in_word a r idx) \/ (j = 3%nat /\ 0 <= q < N /\ q <> r /\ x = slot a r q idx)).
Proof using HN Ha Hr Hb Ht.
  destruct j as [|[|[|[|j]]]]; simpl; try by intros ?%elem_of_nil.
  - unfold write_ops. rewrite elem_of_flat_map. intros (idx & Hi & [E|(d & _ & E)]%elem_of_carry); [|done]. injection E as -> ->. apply elem_of_my_words in Hi; [|done..].
    exists r, idx. split_and!; [done|done|]. by left.
  - unfold read_ops. rewrite elem_of_flat_map. intros (i & Hi & Hx). apply elem_of_flat_map in Hx as (idx & Hidx & [E|(d & _ & E)]%elem_of_carry); [|done].
    injection E as -> ->. apply elem_of_my_words in Hidx; [|done..]. destruct (decide (N = 1)) as [E|]; [rewrite E in Hi; by apply elem_of_nil in Hi|].
    apply elem_of_threads in Hi; [|lia]. destruct (remoteRank_spec N r i Hr Hi). exists (remoteRank r i), idx. split_and!; [done|done|]. by right.
Qed.

Lemma store_fact j key x : OStore key x ∈ ops a r b t j ->
  exists q idx, key = (q, idx) /\ owns a b t idx /\
    ((j = 1%nat /\ q = r /\ exists p, 0 <= p < N /\ p <> r /\ x = slot a p r idx) \/
     (j = 1%nat /\ q = r /\ a_outOfPlace a r = true /\ x = out_word a r r idx) \/
     (j = 3%nat /\ 0 <= q < N /\ q <> r /\ x = out_word a r q idx)).
Proof using HN Ha Hr Hb Ht.
  destruct j as [|[|[|[|j]]]]; simpl; try by intros ?%elem_of_nil.
  - unfold write_ops. rewrite elem_of_flat_map. intros (idx & Hi & [E|(d & Hd & E)]%elem_of_carry); [done|]. injection E as -> ->. apply elem_of_my_words in Hi; [|done..].
    exists r, idx. split_and!; [done|done|]. apply elem_of_app in Hd as [Hd|Hd].
    + left. split_and!; [done|done|]. apply list_elem_of_fmap in Hd as (i & -> & Hi'). destruct (rotated_peer r i Hr Hi'). by eexists.
    + right. left. destruct (a_outOfPlace a r); [|by apply elem_of_nil in Hd]. by apply list_elem_of_singleton in Hd as ->.
  - unfold read_ops. rewrite elem_of_flat_map. intros (i & Hi & Hx). apply elem_of_flat_map in Hx as (idx & Hidx & [E|(d & Hd & E)]%elem_of_carry); [done|].
    injection E as -> ->. apply list_elem_of_singleton in Hd as ->. apply elem_of_my_words in Hidx; [|done..].
    destruct (decide (N = 1)) as [E|]; [rewrite E in Hi; by apply elem_of_nil in Hi|]. apply elem_of_threads in Hi; [|lia]. destruct (remoteRank_spec N r i Hr Hi).
    exists (remoteRank r i), idx. split_and!; [done|done|]. right. by right.
Qed.

Lemma writes_slot q idx : owns a b t idx -> 0 <= q < N -> q <> r -> OStore (r, idx) (slot a q r idx) ∈ ops a r b t 1.
Proof using HN Ha Hr Hb Ht.
  intros Hi Hq Hne. simpl. unfold write_ops. apply elem_of_flat_map. exists idx. split; [by apply elem_of_my_words|]. apply elem_of_carry. right. eexists. split; [|done].
  apply elem_of_app. left. destruct (rotated r q Hr Hq Hne) as (i & Hi' & <-). apply list_elem_of_fmap. by exists i.
Qed.

Lemma writes_own idx : owns a b t idx -> a_outOfPlace a r = true -> OStore (r, idx) (out_word a r r idx) ∈ ops a r b t 1.
Proof using HN Ha Hr Hb Ht.
  intros Hi Ho. simpl. unfold write_ops. apply elem_of_flat_map. exists idx. split; [by apply elem_of_my_words|]. apply elem_of_carry. right. eexists. split; [|done].
  apply elem_of_app. right. rewrite Ho. by left.
Qed.

Lemma writes_out q idx : owns a b t idx -> 0 <= q < N -> q <> r -> OStore (q, idx) (out_word a r q idx) ∈ ops a r b t 3.
Proof using HN Ha Hr Hb Ht.
  intros Hi Hq Hne. simpl. unfold read_ops. destruct (remoteRank_surj N r q Hr Hq Hne) as (i & Hi' & <-). apply elem_of_flat_map. exists i.
  split; [apply elem_of_threads; lia|]. apply elem_of_flat_map. exists idx. split; [by apply elem_of_my_words|]. apply elem_of_carry. right. eexists. split; [|done]. by left.
Qed.
End thread.
End facts.

(** *** A store follows the load of its word *)

Definition needs (o : op) : option (Z * Z) := match o with OLoad _ _ => None | OStore key _ => Some key end.

Lemma chained_ops a r b t j cur : chained needs key_of cur (ops a r b t j).
Proof using.
  assert (Hc : forall key src dsts cur, chained needs key_of cur (carry key src dsts)).
  { intros key src dsts c. unfold carry. simpl. split; [by left|]. clear c. induction dsts as [|d dsts IH]; simpl; [done|]. split; [by right|done]. }
  destruct j as [|[|[|[|j]]]]; simpl; try done.
  - apply chained_flat_map. intros idx c. apply Hc.
  - apply chained_flat_map. intros i. apply chained_flat_map. intros idx c. apply Hc.
Qed.

Lemma store_follows a r b t j m o key x : ops a r b t j !! m = Some o -> ops a r b t j !! Datatypes.S m = Some (OStore key x) -> key_of o = key.
Proof using. intros Ho Hs. destruct (chained_next needs key_of _ _ _ _ _ (chained_ops a r b t j None) Ho Hs) as [?|[= ?]]; [done|congruence]. Qed.

Lemma first_is_load a r b t j key x : ops a r b t j !! 0%nat = Some (OStore key x) -> False.
Proof using. intros H. by pose proof (chained_first needs key_of _ _ (chained_ops a r b t j None) H). Qed.

(** *** No two words go to one place, and none to an input *)

Section apart.
Context (a : call).
Hypothesis Ha : call_ok a.

Lemma scratch_word_inj p p' r r' i i' : 0 <= p < N -> 0 <= p' < N -> 0 <= r < N -> 0 <= r' < N -> 0 <= i < words a -> 0 <= i' < words a ->
  slot a p r i = slot a p' r' i' -> p = p' /\ r = r' /\ i = i'.
Proof using HN Ha.
  intros Hp Hp' Hr Hr' Hi Hi' E. pose proof (ok_rounds a Ha). assert (p = p') as <-.
  { rewrite <- (ok_home_slot a Ha p r i), E by lia. apply (ok_home_slot a Ha); lia. }
  unfold slot, sizeof_int4 in E. split; [done|]. assert (chunk a * r + i = chunk a * r' + i') by lia. assert (r = r') by nia. subst. split; [done|lia].
Qed.

Lemma out_inj r r' p p' i i' : 0 <= p < N -> 0 <= p' < N -> 0 <= r < N -> 0 <= r' < N -> 0 <= i < words a -> 0 <= i' < words a ->
  out_word a r p i = out_word a r' p' i' -> r = r' /\ p = p' /\ i = i'.
Proof using HN Ha.
  intros Hp Hp' Hr Hr' Hi Hi' E. assert (r = r') as <-.
  { rewrite <- (ok_home_out a Ha r p i), E by lia. apply (ok_home_out a Ha); lia. }
  unfold out_word, sizeof_int4 in E. split; [done|]. assert (words a * p + i = words a * p' + i') by lia. assert (p = p') by nia. subst. split; [done|lia].
Qed.

Lemma store_unique r b t j key r' b' t' j' key' x : 0 <= r < N -> 0 <= b < a_gridDim a -> 0 <= t < a_blockDim a -> 0 <= r' < N -> 0 <= b' < a_gridDim a -> 0 <= t' < a_blockDim a ->
  OStore key x ∈ ops a r b t j -> OStore key' x ∈ ops a r' b' t' j' -> key = key'.
Proof using HN Ha.
  intros Hr Hb Ht Hr' Hb' Ht' H H'.
  destruct (store_fact a Ha r b t Hr Hb Ht j key x H) as (q & i & -> & [Hi _] & C). destruct (store_fact a Ha r' b' t' Hr' Hb' Ht' j' key' x H') as (q' & i' & -> & [Hi' _] & C').
  destruct C as [(_ & -> & p & Hp & _ & ->)|[(_ & -> & _ & ->)|(_ & Hq & _ & ->)]], C' as [(_ & -> & p' & Hp' & _ & E)|[(_ & -> & _ & E)|(_ & Hq' & _ & E)]];
    try (apply out_inj in E as (_ & -> & ->); done).
  - by destruct (scratch_word_inj _ _ _ _ _ _ Hp Hp' Hr Hr' Hi Hi' E) as (_ & -> & ->).
  - destruct (decide (p = r')) as [->|]; [exfalso; by apply (ok_out_slot a Ha r' r' i' r i)|]. exfalso. pose proof (ok_rounds a Ha).
    assert (home (slot a p r i) = p) by (apply (ok_home_slot a Ha); lia). assert (home (out_word a r' r' i') = r') by (by apply (ok_home_out a Ha)). congruence.
  - destruct (decide (p = r')) as [->|]; [exfalso; by apply (ok_out_slot a Ha r' q' i' r i)|]. exfalso. pose proof (ok_rounds a Ha).
    assert (home (slot a p r i) = p) by (apply (ok_home_slot a Ha); lia). assert (home (out_word a r' q' i') = r') by (by apply (ok_home_out a Ha)). congruence.
  - destruct (decide (p' = r)) as [->|]; [exfalso; by apply (ok_out_slot a Ha r r i r' i')|]. exfalso. pose proof (ok_rounds a Ha).
    assert (home (slot a p' r' i') = p') by (apply (ok_home_slot a Ha); lia). assert (home (out_word a r r i) = r) by (by apply (ok_home_out a Ha)). congruence.
  - destruct (decide (p' = r)) as [->|]; [exfalso; by apply (ok_out_slot a Ha r q i r' i')|]. exfalso. pose proof (ok_rounds a Ha).
    assert (home (slot a p' r' i') = p') by (apply (ok_home_slot a Ha); lia). assert (home (out_word a r q i) = r) by (by apply (ok_home_out a Ha)). congruence.
Qed.

Lemma store_not_input r b t j key x h i : 0 <= r < N -> 0 <= b < a_gridDim a -> 0 <= t < a_blockDim a -> 0 <= h < N -> 0 <= i < words a ->
  OStore key x ∈ ops a r b t j -> x <> in_word a h i.
Proof using HN Ha.
  intros Hr Hb Ht Hh Hi H E. destruct (store_fact a Ha r b t Hr Hb Ht j key x H) as (q & i' & -> & [Hi' _] & C). pose proof (ok_rounds a Ha).
  assert (Hin : home (in_word a h i) = h) by (by apply (ok_home_in a Ha)).
  assert (Hown : forall q, 0 <= q < N -> x = out_word a r q i' -> r = h).
  { intros q' Hq' Ex. rewrite <- Hin, <- E, Ex. symmetry. by apply (ok_home_out a Ha). }
  destruct C as [(_ & -> & p & Hp & _ & Ex)|[(_ & -> & Ho & Ex)|(_ & Hq & Hne & Ex)]].
  - assert (p = h) as ->; [|by apply (ok_in_slot a Ha h i r i'); congruence]. rewrite <- Hin, <- E, Ex. symmetry. apply (ok_home_slot a Ha); lia.
  - assert (r = h) as -> by (by apply (Hown r)). apply (ok_in_out a Ha h i h i'); congruence.
  - assert (r = h) as -> by (by apply (Hown q)). destruct (a_outOfPlace a h) eqn:Ho; [apply (ok_in_out a Ha h i q i'); congruence|].
    unfold a_outOfPlace in Ho. apply negb_false_iff, Z.eqb_eq in Ho. destruct (words_pos a Ha) as (_ & _ & Es). rewrite Es in Ho.
    rewrite E in Ex. unfold in_word, out_word, sizeof_int4 in *. rewrite Ho in Ex. assert (h * words a + i = words a * q + i') by lia. nia.
Qed.
End apart.

(** ** Calls one after the other *)

Section runs.
Context (calls : list call) (host : Z -> nat -> (Z -> D) -> (Z -> D)) (reg0 : D) (token : Z -> Z -> Z -> Z).
Hypothesis Hok : forall k a, calls !! k = Some a -> call_ok a.
(** What is done to a rank's memory between calls stays within it. *)
Hypothesis Hhost : forall r n m x, home x <> r -> host r n m x = m x.

Notation the_kernel := (allgather_kernel (D := D) N scratch chans).
Notation kernels := (map the_kernel calls).
Notation state := (grid_state D D).
Notation step := (grid_step N kernels host reg0).

Definition hs_at (k : nat) (b : Z) (j : nat) : bool := match calls !! k with Some a => ag_hs a b j | None => false end.
Definition len_at (k : nat) (b : Z) : nat := match calls !! k with Some a => ag_len a b | None => 1 end.

Lemma kernels_lookup k K : kernels !! k = Some K <-> exists a, calls !! k = Some a /\ K = the_kernel a.
Proof using. rewrite list_lookup_fmap. destruct (calls !! k) as [a|]; simpl; split; [intros [= <-]; by exists a|by intros (? & [= <-] & ->)|done|by intros (? & ? & _)]. Qed.

Lemma calls_structured k K : kernels !! k = Some K -> structured N K (hs_at k) (len_at k).
Proof using HN Hchans Hok.
  intros HK. apply kernels_lookup in HK as (a & Ha & ->). unfold hs_at, len_at. rewrite Ha. apply ag_structured. by apply (Hok k).
Qed.

Lemma no_grid_barriers k K : kernels !! k = Some K -> grid_barriers_reached K (len_at k).
Proof using. intros HK. apply kernels_lookup in HK as (a & _ & ->). by intros j b b' H. Qed.

Notation gi := (ginv N kernels hs_at len_at token).

(** *** How far a thread is *)

Lemma ops_empty a r b t j : call_ok a -> 0 <= r < N -> 0 <= b < a_gridDim a -> 0 <= t < a_blockDim a -> (0 <? words a) = false -> ops a r b t j = [].
Proof using HN.
  intros Ha Hr Hb Ht Hw. apply Z.ltb_ge in Hw. destruct (ops a r b t j) as [|o l] eqn:E; [done|exfalso].
  assert (Hin : o ∈ ops a r b t j) by (rewrite E; by left). destruct o as [key x|key x].
  - destruct (load_fact a Ha r b t Hr Hb Ht j key x Hin) as (q & i & _ & [Hi _] & _). lia.
  - destruct (store_fact a Ha r b t Hr Hb Ht j key x Hin) as (q & i & _ & [Hi _] & _). lia.
Qed.

Lemma segment_code a r b t j seg : call_ok a -> 0 <= r < N -> 0 <= b < a_gridDim a -> 0 <= t < a_blockDim a ->
  k_code (the_kernel a) r b t !! j = Some seg -> seg = map strip (ops a r b t j) ++ handshake (ag_hs a b j && (t <? N - 1)) t.
Proof using HN Hchans.
  intros Ha Hr Hb Ht Hs. rewrite (segment_of a r b t j seg) by done. destruct (0 <? words a) eqn:Hw; [done|]. by rewrite ops_empty.
Qed.

(** *** The memory *)

(** The word that a key stands for in call [k]. *)
Definition val (s : state) (k : nat) (a : call) (key : Z * Z) : D := g_began s key.1 k (in_word a key.1 key.2).

(** Rank [p] has done an operation of call [k]. *)
Definition did (s : state) (k : nat) (a : call) (p b t : Z) (j : nat) (o : op) : Prop :=
  ((k < g_call s p)%nat /\ o ∈ ops a p b t j) \/ (g_call s p = k /\ o ∈ done_ops (ops a p b t) j (g_thread s p b t)).

(** While a rank is in a call: its input is as it was, its other words are what has been
    stored there in this call, and every thread holds the word it is about to store. *)
Record minv (s : state) : Prop := {
  mi_in : forall r a i, 0 <= r < N -> calls !! g_call s r = Some a -> 0 <= i < words a ->
    g_mem s (in_word a r i) = g_began s r (g_call s r) (in_word a r i);
  mi_did : forall r a p b t j key x, 0 <= r < N -> 0 <= p < N -> calls !! g_call s r = Some a -> 0 <= b < a_gridDim a -> 0 <= t < a_blockDim a ->
    home x = r -> did s (g_call s r) a p b t j (OStore key x) -> g_mem s x = val s (g_call s r) a key;
  mi_reg : forall p a b t key x, 0 <= p < N -> calls !! g_call s p = Some a -> 0 <= b < a_gridDim a -> 0 <= t < a_blockDim a ->
    ops a p b t (th_seg (g_thread s p b t)) !! at_op (ops a p b t) (g_thread s p b t) = Some (OStore key x) ->
    th_reg (g_thread s p b t) = val s (g_call s p) a key
}.

Lemma op_words a r b t j o : call_ok a -> 0 <= r < N -> 0 <= b < a_gridDim a -> 0 <= t < a_blockDim a -> o ∈ ops a r b t j ->
  0 < words a /\ (0 < j)%nat.
Proof using HN.
  intros Ha Hr Hb Ht Ho. split; [|destruct j; [by apply elem_of_nil in Ho|lia]]. destruct (0 <? words a) eqn:Hw; [by apply Z.ltb_lt|].
  rewrite ops_empty in Ho by done. by apply elem_of_nil in Ho.
Qed.

Section steps.
Context (s : state).
Hypothesis G : gi s.

Lemma a_thread r b t a : 0 <= r < N -> calls !! g_call s r = Some a -> 0 <= b < a_gridDim a -> 0 <= t < a_blockDim a ->
  thread_ok N hs_at len_at (the_kernel a) (g_call s r) r b t (g_thread s r b t).
Proof using G. intros Hr Ha Hb Ht. apply (gi_thread _ _ _ _ _ s G r b t (the_kernel a)); try done. apply kernels_lookup. by exists a. Qed.

Lemma a_rest r b t a : 0 <= r < N -> calls !! g_call s r = Some a -> 0 <= b < a_gridDim a -> 0 <= t < a_blockDim a ->
  let th := g_thread s r b t in rest_of (map strip (ops a r b t (th_seg th))) (hs_at (g_call s r) b (th_seg th) && (t <? N - 1)) t (th_rest th).
Proof using HN Hchans Hok G.
  intros Hr Ha Hb Ht th. pose proof (a_thread r b t a Hr Ha Hb Ht) as Hth. apply (thread_rest strip _ _ _ _ _ _ _ _ _ _ Hth).
  destruct Hth as (_ & data & _ & Hc & _). rewrite Hc. f_equal. rewrite (segment_code a r b t _ _ (Hok _ _ Ha) Hr Hb Ht Hc). unfold hs_at. by rewrite Ha.
Qed.

Lemma hs_true k a b j : calls !! k = Some a -> 0 < words a -> j = 0%nat \/ j = 2%nat -> hs_at k b j = true /\ (j < len_at k b)%nat.
Proof using.
  clear. intros Ha Hw Hj. unfold hs_at, len_at, ag_hs, ag_len. rewrite Ha, (proj2 (Z.ltb_lt _ _) Hw). destruct Hj as [->| ->]; split; simpl; (done || lia).
Qed.

(** Who is past the first handshake of a call has all peers in that call. *)
Lemma ahead p q b t k a : 0 <= p < N -> 0 <= q < N -> p <> q -> calls !! k = Some a -> 0 <= b < a_gridDim a -> 0 <= t < a_blockDim a -> 0 < words a ->
  (k < g_call s p)%nat \/ (g_call s p = k /\ (0 < th_seg (g_thread s p b t))%nat) -> (k <= g_call s q)%nat.
Proof using HN Hchans Hok G.
  intros Hp Hq Hne Ha Hb Ht Hw Hc. destruct (hs_true k a b 0 Ha Hw ltac:(by left)) as [H1 H2].
  destruct (crossed_signalled N kernels hs_at len_at token calls_structured s G p q b t 0 k (the_kernel a)) as [H|[H _]]; try done; [|lia|lia].
  apply kernels_lookup. by exists a.
Qed.

(** Who is past the second one finds all that the peers have written. *)
Lemma written p q b t t' k a : 0 <= p < N -> 0 <= q < N -> p <> q -> calls !! k = Some a -> 0 <= b < a_gridDim a -> 0 <= t < a_blockDim a -> 0 <= t' < a_blockDim a ->
  0 < words a -> (k < g_call s p)%nat \/ (g_call s p = k /\ (2 < th_seg (g_thread s p b t))%nat) ->
  (k < g_call s q)%nat \/ (g_call s q = k /\ passed 1 (g_thread s q b t') = true).
Proof using HN Hchans Hok G.
  intros Hp Hq Hne Ha Hb Ht Ht' Hw Hc. destruct (hs_true k a b 2 Ha Hw ltac:(by right)) as [H1 H2].
  apply (crossed_passed N kernels hs_at len_at token calls_structured s G p q b t t' 2 1 k (the_kernel a)); try done; [|lia]. apply kernels_lookup. by exists a.
Qed.

(** The rank in whose memory a thread is about to store is in the same call. *)
Lemma store_sync p b t a key x : 0 <= p < N -> calls !! g_call s p = Some a -> 0 <= b < a_gridDim a -> 0 <= t < a_blockDim a ->
  ops a p b t (th_seg (g_thread s p b t)) !! at_op (ops a p b t) (g_thread s p b t) = Some (OStore key x) ->
  0 <= home x < N /\ g_call s (home x) = g_call s p.
Proof using HN Hchans Hok G.
  intros Hp Ha Hb Ht Ho. pose proof (Hok _ _ Ha) as Hc. pose proof (list_elem_of_lookup_2 _ _ _ Ho) as Hin.
  destruct (op_words _ _ _ _ _ _ Hc Hp Hb Ht Hin) as [Hw Hj]. pose proof (ok_rounds a Hc).
  destruct (store_fact a Hc p b t Hp Hb Ht _ _ _ Hin) as (q & i & -> & [Hi _] & [(Ej & -> & h & Hh & Hne & ->)|[(_ & _ & _ & ->)|(_ & Hq & _ & ->)]]);
    [|rewrite (ok_home_out a Hc) by done; done..].
  rewrite (ok_home_slot a Hc) by lia. split; [done|]. pose proof (ahead p h b t (g_call s p) a Hp Hh ltac:(done) Ha Hb Ht Hw ltac:(by right)) as H1.
  destruct (decide (g_call s h = g_call s p)); [done|exfalso].
  destruct (written h p b t t (g_call s p) a) as [H2|[_ H2]]; try done; [left; lia|lia|].
  unfold passed in H2. rewrite Ej in H2. simpl in H2. pose proof (op_left strip strip_is_data (ops a p b t) _ t _ (a_rest p b t a Hp Ha Hb Ht) _ Ho). by destruct (th_rest _).
Qed.

(** What a thread is about to load is the word it is to carry. *)
Lemma load_right (M : minv s) p b t a key x : 0 <= p < N -> calls !! g_call s p = Some a -> 0 <= b < a_gridDim a -> 0 <= t < a_blockDim a ->
  ops a p b t (th_seg (g_thread s p b t)) !! at_op (ops a p b t) (g_thread s p b t) = Some (OLoad key x) -> g_mem s x = val s (g_call s p) a key.
Proof using HN Hchans Hok G.
  intros Hp Ha Hb Ht Ho. pose proof (Hok _ _ Ha) as Hc. pose proof (list_elem_of_lookup_2 _ _ _ Ho) as Hin.
  destruct (op_words _ _ _ _ _ _ Hc Hp Hb Ht Hin) as [Hw Hj]. pose proof (ok_rounds a Hc).
  destruct (load_fact a Hc p b t Hp Hb Ht _ _ _ Hin) as (q & i & -> & Hown & [(_ & -> & ->)|(Ej & Hq & Hne & ->)]).
  - apply (mi_in s M); [done|done|apply Hown].
  - apply (mi_did s M p a q b t 1); try done; [apply (ok_home_slot a Hc); [done|done|destruct Hown; lia]|].
    assert (Hw1 : OStore (q, i) (slot a p q i) ∈ ops a q b t 1) by (by apply writes_slot).
    destruct (written p q b t t (g_call s p) a) as [H2|[E2 H2]]; try done; [right; split; [done|lia]|left|right].
    + done.
    + split; [done|]. by rewrite passed_done.
Qed.
End steps.

(** *** Its steps *)

Lemma val_same s s' k a key : g_began s' key.1 k = g_began s key.1 k -> val s' k a key = val s k a key.
Proof using. unfold val. by intros ->. Qed.

Section thread_steps.
Context (s : state) (p b t : Z) (a : call).
Hypothesis G : gi s.
Hypothesis M : minv s.
Hypothesis Hp : 0 <= p < N.
Hypothesis Ha : calls !! g_call s p = Some a.
Hypothesis Hb : 0 <= b < a_gridDim a.
Hypothesis Ht : 0 <= t < a_blockDim a.
Notation th := (g_thread s p b t).

(** What has been done after a step of this thread. *)
Lemma did_after th' mem inb ex k a' q b' t' j o : calls !! k = Some a' ->
  did (mkGrid (g_call s) (set3 (g_thread s) p b t th') mem inb ex (g_began s)) k a' q b' t' j o ->
  did s k a' q b' t' j o \/ (k = g_call s p /\ a' = a /\ q = p /\ b' = b /\ t' = t /\ o ∈ done_ops (ops a p b t) j th').
Proof using Ha.
  intros Hk [[Hlt Ho]|[Hq Ho]]; cbn [g_call g_thread] in *; [left; by left|]. rewrite set3_spec in Ho. hyp_decide Ho E; [|left; by right].
  destruct E as (-> & -> & ->). right. subst k. simplify_eq. done.
Qed.

(** A step that stores nothing. *)
Lemma minv_quiet th' inb ex :
  (forall j key x, OStore key x ∈ done_ops (ops a p b t) j th' -> OStore key x ∈ done_ops (ops a p b t) j th) ->
  (forall key x, ops a p b t (th_seg th') !! at_op (ops a p b t) th' = Some (OStore key x) -> th_reg th' = val s (g_call s p) a key) ->
  minv (mkGrid (g_call s) (set3 (g_thread s) p b t th') (g_mem s) inb ex (g_began s)).
Proof using M Ha.
  intros H1 H2. split; cbn [g_call g_thread g_mem g_began].
  - apply M.
  - intros r a' q b' t' j key x Hr Hq Ha' Hb' Ht' Hh Hd. apply (mi_did s M r a' q b' t' j key x); try done.
    destruct (did_after _ _ _ _ _ _ _ _ _ _ _ Ha' Hd) as [Hd'|(Ek & -> & -> & -> & -> & Ho)]; [done|]. right. split; [done|]. by apply H1.
  - intros q a' b' t' key x Hq Ha' Hb' Ht'. unfold val. cbn [g_began]. rewrite set3_spec. goal_decide E.
    + destruct E as (-> & -> & ->). simplify_eq. apply H2.
    + by apply (mi_reg s M).
Qed.

Lemma minv_segment seg reg : th_rest th = [] -> k_code (the_kernel a) p b t !! Datatypes.S (th_seg th) = Some seg -> reg = th_reg th ->
  minv (with_thread s p b t (mkThread (Datatypes.S (th_seg th)) seg reg)).
Proof using HN Hchans Hok M Ha Hp Hb Ht.
  intros E Hs ->. rewrite (segment_code a p b t _ _ (Hok _ _ Ha) Hp Hb Ht Hs).
  pose proof (at_segment strip strip_is_data (ops a p b t) (Datatypes.S (th_seg th)) (ag_hs a b (Datatypes.S (th_seg th)) && (t <? N - 1)) t (th_reg th)) as Em.
  apply minv_quiet; cbn [th_seg].
  - intros j key x. by apply done_next.
  - rewrite Em. intros key x Ho. by apply first_is_load in Ho.
Qed.

Lemma minv_sync x rest inb ex : th_rest th = x :: rest -> is_data x = false ->
  minv (mkGrid (g_call s) (set3 (g_thread s) p b t (mkThread (th_seg th) rest (th_reg th))) (g_mem s) inb ex (g_began s)).
Proof using M Ha Hp Hb Ht.
  intros E Hx. pose proof (other_op (ops a p b t) th x rest (th_reg th) E Hx) as Em. apply minv_quiet; cbn [th_seg th_reg]; rewrite ?Em.
  - intros j key y. unfold done_ops. cbn [th_seg]. by rewrite Em.
  - intros key y. by apply (mi_reg s M).
Qed.

Lemma minv_load f y rest : th_rest th = Load f y :: rest ->
  minv (with_thread s p b t (mkThread (th_seg th) rest (f (th_reg th) (g_mem s y)))).
Proof using HN Hchans Hok G M Ha Hp Hb Ht.
  intros E. destruct (next_op strip strip_is_data _ _ _ _ (a_rest s G p b t a Hp Ha Hb Ht) _ _ E eq_refl) as (o & Ho & Es & Em).
  destruct o as [key x|key x]; [|done]. injection Es as -> ->. pose proof (load_right s G M p b t a key x Hp Ha Hb Ht Ho) as Hv.
  apply minv_quiet; cbn [th_seg th_reg].
  - intros j key' x' Hd. destruct (done_more _ _ _ _ _ Ho (Em _) _ _ Hd) as [?|[_ ?]]; done.
  - intros key' x' H'. rewrite Em in H'. pose proof (store_follows _ _ _ _ _ _ _ _ _ Ho H') as <-. exact Hv.
Qed.

Lemma minv_store g y rest inb ex : th_rest th = Store g y :: rest ->
  minv (mkGrid (g_call s) (set3 (g_thread s) p b t (mkThread (th_seg th) rest (th_reg th))) (upd (g_mem s) y (g (th_reg th))) inb ex (g_began s)).
Proof using HN Hchans Hok G M Ha Hp Hb Ht.
  intros E. destruct (next_op strip strip_is_data _ _ _ _ (a_rest s G p b t a Hp Ha Hb Ht) _ _ E eq_refl) as (o & Ho & Es & Em).
  destruct o as [key x|key x]; [done|]. injection Es as -> ->. pose proof (mi_reg s M p a b t key x Hp Ha Hb Ht Ho) as Hv.
  destruct (store_sync s G p b t a key x Hp Ha Hb Ht Ho) as [Hh Hsame]. pose proof (Hok _ _ Ha) as Hc. pose proof (list_elem_of_lookup_2 _ _ _ Ho) as Hin.
  split; cbn [g_call g_thread g_mem g_began].
  - intros r a' i Hr Ha' Hi. unfold upd. destruct (Z.eqb_spec (in_word a' r i) x) as [Ex|]; [|by apply (mi_in s M)]. exfalso.
    assert (Hhome : home x = r) by (rewrite <- Ex; by apply (ok_home_in a' (Hok _ _ Ha'))). rewrite <- Hhome, Hsame in Ha'. simplify_eq.
    by apply (store_not_input a Hc p b t _ key x (home x) i Hp Hb Ht Hh Hi Hin).
  - intros r a' q b' t' j key' x' Hr Hq Ha' Hb' Ht' Hx' Hd. unfold val. cbn [g_began]. fold (val s (g_call s r) a' key').
    assert (Hd' : did s (g_call s r) a' q b' t' j (OStore key' x') \/ (g_call s r = g_call s p /\ key' = key /\ x' = x)).
    { destruct (did_after _ _ _ _ _ _ _ _ _ _ _ Ha' Hd) as [?|(Ek & -> & -> & -> & -> & Hdo)]; [by left|].
      destruct (done_more _ _ _ _ _ Ho (Em _) _ _ Hdo) as [?|[_ [= -> ->]]]; [left; by right|by right]. }
    unfold upd. destruct (Z.eqb_spec x' x) as [->|Hne]; [|destruct Hd' as [Hd'|(_ & _ & ?)]; [by apply (mi_did s M r a' q b' t' j)|done]].
    subst r. assert (a' = a) as -> by (rewrite Hsame in Ha'; by simplify_eq).
    assert (key' = key) as ->; [|by rewrite Hsame]. destruct Hd' as [Hd'|(_ & ? & _)]; [|done].
    assert (Hin' : OStore key' x ∈ ops a q b' t' j) by (destruct Hd' as [[_ H']|[_ H']]; [done|by apply done_ops_in in H' as [? _]]).
    by eapply (store_unique a Hc q b' t' j key' p b t _ key x).
  - intros q a' b' t' key' x' Hq Ha' Hb' Ht'. unfold val. cbn [g_began]. fold (val s (g_call s q) a' key'). rewrite set3_spec. goal_decide E'.
    + destruct E' as (-> & -> & ->). simplify_eq. cbn [th_seg th_reg]. rewrite Em. intros H'. pose proof (store_follows _ _ _ _ _ _ _ _ _ Ho H') as <-. exact Hv.
    + by apply (mi_reg s M).
Qed.

Lemma minv_thread s' : thread_step (the_kernel a) p b t s = Some s' -> minv s'.
Proof using HN Hchans Hok G M Ha Hp Hb Ht.
  unfold thread_step. destruct (th_rest th) as [|[i|i|f y|g y] rest] eqn:E; intros H.
  - destruct (k_code _ p b t !! _) as [seg|] eqn:Es; [|done]. simpl in H. destruct (barrier_open _ _ _ _ _); [|done]. injection H as <-. by apply minv_segment.
  - injection H as <-. by apply (minv_sync (Signal i)).
  - destruct (_ <? _); [|done]. injection H as <-. by apply (minv_sync (Wait i)).
  - injection H as <-. by apply minv_load.
  - injection H as <-. by apply minv_store.
Qed.
End thread_steps.

(** *** The next call of a rank *)

Lemma done_fresh a r b t j (th : thread D D) key x : th_seg th = 0%nat -> OStore key x ∉ done_ops (ops a r b t) j th.
Proof using. intros E Ho. destruct (done_ops_in _ _ _ _ Ho) as [Hin Hj]. rewrite E in Hj. assert (j = 0%nat) as -> by lia. by apply elem_of_nil in Hin. Qed.

Lemma finished_did a r b t j (th : thread D D) o : call_ok a -> 0 <= r < N -> 0 <= b < a_gridDim a -> 0 <= t < a_blockDim a ->
  finished (the_kernel a) r b t th = true -> o ∈ ops a r b t j -> o ∈ done_ops (ops a r b t) j th.
Proof using HN Hchans.
  intros Ha Hr Hb Ht Hf Ho. destruct (op_words _ _ _ _ _ _ Ha Hr Hb Ht Ho) as [Hw _]. apply (finished_done _ (the_kernel a) r b t); [done| |done].
  rewrite code_of, (proj2 (Z.ltb_lt _ _) Hw) by done. destruct j as [|[|[|[|j]]]]; simpl; [lia..|by apply elem_of_nil in Ho].
Qed.

Section next_call.
Context (s : state) (r : Z) (a a' : call).
Hypothesis G : gi s.
Hypothesis M : minv s.
Hypothesis Hr : 0 <= r < N.
Hypothesis Ha : calls !! g_call s r = Some a.
Hypothesis Ha' : calls !! Datatypes.S (g_call s r) = Some a'.
Hypothesis Hf : forall b t, 0 <= b < a_gridDim a -> 0 <= t < a_blockDim a -> finished (the_kernel a) r b t (g_thread s r b t) = true.
Notation s' := (begin_kernel host reg0 s (the_kernel a') r (Datatypes.S (g_call s r))).

Lemma began_same q k : q <> r \/ k <> Datatypes.S (g_call s r) -> g_began s' q k = g_began s q k.
Proof using.
  intros H. unfold begin_kernel. cbn [g_began]. unfold upd. destruct (Z.eqb_spec q r) as [->|]; [|done]. destruct (decide _); [|done]. by destruct H.
Qed.

(** Nobody has stored in the call that the rank begins. *)
Lemma none_stored q b t j key x : 0 <= q < N -> 0 <= b < a_gridDim a' -> 0 <= t < a_blockDim a' -> ~ did s' (Datatypes.S (g_call s r)) a' q b t j (OStore key x).
Proof using HN Hchans Hok G Hr Ha'.
  intros Hq Hb Ht Hd. pose proof (Hok _ _ Ha') as Hc. destruct (decide (q = r)) as [->|Hne].
  - destruct Hd as [[Hd _]|[_ Hd]]; unfold begin_kernel in Hd; cbn [g_call g_thread] in Hd; rewrite upd_at in Hd; [lia|]. by apply done_fresh in Hd.
  - unfold did, begin_kernel in Hd. cbn [g_call g_thread] in Hd. rewrite !upd_other in Hd by done.
    assert (Hin : OStore key x ∈ ops a' q b t j) by (destruct Hd as [[_ H]|[_ H]]; [done|by apply done_ops_in in H as [? _]]).
    destruct (op_words _ _ _ _ _ _ Hc Hq Hb Ht Hin) as [Hw Hj].
    pose proof (ahead s G q r b t (Datatypes.S (g_call s r)) a' Hq Hr Hne Ha' Hb Ht Hw) as H. apply Nat.nle_succ_diag_l with (g_call s r). apply H.
    destruct Hd as [[? _]|[? Hd]]; [by left|right]. split; [done|]. apply done_ops_in in Hd as [_ ?]. lia.
Qed.

Lemma did_before k c q b t j key x : calls !! k = Some c -> 0 <= q < N -> 0 <= b < a_gridDim c -> 0 <= t < a_blockDim c ->
  did s' k c q b t j (OStore key x) -> did s k c q b t j (OStore key x).
Proof using HN Hchans Hok Hr Ha Hf.
  intros Hk Hq Hb Ht Hd. unfold did, begin_kernel in Hd. cbn [g_call g_thread] in Hd. destruct (decide (q = r)) as [->|Hne]; [|by rewrite !upd_other in Hd].
  rewrite !upd_at in Hd. destruct Hd as [[Hlt Ho]|[_ Hd]]; [|by apply done_fresh in Hd]. destruct (decide (k = g_call s r)) as [->|]; [|left; split; [lia|done]].
  simplify_eq. right. split; [done|]. apply finished_did; try done; [by apply (Hok (g_call s r))|]. by apply Hf.
Qed.

Lemma minv_begin : minv s'.
Proof using HN Hchans Hok Hhost G M Hr Ha Ha' Hf.
  assert (Hmem : forall x q, q <> r -> home x = q -> g_mem s' x = g_mem s x).
  { intros x q Hne Hh. unfold begin_kernel. cbn [g_mem]. apply Hhost. congruence. }
  assert (Hcall : forall q, q <> r -> g_call s' q = g_call s q) by (intros q Hne; unfold begin_kernel; cbn [g_call]; by rewrite upd_other).
  assert (Hcr : g_call s' r = Datatypes.S (g_call s r)) by (unfold begin_kernel; cbn [g_call]; by rewrite upd_at).
  assert (Hth : forall q, q <> r -> g_thread s' q = g_thread s q) by (intros q Hne; unfold begin_kernel; cbn [g_thread]; by rewrite upd_other).
  split.
  - intros q c i Hq Hc Hi. destruct (decide (q = r)) as [->|Hne].
    + rewrite Hcr. unfold begin_kernel. cbn [g_mem g_began]. rewrite upd_at. by rewrite decide_True.
    + rewrite Hcall in Hc |- * by done. rewrite (Hmem _ q), began_same; [by apply (mi_in s M)|by left|done|by apply (ok_home_in c (Hok _ _ Hc))].
  - intros q c p b t j key x Hq Hp Hc Hb Ht Hh Hd. destruct (decide (q = r)) as [->|Hne].
    + rewrite Hcr in Hc, Hd. assert (c = a') as -> by congruence. by apply none_stored in Hd.
    + rewrite Hcall in Hc, Hd |- * by done. rewrite (Hmem _ q) by done. destruct (decide (g_call s q = Datatypes.S (g_call s r))) as [E|].
      * rewrite E in Hc, Hd. assert (c = a') as -> by congruence. by apply none_stored in Hd.
      * rewrite (val_same s) by (apply began_same; by right). apply (mi_did s M q c p b t j); try done. by apply did_before.
  - intros p c b t key x Hp Hc Hb Ht Ho. destruct (decide (p = r)) as [->|Hne].
    + unfold begin_kernel in Ho. cbn [g_thread] in Ho. rewrite upd_at in Ho. done.
    + rewrite Hcall in Hc |- * by done. rewrite Hth in Ho |- * by done. rewrite (val_same s); [by apply (mi_reg s M p c b t key x)|]. apply began_same. right.
      intros E. pose proof (list_elem_of_lookup_2 _ _ _ Ho) as Hin. destruct (op_words _ _ _ _ _ _ (Hok _ _ Hc) Hp Hb Ht Hin) as [Hw Hj].
      pose proof (ahead s G p r b t (g_call s p) c Hp Hr Hne Hc Hb Ht Hw ltac:(by right)). lia.
Qed.
End next_call.

(** *** Whole runs *)

Definition both (s : state) : Prop := gi s /\ minv s.

Lemma both_step s x s' : both s -> step s x = Some s' -> both s'.
Proof using HN Hchans Hok Hhost.
  intros [G M] H. split; [exact (inv_grid_step N kernels host reg0 hs_at len_at token calls_structured s x s' G H)|]. destruct x as [r b t|r].
  - destruct (thread_call_spec N kernels host reg0 _ _ _ _ _ H) as (K & HK & Hr & Hb & Ht & Hs). apply kernels_lookup in HK as (a & Ha & ->). by eapply (minv_thread s r b t a).
  - destruct (next_call_spec N kernels host reg0 _ _ _ H) as (K & K' & HK & Hr & Hf & HK' & ->).
    rewrite (rank_finished_spec N kernels hs_at len_at calls_structured K s r HK) in Hf.
    apply kernels_lookup in HK as (a & Ha & ->). apply kernels_lookup in HK' as (a' & Ha' & ->). by apply (minv_begin s r a a').
Qed.

Lemma both_run l : forall s s', both s -> grid_run N kernels host reg0 s l = Some s' -> both s'.
Proof using HN Hchans Hok Hhost.
  induction l as [|x l IH]; intros s s' I H; cbn [grid_run] in H; [by injection H as <-|]. destruct (step s x) as [s1|] eqn:E; [|done].
  simpl in H. exact (IH s1 s' (both_step s x s1 I E) H).
Qed.

Lemma both_initial mem : calls <> [] -> both (grid_initial kernels reg0 mem token).
Proof using HN Hchans Hok.
  intros Hne. split; [apply inv_grid_initial; [apply calls_structured|by destruct calls]|].
  assert (Hseg : forall r b t, th_seg (g_thread (grid_initial kernels reg0 mem token) r b t) = 0%nat) by (intros; unfold grid_initial; cbn [g_thread]; clear; by destruct (map _ calls)).
  split.
  - done.
  - intros r a p b t j key x Hr Hp Hc Hb Ht _ [[Hd _]|[_ Hd]]; [unfold grid_initial in Hd; simpl in Hd; lia|by apply done_fresh in Hd].
  - intros p a b t key x _ _ _ _ Ho. by rewrite Hseg in Ho.
Qed.

Lemma finished_results s r a : both s -> 0 <= r < N -> calls !! g_call s r = Some a -> rank_finished (the_kernel a) s r = true ->
  forall p i, 0 <= p < N -> 0 <= i < words a -> g_mem s (out_word a r p i) = g_began s p (g_call s r) (in_word a p i).
Proof using HN Hchans Hok.
  intros [G M] Hr Ha Hf p i Hp Hi. pose proof (Hok _ _ Ha) as Hc. assert (HK : kernels !! g_call s r = Some (the_kernel a)) by (apply kernels_lookup; by exists a).
  rewrite (rank_finished_spec N kernels hs_at len_at calls_structured _ s r HK) in Hf. destruct (word_owner a Hc i Hi) as (b & t & Hb & Ht & Hown).
  assert (Hdid : forall j key x, OStore key x ∈ ops a r b t j -> did s (g_call s r) a r b t j (OStore key x)).
  { intros j key x Ho. right. split; [done|]. apply finished_did; try done. by apply Hf. }
  change (g_began s p (g_call s r) (in_word a p i)) with (val s (g_call s r) a (p, i)). destruct (decide (p = r)) as [->|Hne].
  - destruct (a_outOfPlace a r) eqn:Ho.
    + apply (mi_did s M r a r b t 1); try done; [by apply (ok_home_out a Hc)|]. apply Hdid. by apply writes_own.
    + transitivity (g_mem s (in_word a r i)); [|by apply (mi_in s M)]. f_equal. unfold a_outOfPlace in Ho. apply negb_false_iff, Z.eqb_eq in Ho.
      destruct (words_pos a Hc) as (_ & _ & Es). unfold in_word, out_word. rewrite Ho, Es. lia.
  - apply (mi_did s M r a r b t 3); try done; [by apply (ok_home_out a Hc)|]. apply Hdid. by apply writes_out.
Qed.

(** ** What the calls achieve *)

(** C6: whatever the order in which the threads of all ranks run, and however far some ranks are
    ahead of others in a sequence of calls of any sizes and grids that fit one round, when all
    threads of a rank have ended, its output holds the inputs of all ranks in their order, as
    they were when those ranks began the call; in place and out of place. *)
Theorem fullmesh_allgather mem l s r a : calls <> [] ->
  grid_run N kernels host reg0 (grid_initial kernels reg0 mem token) l = Some s ->
  0 <= r < N -> calls !! g_call s r = Some a -> rank_finished (the_kernel a) s r = true ->
  forall p i, 0 <= p < N -> 0 <= i < words a -> g_mem s (out_word a r p i) = g_began s p (g_call s r) (in_word a p i).
Proof using HN Hchans Hok Hhost.
  intros Hne Hl Hr Ha Hf. apply finished_results; try done. eapply both_run; [|exact Hl]. by apply both_initial.
Qed.

(** C7: no interleaving gets stuck, as long as the calls are of one round each: from wherever the threads of all
    ranks have come there is a way to the end of the last call of every rank, and no schedule takes
    more steps than a number fixed by the calls. *)
Theorem fullmesh_completes mem l s : calls <> [] ->
  let s0 := grid_initial kernels reg0 mem token in
  grid_run N kernels host reg0 s0 l = Some s ->
  exists l' s', grid_run N kernels host reg0 s0 (l ++ l') = Some s' /\ grid_complete N kernels s' /\
    (length l + length l' <= grid_left N kernels reg0 s0)%nat.
Proof using HN Hchans Hok Hhost.
  intros Hne s0 Hl. assert (I : both s) by (eapply both_run; [by apply both_initial|exact Hl]). destruct I as [G _].
  destruct (grid_completes N kernels host reg0 hs_at len_at token calls_structured s no_grid_barriers G) as (l' & s' & Hl' & Hc).
  exists l', s'. split; [by rewrite machine_run_app, Hl|]. split; [done|].
  rewrite (run_left N kernels host reg0 hs_at len_at calls_structured _ _ _ Hl), (run_left N kernels host reg0 hs_at len_at calls_structured _ _ _ Hl'). lia.
Qed.
End runs.
End calls.

(** ** Channels of a context, and launches *)

(** a context is set up without an error on every rank, and channel [i] of every block a launch can
    have leads to the scratch memory of the [i]-th other rank. *)
Theorem fullmesh_context {S} (make : connection -> Z -> S) (N nRanksPerNode rank : Z) (localMemory scratchMemory : Impl) (recv : Z -> Impl) :
  0 <= rank < N -> (forall i, 0 <= i < N -> hasb (transports (recv i)) CudaIpc = true) ->
  exists ctx, initAllgatherContext make N nRanksPerNode rank localMemory scratchMemory recv = Some (Ok ctx) /\
    forall b i, 0 <= b < kMaxBlocks -> 0 <= i < N - 1 ->
      exists h, ctx_memoryChannelDeviceHandles ctx !! Z.to_nat ((N - 1) * b + i) = Some h /\ dst_ h = data (recv (remoteRank rank i)).
Proof.
  intros Hr Hrecv. unfold initAllgatherContext. pose proof (channels_are make recv localMemory N rank kMaxBlocks Hr (fun i Hi _ => Hrecv i Hi)) as E.
  rewrite E. eexists. split; [reflexivity|]. intros b i Hb Hi. cbn [ctx_memoryChannelDeviceHandles]. unfold setupMemoryChannelDeviceHandles. rewrite list_lookup_fmap.
  pose proof (channel_leads_to make recv localMemory N rank kMaxBlocks Hr (fun i Hi _ => Hrecv i Hi) _ b i Hb Hi E) as H.
  rewrite (Z.mul_comm (N - 1) b), H. eexists. by split.
Qed.

(** A launch has a grid that the channels of a context are enough for, and enough threads for the
    peers; every other request is refused before anything is launched. *)
Lemma launch_fits p ok rank input output inputSize nBlocks nThreadsPerBlock res l : 0 <= nBlocks -> 0 <= nThreadsPerBlock ->
  allgatherKernelFunc p ok rank input output inputSize nBlocks nThreadsPerBlock = (res, Some l) ->
  0 < l_blocks l <= kMaxBlocks /\ 0 < l_threads l <= kMaxThreadsPerBlock /\ 32 <= l_threads l /\ l_nelems l = inputSize / 4 /\
  l_outOfPlace l = negb (input =? output + rank * inputSize).
Proof.
  intros Hb Ht. unfold allgatherKernelFunc.
  assert (G : forall blocks threads, 0 < blocks -> 0 < threads ->
    (if (kMaxBlocks <? blocks) || (kMaxThreadsPerBlock <? threads) then (CommInvalidArgument, None) else
     if negb (Z.rem threads (WARP_SIZE p) =? 0) then (CommInvalidArgument, None) else
     let l := mkLaunch (negb (input =? output + rank * inputSize)) blocks threads (inputSize / 4) in
     if ok then (CommSuccess, Some l) else (CommInternalError, Some l)) = (res, Some l) ->
    0 < l_blocks l <= kMaxBlocks /\ 0 < l_threads l <= kMaxThreadsPerBlock /\ 32 <= l_threads l /\ l_nelems l = inputSize / 4 /\
    l_outOfPlace l = negb (input =? output + rank * inputSize)).
  { intros blocks threads Hb' Ht'. destruct (Z.ltb_spec kMaxBlocks blocks); [done|]. destruct (Z.ltb_spec kMaxThreadsPerBlock threads); [done|]. simpl.
    destruct (Z.eqb_spec (Z.rem threads (WARP_SIZE p)) 0) as [Em|]; [|done]. simpl.
    assert (32 <= threads).
    { assert (HW : 32 <= WARP_SIZE p) by (unfold WARP_SIZE; destruct (is_hip p); lia).
      destruct (decide (threads < WARP_SIZE p)); [|lia]. rewrite Z.rem_small in Em by lia. lia. }
    destruct ok; intros [= <- <-]; simpl; split_and!; done || lia. }
  destruct (Z.eqb_spec nBlocks 0), (Z.eqb_spec nThreadsPerBlock 0); simpl orb; cbv iota; apply G; unfold kMaxBlocks, kMaxThreadsPerBlock; lia.
Qed.

(** ** Two ranks *)

Definition two_scratch (r : Z) : Z := 100000 * (1 + r) + 50000.
Definition two_chans (r : Z) : list (MemoryChannelDeviceHandle unit) := replicate 56 (mkHandle tt (two_scratch (remoteRank r 0)) 0 0).
Definition two_home (x : Z) : Z := if x <? 200000 then 0 else 1.
(** Between calls a rank changes all of its memory. *)
Definition two_host (r : Z) (n : nat) (m : Z -> Z) : Z -> Z := fun x => if two_home x =? r then m x + 7 else m x.

(** Out of place with one block, then in place with two. *)
Definition two_second : call := mkCall 48 2 32 (fun r => 100000 * (1 + r) + 10000 + r * 48) (fun r => 100000 * (1 + r) + 10000).
Definition two_calls : list call := [mkCall 80 1 32 (fun r => 100000 * (1 + r)) (fun r => 100000 * (1 + r) + 10000); two_second].
Definition two_kernels : list (kernel Z Z) := map (allgather_kernel 2 two_scratch two_chans) two_calls.
Definition two_initial : grid_state Z Z := grid_initial two_kernels 0 (fun x => x) (fun _ _ _ => 0).
Definition two_actions : list grid_action :=
  let all := concat (map (fun r => concat (map (fun b => map (GThread r b) (threads 32)) (threads 2))) (threads 2)) in
  concat (repeat all 14) ++ map GNext (threads 2) ++ concat (repeat all 14).
Definition two_swept := grid_sweep 2 two_kernels two_host 0 two_initial two_actions.

Lemma two_ok k a : two_calls !! k = Some a -> call_ok 2 two_scratch two_home a.
Proof.
  intros H. assert (Hr : forall r, 0 <= r < 2 -> r = 0 \/ r = 1) by lia.
  destruct k as [|[|k]]; simpl in H; [injection H as <-|injection H as <-; unfold two_second|done]; split; unfold in_word, out_word, slot, words, chunk, two_home, two_scratch, kMaxBlocks,
    kMaxThreadsPerBlock, nInt4, nInt4PerChunk, unitNInt4, a_nelems, a_outOfPlace, sizeof_int4; cbn [a_gridDim a_blockDim a_inputSize a_buff a_resultBuff];
    rewrite ?(eq_refl : 80 / 4 * 4 / 16 = 5), ?(eq_refl : 48 / 4 * 4 / 16 = 3), ?(eq_refl : 80 mod 16 = 0), ?(eq_refl : 48 mod 16 = 0); try lia;
    intros; try lia; try match goal with |- (if ?x <? 200000 then 0 else 1) = _ => destruct (Z.ltb_spec x 200000); lia end.
Qed.

Lemma two_channels r b i : 0 <= r < 2 -> 0 <= b < kMaxBlocks -> 0 <= i < 2 - 1 ->
  exists h, two_chans r !! Z.to_nat ((2 - 1) * b + i) = Some h /\ dst_ h = two_scratch (remoteRank r i).
Proof.
  intros Hr Hb Hi. unfold kMaxBlocks in Hb. exists (mkHandle tt (two_scratch (remoteRank r 0)) 0 0). assert (i = 0) as -> by lia. split; [|done].
  unfold two_chans. apply lookup_replicate_2. lia.
Qed.

Lemma two_host_ok r n m x : two_home x <> r -> two_host r n m x = m x.
Proof. unfold two_host. by intros ->%Z.eqb_neq. Qed.

Lemma fullmesh_allgather_witness : let s := two_swept.2 in
  g_call s 1 = 1%nat /\ g_mem s (out_word two_second 1 0 1) = 100023 /\
  g_mem s (out_word two_second 1 0 1) = g_began s 0 (g_call s 1) (in_word two_second 0 1).
Proof.
  intros s. split; [by vm_compute|]. split; [by vm_compute|].
  assert (Hw : 0 <= 1 < words two_second) by (clear; by vm_compute).
  assert (Hc : two_calls !! g_call s 1 = Some two_second) by by vm_compute.
  assert (Hf : rank_finished (allgather_kernel (D := Z) 2 two_scratch two_chans two_second) s 1 = true) by by vm_compute.
  assert (Hrun : grid_run 2 (map (allgather_kernel 2 two_scratch two_chans) two_calls) two_host 0
      (grid_initial (map (allgather_kernel 2 two_scratch two_chans) two_calls) 0 (fun x => x) (fun _ _ _ => 0)) two_swept.1 = Some s)
    by exact (grid_sweep_run 2 two_kernels two_host 0 two_actions two_initial).
  clearbody s.
  exact (fullmesh_allgather 2 two_scratch two_chans two_home ltac:(lia) two_channels two_calls two_host 0 (fun _ _ _ => 0) two_ok two_host_ok
    (fun x => x) _ s 1 two_second ltac:(done) Hrun ltac:(lia) Hc Hf 0 1 ltac:(lia) Hw).
Defined.

Lemma fullmesh_completes_witness : grid_left 2 two_kernels 0 two_initial = 676%nat /\
  exists l' s', grid_run 2 two_kernels two_host 0 two_initial (GThread 0 0 0 :: l') = Some s' /\ grid_complete 2 two_kernels s' /\ (length l' <= 675)%nat.
Proof.
  split; [by vm_compute|].
  destruct (fullmesh_completes 2 two_scratch two_chans two_home ltac:(lia) two_channels two_calls two_host 0 (fun _ _ _ => 0) two_ok two_host_ok
    (fun x => x) [GThread 0 0 0] _ ltac:(done) eq_refl) as (l' & s' & H1 & H2 & H3).
  exists l', s'. split; [exact H1|]. split; [exact H2|].
  assert (E : grid_left 2 two_kernels 0 two_initial = 676%nat) by by vm_compute.
  change (S (length l') <= grid_left 2 two_kernels 0%Z two_initial)%nat in H3. rewrite E in H3. lia.
Defined.

(** ** More than one round *)

(** 4096 bytes with one block of 32 threads: two rounds. *)
Definition race_call : call := mkCall 4096 1 32 (fun r => 100000 * (1 + r)) (fun r => 100000 * (1 + r) + 10000).
Definition race_kernel : kernel Z Z := allgather_kernel 2 two_scratch two_chans race_call.
Definition race_initial : grid_state Z Z := grid_initial [race_kernel] 0 (fun x => x) (fun _ _ _ => 0).

(** The last thread of rank 1 is slow to read the first chunk. *)
Definition race_actions : list grid_action :=
  let all := concat (map (fun r => map (GThread r 0) (threads 32)) (threads 2)) in
  let others := map (GThread 0 0) (threads 32) ++ map (GThread 1 0) (threads 31) in
  concat (repeat all 20) ++ concat (repeat others 24) ++ concat (repeat all 34).
Definition race_swept := grid_sweep 2 [race_kernel] (fun _ _ m => m) 0 race_initial race_actions.

(** The launch is one that [allgatherKernelFunc] makes. *)
Definition race_launched (r : Z) : bool :=
  match allgatherKernelFunc Cuda true r (a_buff race_call r) (a_resultBuff race_call r) 4096 1 32 with
  | (CommSuccess, Some l) => l_outOfPlace l && (l_blocks l =? 1) && (l_threads l =? 32) && (l_nelems l =? a_nelems race_call)
  | _ => false
  end.

(** C37: with more than one round the output can be wrong: no barrier keeps the first threads of a
    block from signalling for the next round while others still read what has arrived in this
    one, and a peer then overwrites it. *)
Theorem fullmesh_rounds_race : (forall r, 0 <= r < 2 -> race_launched r = true) /\
  exists l s, grid_run 2 [race_kernel] (fun _ _ m => m) 0 race_initial l = Some s /\ rank_finished race_kernel s 1 = true /\
    g_mem s (out_word race_call 1 0 127) <> g_began s 0 0 (in_word race_call 0 127).
Proof.
  split; [intros r Hr; assert (r = 0 \/ r = 1) as [-> | ->] by lia; done|].
  exists race_swept.1, race_swept.2. split; [exact (grid_sweep_run 2 [race_kernel] (fun _ _ m => m) 0 race_actions race_initial)|]. split; [by vm_compute|]. by vm_compute.
Qed.
