(* ===== verification/RsagZeroCopy.v ===== *)
(** * The zero-copy allreduce

    Models src/ext/collectives/allreduce/allreduce_rsag_zero_copy.cu: the kernel
    [allreduceRsAgZeroCopy], with which every rank reduces its part of the words of all ranks'
    inputs, which it reads where they are, and writes the result to all outputs; the launch,
    the set-up and the key of a context, and repeated launches.

    The threads of all ranks run on the machine of [GridKernel].  The memory is one of 16-byte
    words ([int4]) by address, for all ranks.  Loop counters stay below the number of words of
    a rank and are not wrapped; sizes and offsets are 32 bits wide, as in the code. *)

From S2P Require Import Prelude Errors Core RegisteredMemory GpuDataTypes DeviceCopy Collectives.
From S2P Require Import GridKernel.
From S2P Require Algorithm.
Import Algorithm(CommResult, CommInvalidArgument, CommUnhandledCudaError, CommSuccess, AlgorithmCtxKey, mkCtxKey).
Local Open Scope Z_scope.

(** ** Host side *)

Definition nChannelsPerConnection_ : Z := 128.
Definition sizeof_int4 : Z := 16.

Record launch := mkLaunch { l_blocks : Z; l_threads : Z; l_nelems : Z }.

(** [AllreduceRsAgZeroCopyAdapter::call]. *)
Definition adapter_call (sizeofT nRanksPerNode inputSize nBlocks nThreadsPerBlock : Z) : result launch :=
  let nelems := inputSize / sizeofT in
  let '(nBlocks, nThreadsPerBlock) :=
    if (nBlocks =? 0) || (nThreadsPerBlock =? 0) then (if 2 ^ 26 <=? inputSize then 128 else 64, 1024) else (nBlocks, nThreadsPerBlock) in
  if (nRanksPerNode =? 4) || (nRanksPerNode =? 8) then Ok (mkLaunch nBlocks nThreadsPerBlock nelems) else Throw (EError InvalidUsage).

(** [func]: the size of the type that [dispatch] finds; [ok]: what the runtime says of the launch. *)
Definition allreduceKernelFunc (func : option Z) (ok : bool) (nRanksPerNode inputSize nBlocks nThreadsPerBlock : Z) : result (CommResult * option launch) :=
  match func with
  | None => Ok (CommInvalidArgument, None)
  | Some sizeofT =>
      l ← adapter_call sizeofT nRanksPerNode inputSize nBlocks nThreadsPerBlock;
      Ok (if ok then CommSuccess else CommUnhandledCudaError, Some l)
  end.

(** The allocations that hold the buffers, as the driver gives them: base and size.  [tag] is static. *)
Definition generateAllreduceContextKey (tag : Z) (symmetricMemory : bool) (inputBuffer outputBuffer size : Z) (inputRange outputRange : Z * Z)
    : Z * AlgorithmCtxKey :=
  if symmetricMemory then (tag, mkCtxKey inputRange.1 outputRange.1 inputRange.2 outputRange.2 0)
  else (tag + 1, mkCtxKey inputBuffer outputBuffer size size (tag + 1)).

Record ZeroCopyCtx := mkZeroCopyCtx { z_rank : Z; z_workSize : Z; z_nRanksPerNode : Z; z_registeredMemories : list Impl; z_remoteMemoryHandles : list Z }.

(** [recvIn i], [recvOut i]: what rank [i] has sent of its input and its output. *)
Definition initAllreduceContext (worldSize nRanksPerNode rank : Z) (inputMemory outputMemory : Impl) (recvIn recvOut : Z -> Impl) : ZeroCopyCtx :=
  let remote := setupRemoteMemories worldSize rank recvIn ++ setupRemoteMemories worldSize rank recvOut in
  mkZeroCopyCtx rank worldSize nRanksPerNode (remote ++ [inputMemory; outputMemory]) (map data remote).

(** ** The kernel *)

Section kernel.
Context {D A : Type} (acc : accumulator D A).

Section thread.
Context (NRanksPerNode nelemsPerInt4 buff resultBuff : Z) (remoteMemories : list Z) (rank nelems gridDim blockDim blockIdx threadIdx : Z).

Definition NPeers : Z := NRanksPerNode - 1.
Definition alignedNelems : Z :=
  u32 (((nelems + NRanksPerNode - 1) / NRanksPerNode + nelemsPerInt4 - 1) / nelemsPerInt4 * nelemsPerInt4 * NRanksPerNode).
Definition nelemsPerRank : Z := alignedNelems / NRanksPerNode.
Definition nInt4PerRank : Z := nelemsPerRank / nelemsPerInt4.
Definition nInt4Total : Z := u32 ((nelems + nelemsPerInt4 - 1) / nelemsPerInt4).
Definition nInt4PerBlock : Z := nInt4PerRank / gridDim + (if blockIdx =? gridDim - 1 then nInt4PerRank mod gridDim else 0).
Definition offset4 : Z := u32 (blockIdx * (nInt4PerRank / gridDim)).

(** [rankIdx] and [peerIdx] of a loop over the peers. *)
Definition rankIdx (i : Z) : Z := (rank + i + 1) mod NRanksPerNode.
Definition peerIdx (i : Z) : Z := if rankIdx i <? rank then rankIdx i else rankIdx i - 1.
Definition remoteMemory (i : Z) : Z := default 0 (remoteMemories !! Z.to_nat i).
Definition outputRemoteBufferOffset : Z := NRanksPerNode - 1.

Definition barrier_with_peers : list (act D A) := if threadIdx <? NPeers then [Do (Signal threadIdx); Do (Wait threadIdx)] else [].

(** The body of the loop: a peer's word is accumulated when it is read, which the code does once all are read. *)
Definition reduce_word (offset : Z) : list (act D A) :=
  Do (Load (fun _ v => upcast acc v) (buff + offset * sizeof_int4)) ::
  map (fun i => Do (Load (accumulate acc) (remoteMemory (peerIdx i) + offset * sizeof_int4))) (threads NPeers) ++
  map (fun i => Do (Store (downcast acc) (remoteMemory (outputRemoteBufferOffset + peerIdx i) + offset * sizeof_int4))) (threads NPeers) ++
  [Do (Store (downcast acc) (resultBuff + offset * sizeof_int4))].

Definition reduce_words : list (act D A) :=
  flat_map (fun idx => let offset := u32 (idx + offset4 + rank * nInt4PerRank) in if nInt4Total <=? offset then [] else reduce_word offset)
    (strided threadIdx blockDim nInt4PerBlock).

Definition allreduceRsAgZeroCopy : list (act D A) :=
  if nInt4PerBlock =? 0 then [] else
  barrier_with_peers ++ [Sync] ++ reduce_words ++ [Sync] ++ (if blockIdx =? 0 then barrier_with_peers else []).
End thread.

(** One call of the collective: the arguments of all ranks. *)
Record call := mkCall {
  a_nelems : Z; a_nelemsPerInt4 : Z; a_gridDim : Z; a_blockDim : Z; a_buff : Z -> Z; a_resultBuff : Z -> Z; a_remoteMemories : Z -> list Z
}.

(** The grids of all ranks; the second barrier is [globalSyncer.sync(gridDim.x)]. *)
Definition zero_copy_kernel (N : Z) (a : call) : kernel D A :=
  mkKernel (a_gridDim a) (a_blockDim a)
    (fun r b t => segments (allreduceRsAgZeroCopy N (a_nelemsPerInt4 a) (a_buff a r) (a_resultBuff a r) (a_remoteMemories a r) r (a_nelems a)
                              (a_gridDim a) (a_blockDim a) b t))
    (fun j => if Nat.eqb j 1 then GridBarrier else BlockBarrier).
End kernel.

(** ** The words of a call *)

Section calls.
Context {D A : Type} (acc : accumulator D A) (N : Z) (home : Z -> Z).
Hypothesis HN : 1 <= N.
Notation instr := (instr D A).

Definition per_rank (a : call) : Z := nInt4PerRank N (a_nelemsPerInt4 a) (a_nelems a).
Definition total (a : call) : Z := nInt4Total (a_nelemsPerInt4 a) (a_nelems a).
Definition per_block (a : call) (b : Z) : Z := nInt4PerBlock N (a_nelemsPerInt4 a) (a_nelems a) (a_gridDim a) b.
Definition in_word (a : call) (r w : Z) : Z := a_buff a r + w * sizeof_int4.
Definition out_word (a : call) (r w : Z) : Z := a_resultBuff a r + w * sizeof_int4.

(** The buffers of a call: aligned, as the kernel asserts, each in the memory of its rank, and the input of a rank apart from its
    output or the same; the handles are those of the peers' inputs and outputs. *)
Record call_ok (a : call) : Prop := {
  ok_grid : 0 < a_gridDim a;
  ok_block : 0 < a_blockDim a < 2 ^ 31 /\ N - 1 <= a_blockDim a;
  ok_elems : 0 < a_nelemsPerInt4 a;
  ok_aligned : forall r, 0 <= r < N -> a_buff a r mod sizeof_int4 = 0 /\ a_resultBuff a r mod sizeof_int4 = 0;
  ok_size : 0 <= a_nelems a /\ a_nelems a + N * a_nelemsPerInt4 a + N < 2 ^ 31;
  ok_handles : forall r i, 0 <= r < N -> 0 <= i < N - 1 ->
    a_remoteMemories a r !! Z.to_nat i = Some (a_buff a (remoteRank r i)) /\ a_remoteMemories a r !! Z.to_nat (N - 1 + i) = Some (a_resultBuff a (remoteRank r i));
  ok_home_in : forall r w, 0 <= r < N -> 0 <= w < total a -> home (in_word a r w) = r;
  ok_home_out : forall r w, 0 <= r < N -> 0 <= w < total a -> home (out_word a r w) = r;
  ok_apart : forall r, 0 <= r < N -> a_buff a r = a_resultBuff a r \/
    forall w w', 0 <= w < total a -> 0 <= w' < total a -> in_word a r w <> out_word a r w'
}.

(** Every block has words to reduce. *)
Definition enough_words (a : call) : Prop := a_gridDim a <= per_rank a.

(** Sizes do not wrap, and the ranks' parts cover the words. *)
Lemma sizes a : call_ok a -> 0 <= per_rank a /\ per_rank a * N < 2 ^ 31 /\ 0 <= total a <= per_rank a * N.
Proof using HN.
  intros Ha. pose proof (ok_elems a Ha) as He. destruct (ok_size a Ha) as [H0 Hs]. set (e := a_nelemsPerInt4 a) in *. set (n := a_nelems a) in *.
  set (q := (n + N - 1) / N). set (m := (q + e - 1) / e).
  assert (Hq : n <= q * N < n + N). { unfold q. pose proof (Z.div_mod (n + N - 1) N ltac:(lia)). pose proof (Z.mod_pos_bound (n + N - 1) N ltac:(lia)). nia. }
  assert (Hm : q <= m * e < q + e). { unfold m. pose proof (Z.div_mod (q + e - 1) e ltac:(lia)). pose proof (Z.mod_pos_bound (q + e - 1) e ltac:(lia)). nia. }
  assert (Hq0 : 0 <= q) by nia. assert (Hm0 : 0 <= m) by nia. assert (Hme : m * e * N < 2 ^ 31) by nia.
  assert (Ep : per_rank a = m).
  { unfold per_rank, nInt4PerRank, nelemsPerRank, alignedNelems. fold e n q m. rewrite u32_small by (split; [nia|lia]). rewrite Z.div_mul by lia. by rewrite Z.div_mul by lia. }
  assert (Et : total a = (n + e - 1) / e).
  { unfold total, nInt4Total. fold e n. apply u32_small. split; [apply Z.div_pos; lia|]. apply Z.div_lt_upper_bound; nia. }
  rewrite Ep, Et. split_and!; [done|nia|apply Z.div_pos; lia|]. apply Z.lt_succ_r. apply Z.div_lt_upper_bound; [lia|]. nia.
Qed.

Section blocks.
Context (a : call).
Hypothesis Ha : call_ok a.

Lemma per_block_eq b : per_block a b = per_rank a / a_gridDim a + (if b =? a_gridDim a - 1 then per_rank a mod a_gridDim a else 0).
Proof using. done. Qed.

Lemma offset_eq b : 0 <= b < a_gridDim a -> offset4 N (a_nelemsPerInt4 a) (a_nelems a) (a_gridDim a) b = b * (per_rank a / a_gridDim a).
Proof using HN Ha.
  intros Hb. unfold offset4. fold (per_rank a). destruct (sizes a Ha) as (H1 & H2 & _). apply u32_small. pose proof (Z.div_pos (per_rank a) (a_gridDim a) H1 ltac:(lia)).
  split; [nia|]. pose proof (Z.mul_div_le (per_rank a) (a_gridDim a) ltac:(lia)). nia.
Qed.

(** The words of a block are within the part of its rank. *)
Lemma block_range b : 0 <= b < a_gridDim a -> 0 <= per_block a b /\ b * (per_rank a / a_gridDim a) + per_block a b <= per_rank a.
Proof using HN Ha.
  intros Hb. destruct (sizes a Ha) as (H1 & _). rewrite per_block_eq. pose proof (Z.div_mod (per_rank a) (a_gridDim a) ltac:(lia)) as E.
  pose proof (Z.mod_pos_bound (per_rank a) (a_gridDim a) ltac:(lia)). pose proof (Z.div_pos (per_rank a) (a_gridDim a) H1 ltac:(lia)).
  destruct (Z.eqb_spec b (a_gridDim a - 1)); split; nia.
Qed.

(** The words that a thread reduces. *)
Definition word_at (r b idx : Z) : Z := idx + b * (per_rank a / a_gridDim a) + r * per_rank a.
Definition my_words (r b t : Z) : list Z :=
  flat_map (fun idx => if total a <=? word_at r b idx then [] else [word_at r b idx]) (strided t (a_blockDim a) (per_block a b)).

Lemma elem_of_zero_words r b t w : 0 <= b < a_gridDim a -> 0 <= t < a_blockDim a ->
  w ∈ my_words r b t <-> exists idx, 0 <= idx < per_block a b /\ idx mod a_blockDim a = t /\ w = word_at r b idx /\ w < total a.
Proof using HN Ha.
  intros Hb Ht. destruct (block_range b Hb) as [H1 H2]. destruct (sizes a Ha) as (H3 & H4 & _), (ok_block a Ha) as [Hbd _].
  pose proof (Z.div_pos (per_rank a) (a_gridDim a) H3 ltac:(lia)). assert (per_block a b <= per_rank a) by nia. assert (per_rank a < 2 ^ 31) by nia.
  unfold my_words. rewrite elem_of_flat_map. split.
  - intros (idx & Hidx & Hw). apply elem_of_strided in Hidx as [Hi Hm]; [|done|done|lia]. exists idx. destruct (Z.leb_spec (total a) (word_at r b idx)); [by apply elem_of_nil in Hw|].
    apply list_elem_of_singleton in Hw as ->. done.
  - intros (idx & Hi & Hm & -> & Hlt). exists idx. split; [by apply elem_of_strided; [..|lia|]|]. rewrite (proj2 (Z.leb_gt _ _)) by lia. by left.
Qed.

Lemma my_words_range r b t w : 0 <= r -> 0 <= b < a_gridDim a -> 0 <= t < a_blockDim a -> w ∈ my_words r b t -> 0 <= w < total a /\ w / per_rank a = r /\ per_block a b <> 0.
Proof using HN Ha.
  intros Hr Hb Ht Hw. apply elem_of_zero_words in Hw as (idx & Hi & _ & -> & Hlt); [|done..]. destruct (block_range b Hb) as [H1 H2], (sizes a Ha) as (H3 & _).
  pose proof (Z.div_pos (per_rank a) (a_gridDim a) H3 ltac:(lia)). unfold word_at in *. split_and!; [nia|done| |lia].
  symmetry. apply (Z.div_unique _ _ _ (idx + b * (per_rank a / a_gridDim a))); [left; nia|lia].
Qed.

(** Every word has one thread. *)
Lemma zero_word_unique r b t r' b' t' w : 0 <= r -> 0 <= r' -> 0 <= b < a_gridDim a -> 0 <= b' < a_gridDim a -> 0 <= t < a_blockDim a -> 0 <= t' < a_blockDim a ->
  w ∈ my_words r b t -> w ∈ my_words r' b' t' -> r = r' /\ b = b' /\ t = t'.
Proof using HN Ha.
  intros Hr Hr' Hb Hb' Ht Ht' Hw Hw'. destruct (my_words_range r b t w Hr Hb Ht Hw) as (_ & <- & _). destruct (my_words_range r' b' t' w Hr' Hb' Ht' Hw') as (_ & <- & _).
  split; [done|]. apply elem_of_zero_words in Hw as (i & Hi & <- & Ew & _); [|done..]. apply elem_of_zero_words in Hw' as (i' & Hi' & <- & Ew' & _); [|done..].
  unfold word_at in *. assert (E : i + b * (per_rank a / a_gridDim a) = i' + b' * (per_rank a / a_gridDim a)) by lia. clear Ew Ew'.
  assert (b = b') as <-; [|split; [done|f_equal; lia]]. rewrite !per_block_eq in *. set (q := per_rank a / a_gridDim a) in *.
  destruct (lt_eq_lt_dec (Z.to_nat b) (Z.to_nat b')) as [[?|?]|?]; [exfalso|lia|exfalso].
  - destruct (Z.eqb_spec b (a_gridDim a - 1)); [lia|]. nia.
  - destruct (Z.eqb_spec b' (a_gridDim a - 1)); [lia|]. nia.
Qed.

Lemma zero_word_owner w : 0 <= w < total a -> exists b t, 0 <= b < a_gridDim a /\ 0 <= t < a_blockDim a /\ w ∈ my_words (w / per_rank a) b t /\ 0 <= w / per_rank a < N.
Proof using HN Ha.
  intros Hw. destruct (sizes a Ha) as (H1 & H2 & H3), (ok_block a Ha) as [Hbd _]. pose proof (ok_grid a Ha) as Hg. assert (Hp : 0 < per_rank a) by nia.
  set (r := w / per_rank a). set (x := w mod per_rank a). assert (Ew : w = per_rank a * r + x) by (apply Z.div_mod; lia).
  pose proof (Z.mod_pos_bound w (per_rank a) Hp) as Hx. fold x in Hx. set (q := per_rank a / a_gridDim a).
  pose proof (Z.div_mod (per_rank a) (a_gridDim a) ltac:(lia)) as Eq. fold q in Eq. pose proof (Z.mod_pos_bound (per_rank a) (a_gridDim a) Hg) as Hm.
  assert (Hq : 0 <= q) by (apply Z.div_pos; lia). assert (Hr : 0 <= r < N) by (split; [apply Z.div_pos; lia|apply Z.div_lt_upper_bound; lia]).
  assert (exists b, 0 <= b < a_gridDim a /\ 0 <= x - b * q < per_block a b) as (b & Hb & Hi).
  { destruct (decide (x < (a_gridDim a - 1) * q)) as [Hl|].
    - assert (0 < q) by nia. exists (x / q). pose proof (Z.div_mod x q ltac:(lia)). pose proof (Z.mod_pos_bound x q ltac:(lia)).
      assert (x / q < a_gridDim a - 1) by (apply Z.div_lt_upper_bound; lia). pose proof (Z.div_pos x q ltac:(lia) ltac:(lia)).
      rewrite per_block_eq. fold q. destruct (Z.eqb_spec (x / q) (a_gridDim a - 1)); lia.
    - exists (a_gridDim a - 1). rewrite per_block_eq, Z.eqb_refl. fold q. lia. }
  exists b, ((x - b * q) mod a_blockDim a). pose proof (Z.mod_pos_bound (x - b * q) (a_blockDim a) ltac:(lia)). split_and!; try done; try lia.
  apply elem_of_zero_words; [done|lia|]. exists (x - b * q). unfold word_at. fold q. split_and!; try done; lia.
Qed.

Lemma NoDup_my_words r b t : 0 <= b < a_gridDim a -> 0 <= t < a_blockDim a -> NoDup (my_words r b t).
Proof using HN Ha.
  intros Hb Ht. destruct (block_range b Hb) as [H1 H2], (sizes a Ha) as (H3 & H4 & _), (ok_block a Ha) as [Hbd _].
  pose proof (Z.div_pos (per_rank a) (a_gridDim a) H3 ltac:(lia)). assert (per_block a b <= per_rank a) by nia. assert (per_rank a < 2 ^ 31) by nia.
  pose proof (NoDup_strided t (a_blockDim a) (per_block a b) ltac:(lia) ltac:(lia) ltac:(lia)) as Hnd. unfold my_words.
  induction Hnd as [|i l Hi Hl IH]; simpl; [constructor|]. destruct (total a <=? word_at r b i); [done|]. simpl. constructor; [|done].
  intros (j & Hj & Hw)%elem_of_flat_map. destruct (total a <=? word_at r b j); [by apply elem_of_nil in Hw|]. apply list_elem_of_singleton in Hw.
  assert (i = j) by (unfold word_at in Hw; lia). by subst.
Qed.

Lemma every_block_works : enough_words a -> forall b, 0 <= b < a_gridDim a -> per_block a b <> 0.
Proof using Ha.
  intros Hen b Hb. rewrite per_block_eq. unfold enough_words in Hen. pose proof (Z.div_str_pos (per_rank a) (a_gridDim a) ltac:(lia)).
  pose proof (Z.mod_pos_bound (per_rank a) (a_gridDim a) ltac:(lia)). destruct (b =? _); lia.
Qed.

Lemma first_block_works : enough_words a -> per_block a 0 <> 0.
Proof using Ha. intros Hen. apply every_block_works; [done|]. pose proof (ok_grid a Ha). lia. Qed.
End blocks.

(** *** Operations *)

(** The [i]-th other rank after [r], in the order in which [r] takes its peers. *)
Definition after_rank (r i : Z) : Z := (r + i + 1) mod N.

(** Loading one's own word, accumulating a peer's, storing the result of word [w]. *)
Inductive op := OFirst (w a : Z) | OAcc (w i a : Z) | OStore (w a : Z).
Definition strip (o : op) : instr :=
  match o with
  | OFirst _ a => Load (fun _ v => upcast acc v) a
  | OAcc _ _ a => Load (accumulate acc) a
  | OStore _ a => Store (downcast acc) a
  end.
Definition word_of (o : op) : Z := match o with OFirst w _ | OAcc w _ _ | OStore w _ => w end.
Definition is_store (o : op) : bool := match o with OStore _ _ => true | _ => false end.

Definition item (a : call) (r w : Z) : list op :=
  OFirst w (in_word a r w) :: map (fun i => OAcc w i (in_word a (after_rank r i) w)) (threads (N - 1)) ++
  map (fun i => OStore w (out_word a (after_rank r i) w)) (threads (N - 1)) ++ [OStore w (out_word a r w)].

(** Of segment [j]. *)
Definition ops (a : call) (r b t : Z) (j : nat) : list op := if Nat.eqb j 1 then flat_map (item a r) (my_words a r b t) else [].

Lemma zero_strip_data x : is_data (strip x) = true.
Proof. by destruct x. Qed.

(** Where the handshakes are, and how many segments there are. *)
Definition zero_hs (a : call) (b : Z) (j : nat) : bool := negb (per_block a b =? 0) && (Nat.eqb j 0 || (Nat.eqb j 2 && (b =? 0))).
Definition zero_len (a : call) (b : Z) : nat := if per_block a b =? 0 then 1 else 3.

Lemma after_rank_spec r i : 0 <= r < N -> 0 <= i < N - 1 -> 0 <= after_rank r i < N /\ after_rank r i <> r /\
  remoteRank r (peerIdx N r i) = after_rank r i /\ 0 <= peerIdx N r i < N - 1.
Proof using HN.
  intros Hr Hi. unfold peerIdx, rankIdx. fold (after_rank r i). pose proof (Z.mod_pos_bound (r + i + 1) N ltac:(lia)) as Hm. fold (after_rank r i) in Hm.
  assert (Hne : after_rank r i <> r).
  { unfold after_rank in *. intros E. pose proof (Z.div_mod (r + i + 1) N ltac:(lia)) as Ed. rewrite E in Ed. assert ((r + i + 1) / N = 0 \/ 1 <= (r + i + 1) / N) as [E0|?] by (pose proof (Z.div_pos (r + i + 1) N); lia); nia. }
  unfold remoteRank. destruct (Z.ltb_spec (after_rank r i) r); [destruct (Z.ltb_spec (after_rank r i) r)|destruct (Z.ltb_spec (after_rank r i - 1) r)]; lia.
Qed.

Lemma after_rank_surj r q : 0 <= r < N -> 0 <= q < N -> q <> r -> exists i, 0 <= i < N - 1 /\ after_rank r i = q.
Proof using HN.
  intros Hr Hq Hne. exists ((q - r - 1) mod N). pose proof (Z.mod_pos_bound (q - r - 1) N ltac:(lia)) as Hm. unfold after_rank.
  assert (E : (r + (q - r - 1) mod N + 1) mod N = q).
  { replace (r + (q - r - 1) mod N + 1) with ((q - r - 1) mod N + (r + 1)) by lia. rewrite Zplus_mod_idemp_l. replace (q - r - 1 + (r + 1)) with q by lia. by apply Z.mod_small. }
  split; [|done]. split; [lia|]. destruct (decide ((q - r - 1) mod N = N - 1)) as [E1|]; [|lia]. exfalso. rewrite E1 in E. replace (r + (N - 1) + 1) with (r + 1 * N) in E by lia.
  rewrite Z.mod_add, Z.mod_small in E by lia. lia.
Qed.

Lemma elem_of_other i : i ∈ threads (N - 1) <-> 0 <= i < N - 1.
Proof using HN. apply elem_of_threads. lia. Qed.

(** *** Their code *)

Section code.
Context (a : call) (r b t : Z).
Hypothesis Ha : call_ok a.
Hypothesis Hr : 0 <= r < N.
Hypothesis Hb : 0 <= b < a_gridDim a.
Hypothesis Ht : 0 <= t < a_blockDim a.

Lemma reduce_word_code w : reduce_word acc N (a_buff a r) (a_resultBuff a r) (a_remoteMemories a r) r w = map Do (map strip (item a r w)).
Proof using HN Ha Hr.
  unfold reduce_word, item. simpl. rewrite !map_app, !map_map. simpl. f_equal. f_equal; [|f_equal]; apply map_ext_in; intros i Hi%list_elem_of_In%elem_of_other;
    destruct (after_rank_spec r i Hr Hi) as (_ & _ & E & Hp); destruct (ok_handles a Ha r _ Hr Hp) as [H1 H2]; unfold remoteMemory, outputRemoteBufferOffset.
  - rewrite H1, E. done.
  - rewrite H2, E. done.
Qed.

Lemma reduce_words_code : reduce_words acc N (a_nelemsPerInt4 a) (a_buff a r) (a_resultBuff a r) (a_remoteMemories a r) r (a_nelems a) (a_gridDim a) (a_blockDim a) b t =
  map Do (map strip (flat_map (item a r) (my_words a r b t))).
Proof using HN Ha Hr Hb Ht.
  destruct (block_range a Ha b Hb) as [H1 H2], (sizes a Ha) as (H3 & H4 & _), (ok_block a Ha) as [Hbd _].
  pose proof (Z.div_pos (per_rank a) (a_gridDim a) H3 ltac:(lia)). assert (per_block a b <= per_rank a) by nia. assert (per_rank a < 2 ^ 31) by nia.
  unfold reduce_words, my_words. fold (per_block a b) (per_rank a) (total a).
  set (f := fun idx : Z => let offset := u32 (idx + offset4 N (a_nelemsPerInt4 a) (a_nelems a) (a_gridDim a) b + r * per_rank a) in
       if total a <=? offset then [] else reduce_word acc N (a_buff a r) (a_resultBuff a r) (a_remoteMemories a r) r offset).
  set (g := fun idx : Z => if total a <=? word_at a r b idx then [] else [word_at a r b idx]).
  assert (Hf : forall idx, 0 <= idx < per_block a b -> f idx = map Do (map strip (flat_map (item a r) (g idx)))).
  { intros idx Hidx. unfold f, g. cbv zeta. rewrite (offset_eq a Ha b Hb). assert (u32 (idx + b * (per_rank a / a_gridDim a) + r * per_rank a) = word_at a r b idx) as ->.
    { unfold word_at. apply u32_small. split; [nia|]. assert (idx + b * (per_rank a / a_gridDim a) + r * per_rank a < per_rank a * N) by nia. lia. }
    destruct (total a <=? word_at a r b idx); [done|]. cbn [flat_map]. by rewrite app_nil_r, reduce_word_code. }
  assert (G : forall l, (forall idx, idx ∈ l -> 0 <= idx < per_block a b) -> flat_map f l = map Do (map strip (flat_map (item a r) (flat_map g l)))).
  { induction l as [|idx l IH]; intros Hl; [done|]. cbn [flat_map]. rewrite IH by (intros; apply Hl; by right). rewrite Hf by (apply Hl; by left).
    by rewrite flat_map_app, !map_app. }
  apply G. intros idx Hidx. by apply elem_of_strided in Hidx as [? _]; [| |lia|lia].
Qed.

(** The segments of a thread. *)
Lemma zero_code : k_code (zero_copy_kernel acc N a) r b t =
  if per_block a b =? 0 then [[]] else [handshake (t <? N - 1) t; map strip (ops a r b t 1); handshake ((b =? 0) && (t <? N - 1)) t].
Proof using HN Ha Hr Hb Ht.
  unfold zero_copy_kernel. cbn [k_code]. unfold allreduceRsAgZeroCopy. fold (per_block a b). destruct (per_block a b =? 0); [done|]. rewrite reduce_words_code.
  assert (Eh : barrier_with_peers N t = map Do (handshake (D := D) (R := A) (t <? N - 1) t)) by (unfold barrier_with_peers, NPeers; by destruct (t <? N - 1)).
  rewrite Eh, !segments_sync. f_equal. f_equal. destruct (b =? 0); simpl; [apply segments_last|done].
Qed.

Lemma zero_segment j seg : k_code (zero_copy_kernel acc N a) r b t !! j = Some seg ->
  seg = map strip (ops a r b t j) ++ handshake (zero_hs a b j && (t <? N - 1)) t.
Proof using HN Ha Hr Hb Ht.
  rewrite zero_code. unfold zero_hs. destruct (Z.eqb_spec (per_block a b) 0) as [E0|]; simpl.
  - destruct j as [|j]; simpl; intros [= <-]; done.
  - destruct j as [|[|[|j]]]; simpl; intros [= <-]; rewrite ?app_nil_r; done.
Qed.
End code.

Lemma zero_structured a : call_ok a -> structured N (zero_copy_kernel acc N a) (zero_hs a) (zero_len a).
Proof using HN.
  intros Ha. destruct (ok_block a Ha) as [? ?]. pose proof (ok_grid a Ha). split; try (unfold zero_copy_kernel; cbn [k_grid k_block]; lia).
  - intros r b t Hr Hb Ht. rewrite zero_code by done. unfold zero_len. by destruct (per_block a b =? 0).
  - intros b. unfold zero_len. destruct (per_block a b =? 0); lia.
  - intros r b t j seg Hr Hb Ht Hs. apply zero_segment in Hs; try done. eexists. split; [|exact Hs]. apply (strip_data strip zero_strip_data).
Qed.

(** *** What the operations are *)

Lemma op_word a r b t j o : o ∈ ops a r b t j -> j = 1%nat /\ word_of o ∈ my_words a r b t /\ o ∈ item a r (word_of o).
Proof using.
  unfold ops. destruct (Nat.eqb_spec j 1) as [->|]; [|by intros ?%elem_of_nil]. intros (w & Hw & Ho)%elem_of_flat_map.
  assert (E : word_of o = w).
  { unfold item in Ho. rewrite elem_of_cons, !elem_of_app in Ho. destruct Ho as [->|[Ho|[Ho|Ho]]]; [done|..|by apply list_elem_of_singleton in Ho as ->];
      apply list_elem_of_fmap in Ho as (i & -> & _); done. }
  by rewrite E.
Qed.

Lemma elem_of_item a r w o : o ∈ item a r w <-> o = OFirst w (in_word a r w) \/ (exists i, 0 <= i < N - 1 /\ o = OAcc w i (in_word a (after_rank r i) w)) \/
  (exists i, 0 <= i < N - 1 /\ o = OStore w (out_word a (after_rank r i) w)) \/ o = OStore w (out_word a r w).
Proof using HN.
  unfold item. rewrite elem_of_cons, !elem_of_app, list_elem_of_singleton, !list_elem_of_fmap. setoid_rewrite elem_of_other. split.
  - intros [?|[(i & ? & ?)|[(i & ? & ?)|?]]]; [by left|right; left; by exists i|right; right; left; by exists i|by right; right; right].
  - intros [?|[(i & ? & ?)|[(i & ? & ?)|?]]]; [by left|right; left; by exists i|right; right; left; by exists i|by right; right; right].
Qed.

(** A store of a word goes to the output of some rank. *)
Lemma store_to a r b t j w x : 0 <= r < N -> OStore w x ∈ ops a r b t j -> w ∈ my_words a r b t /\ exists q, 0 <= q < N /\ x = out_word a q w.
Proof using HN.
  intros Hr Ho. destruct (op_word _ _ _ _ _ _ Ho) as (_ & Hw & Hi). simpl in *. split; [done|].
  apply elem_of_item in Hi as [?|[(i & ? & ?)|[(i & Hi & [= ->])|[= ->]]]]; [done|done| |by exists r]. exists (after_rank r i). split; [by apply after_rank_spec|done].
Qed.

(** Every rank's output gets every word. *)
Lemma stores_all a r b t w q : 0 <= r < N -> 0 <= q < N -> w ∈ my_words a r b t -> OStore w (out_word a q w) ∈ ops a r b t 1.
Proof using HN.
  intros Hr Hq Hw. unfold ops. simpl. apply elem_of_flat_map. exists w. split; [done|]. apply elem_of_item. right. right.
  destruct (decide (q = r)) as [->|Hne]; [by right|left]. destruct (after_rank_surj r q Hr Hq Hne) as (i & Hi & <-). by exists i.
Qed.

(** How many peers' words the register has accumulated before and after an operation. *)
Definition needs (o : op) : option (Z * Z) := match o with OFirst _ _ => None | OAcc w i _ => Some (w, i) | OStore w _ => Some (w, N - 1) end.
Definition leaves (o : op) : Z * Z := match o with OFirst w _ => (w, 0) | OAcc w i _ => (w, i + 1) | OStore w _ => (w, N - 1) end.

Lemma chained_stores (f : Z -> Z) w l cur rest : cur = Some (w, N - 1) -> (forall c, c = Some (w, N - 1) -> chained needs leaves c rest) ->
  chained needs leaves cur (map (fun i => OStore w (f i)) l ++ rest).
Proof using. intros -> Hr. induction l as [|i l IH]; simpl; [by apply Hr|]. split; [by right|done]. Qed.

Lemma chained_item a r w cur : chained needs leaves cur (item a r w).
Proof using HN.
  unfold item. simpl. split; [by left|]. unfold threads at 1. rewrite map_map.
  assert (G : forall n m, Z.of_nat m + Z.of_nat n = N - 1 -> forall rest, (forall c, c = Some (w, N - 1) -> chained needs leaves c rest) ->
    chained needs leaves (Some (w, Z.of_nat m)) (map (fun x => OAcc w (Z.of_nat x) (in_word a (after_rank r (Z.of_nat x)) w)) (seq m n) ++ rest)).
  { induction n as [|n IH]; intros m Hm rest Hr; simpl; [apply Hr; do 2 f_equal; lia|]. split; [by right|]. replace (Z.of_nat m + 1) with (Z.of_nat (S m)) by lia. apply IH; [lia|done]. }
  apply (G _ 0%nat); [lia|]. intros c ->. apply (chained_stores (fun i => out_word a (after_rank r i) w)); [done|]. intros c ->. simpl. split; [by right|done].
Qed.

Lemma zero_chained a r b t j cur : chained needs leaves cur (ops a r b t j).
Proof using HN. unfold ops. destruct (Nat.eqb j 1); [|done]. apply chained_flat_map. intros w c. apply chained_item. Qed.

(** A word is stored only after it has been loaded from everywhere. *)
Fixpoint loads_first (stored : list Z) (l : list op) : Prop :=
  match l with
  | [] => True
  | o :: l' => (is_store o = false -> word_of o ∉ stored) /\ loads_first (if is_store o then word_of o :: stored else stored) l'
  end.

Lemma loads_first_loads l : forall stored rest, (forall o, o ∈ l -> is_store o = false /\ word_of o ∉ stored) -> loads_first stored rest -> loads_first stored (l ++ rest).
Proof using.
  induction l as [|o l IH]; intros stored rest Hl Hr; simpl; [done|]. destruct (Hl o ltac:(by left)) as [E Hn]. rewrite E. split; [done|].
  apply IH; [|done]. intros o' Ho'. apply Hl. by right.
Qed.

Lemma loads_first_stores w l : forall stored rest, (forall o, o ∈ l -> is_store o = true /\ word_of o = w) ->
  (forall stored', (forall v, v ∈ stored' -> v = w \/ v ∈ stored) -> loads_first stored' rest) -> loads_first stored (l ++ rest).
Proof using.
  induction l as [|o l IH]; intros stored rest Hl Hr; simpl; [apply Hr; auto|]. destruct (Hl o ltac:(by left)) as [E Ew]. rewrite E. split; [done|].
  apply IH; [intros o' Ho'; apply Hl; by right|]. intros stored' Hs. apply Hr. intros v Hv. destruct (Hs v Hv) as [->|Hv']; [by left|].
  apply elem_of_cons in Hv' as [->|?]; [by left|by right].
Qed.

Lemma loads_first_items a r ws : NoDup ws -> forall stored, (forall w, w ∈ ws -> w ∉ stored) -> loads_first stored (flat_map (item a r) ws).
Proof using.
  induction 1 as [|w ws Hw Hnd IH]; intros stored Hs; [done|]. cbn [flat_map]. unfold item. rewrite app_comm_cons, <- !app_assoc.
  apply loads_first_loads.
  - intros o Ho. assert (E : is_store o = false /\ word_of o = w).
    { apply elem_of_cons in Ho as [->|Ho]; [done|]. by apply list_elem_of_fmap in Ho as (i & -> & _). }
    destruct E as [E1 E2]. rewrite E2. split; [done|]. apply Hs. by left.
  - rewrite app_assoc. apply (loads_first_stores w).
    + intros o [Ho|Ho]%elem_of_app; [by apply list_elem_of_fmap in Ho as (i & -> & _)|by apply list_elem_of_singleton in Ho as ->].
    + intros stored' Hst. apply IH. intros v Hv Hin. destruct (Hst v Hin) as [->|Hin']; [done|]. apply (Hs v); [by right|done].
Qed.

Lemma loads_first_take l : forall stored m o, loads_first stored l -> l !! m = Some o -> is_store o = false ->
  word_of o ∉ stored /\ forall w x, OStore w x ∈ take m l -> w <> word_of o.
Proof using.
  induction l as [|o1 l IH]; intros stored m o Hl Hm Ho; [done|]. destruct Hl as [H1 H2]. destruct m as [|m]; simpl in Hm.
  - injection Hm as ->. split; [by apply H1|]. intros w x Hin. by apply elem_of_nil in Hin.
  - destruct (IH _ _ _ H2 Hm Ho) as [H3 H4]. split.
    + destruct (is_store o1); [|done]. intros Hin. apply H3. by right.
    + intros w x. simpl. intros [E|Hin]%elem_of_cons; [|by apply (H4 w x)]. subst o1. simpl in H3. intros ->. apply H3. by left.
Qed.

Lemma not_yet_stored a r b t m o w x : call_ok a -> 0 <= b < a_gridDim a -> 0 <= t < a_blockDim a ->
  ops a r b t 1 !! m = Some o -> is_store o = false -> OStore w x ∈ take m (ops a r b t 1) -> w <> word_of o.
Proof using HN.
  intros Ha Hb Ht Ho Hs. refine (proj2 (loads_first_take _ [] m o _ Ho Hs) w x). apply loads_first_items; [by apply NoDup_my_words|]. intros v _ Hv. by apply elem_of_nil in Hv.
Qed.

(** ** Calls one after the other *)

Section runs.
Context (calls : list call) (host : Z -> nat -> (Z -> D) -> (Z -> D)) (reg0 : A) (token : Z -> Z -> Z -> Z).
Hypothesis Hok : forall k a, calls !! k = Some a -> call_ok a.
(** What is done to a rank's memory between calls stays within it. *)
Hypothesis Hhost : forall r n m x, home x <> r -> host r n m x = m x.

Notation the_kernel := (zero_copy_kernel acc N).
Notation kernels := (map the_kernel calls).
Notation state := (grid_state D A).
Notation step := (grid_step N kernels host reg0).

Definition hs_at (k : nat) (b : Z) (j : nat) : bool := match calls !! k with Some a => zero_hs a b j | None => false end.
Definition len_at (k : nat) (b : Z) : nat := match calls !! k with Some a => zero_len a b | None => 1 end.

Lemma zero_kernels k K : kernels !! k = Some K <-> exists a, calls !! k = Some a /\ K = the_kernel a.
Proof using. rewrite list_lookup_fmap. destruct (calls !! k) as [a|]; simpl; split; [intros [= <-]; by exists a|by intros (? & [= <-] & ->)|done|by intros (? & ? & _)]. Qed.

Lemma zero_calls_structured k K : kernels !! k = Some K -> structured N K (hs_at k) (len_at k).
Proof using HN Hok. intros HK. apply zero_kernels in HK as (a & Ha & ->). unfold hs_at, len_at. rewrite Ha. apply zero_structured. by apply (Hok k). Qed.

Notation gi := (ginv N kernels hs_at len_at token).

(** *** The memory *)

(** Word [w], of the part of rank [r], of the inputs as they were when the ranks began call [k]:
    one's own and those of the first [i] peers, accumulated. *)
Definition partial (s : state) (k : nat) (a : call) (r w i : Z) : A :=
  foldl (accumulate acc) (upcast acc (g_began s r k (in_word a r w))) (map (fun i => g_began s (after_rank r i) k (in_word a (after_rank r i) w)) (threads i)).
Definition reduced (s : state) (k : nat) (a : call) (r w : Z) : D := downcast acc (partial s k a r w (N - 1)).

(** Rank [p] has done an operation of call [k]. *)
Definition did (s : state) (k : nat) (a : call) (p b t : Z) (o : op) : Prop :=
  ((k < g_call s p)%nat /\ o ∈ ops a p b t 1) \/ (g_call s p = k /\ o ∈ done_ops (ops a p b t) 1 (g_thread s p b t)).

(** While a rank is in a call: a word of its input is as it was until the word has been reduced,
    what has been stored in its memory in this call is there, and every register holds what
    the thread has accumulated. *)
Record minv (s : state) : Prop := {
  mi_in : forall r a q b t w, 0 <= r < N -> 0 <= q < N -> calls !! g_call s r = Some a -> 0 <= b < a_gridDim a -> 0 <= t < a_blockDim a -> w ∈ my_words a q b t ->
    (forall x, ~ did s (g_call s r) a q b t (OStore w x)) -> g_mem s (in_word a r w) = g_began s r (g_call s r) (in_word a r w);
  mi_did : forall r a p b t w x, 0 <= r < N -> 0 <= p < N -> calls !! g_call s r = Some a -> 0 <= b < a_gridDim a -> 0 <= t < a_blockDim a ->
    home x = r -> did s (g_call s r) a p b t (OStore w x) -> g_mem s x = reduced s (g_call s r) a p w;
  mi_reg : forall p a b t o w i, 0 <= p < N -> calls !! g_call s p = Some a -> 0 <= b < a_gridDim a -> 0 <= t < a_blockDim a ->
    ops a p b t (th_seg (g_thread s p b t)) !! at_op (ops a p b t) (g_thread s p b t) = Some o -> needs o = Some (w, i) ->
    th_reg (g_thread s p b t) = partial s (g_call s p) a p w i
}.

Lemma block_works a r b t j o : call_ok a -> 0 <= r -> 0 <= b < a_gridDim a -> 0 <= t < a_blockDim a -> o ∈ ops a r b t j -> per_block a b <> 0.
Proof using HN. intros Ha Hr Hb Ht Ho. destruct (op_word _ _ _ _ _ _ Ho) as (_ & Hw & _). by apply (my_words_range a Ha r b t) in Hw as (_ & _ & ?). Qed.

Section steps.
Context (s : state).
Hypothesis G : gi s.

Lemma z_thread r b t a : 0 <= r < N -> calls !! g_call s r = Some a -> 0 <= b < a_gridDim a -> 0 <= t < a_blockDim a ->
  thread_ok N hs_at len_at (the_kernel a) (g_call s r) r b t (g_thread s r b t).
Proof using G. intros Hr Ha Hb Ht. apply (gi_thread _ _ _ _ _ s G r b t (the_kernel a)); try done. apply zero_kernels. by exists a. Qed.

Lemma z_rest r b t a : 0 <= r < N -> calls !! g_call s r = Some a -> 0 <= b < a_gridDim a -> 0 <= t < a_blockDim a ->
  let th := g_thread s r b t in rest_of (map strip (ops a r b t (th_seg th))) (hs_at (g_call s r) b (th_seg th) && (t <? N - 1)) t (th_rest th).
Proof using HN Hok G.
  intros Hr Ha Hb Ht th. pose proof (z_thread r b t a Hr Ha Hb Ht) as Hth. apply (thread_rest strip _ _ _ _ _ _ _ _ _ _ Hth).
  destruct Hth as (_ & data & _ & Hc & _). rewrite Hc. f_equal. rewrite (zero_segment a r b t (Hok _ _ Ha) Hr Hb Ht _ _ Hc). unfold hs_at. by rewrite Ha.
Qed.

Lemma z_handshake k a b j : calls !! k = Some a -> per_block a b <> 0 -> j = 0%nat \/ (j = 2%nat /\ b = 0) -> hs_at k b j = true /\ (j < len_at k b)%nat.
Proof using.
  clear. intros Ha Hw Hj. unfold hs_at, len_at, zero_hs, zero_len. rewrite Ha, (proj2 (Z.eqb_neq _ _) Hw). destruct Hj as [->|[-> ->]]; split; simpl; (done || lia).
Qed.

(** Who is past the first handshake of a call has all peers in that call. *)
Lemma z_ahead p q b t k a : 0 <= p < N -> 0 <= q < N -> p <> q -> calls !! k = Some a -> 0 <= b < a_gridDim a -> 0 <= t < a_blockDim a -> per_block a b <> 0 ->
  (k < g_call s p)%nat \/ (g_call s p = k /\ (0 < th_seg (g_thread s p b t))%nat) -> (k <= g_call s q)%nat.
Proof using HN Hok G.
  intros Hp Hq Hne Ha Hb Ht Hw Hc. destruct (z_handshake k a b 0 Ha Hw ltac:(by left)) as [H1 H2].
  destruct (crossed_signalled N kernels hs_at len_at token zero_calls_structured s G p q b t 0 k (the_kernel a)) as [H|[H _]]; try done; [|lia|lia].
  apply zero_kernels. by exists a.
Qed.

(** Who is past the last handshake, by its block 0, finds the peers past their grid barriers. *)
Lemma z_reduced p q t b' t' k a : 0 <= p < N -> 0 <= q < N -> p <> q -> calls !! k = Some a -> enough_words a -> 0 <= t < a_blockDim a ->
  0 <= b' < a_gridDim a -> 0 <= t' < a_blockDim a -> (k < g_call s p)%nat \/ (g_call s p = k /\ passed 2 (g_thread s p 0 (index_of p q)) = true) ->
  (k < g_call s q)%nat \/ (g_call s q = k /\ passed 1 (g_thread s q b' t') = true).
Proof using HN Hok G.
  intros Hp Hq Hne Ha Hen Ht Hb' Ht' Hc. pose proof (Hok _ _ Ha) as Hca. pose proof (ok_grid a Hca) as Hg. destruct (ok_block a Hca) as [_ Hbd].
  pose proof (first_block_works a Hca Hen) as Hw.
  destruct (z_handshake k a 0 2 Ha Hw ltac:(by right)) as [H1 H2]. pose proof (index_of_range N p q Hp Hq ltac:(done)) as Hi.
  pose proof (waited_signalled N kernels hs_at len_at token zero_calls_structured s G p 0 (index_of p q) 2 k (the_kernel a) Hp Hi) as Hsig.
  rewrite remoteRank_index in Hsig by done. destruct Hsig as [H|[Hk Hs]]; try done; [apply zero_kernels; by exists a|by left|right; split; [done|]].
  pose proof (index_of_range N q p Hq Hp (not_eq_sym Hne)). apply (gi_grid _ _ _ _ _ s G q 0 (index_of q p) b' t' (the_kernel a) 1); try done; [|cbn; lia|].
  - apply zero_kernels. exists a. split; [by rewrite Hk|done].
  - unfold signalled in Hs. apply orb_true_iff in Hs as [Hs%Nat.ltb_lt|Hs]; [lia|]. apply andb_true_iff in Hs as [Hs%Nat.eqb_eq _]. lia.
Qed.

(** While a thread reduces, all ranks are in the same call. *)
Lemma z_together p q b t a o : 0 <= p < N -> 0 <= q < N -> calls !! g_call s p = Some a -> enough_words a -> 0 <= b < a_gridDim a -> 0 <= t < a_blockDim a ->
  ops a p b t (th_seg (g_thread s p b t)) !! at_op (ops a p b t) (g_thread s p b t) = Some o -> g_call s q = g_call s p.
Proof using HN Hok G.
  intros Hp Hq Ha Hen Hb Ht Ho. destruct (decide (p = q)) as [->|Hne]; [done|]. pose proof (Hok _ _ Ha) as Hc. pose proof (list_elem_of_lookup_2 _ _ _ Ho) as Hin.
  pose proof (block_works a p b t _ o Hc ltac:(lia) Hb Ht Hin) as Hw. destruct (op_word _ _ _ _ _ _ Hin) as (Ej & _).
  pose proof (z_ahead p q b t (g_call s p) a Hp Hq Hne Ha Hb Ht Hw ltac:(right; split; [done|lia])) as H1. destruct (decide (g_call s q = g_call s p)); [done|exfalso].
  destruct (z_reduced q p t b t (g_call s p) a Hq Hp (not_eq_sym Hne) Ha Hen Ht Hb Ht ltac:(left; lia)) as [H2|[_ H2]]; [lia|].
  unfold passed in H2. rewrite Ej in H2. simpl in H2. pose proof (op_left strip zero_strip_data (ops a p b t) _ t _ (z_rest p b t a Hp Ha Hb Ht) _ Ho). by destruct (th_rest _).
Qed.

(** What a thread is about to load is what was there when the rank began the call. *)
Lemma z_load_right (M : minv s) p q b t a o : 0 <= p < N -> 0 <= q < N -> calls !! g_call s p = Some a -> enough_words a -> 0 <= b < a_gridDim a -> 0 <= t < a_blockDim a ->
  ops a p b t (th_seg (g_thread s p b t)) !! at_op (ops a p b t) (g_thread s p b t) = Some o -> is_store o = false ->
  g_mem s (in_word a q (word_of o)) = g_began s q (g_call s p) (in_word a q (word_of o)).
Proof using HN Hok G.
  intros Hp Hq Ha Hen Hb Ht Ho Hs. pose proof (z_together p q b t a o Hp Hq Ha Hen Hb Ht Ho) as Hk. pose proof (Hok _ _ Ha) as Hc.
  destruct (op_word _ _ _ _ _ _ (list_elem_of_lookup_2 _ _ _ Ho)) as (Ej & Hw & _). rewrite <- Hk. rewrite <- Hk in Ha.
  apply (mi_in s M q a p b t); try done. rewrite Hk. intros x [[? _]|[_ Hd]]; [lia|].
  unfold done_ops in Hd. rewrite Ej in Hd. simpl in Hd. rewrite Ej in Ho. by eapply (not_yet_stored a p b t _ o _ x Hc Hb Ht Ho Hs Hd).
Qed.
End steps.

(** *** Its steps *)

Section enough.
Hypothesis Hen : forall k a, calls !! k = Some a -> enough_words a.

Section thread_steps.
Context (s : state) (p b t : Z) (a : call).
Hypothesis G : gi s.
Hypothesis M : minv s.
Hypothesis Hp : 0 <= p < N.
Hypothesis Ha : calls !! g_call s p = Some a.
Hypothesis Hb : 0 <= b < a_gridDim a.
Hypothesis Ht : 0 <= t < a_blockDim a.
Notation th := (g_thread s p b t).
Notation after th' mem inb ex := (mkGrid (g_call s) (set3 (g_thread s) p b t th') mem inb ex (g_began s)).

(** What has been done after a step of this thread. *)
Lemma z_did_after th' mem inb ex k a' q b' t' o : calls !! k = Some a' -> did (after th' mem inb ex) k a' q b' t' o ->
  did s k a' q b' t' o \/ (k = g_call s p /\ a' = a /\ q = p /\ b' = b /\ t' = t /\ o ∈ done_ops (ops a p b t) 1 th').
Proof using Ha.
  intros Hk [[Hlt Ho]|[Hq Ho]]; cbn [g_call g_thread] in *; [left; by left|]. rewrite set3_spec in Ho. hyp_decide Ho E; [|left; by right].
  destruct E as (-> & -> & ->). right. subst k. simplify_eq. done.
Qed.

Lemma z_did_stays th' mem inb ex k a' q b' t' o : calls !! k = Some a' -> (forall o, o ∈ done_ops (ops a p b t) 1 th -> o ∈ done_ops (ops a p b t) 1 th') ->
  did s k a' q b' t' o -> did (after th' mem inb ex) k a' q b' t' o.
Proof using Ha.
  intros Hk Hm [Hd|[Hq Ho]]; [by left|right]. split; [done|]. cbn [g_thread]. rewrite set3_spec. goal_decide E; [|done]. destruct E as (-> & -> & ->). subst k. simplify_eq. by apply Hm.
Qed.

(** A step that stores nothing. *)
Lemma z_quiet th' inb ex : (forall o, o ∈ done_ops (ops a p b t) 1 th -> o ∈ done_ops (ops a p b t) 1 th') ->
  (forall w x, OStore w x ∈ done_ops (ops a p b t) 1 th' -> OStore w x ∈ done_ops (ops a p b t) 1 th) ->
  (forall o w i, ops a p b t (th_seg th') !! at_op (ops a p b t) th' = Some o -> needs o = Some (w, i) -> th_reg th' = partial s (g_call s p) a p w i) ->
  minv (after th' (g_mem s) inb ex).
Proof using M Ha.
  intros H0 H1 H2. split; cbn [g_call g_thread g_mem g_began].
  - intros r a' q b' t' w Hr Hq Ha' Hb' Ht' Hw Hn. apply (mi_in s M r a' q b' t' w); try done. intros x Hd. apply (Hn x). by apply z_did_stays.
  - intros r a' q b' t' w x Hr Hq Ha' Hb' Ht' Hh Hd. change (reduced (after th' (g_mem s) inb ex)) with (reduced s). apply (mi_did s M r a' q b' t' w x); try done.
    destruct (z_did_after _ _ _ _ _ _ _ _ _ _ Ha' Hd) as [Hd'|(Ek & -> & -> & -> & -> & Ho)]; [done|]. right. split; [done|]. by apply H1.
  - intros q a' b' t' o w i Hq Ha' Hb' Ht'. change (partial (after th' (g_mem s) inb ex)) with (partial s). rewrite set3_spec. goal_decide E.
    + destruct E as (-> & -> & ->). simplify_eq. apply H2.
    + by apply (mi_reg s M).
Qed.

Lemma z_segment seg : th_rest th = [] -> k_code (the_kernel a) p b t !! Datatypes.S (th_seg th) = Some seg ->
  minv (with_thread s p b t (mkThread (Datatypes.S (th_seg th)) seg (th_reg th))).
Proof using HN Hok M Ha Hp Hb Ht.
  intros E Hs. rewrite (zero_segment a p b t (Hok _ _ Ha) Hp Hb Ht _ _ Hs).
  pose proof (at_segment strip zero_strip_data (ops a p b t) (Datatypes.S (th_seg th)) (zero_hs a b (Datatypes.S (th_seg th)) && (t <? N - 1)) t (th_reg th)) as Em.
  apply z_quiet; cbn [th_seg].
  - intros o. apply done_stays_next.
  - intros w x. by apply done_next.
  - rewrite Em. intros o w i Ho Hne. by rewrite (chained_first needs leaves _ _ (zero_chained a p b t _ None) Ho) in Hne.
Qed.

Lemma z_sync x rest inb ex : th_rest th = x :: rest -> is_data x = false -> minv (after (mkThread (th_seg th) rest (th_reg th)) (g_mem s) inb ex).
Proof using M Ha Hp Hb Ht.
  intros E Hx. pose proof (other_op (ops a p b t) th x rest (th_reg th) E Hx) as Em. apply z_quiet; cbn [th_seg th_reg]; rewrite ?Em.
  - intros o. unfold done_ops. cbn [th_seg]. by rewrite Em.
  - intros w y. unfold done_ops. cbn [th_seg]. by rewrite Em.
  - intros o w i. by apply (mi_reg s M).
Qed.

Lemma partial_next r k a' w i : 0 <= i -> partial s k a' r w (i + 1) =
  accumulate acc (partial s k a' r w i) (g_began s (after_rank r i) k (in_word a' (after_rank r i) w)).
Proof using.
  intros Hi. unfold partial, threads. replace (Z.to_nat (i + 1)) with (Z.to_nat i + 1)%nat by lia. rewrite seq_app, !map_app, foldl_app. simpl. by rewrite Z2Nat.id by lia.
Qed.

(** After a load the register holds what the operation leaves there. *)
Lemma z_loaded o f y : ops a p b t (th_seg th) !! at_op (ops a p b t) th = Some o -> strip o = Load f y ->
  f (th_reg th) (g_mem s y) = partial s (g_call s p) a p (leaves o).1 (leaves o).2.
Proof using HN Hok Hen G M Ha Hp Hb Ht.
  intros Ho Es. destruct (op_word _ _ _ _ _ _ (list_elem_of_lookup_2 _ _ _ Ho)) as (_ & _ & Hi). apply elem_of_item in Hi.
  destruct o as [w x|w i x|w x]; simpl in *; [| |done]; injection Es as <- <-.
  - destruct Hi as [[= ->]|[(i & _ & ?)|[(i & _ & ?)|?]]]; [|done..].
    pose proof (z_load_right s G M p p b t a _ Hp Hp Ha (Hen _ _ Ha) Hb Ht Ho eq_refl) as Hl. cbn [word_of] in Hl. by rewrite Hl.
  - destruct Hi as [?|[(i' & Hi & [= <- ->])|[(i' & _ & ?)|?]]]; [done| |done..].
    assert (Hq : 0 <= after_rank p i < N) by (by apply after_rank_spec). pose proof (z_load_right s G M p (after_rank p i) b t a _ Hp Hq Ha (Hen _ _ Ha) Hb Ht Ho eq_refl) as Hl. cbn [word_of] in Hl. rewrite Hl.
    cbn [leaves fst snd]. rewrite partial_next by lia. f_equal. by apply (mi_reg s M p a b t _ w i Hp Ha Hb Ht Ho).
Qed.

Lemma z_load f y rest : th_rest th = Load f y :: rest -> minv (with_thread s p b t (mkThread (th_seg th) rest (f (th_reg th) (g_mem s y)))).
Proof using HN Hok Hen G M Ha Hp Hb Ht.
  intros E. destruct (next_op strip zero_strip_data _ _ _ _ (z_rest s G p b t a Hp Ha Hb Ht) _ _ E eq_refl) as (o & Ho & Es & Em).
  pose proof (z_loaded o f y Ho (eq_sym Es)) as Hv. apply z_quiet; cbn [th_seg th_reg].
  - intros o'. apply done_stays. rewrite Em. lia.
  - intros w x Hd. destruct (done_more _ _ _ _ _ Ho (Em _) _ _ Hd) as [?|[_ <-]]; done.
  - intros o' w i Ho' Hn. rewrite Em in Ho'. destruct (chained_next needs leaves _ _ _ _ _ (zero_chained a p b t _ None) Ho Ho') as [H|H]; rewrite Hn in H; [done|].
    injection H as H. rewrite <- H in Hv. exact Hv.
Qed.

Lemma z_store g y rest inb ex : th_rest th = Store g y :: rest ->
  minv (after (mkThread (th_seg th) rest (th_reg th)) (upd (g_mem s) y (g (th_reg th))) inb ex).
Proof using HN Hok Hen G M Ha Hp Hb Ht.
  intros E. destruct (next_op strip zero_strip_data _ _ _ _ (z_rest s G p b t a Hp Ha Hb Ht) _ _ E eq_refl) as (o & Ho & Es & Em).
  destruct o as [?|?|w y']; [done..|]. injection Es as -> ->. pose proof (list_elem_of_lookup_2 _ _ _ Ho) as Hin. pose proof (Hok _ _ Ha) as Hc.
  destruct (op_word _ _ _ _ _ _ Hin) as (Ej & _). destruct (store_to _ _ _ _ _ _ _ Hp Hin) as (Hw & h & Hh & Ey). destruct (my_words_range a Hc p b t w ltac:(lia) Hb Ht Hw) as (Hwt & _).
  assert (Hv : downcast acc (th_reg th) = reduced s (g_call s p) a p w) by (unfold reduced; f_equal; by apply (mi_reg s M p a b t _ w (N - 1) Hp Ha Hb Ht Ho)).
  assert (Hhome : home y' = h) by (rewrite Ey; by apply (ok_home_out a Hc)).
  pose proof (z_together s G p h b t a _ Hp Hh Ha (Hen _ _ Ha) Hb Ht Ho) as Hsame.
  assert (Hmono : forall o, o ∈ done_ops (ops a p b t) 1 th -> o ∈ done_ops (ops a p b t) 1 (mkThread (th_seg th) rest (th_reg th))) by (intros o; apply done_stays; rewrite Em; lia).
  assert (Hnow : OStore w y' ∈ done_ops (ops a p b t) 1 (mkThread (th_seg th) rest (th_reg th))) by (rewrite <- Ej; by apply done_includes).
  split; cbn [g_call g_thread g_mem g_began].
  - intros r a' q b' t' v Hr Hq Ha' Hb' Ht' Hv' Hn. pose proof (Hok _ _ Ha') as Hc'. destruct (my_words_range a' Hc' q b' t' v ltac:(lia) Hb' Ht' Hv') as (Hvt & _).
    unfold upd. destruct (Z.eqb_spec (in_word a' r v) y') as [Ey'|]; [exfalso|].
    + assert (r = h) as -> by (rewrite <- Hhome, <- Ey'; symmetry; by apply (ok_home_in a' Hc')). rewrite Hsame in Ha'. simplify_eq.
      destruct (ok_apart a Hc h Hh) as [Eb|Hne]; [|by apply (Hne v w)]. assert (v = w) as -> by (unfold in_word, out_word, sizeof_int4 in Ey'; rewrite Eb in Ey'; lia).
      destruct (zero_word_unique a Hc q b' t' p b t w) as (-> & -> & ->); try done; try lia.
      apply (Hn (out_word a h w)). right. cbn [g_call g_thread]. split; [by rewrite Hsame|]. by rewrite set3_at.
    + apply (mi_in s M r a' q b' t' v); try done. intros x Hd. apply (Hn x). by apply z_did_stays.
  - intros r a' q b' t' v x Hr Hq Ha' Hb' Ht' Hx Hd.
    change (reduced (after (mkThread (th_seg th) rest (th_reg th)) (upd (g_mem s) y' (downcast acc (th_reg th))) inb ex)) with (reduced s).
    assert (Hd' : did s (g_call s r) a' q b' t' (OStore v x) \/ (x = y' /\ q = p /\ v = w /\ g_call s r = g_call s p /\ a' = a)).
    { destruct (z_did_after _ _ _ _ _ _ _ _ _ _ Ha' Hd) as [?|(Ek & -> & -> & -> & -> & Hdo)]; [by left|].
      destruct (done_more _ _ _ _ _ Ho (Em _) _ _ Hdo) as [?|[_ [= -> ->]]]; [left; by right|by right]. }
    unfold upd. destruct (Z.eqb_spec x y') as [->|Hne]; [|destruct Hd' as [Hd'|(? & _)]; [by apply (mi_did s M r a' q b' t')|done]].
    assert (r = h) as -> by congruence. rewrite Hv. destruct Hd' as [Hd'|(_ & -> & -> & -> & ->)]; [|done]. rewrite Hsame in Ha', Hd' |- *. simplify_eq.
    assert (Hin' : OStore v (out_word a h w) ∈ ops a q b' t' 1) by (destruct Hd' as [[_ H']|[_ H']]; [done|by apply done_ops_in in H' as [? _]]).
    destruct (store_to _ _ _ _ _ _ _ Hq Hin') as (Hv' & h' & Hh' & Ey). destruct (my_words_range a Hc q b' t' v ltac:(lia) Hb' Ht' Hv') as (Hvt & _).
    assert (h' = h) as -> by (rewrite <- Hhome, Ey; symmetry; by apply (ok_home_out a Hc)).
    assert (v = w) as -> by (unfold out_word, sizeof_int4 in Ey; lia).
    by destruct (zero_word_unique a Hc q b' t' p b t w) as (-> & _ & _); try done; try lia.
  - intros q a' b' t' o v i Hq Ha' Hb' Ht'.
    change (partial (after (mkThread (th_seg th) rest (th_reg th)) (upd (g_mem s) y' (downcast acc (th_reg th))) inb ex)) with (partial s). rewrite set3_spec. goal_decide E'.
    + destruct E' as (-> & -> & ->). simplify_eq. cbn [th_seg th_reg]. rewrite Em. intros Ho' Hn'.
      destruct (chained_next needs leaves _ _ _ _ _ (zero_chained a p b t _ None) Ho Ho') as [H|H]; rewrite Hn' in H; [done|]. injection H as -> ->.
      by apply (mi_reg s M p a b t _ w (N - 1) Hp Ha Hb Ht Ho).
    + by apply (mi_reg s M).
Qed.

Lemma z_thread_step s' : thread_step (the_kernel a) p b t s = Some s' -> minv s'.
Proof using HN Hok Hen G M Ha Hp Hb Ht.
  unfold thread_step. destruct (th_rest th) as [|[i|i|f y|g y] rest] eqn:E; intros H.
  - destruct (k_code _ p b t !! _) as [seg|] eqn:Es; [|done]. simpl in H. destruct (barrier_open _ _ _ _ _); [|done]. injection H as <-. by apply z_segment.
  - injection H as <-. by apply (z_sync (Signal i)).
  - destruct (_ <? _); [|done]. injection H as <-. by apply (z_sync (Wait i)).
  - injection H as <-. by apply z_load.
  - injection H as <-. by apply z_store.
Qed.
End thread_steps.

(** *** The next call of a rank *)

Lemma z_fresh a r b t j (th : thread D A) o : th_seg th = 0%nat -> o ∉ done_ops (ops a r b t) j th.
Proof using. intros E Ho. destruct (done_ops_in _ _ _ _ Ho) as [Hin Hj]. rewrite E in Hj. destruct (op_word _ _ _ _ _ _ Hin) as (-> & _). lia. Qed.

Lemma z_finished_did a r b t (th : thread D A) o : call_ok a -> 0 <= r < N -> 0 <= b < a_gridDim a -> 0 <= t < a_blockDim a ->
  finished (the_kernel a) r b t th = true -> o ∈ ops a r b t 1 -> o ∈ done_ops (ops a r b t) 1 th.
Proof using HN.
  intros Ha Hr Hb Ht Hf Ho. pose proof (block_works a r b t 1 o Ha ltac:(lia) Hb Ht Ho) as Hw. apply (finished_done _ (the_kernel a) r b t); [done| |done].
  rewrite (zero_code a r b t Ha Hr Hb Ht), (proj2 (Z.eqb_neq _ _) Hw). simpl. lia.
Qed.

Section next_call.
Context (s : state) (r : Z) (a a' : call).
Hypothesis G : gi s.
Hypothesis M : minv s.
Hypothesis Hr : 0 <= r < N.
Hypothesis Ha : calls !! g_call s r = Some a.
Hypothesis Ha' : calls !! Datatypes.S (g_call s r) = Some a'.
Hypothesis Hf : forall b t, 0 <= b < a_gridDim a -> 0 <= t < a_blockDim a -> finished (the_kernel a) r b t (g_thread s r b t) = true.
Notation s' := (begin_kernel host reg0 s (the_kernel a') r (Datatypes.S (g_call s r))).

Lemma z_began_same q k : q <> r \/ k <> Datatypes.S (g_call s r) -> g_began s' q k = g_began s q k.
Proof using.
  intros H. unfold begin_kernel. cbn [g_began]. unfold upd. destruct (Z.eqb_spec q r) as [->|]; [|done]. destruct (decide _); [|done]. by destruct H.
Qed.

Lemma z_partial_same k c p w i : k <> Datatypes.S (g_call s r) -> partial s' k c p w i = partial s k c p w i.
Proof using.
  intros Hk. unfold partial. rewrite z_began_same by (by right). f_equal. apply map_ext. intros j. by rewrite z_began_same by (by right).
Qed.

(** Nobody has stored in the call that the rank begins. *)
Lemma z_none_did q b t o : 0 <= q < N -> 0 <= b < a_gridDim a' -> 0 <= t < a_blockDim a' -> ~ did s' (Datatypes.S (g_call s r)) a' q b t o.
Proof using HN Hok G Hr Ha'.
  intros Hq Hb Ht Hd. pose proof (Hok _ _ Ha') as Hc. destruct (decide (q = r)) as [->|Hne].
  - destruct Hd as [[Hd _]|[_ Hd]]; unfold begin_kernel in Hd; cbn [g_call g_thread] in Hd; rewrite upd_at in Hd; [lia|]. by apply z_fresh in Hd.
  - unfold did, begin_kernel in Hd. cbn [g_call g_thread] in Hd. rewrite !upd_other in Hd by done.
    assert (Hin : o ∈ ops a' q b t 1) by (destruct Hd as [[_ H]|[_ H]]; [done|by apply done_ops_in in H as [? _]]).
    pose proof (block_works a' q b t 1 o Hc ltac:(lia) Hb Ht Hin) as Hw.
    pose proof (z_ahead s G q r b t (Datatypes.S (g_call s r)) a' Hq Hr Hne Ha' Hb Ht Hw) as H. apply Nat.nle_succ_diag_l with (g_call s r). apply H.
    destruct Hd as [[? _]|[? Hd]]; [by left|right]. split; [done|]. apply done_ops_in in Hd as [_ ?]. lia.
Qed.

Lemma z_did_before k c q b t o : calls !! k = Some c -> 0 <= q < N -> 0 <= b < a_gridDim c -> 0 <= t < a_blockDim c -> did s' k c q b t o -> did s k c q b t o.
Proof using HN Hok Hr Ha Hf.
  intros Hk Hq Hb Ht Hd. unfold did, begin_kernel in Hd. cbn [g_call g_thread] in Hd. destruct (decide (q = r)) as [->|Hne]; [|by rewrite !upd_other in Hd].
  rewrite !upd_at in Hd. destruct Hd as [[Hlt Ho]|[_ Hd]]; [|by apply z_fresh in Hd]. destruct (decide (k = g_call s r)) as [->|]; [|left; split; [lia|done]].
  simplify_eq. right. split; [done|]. apply z_finished_did; try done; [by apply (Hok (g_call s r))|]. by apply Hf.
Qed.

Lemma z_did_later k c q b t o : calls !! k = Some c -> did s k c q b t o -> did s' k c q b t o.
Proof using.
  intros Hk Hd. unfold did, begin_kernel. cbn [g_call g_thread]. destruct (decide (q = r)) as [->|Hne]; [|by rewrite !upd_other].
  rewrite !upd_at. left. destruct Hd as [[? ?]|[<- Hd]]; split; [lia|done|lia|]. by apply done_ops_in in Hd as [? _].
Qed.

Lemma z_begin : minv s'.
Proof using HN Hok Hhost G M Hr Ha Ha' Hf.
  assert (Hmem : forall x q, q <> r -> home x = q -> g_mem s' x = g_mem s x).
  { intros x q Hne Hh. unfold begin_kernel. cbn [g_mem]. apply Hhost. congruence. }
  assert (Hcall : forall q, q <> r -> g_call s' q = g_call s q) by (intros q Hne; unfold begin_kernel; cbn [g_call]; by rewrite upd_other).
  assert (Hcr : g_call s' r = Datatypes.S (g_call s r)) by (unfold begin_kernel; cbn [g_call]; by rewrite upd_at).
  assert (Hth : forall q, q <> r -> g_thread s' q = g_thread s q) by (intros q Hne; unfold begin_kernel; cbn [g_thread]; by rewrite upd_other).
  split.
  - intros q c p b t w Hq Hp Hc Hb Ht Hw Hn. destruct (decide (q = r)) as [->|Hne].
    + rewrite Hcr. unfold begin_kernel. cbn [g_mem g_began]. rewrite upd_at. by rewrite decide_True.
    + rewrite Hcall in Hc, Hn |- * by done. destruct (my_words_range c (Hok _ _ Hc) p b t w ltac:(lia) Hb Ht Hw) as (Hwt & _).
      rewrite (Hmem _ q), z_began_same; [|by left|done|by apply (ok_home_in c (Hok _ _ Hc))].
      apply (mi_in s M q c p b t w); try done. intros x Hd. apply (Hn x). by apply z_did_later.
  - intros q c p b t w x Hq Hp Hc Hb Ht Hh Hd. destruct (decide (q = r)) as [->|Hne].
    + rewrite Hcr in Hc, Hd. assert (c = a') as -> by congruence. by apply z_none_did in Hd.
    + rewrite Hcall in Hc, Hd |- * by done. rewrite (Hmem _ q) by done. destruct (decide (g_call s q = Datatypes.S (g_call s r))) as [E|].
      * rewrite E in Hc, Hd. assert (c = a') as -> by congruence. by apply z_none_did in Hd.
      * unfold reduced. rewrite z_partial_same by done. apply (mi_did s M q c p b t w); try done. by apply z_did_before.
  - intros p c b t o w i Hp Hc Hb Ht Ho Hn. destruct (decide (p = r)) as [->|Hne].
    + unfold begin_kernel in Ho. cbn [g_thread] in Ho. rewrite upd_at in Ho. done.
    + rewrite Hcall in Hc |- * by done. rewrite Hth in Ho |- * by done. rewrite z_partial_same; [by apply (mi_reg s M p c b t o w i)|].
      intros E. pose proof (list_elem_of_lookup_2 _ _ _ Ho) as Hin. pose proof (block_works c p b t _ o (Hok _ _ Hc) ltac:(lia) Hb Ht Hin) as Hw.
      destruct (op_word _ _ _ _ _ _ Hin) as (Ej & _).
      pose proof (z_ahead s G p r b t (g_call s p) c Hp Hr Hne Hc Hb Ht Hw ltac:(right; split; [done|lia])). lia.
Qed.
End next_call.

(** *** Whole runs *)

Definition both (s : state) : Prop := gi s /\ minv s.

Lemma z_step s x s' : both s -> step s x = Some s' -> both s'.
Proof using HN Hok Hhost Hen.
  intros [G M] H. split; [exact (inv_grid_step N kernels host reg0 hs_at len_at token zero_calls_structured s x s' G H)|]. destruct x as [r b t|r].
  - destruct (thread_call_spec N kernels host reg0 _ _ _ _ _ H) as (K & HK & Hr & Hb & Ht & Hs). apply zero_kernels in HK as (a & Ha & ->). by eapply (z_thread_step s r b t a).
  - destruct (next_call_spec N kernels host reg0 _ _ _ H) as (K & K' & HK & Hr & Hf & HK' & ->).
    rewrite (rank_finished_spec N kernels hs_at len_at zero_calls_structured K s r HK) in Hf.
    apply zero_kernels in HK as (a & Ha & ->). apply zero_kernels in HK' as (a' & Ha' & ->). by apply (z_begin s r a a').
Qed.

Lemma z_run l : forall s s', both s -> grid_run N kernels host reg0 s l = Some s' -> both s'.
Proof using HN Hok Hhost Hen.
  induction l as [|x l IH]; intros s s' I H; cbn [grid_run] in H; [by injection H as <-|]. destruct (step s x) as [s1|] eqn:E; [|done].
  simpl in H. exact (IH s1 s' (z_step s x s1 I E) H).
Qed.

Lemma z_initial mem : calls <> [] -> both (grid_initial kernels reg0 mem token).
Proof using HN Hok.
  intros Hne. split; [apply inv_grid_initial; [apply zero_calls_structured|clear -Hne; by destruct calls]|].
  assert (Hseg : forall r b t, th_seg (g_thread (grid_initial kernels reg0 mem token) r b t) = 0%nat) by (intros; unfold grid_initial; cbn [g_thread]; clear; by destruct (map _ calls)).
  split.
  - done.
  - intros r a p b t w x Hr Hp Hc Hb Ht _ [[Hd _]|[_ Hd]]; [unfold grid_initial in Hd; simpl in Hd; lia|by apply z_fresh in Hd].
  - intros p a b t o w i _ _ _ _ Ho. by rewrite Hseg in Ho.
Qed.

(** Every word of a finished rank's output is the reduction by its owner. *)
Lemma z_results s r a : both s -> 0 <= r < N -> calls !! g_call s r = Some a -> rank_finished (the_kernel a) s r = true ->
  forall w, 0 <= w < total a -> g_mem s (out_word a r w) = reduced s (g_call s r) a (w / per_rank a) w.
Proof using HN Hok Hen.
  intros [G M] Hr Ha Hf w Hw. pose proof (Hok _ _ Ha) as Hc. assert (HK : kernels !! g_call s r = Some (the_kernel a)) by (apply zero_kernels; by exists a).
  rewrite (rank_finished_spec N kernels hs_at len_at zero_calls_structured _ s r HK) in Hf.
  destruct (zero_word_owner a Hc w Hw) as (b & t & Hb & Ht & Hown & Hp). set (p := w / per_rank a) in *.
  apply (mi_did s M r a p b t w); try done; [by apply (ok_home_out a Hc)|]. pose proof (stores_all a p b t w r Hp Hr Hown) as Hin.
  destruct (decide (p = r)) as [E|Hne]; [rewrite E in *; right; split; [done|]; apply z_finished_did; try done; by apply Hf|].
  pose proof (index_of_range N r p Hr Hp (not_eq_sym Hne)) as Hi. pose proof (ok_grid a Hc). destruct (ok_block a Hc) as [_ Hbd].
  destruct (z_reduced s G r p (index_of r p) b t (g_call s r) a Hr Hp (not_eq_sym Hne) Ha (Hen _ _ Ha) ltac:(lia) Hb Ht) as [Hcross|[H1 H2]].
  - right. split; [done|]. pose proof (Hf 0 (index_of r p) ltac:(cbn; lia) ltac:(cbn; lia)) as Hfin.
    assert (E : length (k_code (the_kernel a) r 0 (index_of r p)) = 3%nat).
    { rewrite (zero_code a r 0 (index_of r p) Hc Hr) by lia. by rewrite (proj2 (Z.eqb_neq _ _) (first_block_works a Hc (Hen _ _ Ha))). }
    unfold finished in Hfin. unfold passed. destruct (th_rest _); [|done]. rewrite E in Hfin. apply Nat.leb_le in Hfin. destruct (th_seg _) as [|[|[|j]]]; try lia; done.
  - by left.
  - right. split; [done|]. by rewrite passed_done.
Qed.

(** ** What the calls achieve *)

(** C8: whatever the order in which the threads of all ranks run, and however far some ranks are
    ahead of others in a sequence of calls of any sizes and grids, when all threads of a rank
    have ended, every word of its output is what the rank that owns the word makes of it: the
    inputs of all ranks, as they were when these began the call, accumulated from its own on in
    the order of the ranks, so that all ranks get the same bits; in place and out of place, with
    no copy of an input. *)
Theorem zero_copy_allreduce mem l s r a : calls <> [] ->
  grid_run N kernels host reg0 (grid_initial kernels reg0 mem token) l = Some s ->
  0 <= r < N -> calls !! g_call s r = Some a -> rank_finished (the_kernel a) s r = true ->
  forall w, 0 <= w < total a -> let input q := g_began s q (g_call s r) (in_word a q w) in let owner := w / per_rank a in
    0 <= owner < N /\
    g_mem s (out_word a r w) = downcast acc (foldl (accumulate acc) (upcast acc (input owner)) (map (fun i => input ((owner + i + 1) mod N)) (threads (N - 1)))).
Proof using HN Hok Hhost Hen.
  intros Hne Hl Hr Ha Hf w Hw input owner. destruct (zero_word_owner a (Hok _ _ Ha) w Hw) as (_ & _ & _ & _ & _ & Ho). split; [done|].
  apply (z_results s r a); try done. eapply z_run; [|exact Hl]. by apply z_initial.
Qed.

Lemma zero_barriers_reached k K : kernels !! k = Some K -> grid_barriers_reached K (len_at k).
Proof using HN Hok Hen.
  intros (a & Ha & ->)%zero_kernels j b b' _ Hb Hb' Hj. cbn [k_grid] in *. unfold len_at in *. rewrite Ha in *. unfold zero_len in *.
  pose proof (every_block_works a (Hok _ _ Ha) (Hen _ _ Ha) b' Hb') as Hw. rewrite (proj2 (Z.eqb_neq _ _) Hw). destruct (per_block a b =? 0); lia.
Qed.

(** C9: no interleaving gets stuck as long as every block has a word to reduce: from wherever the
    threads of all ranks have come there is a way to the end of the last call of every rank, and
    no schedule takes more steps than a number fixed by the calls. *)
Theorem zero_copy_completes mem l s : calls <> [] ->
  let s0 := grid_initial kernels reg0 mem token in
  grid_run N kernels host reg0 s0 l = Some s ->
  exists l' s', grid_run N kernels host reg0 s0 (l ++ l') = Some s' /\ grid_complete N kernels s' /\
    (length l + length l' <= grid_left N kernels reg0 s0)%nat.
Proof using HN Hok Hhost Hen.
  intros Hne s0 Hl. assert (I : both s) by (eapply z_run; [by apply z_initial|exact Hl]). destruct I as [G _].
  destruct (grid_completes N kernels host reg0 hs_at len_at token zero_calls_structured s zero_barriers_reached G) as (l' & s' & Hl' & Hc).
  exists l', s'. split; [by rewrite machine_run_app, Hl|]. split; [done|].
  rewrite (run_left N kernels host reg0 hs_at len_at zero_calls_structured _ _ _ Hl), (run_left N kernels host reg0 hs_at len_at zero_calls_structured _ _ _ Hl'). lia.
Qed.
End enough.

(** *** A block without words *)

(** The last block has words and the first has none, so that it has left the kernel. *)
Lemma stuck_at_barrier s r k a : gi s -> 0 <= r < N -> calls !! k = Some a -> 0 < per_rank a < a_gridDim a -> g_call s r = k ->
  rank_finished (the_kernel a) s r = false.
Proof using HN Hok.
  intros G Hr Ha Hw E. apply not_true_iff_false. intros Hf. pose proof (Hok _ _ Ha) as Hc. pose proof (ok_block a Hc) as [Hbd _]. subst k.
  assert (HK : kernels !! g_call s r = Some (the_kernel a)) by (apply zero_kernels; by exists a).
  rewrite (rank_finished_spec N kernels hs_at len_at zero_calls_structured _ s r HK) in Hf. set (b := a_gridDim a - 1). assert (Hb : 0 <= b < a_gridDim a) by lia.
  assert (E0 : per_block a 0 = 0).
  { rewrite per_block_eq, (Z.div_small (per_rank a) (a_gridDim a)) by lia. destruct (Z.eqb_spec 0 (a_gridDim a - 1)); [lia|done]. }
  assert (Eb : per_block a b <> 0) by (rewrite per_block_eq; unfold b; rewrite Z.eqb_refl, Z.div_small, Z.mod_small; lia).
  pose proof (Hf b 0 ltac:(cbn; lia) ltac:(cbn; lia)) as Hlast. unfold finished in Hlast. rewrite (zero_code a r b 0 Hc Hr Hb) in Hlast by lia.
  rewrite (proj2 (Z.eqb_neq _ _) Eb) in Hlast. destruct (th_rest _); [|done]. apply Nat.leb_le in Hlast. simpl in Hlast.
  assert (Hp : passed 1 (g_thread s r 0 0) = true).
  { apply (gi_grid _ _ _ _ _ s G r b 0 0 0 (the_kernel a) 1); try done; cbn; try lia. }
  assert (Hth : thread_ok N hs_at len_at (the_kernel a) (g_call s r) r 0 0 (g_thread s r 0 0)) by (apply z_thread; try done; lia).
  destruct Hth as (_ & data & _ & Hcode & _). rewrite (zero_code a r 0 0 Hc Hr), E0 in Hcode by lia. simpl in Hcode. unfold passed in Hp.
  destruct (th_seg (g_thread s r 0 0)) as [|[|j]]; simpl in *; done.
Qed.

(** C36: with more blocks than a rank has words the kernel never ends: the blocks without words
    leave it at once, the last one waits for them at the barrier of the grid, in every
    schedule; no rank gets past such a call. *)
Theorem zero_copy_hangs mem l s r k a : grid_run N kernels host reg0 (grid_initial kernels reg0 mem token) l = Some s ->
  0 <= r < N -> calls !! k = Some a -> 0 < per_rank a < a_gridDim a ->
  (g_call s r <= k)%nat /\ (g_call s r = k -> rank_finished (the_kernel a) s r = false).
Proof using HN Hok.
  intros Hl Hr Ha Hw. assert (HK : kernels !! k = Some (the_kernel a)) by (apply zero_kernels; by exists a).
  assert (I : gi s /\ (g_call s r <= k)%nat); [|destruct I as [G ?]; split; [done|by apply stuck_at_barrier]]. revert Hl.
  assert (I0 : gi (grid_initial kernels reg0 mem token) /\ (g_call (grid_initial kernels reg0 mem token) r <= k)%nat).
  { split; [apply inv_grid_initial; [apply zero_calls_structured|]|unfold grid_initial; simpl; lia]. intros E0. by rewrite E0 in HK. }
  revert I0. generalize (grid_initial kernels reg0 mem token). clear mem. induction l as [|x l IH]; intros s1 [G1 H1] Hl; cbn [grid_run] in Hl; [by injection Hl as <-|].
  destruct (step s1 x) as [s2|] eqn:Es; [|done]. simpl in Hl. apply (IH s2); [|done]. split; [exact (inv_grid_step N kernels host reg0 hs_at len_at token zero_calls_structured s1 x s2 G1 Es)|].
  destruct x as [q b t|q].
  - destruct (thread_call_spec N kernels host reg0 _ _ _ _ _ Es) as (K & _ & _ & _ & _ & Hs). by rewrite (thread_keeps_call K q b t s1 s2 Hs).
  - destruct (next_call_spec N kernels host reg0 _ _ _ Es) as (K & K' & HK1 & Hq & Hf & _ & ->). unfold begin_kernel. cbn [g_call]. unfold upd.
    destruct (Z.eqb_spec r q) as [<-|]; [|done]. destruct (decide (g_call s1 r = k)) as [E|]; [|lia]. rewrite E, HK in HK1. injection HK1 as <-.
    by rewrite (stuck_at_barrier s1 r k a G1 Hr Ha Hw E) in Hf.
Qed.
End runs.
End calls.

(** ** Contexts, keys and launches *)

(** The handles of a context are those that the kernel expects: the inputs of the peers in the order
    of the peer indices, then their outputs. *)
Lemma zero_copy_handles N nRanksPerNode rank inputMemory outputMemory recvIn recvOut i : 0 <= rank < N -> 0 <= i < N - 1 ->
  let handles := z_remoteMemoryHandles (initAllreduceContext N nRanksPerNode rank inputMemory outputMemory recvIn recvOut) in
  handles !! Z.to_nat i = Some (data (recvIn (remoteRank rank i))) /\ handles !! Z.to_nat (N - 1 + i) = Some (data (recvOut (remoteRank rank i))).
Proof.
  intros Hr Hi handles. subst handles. unfold initAllreduceContext. cbn [z_remoteMemoryHandles]. unfold setupRemoteMemories. rewrite map_app.
  assert (Hl : forall f : Z -> Impl, length (map data (map f (peers N rank))) = Z.to_nat (N - 1)) by (intros f; rewrite !length_map; by apply peers_length).
  split.
  - rewrite lookup_app_l by (rewrite Hl; lia). rewrite map_map, list_lookup_fmap. by rewrite (peers_lookup N rank i Hr Hi).
  - rewrite lookup_app_r by (rewrite Hl; lia). rewrite Hl. replace (Z.to_nat (N - 1 + i) - Z.to_nat (N - 1))%nat with (Z.to_nat i) by lia.
    rewrite map_map, list_lookup_fmap. by rewrite (peers_lookup N rank i Hr Hi).
Qed.

(** With the adapter's own choice of a grid, a launch has a channel for every block and a thread for every peer. *)
Lemma zero_copy_launch sizeofT nRanksPerNode inputSize nBlocks nThreadsPerBlock l : adapter_call sizeofT nRanksPerNode inputSize nBlocks nThreadsPerBlock = Ok l ->
  (nRanksPerNode = 4 \/ nRanksPerNode = 8) /\ l_nelems l = inputSize / sizeofT /\
  (nBlocks = 0 \/ nThreadsPerBlock = 0 -> 0 < l_blocks l <= nChannelsPerConnection_ /\ nRanksPerNode - 1 <= l_threads l <= 1024).
Proof.
  unfold adapter_call. intros H. destruct ((nRanksPerNode =? 4) || (nRanksPerNode =? 8)) eqn:E; [|by destruct ((nBlocks =? 0) || (nThreadsPerBlock =? 0))].
  assert (Hn : nRanksPerNode = 4 \/ nRanksPerNode = 8) by (apply orb_true_iff in E as [E|E]; apply Z.eqb_eq in E; auto). split; [done|].
  destruct ((nBlocks =? 0) || (nThreadsPerBlock =? 0)) eqn:E0; injection H as <-; simpl.
  - split; [done|]. intros _. unfold nChannelsPerConnection_. destruct (2 ^ 26 <=? inputSize); lia.
  - split; [done|]. apply orb_false_iff in E0 as [?%Z.eqb_neq ?%Z.eqb_neq]. lia.
Qed.

(** *** Four ranks *)

Definition four_sum : accumulator Z Z := mkAccumulator Z Z id Z.add id.
Definition four_home (x : Z) : Z := x / 10000.
(** Between calls a rank changes all of its memory. *)
Definition four_host (r : Z) (n : nat) (m : Z -> Z) : Z -> Z := fun x => if four_home x =? r then m x + 7 else m x.
Definition four_memory (f : Z -> Z) (r : Z) : Impl := mkImpl (f r) (f r) 128 1 1 (TransportFlags_of CudaIpc) [].
(** What the context for these buffers has. *)
Definition four_handles (buff out : Z -> Z) (r : Z) : list Z :=
  z_remoteMemoryHandles (initAllreduceContext 4 4 r (four_memory buff r) (four_memory out r) (four_memory buff) (four_memory out)).
Definition four_call (nelems gridDim blockDim : Z) (buff out : Z -> Z) : call := mkCall nelems 4 gridDim blockDim buff out (four_handles buff out).

(** Eight words out of place with two blocks, then four in place with one. *)
Definition four_first : call := four_call 29 2 4 (fun r => 10000 * r) (fun r => 10000 * r + 1008).
Definition four_second : call := four_call 16 1 3 (fun r => 10000 * r + 2000) (fun r => 10000 * r + 2000).
Definition four_calls : list call := [four_first; four_second].
Definition four_kernels : list (kernel Z Z) := map (zero_copy_kernel four_sum 4) four_calls.
Definition four_initial (calls : list call) : grid_state Z Z := grid_initial (map (zero_copy_kernel four_sum 4) calls) 0 (fun x => x) (fun _ _ _ => 0).
Definition four_actions : list grid_action :=
  let all := concat (map (fun r => concat (map (fun b => map (GThread r b) (threads 4)) (threads 2))) (threads 4)) in
  concat (repeat all 16) ++ map GNext (threads 4) ++ concat (repeat all 16).
Definition four_swept (calls : list call) := grid_sweep 4 (map (zero_copy_kernel four_sum 4) calls) four_host 0 (four_initial calls) four_actions.

Lemma four_handles_ok buff out r i : 0 <= r < 4 -> 0 <= i < 4 - 1 ->
  four_handles buff out r !! Z.to_nat i = Some (buff (remoteRank r i)) /\ four_handles buff out r !! Z.to_nat (4 - 1 + i) = Some (out (remoteRank r i)).
Proof. intros Hr Hi. exact (zero_copy_handles 4 4 r (four_memory buff r) (four_memory out r) (four_memory buff) (four_memory out) i Hr Hi). Qed.

Lemma four_home_at r x : 0 <= x < 10000 -> four_home (10000 * r + x) = r.
Proof. intros Hx. unfold four_home. symmetry. apply (Z.div_unique _ _ _ x); [by left|done]. Qed.

(** Two blocks for one word. *)
Definition four_small : call := four_call 4 2 4 (fun r => 10000 * r) (fun r => 10000 * r + 1008).

(** Multiples of 16. *)
Lemma four_aligned x r c : x = 16 * (625 * r + c) -> x mod sizeof_int4 = 0.
Proof. intros ->. unfold sizeof_int4. rewrite Z.mul_comm. by apply Z.mod_mul. Qed.

Ltac four_align := intros r _; cbn [a_buff a_resultBuff four_first four_second four_small four_call]; split; first [apply (four_aligned _ r 0); lia|apply (four_aligned _ r 63); lia|apply (four_aligned _ r 125); lia].

Lemma four_ok k a : four_calls !! k = Some a -> call_ok 4 four_home a.
Proof.
  assert (T1 : total four_first = 8) by by vm_compute. assert (T2 : total four_second = 4) by by vm_compute.
  intros H. destruct k as [|[|k]]; simpl in H; [injection H as <-|injection H as <-|done].
  all: split; try (cbn; lia); try (intros; by apply four_handles_ok); try four_align; rewrite ?T1, ?T2; unfold in_word, out_word, sizeof_int4;
    cbn [a_buff a_resultBuff four_first four_second four_call]; try (intros r w Hr Hw; rewrite <- ?Z.add_assoc; apply four_home_at; lia).
  intros r Hr. right. intros. lia.
Qed.

Lemma four_enough k a : four_calls !! k = Some a -> enough_words 4 a.
Proof. intros H. destruct k as [|[|k]]; simpl in H; [injection H as <-|injection H as <-|done]; by vm_compute. Qed.

Lemma four_host_ok r n m x : four_home x <> r -> four_host r n m x = m x.
Proof. unfold four_host. by intros ->%Z.eqb_neq. Qed.

Lemma zero_copy_allreduce_witness : let s := (four_swept four_calls).2 in
  g_call s 2 = 1%nat /\ g_mem s (out_word four_second 2 1) = 68092 /\
  let input q := g_began s q (g_call s 2) (in_word four_second q 1) in
  g_mem s (out_word four_second 2 1) = input 1 + input 2 + input 3 + input 0.
Proof.
  intros s. split; [by vm_compute|]. split; [by vm_compute|].
  assert (Hw : 0 <= 1 < total four_second) by (clear; by vm_compute). assert (Ew : 1 / per_rank 4 four_second = 1) by (clear; by vm_compute).
  assert (Hc : four_calls !! g_call s 2 = Some four_second) by by vm_compute.
  assert (Hf : rank_finished (zero_copy_kernel four_sum 4 four_second) s 2 = true) by by vm_compute.
  assert (Hrun : grid_run 4 (map (zero_copy_kernel four_sum 4) four_calls) four_host 0 (four_initial four_calls) (four_swept four_calls).1 = Some s)
    by exact (grid_sweep_run 4 four_kernels four_host 0 four_actions (four_initial four_calls)).
  clearbody s.
  pose proof (zero_copy_allreduce four_sum 4 four_home ltac:(lia) four_calls four_host 0 (fun _ _ _ => 0) four_ok four_host_ok four_enough
    (fun x => x) _ s 2 four_second ltac:(done) Hrun ltac:(lia) Hc Hf 1 Hw) as [_ H].
  rewrite Ew in H. exact H.
Defined.

Lemma zero_copy_completes_witness : let s0 := four_initial four_calls in
  exists l' s', grid_run 4 four_kernels four_host 0 s0 (GThread 0 0 0 :: l') = Some s' /\ grid_complete 4 four_kernels s' /\ (S (length l') <= 308)%nat.
Proof.
  intros s0.
  destruct (zero_copy_completes four_sum 4 four_home ltac:(lia) four_calls four_host 0 (fun _ _ _ => 0) four_ok four_host_ok four_enough
    (fun x => x) [GThread 0 0 0] _ ltac:(done) eq_refl) as (l' & s' & H1 & H2 & H3).
  exists l', s'. split; [exact H1|]. split; [exact H2|].
  assert (E : grid_left 4 four_kernels 0 s0 = 308%nat) by by vm_compute.
  change (S (length l') <= grid_left 4 four_kernels 0%Z s0)%nat in H3. rewrite E in H3. exact H3.
Defined.

Lemma four_small_ok k a : [four_small] !! k = Some a -> call_ok 4 four_home a.
Proof.
  assert (T : total four_small = 1) by by vm_compute. intros H. destruct k as [|k]; simpl in H; [injection H as <-|done].
  split; try (cbn; lia); try (intros; by apply four_handles_ok); try four_align; rewrite ?T; unfold in_word, out_word, sizeof_int4;
    cbn [a_buff a_resultBuff four_small four_call]; try (intros r w Hr Hw; rewrite <- ?Z.add_assoc; apply four_home_at; lia).
  intros r Hr. right. intros. lia.
Qed.

Lemma zero_copy_hangs_witness : let s := (four_swept [four_small]).2 in
  per_rank 4 four_small = 1 /\ rank_finished (zero_copy_kernel four_sum 4 four_small) s 3 = false.
Proof.
  intros s. split; [by vm_compute|].
  destruct (zero_copy_hangs four_sum 4 four_home ltac:(lia) [four_small] four_host 0 (fun _ _ _ => 0) four_small_ok
    (fun x => x) (four_swept [four_small]).1 s 3 0 four_small (grid_sweep_run 4 _ four_host 0 four_actions (four_initial [four_small]))
    ltac:(lia) eq_refl ltac:(by vm_compute)) as [_ H].
  apply H. by vm_compute.
Defined.

(** *** Two inputs in one allocation *)

Definition four_range (f : Z -> Z) (r : Z) : Z * Z := (f r, 1000).
Definition four_other : call := mkCall 16 4 1 3 (fun r => 10000 * r + 512) (fun r => 10000 * r + 1008) (four_handles (fun r => 10000 * r) (fun r => 10000 * r + 1008)).

(** With symmetric memory the key of a context is the allocation of the input, and a call with
    another input in the same allocation, for which the context is the one that the first call
    has set up, reduces the peers' words at the place of the first input. *)
Theorem zero_copy_stale_context :
  (forall r tag, let key a := generateAllreduceContextKey tag true (a_buff a r) (a_resultBuff a r) 64 (four_range (fun r => 10000 * r) r) (four_range (fun r => 10000 * r + 1008) r) in
    key four_other = key four_first) /\
  a_remoteMemories four_other = a_remoteMemories four_first /\
  exists l s, grid_run 4 (map (zero_copy_kernel four_sum 4) [four_first; four_other]) four_host 0 (four_initial [four_first; four_other]) l = Some s /\
    g_call s 0 = 1%nat /\ rank_finished (zero_copy_kernel four_sum 4 four_other) s 0 = true /\
    let input q := g_began s q 1 (in_word four_other q 0) in g_mem s (out_word four_other 0 0) <> input 0 + input 1 + input 2 + input 3.
Proof.
  split; [done|]. split; [done|]. exists (four_swept [four_first; four_other]).1, (four_swept [four_first; four_other]).2.
  split; [exact (grid_sweep_run 4 _ four_host 0 four_actions (four_initial [four_first; four_other]))|]. split; [by vm_compute|]. split; by vm_compute.
Qed.
