(* ===== verification/GpuIpcMem.v ===== *)
(** * GPU memory between processes

    Models src/core/gpu_ipc_mem.cc: the handles that a process makes of its GPU memory
    ([GpuIpcMemHandle]), their import by another process ([GpuIpcMem]), mapping, multicast
    memory, and the release of all of it.

    The driver is what its calls answer, given as a record per operation; its state is
    what the process holds: references to allocations, descriptors, address ranges,
    mappings.  Allocations are named by numbers, and the driver's handle of an
    allocation is its name.  Destructors and deleters run where the code has them, also
    when an exception passes. *)

From S2P Require Import Prelude Errors Core RegisteredMemory.
Local Open Scope Z_scope.

(** ** The driver *)

(** What the process holds. *)
Record world := mkWorld {
  w_refs : list Z;                  (* references to allocations *)
  w_fds : gmap Z Z;                 (* descriptors, and the allocation each exports *)
  w_registered : gset Z;            (* UnixSocketServer::fdSet_ *)
  w_reserved : gmap Z Z;            (* reserved address ranges: base to size *)
  w_mapped : gmap Z (Z * Z);        (* mapped ranges: base to size and allocation *)
  w_opened : list (Z * Z);          (* opened by cudaIpcOpenMemHandle: base and allocation *)
  w_bound : list (Z * Z * Z);       (* multicast bindings: allocation, offset, size *)
  w_cache : gmap (list Z) Z         (* openCudaIpcMemHandleMap *)
}.

Inductive CUresult := CUDA_SUCCESS | CUDA_ERROR_NOT_SUPPORTED | CUDA_ERROR_NOT_PERMITTED | CUDA_ERROR_INVALID_VALUE | CUDA_ERROR_OTHER.

(** Computations that throw, and change what the process holds. *)
Definition M (A : Type) : Type := world -> result A * world.
#[export] Instance M_ret : MRet M := fun A a w => (Ok a, w).
#[export] Instance M_bind : MBind M := fun A B k m w =>
  match m w with (Ok a, w) => k a w | (Throw e, w) => (Throw e, w) end.

Definition throw {A} (e : exn) : M A := fun w => (Throw e, w).
Definition modify (f : world -> world) : M () := fun w => (Ok tt, f w).

(** [MSCCLPP_CUTHROW], [MSCCLPP_CUDATHROW]. *)
Definition cu_throw (r : CUresult) : M () := match r with CUDA_SUCCESS => mret tt | _ => throw ECuError end.
Definition cuda_throw (ok : bool) : M () := if ok then mret tt else throw ECudaError.

(** Run [cleanup] when an exception leaves [body]. *)
Definition unwinding {A} (cleanup : M ()) (body : M A) : M A := fun w =>
  match body w with
  | (Ok a, w) => (Ok a, w)
  | (Throw e, w) => (Throw e, (cleanup w).2)
  end.

Definition set_refs (f : list Z -> list Z) : M () := modify (fun w =>
  mkWorld (f (w_refs w)) (w_fds w) (w_registered w) (w_reserved w) (w_mapped w) (w_opened w) (w_bound w) (w_cache w)).
Definition set_fds (f : gmap Z Z -> gmap Z Z) : M () := modify (fun w =>
  mkWorld (w_refs w) (f (w_fds w)) (w_registered w) (w_reserved w) (w_mapped w) (w_opened w) (w_bound w) (w_cache w)).
Definition set_registered (f : gset Z -> gset Z) : M () := modify (fun w =>
  mkWorld (w_refs w) (w_fds w) (f (w_registered w)) (w_reserved w) (w_mapped w) (w_opened w) (w_bound w) (w_cache w)).
Definition set_reserved (f : gmap Z Z -> gmap Z Z) : M () := modify (fun w =>
  mkWorld (w_refs w) (w_fds w) (w_registered w) (f (w_reserved w)) (w_mapped w) (w_opened w) (w_bound w) (w_cache w)).
Definition set_mapped (f : gmap Z (Z * Z) -> gmap Z (Z * Z)) : M () := modify (fun w =>
  mkWorld (w_refs w) (w_fds w) (w_registered w) (w_reserved w) (f (w_mapped w)) (w_opened w) (w_bound w) (w_cache w)).
Definition set_opened (f : list (Z * Z) -> list (Z * Z)) : M () := modify (fun w =>
  mkWorld (w_refs w) (w_fds w) (w_registered w) (w_reserved w) (w_mapped w) (f (w_opened w)) (w_bound w) (w_cache w)).
Definition set_bound (f : list (Z * Z * Z) -> list (Z * Z * Z)) : M () := modify (fun w =>
  mkWorld (w_refs w) (w_fds w) (w_registered w) (w_reserved w) (w_mapped w) (w_opened w) (f (w_bound w)) (w_cache w)).
Definition set_cache (f : gmap (list Z) Z -> gmap (list Z) Z) : M () := modify (fun w =>
  mkWorld (w_refs w) (w_fds w) (w_registered w) (w_reserved w) (w_mapped w) (w_opened w) (w_bound w) (f (w_cache w))).

(** [cuMemRetainAllocationHandle] and the calls that make or import an allocation;
    [cuMemRelease]. *)
Definition retain (alloc : Z) : M () := set_refs (cons alloc).
Definition release (alloc : Z) : M () := set_refs (remove_one alloc).
Definition open_fd (fd alloc : Z) : M () := set_fds (insert fd alloc).
Definition close_fd (fd : Z) : M () := set_fds (delete fd).

(** [UnixSocketServer::registerFd], [unregisterFd]. *)
Definition registerFd (fd : Z) : M Z := fun w =>
  if decide (fd ∈ w_registered w) then (Throw (EError InvalidUsage), w)
  else (_ ← set_registered (fun s => {[fd]} ∪ s); mret fd) w.
Definition unregisterFd (fd : Z) : M () := set_registered (fun s => s ∖ {[fd]}).

(** ** Handles *)

Definition has_type (h : GpuIpcMemHandle) (t : Z) : bool := negb (Z.land (typeFlags h) t =? 0).

Definition add_type (h : GpuIpcMemHandle) (t : Z) : GpuIpcMemHandle :=
  mkGpuIpcMemHandle (Z.lor (typeFlags h) t) (baseSize h) (offsetFromBase h) (runtimeIpc h) (posix_pid h) (posix_fd h)
    (fabric_handle h) (fabric_allocHandle h).
Definition set_runtime (h : GpuIpcMemHandle) (handle : list Z) : GpuIpcMemHandle :=
  mkGpuIpcMemHandle (typeFlags h) (baseSize h) (offsetFromBase h) handle (posix_pid h) (posix_fd h) (fabric_handle h) (fabric_allocHandle h).
Definition set_posix (h : GpuIpcMemHandle) (pid fd : Z) : GpuIpcMemHandle :=
  mkGpuIpcMemHandle (typeFlags h) (baseSize h) (offsetFromBase h) (runtimeIpc h) pid fd (fabric_handle h) (fabric_allocHandle h).
Definition set_fabric (h : GpuIpcMemHandle) (handle : list Z) : GpuIpcMemHandle :=
  mkGpuIpcMemHandle (typeFlags h) (baseSize h) (offsetFromBase h) (runtimeIpc h) (posix_pid h) (posix_fd h) handle (fabric_allocHandle h).
Definition set_allocHandle (h : GpuIpcMemHandle) (alloc : Z) : GpuIpcMemHandle :=
  mkGpuIpcMemHandle (typeFlags h) (baseSize h) (offsetFromBase h) (runtimeIpc h) (posix_pid h) (posix_fd h) (fabric_handle h) alloc.

(** [new GpuIpcMemHandle()], of a memory of some size. *)
Definition new_handle (size offset : Z) : GpuIpcMemHandle :=
  mkGpuIpcMemHandle Type_None size offset (replicate 64 0) 0 (-1) (replicate 64 0) 0.

Definition deleter (h : GpuIpcMemHandle) : M () :=
  _ ← (if has_type h Type_PosixFd then _ ← unregisterFd (posix_fd h); close_fd (posix_fd h) else mret tt);
  if has_type h Type_Fabric && negb (fabric_allocHandle h =? 0) then release (fabric_allocHandle h) else mret tt.

(** Exporting as a file descriptor: what [cuMemExportToShareableHandle] gives. *)
Definition export_posix (pid : Z) (h : GpuIpcMemHandle) (alloc : Z) (fileDesc : option Z) : M GpuIpcMemHandle :=
  match fileDesc with
  | Some fd =>
      _ ← open_fd fd alloc;
      fd ← unwinding (deleter h) (registerFd fd);
      mret (add_type (set_posix h pid fd) Type_PosixFd)
  | None => mret h
  end.

(** What the driver answers [create]; [ca_alloc]: the allocation behind the pointer. *)
Record create_answers := mkCreateAnswers {
  ca_range : option (Z * Z);        (* cuMemGetAddressRange: base and size *)
  ca_ipc : option (list Z);         (* cudaIpcGetMemHandle *)
  ca_alloc : Z; ca_retain : CUresult;
  ca_posix : option Z; ca_fabric : option (list Z); ca_retain2 : CUresult; ca_release : CUresult
}.

Definition create (hip : bool) (pid : Z) (d : create_answers) (ptr : Z) : M GpuIpcMemHandle :=
  match ca_range d with
  | None => throw ECuError
  | Some (basePtr, sz) =>
      if sz =? 0 then mret (new_handle 0 0) else
      let h := new_handle sz (u64 (ptr - basePtr)) in
      let h := match ca_ipc d with Some handle => add_type (set_runtime h handle) Type_RuntimeIpc | None => h end in
      if hip then mret h else
      match ca_retain d with
      | CUDA_ERROR_NOT_SUPPORTED | CUDA_ERROR_INVALID_VALUE => mret h
      | CUDA_SUCCESS =>
          _ ← retain (ca_alloc d);
          h ← export_posix pid h (ca_alloc d) (ca_posix d);
          h ← match ca_fabric d with
              | Some handle =>
                  let h := set_fabric h handle in
                  _ ← unwinding (deleter h) (cu_throw (ca_retain2 d));
                  _ ← retain (ca_alloc d);
                  mret (add_type (set_allocHandle h (ca_alloc d)) Type_Fabric)
              | None => mret h
              end;
          _ ← unwinding (deleter h) (cu_throw (ca_release d));
          _ ← release (ca_alloc d);
          mret h
      | _ => unwinding (deleter h) (throw ECuError)
      end
  end.

(** *** Fabric handles *)

Record fabric_answers := mkFabricAnswers {
  fa_device : CUresult; fa_supported : CUresult * bool; fa_granularity : CUresult;
  fa_create : CUresult; fa_alloc : Z; fa_release : CUresult
}.

(** The cache is a static variable. *)
Definition isFabricMemHandleAvailable (nvls_api : bool) (resultCache : option bool) (d : fabric_answers) : M (bool * option bool) :=
  if negb nvls_api then mret (false, resultCache) else
  match resultCache with
  | Some r => mret (r, resultCache)
  | None =>
      _ ← cu_throw (fa_device d);
      _ ← cu_throw (fa_supported d).1;
      if negb (fa_supported d).2 then mret (false, Some false) else
      _ ← cu_throw (fa_granularity d);
      match fa_create d with
      | CUDA_ERROR_NOT_PERMITTED | CUDA_ERROR_NOT_SUPPORTED => mret (false, Some false)
      | CUDA_SUCCESS =>
          _ ← retain (fa_alloc d);
          _ ← cu_throw (fa_release d);
          _ ← release (fa_alloc d);
          mret (true, Some true)
      | _ => throw ECuError
      end
  end.

Record multicast_answers := mkMulticastAnswers {
  ma_fabric : fabric_answers; ma_granularity : CUresult * Z; ma_create : CUresult; ma_alloc : Z;
  ma_posix : option Z; ma_fabricHandle : option (list Z); ma_release : CUresult
}.

Definition createMulticast (nvls_api : bool) (pid : Z) (resultCache : option bool) (d : multicast_answers) (bufferSize numDevices : Z)
    : M (GpuIpcMemHandle * option bool) :=
  if negb nvls_api then throw (EError InvalidUsage) else
  if bufferSize =? 0 then throw (EError InvalidUsage) else
  if numDevices <? 1 then throw (EError InvalidUsage) else
  '(isFabricAvailable, resultCache) ← isFabricMemHandleAvailable nvls_api resultCache (ma_fabric d);
  _ ← cu_throw (ma_granularity d).1;
  let recMcGran := (ma_granularity d).2 in
  let size := u64 (u64 (bufferSize + recMcGran - 1) / recMcGran * recMcGran) in
  _ ← cu_throw (ma_create d);
  _ ← retain (ma_alloc d);
  let h := new_handle size 0 in
  h ← export_posix pid h (ma_alloc d) (ma_posix d);
  let h := match ma_fabricHandle d with
           | Some handle => if (isFabricAvailable : bool) then set_allocHandle (add_type (set_fabric h handle) Type_Fabric) (ma_alloc d) else h
           | None => h
           end in
  if typeFlags h =? Type_None then (_ ← release (ma_alloc d); throw (EError SystemError)) else
  _ ← (if has_type h Type_Fabric then mret tt
       else _ ← unwinding (deleter h) (cu_throw (ma_release d)); release (ma_alloc d) : M ());
  mret (h, resultCache).

(** ** Imported memory *)

Record GpuIpcMem := mkGpuIpcMem { g_handle : GpuIpcMemHandle; g_allocHandle : Z; g_multicastAddedDeviceId : Z; g_type : Z }.

(** [ia_request]: what [UnixSocketClient::requestFd] does; [ia_file]: the allocation
    that the descriptor it returns exports. *)
Record import_answers := mkImportAnswers {
  ia_fabric : option Z; ia_request : result Z; ia_file : Z; ia_posix : bool
}.

Definition GpuIpcMem_create (d : import_answers) (handle : GpuIpcMemHandle) : M GpuIpcMem :=
  if typeFlags handle =? Type_None then throw (EError InvalidUsage) else
  let g := mkGpuIpcMem handle 0 (-1) Type_None in
  g ← (if has_type handle Type_Fabric then
         match ia_fabric d with
         | Some alloc => _ ← retain alloc; mret (mkGpuIpcMem (set_allocHandle handle 0) alloc (-1) Type_Fabric)
         | None => mret g
         end
       else mret g);
  g ← (if (g_type g =? Type_None) && has_type handle Type_PosixFd then
         match ia_request d with
         | Throw e => throw e
         | Ok fileDesc =>
             _ ← open_fd fileDesc (ia_file d);
             g ← (if ia_posix d then _ ← retain (ia_file d); mret (mkGpuIpcMem (g_handle g) (ia_file d) (-1) Type_PosixFd)
                  else mret g);
             _ ← close_fd fileDesc;
             mret g
         end
       else mret g);
  let g := if (g_type g =? Type_None) && has_type handle Type_RuntimeIpc
           then mkGpuIpcMem (g_handle g) (g_allocHandle g) (-1) Type_RuntimeIpc else g in
  if g_type g =? Type_None then throw (EError Aborted) else mret g.

Definition GpuIpcMem_destroy (g : GpuIpcMem) : M () :=
  if (g_type g =? Type_PosixFd) || (g_type g =? Type_Fabric) then release (g_allocHandle g) else mret tt.

(** *** Mapping *)

(** [mp_alloc]: the allocation of the runtime's handle. *)
Record map_answers := mkMapAnswers {
  mp_open : option Z; mp_alloc : Z;
  mp_pageSize : Z; mp_device : bool; mp_granularity : CUresult;
  mp_reserve : option Z; mp_map : CUresult; mp_access : CUresult
}.

(** What the deleter of a mapping keeps. *)
Inductive mapping := MIpc (basePtr : Z) (ipcHandle : list Z) | MRange (basePtr baseSize : Z).

Definition cudaIpcOpenMemHandle (d : map_answers) : M Z :=
  match mp_open d with
  | Some base => _ ← set_opened (cons (base, mp_alloc d)); mret base
  | None => throw ECudaError
  end.

Fixpoint close_one (base : Z) (l : list (Z * Z)) : list (Z * Z) :=
  match l with [] => [] | x :: l' => if x.1 =? base then l' else x :: close_one base l' end.
Definition cudaIpcCloseMemHandle (base : Z) : M () := set_opened (close_one base).

(** On HIP open handles are cached. *)
Definition cudaIpcOpenMemHandleWrapper (hip : bool) (d : map_answers) (ipcHandle : list Z) : M Z :=
  if hip then
    fun w => match w_cache w !! ipcHandle with
             | Some addr => (Ok addr, w)
             | None => (addr ← cudaIpcOpenMemHandle d; _ ← set_cache (insert ipcHandle addr); mret addr) w
             end
  else cudaIpcOpenMemHandle d.

Definition cudaIpcCloseMemHandleWrapper (hip : bool) (addr : Z) (ipcHandle : list Z) : M () :=
  if hip then _ ← set_cache (delete ipcHandle); cudaIpcCloseMemHandle addr else cudaIpcCloseMemHandle addr.

Definition map (hip : bool) (d : map_answers) (g : GpuIpcMem) : M (Z * mapping) :=
  let h := g_handle g in
  if g_type g =? Type_None then throw (EError InvalidUsage) else
  if g_type g =? Type_RuntimeIpc then
    basePtr ← cudaIpcOpenMemHandleWrapper hip d (runtimeIpc h);
    mret (basePtr + offsetFromBase h, MIpc basePtr (runtimeIpc h))
  else if negb (baseSize h mod mp_pageSize d =? 0) then throw (EError InvalidUsage) else
  _ ← cuda_throw (mp_device d);
  _ ← cu_throw (mp_granularity d);
  match mp_reserve d with
  | None => throw ECuError
  | Some base =>
      _ ← set_reserved (insert base (baseSize h));
      _ ← cu_throw (mp_map d);
      _ ← set_mapped (insert base (baseSize h, g_allocHandle g));
      _ ← cu_throw (mp_access d);
      mret (base + offsetFromBase h, MRange base (baseSize h))
  end.

(** The deleter of the pointer that [map] returns. *)
Definition unmap (hip : bool) (m : mapping) : M () :=
  match m with
  | MIpc basePtr ipcHandle => cudaIpcCloseMemHandleWrapper hip basePtr ipcHandle
  | MRange basePtr _ => _ ← set_mapped (delete basePtr); set_reserved (delete basePtr)
  end.

(** The last reference to an imported and mapped memory goes. *)
Definition release_mapping (hip : bool) (g : GpuIpcMem) (m : mapping) : M () := _ ← unmap hip m; GpuIpcMem_destroy g.

(** *** Multicast mapping *)

Record multimap_answers := mkMultimapAnswers {
  mm_device : option Z; mm_add : CUresult; mm_granularity : CUresult * Z; mm_isCuMemMap : result bool;
  mm_bind : CUresult; mm_reserve : option Z; mm_map : CUresult; mm_access : CUresult
}.

(** The object and its device: memory of one device is bound through one object. *)
Definition add_device (nvls_api : bool) (d : multimap_answers) (g : GpuIpcMem) : M GpuIpcMem :=
  if negb nvls_api then throw (EError InvalidUsage) else
  if negb (g_type g =? Type_PosixFd) && negb (g_type g =? Type_Fabric) then throw (EError InvalidUsage) else
  match mm_device d with
  | None => throw ECudaError
  | Some deviceId =>
      if g_multicastAddedDeviceId g =? -1 then
        _ ← cu_throw (mm_add d); mret (mkGpuIpcMem (g_handle g) (g_allocHandle g) deviceId (g_type g))
      else if negb (g_multicastAddedDeviceId g =? deviceId) then throw (EError InvalidUsage)
      else mret g
  end.

(** What the deleter of a multicast mapping keeps. *)
Record multimapping := mkMultimapping { mu_ptr : Z; mu_mapSize : Z; mu_alloc : Z; mu_offset : Z; mu_size : Z }.

Definition bind_and_map (d : multimap_answers) (g : GpuIpcMem) (mcOffset bufferAddr bufferSize : Z) : M (Z * multimapping) :=
  _ ← cu_throw (mm_granularity d).1;
  let minMcGran := (mm_granularity d).2 in
  match mm_isCuMemMap d with
  | Throw e => throw e
  | Ok mapped =>
      if negb mapped then throw (EError InvalidUsage) else
      if negb (bufferAddr mod minMcGran =? 0) then throw (EError InvalidUsage) else
      if bufferSize =? 0 then throw (EError InvalidUsage) else
      if negb (bufferSize mod minMcGran =? 0) then throw (EError InvalidUsage) else
      _ ← cu_throw (mm_bind d);
      _ ← set_bound (cons (g_allocHandle g, mcOffset, bufferSize));
      let mapSize := u64 (mcOffset + bufferSize) in
      match mm_reserve d with
      | None => throw ECuError
      | Some mcPtr =>
          _ ← set_reserved (insert mcPtr mapSize);
          _ ← cu_throw (mm_map d);
          _ ← set_mapped (insert mcPtr (mapSize, g_allocHandle g));
          _ ← cu_throw (mm_access d);
          mret (mcPtr + mcOffset, mkMultimapping mcPtr mapSize (g_allocHandle g) mcOffset bufferSize)
      end
  end.

(** The device stays added when a later call throws. *)
Definition mapMulticast (nvls_api : bool) (d : multimap_answers) (g : GpuIpcMem) (mcOffset bufferAddr bufferSize : Z) (w : world)
    : result (Z * multimapping) * GpuIpcMem * world :=
  match add_device nvls_api d g w with
  | (Throw e, w) => (Throw e, g, w)
  | (Ok g, w) => let '(r, w) := bind_and_map d g mcOffset bufferAddr bufferSize w in (r, g, w)
  end.

(** [device]: whether the current device is found. *)
Definition unmapMulticast (device : bool) (m : multimapping) : M () :=
  _ ← set_mapped (delete (mu_ptr m));
  _ ← set_reserved (delete (mu_ptr m));
  if device then set_bound (remove_one (mu_alloc m, mu_offset m, mu_size m)) else mret tt.

(** ** Lemmas *)

(** Run a computation up to the calls whose outcome is not known. *)
Ltac run := cbv beta iota zeta delta [mbind mret M_bind M_ret modify throw cu_throw cuda_throw unwinding retain release open_fd close_fd
  set_refs set_fds set_registered set_reserved set_mapped set_opened set_bound set_cache unregisterFd];
  cbn [w_refs w_fds w_registered w_reserved w_mapped w_opened w_bound w_cache].

(** Address [x] of the process is byte [off] of the allocation. *)
Definition denotes (w : world) (x alloc off : Z) : Prop :=
  (exists base size, w_mapped w !! base = Some (size, alloc) /\ x = base + off) \/
  (exists base, (base, alloc) ∈ w_opened w /\ x = base + off).

Lemma world_eq w w' : w_refs w = w_refs w' -> w_fds w = w_fds w' -> w_registered w = w_registered w' -> w_reserved w = w_reserved w' ->
  w_mapped w = w_mapped w' -> w_opened w = w_opened w' -> w_bound w = w_bound w' -> w_cache w = w_cache w' -> w = w'.
Proof. destruct w, w'. simpl. by intros -> -> -> -> -> -> -> ->. Qed.

Lemma register_unregister (s : gset Z) x : x ∉ s -> ({[x]} ∪ s) ∖ {[x]} = s.
Proof. set_solver. Qed.

(** The descriptor an export gives is a new one. *)
Definition new_fd (w : world) (fd : option Z) : Prop :=
  match fd with Some fd => w_fds w !! fd = None /\ fd ∉ w_registered w | None => True end.

(** What an export adds. *)
Definition with_posix (fd : option Z) (alloc : Z) (w : world) : world :=
  match fd with
  | Some fd => mkWorld (w_refs w) (<[fd := alloc]> (w_fds w)) ({[fd]} ∪ w_registered w) (w_reserved w) (w_mapped w) (w_opened w) (w_bound w) (w_cache w)
  | None => w
  end.
Definition posix_handle (pid : Z) (h : GpuIpcMemHandle) (fd : option Z) : GpuIpcMemHandle :=
  match fd with Some fd => add_type (set_posix h pid fd) Type_PosixFd | None => h end.

Lemma registerFd_ok fd w : fd ∉ w_registered w ->
  registerFd fd w = (Ok fd, mkWorld (w_refs w) (w_fds w) ({[fd]} ∪ w_registered w) (w_reserved w) (w_mapped w) (w_opened w) (w_bound w) (w_cache w)).
Proof. intros H. unfold registerFd. by rewrite decide_False. Qed.

Lemma export_posix_ok pid h alloc fd w : new_fd w fd ->
  export_posix pid h alloc fd w = (Ok (posix_handle pid h fd), with_posix fd alloc w).
Proof. destruct fd as [fd|]; [|done]. intros [_ Hn]. unfold export_posix. run. by rewrite registerFd_ok. Qed.

Definition with_ref (alloc : Z) (w : world) : world :=
  mkWorld (alloc :: w_refs w) (w_fds w) (w_registered w) (w_reserved w) (w_mapped w) (w_opened w) (w_bound w) (w_cache w).

(** The deleter takes back what an export, and a reference, have added. *)
Lemma deleter_posix pid h fd alloc w : new_fd w fd -> has_type h Type_PosixFd = false -> has_type h Type_Fabric = false ->
  deleter (posix_handle pid h fd) (with_posix fd alloc w) = (Ok tt, w).
Proof.
  intros Hn H2 H4. unfold deleter, has_type in *. apply negb_false_iff, Z.eqb_eq in H2, H4.
  unfold Type_PosixFd, Type_Fabric in *. destruct fd as [fd|].
  - destruct Hn as [Hf Hr]. unfold posix_handle, add_type. cbn [typeFlags posix_fd fabric_allocHandle set_posix]. unfold Type_PosixFd.
    rewrite !Z.land_lor_distr_l, H2, H4.
    change (Z.lor 0 (Z.land 2 2) =? 0) with false. change (Z.lor 0 (Z.land 2 4) =? 0) with true. cbn [negb andb]. run. f_equal. apply world_eq; simpl; try done; [by rewrite delete_insert_id|]. by apply register_unregister.
  - unfold posix_handle. rewrite H2, H4. done.
Qed.

(** The types of a handle that [create] gives. *)
Definition succeeds (r : CUresult) : bool := match r with CUDA_SUCCESS => true | _ => false end.
Definition offered (hip : bool) (d : create_answers) : Z :=
  if match ca_range d with Some (_, sz) => sz =? 0 | None => true end then Type_None else
  let vmm := negb hip && succeeds (ca_retain d) in
  Z.lor (Z.lor (if ca_ipc d then Type_RuntimeIpc else 0) (if vmm then if ca_posix d then Type_PosixFd else 0 else 0))
    (if vmm then if ca_fabric d then Type_Fabric else 0 else 0).

Lemma deleter_fabric pid h fd a alloc w : new_fd w fd -> has_type h Type_PosixFd = false -> has_type h Type_Fabric = false -> a <> 0 ->
  deleter (add_type (set_allocHandle (posix_handle pid h fd) a) Type_Fabric) (with_posix fd alloc (with_ref a w)) = (Ok tt, w).
Proof.
  intros Hn H2 H4 Ha. unfold deleter, has_type in *. apply negb_false_iff, Z.eqb_eq in H2, H4. unfold Type_PosixFd, Type_Fabric in *.
  apply Z.eqb_neq in Ha. destruct fd as [fd|]; unfold posix_handle, add_type;
    cbn [typeFlags posix_fd fabric_allocHandle set_posix set_allocHandle]; unfold Type_PosixFd; rewrite !Z.land_lor_distr_l, H2, H4, Ha.
  - destruct Hn as [Hf Hr].
    change (Z.lor (Z.lor 0 (Z.land 2 2)) (Z.land 4 2) =? 0) with false. change (Z.lor (Z.lor 0 (Z.land 2 4)) (Z.land 4 4) =? 0) with false.
    cbn [negb andb]. run. f_equal. apply world_eq; simpl; try done; [by rewrite decide_True|by rewrite delete_insert_id|by apply register_unregister].
  - change (Z.lor 0 (Z.land 4 2) =? 0) with true. change (Z.lor 0 (Z.land 4 4) =? 0) with false. cbn [negb andb]. run.
    f_equal. apply world_eq; simpl; try done. by rewrite decide_True.
Qed.

Lemma deleter_runtime h w : typeFlags h = Type_None \/ typeFlags h = Type_RuntimeIpc -> deleter h w = (Ok tt, w).
Proof. unfold deleter, has_type. by intros [-> | ->]. Qed.

(** The type an import takes, and the allocation it refers to. *)
Definition choose (d : import_answers) (h : GpuIpcMemHandle) : result (Z * Z) :=
  let runtime := if has_type h Type_RuntimeIpc then Ok (Type_RuntimeIpc, 0) else Throw (EError Aborted) in
  match (if has_type h Type_Fabric then ia_fabric d else None) with
  | Some alloc => Ok (Type_Fabric, alloc)
  | None =>
      if has_type h Type_PosixFd then
        match ia_request d with
        | Throw e => Throw e
        | Ok _ => if ia_posix d then Ok (Type_PosixFd, ia_file d) else runtime
        end
      else runtime
  end.

Lemma create_choose d h w : (forall fd, ia_request d = Ok fd -> w_fds w !! fd = None) -> typeFlags h <> Type_None ->
  GpuIpcMem_create d h w =
  match choose d h with
  | Throw e => (Throw e, w)
  | Ok (t, a) => (Ok (mkGpuIpcMem (if t =? Type_Fabric then set_allocHandle h 0 else h) a (-1) t),
                  if t =? Type_RuntimeIpc then w else with_ref a w)
  end.
Proof.
  intros Hfd Hn. unfold GpuIpcMem_create, choose. apply Z.eqb_neq in Hn. rewrite Hn.
  assert (Hw : forall fd v, ia_request d = Ok fd -> v = w_fds w -> delete fd (<[fd := ia_file d]> v) = w_fds w)
    by (intros fd v ? ->; by apply delete_insert_id, Hfd).
  destruct (has_type h Type_Fabric); [destruct (ia_fabric d) as [a|]; [by run|]|];
    (destruct (has_type h Type_PosixFd); [destruct (ia_request d) as [fd|e] eqn:Eq; [destruct (ia_posix d)|by run]|];
     destruct (has_type h Type_RuntimeIpc); run; simpl; f_equal; apply world_eq; simpl; auto).
Qed.

Lemma posix_fields pid h fd : baseSize (posix_handle pid h fd) = baseSize h /\ offsetFromBase (posix_handle pid h fd) = offsetFromBase h.
Proof. by destruct fd. Qed.

(** What a handle says of the memory it was made for. *)
Lemma create_handle hip pid d ptr w h w' base sz : create hip pid d ptr w = (Ok h, w') -> new_fd w (ca_posix d) ->
  ca_range d = Some (base, sz) -> sz <> 0 ->
  baseSize h = sz /\ offsetFromBase h = u64 (ptr - base) /\
  (has_type h Type_PosixFd = true -> w_fds w' !! posix_fd h = Some (ca_alloc d)).
Proof.
  intros Hc Hn Er Hsz. unfold create in Hc. rewrite Er, (proj2 (Z.eqb_neq _ _) Hsz) in Hc.
  set (h0 := match ca_ipc d with Some _ => _ | None => _ end) in Hc.
  assert (H0 : baseSize h0 = sz /\ offsetFromBase h0 = u64 (ptr - base) /\ has_type h0 Type_PosixFd = false) by (unfold h0; by destruct (ca_ipc d)).
  destruct H0 as (Hb & Ho & Hp). destruct (posix_fields pid h0 (ca_posix d)) as [Eb Eo].
  assert (Hf : forall x v, has_type (posix_handle pid h0 (ca_posix d)) Type_PosixFd = true ->
    w_fds (with_posix (ca_posix d) x v) !! posix_fd (posix_handle pid h0 (ca_posix d)) = Some x).
  { intros x v H. destruct (ca_posix d) as [fd|]; [apply lookup_insert_eq|]. simpl in H. by rewrite Hp in H. }
  assert (Hmask : forall g, has_type (add_type g Type_Fabric) Type_PosixFd = has_type g Type_PosixFd).
  { intros g. unfold has_type, add_type, Type_Fabric, Type_PosixFd. cbn [typeFlags]. rewrite Z.land_lor_distr_l.
    change (Z.land 4 2) with 0. by rewrite Z.lor_0_r. }
  destruct hip; [revert Hc; run; intros [= <- _]; split_and!; try done; by rewrite Hp|].
  destruct (ca_retain d); revert Hc; run; try (intros [= <- _]; split_and!; try done; by rewrite Hp); try done.
  rewrite export_posix_ok by exact Hn. destruct (ca_fabric d) as [f|]; [destruct (ca_retain2 d)|]; destruct (ca_release d); simpl; try done;
    intros [= <- <-]; simpl; rewrite ?Hmask; split_and!; try (by rewrite ?Eb, ?Eo); by intros H; apply Hf.
Qed.

(** ** Properties *)

(** a handle offers exactly the types the driver could make, and deleting it gives
    back all that making it took: descriptors, their registration, references to the
    allocation.  When it cannot be made the driver's error is thrown; a failure behind
    the first reference to the allocation leaks that reference. *)
Theorem create_accounts (hip : bool) (pid : Z) (d : create_answers) (ptr : Z) (w : world) :
  new_fd w (ca_posix d) -> ca_alloc d <> 0 ->
  match create hip pid d ptr w with
  | (Ok h, w') => typeFlags h = offered hip d /\ (deleter h w').2 = w
  | (Throw e, w') => e = ECuError /\
      (w' = w /\ (ca_range d = None \/ succeeds (ca_retain d) = false) \/
       w' = with_ref (ca_alloc d) w /\ hip = false /\ succeeds (ca_retain d) = true)
  end.
Proof.
  intros Hn Ha. unfold create, offered. destruct (ca_range d) as [[base sz]|]; [|split; [done|]; left; split; [done|by left]].
  destruct (Z.eqb_spec sz 0) as [->|Hsz]; [split; [done|]; by rewrite deleter_runtime by by left|].
  set (h := match ca_ipc d with Some _ => _ | None => _ end).
  assert (Ht : typeFlags h = if ca_ipc d then Type_RuntimeIpc else 0) by (unfold h; by destruct (ca_ipc d)).
  assert (Hh : forall w, deleter h w = (Ok tt, w)) by (intros w'; apply deleter_runtime; rewrite Ht; destruct (ca_ipc d); auto).
  destruct hip; [run; split; [rewrite Ht; by destruct (ca_ipc d)|by rewrite Hh]|].
  destruct (ca_retain d) eqn:Er; cbn [negb andb succeeds];
    try (run; rewrite Hh; split; [done|left; auto]); try (run; split; [rewrite Ht; by destruct (ca_ipc d)|by rewrite Hh]).
  assert (Hp : forall g, typeFlags g = typeFlags h -> has_type g Type_PosixFd = false /\ has_type g Type_Fabric = false).
  { intros g E. unfold has_type. rewrite E, Ht. by destruct (ca_ipc d). }
  assert (Hw : new_fd (with_ref (ca_alloc d) w) (ca_posix d)) by exact Hn.
  run. rewrite export_posix_ok by exact Hn. fold (with_ref (ca_alloc d) w).
  set (w1 := with_posix _ _ _). set (g := match ca_fabric d with Some f => set_fabric h f | None => h end).
  destruct (Hp h eq_refl) as [H2 H4].
  destruct (ca_fabric d) as [f|] eqn:Ef.
  - assert (Eg : set_fabric (posix_handle pid h (ca_posix d)) f = posix_handle pid g (ca_posix d)) by by destruct (ca_posix d).
    destruct (Hp g eq_refl) as [G2 G4]. rewrite Eg.
    destruct (ca_retain2 d) eqn:E2; cbn [fst snd];
      try (unfold w1; rewrite deleter_posix by done; split; [done|]; right; done).
    assert (Ew : with_posix (ca_posix d) (ca_alloc d) (with_ref (ca_alloc d) (with_ref (ca_alloc d) w)) =
      mkWorld (ca_alloc d :: w_refs w1) (w_fds w1) (w_registered w1) (w_reserved w1) (w_mapped w1) (w_opened w1) (w_bound w1) (w_cache w1))
      by (unfold w1; by destruct (ca_posix d)).
    destruct (ca_release d) eqn:E3; cbn [fst snd];
      try (rewrite <- Ew, deleter_fabric by done; split; [done|]; right; done).
    split; [unfold add_type; cbn [typeFlags set_allocHandle]; f_equal; destruct (ca_posix d); simpl; rewrite Ht; by destruct (ca_ipc d)|].
    cbn [w_refs w_fds w_registered w_reserved w_mapped w_opened w_bound w_cache]. rewrite remove_one_cons.
    replace (mkWorld _ _ _ _ _ _ _ _) with w1 by by destruct w1. unfold w1. by rewrite deleter_fabric.
  - destruct (ca_release d) eqn:E3; cbn [fst snd];
      try (unfold w1; rewrite deleter_posix by done; split; [done|]; right; done).
    split; [destruct (ca_posix d); simpl; rewrite Ht; by destruct (ca_ipc d)|].
    unfold w1. replace (mkWorld _ _ _ _ _ _ _ _) with (with_posix (ca_posix d) (ca_alloc d) w).
    + by rewrite deleter_posix.
    + destruct (ca_posix d); apply world_eq; try done; simpl; by rewrite decide_True.
Qed.

(** an import takes the best type it can: the fabric handle when that is offered and
    can be imported, then the file descriptor, then the runtime's handle.  Nothing is
    held when it fails, and destroying what it made gives back what it took.  When the
    runtime's handle is offered, only a request for the descriptor that throws makes
    it fail. *)
Theorem import_accounts (d : import_answers) (h : GpuIpcMemHandle) (w : world) :
  (forall fd, ia_request d = Ok fd -> w_fds w !! fd = None) ->
  match GpuIpcMem_create d h w with
  | (Ok g, w') =>
      (GpuIpcMem_destroy g w').2 = w /\ has_type h (g_type g) = true /\
      (has_type h Type_Fabric = true -> is_Some (ia_fabric d) -> g_type g = Type_Fabric) /\
      (g_type g = Type_RuntimeIpc -> has_type h Type_PosixFd = true -> ia_posix d = false)
  | (Throw e, w') => w' = w /\ (has_type h Type_RuntimeIpc = true -> has_type h Type_PosixFd = true /\ ia_request d = Throw e)
  end.
Proof.
  intros Hfd. destruct (decide (typeFlags h = Type_None)) as [E|Hn].
  { unfold GpuIpcMem_create. rewrite E. split; [done|]. unfold has_type. by rewrite E. }
  rewrite create_choose by done. unfold choose.
  assert (Hd : forall a, (release a (with_ref a w)).2 = w) by (intros a; apply world_eq; try done; apply remove_one_cons).
  destruct (has_type h Type_Fabric) eqn:HF; [destruct (ia_fabric d) as [a|] eqn:Ef|];
    [split_and!; try done; apply Hd|..];
    (destruct (has_type h Type_PosixFd) eqn:HP; [destruct (ia_request d) as [fd|e] eqn:Eq; [destruct (ia_posix d) eqn:Ep|]|];
     destruct (has_type h Type_RuntimeIpc) eqn:HR; simpl; split_and!; try done; try apply Hd; by intros _ [??]).
Qed.

Lemma choose_type d h t a : choose d h = Ok (t, a) -> t = Type_Fabric \/ t = Type_PosixFd \/ t = Type_RuntimeIpc.
Proof.
  unfold choose. destruct (if has_type h Type_Fabric then ia_fabric d else None); [intros [= <- _]; auto|].
  destruct (has_type h Type_PosixFd); [destruct (ia_request d); [destruct (ia_posix d)|done]|];
    try (destruct (has_type h Type_RuntimeIpc)); intros [= <- _]; auto.
Qed.

(** A range the driver reserves is a new one. *)
Definition new_range (w : world) (base : option Z) : Prop :=
  match base with Some base => w_reserved w !! base = None /\ w_mapped w !! base = None | None => True end.

Lemma unmap_map d g w x m w' : map false d g w = (Ok (x, m), w') -> new_range w (mp_reserve d) -> (unmap false m w').2 = w.
Proof.
  unfold map. intros Hm Hn. destruct (g_type g =? Type_None); [done|]. destruct (g_type g =? Type_RuntimeIpc).
  - unfold cudaIpcOpenMemHandleWrapper, cudaIpcOpenMemHandle in Hm. destruct (mp_open d) as [b|]; revert Hm; run; [|done].
    intros [= <- <- <-]. simpl. unfold cudaIpcCloseMemHandle. run. apply world_eq; simpl; try done. by rewrite Z.eqb_refl.
  - destruct (negb _); [done|]. revert Hm. run. destruct (mp_device d); [|done]. destruct (mp_granularity d); try done.
    destruct (mp_reserve d) as [b|]; [|done]. destruct Hn as [Hr Hm0]. destruct (mp_map d); try done. destruct (mp_access d); try done.
    intros [= <- <- <-]. simpl. run. apply world_eq; try done; by apply delete_insert_id.
Qed.

(** C20: in a build for CUDA memory arrives where it was exported.  A process makes a handle of the address
    [ptr]; another imports it, whichever way, and maps it: the address it gets is the
    same byte of the same allocation.  When the mapping is released everything is given
    back.  What the processes rely on: the fabric and the runtime import what was
    exported, and the descriptor that arrives over the socket is the one registered
    under the number in the handle. *)
Theorem import_maps_allocation (pid ptr base sz : Z) (c : create_answers) (d : import_answers) (md : map_answers)
    (h : GpuIpcMemHandle) (g : GpuIpcMem) (x : Z) (m : mapping) (w0 w1 w v v' : world) :
  create false pid c ptr w0 = (Ok h, w1) -> new_fd w0 (ca_posix c) -> ca_range c = Some (base, sz) -> sz <> 0 -> 0 <= base -> base <= ptr < 2 ^ 64 ->
  (forall a, ia_fabric d = Some a -> a = ca_alloc c) -> w_fds w1 !! posix_fd h = Some (ia_file d) \/ has_type h Type_PosixFd = false ->
  mp_alloc md = ca_alloc c ->
  (forall fd, ia_request d = Ok fd -> w_fds w !! fd = None) -> new_range w (mp_reserve md) ->
  GpuIpcMem_create d h w = (Ok g, v) -> map false md g v = (Ok (x, m), v') ->
  denotes v' x (ca_alloc c) (ptr - base) /\ (release_mapping false g m v').2 = w.
Proof.
  intros Hc Hn Er Hsz Hbase Hptr Hfab Hfile Hrt Hfd Hrange Hg Hm.
  destruct (create_handle _ _ _ _ _ _ _ _ _ Hc Hn Er Hsz) as (Hb & Ho & Hp).
  assert (Eo : offsetFromBase h = ptr - base) by (rewrite Ho; unfold u64; apply wrap_small; unfold is_u; lia).
  destruct (decide (typeFlags h = Type_None)) as [E|Hty]; [unfold GpuIpcMem_create in Hg; rewrite E in Hg; done|].
  rewrite create_choose in Hg by done. destruct (choose d h) as [[t a]|e] eqn:Ech; [|done]. injection Hg as <- <-.
  assert (Ht : t <> Type_RuntimeIpc -> a = ca_alloc c).
  { revert Ech. unfold choose. destruct (if has_type h Type_Fabric then ia_fabric d else None) as [a'|] eqn:Ef.
    - intros [= <- <-] _. destruct (has_type h Type_Fabric); [by apply Hfab|done].
    - destruct (has_type h Type_PosixFd) eqn:HP; [destruct (ia_request d); [destruct (ia_posix d)|done]|];
        try (destruct (has_type h Type_RuntimeIpc); intros [= <- <-]; done).
      intros [= <- <-] _. destruct Hfile as [Hfile|]; [|done]. rewrite Hp in Hfile by done. by injection Hfile. }
  set (v := if t =? Type_RuntimeIpc then w else with_ref a w) in *.
  assert (Hv : new_range v (mp_reserve md)) by (unfold v; by destruct (t =? Type_RuntimeIpc)).
  pose proof (unmap_map _ _ _ _ _ _ Hm Hv) as Hu. split.
  - revert Hm. unfold map. cbn [g_type g_handle g_allocHandle].
    assert (Eoff : offsetFromBase (if t =? Type_Fabric then set_allocHandle h 0 else h) = ptr - base) by (by destruct (t =? Type_Fabric)).
    rewrite Eoff. destruct (t =? Type_None); [done|]. destruct (Z.eqb_spec t Type_RuntimeIpc) as [->|Hne].
    + unfold cudaIpcOpenMemHandleWrapper, cudaIpcOpenMemHandle. destruct (mp_open md) as [b|]; run; [|done].
      intros [= <- _ <-]. right. exists b. simpl. rewrite Hrt. split; [by constructor|done].
    + rewrite (Ht Hne). destruct (negb _); [done|]. run. destruct (mp_device md); [|done]. destruct (mp_granularity md); try done.
      destruct (mp_reserve md) as [b|]; [|done]. destruct (mp_map md); try done. destruct (mp_access md); try done.
      intros [= <- _ <-]. left. eexists b, _. simpl. by rewrite lookup_insert_eq.
  - unfold release_mapping. run. destruct (unmap false m v') as [[[]|e] u] eqn:Eu; simpl in Hu; subst u.
    + unfold GpuIpcMem_destroy, v. cbn [g_type g_allocHandle].
      destruct (choose_type _ _ _ _ Ech) as [->|[->| ->]]; simpl; try done; apply world_eq; try done; apply remove_one_cons.
    + by destruct m.
Qed.

Lemma map_runtime hip d g w x m w' : g_type g = Type_RuntimeIpc -> map hip d g w = (Ok (x, m), w') ->
  exists base, m = MIpc base (runtimeIpc (g_handle g)) /\ x = base + offsetFromBase (g_handle g) /\
    cudaIpcOpenMemHandleWrapper hip d (runtimeIpc (g_handle g)) w = (Ok base, w').
Proof.
  intros Ht Hm. unfold map in Hm. rewrite Ht in Hm. change (Type_RuntimeIpc =? Type_None) with false in Hm.
  change (Type_RuntimeIpc =? Type_RuntimeIpc) with true in Hm. revert Hm. cbv beta iota zeta delta [mbind mret M_bind M_ret].
  destruct (cudaIpcOpenMemHandleWrapper _ _ _ _) as [[base|e] v]; [|done]. intros [= <- <- <-]. by exists base.
Qed.

(** on HIP two mappings of one handle share the opened memory, and releasing one of
    them closes it: the other is left with an address that is no longer mapped.  On
    CUDA, where every mapping opens the handle, the other stays. *)
Theorem hip_cache_closes_others (hip : bool) (d1 d2 : map_answers) (g1 g2 : GpuIpcMem) (x1 x2 : Z) (m1 m2 : mapping) (w w1 w2 : world) :
  g_type g1 = Type_RuntimeIpc -> g_type g2 = Type_RuntimeIpc -> runtimeIpc (g_handle g1) = runtimeIpc (g_handle g2) ->
  w_cache w !! runtimeIpc (g_handle g1) = None -> (forall b a, mp_open d1 = Some b -> (b, a) ∉ w_opened w) ->
  map hip d1 g1 w = (Ok (x1, m1), w1) -> map hip d2 g2 w1 = (Ok (x2, m2), w2) ->
  exists base, m2 = MIpc base (runtimeIpc (g_handle g2)) /\ x2 = base + offsetFromBase (g_handle g2) /\
    ((exists alloc, (base, alloc) ∈ w_opened (unmap hip m1 w2).2) <-> hip = false).
Proof.
  intros T1 T2 Eh Hc Ho H1 H2. destruct (map_runtime _ _ _ _ _ _ _ T1 H1) as (b1 & -> & -> & O1).
  destruct (map_runtime _ _ _ _ _ _ _ T2 H2) as (b2 & -> & -> & O2). exists b2. split; [done|]. split; [done|].
  rewrite <- Eh in O2. revert O1 O2. unfold cudaIpcOpenMemHandleWrapper, cudaIpcOpenMemHandle. destruct hip.
  - rewrite Hc. destruct (mp_open d1) as [b|] eqn:Eb; run; [|done]. intros [= -> <-]. simpl. rewrite lookup_insert_eq. intros [= -> <-].
    simpl. rewrite Z.eqb_refl. split; [|done]. intros [a Ha]. by destruct (Ho b2 a eq_refl).
  - destruct (mp_open d1) as [b|] eqn:Eb; run; [|done]. intros [= -> <-]. destruct (mp_open d2) as [b'|]; [|done]. intros [= -> <-].
    split; [done|]. intros _. simpl. unfold cudaIpcCloseMemHandle. run. simpl. destruct (Z.eqb_spec b2 b1) as [->|Hne].
    + exists (mp_alloc d1). by constructor.
    + exists (mp_alloc d2). by constructor.
Qed.

(** a multicast handle has room for the buffer, in a whole number of granules and
    less than one more, offers at least one type, and deleting it gives back what
    making it took. *)
Theorem multicast_handle (pid : Z) (cache : option bool) (d : multicast_answers) (bufferSize numDevices : Z) (w w' : world)
    (h : GpuIpcMemHandle) (cache' : option bool) :
  createMulticast true pid cache d bufferSize numDevices w = (Ok (h, cache'), w') ->
  new_fd w (ma_posix d) -> ma_alloc d <> 0 -> 0 <= bufferSize -> 0 < (ma_granularity d).2 -> bufferSize + (ma_granularity d).2 < 2 ^ 64 ->
  baseSize h mod (ma_granularity d).2 = 0 /\ bufferSize <= baseSize h < bufferSize + (ma_granularity d).2 /\
  typeFlags h <> Type_None /\ (deleter h w').2 = w.
Proof.
  intros H Hn Ha H0 Hg Hb. unfold createMulticast in H. cbn [negb] in H. destruct (bufferSize =? 0); [done|].
  destruct (numDevices <? 1); [done|]. revert H. cbv beta iota zeta delta [mbind mret M_bind M_ret].
  assert (Hfa : forall r v, isFabricMemHandleAvailable true cache (ma_fabric d) w = (Ok r, v) -> v = w).
  { intros r v. unfold isFabricMemHandleAvailable. cbn [negb]. destruct cache as [b|]; [by intros [= _ <-]|].
    cbv beta iota zeta delta [mbind mret M_bind M_ret cu_throw throw]. destruct (fa_device _); try done.
    destruct (fa_supported _) as [s1 s2]. simpl. destruct s1; try done. destruct s2; simpl; [|by intros [= _ <-]].
    destruct (fa_granularity _); try done. destruct (fa_create _); try done; try (by intros [= _ <-]).
    destruct (fa_release _); try done. run. intros [= _ <-]. apply world_eq; try done. apply remove_one_cons. }
  destruct (isFabricMemHandleAvailable true cache (ma_fabric d) w) as [[[av ca]|e] v] eqn:Ef; [|done].
  rewrite (Hfa _ _ eq_refl). clear Hfa Ef. set (gran := (ma_granularity d).2) in *.
  set (size := u64 (u64 (bufferSize + gran - 1) / gran * gran)).
  assert (Hsize : size mod gran = 0 /\ bufferSize <= size < bufferSize + gran).
  { unfold size. rewrite (u64_small (bufferSize + gran - 1)) by lia.
    pose proof (Z.div_mod (bufferSize + gran - 1) gran ltac:(lia)). pose proof (Z.mod_pos_bound (bufferSize + gran - 1) gran Hg).
    rewrite u64_small by lia. split; [apply Z.mod_mul; lia|lia]. }
  run. destruct (ma_granularity d).1; try done. destruct (ma_create d); try done. fold (with_ref (ma_alloc d) w).
  rewrite export_posix_ok by exact Hn. set (h0 := new_handle size 0).
  assert (Hrest : forall fd, new_fd w fd -> (deleter (posix_handle pid h0 fd)
      (release (ma_alloc d) (with_posix fd (ma_alloc d) (with_ref (ma_alloc d) w))).2).2 = w).
  { intros fd Hfd. replace (release _ _).2 with (with_posix fd (ma_alloc d) w); [by rewrite deleter_posix|].
    destruct fd; apply world_eq; try done; simpl; by rewrite decide_True. }
  assert (Hfabric : forall f fd, new_fd w fd -> (deleter (add_type (set_allocHandle (posix_handle pid (set_fabric h0 f) fd) (ma_alloc d)) Type_Fabric)
      (with_posix fd (ma_alloc d) (with_ref (ma_alloc d) w))).2 = w) by (intros f fd Hfd; by rewrite deleter_fabric).
  unfold release in Hrest. revert Hrest. run. intros Hrest.
  destruct (ma_fabricHandle d) as [f|]; [destruct (av : bool)|]; destruct (ma_posix d) as [fd|] eqn:Ep; simpl; try done;
    try (destruct (ma_release d); try done); intros [= <- _ <-]; split_and!; try done; try apply Hsize;
    try exact (Hfabric f (Some fd) Hn); try exact (Hfabric f None Hn); exact (Hrest (Some fd) Hn).
Qed.

(** What a binding that succeeds has found and done. *)
Lemma mapMulticast_ok d g g' mcOffset bufferAddr bufferSize x m w w' :
  mapMulticast true d g mcOffset bufferAddr bufferSize w = (Ok (x, m), g', w') ->
  exists base dev, mm_reserve d = Some base /\ mm_device d = Some dev /\
  bufferAddr mod (mm_granularity d).2 = 0 /\ bufferSize mod (mm_granularity d).2 = 0 /\ bufferSize <> 0 /\
  (g_multicastAddedDeviceId g <> -1 -> g_multicastAddedDeviceId g = dev) /\ g' = mkGpuIpcMem (g_handle g) (g_allocHandle g) dev (g_type g) /\
  let size := u64 (mcOffset + bufferSize) in
  m = mkMultimapping base size (g_allocHandle g) mcOffset bufferSize /\ x = base + mcOffset /\
  w' = mkWorld (w_refs w) (w_fds w) (w_registered w) (<[base := size]> (w_reserved w)) (<[base := (size, g_allocHandle g)]> (w_mapped w))
    (w_opened w) ((g_allocHandle g, mcOffset, bufferSize) :: w_bound w) (w_cache w).
Proof.
  intros H. unfold mapMulticast in H. destruct (add_device true d g w) as [[g1|e] w1] eqn:Ea; [|done].
  destruct (bind_and_map d g1 mcOffset bufferAddr bufferSize w1) as [r w2] eqn:Eb. injection H as -> -> ->.
  assert (Hadd : w1 = w /\ exists dev, mm_device d = Some dev /\ (g_multicastAddedDeviceId g <> -1 -> g_multicastAddedDeviceId g = dev) /\
    g' = mkGpuIpcMem (g_handle g) (g_allocHandle g) dev (g_type g)).
  { revert Ea. unfold add_device. cbn [negb]. destruct (_ && _); [done|]. destruct (mm_device d) as [dev|]; [|done].
    destruct (Z.eqb_spec (g_multicastAddedDeviceId g) (-1)) as [E|E].
    - run. destruct (mm_add d); try done. intros [= <- <-]. split; [done|]. by exists dev.
    - destruct (Z.eqb_spec (g_multicastAddedDeviceId g) dev) as [E'|]; [|done]. intros [= <- <-]. split; [done|]. exists dev.
      split_and!; try done. destruct g. simpl in *. by subst. }
  destruct Hadd as (-> & dev & Hd & Hdev & ->). revert Eb. unfold bind_and_map. run. cbn [g_allocHandle].
  destruct (mm_granularity d) as [gr gran]; simpl; destruct gr; try done.
  destruct (mm_isCuMemMap d) as [mapped|]; [|done]; destruct mapped; simpl; [|done].
  destruct (Z.eqb_spec (bufferAddr mod gran) 0); simpl; [|done]; destruct (Z.eqb_spec bufferSize 0); [done|].
  destruct (Z.eqb_spec (bufferSize mod gran) 0); simpl; [|done].
  destruct (mm_bind d); try done; destruct (mm_reserve d) as [p|]; [|done]; destruct (mm_map d); try done; destruct (mm_access d); try done.
  intros [= <- <- <-]. by exists p, dev.
Qed.

(** binding memory to a multicast object: the buffer and its size are whole granules,
    the address returned is that of the offset in the mapping of the object, one object
    serves one device, and releasing the mapping takes back the binding, the mapping and
    the addresses. *)
Theorem multicast_mapping (d : multimap_answers) (g g' : GpuIpcMem) (mcOffset bufferAddr bufferSize x : Z) (m : multimapping) (w w' : world) :
  mapMulticast true d g mcOffset bufferAddr bufferSize w = (Ok (x, m), g', w') -> new_range w (mm_reserve d) ->
  0 <= mcOffset -> 0 <= bufferSize -> mcOffset + bufferSize < 2 ^ 64 ->
  (bufferAddr mod (mm_granularity d).2 = 0 /\ bufferSize mod (mm_granularity d).2 = 0 /\ bufferSize <> 0) /\
  (w_mapped w' !! mu_ptr m = Some (mcOffset + bufferSize, g_allocHandle g) /\ x = mu_ptr m + mcOffset /\
   (g_allocHandle g, mcOffset, bufferSize) ∈ w_bound w') /\
  (mm_device d = Some (g_multicastAddedDeviceId g') /\
   (g_multicastAddedDeviceId g <> -1 -> g_multicastAddedDeviceId g = g_multicastAddedDeviceId g')) /\
  (unmapMulticast true m w').2 = w.
Proof.
  intros H Hn Ho Hs Hb. destruct (mapMulticast_ok _ _ _ _ _ _ _ _ _ _ H) as (base & dev & Er & Ed & H1 & H2 & H3 & H4 & -> & -> & -> & ->).
  rewrite Er in Hn. destruct Hn as [Hn1 Hn2]. rewrite u64_small by lia. simpl. split_and!; try done.
  - by rewrite lookup_insert_eq.
  - by constructor.
  - unfold unmapMulticast. run. apply world_eq; simpl; try done; [by apply delete_insert_id..|]. by rewrite decide_True.
Qed.

(** ** Witnesses *)

Definition demo_world : world := mkWorld [] ∅ ∅ ∅ ∅ [] [] ∅.
Definition demo_answers : create_answers :=
  mkCreateAnswers (Some (4096, 8192)) (Some (replicate 64 3)) 77 CUDA_SUCCESS (Some 5) (Some (replicate 64 9)) CUDA_SUCCESS CUDA_SUCCESS.
Definition demo_map_answers : map_answers := mkMapAnswers (Some 900) 77 4096 true CUDA_SUCCESS (Some 65536) CUDA_SUCCESS CUDA_SUCCESS.

Lemma create_accounts_witness :
  exists h w', create false 42 demo_answers 5000 demo_world = (Ok h, w') /\ typeFlags h = 7 /\ (deleter h w').2 = demo_world.
Proof.
  pose proof (create_accounts false 42 demo_answers 5000 demo_world ltac:(split; [done|set_solver]) ltac:(done)) as H.
  destruct (create false 42 demo_answers 5000 demo_world) as [[h|e] w'] eqn:E; [|by vm_compute in E].
  exists h, w'. destruct H as [-> H]. split; [done|]. split; [by vm_compute|exact H].
Defined.

Lemma import_accounts_witness :
  let h := mkGpuIpcMemHandle 3 8192 904 (replicate 64 3) 42 5 (replicate 64 0) 0 in
  let d := mkImportAnswers None (Throw ESysError) 77 true in
  GpuIpcMem_create d h demo_world = (Throw ESysError, demo_world) /\
  (has_type h Type_RuntimeIpc = true -> has_type h Type_PosixFd = true /\ ia_request d = Throw ESysError).
Proof.
  intros h d. split; [reflexivity|].
  pose proof (import_accounts d h demo_world ltac:(by intros fd [=])) as H.
  assert (E : GpuIpcMem_create d h demo_world = (Throw ESysError, demo_world)) by reflexivity. rewrite E in H. apply H.
Defined.

Lemma import_maps_allocation_witness :
  exists h w1 g v x m v', create false 42 demo_answers 5000 demo_world = (Ok h, w1) /\
    GpuIpcMem_create (mkImportAnswers None (Ok 8) 77 true) h demo_world = (Ok g, v) /\ g_type g = Type_PosixFd /\
    map false demo_map_answers g v = (Ok (x, m), v') /\ x = 66440 /\ denotes v' x 77 904 /\ (release_mapping false g m v').2 = demo_world.
Proof.
  destruct (create false 42 demo_answers 5000 demo_world) as [[h|e] w1] eqn:E1; [|by vm_compute in E1].
  destruct (GpuIpcMem_create (mkImportAnswers None (Ok 8) 77 true) h demo_world) as [[g|e] v] eqn:E2;
    [|vm_compute in E1; injection E1 as <- _; by vm_compute in E2].
  destruct (map false demo_map_answers g v) as [[[x m]|e] v'] eqn:E3;
    [|vm_compute in E1; injection E1 as <- _; vm_compute in E2; injection E2 as <- <-; by vm_compute in E3].
  exists h, w1, g, v, x, m, v'. split; [done|]. split; [done|].
  pose proof (import_maps_allocation 42 5000 4096 8192 demo_answers (mkImportAnswers None (Ok 8) 77 true) demo_map_answers h g x m
    demo_world w1 demo_world v v' E1 ltac:(split; [done|set_solver]) eq_refl ltac:(done) ltac:(lia) ltac:(lia) ltac:(done)
    ltac:(left; vm_compute in E1; by injection E1 as <- <-) eq_refl ltac:(done) ltac:(done) E2 E3) as H.
  split; [vm_compute in E1; injection E1 as <- _; vm_compute in E2; by injection E2 as <- _|]. split; [done|].
  split; [|exact H]. vm_compute in E1. injection E1 as <- _. vm_compute in E2. injection E2 as <- <-. vm_compute in E3. by injection E3 as <- _ _.
Defined.

Definition demo_ipc : GpuIpcMem := mkGpuIpcMem (mkGpuIpcMemHandle 1 8192 904 (replicate 64 3) 0 (-1) (replicate 64 0) 0) 0 (-1) Type_RuntimeIpc.

Lemma hip_cache_closes_others_witness :
  exists x1 m1 w1 x2 m2 w2, map true demo_map_answers demo_ipc demo_world = (Ok (x1, m1), w1) /\
    map true demo_map_answers demo_ipc w1 = (Ok (x2, m2), w2) /\ x2 = 1804 /\
    ~ exists alloc, (900, alloc) ∈ w_opened (unmap true m1 w2).2.
Proof.
  destruct (map true demo_map_answers demo_ipc demo_world) as [[[x1 m1]|e] w1] eqn:E1; [|by vm_compute in E1].
  destruct (map true demo_map_answers demo_ipc w1) as [[[x2 m2]|e] w2] eqn:E2; [|vm_compute in E1; injection E1 as _ _ <-; by vm_compute in E2].
  exists x1, m1, w1, x2, m2, w2. split; [done|]. split; [done|].
  destruct (hip_cache_closes_others true demo_map_answers demo_map_answers demo_ipc demo_ipc x1 x2 m1 m2 demo_world w1 w2 eq_refl eq_refl eq_refl
    eq_refl ltac:(intros b a _ H; by apply elem_of_nil in H) E1 E2) as (base & Em & Ex & Hb).
  assert (base = 900) as ->. { vm_compute in E1. injection E1 as _ _ <-. vm_compute in E2. injection E2 as _ <- _. injection Em as <-. done. }
  split; [by rewrite Ex|]. intros Ha. by apply Hb in Ha.
Defined.

Lemma multicast_handle_witness :
  let d := mkMulticastAnswers (mkFabricAnswers CUDA_SUCCESS (CUDA_SUCCESS, true) CUDA_SUCCESS CUDA_SUCCESS 5 CUDA_SUCCESS)
    (CUDA_SUCCESS, 4096) CUDA_SUCCESS 77 (Some 5) (Some (replicate 64 9)) CUDA_SUCCESS in
  exists h cache w', createMulticast true 42 None d 5000 2 demo_world = (Ok (h, cache), w') /\ baseSize h mod 4096 = 0 /\
    (deleter h w').2 = demo_world.
Proof.
  intros d. destruct (createMulticast true 42 None d 5000 2 demo_world) as [[[h cache]|e] w'] eqn:E; [|by vm_compute in E].
  exists h, cache, w'. split; [done|].
  pose proof (multicast_handle 42 None d 5000 2 demo_world w' h cache E ltac:(split; [done|set_solver]) ltac:(done) ltac:(lia) ltac:(simpl; lia) ltac:(simpl; lia)) as H.
  split; apply H.
Defined.

Lemma multicast_mapping_witness :
  let d := mkMultimapAnswers (Some 1) CUDA_SUCCESS (CUDA_SUCCESS, 4096) (Ok true) CUDA_SUCCESS (Some 65536) CUDA_SUCCESS CUDA_SUCCESS in
  let g := mkGpuIpcMem (mkGpuIpcMemHandle 2 8192 0 [] 42 5 [] 0) 77 (-1) Type_PosixFd in
  exists x m g' w', mapMulticast true d g 4096 8192 4096 demo_world = (Ok (x, m), g', w') /\ x = 69632 /\ (unmapMulticast true m w').2 = demo_world.
Proof.
  intros d g. destruct (mapMulticast true d g 4096 8192 4096 demo_world) as [[[[x m]|e] g'] w'] eqn:E; [|by vm_compute in E].
  exists x, m, g', w'. split; [done|].
  pose proof (multicast_mapping d g g' 4096 8192 4096 x m demo_world w' E ltac:(done) ltac:(lia) ltac:(lia) ltac:(lia)) as H.
  split; [|apply H]. vm_compute in E. by injection E as <- _ _ _.
Defined.
