(* ===== verification/SwitchChannel.v ===== *)
(** * Switch channels

    Models src/core/switch_channel.cc and include/mscclpp/switch_channel.hpp: the
    multicast object that a group of ranks shares ([NvlsConnection]), the ranges of it
    that are bound to memory, and the channels over them.  The driver and what the
    process holds are those of [GpuIpcMem].  The device side of a switch channel is inline
    assembly and is not modelled. *)

From S2P Require Import Prelude Errors Core RegisteredMemory GpuIpcMem Bootstrap.
Local Open Scope Z_scope.

(** ** Ranges of the multicast object *)

(** [allocatedRanges_] and [freeRanges_]: pairs of an offset and a size. *)
Record ranges := mkRanges { allocatedRanges_ : list (Z * Z); freeRanges_ : list (Z * Z) }.

(** The first free range that is large enough, and the list without what is taken of it. *)
Fixpoint take_fit (size : Z) (free : list (Z * Z)) : option (Z * list (Z * Z)) :=
  match free with
  | [] => None
  | (o, s) :: rest =>
      if size <=? s then Some (o, if s =? size then rest else (u64 (o + size), u64 (s - size)) :: rest)
      else '(off, rest) ← take_fit size rest; Some (off, (o, s) :: rest)
  end.

Definition allocateRange (size : Z) (r : ranges) : result (Z * ranges) :=
  match freeRanges_ r with
  | [] => Throw (EError InvalidUsage)
  | _ => match take_fit size (freeRanges_ r) with
         | Some (offset, free) => Ok (offset, mkRanges (allocatedRanges_ r ++ [(offset, size)]) free)
         | None => Throw (EError InvalidUsage)
         end
  end.

(** Put a range back at its place in the list, merged with its neighbours. *)
Fixpoint insert_free (offset size : Z) (free : list (Z * Z)) : list (Z * Z) :=
  match free with
  | [] => [(offset, size)]
  | (o, s) :: rest =>
      if offset <=? u64 (o + s) then
        if u64 (o + s) =? offset then
          match rest with
          | (o', s') :: rest' => if u64 (o + u64 (s + size)) =? o' then (o, u64 (u64 (s + size) + s')) :: rest' else (o, u64 (s + size)) :: rest
          | [] => [(o, u64 (s + size))]
          end
        else if o =? u64 (offset + size) then (u64 (o - size), u64 (s + size)) :: rest
        else (offset, size) :: free
      else (o, s) :: insert_free offset size rest
  end.

Definition freeRange (offset size : Z) (r : ranges) : ranges :=
  if decide ((offset, size) ∈ allocatedRanges_ r)
  then mkRanges (remove_one (offset, size) (allocatedRanges_ r)) (insert_free offset size (freeRanges_ r))
  else r.

(** ** NvlsConnection *)

(** [NvlsConnection::Impl]; only the root has a handle of its own. *)
Record Impl := mkImpl {
  localGpuIpcMemHandle_ : option GpuIpcMemHandle; gpuIpcMem_ : GpuIpcMem;
  minMcGran_ : Z; isRoot_ : bool; numDevices_ : Z; n_ranges : ranges
}.

Definition set_ranges (n : Impl) (r : ranges) : Impl :=
  mkImpl (localGpuIpcMemHandle_ n) (gpuIpcMem_ n) (minMcGran_ n) (isRoot_ n) (numDevices_ n) r.
Definition set_mem (n : Impl) (g : GpuIpcMem) : Impl :=
  mkImpl (localGpuIpcMemHandle_ n) g (minMcGran_ n) (isRoot_ n) (numDevices_ n) (n_ranges n).

(** What the driver answers the root. *)
Record root_answers := mkRootAnswers {
  ra_multicast : multicast_answers; ra_import : import_answers; ra_granPosixFd : CUresult * Z; ra_granFabric : CUresult * Z
}.

(** For the root. *)
Definition Impl_create (pid : Z) (resultCache : option bool) (d : root_answers) (bufferSize numDevices : Z) : M (Impl * option bool) :=
  '(h, resultCache) ← createMulticast true pid resultCache (ra_multicast d) bufferSize numDevices;
  if typeFlags h =? Type_None then unwinding (deleter h) (throw (EError SystemError)) else
  g ← unwinding (deleter h) (GpuIpcMem_create (ra_import d) h);
  let clean := (_ ← GpuIpcMem_destroy g; deleter h) : M () in
  _ ← unwinding clean (cu_throw (ra_granPosixFd d).1);
  minMcGran ← (if has_type h Type_Fabric
               then _ ← unwinding clean (cu_throw (ra_granFabric d).1); mret (Z.max (ra_granPosixFd d).2 (ra_granFabric d).2)
               else mret (ra_granPosixFd d).2 : M Z);
  mret (mkImpl (Some h) g minMcGran true numDevices (mkRanges [] [(0, baseSize h)]), resultCache).

(** For the others: what [serialize] wrote; [None]: reading past the data. *)
Definition deserialize_nvls (data : list Z) : option (GpuIpcMemHandle * Z * Z) :=
  '(handle, it) ← deserialize c_GpuIpcMemHandle data;
  '(gran, it) ← deserialize c_u64 it;
  '(num, it) ← deserialize c_i32 it;
  Some (handle, gran, num).

Definition Impl_import (d : import_answers) (data : list Z) : option (M Impl) :=
  '(handle, gran, num) ← deserialize_nvls data;
  Some (g ← GpuIpcMem_create d handle; mret (mkImpl None g gran false num (mkRanges [] [(0, baseSize handle)]))).

Definition Impl_serialize (n : Impl) : result (list Z) :=
  if negb (isRoot_ n) then Throw (EError InvalidUsage) else
  match localGpuIpcMemHandle_ n with
  | Some h => Ok (serialize c_i32 (serialize c_u64 (serialize c_GpuIpcMemHandle [] h) (minMcGran_ n)) (numDevices_ n))
  | None => Throw (EError InvalidUsage)
  end.

(** *** Channels *)

(** [SwitchChannel], with what the deleter of [mcPtr_] keeps. *)
Record channel := mkChannel { devicePtr_ : Z; mcPtr_ : Z; bufferSize_ : Z; c_offset : Z; c_size : Z; c_map : multimapping }.

Definition align_up (gran x : Z) : Z := u64 (u64 (x + gran - 1) / gran * gran).

(** The range stays allocated when [mapMulticast] throws. *)
Definition bindMemory (d : multimap_answers) (devicePtr devBuffSize : Z) (n : Impl) (w : world)
    : result (Z * Z * Z * multimapping) * Impl * world :=
  let devBuffSize := align_up (minMcGran_ n) devBuffSize in
  match allocateRange devBuffSize (n_ranges n) with
  | Throw e => (Throw e, n, w)
  | Ok (offset, r) =>
      let n := set_ranges n r in
      let '(res, g, w) := mapMulticast true d (gpuIpcMem_ n) offset devicePtr devBuffSize w in
      ('(mcPtr, m) ← res; Ok (mcPtr, offset, devBuffSize, m), set_mem n g, w)
  end.

Definition bindAllocatedMemory (d : multimap_answers) (devicePtr size : Z) (n : Impl) (w : world) : result channel * Impl * world :=
  let '(res, n, w) := bindMemory d devicePtr size n w in
  ('(mcPtr, offset, sz, m) ← res; Ok (mkChannel devicePtr mcPtr size offset sz m), n, w).

(** The deleter of [mcPtr_] frees the range; then the mapping it holds is released. *)
Definition release_channel (device : bool) (c : channel) (n : Impl) (w : world) : Impl * world :=
  let n := set_ranges n (freeRange (c_offset c) (c_size c) (n_ranges n)) in
  (n, (unmapMulticast device (c_map c) w).2).

Record device_handle := mkDeviceHandle { dh_devicePtr : Z; dh_mcPtr : Z; dh_bufferSize : Z }.
Definition deviceHandle (c : channel) : device_handle := mkDeviceHandle (devicePtr_ c) (mcPtr_ c) (bufferSize_ c).

(** A process uses a connection: channels are bound, and released in any order. *)
Inductive nvls_op := Bind (d : multimap_answers) (devicePtr size : Z) | Release (i : nat).
Record nvls := mkNvls { s_impl : Impl; s_world : world; s_channels : list channel }.

Definition nvls_step (s : nvls) (op : nvls_op) : option nvls :=
  match op with
  | Bind d devicePtr size =>
      let '(r, n, w) := bindAllocatedMemory d devicePtr size (s_impl s) (s_world s) in
      Some (mkNvls n w (match r with Ok c => s_channels s ++ [c] | Throw _ => s_channels s end))
  | Release i =>
      c ← s_channels s !! i;
      let '(n, w) := release_channel true c (s_impl s) (s_world s) in
      Some (mkNvls n w (delete i (s_channels s)))
  end.

Fixpoint nvls_run (s : nvls) (l : list nvls_op) : option nvls :=
  match l with [] => Some s | op :: l' => s' ← nvls_step s op; nvls_run s' l' end.

(** *** Connecting a group *)

(** Who is the root; [None]: an empty list is read past its end. *)
Inductive connect_role := RRoot (peers : list Z) | RPeer (root : Z).

Definition nvls_role (rank : Z) (allRanks : list Z) : option (result connect_role) :=
  match allRanks with
  | [] => None
  | first :: _ =>
      let rootRank := foldl (fun root r => Z.min root r) first allRanks in
      if negb (existsb (fun r => r =? rank) allRanks) then Some (Throw (EError InvalidUsage))
      else if rootRank =? rank then Some (Ok (RRoot (filter (fun r => r <> rank) allRanks)))
      else Some (Ok (RPeer rootRank))
  end.

(** What the root makes and sends to each peer. *)
Definition connect_root (pid : Z) (resultCache : option bool) (d : root_answers) (bufferSize : Z) (allRanks peers : list Z)
    : M (Impl * list (Z * list Z)) :=
  '(n, _) ← Impl_create pid resultCache d bufferSize (Z.of_nat (length allRanks));
  match Impl_serialize n with
  | Ok serialized => mret (n, (fun peer => (peer, send_vector serialized)) <$> peers)
  | Throw e => throw e
  end.

(** What a peer does with what has arrived from the root. *)
Definition connect_peer (d : import_answers) (wire : list Z) : option (M Impl * list Z) :=
  r ← recv_vector wire;
  match r with
  | Throw e => Some (throw e, wire)
  | Ok (data, wire) => m ← Impl_import d data; Some (m, wire)
  end.

(** *** What the lists stand for *)

Definition covers (x : Z) (r : Z * Z) : nat := if bool_decide (r.1 <= x < r.1 + r.2) then 1 else 0.
Definition times (x : Z) (l : list (Z * Z)) : nat := sum_list_with (covers x) l.

(** Free ranges lie after [lo] and within [hi], in order, and with something between any two. *)
Fixpoint chain (lo hi : Z) (l : list (Z * Z)) : Prop :=
  match l with
  | [] => True
  | (o, s) :: rest => lo < o /\ 0 < s /\ o + s <= hi /\ chain (o + s) hi rest
  end.

(** Every byte of the object is in one range, free or allocated. *)
Definition partition (total : Z) (r : ranges) : Prop :=
  chain (-1) total (freeRanges_ r) /\
  forall x : Z, (times x (allocatedRanges_ r) + times x (freeRanges_ r))%nat = if bool_decide (0 <= x < total) then 1%nat else 0%nat.

Lemma covers_in x o s : o <= x < o + s -> covers x (o, s) = 1%nat.
Proof. intros H. unfold covers. by rewrite bool_decide_true. Qed.
Lemma covers_out x o s : ~ o <= x < o + s -> covers x (o, s) = 0%nat.
Proof. intros H. unfold covers. by rewrite bool_decide_false. Qed.

(** Decide all the memberships of a goal. *)
Ltac count := unfold covers in *; cbn [fst snd] in *; repeat case_bool_decide; try lia.

Lemma chain_weaken lo lo' hi l : lo' <= lo -> chain lo hi l -> chain lo' hi l.
Proof. destruct l as [|[o s] l]; simpl; [done|]. intros ? (? & ? & ? & ?). split_and!; [lia|done..]. Qed.

Lemma chain_after lo hi l x : chain lo hi l -> x <= lo -> times x l = 0%nat.
Proof.
  revert lo. induction l as [|[o s] l IH]; intros lo; simpl; [done|]. intros (H1 & H2 & H3 & H4) Hx.
  unfold times in *. simpl. rewrite (IH (o + s)) by (done || lia). rewrite covers_out; [done|lia].
Qed.

Lemma chain_bound lo hi l x : chain lo hi l -> hi <= x -> times x l = 0%nat.
Proof.
  revert lo. induction l as [|[o s] l IH]; intros lo; simpl; [done|]. intros (H1 & H2 & H3 & H4) Hx.
  unfold times in *. simpl. rewrite (IH (o + s)) by done. rewrite covers_out; [done|lia].
Qed.

Section allocator.
Context (hi : Z).
Hypothesis Hhi : hi < 2 ^ 64.

Lemma take_fit_some size free : forall lo off free', -1 <= lo -> 0 <= size -> chain lo hi free -> take_fit size free = Some (off, free') ->
  chain lo hi free' /\ lo < off /\ off + size <= hi /\ forall x, times x free = (covers x (off, size) + times x free')%nat.
Proof using Hhi.
  induction free as [|[o s] free IH]; intros lo off free' Hlo Hsz; simpl; [done|]. intros (H1 & H2 & H3 & H4).
  destruct (Z.leb_spec size s).
  - destruct (Z.eqb_spec s size) as [->|Hne]; intros [= <- <-].
    + split_and!; [by apply (chain_weaken (o + size)); [lia|]|lia|lia|]. intros x. done.
    + rewrite !u64_small by lia. split_and!; simpl; [|lia|lia|].
      * split_and!; [lia|lia|lia|]. by replace (o + size + (s - size)) with (o + s) by lia.
      * intros x. unfold times. simpl. count.
  - destruct (take_fit size free) as [[off1 rest]|] eqn:E; [|done]. simpl. intros [= <- <-].
    destruct (IH (o + s) off1 rest) as (G1 & G2 & G3 & G4); try done; [lia|]. split_and!; simpl; [by split_and!|lia|lia|].
    intros x. unfold times in *. simpl. rewrite G4. lia.
Qed.

(** A gap lies inside one free range: the list is coalesced. *)
Lemma gap_in_range free : forall lo o size, chain lo hi free -> 0 < size -> (forall x, o <= x < o + size -> times x free <> 0%nat) ->
  exists o' s', (o', s') ∈ free /\ o' <= o /\ o + size <= o' + s'.
Proof using.
  induction free as [|[o1 s1] free IH]; intros lo o size; cbn [chain]; [intros _ Hs Hg; by destruct (Hg o ltac:(lia))|].
  intros (H1 & H2 & H3 & H4) Hs Hg. destruct (decide (o1 + s1 <= o)).
  - destruct (IH (o1 + s1) o size H4 Hs) as (o' & s' & Hin & ? & ?).
    + intros x Hx. specialize (Hg x Hx). unfold times in *. simpl in Hg. rewrite covers_out in Hg by lia. done.
    + exists o', s'. split_and!; [by right|done|done].
  - assert (o1 <= o).
    { destruct (decide (o1 <= o)); [done|]. exfalso. apply (Hg o ltac:(lia)). unfold times. simpl. rewrite covers_out by lia.
      apply (chain_after (o1 + s1) hi); [done|lia]. }
    exists o1, s1. split_and!; [by left|done|]. destruct (decide (o + size <= o1 + s1)); [done|]. exfalso.
    apply (Hg (o1 + s1) ltac:(lia)). unfold times. simpl. rewrite covers_out by lia. apply (chain_after (o1 + s1) hi); [done|lia].
Qed.

(** [take_fit] finds the lowest place. *)
Lemma take_fit_least size free : forall lo o' s', chain lo hi free -> (o', s') ∈ free -> size <= s' ->
  exists off free', take_fit size free = Some (off, free') /\ off <= o'.
Proof using.
  induction free as [|[o s] free IH]; intros lo o' s' Hc Hin Hs; [by apply elem_of_nil in Hin|].
  destruct Hc as (H1 & H2 & H3 & H4). simpl. destruct (Z.leb_spec size s).
  - eexists _, _. split; [done|]. apply elem_of_cons in Hin as [[= -> ->]|Hin]; [lia|].
    clear -H2 H4 Hin. assert (G : forall l lo, chain lo hi l -> (o', s') ∈ l -> lo < o').
    { induction l as [|[a b] l IH]; intros lo Hc Hl; [by apply elem_of_nil in Hl|]. destruct Hc as (? & ? & ? & ?).
      apply elem_of_cons in Hl as [[= -> ->]|Hl]; [done|]. specialize (IH (a + b) ltac:(done) Hl). lia. }
    specialize (G free (o + s) H4 Hin). lia.
  - apply elem_of_cons in Hin as [[= -> ->]|Hin]; [lia|]. destruct (IH (o + s) o' s' H4 Hin Hs) as (off & free' & E & ?).
    rewrite E. simpl. by eexists _, _.
Qed.

Lemma insert_free_ok offset size free : forall lo, -1 <= lo -> chain lo hi free -> lo < offset -> 0 < size -> offset + size <= hi ->
  (forall x, offset <= x < offset + size -> times x free = 0%nat) ->
  chain lo hi (insert_free offset size free) /\ forall x, times x (insert_free offset size free) = (covers x (offset, size) + times x free)%nat.
Proof using Hhi.
  induction free as [|[o s] free IH]; intros lo Hlo Hc Hof Hsz Hend Hz; cbn [insert_free]; [simpl; split_and!; try done; lia|].
  destruct Hc as (H1 & H2 & H3 & H4). rewrite (u64_small (o + s)) by lia.
  assert (Hz' : forall x, offset <= x < offset + size -> ~ o <= x < o + s /\ times x free = 0%nat).
  { intros x Hx. specialize (Hz x Hx). unfold times in *. simpl in Hz. revert Hz. count. }
  destruct (Z.leb_spec offset (o + s)).
  - destruct (Z.eqb_spec (o + s) offset) as [He|Hne].
    + assert (Hnext : forall o' s' rest, free = (o', s') :: rest -> offset + size <= o').
      { intros o' s' rest ->. destruct (decide (offset + size <= o')); [done|]. exfalso. destruct H4 as (? & ? & ? & ?).
        destruct (Hz' o' ltac:(lia)) as [_ Hx]. unfold times in Hx. simpl in Hx. rewrite covers_in in Hx by lia. lia. }
      destruct free as [|[o' s'] rest].
      * rewrite u64_small by lia. simpl. split_and!; try done; try lia. intros x. unfold times. simpl. count.
      * specialize (Hnext o' s' rest eq_refl). destruct H4 as (G1 & G2 & G3 & G4). rewrite (u64_small (s + size)), (u64_small (o + _)) by lia.
        destruct (Z.eqb_spec (o + (s + size)) o').
        -- rewrite u64_small by lia. simpl. split_and!; try done; try lia.
           ++ by replace (o + (s + size + s')) with (o' + s') by lia.
           ++ intros x. unfold times. simpl. count.
        -- simpl. split_and!; try done; try lia. intros x. unfold times. simpl. count.
    + assert (Hlt : offset + size <= o).
      { destruct (decide (offset + size <= o)); [done|]. exfalso. destruct (Hz' (Z.max offset o) ltac:(lia)) as [Hx _]. lia. }
      rewrite (u64_small (offset + size)) by lia. destruct (Z.eqb_spec o (offset + size)) as [He|].
      * rewrite !u64_small by lia. simpl. split_and!; try lia; [by replace (o - size + (s + size)) with (o + s) by lia|].
        intros x. unfold times. simpl. count.
      * simpl. split_and!; try done; lia.
  - destruct (IH (o + s)) as [G1 G2]; try done; try lia. { intros x Hx. by apply Hz'. }
    split; [simpl; by split_and!|]. intros x. unfold times in *. simpl. rewrite G2. lia.
Qed.
End allocator.

(** *** The two operations *)

Lemma times_app x l l' : times x (l ++ l') = (times x l + times x l')%nat.
Proof. apply sum_list_with_app. Qed.

Lemma times_perm x l l' : l ≡ₚ l' -> times x l = times x l'.
Proof. unfold times. by intros ->. Qed.

Lemma remove_one_perm {A} `{EqDecision A} (x : A) l : x ∈ l -> l ≡ₚ x :: remove_one x l.
Proof.
  induction l as [|y l IH]; intros H; [by apply elem_of_nil in H|]. simpl. case_decide as E; [by subst|].
  apply elem_of_cons in H as [H|H]; [done|]. rewrite (IH H) at 1. apply Permutation_swap.
Qed.

Lemma times_in x o s l : (o, s) ∈ l -> o <= x < o + s -> (0 < times x l)%nat.
Proof. intros Hin Hx. rewrite (times_perm x _ _ (remove_one_perm _ _ Hin)). unfold times. simpl. rewrite covers_in by done. lia. Qed.

Lemma allocate_ok total size r off r' : total < 2 ^ 64 -> partition total r -> 0 <= size -> allocateRange size r = Ok (off, r') ->
  partition total r' /\ 0 <= off /\ off + size <= total /\ allocatedRanges_ r' = allocatedRanges_ r ++ [(off, size)].
Proof.
  intros Ht [Hc Hp] Hs H. unfold allocateRange in H. destruct (freeRanges_ r) as [|f free] eqn:Ef; [done|]. rewrite <- Ef in *.
  destruct (take_fit size (freeRanges_ r)) as [[off1 free']|] eqn:E; [|done]. injection H as <- <-.
  destruct (take_fit_some total Ht size (freeRanges_ r) (-1) off1 free' ltac:(lia) Hs Hc E) as (H1 & H2 & H3 & H4).
  split; [split; simpl; [done|]|split_and!; [lia|done|done]]. intros x. rewrite <- Hp, times_app, H4. unfold times. simpl. lia.
Qed.

(** A request is refused exactly when no gap of the object is large enough; it gets the lowest one. *)
Lemma allocate_complete total size r : partition total r -> 0 < size ->
  (forall o, 0 <= o -> o + size <= total -> (forall x, o <= x < o + size -> times x (allocatedRanges_ r) = 0%nat) ->
     exists off r', allocateRange size r = Ok (off, r') /\ off <= o).
Proof.
  intros [Hc Hp] Hs o Ho Hend Hg. destruct (gap_in_range total (freeRanges_ r) (-1) o size Hc Hs) as (o' & s' & Hin & H1 & H2).
  { intros x Hx. specialize (Hp x). rewrite (Hg x Hx), bool_decide_true in Hp by lia. lia. }
  destruct (take_fit_least total size (freeRanges_ r) (-1) o' s' Hc Hin ltac:(lia)) as (off & free' & E & Hle).
  unfold allocateRange. rewrite E. destruct (freeRanges_ r); [by apply elem_of_nil in Hin|]. eexists _, _. split; [done|lia].
Qed.

Lemma partition_in total r o s x : partition total r -> (o, s) ∈ allocatedRanges_ r -> o <= x < o + s -> 0 <= x < total.
Proof.
  intros [_ Hp] Hin Hx. specialize (Hp x). pose proof (times_in x o s _ Hin Hx) as H. revert Hp. case_bool_decide; [done|]. intros; lia.
Qed.

Lemma free_ok total off size r : total < 2 ^ 64 -> partition total r -> (off, size) ∈ allocatedRanges_ r -> 0 < size ->
  partition total (freeRange off size r) /\ allocatedRanges_ (freeRange off size r) = remove_one (off, size) (allocatedRanges_ r).
Proof.
  intros Ht Hpart Hin Hs. pose proof (partition_in total r off size off Hpart Hin ltac:(lia)) as H1.
  pose proof (partition_in total r off size (off + size - 1) Hpart Hin ltac:(lia)) as H2. destruct Hpart as [Hc Hp].
  unfold freeRange. rewrite decide_True by done. split; [|done].
  destruct (insert_free_ok total Ht off size (freeRanges_ r) (-1)) as [G1 G2]; try done; try lia.
  - intros x Hx. specialize (Hp x). pose proof (times_in x off size _ Hin Hx). revert Hp. case_bool_decide; lia.
  - split; simpl; [done|]. intros x. rewrite <- Hp, G2, (times_perm x _ _ (remove_one_perm _ _ Hin)). unfold times. simpl. lia.
Qed.

(** With nothing allocated the object is one free range. *)
Lemma all_free total r : 0 < total -> partition total r -> allocatedRanges_ r = [] -> freeRanges_ r = [(0, total)].
Proof.
  intros Ht [Hc Hp] Ha. rewrite Ha in Hp. unfold times at 1 in Hp. simpl in Hp.
  assert (Hcov : forall x, 0 <= x < total -> times x (freeRanges_ r) <> 0%nat) by (intros x Hx; rewrite Hp, bool_decide_true by done; done).
  destruct (freeRanges_ r) as [|[o s] free] eqn:E; [by destruct (Hcov 0 ltac:(lia))|]. destruct Hc as (H1 & H2 & H3 & H4).
  assert (o = 0) as ->.
  { destruct (decide (o = 0)); [done|]. exfalso. apply (Hcov 0 ltac:(lia)). unfold times. simpl. rewrite covers_out by lia.
    apply (chain_after (o + s) total); [done|lia]. }
  assert (s = total) as ->.
  { destruct (decide (s = total)); [done|]. exfalso. apply (Hcov s ltac:(lia)). unfold times. simpl. rewrite covers_out by lia.
    apply (chain_after (0 + s) total); [done|lia]. }
  destruct free as [|[o s] free]; [done|]. destruct H4 as (? & ? & ? & ?). lia.
Qed.

Definition aligned (gran : Z) (l : list (Z * Z)) : Prop := Forall (fun r => r.1 mod gran = 0) l.

Lemma mod_add_0 g a b : a mod g = 0 -> b mod g = 0 -> (a + b) mod g = 0.
Proof. intros H1 H2. by rewrite Zplus_mod, H1, H2, Z.add_0_l, Zmod_0_l. Qed.
Lemma mod_sub_0 g a b : a mod g = 0 -> b mod g = 0 -> (a - b) mod g = 0.
Proof. intros H1 H2. by rewrite Zminus_mod, H1, H2, Z.sub_0_r, Zmod_0_l. Qed.

Lemma take_fit_aligned gran hi size free : hi < 2 ^ 64 -> size mod gran = 0 -> 0 <= size -> forall lo off free', -1 <= lo -> chain lo hi free ->
  aligned gran free -> take_fit size free = Some (off, free') -> off mod gran = 0 /\ aligned gran free'.
Proof.
  intros Hhi Hg Hs. induction free as [|[o s] free IH]; intros lo off free' Hlo; simpl; [done|]. intros (H1 & H2 & H3 & H4) [Ho Hal]%Forall_cons.
  simpl in Ho. destruct (Z.leb_spec size s).
  - destruct (s =? size); intros [= <- <-]; split; try done. apply Forall_cons. split; [|done]. simpl. rewrite u64_small by lia. by apply mod_add_0.
  - destruct (take_fit size free) as [[off1 rest]|] eqn:E; [|done]. simpl. intros [= <- <-].
    destruct (IH (o + s) off1 rest) as [G1 G2]; try done; [lia|]. split; [done|]. by apply Forall_cons.
Qed.

Lemma insert_free_aligned gran hi off size free : hi < 2 ^ 64 -> off mod gran = 0 -> size mod gran = 0 -> 0 < size -> forall lo, -1 <= lo -> chain lo hi free ->
  aligned gran free -> 0 <= off -> off + size <= hi -> aligned gran (insert_free off size free).
Proof.
  intros Hhi Hg Hg' Hs. induction free as [|[o s] free IH]; intros lo Hlo Hc Hal H0 Hend; simpl; [by apply Forall_singleton|].
  apply Forall_cons in Hal as [Ho Hal]. simpl in Ho. destruct Hc as (H1 & H2 & H3 & H4). rewrite (u64_small (o + s)) by lia.
  destruct (_ <=? _); [|apply Forall_cons; split; [done|apply (IH (o + s)); try done; lia]]. destruct (o + s =? off).
  - destruct free as [|[o' s'] rest]; [by apply Forall_singleton|]. apply Forall_cons in Hal as [? ?]. destruct (_ =? _); by repeat (apply Forall_cons; split).
  - rewrite (u64_small (off + size)) by lia. destruct (Z.eqb_spec o (off + size)) as [->|]; apply Forall_cons; split; try done.
    + simpl. rewrite u64_small by lia. by replace (off + size - size) with off by lia.
    + by apply Forall_cons.
Qed.

(** *** The invariant of a connection *)

Lemma align_granule gran x : 0 < gran < 2 ^ 64 -> align_up gran x mod gran = 0 /\ 0 <= align_up gran x /\
  (0 <= x -> x + gran <= 2 ^ 64 -> x <= align_up gran x < x + gran).
Proof.
  intros Hg. unfold align_up. set (y := u64 (x + gran - 1)). pose proof (u64_is_u (x + gran - 1)) as Hy. fold y in Hy. unfold is_u in Hy.
  pose proof (Z.div_mod y gran ltac:(lia)). pose proof (Z.mod_pos_bound y gran ltac:(lia)).
  assert (0 <= y / gran) by (apply Z.div_pos; lia). rewrite (u64_small (y / gran * gran)) by nia.
  split; [by apply Z_mod_mult|]. split; [nia|]. intros ? ?. unfold y in *. rewrite (u64_small (x + gran - 1)) in * by lia. lia.
Qed.

Definition range_of (c : channel) : Z * Z := (c_offset c, c_size c).

Record channel_ok (gran alloc : Z) (c : channel) : Prop := {
  ch_pos : 0 < c_size c;
  ch_aligned : c_size c mod gran = 0;
  ch_large : 0 <= bufferSize_ c -> bufferSize_ c + gran <= 2 ^ 64 -> bufferSize_ c <= c_size c < bufferSize_ c + gran;
  ch_address : mcPtr_ c = mu_ptr (c_map c) + c_offset c;
  ch_map : c_map c = mkMultimapping (mu_ptr (c_map c)) (c_offset c + c_size c) alloc (c_offset c) (c_size c)
}.

(** [leaked]: the ranges that no channel has and that are not free either. *)
Record nvls_ok (total gran alloc : Z) (leaked : list (Z * Z)) (s : nvls) : Prop := {
  k_gran : minMcGran_ (s_impl s) = gran;
  k_mem : g_allocHandle (gpuIpcMem_ (s_impl s)) = alloc;
  k_part : partition total (n_ranges (s_impl s));
  k_alloc : allocatedRanges_ (n_ranges (s_impl s)) ≡ₚ (range_of <$> s_channels s) ++ leaked;
  k_offsets : aligned gran (freeRanges_ (n_ranges (s_impl s))) /\ aligned gran (allocatedRanges_ (n_ranges (s_impl s)));
  k_channels : Forall (channel_ok gran alloc) (s_channels s)
}.

Section connection.
Context (total gran alloc : Z).
Hypothesis Htotal : 0 < total < 2 ^ 64.
Hypothesis Hgran : 0 < gran < 2 ^ 64.

Lemma bind_step d ptr size n w res n' w' : bindAllocatedMemory d ptr size n w = (res, n', w') ->
  minMcGran_ n = gran -> g_allocHandle (gpuIpcMem_ n) = alloc -> partition total (n_ranges n) ->
  aligned gran (freeRanges_ (n_ranges n)) ->
  minMcGran_ n' = gran /\ g_allocHandle (gpuIpcMem_ n') = alloc /\ partition total (n_ranges n') /\ aligned gran (freeRanges_ (n_ranges n')) /\
  match allocateRange (align_up gran size) (n_ranges n) with
  | Throw e => res = Throw e /\ n' = n /\ w' = w
  | Ok (off, r) =>
      n_ranges n' = r /\ off mod gran = 0 /\ allocatedRanges_ r = allocatedRanges_ (n_ranges n) ++ [(off, align_up gran size)] /\
      match res with
      | Ok c => range_of c = (off, align_up gran size) /\ channel_ok gran alloc c /\ devicePtr_ c = ptr /\ bufferSize_ c = size /\
          mm_reserve d = Some (mu_ptr (c_map c)) /\
          w' = mkWorld (w_refs w) (w_fds w) (w_registered w) (<[mu_ptr (c_map c) := mu_mapSize (c_map c)]> (w_reserved w))
            (<[mu_ptr (c_map c) := (mu_mapSize (c_map c), alloc)]> (w_mapped w)) (w_opened w) ((alloc, c_offset c, c_size c) :: w_bound w) (w_cache w)
      | Throw _ => True
      end
  end.
Proof using Htotal Hgran.
  intros H Eg Em Hp Hal. unfold bindAllocatedMemory, bindMemory in H. rewrite Eg in H.
  destruct (align_granule gran size Hgran) as (A1 & A2 & A3).
  destruct (allocateRange (align_up gran size) (n_ranges n)) as [[off r]|e] eqn:Ea; [|by simplify_eq/=].
  destruct (allocate_ok total _ _ _ _ ltac:(lia) Hp A2 Ea) as (P1 & P2 & P3 & P4).
  assert (Hoff : off mod gran = 0 /\ aligned gran (freeRanges_ r)).
  { unfold allocateRange in Ea. destruct (freeRanges_ (n_ranges n)) as [|f fs] eqn:Ef; [done|]. rewrite <- Ef in *. destruct Hp as [Hc _].
    destruct (take_fit _ _) as [[o fr]|] eqn:Et; [|done]. injection Ea as -> <-.
    by apply (take_fit_aligned gran total _ _ ltac:(lia) A1 A2 (-1) off fr ltac:(lia) Hc Hal Et). }
  cbn [set_ranges gpuIpcMem_] in H.
  destruct (mapMulticast true d (gpuIpcMem_ n) off ptr (align_up gran size) w) as [[[[x m]|e] g] v] eqn:Em'; simplify_eq/=.
  - destruct (mapMulticast_ok _ _ _ _ _ _ _ _ _ _ Em') as (base & dev & Er & Ed & H1 & H2 & H3 & H4 & -> & -> & -> & ->). simpl.
    rewrite u64_small by lia. split_and!; try done; [apply Hoff|apply Hoff|]. split; simpl; try done; lia.
  - split_and!; try done; [|apply Hoff|apply Hoff]. unfold mapMulticast in Em'.
    destruct (add_device true d (gpuIpcMem_ n) w) as [[g1|e1] v1] eqn:Ea'; simplify_eq; [|done].
    destruct (bind_and_map _ _ _ _ _ _) as [rr vv]. simplify_eq. revert Ea'. unfold add_device. cbn [negb]. destruct (_ && _); [done|].
    destruct (mm_device d) as [dev|]; [|done]. destruct (_ =? -1).
    + run. destruct (mm_add d); try done. by intros [= <- <-].
    + destruct (negb _); [done|]. by intros [= <- <-].
Qed.

Lemma remove_one_fmap {A} (f : A -> Z * Z) (l : list A) i c : l !! i = Some c -> remove_one (f c) (f <$> l) ≡ₚ f <$> delete i l.
Proof using.
  intros H. apply (Permutation_cons_inv (a := f c)). rewrite <- remove_one_perm.
  - change (f c :: (f <$> delete i l)) with (f <$> (c :: delete i l)). by rewrite <- (delete_Permutation _ _ _ H).
  - apply list_elem_of_fmap. exists c. split; [done|]. by eapply list_elem_of_lookup_2.
Qed.

Lemma remove_one_app {A} `{EqDecision A} (x : A) l l' : x ∈ l -> remove_one x (l ++ l') = remove_one x l ++ l'.
Proof using.
  induction l as [|y l IH]; intros H; [by apply elem_of_nil in H|]. simpl. case_decide; [done|].
  apply elem_of_cons in H as [H|H]; [done|]. simpl. by rewrite IH.
Qed.

Lemma remove_one_proper {A} `{EqDecision A} (x : A) l l' : l ≡ₚ l' -> remove_one x l ≡ₚ remove_one x l'.
Proof using.
  induction 1 as [|y l l' H IH|y z l|l l' l'' H1 IH1 H2 IH2]; simpl; [done| | |by etrans].
  - case_decide; [done|]. by constructor.
  - repeat case_decide; subst; try done. by constructor.
Qed.

Lemma aligned_remove x l : aligned gran l -> aligned gran (remove_one x l).
Proof using. unfold aligned. induction 1 as [|y l Hy Hl IH]; simpl; [done|]. case_decide; [done|]. by constructor. Qed.

Lemma release_step s i c leaked s' : nvls_ok total gran alloc leaked s -> s_channels s !! i = Some c -> nvls_step s (Release i) = Some s' ->
  nvls_ok total gran alloc leaked s'.
Proof using Htotal Hgran.
  intros [K1 K2 K3 K4 [K5 K6] K7] Hi H. simpl in H. rewrite Hi in H. simpl in H. injection H as <-.
  pose proof (Forall_lookup_1 _ _ _ _ K7 Hi) as Hc. destruct Hc as [C1 C2 C3 C4 C5].
  assert (Hl : range_of c ∈ range_of <$> s_channels s) by (apply list_elem_of_fmap; exists c; split; [done|by eapply list_elem_of_lookup_2]).
  assert (Hin : (c_offset c, c_size c) ∈ allocatedRanges_ (n_ranges (s_impl s))) by (rewrite K4; apply elem_of_app; by left).
  destruct (free_ok total _ _ _ ltac:(lia) K3 Hin C1) as [F1 F2].
  pose proof (partition_in total _ _ _ (c_offset c) K3 Hin ltac:(lia)) as B1.
  pose proof (partition_in total _ _ _ (c_offset c + c_size c - 1) K3 Hin ltac:(lia)) as B2.
  split; simpl; try done.
  - rewrite F2. rewrite (remove_one_proper _ _ _ K4), remove_one_app by done. by rewrite (remove_one_fmap range_of _ _ _ Hi).
  - rewrite F2. split; [|by apply aligned_remove]. unfold freeRange. rewrite decide_True by done. simpl. destruct K3 as [K3 _].
    apply (insert_free_aligned gran total) with (lo := -1); try done; try lia.
    pose proof (proj1 (Forall_forall _ _) K6 _ Hin). done.
  - by apply Forall_delete.
Qed.

Lemma nvls_ok_step s op s' leaked : nvls_ok total gran alloc leaked s -> nvls_step s op = Some s' ->
  exists more, nvls_ok total gran alloc (leaked ++ more) s'.
Proof using Htotal Hgran.
  intros K H. destruct op as [d ptr size|i].
  - simpl in H. destruct (bindAllocatedMemory d ptr size (s_impl s) (s_world s)) as [[res n'] w'] eqn:Eb. injection H as <-.
    destruct K as [K1 K2 K3 K4 [K5 K6] K7]. destruct (bind_step _ _ _ _ _ _ _ _ Eb K1 K2 K3 K5) as (G1 & G2 & G3 & G4 & G5).
    destruct (allocateRange (align_up gran size) (n_ranges (s_impl s))) as [[off r]|e].
    + destruct G5 as (E1 & E2 & E3 & E4). assert (Hal : aligned gran (allocatedRanges_ r)).
      { rewrite E3. apply Forall_app. split; [done|]. by apply Forall_singleton. }
      destruct res as [c|e].
      * destruct E4 as (E4 & E5 & _). exists []. split; simpl; rewrite ?E1; try done; rewrite ?E1 in *; try done.
        -- rewrite E3, K4, app_nil_r, fmap_app. simpl. rewrite E4. rewrite <- !app_assoc. apply Permutation_app_head, Permutation_app_comm.
        -- apply Forall_app. split; [done|]. by apply Forall_singleton.
      * exists [(off, align_up gran size)]. split; simpl; rewrite ?E1 in *; try done. by rewrite E3, K4, app_assoc.
    + destruct G5 as (-> & -> & ->). exists []. rewrite app_nil_r. by split.
  - destruct (s_channels s !! i) as [c|] eqn:Ei; [|simpl in H; by rewrite Ei in H]. exists []. rewrite app_nil_r. by apply (release_step s i c).
Qed.

Lemma nvls_ok_run l : forall s s' leaked, nvls_ok total gran alloc leaked s -> nvls_run s l = Some s' ->
  exists more, nvls_ok total gran alloc (leaked ++ more) s'.
Proof using Htotal Hgran.
  induction l as [|op l IH]; intros s s' leaked K H; simpl in H; [simplify_eq; exists []; by rewrite app_nil_r|].
  destruct (nvls_step s op) as [s1|] eqn:E; [|done]. destruct (nvls_ok_step s op s1 leaked K E) as [more K1].
  destruct (IH s1 s' _ K1 H) as [more' K2]. exists (more ++ more'). by rewrite app_assoc.
Qed.

Lemma nvls_ok_fresh n w : minMcGran_ n = gran -> g_allocHandle (gpuIpcMem_ n) = alloc -> n_ranges n = mkRanges [] [(0, total)] ->
  nvls_ok total gran alloc [] (mkNvls n w []).
Proof using Htotal.
  intros H1 H2 H3. split; simpl; rewrite ?H3; try done.
  - split; simpl; [lia|]. intros x. unfold times. simpl. count.
  - split; [|by constructor]. apply Forall_singleton. by apply Zmod_0_l.
Qed.
(** *** Giving everything back *)

(** A bind that either succeeds or finds no range, and for which the driver reserves new addresses. *)
Definition clean_op (s : nvls) (op : nvls_op) : Prop :=
  match op with
  | Bind d ptr size =>
      new_range (s_world s) (mm_reserve d) /\
      match (bindAllocatedMemory d ptr size (s_impl s) (s_world s)).1.1, allocateRange (align_up (minMcGran_ (s_impl s)) size) (n_ranges (s_impl s)) with
      | Throw _, Ok _ => False
      | _, _ => True
      end
  | Release _ => True
  end.
Fixpoint clean (s : nvls) (l : list nvls_op) : Prop :=
  match l with
  | [] => True
  | op :: l' => clean_op s op /\ match nvls_step s op with Some s' => clean s' l' | None => True end
  end.

Definition ptr_of (c : channel) : Z := mu_ptr (c_map c).
Definition bound_of (c : channel) : Z * Z * Z := (alloc, c_offset c, c_size c).

(** What a process holds besides what it held before. *)
Record held (w0 : world) (s : nvls) : Prop := {
  h_ptrs : NoDup (ptr_of <$> s_channels s);
  h_new : forall b, b ∈ ptr_of <$> s_channels s -> w_reserved w0 !! b = None /\ w_mapped w0 !! b = None /\ w_reserved (s_world s) !! b <> None;
  h_old : forall b, b ∉ ptr_of <$> s_channels s -> w_reserved (s_world s) !! b = w_reserved w0 !! b /\ w_mapped (s_world s) !! b = w_mapped w0 !! b;
  h_mapped : forall c, c ∈ s_channels s -> w_mapped (s_world s) !! ptr_of c = Some (c_offset c + c_size c, alloc);
  h_bound : w_bound (s_world s) ≡ₚ (bound_of <$> s_channels s) ++ w_bound w0;
  h_rest : w_refs (s_world s) = w_refs w0 /\ w_fds (s_world s) = w_fds w0 /\ w_registered (s_world s) = w_registered w0 /\
    w_opened (s_world s) = w_opened w0 /\ w_cache (s_world s) = w_cache w0
}.

Lemma held_bind w0 s c n d : held w0 s -> new_range (s_world s) (mm_reserve d) -> mm_reserve d = Some (ptr_of c) -> channel_ok gran alloc c ->
  let w := s_world s in
  held w0 (mkNvls n (mkWorld (w_refs w) (w_fds w) (w_registered w) (<[ptr_of c := mu_mapSize (c_map c)]> (w_reserved w))
    (<[ptr_of c := (mu_mapSize (c_map c), alloc)]> (w_mapped w)) (w_opened w) (bound_of c :: w_bound w) (w_cache w)) (s_channels s ++ [c])).
Proof using Htotal Hgran.
  intros [H1 H2 H3 H4 H5 H6] Hn Er Hc w. rewrite Er in Hn. destruct Hn as [N1 N2].
  assert (Hnew : ptr_of c ∉ ptr_of <$> s_channels s) by (intros Hin; destruct (H2 _ Hin) as (_ & _ & ?); done).
  split; simpl; rewrite ?fmap_app; simpl.
  - apply NoDup_app. split_and!; [done| |apply NoDup_singleton]. intros b Hb Hb2. apply list_elem_of_singleton in Hb2 as ->. done.
  - intros b [Hb|Hb%list_elem_of_singleton]%elem_of_app.
    + rewrite lookup_insert_ne by (intros <-; done). by apply H2.
    + subst b. destruct (H3 _ Hnew) as [<- <-]. rewrite lookup_insert_eq. done.
  - intros b Hb. rewrite elem_of_app, list_elem_of_singleton in Hb. rewrite !lookup_insert_ne by naive_solver. apply H3. naive_solver.
  - intros c' Hc'. apply elem_of_app in Hc' as [Hc'|Hc']; [|apply list_elem_of_singleton in Hc' as ->].
    + rewrite lookup_insert_ne; [by apply H4|]. intros E. apply Hnew. rewrite E. apply list_elem_of_fmap. by exists c'.
    + rewrite lookup_insert_eq. by rewrite (ch_map _ _ _ Hc).
  - unfold w. rewrite H5, <- app_assoc. simpl. by rewrite Permutation_middle.
  - done.
Qed.

Lemma held_release w0 s i c n : held w0 s -> s_channels s !! i = Some c -> channel_ok gran alloc c ->
  held w0 (mkNvls n (unmapMulticast true (c_map c) (s_world s)).2 (delete i (s_channels s))).
Proof using Htotal Hgran.
  intros [H1 H2 H3 H4 H5 H6] Hi Hc. pose proof (delete_Permutation _ _ _ Hi) as Hp.
  assert (Hpp : ptr_of <$> s_channels s ≡ₚ ptr_of c :: (ptr_of <$> delete i (s_channels s))) by (by rewrite Hp at 1).
  pose proof H1 as H1'. rewrite Hpp in H1'. apply NoDup_cons in H1' as [Hni H1'].
  assert (Hmem : forall b, b ∈ ptr_of <$> s_channels s <-> b = ptr_of c \/ b ∈ ptr_of <$> delete i (s_channels s)).
  { intros b. rewrite Hpp. by rewrite elem_of_cons. }
  unfold unmapMulticast. run. split; simpl; try done.
  - intros b Hb. rewrite lookup_delete_ne by (intros E; by apply Hni; rewrite <- E in Hb). apply H2, Hmem. by right.
  - intros b Hb. destruct (decide (b = ptr_of c)) as [->|Hne].
    + destruct (H2 (ptr_of c)) as (-> & -> & _); [apply Hmem; by left|]. unfold ptr_of. by rewrite !lookup_delete_eq.
    + rewrite !lookup_delete_ne by done. apply H3. rewrite Hmem. naive_solver.
  - intros c' Hc'. rewrite lookup_delete_ne.
    + apply H4. rewrite Hp. by right.
    + intros E. apply Hni. unfold ptr_of at 1. rewrite E. apply list_elem_of_fmap. by exists c'.
  - rewrite (ch_map _ _ _ Hc). simpl. rewrite (remove_one_proper _ _ _ H5), remove_one_app.
    + apply Permutation_app_tail. apply (Permutation_cons_inv (a := bound_of c)). rewrite <- remove_one_perm; [by rewrite Hp at 1|].
      apply list_elem_of_fmap. exists c. split; [done|]. by eapply list_elem_of_lookup_2.
    + apply list_elem_of_fmap. exists c. split; [done|]. by eapply list_elem_of_lookup_2.
Qed.

Lemma clean_run w0 l : forall s s', nvls_ok total gran alloc [] s -> held w0 s -> clean s l -> nvls_run s l = Some s' ->
  nvls_ok total gran alloc [] s' /\ held w0 s'.
Proof using Htotal Hgran.
  induction l as [|op l IH]; intros s s' K Hh Hc H; simpl in H; [by simplify_eq|].
  destruct Hc as [Hc1 Hc2]. destruct (nvls_step s op) as [s1|] eqn:E; [|done]. apply (IH s1 s'); try done; destruct op as [d ptr size|i].
  - destruct (nvls_ok_step s _ s1 [] K E) as [more K1]. destruct more as [|x more]; [done|]. exfalso.
    destruct K as [K1' K2 K3 K4 [K5 K6] K7]. simpl in E, Hc1.
    destruct (bindAllocatedMemory d ptr size (s_impl s) (s_world s)) as [[res n'] w'] eqn:Eb. injection E as <-.
    destruct (bind_step _ _ _ _ _ _ _ _ Eb K1' K2 K3 K5) as (_ & _ & _ & _ & G5). rewrite K1' in Hc1. destruct Hc1 as [_ Hc1]. simpl in Hc1.
    pose proof (k_alloc _ _ _ _ _ K1) as Hl. apply Permutation_length in Hl. simpl in Hl.
    destruct (allocateRange _ _) as [[off r]|e].
    + destruct res as [c|]; [|done]. destruct G5 as (E1 & _ & E2 & _). rewrite E1, E2 in Hl. apply Permutation_length in K4. simpl in *.
      rewrite !length_app, !length_fmap in *. simpl in *. rewrite length_app in Hl. simpl in Hl. lia.
    + destruct G5 as (-> & -> & ->). apply Permutation_length in K4. rewrite !length_app, !length_fmap in *. simpl in *. lia.
  - apply (release_step s i (match s_channels s !! i with Some c => c | None => mkChannel 0 0 0 0 0 (mkMultimapping 0 0 0 0 0) end)); try done.
    simpl in E. by destruct (s_channels s !! i).
  - destruct K as [K1 K2 K3 K4 [K5 K6] K7]. simpl in E, Hc1.
    destruct (bindAllocatedMemory d ptr size (s_impl s) (s_world s)) as [[res n'] w'] eqn:Eb. injection E as <-.
    destruct (bind_step _ _ _ _ _ _ _ _ Eb K1 K2 K3 K5) as (_ & _ & _ & _ & G5). rewrite K1 in Hc1. destruct Hc1 as [Hn Hc1]. simpl in Hc1.
    destruct (allocateRange _ _) as [[off r]|e].
    + destruct res as [c|]; [|done]. destruct G5 as (_ & _ & _ & E4 & E5 & _ & _ & E6 & ->). by apply (held_bind w0 s c n' d).
    + destruct G5 as (-> & -> & ->). destruct Hh. by split.
  - simpl in E. destruct (s_channels s !! i) as [c|] eqn:Ei; [|done]. simpl in E. injection E as <-. apply (held_release w0 s i c); try done.
    exact (Forall_lookup_1 _ _ _ _ (k_channels _ _ _ _ _ K) Ei).
Qed.
End connection.

(** Two entries of the allocated list do not overlap. *)
Lemma partition_disjoint total r o s o' s' rest x : partition total r -> allocatedRanges_ r ≡ₚ (o, s) :: (o', s') :: rest ->
  o <= x < o + s -> o' <= x < o' + s' -> False.
Proof.
  intros [_ Hp] He Hx Hx'. specialize (Hp x). rewrite (times_perm x _ _ He) in Hp. unfold times in Hp. simpl in Hp.
  rewrite !covers_in in Hp by done. revert Hp. case_bool_decide; lia.
Qed.

(** *** Lemmas: connecting *)

Lemma fold_min l : forall a, let m := foldl (fun root r => Z.min root r) a l in m <= a /\ (forall r, r ∈ l -> m <= r) /\ (m = a \/ m ∈ l).
Proof.
  induction l as [|r l IH]; intros a m; [split_and!; [done| |by left]; intros r Hr; by apply elem_of_nil in Hr|].
  subst m. simpl. destruct (IH (Z.min a r)) as (H1 & H2 & H3). split_and!; [lia| |].
  - intros r' Hr%elem_of_cons. destruct Hr as [->|Hr]; [lia|by apply H2].
  - destruct H3 as [H3|H3]; [|right; by right]. destruct (Z.min_spec a r) as [[? E]|[? E]]; rewrite E in H3 |- *; [by left|right; rewrite H3; by left].
Qed.

Lemma existsb_eq rank l : existsb (fun r => r =? rank) l = bool_decide (rank ∈ l).
Proof.
  symmetry. destruct (existsb _ l) eqn:E.
  - apply bool_decide_eq_true. apply existsb_exists in E as (r & Hin & ->%Z.eqb_eq). by apply list_elem_of_In.
  - apply bool_decide_eq_false. intros Hin%list_elem_of_In. rewrite <- not_true_iff_false, existsb_exists in E. apply E. exists rank.
    by rewrite Z.eqb_refl.
Qed.

(** Everyone in the list takes its least rank for the root. *)
Lemma role_spec allRanks root peers : nvls_role root allRanks = Some (Ok (RRoot peers)) ->
  peers = filter (fun r => r <> root) allRanks /\
  forall rank, nvls_role rank allRanks = if decide (rank ∈ allRanks) then Some (Ok (if decide (rank = root) then RRoot peers else RPeer root))
    else Some (Throw (EError InvalidUsage)).
Proof.
  unfold nvls_role. destruct allRanks as [|first l] eqn:E; [done|]. rewrite <- E. destruct (fold_min allRanks first) as (H1 & H2 & H3).
  set (m := foldl _ first allRanks) in *. rewrite existsb_eq. case_bool_decide; simpl; [|done]. destruct (Z.eqb_spec m root) as [<-|]; [|done].
  intros [= <-]. split; [done|]. intros rank. rewrite existsb_eq. destruct (decide (rank ∈ allRanks)).
  - rewrite bool_decide_true by done. simpl. destruct (Z.eqb_spec m rank) as [<-|]; [by rewrite decide_True|by rewrite decide_False].
  - by rewrite bool_decide_false.
Qed.

Lemma serialize_import n h : isRoot_ n = true -> localGpuIpcMemHandle_ n = Some h -> cwf c_GpuIpcMemHandle h -> is_u 64 (minMcGran_ n) ->
  - 2 ^ 31 <= numDevices_ n < 2 ^ 31 -> exists data, Impl_serialize n = Ok data /\ Z.of_nat (length data) < 2 ^ 31 /\
  deserialize_nvls data = Some (h, minMcGran_ n, numDevices_ n).
Proof.
  intros Hr Hh Hwf Hg Hn. unfold Impl_serialize. rewrite Hr, Hh. cbn [negb]. eexists. split; [done|].
  unfold serialize. rewrite app_nil_l. split.
  - rewrite !length_app, !enc_len. vm_compute. done.
  - unfold deserialize_nvls. rewrite <- !app_assoc, deserialize_enc by done. cbn [mbind option_bind].
    rewrite deserialize_enc by exact Hg. cbn [mbind option_bind]. rewrite deserialize_enc_nil by exact Hn. done.
Qed.

Lemma create_root pid cache d bufferSize num w n cache' w' : Impl_create pid cache d bufferSize num w = (Ok (n, cache'), w') ->
  exists h, localGpuIpcMemHandle_ n = Some h /\ isRoot_ n = true /\ numDevices_ n = num /\ n_ranges n = mkRanges [] [(0, baseSize h)].
Proof.
  unfold Impl_create. cbv beta iota zeta delta [mbind mret M_bind M_ret].
  destruct (createMulticast _ _ _ _ _ _ _) as [[[h ca]|e] v]; [|done]. destruct (typeFlags h =? Type_None).
  - unfold unwinding. destruct (throw _ v) as [[a|e] u] eqn:E; [|done]. done.
  - unfold unwinding at 1. destruct (GpuIpcMem_create _ _ _) as [[g|e] v1]; [|done]. unfold unwinding at 1.
    destruct (cu_throw _ v1) as [[[]|e] v2]; [|done]. destruct (has_type h Type_Fabric).
    + unfold unwinding at 1. destruct (cu_throw _ v2) as [[[]|e] v3]; [|done]. intros [= <- <- <-]. by exists h.
    + intros [= <- <- <-]. by exists h.
Qed.

Lemma import_fields d h w g w' : GpuIpcMem_create d h w = (Ok g, w') -> baseSize (g_handle g) = baseSize h.
Proof.
  unfold GpuIpcMem_create. destruct (typeFlags h =? Type_None); [done|]. run.
  destruct (has_type h Type_Fabric); [destruct (ia_fabric d)|]; simpl; try (destruct (has_type h Type_PosixFd); simpl);
    try (destruct (ia_request d); [|done]; destruct (ia_posix d); simpl); try (destruct (has_type h Type_RuntimeIpc); simpl); try done; by intros [= <- _].
Qed.

(** ** Properties *)

(** Bytes [o .. o + size) of the object that no allocated range has. *)
Definition gap (total o size : Z) (r : ranges) : Prop :=
  0 <= o /\ o + size <= total /\ forall x, o <= x < o + size -> times x (allocatedRanges_ r) = 0%nat.

(** C24: Whatever channels a process binds and releases, and in whatever order, failures included:
    every channel has a range inside the multicast object that begins and ends at whole
    granules, is as large as the memory bound to it and less than a granule larger, and is where
    the channel's multicast address points; and the ranges of two channels never overlap. *)
Theorem nvls_ranges_disjoint (total gran : Z) (n : Impl) (w : world) (l : list nvls_op) (s : nvls) :
  0 < total < 2 ^ 64 -> 0 < gran < 2 ^ 64 -> minMcGran_ n = gran -> n_ranges n = mkRanges [] [(0, total)] ->
  nvls_run (mkNvls n w []) l = Some s ->
  (forall c, c ∈ s_channels s ->
     0 <= c_offset c /\ 0 < c_size c /\ c_offset c + c_size c <= total /\ c_offset c mod gran = 0 /\ c_size c mod gran = 0 /\
     (0 <= bufferSize_ c -> bufferSize_ c + gran <= 2 ^ 64 -> bufferSize_ c <= c_size c < bufferSize_ c + gran) /\
     dh_mcPtr (deviceHandle c) = mu_ptr (c_map c) + c_offset c) /\
  (forall i j c c' x, s_channels s !! i = Some c -> s_channels s !! j = Some c' -> i <> j ->
     c_offset c <= x < c_offset c + c_size c -> ~ c_offset c' <= x < c_offset c' + c_size c').
Proof.
  intros Ht Hg Hm Hr H. destruct (nvls_ok_run total gran (g_allocHandle (gpuIpcMem_ n)) Ht Hg l _ s [] (nvls_ok_fresh total gran _ Ht n w Hm eq_refl Hr) H)
    as [leaked [K1 K2 K3 K4 [K5 K6] K7]]. simpl in K4. split.
  - intros c Hc. pose proof (proj1 (Forall_forall _ _) K7 _ Hc) as [C1 C2 C3 C4 C5].
    assert (Hin : (c_offset c, c_size c) ∈ allocatedRanges_ (n_ranges (s_impl s))).
    { rewrite K4. apply elem_of_app. left. apply list_elem_of_fmap. by exists c. }
    pose proof (partition_in total _ _ _ (c_offset c) K3 Hin ltac:(lia)). pose proof (partition_in total _ _ _ (c_offset c + c_size c - 1) K3 Hin ltac:(lia)).
    pose proof (proj1 (Forall_forall _ _) K6 _ Hin). split_and!; try done; lia.
  - intros i j c c' x Hi Hj Hne Hx Hx'.
    assert (Hj' : exists k, delete i (s_channels s) !! k = Some c').
    { destruct (decide (j < i)%nat); [exists j; by rewrite list_lookup_delete_lt|exists (Nat.pred j)].
      rewrite list_lookup_delete_ge by lia. by replace (S (Nat.pred j)) with j by lia. }
    destruct Hj' as [k Hk]. eapply (partition_disjoint total _ _ _ _ _ _ x K3); [|exact Hx|exact Hx'].
    rewrite K4, (delete_Permutation _ _ _ Hi). simpl. apply perm_skip. rewrite (delete_Permutation _ _ _ Hk). simpl. done.
Qed.

(** C23: In every state that a connection reaches, [allocateRange] behaves as the specification
    with nothing but the set of the allocated ranges: it throws exactly when no gap of that size
    is left between them, and otherwise takes the lowest one, since the free list has each gap as one entry. *)
Theorem nvls_first_fit (total gran : Z) (n : Impl) (w : world) (l : list nvls_op) (s : nvls) (size : Z) :
  0 < total < 2 ^ 64 -> 0 < gran < 2 ^ 64 -> minMcGran_ n = gran -> n_ranges n = mkRanges [] [(0, total)] ->
  nvls_run (mkNvls n w []) l = Some s -> 0 < size ->
  let r := n_ranges (s_impl s) in
  match allocateRange size r with
  | Ok (off, r') => gap total off size r /\ (forall o, gap total o size r -> off <= o) /\ allocatedRanges_ r' = allocatedRanges_ r ++ [(off, size)]
  | Throw e => e = EError InvalidUsage /\ forall o, ~ gap total o size r
  end.
Proof.
  intros Ht Hg Hm Hr H Hs r. destruct (nvls_ok_run total gran (g_allocHandle (gpuIpcMem_ n)) Ht Hg l _ s [] (nvls_ok_fresh total gran _ Ht n w Hm eq_refl Hr) H)
    as [leaked K]. pose proof (k_part _ _ _ _ _ K) as K3. fold r in K3.
  assert (Hall : forall o, gap total o size r -> exists off r', allocateRange size r = Ok (off, r') /\ off <= o).
  { intros o (G1 & G2 & G3). by apply (allocate_complete total). }
  destruct (allocateRange size r) as [[off r']|e] eqn:E.
  - destruct (allocate_ok total size r off r' ltac:(lia) K3 ltac:(lia) E) as ([_ P1] & P2 & P3 & P4). split; [|split; [|done]].
    + split_and!; [done|done|]. intros x Hx. specialize (P1 x). rewrite P4, times_app in P1. unfold times in P1 at 2. simpl in P1.
      rewrite covers_in in P1 by done. unfold times in P1. unfold times. revert P1. case_bool_decide; lia.
    + intros o Ho. destruct (Hall o Ho) as (off' & r'' & [= <- <-] & Hle). done.
  - split; [|intros o Ho; destruct (Hall o Ho) as (? & ? & ? & ?); done]. unfold allocateRange in E.
    destruct (freeRanges_ r); [by injection E as <-|]. destruct (take_fit _ _) as [[]|]; [done|]. by injection E as <-.
Qed.

(** When the channels that a process has bound are all released, in any order, it holds what it
    held before, and the multicast object is one free range again.  Until then every channel is
    mapped and its range is bound. *)
Theorem nvls_all_released (total gran : Z) (n : Impl) (w : world) (l : list nvls_op) (s : nvls) :
  0 < total < 2 ^ 64 -> 0 < gran < 2 ^ 64 -> minMcGran_ n = gran -> n_ranges n = mkRanges [] [(0, total)] ->
  clean (mkNvls n w []) l -> nvls_run (mkNvls n w []) l = Some s ->
  (forall c, c ∈ s_channels s ->
     w_mapped (s_world s) !! mu_ptr (c_map c) = Some (c_offset c + c_size c, g_allocHandle (gpuIpcMem_ n)) /\
     (g_allocHandle (gpuIpcMem_ n), c_offset c, c_size c) ∈ w_bound (s_world s)) /\
  (s_channels s = [] ->
     n_ranges (s_impl s) = mkRanges [] [(0, total)] /\ w_reserved (s_world s) = w_reserved w /\ w_mapped (s_world s) = w_mapped w /\
     w_bound (s_world s) ≡ₚ w_bound w /\ w_refs (s_world s) = w_refs w).
Proof.
  intros Ht Hg Hm Hr Hc H. set (alloc := g_allocHandle (gpuIpcMem_ n)).
  assert (H0 : held alloc w (mkNvls n w [])).
  { split; simpl; try done; [constructor|intros b Hb; by apply elem_of_nil in Hb|intros c Hb; by apply elem_of_nil in Hb]. }
  destruct (clean_run total gran alloc Ht Hg w l _ s (nvls_ok_fresh total gran _ Ht n w Hm eq_refl Hr) H0 Hc H)
    as [[K1 K2 K3 K4 [K5 K6] K7] [H1 H2 H3 H4 H5 H6]]. split.
  - intros c Hin. split; [by apply H4|]. rewrite H5. apply elem_of_app. left. apply list_elem_of_fmap. by exists c.
  - intros E. rewrite E in *. simpl in *. apply Permutation_nil_r in K4. split_and!.
    + destruct (n_ranges (s_impl s)) as [al fr] eqn:Er. simpl in *. subst al. f_equal. apply (all_free total (mkRanges [] fr)); [lia|done|done].
    + apply map_eq. intros b. apply H3. intros Hb. by apply elem_of_nil in Hb.
    + apply map_eq. intros b. apply H3. intros Hb. by apply elem_of_nil in Hb.
    + done.
    + apply H6.
Qed.

(** A bind that throws after it has taken its range, as when the memory is not aligned, never
    gives it back: whatever happens later, the range stays allocated and no channel gets it. *)
Theorem nvls_failed_bind_leaks (total gran : Z) (n : Impl) (w : world) (l l' : list nvls_op) (s s1 s2 : nvls)
    (d : multimap_answers) (ptr size off : Z) (r : ranges) (e : exn) :
  0 < total < 2 ^ 64 -> 0 < gran < 2 ^ 64 -> minMcGran_ n = gran -> n_ranges n = mkRanges [] [(0, total)] ->
  nvls_run (mkNvls n w []) l = Some s ->
  allocateRange (align_up gran size) (n_ranges (s_impl s)) = Ok (off, r) ->
  (bindAllocatedMemory d ptr size (s_impl s) (s_world s)).1.1 = Throw e ->
  nvls_step s (Bind d ptr size) = Some s1 -> nvls_run s1 l' = Some s2 ->
  (off, align_up gran size) ∈ allocatedRanges_ (n_ranges (s_impl s2)) /\
  forall c x, c ∈ s_channels s2 -> c_offset c <= x < c_offset c + c_size c -> ~ off <= x < off + align_up gran size.
Proof.
  intros Ht Hg Hm Hr H Ha Hb Hs H'. set (alloc := g_allocHandle (gpuIpcMem_ n)).
  destruct (nvls_ok_run total gran alloc Ht Hg l _ s [] (nvls_ok_fresh total gran _ Ht n w Hm eq_refl Hr) H) as [leaked K]. simpl in K.
  assert (K1 : nvls_ok total gran alloc (leaked ++ [(off, align_up gran size)]) s1).
  { destruct K as [K1 K2 K3 K4 [K5 K6] K7]. simpl in Hs. destruct (bindAllocatedMemory d ptr size (s_impl s) (s_world s)) as [[res n'] w'] eqn:Eb.
    injection Hs as <-. destruct (bind_step total gran alloc Ht Hg _ _ _ _ _ _ _ _ Eb K1 K2 K3 K5) as (G1 & G2 & G3 & G4 & G5).
    rewrite Ha in G5. destruct G5 as (E1 & E2 & E3 & _). simpl in Hb. subst res. split; simpl; rewrite ?E1 in *; try done.
    - by rewrite E3, K4, app_assoc.
    - split; [done|]. rewrite E3. apply Forall_app. split; [done|]. by apply Forall_singleton. }
  destruct (nvls_ok_run total gran alloc Ht Hg l' s1 s2 _ K1 H') as [more K2]. rewrite <- app_assoc in K2. simpl in K2.
  pose proof (k_alloc _ _ _ _ _ K2) as Hal. split.
  - rewrite Hal. apply elem_of_app. right. apply elem_of_app. right. by left.
  - intros c x [i Hi]%list_elem_of_lookup_1 Hx Hx'.
    eapply (partition_disjoint total _ (c_offset c) (c_size c) off (align_up gran size) _ x (k_part _ _ _ _ _ K2)); [|done|done].
    rewrite Hal, (delete_Permutation _ _ _ Hi). simpl. apply perm_skip. rewrite app_assoc. by rewrite <- Permutation_middle.
Qed.

(** Connecting a group: the least rank makes the object and sends it once to every other rank of
    the list; each of them receives it from that rank, and when it can import it, has a connection
    with the same granularity, number of devices and free range; other ranks are refused. *)
Theorem nvls_group_agrees (pid : Z) (cache : option bool) (d : root_answers) (bufferSize : Z) (allRanks peers : list Z) (root : Z)
    (n : Impl) (msgs : list (Z * list Z)) (w w' : world) :
  NoDup allRanks -> Z.of_nat (length allRanks) < 2 ^ 31 -> nvls_role root allRanks = Some (Ok (RRoot peers)) ->
  connect_root pid cache d bufferSize allRanks peers w = (Ok (n, msgs), w') ->
  (forall h, localGpuIpcMemHandle_ n = Some h -> cwf c_GpuIpcMemHandle h) -> is_u 64 (minMcGran_ n) ->
  (forall rank, rank ∉ allRanks -> nvls_role rank allRanks = Some (Throw (EError InvalidUsage))) /\
  forall rank, rank ∈ allRanks -> rank <> root -> nvls_role rank allRanks = Some (Ok (RPeer root)) /\
    exists wire, filter (fun m : Z * list Z => m.1 = rank) msgs = [(rank, wire)] /\
    forall di rest, exists m, connect_peer di (wire ++ rest) = Some (m, rest) /\
      forall v n2 v', m v = (Ok n2, v') -> minMcGran_ n2 = minMcGran_ n /\ numDevices_ n2 = numDevices_ n /\
        numDevices_ n = Z.of_nat (length allRanks) /\ n_ranges n2 = n_ranges n /\ isRoot_ n2 = false.
Proof.
  intros Hnd Hlen Hrole Hc Hwf Hg. destruct (role_spec allRanks root peers Hrole) as [-> Hall]. split.
  { intros rank Hr. rewrite Hall. by rewrite decide_False. }
  intros rank Hr Hne. split; [by rewrite Hall, decide_True, decide_False|].
  unfold connect_root in Hc. revert Hc. cbv beta iota zeta delta [mbind mret M_bind M_ret].
  destruct (Impl_create _ _ _ _ _ _) as [[[n1 ca]|e] v1] eqn:Ei; [|done].
  destruct (create_root _ _ _ _ _ _ _ _ _ Ei) as (h & Eh & Eroot & Enum & Erange).
  destruct (Impl_serialize n1) as [data|e] eqn:Es; [|done]. intros [= -> <- ->].
  destruct (serialize_import n h Eroot Eh (Hwf h Eh) Hg ltac:(rewrite Enum; lia)) as (data' & Es' & Hlen' & Hd). rewrite Es' in Es. injection Es as ->.
  exists (send_vector data). split.
  - assert (Hf : forall l, NoDup l -> rank ∈ l -> filter (fun m : Z * list Z => m.1 = rank)
      ((fun peer => (peer, send_vector data)) <$> filter (fun r => r <> root) l) = [(rank, send_vector data)]).
    { clear -Hne. induction l as [|r l IH]; intros Hn Hin; [by apply elem_of_nil in Hin|]. apply NoDup_cons in Hn as [Hr Hn].
      rewrite filter_cons. apply elem_of_cons in Hin as [->|Hin].
      - rewrite decide_True by done. rewrite fmap_cons, filter_cons, decide_True by done. f_equal.
        destruct (filter _ (_ <$> _)) as [|x rest] eqn:E; [done|]. exfalso. assert (Hx : x ∈ x :: rest) by (by left). rewrite <- E in Hx.
        apply list_elem_of_filter in Hx as [Hx1 Hx2]. apply list_elem_of_fmap in Hx2 as (p & -> & Hp). apply list_elem_of_filter in Hp as [_ Hp]. simpl in Hx1. by subst.
      - destruct (decide (r <> root)); [|by apply IH]. rewrite fmap_cons, filter_cons, decide_False; [by apply IH|]. simpl. by intros ->. }
    by apply Hf.
  - intros di rest. unfold connect_peer. rewrite (proj1 (vector_roundtrip data rest 0 Hlen')). cbn [mbind option_bind]. unfold Impl_import.
    rewrite Hd. cbn [mbind option_bind]. eexists. split; [done|]. intros v n2 v'. cbv beta iota zeta delta [mbind mret M_bind M_ret].
    destruct (GpuIpcMem_create di h v) as [[g|e] v2] eqn:Eg; [|done]. intros [= <- <-]. simpl. by rewrite Erange, Enum.
Qed.

(** ** Witnesses *)

Definition demo_impl : Impl :=
  mkImpl None (mkGpuIpcMem (mkGpuIpcMemHandle 2 16384 0 (replicate 64 0) 42 5 (replicate 64 0) 0) 77 (-1) Type_PosixFd) 4096 false 2 (mkRanges [] [(0, 16384)]).
Definition demo_bind (p : Z) : multimap_answers :=
  mkMultimapAnswers (Some 1) CUDA_SUCCESS (CUDA_SUCCESS, 4096) (Ok true) CUDA_SUCCESS (Some p) CUDA_SUCCESS CUDA_SUCCESS.
Definition demo_ops : list nvls_op :=
  [Bind (demo_bind 65536) 8192 5000; Bind (demo_bind 131072) 16384 4096; Release 0; Bind (demo_bind 262144) 20480 100].

Lemma nvls_ranges_disjoint_witness :
  exists s, nvls_run (mkNvls demo_impl demo_world []) demo_ops = Some s /\ range_of <$> s_channels s = [(8192, 4096); (0, 4096)] /\
    forall c, c ∈ s_channels s -> c_offset c mod 4096 = 0.
Proof.
  destruct (nvls_run (mkNvls demo_impl demo_world []) demo_ops) as [s|] eqn:E; [|vm_compute in E; discriminate].
  exists s. split; [reflexivity|]. split; [vm_compute in E; injection E as <-; reflexivity|].
  intros c Hc. destruct (nvls_ranges_disjoint 16384 4096 demo_impl demo_world demo_ops s ltac:(lia) ltac:(lia) eq_refl eq_refl E) as [H _].
  by destruct (H c Hc) as (_ & _ & _ & ? & _).
Defined.

Lemma nvls_first_fit_witness :
  exists s r', nvls_run (mkNvls demo_impl demo_world []) demo_ops = Some s /\ allocateRange 4096 (n_ranges (s_impl s)) = Ok (4096, r') /\
    forall o, gap 16384 o 4096 (n_ranges (s_impl s)) -> 4096 <= o.
Proof.
  destruct (nvls_run (mkNvls demo_impl demo_world []) demo_ops) as [s|] eqn:E; [|vm_compute in E; discriminate].
  pose proof (nvls_first_fit 16384 4096 demo_impl demo_world demo_ops s 4096 ltac:(lia) ltac:(lia) eq_refl eq_refl E ltac:(lia)) as H.
  cbv zeta in H. destruct (allocateRange 4096 (n_ranges (s_impl s))) as [[off r']|e] eqn:Ea; [|exfalso; vm_compute in E; injection E as <-; vm_compute in Ea; discriminate].
  assert (off = 4096) as -> by (vm_compute in E; injection E as <-; vm_compute in Ea; by injection Ea as <- _).
  exists s, r'. split; [reflexivity|]. split; [done|]. apply H.
Defined.

Lemma nvls_all_released_witness :
  exists s, nvls_run (mkNvls demo_impl demo_world []) (demo_ops ++ [Release 1; Release 0]) = Some s /\ n_ranges (s_impl s) = mkRanges [] [(0, 16384)].
Proof.
  destruct (nvls_run (mkNvls demo_impl demo_world []) (demo_ops ++ [Release 1; Release 0])) as [s|] eqn:E; [|vm_compute in E; discriminate].
  exists s. split; [reflexivity|].
  apply (nvls_all_released 16384 4096 demo_impl demo_world (demo_ops ++ [Release 1; Release 0]) s ltac:(lia) ltac:(lia) eq_refl eq_refl).
  - vm_compute. repeat split.
  - exact E.
  - vm_compute in E. injection E as <-. reflexivity.
Defined.

Lemma nvls_failed_bind_leaks_witness :
  exists s2, nvls_run (mkNvls demo_impl demo_world []) [Bind (demo_bind 65536) 1 16384; Bind (demo_bind 65536) 4096 4096] = Some s2 /\
    s_channels s2 = [] /\ (0, 16384) ∈ allocatedRanges_ (n_ranges (s_impl s2)).
Proof.
  destruct (nvls_step (mkNvls demo_impl demo_world []) (Bind (demo_bind 65536) 1 16384)) as [s1|] eqn:E1; [|vm_compute in E1; discriminate].
  destruct (nvls_run s1 [Bind (demo_bind 65536) 4096 4096]) as [s2|] eqn:E2; [|vm_compute in E1; injection E1 as <-; vm_compute in E2; discriminate].
  exists s2. split; [cbn [nvls_run]; rewrite E1; exact E2|]. split; [vm_compute in E1; injection E1 as <-; vm_compute in E2; by injection E2 as <-|].
  exact (proj1 (nvls_failed_bind_leaks 16384 4096 demo_impl demo_world [] [Bind (demo_bind 65536) 4096 4096] (mkNvls demo_impl demo_world []) s1 s2
    (demo_bind 65536) 1 16384 0 (mkRanges [(0, 16384)] []) (EError InvalidUsage) ltac:(lia) ltac:(lia) eq_refl eq_refl eq_refl eq_refl eq_refl E1 E2)).
Defined.

Definition demo_root : root_answers :=
  mkRootAnswers (mkMulticastAnswers (mkFabricAnswers CUDA_SUCCESS (CUDA_SUCCESS, false) CUDA_SUCCESS CUDA_SUCCESS 5 CUDA_SUCCESS)
    (CUDA_SUCCESS, 4096) CUDA_SUCCESS 77 (Some 5) None CUDA_SUCCESS) (mkImportAnswers None (Ok 6) 77 true) (CUDA_SUCCESS, 4096) (CUDA_SUCCESS, 0).

Lemma nvls_group_agrees_witness :
  exists n wire w' m n2 v', connect_root 42 None demo_root 10000 [3; 1; 2] [3; 2] demo_world = (Ok (n, [(3, wire); (2, wire)]), w') /\
    nvls_role 2 [3; 1; 2] = Some (Ok (RPeer 1)) /\
    connect_peer (mkImportAnswers None (Ok 9) 77 true) wire = Some (m, []) /\ m demo_world = (Ok n2, v') /\ n_ranges n2 = n_ranges n.
Proof.
  destruct (connect_root 42 None demo_root 10000 [3; 1; 2] [3; 2] demo_world) as [[[n msgs]|e] w'] eqn:E; [|vm_compute in E; discriminate].
  assert (Hm : exists wire, msgs = [(3, wire); (2, wire)]).
  { vm_compute in E. injection E as _ <- _. by eexists. }
  destruct Hm as [wire ->].
  destruct (nvls_group_agrees 42 None demo_root 10000 [3; 1; 2] [3; 2] 1 n [(3, wire); (2, wire)] demo_world w') as [_ H].
  - repeat constructor; set_solver.
  - done.
  - reflexivity.
  - exact E.
  - intros h Hh. vm_compute in E. injection E as <- _ _. injection Hh as <-. simpl. split_and!; try done; lia.
  - vm_compute in E. injection E as <- _ _. done.
  - destruct (H 2 ltac:(set_solver) ltac:(done)) as (Hrole & wire' & Hf & Hp). injection Hf as <-.
    destruct (Hp (mkImportAnswers None (Ok 9) 77 true) []) as (m & Hm & Hr). rewrite app_nil_r in Hm.
    destruct (m demo_world) as [[n2|e] v'] eqn:Em.
    + exists n, wire, w', m, n2, v'. split; [reflexivity|]. split; [done|]. split; [done|]. split; [done|]. by apply (Hr demo_world n2 v').
    + exfalso. vm_compute in E. injection E as _ <- _. vm_compute in Hm. injection Hm as <-. vm_compute in Em. discriminate.
Defined.
