(* ===== verification/UnixSocket.v ===== *)
(** * Passing file descriptors

    Models src/core/unix_socket.cc: the server thread of a process, which hands out the
    descriptors that the process has registered, and the clients of other processes,
    which keep one connection per server and share it among their threads.

    The system is one server process and its clients, interleaved at their system
    calls and critical sections.  A request is one message of four bytes and an answer
    one message with a descriptor; what a descriptor refers to is an open file, and the
    kernel's passing of a descriptor is the passing of its file.  [sendAll] and [recvAll],
    which make messages out of partial transfers, are modelled on the kernel's answers. *)

From S2P Require Import Prelude Errors.
Local Open Scope Z_scope.

(** ** Whole transfers *)

(** What [send] or [recv] answers: the number of bytes taken or given, or an error. *)
Inductive answer := Transferred (n : nat) | Interrupted | Failed.

(** The bytes that have been sent when it returns; [None]: no answer yet. *)
Fixpoint sendAll (answers : list answer) (buffer : list Z) : option (result (list Z)) :=
  match buffer, answers with
  | [], _ => Some (Ok [])
  | _, [] => None
  | _, Interrupted :: l => sendAll l buffer
  | _, Failed :: _ => Some (Throw ESysError)
  | _, Transferred n :: l =>
      r ← sendAll l (drop n buffer);
      Some (sent ← r; Ok (take n buffer ++ sent))
  end.

(** [stale]: whether [errno] is EINTR from an earlier call when [recv] returns 0, which
    does not set it; [stream]: what the peer has sent. *)
Fixpoint recvAll (answers : list answer) (stale : bool) (stream : list Z) (size : nat) : option (result (list Z)) :=
  match size, answers with
  | O, _ => Some (Ok [])
  | _, [] => None
  | _, Interrupted :: l => recvAll l true stream size
  | _, Failed :: _ => Some (Throw ESysError)
  | _, Transferred O :: l => if stale then recvAll l stale stream size else Some (Throw ESysError)
  | _, Transferred n :: l =>
      let n := Nat.min n size in
      r ← recvAll l stale (drop n stream) (size - n);
      Some (rest ← r; Ok (take n stream ++ rest))
  end.

(** ** The system *)

(** A connection: requests and answers under way, and the ends that are closed. *)
Record conn := mkConn { q_req : list Z; q_resp : list Z; q_closed : bool; q_dead : bool }.

(** What [poll] reports of a connection. *)
Inductive event := EvHup | EvIn | EvNone.

Inductive srv_pc :=
  | SPoll | SVisit (todo : list (nat * event))      (* the loop over the connections polled *)
  | SCrashed (e : exn) | SStopped.

Record server := mkServer {
  sv_pc : srv_pc; sv_clients : list nat; sv_fdSet : gset Z;
  sv_files : gmap Z Z;              (* the descriptors of the process, and their files *)
  sv_abort : bool
}.

(** A thread: requests it has still to make, the first of which it is making; and what it got. *)
Inductive req_pc := TStart | TConnect | TCache (c : nat) | TSend (c : nat) | TRecv (c : nat).
Record thread := mkThread { th_todo : list Z; th_pc : req_pc; th_got : list (Z * result Z) }.

(** A client process: [cachedFds_] for the one server, and its threads. *)
Record client := mkClient { cl_cached : option nat; cl_threads : list thread }.

Record system := mkSystem { s_server : server; s_backlog : list nat; s_conns : list conn; s_clients : list client }.

Definition set_server (s : system) (v : server) : system := mkSystem v (s_backlog s) (s_conns s) (s_clients s).
Definition set_conn (s : system) (c : nat) (q : conn) : system :=
  mkSystem (s_server s) (s_backlog s) (<[c := q]> (s_conns s)) (s_clients s).
Definition kill (q : conn) : conn := mkConn (q_req q) (q_resp q) (q_closed q) true.
Definition hang_up (q : conn) : conn := mkConn (q_req q) (q_resp q) true (q_dead q).

(** *** The server *)

Definition registerFd (v : server) (fd : Z) : result server :=
  if decide (fd ∈ sv_fdSet v) then Throw (EError InvalidUsage)
  else Ok (mkServer (sv_pc v) (sv_clients v) ({[fd]} ∪ sv_fdSet v) (sv_files v) (sv_abort v)).
Definition unregisterFd (v : server) (fd : Z) : server :=
  mkServer (sv_pc v) (sv_clients v) (sv_fdSet v ∖ {[fd]}) (sv_files v) (sv_abort v).

Definition revents (s : system) (c : nat) : event :=
  match s_conns s !! c with
  | Some q => if q_closed q then EvHup else match q_req q with [] => EvNone | _ => EvIn end
  | None => EvNone
  end.

Definition goto (s : system) (p : srv_pc) : system :=
  let v := s_server s in set_server s (mkServer p (sv_clients v) (sv_fdSet v) (sv_files v) (sv_abort v)).

(** An exception in the server's thread: the thread ends when it is being stopped;
    else the exception leaves it, which ends the process and all its connections. *)
Definition main_throws (s : system) (e : exn) : system :=
  if sv_abort (s_server s) then goto s SStopped
  else let s := goto s (SCrashed e) in mkSystem (s_server s) [] (map kill (s_conns s)) (s_clients s).

(** One step of [mainLoop]; [None]: [poll] goes on waiting. *)
Definition server_step (s : system) : option system :=
  let v := s_server s in
  match sv_pc v with
  | SCrashed _ | SStopped => None
  | SPoll =>
      if sv_abort v then
        let s := goto s SStopped in
        Some (mkSystem (s_server s) (s_backlog s)
                (imap (fun c q => if decide (c ∈ sv_clients v) then kill q else q) (s_conns s)) (s_clients s))
      else
        let polled := map (fun c => (c, revents s c)) (sv_clients v) in
        match s_backlog s with
        | c :: backlog =>
            Some (mkSystem (mkServer (SVisit polled) (sv_clients v ++ [c]) (sv_fdSet v) (sv_files v) (sv_abort v))
                    backlog (s_conns s) (s_clients s))
        | [] =>
            if forallb (fun x => match x.2 with EvNone => true | _ => false end) polled then None
            else Some (goto s (SVisit polled))
        end
  | SVisit [] => Some (goto s SPoll)
  | SVisit ((c, EvNone) :: todo) => Some (goto s (SVisit todo))
  | SVisit ((c, EvHup) :: todo) =>
      q ← s_conns s !! c;
      let s := set_conn s c (kill q) in
      Some (set_server s (mkServer (SVisit todo) (filter (fun x => x <> c) (sv_clients v)) (sv_fdSet v) (sv_files v) (sv_abort v)))
  | SVisit ((c, EvIn) :: todo) =>
      q ← s_conns s !! c;
      match q_req q with
      | [] => None
      | fd :: reqs =>
          let s := set_conn s c (mkConn reqs (q_resp q) (q_closed q) (q_dead q)) in
          if decide (fd ∈ sv_fdSet v) then
            if q_closed q then Some (main_throws s ESysError) else
            match sv_files v !! fd with
            | None => Some (main_throws s ESysError)
            | Some file => Some (goto (set_conn s c (mkConn reqs (q_resp q ++ [file]) (q_closed q) (q_dead q))) (SVisit todo))
            end
          else Some (main_throws s (EError InvalidUsage))
      end
  end.

(** *** A client *)

(** The request of a thread ends. *)
Definition finish (th : thread) (r : result Z) : thread :=
  match th_todo th with id :: todo => mkThread todo TStart (th_got th ++ [(id, r)]) | [] => th end.
Definition set_pc (th : thread) (p : req_pc) : thread := mkThread (th_todo th) p (th_got th).

(** The thread and the process after a step of [requestFd], with the connections. *)
Definition request_step (s : system) (cached : option nat) (th : thread) : option (thread * option nat * system) :=
  match th_pc th with
  | TStart =>
      match th_todo th with
      | [] => None
      | _ => Some (set_pc th (match cached with Some c => TSend c | None => TConnect end), cached, s)
      end
  | TConnect =>
      match sv_pc (s_server s) with
      | SCrashed _ | SStopped => Some (finish th (Throw ESysError), cached, s)
      | _ => let c := length (s_conns s) in
             Some (set_pc th (TCache c), cached,
                   mkSystem (s_server s) (s_backlog s ++ [c]) (s_conns s ++ [mkConn [] [] false false]) (s_clients s))
      end
  | TCache c =>
      match cached with
      | None => Some (set_pc th (TSend c), Some c, s)
      | Some c' => q ← s_conns s !! c'; Some (set_pc th (TSend c), Some c, set_conn s c' (hang_up q))
      end
  | TSend c =>
      q ← s_conns s !! c;
      if q_closed q || q_dead q then Some (finish th (Throw ESysError), cached, s) else
      match th_todo th with
      | [] => None
      | id :: _ => Some (set_pc th (TRecv c), cached, set_conn s c (mkConn (q_req q ++ [id]) (q_resp q) (q_closed q) (q_dead q)))
      end
  | TRecv c =>
      q ← s_conns s !! c;
      if q_closed q then Some (finish th (Throw ESysError), cached, s) else
      match q_resp q with
      | file :: resps => Some (finish th (Ok file), cached, set_conn s c (mkConn (q_req q) resps (q_closed q) (q_dead q)))
      | [] => if q_dead q then Some (finish th (Throw ESysError), cached, s) else None
      end
  end.

(** *** Interleaving *)

Inductive action := AServer | AThread (p t : nat).

Definition step (s : system) (a : action) : option system :=
  match a with
  | AServer => server_step s
  | AThread p t =>
      cl ← s_clients s !! p;
      th ← cl_threads cl !! t;
      '(th, cached, s) ← request_step s (cl_cached cl) th;
      Some (mkSystem (s_server s) (s_backlog s) (s_conns s) (<[p := mkClient cached (<[t := th]> (cl_threads cl))]> (s_clients s)))
  end.

Fixpoint run (s : system) (l : list action) : option system :=
  match l with [] => Some s | a :: l' => s' ← step s a; run s' l' end.

(** A server that listens, and clients whose threads have requests to make. *)
Definition initial (fdSet : gset Z) (files : gmap Z Z) (requests : list (list (list Z))) : system :=
  mkSystem (mkServer SPoll [] fdSet files false) [] []
    (map (fun ths => mkClient None (map (fun ids => mkThread ids TStart []) ths)) requests).

(** ** Lemmas: transfers *)

Lemma sendAll_whole answers : forall buffer sent, sendAll answers buffer = Some (Ok sent) -> sent = buffer.
Proof.
  induction answers as [|a l IH]; intros [|b buffer] sent H; simpl in H; try done; try (injection H as H; by subst).
  destruct a as [n| |]; [|by apply IH|done]. destruct (sendAll l (drop n (b :: buffer))) as [[rest|e]|] eqn:E; simpl in H; try done.
  injection H as <-. rewrite (IH _ _ E). apply take_drop.
Qed.

Lemma recvAll_whole answers : forall stale stream size got, (size <= length stream)%nat ->
  recvAll answers stale stream size = Some (Ok got) -> got = take size stream.
Proof.
  induction answers as [|a l IH]; intros stale stream [|size] got Hs H; cbn [recvAll] in H; try done; try (injection H as H; by subst).
  destruct a as [[|n]| |]; [destruct stale; [by eapply IH|done]| |by eapply IH|done].
  match type of H with context [recvAll l ?a ?b ?c] => destruct (recvAll l a b c) as [[rest|e]|] eqn:E end; cbn [mbind option_bind result_bind] in H; try done.
  injection H as <-. change (S (Nat.min n size)) with (Nat.min (S n) (S size)). set (k := Nat.min (S n) (S size)) in *. assert (k <= S size)%nat by (unfold k; lia).
  apply IH in E; [|rewrite length_drop; lia]. rewrite E.
  rewrite <- (take_drop k (take (S size) stream)), take_take, Nat.min_l by lia. f_equal.
  by rewrite skipn_firstn_comm.
Qed.

(** ** Lemmas: lists of lists *)

Lemma concat_unique {A} (ls : list (list A)) : forall i j l l' x, NoDup (concat ls) -> ls !! i = Some l -> ls !! j = Some l' ->
  x ∈ l -> x ∈ l' -> i = j.
Proof.
  induction ls as [|k ls IH]; intros [|i] [|j] l l' x Hn Hi Hj Hx Hx'; simpl in *; simplify_eq; try done.
  - apply NoDup_app in Hn as (_ & Hn & _). destruct (Hn x Hx). apply list_elem_of_In, in_concat. exists l'.
    split; apply list_elem_of_In; [by eapply list_elem_of_lookup_2|done].
  - apply NoDup_app in Hn as (_ & Hn & _). destruct (Hn x Hx'). apply list_elem_of_In, in_concat. exists l.
    split; apply list_elem_of_In; [by eapply list_elem_of_lookup_2|done].
  - apply NoDup_app in Hn as (_ & _ & Hn). f_equal. by eapply IH.
Qed.

Lemma concat_add {A} (ls : list (list A)) : forall i x, ls !! i = Some [] -> concat (<[i := [x]]> ls) ≡ₚ x :: concat ls.
Proof.
  induction ls as [|k ls IH]; intros [|i] x H; simpl in *; simplify_eq; [done|]. rewrite (IH i x H). by rewrite Permutation_middle.
Qed.

(** ** Lemmas: clients of one thread each *)

Section served.
Context (fdSet : gset Z) (files : gmap Z Z) (requests : list (list Z)).
Hypothesis Hserved : forall ids id, ids ∈ requests -> id ∈ ids -> id ∈ fdSet /\ is_Some (files !! id).

(** The connection that is, or is about to be, the client's. *)
Definition owned (cl : client) : list nat :=
  match cl_cached cl with
  | Some c => [c]
  | None => match cl_threads cl with [th] => match th_pc th with TCache c => [c] | _ => [] end | _ => [] end
  end.

Definition pc_ok (cached : option nat) (th : thread) : Prop :=
  match th_pc th with
  | TStart => True
  | TConnect | TCache _ => cached = None /\ th_todo th <> []
  | TSend c | TRecv c => cached = Some c /\ th_todo th <> []
  end.

Definition answered (x : Z * result Z) : Prop := exists file, x.2 = Ok file /\ files !! x.1 = Some file.

Record client_ok (ids : list Z) (cl : client) (th : thread) : Prop := {
  k_threads : cl_threads cl = [th];
  k_pc : pc_ok (cl_cached cl) th;
  k_ids : map fst (th_got th) ++ th_todo th = ids;
  k_got : Forall answered (th_got th)
}.

(** The connection of a client holds its request, or the answer, or nothing. *)
Definition conn_ok (th : thread) (q : conn) : Prop :=
  q_closed q = false /\ q_dead q = false /\
  match th_pc th with
  | TRecv _ => (q_req q = take 1 (th_todo th) /\ q_resp q = []) \/
       (q_req q = [] /\ exists file, q_resp q = [file] /\ forall id, head (th_todo th) = Some id -> files !! id = Some file)
  | _ => q_req q = [] /\ q_resp q = []
  end.

Definition visit_ok (s : system) (x : nat * event) : Prop :=
  x.1 ∈ sv_clients (s_server s) /\
  match x.2 with EvHup => False | EvIn => exists q, s_conns s !! x.1 = Some q /\ q_req q <> [] | EvNone => True end.

Record inv (s : system) : Prop := {
  i_server : sv_fdSet (s_server s) = fdSet /\ sv_files (s_server s) = files /\ sv_abort (s_server s) = false;
  i_pc : match sv_pc (s_server s) with
         | SPoll => True
         | SVisit todo => NoDup (map fst todo) /\ Forall (visit_ok s) todo
         | _ => False
         end;
  i_places : seq 0 (length (s_conns s)) ≡ₚ s_backlog s ++ sv_clients (s_server s);
  i_owned : seq 0 (length (s_conns s)) ≡ₚ concat (map owned (s_clients s));
  i_clients : forall p ids, requests !! p = Some ids -> exists cl th, s_clients s !! p = Some cl /\ client_ok ids cl th /\
    forall c q, c ∈ owned cl -> s_conns s !! c = Some q -> conn_ok th q;
  i_length : length (s_clients s) = length requests
}.

Lemma owner s c : inv s -> (c < length (s_conns s))%nat -> exists p cl ids th, s_clients s !! p = Some cl /\ requests !! p = Some ids /\
  c ∈ owned cl /\ client_ok ids cl th /\ forall q, s_conns s !! c = Some q -> conn_ok th q.
Proof using.
  intros I Hc. assert (Hin : c ∈ concat (map owned (s_clients s))) by (rewrite <- (i_owned s I), elem_of_seq; lia).
  apply list_elem_of_In, in_concat in Hin as (l & Hl & Hx). apply list_elem_of_In in Hl, Hx.
  apply list_elem_of_fmap in Hl as (cl & -> & Hcl). apply list_elem_of_lookup_1 in Hcl as [p Hp].
  destruct (lookup_lt_is_Some_2 requests p) as [ids Hids]; [rewrite <- (i_length s I); by apply lookup_lt_Some in Hp|].
  destruct (i_clients s I p ids Hids) as (cl' & th & Hcl' & Hok & Hq). assert (cl' = cl) as -> by congruence.
  exists p, cl, ids, th. split_and!; try done. intros q. by apply Hq.
Qed.

Lemma owned_lt s p cl c : inv s -> s_clients s !! p = Some cl -> c ∈ owned cl -> (c < length (s_conns s))%nat.
Proof using.
  intros I Hp Hc. assert (Hin : c ∈ concat (map owned (s_clients s))).
  { apply list_elem_of_In, in_concat. exists (owned cl). split; apply list_elem_of_In; [|done]. apply list_elem_of_fmap.
    exists cl. split; [done|]. by eapply list_elem_of_lookup_2. }
  rewrite <- (i_owned s I), elem_of_seq in Hin. lia.
Qed.

Lemma owner_unique s p p' cl cl' c : inv s -> s_clients s !! p = Some cl -> s_clients s !! p' = Some cl' ->
  c ∈ owned cl -> c ∈ owned cl' -> p = p'.
Proof using.
  intros I Hp Hp' Hc Hc'. apply (concat_unique (map owned (s_clients s)) p p' (owned cl) (owned cl') c); try done.
  - rewrite <- (i_owned s I). apply NoDup_seq.
  - by rewrite list_lookup_fmap, Hp.
  - by rewrite list_lookup_fmap, Hp'.
Qed.

Lemma sock_inv_initial : inv (initial fdSet files (map (fun ids => [ids]) requests)).
Proof using.
  split; simpl; try done.
  - rewrite map_map. clear. induction requests as [|ids l IH]; [done|]. exact IH.
  - intros p ids Hp. rewrite !map_map. eexists _, _. split; [by rewrite list_lookup_fmap, Hp|]. split; [by split|].
    intros c q Hc. by apply elem_of_nil in Hc.
  - by rewrite !length_map.
Qed.

(** *** A step of a client *)

Lemma client_of s p cl : inv s -> s_clients s !! p = Some cl -> exists ids th, requests !! p = Some ids /\ client_ok ids cl th /\
  forall c q, c ∈ owned cl -> s_conns s !! c = Some q -> conn_ok th q.
Proof using.
  intros I Hp. destruct (lookup_lt_is_Some_2 requests p) as [ids Hids]; [rewrite <- (i_length s I); by apply lookup_lt_Some in Hp|].
  destruct (i_clients s I p ids Hids) as (cl' & th & Hcl' & Hok & Hq). assert (cl' = cl) as -> by congruence. by exists ids, th.
Qed.

Lemma visit_conns s s' : sv_clients (s_server s') = sv_clients (s_server s) ->
  (forall c q, s_conns s !! c = Some q -> q_req q <> [] -> exists q', s_conns s' !! c = Some q' /\ q_req q' <> []) ->
  forall x, visit_ok s x -> visit_ok s' x.
Proof using.
  intros Ec Hc [c e] [H1 H2]. split; [by rewrite Ec|]. simpl in *. destruct e; [done| |done].
  destruct H2 as (q & Hq & Hr). by apply (Hc c q).
Qed.

Lemma sock_inv_move s p ids cl th cached' th' conns' : inv s -> requests !! p = Some ids -> s_clients s !! p = Some cl -> client_ok ids cl th ->
  client_ok ids (mkClient cached' [th']) th' -> owned (mkClient cached' [th']) = owned cl -> length conns' = length (s_conns s) ->
  (forall c, c ∉ owned cl -> conns' !! c = s_conns s !! c) ->
  (forall c q, c ∈ owned cl -> conns' !! c = Some q -> conn_ok th' q) ->
  (forall c q, s_conns s !! c = Some q -> q_req q <> [] -> exists q', conns' !! c = Some q' /\ q_req q' <> []) ->
  inv (mkSystem (s_server s) (s_backlog s) conns' (<[p := mkClient cached' [th']]> (s_clients s))).
Proof using.
  intros I Hids Hp Hok Hok' Ho Hlen Hother Hconn Hreq. destruct I as [I1 I2 I3 I4 I5 I6]. split; simpl; try done.
  - destruct (sv_pc (s_server s)); try done. destruct I2 as [Hn Hv]. split; [done|].
    eapply Forall_impl; [exact Hv|]. intros x. apply visit_conns; done.
  - by rewrite Hlen.
  - rewrite Hlen, I4. change (map owned ?l) with (owned <$> l). rewrite list_fmap_insert, Ho, list_insert_id; [done|].
    by rewrite list_lookup_fmap, Hp.
  - intros p' ids' Hids'. destruct (decide (p = p')) as [<-|Hne].
    + assert (ids' = ids) as -> by congruence. exists (mkClient cached' [th']), th'. split; [|split; [done|]].
      * apply list_lookup_insert_eq. by apply lookup_lt_Some in Hp.
      * intros c q. rewrite Ho. apply Hconn.
    + destruct (I5 p' ids' Hids') as (cl' & thr & Hcl' & Hok2 & Hq). exists cl', thr. split; [by rewrite list_lookup_insert_ne|].
      split; [done|]. intros c q Hc. rewrite Hother; [by apply Hq|]. intros Hin. apply Hne.
      eapply (owner_unique s p p' cl cl' c); by try split.
  - by rewrite length_insert.
Qed.

Lemma inv_connect s p ids cl th : inv s -> requests !! p = Some ids -> s_clients s !! p = Some cl -> client_ok ids cl th -> th_pc th = TConnect ->
  let n := length (s_conns s) in
  inv (mkSystem (s_server s) (s_backlog s ++ [n]) (s_conns s ++ [mkConn [] [] false false])
         (<[p := mkClient (cl_cached cl) [set_pc th (TCache n)]]> (s_clients s))).
Proof using.
  intros I Hids Hp Hok Hpc n. pose proof (k_pc _ _ _ Hok) as Hk. unfold pc_ok in Hk. rewrite Hpc in Hk. destruct Hk as [Hc Htodo].
  assert (Hown : owned cl = []) by (unfold owned; by rewrite Hc, (k_threads _ _ _ Hok), Hpc).
  pose proof I as [I1 I2 I3 I4 I5 I6]. fold n in I3, I4.
  assert (Hseq : seq 0 (length (s_conns s ++ [mkConn [] [] false false])) = seq 0 n ++ [n]) by (by rewrite length_app, seq_app).
  split; cbn [s_server s_backlog s_conns s_clients]; try done.
  - destruct (sv_pc (s_server s)); try done. destruct I2 as [Hn Hv]. split; [done|].
    eapply Forall_impl; [exact Hv|]. intros x. apply visit_conns; [done|]. intros c q Hq Hr. exists q. split; [|done].
    by apply lookup_app_l_Some.
  - rewrite Hseq, I3. rewrite <- !app_assoc. apply Permutation_app_head, Permutation_app_comm.
  - rewrite Hseq, Permutation_app_comm, I4. change (map owned ?l) with (owned <$> l). rewrite list_fmap_insert.
    replace (owned (mkClient (cl_cached cl) [set_pc th (TCache n)])) with [n] by (unfold owned; simpl; by rewrite Hc).
    rewrite concat_add; [done|]. by rewrite list_lookup_fmap, Hp; simpl; rewrite Hown.
  - intros p' ids' Hids'. destruct (decide (p = p')) as [<-|Hne].
    + assert (ids' = ids) as -> by congruence. eexists _, _. split; [apply list_lookup_insert_eq; by apply lookup_lt_Some in Hp|].
      split; [destruct Hok; split; try done|]. unfold owned. simpl. rewrite Hc. intros c q Hin%list_elem_of_singleton. subst c.
      unfold n. rewrite list_lookup_middle by done. intros [= <-]. done.
    + destruct (I5 p' ids' Hids') as (cl' & thr & Hcl' & Hok2 & Hq). exists cl', thr. split; [by rewrite list_lookup_insert_ne|].
      split; [done|]. intros c q Hin. rewrite lookup_app_l by (eapply owned_lt; [exact I|exact Hcl'|done]). by apply Hq.
  - by rewrite length_insert.
Qed.

(** What a client holds after a step that leaves the others alone. *)
Definition with_client (s : system) (p : nat) (cached : option nat) (th : thread) : system :=
  mkSystem (s_server s) (s_backlog s) (s_conns s) (<[p := mkClient cached [th]]> (s_clients s)).

Lemma inv_pc s p ids cl th th' cached' : inv s -> requests !! p = Some ids -> s_clients s !! p = Some cl -> client_ok ids cl th ->
  client_ok ids (mkClient cached' [th']) th' -> owned (mkClient cached' [th']) = owned cl ->
  (forall c q, c ∈ owned cl -> s_conns s !! c = Some q -> conn_ok th' q) -> inv (with_client s p cached' th').
Proof using.
  intros I Hids Hp Hok Hok' Ho Hc. unfold with_client. eapply (sock_inv_move s p ids cl th); eauto.
Qed.

Lemma inv_conn s p ids cl th th' c q q' : inv s -> requests !! p = Some ids -> s_clients s !! p = Some cl -> client_ok ids cl th ->
  cl_cached cl = Some c -> client_ok ids (mkClient (Some c) [th']) th' -> s_conns s !! c = Some q -> conn_ok th' q' ->
  (q_req q <> [] -> q_req q' <> []) -> inv (with_client (set_conn s c q') p (Some c) th').
Proof using.
  intros I Hids Hp Hok Hcl Hok' Hq Hq' Hr. unfold with_client, set_conn. cbn [s_server s_backlog s_conns s_clients].
  assert (Hlt : (c < length (s_conns s))%nat) by (by apply lookup_lt_Some in Hq).
  assert (Ho : owned cl = [c]) by (unfold owned; by rewrite Hcl).
  apply (sock_inv_move s p ids cl th); try done.
  - by rewrite length_insert.
  - intros c' Hc'. rewrite Ho in Hc'. apply list_lookup_insert_ne. intros <-. apply Hc'. by constructor.
  - intros c' r Hc' Hr'. rewrite Ho in Hc'. apply list_elem_of_singleton in Hc' as ->. rewrite list_lookup_insert_eq in Hr' by done. by simplify_eq.
  - intros c' r Hr' Hne. destruct (decide (c = c')) as [<-|].
    + exists q'. rewrite list_lookup_insert_eq by done. split; [done|]. apply Hr. by simplify_eq.
    + exists r. by rewrite list_lookup_insert_ne.
Qed.

Lemma request_inv s p ids cl th th' cached' s1 : inv s -> requests !! p = Some ids -> s_clients s !! p = Some cl -> client_ok ids cl th ->
  (forall c q, c ∈ owned cl -> s_conns s !! c = Some q -> conn_ok th q) ->
  request_step s (cl_cached cl) th = Some (th', cached', s1) -> inv (with_client s1 p cached' th').
Proof using.
  intros I Hids Hp Hok Hconn H. pose proof (k_pc _ _ _ Hok) as Hk. unfold pc_ok in Hk. unfold request_step in H.
  assert (Hthr := k_threads _ _ _ Hok). assert (Hg := k_got _ _ _ Hok).
  assert (Hown : forall c, cl_cached cl = Some c -> owned cl = [c]) by (intros c Hc; unfold owned; by rewrite Hc).
  assert (Hq : forall c q, cl_cached cl = Some c -> s_conns s !! c = Some q -> conn_ok th q).
  { intros c q Hc. apply Hconn. rewrite (Hown c Hc). by constructor. }
  destruct (th_pc th) as [| |c|c|c] eqn:Epc.
  - destruct (th_todo th) as [|id todo] eqn:Et; [done|]. simplify_eq.
    apply (inv_pc s1 p ids cl th); try done.
    + split; simpl; try done; [|exact (k_ids _ _ _ Hok)]. unfold pc_ok. destruct (cl_cached cl); simpl; by rewrite Et.
    + unfold owned. rewrite Hthr. simpl. rewrite Epc. by destruct (cl_cached cl).
    + intros c q Hc Hl. destruct (Hconn c q Hc Hl) as (? & ? & Hm). rewrite Epc in Hm. unfold conn_ok. simpl. by destruct (cl_cached cl).
  - assert (Hpc : exists pc, sv_pc (s_server s) = pc /\ match pc with SPoll | SVisit _ => True | _ => False end).
    { eexists. split; [done|]. generalize (i_pc s I). by destruct (sv_pc (s_server s)). }
    destruct Hpc as (pc & Hpc & Hpc'). rewrite Hpc in H. assert (Some (set_pc th (TCache (length (s_conns s))), cl_cached cl,
      mkSystem (s_server s) (s_backlog s ++ [length (s_conns s)]) (s_conns s ++ [mkConn [] [] false false]) (s_clients s)) = Some (th', cached', s1))
      as Hs by (by destruct pc). simplify_eq. unfold with_client. simpl. by apply (inv_connect s p ids).
  - destruct Hk as [Hc Htodo]. rewrite Hc in H. simplify_eq. apply (inv_pc s1 p ids cl th); try done.
    + split; try done. exact (k_ids _ _ _ Hok).
    + unfold owned. by rewrite Hc, Hthr, Epc.
    + intros c' q Hc' Hl. destruct (Hconn c' q Hc' Hl) as (? & ? & Hm). rewrite Epc in Hm. by unfold conn_ok.
  - destruct Hk as [Hc Htodo]. destruct (s_conns s !! c) as [q|] eqn:El; [|done]. simpl in H.
    destruct (Hq c q Hc El) as (Hcl & Hde & Hm). rewrite Hcl, Hde in H. rewrite Epc in Hm. destruct Hm as [Hr1 Hr2]. simpl in H.
    destruct (th_todo th) as [|id todo] eqn:Et; [done|]. simplify_eq. rewrite Hc. apply (inv_conn s p ids cl th _ c q); try done.
    + split; simpl; try done; [|exact (k_ids _ _ _ Hok)]. unfold pc_ok. simpl. by rewrite Et.
    + split_and!; simpl; [done|done|]. left. rewrite Et, Hr1, Hr2. done.
  - destruct Hk as [Hc Htodo]. destruct (s_conns s !! c) as [q|] eqn:El; [|done]. simpl in H.
    destruct (Hq c q Hc El) as (Hcl & Hde & Hm). rewrite Hcl, Hde in H. rewrite Epc in Hm.
    destruct Hm as [[Hr1 Hr2]|(Hr1 & file & Hr2 & Hf)]; rewrite Hr2 in H; [done|].
    destruct (th_todo th) as [|id todo] eqn:Et; [done|]. simplify_eq. rewrite Hc. apply (inv_conn s p ids cl th _ c q); try done.
    + unfold finish. rewrite Et. split; simpl; try done.
      * rewrite map_app, <- app_assoc. rewrite <- (k_ids _ _ _ Hok), Et. done.
      * apply Forall_app. split; [done|]. apply Forall_singleton. exists file. split; [done|]. by apply Hf.
    + unfold finish. rewrite Et. by split_and!.
Qed.
(** *** A step of the server *)

Lemma inv_serve s pc clients ids fs abort backlog conns : inv s -> ids = fdSet -> fs = files -> abort = false -> length conns = length (s_conns s) ->
  backlog ++ clients ≡ₚ s_backlog s ++ sv_clients (s_server s) ->
  (forall p cl th c q, s_clients s !! p = Some cl -> c ∈ owned cl -> (forall q, s_conns s !! c = Some q -> conn_ok th q) ->
     conns !! c = Some q -> conn_ok th q) ->
  let s' := mkSystem (mkServer pc clients ids fs abort) backlog conns (s_clients s) in
  match pc with SPoll => True | SVisit todo => NoDup (map fst todo) /\ Forall (visit_ok s') todo | _ => False end ->
  inv s'.
Proof using.
  intros I -> -> -> Hlen Hpl Hconn s' Hpc. pose proof I as [I1 I2 I3 I4 I5 I6]. split; simpl; try done.
  - by rewrite Hlen, I3.
  - by rewrite Hlen.
  - intros p ids Hids. destruct (I5 p ids Hids) as (cl & th & Hcl & Hok & Hq). exists cl, th. split; [done|]. split; [done|].
    intros c q Hc. apply (Hconn p cl); [done|done|]. intros q'. by apply Hq.
Qed.

Lemma polled_ok s clients : inv s -> (forall c, c ∈ sv_clients (s_server s) -> c ∈ clients) ->
  let polled := map (fun c => (c, revents s c)) (sv_clients (s_server s)) in
  forall v backlog, sv_clients v = clients ->
  NoDup (map fst polled) /\ Forall (visit_ok (mkSystem v backlog (s_conns s) (s_clients s))) polled.
Proof using.
  intros I Hc polled v backlog Hv. assert (Hn : NoDup (s_backlog s ++ sv_clients (s_server s))).
  { rewrite <- (i_places s I). apply NoDup_seq. }
  apply NoDup_app in Hn as (_ & _ & Hn). split.
  - unfold polled. rewrite map_map. simpl. by rewrite map_id.
  - apply Forall_forall. intros x Hx. apply list_elem_of_fmap in Hx as (c & -> & Hin). split; simpl; [rewrite Hv; auto|].
    unfold revents. destruct (s_conns s !! c) as [q|] eqn:Eq; [|done].
    destruct (owner s c I) as (p & cl & ids & th & _ & _ & _ & _ & Hq); [by apply lookup_lt_Some in Eq|].
    destruct (Hq q Eq) as (-> & _). destruct (q_req q) eqn:Er; [done|]. exists q. by rewrite Er.
Qed.

(** The request at the head of a connection is served: its answer is under way. *)
Lemma serve_conn s c q : inv s -> s_conns s !! c = Some q -> q_req q <> [] -> exists id file,
  q_req q = [id] /\ q_resp q = [] /\ q_closed q = false /\ q_dead q = false /\ id ∈ fdSet /\ files !! id = Some file /\
  forall p cl th, s_clients s !! p = Some cl -> c ∈ owned cl -> conn_ok th q -> conn_ok th (mkConn [] [file] false false).
Proof using Hserved.
  intros I Hq Hne. destruct (owner s c I) as (p & cl & ids & th & Hp & Hids & Hc & Hok & Hconn); [by apply lookup_lt_Some in Hq|].
  destruct (Hconn q Hq) as (H1 & H2 & H3). pose proof (k_pc _ _ _ Hok) as Hk. unfold pc_ok in Hk.
  destruct (th_pc th); try by destruct H3. destruct Hk as [_ Hk], H3 as [[H3 H4]|[H3 _]]; [|done].
  destruct (th_todo th) as [|id todo] eqn:Et; [done|]. rewrite H3. destruct (Hserved ids id) as (Hin & file & Hfile).
  { by eapply list_elem_of_lookup_2. }
  { rewrite <- (k_ids _ _ _ Hok), Et. apply elem_of_app. right. by constructor. }
  exists id, file. split_and!; try done. intros p' cl' th' Hp' Hc' (_ & _ & Hm). split_and!; try done.
  destruct (th_pc th'); try (by rewrite H3 in Hm; destruct Hm). right. split; [done|]. exists file. split; [done|].
  rewrite H3 in Hm. destruct Hm as [[Hm _]|[Hm _]]; [|done]. intros id'. destruct (th_todo th'); simpl in *; [done|]. congruence.
Qed.

Lemma server_inv s s' : inv s -> server_step s = Some s' -> inv s'.
Proof using Hserved.
  intros I H. pose proof I as [[I11 [I12 I13]] I2 I3 I4 I5 I6]. unfold server_step in H.
  destruct (sv_pc (s_server s)) as [|todo| |] eqn:Epc; try done.
  - rewrite I13 in H. destruct (s_backlog s) as [|c backlog] eqn:Eb.
    + destruct (forallb _ _); [done|]. simplify_eq. unfold goto, set_server.
      apply inv_serve; try done; [naive_solver|]. by apply (polled_ok s (sv_clients (s_server s))).
    + simplify_eq. apply inv_serve; try done; [|naive_solver|].
      * rewrite Eb. simpl. rewrite Permutation_middle. apply Permutation_app_head. apply Permutation_app_comm.
      * apply (polled_ok s (sv_clients (s_server s) ++ [c])); [done| |done]. intros c' Hc'. apply elem_of_app. by left.
  - destruct todo as [|[c ev] todo].
    + simplify_eq. apply inv_serve; try done. naive_solver.
    + destruct I2 as [[Hnin Hn]%NoDup_cons [Hv Hvs]%Forall_cons]. destruct ev; [by destruct Hv| |].
      * destruct Hv as [Hin (q & Hq & Hne)]. simpl in Hq. rewrite Hq in H. simpl in H.
        destruct (serve_conn s c q I Hq Hne) as (id & file & E1 & E2 & E3 & E4 & E5 & E6 & E7). rewrite E1 in H. simpl in H.
        rewrite I11, I12, decide_True, E3, E6 in H by done. simplify_eq.
        set (conns := <[c := mkConn [] [file] false false]> (s_conns s)).
        replace (goto _ _) with (mkSystem (mkServer (SVisit todo) (sv_clients (s_server s)) (sv_fdSet (s_server s)) (sv_files (s_server s))
          (sv_abort (s_server s))) (s_backlog s) conns (s_clients s))
          by (unfold goto, set_conn, set_server; simpl; by rewrite list_insert_insert_eq, E2, ?E3, ?E4).
        assert (Hlt : (c < length (s_conns s))%nat) by (by apply lookup_lt_Some in Hq).
        apply inv_serve; try done; [by apply length_insert| |].
        -- intros p cl th c' q' Hp Hc Hold. destruct (decide (c = c')) as [<-|Hcc].
           ++ unfold conns. rewrite list_lookup_insert_eq by done. intros [= <-]. by apply (E7 p cl); auto.
           ++ unfold conns. rewrite list_lookup_insert_ne by done. apply Hold.
        -- split; [done|]. rewrite Forall_forall in Hvs |- *. intros [c' ev'] Hx. destruct (Hvs _ Hx) as [Hv1 Hv2]. split; [done|].
           simpl in *. destruct ev'; try done. unfold conns. rewrite list_lookup_insert_ne; [done|]. intros <-.
           apply Hnin. apply list_elem_of_fmap. by exists (c, EvIn).
      * simplify_eq. apply inv_serve; naive_solver.
Qed.

(** *** How long it takes *)

Definition cost_thread (th : thread) : nat :=
  10 * length (th_todo th) - match th_pc th with TStart => 0 | TConnect => 2 | TCache _ => 4 | TSend _ => 6 | TRecv _ => 8 end.
Definition cost_clients (l : list client) : nat := sum_list (map (fun cl => sum_list (map cost_thread (cl_threads cl))) l).
Definition pending (l : list conn) : nat := sum_list (map (fun q => length (q_req q)) l).
Definition cost (s : system) : nat := cost_clients (s_clients s) + length (s_backlog s) + pending (s_conns s).

(** A round of the server that finds a request costs less than one that finds none. *)
Definition rank (P : nat) (pc : srv_pc) : nat :=
  match pc with
  | SPoll => P + 1
  | SVisit todo => if existsb (fun x => match x.2 with EvIn => true | _ => false end) todo then length todo else P + 2 + length todo
  | _ => 0
  end.
Definition measure (P : nat) (s : system) : nat := cost s * (2 * P + 3) + rank P (sv_pc (s_server s)).

Lemma pending_set l c q q' : l !! c = Some q -> (pending (<[c := q']> l) + length (q_req q) = pending l + length (q_req q'))%nat.
Proof using.
  intros H. unfold pending. change (map ?f ?l) with (f <$> l). rewrite list_fmap_insert. apply sum_list_insert.
  by rewrite list_lookup_fmap, H.
Qed.

Lemma cost_client l p cl th cached th' : l !! p = Some cl -> cl_threads cl = [th] ->
  (cost_clients (<[p := mkClient cached [th']]> l) + cost_thread th = cost_clients l + cost_thread th')%nat.
Proof using.
  intros H Ht. unfold cost_clients. change (map ?f l) with (f <$> l). change (map ?f (<[?i := ?x]> ?l)) with (f <$> <[i := x]> l).
  rewrite list_fmap_insert. rewrite <- (Nat.add_0_r (cost_thread th)) at 1. rewrite <- (Nat.add_0_r (cost_thread th')).
  apply sum_list_insert. rewrite list_lookup_fmap, H. simpl. by rewrite Ht.
Qed.

Lemma request_cost s cached th th' cached' s1 : pc_ok cached th -> request_step s cached th = Some (th', cached', s1) ->
  s_clients s1 = s_clients s /\ sv_pc (s_server s1) = sv_pc (s_server s) /\
  (cost_thread th' + length (s_backlog s1) + pending (s_conns s1) < cost_thread th + length (s_backlog s) + pending (s_conns s))%nat.
Proof using.
  intros Hok H. unfold pc_ok in Hok. unfold request_step in H.
  assert (Hfin : forall r, th_todo th <> [] -> (cost_thread (finish th r) < cost_thread th)%nat).
  { intros r Hne. unfold cost_thread, finish. destruct (th_todo th) as [|id todo]; [done|]. simpl. destruct (th_pc th); lia. }
  destruct (th_pc th) as [| |c|c|c] eqn:Epc.
  - destruct (th_todo th) as [|id todo] eqn:Et; [done|]. simplify_eq. split_and!; try done. unfold cost_thread. rewrite Epc, Et.
    simpl. rewrite Et. destruct cached'; simpl; lia.
  - destruct Hok as [_ Hne]. assert (cost_thread (set_pc th (TCache (length (s_conns s)))) + 1 < cost_thread th)%nat.
    { unfold cost_thread. rewrite Epc. simpl. destruct (th_todo th); [done|]. simpl. lia. }
    specialize (Hfin (Throw ESysError) Hne).
    destruct (sv_pc (s_server s)) eqn:Es; simplify_eq; simpl; (split; [done|]); (split; [done|]); unfold pending; rewrite ?map_app, ?sum_list_with_app, ?length_app; simpl; lia.
  - destruct Hok as [-> Hne]. simplify_eq. split_and!; try done. unfold cost_thread. rewrite Epc. simpl.
    destruct (th_todo th); [done|]. simpl. lia.
  - destruct Hok as [-> Hne]. destruct (s_conns s !! c) as [q|] eqn:Eq; [|done]. simpl in H. specialize (Hfin (Throw ESysError) Hne).
    destruct (q_closed q || q_dead q); [simplify_eq; split_and!; try done; lia|]. destruct (th_todo th) as [|id todo] eqn:Et; [done|].
    simplify_eq. split_and!; try done. pose proof (pending_set _ _ _ (mkConn (q_req q ++ [id]) (q_resp q) (q_closed q) (q_dead q)) Eq) as Hp.
    simpl in *. rewrite length_app in Hp. simpl in Hp. unfold cost_thread. rewrite Epc. simpl. rewrite Et. simpl. lia.
  - destruct Hok as [-> Hne]. destruct (s_conns s !! c) as [q|] eqn:Eq; [|done]. simpl in H.
    assert (Hr := Hfin (Throw ESysError) Hne). destruct (q_closed q); [simplify_eq; split_and!; try done; lia|].
    destruct (q_resp q) as [|file resps]; [destruct (q_dead q); [|done]; simplify_eq; split_and!; try done; lia|].
    simplify_eq. split_and!; try done. specialize (Hfin (Ok file) Hne).
    pose proof (pending_set _ _ _ (mkConn (q_req q) resps false (q_dead q)) Eq) as Hp. simpl in *. lia.
Qed.

Lemma conns_bound s : inv s -> (length (s_conns s) <= length requests)%nat.
Proof using.
  intros I. rewrite <- (i_length s I). rewrite <- (length_seq (length (s_conns s)) 0) at 1. rewrite (i_owned s I). clear.
  induction (s_clients s) as [|cl l IH]; [done|]. simpl. rewrite length_app.
  assert (length (owned cl) <= 1)%nat; [|lia]. unfold owned. destruct (cl_cached cl); [done|].
  destruct (cl_threads cl) as [|th [|]]; simpl; try lia. destruct (th_pc th); simpl; lia.
Qed.

Lemma places_bound s l : inv s -> NoDup l -> (forall c, c ∈ l -> c ∈ sv_clients (s_server s)) -> (length l <= length requests)%nat.
Proof using.
  intros I Hn Hin. etrans; [apply (submseteq_length l (seq 0 (length (s_conns s))))|rewrite length_seq; by apply conns_bound].
  apply NoDup_submseteq; [done|]. intros c Hc. rewrite (i_places s I). apply elem_of_app. right. by apply Hin.
Qed.

Lemma todo_bound s todo : inv s -> sv_pc (s_server s) = SVisit todo -> (length todo <= length requests)%nat.
Proof using.
  intros I Hpc. pose proof (i_pc s I) as Ht. rewrite Hpc in Ht. destruct Ht as [Hn Hv].
  rewrite <- (length_map fst todo). apply (places_bound s); [done|done|]. intros c Hc. apply list_elem_of_fmap in Hc as (x & -> & Hx).
  rewrite Forall_forall in Hv. by apply Hv.
Qed.

Lemma rank_bound s : inv s -> (rank (length requests) (sv_pc (s_server s)) <= 2 * length requests + 2)%nat.
Proof using.
  intros I. destruct (sv_pc (s_server s)) as [|todo| |] eqn:Epc; simpl; try lia.
  pose proof (todo_bound s todo I Epc). destruct (existsb _ _); lia.
Qed.

Lemma no_event (polled : list (nat * event)) : Forall (fun x => x.2 <> EvHup) polled ->
  existsb (fun x => match x.2 with EvIn => true | _ => false end) polled = negb (forallb (fun x => match x.2 with EvNone => true | _ => false end) polled).
Proof using.
  induction 1 as [|[c e] l H Hl IH]; [done|]. simpl in *. rewrite IH. by destruct e.
Qed.

Lemma server_cost s s' : inv s -> server_step s = Some s' -> let P := length requests in (measure P s' < measure P s)%nat.
Proof using Hserved.
  intros I H P. assert (I' := server_inv s s' I H). assert (HP := rank_bound s' I'). fold P in HP. unfold measure.
  enough ((cost s' < cost s \/ (cost s' = cost s /\ rank P (sv_pc (s_server s')) < rank P (sv_pc (s_server s)))))%nat by nia.
  pose proof (i_server s I) as (I11 & I12 & I13). pose proof (i_pc s I) as I2. unfold server_step in H. unfold cost.
  destruct (sv_pc (s_server s)) as [|todo| |] eqn:Epc; try done.
  - rewrite I13 in H. destruct (s_backlog s) as [|c backlog] eqn:Eb.
    + destruct (forallb _ _) eqn:Ef; [done|]. simplify_eq. right. simpl. rewrite Eb. split; [done|].
      destruct (polled_ok s (sv_clients (s_server s)) I (fun c H => H) (s_server s) [] eq_refl) as [Hn Hv].
      rewrite no_event, Ef; [|eapply Forall_impl; [exact Hv|intros [c e] [_ Hx]; by destruct e]]. simpl. rewrite length_map.
      enough (length (sv_clients (s_server s)) <= P)%nat by lia. apply (places_bound s); [done| |done].
      rewrite map_map in Hn. simpl in Hn. by rewrite map_id in Hn.
    + simplify_eq. left. simpl. lia.
  - destruct todo as [|[c ev] todo].
    + simplify_eq. right. simpl. split; [done|lia].
    + destruct I2 as [_ [Hv _]%Forall_cons]. destruct ev; [by destruct Hv| |].
      * left. destruct Hv as [Hin (q & Hq & Hne)]. simpl in Hq. rewrite Hq in H. simpl in H.
        destruct (serve_conn s c q I Hq Hne) as (id & file & E1 & E2 & E3 & E4 & E5 & E6 & _). rewrite E1 in H. simpl in H.
        rewrite I11, I12, decide_True, E3, E6 in H by done. simplify_eq. simpl. rewrite list_insert_insert_eq.
        pose proof (pending_set _ _ _ (mkConn [] (q_resp q ++ [file]) (q_closed q) (q_dead q)) Hq) as Hp. rewrite E1, E3 in Hp. simpl in Hp. lia.
      * simplify_eq. right. simpl. split; [done|]. destruct (existsb _ _); lia.
Qed.

Lemma step_inv s a s' : inv s -> step s a = Some s' -> inv s' /\ (measure (length requests) s' < measure (length requests) s)%nat.
Proof using Hserved.
  intros I H. destruct a as [|p t]; simpl in H; [split; [by eapply server_inv|by apply server_cost]|].
  destruct (s_clients s !! p) as [cl|] eqn:Ep; [|done]. simpl in H. destruct (cl_threads cl !! t) as [th|] eqn:Et; [|done]. simpl in H.
  destruct (request_step s (cl_cached cl) th) as [[[th' cached'] s1]|] eqn:Er; [|done]. injection H as <-.
  destruct (client_of s p cl I Ep) as (ids & th0 & Hids & Hok & Hconn). pose proof (k_threads _ _ _ Hok) as Hth.
  rewrite Hth in Et. apply list_lookup_singleton_Some in Et as [-> ->]. rewrite Hth. simpl.
  destruct (request_cost _ _ _ _ _ _ (k_pc _ _ _ Hok) Er) as (Ec & Epc & Hcost). split.
  - by apply (request_inv s p ids cl th).
  - unfold measure. simpl. rewrite Epc. enough (cost (with_client s1 p cached' th') < cost s)%nat by (unfold with_client in *; nia).
    unfold cost, with_client. simpl. rewrite Ec. pose proof (cost_client _ _ _ _ cached' th' Ep Hth). lia.
Qed.

Lemma sock_run_inv l : forall s s', inv s -> run s l = Some s' -> inv s' /\ (length l + measure (length requests) s' <= measure (length requests) s)%nat.
Proof using Hserved.
  induction l as [|a l IH]; intros s s' I H; simpl in H; [by simplify_eq|]. destruct (step s a) as [s1|] eqn:E; [|done].
  destruct (step_inv s a s1 I E) as [I1 H1]. destruct (IH s1 s' I1 H) as [I2 H2]. split; [done|]. simpl. lia.
Qed.

(** A request or an accepted connection that waits lets the server move. *)
Lemma server_moves s c q : inv s -> server_step s = None -> s_conns s !! c = Some q -> q_req q = [].
Proof using Hserved.
  intros I Hsv Hq. destruct (decide (q_req q = [])) as [|Hreq]; [done|exfalso].
  pose proof (i_pc s I) as I2. pose proof (i_server s I) as (I11 & I12 & I13). unfold server_step in Hsv.
  destruct (serve_conn s c q I Hq Hreq) as (_ & _ & _ & _ & H1 & _). destruct (sv_pc (s_server s)) as [|todo| |] eqn:Es; try done.
  - rewrite I13 in Hsv. destruct (s_backlog s) as [|? ?] eqn:Eb; [|done]. destruct (forallb _ _) eqn:Ef; [|done].
    assert (Hin : c ∈ sv_clients (s_server s)).
    { pose proof (i_places s I) as Hpl. rewrite Eb in Hpl. simpl in Hpl. rewrite <- Hpl, elem_of_seq. apply lookup_lt_Some in Hq. lia. }
    assert (Hev : revents s c = EvIn) by (unfold revents; rewrite Hq, H1; by destruct (q_req q)).
    rewrite forallb_forall in Ef. specialize (Ef (c, EvIn)). simpl in Ef. discriminate Ef. apply in_map_iff. exists c.
    split; [by rewrite Hev|]. by apply list_elem_of_In.
  - destruct todo as [|[c' ev] todo]; [done|]. destruct I2 as [_ [Hv _]%Forall_cons]. destruct ev; [by destruct Hv| |done].
    destruct Hv as [_ (q' & Hq' & Hne')]. simpl in Hq'. rewrite Hq' in Hsv. simpl in Hsv.
    destruct (serve_conn s c' q' I Hq' Hne') as (id & file & E1 & E2 & E3 & E4 & E5 & E6 & _). rewrite E1 in Hsv.
    by rewrite I11, I12, decide_True, E3, E6 in Hsv.
Qed.

(** When nothing can move, every request has been answered. *)
Lemma stuck_done s : inv s -> (forall a, step s a = None) ->
  forall p ids, requests !! p = Some ids -> exists cached got, s_clients s !! p = Some (mkClient cached [mkThread [] TStart got]) /\
    map fst got = ids /\ Forall answered got.
Proof using Hserved.
  intros I Hst p ids Hids. destruct (i_clients s I p ids Hids) as (cl & th & Hp & Hok & Hconn).
  pose proof (k_threads _ _ _ Hok) as Hth. assert (Hr : request_step s (cl_cached cl) th = None).
  { specialize (Hst (AThread p 0)). simpl in Hst. rewrite Hp in Hst. simpl in Hst. rewrite Hth in Hst. simpl in Hst.
    by destruct (request_step s (cl_cached cl) th) as [[[? ?] ?]|]. }
  assert (Hsv := Hst AServer). simpl in Hsv. pose proof (i_pc s I) as I2. pose proof (k_pc _ _ _ Hok) as Hk. unfold pc_ok in Hk.
  assert (Hlk : forall c, cl_cached cl = Some c -> exists q, s_conns s !! c = Some q /\ conn_ok th q).
  { intros c Hc. assert (Hin : c ∈ owned cl) by (unfold owned; rewrite Hc; by constructor).
    destruct (lookup_lt_is_Some_2 (s_conns s) c) as [q Hq]; [by eapply owned_lt|]. exists q. split; [done|]. by apply (Hconn c). }
  unfold request_step in Hr. destruct (th_pc th) as [| |c|c|c] eqn:Epc.
  - destruct (th_todo th) as [|id todo] eqn:Et; [|done]. exists (cl_cached cl), (th_got th). split_and!.
    + rewrite Hp. f_equal. destruct cl as [ca ths], th as [td pc got]. simpl in *. by subst.
    + rewrite <- (k_ids _ _ _ Hok), Et. by rewrite app_nil_r.
    + exact (k_got _ _ _ Hok).
  - by destruct (sv_pc (s_server s)).
  - destruct Hk as [Hc _]. by rewrite Hc in Hr.
  - destruct Hk as [Hc Hne]. destruct (Hlk c Hc) as (q & Hq & H1 & H2 & _). rewrite Hq in Hr. simpl in Hr. rewrite H1, H2 in Hr. simpl in Hr.
    by destruct (th_todo th).
  - exfalso. destruct Hk as [Hc Hne]. destruct (Hlk c Hc) as (q & Hq & H1 & H2 & Hm). pose proof (server_moves s c q I Hsv Hq) as Hreq.
    rewrite Hq in Hr. simpl in Hr. rewrite H1, H2, Epc in *.
    destruct Hm as [[Hm _]|(_ & file & Hm & _)]; [|by rewrite Hm in Hr]. rewrite Hreq in Hm. by destruct (th_todo th).
Qed.

End served.

(** ** Properties *)

(** C19: With one thread per client process and every requested descriptor registered and open,
    the server hands out the right files whatever the interleaving of its steps and the clients':
    it never ends, each answer a client has got is the file registered under the id it asked for,
    in the order of its requests; no schedule is longer than a bound that the requests give; and
    where nothing can move any more every request has been answered. *)
Theorem requests_served (fdSet : gset Z) (files : gmap Z Z) (requests : list (list Z)) (l : list action) (s : system) :
  (forall ids id, ids ∈ requests -> id ∈ ids -> id ∈ fdSet /\ is_Some (files !! id)) ->
  run (initial fdSet files (map (fun ids => [ids]) requests)) l = Some s ->
  (forall e, sv_pc (s_server s) <> SCrashed e) /\
  (length l <= 10 * sum_list (map length requests) * (2 * length requests + 3) + length requests + 1)%nat /\
  (forall p ids, requests !! p = Some ids -> exists cached th, s_clients s !! p = Some (mkClient cached [th]) /\
     map fst (th_got th) ++ th_todo th = ids /\
     Forall (fun x => exists file, x.2 = Ok file /\ files !! x.1 = Some file) (th_got th) /\
     ((forall a, step s a = None) -> th_todo th = [])).
Proof.
  intros Hs H. destruct (sock_run_inv fdSet files requests Hs l _ s (sock_inv_initial fdSet files requests) H) as [I Hm]. split_and!.
  - intros e He. generalize (i_pc _ _ _ s I). by rewrite He.
  - enough (E : measure (length requests) (initial fdSet files (map (fun ids => [ids]) requests)) =
      (10 * sum_list (map length requests) * (2 * length requests + 3) + (length requests + 1))%nat) by lia.
    unfold measure, cost, cost_clients. simpl. rewrite !map_map. unfold pending. simpl. f_equal. f_equal. rewrite !Nat.add_0_r.
    clear. induction requests as [|ids l IH]; [done|]. simpl. rewrite IH. unfold cost_thread. simpl. lia.
  - intros p ids Hids. destruct (i_clients _ _ _ s I p ids Hids) as ([cached ths] & th & Hp & Hok & _).
    pose proof (k_threads _ _ _ _ Hok) as Hth. simpl in Hth. subst ths. exists cached, th. split_and!; [done|exact (k_ids _ _ _ _ Hok)|exact (k_got _ _ _ _ Hok)|].
    intros Hst. destruct (stuck_done fdSet files requests Hs s I Hst p ids Hids) as (c & got & Hp' & _ & _). rewrite Hp in Hp'. by simplify_eq.
Qed.

Lemma requests_served_witness :
  let l := [AThread 0 0; AThread 1 0; AThread 0 0; AThread 1 0; AServer; AThread 0 0; AThread 0 0; AServer; AServer; AServer; AServer; AThread 1 0; AThread 1 0; AServer; AServer; AThread 0 0] in
  exists s cached th, run (initial {[7; 8]} {[7 := 70; 8 := 80]} [[[7]]; [[8]]]) l = Some s /\
    s_clients s !! 0%nat = Some (mkClient cached [th]) /\ th_got th = [(7, Ok 70)] /\ map fst (th_got th) ++ th_todo th = [7].
Proof.
  intros l. destruct (run (initial {[7; 8]} {[7 := 70; 8 := 80]} [[[7]]; [[8]]]) l) as [s|] eqn:E; [|vm_compute in E; discriminate].
  destruct (requests_served {[7; 8]} {[7 := 70; 8 := 80]} [[7]; [8]] l s) as (_ & _ & H); [|exact E|].
  - intros ids id Hin Hid. apply list_elem_of_In in Hin, Hid. destruct Hin as [<-|[<-|[]]], Hid as [<-|[]].
    all: split; [apply (bool_decide_eq_true_1 _); by vm_compute|by eexists].
  - destruct (H 0%nat [7] eq_refl) as (cached & th & Hp & Hids & _). exists s, cached, th.
    split; [reflexivity|]. split; [exact Hp|]. split; [|exact Hids]. vm_compute in E. injection E as <-. by injection Hp as _ <-.
Defined.

(** Two threads of a client process share its connection to a server without a lock around a
    request and its answer, and there is a schedule in which each gets the other's file:
    the thread that asks for id 8 gets the file registered under 7, and conversely. *)
Theorem shared_connection_swaps : exists l s th0 th1,
  run (initial {[7; 8]} {[7 := 70; 8 := 80]} [[[7; 7]; [8]]]) l = Some s /\
  s_clients s !! 0%nat = Some (mkClient (Some 0%nat) [th0; th1]) /\ th_got th0 = [(7, Ok 70); (7, Ok 80)] /\ th_got th1 = [(8, Ok 70)].
Proof.
  exists [AThread 0 0; AThread 0 0; AServer; AThread 0 0; AThread 0 0; AServer; AServer; AServer; AServer; AThread 0 0;
    AThread 0 0; AThread 0 1; AThread 0 0; AThread 0 1; AServer; AServer; AServer; AThread 0 1; AServer; AServer; AServer; AThread 0 0].
  eexists _, _, _. vm_compute. split_and!; reflexivity.
Qed.

(** One request for a descriptor that is not registered ends the server process: a client whose
    own descriptor is registered is left without its answer. *)
Theorem unknown_request_ends_server : exists l s th,
  run (initial {[7]} {[7 := 70]} [[[9]]; [[7]]]) l = Some s /\ sv_pc (s_server s) = SCrashed (EError InvalidUsage) /\
  s_clients s !! 1%nat = Some (mkClient (Some 1%nat) [th]) /\ th_got th = [(7, Throw ESysError)].
Proof.
  exists [AThread 0 0; AThread 0 0; AServer; AThread 0 0; AThread 0 0; AThread 1 0; AThread 1 0; AThread 1 0; AThread 1 0; AServer; AServer; AServer; AThread 1 0].
  eexists _, _. vm_compute. split_and!; reflexivity.
Qed.
